(* ===== verification/_CoqProject ===== *)
-Q . S2P
Prelude.v
Range.v
OpsDoc.v
ByteSplice.v
PosMap.v
Splice.v
Derive.v
Special.v
Origin.v
IncrementDoc.v
Journal.v
Namespace.v
DocOrder.v
Volume.v
History.v
Rejected.v
Identity.v
Green.v
GreenOps.v
GreenState.v
GreenAccount.v
GreenReach.v
GreenSpec.v
GreenProps.v
GreenMerge.v
GreenRebase.v
GreenReaders.v
PlainJournal.v
DocFiles.v
SealedDoc.v
Work.v
Publish.v
RaftState.v
RaftLog.v
RaftElect.v
RaftReplicate.v
RaftFast.v
RaftAdmin.v
RaftInv.v
RaftAppend.v
RaftOps.v
RaftSaved.v
RaftQuorum.v
RaftSystem.v
RaftLive.v
RaftFindings.v
RaftSpec.v
RaftComplete.v
RaftFull.v
RaftWin.v
RaftFollow.v
RaftRefine.v
RaftAgree.v
RaftDurable.v
MultiLog.v
MultiMerge.v
MultiOrder.v
MultiGroup.v
BuddyBits.v
Buddy.v
BuddyTile.v
BuddyPool.v
BuddyImage.v
BuddyCore.v
BuddySettle.v
BuddyOps.v
BuddyProps.v
Segmented.v
Slab.v
SlabProps.v
Frame.v
AckGen.v
Stream.v
StreamSpace.v
SentTracker.v
Flight.v
Flow.v
Recovery.v
Path.v
Findings.v
