(* ===== verification/Prelude.v ===== *)
(** * Slates: a verification of the merge engine, its consensus, memory and transport

    Slates gives each coding agent an in-memory copy of a codebase and merges
    what the agents did.  Six parts of it are modelled here: the crate that
    decides merges, [crates/merge]; the work volumes of the shard service
    that feed it, of [crates/server]; the consensus node that replicates a
    shard group's decisions, [crates/cluster/src/raft.rs]; the multi-log
    that divides a group's log over several Raft logs,
    [crates/cluster/src/multilog.rs]; the allocators that volumes keep
    their bytes and objects in, the buddy allocator and the slab of
    [crates/mem]; and the reliability core of the transport between hosts,
    [crates/transport].

    An agent's work volume records its edits and declarations, keeping the
    files it changed and a journal of declared operations; the journal is
    composed against the base version into a canonical ops document; the
    document with its post-state bytes, assembled from the work's files, is an
    increment; a green (the merged
    volume) decides every dimension of the increment against what was merged
    since the increment's base and either commits a new version or answers the
    exact conflicting ranges.

    A Raft node holds a term, a vote, a log above a snapshot and a voter
    configuration; its host hands it messages and ticks, retains its state when
    it asks ([retention_pending]) and sends what it answers only then.  A
    leader replicates by batches; a fast track lets voters accept an entry
    proposed to all of them, which a later leader recovers from the windows
    its voters report.

    A multi-log is [n] Raft logs over the same voters.  A command on one key
    goes to the log its key hashes to, a global one to log 0; the leaders of the
    other logs append barriers that name global commands, and every replica
    merges the committed entries into one order by them.

    The transport carries streams between two hosts in packets of frames over
    datagrams that are lost, repeated and reordered: a sender frames a
    stream's bytes within its credit and tracks each packet until it is
    acknowledged or lost, a receiver records packet numbers, acknowledges them
    and puts the bytes back in order, and each end bounds the streams its peer
    may open.

    ** Files and what they model

    - [Prelude]: machine integers at their width (saturating and checked
      arithmetic), bytes and little-endian words, slices, the [result] monad,
      [BTreeMap]/[BTreeSet] as [gmap]/[gset] iterated in key order, with
      neighbours and ranges of keys, automation.

    The merge crate:
    - [Range] ([range.rs], [verdict.rs]): byte ranges, the sweep, verdicts.
    - [OpsDoc], [DocOrder] ([ops_doc.rs]): operation kinds, the path table, the
      document, its canonical order, its codec.
    - [ByteSplice] ([engine.rs], [apply] and its helpers): operations on bytes.
    - [PosMap] ([map.rs]): a base range carried forward through later deltas.
    - [Splice] ([splice.rs]): the same operations on extents.
    - [Derive] ([derive.rs]): the net operations of a file's journal.
    - [Special] ([special.rs], the codec), [Origin] ([origin.rs]),
      [IncrementDoc] ([engine.rs], [Increment]): codecs.
    - [Journal] ([increment.rs]): the replay of a volume's journal over
      entities and its classification; [Namespace]: directories, links, modes,
      attributes, IPC nodes, the file/directory collision check; [Volume]:
      [seal] and [compose_volume].
    - [History] ([engine.rs]): per-key version histories and one dimension of a
      green; [Rejected]: the bounded rejected-result cache; [Identity]
      ([identity.rs]): the set hash.
    - [Green] ([engine.rs]): state, [resolve], the per-dimension merges,
      [decide], [commit], [submit]; [GreenOps]: identity, seeding, folding,
      accounting, readers, [rebase].
    - [GreenState], [GreenAccount], [GreenReach]: the
      invariants of a green's state, the step relation of its operations, and
      concrete greens.
    - [GreenSpec], [GreenProps], [GreenMerge], [GreenRebase], [GreenReaders]: the
      theorems.
    - [PlainJournal], [DocFiles], [SealedDoc]: the journals of file
      operations, the documents they seal to, and what those documents say of
      each path; [Publish]: the composition of all of it, from a work's log
      to the committed version.
    - [Work] ([crates/server/src/work_files.rs], [work_log.rs], and of
      [verbs.rs] [assemble_post_state] and [build_increment]): a work's files
      as a delta over its base, its log and replay, the journal operations of
      an edit, and the sealing of a work into an increment.
    - [Findings]: evaluated runs whose result is not what the source's comments
      say.

    The Raft node:
    - [RaftState]: messages, log, window, retained state and its validation,
      admission of peer messages, the node's record; [RaftLog]: positions,
      configurations and majorities, appending, truncating, compacting,
      recovery, the commit rule; [RaftElect]: pre-votes, votes, the recovery of
      a won election; [RaftReplicate]: append and snapshot handlers, the
      window, progress, batches; [RaftFast]: proposals, the fast track;
      [RaftAdmin]: quorum checks, staging, transfers, reads, membership.
    - [RaftOps]: the operations as one type with [handle]; [RaftInv],
      [RaftAppend]: the invariant of a node, what no operation
      undoes, and that every operation keeps both.
    - [RaftSaved], [RaftQuorum], [RaftSystem], [RaftLive]: the theorems;
      [RaftSystem] is a group of nodes on an asynchronous network as a step
      relation.
    - [RaftSpec]: the replicated log, an abstract machine over whole logs in
      which a term has one owner, hosts follow it and a quorum's
      acknowledgements choose a prefix; [RaftComplete]: its steps keep leader
      completeness.  [RaftFull], [RaftWin], [RaftFollow]: what a node's
      operations do to its log with the compacted prefix, as a leader, in an
      election and as a follower; [RaftRefine], [RaftAgree]: the simulation of
      the group by the machine, operation by operation, and agreement.
    - [RaftDurable]: agreement over time, between what a host has retained and
      what any host commits later.
    - [RaftFindings]: evaluated runs, as [Findings].

    The multi-log:
    - [MultiLog] ([multilog.rs]): entries and their bytes, routing, the merge
      ([advance] and its loops, each a turn function run to its end), a node's
      share of the group and all its operations.
    - [MultiMerge]: turns of different logs commute, up to commands on
      different keys ([same_trace]); the loops end where no log may go on.
      [MultiOrder]: what replicas apply, what the merge waits for, a single
      log.  [MultiGroup]: the multi-log over Raft groups, each a [System] of
      [RaftSystem]; the scan for global commands and the barriers.

    The memory crate ([crates/mem]):
    - [BuddyBits] ([error.rs], [buddy.rs]): the crate's refusals, and bitmaps;
      [Buddy] ([buddy.rs]): every operation of the
      buddy allocator, its fields in three records: the pool that tiles the
      region, the bitmaps images read, the shape.
    - [BuddyTile]: tilings of a region by aligned blocks, and the free
      lists.  [BuddyPool]: the pool's invariant and what splitting, merging,
      taking and freeing do to it.  [BuddyImage]: the image bitmaps.
      [BuddyCore]: the whole invariant.  [BuddySettle]: commits, abandons
      and trims.  [BuddyOps]: the region of live blocks, and that each
      operation implements its step.  [BuddyProps]: runs and what they promise.
    - [Segmented] ([segmented.rs]): storage that grows by segments, and the
      interface [SlotStore] a slab takes of it.  [Slab] ([handle.rs],
      [slab.rs]): handles, their packed words and every operation of a slab over
      any such storage, and the slab's invariant.  [SlabProps]: the
      handle map a slab refines, its room, successors, and the words.

    The transport ([crates/transport]):
    - [Frame] ([session.rs], the reader of [lib.rs], [packet_number.rs]): frames
      and truncated packet numbers, and their bytes.
    - [AckGen] ([conn.rs], [AckGenerator]): the ranges received and their
      acknowledgement.  [SentTracker] ([conn.rs]): the packets in flight,
      acknowledgement and loss, and a sender and a receiver over a network as
      a run of events.
    - [Stream] ([stream.rs]): the sender and the assembler of a stream, and a
      stream over a network.  [StreamSpace] ([streams.rs]): stream identifiers,
      limits and credits, and two ends over a network.
    - [Flow] ([flow.rs], and how [connection.rs] drives it): the credits a
      receiver advertises, and a stream under them.  [Flight] ([flight.rs]):
      handshake flights cut, sealed and put together.  [Recovery] ([pacer.rs],
      [rtt.rs], [reorder.rs]): pacing, round trips, reordering.  [Path]
      ([pmtud.rs], [params.rs]): the search for the path's largest datagram,
      and the parameters a peer declares.

    A green's state is the record [State] (each dimension a [Dim]: current
    map, histories, last-changed map), with the identity's running sum, the
    accepted identities, the cache, the fold floor and the fast-path counter
    beside it in [Green].  The specification of a green is [GreenSpec.Tree]:
    a green is an append-only log of trees.  A node's state is [RaftNode], with
    the fields of the source grouped by what they are for.

    ** What the theorems show

    - End to end ([Publish.work_published]): the increment a shard builds of
      a work's edits, unlinks and renames of new files, submitted on the head,
      is accepted; the new version has the work's paths and lengths, and the
      work's bytes in every file that is new or in which no operation that adds
      bytes follows a net change of length.  Where one does, the shard reads
      the file at base offsets and publishes other bytes
      ([Publish.shifted_edit_published_wrong]).
    - Merging: a submission appends exactly one tree, made by the decided
      effects, or changes nothing; pinned versions never change; no file's
      bytes are lost that the increment's author had not seen; uncontended
      edits are exact; retries are idempotent; a rebase previews the commit.
    - Composition: the deriver's net operations and the sealed emissions
      reproduce the file system the journal describes; each namespace composer
      gives exactly the net change.
    - Positions: cleanly mapped ranges hold the same bytes; mapped edit lists
      stay canonical; splicing extents is applying to bytes; the sweep names
      exactly the ranges that meet.
    - Identity and accounting: the incremental head identity is the recomputed
      one; the running byte totals are the recounted ones; folds keep what
      readers can reach, terminate, and release what they drop; the cache is
      bounded.
    - Codecs: encoding and decoding are inverse on well-formed values, any
      bytes that decode give well-formed values, canonical forms are unique.
    - A Raft node: what a node retains validates and restores, when the
      snapshots it installed agreed with its commits and no voter set repeated
      a host; terms, votes, the commit index and the snapshot are never taken
      back, whatever the inputs, nor is the committed prefix where snapshots
      agree with it; no retained field changes without the retention flag.
    - A Raft group: a term has at most one leader, through loss, delay,
      reordering, repetition and crashes, whatever snapshots say; the commit rule commits exactly what
      a majority holds; what a fast quorum chose, every classic quorum
      recovers; an answered round of a current candidate elects it.
    - Agreement: a follower answers an append with the end of its whole log,
      so it can acknowledge entries of an earlier leader that the append does
      not cover, and committed entries can then differ
      ([RaftFindings.stale_tail_breaks_agreement]).  In every run in which no
      such acknowledgement is sent ([RaftAgree.covered]: the index told is
      within the message or the committed prefix, or the follower has
      synchronized with the term), the group refines the replicated log,
      committed entries agree and every later leader holds them, whatever the
      network does and whichever hosts crash.  What a host has retained as
      committed stays so at every later point of the run.
    - A multi-log: whatever batches replicas see the logs' commits in, they
      reach the same merge and the same state; over Raft groups, hosts that
      stand at the same place have applied the same commands for each key and
      the same global commands, in the same order and epochs; the merge ends,
      waits only for uncommitted entries and applies a global command once
      every log has a barrier for it; one log is applied in its own order; a
      barrier is appended once per leadership.
    - The buddy allocator: it refines a region of live blocks, so blocks
      handed out never meet, room is found where there is any, a freed block is
      refused ever after, and freeing undoes allocating; what the committed
      recovery image names is kept until a commit, a capture computed from the
      changed words is the whole one, a commit tells each block it releases,
      and a trim keeps its prefix.
    - Slabs: a slab refines a map from handles in which a handle is issued at
      most once and is stale for good when it is removed; exactly [room] inserts
      succeed; a successor slab from [generation_high] issues no handle of its
      predecessor, below the width; packed words give back what was packed.
    - The transport: whatever the network does, what is read of a stream is a
      prefix of what was written, and all of it once every frame was accepted; a
      finished stream is framed in full within its credit; a packet counts as
      acknowledged only when the peer processed it, none is processed twice, and
      no frame sent is lost track of; an end's open streams stay within its
      limit, and a frame sent within the credit is never a violation; frames
      and truncated packet numbers survive the wire.
    - Around them: a sender that keeps to its credit is never refused and
      never more than a window ahead of the reader; handshake flights come out
      in order, whole and once each, sealed or not, and hostile datagrams hold
      a bounded buffer; a paced sender conforms to its rate over any stretch,
      although a pacer asked too often never fills
      ([Recovery.polling_starves_pacer]); round-trip estimates stay between the
      samples; a spurious loss widens the tolerance to what it showed; the
      search for the largest datagram ends within three probes a halving, and
      confirms only what was acknowledged; parameters of later versions are
      read as declared.

    ** Bounds and fuel

    [usize] is 64 bits.  A green's histories are assumed to fit in memory
    ([history_cost] at most [usize::MAX]) and its versions in a [u64], as
    conditions of a step.  [Derive.read_loop] is given one unit of fuel per
    piece and [GreenOps.fold_to_budget] one per version between the floors;
    the theorems show both enough.  Raft's loops take one unit for each thing
    they can consume: [extend_through] an index of [fast_chosen],
    [absorb_loop] a window entry, [decide_loop] a slot with votes,
    [recovery_loop] an index of the span to recover, [run_start] an index
    between the floor and the one asked for.  The loops of the multi-log's
    merge take one unit for each committed entry, and [MultiMerge.advance_turns]
    shows it enough; no committed entry lies at index [u64::MAX], where the
    source's saturating step would not move ([MultiMerge.fits]).  A node's log indices and terms
    are [u64]s with the source's saturating and checked steps.

    The buddy allocator's loops take one unit per order or granule they can
    pass.  Its region is one a [usize] counts ([BuddyProps.started]), and a
    capture is taken when none is open, as [publish_shard] of
    [crates/server/src/verbs.rs] settles each ([BuddyOps.may_run]).  A slab's
    bound on slots and its segments' length fit the 32 bits of a handle's index
    ([SlabProps.fresh_slab]).

    The transport's decoder takes one unit per byte
    ([Frame.decode_loop_fuel]), a read of a stream one per buffered segment;
    a stream's offsets and a payload's length are 64-bit.  Cutting a flight
    takes one unit per byte; the search for the largest datagram is given three
    rounds for each halving of its range.

    ** Assumptions on the Raft group

    [RaftSystem] takes the hosts to do what [crates/server/src/retention.rs]
    does: a node's answers wait until the state they were made in is retained.
    Its voter configuration is fixed.  Nothing is asked of snapshots: the
    node's invariant is parametric in whether the log is known to cover the
    commit index ([strict] in [RaftInv]), which a disagreeing snapshot breaks;
    election safety needs it not, and [RaftAgree] proves that the snapshots of
    the runs it is about agree.

    [MultiGroup] takes each replica to apply what its nodes have retained, with
    nothing compacted (as the source says of [n > 1]) and no fast-track commit
    ahead of the commit index, and keyed entries to lie in their key's log
    ([MultiMerge.routed]), where [MultiLog::propose] writes them.

    ** Not modelled

    BLAKE3 is the class [Identity.Blake3], with the length of its output as
    its one law, and in [Work.build_increment] a function: collision
    resistance is not claimed, and that an increment's id is new is a
    condition.  Of a work volume, the bytes it is charged, the codec of its log
    and the verbs' admission and durable records are left out.  The display of errors,
    the wire encoding of Raft messages and the rest of the cluster crate, and
    the crates around them (the rest of the server, wire, storage, bridges, mapped memory),
    are not modelled; nor are the transport's handshake and keys, its
    congestion controllers, and the connection and endpoint that drive its
    parts over sockets and clocks.  The AEAD that seals handshake fragments is
    [Flight.PacketKey], with opening what was sealed and the lengths as its
    laws ([Flight.KeyPair]). *)

From Stdlib Require Export NArith ZArith Lia Ascii.
From Stdlib Require Import String.
From stdpp Require Export base list gmap strings numbers sorting.

Set Default Goal Selector "1".
#[local] Open Scope N_scope.

(** ** Machine integers

    A [u64]/[usize] (the hosts slates runs on are 64-bit) is an [N]; the
    operations of the source that saturate or check are written out. *)
Definition u8_max : N := 255.
Definition u16_max : N := 65535.
Definition u32_max : N := 4294967295.
Definition u64_max : N := 18446744073709551615.
Definition usize_max : N := u64_max.

(** [u64::saturating_add] (also [usize]'s). *)
Definition sat_add (a b : N) : N := N.min (a + b) u64_max.
(** [u64::saturating_sub]: truncated subtraction, which is [N]'s own. *)
Definition sat_sub (a b : N) : N := a - b.
(** [usize::saturating_mul]. *)
Definition sat_mul (a b : N) : N := N.min (a * b) u64_max.
(** [u64::checked_add]. *)
Definition checked_add (a b : N) : option N :=
  if a + b <=? u64_max then Some (a + b) else None.
(** [u16::try_from(i).unwrap_or(u16::MAX)] and [u32]'s. *)
Definition clamp_u16 (a : N) : N := if a <=? u16_max then a else u16_max.
Definition clamp_u32 (a : N) : N := if a <=? u32_max then a else u32_max.

(** ** Bytes and little-endian words

    A byte is an [ascii] (eight bits); a byte run is a list of them. *)
Abbreviation byte := ascii (only parsing).
Abbreviation bytes := (list ascii) (only parsing).

Definition byte_of (n : N) : byte := ascii_of_N n.
Definition byte_val (b : byte) : N := N_of_ascii b.

(** [to_le_bytes] of a [w]-byte unsigned word. *)
Fixpoint le_bytes (w : nat) (n : N) : bytes :=
  match w with
  | O => []
  | S w' => byte_of (n mod 256) :: le_bytes w' (n / 256)
  end.

(** [from_le_bytes]. *)
Fixpoint le_val (bs : bytes) : N :=
  match bs with
  | [] => 0
  | b :: r => byte_val b + 256 * le_val r
  end.

(** [str::as_bytes] and its inverse on bytes known to be a string. *)
Definition as_bytes (s : string) : bytes := String.list_ascii_of_string s.
Definition of_bytes (bs : bytes) : string := String.string_of_list_ascii bs.

(** ** Lengths and slices *)
Section slices.
Context {A : Type}.

(** [Vec::len] as a word. *)
Definition len (l : list A) : N := N.of_nat (length l).

Definition takeN (n : N) (l : list A) : list A := take (N.to_nat n) l.
Definition dropN (n : N) (l : list A) : list A := drop (N.to_nat n) l.

(** [l[a..b]] where it exists. *)
Definition slice (l : list A) (a b : N) : list A := takeN (b - a) (dropN a l).

(** [slice::get(a..b)]: [None] when the range is inverted or runs past the end. *)
Definition get_range (l : list A) (a b : N) : option (list A) :=
  if (a <=? b) && (b <=? len l) then Some (slice l a b) else None.

(** [slice::get(a..)]. *)
Definition get_from (l : list A) (a : N) : option (list A) :=
  if a <=? len l then Some (dropN a l) else None.
End slices.

(** ** Results *)

(** Rust's [Result<A, E>]. *)
Inductive result (E A : Type) : Type :=
| Ok (a : A)
| Err (e : E).
Arguments Ok {E A} a.
Arguments Err {E A} e.

#[export] Instance result_ret E : MRet (result E) := λ A a, Ok a.
#[export] Instance result_bind E : MBind (result E) := λ A B f m,
  match m with Ok a => f a | Err e => Err e end.

(** [Option::ok_or]. *)
Definition ok_or {E A} (o : option A) (e : E) : result E A :=
  match o with Some a => Ok a | None => Err e end.

(** ** Ordered containers

    A [BTreeMap]/[BTreeSet] is a finite map/set iterated in key order.  The
    order is the key type's [Ord]; the iteration is a stable sort of the
    entries by it. *)
Class BTreeKey (K : Type) `{EqDecision K} := {
  key_leb : K → K → bool;
  key_leb_total : ∀ a b, key_leb a b = true ∨ key_leb b a = true;
  key_leb_trans : ∀ a b c, key_leb a b = true → key_leb b c = true → key_leb a c = true;
  key_leb_antisym : ∀ a b, key_leb a b = true → key_leb b a = true → a = b
}.

(** Stable insertion sort: [slice::sort_by]. *)
Section sort.
Context {A : Type} (leb : A → A → bool).

Fixpoint insert_by (x : A) (l : list A) : list A :=
  match l with
  | [] => [x]
  | y :: r => if leb x y then x :: l else y :: insert_by x r
  end.

Definition sort_by (l : list A) : list A := foldr insert_by [] l.
End sort.

Definition bt_list {K V} `{Countable K, !BTreeKey K} (m : gmap K V) : list (K * V) :=
  sort_by (λ a b, key_leb a.1 b.1) (map_to_list m).
Definition bt_keys {K V} `{Countable K, !BTreeKey K} (m : gmap K V) : list K :=
  (bt_list m).*1.
Definition bt_values {K V} `{Countable K, !BTreeKey K} (m : gmap K V) : list V :=
  (bt_list m).*2.
Definition bt_elems {K} `{Countable K, !BTreeKey K} (s : gset K) : list K :=
  sort_by key_leb (elements s).

(** The last value wins, as in [iter().collect::<BTreeMap<_, _>>()]. *)
Definition bt_collect {K V} `{Countable K} (l : list (K * V)) : gmap K V :=
  foldl (λ m kv, <[kv.1 := kv.2]> m) ∅ l.

(** Whether a map has the key ([contains_key]). *)
Definition has_key {K V} `{Countable K} (m : gmap K V) (k : K) : bool :=
  bool_decide (is_Some (m !! k)).
Definition has_elem {K} `{Countable K} (s : gset K) (k : K) : bool :=
  bool_decide (k ∈ s).

(** [Iterator::sum] of unsigned terms. *)
Definition sum_N (l : list N) : N := foldr N.add 0 l.

(** ** Field updates: [r <| field := v |>], as the source writes [self.field]. *)
Class Setter {R T : Type} (field : R → T) := setter : (T → T) → R → R.
Arguments setter {R T} field {_} f r : assert.
Notation "r <| field ::= f |>" := (setter field f r) (at level 12, left associativity).
Notation "r <| field := v |>" := (setter field (λ _, v) r) (at level 12, left associativity).

(** ** Automation *)
Create HintDb slates.

(** Split the boolean tests of the code into facts [lia] reads. *)
Ltac bool_to_prop :=
  repeat match goal with
  | H : (_ && _) = true |- _ => apply andb_true_iff in H; destruct H
  | H : (_ || _) = false |- _ => apply orb_false_iff in H; destruct H
  | H : (_ && _) = false |- _ => apply andb_false_iff in H; destruct H
  | H : (_ || _) = true |- _ => apply orb_true_iff in H; destruct H
  | H : negb _ = true |- _ => apply negb_true_iff in H
  | H : negb _ = false |- _ => apply negb_false_iff in H
  | H : (_ <=? _) = true |- _ => apply N.leb_le in H
  | H : (_ <=? _) = false |- _ => apply N.leb_gt in H
  | H : (_ <? _) = true |- _ => apply N.ltb_lt in H
  | H : (_ <? _) = false |- _ => apply N.ltb_ge in H
  | H : (_ =? _) = true |- _ => apply N.eqb_eq in H
  | H : (_ =? _) = false |- _ => apply N.eqb_neq in H
  end.

(** Case on the first boolean test in the goal or a hypothesis. *)
Ltac split_if :=
  match goal with
  | |- context [if ?b then _ else _] => destruct b eqn:?
  | H : context [if ?b then _ else _] |- _ => destruct b eqn:?
  end.

(** ** Lemmas: results *)
Lemma bind_ok {E A B} (m : result E A) (f : A → result E B) b :
  m ≫= f = Ok b ↔ ∃ a, m = Ok a ∧ f a = Ok b.
Proof. destruct m; cbn; naive_solver. Qed.

Lemma ok_or_ok {E A} (o : option A) (e : E) a : ok_or o e = Ok a ↔ o = Some a.
Proof. destruct o; cbn; naive_solver. Qed.

(** Peel the binds off a successful run [H]: each step leaves its equation. *)
Ltac run_ok H :=
  cbv beta in H;
  repeat match type of H with
  | _ ≫= _ = Ok _ =>
      let E := fresh "E" in
      apply bind_ok in H as (? & E & H);
      rewrite ?ok_or_ok in E
  | (if ?b then Err _ else _) = Ok _ => destruct b eqn:?; [done|]
  | (match ?x with pair _ _ => _ end) = Ok _ => destruct x; cbn beta iota in H
  end;
  cbn beta iota in H.

(** ** Lemmas: words *)
Lemma sat_add_small a b : a + b ≤ u64_max → sat_add a b = a + b.
Proof. unfold sat_add. lia. Qed.

Lemma clamp_u16_small a : a ≤ u16_max → clamp_u16 a = a.
Proof. unfold clamp_u16. split_if; bool_to_prop; lia. Qed.

Lemma clamp_u32_small a : a ≤ u32_max → clamp_u32 a = a.
Proof. unfold clamp_u32. split_if; bool_to_prop; lia. Qed.

Lemma checked_add_some a b c : checked_add a b = Some c ↔ c = a + b ∧ a + b ≤ u64_max.
Proof. unfold checked_add. split_if; bool_to_prop; naive_solver lia. Qed.

Lemma byte_val_lt b : byte_val b < 256.
Proof. apply N_ascii_bounded. Qed.

Lemma byte_val_of n : n < 256 → byte_val (byte_of n) = n.
Proof. apply N_ascii_embedding. Qed.

Lemma byte_of_val b : byte_of (byte_val b) = b.
Proof. apply ascii_N_embedding. Qed.

Lemma length_le_bytes w n : length (le_bytes w n) = w.
Proof. revert n. induction w; intros; simpl; auto. Qed.

Lemma le_val_bytes w n : n < 256 ^ N.of_nat w → le_val (le_bytes w n) = n.
Proof.
  revert n. induction w as [|w IH]; intros n Hn.
  - simpl in *. lia.
  - rewrite Nat2N.inj_succ, N.pow_succ_r' in Hn. cbn [le_bytes le_val].
    rewrite byte_val_of by (apply N.mod_lt; lia).
    rewrite IH by (apply N.Div0.div_lt_upper_bound; lia).
    pose proof (N.div_mod' n 256). lia.
Qed.

(** A field beside the bits above it. *)
Lemma lor_shift_add a b k : b < 2 ^ k → N.lor (N.shiftl a k) b = a * 2 ^ k + b.
Proof.
  intros Hb. pose proof (N.pow_nonzero 2 k ltac:(done)) as Hk. rewrite (N.div_mod (N.lor _ b) (2 ^ k) Hk). rewrite <- N.shiftr_div_pow2, <- N.land_ones.
  rewrite N.shiftr_lor, N.shiftr_shiftl_l, N.sub_diag, N.shiftl_0_r by done. rewrite (N.shiftr_div_pow2 b), N.div_small, N.lor_0_r by done.
  rewrite N.land_lor_distr_l, !N.land_ones, N.shiftl_mul_pow2, N.Div0.mod_mul, N.lor_0_l, N.mod_small by done. lia.
Qed.

Lemma of_bytes_as_bytes s : of_bytes (as_bytes s) = s.
Proof. apply String.string_of_list_ascii_of_string. Qed.

Lemma as_bytes_of_bytes bs : as_bytes (of_bytes bs) = bs.
Proof. apply String.list_ascii_of_string_of_list_ascii. Qed.

(** ** Lemmas: lengths and slices *)
Section slice_lemmas.
Context {A : Type}.
Implicit Types l k : list A.

Lemma len_nil : len (@nil A) = 0.
Proof. done. Qed.
Lemma len_cons x l : len (x :: l) = 1 + len l.
Proof. unfold len. simpl. lia. Qed.
Lemma len_app l k : len (l ++ k) = len l + len k.
Proof. unfold len. rewrite length_app. lia. Qed.
Lemma len_takeN n l : len (takeN n l) = N.min n (len l).
Proof. unfold len, takeN. rewrite length_take. lia. Qed.
Lemma len_dropN n l : len (dropN n l) = len l - n.
Proof. unfold len, dropN. rewrite length_drop. lia. Qed.
Lemma len_slice l a b : len (slice l a b) = N.min (b - a) (len l - a).
Proof. unfold slice. rewrite len_takeN, len_dropN. done. Qed.
Lemma to_nat_len l : N.to_nat (len l) = length l.
Proof. unfold len. lia. Qed.
Lemma len_0_nil l : len l = 0 → l = [].
Proof. destruct l; [done|]. rewrite len_cons. lia. Qed.

Lemma takeN_dropN n l : takeN n l ++ dropN n l = l.
Proof. apply take_drop. Qed.
Lemma takeN_0 l : takeN 0 l = [].
Proof. done. Qed.
Lemma dropN_0 l : dropN 0 l = l.
Proof. done. Qed.
Lemma takeN_ge n l : len l ≤ n → takeN n l = l.
Proof. unfold len, takeN. intros. apply take_ge. lia. Qed.
Lemma dropN_ge n l : len l ≤ n → dropN n l = [].
Proof. unfold len, dropN. intros. apply drop_ge. lia. Qed.
Lemma dropN_dropN a b l : dropN a (dropN b l) = dropN (b + a) l.
Proof. unfold dropN. rewrite drop_drop. f_equal. lia. Qed.
Lemma takeN_takeN a b l : takeN a (takeN b l) = takeN (N.min a b) l.
Proof. unfold takeN. rewrite take_take. f_equal. lia. Qed.
Lemma dropN_takeN a b l : dropN a (takeN b l) = takeN (b - a) (dropN a l).
Proof.
  unfold dropN, takeN.
  destruct (decide (a ≤ b)) as [Hab|Hab].
  - replace (N.to_nat b) with (N.to_nat a + N.to_nat (b - a))%nat by lia.
    rewrite take_drop_commute. do 2 f_equal; lia.
  - replace (N.to_nat (b - a)) with 0%nat by lia. rewrite take_0.
    apply drop_ge. rewrite length_take. lia.
Qed.

Lemma takeN_app_ge n l k : len l ≤ n → takeN n (l ++ k) = l ++ takeN (n - len l) k.
Proof.
  unfold takeN, len. intros Hn. rewrite take_app, take_ge by lia. do 2 f_equal. lia.
Qed.
Lemma takeN_app_le n l k : n ≤ len l → takeN n (l ++ k) = takeN n l.
Proof. unfold takeN, len. intros. apply take_app_le. lia. Qed.
Lemma takeN_app_eq n l k : n = len l → takeN n (l ++ k) = l.
Proof. intros ->. rewrite takeN_app_le, takeN_ge; auto; lia. Qed.
Lemma dropN_app_ge n l k : len l ≤ n → dropN n (l ++ k) = dropN (n - len l) k.
Proof. unfold dropN, len. intros. rewrite drop_app, drop_ge by lia. simpl. f_equal. lia. Qed.
Lemma dropN_app_le n l k : n ≤ len l → dropN n (l ++ k) = dropN n l ++ k.
Proof. unfold dropN, len. intros. apply drop_app_le. lia. Qed.
Lemma dropN_app_eq n l k : n = len l → dropN n (l ++ k) = k.
Proof. intros ->. rewrite dropN_app_ge by lia. rewrite N.sub_diag. apply dropN_0. Qed.

Lemma slice_all l : slice l 0 (len l) = l.
Proof. unfold slice. rewrite dropN_0, N.sub_0_r. apply takeN_ge. lia. Qed.
Lemma slice_empty l a b : b ≤ a → slice l a b = [].
Proof. unfold slice. intros. replace (b - a) with 0 by lia. done. Qed.
Lemma slice_from l a b : len l ≤ b → slice l a b = dropN a l.
Proof. unfold slice. intros. apply takeN_ge. rewrite len_dropN. lia. Qed.
Lemma slice_0 l b : slice l 0 b = takeN b l.
Proof. unfold slice. rewrite dropN_0, N.sub_0_r. done. Qed.
Lemma slice_app l a b c : a ≤ b → b ≤ c → slice l a b ++ slice l b c = slice l a c.
Proof.
  intros. unfold slice. replace b with (a + (b - a)) at 3 by lia.
  rewrite <- dropN_dropN. rewrite <- (takeN_dropN (b - a) (dropN a l)) at 3.
  destruct (decide (b - a ≤ len (dropN a l))).
  - rewrite takeN_app_ge by (rewrite len_takeN; lia). f_equal. f_equal.
    rewrite len_takeN. lia.
  - rewrite (dropN_ge (b - a)) by lia. rewrite !app_nil_r.
    rewrite takeN_takeN. unfold takeN at 2. rewrite take_nil, app_nil_r. f_equal. lia.
Qed.
Lemma slice_dropN l a b n : slice (dropN n l) a b = slice l (n + a) (n + b).
Proof. unfold slice. rewrite dropN_dropN. f_equal. lia. Qed.
Lemma dropN_slice_split l a b : a ≤ b → dropN a l = slice l a b ++ dropN b l.
Proof.
  intros. unfold slice. rewrite <- (takeN_dropN (b - a) (dropN a l)) at 1.
  rewrite dropN_dropN. do 2 f_equal. lia.
Qed.
Lemma slice_app_l l k a b : b ≤ len l → slice (l ++ k) a b = slice l a b.
Proof.
  intros. destruct (decide (b ≤ a)); [by rewrite !slice_empty|].
  unfold slice. rewrite dropN_app_le by lia. apply takeN_app_le. rewrite len_dropN. lia.
Qed.
Lemma slice_app_r l k a b : len l ≤ a → slice (l ++ k) a b = slice k (a - len l) (b - len l).
Proof.
  intros. unfold slice. rewrite dropN_app_ge by lia.
  destruct (decide (b ≤ a)).
  - replace (b - a) with 0 by lia. replace (b - len l - (a - len l)) with 0 by lia. done.
  - f_equal. lia.
Qed.
Lemma slice_of_takeN l n a b : b ≤ n → slice (takeN n l) a b = slice l a b.
Proof.
  intros. unfold slice. rewrite dropN_takeN, takeN_takeN. f_equal. lia.
Qed.

Lemma slice_slice l a b c d : d ≤ b - a → slice (slice l a b) c d = slice l (a + c) (a + d).
Proof.
  intros. unfold slice. rewrite dropN_takeN, dropN_dropN, takeN_takeN. f_equal. lia.
Qed.

Lemma get_range_some l a b : a ≤ b → b ≤ len l → get_range l a b = Some (slice l a b).
Proof. intros. unfold get_range. by rewrite (proj2 (N.leb_le _ _)), (proj2 (N.leb_le _ _)). Qed.
End slice_lemmas.

Create Rewrite HintDb len.
#[export] Hint Rewrite @len_nil @len_cons @len_app @len_takeN @len_dropN @len_slice : len.
(** Push [len] through the list operations and close with [lia]. *)
Ltac len_solve := autorewrite with len in *; try lia.

Lemma len_le_bytes w n : len (le_bytes w n) = N.of_nat w.
Proof. unfold len. by rewrite length_le_bytes. Qed.
Lemma le_val_lt bs : le_val bs < 256 ^ len bs.
Proof.
  induction bs as [|b bs IH]; [done|]. rewrite len_cons, N.add_1_l, N.pow_succ_r'. cbn [le_val].
  pose proof (byte_val_lt b). lia.
Qed.
#[export] Hint Rewrite len_le_bytes : len.

Lemma sum_N_app l k : sum_N (l ++ k) = sum_N l + sum_N k.
Proof. induction l; simpl; lia. Qed.

Lemma sum_N_perm l k : l ≡ₚ k → sum_N l = sum_N k.
Proof. induction 1; simpl; lia. Qed.

(** ** Lemmas: sorting and ordered iteration *)
Lemma elem_of_rev {A} (l : list A) x : x ∈ rev l ↔ x ∈ l.
Proof. by rewrite <- (Permutation_rev l). Qed.

Lemma StronglySorted_rev {A} (R : A → A → Prop) (l : list A) :
  StronglySorted R l → StronglySorted (flip R) (rev l).
Proof.
  induction 1 as [|x l Hs IH Hall]; simpl; [constructor|].
  apply StronglySorted_app_2; [|done|repeat constructor].
  intros y z Hy Hz. apply list_elem_of_singleton in Hz as ->. rewrite Forall_forall in Hall.
  apply Hall. by apply elem_of_rev.
Qed.

Lemma StronglySorted_impl {A} (R S : A → A → Prop) (l : list A) :
  (∀ x y, R x y → S x y) → StronglySorted R l → StronglySorted S l.
Proof.
  intros HRS. induction 1; constructor; [done|]. eapply Forall_impl; [done|]. auto.
Qed.

Lemma StronglySorted_NoDup {A} (R : A → A → Prop) (l : list A) :
  (∀ x, ~ R x x) → StronglySorted R l → NoDup l.
Proof.
  intros HR. induction 1 as [|x l _ IH Hall]; constructor; [|done].
  intros Hx. rewrite Forall_forall in Hall. by apply (HR x), Hall.
Qed.

(** Filters that keep nothing, or everything. *)
Lemma filter_none {A} (P : A → Prop) `{!∀ x, Decision (P x)} (l : list A) :
  (∀ x, x ∈ l → ~ P x) → filter P l = [].
Proof.
  induction l as [|x l IH]; intros Hn; [done|]. rewrite filter_cons_False by (apply Hn; by left).
  apply IH. intros y Hy. apply Hn. by right.
Qed.
Lemma filter_all {A} (P : A → Prop) `{!∀ x, Decision (P x)} (l : list A) :
  (∀ x, x ∈ l → P x) → filter P l = l.
Proof.
  induction l as [|x l IH]; intros Hn; [done|]. rewrite filter_cons_True by (apply Hn; by left).
  rewrite IH; [done|]. intros y Hy. apply Hn. by right.
Qed.

Section sort_lemmas.
Context {A : Type} (leb : A → A → bool).
Implicit Types l : list A.
Let le (a b : A) : Prop := leb a b = true.

Lemma insert_by_perm x l : insert_by leb x l ≡ₚ x :: l.
Proof.
  induction l as [|y l IH]; simpl; [done|]. destruct (leb x y); [done|].
  rewrite IH. apply Permutation_swap.
Qed.

Lemma sort_by_perm l : sort_by leb l ≡ₚ l.
Proof.
  induction l as [|x l IH]; simpl; [done|]. fold (sort_by leb l).
  by rewrite insert_by_perm, IH.
Qed.

Lemma elem_of_sort_by x l : x ∈ sort_by leb l ↔ x ∈ l.
Proof. by rewrite sort_by_perm. Qed.

Lemma insert_by_app x l k :
  (∀ y, y ∈ k → leb x y = true) → insert_by leb x (l ++ k) = insert_by leb x l ++ k.
Proof.
  intros Hx. induction l as [|y l IH]; simpl.
  - destruct k as [|y k]; [done|]. simpl. by rewrite Hx by set_solver.
  - destruct (leb x y); [done|]. by rewrite IH.
Qed.

(** Two lists, one below the other, sort apart. *)
Lemma sort_by_app l k :
  (∀ x y, x ∈ l → y ∈ k → leb x y = true) → sort_by leb (l ++ k) = sort_by leb l ++ sort_by leb k.
Proof.
  induction l as [|x l IH]; intros H; [done|]. cbn [app].
  change (insert_by leb x (sort_by leb (l ++ k)) = insert_by leb x (sort_by leb l) ++ sort_by leb k).
  rewrite IH by set_solver. apply insert_by_app. intros y. rewrite elem_of_sort_by. set_solver.
Qed.

Context (leb_total : ∀ a b, leb a b = true ∨ leb b a = true)
        (leb_trans : ∀ a b c, leb a b = true → leb b c = true → leb a c = true).

Lemma insert_by_sorted x l : StronglySorted le l → StronglySorted le (insert_by leb x l).
Proof.
  induction 1 as [|y l Hs IH Hall]; simpl.
  - repeat constructor.
  - destruct (leb x y) eqn:E.
    + constructor; [by constructor|]. constructor; [done|].
      eapply Forall_impl; [exact Hall|]. intros z Hz. by eapply leb_trans.
    + constructor; [done|]. rewrite insert_by_perm. constructor; [|done].
      destruct (leb_total x y); unfold le; congruence.
Qed.

Lemma sort_by_sorted l : StronglySorted le (sort_by leb l).
Proof. induction l; simpl; [constructor|]. by apply insert_by_sorted. Qed.

(** Sorting a sorted list changes nothing: the sort is stable. *)
Lemma sort_by_id l : StronglySorted le l → sort_by leb l = l.
Proof.
  induction 1 as [|x l Hs IH Hall]; simpl; [done|]. fold (sort_by leb l). rewrite IH.
  destruct Hall as [|y r Hy]; simpl; [done|]. unfold le in Hy. by rewrite Hy.
Qed.

(** Filtering commutes with the stable sort. *)
Lemma insert_by_filter_sorted (P : A → Prop) `{!∀ x, Decision (P x)} x l :
  StronglySorted le l →
  filter P (insert_by leb x l) = if decide (P x) then insert_by leb x (filter P l) else filter P l.
Proof.
  induction 1 as [|y l Hs IH Hall]; cbn [insert_by].
  - rewrite filter_cons, filter_nil. by case_decide.
  - destruct (leb x y) eqn:E.
    + rewrite (filter_cons _ x). case_decide; [|done].
      assert (Hx : ∀ z, z ∈ filter P (y :: l) → leb x z = true).
      { intros z [_ Hz]%list_elem_of_filter. apply elem_of_cons in Hz as [->|Hz]; [done|].
        rewrite Forall_forall in Hall. by eapply leb_trans, Hall. }
      destruct (filter P (y :: l)) as [|z k]; [done|]. cbn [insert_by]. by rewrite Hx by set_solver.
    + rewrite !filter_cons, IH. repeat case_decide; try done. cbn [insert_by]. by rewrite E.
Qed.

Lemma filter_sort_by (P : A → Prop) `{!∀ x, Decision (P x)} l :
  filter P (sort_by leb l) = sort_by leb (filter P l).
Proof.
  induction l as [|x l IH]; [done|].
  change (sort_by leb (x :: l)) with (insert_by leb x (sort_by leb l)).
  rewrite insert_by_filter_sorted, IH, filter_cons by apply sort_by_sorted. by case_decide.
Qed.
End sort_lemmas.

(** So does a map that respects the order. *)
Lemma map_insert_by {A B} (lebA : A → A → bool) (lebB : B → B → bool) (f : A → B) x (l : list A) :
  (∀ y, y ∈ l → lebB (f x) (f y) = lebA x y) →
  map f (insert_by lebA x l) = insert_by lebB (f x) (map f l).
Proof.
  induction l as [|y l IH]; intros Hf; [done|]. cbn [insert_by map]. rewrite Hf by by left.
  destruct (lebA x y); [done|]. cbn [map]. rewrite IH; [done|]. intros z Hz. apply Hf. by right.
Qed.
Lemma map_sort_by {A B} (lebA : A → A → bool) (lebB : B → B → bool) (f : A → B) (l : list A) :
  (∀ x y, x ∈ l → y ∈ l → lebB (f x) (f y) = lebA x y) →
  map f (sort_by lebA l) = sort_by lebB (map f l).
Proof.
  induction l as [|x l IH]; intros Hf; [done|].
  change (sort_by lebA (x :: l)) with (insert_by lebA x (sort_by lebA l)).
  change (sort_by lebB (map f (x :: l))) with (insert_by lebB (f x) (sort_by lebB (map f l))).
  rewrite (map_insert_by lebA lebB), IH; [done|..].
  - intros y z Hy Hz. apply Hf; by right.
  - intros y Hy%elem_of_sort_by. apply Hf; [by left|by right].
Qed.

#[export] Program Instance string_key : BTreeKey string := { key_leb := String.leb }.
Next Obligation. intros a b. apply String.leb_total. Qed.
Next Obligation.
  intros a b c Hab Hbc.
  assert (String.le a c) as ?%Is_true_true; [|done].
  transitivity b; by apply Is_true_true.
Qed.
Next Obligation. intros a b. apply String.leb_antisym. Qed.

Lemma string_leb_total a b : String.leb a b = true ∨ String.leb b a = true.
Proof. exact (key_leb_total (K := string) a b). Qed.
Lemma string_leb_trans a b c :
  String.leb a b = true → String.leb b c = true → String.leb a c = true.
Proof. exact (key_leb_trans (K := string) a b c). Qed.
Lemma string_leb_antisym a b : String.leb a b = true → String.leb b a = true → a = b.
Proof. exact (key_leb_antisym (K := string) a b). Qed.

#[export] Program Instance N_key : BTreeKey N := { key_leb := N.leb }.
Next Obligation. intros a b. rewrite !N.leb_le. lia. Qed.
Next Obligation. intros a b c. rewrite !N.leb_le. lia. Qed.
Next Obligation. intros a b. rewrite !N.leb_le. lia. Qed.

(** Lexicographic order on pairs, the derived [Ord] of a tuple. *)
#[export] Program Instance pair_key {K1 K2} `{BTreeKey K1, BTreeKey K2} :
    BTreeKey (K1 * K2) := {
  key_leb a b := if bool_decide (a.1 = b.1) then key_leb a.2 b.2 else key_leb a.1 b.1
}.
Next Obligation.
  intros K1 K2 ?? ?? [a1 a2] [b1 b2]; simpl.
  destruct (decide (a1 = b1)) as [->|Hne].
  - rewrite bool_decide_true by done. apply key_leb_total.
  - rewrite !bool_decide_false by congruence. apply key_leb_total.
Qed.
Next Obligation.
  intros K1 K2 ?? ?? [a1 a2] [b1 b2] [c1 c2]; simpl.
  repeat case_bool_decide; subst; try congruence; intros.
  - by eapply key_leb_trans.
  - exfalso. eauto using key_leb_antisym.
  - by eapply key_leb_trans.
Qed.
Next Obligation.
  intros K1 K2 ?? ?? [a1 a2] [b1 b2]; simpl.
  repeat case_bool_decide; subst; try congruence; intros.
  - f_equal. eauto using key_leb_antisym.
  - exfalso. eauto using key_leb_antisym.
Qed.

Section btree_lemmas.
Context {K : Type} `{Countable K, !BTreeKey K}.

Lemma bt_list_perm {V} (m : gmap K V) : bt_list m ≡ₚ map_to_list m.
Proof. apply sort_by_perm. Qed.

Lemma elem_of_bt_list {V} (m : gmap K V) k v : (k, v) ∈ bt_list m ↔ m !! k = Some v.
Proof. rewrite bt_list_perm. apply elem_of_map_to_list. Qed.

(** The last value declared for a key. *)
Lemma bt_collect_snoc {V} (l : list (K * V)) k v :
  bt_collect (l ++ [(k, v)]) = <[k:=v]> (bt_collect l).
Proof. unfold bt_collect. by rewrite foldl_app. Qed.

Lemma bt_collect_elem {V} (l : list (K * V)) k v :
  NoDup l.*1 → bt_collect l !! k = Some v ↔ (k, v) ∈ l.
Proof.
  induction l as [|[k' v'] l IH] using rev_ind; intros Hnd; [set_solver|].
  rewrite bt_collect_snoc, elem_of_app, list_elem_of_singleton.
  rewrite fmap_app in Hnd. apply NoDup_app in Hnd as (Hnd & Hdis & _).
  destruct (decide (k' = k)) as [->|Hne].
  - rewrite lookup_insert, decide_True by done. split; [naive_solver|].
    intros [Hin|Heq]; [|congruence]. exfalso. apply (Hdis k); [|set_solver].
    apply list_elem_of_fmap. by exists (k, v).
  - rewrite lookup_insert_ne by done. rewrite IH by done. naive_solver.
Qed.

(** Collecting what a map iterates gives the map back. *)
Lemma bt_collect_bt_list {V} (m : gmap K V) : bt_collect (bt_list m) = m.
Proof.
  apply map_eq. intros k. apply option_eq. intros v.
  rewrite bt_collect_elem, elem_of_bt_list; [done|].
  rewrite bt_list_perm. apply NoDup_fst_map_to_list.
Qed.

Lemma elem_of_bt_elems (s : gset K) k : k ∈ bt_elems s ↔ k ∈ s.
Proof. unfold bt_elems. rewrite elem_of_sort_by. apply elem_of_elements. Qed.

Lemma NoDup_bt_elems (s : gset K) : NoDup (bt_elems s).
Proof. unfold bt_elems. rewrite sort_by_perm. apply NoDup_elements. Qed.

Lemma NoDup_bt_keys {V} (m : gmap K V) : NoDup (bt_keys m).
Proof. unfold bt_keys. rewrite bt_list_perm. apply NoDup_fst_map_to_list. Qed.

Lemma has_key_true {V} (m : gmap K V) k : has_key m k = true ↔ is_Some (m !! k).
Proof. apply bool_decide_eq_true. Qed.
Lemma has_key_false {V} (m : gmap K V) k : has_key m k = false ↔ m !! k = None.
Proof. unfold has_key. rewrite bool_decide_eq_false. symmetry. apply eq_None_not_Some. Qed.
Lemma has_elem_true (s : gset K) k : has_elem s k = true ↔ k ∈ s.
Proof. apply bool_decide_eq_true. Qed.
Lemma has_elem_false (s : gset K) k : has_elem s k = false ↔ k ∉ s.
Proof. apply bool_decide_eq_false. Qed.
End btree_lemmas.

(** * Ordered lookups

    What the transport asks of a [BTreeMap] keyed by numbers beside its
    entries: the neighbours of a key, a range in key order, the least entry. *)

#[local] Open Scope N_scope.

Section ordered.
Context {V : Type}.
Implicit Types (m : gmap N V) (k : N) (v : V) (p : N * V).

(** [range(..k).next_back()], [range(..=k).next_back()], [iter().next_back()] and [first_key_value()]. *)
Definition bt_before m k : option (N * V) := last (filter (λ p, p.1 < k) (bt_list m)).
Definition bt_upto m k : option (N * V) := last (filter (λ p, p.1 ≤ k) (bt_list m)).
Definition bt_last m : option (N * V) := last (bt_list m).
Definition bt_first m : option (N * V) := head (bt_list m).
(** [range(a..b)] and [range(a..=b)]. *)
Definition bt_range m a b : list (N * V) := filter (λ p, a ≤ p.1 ∧ p.1 < b) (bt_list m).
Definition bt_range_incl m a b : list (N * V) := filter (λ p, a ≤ p.1 ∧ p.1 ≤ b) (bt_list m).
(** [pop_first] and [split_off]. *)
Definition pop_first m : gmap N V * option (N * V) :=
  match bt_first m with Some (k, v) => (delete k m, Some (k, v)) | None => (m, None) end.
Definition split_off m k : gmap N V * gmap N V := (filter (λ p, p.1 < k) m, filter (λ p, k ≤ p.1) m).

Definition key_lt (p q : N * V) : Prop := p.1 < q.1.
Lemma bt_list_sorted m : StronglySorted key_lt (bt_list m).
Proof.
  assert (StronglySorted (λ p q : N * V, p.1 ≤ q.1) (bt_list m)) as Hs.
  { unfold bt_list. eapply StronglySorted_impl; [|apply sort_by_sorted].
    - intros p q. apply N.leb_le.
    - intros p q. cbn. destruct (N.leb_spec p.1 q.1); [by left|right; apply N.leb_le; lia].
    - intros p q r H1%N.leb_le H2%N.leb_le. apply N.leb_le. lia. }
  pose proof (NoDup_bt_keys m) as Hnd. unfold bt_keys in Hnd. induction Hs as [|p l Hs IH Hall]; [constructor|].
  rewrite fmap_cons, NoDup_cons in Hnd. destruct Hnd as [Hn Hnd]. constructor; [by apply IH|]. rewrite Forall_forall in *. intros q Hq.
  specialize (Hall q Hq). unfold key_lt. destruct (decide (p.1 = q.1)) as [E|]; [|lia]. exfalso. apply Hn. rewrite E. by apply list_elem_of_fmap_2.
Qed.
Lemma sorted_filter (P : N * V → Prop) `{!∀ p, Decision (P p)} (l : list (N * V)) : StronglySorted key_lt l → StronglySorted key_lt (filter P l).
Proof.
  induction 1 as [|p l Hs IH Hall]; [constructor|]. rewrite filter_cons. case_decide; [|done]. constructor; [done|]. rewrite Forall_forall in *.
  intros q [_ Hq]%list_elem_of_filter. by apply Hall.
Qed.
Lemma sorted_last (l : list (N * V)) p q : StronglySorted key_lt l → last l = Some p → q ∈ l → q.1 ≤ p.1.
Proof.
  induction 1 as [|r l Hs IH Hall]; [done|]. intros Hl [->|Hq]%elem_of_cons.
  - destruct l as [|x l']; [by injection Hl as ->|]. rewrite Forall_forall in Hall. change (last (x :: l') = Some p) in Hl.
    apply last_Some_elem_of in Hl. specialize (Hall p Hl). unfold key_lt in Hall. lia.
  - destruct l as [|x l']; [by apply elem_of_nil in Hq|]. by apply IH.
Qed.
Lemma sorted_head (l : list (N * V)) p q : StronglySorted key_lt l → head l = Some p → q ∈ l → p.1 ≤ q.1.
Proof. intros [|r l' Hs Hall] Hh; [done|]. injection Hh as ->. rewrite Forall_forall in Hall. intros [->|Hq%Hall]%elem_of_cons; [done|]. unfold key_lt in Hq. lia. Qed.

(** The greatest entry of those that satisfy a predicate. *)
Lemma greatest_spec (P : N * V → Prop) `{!∀ p, Decision (P p)} m :
  match last (filter P (bt_list m)) with
  | Some (k, v) => m !! k = Some v ∧ P (k, v) ∧ ∀ k' v', m !! k' = Some v' → P (k', v') → k' ≤ k
  | None => ∀ k v, m !! k = Some v → ¬ P (k, v)
  end.
Proof.
  destruct (last (filter P (bt_list m))) as [[k v]|] eqn:E.
  - pose proof (last_Some_elem_of _ _ E) as Hin. apply list_elem_of_filter in Hin as [HP Hin]. apply elem_of_bt_list in Hin. split_and!; [done..|].
    intros k' v' Hk HP'. apply (sorted_last (filter P (bt_list m)) (k, v) (k', v')); [apply sorted_filter, bt_list_sorted|done|].
    apply list_elem_of_filter. split; [done|]. by apply elem_of_bt_list.
  - apply last_None in E. intros k v Hk HP. assert ((k, v) ∈ filter P (bt_list m)) as Hin by (apply list_elem_of_filter; split; [done|by apply elem_of_bt_list]).
    rewrite E in Hin. by apply elem_of_nil in Hin.
Qed.
Lemma bt_first_spec m :
  match bt_first m with
  | Some (k, v) => m !! k = Some v ∧ ∀ k' v', m !! k' = Some v' → k ≤ k'
  | None => m = ∅
  end.
Proof.
  unfold bt_first. destruct (head (bt_list m)) as [[k v]|] eqn:E.
  - split.
    + apply elem_of_bt_list. destruct (bt_list m); [done|]. injection E as ->. by left.
    + intros k' v' Hk. apply (sorted_head (bt_list m) (k, v) (k', v')); [apply bt_list_sorted|done|by apply elem_of_bt_list].
  - apply map_empty. intros k. destruct (m !! k) as [v|] eqn:Ek; [|done]. apply elem_of_bt_list in Ek. destruct (bt_list m); [by apply elem_of_nil in Ek|done].
Qed.
Lemma bt_last_spec m :
  match bt_last m with
  | Some (k, v) => m !! k = Some v ∧ ∀ k' v', m !! k' = Some v' → k' ≤ k
  | None => m = ∅
  end.
Proof.
  pose proof (greatest_spec (λ _, True) m) as Hs. rewrite filter_all in Hs by done. fold (bt_last m) in Hs. destruct (bt_last m) as [[k v]|].
  - destruct Hs as (H1&_&H2). split; [done|]. intros k' v' Hk. by apply (H2 k' v').
  - apply map_empty. intros k. destruct (m !! k) as [v|] eqn:Ek; [|done]. by destruct (Hs k v Ek).
Qed.
Lemma bt_range_elem m a b k v : (k, v) ∈ bt_range m a b ↔ m !! k = Some v ∧ a ≤ k ∧ k < b.
Proof. unfold bt_range. rewrite list_elem_of_filter, elem_of_bt_list. cbn. tauto. Qed.
Lemma bt_range_incl_elem m a b k v : (k, v) ∈ bt_range_incl m a b ↔ m !! k = Some v ∧ a ≤ k ∧ k ≤ b.
Proof. unfold bt_range_incl. rewrite list_elem_of_filter, elem_of_bt_list. cbn. tauto. Qed.
Lemma bt_range_sorted m a b : StronglySorted key_lt (bt_range m a b).
Proof. apply sorted_filter, bt_list_sorted. Qed.
Lemma bt_range_incl_sorted m a b : StronglySorted key_lt (bt_range_incl m a b).
Proof. apply sorted_filter, bt_list_sorted. Qed.
End ordered.
