(* ===== verification/Range.v ===== *)
(** * Byte ranges and the pass-one verdict

    Models [crates/merge/src/range.rs] (the half-open range, its overlap rule,
    the per-path range set) and [crates/merge/src/verdict.rs] (the sweep line
    over an increment's ranges and the intervening effects' ranges, the byte
    comparison of pass two, the whole-increment fast path). *)

From S2P Require Import Prelude.
#[local] Open Scope N_scope.

(** ** Data *)

(** A half-open byte range [[r_start, r_start + r_len)]. *)
Record Range := mkRange { r_start : N; r_len : N }.

#[export] Instance Range_eq_dec : EqDecision Range.
Proof. solve_decision. Defined.

(** The byte past the end ([Range::end], saturating). *)
Definition r_end (r : Range) : N := sat_add (r_start r) (r_len r).

(** [Range::overlaps]: a shared byte, with the edge rule for zero-length anchors. *)
Definition overlaps (a b : Range) : bool :=
  if (r_len a =? 0) && (r_len b =? 0) then r_start a =? r_start b
  else if r_len a =? 0 then (r_start b <? r_start a) && (r_start a <? r_end b)
  else if r_len b =? 0 then (r_start a <? r_start b) && (r_start b <? r_end a)
  else (r_start a <? r_end b) && (r_start b <? r_end a).

(** [Range::same_span]. *)
Definition same_span (a b : Range) : bool :=
  (r_start a =? r_start b) && (r_len a =? r_len b).

(** The ranges of one path, in order. *)
Record RangeSet := mkRangeSet { ranges : list Range }.

Definition RangeSet_new : RangeSet := mkRangeSet [].

(** The comparison [RangeSet::from_ranges] sorts by: start, then length. *)
Definition range_leb (a b : Range) : bool :=
  if r_start a =? r_start b then r_len a <=? r_len b else r_start a <=? r_start b.

Definition from_ranges (rs : list Range) : RangeSet := mkRangeSet (sort_by range_leb rs).

Definition rs_is_empty (s : RangeSet) : bool :=
  match ranges s with [] => true | _ => false end.

(** ** The verdict *)

(** Why two operations on one path cannot both be accepted. *)
Inductive MergeConflictClass :=
| Overlap
| AnchoredInDelete
| SamePositionDiffering
| RenameRename
| CreateCreate
| DeleteModify
| ModifyDelete
| TypeChanged
| MetaMeta.

#[export] Instance MergeConflictClass_eq_dec : EqDecision MergeConflictClass.
Proof. solve_decision. Defined.

Module Verdict.
Inductive t :=
| Accept
| AcceptIdentical
| Conflict (class : MergeConflictClass).
End Verdict.

Module PathVerdict.
Inductive t :=
| Accept
| Candidates (cs : list Range)
| Conflict (class : MergeConflictClass).
End PathVerdict.

(** The class the sweep gives an overlapping pair that is not one span. *)
Definition clash_class (a b : Range) : MergeConflictClass :=
  if (r_len a =? 0) || (r_len b =? 0) then SamePositionDiffering else Overlap.

(** The sweep line: the loop over [mine[i..]] and [theirs[j..]]. *)
Fixpoint sweep_loop (mine : list Range) : list Range → list Range → PathVerdict.t :=
  fix go (theirs : list Range) (candidates : list Range) : PathVerdict.t :=
    match mine, theirs with
    | a :: mine', b :: theirs' =>
        if overlaps a b then
          if same_span a b then sweep_loop mine' theirs' (candidates ++ [a])
          else PathVerdict.Conflict (clash_class a b)
        else if r_end a <=? r_start b then sweep_loop mine' theirs candidates
        else go theirs' candidates
    | _, _ =>
        match candidates with
        | [] => PathVerdict.Accept
        | _ => PathVerdict.Candidates candidates
        end
    end.

Definition sweep (mine theirs : list Range) : PathVerdict.t := sweep_loop mine theirs [].

(** Pass one for one path. *)
Definition path_verdict (mine theirs : RangeSet) (structural : option MergeConflictClass) :
    PathVerdict.t :=
  match structural with
  | Some class => PathVerdict.Conflict class
  | None =>
      if rs_is_empty theirs then PathVerdict.Accept
      else if rs_is_empty mine then PathVerdict.Accept
      else sweep (ranges mine) (ranges theirs)
  end.

(** Pass two for one same-span candidate: a memcmp. *)
Definition compare_bytes (mine theirs : bytes) : Verdict.t :=
  if bool_decide (mine = theirs) then Verdict.AcceptIdentical
  else Verdict.Conflict Overlap.

(** The whole-increment fast path. *)
Definition fast_path (last_changed : list N) (base : N) : bool :=
  forallb (λ v, v <=? base) last_changed.

(** ** Lemmas on ranges *)

(** A range of a file: its end does not saturate. *)
Definition range_ok (r : Range) : Prop := r_start r + r_len r ≤ u64_max.

Lemma r_end_ok r : range_ok r → r_end r = r_start r + r_len r.
Proof. apply sat_add_small. Qed.

(** Decide every test of [overlaps] at once. *)
Ltac range_solve :=
  unfold overlaps, same_span, clash_class, range_leb in *;
  repeat match goal with
  | H : range_ok ?r |- _ => rewrite (r_end_ok r H) in *; unfold range_ok in H
  end;
  repeat split_if; bool_to_prop; try congruence; try lia.

Lemma overlaps_sym a b : overlaps a b = overlaps b a.
Proof.
  unfold overlaps. rewrite (N.eqb_sym (r_start b)).
  destruct (r_len a =? 0), (r_len b =? 0); simpl; try done. apply andb_comm.
Qed.

(** Two non-empty ranges overlap exactly when they share a byte. *)
Lemma overlaps_shared_byte a b :
  range_ok a → range_ok b → 0 < r_len a → 0 < r_len b →
  overlaps a b = true ↔
  ∃ x, r_start a ≤ x < r_start a + r_len a ∧ r_start b ≤ x < r_start b + r_len b.
Proof.
  intros Ha Hb ? ?. split.
  - intros Hov. exists (N.max (r_start a) (r_start b)). range_solve.
  - intros (x & ? & ?). unfold overlaps. rewrite !r_end_ok by done.
    rewrite !(proj2 (N.eqb_neq _ _)) by lia. simpl.
    apply andb_true_iff. rewrite !N.ltb_lt. lia.
Qed.

(** The order of a path's ranges: each one ends before the next starts, and
    two anchors never sit at one point. *)
Definition range_before (a b : Range) : Prop :=
  r_start a + r_len a ≤ r_start b ∧ overlaps a b = false.

Definition ranges_ok (rs : list Range) : Prop :=
  StronglySorted range_before rs ∧ Forall range_ok rs.

(** The pairs of the two sides that meet. *)
Definition meets (theirs : list Range) (a : Range) : bool := existsb (overlaps a) theirs.

Lemma meets_false theirs a :
  Forall (λ b, overlaps a b = false) theirs → meets theirs a = false.
Proof.
  unfold meets. induction 1 as [|b l Hb _ IH]; simpl; [done|]. by rewrite Hb, IH.
Qed.

(** A range that ends at or before the head of the other side meets nothing of it. *)
Lemma passed_meets_nothing a b theirs :
  range_ok a → ranges_ok (b :: theirs) →
  overlaps a b = false → r_end a ≤ r_start b → Forall (λ c, overlaps a c = false) (b :: theirs).
Proof.
  intros Ha [Hs Hok] Hab Hle. inversion_clear Hs as [|?? _ Hall].
  inversion_clear Hok as [|?? Hb Hoks]. constructor; [done|].
  rewrite Forall_forall in Hall, Hoks. apply Forall_forall. intros c Hc.
  destruct (Hall c Hc) as [Hbc Hnov]. specialize (Hoks c Hc).
  destruct (overlaps a c) eqn:E; [|done]. range_solve.
Qed.

(** A range the sweep steps over on the other side meets nothing of this one. *)
Lemma skipped_meets_nothing a b mine :
  range_ok b → ranges_ok (a :: mine) →
  overlaps a b = false → r_start b < r_end a → Forall (λ c, overlaps c b = false) (a :: mine).
Proof.
  intros Hb [Hs Hok] Hab Hlt. inversion_clear Hs as [|?? _ Hall].
  inversion_clear Hok as [|?? Ha Hoks]. constructor; [done|].
  rewrite Forall_forall in Hall, Hoks. apply Forall_forall. intros c Hc.
  destruct (Hall c Hc) as [Hac Hnov]. specialize (Hoks c Hc).
  destruct (overlaps c b) eqn:E; [|done]. range_solve.
Qed.

Lemma ranges_ok_tail a rs : ranges_ok (a :: rs) → ranges_ok rs.
Proof. intros [Hs Ho]. by inversion_clear Hs; inversion_clear Ho. Qed.

(** What a sweep's answer says about the pairs of the two sides. *)
Definition sweep_says (mine theirs cands : list Range) (v : PathVerdict.t) : Prop :=
  match v with
  | PathVerdict.Accept =>
      cands = [] ∧ ∀ a b, a ∈ mine → b ∈ theirs → overlaps a b = false
  | PathVerdict.Candidates cs =>
      cs ≠ [] ∧ cs = cands ++ List.filter (meets theirs) mine ∧
      ∀ a b, a ∈ mine → b ∈ theirs → overlaps a b = true → same_span a b = true
  | PathVerdict.Conflict class =>
      ∃ a b, a ∈ mine ∧ b ∈ theirs ∧ overlaps a b = true ∧ same_span a b = false ∧
             class = clash_class a b
  end.

(** Dropping a range of either side that meets nothing keeps the answer. *)
Lemma sweep_says_skip_mine a mine theirs cands v :
  Forall (λ b, overlaps a b = false) theirs →
  sweep_says mine theirs cands v → sweep_says (a :: mine) theirs cands v.
Proof.
  intros Hno. rewrite Forall_forall in Hno. destruct v as [|cs|class]; simpl.
  - intros [-> H]. split; [done|]. intros x y [->|Hx]%elem_of_cons Hy; auto.
  - rewrite (meets_false theirs a) by (by apply Forall_forall).
    intros (? & ? & H). split_and!; [done..|].
    intros x y [->|Hx]%elem_of_cons Hy ?; [|eauto]. specialize (Hno y Hy). congruence.
  - intros (x & y & ? & ? & ?). exists x, y. rewrite elem_of_cons. naive_solver.
Qed.

Lemma filter_meets_skip b mine theirs :
  Forall (λ c, overlaps c b = false) mine →
  List.filter (meets (b :: theirs)) mine = List.filter (meets theirs) mine.
Proof.
  induction 1 as [|c l Hc _ IH]; simpl; [done|]. by rewrite Hc, IH.
Qed.

Lemma sweep_says_skip_theirs b mine theirs cands v :
  Forall (λ c, overlaps c b = false) mine →
  sweep_says mine theirs cands v → sweep_says mine (b :: theirs) cands v.
Proof.
  intros Hno. pose proof (filter_meets_skip b mine theirs Hno) as Hf.
  rewrite Forall_forall in Hno. destruct v as [|cs|class]; cbn [sweep_says].
  - intros [-> H]. split; [done|]. intros x y Hx [->|Hy]%elem_of_cons; auto.
  - rewrite Hf. intros (? & ? & H). split_and!; [done..|].
    intros x y Hx [->|Hy]%elem_of_cons ?; [|eauto]. specialize (Hno x Hx). congruence.
  - intros (x & y & ? & ? & ?). exists x, y. rewrite elem_of_cons. naive_solver.
Qed.

(** Two equal spans meet nothing else of the two sides. *)
Lemma same_span_isolated a b mine theirs :
  ranges_ok (a :: mine) → ranges_ok (b :: theirs) → overlaps a b = true → same_span a b = true →
  Forall (λ c, overlaps c b = false) mine ∧ Forall (λ c, overlaps a c = false) theirs.
Proof.
  intros [Hs Hok] [Hs' Hok'] Hov Hsame.
  assert (a = b) as <-.
  { destruct a, b. unfold same_span in Hsame. simpl in *. bool_to_prop. by subst. }
  inversion_clear Hs as [|?? _ Hall]. inversion_clear Hs' as [|?? _ Hall'].
  split; (eapply Forall_impl; [eassumption|]); intros c [_ Hc]; simpl; auto.
  by rewrite overlaps_sym.
Qed.

Lemma sweep_says_span a b mine theirs cands v :
  overlaps a b = true → same_span a b = true →
  Forall (λ c, overlaps c b = false) mine → Forall (λ c, overlaps a c = false) theirs →
  sweep_says mine theirs (cands ++ [a]) v → sweep_says (a :: mine) (b :: theirs) cands v.
Proof.
  intros Hov Hsame Hm Ht. pose proof (filter_meets_skip b mine theirs Hm) as Hf.
  rewrite Forall_forall in Hm, Ht. destruct v as [|cs|class]; cbn [sweep_says].
  - intros [[]%app_nil _]. done.
  - cbn [List.filter meets existsb]. rewrite Hov, Hf. simpl.
    intros (? & Hcs & H). split_and!; [done|by rewrite Hcs, <- app_assoc|].
    intros x y [->|Hx]%elem_of_cons [->|Hy]%elem_of_cons Hxy; eauto.
    + specialize (Ht y Hy). congruence.
    + specialize (Hm x Hx). congruence.
  - intros (x & y & ? & ? & ?). exists x, y. rewrite !elem_of_cons. naive_solver.
Qed.

Lemma sweep_loop_says mine : ∀ theirs cands,
  ranges_ok mine → ranges_ok theirs →
  sweep_says mine theirs cands (sweep_loop mine theirs cands).
Proof.
  assert (∀ cands m t, (m = [] ∨ t = []) →
    sweep_says m t cands
      match cands with [] => PathVerdict.Accept | _ => PathVerdict.Candidates cands end) as Hend.
  { intros cands m t Hnil. destruct cands as [|c cands]; simpl.
    - split; [done|]. intros a b Ha Hb. destruct Hnil as [-> | ->]; by apply elem_of_nil in Ha || apply elem_of_nil in Hb.
    - split_and!; [done| |].
      + destruct Hnil as [-> | ->]; simpl; [by rewrite app_nil_r|].
        rewrite <- (app_nil_r (c :: cands)) at 1. f_equal. by induction m.
      + intros a b Ha Hb. destruct Hnil as [-> | ->]; by apply elem_of_nil in Ha || apply elem_of_nil in Hb. }
  induction mine as [|a mine IHm]; [intros theirs; destruct theirs; intros; apply Hend; auto|].
  induction theirs as [|b theirs IHt]; intros cands Hm Ht; [apply Hend; auto|].
  pose proof (ranges_ok_tail _ _ Hm) as Hm'. pose proof (ranges_ok_tail _ _ Ht) as Ht'.
  assert (range_ok a) as Ha by (destruct Hm as [_ H]; by inversion_clear H).
  assert (range_ok b) as Hb by (destruct Ht as [_ H]; by inversion_clear H).
  simpl. destruct (overlaps a b) eqn:Hov.
  - destruct (same_span a b) eqn:Hsame.
    + destruct (same_span_isolated a b mine theirs) as [? ?]; auto.
      apply sweep_says_span; auto.
    + exists a, b. rewrite !elem_of_cons. auto 6.
  - destruct (r_end a <=? r_start b) eqn:Hle; bool_to_prop.
    + apply sweep_says_skip_mine; [|by apply IHm].
      eapply passed_meets_nothing; eauto.
    + apply sweep_says_skip_theirs; [|by apply IHt].
      eapply skipped_meets_nothing; eauto.
Qed.

(** Pass one of the verdict is exact on every path.  For an increment's
    ranges and the intervening effects' ranges (each sorted and disjoint
    within its side), [path_verdict] accepts exactly when no range of one side
    meets a range of the other; it answers candidates when every meeting pair
    is one and the same span, and the candidates are exactly the increment's
    ranges that meet something, in order; and a conflict names a pair that
    really overlaps without being one span, with that pair's class. *)
Theorem path_verdict_exact (mine theirs : RangeSet) :
  ranges_ok (ranges mine) → ranges_ok (ranges theirs) →
  match path_verdict mine theirs None with
  | PathVerdict.Accept =>
      ∀ a b, a ∈ ranges mine → b ∈ ranges theirs → overlaps a b = false
  | PathVerdict.Candidates cs =>
      cs ≠ [] ∧ cs = List.filter (meets (ranges theirs)) (ranges mine) ∧
      ∀ a b, a ∈ ranges mine → b ∈ ranges theirs → overlaps a b = true → same_span a b = true
  | PathVerdict.Conflict class =>
      ∃ a b, a ∈ ranges mine ∧ b ∈ ranges theirs ∧ overlaps a b = true ∧
             same_span a b = false ∧ class = clash_class a b
  end.
Proof.
  intros Hm Ht. pose proof (sweep_loop_says _ _ [] Hm Ht) as Hs.
  unfold path_verdict, rs_is_empty, sweep in *.
  destruct (ranges theirs) as [|b t]; [intros ?? _ []%elem_of_nil|].
  destruct (ranges mine) as [|a m]; [intros ?? []%elem_of_nil|].
  destruct (sweep_loop (a :: m) (b :: t) []); cbn [sweep_says] in Hs; [apply Hs|done|done].
Qed.

Lemma path_verdict_exact_witness :
  ranges_ok [mkRange 0 4; mkRange 8 2] ∧ ranges_ok [mkRange 8 2; mkRange 12 0] ∧
  path_verdict (mkRangeSet [mkRange 0 4; mkRange 8 2]) (mkRangeSet [mkRange 8 2; mkRange 12 0]) None
    = PathVerdict.Candidates [mkRange 8 2] ∧
  [mkRange 8 2] = List.filter (meets [mkRange 8 2; mkRange 12 0]) [mkRange 0 4; mkRange 8 2].
Proof.
  assert (ranges_ok [mkRange 0 4; mkRange 8 2]) as Hm
    by (split; repeat constructor; unfold range_ok, u64_max; simpl; lia).
  assert (ranges_ok [mkRange 8 2; mkRange 12 0]) as Ht
    by (split; repeat constructor; unfold range_ok, u64_max; simpl; lia).
  pose proof (path_verdict_exact (mkRangeSet _) (mkRangeSet _) Hm Ht) as (_ & H & _).
  split_and!; [exact Hm | exact Ht | reflexivity | exact H].
Defined.
