(* ===== verification/OpsDoc.v ===== *)
(** * The ops document

    Models [crates/merge/src/ops_doc.rs]: the operation kinds and records, the
    path table with its interning and sort, the document's canonical order,
    its byte encoding, and the bounds-checked decoder over a cursor. *)

From S2P Require Import Prelude.
#[local] Open Scope N_scope.

(** ** Operation kinds *)
Module OpKind.
Inductive t :=
| Overwrite
| Extend
| Truncate
| Insert
| Delete
| Create
| Unlink
| Mkdir
| Rmdir
| Rename
| Link
| Symlink
| SetMode
| SetXattr
| RemoveXattr
| Mknod.

#[global] Instance eq_dec : EqDecision t.
Proof. solve_decision. Defined.

(** The wire value. *)
Definition to_wire (k : t) : N :=
  match k with
  | Overwrite => 0
  | Extend => 1
  | Truncate => 2
  | Insert => 3
  | Delete => 4
  | Create => 5
  | Unlink => 6
  | Mkdir => 7
  | Rmdir => 8
  | Rename => 9
  | Link => 10
  | Symlink => 11
  | SetMode => 12
  | SetXattr => 13
  | RemoveXattr => 14
  | Mknod => 15
  end.

(** Every kind, in wire order. *)
Definition ALL_KINDS : list t :=
  [Overwrite; Extend; Truncate; Insert; Delete; Create; Unlink; Mkdir; Rmdir; Rename;
   Link; Symlink; SetMode; SetXattr; RemoveXattr; Mknod].

(** The kind of a wire value: the first of [ALL_KINDS] with it. *)
Definition from_wire (value : N) : option t := List.find (λ k, to_wire k =? value) ALL_KINDS.
End OpKind.

(** One declared operation. *)
Record Op := mkOp {
  op_kind : OpKind.t;
  op_flags : N;
  op_path : N;
  op_at : N;
  op_len : N;
  op_src : N
}.

#[export] Instance Op_eq_dec : EqDecision Op.
Proof. solve_decision. Defined.

(** Field updates ([op.at = ...] on a copy). *)
Definition with_at (op : Op) (at_ : N) : Op :=
  mkOp (op_kind op) (op_flags op) (op_path op) at_ (op_len op) (op_src op).
Definition with_src (op : Op) (src : N) : Op :=
  mkOp (op_kind op) (op_flags op) (op_path op) (op_at op) (op_len op) src.
Definition with_path (op : Op) (path : N) : Op :=
  mkOp (op_kind op) (op_flags op) path (op_at op) (op_len op) (op_src op).

(** ** The path table *)
Record PathTable := mkPathTable { pt_paths : list string }.

Definition PathTable_new : PathTable := mkPathTable [].

(** [Iterator::position] from index [i]. *)
Fixpoint position_from (path : string) (l : list string) (i : N) : option N :=
  match l with
  | [] => None
  | p :: r => if bool_decide (p = path) then Some i else position_from path r (i + 1)
  end.

(** [PathTable::intern]: the index of [path], appended when it is new. *)
Definition intern (t : PathTable) (path : string) : PathTable * N :=
  match position_from path (pt_paths t) 0 with
  | Some i => (t, clamp_u16 i)
  | None => (mkPathTable (pt_paths t ++ [path]), clamp_u16 (len (pt_paths t)))
  end.

(** [Iterator::enumerate]. *)
Fixpoint enumerate_from {A} (i : N) (l : list A) : list (N * A) :=
  match l with
  | [] => []
  | x :: r => (i, x) :: enumerate_from (i + 1) r
  end.

(** [PathTable::sort_and_remap]: the sorted paths, and for each old index its new one. *)
Definition sort_and_remap (t : PathTable) : PathTable * list N :=
  let order := sort_by (λ a b, key_leb a.2 b.2) (enumerate_from 0 (pt_paths t)) in
  let new_index :=
    foldl (λ acc (entry : N * (N * string)), <[N.to_nat entry.2.1 := clamp_u16 entry.1]> acc)
          (replicate (length order) 0) (enumerate_from 0 order) in
  (mkPathTable order.*2, new_index).

(** [slice::get]. *)
Definition lookupN {A} (l : list A) (i : N) : option A :=
  if i <? len l then l !! N.to_nat i else None.

(** [PathTable::path]. *)
Definition pt_path (t : PathTable) (index : N) : option string := lookupN (pt_paths t) index.

(** ** The document *)
Definition MAGIC : N := 0x444f4c53.
Definition VERSION : N := 1.

Record OpsDoc := mkOpsDoc { paths : PathTable; ops : list Op }.

Definition OpsDoc_new : OpsDoc := mkOpsDoc PathTable_new [].

(** A path-table reference through the remap; a dangling one becomes [u64::MAX]. *)
Definition remap_ref (remap : list N) (index : N) : N :=
  match lookupN remap index with Some i => i | None => u64_max end.

(** One operation of [canonicalize]'s loop. *)
Definition remap_op (remap : list N) (op : Op) : Op :=
  let op :=
    match op_kind op with
    | OpKind.Rename | OpKind.Link | OpKind.Symlink => with_src op (remap_ref remap (op_src op))
    | _ => op
    end in
  let op :=
    match op_kind op with
    | OpKind.SetXattr | OpKind.RemoveXattr => with_at op (remap_ref remap (op_at op))
    | _ => op
    end in
  match lookupN remap (op_path op) with
  | Some new => with_path op new
  | None => op
  end.

(** The canonical order: path index, then offset, then kind. *)
Definition op_leb (a b : Op) : bool :=
  if op_path a =? op_path b then
    if op_at a =? op_at b then OpKind.to_wire (op_kind a) <=? OpKind.to_wire (op_kind b)
    else op_at a <=? op_at b
  else op_path a <=? op_path b.

Definition canonicalize (d : OpsDoc) : OpsDoc :=
  let '(table, remap) := sort_and_remap (paths d) in
  mkOpsDoc table (sort_by op_leb (map (remap_op remap) (ops d))).

(** One path entry of the encoding: its length, then its bytes. *)
Definition encode_path (path : string) : bytes :=
  le_bytes 4 (clamp_u32 (len (as_bytes path))) ++ as_bytes path.

(** One operation record. *)
Definition encode_op (op : Op) : bytes :=
  [byte_of (OpKind.to_wire (op_kind op)); byte_of (op_flags op)]
  ++ le_bytes 2 (op_path op) ++ le_bytes 8 (op_at op)
  ++ le_bytes 8 (op_len op) ++ le_bytes 8 (op_src op).

(** [OpsDoc::encode]. *)
Definition encode (d : OpsDoc) : bytes :=
  le_bytes 4 MAGIC ++ le_bytes 4 VERSION
  ++ le_bytes 4 (clamp_u32 (len (pt_paths (paths d))))
  ++ le_bytes 4 (clamp_u32 (len (ops d)))
  ++ concat (map encode_path (pt_paths (paths d)))
  ++ concat (map encode_op (ops d)).

(** ** Decoding *)
Inductive DocDecodeError :=
| Truncated
| BadMagic
| BadVersion
| BadKind
| BadPath
| TrailingBytes.

#[export] Instance DocDecodeError_eq_dec : EqDecision DocDecodeError.
Proof. solve_decision. Defined.

(** The cursor over the bytes. *)
Record Reader := mkReader { rd_bytes : bytes; rd_at : N }.

Definition Reader_new (bs : bytes) : Reader := mkReader bs 0.

Definition remaining (r : Reader) : N := sat_sub (len (rd_bytes r)) (rd_at r).

Definition rd_is_empty (r : Reader) : bool := remaining r =? 0.

(** [Reader::bytes]: the next [n] bytes, or [Truncated]. *)
Definition read_bytes (r : Reader) (n : N) : result DocDecodeError (bytes * Reader) :=
  end_ ← ok_or (checked_add (rd_at r) n) Truncated;
  slice ← ok_or (get_range (rd_bytes r) (rd_at r) end_) Truncated;
  Ok (slice, mkReader (rd_bytes r) end_).

(** [Reader::u8]. *)
Definition read_u8 (r : Reader) : result DocDecodeError (N * Reader) :=
  '(b, r) ← read_bytes r 1;
  x ← ok_or (head b) Truncated;
  Ok (byte_val x, r).

(** [Reader::u16], [Reader::u32], [Reader::u64]. *)
Definition read_u16 (r : Reader) : result DocDecodeError (N * Reader) :=
  '(b, r) ← read_bytes r 2; Ok (le_val b, r).
Definition read_u32 (r : Reader) : result DocDecodeError (N * Reader) :=
  '(b, r) ← read_bytes r 4; Ok (le_val b, r).
Definition read_u64 (r : Reader) : result DocDecodeError (N * Reader) :=
  '(b, r) ← read_bytes r 8; Ok (le_val b, r).

(** A continuation byte in [[lo, hi]]. *)
Definition cont (lo hi : N) (b : byte) : bool := (lo <=? byte_val b) && (byte_val b <=? hi).

(** [std::str::from_utf8]'s acceptance: the well-formed sequences of Unicode. *)
Fixpoint utf8_valid (bs : bytes) : bool :=
  match bs with
  | [] => true
  | b1 :: r1 =>
      let v := byte_val b1 in
      if v <=? 0x7f then utf8_valid r1
      else if v <? 0xc2 then false
      else match r1 with
      | [] => false
      | b2 :: r2 =>
          if v <=? 0xdf then cont 0x80 0xbf b2 && utf8_valid r2
          else match r2 with
          | [] => false
          | b3 :: r3 =>
              if v <=? 0xef then
                (if v =? 0xe0 then cont 0xa0 0xbf b2
                 else if v =? 0xed then cont 0x80 0x9f b2
                 else cont 0x80 0xbf b2)
                && cont 0x80 0xbf b3 && utf8_valid r3
              else match r3 with
              | [] => false
              | b4 :: r4 =>
                  (if v =? 0xf0 then cont 0x90 0xbf b2
                   else if v =? 0xf4 then cont 0x80 0x8f b2
                   else (v <=? 0xf3) && cont 0x80 0xbf b2)
                  && cont 0x80 0xbf b3 && cont 0x80 0xbf b4 && utf8_valid r4
              end
          end
      end
  end.

(** [std::str::from_utf8]. *)
Definition from_utf8 (bs : bytes) : option string :=
  if utf8_valid bs then Some (of_bytes bs) else None.

Definition PATH_MIN_BYTES : N := 4.
Definition OP_BYTES : N := 28.

(** The path loop of [decode]: [n] entries, each interned. *)
Fixpoint decode_paths (n : nat) (r : Reader) (t : PathTable) :
    result DocDecodeError (PathTable * Reader) :=
  match n with
  | O => Ok (t, r)
  | S n =>
      '(l, r) ← read_u32 r;
      '(raw, r) ← read_bytes r l;
      path ← ok_or (from_utf8 raw) BadPath;
      decode_paths n r (intern t path).1
  end.

(** One operation record. *)
Definition decode_op (r : Reader) : result DocDecodeError (Op * Reader) :=
  '(k, r) ← read_u8 r;
  kind ← ok_or (OpKind.from_wire k) BadKind;
  '(flags, r) ← read_u8 r;
  '(path, r) ← read_u16 r;
  '(at_, r) ← read_u64 r;
  '(l, r) ← read_u64 r;
  '(src, r) ← read_u64 r;
  Ok (mkOp kind flags path at_ l src, r).

(** The operation loop of [decode]. *)
Fixpoint decode_ops (n : nat) (r : Reader) (acc : list Op) :
    result DocDecodeError (list Op * Reader) :=
  match n with
  | O => Ok (acc, r)
  | S n =>
      '(op, r) ← decode_op r;
      decode_ops n r (acc ++ [op])
  end.

(** [OpsDoc::decode]. *)
Definition decode (bs : bytes) : result DocDecodeError OpsDoc :=
  let r := Reader_new bs in
  '(magic, r) ← read_u32 r;
  if negb (magic =? MAGIC) then Err BadMagic else
  '(version, r) ← read_u32 r;
  if negb (version =? VERSION) then Err BadVersion else
  '(path_count, r) ← read_u32 r;
  '(op_count, r) ← read_u32 r;
  if remaining r / PATH_MIN_BYTES <? path_count then Err Truncated else
  '(table, r) ← decode_paths (N.to_nat path_count) r PathTable_new;
  if remaining r / OP_BYTES <? op_count then Err Truncated else
  '(os, r) ← decode_ops (N.to_nat op_count) r [];
  if negb (rd_is_empty r) then Err TrailingBytes else
  Ok (mkOpsDoc table os).

(** ** Lemmas: kinds *)
Lemma from_to_wire k : OpKind.from_wire (OpKind.to_wire k) = Some k.
Proof. by destruct k. Qed.

Lemma to_wire_lt k : OpKind.to_wire k < 16.
Proof. by destruct k. Qed.

Lemma from_wire_some v k : OpKind.from_wire v = Some k → OpKind.to_wire k = v.
Proof. unfold OpKind.from_wire. intros [_ H]%List.find_some. by apply N.eqb_eq. Qed.

(** ** Lemmas: the cursor

    [reader_at p s] is the cursor that has read [p] and has [s] to read;
    [yields f x a] says that [f] reads exactly the bytes [x] wherever they
    stand and answers [a]. *)
Definition reader_at (p s : bytes) : Reader := mkReader (p ++ s) (len p).

Definition in_memory (p s : bytes) : Prop := len p + len s ≤ usize_max.

Definition yields {A} (f : Reader → result DocDecodeError (A * Reader)) (x : bytes) (a : A) : Prop :=
  ∀ p y, in_memory p (x ++ y) → f (reader_at p (x ++ y)) = Ok (a, reader_at (p ++ x) y).

Lemma in_memory_step p x y : in_memory p (x ++ y) → in_memory (p ++ x) y.
Proof. unfold in_memory. len_solve. Qed.

Lemma remaining_at p s : remaining (reader_at p s) = len s.
Proof. unfold remaining, sat_sub. simpl. len_solve. Qed.

Lemma yields_bytes x n : n = len x → yields (λ r, read_bytes r n) x x.
Proof.
  intros -> p y Hfit. unfold read_bytes, reader_at. cbn [rd_at rd_bytes].
  unfold in_memory, usize_max in Hfit. rewrite len_app in Hfit.
  unfold checked_add. rewrite (proj2 (N.leb_le _ _)) by lia. cbn [ok_or mbind result_bind].
  rewrite get_range_some by len_solve. cbn [ok_or mbind result_bind].
  rewrite slice_app_r by lia. rewrite N.sub_diag.
  replace (len p + len x - len p) with (len x) by lia.
  rewrite slice_app_l, slice_all by lia. by rewrite len_app, <- app_assoc.
Qed.

(** Reading in sequence. *)
Lemma yields_bind {A B} (f : Reader → result DocDecodeError (A * Reader)) g x a x' (b : B) :
  yields f x a → yields (g a) x' b → yields (λ r, '(v, r') ← f r; g v r') (x ++ x') b.
Proof.
  intros Hf Hg p y Hfit. rewrite <- app_assoc in *. rewrite (Hf p _ Hfit). cbn.
  rewrite (Hg (p ++ x) y) by (by apply in_memory_step). by rewrite app_assoc.
Qed.

Lemma yields_ret {A} (a : A) : yields (λ r, Ok (a, r)) [] a.
Proof. intros p y _. by rewrite app_nil_r. Qed.

Lemma yields_map {A B} (f : Reader → result DocDecodeError (A * Reader)) (h : A → B) x a :
  yields f x a → yields (λ r, '(v, r') ← f r; Ok (h v, r')) x (h a).
Proof.
  intros Hf. rewrite <- (app_nil_r x). eapply (yields_bind f (λ v r, Ok (h v, r))); [done|].
  apply yields_ret.
Qed.

Lemma yields_word w n (f : Reader → result DocDecodeError (N * Reader)) :
  n < 256 ^ N.of_nat w →
  (∀ r, f r = '(b, r') ← read_bytes r (N.of_nat w); Ok (le_val b, r')) →
  yields f (le_bytes w n) n.
Proof.
  intros Hn Hf p y Hfit. rewrite Hf.
  rewrite (yields_bytes (le_bytes w n) (N.of_nat w)) by (done || by rewrite len_le_bytes).
  cbn. by rewrite le_val_bytes.
Qed.

Lemma yields_u16 n : n ≤ u16_max → yields read_u16 (le_bytes 2 n) n.
Proof. intros. apply yields_word; [unfold u16_max in *; simpl; lia|done]. Qed.
Lemma yields_u32 n : n ≤ u32_max → yields read_u32 (le_bytes 4 n) n.
Proof. intros. apply yields_word; [unfold u32_max in *; simpl; lia|done]. Qed.
Lemma yields_u64 n : n ≤ u64_max → yields read_u64 (le_bytes 8 n) n.
Proof. intros. apply yields_word; [unfold u64_max in *; simpl; lia|done]. Qed.
Lemma yields_u8 n : n ≤ u8_max → yields read_u8 [byte_of n] n.
Proof.
  intros Hn p y Hfit. unfold read_u8. rewrite (yields_bytes [byte_of n] 1) by done. cbn.
  by rewrite byte_val_of by (unfold u8_max in Hn; lia).
Qed.
#[export] Hint Resolve yields_u8 yields_u16 yields_u32 yields_u64 : slates.

(** ** Lemmas: round trip of the parts *)

(** The field widths of an operation record. *)
Definition op_wf (op : Op) : Prop :=
  op_flags op ≤ u8_max ∧ op_path op ≤ u16_max ∧
  op_at op ≤ u64_max ∧ op_len op ≤ u64_max ∧ op_src op ≤ u64_max.

(** A path as Rust holds it: UTF-8, of a length that fits its prefix. *)
Definition path_wf (p : string) : Prop :=
  utf8_valid (as_bytes p) = true ∧ len (as_bytes p) ≤ u32_max.

(** A document as the crate builds it: distinct paths, fields in width. *)
Definition doc_wf (d : OpsDoc) : Prop :=
  NoDup (pt_paths (paths d)) ∧ Forall path_wf (pt_paths (paths d)) ∧
  len (pt_paths (paths d)) ≤ u32_max ∧ len (ops d) ≤ u32_max ∧ Forall op_wf (ops d).

Lemma yields_op op : op_wf op → yields decode_op (encode_op op) op.
Proof.
  intros (? & ? & ? & ? & ?). unfold encode_op, decode_op.
  change ([byte_of (OpKind.to_wire (op_kind op)); byte_of (op_flags op)] ++ ?z)
    with ([byte_of (OpKind.to_wire (op_kind op))] ++ [byte_of (op_flags op)] ++ z).
  apply (yields_bind read_u8 _ _ (OpKind.to_wire (op_kind op))).
  { apply yields_u8. pose proof (to_wire_lt (op_kind op)). unfold u8_max. lia. }
  rewrite from_to_wire. cbn [ok_or mbind result_bind].
  do 4 (eapply yields_bind; [by auto with slates|]).
  rewrite <- (app_nil_r (le_bytes 8 (op_src op))).
  eapply yields_bind; [by auto with slates|]. destruct op. apply yields_ret.
Qed.

Lemma decode_ops_acc os : ∀ acc, Forall op_wf os →
  yields (λ r, decode_ops (length os) r acc) (concat (map encode_op os)) (acc ++ os).
Proof.
  induction os as [|op os IH]; intros acc Hwf.
  - rewrite app_nil_r. apply yields_ret.
  - inversion_clear Hwf. cbn [length decode_ops map concat].
    eapply (yields_bind decode_op (λ op r, decode_ops (length os) r (acc ++ [op])));
      [by apply yields_op|].
    replace (acc ++ op :: os) with ((acc ++ [op]) ++ os) by (by rewrite <- app_assoc). by apply IH.
Qed.

Lemma position_from_none p l i : p ∉ l → position_from p l i = None.
Proof.
  revert i. induction l as [|q l IH]; intros i Hn; simpl; [done|].
  rewrite not_elem_of_cons in Hn. destruct Hn. rewrite bool_decide_false by congruence. auto.
Qed.

Lemma intern_new t p : p ∉ pt_paths t → (intern t p).1 = mkPathTable (pt_paths t ++ [p]).
Proof. intros. unfold intern. by rewrite position_from_none. Qed.

Lemma yields_path p :
  path_wf p → yields (λ r, '(l, r) ← read_u32 r; '(raw, r) ← read_bytes r l;
                           path ← ok_or (from_utf8 raw) BadPath; Ok (path, r))
                     (encode_path p) p.
Proof.
  intros [Hu Hl]. unfold encode_path. rewrite clamp_u32_small by done.
  eapply yields_bind; [by apply yields_u32|].
  intros q y Hfit. rewrite yields_bytes by done. cbn. unfold from_utf8. rewrite Hu. cbn.
  by rewrite of_bytes_as_bytes.
Qed.

Lemma decode_paths_acc ps : ∀ t, Forall path_wf ps → NoDup (pt_paths t ++ ps) →
  yields (λ r, decode_paths (length ps) r t) (concat (map encode_path ps))
         (mkPathTable (pt_paths t ++ ps)).
Proof.
  induction ps as [|p ps IH]; intros t Hwf Hnd.
  - rewrite app_nil_r. destruct t. apply yields_ret.
  - inversion_clear Hwf as [|?? Hp Hps]. cbn [length map concat]. intros q y Hfit.
    rewrite <- app_assoc in *. pose proof (yields_path p Hp q _ Hfit) as Hstep.
    cbn [decode_paths]. cbv beta in Hstep.
    destruct (read_u32 _) as [[l r1]|]; cbn in *; [|done].
    destruct (read_bytes r1 l) as [[raw r2]|]; cbn in *; [|done].
    destruct (from_utf8 raw); cbn in *; [|done]. simplify_eq.
    assert (p ∉ pt_paths t) by (apply NoDup_app in Hnd as (_ & Hd & _); set_solver).
    rewrite intern_new by done. rewrite (IH (mkPathTable _)); cbn; [|done| |].
    + by rewrite <- !app_assoc.
    + by rewrite <- app_assoc.
    + by apply in_memory_step.
Qed.

(** ** Lemmas: what decoding answers *)
Lemma read_bytes_ok r n x r' : read_bytes r n = Ok (x, r') → len x = n.
Proof.
  unfold read_bytes. destruct (checked_add _ _) as [e|] eqn:He; cbn; [|done].
  apply checked_add_some in He as [-> _].
  unfold get_range. split_if; cbn; [|done]. intros [= <- _]. bool_to_prop. len_solve.
Qed.

Lemma read_word_lt w r n r' (f : Reader → result DocDecodeError (N * Reader)) :
  (∀ r, f r = '(b, r') ← read_bytes r w; Ok (le_val b, r')) →
  f r = Ok (n, r') → n < 256 ^ w.
Proof.
  intros Hf. rewrite Hf. destruct (read_bytes r w) as [[b r1]|] eqn:E; cbn; [|done].
  intros [= <- _]. apply read_bytes_ok in E as <-. apply le_val_lt.
Qed.

Lemma read_u16_le r n r' : read_u16 r = Ok (n, r') → n ≤ u16_max.
Proof. intros H%(read_word_lt 2); [|done]. unfold u16_max. simpl in H. lia. Qed.
Lemma read_u32_le r n r' : read_u32 r = Ok (n, r') → n ≤ u32_max.
Proof. intros H%(read_word_lt 4); [|done]. unfold u32_max. simpl in H. lia. Qed.
Lemma read_u64_le r n r' : read_u64 r = Ok (n, r') → n ≤ u64_max.
Proof. intros H%(read_word_lt 8); [|done]. unfold u64_max. simpl in H. lia. Qed.
Lemma read_u8_le r n r' : read_u8 r = Ok (n, r') → n ≤ u8_max.
Proof.
  unfold read_u8. destruct (read_bytes r 1) as [[b r1]|]; cbn; [|done].
  destruct (head b) as [c|]; cbn; [|done]. intros [= <- _].
  pose proof (byte_val_lt c). unfold u8_max. lia.
Qed.

Lemma decode_op_wf r op r' : decode_op r = Ok (op, r') → op_wf op.
Proof.
  unfold decode_op, op_wf. intros H. run_ok H. simplify_eq. cbn.
  split_and!; eauto using read_u8_le, read_u16_le, read_u64_le.
Qed.

Lemma decode_ops_wf n : ∀ r acc os r',
  decode_ops n r acc = Ok (os, r') → Forall op_wf acc →
  Forall op_wf os ∧ length os = (length acc + n)%nat.
Proof.
  induction n as [|n IH]; intros r acc os r'; cbn [decode_ops].
  - intros [= -> ->] ?. split; [done|lia].
  - intros H Hacc. destruct (decode_op r) as [[op r1]|] eqn:E; cbn in H; [|done].
    apply IH in H as [Hf Hl]; [|apply Forall_app; eauto using decode_op_wf].
    rewrite length_app in Hl. simpl in Hl. split; [done|lia].
Qed.

Lemma position_from_some p l i j : position_from p l i = Some j → p ∈ l.
Proof.
  revert i. induction l as [|q l IH]; intros i; simpl; [done|].
  case_bool_decide; subst; [intros _; left|]. intros H'%IH. by right.
Qed.

Lemma position_from_none_inv p l i : position_from p l i = None → p ∉ l.
Proof.
  revert i. induction l as [|q l IH]; intros i; simpl; [set_solver|].
  case_bool_decide; [done|]. intros H'%IH. set_solver.
Qed.

Lemma intern_keeps t p (P : string → Prop) :
  P p → NoDup (pt_paths t) → Forall P (pt_paths t) →
  NoDup (pt_paths (intern t p).1) ∧ Forall P (pt_paths (intern t p).1) ∧
  (length (pt_paths (intern t p).1) ≤ S (length (pt_paths t)))%nat.
Proof.
  intros Hp Hnd HP. unfold intern. destruct (position_from p _ 0) eqn:E; cbn.
  - split_and!; auto.
  - apply position_from_none_inv in E. rewrite length_app. simpl.
    split_and!; [|apply Forall_app; split; [done|by constructor]|lia].
    apply NoDup_app. split_and!; [done|set_solver|apply NoDup_singleton].
Qed.

Lemma decode_paths_wf n : ∀ r t t' r',
  decode_paths n r t = Ok (t', r') → NoDup (pt_paths t) → Forall path_wf (pt_paths t) →
  NoDup (pt_paths t') ∧ Forall path_wf (pt_paths t') ∧
  (length (pt_paths t') ≤ length (pt_paths t) + n)%nat.
Proof.
  induction n as [|n IH]; intros r t t' r'; cbn [decode_paths].
  - intros [= -> ->] ? ?. split_and!; auto. lia.
  - intros H Hnd Hwf. destruct (read_u32 r) as [[l r1]|] eqn:E1; cbn in H; [|done].
    destruct (read_bytes r1 l) as [[raw r2]|] eqn:E2; cbn in H; [|done].
    unfold from_utf8 in H. destruct (utf8_valid raw) eqn:Hu; cbn in H; [|done].
    apply read_bytes_ok in E2. apply read_u32_le in E1.
    assert (path_wf (of_bytes raw)) as Hp by (split; rewrite as_bytes_of_bytes; [done|lia]).
    destruct (intern_keeps t (of_bytes raw) path_wf Hp Hnd Hwf) as (Hnd' & Hwf' & Hl).
    destruct (IH _ _ _ _ H Hnd' Hwf') as (? & ? & ?). split_and!; auto. lia.
Qed.

(** Decoding inverts encoding. *)
Lemma doc_decode_encode (d : OpsDoc) :
  doc_wf d → len (encode d) ≤ usize_max → decode (encode d) = Ok d.
Proof.
  destruct d as [[ps] os]. intros (Hnd & Hps & Hpl & Hol & Hos) Hmem. simpl in *.
  unfold decode, encode in *. cbn [paths ops pt_paths] in *.
  rewrite !clamp_u32_small in * by done.
  set (psb := concat (map encode_path ps)) in *. set (osb := concat (map encode_op os)) in *.
  change (Reader_new ?b) with (reader_at [] b).
  assert (in_memory [] (le_bytes 4 MAGIC ++ le_bytes 4 VERSION ++ le_bytes 4 (len ps)
            ++ le_bytes 4 (len os) ++ psb ++ osb)) as Hfit by (unfold in_memory; len_solve).
  rewrite (yields_u32 MAGIC) by done. cbn [mbind result_bind]. apply in_memory_step in Hfit.
  rewrite N.eqb_refl. cbn [negb].
  rewrite (yields_u32 VERSION) by done. cbn [mbind result_bind]. apply in_memory_step in Hfit.
  rewrite N.eqb_refl. cbn [negb].
  rewrite (yields_u32 (len ps)) by done. cbn [mbind result_bind]. apply in_memory_step in Hfit.
  rewrite (yields_u32 (len os)) by done. cbn [mbind result_bind]. apply in_memory_step in Hfit.
  assert (4 * len ps ≤ len psb) as Hpsl.
  { unfold psb. clear. induction ps as [|p ps IH]; [done|].
    cbn [map concat]. unfold encode_path at 1. len_solve. }
  assert (28 * len os = len osb) as Hosl.
  { unfold osb. clear. induction os as [|o os IH]; [done|].
    cbn [map concat]. unfold encode_op at 1. len_solve. }
  rewrite remaining_at, len_app, (proj2 (N.ltb_ge _ _))
    by (unfold PATH_MIN_BYTES; apply N.div_le_lower_bound; lia).
  rewrite !to_nat_len. pose proof (decode_paths_acc ps PathTable_new Hps Hnd) as Hyp.
  fold psb in Hyp. cbv beta in Hyp. rewrite Hyp by done. clear Hyp.
  cbn [mbind result_bind]. apply in_memory_step in Hfit.
  rewrite remaining_at, (proj2 (N.ltb_ge _ _))
    by (unfold OP_BYTES; apply N.div_le_lower_bound; lia).
  rewrite <- (app_nil_r osb) in *.
  pose proof (decode_ops_acc os [] Hos) as Hyp. fold osb in Hyp. cbv beta in Hyp.
  rewrite Hyp by done. clear Hyp. cbn [mbind result_bind].
  unfold rd_is_empty. by rewrite remaining_at.
Qed.

(** What decoding accepts is well formed. *)
Lemma doc_decode_wf (bs : bytes) (d : OpsDoc) : decode bs = Ok d → doc_wf d.
Proof.
  unfold decode. intros H.
  destruct (read_u32 _) as [[m r1]|]; cbn in H; [|done]. split_if; [done|].
  destruct (read_u32 r1) as [[v r2]|]; cbn in H; [|done]. split_if; [done|].
  destruct (read_u32 r2) as [[pc r3]|] eqn:Ep; cbn in H; [|done].
  destruct (read_u32 r3) as [[oc r4]|] eqn:Eo; cbn in H; [|done]. split_if; [done|].
  destruct (decode_paths _ r4 _) as [[t r5]|] eqn:Et; cbn in H; [|done]. split_if; [done|].
  destruct (decode_ops _ r5 []) as [[os r6]|] eqn:Eos; cbn in H; [|done]. split_if; [done|].
  simplify_eq. apply read_u32_le in Ep, Eo.
  apply decode_paths_wf in Et as (? & ? & ?); [|constructor|constructor].
  apply decode_ops_wf in Eos as (? & ?); [|constructor].
  unfold doc_wf, len in *. simpl in *. split_and!; auto; lia.
Qed.

(** ** Properties *)

(** Decoding inverts encoding: for every document the crate can build
    (distinct UTF-8 paths, fields within their widths) whose encoding fits in
    memory, [decode] of its encoding is the document itself. *)
Theorem decode_encode (d : OpsDoc) :
  doc_wf d → len (encode d) ≤ usize_max → decode (encode d) = Ok d.
Proof. apply doc_decode_encode. Qed.

(** A two-path, two-operation document. *)
Definition sample_doc : OpsDoc :=
  mkOpsDoc (mkPathTable ["a"%string; "b/c"%string])
    [mkOp OpKind.Create 0 0 0 0 u64_max; mkOp OpKind.Overwrite 0 1 3 5 9].

Lemma decode_encode_witness :
  doc_wf sample_doc ∧ decode (encode sample_doc) = Ok sample_doc.
Proof.
  assert (doc_wf sample_doc) as H.
  { unfold doc_wf, path_wf, op_wf. split_and!; simpl.
    - apply (bool_decide_unpack _). vm_compute. exact I.
    - repeat constructor; vm_compute; discriminate.
    - done.
    - done.
    - repeat constructor; simpl; unfold u8_max, u16_max, u64_max; lia. }
  split; [exact H|]. apply (decode_encode sample_doc); [exact H|]. vm_compute. discriminate.
Defined.

(** No byte string makes the decoder build an ill-formed document:
    whatever the bytes, an accepted document has distinct UTF-8 paths, at most
    [u32::MAX] entries of each kind and every field within its width. *)
Theorem decode_wf (bs : bytes) (d : OpsDoc) : decode bs = Ok d → doc_wf d.
Proof. apply doc_decode_wf. Qed.

Lemma decode_wf_witness :
  decode (encode sample_doc) = Ok sample_doc ∧ doc_wf sample_doc.
Proof.
  assert (decode (encode sample_doc) = Ok sample_doc) as H by (vm_compute; reflexivity).
  split; [exact H|]. exact (decode_wf _ _ H).
Defined.
