(* ===== verification/ByteSplice.v ===== *)
(** * The byte splice

    Models the content helpers of [crates/merge/src/engine.rs]: which
    operations carry content, the base range an operation touches, the check
    that a document fits the file it edits ([fits_base]), and [apply], the
    splice of a path's operations into its bytes.  The reference meaning of a
    canonical operation list is [emitted]. *)

From S2P Require Import Prelude Range OpsDoc.
#[local] Open Scope N_scope.

(** The base range an op touches. *)
Definition touched_range (op : Op) : Range :=
  match op_kind op with
  | OpKind.Overwrite | OpKind.Delete | OpKind.Truncate => mkRange (op_at op) (op_len op)
  | _ => mkRange (op_at op) 0
  end.

(** Whether an op kind is a content operation. *)
Definition is_content (kind : OpKind.t) : bool :=
  match kind with
  | OpKind.Overwrite | OpKind.Extend | OpKind.Truncate | OpKind.Insert | OpKind.Delete => true
  | _ => false
  end.

(** Whether an op kind adds content. *)
Definition adds_content (kind : OpKind.t) : bool :=
  match kind with
  | OpKind.Overwrite | OpKind.Insert | OpKind.Extend => true
  | _ => false
  end.

(** One op of [fits_base]'s check. *)
Definition op_fits_base (base_len post_len : N) (op : Op) : bool :=
  let end_ := checked_add (op_at op) (op_len op) in
  let within := op_at op <=? base_len in
  let fits :=
    match op_kind op with
    | OpKind.Delete | OpKind.Overwrite =>
        match end_ with Some e => e <=? base_len | None => false end
    | OpKind.Truncate => bool_decide (end_ = Some base_len)
    | OpKind.Extend => op_at op =? base_len
    | _ => true
    end in
  let sourced :=
    negb (adds_content (op_kind op))
    || match checked_add (op_src op) (op_len op) with Some e => e <=? post_len | None => false end in
  within && fits && sourced.

(** Whether a path's content ops could have been composed against the base. *)
Definition fits_base (os : list Op) (base_len post_len : N) : bool :=
  forallb (op_fits_base base_len post_len) os.

(** The [l] bytes at [src] of [from], clamped to its bounds. *)
Definition span_bytes (from : bytes) (src l : N) : bytes :=
  let start := N.min src (len from) in
  let end_ := N.min (sat_add start l) (len from) in
  default [] (get_range from start end_).

Definition push_slice (out from : bytes) (src l : N) : bytes := out ++ span_bytes from src l.

(** One iteration of [apply]'s loop over [(out, pos)]. *)
Definition apply_step (base post : bytes) (st : bytes * N) (op : Op) : bytes * N :=
  let '(out, pos) := st in
  let '(out, pos) :=
    if pos <? op_at op
    then (out ++ default [] (get_range base pos (N.min (op_at op) (len base))), op_at op)
    else (out, pos) in
  match op_kind op with
  | OpKind.Delete => (out, sat_add pos (op_len op))
  | OpKind.Truncate => (out, len base)
  | OpKind.Overwrite => (push_slice out post (op_src op) (op_len op), sat_add pos (op_len op))
  | OpKind.Insert | OpKind.Extend => (push_slice out post (op_src op) (op_len op), pos)
  | _ => (out, pos)
  end.

(** Applies content ops to [base], drawing added bytes from [post]. *)
Definition apply (base : bytes) (os : list Op) (post : bytes) : bytes :=
  let '(out, pos) := foldl (apply_step base post) ([], 0) os in
  if pos <? len base then out ++ default [] (get_from base pos) else out.

(** ** The reference meaning *)

(** The base bytes an op removes, and the bytes it adds. *)
Definition op_removed (op : Op) : N :=
  match op_kind op with
  | OpKind.Overwrite | OpKind.Delete | OpKind.Truncate => op_len op
  | _ => 0
  end.
Definition op_bytes (post : bytes) (op : Op) : bytes :=
  if adds_content (op_kind op) then slice post (op_src op) (op_src op + op_len op) else [].

(** A canonical operation list against a base of [blen] bytes and a
    post-state of [plen]: in offset order from [pos], disjoint, inside the base. *)
Fixpoint net_ops (blen plen pos : N) (os : list Op) : Prop :=
  match os with
  | [] => pos ≤ blen
  | op :: r =>
      is_content (op_kind op) = true ∧ pos ≤ op_at op ∧ op_at op + op_removed op ≤ blen ∧
      (op_kind op = OpKind.Truncate → op_at op + op_len op = blen) ∧
      (adds_content (op_kind op) = true → op_src op + op_len op ≤ plen) ∧
      net_ops blen plen (op_at op + op_removed op) r
  end.

(** What the operations leave of the base from [pos] on. *)
Fixpoint emitted (base post : bytes) (pos : N) (os : list Op) : bytes :=
  match os with
  | [] => dropN pos base
  | op :: r =>
      slice base pos (op_at op) ++ op_bytes post op
      ++ emitted base post (op_at op + op_removed op) r
  end.

(** ** Lemmas *)
Lemma span_bytes_slice from src l :
  src + l ≤ len from → len from ≤ usize_max → span_bytes from src l = slice from src (src + l).
Proof.
  intros. unfold span_bytes, usize_max in *. rewrite N.min_l by lia.
  rewrite sat_add_small by lia. rewrite N.min_l by lia. by rewrite get_range_some by lia.
Qed.

Lemma net_ops_pos blen plen pos os : net_ops blen plen pos os → pos ≤ blen.
Proof. destruct os; simpl; [done|]. intros (_ & ? & ? & _). lia. Qed.

Lemma net_ops_weaken blen plen pos pos' os :
  pos' ≤ pos → net_ops blen plen pos os → net_ops blen plen pos' os.
Proof. destruct os; simpl; [lia|]. intuition lia. Qed.

(** An untouched prefix comes out as it is. *)
Lemma emitted_skip base post blen plen p q os :
  p ≤ q → net_ops blen plen q os →
  emitted base post p os = slice base p q ++ emitted base post q os.
Proof.
  intros Hpq. destruct os as [|op r]; cbn [net_ops emitted]; [intros _|].
  - by apply dropN_slice_split.
  - intros (_ & Hq & _). by rewrite <- (slice_app base p q (op_at op)), <- app_assoc by lia.
Qed.

Lemma len_op_bytes post op blen pos r :
  net_ops blen (len post) pos (op :: r) →
  len (op_bytes post op) = if adds_content (op_kind op) then op_len op else 0.
Proof.
  intros (_ & _ & _ & _ & Hs & _). unfold op_bytes.
  destruct (adds_content (op_kind op)); [|done]. specialize (Hs eq_refl). len_solve.
Qed.

(** One step of the loop on a canonical list. *)
Lemma apply_step_net base post out pos op r :
  len base ≤ usize_max → len post ≤ usize_max →
  net_ops (len base) (len post) pos (op :: r) →
  apply_step base post (out, pos) op =
    (out ++ slice base pos (op_at op) ++ op_bytes post op, op_at op + op_removed op).
Proof.
  intros Hb Hp (Hc & Hpos & Hin & Ht & Hs & _). unfold apply_step, usize_max in *.
  assert ((if pos <? op_at op
    then (out ++ default [] (get_range base pos (N.min (op_at op) (len base))), op_at op)
    else (out, pos)) = (out ++ slice base pos (op_at op), op_at op)) as ->.
  { split_if; bool_to_prop.
    - by rewrite N.min_l, get_range_some by lia.
    - assert (pos = op_at op) as -> by lia. by rewrite slice_empty, app_nil_r by lia. }
  unfold push_slice, op_bytes, op_removed in *.
  destruct (op_kind op); simpl in *; try done;
    try (specialize (Hs eq_refl); rewrite span_bytes_slice by (unfold usize_max; lia));
    rewrite ?sat_add_small by lia; rewrite ?app_assoc, ?app_nil_r; f_equal; try lia.
  specialize (Ht eq_refl). lia.
Qed.

Lemma apply_loop_net base post os : ∀ out pos,
  len base ≤ usize_max → len post ≤ usize_max →
  net_ops (len base) (len post) pos os →
  (let '(out', pos') := foldl (apply_step base post) (out, pos) os in
   if pos' <? len base then out' ++ default [] (get_from base pos') else out')
  = out ++ emitted base post pos os.
Proof.
  induction os as [|op r IH]; intros out pos Hb Hp Hnet.
  - simpl in *. unfold get_from. rewrite (proj2 (N.leb_le _ _)) by done. simpl.
    split_if; bool_to_prop; [done|]. by rewrite dropN_ge, app_nil_r by lia.
  - cbn [foldl]. rewrite (apply_step_net _ _ _ _ _ r) by done.
    destruct Hnet as (_ & _ & _ & _ & _ & Hr). rewrite IH by done.
    cbn [emitted]. by rewrite <- !app_assoc.
Qed.

(** On a canonical list, [apply] is the reference meaning. *)
Lemma apply_emitted base os post :
  len base ≤ usize_max → len post ≤ usize_max →
  net_ops (len base) (len post) 0 os → apply base os post = emitted base post 0 os.
Proof. intros. by apply (apply_loop_net base post os [] 0). Qed.

(** A canonical list passes the engine's check when its extends stand at the end. *)
Lemma net_ops_fits base_len post_len pos os :
  base_len ≤ u64_max → post_len ≤ u64_max → net_ops base_len post_len pos os →
  Forall (λ op, op_kind op = OpKind.Extend → op_at op = base_len) os →
  fits_base os base_len post_len = true.
Proof.
  intros Hb Hp. revert pos. induction os as [|op r IH]; intros pos Hnet Hext; [done|].
  cbn [net_ops] in Hnet. destruct Hnet as (Hc & Hpos & Hin & Ht & Hs & Hr).
  inversion_clear Hext as [|?? He Hext']. unfold fits_base in *. cbn [forallb].
  rewrite (IH _ Hr Hext'), andb_true_r. unfold op_fits_base, op_removed, checked_add in *.
  destruct (op_kind op); simpl in *; try done;
    try specialize (Hs eq_refl); try specialize (Ht eq_refl); try specialize (He eq_refl);
    rewrite ?andb_true_iff, ?N.leb_le, ?N.eqb_eq; split_and!; rewrite ?N.leb_le; try lia;
    repeat (rewrite (proj2 (N.leb_le _ _)) by lia); rewrite ?N.leb_le; try lia; try done.
  apply bool_decide_eq_true. f_equal. lia.
Qed.
