(* ===== verification/PosMap.v ===== *)
(** * Position mapping

    Models [crates/merge/src/map.rs]: a range of the base version is carried
    forward through the operations each later version applied to the path.
    The theorems say what a cleanly mapped range is: the same bytes, with the
    image of everything before it in front and of everything after it behind. *)

From S2P Require Import Prelude Range OpsDoc ByteSplice.
#[local] Open Scope N_scope.

(** The result of mapping one range forward. *)
Inductive Mapped :=
| Shifted (r : Range)
| Overlaps.

(** The content effect of one op: [(at, old_len, new_len)]. *)
Definition effect_of (op : Op) : option (N * N * N) :=
  match op_kind op with
  | OpKind.Overwrite => Some (op_at op, op_len op, op_len op)
  | OpKind.Insert | OpKind.Extend => Some (op_at op, 0, op_len op)
  | OpKind.Delete | OpKind.Truncate => Some (op_at op, op_len op, 0)
  | _ => None
  end.

(** [i128] saturation. *)
Definition i128_sat (z : Z) : Z := Z.max (- 2 ^ 127) (Z.min z (2 ^ 127 - 1)).

(** The end of [map_through_one]: the accumulated shift applied to the start. *)
Definition shifted_range (range : Range) (shift : Z) : Range :=
  let shifted := i128_sat (Z.of_N (r_start range) + shift) in
  let z := Z.max shifted 0 in
  mkRange (if (z <=? Z.of_N u64_max)%Z then Z.to_N z else 0) (r_len range).

(** The loop of [map_through_one] over one delta's ops on the path. *)
Fixpoint map_loop (os : list Op) (range : Range) (shift : Z) : Mapped :=
  match os with
  | [] => Shifted (shifted_range range shift)
  | op :: r =>
      match effect_of op with
      | None => map_loop r range shift
      | Some (at_, old_len, new_len) =>
          if overlaps (mkRange at_ old_len) range then Overlaps
          else if sat_add at_ old_len <=? r_start range then
            map_loop r range (i128_sat (shift + i128_sat (Z.of_N new_len - Z.of_N old_len)))
          else if r_end range <=? at_ then Shifted (shifted_range range shift)
          else map_loop r range shift
      end
  end.

Definition map_through_one (os : list Op) (range : Range) : Mapped := map_loop os range 0.

(** Through the canonical deltas of [(base, head]], oldest first. *)
Fixpoint map_range (deltas : list (list Op)) (range : Range) : Mapped :=
  match deltas with
  | [] => Shifted range
  | os :: r =>
      match map_through_one os range with
      | Shifted next => map_range r next
      | Overlaps => Overlaps
      end
  end.

(** ** Replaying deltas *)

(** The content after each delta's operations, with the post-state each drew from. *)
Fixpoint replay (base : bytes) (deltas : list (list Op * bytes)) : bytes :=
  match deltas with
  | [] => base
  | (os, post) :: r => replay (emitted base post 0 os) r
  end.

(** Every delta is canonical for the content it applies to, and every content fits a word. *)
Fixpoint deltas_ok (base : bytes) (deltas : list (list Op * bytes)) : Prop :=
  len base ≤ usize_max ∧
  match deltas with
  | [] => True
  | (os, post) :: r =>
      net_ops (len base) (len post) 0 os ∧ len post ≤ usize_max ∧ deltas_ok (emitted base post 0 os) r
  end.

(** ** Lemmas: one delta *)

(** On a content op the effect is what it removes and adds. *)
Lemma effect_of_net op blen post pos r :
  net_ops blen (len post) pos (op :: r) →
  effect_of op = Some (op_at op, op_removed op, len (op_bytes post op)).
Proof.
  intros Hnet. rewrite (len_op_bytes _ _ _ _ _ Hnet). destruct Hnet as (Hc & _).
  unfold effect_of, op_removed. by destruct (op_kind op).
Qed.

(** An op that neither overlaps a range nor ends before it starts after it:
    the loop's last branch is never taken. *)
Lemma disjoint_after a old range :
  range_ok range → a + old ≤ u64_max → overlaps (mkRange a old) range = false →
  r_start range < a + old → r_end range ≤ a.
Proof.
  intros Hr Ha Hov Hlt. assert (range_ok (mkRange a old)) as Ht by done.
  range_solve; simpl in *; lia.
Qed.

Lemma i128_sat_small z : (- 2 ^ 127 ≤ z ≤ 2 ^ 127 - 1)%Z → i128_sat z = z.
Proof. unfold i128_sat. lia. Qed.

Lemma shifted_range_start range shift :
  (0 ≤ Z.of_N (r_start range) + shift ≤ Z.of_N u64_max)%Z →
  Z.of_N (r_start (shifted_range range shift)) = (Z.of_N (r_start range) + shift)%Z.
Proof.
  intros H. unfold shifted_range. rewrite i128_sat_small by (unfold u64_max in *; lia).
  rewrite Z.max_l by lia. cbn [r_start]. rewrite (proj2 (Z.leb_le _ _)) by lia. lia.
Qed.

(** The image of the base prefix: what [os] makes of the bytes before [s]. *)
Lemma emitted_prefix base post os : ∀ pos s,
  net_ops s (len post) pos os → s ≤ len base →
  emitted (takeN s base) post pos os ++ dropN s base =
  emitted base post pos os.
Proof.
  induction os as [|op r IH]; intros pos s Hnet Hs; cbn [emitted].
  - cbn in Hnet. rewrite dropN_takeN. fold (slice base pos s). symmetry.
    by apply dropN_slice_split.
  - destruct Hnet as (_ & ? & ? & _ & _ & Hr). rewrite <- !app_assoc.
    rewrite (IH _ _ Hr Hs). rewrite slice_of_takeN by lia. done.
Qed.

(** How a cleanly mapped range sits in the new content. *)
Definition mapped_split (base post : bytes) (pos : N) (shift : Z) (os : list Op) (r r' : Range) : Prop :=
  r_len r' = r_len r ∧
  ∃ os1 os2, os = os1 ++ os2 ∧
    net_ops (r_start r) (len post) pos os1 ∧
    net_ops (len base) (len post) (r_start r + r_len r) os2 ∧
    emitted base post pos os =
      emitted (takeN (r_start r) base) post pos os1
      ++ slice base (r_start r) (r_start r + r_len r)
      ++ emitted base post (r_start r + r_len r) os2 ∧
    Z.of_N (r_start r') =
      (Z.of_N pos + shift + Z.of_N (len (emitted (takeN (r_start r) base) post pos os1)))%Z.

(** The range is not reached by any further op: it stands at the shifted start. *)
Lemma mapped_split_stop base post pos shift os r :
  r_start r + r_len r ≤ len base → pos ≤ r_start r →
  net_ops (len base) (len post) (r_start r + r_len r) os →
  (0 ≤ Z.of_N pos + shift)%Z →
  (Z.of_N pos + shift + Z.of_N (len (emitted base post pos os)) ≤ Z.of_N u64_max)%Z →
  mapped_split base post pos shift os r (shifted_range r shift).
Proof.
  intros Hin Hpos Hnet Hlo Hhi.
  assert (emitted base post pos os =
    slice base pos (r_start r) ++ slice base (r_start r) (r_start r + r_len r)
    ++ emitted base post (r_start r + r_len r) os) as Hsplit.
  { destruct os as [|op os]; cbn [emitted].
    - rewrite <- (dropN_slice_split base (r_start r)) by lia. by apply dropN_slice_split.
    - cbn in Hnet. destruct Hnet as (_ & ? & _).
      rewrite <- (slice_app base pos (r_start r) (op_at op)) by lia.
      rewrite <- (slice_app base (r_start r) (r_start r + r_len r) (op_at op)) by lia.
      by rewrite <- !app_assoc. }
  split; [done|]. exists [], os. split_and!; try done.
  - rewrite Hsplit. cbn [emitted]. rewrite dropN_takeN. done.
  - cbn [emitted]. rewrite Hsplit in Hhi. autorewrite with len in *.
    rewrite shifted_range_start by lia. lia.
Qed.

(** One op before the range: the rest of the loop carries on behind it. *)
Lemma mapped_split_step base post pos shift op os r r' :
  pos ≤ op_at op → op_at op + op_removed op ≤ r_start r →
  r_start r ≤ len base →
  net_ops (len base) (len post) pos (op :: os) →
  mapped_split base post (op_at op + op_removed op)
    (shift + (Z.of_N (len (op_bytes post op)) - Z.of_N (op_removed op))) os r r' →
  mapped_split base post pos shift (op :: os) r r'.
Proof.
  intros Hpos Hend Hr Hnet (Hl & os1 & os2 & -> & Hn1 & Hn2 & Hem & Hst). split; [done|].
  exists (op :: os1), os2. destruct Hnet as (Hc & _ & _ & Ht & Hs & Hrest).
  split_and!; try done.
  - cbn [net_ops]. split_and!; try done. intros E. specialize (Ht E).
    assert (op_removed op = op_len op) as Hrm by (unfold op_removed; by rewrite E). lia.
  - cbn [emitted]. rewrite Hem, <- !app_assoc. by rewrite slice_of_takeN by lia.
  - cbn [emitted]. rewrite slice_of_takeN by lia. autorewrite with len. lia.
Qed.

Lemma map_loop_split base post r r' : ∀ os pos shift,
  range_ok r → r_start r + r_len r ≤ len base → len base ≤ u64_max →
  pos ≤ r_start r → net_ops (len base) (len post) pos os →
  (0 ≤ Z.of_N pos + shift)%Z →
  (Z.of_N pos + shift + Z.of_N (len (emitted base post pos os)) ≤ Z.of_N u64_max)%Z →
  map_loop os r shift = Shifted r' → mapped_split base post pos shift os r r'.
Proof.
  induction os as [|op os IH]; intros pos shift Hrok Hin Hb Hpos Hnet Hlo Hhi Hmap.
  - simpl in Hmap. simplify_eq. apply mapped_split_stop; auto.
  - cbn [map_loop] in Hmap. rewrite (effect_of_net _ _ _ _ _ Hnet) in Hmap.
    pose proof Hnet as (_ & Hat & Hend & _ & _ & Hrest).
    destruct (overlaps _ r) eqn:Hov; [done|].
    rewrite sat_add_small in Hmap by lia.
    destruct (op_at op + op_removed op <=? r_start r) eqn:Hbefore; bool_to_prop.
    + cbn [emitted] in Hhi. autorewrite with len in Hhi. unfold u64_max in *.
      rewrite (i128_sat_small (Z.of_N (len _) - _)), i128_sat_small in Hmap by lia.
      apply mapped_split_step; [lia..|done|]. apply IH; auto; lia.
    + pose proof (disjoint_after (op_at op) (op_removed op) _ Hrok ltac:(lia) Hov Hbefore) as Hafter.
      rewrite (proj2 (N.leb_le _ _)) in Hmap by done. simplify_eq.
      rewrite r_end_ok in Hafter by done.
      apply mapped_split_stop; auto. cbn [net_ops] in *. intuition lia.
Qed.

(** One delta: a cleanly mapped range of the base splits the new content into
    the image of what came before, the range's own bytes, and the image of
    what comes after; the mapped start is where those bytes stand. *)
Lemma map_through_one_split base post os r r' :
  len base ≤ usize_max → len (emitted base post 0 os) ≤ usize_max →
  net_ops (len base) (len post) 0 os → r_start r + r_len r ≤ len base →
  map_through_one os r = Shifted r' → mapped_split base post 0 0 os r r'.
Proof.
  unfold usize_max. intros. apply map_loop_split; auto; unfold range_ok; lia.
Qed.

Lemma mapped_split_bytes base post os r r' :
  mapped_split base post 0 0 os r r' → r_start r + r_len r ≤ len base →
  r_len r' = r_len r ∧
  r_start r' + r_len r' ≤ len (emitted base post 0 os) ∧
  slice (emitted base post 0 os) (r_start r') (r_start r' + r_len r') =
  slice base (r_start r) (r_start r + r_len r).
Proof.
  intros (Hl & os1 & os2 & _ & _ & _ & Hem & Hst) Hin.
  set (A := emitted (takeN (r_start r) base) post 0 os1) in *.
  assert (r_start r' = len A) as HA by lia.
  split_and!; [done| |].
  - rewrite Hem, HA, Hl. len_solve.
  - rewrite Hem, HA, Hl. rewrite slice_app_r by lia. rewrite N.sub_diag.
    replace (len A + r_len r - len A) with (r_len r) by lia.
    rewrite slice_app_l by len_solve. rewrite slice_0. apply takeN_ge. len_solve.
Qed.

(** ** Lemmas: order *)

(** Ranges in order stay in order through one delta. *)
Lemma map_loop_order base post r1 r2 r1' r2' : ∀ os pos shift,
  range_ok r1 → range_ok r2 → r_start r2 + r_len r2 ≤ len base → len base ≤ u64_max →
  r_start r1 + r_len r1 ≤ r_start r2 → pos ≤ r_start r1 →
  net_ops (len base) (len post) pos os →
  (0 ≤ Z.of_N pos + shift)%Z →
  (Z.of_N pos + shift + Z.of_N (len (emitted base post pos os)) ≤ Z.of_N u64_max)%Z →
  map_loop os r1 shift = Shifted r1' → map_loop os r2 shift = Shifted r2' →
  r_start r1' + r_len r1' ≤ r_start r2'.
Proof.
  induction os as [|op os IH]; intros pos shift Hr1 Hr2 Hin Hb Hord Hpos Hnet Hlo Hhi Hm1 Hm2.
  - pose proof (map_loop_split base post r2 r2' [] pos shift) as H2.
    destruct H2 as (_ & ? & ? & Hnil & _ & _ & _ & Hst2); auto; [lia|].
    symmetry in Hnil. apply app_nil in Hnil as [-> ->].
    destruct (map_loop_split base post r1 r1' [] pos shift)
      as (Hl1 & ? & ? & Hnil & _ & _ & _ & Hst1); auto; [lia|].
    symmetry in Hnil. apply app_nil in Hnil as [-> ->].
    cbn [emitted] in *. autorewrite with len in *. lia.
  - pose proof Hnet as (_ & Hat & Hend & _ & _ & Hrest).
    pose proof Hhi as Hhi'. cbn [emitted] in Hhi'. autorewrite with len in Hhi'.
    unfold u64_max in *.
    cbn [map_loop] in Hm1, Hm2. rewrite (effect_of_net _ _ _ _ _ Hnet) in Hm1, Hm2.
    destruct (overlaps _ r1) eqn:Hov1; [done|]. destruct (overlaps _ r2) eqn:Hov2; [done|].
    rewrite sat_add_small in Hm1, Hm2 by (unfold u64_max; lia).
    destruct (op_at op + op_removed op <=? r_start r1) eqn:Hb1; bool_to_prop.
    + rewrite (proj2 (N.leb_le (op_at op + op_removed op) (r_start r2))) in Hm2 by lia.
      rewrite (i128_sat_small (Z.of_N (len _) - _)), i128_sat_small in Hm1, Hm2 by lia.
      eapply (IH _ _ Hr1 Hr2); eauto; lia.
    + pose proof (disjoint_after (op_at op) (op_removed op) _ Hr1 ltac:(unfold u64_max; lia) Hov1 Hb1) as Haft.
      rewrite (proj2 (N.leb_le _ _)) in Hm1 by done. simplify_eq.
      rewrite r_end_ok in Haft by done. cbn [shifted_range r_len].
      destruct (op_at op + op_removed op <=? r_start r2) eqn:Hb2; bool_to_prop.
      * rewrite (i128_sat_small (Z.of_N (len _) - _)), i128_sat_small in Hm2 by lia.
        apply (map_loop_split base post r2 r2' os (op_at op + op_removed op)) in Hm2
          as (_ & ? & ? & _ & _ & _ & _ & Hst2); auto; unfold u64_max; try lia.
        pose proof (shifted_range_start r1 shift) as Hs1. unfold u64_max in Hs1.
        cbn [r_start shifted_range] in Hs1 |- *. lia.
      * pose proof (disjoint_after (op_at op) (op_removed op) _ Hr2 ltac:(unfold u64_max; lia) Hov2 Hb2) as Haft2.
        rewrite (proj2 (N.leb_le _ _)) in Hm2 by done. simplify_eq.
        rewrite r_end_ok in Haft2 by done.
        pose proof (shifted_range_start r1 shift) as Hs1.
        pose proof (shifted_range_start r2 shift) as Hs2. unfold u64_max in Hs1, Hs2.
        cbn [r_start shifted_range] in *. lia.
Qed.

(** ** Lemmas: a list of operations mapped together *)

(** The op an accepted range becomes: the same op at the mapped start. *)
Definition op_mapped (deltas : list (list Op)) (op op' : Op) : Prop :=
  ∃ r, map_range deltas (touched_range op) = Shifted r ∧ op' = with_at op (r_start r).

Lemma touched_range_parts op : is_content (op_kind op) = true →
  r_start (touched_range op) = op_at op ∧ r_len (touched_range op) = op_removed op.
Proof. unfold touched_range, op_removed. by destruct (op_kind op). Qed.

Lemma touched_range_with_at op s r :
  r_start r = s → r_len r = r_len (touched_range op) → touched_range (with_at op s) = r.
Proof.
  destruct r. unfold touched_range, with_at. simpl. intros <- ->. by destruct (op_kind op).
Qed.

Section one_delta.
Context (base post : bytes) (os : list Op).
Context (Hbase : len base ≤ usize_max) (Hnext : len (emitted base post 0 os) ≤ usize_max)
        (Hnet : net_ops (len base) (len post) 0 os).

(** Edits of one document keep their canonical shape through one delta. *)
Lemma mapped_net_from plen aops : ∀ aops' prev prev',
  net_ops (len base) plen (r_start prev + r_len prev) aops →
  Forall (λ op, op_kind op ≠ OpKind.Truncate) aops →
  r_start prev + r_len prev ≤ len base → map_through_one os prev = Shifted prev' →
  Forall2 (op_mapped [os]) aops aops' →
  net_ops (len (emitted base post 0 os)) plen (r_start prev' + r_len prev') aops'.
Proof.
  unfold usize_max in *.
  induction aops as [|op aops IH]; intros aops' prev prev' Ha Htr Hprev Hmp Hall.
  - inversion_clear Hall. cbn [net_ops].
    apply map_through_one_split with (base := base) (post := post) in Hmp; auto.
    by apply mapped_split_bytes in Hmp as (? & ? & _).
  - inversion_clear Hall as [|?? op' aops1 (r & Hm & ->) Hall'].
    inversion_clear Htr as [|?? Hnt Htr'].
    cbn [net_ops] in Ha. destruct Ha as (Hc & Hpos & Hin & _ & Hs & Hrest).
    destruct (touched_range_parts op Hc) as [Hst Hln].
    cbn [map_range] in Hm. destruct (map_through_one os (touched_range op)) as [r1|] eqn:Hone; [|done].
    simplify_eq. pose proof Hone as Hsplit.
    apply map_through_one_split with (base := base) (post := post) in Hsplit; auto; [|lia].
    apply mapped_split_bytes in Hsplit as (Hl1 & Hin1 & _); [|lia].
    assert (r_start prev' + r_len prev' ≤ r_start r).
    { apply (map_loop_order base post prev (touched_range op) _ _ os 0 0);
        auto; unfold range_ok; lia. }
    assert (op_removed (with_at op (r_start r)) = op_removed op) as Hrm by done.
    cbn [net_ops]. rewrite Hrm. cbn [with_at op_kind op_at op_src op_len].
    split_and!; auto; try lia; [done|].
    replace (op_removed op) with (r_len r) by lia.
    apply (IH _ (touched_range op)); auto; rewrite Hst, Hln; auto.
Qed.

Lemma mapped_net_one plen aops aops' :
  net_ops (len base) plen 0 aops → Forall (λ op, op_kind op ≠ OpKind.Truncate) aops →
  Forall2 (op_mapped [os]) aops aops' →
  net_ops (len (emitted base post 0 os)) plen 0 aops'.
Proof.
  intros Ha Htr Hall. destruct Hall as [|op op' aops aops' (r & Hm & ->) Hall]; [simpl; lia|].
  inversion_clear Htr as [|?? Hnt Htr'].
  cbn [net_ops] in Ha. destruct Ha as (Hc & Hpos & Hin & _ & Hs & Hrest).
  destruct (touched_range_parts op Hc) as [Hst Hln]. unfold usize_max in *.
  cbn [map_range] in Hm. destruct (map_through_one os (touched_range op)) as [r1|] eqn:Hone; [|done].
  simplify_eq. pose proof Hone as Hsplit.
  apply map_through_one_split with (base := base) (post := post) in Hsplit; auto; [|lia].
  apply mapped_split_bytes in Hsplit as (Hl1 & Hin1 & _); [|lia].
  assert (op_removed (with_at op (r_start r)) = op_removed op) as Hrm by done.
  cbn [net_ops]. rewrite Hrm. cbn [with_at op_kind op_at op_src op_len].
  split_and!; auto; try lia; [done|].
  replace (op_removed op) with (r_len r) by lia.
  apply (mapped_net_from plen aops aops' (touched_range op)); auto; rewrite Hst, Hln; auto.
Qed.
End one_delta.

(** Mapping through the deltas one at a time. *)
Lemma op_mapped_cons os deltas op op' :
  op_mapped (os :: deltas) op op' →
  is_content (op_kind op) = true →
  (∀ r r', map_through_one os r = Shifted r' → r_len r' = r_len r) →
  ∃ mid, op_mapped [os] op mid ∧ op_mapped deltas mid op' ∧ op_kind mid = op_kind op.
Proof.
  intros (r & Hm & ->) Hc Hlen. cbn [map_range] in Hm.
  destruct (map_through_one os (touched_range op)) as [r1|] eqn:Hone; [|done].
  exists (with_at op (r_start r1)). split_and!; [|exists r|done].
  - exists r1. cbn [map_range]. by rewrite Hone.
  - rewrite (touched_range_with_at op _ r1); [done..|]. eauto.
Qed.

Lemma map_loop_len os : ∀ r shift r', map_loop os r shift = Shifted r' → r_len r' = r_len r.
Proof.
  induction os as [|op os IH]; intros r shift r'; cbn [map_loop].
  - by intros [= <-].
  - destruct (effect_of op) as [[[a o] n]|]; [|apply IH].
    repeat split_if; intros; simplify_eq; eauto.
Qed.

Lemma mapped_net_all deltas : ∀ base plen aops aops',
  deltas_ok base deltas → net_ops (len base) plen 0 aops →
  Forall (λ op, op_kind op ≠ OpKind.Truncate) aops →
  Forall2 (op_mapped deltas.*1) aops aops' →
  net_ops (len (replay base deltas)) plen 0 aops'.
Proof.
  induction deltas as [|[os post] deltas IH]; intros base plen aops aops' Hok Ha Htr Hall.
  - simpl. replace aops' with aops; [done|].
    induction Hall as [|op op' l l' (r & Hm & ->) _ IHl]; [done|]. simpl in Hm. simplify_eq.
    inversion_clear Htr. cbn [net_ops] in Ha. destruct Ha as (Hc & _ & _ & _ & _ & Hr).
    f_equal; [|apply IHl; eauto using net_ops_weaken with lia].
    destruct (touched_range_parts op Hc) as [-> _]. by destruct op.
  - cbn [deltas_ok] in Hok. destruct Hok as (Hb & Hnet & Hp & Hok).
    cbn [fmap list_fmap fst replay] in *.
    assert (len (emitted base post 0 os) ≤ usize_max) by (destruct deltas as [|[]]; apply Hok).
    assert (Forall (λ op, is_content (op_kind op) = true) aops) as Hcs.
    { clear -Ha. revert Ha. generalize 0. induction aops; intros pos Ha; constructor.
      - apply Ha.
      - destruct Ha as (_ & _ & _ & _ & _ & Hr). eauto. }
    assert (∃ mids, Forall2 (op_mapped [os]) aops mids ∧ Forall2 (op_mapped deltas.*1) mids aops' ∧
              Forall (λ op, op_kind op ≠ OpKind.Truncate) mids) as (mids & H1 & H2 & H3).
    { clear -Hall Hcs Htr. induction Hall as [|op op' l l' Hop _ IHl].
      - exists []. auto.
      - inversion_clear Hcs. inversion_clear Htr.
        destruct (op_mapped_cons _ _ _ _ Hop) as (mid & ? & ? & Hk); auto.
        { intros. by eapply map_loop_len. }
        destruct IHl as (mids & ? & ? & ?); auto. exists (mid :: mids).
        split_and!; constructor; auto. by rewrite Hk. }
    eapply IH; eauto. eapply mapped_net_one; eauto.
Qed.

(** ** Properties *)

(** C37. Position mapping is sound over any run of versions.  If a range of the
    base version maps cleanly through the deltas of the versions after it,
    the mapped range lies inside the head's content, keeps its length, and
    holds exactly the bytes the base range held: no intervening change
    touched them, only their position moved. *)
Theorem map_range_sound (base : bytes) (deltas : list (list Op * bytes)) (r r' : Range) :
  deltas_ok base deltas → r_start r + r_len r ≤ len base →
  map_range deltas.*1 r = Shifted r' →
  r_len r' = r_len r ∧
  r_start r' + r_len r' ≤ len (replay base deltas) ∧
  slice (replay base deltas) (r_start r') (r_start r' + r_len r') =
  slice base (r_start r) (r_start r + r_len r).
Proof.
  revert base r. induction deltas as [|[os post] deltas IH]; intros base r Hok Hin Hmap.
  - simpl in *. by simplify_eq.
  - cbn [deltas_ok] in Hok. destruct Hok as (Hb & Hnet & Hp & Hok).
    cbn [fmap list_fmap fst map_range replay] in *.
    destruct (map_through_one os r) as [r1|] eqn:Hone; [|done].
    assert (len (emitted base post 0 os) ≤ usize_max) by (destruct deltas as [|[]]; apply Hok).
    apply map_through_one_split with (base := base) (post := post) in Hone; auto.
    apply mapped_split_bytes in Hone as (Hl1 & Hin1 & Hbytes1); auto.
    destruct (IH _ _ Hok Hin1 Hmap) as (Hl & ? & Hbytes).
    split_and!; [congruence|done|congruence].
Qed.

(** A ten-byte file, and a later version that inserted two bytes at 2. *)
Definition sample_base : bytes := as_bytes "0123456789".
Definition sample_deltas : list (list Op * bytes) :=
  [([mkOp OpKind.Insert 0 0 2 2 0], as_bytes "ab")].

Lemma map_range_sound_witness :
  deltas_ok sample_base sample_deltas ∧
  map_range sample_deltas.*1 (mkRange 4 3) = Shifted (mkRange 6 3) ∧
  slice (replay sample_base sample_deltas) 6 (6 + 3) = slice sample_base 4 (4 + 3).
Proof.
  assert (deltas_ok sample_base sample_deltas) as Hok.
  { cbn [deltas_ok sample_deltas net_ops].
    split_and!; try (vm_compute; discriminate); try done; intros; try done; vm_compute; try discriminate. }
  assert (map_range sample_deltas.*1 (mkRange 4 3) = Shifted (mkRange 6 3)) as Hm
    by (vm_compute; reflexivity).
  split; [exact Hok|]. split; [exact Hm|].
  apply (map_range_sound sample_base sample_deltas (mkRange 4 3) (mkRange 6 3) Hok);
    [vm_compute; discriminate|exact Hm].
Defined.

(** A whole document maps together: when every operation of a canonical
    edit list (no truncate) maps cleanly through the intervening versions, the
    mapped list is canonical for the head's content (in order, disjoint,
    inside the file), so splicing it into the head is well defined and every
    mapped edit lands on its own bytes. *)
Theorem mapped_edits_canonical (base : bytes) (deltas : list (list Op * bytes)) (plen : N)
    (edits mapped : list Op) :
  deltas_ok base deltas → net_ops (len base) plen 0 edits →
  Forall (λ op, op_kind op ≠ OpKind.Truncate) edits →
  Forall2 (op_mapped deltas.*1) edits mapped →
  net_ops (len (replay base deltas)) plen 0 mapped.
Proof. apply mapped_net_all. Qed.

Lemma mapped_edits_canonical_witness :
  net_ops (len (replay sample_base sample_deltas)) 3 0
    [mkOp OpKind.Overwrite 0 0 6 3 0; mkOp OpKind.Delete 0 0 10 1 u64_max].
Proof.
  apply (mapped_edits_canonical sample_base sample_deltas 3
    [mkOp OpKind.Overwrite 0 0 4 3 0; mkOp OpKind.Delete 0 0 8 1 u64_max]).
  - cbn [deltas_ok sample_deltas net_ops].
    split_and!; try (vm_compute; discriminate); try done; intros; try done; vm_compute; try discriminate.
  - cbn [net_ops]. split_and!; intros; try (vm_compute; discriminate); try done.
  - repeat constructor; discriminate.
  - repeat constructor; [exists (mkRange 6 3)|exists (mkRange 10 1)]; split; vm_compute; reflexivity.
Defined.
