(* ===== verification/Splice.v ===== *)
(** * The extent splice

    Models [crates/merge/src/splice.rs]: a path's accepted operations applied
    to its extent list by moving references, never bytes.  The refinement
    theorem says that reading the spliced extents gives the bytes of the
    byte splice of [ByteSplice]. *)

From S2P Require Import Prelude Range OpsDoc ByteSplice.
#[local] Open Scope N_scope.

(** Which chunk store an extent's bytes come from. *)
Module Source.
Inductive t := Base | PostState.
End Source.

(** A contiguous run of the file's content. *)
Record Extent := mkExtent { e_source : Source.t; e_at : N; e_len : N }.

(** The logical length an extent list covers. *)
Definition total_len (extents : list Extent) : N := sum_N (map e_len extents).

(** The loop of [copy_base] from the logical offset reached so far. *)
Fixpoint copy_loop (base : list Extent) (logical from to : N) (out : list Extent) : list Extent :=
  match base with
  | [] => out
  | extent :: rest =>
      let start := logical in
      let end_ := sat_add logical (e_len extent) in
      if (end_ <=? from) || (to <=? start) then copy_loop rest end_ from to out
      else
        let slice_start := N.max from start in
        let slice_end := N.min to end_ in
        copy_loop rest end_ from to
          (out ++ [mkExtent (e_source extent)
                     (sat_add (e_at extent) (sat_sub slice_start start))
                     (sat_sub slice_end slice_start)])
  end.

(** Appends the base extents covering the logical range [[from, to)]. *)
Definition copy_base (base : list Extent) (from to : N) (out : list Extent) : list Extent :=
  if to <=? from then out else copy_loop base 0 from to out.

(** One iteration of [splice]'s loop over [(out, base_pos)]. *)
Definition splice_step (base : list Extent) (base_len : N) (st : list Extent * N) (op : Op) :
    list Extent * N :=
  let '(out, base_pos) := st in
  let adds := adds_content (op_kind op) in
  let removes := match op_kind op with OpKind.Delete | OpKind.Truncate => true | _ => false end in
  if negb adds && negb removes then (out, base_pos)
  else
    let '(out, base_pos) :=
      if base_pos <? op_at op then (copy_base base base_pos (op_at op) out, op_at op)
      else (out, base_pos) in
    match op_kind op with
    | OpKind.Delete => (out, sat_add (op_at op) (op_len op))
    | OpKind.Truncate => (out, base_len)
    | OpKind.Overwrite =>
        (out ++ [mkExtent Source.PostState (op_src op) (op_len op)], sat_add (op_at op) (op_len op))
    | OpKind.Insert | OpKind.Extend =>
        (out ++ [mkExtent Source.PostState (op_src op) (op_len op)], base_pos)
    | _ => (out, base_pos)
    end.

(** The new version's extent list. *)
Definition splice (base : list Extent) (os : list Op) : list Extent :=
  let base_len := total_len base in
  let '(out, base_pos) := foldl (splice_step base base_len) ([], 0) os in
  if base_pos <? base_len then copy_base base base_pos base_len out else out.

(** ** Reading extents *)

(** The two chunk stores. *)
Definition store := Source.t → bytes.

Definition extent_bytes (s : store) (e : Extent) : bytes :=
  slice (s (e_source e)) (e_at e) (e_at e + e_len e).

(** A file's content is the concatenation of its extents. *)
Definition content_of (s : store) (extents : list Extent) : bytes :=
  concat (map (extent_bytes s) extents).

(** Every extent lies inside its store, whose offsets fit a word. *)
Definition extents_ok (s : store) (extents : list Extent) : Prop :=
  Forall (λ e, e_at e + e_len e ≤ len (s (e_source e))) extents ∧
  (∀ src, len (s src) ≤ u64_max) ∧ total_len extents ≤ u64_max.

(** ** Lemmas *)
Lemma content_of_app s a b : content_of s (a ++ b) = content_of s a ++ content_of s b.
Proof. unfold content_of. by rewrite map_app, concat_app. Qed.

Lemma content_of_cons s e b : content_of s (e :: b) = extent_bytes s e ++ content_of s b.
Proof. done. Qed.

Lemma content_of_single s e : content_of s [e] = extent_bytes s e.
Proof. unfold content_of. simpl. apply app_nil_r. Qed.

Lemma len_extent_bytes s e : e_at e + e_len e ≤ len (s (e_source e)) → len (extent_bytes s e) = e_len e.
Proof. intros. unfold extent_bytes. len_solve. Qed.

Lemma len_content_of s extents :
  Forall (λ e, e_at e + e_len e ≤ len (s (e_source e))) extents →
  len (content_of s extents) = total_len extents.
Proof.
  induction 1 as [|e l He _ IH]; [done|]. rewrite content_of_cons, len_app, IH.
  by rewrite len_extent_bytes.
Qed.

(** The part of a run of extents between two logical offsets. *)
Lemma copy_loop_content s base : ∀ logical from to out,
  Forall (λ e, e_at e + e_len e ≤ len (s (e_source e))) base →
  (∀ src, len (s src) ≤ u64_max) → logical + total_len base ≤ u64_max → from < to →
  content_of s (copy_loop base logical from to out) =
  content_of s out ++ slice (content_of s base) (from - logical) (to - logical).
Proof.
  induction base as [|e base IH]; intros logical from to out Hok Hst Htot Hft.
  - cbn [copy_loop]. change (content_of s []) with (@nil ascii).
    unfold slice, dropN, takeN. by rewrite drop_nil, take_nil, app_nil_r.
  - inversion_clear Hok as [|?? He Hrest].
    assert (total_len (e :: base) = e_len e + total_len base) as Htl by done.
    pose proof (len_extent_bytes s e He) as Hlen. pose proof (Hst (e_source e)) as Hse.
    cbn [copy_loop]. rewrite content_of_cons. rewrite sat_add_small by lia.
    destruct (_ || _) eqn:Hskip; bool_to_prop.
    + rewrite IH by (done || lia). f_equal. rewrite slice_app_r by lia. f_equal; lia.
    + rewrite IH by (done || lia). f_equal. rewrite !slice_empty by lia. done.
    + rewrite IH by (done || lia). rewrite content_of_app, <- app_assoc. f_equal.
      rewrite sat_add_small by (unfold sat_sub; lia). unfold sat_sub.
      rewrite content_of_single.
      rewrite <- (slice_app (extent_bytes s e ++ content_of s base) (from - logical)
        (N.max (from - logical) (N.min (to - logical) (e_len e))) (to - logical)) by lia.
      rewrite slice_app_l by lia. f_equal.
      * unfold extent_bytes. cbn [e_at e_len e_source]. rewrite slice_slice by lia. f_equal; lia.
      * destruct (decide (to - logical ≤ e_len e)).
        -- rewrite !slice_empty by lia. done.
        -- rewrite slice_app_r by lia. f_equal; lia.
Qed.

Lemma copy_base_content s base from to out :
  extents_ok s base → from ≤ to →
  content_of s (copy_base base from to out) = content_of s out ++ slice (content_of s base) from to.
Proof.
  intros (Hok & Hst & Htot) Hft. unfold copy_base. split_if; bool_to_prop.
  - by rewrite slice_empty, app_nil_r by lia.
  - rewrite copy_loop_content by (done || lia). by rewrite !N.sub_0_r.
Qed.

Lemma splice_step_content s base out pos op r :
  extents_ok s base →
  net_ops (total_len base) (len (s Source.PostState)) pos (op :: r) →
  ∃ out', splice_step base (total_len base) (out, pos) op = (out', op_at op + op_removed op) ∧
    content_of s out' =
      content_of s out ++ slice (content_of s base) pos (op_at op) ++ op_bytes (s Source.PostState) op.
Proof.
  intros Hok (Hc & Hpos & Hin & Ht & Hs & _). pose proof Hok as (_ & _ & Htot).
  unfold splice_step.
  assert (∃ o, (if pos <? op_at op then (copy_base base pos (op_at op) out, op_at op)
                else (out, pos)) = (o, op_at op) ∧
    content_of s o = content_of s out ++ slice (content_of s base) pos (op_at op)) as (o & -> & Ho).
  { split_if; bool_to_prop.
    - eexists. split; [done|]. by apply copy_base_content.
    - assert (pos = op_at op) as -> by lia. exists out. split; [done|].
      by rewrite slice_empty, app_nil_r by lia. }
  unfold op_removed, op_bytes in *.
  destruct (op_kind op); simpl in *; try done; try (pose proof (Ht eq_refl));
    (eexists; split; [f_equal; rewrite ?sat_add_small by lia; lia|]);
    rewrite ?content_of_app, Ho, <- ?app_assoc, ?app_nil_r; try done;
    by rewrite content_of_single.
Qed.

Lemma splice_loop_content s base os : ∀ out pos,
  extents_ok s base → net_ops (total_len base) (len (s Source.PostState)) pos os →
  content_of s
    (let '(out', pos') := foldl (splice_step base (total_len base)) (out, pos) os in
     if pos' <? total_len base then copy_base base pos' (total_len base) out' else out')
  = content_of s out ++ emitted (content_of s base) (s Source.PostState) pos os.
Proof.
  induction os as [|op os IH]; intros out pos Hok Hnet.
  - cbn [foldl emitted net_ops] in *. pose proof (len_content_of s base (proj1 Hok)) as Hlen. split_if; bool_to_prop.
    + rewrite copy_base_content by (done || lia). by rewrite slice_from by lia.
    + by rewrite dropN_ge, app_nil_r by lia.
  - destruct (splice_step_content s base out pos op os Hok Hnet) as (out' & Hstep & Hcont).
    cbn [foldl]. rewrite Hstep. destruct Hnet as (_ & _ & _ & _ & _ & Hr).
    rewrite IH by done. rewrite Hcont. cbn [emitted]. by rewrite <- !app_assoc.
Qed.

(** ** Properties *)

(** The reference splice refines the byte splice: reading the extent list
    [splice] builds gives exactly the bytes [apply] computes from the base
    file's bytes, for every canonical operation list; no byte is copied and
    none is lost. *)
Theorem splice_refines_apply (s : store) (base : list Extent) (os : list Op) :
  extents_ok s base →
  net_ops (total_len base) (len (s Source.PostState)) 0 os →
  content_of s (splice base os) = apply (content_of s base) os (s Source.PostState).
Proof.
  intros Hok Hnet. pose proof Hok as (Hin & Hst & Htot).
  rewrite apply_emitted; rewrite ?len_content_of; auto.
  exact (splice_loop_content s base os [] 0 Hok Hnet).
Qed.

(** Two base extents, a delete across their boundary and an insert. *)
Definition sample_store : store := λ src,
  match src with Source.Base => as_bytes "abcdefgh" | Source.PostState => as_bytes "XY" end.
Definition sample_extents : list Extent :=
  [mkExtent Source.Base 4 4; mkExtent Source.Base 0 4].
Definition sample_ops : list Op :=
  [mkOp OpKind.Insert 0 0 1 2 0; mkOp OpKind.Delete 0 0 3 2 u64_max].

Lemma splice_refines_apply_witness :
  extents_ok sample_store sample_extents ∧
  content_of sample_store (splice sample_extents sample_ops) =
  apply (content_of sample_store sample_extents) sample_ops (sample_store Source.PostState) ∧
  content_of sample_store (splice sample_extents sample_ops) = as_bytes "eXYfgbcd".
Proof.
  assert (extents_ok sample_store sample_extents) as Hok.
  { split_and!; [repeat constructor; vm_compute; discriminate|intros []; vm_compute; discriminate
      |vm_compute; discriminate]. }
  split; [exact Hok|]. split; [|vm_compute; reflexivity].
  apply (splice_refines_apply sample_store sample_extents sample_ops Hok).
  cbn [net_ops sample_ops]. split_and!; intros; try (vm_compute; discriminate); try done.
Defined.
