(* ===== verification/Derive.v ===== *)
(** * The content deriver

    Models [crates/merge/src/derive.rs]: one path's declared operations,
    composed by interval algebra over a list of pieces into the canonical net
    operations relative to the base content.  The correctness theorem relates
    the net operations to the file the journal really produced. *)

From S2P Require Import Prelude Range OpsDoc ByteSplice.
#[local] Open Scope N_scope.

(** A declared content operation, in current-file coordinates. *)
Module ContentOp.
Inductive t :=
| Overwrite (at_ len_ : N)
| Extend (at_ len_ : N)
| Truncate (len_ : N)
| Insert (at_ len_ : N)
| Delete (at_ len_ : N).

#[global] Instance eq_dec : EqDecision t.
Proof. solve_decision. Defined.
End ContentOp.

(** One run of the composed file: surviving base bytes, or new bytes. *)
Module Piece.
Inductive t :=
| Base (base_at len_ : N)
| New (len_ : N).

Definition len (p : t) : N := match p with Base _ l => l | New l => l end.

(** Splits the run at [offset] bytes from its start. *)
Definition split (p : t) (offset : N) : t * t :=
  match p with
  | Base base_at l => (Base base_at offset, Base (sat_add base_at offset) (sat_sub l offset))
  | New l => (New offset, New (sat_sub l offset))
  end.
End Piece.

(** The total current length of a piece list (the sum never wraps on a file
    whose length fits a word). *)
Definition pieces_len (pieces : list Piece.t) : N := sum_N (map Piece.len pieces).

(** The loop of [split_at]: a boundary at [offset], and the index of the piece that begins there. *)
Fixpoint split_loop (pieces : list Piece.t) (offset acc : N) : list Piece.t * nat :=
  match pieces with
  | [] => ([], O)
  | piece :: rest =>
      if acc =? offset then (pieces, O)
      else
        let piece_len := Piece.len piece in
        if offset <? sat_add acc piece_len then
          let '(l_piece, r_piece) := Piece.split piece (sat_sub offset acc) in
          (l_piece :: r_piece :: rest, 1%nat)
        else
          let '(rest', index) := split_loop rest offset (sat_add acc piece_len) in
          (piece :: rest', S index)
  end.

Definition split_at (pieces : list Piece.t) (offset : N) : list Piece.t * nat :=
  split_loop pieces offset 0.

(** [Vec::drain(start..end)] and [Vec::insert(index, x)]. *)
Definition drain {A} (l : list A) (start end_ : nat) : list A := take start l ++ drop end_ l.
Definition vec_insert {A} (l : list A) (index : nat) (x : A) : list A :=
  take index l ++ x :: drop index l.

(** Applies one declared operation to the piece list. *)
Definition apply_declared (pieces : list Piece.t) (op : ContentOp.t) : list Piece.t :=
  match op with
  | ContentOp.Overwrite at_ l =>
      if l =? 0 then pieces
      else
        let '(pieces, start) := split_at pieces at_ in
        let '(pieces, end_) := split_at pieces (sat_add at_ l) in
        vec_insert (drain pieces start end_) start (Piece.New l)
  | ContentOp.Extend at_ l | ContentOp.Insert at_ l =>
      if l =? 0 then pieces
      else
        let '(pieces, start) := split_at pieces at_ in
        vec_insert pieces start (Piece.New l)
  | ContentOp.Delete at_ l =>
      if l =? 0 then pieces
      else
        let '(pieces, start) := split_at pieces at_ in
        let '(pieces, end_) := split_at pieces (sat_add at_ l) in
        drain pieces start end_
  | ContentOp.Truncate l =>
      let total := pieces_len pieces in
      if l <? total then
        let '(pieces, cut) := split_at pieces l in take cut pieces
      else if total <? l then pieces ++ [Piece.New (sat_sub l total)]
      else pieces
  end.

(** One net op, before it is placed in a document. *)
Definition net_op (kind : OpKind.t) (at_ l src : N) : Op := mkOp kind 0 0 at_ l src.

(** The net op(s) of one boundary. *)
Definition emit (at_ base_len base_skip run_len run_src : N) (at_end : bool) : list Op :=
  if (base_skip =? 0) && (run_len =? 0) then []
  else if run_len =? 0 then
    if at_end && (sat_add at_ base_skip =? base_len)
    then [net_op OpKind.Truncate at_ base_skip u64_max]
    else [net_op OpKind.Delete at_ base_skip u64_max]
  else if base_skip =? 0 then
    if at_end && (at_ =? base_len)
    then [net_op OpKind.Extend at_ run_len run_src]
    else [net_op OpKind.Insert at_ run_len run_src]
  else if base_skip =? run_len then [net_op OpKind.Overwrite at_ run_len run_src]
  else [net_op OpKind.Delete at_ base_skip u64_max; net_op OpKind.Insert at_ run_len run_src].

(** A maximal run of new pieces: its length, and the pieces after it. *)
Fixpoint gather_new (pieces : list Piece.t) (run_len : N) : N * list Piece.t :=
  match pieces with
  | Piece.New l :: rest => gather_new rest (sat_add run_len l)
  | _ => (run_len, pieces)
  end.

(** The outer loop of [read_out]; each turn consumes a piece, so the piece
    count is fuel enough.  Answers the ops and the base cursor reached. *)
Fixpoint read_loop (fuel : nat) (base_len : N) (pieces : list Piece.t)
    (base_cursor final_offset : N) (os : list Op) : list Op * N :=
  match fuel, pieces with
  | S fuel, _ :: _ =>
      let run_src := final_offset in
      let '(run_len, rest) := gather_new pieces 0 in
      let at_end := match rest with [] => true | _ => false end in
      let base_skip :=
        match rest with
        | Piece.Base base_at _ :: _ => sat_sub base_at base_cursor
        | _ => sat_sub base_len base_cursor
        end in
      let os := os ++ emit base_cursor base_len base_skip run_len run_src at_end in
      let base_cursor := sat_add base_cursor base_skip in
      let final_offset := sat_add final_offset run_len in
      match rest with
      | [] => (os, base_cursor)
      | surviving :: rest =>
          let l := Piece.len surviving in
          read_loop fuel base_len rest (sat_add base_cursor l) (sat_add final_offset l) os
      end
  | _, _ => (os, base_cursor)
  end.

(** Walks the composed piece list once and emits the net ops. *)
Definition read_out (base_len : N) (pieces : list Piece.t) : list Op :=
  let '(os, base_cursor) := read_loop (length pieces) base_len pieces 0 0 [] in
  if base_cursor <? base_len
  then os ++ [net_op OpKind.Truncate base_cursor (sat_sub base_len base_cursor) u64_max]
  else os.

(** The piece list a journal leaves. *)
Definition compose_pieces (base_len : N) (journal : list ContentOp.t) : list Piece.t :=
  foldl apply_declared (if 0 <? base_len then [Piece.Base 0 base_len] else []) journal.

(** The net ops of a journal and the final content length. *)
Definition compose_content_sized (base_len : N) (journal : list ContentOp.t) : list Op * N :=
  let pieces := compose_pieces base_len journal in
  (read_out base_len pieces, pieces_len pieces).

Definition compose_content (base_len : N) (journal : list ContentOp.t) : list Op :=
  (compose_content_sized base_len journal).1.

(** ** What a journal does to a file *)

(** A declared operation with the bytes it wrote, executed on the file. *)
Definition exec_op (f : bytes) (op : ContentOp.t) (data : bytes) : bytes :=
  match op with
  | ContentOp.Overwrite at_ l => takeN at_ f ++ data ++ dropN (at_ + l) f
  | ContentOp.Extend at_ _ | ContentOp.Insert at_ _ => takeN at_ f ++ data ++ dropN at_ f
  | ContentOp.Delete at_ l => takeN at_ f ++ dropN (at_ + l) f
  | ContentOp.Truncate l => if l <? len f then takeN l f else f ++ data
  end.

(** The operations a file can see: in bounds, with the bytes their length says;
    a truncate past the end writes zeros. *)
Definition op_valid (f : bytes) (op : ContentOp.t) (data : bytes) : Prop :=
  match op with
  | ContentOp.Overwrite at_ l => at_ + l ≤ len f ∧ len data = l
  | ContentOp.Extend at_ l => at_ = len f ∧ len data = l
  | ContentOp.Insert at_ l => at_ ≤ len f ∧ len data = l
  | ContentOp.Delete at_ l => at_ + l ≤ len f ∧ data = []
  | ContentOp.Truncate l =>
      data = if l <? len f then [] else replicate (N.to_nat (l - len f)) (byte_of 0)
  end.

(** A journal from file [f] to file [g]; every state on the way fits a word. *)
Inductive executes : bytes → list (ContentOp.t * bytes) → bytes → Prop :=
| executes_nil f : len f ≤ u64_max → executes f [] f
| executes_cons f op data journal g :
    len f ≤ u64_max → op_valid f op data →
    executes (exec_op f op data) journal g → executes f ((op, data) :: journal) g.

(** ** The file a piece list stands for

    [run base c ps f c']: the pieces [ps] spell the bytes [f], their base runs
    taken in order from the window [[c, c')] of the base. *)
Inductive run (base : bytes) : N → list Piece.t → bytes → N → Prop :=
| run_nil c c' : c ≤ c' → c' ≤ len base → run base c [] [] c'
| run_base c a l ps f c' :
    0 < l → c ≤ a → run base (a + l) ps f c' →
    run base c (Piece.Base a l :: ps) (slice base a (a + l) ++ f) c'
| run_new c l d ps f c' :
    0 < l → l = len d → run base c ps f c' →
    run base c (Piece.New l :: ps) (d ++ f) c'.
#[export] Hint Constructors run : slates.

Lemma run_bounds base c ps f c' : run base c ps f c' → c ≤ c' ∧ c' ≤ len base.
Proof. induction 1; lia. Qed.

Lemma run_weaken base c ps f c' d d' :
  run base c ps f c' → d ≤ c → c' ≤ d' → d' ≤ len base → run base d ps f d'.
Proof.
  intros H. revert d d'. induction H; intros; constructor; try lia; try done;
    eauto with slates lia.
Qed.

Lemma run_app base c p1 f1 m p2 f2 c' :
  run base c p1 f1 m → run base m p2 f2 c' → run base c (p1 ++ p2) (f1 ++ f2) c'.
Proof.
  induction 1; intros; simpl; rewrite <- ?app_assoc; [|by constructor; auto..].
  pose proof (run_bounds _ _ _ _ _ H1). eapply run_weaken; eauto; lia.
Qed.

Lemma run_total base c ps f c' : run base c ps f c' → pieces_len ps = len f.
Proof.
  unfold pieces_len. induction 1 as [| |]; cbn [map sum_N foldr Piece.len]; [done| |];
    unfold sum_N in *; rewrite IHrun; len_solve.
  apply run_bounds in H1. lia.
Qed.

(** One piece. *)
Lemma run_base1 base c a l d m :
  0 < l → c ≤ a → a + l ≤ m → m ≤ len base → d = slice base a (a + l) →
  run base c [Piece.Base a l] d m.
Proof. intros. subst d. rewrite <- (app_nil_r (slice _ _ _)). repeat constructor; lia. Qed.
Lemma run_new1 base c l d m :
  0 < l → l = len d → c ≤ m → m ≤ len base → run base c [Piece.New l] d m.
Proof. intros. rewrite <- (app_nil_r d). constructor; [done..|]. constructor; lia. Qed.

(** The first piece and the rest. *)
Lemma run_cons_inv base c p ps f c' : run base c (p :: ps) f c' →
  ∃ d g m, f = d ++ g ∧ 0 < len d ∧ len d = Piece.len p ∧
    run base c [p] d m ∧ run base m ps g c'.
Proof.
  intros H. inversion H as [|? a l ? g ? Hl Hc Hr|? l e ? g ? Hl He Hr]; subst;
    pose proof (run_bounds _ _ _ _ _ Hr).
  - exists (slice base a (a + l)), g, (a + l). cbn [Piece.len]. split_and!; try done; [len_solve..|].
    apply run_base1; lia || done.
  - exists e, g, c. split_and!; try done. apply run_new1; lia || done.
Qed.

(** A split inside one piece. *)
Lemma run_split base c p d m off :
  run base c [p] d m → 0 < off → off < Piece.len p → len base ≤ u64_max →
  ∃ k, run base c [(Piece.split p off).1] (takeN off d) k ∧
       run base k [(Piece.split p off).2] (dropN off d) m.
Proof.
  intros H Ho1 Ho2 Hb.
  inversion H as [|? a l ? g ? Hl Hc Hr|? l e ? g ? Hl He Hr]; subst;
    inversion Hr; subst; cbn [Piece.len Piece.split fst snd] in *; unfold sat_sub;
    rewrite app_nil_r.
  - exists (a + off). rewrite sat_add_small by lia. split.
    + apply run_base1; try lia.
      by rewrite <- slice_0, slice_slice, N.add_0_r by lia.
    + apply run_base1; try lia.
      rewrite <- (slice_from _ off l) by len_solve. rewrite slice_slice by lia. f_equal. lia.
  - exists c. split; apply run_new1; len_solve.
Qed.

(** [split_at] makes a boundary at the offset and answers its index. *)
Lemma split_loop_run base c' offset ps : ∀ c f acc,
  len base ≤ u64_max → run base c ps f c' →
  acc ≤ offset → offset ≤ acc + len f → acc + len f ≤ u64_max →
  ∃ p1 p2 m, split_loop ps offset acc = (p1 ++ p2, length p1) ∧
    run base c p1 (takeN (offset - acc) f) m ∧ run base m p2 (dropN (offset - acc) f) c'.
Proof.
  induction ps as [|p ps IH]; intros c f acc Hb Hrun Ha Ho Hu; cbn [split_loop].
  { inversion Hrun; subst. exists [], [], c'. rewrite takeN_ge, dropN_ge by len_solve.
    split_and!; try done. constructor; lia. }
  split_if; bool_to_prop.
  { subst. exists [], (p :: ps), c. rewrite N.sub_diag. pose proof (run_bounds _ _ _ _ _ Hrun).
    split_and!; [done| |done]. constructor; lia. }
  destruct (run_cons_inv _ _ _ _ _ _ Hrun) as (d & g & m & -> & Hd & Hlen & Hp & Hr).
  autorewrite with len in *. rewrite sat_add_small by lia. split_if; bool_to_prop.
  - destruct (run_split base c p d m (offset - acc)) as (k & Hk1 & Hk2); [done|lia..|done|].
    unfold sat_sub. destruct (Piece.split p (offset - acc)) as [lp rp]. simpl in Hk1, Hk2.
    exists [lp], (rp :: ps), k.
    rewrite takeN_app_le, dropN_app_le by lia. split_and!; [done|done|].
    by apply (run_app _ _ [rp] _ m ps).
  - destruct (IH m g (acc + Piece.len p)) as (p1 & p2 & k & -> & Hk1 & Hk2); try done; try lia.
    exists (p :: p1), p2, k. rewrite takeN_app_ge, dropN_app_ge by lia.
    replace (offset - acc - len d) with (offset - (acc + Piece.len p)) by lia.
    split_and!; [done| |done]. by apply (run_app _ _ [p] _ m p1).
Qed.

(** A second boundary past a prefix leaves the prefix alone. *)
Lemma split_loop_app base c p1 f1 m offset p2 : ∀ acc,
  run base c p1 f1 m → acc + len f1 ≤ offset → offset ≤ u64_max →
  split_loop (p1 ++ p2) offset acc =
    (p1 ++ (split_loop p2 offset (acc + len f1)).1,
     (length p1 + (split_loop p2 offset (acc + len f1)).2)%nat).
Proof.
  intros acc H. revert acc. induction H; intros acc Ho Hu; cbn [app split_loop length].
  - rewrite len_nil, N.add_0_r. by destruct (split_loop p2 offset acc).
  - apply run_bounds in H1 as Hbd. autorewrite with len in Ho.
    rewrite (proj2 (N.eqb_neq _ _)) by lia. cbn [Piece.len]. rewrite sat_add_small by lia.
    rewrite (proj2 (N.ltb_ge _ _)) by lia. rewrite IHrun by lia. autorewrite with len.
    replace (N.min (a + l - a) (len base - a)) with l by lia.
    replace (acc + (l + len f)) with (acc + l + len f) by lia. by destruct (split_loop p2 _ _).
  - autorewrite with len in Ho.
    rewrite (proj2 (N.eqb_neq _ _)) by lia. cbn [Piece.len]. rewrite sat_add_small by lia.
    rewrite (proj2 (N.ltb_ge _ _)) by lia. rewrite IHrun by lia. autorewrite with len.
    subst l. replace (acc + (len d + len f)) with (acc + len d + len f) by lia.
    by destruct (split_loop p2 _ _).
Qed.

(** The two splits that isolate [[at_, at_ + l)]. *)
Lemma split_twice base ps f at_ l :
  len base ≤ u64_max → run base 0 ps f (len base) → at_ + l ≤ len f → len f ≤ u64_max →
  ∃ p1 p2 p3 m n,
    (let '(ps, start) := split_at ps at_ in
     let '(ps, end_) := split_at ps (sat_add at_ l) in (ps, start, end_))
      = (p1 ++ p2 ++ p3, length p1, (length p1 + length p2)%nat) ∧
    run base 0 p1 (takeN at_ f) m ∧ m ≤ n ∧ run base n p3 (dropN (at_ + l) f) (len base).
Proof.
  intros Hb Hrun Hin Hu.
  destruct (split_loop_run base (len base) at_ ps 0 f 0) as (p1 & q & m & E & H1 & H2);
    [done..|lia|lia|lia|].
  rewrite N.sub_0_r in *.
  destruct (split_loop_run base (len base) (at_ + l) q m (dropN at_ f) at_)
    as (p2 & p3 & n & E' & H3 & H4); [done..|lia|len_solve|len_solve|].
  exists p1, p2, p3, m, n. unfold split_at. rewrite E, sat_add_small by lia.
  rewrite (split_loop_app base 0 p1 (takeN at_ f) m) by (done || len_solve).
  autorewrite with len. replace (0 + N.min at_ (len f)) with at_ by lia. rewrite E'. cbn [fst snd].
  split_and!; [done|done|by eapply run_bounds|].
  rewrite dropN_dropN in H4. by replace (at_ + (at_ + l - at_)) with (at_ + l) in H4 by lia.
Qed.

Lemma drain_app {A} (p1 p2 p3 : list A) :
  drain (p1 ++ p2 ++ p3) (length p1) (length p1 + length p2) = p1 ++ p3.
Proof.
  unfold drain. rewrite take_app_length, app_assoc, drop_app_length'; [done|].
  by rewrite length_app.
Qed.
Lemma vec_insert_app {A} (p1 p2 : list A) x : vec_insert (p1 ++ p2) (length p1) x = p1 ++ x :: p2.
Proof. unfold vec_insert. by rewrite take_app_length, drop_app_length. Qed.

(** Each declared operation keeps the pieces spelling the file it leaves. *)
Lemma apply_declared_run base ps f op data :
  len base ≤ u64_max → run base 0 ps f (len base) → len f ≤ u64_max → op_valid f op data →
  run base 0 (apply_declared ps op) (exec_op f op data) (len base).
Proof.
  intros Hb Hrun Hu Hv.
  assert (Hins : ∀ at_ l, at_ ≤ len f → len data = l →
    run base 0 (if l =? 0 then ps else
        let '(pieces, start) := split_at ps at_ in vec_insert pieces start (Piece.New l))
      (takeN at_ f ++ data ++ dropN at_ f) (len base)).
  { intros at_ l Hat Hl. split_if; bool_to_prop.
    - rewrite (len_0_nil data), app_nil_l, takeN_dropN by lia. done.
    - destruct (split_loop_run base (len base) at_ ps 0 f 0) as (p1 & q & m & E & H1 & H2);
        [done..|lia|lia|lia|]. unfold split_at. rewrite E, N.sub_0_r in *.
      rewrite vec_insert_app. eapply run_app; [done|]. constructor; [lia|done|done]. }
  destruct op as [at_ l|at_ l|l|at_ l|at_ l]; cbn [apply_declared exec_op op_valid] in *.
  - destruct Hv as [Hin Hl]. split_if; bool_to_prop.
    { subst. rewrite (len_0_nil data) in * by lia. rewrite N.add_0_r, app_nil_l, takeN_dropN. done. }
    destruct (split_twice base ps f at_ l) as (p1 & p2 & p3 & m & n & E & H1 & Hmn & H3); try done.
    destruct (split_at ps at_) as [q start]. destruct (split_at q (sat_add at_ l)) as [q' end_].
    injection E as -> -> ->. rewrite drain_app, vec_insert_app.
    eapply run_app; [exact H1|]. constructor; [lia|done|].
    eapply run_weaken; [eassumption|lia..].
  - destruct Hv as [-> Hl]. apply Hins; [lia|done].
  - rewrite (run_total _ _ _ _ _ Hrun). subst data. split_if; bool_to_prop.
    + destruct (split_loop_run base (len base) l ps 0 f 0) as (p1 & q & m & E & H1 & H2);
        [done..|lia|lia|lia|]. unfold split_at. rewrite E, N.sub_0_r in *.
      rewrite take_app_length. pose proof (run_bounds _ _ _ _ _ H1).
      eapply run_weaken; [eassumption|lia..].
    + split_if; bool_to_prop.
      * eapply run_app; [done|]. unfold sat_sub. apply run_new1; try lia.
        unfold len at 2. rewrite length_replicate. lia.
      * replace (l - len f) with 0 by lia. by rewrite app_nil_r.
  - destruct Hv as [? Hl]. apply Hins; [lia|done].
  - destruct Hv as [Hin ->]. split_if; bool_to_prop.
    { subst. by rewrite N.add_0_r, takeN_dropN. }
    destruct (split_twice base ps f at_ l) as (p1 & p2 & p3 & m & n & E & H1 & Hmn & H3); try done.
    destruct (split_at ps at_) as [q start]. destruct (split_at q (sat_add at_ l)) as [q' end_].
    injection E as -> -> ->. rewrite drain_app.
    eapply run_app; [exact H1|]. eapply run_weaken; [eassumption|lia..].
Qed.

(** ** Lemmas: the readout *)
Lemma gather_new_run base ps : ∀ c f c' acc,
  run base c ps f c' → acc + len f ≤ u64_max →
  ∃ d g rest, gather_new ps acc = (acc + len d, rest) ∧ f = d ++ g ∧ run base c rest g c' ∧
    (length rest ≤ length ps)%nat ∧
    match rest with Piece.New _ :: _ => False | _ => True end.
Proof.
  induction ps as [|[a l|l] ps IH]; intros c f c' acc Hrun Hu; cbn [gather_new].
  - exists [], f, []. rewrite len_nil, N.add_0_r. split_and!; done.
  - exists [], f, (Piece.Base a l :: ps). rewrite len_nil, N.add_0_r. split_and!; done.
  - inversion Hrun as [| |? ? d ? g ? Hl Hd Hr]; subst. autorewrite with len in Hu.
    rewrite sat_add_small by lia.
    destruct (IH c g c' (acc + len d) Hr) as (d' & g' & rest & -> & -> & Hr' & ? & ?); [lia|].
    exists (d ++ d'), g', rest. rewrite len_app, N.add_assoc, <- app_assoc.
    split_and!; try done. simpl. lia.
Qed.

(** The op list with the trailing truncate, from a state of the loop. *)
Definition read_tail (fuel : nat) (blen : N) (ps : list Piece.t) (c fo : N) : list Op :=
  let '(os, bc) := read_loop fuel blen ps c fo [] in
  os ++ if bc <? blen then [net_op OpKind.Truncate bc (sat_sub blen bc) u64_max] else [].

Lemma read_loop_acc fuel blen : ∀ ps c fo os,
  read_loop fuel blen ps c fo os =
    (os ++ (read_loop fuel blen ps c fo []).1, (read_loop fuel blen ps c fo []).2).
Proof.
  induction fuel as [|fuel IH]; intros ps c fo os; cbn [read_loop].
  { by rewrite app_nil_r. }
  destruct ps as [|p ps]; [by rewrite app_nil_r|].
  destruct (gather_new (p :: ps) 0) as [run_len rest]. destruct rest as [|q rest].
  { done. }
  cbn [app]. rewrite IH. rewrite (IH _ _ _ (emit _ _ _ _ _ _)). cbn [fst snd]. by rewrite app_assoc.
Qed.

(** One turn of the loop that meets a surviving base run, and the last turn. *)
Lemma read_tail_base fuel blen p ps c fo n a l rest :
  gather_new (p :: ps) 0 = (n, Piece.Base a l :: rest) →
  read_tail (S fuel) blen (p :: ps) c fo =
    emit c blen (a - c) n fo false
    ++ read_tail fuel blen rest (sat_add (sat_add c (a - c)) l) (sat_add (sat_add fo n) l).
Proof.
  intros Hg. unfold read_tail. cbn [read_loop]. rewrite Hg. cbn [app Piece.len].
  rewrite read_loop_acc. unfold sat_sub. destruct (read_loop fuel _ rest _ _ _) as [os bc].
  cbn [fst snd]. by rewrite app_assoc.
Qed.

Lemma read_tail_end fuel blen p ps c fo n :
  c ≤ blen → blen ≤ u64_max → gather_new (p :: ps) 0 = (n, []) →
  read_tail (S fuel) blen (p :: ps) c fo = emit c blen (blen - c) n fo true.
Proof.
  intros Hc Hb Hg. unfold read_tail. cbn [read_loop]. rewrite Hg. cbn [app].
  unfold sat_sub. rewrite sat_add_small by lia. replace (c + (blen - c)) with blen by lia.
  by rewrite N.ltb_irrefl, app_nil_r.
Qed.

Lemma slice_as_dropN {A} (F d g : list A) fo : dropN fo F = d ++ g → slice F fo (fo + len d) = d.
Proof.
  intros Hf. replace fo with (fo + 0) at 1 by lia. rewrite <- slice_dropN, Hf, slice_0.
  by rewrite takeN_app_eq.
Qed.

Definition net_tail (blen c : N) (os : list Op) : Prop :=
  Forall (λ op, op_path op = 0 ∧ c ≤ op_at op ∧ (op_kind op = OpKind.Extend → op_at op = blen)) os.

Lemma emit_ats c blen skip add src e :
  Forall (λ op, op_path op = 0 ∧ op_at op = c ∧ (op_kind op = OpKind.Extend → op_at op = blen))
    (emit c blen skip add src e).
Proof.
  unfold emit. repeat split_if; bool_to_prop; repeat constructor; cbn; done.
Qed.

(** The ops of one boundary, in canonical order before the rest [R]. *)
Lemma emit_canon base F c skip add src e R :
  len base ≤ u64_max → c + skip ≤ len base → src + add ≤ len F →
  net_ops (len base) (len F) (c + skip) R →
  let os := sort_by op_leb (emit c (len base) skip add src e) ++ R in
  net_ops (len base) (len F) c os ∧
  emitted base F c os = slice F src (src + add) ++ emitted base F (c + skip) R.
Proof.
  intros Hb Hc Hs HR. unfold emit.
  repeat split_if; bool_to_prop; rewrite ?sat_add_small in * by lia; subst;
    rewrite ?N.add_0_r in *; try done;
    cbn -[N.add N.sub slice len]; unfold op_leb; cbn -[N.add N.sub slice len];
    rewrite ?N.eqb_refl; cbn -[N.add N.sub slice len];
    rewrite ?N.add_0_r; (split; [try split_and!; try done; try lia|]);
    rewrite ?(slice_empty base (len base) (len base)), ?(slice_empty base c c),
      ?(slice_empty F src src) by lia; done.
Qed.

Lemma sort_emit c blen skip add src e R :
  net_tail blen (c + 1) R →
  sort_by op_leb (emit c blen skip add src e ++ R)
    = sort_by op_leb (emit c blen skip add src e) ++ sort_by op_leb R.
Proof.
  intros HR. apply sort_by_app. intros x y Hx Hy.
  pose proof (emit_ats c blen skip add src e) as HE. rewrite Forall_forall in HE.
  destruct (HE x Hx) as (Hp & Ha & _). unfold net_tail in HR. rewrite Forall_forall in HR.
  destruct (HR y Hy) as (Hp' & Ha' & _). unfold op_leb. rewrite Hp, Hp', N.eqb_refl.
  rewrite (proj2 (N.eqb_neq _ _)) by lia. apply N.leb_le. lia.
Qed.

Lemma net_tail_emit c blen skip add src e R :
  net_tail blen (c + 1) R → net_tail blen c (emit c blen skip add src e ++ R).
Proof.
  intros HR. apply Forall_app. split.
  - eapply Forall_impl; [apply emit_ats|]. cbn. intuition lia.
  - eapply Forall_impl; [exact HR|]. cbn. intuition lia.
Qed.

(** The readout, from any state of the loop: in canonical order its ops
    rebuild the rest of the file. *)
Lemma read_tail_canon base F fuel : ∀ ps c fo f,
  len base ≤ u64_max → len F ≤ u64_max → (length ps ≤ fuel)%nat →
  run base c ps f (len base) → fo + len f = len F → dropN fo F = f →
  let os := read_tail fuel (len base) ps c fo in
  net_tail (len base) c os ∧
  net_ops (len base) (len F) c (sort_by op_leb os) ∧
  emitted base F c (sort_by op_leb os) = f.
Proof.
  induction fuel as [|fuel IH]; intros ps c fo f Hb HF Hfuel Hrun Hlen Hf; cbv zeta.
  - destruct ps; [|simpl in Hfuel; lia]. inversion Hrun; subst. unfold read_tail. cbn [read_loop app].
    split_if; bool_to_prop; cbn -[N.add N.sub slice len].
    + unfold sat_sub. rewrite slice_empty, dropN_ge by lia. repeat split; try done; try lia.
      repeat constructor; cbn; done || lia.
    + rewrite dropN_ge by lia. split_and!; try done. constructor.
  - destruct ps as [|p ps].
    { specialize (IH [] c fo f Hb HF ltac:(simpl; lia) Hrun Hlen Hf). unfold read_tail in *.
      destruct fuel; exact IH. }
    destruct (gather_new_run base (p :: ps) c f (len base) 0 Hrun)
      as (d & g & rest & Hg & -> & Hr & Hle & Hshape); [lia|].
    rewrite N.add_0_l in Hg. autorewrite with len in Hlen.
    destruct rest as [|[a l|] rest]; [| |done].
    + (* the new run closes the file *)
      inversion Hr; subst. rewrite (read_tail_end _ _ _ _ _ _ (len d)) by done.
      pose proof (emit_canon base F c (len base - c) (len d) fo true []) as He.
      rewrite app_nil_r in He. cbn [net_ops emitted] in He.
      destruct He as [Hn Hem]; [done|lia..|]. split; [|split; [done|]].
      * rewrite <- (app_nil_r (emit _ _ _ _ _ _)). apply net_tail_emit. constructor.
      * rewrite Hem, dropN_ge by lia. by rewrite (slice_as_dropN F d []).
    + inversion Hr as [|? ? ? ? h ? Hl Hc Hr'|]; subst. autorewrite with len in Hlen.
      pose proof (run_bounds _ _ _ _ _ Hr') as Hbd.
      rewrite (read_tail_base _ _ _ _ _ _ _ _ _ _ Hg).
      rewrite !(sat_add_small c) by lia. replace (c + (a - c)) with a by lia.
      rewrite !sat_add_small by (rewrite ?sat_add_small by lia; lia).
      destruct (IH rest (a + l) (fo + len d + l) h) as (Ht & Hn & Hem);
        [done|done|simpl in *; lia|done|lia| |].
      { rewrite <- !dropN_dropN, Hf, dropN_app_eq, dropN_app_eq by len_solve. done. }
      set (R := read_tail _ _ _ _ _) in *.
      assert (HR : net_tail (len base) (c + 1) R).
      { eapply Forall_impl; [exact Ht|]. cbn. intuition lia. }
      split; [by apply net_tail_emit|]. rewrite sort_emit by done.
      destruct (emit_canon base F c (a - c) (len d) fo false (sort_by op_leb R)) as [Hn' Hem'];
        [done|lia|lia| |].
      { replace (c + (a - c)) with a by lia. eapply net_ops_weaken; [|exact Hn]. lia. }
      split; [exact Hn'|]. rewrite Hem'. replace (c + (a - c)) with a by lia.
      rewrite (emitted_skip base F _ _ a (a + l) _ ltac:(lia) Hn), Hem. f_equal.
      by eapply slice_as_dropN.
Qed.

Lemma read_out_tail blen ps : read_out blen ps = read_tail (length ps) blen ps 0 0.
Proof.
  unfold read_out, read_tail. destruct (read_loop _ _ _ _ _ _) as [os bc].
  split_if; [done|]. by rewrite app_nil_r.
Qed.

(** Running a journal keeps the piece list spelling the file. *)
Lemma compose_pieces_run base journal F : executes base journal F →
  run base 0 (compose_pieces (len base) journal.*1) F (len base) ∧ len F ≤ u64_max.
Proof.
  intros Hex. assert (Hb : len base ≤ u64_max) by (inversion Hex; done).
  unfold compose_pieces.
  assert (H0 : run base 0 (if 0 <? len base then [Piece.Base 0 (len base)] else []) base (len base)).
  { split_if; bool_to_prop.
    - apply run_base1; try lia. by rewrite N.add_0_l, slice_all.
    - rewrite (len_0_nil base) by lia. constructor; done. }
  revert H0. generalize (if 0 <? len base then [Piece.Base 0 (len base)] else []).
  assert (Hgen : ∀ f, executes f journal F → ∀ ps, run base 0 ps f (len base) →
    run base 0 (foldl apply_declared ps journal.*1) F (len base) ∧ len F ≤ u64_max).
  { clear Hex. intros f Hex. induction Hex; intros ps Hps; [done|].
    cbn [foldl fmap list_fmap fst]. apply IHHex. by apply apply_declared_run. }
  intros l Hl. by apply (Hgen base).
Qed.

(** The composed operations rebuild the file. *)
Lemma compose_content_exact (base F : bytes) (journal : list (ContentOp.t * bytes)) :
  executes base journal F →
  let '(os, final_len) := compose_content_sized (len base) journal.*1 in
  final_len = len F ∧
  net_ops (len base) (len F) 0 (sort_by op_leb os) ∧
  fits_base (sort_by op_leb os) (len base) (len F) = true ∧
  apply base (sort_by op_leb os) F = F.
Proof.
  intros Hex. assert (Hb : len base ≤ u64_max) by (inversion Hex; done).
  destruct (compose_pieces_run _ _ _ Hex) as [Hrun HF].
  unfold compose_content_sized. rewrite read_out_tail.
  destruct (read_tail_canon base F (length (compose_pieces (len base) journal.*1))
    (compose_pieces (len base) journal.*1) 0 0 F) as (Ht & Hn & Hem); try done; try lia.
  split_and!; [by eapply run_total|done| |].
  - eapply net_ops_fits; try done. apply Forall_forall. intros op Hop.
    rewrite elem_of_sort_by in Hop. unfold net_tail in Ht. rewrite Forall_forall in Ht.
    by apply (Ht op).
  - rewrite apply_emitted by done. exact Hem.
Qed.

(** ** Properties *)

(** C33. The content deriver is correct: for every journal that takes a file
    from [base] to [F] (each declared operation executed on the bytes, each
    intermediate length a word), composing the declared ranges alone, without
    reading a byte, answers the length of [F] and net operations whose
    canonical order is disjoint and in base order, passes the engine's
    [fits_base] check, and rebuilds [F] exactly when applied to [base] with
    [F] itself as the post-state. *)
Theorem compose_content_correct (base F : bytes) (journal : list (ContentOp.t * bytes)) :
  executes base journal F →
  let '(os, final_len) := compose_content_sized (len base) journal.*1 in
  final_len = len F ∧
  net_ops (len base) (len F) 0 (sort_by op_leb os) ∧
  fits_base (sort_by op_leb os) (len base) (len F) = true ∧
  apply base (sort_by op_leb os) F = F.
Proof. apply compose_content_exact. Qed.

(** A write past an edit: insert two bytes, overwrite across their boundary,
    delete from the middle, truncate up. *)
Lemma compose_content_correct_witness :
  ∃ F, let '(os, final_len) := compose_content_sized 8
       [ContentOp.Insert 3 2; ContentOp.Overwrite 4 3; ContentOp.Delete 0 2; ContentOp.Truncate 9] in
  final_len = len F ∧
  net_ops 8 (len F) 0 (sort_by op_leb os) ∧
  fits_base (sort_by op_leb os) 8 (len F) = true ∧
  apply (as_bytes "abcdefgh") (sort_by op_leb os) F = F.
Proof.
  eexists. apply (compose_content_correct (as_bytes "abcdefgh") _
    [(ContentOp.Insert 3 2, as_bytes "XY"); (ContentOp.Overwrite 4 3, as_bytes "123");
     (ContentOp.Delete 0 2, []); (ContentOp.Truncate 9, [byte_of 0])]).
  repeat (econstructor; [vm_compute; done | vm_compute; done |]).
  constructor. vm_compute. done.
Defined.
