(* ===== verification/Special.v ===== *)
(** * IPC node metadata

    Models the node encoding of [crates/merge/src/special.rs]: a FIFO or
    socket name's kind, owner and timestamps as 41 little-endian bytes.  The
    composition half of that file is in [Volume]. *)

From S2P Require Import Prelude OpsDoc.
#[local] Open Scope N_scope.

Inductive SpecialKind := Fifo | Socket.

#[export] Instance SpecialKind_eq_dec : EqDecision SpecialKind.
Proof. solve_decision. Defined.

Record SpecialNode := mkSpecialNode {
  sn_kind : SpecialKind;
  sn_uid : N;
  sn_gid : N;
  sn_atime : Z;
  sn_mtime : Z;
  sn_ctime : Z;
  sn_btime : Z
}.

#[export] Instance SpecialNode_eq_dec : EqDecision SpecialNode.
Proof. solve_decision. Defined.

(** [size_of::<u8>() + 2 * size_of::<u32>() + 4 * size_of::<i64>()]. *)
Definition ENCODED_BYTES : N := 1 + 2 * 4 + 4 * 8.

(** [i64::to_le_bytes] and [i64::from_le_bytes]: two's complement. *)
Definition i64_bytes (z : Z) : bytes := le_bytes 8 (Z.to_N (z mod 2 ^ 64)).
Definition i64_val (bs : bytes) : Z :=
  let n := Z.of_N (le_val bs) in if (n <? 2 ^ 63)%Z then n else (n - 2 ^ 64)%Z.

Definition kind_byte (k : SpecialKind) : N := match k with Fifo => 0 | Socket => 1 end.

(** [SpecialNode::encode]. *)
Definition node_encode (node : SpecialNode) : bytes :=
  [byte_of (kind_byte (sn_kind node))]
  ++ le_bytes 4 (sn_uid node) ++ le_bytes 4 (sn_gid node)
  ++ i64_bytes (sn_atime node) ++ i64_bytes (sn_mtime node)
  ++ i64_bytes (sn_ctime node) ++ i64_bytes (sn_btime node).

(** The [time] closure of [SpecialNode::decode]. *)
Definition read_time (r : Reader) : result DocDecodeError (Z * Reader) :=
  '(word, r) ← read_bytes r 8; Ok (i64_val word, r).

Definition kind_of_byte (k : N) : option SpecialKind :=
  match k with 0 => Some Fifo | 1 => Some Socket | _ => None end.

(** The fields of [SpecialNode::decode]. *)
Definition read_node (r : Reader) : result DocDecodeError (SpecialNode * Reader) :=
  '(k, r) ← read_u8 r;
  kind ← ok_or (kind_of_byte k) BadKind;
  '(uid, r) ← read_u32 r;
  '(gid, r) ← read_u32 r;
  '(atime, r) ← read_time r;
  '(mtime, r) ← read_time r;
  '(ctime, r) ← read_time r;
  '(btime, r) ← read_time r;
  Ok (mkSpecialNode kind uid gid atime mtime ctime btime, r).

(** [SpecialNode::decode]: exactly one node. *)
Definition node_decode (bs : bytes) : result DocDecodeError SpecialNode :=
  '(node, r) ← read_node (Reader_new bs);
  if negb (rd_is_empty r) then Err TrailingBytes else Ok node.

(** The field widths. *)
Definition i64_range (z : Z) : Prop := (- 2 ^ 63 ≤ z < 2 ^ 63)%Z.
Definition node_wf (node : SpecialNode) : Prop :=
  sn_uid node ≤ u32_max ∧ sn_gid node ≤ u32_max ∧
  i64_range (sn_atime node) ∧ i64_range (sn_mtime node) ∧
  i64_range (sn_ctime node) ∧ i64_range (sn_btime node).

(** ** Lemmas *)
Lemma i64_val_bytes z : i64_range z → i64_val (i64_bytes z) = z.
Proof.
  unfold i64_range, i64_val, i64_bytes. intros Hz.
  pose proof (Z.mod_pos_bound z (2 ^ 64) ltac:(lia)) as Hm.
  rewrite le_val_bytes by (change (256 ^ N.of_nat 8) with (Z.to_N (2 ^ 64)); lia).
  rewrite Z2N.id by lia.
  destruct (decide (0 ≤ z)%Z).
  - rewrite Z.mod_small in * by lia. by rewrite (proj2 (Z.ltb_lt _ _)) by lia.
  - assert (z mod 2 ^ 64 = z + 2 ^ 64)%Z as ->.
    { symmetry. apply Z.mod_unique with (q := (-1)%Z); lia. }
    rewrite (proj2 (Z.ltb_ge _ _)) by lia. lia.
Qed.

Lemma len_i64_bytes z : len (i64_bytes z) = 8.
Proof. apply len_le_bytes. Qed.
#[export] Hint Rewrite len_i64_bytes : len.

Lemma yields_time z : i64_range z → yields read_time (i64_bytes z) z.
Proof.
  intros Hz p y Hfit. unfold read_time.
  rewrite (yields_bytes (i64_bytes z) 8) by (done || by rewrite len_i64_bytes).
  cbn [mbind result_bind]. by rewrite i64_val_bytes.
Qed.
#[export] Hint Resolve yields_time : slates.

Lemma kind_of_byte_of k : kind_of_byte (kind_byte k) = Some k.
Proof. by destruct k. Qed.

Lemma len_node_encode node : len (node_encode node) = ENCODED_BYTES.
Proof. unfold node_encode, ENCODED_BYTES. len_solve. Qed.

Lemma yields_node node : node_wf node → yields read_node (node_encode node) node.
Proof.
  intros (? & ? & ? & ? & ? & ?). unfold node_encode, read_node.
  eapply (yields_bind read_u8 _ _ (kind_byte (sn_kind node))).
  { apply yields_u8. destruct (sn_kind node); unfold u8_max; simpl; lia. }
  rewrite kind_of_byte_of. cbn [ok_or mbind result_bind].
  do 5 (eapply yields_bind; [by auto with slates|]).
  rewrite <- (app_nil_r (i64_bytes (sn_btime node))).
  eapply yields_bind; [by auto with slates|]. destruct node. apply yields_ret.
Qed.

(** Running a reader over exactly its bytes. *)
Lemma yields_whole {A} (f : Reader → result DocDecodeError (A * Reader)) x a :
  yields f x a → len x ≤ usize_max →
  f (Reader_new x) = Ok (a, reader_at x []).
Proof.
  intros Hf Hx. specialize (Hf [] []). unfold in_memory, reader_at in Hf.
  rewrite app_nil_r, app_nil_l in Hf. unfold Reader_new. rewrite len_nil in Hf.
  unfold reader_at. by rewrite Hf by lia.
Qed.

Lemma reader_at_end x : rd_is_empty (reader_at x []) = true.
Proof. unfold rd_is_empty. rewrite remaining_at. done. Qed.

Lemma node_decode_encode node : node_wf node → node_decode (node_encode node) = Ok node.
Proof.
  intros Hwf. unfold node_decode. rewrite (yields_whole read_node _ node (yields_node node Hwf)).
  - cbn. by rewrite reader_at_end.
  - rewrite len_node_encode. unfold ENCODED_BYTES, usize_max, u64_max. lia.
Qed.
