(* ===== verification/Origin.v ===== *)
(** * A green's origin

    Models [crates/merge/src/origin.rs]: the tables a green holds at version
    0, their canonical form and the canonical encoding. *)

From S2P Require Import Prelude OpsDoc Special.
#[local] Open Scope N_scope.

(** "GORG" little-endian. *)
Definition ORIGIN_MAGIC : N := 0x47524f47.
Definition ORIGIN_VERSION : N := 2.
Definition ENTRY_MIN_BYTES : N := 4.

Record Origin := mkOrigin {
  o_files : list (string * bytes);
  o_dirs : list string;
  o_modes : list (string * N);
  o_symlinks : list (string * string);
  o_hardlinks : list (string * string);
  o_specials : list (string * SpecialNode);
  o_xattrs : list (string * string * bytes)
}.

(** [Origin::is_empty]. *)
Definition is_nil {A} (l : list A) : bool := match l with [] => true | _ => false end.
Definition origin_is_empty (o : Origin) : bool :=
  is_nil (o_files o) && is_nil (o_dirs o) && is_nil (o_modes o) && is_nil (o_symlinks o)
  && is_nil (o_hardlinks o) && is_nil (o_xattrs o) && is_nil (o_specials o).

(** [Vec::dedup_by]: drop an entry that is the same as the last one kept. *)
Section dedup.
Context {A : Type} (same : A → A → bool).
Fixpoint dedup_after (kept : A) (l : list A) : list A :=
  match l with
  | [] => []
  | x :: r => if same x kept then dedup_after kept r else x :: dedup_after x r
  end.
Definition vec_dedup_by (l : list A) : list A :=
  match l with [] => [] | x :: r => x :: dedup_after x r end.
End dedup.

(** [dedup_by_key]: sort stably by key, keep the last entry of each key. *)
Definition dedup_by_key {A K} `{EqDecision K, !BTreeKey K} (key : A → K) (table : list A) : list A :=
  let table := sort_by (λ a b, key_leb (key a) (key b)) table in
  rev (vec_dedup_by (λ a b, bool_decide (key a = key b)) (rev table)).

(** [dirs.sort(); dirs.dedup()]. *)
Definition sort_dedup (dirs : list string) : list string :=
  vec_dedup_by (λ a b, bool_decide (a = b)) (sort_by String.leb dirs).

(** [Origin::canonicalize]. *)
Definition origin_canonicalize (o : Origin) : Origin :=
  {| o_files := dedup_by_key fst (o_files o);
     o_dirs := sort_dedup (o_dirs o);
     o_modes := dedup_by_key fst (o_modes o);
     o_symlinks := dedup_by_key fst (o_symlinks o);
     o_hardlinks := dedup_by_key fst (o_hardlinks o);
     o_specials := dedup_by_key fst (o_specials o);
     o_xattrs := dedup_by_key fst (o_xattrs o) |}.

Definition put_count (count : N) : bytes := le_bytes 4 (clamp_u32 count).
Definition put_bytes (bs : bytes) : bytes := put_count (len bs) ++ bs.

(** One table: its count, then its entries. *)
Definition put_table {A} (put : A → bytes) (table : list A) : bytes :=
  put_count (len table) ++ concat (map put table).

Definition put_file (e : string * bytes) : bytes := put_bytes (as_bytes e.1) ++ put_bytes e.2.
Definition put_dir (path : string) : bytes := put_bytes (as_bytes path).
Definition put_mode (e : string * N) : bytes := put_bytes (as_bytes e.1) ++ le_bytes 4 e.2.
Definition put_link (e : string * string) : bytes :=
  put_bytes (as_bytes e.1) ++ put_bytes (as_bytes e.2).
Definition put_xattr (e : string * string * bytes) : bytes :=
  put_bytes (as_bytes e.1.1) ++ put_bytes (as_bytes e.1.2) ++ put_bytes e.2.
Definition put_special (e : string * SpecialNode) : bytes :=
  put_bytes (as_bytes e.1) ++ node_encode e.2.

(** [Origin::encode]. *)
Definition origin_encode (o : Origin) : bytes :=
  let canonical := origin_canonicalize o in
  le_bytes 4 ORIGIN_MAGIC ++ le_bytes 4 ORIGIN_VERSION
  ++ put_table put_file (o_files canonical)
  ++ put_table put_dir (o_dirs canonical)
  ++ put_table put_mode (o_modes canonical)
  ++ put_table put_link (o_symlinks canonical)
  ++ put_table put_link (o_hardlinks canonical)
  ++ put_table put_xattr (o_xattrs canonical)
  ++ put_table put_special (o_specials canonical).

(** [take_count]: refused when the bytes could not hold that many entries. *)
Definition take_count (r : Reader) : result DocDecodeError (N * Reader) :=
  '(count, r) ← read_u32 r;
  if remaining r / ENTRY_MIN_BYTES <? count then Err Truncated else Ok (count, r).

(** [reader_bytes] and [take_str]. *)
Definition reader_bytes (r : Reader) : result DocDecodeError (bytes * Reader) :=
  '(l, r) ← read_u32 r; read_bytes r l.
Definition take_str (r : Reader) : result DocDecodeError (string * Reader) :=
  '(raw, r) ← reader_bytes r;
  path ← ok_or (from_utf8 raw) BadPath;
  Ok (path, r).

(** A table loop of [Origin::decode]: [for _ in 0..take_count(..)? { push(entry) }]. *)
Fixpoint take_entries {A} (take_entry : Reader → result DocDecodeError (A * Reader))
    (n : nat) (r : Reader) (acc : list A) : result DocDecodeError (list A * Reader) :=
  match n with
  | O => Ok (acc, r)
  | S n => '(e, r) ← take_entry r; take_entries take_entry n r (acc ++ [e])
  end.
Definition take_table {A} (take_entry : Reader → result DocDecodeError (A * Reader)) (r : Reader) :
    result DocDecodeError (list A * Reader) :=
  '(n, r) ← take_count r; take_entries take_entry (N.to_nat n) r [].

Definition take_file (r : Reader) : result DocDecodeError (string * bytes * Reader) :=
  '(path, r) ← take_str r; '(bs, r) ← reader_bytes r; Ok (path, bs, r).
Definition take_mode (r : Reader) : result DocDecodeError (string * N * Reader) :=
  '(path, r) ← take_str r; '(mode, r) ← read_u32 r; Ok (path, mode, r).
Definition take_link (r : Reader) : result DocDecodeError (string * string * Reader) :=
  '(path, r) ← take_str r; '(target, r) ← take_str r; Ok (path, target, r).
Definition take_xattr (r : Reader) : result DocDecodeError (string * string * bytes * Reader) :=
  '(path, r) ← take_str r; '(name, r) ← take_str r; '(value, r) ← reader_bytes r;
  Ok (path, name, value, r).
Definition take_special (r : Reader) : result DocDecodeError (string * SpecialNode * Reader) :=
  '(path, r) ← take_str r;
  '(raw, r) ← read_bytes r ENCODED_BYTES;
  node ← node_decode raw;
  Ok (path, node, r).

(** The table loops of [Origin::decode]. *)
Definition take_tables (r : Reader) : result DocDecodeError (Origin * Reader) :=
  '(files, r) ← take_table take_file r;
  '(dirs, r) ← take_table take_str r;
  '(modes, r) ← take_table take_mode r;
  '(symlinks, r) ← take_table take_link r;
  '(hardlinks, r) ← take_table take_link r;
  '(xattrs, r) ← take_table take_xattr r;
  '(specials, r) ← take_table take_special r;
  Ok (mkOrigin files dirs modes symlinks hardlinks specials xattrs, r).

(** [Origin::decode]. *)
Definition origin_decode (bs : bytes) : result DocDecodeError Origin :=
  '(magic, r) ← read_u32 (Reader_new bs);
  if negb (magic =? ORIGIN_MAGIC) then Err BadMagic else
  '(version, r) ← read_u32 r;
  if negb (version =? ORIGIN_VERSION) then Err BadVersion else
  '(origin, r) ← take_tables r;
  if negb (rd_is_empty r) then Err TrailingBytes else Ok origin.

(** ** The state an origin describes *)

(** Two origins that hold the same entry at every key. *)
Definition same_state (a b : Origin) : Prop :=
  bt_collect (o_files a) = bt_collect (o_files b) ∧
  (list_to_set (o_dirs a) : gset string) = list_to_set (o_dirs b) ∧
  bt_collect (o_modes a) = bt_collect (o_modes b) ∧
  bt_collect (o_symlinks a) = bt_collect (o_symlinks b) ∧
  bt_collect (o_hardlinks a) = bt_collect (o_hardlinks b) ∧
  bt_collect (o_specials a) = bt_collect (o_specials b) ∧
  bt_collect (o_xattrs a) = bt_collect (o_xattrs b).

(** Strings and fields within the widths of the encoding. *)
Definition blob_wf (bs : bytes) : Prop := len bs ≤ u32_max.
Definition origin_wf (o : Origin) : Prop :=
  Forall (λ e, path_wf e.1 ∧ blob_wf e.2) (o_files o) ∧
  Forall path_wf (o_dirs o) ∧
  Forall (λ e, path_wf e.1 ∧ e.2 ≤ u32_max) (o_modes o) ∧
  Forall (λ e, path_wf e.1 ∧ path_wf e.2) (o_symlinks o) ∧
  Forall (λ e, path_wf e.1 ∧ path_wf e.2) (o_hardlinks o) ∧
  Forall (λ e, path_wf e.1 ∧ node_wf e.2) (o_specials o) ∧
  Forall (λ e, path_wf e.1.1 ∧ path_wf e.1.2 ∧ blob_wf e.2) (o_xattrs o).
Definition origin_counts (o : Origin) : Prop :=
  len (o_files o) ≤ u32_max ∧ len (o_dirs o) ≤ u32_max ∧ len (o_modes o) ≤ u32_max ∧
  len (o_symlinks o) ≤ u32_max ∧ len (o_hardlinks o) ≤ u32_max ∧
  len (o_specials o) ≤ u32_max ∧ len (o_xattrs o) ≤ u32_max.

(** ** Lemmas: the canonical form *)
Section keep_last.
Context {K : Type} `{Countable K, !BTreeKey K} {V : Type}.
Implicit Types l : list (K * V).
Abbreviation same_key := (λ a b : K * V, bool_decide (a.1 = b.1)).
Abbreviation leb_key := (λ a b : K * V, key_leb a.1 b.1).

Lemma dedup_after_sub {A} (same : A → A → bool) x (l : list A) : dedup_after same x l ⊆ l.
Proof. revert x. induction l as [|y l IH]; intros x; simpl; [done|]. split_if; set_solver. Qed.

(** The last value declared for a key. *)
Lemma bt_collect_filter l k : bt_collect l !! k = snd <$> last (filter (λ e, e.1 = k) l).
Proof.
  induction l as [|[k' v'] l IH] using rev_ind; [done|].
  rewrite bt_collect_snoc, filter_app, filter_cons, filter_nil. simpl.
  destruct (decide (k' = k)) as [->|].
  - by rewrite lookup_insert, decide_True, last_snoc.
  - by rewrite lookup_insert_ne, app_nil_r.
Qed.

(** The sort is stable: it keeps the declaration order of one key. *)
Lemma insert_by_filter k x l :
  filter (λ e, e.1 = k) (insert_by leb_key x l) = filter (λ e, e.1 = k) (x :: l).
Proof.
  induction l as [|y l IH]; simpl; [done|].
  destruct (key_leb x.1 y.1) eqn:E; [done|].
  rewrite filter_cons, IH, !filter_cons. repeat case_decide; try done.
  exfalso. subst. rewrite <- H1 in *. destruct (key_leb_total x.1 x.1); congruence.
Qed.

Lemma sort_by_filter k l : filter (λ e, e.1 = k) (sort_by leb_key l) = filter (λ e, e.1 = k) l.
Proof.
  induction l as [|x l IH]; [done|].
  change (sort_by leb_key (x :: l)) with (insert_by leb_key x (sort_by leb_key l)).
  rewrite insert_by_filter, !filter_cons. by rewrite IH.
Qed.

(** In descending key order, the kept entries are each key's first. *)
Lemma dedup_after_desc x l :
  StronglySorted (λ a b, key_leb b.1 a.1 = true) (x :: l) →
  StronglySorted (λ a b, key_leb b.1 a.1 = true ∧ a.1 ≠ b.1) (x :: dedup_after same_key x l) ∧
  ∀ e, e ∈ x :: dedup_after same_key x l ↔ head (filter (λ f, f.1 = e.1) (x :: l)) = Some e.
Proof.
  revert x. induction l as [|y l IH]; intros x Hs.
  - cbn [dedup_after]. split; [repeat constructor|]. intros e. rewrite filter_cons, filter_nil.
    case_decide; simpl; set_solver.
  - inversion_clear Hs as [|?? Hs' Hall]. cbn [dedup_after]. case_bool_decide as E.
    + assert (Hxl : StronglySorted (λ a b, key_leb b.1 a.1 = true) (x :: l)).
      { inversion_clear Hs'. inversion_clear Hall. by constructor. }
      destruct (IH x Hxl) as [H1 H2]. split; [done|]. intros e. rewrite (H2 e), !filter_cons.
      repeat case_decide; try done. congruence.
    + destruct (IH y Hs') as [H1 H2].
      assert (Hy : ∀ z, z ∈ y :: l → key_leb z.1 x.1 = true ∧ x.1 ≠ z.1).
      { intros z Hz. assert (Hyx : key_leb y.1 x.1 = true) by (by inversion Hall).
        rewrite Forall_forall in Hall. split; [by apply Hall|]. intros Exz. apply E.
        apply key_leb_antisym; [done|]. rewrite Exz. apply elem_of_cons in Hz as [->|Hz].
        - destruct (key_leb_total y.1 y.1); done.
        - inversion_clear Hs' as [|?? _ Hyl]. rewrite Forall_forall in Hyl. by apply Hyl. }
      split.
      * constructor; [done|]. apply Forall_forall. intros z Hz. apply Hy.
        pose proof (dedup_after_sub same_key y l). set_solver.
      * intros e. rewrite filter_cons. case_decide as Ex; simpl.
        -- rewrite elem_of_cons. split; [|intros [= ->]; auto].
           intros [->|He]; [done|]. exfalso. apply (Hy e); [|done].
           pose proof (dedup_after_sub same_key y l). set_solver.
        -- rewrite <- (H2 e). rewrite (elem_of_cons _ e x). split; [|auto]. intros [->|]; done.
Qed.

Lemma head_filter_rev (P : K * V → Prop) `{!∀ x, Decision (P x)} l :
  head (filter P (rev l)) = last (filter P l).
Proof.
  induction l as [|x l IH] using rev_ind; [done|].
  rewrite rev_app_distr. simpl. rewrite filter_cons, filter_app, filter_cons, filter_nil.
  case_decide; simpl; [by rewrite last_snoc|]. by rewrite app_nil_r.
Qed.

Lemma last_filter_some l k v :
  last (filter (λ e, e.1 = k) l) = Some (k, v) ↔ bt_collect l !! k = Some v.
Proof.
  rewrite bt_collect_filter.
  destruct (last (filter (λ e, e.1 = k) l)) as [[k' v']|] eqn:E; simpl; [|done].
  assert (Hin : (k', v') ∈ filter (λ e, e.1 = k) l).
  { apply last_Some in E as [l' ->]. set_solver. }
  apply list_elem_of_filter in Hin as [Hk _]. simpl in Hk. subst. naive_solver.
Qed.

(** The canonical table is the ordered iteration of the last-wins map. *)
Lemma dedup_by_key_bt_list l : dedup_by_key fst l = bt_list (bt_collect l).
Proof.
  unfold dedup_by_key.
  assert (Hs : StronglySorted (λ a b, key_leb a.1 b.1 = true) (sort_by leb_key l)).
  { apply sort_by_sorted; intros; [apply key_leb_total|by eapply key_leb_trans]. }
  apply StronglySorted_rev in Hs.
  assert (Hd : let d := vec_dedup_by same_key (rev (sort_by leb_key l)) in
    StronglySorted (λ a b, key_leb b.1 a.1 = true ∧ a.1 ≠ b.1) d ∧
    ∀ e, e ∈ d ↔ bt_collect l !! e.1 = Some e.2).
  { assert (Hl : ∀ e, head (filter (λ f, f.1 = e.1) (rev (sort_by leb_key l))) = Some e
                 ↔ bt_collect l !! e.1 = Some e.2).
    { intros [k v]. rewrite head_filter_rev, sort_by_filter. apply last_filter_some. }
    destruct (rev (sort_by leb_key l)) as [|x r]; cbn [vec_dedup_by].
    - split; [constructor|]. intros e. rewrite <- Hl. simpl. set_solver.
    - destruct (dedup_after_desc x r) as [H1 H2]; [exact Hs|]. split; [done|].
      intros e. rewrite <- Hl. apply H2. }
  destruct Hd as [Hd1 Hd2]. apply StronglySorted_rev in Hd1. set (d := vec_dedup_by _ _) in *.
  assert (Hin : ∀ e, e ∈ rev d ↔ e ∈ bt_list (bt_collect l)).
  { intros [k v]. rewrite elem_of_bt_list, <- (Hd2 (k, v)).
    apply elem_of_rev. }
  apply (StronglySorted_unique_strong (λ a b, key_leb a.1 b.1 = true)).
  - intros [k v] [k' v'] H1 H2 H3 H4. apply Hin, elem_of_bt_list in H1.
    apply elem_of_bt_list in H2. simpl in *.
    assert (k = k') as <- by (by apply key_leb_antisym). congruence.
  - eapply StronglySorted_impl; [|exact Hd1]. unfold flip. naive_solver.
  - apply sort_by_sorted; intros; [apply key_leb_total|by eapply key_leb_trans].
  - apply NoDup_Permutation; [|unfold bt_list; rewrite sort_by_perm; apply NoDup_map_to_list|exact Hin].
    eapply StronglySorted_NoDup; [|exact Hd1]. unfold flip. naive_solver.
Qed.
End keep_last.

(** A sorted list of names, deduplicated, is the ordered iteration of the set. *)
Lemma dedup_after_asc x l :
  StronglySorted (λ a b, String.leb a b = true) (x :: l) →
  StronglySorted (λ a b, String.leb a b = true ∧ a ≠ b)
    (x :: dedup_after (λ a b, bool_decide (a = b)) x l) ∧
  ∀ e, e ∈ x :: dedup_after (λ a b, bool_decide (a = b)) x l ↔ e ∈ x :: l.
Proof.
  revert x. induction l as [|y l IH]; intros x Hs; [split; [repeat constructor|done]|].
  inversion_clear Hs as [|?? Hs' Hall]. inversion_clear Hall as [|?? Hxy Hxl].
  cbn [dedup_after]. case_bool_decide as E.
  - subst. destruct (IH x Hs') as [H1 H2]. split; [done|]. set_solver.
  - destruct (IH y Hs') as [H1 H2]. split; [|set_solver]. constructor; [done|].
    apply Forall_forall. intros z Hz. apply H2 in Hz. inversion_clear Hs' as [|?? _ Hyl].
    rewrite Forall_forall in Hxl, Hyl. apply elem_of_cons in Hz as [->|Hz]; [done|].
    split; [by apply Hxl|]. intros ->. apply E. apply string_leb_antisym; [|done].
    by apply Hyl.
Qed.

Lemma sort_dedup_bt_elems (dirs : list string) : sort_dedup dirs = bt_elems (list_to_set dirs).
Proof.
  assert (Hs : ∀ l, StronglySorted (λ a b, String.leb a b = true) (sort_by String.leb l)).
  { intros l. apply sort_by_sorted; [apply string_leb_total|apply string_leb_trans]. }
  unfold sort_dedup.
  assert (Hd : let d := vec_dedup_by (λ a b, bool_decide (a = b)) (sort_by String.leb dirs) in
    StronglySorted (λ a b, String.leb a b = true ∧ a ≠ b) d ∧ ∀ e, e ∈ d ↔ e ∈ dirs).
  { pose proof (λ e, elem_of_sort_by String.leb e dirs) as He. specialize (Hs dirs).
    destruct (sort_by String.leb dirs); cbn [vec_dedup_by].
    - split; [constructor|]. intros e. apply He.
    - destruct (dedup_after_asc s l Hs) as [H1 H2]. split; [done|]. intros e. by rewrite H2. }
  destruct Hd as [Hd1 Hd2].
  apply (StronglySorted_unique_strong (λ a b, String.leb a b = true)).
  - intros x y _ _. apply string_leb_antisym.
  - eapply StronglySorted_impl; [|exact Hd1]. naive_solver.
  - apply Hs.
  - apply NoDup_Permutation; [|apply NoDup_bt_elems|].
    + eapply StronglySorted_NoDup; [|exact Hd1]. naive_solver.
    + intros x. rewrite Hd2, elem_of_bt_elems. set_solver.
Qed.

(** The canonical form is a function of the state. *)
Lemma canonicalize_same a b : same_state a b → origin_canonicalize a = origin_canonicalize b.
Proof.
  intros (E1 & E2 & E3 & E4 & E5 & E6 & E7). unfold origin_canonicalize.
  rewrite !dedup_by_key_bt_list, !sort_dedup_bt_elems. congruence.
Qed.

Lemma canonicalize_state o : same_state (origin_canonicalize o) o.
Proof.
  unfold same_state, origin_canonicalize. simpl.
  rewrite !dedup_by_key_bt_list, !bt_collect_bt_list, sort_dedup_bt_elems. split_and!; try done.
  apply set_eq. intros x. rewrite elem_of_list_to_set, elem_of_bt_elems. done.
Qed.

(** Canonicalizing keeps what every entry satisfies, and never lengthens a table. *)
Lemma dedup_by_key_Forall {K V} `{Countable K, !BTreeKey K} (P : K * V → Prop) l :
  Forall P l → Forall P (dedup_by_key fst l).
Proof.
  rewrite !Forall_forall. intros HP [k v] Hin. apply HP.
  rewrite dedup_by_key_bt_list, elem_of_bt_list in Hin.
  apply last_filter_some, last_Some in Hin as [l' Hl'].
  assert ((k, v) ∈ filter (λ e, e.1 = k) l) as ?%list_elem_of_filter by (rewrite Hl'; set_solver).
  naive_solver.
Qed.

Lemma length_dedup_after {A} (same : A → A → bool) x l :
  (length (dedup_after same x l) ≤ length l)%nat.
Proof.
  revert x. induction l as [|y l IH]; intros x; simpl; [lia|].
  split_if; simpl; [specialize (IH x)|specialize (IH y)]; lia.
Qed.

Lemma len_vec_dedup_by {A} (same : A → A → bool) (l : list A) : len (vec_dedup_by same l) ≤ len l.
Proof.
  unfold len. destruct l as [|x l]; simpl; [lia|]. pose proof (length_dedup_after same x l). lia.
Qed.

Lemma len_dedup_by_key {A K} `{EqDecision K, !BTreeKey K} (key : A → K) (l : list A) :
  len (dedup_by_key key l) ≤ len l.
Proof.
  unfold dedup_by_key. unfold len at 1. rewrite length_rev. fold (len (vec_dedup_by (λ a b,
    bool_decide (key a = key b)) (rev (sort_by (λ a b, key_leb (key a) (key b)) l)))).
  etransitivity; [apply len_vec_dedup_by|]. unfold len. rewrite length_rev.
  by rewrite (Permutation_length (sort_by_perm _ l)).
Qed.

(** ** Lemmas: the codec *)
Lemma yields_blob bs : blob_wf bs → yields reader_bytes (put_bytes bs) bs.
Proof.
  intros Hl. unfold put_bytes, put_count, reader_bytes. rewrite clamp_u32_small by done.
  eapply yields_bind; [by apply yields_u32|]. by apply yields_bytes.
Qed.

Lemma yields_str p : path_wf p → yields take_str (put_bytes (as_bytes p)) p.
Proof.
  intros [Hu Hl] q y Hfit. unfold take_str. rewrite yields_blob by done.
  cbn [mbind result_bind]. unfold from_utf8. rewrite Hu. cbn. by rewrite of_bytes_as_bytes.
Qed.

Lemma yields_node_decode node : node_wf node →
  yields (λ r, '(raw, r) ← read_bytes r ENCODED_BYTES; n ← node_decode raw; Ok (n, r))
    (node_encode node) node.
Proof.
  intros Hwf q y Hfit. rewrite yields_bytes by (done || by rewrite len_node_encode).
  cbn [mbind result_bind]. by rewrite node_decode_encode.
Qed.
#[local] Hint Resolve yields_blob yields_str yields_node_decode : slates.

Lemma yields_file e : path_wf e.1 ∧ blob_wf e.2 → yields take_file (put_file e) e.
Proof.
  destruct e as [p b]. intros [??]. unfold take_file, put_file.
  eapply yields_bind; [by auto with slates|]. cbn [fst snd].
  apply (yields_map reader_bytes (pair p)). by auto with slates.
Qed.
Lemma yields_mode e : path_wf e.1 ∧ e.2 ≤ u32_max → yields take_mode (put_mode e) e.
Proof.
  destruct e as [p b]. intros [??]. unfold take_mode, put_mode.
  eapply yields_bind; [by auto with slates|]. cbn [fst snd].
  apply (yields_map read_u32 (pair p)). by auto with slates.
Qed.
Lemma yields_link e : path_wf e.1 ∧ path_wf e.2 → yields take_link (put_link e) e.
Proof.
  destruct e as [p b]. intros [??]. unfold take_link, put_link.
  eapply yields_bind; [by auto with slates|]. cbn [fst snd].
  apply (yields_map take_str (pair p)). by auto with slates.
Qed.
Lemma yields_xattr e :
  path_wf e.1.1 ∧ path_wf e.1.2 ∧ blob_wf e.2 → yields take_xattr (put_xattr e) e.
Proof.
  destruct e as [[p n] b]. intros (? & ? & ?). unfold take_xattr, put_xattr.
  do 2 (eapply yields_bind; [by auto with slates|]). cbn [fst snd].
  apply (yields_map reader_bytes (pair (p, n))). by auto with slates.
Qed.
Lemma yields_special e : path_wf e.1 ∧ node_wf e.2 → yields take_special (put_special e) e.
Proof.
  destruct e as [p n]. intros [??]. unfold take_special, put_special.
  eapply yields_bind; [by auto with slates|]. cbn [fst snd]. intros q y Hfit.
  rewrite yields_bytes by (done || by rewrite len_node_encode). cbn [mbind result_bind].
  by rewrite node_decode_encode.
Qed.

Lemma yields_entries {A} take_entry (put : A → bytes) l : ∀ acc,
  Forall (λ e, yields take_entry (put e) e) l →
  yields (λ r, take_entries take_entry (length l) r acc) (concat (map put l)) (acc ++ l).
Proof.
  induction l as [|e l IH]; intros acc Hl.
  - rewrite app_nil_r. apply yields_ret.
  - inversion_clear Hl. cbn [length take_entries map concat].
    eapply (yields_bind take_entry (λ e r, take_entries take_entry (length l) r (acc ++ [e])));
      [done|].
    replace (acc ++ e :: l) with ((acc ++ [e]) ++ l) by (by rewrite <- app_assoc). by apply IH.
Qed.

Lemma len_entries {A} (put : A → bytes) l :
  (∀ e, 4 ≤ len (put e)) → 4 * len l ≤ len (concat (map put l)).
Proof.
  intros Hp. induction l as [|e l IH]; cbn [map concat]; [done|].
  specialize (Hp e). len_solve.
Qed.

(** A table reads back, entry by entry. *)
Lemma yields_table {A} take_entry (put : A → bytes) (P : A → Prop) l :
  (∀ e, P e → yields take_entry (put e) e) → (∀ e, 4 ≤ len (put e)) →
  Forall P l → len l ≤ u32_max → yields (take_table take_entry) (put_table put l) l.
Proof.
  intros Hy Hp Hl Hc p y Hfit. unfold take_table, put_table, put_count, take_count in *.
  rewrite clamp_u32_small in * by done. rewrite <- app_assoc in *.
  rewrite yields_u32 by done. cbn [mbind result_bind].
  pose proof (len_entries put l Hp). rewrite remaining_at, len_app, (proj2 (N.ltb_ge _ _))
    by (unfold ENTRY_MIN_BYTES; apply N.div_le_lower_bound; lia). cbn [mbind result_bind].
  rewrite to_nat_len. apply in_memory_step in Hfit.
  pose proof (yields_entries take_entry put l []) as Hstep. cbv beta in Hstep.
  rewrite Hstep; [by rewrite app_nil_l, app_assoc| |done].
  eapply Forall_impl; [exact Hl|]. done.
Qed.

Lemma len_put_bytes bs : 4 ≤ len (put_bytes bs).
Proof. unfold put_bytes, put_count. len_solve. Qed.

Ltac entry_min := intros []; unfold put_file, put_mode, put_link, put_xattr, put_special, put_dir;
  rewrite ?len_app; cbn [fst snd];
  match goal with |- context [len (put_bytes ?b)] => pose proof (len_put_bytes b) end; lia.

Lemma canonicalize_wf o : origin_wf o → origin_wf (origin_canonicalize o).
Proof.
  intros (? & ? & ? & ? & ? & ? & ?). unfold origin_wf, origin_canonicalize. simpl.
  split_and!; try by apply dedup_by_key_Forall.
  rewrite sort_dedup_bt_elems. apply Forall_forall. intros x.
  rewrite elem_of_bt_elems, elem_of_list_to_set. by apply Forall_forall.
Qed.

Lemma canonicalize_counts o : origin_counts o → origin_counts (origin_canonicalize o).
Proof.
  intros (? & ? & ? & ? & ? & ? & ?). unfold origin_counts, origin_canonicalize. simpl.
  assert (len (sort_dedup (o_dirs o)) ≤ len (o_dirs o)).
  { etransitivity; [apply len_vec_dedup_by|]. unfold len.
    by rewrite (Permutation_length (sort_by_perm _ (o_dirs o))). }
  split_and!; try (etransitivity; [apply len_dedup_by_key|done]). lia.
Qed.

(** The tables of an encoding. *)
Definition put_tables (o : Origin) : bytes :=
  put_table put_file (o_files o) ++ put_table put_dir (o_dirs o)
  ++ put_table put_mode (o_modes o) ++ put_table put_link (o_symlinks o)
  ++ put_table put_link (o_hardlinks o) ++ put_table put_xattr (o_xattrs o)
  ++ put_table put_special (o_specials o).

Lemma yields_tables o : origin_wf o → origin_counts o → yields take_tables (put_tables o) o.
Proof.
  destruct o as [f d m s h sp x].
  intros (H1 & H2 & H3 & H4 & H5 & H6 & H7) (C1 & C2 & C3 & C4 & C5 & C6 & C7).
  unfold put_tables, take_tables.
  cbn [o_files o_dirs o_modes o_symlinks o_hardlinks o_specials o_xattrs] in *.
  eapply yields_bind; [apply (yields_table _ _ _ f yields_file ltac:(entry_min) H1 C1)|].
  eapply yields_bind; [apply (yields_table _ put_dir _ d yields_str (λ e, len_put_bytes _) H2 C2)|].
  eapply yields_bind; [apply (yields_table _ _ _ m yields_mode ltac:(entry_min) H3 C3)|].
  eapply yields_bind; [apply (yields_table _ _ _ s yields_link ltac:(entry_min) H4 C4)|].
  eapply yields_bind; [apply (yields_table _ _ _ h yields_link ltac:(entry_min) H5 C5)|].
  eapply yields_bind; [apply (yields_table _ _ _ x yields_xattr ltac:(entry_min) H7 C7)|].
  apply (yields_map (take_table take_special) (λ sp, mkOrigin f d m s h sp x)).
  exact (yields_table _ _ _ sp yields_special ltac:(entry_min) H6 C6).
Qed.

(** Decoding what [encode] writes answers the canonical form. *)
Lemma origin_decode_encode o :
  origin_wf o → origin_counts o → len (origin_encode o) ≤ usize_max →
  origin_decode (origin_encode o) = Ok (origin_canonicalize o).
Proof.
  intros Hwf%canonicalize_wf Hc%canonicalize_counts Hmem.
  unfold origin_encode, origin_decode in *. fold (put_tables (origin_canonicalize o)) in *.
  change (Reader_new ?b) with (reader_at [] b).
  match goal with |- context [reader_at [] ?b] =>
    assert (Hfit : in_memory [] b) by (unfold in_memory; len_solve) end.
  rewrite yields_u32 by done. cbn [mbind result_bind]. apply in_memory_step in Hfit.
  rewrite N.eqb_refl. cbn [negb].
  rewrite yields_u32 by done. cbn [mbind result_bind]. apply in_memory_step in Hfit.
  rewrite N.eqb_refl. cbn [negb]. rewrite <- (app_nil_r (put_tables _)) in *.
  rewrite (yields_tables _ Hwf Hc) by done. cbn [mbind result_bind]. by rewrite reader_at_end.
Qed.

(** ** Properties *)

(** The origin encoding is canonical and exact: two origins the service
    can capture (UTF-8 names, fields and counts within the format's widths)
    encode to the same bytes exactly when they hold the same entry at every
    key (the last declared winning), whatever order their tables were walked
    in; and decoding the bytes answers that state in canonical form. *)
Theorem origin_encoding_canonical (a b : Origin) :
  origin_wf a → origin_counts a → len (origin_encode a) ≤ usize_max →
  origin_wf b → origin_counts b →
  (origin_encode a = origin_encode b ↔ same_state a b) ∧
  origin_decode (origin_encode a) = Ok (origin_canonicalize a) ∧
  same_state (origin_canonicalize a) a.
Proof.
  intros Wa Ca Ma Wb Cb. split_and!; [|by apply origin_decode_encode|apply canonicalize_state].
  split.
  - intros E. pose proof (origin_decode_encode a Wa Ca Ma) as Da.
    rewrite E in Da, Ma. rewrite (origin_decode_encode b Wb Cb Ma) in Da.
    assert (Ec : origin_canonicalize b = origin_canonicalize a) by congruence.
    pose proof (canonicalize_state a) as Sa. pose proof (canonicalize_state b) as Sb.
    rewrite <- Ec in Sa. unfold same_state in *. intuition congruence.
  - intros E. unfold origin_encode. by rewrite (canonicalize_same a b E).
Qed.

(** Two walks of one snapshot: a repeated key, tables in another order. *)
Definition origin_a : Origin :=
  {| o_files := [("b"%string, as_bytes "old"); ("a"%string, as_bytes "x"); ("b"%string, as_bytes "new")];
     o_dirs := ["d"%string; "c"%string; "d"%string]; o_modes := [("a"%string, 420)];
     o_symlinks := [("l"%string, "a"%string)]; o_hardlinks := [];
     o_specials := [("p"%string, mkSpecialNode Fifo 1 2 (-5) 6 7 8)];
     o_xattrs := [("a"%string, "user.k"%string, as_bytes "v")] |}.
Definition origin_b : Origin :=
  {| o_files := [("a"%string, as_bytes "x"); ("b"%string, as_bytes "new")];
     o_dirs := ["c"%string; "d"%string]; o_modes := [("a"%string, 420)];
     o_symlinks := [("l"%string, "a"%string)]; o_hardlinks := [];
     o_specials := [("p"%string, mkSpecialNode Fifo 1 2 (-5) 6 7 8)];
     o_xattrs := [("a"%string, "user.k"%string, as_bytes "v")] |}.

#[export] Instance path_wf_dec p : Decision (path_wf p).
Proof. unfold path_wf. apply _. Defined.
#[export] Instance node_wf_dec n : Decision (node_wf n).
Proof. unfold node_wf, i64_range. apply _. Defined.
#[export] Instance origin_wf_dec o : Decision (origin_wf o).
Proof. unfold origin_wf, blob_wf. apply _. Defined.
#[export] Instance origin_counts_dec o : Decision (origin_counts o).
Proof. unfold origin_counts. apply _. Defined.

Lemma origin_encoding_canonical_witness :
  origin_encode origin_a = origin_encode origin_b ∧ same_state origin_a origin_b.
Proof.
  assert (E : origin_encode origin_a = origin_encode origin_b) by (vm_compute; reflexivity).
  split; [exact E|].
  destruct (origin_encoding_canonical origin_a origin_b) as [[H _] _]; [| | | | |exact (H E)];
    apply (bool_decide_unpack _); vm_compute; exact I.
Defined.
