(* ===== verification/IncrementDoc.v ===== *)
(** * Increments

    Models the increment of [crates/merge/src/engine.rs]: the submitted
    document with its sealed post-state and evidence references, and the
    encoding the durable chain keeps ([Increment::encode], [Increment::decode],
    [special_payload], [post_slice]). *)

From S2P Require Import Prelude OpsDoc Special Origin.
#[local] Open Scope N_scope.

(** A BLAKE3 identity is 32 bytes. *)
Definition ID_BYTES : N := 32.
Definition EVIDENCE_BYTES : N := 32.

Record Increment := mkIncrement {
  inc_id : bytes;
  inc_base : N;
  inc_doc : OpsDoc;
  inc_post : bytes;
  inc_evidence : list bytes
}.

(** [Increment::encode]. *)
Definition increment_encode (inc : Increment) : bytes :=
  let doc := encode (inc_doc inc) in
  inc_id inc ++ le_bytes 8 (inc_base inc)
  ++ le_bytes 8 (len doc) ++ doc
  ++ le_bytes 8 (len (inc_post inc)) ++ inc_post inc
  ++ le_bytes 8 (len (inc_evidence inc)) ++ concat (inc_evidence inc).

(** [post_state[src .. src + len]], clamped. *)
Definition post_slice (post : bytes) (src l : N) : bytes :=
  let start := N.min src (len post) in
  let end_ := N.min (sat_add start l) (len post) in
  default [] (get_range post start end_).

(** [special_payload]: an IPC payload, read exactly. *)
Definition special_payload (doc : OpsDoc) (post : bytes) (op : Op) :
    result DocDecodeError SpecialNode :=
  if bool_decide (pt_path (paths doc) (op_path op) = None) then Err BadPath else
  end_ ← ok_or (checked_add (op_src op) (op_len op)) Truncated;
  raw ← ok_or (get_range post (op_src op) end_) Truncated;
  node_decode raw.

(** The payload check of [Increment::decode]: [for op in ... { special_payload(..)?; }]. *)
Fixpoint check_payloads (doc : OpsDoc) (post : bytes) (os : list Op) : result DocDecodeError unit :=
  match os with
  | [] => Ok tt
  | op :: os =>
      if bool_decide (op_kind op = OpKind.Mknod)
      then special_payload doc post op ≫= λ _, check_payloads doc post os
      else check_payloads doc post os
  end.

Definition take_reference (r : Reader) : result DocDecodeError (bytes * Reader) :=
  read_bytes r EVIDENCE_BYTES.

(** [Increment::decode]; on the 64-bit hosts [usize::try_from] of a [u64] holds. *)
Definition increment_decode (bs : bytes) : result DocDecodeError Increment :=
  '(id, r) ← read_bytes (Reader_new bs) ID_BYTES;
  '(base, r) ← read_u64 r;
  '(doc_len, r) ← read_u64 r;
  '(raw, r) ← read_bytes r doc_len;
  doc ← decode raw;
  '(post_len, r) ← read_u64 r;
  '(post, r) ← read_bytes r post_len;
  _ ← check_payloads doc post (ops doc);
  '(evidence_count, r) ← read_u64 r;
  if remaining r / EVIDENCE_BYTES <? evidence_count then Err Truncated else
  '(evidence, r) ← take_entries take_reference (N.to_nat evidence_count) r [];
  if negb (rd_is_empty r) then Err TrailingBytes else
  Ok (mkIncrement id base doc post evidence).

(** What the service keeps in a chain: a document, sealed, with IPC payloads
    that are nodes and references that are identities. *)
Definition payloads_ok (doc : OpsDoc) (post : bytes) : Prop :=
  ∀ op, op ∈ ops doc → op_kind op = OpKind.Mknod →
    ∃ node, special_payload doc post op = Ok node.
Definition increment_wf (inc : Increment) : Prop :=
  len (inc_id inc) = ID_BYTES ∧ inc_base inc ≤ u64_max ∧ doc_wf (inc_doc inc) ∧
  payloads_ok (inc_doc inc) (inc_post inc) ∧
  Forall (λ e, len e = EVIDENCE_BYTES) (inc_evidence inc).

(** ** Lemmas *)
Lemma check_payloads_ok doc post os :
  check_payloads doc post os = Ok tt ↔
  ∀ op, op ∈ os → op_kind op = OpKind.Mknod → ∃ node, special_payload doc post op = Ok node.
Proof.
  induction os as [|op os IH]; cbn [check_payloads].
  - split; [|done]. set_solver.
  - case_bool_decide as Ek; [destruct (special_payload doc post op) as [n|e] eqn:Ep|]; cbn.
    + rewrite IH. split; [|set_solver]. intros H o Ho. apply elem_of_cons in Ho as [->|]; eauto.
    + split; [done|]. intros H. destruct (H op) as [n Hn]; [set_solver|done|congruence].
    + rewrite IH. split; [|set_solver]. intros H o Ho. apply elem_of_cons in Ho as [->|]; [done|eauto].
Qed.

Lemma len_concat_refs l :
  Forall (λ e : bytes, len e = EVIDENCE_BYTES) l → len (concat l) = EVIDENCE_BYTES * len l.
Proof. induction 1; cbn [concat]; [done|]. unfold EVIDENCE_BYTES in *. len_solve. Qed.

Lemma yields_references l : Forall (λ e : bytes, len e = EVIDENCE_BYTES) l →
  yields (λ r, take_entries take_reference (length l) r []) (concat l) l.
Proof.
  intros Hl. pose proof (yields_entries take_reference id l []) as H.
  rewrite map_id in H. apply H. eapply Forall_impl; [exact Hl|].
  intros e He. by apply yields_bytes.
Qed.

Lemma yields_evidence l : Forall (λ e : bytes, len e = EVIDENCE_BYTES) l → len l ≤ u64_max →
  yields (λ r, '(n, r) ← read_u64 r;
    if remaining r / EVIDENCE_BYTES <? n then Err Truncated else
    take_entries take_reference (N.to_nat n) r []) (le_bytes 8 (len l) ++ concat l) l.
Proof.
  intros Hl Hn. eapply yields_bind; [by apply yields_u64|]. intros p y Hfit.
  rewrite remaining_at, (proj2 (N.ltb_ge _ _)).
  - rewrite to_nat_len. by apply yields_references.
  - rewrite len_app, len_concat_refs by done. unfold EVIDENCE_BYTES.
    apply N.div_le_lower_bound; lia.
Qed.

Lemma take_entries_ok {A} f (P : A → Prop) n : ∀ r acc l r',
  (∀ r a r', f r = Ok (a, r') → P a) → Forall P acc →
  take_entries f n r acc = Ok (l, r') → Forall P l.
Proof.
  induction n as [|n IH]; intros r acc l r' Hf Ha H; cbn [take_entries] in H; [by simplify_eq|].
  destruct (f r) as [[e r1]|] eqn:E; cbn in H; [|done].
  eapply IH; [done| |exact H]. apply Forall_app. split; [done|]. repeat constructor. eauto.
Qed.

(** ** Properties *)

(** An increment survives the durable chain: decoding the bytes [encode]
    writes answers the same increment, for every increment with a 32-byte
    identity, a well-formed document, IPC payloads that decode and 32-byte
    evidence references. *)
Theorem increment_decode_encode (inc : Increment) :
  increment_wf inc → len (increment_encode inc) ≤ usize_max →
  increment_decode (increment_encode inc) = Ok inc.
Proof.
  destruct inc as [id base doc post evidence]. intros (Hid & Hb & Hd & Hp & He) Hmem.
  unfold increment_encode, increment_decode in *.
  cbn [inc_id inc_base inc_doc inc_post inc_evidence] in *.
  change (Reader_new ?b) with (reader_at [] b).
  match goal with |- context [reader_at [] ?b] =>
    assert (Hfit : in_memory [] b) by (unfold in_memory; rewrite len_nil; done) end.
  unfold usize_max in *. rewrite !len_app in Hmem.
  rewrite yields_bytes by done. cbn [mbind result_bind]. apply in_memory_step in Hfit.
  rewrite yields_u64 by done. cbn [mbind result_bind]. apply in_memory_step in Hfit.
  rewrite yields_u64 by (done || lia). cbn [mbind result_bind]. apply in_memory_step in Hfit.
  rewrite yields_bytes by done. cbn [mbind result_bind]. apply in_memory_step in Hfit.
  rewrite doc_decode_encode by (done || unfold usize_max; lia). cbn [mbind result_bind].
  rewrite yields_u64 by (done || lia). cbn [mbind result_bind]. apply in_memory_step in Hfit.
  rewrite yields_bytes by done. cbn [mbind result_bind]. apply in_memory_step in Hfit.
  rewrite (proj2 (check_payloads_ok _ _ _)) by done. cbn [mbind result_bind].
  rewrite len_concat_refs in Hmem by done. unfold EVIDENCE_BYTES in Hmem.
  rewrite yields_u64 by (done || lia). cbn [mbind result_bind]. apply in_memory_step in Hfit.
  rewrite remaining_at, (proj2 (N.ltb_ge _ _)).
  2: { rewrite len_concat_refs by done. unfold EVIDENCE_BYTES. apply N.div_le_lower_bound; lia. }
  rewrite to_nat_len. rewrite <- (app_nil_r (concat evidence)) in *.
  pose proof (yields_references evidence He) as Hy. cbv beta in Hy. rewrite Hy by done.
  cbn [mbind result_bind]. by rewrite reader_at_end.
Qed.

(** A document that makes a FIFO, with its payload and one reference. *)
Definition sample_node : SpecialNode := mkSpecialNode Fifo 7 8 (-1) 2 3 4.
Definition sample_increment : Increment :=
  {| inc_id := replicate 32 (byte_of 9); inc_base := 3;
     inc_doc := mkOpsDoc (mkPathTable ["p"%string])
       [mkOp OpKind.Mknod 0 0 0 ENCODED_BYTES 0; mkOp OpKind.SetMode 0 0 420 0 u64_max];
     inc_post := node_encode sample_node; inc_evidence := [replicate 32 (byte_of 1)] |}.

Lemma sample_increment_wf : increment_wf sample_increment.
Proof.
  unfold increment_wf. split_and!; try done.
  - unfold doc_wf, op_wf. simpl. split_and!; apply (bool_decide_unpack _); vm_compute; exact I.
  - intros op Hop Hk. simpl in Hop. assert (op = mkOp OpKind.Mknod 0 0 0 ENCODED_BYTES 0) as ->.
    { apply elem_of_cons in Hop as [->|Hop]; [done|]. apply list_elem_of_singleton in Hop. by subst. }
    exists sample_node. vm_compute. reflexivity.
  - repeat constructor.
Qed.

Lemma increment_decode_encode_witness :
  increment_wf sample_increment ∧
  increment_decode (increment_encode sample_increment) = Ok sample_increment.
Proof.
  split; [exact sample_increment_wf|].
  apply (increment_decode_encode sample_increment); [exact sample_increment_wf|].
  vm_compute. discriminate.
Defined.

(** No byte string makes the chain's decoder build an increment the engine
    cannot read: an accepted one has a 32-byte identity and references, a
    well-formed document, and every IPC payload it names decodes to a node. *)
Theorem increment_decode_safe (bs : bytes) (inc : Increment) :
  increment_decode bs = Ok inc → increment_wf inc.
Proof.
  unfold increment_decode. intros H.
  destruct (read_bytes _ ID_BYTES) as [[id r1]|] eqn:Ei; cbn [mbind result_bind] in H; [|done].
  destruct (read_u64 r1) as [[b r2]|] eqn:Eb; cbn [mbind result_bind] in H; [|done].
  destruct (read_u64 r2) as [[dl r3]|]; cbn [mbind result_bind] in H; [|done].
  destruct (read_bytes r3 dl) as [[raw r4]|]; cbn [mbind result_bind] in H; [|done].
  destruct (decode raw) as [doc|] eqn:Ed; cbn [mbind result_bind] in H; [|done].
  destruct (read_u64 r4) as [[pl r5]|]; cbn [mbind result_bind] in H; [|done].
  destruct (read_bytes r5 pl) as [[post r6]|]; cbn [mbind result_bind] in H; [|done].
  destruct (check_payloads doc post (ops doc)) as [[]|] eqn:Ep; cbn [mbind result_bind] in H; [|done].
  destruct (read_u64 r6) as [[n r7]|]; cbn [mbind result_bind] in H; [|done]. split_if; [done|].
  destruct (take_entries _ _ r7 []) as [[ev r8]|] eqn:Ee; cbn [mbind result_bind] in H; [|done].
  split_if; [done|]. simplify_eq. unfold increment_wf. simpl. split_and!.
  - by eapply read_bytes_ok.
  - by eapply read_u64_le.
  - by eapply doc_decode_wf.
  - exact (proj1 (check_payloads_ok _ _ _) Ep).
  - eapply take_entries_ok; [|constructor|exact Ee]. intros r a r'. apply read_bytes_ok.
Qed.

Lemma increment_decode_safe_witness :
  increment_decode (increment_encode sample_increment) = Ok sample_increment ∧
  increment_wf sample_increment.
Proof.
  assert (E : increment_decode (increment_encode sample_increment) = Ok sample_increment)
    by (vm_compute; reflexivity).
  split; [exact E|]. exact (increment_decode_safe _ _ E).
Defined.
