(* ===== verification/Journal.v ===== *)
(** * The journal and the files it touches

    Models the file half of [crates/merge/src/increment.rs]: the journal's
    operations, the base a work composes against, the replay of a journal into
    per-file entities ([apply_op] and what it calls) and [classify], which
    turns the entities into the surviving files' emissions and the unlinked
    base paths.  The theorem relates them to the files the journal leaves, and
    says where the replay refuses a journal. *)

From S2P Require Import Prelude Range OpsDoc ByteSplice Derive Special Origin.
#[local] Open Scope N_scope.

(** ** Declared operations *)
Module VolumeOp.
Inductive t :=
| Overwrite (path : string) (at_ len_ : N)
| Extend (path : string) (at_ len_ : N)
| Truncate (path : string) (len_ : N)
| Insert (path : string) (at_ len_ : N)
| Delete (path : string) (at_ len_ : N)
| Create (path : string)
| Mknod (path : string) (node : SpecialNode) (mode : N)
| Unlink (path : string)
| Rename (from to : string)
| Mkdir (path : string)
| Rmdir (path : string)
| SetMode (path : string) (mode : N)
| Symlink (path target : string)
| SetXattr (path name : string) (value : bytes)
| RemoveXattr (path name : string)
| Link (path target : string).
End VolumeOp.

(** [VolumeOp::footprint]; the size of the Rust value is the target's. *)
Definition footprint (size_of_VolumeOp : N) (op : VolumeOp.t) : N :=
  let slen (s : string) := len (as_bytes s) in
  let heap :=
    match op with
    | VolumeOp.Overwrite path _ _ | VolumeOp.Extend path _ _ | VolumeOp.Truncate path _
    | VolumeOp.Insert path _ _ | VolumeOp.Delete path _ _ | VolumeOp.Create path
    | VolumeOp.Mknod path _ _ | VolumeOp.Unlink path | VolumeOp.Mkdir path
    | VolumeOp.Rmdir path | VolumeOp.SetMode path _ => slen path
    | VolumeOp.Rename from to => sat_add (slen from) (slen to)
    | VolumeOp.Symlink path target | VolumeOp.Link path target => sat_add (slen path) (slen target)
    | VolumeOp.SetXattr path name value => sat_add (sat_add (slen path) (slen name)) (len value)
    | VolumeOp.RemoveXattr path name => sat_add (slen path) (slen name)
    end in
  sat_add size_of_VolumeOp heap.

(** [VolumeOp::content]: the path-free content operation. *)
Definition content_op (op : VolumeOp.t) : option ContentOp.t :=
  match op with
  | VolumeOp.Overwrite _ at_ l => Some (ContentOp.Overwrite at_ l)
  | VolumeOp.Extend _ at_ l => Some (ContentOp.Extend at_ l)
  | VolumeOp.Truncate _ l => Some (ContentOp.Truncate l)
  | VolumeOp.Insert _ at_ l => Some (ContentOp.Insert at_ l)
  | VolumeOp.Delete _ at_ l => Some (ContentOp.Delete at_ l)
  | _ => None
  end.

(** [VolumeOp::names]: every path the operation names. *)
Definition names (op : VolumeOp.t) : list string :=
  match op with
  | VolumeOp.Overwrite path _ _ | VolumeOp.Extend path _ _ | VolumeOp.Truncate path _
  | VolumeOp.Insert path _ _ | VolumeOp.Delete path _ _ | VolumeOp.Create path
  | VolumeOp.Mknod path _ _ | VolumeOp.Unlink path | VolumeOp.Mkdir path
  | VolumeOp.Rmdir path | VolumeOp.SetMode path _ | VolumeOp.Symlink path _
  | VolumeOp.SetXattr path _ _ | VolumeOp.RemoveXattr path _ => [path]
  | VolumeOp.Rename from to => [from; to]
  | VolumeOp.Link path target => [path; target]
  end.

Definition is_directory (op : VolumeOp.t) : bool :=
  match op with VolumeOp.Mkdir _ | VolumeOp.Rmdir _ => true | _ => false end.
Definition is_symlink (op : VolumeOp.t) : bool :=
  match op with VolumeOp.Symlink _ _ => true | _ => false end.
Definition is_link (op : VolumeOp.t) : bool :=
  match op with VolumeOp.Link _ _ => true | _ => false end.
Definition is_mknod (op : VolumeOp.t) : bool :=
  match op with VolumeOp.Mknod _ _ _ => true | _ => false end.

(** [VolumeOp::single_path]. *)
Definition single_path (op : VolumeOp.t) : option string :=
  match op with
  | VolumeOp.Overwrite path _ _ | VolumeOp.Extend path _ _ | VolumeOp.Truncate path _
  | VolumeOp.Insert path _ _ | VolumeOp.Delete path _ _ | VolumeOp.Create path
  | VolumeOp.Unlink path => Some path
  | _ => None
  end.

(** ** Refusals *)
Module DeriveError.
Inductive t :=
| ContentOnMissing (path : string)
| CreateOverExisting (path : string)
| UnlinkMissing (path : string)
| RenameMissingSource (path : string)
| Unsupported (path : string)
| MkdirOverExisting (path : string)
| RmdirMissing (path : string)
| PathIsFileAndDirectory (path : string)
| SetModeMissing (path : string)
| SymlinkOverExisting (path : string)
| PathKindConflict (path : string)
| XattrMissing (path : string)
| LinkOverExisting (path : string).

#[global] Instance eq_dec : EqDecision t.
Proof. solve_decision. Defined.
End DeriveError.

(** ** The base *)
Record Base := mkBase {
  b_files : list (string * N);
  b_specials : list (string * SpecialNode);
  b_dirs : list string;
  b_modes : list (string * N);
  b_symlinks : list (string * string);
  b_xattrs : list (string * string * bytes);
  b_hardlinks : list (string * string)
}.

(** [Base::of_files]. *)
Definition of_files (files : list (string * N)) : Base := mkBase files [] [] [] [] [] [].

(** The first entry of a table with the key, [iter().find(..).map(..)]. *)
Definition table_get {K V} `{EqDecision K} (table : list (K * V)) (k : K) : option V :=
  snd <$> List.find (λ e, bool_decide (e.1 = k)) table.

Definition base_hardlink_target (base : Base) (path : string) : option string :=
  table_get (b_hardlinks base) path.
Definition base_xattr (base : Base) (path name : string) : option bytes :=
  table_get (b_xattrs base) (path, name).
Definition base_symlink_target (base : Base) (path : string) : option string :=
  table_get (b_symlinks base) path.
Definition base_mode_of (base : Base) (path : string) : option N := table_get (b_modes base) path.
Definition base_len_of (base : Base) (path : string) : option N := table_get (b_files base) path.

(** ** Entities *)
Record Entity := mkEntity {
  e_origin : option string;
  e_base_len : N;
  e_content : list ContentOp.t;
  e_live : bool;
  e_final_path : string;
  e_clobbered : bool
}.

(** [Iterator::position]. *)
Fixpoint position {A} (test : A → bool) (l : list A) : option nat :=
  match l with
  | [] => None
  | x :: r => if test x then Some O else S <$> position test r
  end.

Definition is_live_at (path : string) (e : Entity) : bool :=
  e_live e && bool_decide (e_final_path e = path).

Definition live_index (entities : list Entity) (path : string) : option nat :=
  position (is_live_at path) entities.

Definition consumed (entities : list Entity) (path : string) : bool :=
  existsb (λ e, bool_decide (e_origin e = Some path)) entities.

(** [materialize_base]: the entity list and the new entity's index. *)
Definition materialize_base (entities : list Entity) (base : Base) (path : string) :
    list Entity * option nat :=
  if consumed entities path then (entities, None)
  else match base_len_of base path with
  | None => (entities, None)
  | Some base_len =>
      (entities ++ [mkEntity (Some path) base_len [] true path false], Some (length entities))
  end.

(** [live_index(..).or_else(|| materialize_base(..)).ok_or_else(..)]. *)
Definition find_or_materialize (entities : list Entity) (base : Base) (path : string)
    (missing : DeriveError.t) : result DeriveError.t (list Entity * nat) :=
  match live_index entities path with
  | Some i => Ok (entities, i)
  | None =>
      let '(entities, made) := materialize_base entities base path in
      i ← ok_or made missing; Ok (entities, i)
  end.

(** Entity updates through [get_mut]. *)
Definition update_at (entities : list Entity) (i : nat) (f : Entity → Entity)
    (missing : DeriveError.t) : result DeriveError.t (list Entity) :=
  e ← ok_or (entities !! i) missing; Ok (<[i := f e]> entities).

Definition push_op (c : ContentOp.t) (e : Entity) : Entity :=
  mkEntity (e_origin e) (e_base_len e) (e_content e ++ [c]) (e_live e) (e_final_path e)
    (e_clobbered e).
Definition kill (e : Entity) : Entity :=
  mkEntity (e_origin e) (e_base_len e) [] false (e_final_path e) (e_clobbered e).
Definition clobber (e : Entity) : Entity :=
  mkEntity (e_origin e) (e_base_len e) (e_content e) (e_live e) (e_final_path e) true.
Definition clobber_over (e : Entity) : Entity :=
  mkEntity (e_origin e) (e_base_len e) (e_content e) false (e_final_path e) true.
Definition reroot (to : string) (base_len : N) (e : Entity) : Entity :=
  mkEntity (Some to) base_len (ContentOp.Truncate 0 :: e_content e) (e_live e) (e_final_path e)
    (e_clobbered e).
Definition move_to (to : string) (e : Entity) : Entity :=
  mkEntity (e_origin e) (e_base_len e) (e_content e) (e_live e) to (e_clobbered e).

Definition apply_create (entities : list Entity) (base : Base) (path : string) :
    result DeriveError.t (list Entity) :=
  if bool_decide (is_Some (live_index entities path))
  then Err (DeriveError.CreateOverExisting path) else
  let replaced := position (λ e, negb (e_live e) && negb (e_clobbered e)
    && bool_decide (e_final_path e = path) && bool_decide (e_origin e = Some path)) entities in
  match replaced ≫= λ i, pair i <$> entities !! i with
  | Some (i, unlinked) =>
      Ok (<[i := clobber unlinked]> entities
          ++ [mkEntity (Some path) (e_base_len unlinked) [ContentOp.Truncate 0] true path false])
  | None =>
      if bool_decide (is_Some (base_len_of base path)) then
        if consumed entities path then Err (DeriveError.Unsupported path)
        else Err (DeriveError.CreateOverExisting path)
      else Ok (entities ++ [mkEntity None 0 [] true path false])
  end.

Definition apply_unlink (entities : list Entity) (base : Base) (path : string) :
    result DeriveError.t (list Entity) :=
  '(entities, index) ←
    find_or_materialize entities base path (DeriveError.UnlinkMissing path);
  update_at entities index kill (DeriveError.UnlinkMissing path).

(** [resolve_rename_target]. *)
Definition resolve_rename_target (entities : list Entity) (base : Base) (to : string) :
    result DeriveError.t (list Entity * option nat) :=
  match live_index entities to with
  | Some i => Ok (entities, Some i)
  | None =>
      if bool_decide (is_Some (base_len_of base to)) then
        if consumed entities to then Err (DeriveError.Unsupported to)
        else Ok (materialize_base entities base to)
      else Ok (entities, None)
  end.

Definition apply_rename (entities : list Entity) (base : Base) (from to : string) :
    result DeriveError.t (list Entity) :=
  if bool_decide (from = to) then Ok entities else
  let missing := DeriveError.RenameMissingSource from in
  '(entities, source) ← find_or_materialize entities base from missing;
  '(entities, destination) ← resolve_rename_target entities base to;
  entities ←
    match destination with
    | None => Ok entities
    | Some dst =>
        clobbered ← ok_or (entities !! dst) missing;
        let entities := <[dst := clobber_over clobbered]> entities in
        let dst_at_own_base := bool_decide (e_origin clobbered = Some to) in
        moved ← ok_or (entities !! source) missing;
        if dst_at_own_base && bool_decide (e_origin moved = None)
        then Ok (<[source := reroot to (e_base_len clobbered) moved]> entities)
        else Ok entities
    end;
  update_at entities source (move_to to) missing.

Definition apply_op (entities : list Entity) (base : Base) (op : VolumeOp.t) :
    result DeriveError.t (list Entity) :=
  match content_op op with
  | Some content =>
      let path := default "" (single_path op) in
      '(entities, index) ←
        find_or_materialize entities base path (DeriveError.ContentOnMissing path);
      update_at entities index (push_op content) (DeriveError.ContentOnMissing path)
  | None =>
      match op with
      | VolumeOp.Create path => apply_create entities base path
      | VolumeOp.Unlink path => apply_unlink entities base path
      | VolumeOp.Rename from to => apply_rename entities base from to
      | _ => Ok entities
      end
  end.

(** ** Emissions *)
Record Emission := mkEmission {
  em_final_path : string;
  em_source : option string;
  em_created : bool;
  em_ops : list Op;
  em_final_len : N
}.

(** The loop of [classify] over the sealed entities. *)
Definition classify_step (st : list Emission * gset string * list string) (entity : Entity) :
    list Emission * gset string * list string :=
  let '(emissions, survivors, gone) := st in
  if e_live entity then
    let survivors := {[ e_final_path entity ]} ∪ survivors in
    let '(os, final_len) := compose_content_sized (e_base_len entity) (e_content entity) in
    let created := bool_decide (e_origin entity = None) in
    let renamed :=
      match e_origin entity with
      | Some origin => negb (bool_decide (origin = e_final_path entity))
      | None => false
      end in
    if negb created && negb renamed && is_nil os then (emissions, survivors, gone)
    else
      let source := if renamed then e_origin entity else None in
      (emissions ++ [mkEmission (e_final_path entity) source created os final_len], survivors, gone)
  else
    match e_origin entity with
    | Some origin => (emissions, survivors, gone ++ [origin])
    | None => st
    end.

(** [classify]: the survivors' emissions and the base paths to unlink. *)
Definition classify (entities : list Entity) : list Emission * list string :=
  let '(emissions, survivors, gone) := foldl classify_step ([], ∅, []) entities in
  (emissions, sort_dedup (filter (λ origin, origin ∉ survivors) gone)).

(** ** The files a journal leaves *)

(** One journal operation with the bytes it wrote, on the files by path. *)
Inductive fs_step (fs : gmap string bytes) : VolumeOp.t → bytes → gmap string bytes → Prop :=
| fs_content op c path f data :
    content_op op = Some c → single_path op = Some path → fs !! path = Some f →
    op_valid f c data → len (exec_op f c data) ≤ u64_max →
    fs_step fs op data (<[path := exec_op f c data]> fs)
| fs_create path : fs !! path = None → fs_step fs (VolumeOp.Create path) [] (<[path := []]> fs)
| fs_unlink path f : fs !! path = Some f → fs_step fs (VolumeOp.Unlink path) [] (delete path fs)
| fs_rename_same path : fs_step fs (VolumeOp.Rename path path) [] fs
| fs_rename from to f :
    from ≠ to → fs !! from = Some f →
    fs_step fs (VolumeOp.Rename from to) [] (<[to := f]> (delete from fs))
| fs_other op data :
    content_op op = None →
    match op with
    | VolumeOp.Create _ | VolumeOp.Unlink _ | VolumeOp.Rename _ _ => False
    | _ => True
    end → fs_step fs op data fs.

Inductive fs_run : gmap string bytes → list (VolumeOp.t * bytes) → gmap string bytes → Prop :=
| fs_run_nil fs : fs_run fs [] fs
| fs_run_cons fs op data fs' journal fs'' :
    fs_step fs op data fs' → fs_run fs' journal fs'' → fs_run fs ((op, data) :: journal) fs''.

(** The replay loop: [for op in journal { apply_op(..)?; }]. *)
Fixpoint replay_ops (entities : list Entity) (base : Base) (journal : list VolumeOp.t) :
    result DeriveError.t (list Entity) :=
  match journal with
  | [] => Ok entities
  | op :: journal => entities ← apply_op entities base op; replay_ops entities base journal
  end.

(** A content journal run from [b] to [f], the bytes forgotten. *)
Definition ran (b : bytes) (content : list ContentOp.t) (f : bytes) : Prop :=
  ∃ journal, journal.*1 = content ∧ executes b journal f.

(** The base bytes an entity composes against. *)
Definition start_of (B : gmap string bytes) (origin : option string) : bytes :=
  match origin with Some o => default [] (B !! o) | None => [] end.

(** A base as the engine describes a version: the lengths of its files. *)
Definition base_of (base : Base) (B : gmap string bytes) : Prop :=
  ∀ p, base_len_of base p = len <$> B !! p ∧ ∀ b, B !! p = Some b → len b ≤ u64_max.

(** An entity that still stands for its origin: present, or unlinked in place. *)
Definition holder (e : Entity) : Prop := e_live e = true ∨ e_clobbered e = false.

(** The entities stand for the files [fs], starting from the base files [B]. *)
Record tracks (B : gmap string bytes) (es : list Entity) (fs : gmap string bytes) : Prop := {
  t_base : ∀ i e, es !! i = Some e → e_base_len e = len (start_of B (e_origin e)) ∧
    ∀ o, e_origin e = Some o → is_Some (B !! o);
  t_live : ∀ i e, es !! i = Some e → e_live e = true →
    ∃ F, fs !! e_final_path e = Some F ∧ ran (start_of B (e_origin e)) (e_content e) F;
  t_unique : ∀ i j e e', es !! i = Some e → es !! j = Some e' → e_live e = true → e_live e' = true →
    e_final_path e = e_final_path e' → i = j;
  t_own : ∀ i j e e' o, es !! i = Some e → es !! j = Some e' → holder e → holder e' →
    e_origin e = Some o → e_origin e' = Some o → i = j;
  t_rest : ∀ p, (∀ i e, es !! i = Some e → e_live e = true → e_final_path e ≠ p) →
    fs !! p = if consumed es p then None else B !! p;
  t_over : ∀ i e, es !! i = Some e → e_live e = true → is_Some (B !! e_final_path e) →
    consumed es (e_final_path e) = true
}.

(** ** Lemmas: runs *)
Lemma executes_len b j f : executes b j f → len b ≤ u64_max ∧ len f ≤ u64_max.
Proof. induction 1; naive_solver. Qed.

Lemma executes_snoc b j f c d :
  executes b j f → op_valid f c d → len (exec_op f c d) ≤ u64_max →
  executes b (j ++ [(c, d)]) (exec_op f c d).
Proof. induction 1; intros; simpl; repeat constructor; auto. Qed.

Lemma ran_snoc b content f c d :
  ran b content f → op_valid f c d → len (exec_op f c d) ≤ u64_max →
  ran b (content ++ [c]) (exec_op f c d).
Proof.
  intros (j & <- & Hj) ??. exists (j ++ [(c, d)]). split; [by rewrite fmap_app|].
  by apply executes_snoc.
Qed.

Lemma ran_nil b : len b ≤ u64_max → ran b [] b.
Proof. intros. exists []. split; [done|by constructor]. Qed.

Lemma ran_truncate b content f :
  len b ≤ u64_max → ran [] content f → ran b (ContentOp.Truncate 0 :: content) f.
Proof.
  intros Hb (j & <- & Hj). exists ((ContentOp.Truncate 0, []) :: j). split; [done|].
  assert (exec_op b (ContentOp.Truncate 0) [] = []) as E.
  { cbn. split_if; [done|]. bool_to_prop. rewrite app_nil_r. apply len_0_nil. lia. }
  constructor; [done| |by rewrite E]. cbn. by split_if.
Qed.

(** ** Lemmas: positions *)
Lemma position_some {A} (test : A → bool) l i :
  position test l = Some i → ∃ x, l !! i = Some x ∧ test x = true.
Proof.
  revert i. induction l as [|x l IH]; intros i; simpl; [done|].
  destruct (test x) eqn:E; [intros [= <-]; eauto|].
  destruct (position test l); simpl; [|done]. intros [= <-]. by apply IH.
Qed.

Lemma position_none {A} (test : A → bool) l i x :
  position test l = None → l !! i = Some x → test x = false.
Proof.
  revert i. induction l as [|y l IH]; intros i; simpl; [done|].
  destruct (test y) eqn:E; [done|]. destruct (position test l); [done|]. intros _.
  destruct i; simpl; [by intros [= <-]|]. by apply IH.
Qed.

Lemma is_live_at_true p e : is_live_at p e = true ↔ e_live e = true ∧ e_final_path e = p.
Proof. unfold is_live_at. rewrite andb_true_iff, bool_decide_eq_true. done. Qed.

Lemma live_index_some es p i :
  live_index es p = Some i → ∃ e, es !! i = Some e ∧ e_live e = true ∧ e_final_path e = p.
Proof. intros (e & ? & ?%is_live_at_true)%position_some. naive_solver. Qed.

Lemma live_index_none es p i e :
  live_index es p = None → es !! i = Some e → e_live e = true → e_final_path e ≠ p.
Proof.
  intros Hn Hi Hl Hp. pose proof (position_none _ _ _ _ Hn Hi) as Hf.
  rewrite (proj2 (is_live_at_true p e)) in Hf; done.
Qed.

Lemma consumed_true es p : consumed es p = true ↔ ∃ i e, es !! i = Some e ∧ e_origin e = Some p.
Proof.
  unfold consumed. rewrite existsb_exists. split.
  - intros (e & Hin & ?%bool_decide_eq_true). apply list_elem_of_In, list_elem_of_lookup in Hin.
    naive_solver.
  - intros (i & e & Hi & Ho). exists e. split; [|by apply bool_decide_eq_true].
    apply list_elem_of_In, list_elem_of_lookup. eauto.
Qed.

Lemma consumed_false es p : consumed es p = false ↔ ∀ i e, es !! i = Some e → e_origin e ≠ Some p.
Proof.
  rewrite <- not_true_iff_false, consumed_true. naive_solver.
Qed.

(** Two entity lists with the same origins consume the same paths. *)
Lemma consumed_iff es es' p :
  ((∃ i e, es !! i = Some e ∧ e_origin e = Some p) ↔
   (∃ i e, es' !! i = Some e ∧ e_origin e = Some p)) → consumed es p = consumed es' p.
Proof. rewrite <- !consumed_true. destruct (consumed es p), (consumed es' p); naive_solver. Qed.

(** ** Lemmas: the tracking invariant *)

(** [es'] is [es] with [e'] at index [i], replaced or appended. *)
Definition put_at (es : list Entity) (i : nat) (e' : Entity) (es' : list Entity) : Prop :=
  ∀ j e, es' !! j = Some e ↔ (j = i ∧ e = e') ∨ (j ≠ i ∧ es !! j = Some e).

Lemma put_at_insert es i e e' : es !! i = Some e → put_at es i e' (<[i:=e']> es).
Proof.
  intros Hi j x. rewrite list_lookup_insert_Some. apply lookup_lt_Some in Hi.
  split; [|naive_solver]. intros [(-> & -> & _)|]; naive_solver.
Qed.

Lemma put_at_snoc es e' : put_at es (length es) e' (es ++ [e']).
Proof.
  intros j x. rewrite lookup_snoc_Some. split; [|].
  - intros [[? ?]|[-> ->]]; [right; split; [lia|done]|by left].
  - intros [[-> ->]|[? Hj]]; [by right|left]. split; [by eapply lookup_lt_Some|done].
Qed.

Lemma consumed_put es i e' es' p : put_at es i e' es' →
  consumed es' p = true ↔
  e_origin e' = Some p ∨ ∃ j e, j ≠ i ∧ es !! j = Some e ∧ e_origin e = Some p.
Proof.
  intros Hput. rewrite consumed_true. split.
  - intros (j & e & [[-> ->]|[? ?]]%Hput & ?); [by left|right; eauto].
  - intros [?|(j & e & ? & ? & ?)]; [exists i, e'|exists j, e]; (split; [apply Hput|]); naive_solver.
Qed.

(** A replacement that keeps the origin, or takes one already consumed. *)
Lemma consumed_keep es i e e' es' p :
  put_at es i e' es' → es !! i = Some e →
  e_origin e' = e_origin e ∨
    (e_origin e = None ∧ ∃ j d o, j ≠ i ∧ es !! j = Some d ∧ e_origin d = Some o ∧ e_origin e' = Some o) →
  consumed es' p = consumed es p.
Proof.
  intros Hput Hi Ho. apply eq_bool_prop_intro. rewrite !Is_true_true.
  rewrite (consumed_put _ _ _ _ _ Hput), consumed_true. split.
  - intros [He'|(j & d & ? & ? & ?)]; [|eauto].
    destruct Ho as [Ho|(_ & j & d & o & ? & ? & ? & ?)]; [exists i, e; split; congruence|].
    exists j, d. split; congruence.
  - intros (j & d & Hj & Hd). destruct (decide (j = i)) as [->|]; [|right; eauto].
    rewrite Hi in Hj. injection Hj as ->.
    destruct Ho as [Ho|(Hn & _)]; [left; congruence|congruence].
Qed.

Lemma tracks_put B es fs i e' es' fs' :
  tracks B es fs → put_at es i e' es' →
  e_base_len e' = len (start_of B (e_origin e')) ∧ (∀ o, e_origin e' = Some o → is_Some (B !! o)) →
  (e_live e' = true →
    (∃ F, fs' !! e_final_path e' = Some F ∧ ran (start_of B (e_origin e')) (e_content e') F) ∧
    (∀ j e, j ≠ i → es !! j = Some e → e_live e = true → e_final_path e ≠ e_final_path e') ∧
    (is_Some (B !! e_final_path e') → consumed es' (e_final_path e') = true)) →
  (∀ j e, j ≠ i → es !! j = Some e → e_live e = true →
    fs' !! e_final_path e = fs !! e_final_path e) →
  (holder e' → ∀ o j e, e_origin e' = Some o → j ≠ i → es !! j = Some e → holder e →
    e_origin e ≠ Some o) →
  (∀ p, consumed es p = true → consumed es' p = true) →
  (∀ p, (e_live e' = true → e_final_path e' ≠ p) →
    (∀ j e, j ≠ i → es !! j = Some e → e_live e = true → e_final_path e ≠ p) →
    fs' !! p = if consumed es' p then None else B !! p) →
  tracks B es' fs'.
Proof.
  intros [Tb Tl Tu To Tr Tv] Hput Hb Hl Hkeep Hown Hmono Hrest. constructor.
  - intros j e [[-> ->]|[? Hj]]%Hput; [done|eauto].
  - intros j e [[-> ->]|[? Hj]]%Hput Hlive; [by apply Hl|]. rewrite (Hkeep j) by done. eauto.
  - intros j k e d [[-> ->]|[? Hj]]%Hput [[-> ->]|[? Hk]]%Hput L1 L2 E; [done| | |eauto].
    + destruct (Hl L1) as (_ & Hne & _). by destruct (Hne k d).
    + destruct (Hl L2) as (_ & Hne & _). by destruct (Hne j e).
  - intros j k e d o [[-> ->]|[? Hj]]%Hput [[-> ->]|[? Hk]]%Hput H1 H2 E1 E2; [done| | |eauto].
    + by destruct (Hown H1 o k d).
    + by destruct (Hown H2 o j e).
  - intros p Hp. apply Hrest.
    + intros Hlive. apply (Hp i); [|done]. apply Hput. by left.
    + intros j e ? Hj. apply (Hp j). apply Hput. by right.
  - intros j e [[-> ->]|[? Hj]]%Hput Hlive; [by apply Hl|]. intros HB. apply Hmono. eauto.
Qed.

Section tracking.
Context (B : gmap string bytes) (es : list Entity) (fs : gmap string bytes).
Context (HT : tracks B es fs).

(** Nothing is live at [p]. *)
Definition vacant (p : string) : Prop :=
  ∀ i e, es !! i = Some e → e_live e = true → e_final_path e ≠ p.

(** A content operation on a live entity. *)
Lemma tracks_content i e content F :
  es !! i = Some e → e_live e = true → ran (start_of B (e_origin e)) content F →
  tracks B (<[i := mkEntity (e_origin e) (e_base_len e) content true (e_final_path e) (e_clobbered e)]> es)
    (<[e_final_path e := F]> fs).
Proof.
  intros Hi Hl Hr. pose proof (put_at_insert es i e
    (mkEntity (e_origin e) (e_base_len e) content true (e_final_path e) (e_clobbered e)) Hi) as Hput.
  pose proof (λ p, consumed_keep es i e _ _ p Hput Hi (or_introl eq_refl)) as Hcons.
  destruct HT as [Tb Tl Tu To Tr Tv].
  eapply tracks_put; [exact HT|exact Hput|..]; cbn [e_origin e_base_len e_live e_final_path e_content].
  - by apply (Tb i).
  - intros _. rewrite Hcons. split_and!.
    + exists F. by rewrite lookup_insert, decide_True.
    + intros j d Hne Hj Hd E. apply Hne. by eapply Tu.
    + by apply (Tv i).
  - intros j d Hne Hj Hd. rewrite lookup_insert_ne; [done|]. intros E. apply Hne. by eapply Tu.
  - intros _ o j d Ho Hne Hj Hh E. apply Hne. by eapply (To j i d e o); try done; left.
  - intros p. by rewrite Hcons.
  - intros p Hp1 Hp2. rewrite lookup_insert_ne by (by apply Hp1). rewrite Hcons. apply Tr.
    intros j d Hj Hd. destruct (decide (j = i)) as [->|Hne]; [|by eapply Hp2].
    assert (d = e) as -> by congruence. by apply Hp1.
Qed.

(** A live entity removed. *)
Lemma tracks_dead i e e' :
  es !! i = Some e → e_live e = true →
  e_origin e' = e_origin e → e_base_len e' = e_base_len e → e_live e' = false →
  tracks B (<[i := e']> es) (delete (e_final_path e) fs).
Proof.
  intros Hi Hl Ho Hb Hd. pose proof (put_at_insert es i e e' Hi) as Hput.
  pose proof (λ p, consumed_keep es i e _ _ p Hput Hi (or_introl Ho)) as Hcons.
  destruct HT as [Tb Tl Tu To Tr Tv].
  eapply tracks_put; [exact HT|exact Hput|..].
  - rewrite Ho, Hb. by apply (Tb i).
  - congruence.
  - intros j d Hne Hj Hd'. rewrite lookup_delete_ne; [done|]. intros E. apply Hne. by eapply Tu.
  - intros _ o j d Ho' Hne Hj Hh E. apply Hne. eapply (To j i d e o); try done; [by left|congruence].
  - intros p. by rewrite Hcons.
  - intros p _ Hp. rewrite Hcons. destruct (decide (e_final_path e = p)) as [<-|Hpe].
    + rewrite lookup_delete, decide_True by done. destruct (consumed es (e_final_path e)) eqn:E; [done|].
      destruct (B !! e_final_path e) eqn:EB; [|done].
      rewrite (Tv i e Hi Hl) in E; [done|]. by rewrite EB.
    + rewrite lookup_delete_ne by done. apply Tr. intros j d Hj Hd'.
      destruct (decide (j = i)) as [->|Hne]; [|by eapply Hp]. congruence.
Qed.

(** A dead entity marked superseded. *)
Lemma tracks_mark i e :
  es !! i = Some e → e_live e = false → tracks B (<[i := clobber e]> es) fs.
Proof.
  intros Hi Hl. pose proof (put_at_insert es i e (clobber e) Hi) as Hput.
  pose proof (λ p, consumed_keep es i e _ _ p Hput Hi (or_introl eq_refl)) as Hcons.
  destruct HT as [Tb Tl Tu To Tr Tv].
  eapply tracks_put; [exact HT|exact Hput|..]; cbn [clobber e_origin e_base_len e_live e_final_path].
  - by apply (Tb i).
  - congruence.
  - done.
  - intros [|]; simpl in *; congruence.
  - intros p. by rewrite Hcons.
  - intros p _ Hp. rewrite Hcons. apply Tr. intros j d Hj Hd.
    destruct (decide (j = i)) as [->|Hne]; [congruence|by eapply Hp].
Qed.

(** A new live entity at a vacant path. *)
Lemma tracks_add e' F :
  vacant (e_final_path e') → e_live e' = true →
  e_base_len e' = len (start_of B (e_origin e')) → (∀ o, e_origin e' = Some o → is_Some (B !! o)) →
  e_origin e' = None ∨ e_origin e' = Some (e_final_path e') →
  (is_Some (B !! e_final_path e') → e_origin e' = Some (e_final_path e')) →
  (∀ o j e, e_origin e' = Some o → es !! j = Some e → holder e → e_origin e ≠ Some o) →
  ran (start_of B (e_origin e')) (e_content e') F →
  tracks B (es ++ [e']) (<[e_final_path e' := F]> fs).
Proof.
  intros Hv Hl Hb HB Ho Hover Hown Hr. pose proof (put_at_snoc es e') as Hput.
  destruct HT as [Tb Tl Tu To Tr Tv].
  assert (Hmono : ∀ p, consumed es p = true → consumed (es ++ [e']) p = true).
  { intros p (j & e & Hj & He)%consumed_true. apply consumed_true. exists j, e. split; [|done].
    by apply lookup_app_l_Some. }
  eapply tracks_put; [exact HT|exact Hput|..].
  - done.
  - intros _. split_and!.
    + exists F. by rewrite lookup_insert, decide_True.
    + intros j e _. apply Hv.
    + intros HBp. apply (consumed_put _ _ _ _ _ Hput). left. auto.
  - intros j e _ Hj He. rewrite lookup_insert_ne; [done|]. intros E. by apply (Hv j e).
  - intros _ o j e Ho' _. by apply Hown.
  - done.
  - intros p Hp1 Hp2. specialize (Hp1 Hl). rewrite lookup_insert_ne by done. rewrite Tr.
    + rewrite (consumed_iff es (es ++ [e']) p); [done|]. rewrite <- !consumed_true.
      rewrite (consumed_put _ _ _ _ _ Hput). rewrite consumed_true. split.
      * intros (j & e & Hj & He). right. exists j, e. split; [|done].
        apply lookup_lt_Some in Hj. lia.
      * intros [Hp|(j & e & _ & ?)]; [|eauto]. destruct Ho; congruence.
    + intros j e Hj. apply (Hp2 j); [|done]. apply lookup_lt_Some in Hj. lia.
Qed.

(** A live entity moved to a vacant path, its origin kept or taken over. *)
Lemma tracks_move s e e' F :
  es !! s = Some e → e_live e = true → fs !! e_final_path e = Some F →
  e_live e' = true → e_final_path e' ≠ e_final_path e → vacant (e_final_path e') →
  e_base_len e' = len (start_of B (e_origin e')) → (∀ o, e_origin e' = Some o → is_Some (B !! o)) →
  e_origin e' = e_origin e ∨
    (e_origin e = None ∧ ∃ j d o, j ≠ s ∧ es !! j = Some d ∧ e_origin d = Some o ∧ e_origin e' = Some o) →
  (∀ o j d, e_origin e' = Some o → j ≠ s → es !! j = Some d → holder d → e_origin d ≠ Some o) →
  (is_Some (B !! e_final_path e') → consumed es (e_final_path e') = true) →
  ran (start_of B (e_origin e')) (e_content e') F →
  tracks B (<[s := e']> es) (<[e_final_path e' := F]> (delete (e_final_path e) fs)).
Proof.
  intros Hs Hl HF Hl' Hne Hv Hb HB Ho Hown Hover Hr.
  pose proof (put_at_insert es s e e' Hs) as Hput.
  pose proof (λ p, consumed_keep es s e _ _ p Hput Hs Ho) as Hcons.
  destruct HT as [Tb Tl Tu To Tr Tv].
  eapply tracks_put; [exact HT|exact Hput|..].
  - done.
  - intros _. rewrite Hcons. split_and!.
    + exists F. by rewrite lookup_insert, decide_True.
    + intros j d _. apply Hv.
    + done.
  - intros j d Hj Hd Hd'. rewrite lookup_insert_ne by (intros E; by apply (Hv j d)).
    rewrite lookup_delete_ne; [done|]. intros E. apply Hj. by eapply Tu.
  - intros _ o j d Ho' Hj. by apply Hown.
  - intros p. by rewrite Hcons.
  - intros p Hp1 Hp2. rewrite lookup_insert_ne by auto. rewrite Hcons.
    destruct (decide (e_final_path e = p)) as [<-|Hpe].
    + rewrite lookup_delete, decide_True by done. destruct (consumed es (e_final_path e)) eqn:E; [done|].
      destruct (B !! e_final_path e) eqn:EB; [|done].
      rewrite (Tv s e Hs Hl) in E; [done|]. by rewrite EB.
    + rewrite lookup_delete_ne by done. apply Tr. intros j d Hj Hd.
      destruct (decide (j = s)) as [->|Hjs]; [congruence|by eapply Hp2].
Qed.
End tracking.

(** ** Lemmas: the operations *)
Section operations.
Context (base : Base) (B : gmap string bytes) (HB : base_of base B).

Lemma start_len es fs i e : tracks B es fs → es !! i = Some e →
  len (start_of B (e_origin e)) ≤ u64_max.
Proof.
  intros HT Hi. destruct (t_base _ _ _ HT i e Hi) as [_ Ho]. unfold start_of.
  destruct (e_origin e) as [o|]; [|rewrite len_nil; unfold u64_max; lia].
  destruct (Ho o eq_refl) as [b Hb]. rewrite Hb. simpl. by apply (HB o).
Qed.

Lemma tracks_vacant es fs p : tracks B es fs → live_index es p = None → vacant es p.
Proof. intros _ Hn i e. by apply live_index_none. Qed.

(** An untouched base file becomes an entity. *)
Lemma tracks_materialize es fs p F :
  tracks B es fs → vacant es p → consumed es p = false → B !! p = Some F →
  tracks B (es ++ [mkEntity (Some p) (len F) [] true p false]) fs ∧ fs !! p = Some F.
Proof.
  intros HT Hv Hc HF.
  assert (HFs : fs !! p = Some F) by (by rewrite (t_rest _ _ _ HT p Hv), Hc). split; [|done].
  rewrite <- (insert_id fs p F HFs).
  apply (tracks_add B es fs HT (mkEntity (Some p) (len F) [] true p false)); try done; simpl.
  - by rewrite HF.
  - intros o [= <-]. by rewrite HF.
  - by right.
  - intros o j e [= <-] Hj _. by eapply consumed_false.
  - rewrite HF. apply ran_nil. by apply (HB p).
Qed.

(** A present file is found, live or still untouched in the base. *)
Lemma find_present es fs p F missing :
  tracks B es fs → fs !! p = Some F →
  ∃ es' i e, find_or_materialize es base p missing = Ok (es', i) ∧ tracks B es' fs ∧
    es' !! i = Some e ∧ e_live e = true ∧ e_final_path e = p ∧
    (∀ q, is_Some (es !! q) → es' !! q = es !! q).
Proof.
  intros HT HF. unfold find_or_materialize. destruct (live_index es p) as [i|] eqn:Ei.
  { destruct (live_index_some _ _ _ Ei) as (e & ? & ? & ?). by exists es, i, e. }
  pose proof (tracks_vacant _ _ _ HT Ei) as Hv.
  pose proof (t_rest _ _ _ HT p Hv) as Hrest. unfold materialize_base.
  destruct (consumed es p) eqn:Ec; [congruence|]. rewrite HF in Hrest. symmetry in Hrest.
  rewrite (proj1 (HB p)), Hrest. cbn [fmap option_fmap option_map ok_or mbind result_bind].
  destruct (tracks_materialize es fs p F HT Hv Ec Hrest) as [HT' _].
  eexists _, _, (mkEntity (Some p) (len F) [] true p false). split_and!; try done.
  - by rewrite lookup_app_r, Nat.sub_diag by lia.
  - intros q [x Hq]. rewrite lookup_app_l; [done|]. by eapply lookup_lt_Some.
Qed.

(** An absent one is refused. *)
Lemma find_absent es fs p missing :
  tracks B es fs → fs !! p = None → find_or_materialize es base p missing = Err missing.
Proof.
  intros HT HF. unfold find_or_materialize. destruct (live_index es p) as [i|] eqn:Ei.
  { destruct (live_index_some _ _ _ Ei) as (e & Hi & Hl & <-).
    destruct (t_live _ _ _ HT i e Hi Hl) as (F & ? & _). congruence. }
  pose proof (t_rest _ _ _ HT p (tracks_vacant _ _ _ HT Ei)) as Hrest. unfold materialize_base.
  destruct (consumed es p); [done|]. rewrite (proj1 (HB p)), <- Hrest, HF. done.
Qed.

(** A path of the base that stands empty: its file was removed, moved away or replaced by one that left. *)
Definition vacated (fs : gmap string bytes) (p : string) : Prop := is_Some (B !! p) ∧ fs !! p = None.

(** What a step from the files [fs] may answer: the tracked entities, or the owed refusal at a vacated path. *)
Definition step_ok (fs : gmap string bytes) (r : result DeriveError.t (list Entity)) (fs' : gmap string bytes) : Prop :=
  match r with
  | Ok es' => tracks B es' fs'
  | Err e => ∃ p, e = DeriveError.Unsupported p ∧ vacated fs p
  end.

Lemma apply_content_tracks es fs p f c data missing :
  tracks B es fs → fs !! p = Some f → op_valid f c data → len (exec_op f c data) ≤ u64_max →
  step_ok fs ('(es, i) ← find_or_materialize es base p missing; update_at es i (push_op c) missing)
    (<[p := exec_op f c data]> fs).
Proof.
  intros HT Hf Hv Hu.
  destruct (find_present es fs p f missing HT Hf) as (es' & i & e & -> & HT' & Hi & Hl & <- & _).
  cbn [mbind result_bind]. unfold update_at. rewrite Hi. cbn [ok_or mbind result_bind step_ok].
  destruct (t_live _ _ _ HT' i e Hi Hl) as (F & HF & Hr).
  assert (F = f) as -> by congruence. unfold push_op. rewrite Hl.
  apply tracks_content; try done. by apply ran_snoc.
Qed.

Lemma apply_unlink_tracks es fs p f :
  tracks B es fs → fs !! p = Some f → step_ok fs (apply_unlink es base p) (delete p fs).
Proof.
  intros HT Hf. unfold apply_unlink.
  destruct (find_present es fs p f (DeriveError.UnlinkMissing p) HT Hf)
    as (es' & i & e & -> & HT' & Hi & Hl & <- & _).
  cbn [mbind result_bind]. unfold update_at. rewrite Hi. cbn [ok_or mbind result_bind step_ok].
  by apply tracks_dead.
Qed.

Lemma apply_create_tracks es fs p :
  tracks B es fs → fs !! p = None → step_ok fs (apply_create es base p) (<[p := []]> fs).
Proof.
  intros HT Hf. unfold apply_create. destruct (live_index es p) as [i|] eqn:Ei.
  { destruct (live_index_some _ _ _ Ei) as (e & Hi & Hl & <-).
    destruct (t_live _ _ _ HT i e Hi Hl) as (F & ? & _). congruence. }
  rewrite bool_decide_eq_false_2 by (by intros [? ?]).
  pose proof (tracks_vacant _ _ _ HT Ei) as Hv. pose proof (t_rest _ _ _ HT p Hv) as Hrest.
  destruct (position _ es) as [i|] eqn:Ep; simpl.
  - destruct (position_some _ _ _ Ep) as (e & Hi & Ht). rewrite Hi. simpl.
    rewrite !andb_true_iff, !negb_true_iff, !bool_decide_eq_true in Ht.
    destruct Ht as [[[Hd Hc] Hp] Ho].
    destruct (t_base _ _ _ HT i e Hi) as [Hb HBo]. rewrite Ho in Hb.
    pose proof (tracks_mark _ _ _ HT i e Hi Hd) as HT'.
    apply (tracks_add B _ fs HT' (mkEntity (Some p) (e_base_len e) [ContentOp.Truncate 0] true p false));
      try done; simpl; auto.
    + intros j d. rewrite list_lookup_insert_Some. intros [(<- & <- & _)|[_ Hj]]; [|by apply (Hv j)].
      simpl. congruence.
    + intros o [= <-]. auto.
    + intros o j d [= <-]. rewrite list_lookup_insert_Some.
      intros [(<- & <- & _)|[Hne Hj]] Hh; [destruct Hh; simpl in *; congruence|].
      intros Hdo. apply Hne. by eapply (t_own _ _ _ HT i j e d p); try done; right.
    + apply ran_truncate; [|apply ran_nil; rewrite len_nil; unfold u64_max; lia].
      pose proof (start_len _ _ _ _ HT Hi) as Hs. by rewrite Ho in Hs.
  - rewrite (proj1 (HB p)). destruct (consumed es p) eqn:Ec.
    + case_bool_decide as H; [exists p; split; [done|]; split; [by destruct (B !! p); [eexists|destruct H]|done]|]. simpl.
      apply (tracks_add B es fs HT (mkEntity None 0 [] true p false)); try done; simpl; auto.
      * intros HBp. exfalso. apply H. destruct HBp as [b ->]. done.
      * apply ran_nil. rewrite len_nil. unfold u64_max. lia.
    + rewrite Hf in Hrest. rewrite <- Hrest. simpl.
      apply (tracks_add B es fs HT (mkEntity None 0 [] true p false)); try done; simpl; auto.
      * intros [b Hb]. congruence.
      * apply ran_nil. rewrite len_nil. unfold u64_max. lia.
Qed.

(** The tail of a rename whose destination is taken. *)
Definition rename_onto (es : list Entity) (s d : nat) (to : string) (missing : DeriveError.t) :
    result DeriveError.t (list Entity) :=
  es ← (clobbered ← ok_or (es !! d) missing;
        let es := <[d := clobber_over clobbered]> es in
        let dst_at_own_base := bool_decide (e_origin clobbered = Some to) in
        moved ← ok_or (es !! s) missing;
        if dst_at_own_base && bool_decide (e_origin moved = None)
        then Ok (<[s := reroot to (e_base_len clobbered) moved]> es)
        else Ok es);
  update_at es s (move_to to) missing.

(** The move itself, once nothing is live at the destination. *)
Lemma move_tracks es fs s e to f :
  tracks B es fs → es !! s = Some e → e_live e = true → e_final_path e ≠ to → vacant es to →
  (is_Some (B !! to) → consumed es to = true) → fs !! e_final_path e = Some f →
  tracks B (<[s := move_to to e]> es) (<[to := f]> (delete (e_final_path e) fs)).
Proof.
  intros HT Hs Hl Hne Hv Hover Hf.
  destruct (t_base _ _ _ HT s e Hs) as [Hb HBo].
  destruct (t_live _ _ _ HT s e Hs Hl) as (F & HF & Hr). assert (F = f) as -> by congruence.
  apply (tracks_move B es fs HT s e (move_to to e)); simpl; auto.
  intros o j d Ho Hj Hd Hh Hdo. apply Hj. eapply (t_own _ _ _ HT j s d e o); try done. by left.
Qed.

Lemma rename_onto_tracks es fs s d e dd f missing :
  tracks B es fs → es !! s = Some e → es !! d = Some dd → e_live e = true → e_live dd = true →
  e_final_path e ≠ e_final_path dd → fs !! e_final_path e = Some f →
  step_ok fs (rename_onto es s d (e_final_path dd) missing)
    (<[e_final_path dd := f]> (delete (e_final_path e) fs)).
Proof.
  intros HT Hs Hd Hl Hdl Hne Hf. assert (Hsd : d ≠ s) by congruence.
  set (to := e_final_path dd) in *. unfold rename_onto.
  pose proof (tracks_dead B es fs HT d dd (clobber_over dd) Hd Hdl eq_refl eq_refl eq_refl) as HT3.
  rewrite Hd. cbn [ok_or mbind result_bind].
  set (es3 := <[d:=clobber_over dd]> es) in *.
  assert (Hs3 : es3 !! s = Some e) by (by unfold es3; rewrite list_lookup_insert_ne).
  rewrite Hs3. cbn [ok_or mbind result_bind].
  assert (Hv : vacant es3 to).
  { intros j x. unfold es3. rewrite list_lookup_insert_Some.
    intros [(<- & <- & _)|[Hj Hx]] Hxl E; [done|]. apply Hj.
    by apply (t_unique _ _ _ HT d j dd x). }
  assert (Hover : is_Some (B !! to) → consumed es3 to = true).
  { intros HBt. rewrite (consumed_keep es d dd (clobber_over dd) es3 to); [| |done|by left].
    - by apply (t_over _ _ _ HT d dd).
    - by eapply put_at_insert. }
  assert (Hf3 : delete to fs !! e_final_path e = Some f) by (by rewrite lookup_delete_ne).
  assert (Efs : ∀ F : bytes, <[to := F]> (delete (e_final_path e) fs) =
    <[to := F]> (delete (e_final_path e) (delete to fs))).
  { intros F. rewrite delete_delete, insert_delete_eq. done. }
  rewrite Efs. destruct (bool_decide (e_origin dd = Some to) && bool_decide (e_origin e = None)) eqn:E.
  - apply andb_true_iff in E as [Eo%bool_decide_eq_true En%bool_decide_eq_true].
    cbn [mbind result_bind]. unfold update_at.
    rewrite list_lookup_insert_eq by (by eapply lookup_lt_Some).
    cbn [ok_or mbind result_bind step_ok]. rewrite list_insert_insert_eq.
    destruct (t_base _ _ _ HT d dd Hd) as [Hb HBo]. rewrite Eo in Hb.
    destruct (t_live _ _ _ HT s e Hs Hl) as (F & HF & Hr). assert (F = f) as -> by congruence.
    rewrite En in Hr. pose proof (start_len _ _ _ _ HT Hd) as Hsl. rewrite Eo in Hsl.
    apply (tracks_move B es3 _ HT3 s e (move_to to (reroot to (e_base_len dd) e)));
      try done; simpl; auto.
    + intros o [= <-]. auto.
    + right. split; [done|]. exists d, (clobber_over dd), to. split_and!; try done.
      unfold es3. by rewrite list_lookup_insert_eq by (by eapply lookup_lt_Some).
    + intros o j x [= <-] Hj. unfold es3. rewrite list_lookup_insert_Some.
      intros [(<- & <- & _)|[Hjd Hx]] Hh; [destruct Hh; done|]. intros Hxo. apply Hjd.
      eapply (t_own _ _ _ HT d j dd x to); try done. by left.
    + by apply ran_truncate.
  - cbn [mbind result_bind]. unfold update_at. rewrite Hs3. cbn [ok_or mbind result_bind step_ok].
    by apply move_tracks.
Qed.

Lemma apply_rename_tracks es fs from to f :
  from ≠ to → tracks B es fs → fs !! from = Some f →
  step_ok fs (apply_rename es base from to) (<[to := f]> (delete from fs)).
Proof.
  intros Hne HT Hf. unfold apply_rename. rewrite bool_decide_eq_false_2 by done.
  destruct (find_present es fs from f (DeriveError.RenameMissingSource from) HT Hf)
    as (es1 & s & e & -> & HT1 & Hs & Hl & <- & _). cbn [mbind result_bind].
  unfold resolve_rename_target. destruct (live_index es1 to) as [d|] eqn:Ed.
  { destruct (live_index_some _ _ _ Ed) as (dd & Hd & Hdl & <-). cbn [mbind result_bind].
    by apply (rename_onto_tracks es1 fs s d e dd). }
  pose proof (tracks_vacant _ _ _ HT1 Ed) as Hv. pose proof (t_rest _ _ _ HT1 to Hv) as Hrest.
  rewrite (proj1 (HB to)). destruct (B !! to) as [b|] eqn:EB; cbn [fmap option_fmap option_map].
  - rewrite bool_decide_eq_true_2 by done. destruct (consumed es1 to) eqn:Ec; [exists to; split; [done|]; split; [by eexists|done]|].
    unfold materialize_base. rewrite Ec, (proj1 (HB to)), EB. cbn [fmap option_fmap option_map mbind result_bind].
    destruct (tracks_materialize es1 fs to b HT1 Hv Ec EB) as [HT2 _].
    apply (rename_onto_tracks _ fs s (length es1) e (mkEntity (Some to) (len b) [] true to false));
      try done.
    + by apply lookup_app_l_Some.
    + by rewrite lookup_app_r, Nat.sub_diag by lia.
  - rewrite bool_decide_eq_false_2 by (by intros [? ?]).
    cbn [mbind result_bind]. unfold update_at. rewrite Hs. cbn [ok_or mbind result_bind step_ok].
    apply move_tracks; try done. rewrite EB. by intros [? ?].
Qed.

Lemma apply_op_tracks es fs op data fs' :
  tracks B es fs → fs_step fs op data fs' → step_ok fs (apply_op es base op) fs'.
Proof.
  intros HT Hstep. unfold apply_op. destruct Hstep as [op c p f data Hc Hp Hf Hv Hu|p Hp|p f Hf|p|from to f Hne Hf|op data Hc Ho].
  - rewrite Hc, Hp. by apply apply_content_tracks.
  - by apply apply_create_tracks.
  - by eapply apply_unlink_tracks.
  - simpl. unfold apply_rename. by rewrite bool_decide_eq_true_2.
  - by apply apply_rename_tracks.
  - rewrite Hc. by destruct op.
Qed.

(** The operation a replay was refused at, and the files it stood at. *)
Definition refused_at (fs : gmap string bytes) (journal : list (VolumeOp.t * bytes)) (es0 : list Entity)
    (e : DeriveError.t) : Prop :=
  ∃ before op data after files es p,
    journal = before ++ (op, data) :: after ∧ fs_run fs before files ∧
    replay_ops es0 base before.*1 = Ok es ∧ apply_op es base op = Err e ∧
    e = DeriveError.Unsupported p ∧ vacated files p.

Lemma replay_tracks journal : ∀ es fs fs',
  tracks B es fs → fs_run fs journal fs' →
  match replay_ops es base journal.*1 with Ok es' => tracks B es' fs' | Err e => refused_at fs journal es e end.
Proof.
  induction journal as [|[op data] journal IH]; intros es fs fs' HT Hrun; inversion Hrun as [|? ? ? fs1 ? ? Hstep Hrun']; subst; [done|].
  cbn [fmap list_fmap fst replay_ops]. pose proof (apply_op_tracks es fs op data _ HT Hstep) as Hs.
  destruct (apply_op es base op) as [es'|err] eqn:Ea; cbn [mbind result_bind].
  - specialize (IH es' fs1 fs' Hs Hrun'). destruct (replay_ops es' base journal.*1) as [es2|err]; [done|].
    destruct IH as (before & op' & data' & after & files & es2 & p & -> & Hb & Hr & Ho & He & Hv).
    exists ((op, data) :: before), op', data', after, files, es2, p. split_and!; try done; [by econstructor|].
    cbn [fmap list_fmap fst replay_ops]. rewrite Ea. exact Hr.
  - destruct Hs as (p & -> & Hv). exists [], op, data, journal, fs, es, p. split_and!; try done. constructor.
Qed.

Lemma tracks_nil : tracks B [] B.
Proof. constructor; intros; try (rewrite lookup_nil in *; done). done. Qed.
End operations.

(** ** Lemmas: the classification *)
Definition emission_of (e : Entity) : option Emission :=
  if e_live e then
    let '(os, final_len) := compose_content_sized (e_base_len e) (e_content e) in
    let created := bool_decide (e_origin e = None) in
    let renamed :=
      match e_origin e with
      | Some origin => negb (bool_decide (origin = e_final_path e))
      | None => false
      end in
    if negb created && negb renamed && is_nil os then None
    else Some (mkEmission (e_final_path e) (if renamed then e_origin e else None) created os final_len)
  else None.
Definition survivor_of (e : Entity) : option string := if e_live e then Some (e_final_path e) else None.
Definition gone_of (e : Entity) : option string := if e_live e then None else e_origin e.

Lemma classify_loop es : ∀ ems (sv : gset string) gone,
  foldl classify_step (ems, sv, gone) es =
    (ems ++ omap emission_of es, list_to_set (omap survivor_of es) ∪ sv, gone ++ omap gone_of es).
Proof.
  induction es as [|e es IH]; intros ems sv gone; cbn [foldl].
  - simpl. rewrite !app_nil_r. f_equal. f_equal. set_solver.
  - unfold classify_step at 2. cbn [omap list_omap].
    unfold emission_of at 1, survivor_of at 1, gone_of at 1.
    destruct (e_live e).
    + destruct (compose_content_sized _ _) as [os n]. destruct (negb _ && _ && _).
      * rewrite IH. f_equal. f_equal. set_solver.
      * rewrite IH, <- app_assoc. f_equal. f_equal. set_solver.
    + destruct (e_origin e); rewrite IH; [by rewrite <- app_assoc|done].
Qed.

(** The emission of a path, and the base bytes it is against. *)
Definition emission_at (ems : list Emission) (p : string) : option Emission :=
  List.find (λ em, bool_decide (em_final_path em = p)) ems.
Definition sealed_base (B : gmap string bytes) (em : Emission) : bytes :=
  if em_created em then []
  else default [] (B !! default (em_final_path em) (em_source em)).

(** What a sealed emission promises about the file at its path. *)
Definition emission_exact (B : gmap string bytes) (em : Emission) (F : bytes) : Prop :=
  let b := sealed_base B em in
  em_final_len em = len F ∧
  net_ops (len b) (len F) 0 (sort_by op_leb (em_ops em)) ∧
  fits_base (sort_by op_leb (em_ops em)) (len b) (len F) = true ∧
  apply b (sort_by op_leb (em_ops em)) F = F.

Lemma elem_of_omap_entities {A} (f : Entity → option A) (es : list Entity) x :
  x ∈ omap f es ↔ ∃ i e, es !! i = Some e ∧ f e = Some x.
Proof.
  rewrite list_elem_of_omap. split.
  - intros (e & (i & Hi)%list_elem_of_lookup & He). eauto.
  - intros (i & e & Hi & He). exists e. split; [|done]. apply list_elem_of_lookup. eauto.
Qed.

Lemma compose_start B es fs i e F :
  tracks B es fs → es !! i = Some e → ran (start_of B (e_origin e)) (e_content e) F →
  let '(os, n) := compose_content_sized (e_base_len e) (e_content e) in
  n = len F ∧ net_ops (len (start_of B (e_origin e))) (len F) 0 (sort_by op_leb os) ∧
  fits_base (sort_by op_leb os) (len (start_of B (e_origin e))) (len F) = true ∧
  apply (start_of B (e_origin e)) (sort_by op_leb os) F = F.
Proof.
  intros HT Hi (j & Hj & Hex). rewrite (proj1 (t_base _ _ _ HT i e Hi)), <- Hj.
  pose proof (compose_content_exact _ _ _ Hex) as Hc.
  destruct (compose_content_sized _ _) as [os n]. naive_solver.
Qed.

(** The emission of a live entity is exact for the file at its path; a live
    entity without one left its base file as it was. *)
Lemma emission_of_live B es fs i e :
  tracks B es fs → es !! i = Some e → e_live e = true →
  ∃ F, fs !! e_final_path e = Some F ∧
  match emission_of e with
  | Some em => em_final_path em = e_final_path e ∧ emission_exact B em F ∧
      em_source em = if bool_decide (e_origin e = Some (e_final_path e)) then None else e_origin e
  | None => e_origin e = Some (e_final_path e) ∧ B !! e_final_path e = Some F
  end.
Proof.
  intros HT Hi Hl. destruct (t_live _ _ _ HT i e Hi Hl) as (F & HF & Hr). exists F. split; [done|].
  pose proof (compose_start B es fs i e F HT Hi Hr) as Hc.
  destruct (t_base _ _ _ HT i e Hi) as [_ HBo]. unfold emission_of. rewrite Hl.
  destruct (compose_content_sized _ _) as [os n] eqn:Ec. destruct Hc as (-> & Hnet & Hfit & Happ).
  destruct (e_origin e) as [o|] eqn:Eo.
  - rewrite (bool_decide_eq_false_2 (Some o = None)) by done. cbn [negb andb].
    destruct (decide (o = e_final_path e)) as [->|Hne].
    + rewrite !bool_decide_eq_true_2 by done. cbn [negb andb]. destruct os as [|op os]; cbn [is_nil].
      * split; [done|]. cbn in Happ. unfold apply in Happ. simpl in Happ.
        destruct (HBo _ eq_refl) as [b Hb]. rewrite Hb in *. simpl in Happ. f_equal.
        rewrite <- Happ. split_if; bool_to_prop; [by unfold get_from; rewrite (proj2 (N.leb_le _ _)) by lia|].
        apply len_0_nil. lia.
      * done.
    + rewrite (bool_decide_eq_false_2 (o = _)) by done.
      rewrite bool_decide_eq_false_2 by congruence. done.
  - rewrite !bool_decide_eq_true_2, bool_decide_eq_false_2 by done. done.
Qed.

(** The path of a sealed document: its exact emission, or the base file less
    what the document unlinks or renames away. *)
Definition sealed_path (B fs : gmap string bytes) (ems : list Emission) (removed : list string)
    (p : string) : Prop :=
  match emission_at ems p with
  | Some em => ∃ F, fs !! p = Some F ∧ emission_exact B em F
  | None => fs !! p = if decide (p ∈ removed ∨ p ∈ omap em_source ems) then None else B !! p
  end.

Lemma emission_at_some ems p em :
  emission_at ems p = Some em → em ∈ ems ∧ em_final_path em = p.
Proof.
  unfold emission_at. intros H. apply find_some in H as [Hin ?%bool_decide_eq_true].
  by rewrite list_elem_of_In.
Qed.
Lemma emission_at_none ems p em :
  emission_at ems p = None → em ∈ ems → em_final_path em ≠ p.
Proof.
  unfold emission_at. intros H Hin E. apply list_elem_of_In in Hin.
  pose proof (find_none _ _ H em Hin) as Hf. simpl in Hf. apply bool_decide_eq_false in Hf. done.
Qed.

(** A path is unlinked or renamed away exactly when a dead entity, or a live
    one elsewhere, came from it and nothing is live there. *)
Lemma classify_gone B es fs p :
  tracks B es fs →
  let '(ems, removed) := classify es in
  (p ∈ removed ↔ (∃ i e, es !! i = Some e ∧ e_live e = false ∧ e_origin e = Some p) ∧ vacant es p) ∧
  (p ∈ omap em_source ems ↔
    ∃ i e, es !! i = Some e ∧ e_live e = true ∧ e_origin e = Some p ∧ e_final_path e ≠ p).
Proof.
  intros HT. unfold classify. rewrite classify_loop, app_nil_l, app_nil_l. split.
  - rewrite sort_dedup_bt_elems, elem_of_bt_elems, elem_of_list_to_set, list_elem_of_filter.
    rewrite elem_of_omap_entities, elem_of_union, elem_of_list_to_set, elem_of_omap_entities.
    unfold gone_of, survivor_of, vacant. split.
    + intros [Hs (i & e & Hi & He)]. destruct (e_live e) eqn:El; [done|]. split; [by eauto|].
      intros j d Hj Hd Hp. apply Hs. left. exists j, d. rewrite Hd. by subst.
    + intros [(i & e & Hi & El & He) Hv]. split.
      * intros [(j & d & Hj & Hd)|]; [|set_solver]. destruct (e_live d) eqn:Edl; [|done].
        injection Hd as Hd. by eapply Hv.
      * exists i, e. by rewrite El.
  - rewrite list_elem_of_omap. split.
    + intros (em & (i & e & Hi & He)%elem_of_omap_entities & Hsrc).
      assert (Hl : e_live e = true).
      { unfold emission_of in He. by destruct (e_live e). }
      destruct (emission_of_live B es fs i e HT Hi Hl) as (F & _ & Hm). rewrite He in Hm.
      destruct Hm as (_ & _ & Hs). rewrite Hsrc in Hs. case_bool_decide as Eo; [done|].
      exists i, e. split_and!; try done. congruence.
    + intros (i & e & Hi & Hl & Ho & Hne).
      destruct (emission_of_live B es fs i e HT Hi Hl) as (F & _ & Hm).
      destruct (emission_of e) as [em|] eqn:He; [|destruct Hm; congruence].
      destruct Hm as (_ & _ & Hs). rewrite bool_decide_eq_false_2 in Hs by congruence.
      exists em. split; [|congruence]. apply elem_of_omap_entities. eauto.
Qed.

Lemma classify_exact B es fs p :
  tracks B es fs →
  let '(ems, removed) := classify es in sealed_path B fs ems removed p.
Proof.
  intros HT. pose proof (classify_gone B es fs p HT) as Hg. unfold sealed_path.
  assert (Hems : (classify es).1 = omap emission_of es).
  { unfold classify. by rewrite classify_loop. }
  destruct (classify es) as [ems removed]. simpl in Hems. subst ems. destruct Hg as [Hrem Hsrc].
  destruct (emission_at _ p) as [em|] eqn:Eat.
  - apply emission_at_some in Eat as [(i & e & Hi & He)%elem_of_omap_entities <-].
    assert (Hl : e_live e = true) by (unfold emission_of in He; by destruct (e_live e)).
    destruct (emission_of_live B es fs i e HT Hi Hl) as (F & HF & Hm). rewrite He in Hm.
    destruct Hm as (Hp & Hx & _). exists F. by rewrite Hp.
  - destruct (live_index es p) as [i|] eqn:Ei.
    + destruct (live_index_some _ _ _ Ei) as (e & Hi & Hl & <-).
      destruct (emission_of_live B es fs i e HT Hi Hl) as (F & HF & Hm).
      destruct (emission_of e) as [em|] eqn:He.
      { exfalso. apply (emission_at_none _ _ em Eat); [|by apply Hm].
        apply elem_of_omap_entities. eauto. }
      destruct Hm as [Ho HBF]. rewrite decide_False; [congruence|].
      rewrite Hrem, Hsrc. intros [[_ Hv]|(j & d & Hj & Hd & Hdo & Hne)]; [by eapply Hv|].
      apply Hne. assert (j = i) as ->; [|congruence].
      eapply (t_own _ _ _ HT j i d e); try done; by left.
    + pose proof (tracks_vacant _ _ _ _ HT Ei) as Hv. rewrite (t_rest _ _ _ HT p Hv).
      destruct (consumed es p) eqn:Ec.
      * apply consumed_true in Ec as (i & e & Hi & Ho). rewrite decide_True; [done|].
        rewrite Hrem, Hsrc. destruct (e_live e) eqn:El; [right|left; split; [by eauto|done]].
        exists i, e. split_and!; try done. by apply (Hv i).
      * rewrite decide_False; [done|]. rewrite Hrem, Hsrc. pose proof (proj1 (consumed_false _ _) Ec).
        intros [[(i & e & Hi & _ & Ho) _]|(i & e & Hi & _ & Ho & _)]; by eapply H.
Qed.

(** ** Lemmas: when a create is refused *)

(** An operation that renames the file of a path, or another onto it. *)
Definition renames_at (p : string) (op : VolumeOp.t) : Prop :=
  match op with VolumeOp.Rename from to => from ≠ to ∧ (from = p ∨ to = p) | _ => False end.
#[export] Instance renames_at_dec p op : Decision (renames_at p op).
Proof. destruct op; cbn; apply _. Defined.

(** While nothing renames it, the entities of a base path's file are at the path, and one of them is not clobbered. *)
Record unmoved (p : string) (es : list Entity) : Prop := {
  um_home : ∀ i e, es !! i = Some e → e_origin e = Some p →
    e_final_path e = p ∧ (e_live e = true → e_clobbered e = false);
  um_kept : consumed es p = true → ∃ i e, es !! i = Some e ∧ e_origin e = Some p ∧ e_clobbered e = false
}.

Section unmoved.
Context (base : Base) (p : string).

Lemma unmoved_nil : unmoved p [].
Proof. split; [by intros i e|done]. Qed.

Lemma unmoved_put es i e e' :
  unmoved p es → es !! i = Some e →
  (e_origin e' = Some p ↔ e_origin e = Some p) →
  (e_origin e = Some p → e_final_path e' = e_final_path e ∧ e_clobbered e' = e_clobbered e
     ∧ (e_live e' = true → e_live e = true)) →
  unmoved p (<[i := e']> es).
Proof.
  intros [Hh Hk] Hi Ho Hs. split.
  - intros j d. rewrite list_lookup_insert_Some. intros [(<- & <- & _)|[_ Hj]] Hd; [|by eapply Hh].
    apply Ho in Hd. destruct (Hs Hd) as (-> & -> & Hl), (Hh i e Hi Hd) as [-> Hc]. auto.
  - intros (j & d & Hj & Hd)%consumed_true. rewrite list_lookup_insert_Some in Hj.
    assert (Hc : consumed es p = true).
    { apply consumed_true. destruct Hj as [(<- & <- & _)|[_ Hj]]; [|by eauto]. exists i, e. split; [done|by apply Ho]. }
    destruct (Hk Hc) as (k & x & Hkx & Hx & Hxc). destruct (decide (k = i)) as [->|Hne].
    + assert (x = e) as -> by congruence. destruct (Hs Hx) as (_ & Hc' & _). exists i, e'.
      rewrite list_lookup_insert_eq by (by eapply lookup_lt_Some). split_and!; [done|by apply Ho|congruence].
    + exists k, x. by rewrite list_lookup_insert_ne.
Qed.

Lemma unmoved_app es e :
  unmoved p es → (e_origin e = Some p → e_final_path e = p ∧ e_clobbered e = false) → unmoved p (es ++ [e]).
Proof.
  intros [Hh Hk] He. split.
  - intros i d [Hi|[_ Hi]]%lookup_app_Some Hd; [by eapply Hh|].
    destruct (i - length es)%nat; [|done]. injection Hi as <-. destruct (He Hd). auto.
  - intros (i & d & Hi & Hd)%consumed_true. apply lookup_app_Some in Hi as [Hi|[_ Hi]].
    + destruct Hk as (k & x & Hx & ? & ?); [apply consumed_true; eauto|]. exists k, x.
      split; [by apply lookup_app_l_Some|done].
    + destruct (i - length es)%nat; [|done]. injection Hi as <-. exists (length es), e.
      rewrite lookup_app_r, Nat.sub_diag by lia. destruct (He Hd). done.
Qed.

Lemma unmoved_materialize es q :
  unmoved p es → unmoved p (materialize_base es base q).1.
Proof.
  intros Hu. unfold materialize_base. destruct (consumed es q); [done|]. destruct (base_len_of base q); [|done].
  apply unmoved_app; [done|]. cbn. naive_solver.
Qed.
Lemma unmoved_find es q missing es' i :
  unmoved p es → find_or_materialize es base q missing = Ok (es', i) →
  unmoved p es' ∧ ∃ e, es' !! i = Some e ∧ e_final_path e = q.
Proof.
  intros Hu. unfold find_or_materialize. destruct (live_index es q) as [k|] eqn:Ei.
  { intros [= <- <-]. destruct (live_index_some _ _ _ Ei) as (e & ? & _ & ?). eauto. }
  pose proof (unmoved_materialize es q Hu) as Hm. unfold materialize_base in *.
  destruct (consumed es q); [done|]. destruct (base_len_of base q); [|done]. intros [= <- <-]. split; [done|].
  eexists. by rewrite lookup_app_r, Nat.sub_diag by lia.
Qed.
Lemma unmoved_update es i f missing es' e :
  unmoved p es → es !! i = Some e → update_at es i f missing = Ok es' →
  (e_origin (f e) = Some p ↔ e_origin e = Some p) →
  (e_origin e = Some p → e_final_path (f e) = e_final_path e ∧ e_clobbered (f e) = e_clobbered e
     ∧ (e_live (f e) = true → e_live e = true)) → unmoved p es'.
Proof. intros Hu Hi. unfold update_at. rewrite Hi. intros [= <-]. by apply unmoved_put. Qed.

Lemma unmoved_away es i e : unmoved p es → es !! i = Some e → e_final_path e ≠ p → e_origin e ≠ Some p.
Proof. intros Hu Hi Hne Ho. by destruct (um_home _ _ Hu i e Hi Ho). Qed.

Lemma unmoved_create es q es' : unmoved p es → apply_create es base q = Ok es' → unmoved p es'.
Proof.
  intros Hu. unfold apply_create. case_bool_decide; [done|]. cbv zeta.
  destruct (position _ es) as [i|] eqn:Ep; cbn [mbind option_bind].
  - destruct (position_some _ _ _ Ep) as (e & Hi & Ht). rewrite Hi. cbn. intros [= <-].
    rewrite !andb_true_iff, !negb_true_iff, !bool_decide_eq_true in Ht. destruct Ht as [[[Hd Hc] Hp] Ho].
    destruct (decide (q = p)) as [->|Hne].
    + split.
      * intros j d [Hj|[_ Hj]]%lookup_app_Some Hx.
        -- rewrite list_lookup_insert_Some in Hj. destruct Hj as [(<- & <- & _)|[_ Hj]]; [|by eapply (um_home _ _ Hu)].
           cbn. split; [done|]. congruence.
        -- rewrite length_insert in Hj. destruct (j - length es)%nat; [|done]. by injection Hj as <-.
      * intros _. eexists (length es), _. rewrite lookup_app_r by (rewrite length_insert; lia).
        rewrite length_insert, Nat.sub_diag. done.
    + apply unmoved_app; [|cbn; naive_solver]. apply (unmoved_put es i e); cbn; try done; congruence.
  - case_bool_decide; [by split_if|]. intros [= <-]. by apply unmoved_app.
Qed.

Lemma unmoved_rename es from to es' :
  from = to ∨ from ≠ p ∧ to ≠ p → unmoved p es → apply_rename es base from to = Ok es' → unmoved p es'.
Proof.
  intros Hft Hu. unfold apply_rename. case_bool_decide as Hsame; [by intros [= <-]|].
  destruct Hft as [?|[Hf Ht]]; [done|]. destruct (find_or_materialize _ _ _ _) as [[es1 s]|] eqn:Ef; [|done].
  cbn [mbind result_bind]. destruct (unmoved_find _ _ _ _ _ Hu Ef) as (Hu1 & e & Hs & He).
  destruct (resolve_rename_target es1 base to) as [[es2 d]|] eqn:Er; [|done]. cbn [mbind result_bind].
  assert (Hu2 : unmoved p es2 ∧ es2 !! s = Some e ∧
    ∀ i, d = Some i → ∃ x, es2 !! i = Some x ∧ e_final_path x = to).
  { unfold resolve_rename_target in Er. destruct (live_index es1 to) as [k|] eqn:El.
    - injection Er as <- <-. split_and!; [done..|]. intros i [= <-].
      destruct (live_index_some _ _ _ El) as (x & ? & _ & ?). eauto.
    - case_bool_decide; [|by simplify_eq]. destruct (consumed es1 to) eqn:Ec; [done|].
      pose proof (unmoved_materialize es1 to Hu1) as Hm. unfold materialize_base in *. rewrite Ec in *.
      destruct (base_len_of base to); [|by simplify_eq]. injection Er as <- <-.
      split_and!; [done|by apply lookup_app_l_Some|]. intros i [= <-]. eexists.
      by rewrite lookup_app_r, Nat.sub_diag by lia. }
  destruct Hu2 as (Hu2 & Hs2 & Hd). pose proof (unmoved_away _ _ _ Hu2 Hs2 ltac:(congruence)) as Heo.
  destruct d as [d|]; cbn [mbind result_bind].
  2: { intros Hup. eapply (unmoved_update es2 s); [done..| |]; cbn; [done|congruence]. }
  destruct (Hd d eq_refl) as (x & Hx & Hxt). rewrite Hx. cbn [ok_or mbind result_bind].
  pose proof (unmoved_away _ _ _ Hu2 Hx ltac:(congruence)) as Hxo.
  assert (Hu3 : unmoved p (<[d := clobber_over x]> es2)) by (apply (unmoved_put es2 d x); cbn; [done..|congruence]).
  destruct (<[d := clobber_over x]> es2 !! s) as [moved|] eqn:Em; [|done]. cbn [ok_or mbind result_bind].
  assert (Hmo : e_origin moved ≠ Some p).
  { rewrite list_lookup_insert_Some in Em. destruct Em as [(_ & <- & _)|[_ Em]]; [done|congruence]. }
  destruct (bool_decide (e_origin x = Some to) && bool_decide (e_origin moved = None)); cbn [mbind result_bind]; intros Hup.
  - eapply (unmoved_update _ s); [|by rewrite list_lookup_insert_eq by (by eapply lookup_lt_Some)|done|..]; cbn;
      [apply (unmoved_put _ s moved); cbn; [done..|naive_solver|naive_solver]|naive_solver|naive_solver].
  - eapply (unmoved_update _ s); [done..| |]; cbn; [done|congruence].
Qed.

Lemma unmoved_op es op es' : ¬ renames_at p op → unmoved p es → apply_op es base op = Ok es' → unmoved p es'.
Proof.
  intros Hn Hu. unfold apply_op. destruct (content_op op) as [c|].
  - destruct (find_or_materialize _ _ _ _) as [[es1 i]|] eqn:Ef; [|done]. cbn [mbind result_bind].
    destruct (unmoved_find _ _ _ _ _ Hu Ef) as (Hu1 & e & Hi & _). intros Hup.
    by eapply (unmoved_update es1 i).
  - destruct op; try (by intros [= <-]).
    + by apply unmoved_create.
    + unfold apply_unlink. destruct (find_or_materialize _ _ _ _) as [[es1 i]|] eqn:Ef; [|done]. cbn [mbind result_bind].
      destruct (unmoved_find _ _ _ _ _ Hu Ef) as (Hu1 & e & Hi & _). intros Hup.
      by eapply (unmoved_update es1 i).
    + apply unmoved_rename; [|done]. cbn in Hn. destruct (decide (from = to)); [by left|right]. naive_solver.
Qed.
Lemma unmoved_replay ops : ∀ es es',
  Forall (λ op, ¬ renames_at p op) ops → unmoved p es → replay_ops es base ops = Ok es' → unmoved p es'.
Proof.
  induction ops as [|op ops IH]; intros es es' Hn Hu; [by intros [= <-]|]. apply Forall_cons in Hn as [Hop Hn].
  cbn [replay_ops]. destruct (apply_op es base op) as [es1|] eqn:E; [|done]. cbn [mbind result_bind].
  apply IH; [done|]. by eapply unmoved_op.
Qed.

(** A create at an unmoved path is not refused as unsupported. *)
Lemma create_refused es q : unmoved p es → apply_create es base p ≠ Err (DeriveError.Unsupported q).
Proof.
  intros Hu. unfold apply_create. case_bool_decide as Hl; [done|]. cbv zeta.
  destruct (position _ es) as [i|] eqn:Ep; cbn [mbind option_bind].
  { destruct (position_some _ _ _ Ep) as (e & -> & _). done. }
  case_bool_decide; [|done]. destruct (consumed es p) eqn:Ec; [|done]. exfalso.
  destruct (um_kept _ _ Hu Ec) as (k & e & Hk & Ho & Hc). destruct (um_home _ _ Hu k e Hk Ho) as [Hp _].
  destruct (e_live e) eqn:El.
  - destruct (live_index es p) eqn:Ei; [by destruct Hl|]. unfold live_index in Ei.
    pose proof (position_none _ _ _ _ Ei Hk) as Ht. unfold is_live_at in Ht. rewrite El, Hp in Ht.
    by rewrite bool_decide_eq_true_2 in Ht.
  - pose proof (position_none _ _ _ _ Ep Hk) as Ht. cbn beta in Ht. rewrite El, Hc, Hp, Ho in Ht.
    by rewrite !bool_decide_eq_true_2 in Ht.
Qed.
End unmoved.

(** Where [Unsupported] comes from. *)
Lemma unsupported_op base es op p :
  apply_op es base op = Err (DeriveError.Unsupported p) →
  op = VolumeOp.Create p ∨ ∃ from, op = VolumeOp.Rename from p ∧ from ≠ p.
Proof.
  assert (Hfind : ∀ es q missing r, missing ≠ DeriveError.Unsupported p →
    find_or_materialize es base q missing = Err r → r ≠ DeriveError.Unsupported p).
  { intros es0 q missing r Hm. unfold find_or_materialize. destruct (live_index es0 q); [done|].
    unfold materialize_base. destruct (consumed es0 q); [by intros [= <-]|]. destruct (base_len_of base q); [done|].
    by intros [= <-]. }
  assert (Hupd : ∀ es i f missing r, missing ≠ DeriveError.Unsupported p →
    update_at es i f missing = Err r → r ≠ DeriveError.Unsupported p).
  { intros es0 i f missing r Hm. unfold update_at. destruct (es0 !! i); [done|]. by intros [= <-]. }
  unfold apply_op. destruct (content_op op) as [c|] eqn:Ec.
  - destruct (find_or_materialize _ _ _ _) as [[es1 i]|r] eqn:Ef; cbn [mbind result_bind]; intros H.
    + by apply Hupd in H.
    + apply Hfind in Ef; [|done]. congruence.
  - destruct op; try done.
    + left. revert H. unfold apply_create. case_bool_decide; [done|]. cbv zeta.
      destruct (_ ≫= _) as [[i e]|]; [done|]. case_bool_decide; [|done]. split_if; [|done]. by intros [= <-].
    + unfold apply_unlink. destruct (find_or_materialize _ _ _ _) as [[es1 i]|r] eqn:Ef; cbn [mbind result_bind]; intros H.
      * by apply Hupd in H.
      * apply Hfind in Ef; [|done]. congruence.
    + unfold apply_rename. case_bool_decide; [done|].
      destruct (find_or_materialize _ _ _ _) as [[es1 s]|r] eqn:Ef; cbn [mbind result_bind].
      2: { intros [= ->]. by apply Hfind in Ef. }
      unfold resolve_rename_target. intros Hr. right. exists from. revert Hr.
      destruct (live_index es1 to) as [d|].
      * cbn [mbind result_bind]. destruct (es1 !! d) as [x|]; cbn [ok_or mbind result_bind]; [|done].
        destruct (<[d:=clobber_over x]> es1 !! s); cbn [ok_or mbind result_bind]; [|done].
        destruct (_ && _); cbn [mbind result_bind]; intros Hr; by apply Hupd in Hr.
      * case_bool_decide; [split_if; [intros [= <-]; done|]|cbn [mbind result_bind]; intros Hr; by apply Hupd in Hr].
        destruct (materialize_base es1 base to) as [es2 [d|]]; cbn [mbind result_bind];
          [|intros Hr; by apply Hupd in Hr].
        destruct (es2 !! d) as [x|]; cbn [ok_or mbind result_bind]; [|done].
        destruct (<[d:=clobber_over x]> es2 !! s); cbn [ok_or mbind result_bind]; [|done].
        destruct (_ && _); cbn [mbind result_bind]; intros Hr; by apply Hupd in Hr.
Qed.

(** ** Properties *)

(** C36. The file half of the deriver is a refinement of the volume.  For
    every journal of file operations a volume can run from the base files [B]
    to the files [fs] (writes, edits, truncates, creates, unlinks and renames,
    with the bytes they wrote), replaying the declared ranges answers entities
    whose classification is exact at every path: an emitted file's net
    operations, applied to the base bytes of the file it came from, give the
    bytes in [fs]; and a path with no emission holds in [fs] what the base
    held, unless the document unlinks it or renames it away, and then nothing.
    The one refusal ([Unsupported]) comes only at a create of, or a rename
    onto, a path of the base whose own file is gone by then and that stands
    empty; and at a create only where an earlier operation renamed that path's
    file or another file onto it, so that a removed file may always be created
    again. *)
Theorem replay_refines_volume (base : Base) (B fs : gmap string bytes)
    (journal : list (VolumeOp.t * bytes)) :
  base_of base B → fs_run B journal fs →
  match replay_ops [] base journal.*1 with
  | Ok entities =>
      let '(emissions, removed) := classify entities in
      ∀ p, sealed_path B fs emissions removed p
  | Err e =>
      ∃ before op data after files p,
        journal = before ++ (op, data) :: after ∧ fs_run B before files ∧
        e = DeriveError.Unsupported p ∧ is_Some (B !! p) ∧ files !! p = None ∧
        (op = VolumeOp.Create p ∧ Exists (renames_at p) before.*1 ∨ ∃ from, op = VolumeOp.Rename from p ∧ from ≠ p)
  end.
Proof.
  intros HB Hrun. pose proof (replay_tracks base B HB journal [] B fs (tracks_nil B) Hrun) as Hs.
  destruct (replay_ops [] base journal.*1) as [es|e].
  - pose proof (λ p, classify_exact B es fs p Hs) as Hc. destruct (classify es) as [ems removed]. exact Hc.
  - destruct Hs as (before & op & data & after & files & es & p & Hj & Hb & Hr & Ho & -> & Hv1 & Hv2).
    exists before, op, data, after, files, p. split_and!; try done.
    destruct (unsupported_op _ _ _ _ Ho) as [->|?]; [left; split; [done|]|by right].
    destruct (decide (Exists (renames_at p) before.*1)) as [|Hn]; [done|]. exfalso.
    apply not_Exists_Forall in Hn; [|intros op; apply _].
    by eapply (create_refused base p es p); [eapply unmoved_replay; [exact Hn|apply unmoved_nil|exact Hr]|].
Qed.

(** A new file written and renamed over [a], and [b] moved to [c] and edited. *)
Definition journal_sample : list (VolumeOp.t * bytes) :=
  [(VolumeOp.Create "t", []); (VolumeOp.Extend "t" 0 2, as_bytes "hi"); (VolumeOp.Rename "t" "a", []);
   (VolumeOp.Rename "b" "c", []); (VolumeOp.Insert "c" 1 2, as_bytes "--")].
Definition files_sample : gmap string bytes :=
  {[ "a"%string := as_bytes "abc"; "b"%string := as_bytes "xy" ]}.
Definition base_sample : Base := of_files [("a"%string, 3); ("b"%string, 2)].

Lemma journal_sample_runs :
  ∃ fs, fs_run files_sample journal_sample fs ∧ fs !! "c"%string = Some (as_bytes "x--y").
Proof.
  eexists. split.
  - repeat (eapply fs_run_cons; [first
      [ apply fs_create; vm_compute; reflexivity
      | eapply fs_rename; [discriminate|vm_compute; reflexivity]
      | eapply fs_content; [reflexivity|reflexivity|vm_compute; reflexivity
          |vm_compute; split; [discriminate || reflexivity|reflexivity]|vm_compute; discriminate] ]|]).
    apply fs_run_nil.
  - vm_compute. reflexivity.
Qed.

Lemma base_sample_of : base_of base_sample files_sample.
Proof.
  intros p. split.
  - unfold base_len_of, table_get, base_sample, files_sample. cbn [b_files of_files List.find fst].
    repeat case_bool_decide; subst; [done..|]. by rewrite lookup_insert_ne, lookup_singleton_ne by done.
  - intros b Hb. unfold files_sample in Hb.
    rewrite lookup_insert_Some, lookup_singleton_Some in Hb.
    destruct Hb as [[_ <-]|[_ [_ <-]]]; vm_compute; discriminate.
Qed.

Lemma replay_refines_volume_witness :
  ∃ fs, fs !! "c"%string = Some (as_bytes "x--y") ∧
  match replay_ops [] base_sample journal_sample.*1 with
  | Ok entities =>
      let '(emissions, removed) := classify entities in
      length emissions = 2%nat ∧ ∀ p, sealed_path files_sample fs emissions removed p
  | Err e => False
  end.
Proof.
  destruct journal_sample_runs as (fs & Hrun & Hc). exists fs. split; [exact Hc|].
  pose proof (replay_refines_volume base_sample files_sample fs journal_sample base_sample_of Hrun) as H.
  destruct (replay_ops [] base_sample journal_sample.*1) as [es|] eqn:E; [|vm_compute in E; discriminate].
  assert (El : length (classify es).1 = 2%nat)
    by (vm_compute in E; injection E as <-; vm_compute; reflexivity).
  destruct (classify es) as [ems removed]. split; [exact El|exact H].
Defined.
