(* ===== verification/Namespace.v ===== *)
(** * The namespace and metadata half of the deriver

    Models the directory, symlink, hard-link, mode and extended-attribute
    compositions of [crates/merge/src/increment.rs], the collision check
    between kinds, and the IPC composition ([Composition::of]) of
    [crates/merge/src/special.rs].  The theorems say each composition answers
    the exact difference between the base and the state the journal leaves,
    or the refusal of the first operation a volume could not have run. *)

From S2P Require Import Prelude Range OpsDoc ByteSplice Derive Special Origin Journal.
#[local] Open Scope N_scope.

(** A fallible loop over the journal: [for op in journal { ...? }]. *)
Section fold_result.
Context {E S A : Type} (step : S → A → result E S).
Fixpoint fold_result (s : S) (l : list A) : result E S :=
  match l with
  | [] => Ok s
  | a :: l => s ← step s a; fold_result s l
  end.
End fold_result.

(** ** Directories *)
Module DirectoryEmission.
Inductive t := Made (path : string) | Removed (path : string).
End DirectoryEmission.

Definition base_is_dir (base : Base) (path : string) : bool :=
  existsb (λ dir, bool_decide (dir = path)) (b_dirs base).

(** One operation of [compose_directories]'s loop over [present]. *)
Definition directory_step (base : Base) (present : gmap string bool) (op : VolumeOp.t) :
    result DeriveError.t (gmap string bool) :=
  let here path := default (base_is_dir base path) (present !! path) in
  match op with
  | VolumeOp.Mkdir path =>
      if here path then Err (DeriveError.MkdirOverExisting path) else Ok (<[path := true]> present)
  | VolumeOp.Rmdir path =>
      if here path then Ok (<[path := false]> present) else Err (DeriveError.RmdirMissing path)
  | _ => Ok present
  end.

Definition directory_emission (base : Base) (entry : string * bool) : option DirectoryEmission.t :=
  let '(path, here) := entry in
  if here && negb (base_is_dir base path) then Some (DirectoryEmission.Made path)
  else if negb here && base_is_dir base path then Some (DirectoryEmission.Removed path)
  else None.

Definition compose_directories (base : Base) (journal : list VolumeOp.t) :
    result DeriveError.t (list DirectoryEmission.t) :=
  present ← fold_result (directory_step base) ∅ journal;
  Ok (omap (directory_emission base) (bt_list present)).

(** [present_directories]. *)
Definition present_step (present : gset string) (op : VolumeOp.t) : gset string :=
  match op with
  | VolumeOp.Mkdir path => {[ path ]} ∪ present
  | VolumeOp.Rmdir path => present ∖ {[ path ]}
  | _ => present
  end.
Definition present_directories (base : Base) (journal : list VolumeOp.t) : gset string :=
  foldl present_step (list_to_set (b_dirs base)) journal.

(** ** Symlinks and hard links

    [compose_symlinks] and [compose_hardlinks] are one loop over different
    operations; [LinkEmission] stands for both emission types. *)
Module LinkEmission.
Inductive t := Made (path target : string) | Removed (path : string).
End LinkEmission.

Section links.
Context (initial_target : string → option string)      (* the base's link at a path *)
        (makes : VolumeOp.t → option (string * string))  (* the operation that makes a link *)
        (over : string → DeriveError.t)                 (* making over a present link *)
        (paths : gset string).                          (* the paths treated as links *)

(** The state of a path, from the loop's map or the base. *)
Definition link_here (state : gmap string (bool * string)) (path : string) : bool * string :=
  default (match initial_target path with Some t => (true, t) | None => (false, ""%string) end)
    (state !! path).

Definition link_step (state : gmap string (bool * string)) (op : VolumeOp.t) :
    result DeriveError.t (gmap string (bool * string)) :=
  match makes op with
  | Some (path, target) =>
      if (link_here state path).1 then Err (over path) else Ok (<[path := (true, target)]> state)
  | None =>
      match op with
      | VolumeOp.Unlink path =>
          if has_elem paths path then
            let here := link_here state path in
            if here.1 then Ok (<[path := (false, here.2)]> state)
            else Err (DeriveError.UnlinkMissing path)
          else Ok state
      | _ => Ok state
      end
  end.

Definition link_emission (entry : string * (bool * string)) : option LinkEmission.t :=
  let '(path, (here, target)) := entry in
  if here then
    if bool_decide (initial_target path = Some target) then None
    else Some (LinkEmission.Made path target)
  else if bool_decide (is_Some (initial_target path)) then Some (LinkEmission.Removed path)
  else None.

Definition compose_links (journal : list VolumeOp.t) : result DeriveError.t (list LinkEmission.t) :=
  state ← fold_result link_step ∅ journal;
  Ok (omap link_emission (bt_list state)).
End links.

Definition makes_symlink (op : VolumeOp.t) : option (string * string) :=
  match op with VolumeOp.Symlink path target => Some (path, target) | _ => None end.
Definition makes_link (op : VolumeOp.t) : option (string * string) :=
  match op with VolumeOp.Link path target => Some (path, target) | _ => None end.

(** [symlink_paths] and [hardlink_paths]. *)
Definition symlink_paths (base : Base) (journal : list VolumeOp.t) : gset string :=
  list_to_set (b_symlinks base).*1 ∪ list_to_set (omap makes_symlink journal).*1.
Definition hardlink_paths (base : Base) (journal : list VolumeOp.t) : gset string :=
  list_to_set (b_hardlinks base).*1 ∪ list_to_set (omap makes_link journal).*1.

Definition compose_symlinks (base : Base) (journal : list VolumeOp.t) (paths : gset string) :
    result DeriveError.t (list LinkEmission.t) :=
  compose_links (base_symlink_target base) makes_symlink DeriveError.SymlinkOverExisting paths journal.
Definition compose_hardlinks (base : Base) (journal : list VolumeOp.t) (paths : gset string) :
    result DeriveError.t (list LinkEmission.t) :=
  compose_links (base_hardlink_target base) makes_link DeriveError.LinkOverExisting paths journal.

(** ** Modes *)
Section metadata.
Context (base : Base) (survivors renamed_away present_dirs : gset string).

(** The last mode declared for each path. *)
Definition mode_step (final_mode : gmap string N) (op : VolumeOp.t) : gmap string N :=
  match op with
  | VolumeOp.SetMode path mode => <[path := mode]> final_mode
  | VolumeOp.Mknod path _ mode =>
      if has_elem survivors path then <[path := mode]> final_mode else final_mode
  | _ => final_mode
  end.

Definition mode_emit (emissions : list (string * N)) (entry : string * N) :
    result DeriveError.t (list (string * N)) :=
  let '(path, mode) := entry in
  if has_elem renamed_away path then Err (DeriveError.Unsupported path)
  else if negb (has_elem survivors path) && negb (has_elem present_dirs path)
  then Err (DeriveError.SetModeMissing path)
  else if bool_decide (base_mode_of base path = Some mode) then Ok emissions
  else Ok (emissions ++ [(path, mode)]).

Definition compose_modes (journal : list VolumeOp.t) : result DeriveError.t (list (string * N)) :=
  fold_result mode_emit [] (bt_list (foldl mode_step ∅ journal)).

(** ** Extended attributes *)
Inductive XattrEmission :=
| XattrSet (path name : string) (value : bytes)
| XattrRemoved (path name : string).

Definition xattr_step (state : gmap (string * string) (option bytes)) (op : VolumeOp.t) :
    gmap (string * string) (option bytes) :=
  match op with
  | VolumeOp.SetXattr path name value => <[(path, name) := Some value]> state
  | VolumeOp.RemoveXattr path name => <[(path, name) := None]> state
  | _ => state
  end.

Definition xattr_emit (emissions : list XattrEmission) (entry : string * string * option bytes) :
    result DeriveError.t (list XattrEmission) :=
  let '(path, name, final_value) := entry in
  if has_elem renamed_away path then Err (DeriveError.Unsupported path)
  else if negb (has_elem survivors path) && negb (has_elem present_dirs path)
  then Err (DeriveError.XattrMissing path)
  else
    match final_value with
    | Some value =>
        if bool_decide (base_xattr base path name = Some value) then Ok emissions
        else Ok (emissions ++ [XattrSet path name value])
    | None =>
        if bool_decide (is_Some (base_xattr base path name))
        then Ok (emissions ++ [XattrRemoved path name]) else Ok emissions
    end.

Definition compose_xattrs (journal : list VolumeOp.t) : result DeriveError.t (list XattrEmission) :=
  fold_result xattr_emit [] (bt_list (foldl xattr_step ∅ journal)).
End metadata.

(** ** IPC names *)
Record Composition := mkComposition {
  c_paths : gset string;
  c_survivors : gset string;
  c_changes : gmap string (option SpecialNode)
}.

Definition mknod_path (op : VolumeOp.t) : option string :=
  match op with VolumeOp.Mknod path _ _ => Some path | _ => None end.

(** One operation of [Composition::of]'s loop over [present]. *)
Definition special_step (base : Base) (paths : gset string) (present : gmap string SpecialNode)
    (op : VolumeOp.t) : result DeriveError.t (gmap string SpecialNode) :=
  match op with
  | VolumeOp.Mknod path node _ =>
      if has_key present path then Err (DeriveError.CreateOverExisting path)
      else Ok (<[path := node]> present)
  | VolumeOp.Unlink path =>
      if has_elem paths path then
        if existsb (λ link, bool_decide (link.2 = path)) (b_hardlinks base)
        then Err (DeriveError.Unsupported path)
        else if has_key present path then Ok (delete path present)
        else Err (DeriveError.UnlinkMissing path)
      else Ok present
  | _ => Ok present
  end.

(** [Composition::of]. *)
Definition composition_of (base : Base) (journal : list VolumeOp.t) :
    result DeriveError.t Composition :=
  let initial := bt_collect (b_specials base) in
  let paths := dom initial ∪ list_to_set (omap mknod_path journal) in
  present ← fold_result (special_step base paths) initial journal;
  Ok {| c_paths := paths; c_survivors := dom present;
        c_changes := bt_collect (omap (λ path,
          let value := present !! path in
          if bool_decide (value = initial !! path) then None else Some (path, value)) (bt_elems paths)) |}.

(** ** The collision check *)
Record Intents := mkIntents {
  file_paths : gset string;
  dir_paths : gset string;
  sym_intent : gset string;
  link_intent : gset string
}.

(** One operation of the loop that gathers the kinds a path is used as. *)
Definition intent_step (sym_paths link_paths special_paths : gset string) (i : Intents)
    (op : VolumeOp.t) : Intents :=
  let file path :=
    mkIntents ({[ path ]} ∪ file_paths i) (dir_paths i) (sym_intent i) (link_intent i) in
  match op with
  | VolumeOp.Mkdir path | VolumeOp.Rmdir path =>
      mkIntents (file_paths i) ({[ path ]} ∪ dir_paths i) (sym_intent i) (link_intent i)
  | VolumeOp.Symlink path _ =>
      mkIntents (file_paths i) (dir_paths i) ({[ path ]} ∪ sym_intent i) (link_intent i)
  | VolumeOp.Link path _ =>
      mkIntents (file_paths i) (dir_paths i) (sym_intent i) ({[ path ]} ∪ link_intent i)
  | VolumeOp.Rename from to =>
      mkIntents ({[ to ]} ∪ ({[ from ]} ∪ file_paths i)) (dir_paths i) (sym_intent i) (link_intent i)
  | VolumeOp.Unlink path =>
      if has_elem sym_paths path || has_elem link_paths path || has_elem special_paths path
      then i else file path
  | other => match single_path other with Some path => file path | None => i end
  end.

(** [for path in &set { if bad(path) { return Err(..) } }]. *)
Definition refuse_any (bad : string → bool) (err : string → DeriveError.t) (s : gset string) :
    result DeriveError.t unit :=
  match List.find bad (bt_elems s) with Some path => Err (err path) | None => Ok tt end.

Definition check_no_file_directory_collision (base : Base) (journal : list VolumeOp.t) :
    result DeriveError.t unit :=
  let sym_paths := symlink_paths base journal in
  let link_paths := hardlink_paths base journal in
  specials ← composition_of base journal;
  let i := foldl (intent_step sym_paths link_paths (c_paths specials)) (mkIntents ∅ ∅ ∅ ∅) journal in
  let base_file path := existsb (λ e, bool_decide (e.1 = path)) (b_files base) in
  let base_dir path := base_is_dir base path in
  let base_sym path := existsb (λ e, bool_decide (e.1 = path)) (b_symlinks base) in
  let base_link path := existsb (λ e, bool_decide (e.1 = path)) (b_hardlinks base) in
  let in_file := has_elem (file_paths i) in
  let in_dir := has_elem (dir_paths i) in
  let in_sym := has_elem (sym_intent i) in
  let in_link := has_elem (link_intent i) in
  _ ← refuse_any (λ p, in_file p || in_dir p || in_sym p || in_link p || base_file p || base_dir p
                       || base_sym p || base_link p) DeriveError.PathKindConflict (c_paths specials);
  _ ← refuse_any (λ p, in_dir p || base_dir p || base_sym p || base_link p)
        DeriveError.PathIsFileAndDirectory (file_paths i);
  _ ← refuse_any (λ p, in_file p || base_file p || base_sym p)
        DeriveError.PathIsFileAndDirectory (dir_paths i);
  _ ← refuse_any (λ p, in_file p || in_dir p || in_link p || base_file p || base_dir p || base_link p)
        DeriveError.PathKindConflict (sym_intent i);
  refuse_any (λ p, in_file p || in_dir p || base_file p || base_dir p || base_sym p)
    DeriveError.PathKindConflict (link_intent i).

(** ** What a volume does with the same operations *)

(** A directory set: mkdir needs the name free, rmdir needs it taken. *)
Definition dir_exec (dirs : gset string) (op : VolumeOp.t) : result DeriveError.t (gset string) :=
  match op with
  | VolumeOp.Mkdir path =>
      if has_elem dirs path then Err (DeriveError.MkdirOverExisting path) else Ok ({[ path ]} ∪ dirs)
  | VolumeOp.Rmdir path =>
      if has_elem dirs path then Ok (dirs ∖ {[ path ]}) else Err (DeriveError.RmdirMissing path)
  | _ => Ok dirs
  end.

(** A link table: a link needs the name free, an unlink of a link name needs it taken. *)
Definition link_exec (makes : VolumeOp.t → option (string * string)) (over : string → DeriveError.t)
    (paths : gset string) (links : gmap string string) (op : VolumeOp.t) :
    result DeriveError.t (gmap string string) :=
  match makes op with
  | Some (path, target) =>
      if has_key links path then Err (over path) else Ok (<[path := target]> links)
  | None =>
      match op with
      | VolumeOp.Unlink path =>
          if has_elem paths path then
            if has_key links path then Ok (delete path links)
            else Err (DeriveError.UnlinkMissing path)
          else Ok links
      | _ => Ok links
      end
  end.

(** ** Lemmas: simulation of one loop by another *)
Section fold_sim.
Context {E S T A : Type} (f : S → A → result E S) (g : T → A → result E T) (R : S → T → Prop).
Context (Hstep : ∀ s t a, R s t →
  match f s a, g t a with
  | Ok s', Ok t' => R s' t'
  | Err e, Err e' => e = e'
  | _, _ => False
  end).

(** Loops that agree step by step agree on the outcome. *)
Lemma fold_result_sim l : ∀ s t, R s t →
  match fold_result f s l, fold_result g t l with
  | Ok s', Ok t' => R s' t'
  | Err e, Err e' => e = e'
  | _, _ => False
  end.
Proof.
  induction l as [|a l IH]; intros s t HR; cbn [fold_result]; [done|].
  specialize (Hstep s t a HR).
  destruct (f s a), (g t a); cbn [mbind result_bind]; try done. by apply IH.
Qed.
End fold_sim.

Lemma elem_of_omap_bt_list {K V A} `{Countable K, !BTreeKey K} (f : K * V → option A) (m : gmap K V) x :
  x ∈ omap f (bt_list m) ↔ ∃ k v, m !! k = Some v ∧ f (k, v) = Some x.
Proof.
  rewrite list_elem_of_omap. split.
  - intros ([k v] & Hin & Hf). apply elem_of_bt_list in Hin. eauto.
  - intros (k & v & Hm & Hf). exists (k, v). split; [|done]. by apply elem_of_bt_list.
Qed.

(** ** Lemmas: directories *)
Lemma base_is_dir_true base p : base_is_dir base p = true ↔ p ∈ b_dirs base.
Proof.
  unfold base_is_dir. rewrite existsb_exists. split.
  - intros (d & Hd & ->%bool_decide_eq_true). by apply list_elem_of_In.
  - intros Hp%list_elem_of_In. exists p. by rewrite bool_decide_eq_true.
Qed.

(** The loop's map over the base stands for the directory set. *)
Definition dirs_agree (base : Base) (present : gmap string bool) (dirs : gset string) : Prop :=
  ∀ p, default (base_is_dir base p) (present !! p) = has_elem dirs p.

Lemma directory_step_agree base present dirs op :
  dirs_agree base present dirs →
  match directory_step base present op, dir_exec dirs op with
  | Ok present', Ok dirs' => dirs_agree base present' dirs'
  | Err e, Err e' => e = e'
  | _, _ => False
  end.
Proof.
  intros HR. destruct op; cbn [directory_step dir_exec]; try done; rewrite (HR path);
    destruct (has_elem dirs path) eqn:E; try done; intros p; destruct (decide (path = p)) as [<-|Hne].
  - rewrite lookup_insert, decide_True by done. symmetry. apply has_elem_true. set_solver.
  - rewrite lookup_insert_ne, HR by done. unfold has_elem. apply bool_decide_ext. set_solver.
  - rewrite lookup_insert, decide_True by done. symmetry. apply has_elem_false. set_solver.
  - rewrite lookup_insert_ne, HR by done. unfold has_elem. apply bool_decide_ext. set_solver.
Qed.

Lemma dir_exec_present dirs op dirs' :
  dir_exec dirs op = Ok dirs' → dirs' = present_step dirs op.
Proof. destruct op; cbn; try congruence; destruct (has_elem dirs path); congruence. Qed.

Lemma dir_run_present journal : ∀ dirs dirs',
  fold_result dir_exec dirs journal = Ok dirs' → dirs' = foldl present_step dirs journal.
Proof.
  induction journal as [|op journal IH]; intros dirs dirs'; cbn [fold_result foldl]; [congruence|].
  destruct (dir_exec dirs op) as [d|] eqn:E; cbn [mbind result_bind]; [|done].
  apply dir_exec_present in E as ->. apply IH.
Qed.

(** ** Lemmas: links *)
Section link_lemmas.
Context (initial_target : string → option string) (makes : VolumeOp.t → option (string * string))
        (over : string → DeriveError.t) (paths : gset string).

Definition links_agree (state : gmap string (bool * string)) (links : gmap string string) : Prop :=
  ∀ p, links !! p = let here := link_here initial_target state p in
                    if here.1 then Some here.2 else None.

Lemma link_here_insert state p q v :
  link_here initial_target (<[p := v]> state) q =
    if decide (p = q) then v else link_here initial_target state q.
Proof. unfold link_here. rewrite lookup_insert. by case_decide. Qed.

Lemma has_key_here state links p :
  links_agree state links → has_key links p = (link_here initial_target state p).1.
Proof.
  intros HR. unfold has_key. rewrite (HR p). cbv zeta.
  destruct (link_here initial_target state p).1; [by apply bool_decide_eq_true_2|].
  apply bool_decide_eq_false_2. by intros [? ?].
Qed.

Lemma link_step_agree state links op :
  links_agree state links →
  match link_step initial_target makes over paths state op, link_exec makes over paths links op with
  | Ok state', Ok links' => links_agree state' links'
  | Err e, Err e' => e = e'
  | _, _ => False
  end.
Proof.
  intros HR. unfold link_step, link_exec. destruct (makes op) as [[path target]|].
  - rewrite (has_key_here state links path HR). destruct (link_here _ state path).1; [done|].
    intros p. rewrite link_here_insert, lookup_insert. by case_decide.
  - destruct op; try done. destruct (has_elem paths path); [|done].
    rewrite (has_key_here state links path HR). cbv zeta.
    destruct (link_here _ state path).1; [|done].
    intros p. rewrite link_here_insert, lookup_delete. by case_decide.
Qed.

(** Reading the emissions off a state that agrees with the links. *)
Lemma link_emissions state links :
  links_agree state links →
  (∀ p t, LinkEmission.Made p t ∈ omap (link_emission initial_target) (bt_list state) ↔
     links !! p = Some t ∧ initial_target p ≠ Some t) ∧
  (∀ p, LinkEmission.Removed p ∈ omap (link_emission initial_target) (bt_list state) ↔
     links !! p = None ∧ is_Some (initial_target p)).
Proof.
  intros HR. split.
  - intros p t. rewrite elem_of_omap_bt_list, (HR p). unfold link_here, link_emission. split.
    + intros (q & [h u] & Hq & He). destruct h; [|by case_bool_decide].
      case_bool_decide; [done|]. simplify_eq. by rewrite Hq.
    + destruct (state !! p) as [[h u]|] eqn:Ep; simpl.
      * destruct h; [|naive_solver]. intros [[= ->] Hne]. exists p, (true, t). split; [done|].
        by rewrite bool_decide_eq_false_2.
      * destruct (initial_target p); naive_solver.
  - intros p. rewrite elem_of_omap_bt_list, (HR p). unfold link_here, link_emission. split.
    + intros (q & [h u] & Hq & He). destruct h; [by case_bool_decide|].
      case_bool_decide; [|done]. simplify_eq. by rewrite Hq.
    + destruct (state !! p) as [[h u]|] eqn:Ep; simpl.
      * destruct h; [naive_solver|]. intros [_ Hs]. exists p, (false, u). split; [done|].
        by rewrite bool_decide_eq_true_2.
      * destruct (initial_target p); simpl; [naive_solver|]. intros [_ [? ?]]. done.
Qed.

Lemma compose_links_exec journal links0 :
  (∀ p, links0 !! p = initial_target p) →
  match fold_result (link_exec makes over paths) links0 journal with
  | Err e => compose_links initial_target makes over paths journal = Err e
  | Ok links => ∃ ems, compose_links initial_target makes over paths journal = Ok ems ∧
      (∀ p t, LinkEmission.Made p t ∈ ems ↔ links !! p = Some t ∧ links0 !! p ≠ Some t) ∧
      (∀ p, LinkEmission.Removed p ∈ ems ↔ links !! p = None ∧ is_Some (links0 !! p))
  end.
Proof.
  intros H0. unfold compose_links.
  pose proof (fold_result_sim (link_step initial_target makes over paths)
    (link_exec makes over paths) links_agree link_step_agree journal ∅ links0) as Hsim.
  assert (HR : links_agree ∅ links0).
  { intros p. rewrite H0. unfold link_here. rewrite lookup_empty. simpl. by destruct (initial_target p). }
  specialize (Hsim HR). destruct (fold_result _ ∅ journal), (fold_result _ links0 journal); try done;
    cbn [mbind result_bind].
  - eexists. split; [done|]. setoid_rewrite H0. by apply link_emissions.
  - by subst.
Qed.
End link_lemmas.

(** ** Lemmas: emission loops with a refusal *)
Section emit_loop.
Context {A O : Type} (step : list O → A → result DeriveError.t (list O))
        (check : A → option DeriveError.t) (out : A → option O).
Context (Hstep : ∀ acc a, step acc a =
  match check a with Some e => Err e | None => Ok (acc ++ option_list (out a)) end).

Lemma emit_loop_spec l : ∀ acc,
  match fold_result step acc l with
  | Ok r => r = acc ++ omap out l ∧ ∀ a, a ∈ l → check a = None
  | Err e => ∃ a, a ∈ l ∧ check a = Some e
  end.
Proof.
  induction l as [|a l IH]; intros acc; cbn [fold_result].
  - simpl. rewrite app_nil_r. split; [done|set_solver].
  - rewrite Hstep. destruct (check a) as [e|] eqn:Ec; cbn [mbind result_bind].
    + exists a. set_solver.
    + specialize (IH (acc ++ option_list (out a))). destruct (fold_result step _ l).
      * destruct IH as [-> IH]. split; [|set_solver]. cbn. destruct (out a); simpl;
          by rewrite <- app_assoc.
      * set_solver.
Qed.
End emit_loop.

(** Whether metadata may stand on a path at seal, and the refusal otherwise. *)
Definition metadata_refusal (survivors renamed_away present_dirs : gset string)
    (missing : string → DeriveError.t) (path : string) : option DeriveError.t :=
  if has_elem renamed_away path then Some (DeriveError.Unsupported path)
  else if negb (has_elem survivors path) && negb (has_elem present_dirs path)
  then Some (missing path) else None.

Section metadata_lemmas.
Context (base : Base) (survivors renamed_away present_dirs : gset string).
Abbreviation refusal := (metadata_refusal survivors renamed_away present_dirs).

Lemma compose_modes_spec journal :
  let final := foldl (mode_step survivors) ∅ journal in
  match compose_modes base survivors renamed_away present_dirs journal with
  | Ok ems =>
      (∀ p m, (p, m) ∈ ems ↔ final !! p = Some m ∧ base_mode_of base p ≠ Some m) ∧
      ∀ p, is_Some (final !! p) → refusal DeriveError.SetModeMissing p = None
  | Err e => ∃ p, is_Some (final !! p) ∧ refusal DeriveError.SetModeMissing p = Some e
  end.
Proof.
  intros final. unfold compose_modes. fold final.
  pose proof (emit_loop_spec (mode_emit base survivors renamed_away present_dirs)
    (λ e : string * N, refusal DeriveError.SetModeMissing e.1)
    (λ e : string * N, if bool_decide (base_mode_of base e.1 = Some e.2) then None else Some e)) as H.
  specialize (H ltac:(intros acc [p m]; unfold mode_emit, metadata_refusal; simpl;
    repeat (case_match; try done); by rewrite ?app_nil_r) (bt_list final) []).
  destruct (fold_result _ _ _) as [ems|e].
  - destruct H as [-> Hc]. rewrite app_nil_l. split.
    + intros p m. rewrite elem_of_omap_bt_list. split.
      * intros (k & v & Hk & He). simpl in He. case_bool_decide; naive_solver.
      * intros [Hp Hb]. exists p, m. simpl. by rewrite bool_decide_eq_false_2.
    + intros p [m Hp]. apply (Hc (p, m)). by apply elem_of_bt_list.
  - destruct H as ([p m] & Hin%elem_of_bt_list & Hc). eauto.
Qed.

Lemma compose_xattrs_spec journal :
  let final := foldl xattr_step ∅ journal in
  match compose_xattrs base survivors renamed_away present_dirs journal with
  | Ok ems =>
      (∀ p n v, XattrSet p n v ∈ ems ↔
         final !! (p, n) = Some (Some v) ∧ base_xattr base p n ≠ Some v) ∧
      (∀ p n, XattrRemoved p n ∈ ems ↔
         final !! (p, n) = Some None ∧ is_Some (base_xattr base p n)) ∧
      ∀ p n, is_Some (final !! (p, n)) → refusal DeriveError.XattrMissing p = None
  | Err e => ∃ p n, is_Some (final !! (p, n)) ∧ refusal DeriveError.XattrMissing p = Some e
  end.
Proof.
  intros final. unfold compose_xattrs. fold final.
  pose proof (emit_loop_spec (xattr_emit base survivors renamed_away present_dirs)
    (λ e : string * string * option bytes, refusal DeriveError.XattrMissing e.1.1)
    (λ e : string * string * option bytes,
      match e.2 with
      | Some v => if bool_decide (base_xattr base e.1.1 e.1.2 = Some v) then None
                  else Some (XattrSet e.1.1 e.1.2 v)
      | None => if bool_decide (is_Some (base_xattr base e.1.1 e.1.2))
                then Some (XattrRemoved e.1.1 e.1.2) else None
      end)) as H.
  specialize (H ltac:(intros acc [[p n] v]; unfold xattr_emit, metadata_refusal; simpl;
    repeat (case_match; try done); by rewrite ?app_nil_r) (bt_list final) []).
  destruct (fold_result _ _ _) as [ems|e].
  - destruct H as [-> Hc]. rewrite app_nil_l. split_and!.
    + intros p n v. rewrite elem_of_omap_bt_list. split.
      * intros ([k k'] & [u|] & Hk & He); simpl in He; case_bool_decide; naive_solver.
      * intros [Hp Hb]. exists (p, n), (Some v). simpl. by rewrite bool_decide_eq_false_2.
    + intros p n. rewrite elem_of_omap_bt_list. split.
      * intros ([k k'] & [u|] & Hk & He); simpl in He; case_bool_decide; naive_solver.
      * intros [Hp Hb]. exists (p, n), None. simpl. by rewrite bool_decide_eq_true_2.
    + intros p n [m Hp]. apply (Hc (p, n, m)). by apply elem_of_bt_list.
  - destruct H as ([[p n] m] & Hin%elem_of_bt_list & Hc). eauto.
Qed.
End metadata_lemmas.

(** ** Lemmas: IPC names *)
Lemma special_step_paths base paths (initial : gmap string SpecialNode) present op present' :
  (∀ p, present !! p ≠ initial !! p → p ∈ paths) →
  (∀ p, mknod_path op = Some p → p ∈ paths) →
  special_step base paths present op = Ok present' →
  ∀ p, present' !! p ≠ initial !! p → p ∈ paths.
Proof.
  intros Hp Hm Hs p Hne. destruct op; cbn [special_step] in Hs; try (simplify_eq; by apply Hp).
  - destruct (has_key present path); simplify_eq. destruct (decide (path = p)) as [<-|].
    + by apply Hm.
    + rewrite lookup_insert_ne in Hne by done. by apply Hp.
  - destruct (has_elem paths path) eqn:E; [|simplify_eq; by apply Hp].
    destruct (existsb _ _); [done|]. destruct (has_key present path); simplify_eq.
    destruct (decide (path = p)) as [<-|]; [by apply has_elem_true|].
    rewrite lookup_delete_ne in Hne by done. by apply Hp.
Qed.

Lemma special_run_paths base paths (initial : gmap string SpecialNode) journal : ∀ present present',
  (∀ p, present !! p ≠ initial !! p → p ∈ paths) →
  (∀ p, p ∈ omap mknod_path journal → p ∈ paths) →
  fold_result (special_step base paths) present journal = Ok present' →
  ∀ p, present' !! p ≠ initial !! p → p ∈ paths.
Proof.
  induction journal as [|op journal IH]; intros present present' Hp Hm; cbn [fold_result];
    [intros [= <-]; done|].
  destruct (special_step base paths present op) as [q|] eqn:E; cbn [mbind result_bind]; [|done].
  apply IH.
  - eapply special_step_paths; [done| |exact E]. intros p Hop. apply Hm. simpl. rewrite Hop. set_solver.
  - intros p Hin. apply Hm. simpl. destruct (mknod_path op); set_solver.
Qed.

(** ** Properties *)

(** Directories compose exactly.  Running the journal's mkdirs and rmdirs
    on the base's directory set meets a refusal exactly when
    [compose_directories] does, and the same one; otherwise the emissions are
    exactly the difference: a directory is emitted as made when the journal
    leaves it and the base lacks it, as removed when the base has it and the
    journal does not leave it, and [present_directories] is what it leaves. *)
Theorem compose_directories_exact (base : Base) (journal : list VolumeOp.t) :
  match fold_result dir_exec (list_to_set (b_dirs base)) journal with
  | Err e => compose_directories base journal = Err e
  | Ok dirs => dirs = present_directories base journal ∧
      ∃ ems, compose_directories base journal = Ok ems ∧
      (∀ p, DirectoryEmission.Made p ∈ ems ↔ p ∈ dirs ∧ p ∉ b_dirs base) ∧
      (∀ p, DirectoryEmission.Removed p ∈ ems ↔ p ∉ dirs ∧ p ∈ b_dirs base)
  end.
Proof.
  unfold compose_directories.
  pose proof (fold_result_sim (directory_step base) dir_exec (dirs_agree base)
    (directory_step_agree base) journal ∅ (list_to_set (b_dirs base))) as Hsim.
  assert (HR : dirs_agree base ∅ (list_to_set (b_dirs base))).
  { intros p. rewrite lookup_empty. simpl. apply eq_bool_prop_intro. rewrite !Is_true_true.
    rewrite base_is_dir_true, has_elem_true. set_solver. }
  specialize (Hsim HR).
  destruct (fold_result (directory_step base) ∅ journal) as [present|];
    destruct (fold_result dir_exec _ journal) as [dirs|] eqn:Ed; try done;
    cbn [mbind result_bind]; [|by subst].
  split; [by apply dir_run_present|]. eexists. split; [done|].
  assert (Hb : ∀ p, base_is_dir base p = false ↔ p ∉ b_dirs base).
  { intros p. rewrite <- base_is_dir_true. by destruct (base_is_dir base p). }
  split; intros p; rewrite elem_of_omap_bt_list; specialize (Hsim p);
    rewrite <- (has_elem_true dirs) || rewrite <- (has_elem_false dirs); rewrite <- Hsim;
    rewrite <- ?Hb, <- ?base_is_dir_true; unfold directory_emission; split.
  - intros (q & h & Hq & He). destruct h, (base_is_dir base q) eqn:Eb; simplify_eq/=. by rewrite Hq.
  - intros [H1 H2]. rewrite H2 in H1. destruct (present !! p) as [h|] eqn:Ep; simpl in H1; [|done].
    destruct h; [|done]. exists p, true. by rewrite H2.
  - intros (q & h & Hq & He). destruct h, (base_is_dir base q) eqn:Eb; simplify_eq/=. by rewrite Hq.
  - intros [H1 H2]. rewrite H2 in H1. destruct (present !! p) as [h|] eqn:Ep; simpl in H1; [|done].
    destruct h; [done|]. exists p, false. by rewrite H2.
Qed.

(** Symlinks and hard links compose exactly.  For a base whose link tables
    are the maps [syms] and [links], running the journal on them meets a
    refusal exactly when [compose_symlinks] (resp. [compose_hardlinks]) does,
    and the same one; otherwise a link is emitted as made exactly when the
    journal leaves it with a target the base did not give it, and as removed
    exactly when the base had it and the journal does not leave it. *)
Theorem compose_links_exact (base : Base) (journal : list VolumeOp.t) (syms links : gmap string string) :
  (∀ p, syms !! p = base_symlink_target base p) → (∀ p, links !! p = base_hardlink_target base p) →
  (let paths := symlink_paths base journal in
   match fold_result (link_exec makes_symlink DeriveError.SymlinkOverExisting paths) syms journal with
   | Err e => compose_symlinks base journal paths = Err e
   | Ok final => ∃ ems, compose_symlinks base journal paths = Ok ems ∧
       (∀ p t, LinkEmission.Made p t ∈ ems ↔ final !! p = Some t ∧ syms !! p ≠ Some t) ∧
       (∀ p, LinkEmission.Removed p ∈ ems ↔ final !! p = None ∧ is_Some (syms !! p))
   end) ∧
  (let paths := hardlink_paths base journal in
   match fold_result (link_exec makes_link DeriveError.LinkOverExisting paths) links journal with
   | Err e => compose_hardlinks base journal paths = Err e
   | Ok final => ∃ ems, compose_hardlinks base journal paths = Ok ems ∧
       (∀ p t, LinkEmission.Made p t ∈ ems ↔ final !! p = Some t ∧ links !! p ≠ Some t) ∧
       (∀ p, LinkEmission.Removed p ∈ ems ↔ final !! p = None ∧ is_Some (links !! p))
   end).
Proof. intros Hs Hl. split; by apply compose_links_exec. Qed.

(** A base symlink retargeted by unlink and symlink, a new hard link. *)
Definition links_base : Base :=
  mkBase [("f"%string, 3)] [] [] [] [("s"%string, "old"%string)] [] [].

Lemma compose_links_exact_witness :
  ∃ ems, compose_symlinks links_base [VolumeOp.Unlink "s"; VolumeOp.Symlink "s" "new"]
      (symlink_paths links_base [VolumeOp.Unlink "s"; VolumeOp.Symlink "s" "new"]) = Ok ems ∧
    LinkEmission.Made "s" "new" ∈ ems.
Proof.
  destruct (compose_links_exact links_base [VolumeOp.Unlink "s"; VolumeOp.Symlink "s" "new"]
    {[ "s"%string := "old"%string ]} ∅) as [H _].
  - intros p. unfold base_symlink_target, table_get. cbn [links_base b_symlinks List.find fst].
    case_bool_decide; subst; [done|]. by rewrite lookup_singleton_ne.
  - intros p. by rewrite lookup_empty.
  - cbv zeta in H. match type of H with match ?r with _ => _ end =>
      destruct r as [final|e] eqn:E end.
    + destruct H as (ems & H1 & H2 & _). exists ems. split; [exact H1|]. apply H2.
      vm_compute in E. injection E as <-. split; [vm_compute; reflexivity|vm_compute; discriminate].
    + vm_compute in E. discriminate.
Defined.

(** Modes and extended attributes compose exactly.  A [SetMode] is emitted
    exactly for a path whose last declared mode differs from the base's, a
    [SetXattr] (a [RemoveXattr]) exactly for an attribute whose last declared
    value differs from the base's (that was last removed and the base has);
    and the composition refuses exactly when some declared path was renamed
    away or is present neither as a file nor as a directory at seal, naming
    such a path with the refusal that holds of it. *)
Theorem compose_metadata_exact (base : Base) (survivors renamed_away present_dirs : gset string)
    (journal : list VolumeOp.t) :
  (let final := foldl (mode_step survivors) ∅ journal in
   let refusal := metadata_refusal survivors renamed_away present_dirs DeriveError.SetModeMissing in
   match compose_modes base survivors renamed_away present_dirs journal with
   | Ok ems =>
       (∀ p m, (p, m) ∈ ems ↔ final !! p = Some m ∧ base_mode_of base p ≠ Some m) ∧
       ∀ p, is_Some (final !! p) → refusal p = None
   | Err e => ∃ p, is_Some (final !! p) ∧ refusal p = Some e
   end) ∧
  (let final := foldl xattr_step ∅ journal in
   let refusal := metadata_refusal survivors renamed_away present_dirs DeriveError.XattrMissing in
   match compose_xattrs base survivors renamed_away present_dirs journal with
   | Ok ems =>
       (∀ p n v, XattrSet p n v ∈ ems ↔
          final !! (p, n) = Some (Some v) ∧ base_xattr base p n ≠ Some v) ∧
       (∀ p n, XattrRemoved p n ∈ ems ↔
          final !! (p, n) = Some None ∧ is_Some (base_xattr base p n)) ∧
       ∀ p n, is_Some (final !! (p, n)) → refusal p = None
   | Err e => ∃ p n, is_Some (final !! (p, n)) ∧ refusal p = Some e
   end).
Proof. split; [apply compose_modes_spec|apply compose_xattrs_spec]. Qed.

(** IPC names compose exactly: when the creations and removals run from the
    base's nodes to [present], the composition's survivors are [present]'s
    names and its changes are exactly the names whose node differs from the
    base's, each with the node [present] holds there (or its absence); no
    changed name is outside the paths the composition looked at. *)
Theorem composition_exact (base : Base) (journal : list VolumeOp.t) (c : Composition) :
  composition_of base journal = Ok c →
  ∃ present,
    fold_result (special_step base (c_paths c)) (bt_collect (b_specials base)) journal = Ok present ∧
    c_survivors c = dom present ∧
    ∀ p v, c_changes c !! p = Some v ↔
      present !! p = v ∧ v ≠ bt_collect (b_specials base) !! p.
Proof.
  unfold composition_of. set (initial := bt_collect (b_specials base)).
  set (paths := dom initial ∪ _). intros H.
  destruct (fold_result _ initial journal) as [present|] eqn:E; cbn [mbind result_bind] in H; [|done].
  injection H as <-. exists present. cbn [c_paths c_survivors c_changes]. split_and!; [done..|].
  pose proof (special_run_paths base paths initial journal initial present) as Hp.
  specialize (Hp ltac:(done) ltac:(set_solver) E).
  intros p v. set (f := λ path, if bool_decide (present !! path = initial !! path) then None
                               else Some (path, present !! path)).
  change (bt_collect (omap f (bt_elems paths)) !! p = Some v ↔ present !! p = v ∧ v ≠ initial !! p).
  rewrite bt_collect_elem.
  - rewrite list_elem_of_omap. split.
    + intros (q & _ & Hq). unfold f in Hq. case_bool_decide; naive_solver.
    + intros [<- Hne]. exists p. rewrite elem_of_bt_elems. split; [by apply Hp|].
      unfold f. by rewrite bool_decide_eq_false_2.
  - assert (Hsub : ∀ l, (omap f l).*1 `sublist_of` l).
    { induction l as [|q l IH]; [constructor|]. cbn [omap list_omap]. unfold f at 1.
      case_bool_decide; simpl; by constructor. }
    eapply sublist_NoDup; [apply NoDup_bt_elems|apply Hsub].
Qed.

(** A base FIFO replaced, a socket made and removed again. *)
Lemma composition_exact_witness :
  let node := mkSpecialNode Socket 1 1 0 0 0 0 in
  let base := mkBase [] [("p"%string, mkSpecialNode Fifo 1 1 0 0 0 0)] [] [] [] [] [] in
  let journal := [VolumeOp.Mknod "q" node 0; VolumeOp.Unlink "p"; VolumeOp.Unlink "q";
                  VolumeOp.Mknod "p" node 0] in
  ∃ c, composition_of base journal = Ok c ∧ c_changes c !! "p"%string = Some (Some node).
Proof.
  intros node base journal. destruct (composition_of base journal) as [c|] eqn:E;
    [|vm_compute in E; discriminate].
  exists c. split; [reflexivity|].
  destruct (composition_exact base journal c E) as (present & Hrun & _ & Hch).
  apply Hch. vm_compute in E. injection E as <-. vm_compute in Hrun. injection Hrun as <-.
  split; [vm_compute; reflexivity|vm_compute; discriminate].
Defined.
