(* ===== verification/DocOrder.v ===== *)
(** * Canonical order keeps the meaning

    Lemmas about [PathTable::sort_and_remap] and [OpsDoc::canonicalize]
    ([crates/merge/src/ops_doc.rs]): the canonical document says what the
    document said, with the table sorted and the operations in canonical
    order.  An operation's meaning is its [NamedOp]: its references resolved
    to the names they index. *)

From S2P Require Import Prelude OpsDoc.
#[local] Open Scope N_scope.

(** An operation with its path-table references resolved. *)
Record NamedOp := mkNamedOp {
  n_kind : OpKind.t;
  n_flags : N;
  n_path : option string;
  n_at : N + option string;
  n_len : N;
  n_src : N + option string
}.

Definition src_is_name (k : OpKind.t) : bool :=
  match k with OpKind.Rename | OpKind.Link | OpKind.Symlink => true | _ => false end.
Definition at_is_name (k : OpKind.t) : bool :=
  match k with OpKind.SetXattr | OpKind.RemoveXattr => true | _ => false end.

Definition named_op (t : PathTable) (op : Op) : NamedOp :=
  {| n_kind := op_kind op; n_flags := op_flags op; n_path := pt_path t (op_path op);
     n_at := if at_is_name (op_kind op) then inr (pt_path t (op_at op)) else inl (op_at op);
     n_len := op_len op;
     n_src := if src_is_name (op_kind op) then inr (pt_path t (op_src op)) else inl (op_src op) |}.

Definition named (d : OpsDoc) : list NamedOp := map (named_op (paths d)) (ops d).

(** References that index the table, and a table a [u16] can index. *)
Definition refs_ok (d : OpsDoc) : Prop :=
  len (pt_paths (paths d)) ≤ u16_max + 1 ∧
  Forall (λ op, op_path op < len (pt_paths (paths d)) ∧
    (at_is_name (op_kind op) = true → op_at op < len (pt_paths (paths d))) ∧
    (src_is_name (op_kind op) = true → op_src op < len (pt_paths (paths d)))) (ops d).

(** ** Lemmas: enumeration *)
Lemma length_enumerate_from {A} (l : list A) i : length (enumerate_from i l) = length l.
Proof. revert i. induction l; intros; simpl; auto. Qed.

Lemma enumerate_from_lookup {A} (l : list A) : ∀ i k,
  enumerate_from i l !! k = (λ x, (i + N.of_nat k, x)) <$> l !! k.
Proof.
  induction l as [|x l IH]; intros i [|k]; simpl; try done.
  - by rewrite N.add_0_r.
  - rewrite IH. destruct (l !! k); simpl; [|done]. do 2 f_equal. lia.
Qed.

Lemma enumerate_from_elem {A} (l : list A) i n x :
  (n, x) ∈ enumerate_from i l ↔ ∃ k, n = i + N.of_nat k ∧ l !! k = Some x.
Proof.
  rewrite list_elem_of_lookup. setoid_rewrite enumerate_from_lookup. split.
  - intros [k Hk]. destruct (l !! k) eqn:E; simplify_eq/=. eauto.
  - intros (k & -> & Hk). exists k. by rewrite Hk.
Qed.

Lemma enumerate_from_keys {A} (l : list A) i : NoDup (enumerate_from i l).*1.
Proof.
  revert i. induction l as [|x l IH]; intros i; simpl; constructor; [|apply IH].
  intros ([n y] & E & (k & -> & _)%enumerate_from_elem)%list_elem_of_fmap. simpl in E. lia.
Qed.

Lemma enumerate_from_values {A} (l : list A) i : (enumerate_from i l).*2 = l.
Proof. revert i. induction l as [|x l IH]; intros i; simpl; [done|]. f_equal. apply IH. Qed.

(** ** Lemmas: the remap *)

(** The loop that writes each entry's new index at its old one. *)
Definition write_index (acc : list N) (entry : N * (N * string)) : list N :=
  <[N.to_nat entry.2.1 := clamp_u16 entry.1]> acc.

Lemma write_index_lookup entries : ∀ acc o n p,
  NoDup (entries.*2).*1 → (n, (o, p)) ∈ entries → (N.to_nat o < length acc)%nat →
  foldl write_index acc entries !! N.to_nat o = Some (clamp_u16 n).
Proof.
  induction entries as [|[m [q r]] entries IH] using rev_ind; intros acc o n p Hnd Hin Ho; [set_solver|].
  rewrite foldl_app. cbn [foldl write_index fst snd]. unfold write_index at 1. cbn [fst snd].
  rewrite !fmap_app in Hnd. cbn [fmap list_fmap fst snd] in Hnd.
  apply NoDup_app in Hnd as (Hnd & Hdis & _).
  assert (Hlen : ∀ es acc, length (foldl write_index acc es) = length acc).
  { induction es as [|e es IHe]; intros a; [done|]. simpl. rewrite IHe. apply length_insert. }
  apply elem_of_app in Hin as [Hin|Hin].
  - rewrite list_lookup_insert_ne; [by eapply IH|]. intros E. apply (Hdis o); [|].
    + apply list_elem_of_fmap. exists (o, p). split; [done|].
      apply list_elem_of_fmap. by exists (n, (o, p)).
    + apply list_elem_of_singleton. lia.
  - apply list_elem_of_singleton in Hin. simplify_eq.
    apply list_lookup_insert_eq. by rewrite Hlen.
Qed.

(** The table's entries in their new order. *)
Definition sorted_entries (t : PathTable) : list (N * string) :=
  sort_by (λ a b, key_leb a.2 b.2) (enumerate_from 0 (pt_paths t)).

Lemma length_sorted_entries t : length (sorted_entries t) = length (pt_paths t).
Proof.
  unfold sorted_entries. rewrite (Permutation_length (sort_by_perm _ _)). apply length_enumerate_from.
Qed.

(** Every index maps to the new index of the same path. *)
Lemma remap_same_path t i :
  len (pt_paths t) ≤ u16_max + 1 → i < len (pt_paths t) →
  ∃ j, lookupN (sort_and_remap t).2 i = Some j ∧ j < len (pt_paths (sort_and_remap t).1) ∧
       pt_path (sort_and_remap t).1 j = pt_path t i.
Proof.
  intros Hsmall Hi. unfold sort_and_remap. cbn [fst snd]. fold (sorted_entries t).
  fold write_index. set (order := sorted_entries t).
  destruct (lookup_lt_is_Some_2 (pt_paths t) (N.to_nat i)) as [p Hp]; [unfold len in Hi; lia|].
  assert (Hin : (i, p) ∈ order).
  { unfold order, sorted_entries. apply elem_of_sort_by. apply enumerate_from_elem.
    exists (N.to_nat i). split; [lia|done]. }
  apply list_elem_of_lookup in Hin as [k Hk].
  pose proof (lookup_lt_Some _ _ _ Hk) as Hklt. unfold order in Hklt. rewrite length_sorted_entries in Hklt.
  exists (N.of_nat k). unfold len in Hi, Hsmall.
  assert (Hw : foldl write_index (replicate (length order) 0) (enumerate_from 0 order) !! N.to_nat i
               = Some (clamp_u16 (N.of_nat k))).
  { eapply write_index_lookup.
    - rewrite enumerate_from_values. unfold order, sorted_entries. rewrite sort_by_perm. apply enumerate_from_keys.
    - apply enumerate_from_elem. exists k. split; [lia|exact Hk].
    - rewrite length_replicate. unfold order. rewrite length_sorted_entries. lia. }
  rewrite clamp_u16_small in Hw by (unfold u16_max in *; lia).
  split_and!.
  - unfold lookupN. rewrite Hw. rewrite (proj2 (N.ltb_lt _ _)); [done|]. unfold len.
    apply lookup_lt_Some in Hw. lia.
  - cbn [pt_paths]. unfold len. rewrite length_fmap. unfold order. rewrite length_sorted_entries. lia.
  - unfold pt_path, lookupN. cbn [pt_paths]. unfold len. rewrite length_fmap.
    unfold order at 1. rewrite length_sorted_entries.
    rewrite !(proj2 (N.ltb_lt _ _)) by lia. rewrite Nat2N.id, list_lookup_fmap, Hk, Hp. done.
Qed.

Lemma remap_ref_same t i :
  len (pt_paths t) ≤ u16_max + 1 → i < len (pt_paths t) →
  pt_path (sort_and_remap t).1 (remap_ref (sort_and_remap t).2 i) = pt_path t i.
Proof.
  intros Hs Hi. destruct (remap_same_path t i Hs Hi) as (j & Hj & _ & Hp).
  unfold remap_ref. by rewrite Hj.
Qed.

Lemma remap_op_named t op :
  len (pt_paths t) ≤ u16_max + 1 → op_path op < len (pt_paths t) →
  (at_is_name (op_kind op) = true → op_at op < len (pt_paths t)) →
  (src_is_name (op_kind op) = true → op_src op < len (pt_paths t)) →
  named_op (sort_and_remap t).1 (remap_op (sort_and_remap t).2 op) = named_op t op.
Proof.
  intros Hs Hp Ha Hr. destruct (remap_same_path t (op_path op) Hs Hp) as (j & Hj & _ & Hjp).
  unfold named_op, remap_op. destruct (op_kind op) eqn:Ek; cbn [op_kind with_src with_at op_path];
    rewrite ?Ek; cbn [op_kind with_src with_at op_path]; rewrite Hj; cbn [with_path op_kind op_flags op_path op_at op_len op_src with_at with_src];
    rewrite ?Ek; cbn [at_is_name src_is_name] in *; rewrite ?Hjp, ?remap_ref_same by auto; done.
Qed.

(** The canonical order is total and transitive. *)
Lemma op_leb_total a b : op_leb a b = true ∨ op_leb b a = true.
Proof.
  unfold op_leb. rewrite (N.eqb_sym (op_path b)), (N.eqb_sym (op_at b)).
  repeat split_if; rewrite !N.leb_le; bool_to_prop; lia.
Qed.
Lemma op_leb_trans a b c : op_leb a b = true → op_leb b c = true → op_leb a c = true.
Proof.
  unfold op_leb. intros. repeat split_if; bool_to_prop; try congruence;
    rewrite ?N.leb_le, ?N.leb_gt in *; try lia.
Qed.

(** ** Properties *)

(** Canonicalizing a document changes its spelling and not its meaning:
    for a document whose references index its table and whose table a [u16]
    can index, the canonical document's operations, their references resolved
    to names, are a permutation of the document's; its table holds the same
    paths in ascending order; and its operations stand in the canonical order
    (path, then offset, then kind). *)
Theorem canonicalize_meaning (d : OpsDoc) :
  refs_ok d →
  named (canonicalize d) ≡ₚ named d ∧
  pt_paths (paths (canonicalize d)) ≡ₚ pt_paths (paths d) ∧
  StronglySorted (λ a b, String.leb a b = true) (pt_paths (paths (canonicalize d))) ∧
  StronglySorted (λ a b, op_leb a b = true) (ops (canonicalize d)).
Proof.
  intros [Hs Hops]. unfold named, canonicalize.
  pose proof (remap_op_named (paths d)) as Hn.
  assert (Ht : (sort_and_remap (paths d)).1 = mkPathTable (sorted_entries (paths d)).*2) by done.
  destruct (sort_and_remap (paths d)) as [t remap] eqn:E. cbn [fst snd] in *. subst t.
  cbn [paths ops pt_paths]. split_and!.
  - rewrite sort_by_perm, map_map. erewrite map_ext_in; [done|].
    intros op Hin%list_elem_of_In. rewrite Forall_forall in Hops.
    destruct (Hops op Hin) as (? & ? & ?). by apply Hn.
  - unfold sorted_entries. rewrite sort_by_perm. by rewrite enumerate_from_values.
  - assert (Hsort : StronglySorted (λ a b : N * string, String.leb a.2 b.2 = true) (sorted_entries (paths d))).
    { apply sort_by_sorted; intros; [apply string_leb_total|by eapply string_leb_trans]. }
    clear -Hsort. induction Hsort as [|e l _ IH Hall]; simpl; constructor; [done|].
    apply Forall_fmap. by eapply Forall_impl.
  - apply sort_by_sorted; [apply op_leb_total|apply op_leb_trans].
Qed.

(** An unsorted table with a rename and an attribute. *)
Definition unsorted_doc : OpsDoc :=
  mkOpsDoc (mkPathTable ["z"%string; "user.k"%string; "a"%string])
    [mkOp OpKind.Rename 0 0 0 0 2; mkOp OpKind.SetXattr 0 0 1 4 0; mkOp OpKind.Delete 0 0 3 1 u64_max].

Lemma canonicalize_meaning_witness :
  refs_ok unsorted_doc ∧ named (canonicalize unsorted_doc) ≡ₚ named unsorted_doc.
Proof.
  assert (H : refs_ok unsorted_doc).
  { split; [vm_compute; discriminate|]. repeat constructor; vm_compute; try discriminate; reflexivity. }
  split; [exact H|]. apply (canonicalize_meaning unsorted_doc H).
Defined.
