(* ===== verification/Volume.v ===== *)
(** * Sealing a journal into a document

    Models the assembly half of [crates/merge/src/increment.rs]
    ([document_names], [emit_namespace], [push_content], [seal],
    [compose_volume]) and [Composition::emit] of
    [crates/merge/src/special.rs]. *)

From S2P Require Import Prelude Range OpsDoc ByteSplice Derive Special Origin Journal Namespace.
From S2P Require Import DocOrder.
#[local] Open Scope N_scope.

(** ** Operation records *)
Definition set_xattr_op (path name value_offset value_len : N) : Op :=
  mkOp OpKind.SetXattr 0 path name value_len value_offset.
Definition remove_xattr_op (path name : N) : Op := mkOp OpKind.RemoveXattr 0 path name 0 u64_max.
Definition set_mode_op (path mode : N) : Op := mkOp OpKind.SetMode 0 path 0 mode u64_max.
Definition symlink_op (link target : N) : Op := mkOp OpKind.Symlink 0 link 0 0 target.
Definition link_op (link target : N) : Op := mkOp OpKind.Link 0 link 0 0 target.
Definition namespace_op (kind : OpKind.t) (path : N) : Op := mkOp kind 0 path 0 0 u64_max.
Definition rename_op (destination source : N) : Op := mkOp OpKind.Rename 0 destination 0 0 source.

(** [push_content]: the path index set, the source moved into the file's region. *)
Definition region_op (index region_offset : N) (op : Op) : Op :=
  let op := with_path op index in
  if adds_content (op_kind op) then with_src op (sat_add (op_src op) region_offset) else op.
Definition push_content (os : list Op) (index region_offset : N) : list Op :=
  map (region_op index region_offset) os.

(** ** The names of a document *)
Definition emission_names (em : Emission) : list string :=
  em_final_path em :: option_list (em_source em).
Definition directory_name (d : DirectoryEmission.t) : string :=
  match d with DirectoryEmission.Made p | DirectoryEmission.Removed p => p end.
Definition link_names (l : LinkEmission.t) : list string :=
  match l with LinkEmission.Made p t => [p; t] | LinkEmission.Removed p => [p] end.
Definition xattr_names (x : XattrEmission) : list string :=
  match x with XattrSet p n _ => [p; n] | XattrRemoved p n => [p; n] end.

Definition document_names (emissions : list Emission) (removed : list string)
    (directories : list DirectoryEmission.t) (modes : list (string * N))
    (symlinks : list LinkEmission.t) (xattrs : list XattrEmission)
    (hardlinks : list LinkEmission.t) : list string :=
  sort_dedup
    (concat (map emission_names emissions) ++ removed ++ map directory_name directories
     ++ modes.*1 ++ concat (map link_names symlinks) ++ concat (map xattr_names xattrs)
     ++ concat (map link_names hardlinks)).

(** The [index_of] closure: [binary_search] in the sorted, distinct names
    answers the name's position; an absent one, or a position past a [u16],
    is [u16::MAX]. *)
Definition index_of (names : list string) (name : string) : N :=
  match position_from name names 0 with Some i => clamp_u16 i | None => u16_max end.

(** ** Sealing *)

(** [emit_namespace]: the operations it pushes. *)
Definition directory_op (index : string → N) (d : DirectoryEmission.t) : Op :=
  match d with
  | DirectoryEmission.Made path => namespace_op OpKind.Mkdir (index path)
  | DirectoryEmission.Removed path => namespace_op OpKind.Rmdir (index path)
  end.
Definition link_emission_op (make : N → N → Op) (index : string → N) (l : LinkEmission.t) : Op :=
  match l with
  | LinkEmission.Made path target => make (index path) (index target)
  | LinkEmission.Removed path => namespace_op OpKind.Unlink (index path)
  end.
Definition emit_namespace (names removed : list string) (directories : list DirectoryEmission.t)
    (modes : list (string * N)) (symlinks hardlinks : list LinkEmission.t) : list Op :=
  let index := index_of names in
  map (λ origin, namespace_op OpKind.Unlink (index origin)) removed
  ++ map (directory_op index) directories
  ++ map (λ e, set_mode_op (index e.1) e.2) modes
  ++ map (link_emission_op symlink_op index) symlinks
  ++ map (link_emission_op link_op index) hardlinks.

(** The emission loop of [seal] over [(ops, region_offset)]. *)
Definition seal_emission (index : string → N) (st : list Op * N) (emission : Emission) : list Op * N :=
  let '(os, region_offset) := st in
  let destination := index (em_final_path emission) in
  let head :=
    match em_source emission with
    | Some source => [rename_op destination (index source)]
    | None => if em_created emission then [namespace_op OpKind.Create destination] else []
    end in
  (os ++ head ++ push_content (em_ops emission) destination region_offset,
   sat_add region_offset (em_final_len emission)).

(** The attribute loop of [seal]: values after the file content. *)
Definition seal_xattr (index : string → N) (st : list Op * N) (xattr : XattrEmission) : list Op * N :=
  let '(os, region_offset) := st in
  match xattr with
  | XattrSet path name value =>
      (os ++ [set_xattr_op (index path) (index name) region_offset (len value)],
       sat_add region_offset (len value))
  | XattrRemoved path name => (os ++ [remove_xattr_op (index path) (index name)], region_offset)
  end.

Definition seal (entities : list Entity) (directories : list DirectoryEmission.t)
    (modes : list (string * N)) (symlinks : list LinkEmission.t) (xattrs : list XattrEmission)
    (hardlinks : list LinkEmission.t) : OpsDoc :=
  let '(emissions, removed) := classify entities in
  let names := document_names emissions removed directories modes symlinks xattrs hardlinks in
  let table := foldl (λ t name, (intern t name).1) PathTable_new names in
  let index := index_of names in
  let emissions := sort_by (λ a b, String.leb (em_final_path a) (em_final_path b)) emissions in
  let st := foldl (seal_emission index) ([], 0) emissions in
  let '(os, _) := foldl (seal_xattr index) st xattrs in
  canonicalize (mkOpsDoc table
    (os ++ emit_namespace names removed directories modes symlinks hardlinks)).

(** [Composition::emit]: the IPC operations after the other payloads. *)
Definition payload_end (op : Op) : option N :=
  match op_kind op with
  | OpKind.Overwrite | OpKind.Insert | OpKind.Extend | OpKind.SetXattr =>
      Some (sat_add (op_src op) (op_len op))
  | _ => None
  end.
Definition emit_change (st : OpsDoc * N) (change : string * option SpecialNode) : OpsDoc * N :=
  let '(doc, offset) := st in
  let '(path, node) := change in
  let '(table, index) := intern (paths doc) path in
  match node with
  | Some _ =>
      (mkOpsDoc table (ops doc ++ [mkOp OpKind.Mknod 0 index 0 ENCODED_BYTES offset]),
       sat_add offset ENCODED_BYTES)
  | None => (mkOpsDoc table (ops doc ++ [mkOp OpKind.Unlink 0 index 0 0 u64_max]), offset)
  end.
Definition emit_specials (c : Composition) (doc : OpsDoc) : OpsDoc :=
  let offset := foldr N.max 0 (omap payload_end (ops doc)) in
  canonicalize (foldl emit_change (doc, offset) (bt_list (c_changes c))).1.

(** ** [compose_volume] *)

(** The operations the file replay skips. *)
Definition skipped_by_files (sym_paths link_paths special_paths : gset string) (op : VolumeOp.t) : bool :=
  is_directory op || is_symlink op || is_link op || is_mknod op
  || match op with
     | VolumeOp.Unlink path =>
         has_elem sym_paths path || has_elem link_paths path || has_elem special_paths path
     | _ => false
     end.

Definition file_survivors (base : Base) (entities : list Entity) : gset string :=
  let entity_origins : gset string := list_to_set (omap e_origin entities) in
  list_to_set (omap survivor_of entities)
  ∪ list_to_set (filter (λ path, path ∉ entity_origins) (b_files base).*1).

Definition renamed_away (entities : list Entity) : gset string :=
  list_to_set (omap (λ e,
    if e_live e then
      match e_origin e with
      | Some origin => if bool_decide (origin = e_final_path e) then None else Some origin
      | None => None
      end
    else None) entities).

Definition compose_volume (base : Base) (journal : list VolumeOp.t) : result DeriveError.t OpsDoc :=
  specials ← composition_of base journal;
  _ ← check_no_file_directory_collision base journal;
  directories ← compose_directories base journal;
  let sym_paths := symlink_paths base journal in
  symlinks ← compose_symlinks base journal sym_paths;
  let link_paths := hardlink_paths base journal in
  hardlinks ← compose_hardlinks base journal link_paths;
  entities ← replay_ops [] base
    (filter (λ op, skipped_by_files sym_paths link_paths (c_paths specials) op = false) journal);
  let survivors := file_survivors base entities ∪ c_survivors specials in
  let away := renamed_away entities in
  let present_dirs := present_directories base journal in
  modes ← compose_modes base survivors away present_dirs journal;
  xattrs ← compose_xattrs base survivors away present_dirs journal;
  Ok (emit_specials specials (seal entities directories modes symlinks xattrs hardlinks)).

Example compose_rename_with_edit :
  named <$> match compose_volume base_sample
      [VolumeOp.Rename "b" "c"; VolumeOp.Insert "c" 1 2; VolumeOp.SetMode "a" 493] with
    Ok d => Some d | Err _ => None end =
  Some [mkNamedOp OpKind.SetMode 0 (Some "a"%string) (inl 0) 493 (inl u64_max);
        mkNamedOp OpKind.Rename 0 (Some "c"%string) (inl 0) 0 (inr (Some "b"%string));
        mkNamedOp OpKind.Insert 0 (Some "c"%string) (inl 1) 2 (inl 1)].
Proof. vm_compute. reflexivity. Qed.
