(* ===== verification/History.v ===== *)
(** * Version histories

    Models the per-key version histories of [crates/merge/src/engine.rs]:
    [fold_entries], [history_at], [present_at], [history_touches],
    [paths_changed_in], and one dimension of a green (its current values, the
    history of each key and the version each key last changed at) with the
    updates [commit] makes.  A history is well formed when its versions
    ascend; then a push leaves every earlier version's reading as it was, and
    a fold every reading at or above its floor. *)

From S2P Require Import Prelude.
#[local] Open Scope N_scope.

(** A history: [(version, value)] entries in recording order. *)
Abbreviation History V := (list (N * V)).

(** ** Reading *)

(** [history.iter().rev().find(|(recorded, _)| recorded <= version)]. *)
Definition entry_at {V} (h : History V) (version : N) : option (N * V) :=
  List.find (λ e, e.1 <=? version) (rev h).

Definition history_at {V} (h : History (option V)) (version : N) : option V :=
  match entry_at h version with Some (_, v) => v | None => None end.

Definition present_at (h : History bool) (version : N) : bool :=
  match entry_at h version with Some (_, present) => present | None => false end.

Definition history_touches {V} (h : History V) (from to : N) : bool :=
  existsb (λ e, (from <? e.1) && (e.1 <=? to)) h.

Definition paths_changed_in {K V} `{Countable K, !BTreeKey K} (histories : gmap K (History V))
    (from to : N) : list K :=
  (filter (λ e, history_touches e.2 from to = true) (bt_list histories)).*1.

(** ** Folding *)

(** [take_while(..).count()]. *)
Fixpoint count_while {A} (test : A → bool) (l : list A) : nat :=
  match l with
  | [] => O
  | x :: r => if test x then S (count_while test r) else O
  end.

(** [fold_entries]: the folded history and the cost of what it dropped. *)
Definition fold_entries {V} (history : History V) (floor : N) (cost : V → N) : History V * N :=
  let below := count_while (λ e : N * V, e.1 <? floor) history in
  let at_floor := match history !! below with Some (version, _) => version =? floor | None => false end in
  let dropping := if at_floor then below else pred below in
  if decide (dropping = O) then (history, 0)
  else
    let dropping := Nat.min dropping (length history) in
    (drop dropping history, sum_N (map (λ e, cost e.2) (take dropping history))).

(** ** One dimension of a green *)
Record Dim (K V : Type) `{Countable K} := mkDim {
  d_cur : gmap K V;
  d_hist : gmap K (History (option V));
  d_changed : gmap K N
}.
Arguments mkDim {K V _ _} _ _ _.
Arguments d_cur {K V _ _} _.
Arguments d_hist {K V _ _} _.
Arguments d_changed {K V _ _} _.

Section dim.
Context {K V : Type} `{Countable K}.

Definition dim_empty : Dim K V := mkDim ∅ ∅ ∅.

(** [history.entry(key).or_default().push((version, value))]. *)
Definition push_history {W} (hist : gmap K (History W)) (k : K) (version : N) (v : W) :
    gmap K (History W) :=
  <[k := default [] (hist !! k) ++ [(version, v)]]> hist.

(** A value set at a version: current, changed and history together. *)
Definition dim_set (d : Dim K V) (k : K) (v : V) (version : N) : Dim K V :=
  mkDim (<[k := v]> (d_cur d)) (push_history (d_hist d) k version (Some v))
    (<[k := version]> (d_changed d)).

(** A value removed at a version. *)
Definition dim_remove (d : Dim K V) (k : K) (version : N) : Dim K V :=
  mkDim (delete k (d_cur d)) (push_history (d_hist d) k version None)
    (<[k := version]> (d_changed d)).

(** A value seeded at version 0 ([with_origin]). *)
Definition dim_seed (d : Dim K V) (k : K) (v : V) : Dim K V :=
  mkDim (<[k := v]> (d_cur d)) (<[k := [(0, Some v)]]> (d_hist d)) (<[k := 0]> (d_changed d)).

(** The value at a version, [histories.get(key).and_then(|h| history_at(h, version))]. *)
Definition dim_at (d : Dim K V) (k : K) (version : N) : option V :=
  d_hist d !! k ≫= λ h, history_at h version.

(** [changed.get(key).copied().unwrap_or(0)]. *)
Definition changed_at (d : Dim K V) (k : K) : N := default 0 (d_changed d !! k).

(** Every history folded, and the cost released. *)
Definition fold_histories {W} (hist : gmap K (History W)) (floor : N) (cost : W → N) :
    gmap K (History W) :=
  (λ h, (fold_entries h floor cost).1) <$> hist.
Definition dim_fold (d : Dim K V) (floor : N) : Dim K V :=
  mkDim (d_cur d) (fold_histories (d_hist d) floor (λ _, 0)) (d_changed d).
End dim.

(** ** Well-formed histories *)

(** Versions never go down; a reader's version lies in the range it names. *)
Definition ascending {V} (h : History V) : Prop := StronglySorted (λ a b, a.1 ≤ b.1) h.
Definition bounded {V} (h : History V) (head : N) : Prop := Forall (λ e, e.1 ≤ head) h.
Definition hist_ok {V} (h : History V) (head : N) : Prop := ascending h ∧ bounded h head.

(** A dimension at head [head]: well-formed histories whose last word is the
    current value. *)
Record dim_ok {K V} `{Countable K} (d : Dim K V) (head : N) : Prop := {
  dok_hist : ∀ k h, d_hist d !! k = Some h → hist_ok h head;
  dok_cur : ∀ k, d_cur d !! k = dim_at d k head
}.

(** ** Lemmas: reading *)
Lemma entry_at_snoc {V} (h : History V) v x version :
  entry_at (h ++ [(v, x)]) version = if v <=? version then Some (v, x) else entry_at h version.
Proof. unfold entry_at. rewrite rev_app_distr. simpl. done. Qed.

Lemma entry_at_app {V} (h1 h2 : History V) version :
  entry_at (h1 ++ h2) version =
    match entry_at h2 version with Some e => Some e | None => entry_at h1 version end.
Proof.
  induction h2 as [|[v x] h2 IH] using rev_ind; [by rewrite app_nil_r|].
  rewrite app_assoc, !entry_at_snoc. split_if; [done|]. apply IH.
Qed.

Lemma history_at_snoc_old {V} (h : History (option V)) v x version :
  version < v → history_at (h ++ [(v, x)]) version = history_at h version.
Proof. intros. unfold history_at. rewrite entry_at_snoc. by rewrite (proj2 (N.leb_gt _ _)). Qed.

Lemma history_at_snoc_new {V} (h : History (option V)) v x version :
  v ≤ version → history_at (h ++ [(v, x)]) version = x.
Proof. intros. unfold history_at. rewrite entry_at_snoc. by rewrite (proj2 (N.leb_le _ _)). Qed.

Lemma present_at_snoc_old (h : History bool) v x version :
  version < v → present_at (h ++ [(v, x)]) version = present_at h version.
Proof. intros. unfold present_at. rewrite entry_at_snoc. by rewrite (proj2 (N.leb_gt _ _)). Qed.

Lemma present_at_snoc_new (h : History bool) v x version :
  v ≤ version → present_at (h ++ [(v, x)]) version = x.
Proof. intros. unfold present_at. rewrite entry_at_snoc. by rewrite (proj2 (N.leb_le _ _)). Qed.

(** Past the last entry nothing changes. *)
Lemma entry_at_bounded {V} (h : History V) head version :
  bounded h head → head ≤ version → entry_at h version = entry_at h head.
Proof.
  intros Hb Hv. induction h as [|[v x] h IH] using rev_ind; [done|].
  apply Forall_app in Hb as [Hb Hx]. inversion_clear Hx as [|?? Hle _]. simpl in Hle.
  rewrite !entry_at_snoc, !(proj2 (N.leb_le _ _)) by lia. done.
Qed.

Lemma hist_ok_snoc {V} (h : History V) head v x :
  hist_ok h head → head ≤ v → hist_ok (h ++ [(v, x)]) v.
Proof.
  intros [Ha Hb] Hv. split.
  - apply StronglySorted_app_2; [|done|repeat constructor].
    intros a b Ha' Hb'. apply list_elem_of_singleton in Hb' as ->. simpl.
    unfold bounded in Hb. rewrite Forall_forall in Hb. specialize (Hb a Ha'). lia.
  - apply Forall_app. split; [|by repeat constructor].
    eapply Forall_impl; [exact Hb|]. cbn. lia.
Qed.

Lemma hist_ok_weaken {V} (h : History V) head head' :
  hist_ok h head → head ≤ head' → hist_ok h head'.
Proof.
  intros [Ha Hb] Hle. split; [done|]. eapply Forall_impl; [exact Hb|]. cbn. lia.
Qed.

(** ** Lemmas: folding *)
Lemma count_while_le {A} (test : A → bool) l : (count_while test l ≤ length l)%nat.
Proof. induction l; simpl; [lia|]. split_if; lia. Qed.

Lemma count_while_take {A} (test : A → bool) l x :
  x ∈ take (count_while test l) l → test x = true.
Proof.
  induction l as [|y l IH]; simpl; [set_solver|]. destruct (test y) eqn:E; simpl; [|set_solver].
  intros [->|]%elem_of_cons; auto.
Qed.

(** The entries a fold drops, the ones it keeps, and what it charges. *)
Lemma fold_entries_split {V} (h : History V) floor cost :
  ascending h →
  ∃ gone kept, h = gone ++ kept ∧ (fold_entries h floor cost).1 = kept ∧
    (fold_entries h floor cost).2 = sum_N (map (λ e, cost e.2) gone) ∧
    (gone ≠ [] → ∃ e rest, kept = e :: rest ∧ e.1 ≤ floor).
Proof.
  intros Ha. unfold fold_entries. set (below := count_while _ h).
  set (dropping := if match h !! below with Some (v, _) => v =? floor | None => false end
                   then below else pred below).
  assert (Hle : (below ≤ length h)%nat) by apply count_while_le.
  assert (Hd : (dropping ≤ below)%nat) by (unfold dropping; split_if; lia).
  case_decide as E; cbn [fst snd].
  { exists [], h. split_and!; done. }
  rewrite Nat.min_l by lia. exists (take dropping h), (drop dropping h).
  split_and!; [by rewrite take_drop|done|done|]. intros _.
  destruct (lookup_lt_is_Some_2 h dropping) as [e He].
  { unfold dropping in *. destruct (h !! below) as [[v x]|] eqn:Eb.
    - apply lookup_lt_Some in Eb. lia.
    - lia. }
  exists e, (drop (S dropping) h). split; [by apply drop_S|].
  unfold dropping in He. destruct (h !! below) as [[v x]|] eqn:Eb; [destruct (v =? floor) eqn:Ev|].
  - bool_to_prop. subst v. rewrite Eb in He. injection He as <-. simpl. lia.
  - assert (Hin : e ∈ take below h).
    { apply list_elem_of_lookup. exists (pred below). rewrite lookup_take_lt by (unfold dropping in *; lia). done. }
    apply count_while_take in Hin. bool_to_prop. lia.
  - assert (Hin : e ∈ take below h).
    { apply list_elem_of_lookup. exists (pred below). rewrite lookup_take_lt by (unfold dropping in *; lia). done. }
    apply count_while_take in Hin. bool_to_prop. lia.
Qed.

(** A reading at or above the floor sees an entry the fold kept. *)
Lemma entry_at_fold {V} (h : History V) floor cost version :
  ascending h → floor ≤ version →
  entry_at (fold_entries h floor cost).1 version = entry_at h version.
Proof.
  intros Ha Hv. destruct (fold_entries_split h floor cost Ha) as (gone & kept & -> & -> & _ & Hk).
  rewrite entry_at_app. destruct gone as [|g gone]; [by destruct (entry_at kept version)|].
  destruct (Hk ltac:(done)) as (e & rest & -> & He).
  destruct (entry_at (e :: rest) version) eqn:E; [done|]. exfalso.
  change (e :: rest) with ([e] ++ rest) in E. rewrite entry_at_app in E.
  destruct (entry_at rest version); [done|]. cbn in E. by rewrite (proj2 (N.leb_le _ _)) in E by lia.
Qed.

Lemma fold_entries_ok {V} (h : History V) floor cost head :
  hist_ok h head → hist_ok (fold_entries h floor cost).1 head.
Proof.
  intros [Ha Hb]. destruct (fold_entries_split h floor cost Ha) as (gone & kept & -> & -> & _ & _).
  apply Forall_app in Hb as [_ Hb]. split; [|done]. by apply StronglySorted_app_1_r in Ha.
Qed.

(** ** Lemmas: dimensions *)
Section dim_lemmas.
Context {K V : Type} `{Countable K}.
Implicit Types d : Dim K V.

Lemma dim_at_push (hist : gmap K (History (option V))) k q version v x :
  (push_history hist k v x !! q ≫= λ h, history_at h version) =
    if decide (k = q) then
      if v <=? version then x else hist !! q ≫= λ h, history_at h version
    else hist !! q ≫= λ h, history_at h version.
Proof.
  unfold push_history. rewrite lookup_insert. case_decide as E; [|done]. subst q. cbn.
  unfold history_at. rewrite entry_at_snoc. split_if; [done|]. by destruct (hist !! k).
Qed.

(** An update at a later version is invisible to a pinned one. *)
Lemma dim_at_set_old d k v version q pinned :
  pinned < version → dim_at (dim_set d k v version) q pinned = dim_at d q pinned.
Proof.
  intros. unfold dim_at, dim_set. cbn [d_hist]. rewrite dim_at_push.
  rewrite (proj2 (N.leb_gt _ _)) by done. by case_decide.
Qed.
Lemma dim_at_remove_old d k version q pinned :
  pinned < version → dim_at (dim_remove d k version) q pinned = dim_at d q pinned.
Proof.
  intros. unfold dim_at, dim_remove. cbn [d_hist]. rewrite dim_at_push.
  rewrite (proj2 (N.leb_gt _ _)) by done. by case_decide.
Qed.

Lemma push_history_ok {W} (hist : gmap K (History W)) k v x head q h :
  (∀ k h, hist !! k = Some h → hist_ok h head) → head ≤ v →
  push_history hist k v x !! q = Some h → hist_ok h v.
Proof.
  intros Hh Hv. unfold push_history. rewrite lookup_insert. case_decide as E.
  - intros [= <-]. subst. apply (hist_ok_snoc _ head); [|done].
    destruct (hist !! q) eqn:Eq; [by eapply Hh|]. split; constructor.
  - intros Hq. eapply hist_ok_weaken; [|exact Hv]. by eapply Hh.
Qed.

Lemma dim_at_bounded d head version k :
  dim_ok d head → head ≤ version → dim_at d k version = dim_at d k head.
Proof.
  intros Hd Hv. unfold dim_at. destruct (d_hist d !! k) as [h|] eqn:E; [|done]. simpl.
  unfold history_at. rewrite (entry_at_bounded h head version); [done| |done].
  by apply (dok_hist _ _ Hd k).
Qed.

Lemma dim_ok_weaken d head head' : dim_ok d head → head ≤ head' → dim_ok d head'.
Proof.
  intros Hd Hle. constructor.
  - intros k h Hk. eapply hist_ok_weaken; [by eapply dok_hist|done].
  - intros k. rewrite (dim_at_bounded d head head') by done. by apply dok_cur.
Qed.

Lemma dim_set_ok d k v version : dim_ok d version → dim_ok (dim_set d k v version) version.
Proof.
  intros Hd. constructor.
  - intros q h. apply (push_history_ok (d_hist d) k version (Some v) version); [by apply Hd|lia].
  - intros q. unfold dim_at, dim_set. cbn [d_hist d_cur]. rewrite dim_at_push, N.leb_refl.
    rewrite lookup_insert. case_decide; [done|]. by apply Hd.
Qed.
Lemma dim_remove_ok d k version : dim_ok d version → dim_ok (dim_remove d k version) version.
Proof.
  intros Hd. constructor.
  - intros q h. apply (push_history_ok (d_hist d) k version None version); [by apply Hd|lia].
  - intros q. unfold dim_at, dim_remove. cbn [d_hist d_cur]. rewrite dim_at_push, N.leb_refl.
    rewrite lookup_delete. case_decide; [done|]. by apply Hd.
Qed.
Lemma dim_seed_ok d k v : dim_ok d 0 → dim_ok (dim_seed d k v) 0.
Proof.
  intros Hd. constructor; unfold dim_at, dim_seed; cbn [d_hist d_cur].
  - intros q h. rewrite lookup_insert. case_decide; [|by apply Hd]. intros [= <-].
    split; repeat constructor. simpl. lia.
  - intros q. rewrite !lookup_insert. case_decide; [done|]. by apply Hd.
Qed.
Lemma dim_empty_ok head : dim_ok (dim_empty : Dim K V) head.
Proof. constructor; unfold dim_at, dim_empty; cbn; intros; by rewrite ?lookup_empty in *. Qed.

(** Folding leaves every reading at or above the floor. *)
Lemma fold_histories_at (hist : gmap K (History (option V))) floor cost k version head :
  (∀ k h, hist !! k = Some h → hist_ok h head) → floor ≤ version →
  (fold_histories hist floor cost !! k ≫= λ h, history_at h version) =
    (hist !! k ≫= λ h, history_at h version).
Proof.
  intros Hh Hv. unfold fold_histories. rewrite lookup_fmap.
  destruct (hist !! k) as [h|] eqn:E; [|done]. simpl. unfold history_at.
  rewrite entry_at_fold; [done| |done]. by apply (Hh k).
Qed.

(** Reading the head survives any fold, even one past it. *)
Lemma fold_histories_head (hist : gmap K (History (option V))) floor cost k head :
  (∀ k h, hist !! k = Some h → hist_ok h head) →
  (fold_histories hist floor cost !! k ≫= λ h, history_at h head) =
    (hist !! k ≫= λ h, history_at h head).
Proof.
  intros Hh. destruct (decide (floor ≤ head)) as [|Hf]; [by eapply fold_histories_at|].
  assert (Hb : ∀ h, fold_histories hist floor cost !! k = Some h → bounded h head).
  { unfold fold_histories. intros h. rewrite lookup_fmap_Some. intros (h' & <- & Hk).
    by apply (fold_entries_ok h' floor cost head), (Hh k). }
  pose proof (fold_histories_at hist floor cost k floor head Hh ltac:(lia)) as Hat.
  assert (Hr : ∀ h, bounded h head → history_at h floor = history_at (V := V) h head).
  { intros h Hb'. unfold history_at. by rewrite (entry_at_bounded h head floor) by (done || lia). }
  unfold fold_histories in *. rewrite lookup_fmap in *. destruct (hist !! k) as [h'|] eqn:E2; [|done].
  simpl in *. rewrite !Hr in Hat; [done|by apply (Hh k)|by apply Hb].
Qed.

Lemma dim_fold_ok d floor head (cost : option V → N) :
  dim_ok d head → dim_ok (mkDim (d_cur d) (fold_histories (d_hist d) floor cost) (d_changed d)) head.
Proof.
  intros Hd. constructor; cbn [d_hist d_cur].
  - intros k h. unfold fold_histories. rewrite lookup_fmap_Some. intros (h' & <- & Hk).
    apply fold_entries_ok. by apply (dok_hist _ _ Hd k).
  - intros k. unfold dim_at. cbn [d_hist]. rewrite fold_histories_head by apply (dok_hist _ _ Hd).
    by apply Hd.
Qed.
End dim_lemmas.

(** ** The last word of a history

    A key's last entry is its current value at the version it last changed. *)
Record dim_inv {K V} `{Countable K} (d : Dim K V) (head : N) : Prop := {
  di_ok : dim_ok d head;
  di_last : ∀ k,
    match d_hist d !! k with
    | Some h => last h = Some (changed_at d k, d_cur d !! k)
    | None => d_cur d !! k = None ∧ d_changed d !! k = None
    end
}.

Lemma fold_entries_last {V} (h : History V) floor cost :
  ascending h → last (fold_entries h floor cost).1 = last h.
Proof.
  intros Ha. destruct (fold_entries_split h floor cost Ha) as (gone & kept & -> & -> & _ & Hk).
  destruct gone as [|g gone]; [done|]. destruct (Hk ltac:(done)) as (e & rest & -> & _).
  rewrite last_app. by destruct (last (e :: rest)) eqn:E; [|apply last_None in E].
Qed.

Lemma entry_at_last {V} (h : History V) v x version :
  last h = Some (v, x) → v ≤ version → entry_at h version = Some (v, x).
Proof.
  intros Hl Hv. apply last_Some in Hl as (h' & ->). rewrite entry_at_snoc.
  by rewrite (proj2 (N.leb_le _ _)).
Qed.

Section dim_inv_lemmas.
Context {K V : Type} `{Countable K}.
Implicit Types d : Dim K V.

(** A key unchanged since a version reads there what it holds now. *)
Lemma dim_settled d head k version :
  dim_inv d head → changed_at d k ≤ version → dim_at d k version = d_cur d !! k.
Proof.
  intros [_ Hl] Hv. specialize (Hl k). unfold dim_at. destruct (d_hist d !! k) as [h|] eqn:E.
  - simpl. unfold history_at. by rewrite (entry_at_last h _ _ _ Hl Hv).
  - simpl. by destruct Hl as [-> _].
Qed.

Lemma dim_inv_empty head : dim_inv (dim_empty : Dim K V) head.
Proof. split; [apply dim_empty_ok|]. intros k. cbn. by rewrite !lookup_empty. Qed.

Lemma dim_inv_weaken d head head' : dim_inv d head → head ≤ head' → dim_inv d head'.
Proof. intros [Ho Hl] Hle. split; [by eapply dim_ok_weaken|done]. Qed.

Lemma push_last d (cur : gmap K V) k version x :
  (∀ q, k ≠ q → cur !! q = d_cur d !! q) → cur !! k = x →
  (∀ q, match d_hist d !! q with
        | Some h => last h = Some (changed_at d q, d_cur d !! q)
        | None => d_cur d !! q = None ∧ d_changed d !! q = None
        end) →
  ∀ q, match push_history (d_hist d) k version x !! q with
       | Some h => last h = Some (default 0 (<[k := version]> (d_changed d) !! q), cur !! q)
       | None => cur !! q = None ∧ <[k := version]> (d_changed d) !! q = None
       end.
Proof.
  intros Hne Hk Hl q. unfold push_history. rewrite !lookup_insert. case_decide as E.
  - subst q. rewrite last_snoc. simpl. by rewrite Hk.
  - rewrite Hne by done. exact (Hl q).
Qed.

Lemma dim_inv_set d k v version : dim_inv d version → dim_inv (dim_set d k v version) version.
Proof.
  intros [Ho Hl]. split; [by apply dim_set_ok|]. apply push_last; [..|done]; cbn.
  - intros q Hq. by rewrite lookup_insert_ne.
  - by rewrite lookup_insert, decide_True.
Qed.

Lemma dim_inv_remove d k version : dim_inv d version → dim_inv (dim_remove d k version) version.
Proof.
  intros [Ho Hl]. split; [by apply dim_remove_ok|]. apply push_last; [..|done]; cbn.
  - intros q Hq. by rewrite lookup_delete_ne.
  - by rewrite lookup_delete, decide_True.
Qed.

Lemma dim_inv_seed d k v : dim_inv d 0 → dim_inv (dim_seed d k v) 0.
Proof.
  intros [Ho Hl]. split; [by apply dim_seed_ok|]. intros q. unfold changed_at. cbn.
  rewrite !lookup_insert. case_decide; [done|]. exact (Hl q).
Qed.

Lemma dim_inv_fold d floor head (cost : option V → N) :
  dim_inv d head →
  dim_inv (mkDim (d_cur d) (fold_histories (d_hist d) floor cost) (d_changed d)) head.
Proof.
  intros [Ho Hl]. split; [by apply dim_fold_ok|]. intros q. specialize (Hl q).
  unfold fold_histories. cbn [d_hist d_cur d_changed]. rewrite lookup_fmap.
  destruct (d_hist d !! q) as [h|] eqn:E; simpl; [|done].
  rewrite fold_entries_last; [exact Hl|]. by apply (dok_hist _ _ Ho q).
Qed.
End dim_inv_lemmas.
