(* ===== verification/Rejected.v ===== *)
(** * The rejected-result cache

    Models the bounded cache of refused increments of
    [crates/merge/src/engine.rs]: [window_bytes], [rejected_entry_bytes],
    [retain_rejected], [set_rejected_budget], [forget_rejected].  The
    invariant: the running total is what the entries cost, within the budget,
    and the eviction order lists each kept identity once. *)

From S2P Require Import Prelude Range.
#[local] Open Scope N_scope.

#[export] Instance ascii_countable : Countable ascii :=
  inj_countable' N_of_ascii ascii_of_N ascii_N_embedding.

(** A conflict window: the file, the range in base coordinates, the class. *)
Record ConflictWindow := mkWindow {
  w_path : string;
  w_range : Range;
  w_class : MergeConflictClass
}.

#[export] Instance ConflictWindow_eq_dec : EqDecision ConflictWindow.
Proof. solve_decision. Defined.

(** [size_of::<Range>()] (two [u64]), [size_of::<MergeConflictClass>()] (a
    field-less enum) and [size_of::<[u8; 32]>()]. *)
Definition RANGE_BYTES : N := 16.
Definition CLASS_BYTES : N := 1.
Definition IDENTITY_BYTES : N := 32.

Definition window_bytes (w : ConflictWindow) : N :=
  sat_add (sat_add (len (as_bytes (w_path w))) RANGE_BYTES) CLASS_BYTES.

Definition rejected_entry_bytes (windows : list ConflictWindow) : N :=
  foldl sat_add IDENTITY_BYTES (map window_bytes windows).

(** The cache fields of [Green]. *)
Record Cache := mkCache {
  rejected : gmap bytes (list ConflictWindow);
  rejected_order : list bytes;
  rejected_bytes : N;
  rejected_budget : N;
  rejected_evicted : N
}.

Definition cache_empty : Cache := mkCache ∅ [] 0 0 0.

(** One turn of the eviction loops: the oldest entry goes. *)
Definition evict_oldest (c : Cache) (oldest : bytes) (order : list bytes) : Cache :=
  match rejected c !! oldest with
  | Some evicted =>
      mkCache (delete oldest (rejected c)) order
        (sat_sub (rejected_bytes c) (rejected_entry_bytes evicted)) (rejected_budget c)
        (sat_add (rejected_evicted c) 1)
  | None => mkCache (rejected c) order (rejected_bytes c) (rejected_budget c) (rejected_evicted c)
  end.

(** [while bytes + needed > budget { pop_front ... }], over the order queue. *)
Fixpoint evict_until (order : list bytes) (needed : N) (c : Cache) : Cache :=
  if rejected_budget c <? sat_add (rejected_bytes c) needed then
    match order with
    | [] => c
    | oldest :: order => evict_until order needed (evict_oldest c oldest order)
    end
  else c.

(** [retain_rejected]. *)
Definition retain_rejected (c : Cache) (id : bytes) (windows : list ConflictWindow) : Cache :=
  let needed := rejected_entry_bytes windows in
  if rejected_budget c <? needed then
    mkCache (rejected c) (rejected_order c) (rejected_bytes c) (rejected_budget c)
      (sat_add (rejected_evicted c) 1)
  else
    let c := evict_until (rejected_order c) needed c in
    mkCache (<[id := windows]> (rejected c)) (rejected_order c ++ [id])
      (sat_add (rejected_bytes c) needed) (rejected_budget c) (rejected_evicted c).

(** [set_rejected_budget]: its loop is the eviction loop with nothing to add. *)
Definition set_rejected_budget (c : Cache) (budget : N) : Cache :=
  let c := mkCache (rejected c) (rejected_order c) (rejected_bytes c) budget (rejected_evicted c) in
  evict_until (rejected_order c) 0 c.

(** [forget_rejected]: the cache and the bytes released. *)
Definition forget_rejected (c : Cache) (id : bytes) : Cache * N :=
  match rejected c !! id with
  | None => (c, 0)
  | Some windows =>
      let released := rejected_entry_bytes windows in
      (mkCache (delete id (rejected c)) (filter (λ kept, kept ≠ id) (rejected_order c))
         (sat_sub (rejected_bytes c) released) (rejected_budget c) (sat_add (rejected_evicted c) 1),
       released)
  end.

(** ** The invariant *)

(** What the kept entries cost, in the order's order. *)
Definition order_cost (m : gmap bytes (list ConflictWindow)) (order : list bytes) : N :=
  sum_N (map (λ id, match m !! id with Some ws => rejected_entry_bytes ws | None => 0 end) order).

Record cache_ok (c : Cache) : Prop := {
  ck_order : NoDup (rejected_order c);
  ck_keys : ∀ id, id ∈ rejected_order c ↔ is_Some (rejected c !! id);
  ck_bytes : rejected_bytes c = order_cost (rejected c) (rejected_order c);
  ck_budget : rejected_bytes c ≤ rejected_budget c;
  ck_word : rejected_budget c < usize_max
}.

(** ** Lemmas *)
Lemma order_cost_cons m id order :
  order_cost m (id :: order) =
    match m !! id with Some ws => rejected_entry_bytes ws | None => 0 end + order_cost m order.
Proof. done. Qed.

Lemma order_cost_delete m id order :
  id ∉ order → order_cost (delete id m) order = order_cost m order.
Proof.
  intros Hid. unfold order_cost. f_equal. apply map_ext_in. intros x Hx%list_elem_of_In.
  rewrite lookup_delete_ne; [done|]. set_solver.
Qed.

Lemma order_cost_insert m id ws order :
  id ∉ order → order_cost (<[id := ws]> m) order = order_cost m order.
Proof.
  intros Hid. unfold order_cost. f_equal. apply map_ext_in. intros x Hx%list_elem_of_In.
  rewrite lookup_insert_ne; [done|]. set_solver.
Qed.

Lemma order_cost_app m a b : order_cost m (a ++ b) = order_cost m a + order_cost m b.
Proof. unfold order_cost. rewrite map_app. apply sum_N_app. Qed.

(** The loop's state: accounted for, over a possibly lowered budget. *)
Definition evicting (c : Cache) : Prop :=
  NoDup (rejected_order c) ∧ (∀ id, id ∈ rejected_order c ↔ is_Some (rejected c !! id)) ∧
  rejected_bytes c = order_cost (rejected c) (rejected_order c) ∧ rejected_budget c < usize_max.

Lemma evict_oldest_evicting c oldest order :
  evicting c → rejected_order c = oldest :: order →
  evicting (evict_oldest c oldest order) ∧
  rejected_order (evict_oldest c oldest order) = order ∧
  rejected_budget (evict_oldest c oldest order) = rejected_budget c ∧
  rejected (evict_oldest c oldest order) = delete oldest (rejected c).
Proof.
  intros (Hnd & Hk & Hb & Hw) Ho. rewrite Ho in *. inversion_clear Hnd as [|?? Hni Hnd'].
  unfold evict_oldest. destruct (proj1 (Hk oldest) ltac:(set_solver)) as [ws Hws]. rewrite Hws.
  split_and!; try done. unfold evicting. cbn [rejected rejected_order rejected_bytes rejected_budget rejected_evicted]. split_and!; try done.
  - intros id. destruct (decide (id = oldest)) as [->|Hne].
    + rewrite lookup_delete, decide_True by done. split; [done|by intros [? ?]].
    + rewrite lookup_delete_ne by done. rewrite <- Hk. set_solver.
  - rewrite order_cost_delete, Hb, order_cost_cons, Hws by done. unfold sat_sub. lia.
Qed.

Lemma evict_until_evicting order needed : ∀ c,
  evicting c → rejected_order c = order → needed ≤ rejected_budget c →
  let c' := evict_until order needed c in
  evicting c' ∧ rejected_budget c' = rejected_budget c ∧
  rejected_bytes c' + needed ≤ rejected_budget c ∧
  (∀ id ws, rejected c' !! id = Some ws → rejected c !! id = Some ws).
Proof.
  induction order as [|oldest order IH]; intros c He Ho Hn; cbv zeta; cbn [evict_until];
    destruct (rejected_budget c <? sat_add (rejected_bytes c) needed) eqn:E; bool_to_prop.
  - exfalso. destruct He as (_ & _ & Hb & Hw). rewrite Ho in Hb. cbn in Hb.
    unfold sat_add, usize_max in *. lia.
  - destruct He as (? & ? & ? & Hw). unfold sat_add, usize_max in *. split_and!; try done. lia.
  - destruct (evict_oldest_evicting c oldest order He Ho) as (He' & Ho' & Hb' & Hr').
    destruct (IH _ He' Ho') as (? & HB & Hle & Hk); [by rewrite Hb'|].
    rewrite Hb' in *. split_and!; try done. intros id ws Hid. apply Hk in Hid.
    rewrite Hr' in Hid. by apply lookup_delete_Some in Hid as [_ ?].
  - destruct He as (? & ? & ? & Hw). unfold sat_add, usize_max in *. split_and!; try done. lia.
Qed.

Lemma cache_ok_evicting c : cache_ok c → evicting c.
Proof. intros [? ? ? ? ?]. done. Qed.

Lemma retain_rejected_ok c id windows :
  cache_ok c → rejected c !! id = None → cache_ok (retain_rejected c id windows).
Proof.
  intros Hc Hid. pose proof Hc as [Ho Hk Hb Hbu Hw]. unfold retain_rejected.
  destruct (rejected_budget c <? rejected_entry_bytes windows) eqn:E; bool_to_prop; [done|].
  destruct (evict_until_evicting (rejected_order c) (rejected_entry_bytes windows) c)
    as ((Ho' & Hk' & Hb' & Hw') & HB & Hle & Hsub); [by apply cache_ok_evicting|done|done|].
  set (c' := evict_until _ _ c) in *.
  assert (Hni : id ∉ rejected_order c').
  { rewrite Hk'. intros [ws Hws%Hsub]. congruence. }
  assert (Hsat : sat_add (rejected_bytes c') (rejected_entry_bytes windows)
                 = rejected_bytes c' + rejected_entry_bytes windows).
  { apply sat_add_small. unfold usize_max in *. lia. }
  constructor; cbn [rejected rejected_order rejected_bytes rejected_budget rejected_evicted]; rewrite ?Hsat.
  - apply NoDup_app. split_and!; [done|set_solver|apply NoDup_singleton].
  - intros x. rewrite elem_of_app, list_elem_of_singleton, Hk'. destruct (decide (x = id)) as [->|Hne].
    + rewrite lookup_insert, decide_True by done. naive_solver.
    + rewrite lookup_insert_ne by done. naive_solver.
  - rewrite order_cost_app, order_cost_insert, <- Hb' by done.
    rewrite order_cost_cons, lookup_insert, decide_True by done. unfold order_cost. cbn. lia.
  - rewrite HB. done.
  - by rewrite HB.
Qed.

Lemma set_rejected_budget_ok c budget :
  cache_ok c → budget < usize_max → cache_ok (set_rejected_budget c budget).
Proof.
  intros [Ho Hk Hb Hbu Hw] Hn. unfold set_rejected_budget. cbn [rejected_order].
  set (c0 := mkCache _ _ _ budget _).
  destruct (evict_until_evicting (rejected_order c) 0 c0) as ((? & ? & ? & ?) & HB & Hle & _);
    [done|done|cbn; lia|]. rewrite N.add_0_r in Hle. constructor; try done. by rewrite HB.
Qed.

Lemma order_cost_filter m id order :
  NoDup order → id ∈ order →
  order_cost m order = match m !! id with Some ws => rejected_entry_bytes ws | None => 0 end
    + order_cost (delete id m) (filter (λ kept, kept ≠ id) order).
Proof.
  intros Hnd Hin. rewrite order_cost_delete by (rewrite list_elem_of_filter; naive_solver).
  induction order as [|x order IH]; [set_solver|]. inversion_clear Hnd as [|?? Hni Hnd'].
  rewrite filter_cons. case_decide as Hx.
  - apply elem_of_cons in Hin as [->|Hin]; [done|]. specialize (IH Hnd' Hin).
    rewrite !order_cost_cons. lia.
  - subst x.
    assert (Hf : filter (λ kept, kept ≠ id) order = order).
    { clear -Hni. induction order as [|y order IH]; [done|]. rewrite filter_cons_True, IH; set_solver. }
    rewrite Hf, order_cost_cons. done.
Qed.

Lemma forget_rejected_ok c id :
  cache_ok c → cache_ok (forget_rejected c id).1 ∧
  rejected_bytes (forget_rejected c id).1 + (forget_rejected c id).2 = rejected_bytes c.
Proof.
  intros Hc. pose proof Hc as [Ho Hk Hb Hbu Hw]. unfold forget_rejected.
  destruct (rejected c !! id) as [ws|] eqn:E; cbn [fst snd]; [|split; [done|lia]].
  assert (Hin : id ∈ rejected_order c) by (apply Hk; by rewrite E).
  pose proof (order_cost_filter (rejected c) id (rejected_order c) Ho Hin) as Hcost.
  rewrite E, <- Hb in Hcost. split; [|cbn [rejected rejected_order rejected_bytes rejected_budget rejected_evicted]; unfold sat_sub; lia].
  constructor; cbn [rejected rejected_order rejected_bytes rejected_budget rejected_evicted]; unfold sat_sub.
  - by apply NoDup_filter.
  - intros x. rewrite list_elem_of_filter, Hk. destruct (decide (x = id)) as [->|Hne].
    + rewrite lookup_delete, decide_True by done. split; [naive_solver|by intros [? ?]].
    + rewrite lookup_delete_ne by done. naive_solver.
  - lia.
  - lia.
  - done.
Qed.

Lemma cache_empty_ok : cache_ok cache_empty.
Proof.
  constructor; cbn; try done; [constructor|]. intros id. rewrite lookup_empty.
  split; [set_solver|by intros [? ?]].
Qed.

(** An identity the cache does not hold stays out of it, unless retained. *)
Lemma evict_until_other order needed id : ∀ c,
  rejected c !! id = None → rejected (evict_until order needed c) !! id = None.
Proof.
  induction order as [|oldest order IH]; intros c Hid; cbn [evict_until]; split_if; try done.
  apply IH. unfold evict_oldest. destruct (rejected c !! oldest); [|done]. cbn.
  rewrite lookup_delete. by case_decide.
Qed.
Lemma retain_rejected_other c id windows q :
  q ≠ id → rejected c !! q = None → rejected (retain_rejected c id windows) !! q = None.
Proof.
  intros Hne Hq. unfold retain_rejected. split_if; [done|]. cbn. rewrite lookup_insert_ne by done.
  by apply evict_until_other.
Qed.
Lemma retain_rejected_same c id windows ws :
  rejected c !! id = None → rejected (retain_rejected c id windows) !! id = Some ws → ws = windows.
Proof.
  intros Hid. unfold retain_rejected. split_if; cbn; [by rewrite Hid|].
  rewrite lookup_insert, decide_True by done. by intros [= ->].
Qed.
Lemma set_rejected_budget_other c budget q :
  rejected c !! q = None → rejected (set_rejected_budget c budget) !! q = None.
Proof. intros Hq. by apply evict_until_other. Qed.
Lemma forget_rejected_other c id q :
  rejected c !! q = None → rejected (forget_rejected c id).1 !! q = None.
Proof.
  intros Hq. unfold forget_rejected. destruct (rejected c !! id); [|done]. cbn.
  rewrite lookup_delete. by case_decide.
Qed.

(** ** Properties *)

(** The operations on the cache: a refusal retained, a budget set, an entry
    forgotten. *)
Inductive cache_step (c : Cache) : Cache → Prop :=
| cs_retain id windows :
    rejected c !! id = None → cache_step c (retain_rejected c id windows)
| cs_budget budget : budget < usize_max → cache_step c (set_rejected_budget c budget)
| cs_forget id : cache_step c (forget_rejected c id).1.

Inductive cache_reachable : Cache → Prop :=
| cr_empty : cache_reachable cache_empty
| cr_step c c' : cache_reachable c → cache_step c c' → cache_reachable c'.

(** The rejected-result cache is bounded and balanced in every state its
    operations reach: the running total is exactly what the kept results cost,
    it is within the budget, and the eviction order names each kept identity
    exactly once. *)
Theorem cache_bounded (c : Cache) : cache_reachable c → cache_ok c.
Proof.
  induction 1 as [|c c' _ IH Hs].
  - apply cache_empty_ok.
  - destruct Hs; [by apply retain_rejected_ok|by apply set_rejected_budget_ok|].
    by apply forget_rejected_ok.
Qed.

(** Two results under a budget that holds one: the older goes. *)
Definition window_a : ConflictWindow := mkWindow "a" (mkRange 0 4) Overlap.
Lemma cache_bounded_witness :
  let c := retain_rejected (retain_rejected (set_rejected_budget cache_empty 60)
             [byte_of 1] [window_a]) [byte_of 2] [window_a] in
  rejected_order c = [[byte_of 2]] ∧ rejected_evicted c = 1 ∧ cache_ok c.
Proof.
  intros c. split_and!; [vm_compute; reflexivity..|]. apply (cache_bounded c).
  eapply cr_step; [eapply cr_step; [eapply cr_step; [apply cr_empty|]|]|].
  - apply (cs_budget _ 60). vm_compute. reflexivity.
  - apply cs_retain. vm_compute. reflexivity.
  - apply cs_retain. vm_compute. reflexivity.
Defined.
