(* ===== verification/Identity.v ===== *)
(** * The head identity's set hash

    Models [crates/merge/src/identity.rs] and the identity entries of
    [crates/merge/src/engine.rs]: an entry is its tag and length-prefixed
    fields, expanded by BLAKE3 into 1,024 sixteen-bit lanes; the set hash is
    their lane-wise sum modulo 2^16.  BLAKE3 is a library: it is the class
    [Blake3], of which only the length of the extendable output is assumed. *)

From S2P Require Import Prelude OpsDoc Special.
#[local] Open Scope N_scope.

(** The key-derivation mode of BLAKE3: a context, the bytes fed to the
    hasher, and how many output bytes are read. *)
Class Blake3 := {
  derive_xof : string → bytes → N → bytes;
  derive_xof_len : ∀ context input n, len (derive_xof context input n) = n
}.

Definition LANES : nat := 1024.
Definition ENTRY_CONTEXT : string := "slates 2026-11-05 green head identity entry lanes".
Definition SUM_CONTEXT : string := "slates 2026-11-05 green head identity sum".
Definition LANE_BYTES : nat := 2.

(** The running sum: [LANES] lanes. *)
Definition SetHash := list N.
Definition SetHash_default : SetHash := replicate LANES 0.

(** An entry being encoded: the bytes its hasher was fed. *)
Definition Entry := bytes.
Definition entry_new (tag : bytes) : Entry := tag.
Definition entry_field (e : Entry) (bs : bytes) : Entry := e ++ le_bytes 8 (len bs) ++ bs.
Definition entry_fixed (e : Entry) (bs : bytes) : Entry := e ++ bs.

(** [as_chunks::<2>().0] read as little-endian words. *)
Fixpoint words (bs : bytes) : list N :=
  match bs with
  | a :: b :: rest => le_val [a; b] :: words rest
  | _ => []
  end.

(** [u16::wrapping_add] and [u16::wrapping_sub]. *)
Definition wrapping_add (a b : N) : N := (a + b) mod 65536.
Definition wrapping_sub (a b : N) : N := (a + 65536 - b) mod 65536.

Section hashing.
Context `{Blake3}.

(** [Entry::lanes]. *)
Definition entry_lanes (e : Entry) : list N :=
  words (derive_xof ENTRY_CONTEXT e (N.of_nat (LANES * LANE_BYTES))).

(** [SetHash::add] and [SetHash::remove]. *)
Definition hash_add (h : SetHash) (e : Entry) : SetHash := zip_with wrapping_add h (entry_lanes e).
Definition hash_remove (h : SetHash) (e : Entry) : SetHash := zip_with wrapping_sub h (entry_lanes e).

(** [SetHash::identity]. *)
Definition hash_identity (h : SetHash) : bytes :=
  derive_xof SUM_CONTEXT (concat (map (le_bytes LANE_BYTES) h)) 32.
End hashing.

(** ** Entries of a green *)
Definition IDENTITY_TAG_FILE : bytes := as_bytes "F".
Definition IDENTITY_TAG_DIR : bytes := as_bytes "D".
Definition IDENTITY_TAG_MODE : bytes := as_bytes "M".
Definition IDENTITY_TAG_SYMLINK : bytes := as_bytes "S".
Definition IDENTITY_TAG_HARDLINK : bytes := as_bytes "L".
Definition IDENTITY_TAG_XATTR : bytes := as_bytes "X".
Definition IDENTITY_TAG_SPECIAL : bytes := as_bytes "I".

Definition special_entry (path : string) (node : SpecialNode) : Entry :=
  entry_field (entry_field (entry_new IDENTITY_TAG_SPECIAL) (as_bytes path)) (node_encode node).
Definition file_entry (path : string) (bs : bytes) : Entry :=
  entry_field (entry_field (entry_new IDENTITY_TAG_FILE) (as_bytes path)) bs.
Definition dir_entry (path : string) : Entry :=
  entry_field (entry_new IDENTITY_TAG_DIR) (as_bytes path).
Definition mode_entry (path : string) (mode : N) : Entry :=
  entry_fixed (entry_field (entry_new IDENTITY_TAG_MODE) (as_bytes path)) (le_bytes 4 mode).
Definition link_entry (tag : bytes) (path target : string) : Entry :=
  entry_field (entry_field (entry_new tag) (as_bytes path)) (as_bytes target).
Definition xattr_entry (path name : string) (value : bytes) : Entry :=
  entry_field (entry_field (entry_field (entry_new IDENTITY_TAG_XATTR) (as_bytes path))
    (as_bytes name)) value.

(** ** Keys *)
Module IdentityKey.
Inductive t :=
| File (path : string)
| Special (path : string)
| Dir (path : string)
| Mode (path : string)
| Symlink (path : string)
| Hardlink (path : string)
| Xattr (path name : string).

#[global] Instance eq_dec : EqDecision t.
Proof. solve_decision. Defined.

(** The variant's place, and the fields: the derived [Ord] compares these. *)
Definition code (k : t) : N * (string * string) :=
  match k with
  | File p => (0, (p, ""%string))
  | Special p => (1, (p, ""%string))
  | Dir p => (2, (p, ""%string))
  | Mode p => (3, (p, ""%string))
  | Symlink p => (4, (p, ""%string))
  | Hardlink p => (5, (p, ""%string))
  | Xattr p n => (6, (p, n))
  end.
Definition decode (c : N * (string * string)) : t :=
  match c with
  | (0, (p, _)) => File p
  | (1, (p, _)) => Special p
  | (2, (p, _)) => Dir p
  | (3, (p, _)) => Mode p
  | (4, (p, _)) => Symlink p
  | (5, (p, _)) => Hardlink p
  | (_, (p, n)) => Xattr p n
  end.
Lemma decode_code k : decode (code k) = k.
Proof. by destruct k. Qed.
#[global] Instance countable : Countable t := inj_countable' code decode decode_code.
End IdentityKey.

#[export] Program Instance identity_key : BTreeKey IdentityKey.t :=
  { key_leb a b := key_leb (IdentityKey.code a) (IdentityKey.code b) }.
Next Obligation. intros a b. apply key_leb_total. Qed.
Next Obligation. intros a b c. apply key_leb_trans. Qed.
Next Obligation.
  intros a b H1 H2. rewrite <- (IdentityKey.decode_code a), <- (IdentityKey.decode_code b).
  f_equal. by apply key_leb_antisym.
Qed.

(** ** A stand-in for the hash

    The input, cut or padded to the length asked for: it has the length law,
    so facts proved of every [Blake3] can be run. *)
Program Definition prefix_hash : Blake3 := {|
  derive_xof _ input n := takeN n (input ++ replicate (N.to_nat n) (byte_of 0))
|}.
Next Obligation.
  intros context input n. cbv beta. rewrite len_takeN, len_app. unfold len. rewrite length_replicate. lia.
Qed.

(** ** What a set hash sums

    [sums_to h f]: lane [i] of [h] is [f i] modulo 2^16. *)
Definition sums_to (h : SetHash) (f : nat → Z) : Prop :=
  length h = LANES ∧ ∀ i x, h !! i = Some x → Z.of_N x = (f i mod 65536)%Z.

Section sums.
Context `{Blake3}.

Definition lane (e : Entry) (i : nat) : Z := Z.of_N (default 0 (entry_lanes e !! i)).

Lemma length_words (bs : bytes) n : length bs = (2 * n)%nat → length (words bs) = n.
Proof.
  revert bs. induction n as [|n IH]; intros bs Hb.
  - by destruct bs.
  - destruct bs as [|a [|b bs]]; simpl in Hb; [lia..|]. cbn [words length]. f_equal. apply IH. lia.
Qed.

Lemma length_entry_lanes e : length (entry_lanes e) = LANES.
Proof.
  unfold entry_lanes. apply length_words.
  pose proof (derive_xof_len ENTRY_CONTEXT e (N.of_nat (LANES * LANE_BYTES))) as Hl.
  unfold len in Hl. apply Nat2N.inj in Hl. rewrite Hl. unfold LANES, LANE_BYTES. lia.
Qed.

Lemma sums_to_default : sums_to SetHash_default (λ _, 0%Z).
Proof.
  split; [apply length_replicate|]. intros i x Hx. apply lookup_replicate in Hx as [-> _]. done.
Qed.

Lemma words_lt (bs : bytes) n x : (length bs ≤ n)%nat → x ∈ words bs → x < 65536.
Proof.
  revert bs. induction n as [|n IH]; intros bs Hl Hx.
  - destruct bs; simpl in *; [set_solver|lia].
  - destruct bs as [|a [|b bs]]; cbn [words] in Hx; [set_solver..|].
    apply elem_of_cons in Hx as [->|Hx].
    + cbn [le_val]. pose proof (byte_val_lt a). pose proof (byte_val_lt b). lia.
    + apply (IH bs); [simpl in Hl; lia|done].
Qed.

Lemma entry_lanes_lt e i x : entry_lanes e !! i = Some x → x < 65536.
Proof.
  intros Hx. unfold entry_lanes in Hx. apply list_elem_of_lookup_2 in Hx.
  by eapply words_lt in Hx.
Qed.

Lemma sums_to_lt h f i x : sums_to h f → h !! i = Some x → x < 65536.
Proof.
  intros [_ Hf] Hx. specialize (Hf i x Hx).
  pose proof (Z.mod_pos_bound (f i) 65536 ltac:(lia)). lia.
Qed.

Lemma sums_to_add h f e : sums_to h f → sums_to (hash_add h e) (λ i, (f i + lane e i)%Z).
Proof.
  intros [Hl Hf]. unfold hash_add. split.
  - rewrite length_zip_with, Hl, length_entry_lanes. apply Nat.min_id.
  - intros i x Hx. apply lookup_zip_with_Some in Hx as (a & b & -> & Ha & Hb).
    unfold lane, wrapping_add. rewrite Hb. cbn [default]. rewrite N2Z.inj_mod, N2Z.inj_add.
    rewrite (Hf i a Ha). simpl Z.of_N at 2. change (Z.of_N 65536) with 65536%Z.
    by rewrite Zplus_mod_idemp_l.
Qed.

Lemma sums_to_remove h f e : sums_to h f → sums_to (hash_remove h e) (λ i, (f i - lane e i)%Z).
Proof.
  intros Hh. pose proof Hh as [Hl Hf]. unfold hash_remove. split.
  - rewrite length_zip_with, Hl, length_entry_lanes. apply Nat.min_id.
  - intros i x Hx. apply lookup_zip_with_Some in Hx as (a & b & -> & Ha & Hb).
    pose proof (sums_to_lt h f i a Hh Ha). pose proof (entry_lanes_lt e i b Hb).
    unfold lane, wrapping_sub. rewrite Hb. cbn [default]. rewrite N2Z.inj_mod, N2Z.inj_sub by lia.
    rewrite N2Z.inj_add, (Hf i a Ha). change (Z.of_N 65536) with 65536%Z.
    replace (f i mod 65536 + 65536 - Z.of_N b)%Z with (f i mod 65536 - Z.of_N b + 1 * 65536)%Z by lia.
    rewrite Z.mod_add by lia. by rewrite Zminus_mod_idemp_l.
Qed.

(** A set hash is determined by its sums. *)
Lemma sums_to_inj h h' f f' :
  sums_to h f → sums_to h' f' → (∀ i, (f i mod 65536 = f' i mod 65536)%Z) → h = h'.
Proof.
  intros [Hl Hf] [Hl' Hf'] Hff. apply list_eq_same_length with LANES; [done|done|].
  intros i x y _ Hx Hy. specialize (Hf i x Hx). specialize (Hf' i y Hy). specialize (Hff i). lia.
Qed.

Lemma sums_to_ext h f f' : sums_to h f → (∀ i, f i = f' i) → sums_to h f'.
Proof. intros [Hl Hf] E. split; [done|]. intros i x Hx. rewrite <- E. by apply Hf. Qed.
End sums.
