(* ===== verification/Green.v ===== *)
(** * The green volume

    Models [Green] of [crates/merge/src/engine.rs]: the state, the resolution
    of an increment's document ([resolve]), the per-dimension merges and
    [decide], and [commit] with [submit].  The fields of [Green] are grouped:
    each dimension's current map, history and last-changed map is a [Dim]
    ([History]), the identity's running sum an [Ident] ([Identity]), the
    rejected results a [Cache] ([Rejected]). *)

From S2P Require Import Prelude Range OpsDoc ByteSplice PosMap Special Origin IncrementDoc History.
From S2P Require Import Rejected Identity.
#[local] Open Scope N_scope.

(** [size_of::<SpecialNode>()] on the 64-bit targets: the 41 bytes of the
    fields, aligned to the [i64]. *)
Definition SPECIAL_NODE_BYTES : N := 48.

(** ** State *)
Record State := mkState {
  content : Dim string bytes;
  specials : Dim string SpecialNode;
  modes : Dim string N;
  symlinks : Dim string string;
  hardlinks : Dim string string;
  xattrs : Dim (string * string) bytes;
  dirs : gset string;
  dir_history : gmap string (History bool);
  deltas : list (gmap string (list Op));
  history_bytes : N
}.

Record Ident := mkIdent {
  identity : SetHash;
  identity_version : N;
  identity_dirty : gset IdentityKey.t
}.

Record Green := mkGreen {
  g_state : State;
  g_ident : Ident;
  accepted : gmap bytes N;
  g_cache : Cache;
  folded_below : N;
  fast_path_hits : N
}.

Definition state_empty : State :=
  mkState dim_empty dim_empty dim_empty dim_empty dim_empty dim_empty ∅ ∅ [] 0.

(** [Green::new]. *)
Definition green_new : Green :=
  mkGreen state_empty (mkIdent SetHash_default 0 ∅) ∅ cache_empty 0 0.

(** Field updates. *)
Definition with_content (s : State) (d : Dim string bytes) : State :=
  mkState d (specials s) (modes s) (symlinks s) (hardlinks s) (xattrs s) (dirs s) (dir_history s)
    (deltas s) (history_bytes s).
Definition with_specials (s : State) (d : Dim string SpecialNode) : State :=
  mkState (content s) d (modes s) (symlinks s) (hardlinks s) (xattrs s) (dirs s) (dir_history s)
    (deltas s) (history_bytes s).
Definition with_modes (s : State) (d : Dim string N) : State :=
  mkState (content s) (specials s) d (symlinks s) (hardlinks s) (xattrs s) (dirs s) (dir_history s)
    (deltas s) (history_bytes s).
Definition with_symlinks (s : State) (d : Dim string string) : State :=
  mkState (content s) (specials s) (modes s) d (hardlinks s) (xattrs s) (dirs s) (dir_history s)
    (deltas s) (history_bytes s).
Definition with_hardlinks (s : State) (d : Dim string string) : State :=
  mkState (content s) (specials s) (modes s) (symlinks s) d (xattrs s) (dirs s) (dir_history s)
    (deltas s) (history_bytes s).
Definition with_xattrs (s : State) (d : Dim (string * string) bytes) : State :=
  mkState (content s) (specials s) (modes s) (symlinks s) (hardlinks s) d (dirs s) (dir_history s)
    (deltas s) (history_bytes s).
Definition with_dirs (s : State) (ds : gset string) (h : gmap string (History bool)) : State :=
  mkState (content s) (specials s) (modes s) (symlinks s) (hardlinks s) (xattrs s) ds h
    (deltas s) (history_bytes s).
Definition with_deltas (s : State) (ds : list (gmap string (list Op))) : State :=
  mkState (content s) (specials s) (modes s) (symlinks s) (hardlinks s) (xattrs s) (dirs s)
    (dir_history s) ds (history_bytes s).
Definition with_history_bytes (s : State) (n : N) : State :=
  mkState (content s) (specials s) (modes s) (symlinks s) (hardlinks s) (xattrs s) (dirs s)
    (dir_history s) (deltas s) n.

(** [Green::head]: the number of committed deltas. *)
Definition head (s : State) : N := len (deltas s).

(** Whether a dimension holds the key now ([contains_key]). *)
Definition has {K V} `{Countable K} (d : Dim K V) (k : K) : bool := has_key (d_cur d) k.

(** ** Resolving a document *)
Record Resolved := mkResolved {
  r_content : gmap string (list Op);
  r_creates : gset string;
  r_specials : gmap string SpecialNode;
  r_invalid : gset string;
  r_unlinks : gset string;
  r_mkdirs : gset string;
  r_rmdirs : gset string;
  r_modes : gmap string N;
  r_symlinks : gmap string string;
  r_hardlinks : gmap string string;
  r_renames : gmap string string;
  r_xattr_sets : list (string * string * bytes);
  r_xattr_removes : list (string * string)
}.

Definition resolved_empty : Resolved := mkResolved ∅ ∅ ∅ ∅ ∅ ∅ ∅ ∅ ∅ ∅ ∅ [] [].

(** The [name] closure: a reference's path, empty when it dangles. *)
Definition ref_name (doc : OpsDoc) (index : N) : string :=
  default "" (pt_path (paths doc) (clamp_u16 index)).

(** One operation of [resolve]'s loop. *)
Definition resolve_op (inc : Increment) (r : Resolved) (op : Op) : Resolved :=
  let '(mkResolved co cr sp iv un mk rm mo sy ha re xs xr) := r in
  let name := ref_name (inc_doc inc) in
  let path := name (op_path op) in
  match op_kind op with
  | OpKind.Overwrite | OpKind.Extend | OpKind.Truncate | OpKind.Insert | OpKind.Delete =>
      mkResolved (<[path := default [] (co !! path) ++ [op]]> co) cr sp iv un mk rm mo sy ha re xs xr
  | OpKind.Mknod =>
      match special_payload (inc_doc inc) (inc_post inc) op with
      | Ok node => mkResolved co cr (<[path := node]> sp) iv un mk rm mo sy ha re xs xr
      | Err _ => mkResolved co cr sp ({[ path ]} ∪ iv) un mk rm mo sy ha re xs xr
      end
  | OpKind.Create => mkResolved co ({[ path ]} ∪ cr) sp iv un mk rm mo sy ha re xs xr
  | OpKind.Unlink => mkResolved co cr sp iv ({[ path ]} ∪ un) mk rm mo sy ha re xs xr
  | OpKind.Mkdir => mkResolved co cr sp iv un ({[ path ]} ∪ mk) rm mo sy ha re xs xr
  | OpKind.Rmdir => mkResolved co cr sp iv un mk ({[ path ]} ∪ rm) mo sy ha re xs xr
  | OpKind.SetMode => mkResolved co cr sp iv un mk rm (<[path := clamp_u32 (op_len op)]> mo) sy ha re xs xr
  | OpKind.Symlink => mkResolved co cr sp iv un mk rm mo (<[path := name (op_src op)]> sy) ha re xs xr
  | OpKind.Link => mkResolved co cr sp iv un mk rm mo sy (<[path := name (op_src op)]> ha) re xs xr
  | OpKind.Rename => mkResolved co cr sp iv un mk rm mo sy ha (<[path := name (op_src op)]> re) xs xr
  | OpKind.SetXattr =>
      mkResolved co cr sp iv un mk rm mo sy ha re
        (xs ++ [(path, name (op_at op), post_slice (inc_post inc) (op_src op) (op_len op))]) xr
  | OpKind.RemoveXattr => mkResolved co cr sp iv un mk rm mo sy ha re xs (xr ++ [(path, name (op_at op))])
  end.

(** Whether an IPC creation's path is used as another kind too. *)
Definition special_clash (r : Resolved) (path : string) : bool :=
  has_elem (r_creates r) path || has_key (r_content r) path || has_elem (r_mkdirs r) path
  || has_key (r_symlinks r) path || has_key (r_hardlinks r) path || has_key (r_renames r) path
  || has_elem (r_unlinks r) path || has_elem (r_rmdirs r) path.

(** [Green::resolve]. *)
Definition resolve (inc : Increment) : Resolved :=
  let r := foldl (resolve_op inc) resolved_empty (ops (inc_doc inc)) in
  let clashing : gset string := list_to_set (filter (λ p, special_clash r p = true) (bt_keys (r_specials r))) in
  mkResolved (r_content r) (r_creates r) (r_specials r) (clashing ∪ r_invalid r) (r_unlinks r)
    (r_mkdirs r) (r_rmdirs r) (r_modes r) (r_symlinks r) (r_hardlinks r) (r_renames r)
    (r_xattr_sets r) (r_xattr_removes r).

(** [Resolved::cleared]. *)
Definition cleared (r : Resolved) : gset string :=
  r_unlinks r ∪ r_rmdirs r ∪ list_to_set (bt_values (r_renames r)).

(** [Resolved::establishes]. *)
Definition establishes (r : Resolved) (path : string) : bool :=
  has_elem (r_creates r) path || has_elem (r_mkdirs r) path || has_key (r_renames r) path
  || has_key (r_specials r) path.

(** ** Effects *)
Module Effect.
Inductive t :=
| Special (path : string) (node : SpecialNode)
| RemoveSpecial (path : string)
| SetContent (path : string) (bs : bytes) (os : list Op)
| RemoveContent (path : string)
| MakeDir (path : string)
| RemoveDir (path : string)
| Mode (path : string) (mode : N)
| Symlink (path target : string)
| RemoveSymlink (path : string)
| Hardlink (path target : string)
| RemoveHardlink (path : string)
| SetXattr (path name : string) (value : bytes)
| RemoveXattr (path name : string).
End Effect.

(** [Effect::identity_key]. *)
Definition effect_key (e : Effect.t) : IdentityKey.t :=
  match e with
  | Effect.Special path _ | Effect.RemoveSpecial path => IdentityKey.Special path
  | Effect.SetContent path _ _ | Effect.RemoveContent path => IdentityKey.File path
  | Effect.MakeDir path | Effect.RemoveDir path => IdentityKey.Dir path
  | Effect.Mode path _ => IdentityKey.Mode path
  | Effect.Symlink path _ | Effect.RemoveSymlink path => IdentityKey.Symlink path
  | Effect.Hardlink path _ | Effect.RemoveHardlink path => IdentityKey.Hardlink path
  | Effect.SetXattr path name _ | Effect.RemoveXattr path name => IdentityKey.Xattr path name
  end.

(** ** The per-dimension merges *)
Definition window (path : string) (class : MergeConflictClass) : ConflictWindow :=
  mkWindow path (mkRange 0 0) class.

(** [insert_whole]. *)
Definition insert_whole (l : N) : Op := mkOp OpKind.Insert 0 0 0 l 0.

Section merges.
Context (s : State).

(** [content_at] ([content_ref_at] reads the same value). *)
Definition content_at (path : string) (version : N) : option bytes := dim_at (content s) path version.

(** [intervening]: what each delta in [(base, head]] did to the path. *)
Definition intervening (path : string) (base : N) : list (list Op) :=
  omap (λ delta, delta !! path) (dropN base (deltas s)).

(** [has_live_child]. *)
Definition has_live_child (prefix : string) (gone : gset string) : bool :=
  let live path := String.prefix prefix path && negb (has_elem gone path) in
  existsb live (bt_keys (d_cur (content s))) || existsb live (bt_elems (dirs s))
  || existsb live (bt_keys (d_cur (symlinks s))) || existsb live (bt_keys (d_cur (hardlinks s)))
  || existsb live (bt_keys (d_cur (specials s))).

(** [occupied_by_nonfile]. *)
Definition occupied_by_nonfile (path : string) : bool :=
  has_elem (dirs s) path || has (symlinks s) path || has (hardlinks s) path || has (specials s) path.

Definition merge_rename (dst : string) (base : N) (from : string) :
    result ConflictWindow (list Effect.t) :=
  if bool_decide (from = dst) then Ok [] else
  let source_exists := has (content s) from || has (symlinks s) from || has (hardlinks s) from in
  if negb source_exists then Err (window dst RenameRename)
  else if occupied_by_nonfile dst then Err (window dst TypeChanged)
  else if base <? changed_at (content s) dst then Err (window dst RenameRename)
  else Ok (
    match d_cur (content s) !! from with
    | Some source =>
        [Effect.SetContent dst source [insert_whole (len source)]; Effect.RemoveContent from]
    | None =>
        match d_cur (symlinks s) !! from with
        | Some target => [Effect.Symlink dst target; Effect.RemoveSymlink from]
        | None =>
            match d_cur (hardlinks s) !! from with
            | Some target => [Effect.Hardlink dst target; Effect.RemoveHardlink from]
            | None => []
            end
        end
    end).

Definition merge_create (path : string) (bs : bytes) : result ConflictWindow (option Effect.t) :=
  if occupied_by_nonfile path then Err (window path TypeChanged)
  else match d_cur (content s) !! path with
  | Some current => if bool_decide (current = bs) then Ok None else Err (window path CreateCreate)
  | None => Ok (Some (Effect.SetContent path bs [insert_whole (len bs)]))
  end.

Definition merge_unlink (path : string) (base : N) : result ConflictWindow (option Effect.t) :=
  if has (specials s) path then
    if (base <? changed_at (specials s) path) || (base <? changed_at (modes s) path)
       || existsb (λ e : string * string * N, bool_decide (e.1.1 = path) && (base <? e.2))
            (bt_list (d_changed (xattrs s)))
       || existsb (λ target, bool_decide (target = path)) (bt_values (d_cur (hardlinks s)))
    then Err (window path DeleteModify)
    else Ok (Some (Effect.RemoveSpecial path))
  else if has (content s) path then
    if base <? changed_at (content s) path then Err (window path DeleteModify)
    else Ok (Some (Effect.RemoveContent path))
  else if has (symlinks s) path then
    if base <? changed_at (symlinks s) path then Err (window path DeleteModify)
    else Ok (Some (Effect.RemoveSymlink path))
  else if has (hardlinks s) path then
    if base <? changed_at (hardlinks s) path then Err (window path DeleteModify)
    else Ok (Some (Effect.RemoveHardlink path))
  else Ok None.

(** Pass one of [merge_content]: [(mapped, candidates, shifting_overlap)]. *)
Definition classify_edit (deltas_on_path : list (list Op))
    (st : list Op * list Op * option Range) (op : Op) : list Op * list Op * option Range :=
  let '(mapped, candidates, shifting_overlap) := st in
  match map_range deltas_on_path (touched_range op) with
  | Shifted shifted => (mapped ++ [with_at op (r_start shifted)], candidates, shifting_overlap)
  | Overlaps =>
      if bool_decide (op_kind op = OpKind.Overwrite)
      then (mapped, candidates ++ [op], shifting_overlap)
      else (mapped, candidates,
            match shifting_overlap with None => Some (touched_range op) | some => some end)
  end.

(** Pass two: whether the green already holds a candidate's bytes at its span. *)
Definition candidate_identical (deltas_on_path : list (list Op)) (post current : bytes) (op : Op) : bool :=
  let span := touched_range op in
  let head_start :=
    match map_range deltas_on_path (mkRange (r_start span) 0) with
    | Shifted h => r_start h
    | Overlaps => r_start span
    end in
  let agent_bytes := span_bytes post (op_src op) (op_len op) in
  bool_decide (get_range current head_start (sat_add head_start (len agent_bytes)) = Some agent_bytes).

(** [merge_content]: its outcome, and whether the fast path was taken. *)
Definition merge_content (inc : Increment) (path : string) (os : list Op) :
    bool * result (list ConflictWindow) (option Effect.t) :=
  match d_cur (content s) !! path with
  | None =>
      (false,
       Err [window path (if occupied_by_nonfile path then TypeChanged else DeleteModify)])
  | Some current =>
      let unchanged := changed_at (content s) path <=? inc_base inc in
      let deltas_on_path := if unchanged then [] else intervening path (inc_base inc) in
      let '(mapped, candidates, shifting_overlap) :=
        foldl (classify_edit deltas_on_path) ([], [], None) os in
      (unchanged,
       match shifting_overlap with
       | Some range =>
           let base_bytes := default [] (content_at path (inc_base inc)) in
           if bool_decide (apply base_bytes os (inc_post inc) = current) then Ok None
           else Err [mkWindow path range Overlap]
       | None =>
           let differing :=
             filter (λ op, candidate_identical deltas_on_path (inc_post inc) current op = false) candidates in
           match differing with
           | _ :: _ => Err (map (λ op, mkWindow path (touched_range op) Overlap) differing)
           | [] =>
               match mapped with
               | [] => Ok None
               | _ => Ok (Some (Effect.SetContent path (apply current mapped (inc_post inc)) mapped))
               end
           end
       end)
  end.

Definition merge_mkdir (path : string) : result ConflictWindow (option Effect.t) :=
  if has (content s) path || has (symlinks s) path || has (hardlinks s) path || has (specials s) path
  then Err (window path TypeChanged)
  else if has_elem (dirs s) path then Ok None
  else Ok (Some (Effect.MakeDir path)).

Definition merge_rmdir (path : string) (gone : gset string) : result ConflictWindow (option Effect.t) :=
  if has (content s) path || has (symlinks s) path || has (hardlinks s) path || has (specials s) path
  then Err (window path TypeChanged)
  else if negb (has_elem (dirs s) path) then Ok None
  else if has_live_child (String.append path "/") gone then Err (window path DeleteModify)
  else Ok (Some (Effect.RemoveDir path)).

Definition special_kind_changed (path : string) (base : N) : bool :=
  let current := sn_kind <$> d_cur (specials s) !! path in
  if bool_decide (current = None) && negb (has (content s) path) && negb (has_elem (dirs s) path)
     && negb (has (symlinks s) path) && negb (has (hardlinks s) path)
  then false
  else negb (bool_decide (sn_kind <$> dim_at (specials s) path base = current)).

Definition merge_setmode (path : string) (base mode : N) (established : bool) :
    result ConflictWindow (option Effect.t) :=
  if negb (has (content s) path) && negb (has_elem (dirs s) path) && negb (has (specials s) path)
     && negb established
  then Err (window path DeleteModify)
  else if negb established && special_kind_changed path base then Err (window path TypeChanged)
  else if base <? changed_at (modes s) path then
    if bool_decide (d_cur (modes s) !! path = Some mode) then Ok None else Err (window path MetaMeta)
  else Ok (Some (Effect.Mode path mode)).

Definition merge_symlink (path : string) (base : N) (target : string) :
    result ConflictWindow (option Effect.t) :=
  if has (content s) path || has_elem (dirs s) path || has (hardlinks s) path || has (specials s) path
  then Err (window path TypeChanged)
  else if base <? changed_at (symlinks s) path then
    if bool_decide (d_cur (symlinks s) !! path = Some target) then Ok None
    else Err (window path CreateCreate)
  else Ok (Some (Effect.Symlink path target)).

Definition merge_hardlink (path : string) (base : N) (target : string) :
    result ConflictWindow (option Effect.t) :=
  if has (content s) path || has_elem (dirs s) path || has (symlinks s) path || has (specials s) path
  then Err (window path TypeChanged)
  else if base <? changed_at (hardlinks s) path then
    if bool_decide (d_cur (hardlinks s) !! path = Some target) then Ok None
    else Err (window path CreateCreate)
  else Ok (Some (Effect.Hardlink path target)).

Definition merge_set_xattr (path name : string) (base : N) (value : bytes) (established : bool) :
    result ConflictWindow (option Effect.t) :=
  if negb (has (content s) path) && negb (has_elem (dirs s) path) && negb (has (specials s) path)
     && negb established
  then Err (window path DeleteModify)
  else if negb established && special_kind_changed path base then Err (window path TypeChanged)
  else if base <? changed_at (xattrs s) (path, name) then
    if bool_decide (d_cur (xattrs s) !! (path, name) = Some value) then Ok None
    else Err (window path MetaMeta)
  else Ok (Some (Effect.SetXattr path name value)).

Definition merge_remove_xattr (path name : string) (base : N) :
    result ConflictWindow (option Effect.t) :=
  if special_kind_changed path base then Err (window path TypeChanged)
  else if negb (has (xattrs s) (path, name)) then Ok None
  else if base <? changed_at (xattrs s) (path, name) then Err (window path MetaMeta)
  else Ok (Some (Effect.RemoveXattr path name)).

Definition merge_special (path : string) (base : N) (node : SpecialNode) :
    result ConflictWindow (option Effect.t) :=
  if has (content s) path || has_elem (dirs s) path || has (symlinks s) path || has (hardlinks s) path
  then Err (window path TypeChanged)
  else
    let fresh :=
      if base <? changed_at (specials s) path then Err (window path CreateCreate)
      else Ok (Some (Effect.Special path node)) in
    match d_cur (specials s) !! path with
    | Some current =>
        if negb (bool_decide (sn_kind current = sn_kind node)) then Err (window path TypeChanged)
        else if bool_decide (current = node) then Ok None
        else fresh
    | None => fresh
    end.

(** [unfit_content]: the paths whose content ops do not fit what they edit. *)
Definition unfit_content (inc : Increment) (r : Resolved) : list string :=
  (filter (λ e : string * list Op,
     let edited := default e.1 (r_renames r !! e.1) in
     let base_len :=
       if has_elem (r_creates r) e.1 then 0
       else match content_at edited (inc_base inc) with Some bs => len bs | None => 0 end in
     fits_base e.2 base_len (len (inc_post inc)) = false) (bt_list (r_content r))).*1.
End merges.

(** ** Deciding an increment *)

(** The collected effects and windows. *)
Definition Verdicts : Type := list Effect.t * list ConflictWindow.

(** [record]. *)
Definition record (v : Verdicts) (r : result ConflictWindow (option Effect.t)) : Verdicts :=
  match r with
  | Ok (Some effect) => (v.1 ++ [effect], v.2)
  | Ok None => v
  | Err w => (v.1, v.2 ++ [w])
  end.

(** The content dimension, threading the fast-path counter. *)
Definition decide_content (s : State) (inc : Increment) (r : Resolved) (hits : N) (v : Verdicts) :
    N * Verdicts :=
  let v := foldl (λ v (e : string * string),
    match merge_rename s e.1 (inc_base inc) e.2 with
    | Ok effects => (v.1 ++ effects, v.2)
    | Err w => (v.1, v.2 ++ [w])
    end) v (bt_list (r_renames r)) in
  let v := foldl (λ v path,
    record v (merge_create s path (apply [] (default [] (r_content r !! path)) (inc_post inc))))
    v (bt_elems (r_creates r)) in
  let v := foldl (λ v path, record v (merge_unlink s path (inc_base inc))) v (bt_elems (r_unlinks r)) in
  foldl (λ (st : N * Verdicts) (e : string * list Op),
    let '(hits, v) := st in
    if has_elem (r_creates r) e.1 || has_key (r_renames r) e.1 then st
    else
      let '(fast, outcome) := merge_content s inc e.1 e.2 in
      (if fast then sat_add hits 1 else hits,
       match outcome with
       | Ok (Some effect) => (v.1 ++ [effect], v.2)
       | Ok None => v
       | Err found => (v.1, v.2 ++ found)
       end)) (hits, v) (bt_list (r_content r)).

Definition decide_directories (s : State) (r : Resolved) (v : Verdicts) : Verdicts :=
  let gone := cleared r in
  let v := foldl (λ v path, record v (merge_mkdir s path)) v (bt_elems (r_mkdirs r)) in
  foldl (λ v path, record v (merge_rmdir s path gone)) v (bt_elems (r_rmdirs r)).

Definition decide_metadata (s : State) (inc : Increment) (r : Resolved) (v : Verdicts) : Verdicts :=
  let base := inc_base inc in
  let v := foldl (λ v (e : string * N),
    record v (merge_setmode s e.1 base e.2 (establishes r e.1))) v (bt_list (r_modes r)) in
  let v := foldl (λ v (e : string * string), record v (merge_symlink s e.1 base e.2))
    v (bt_list (r_symlinks r)) in
  let v := foldl (λ v (e : string * string), record v (merge_hardlink s e.1 base e.2))
    v (bt_list (r_hardlinks r)) in
  let v := foldl (λ v (e : string * string * bytes),
    record v (merge_set_xattr s e.1.1 e.1.2 base e.2 (establishes r e.1.1))) v (r_xattr_sets r) in
  foldl (λ v (e : string * string), record v (merge_remove_xattr s e.1 e.2 base)) v (r_xattr_removes r).

(** [decide]: the fast-path counter it leaves, and the effects or the windows. *)
Definition decide (s : State) (hits : N) (inc : Increment) (r : Resolved) :
    N * result (list ConflictWindow) (list Effect.t) :=
  let windows := map (λ path, window path TypeChanged) (bt_elems (r_invalid r) ++ unfit_content s inc r) in
  let v := foldl (λ v (e : string * SpecialNode), record v (merge_special s e.1 (inc_base inc) e.2))
    ([], windows) (bt_list (r_specials r)) in
  let '(hits, v) := decide_content s inc r hits v in
  let v := decide_directories s r v in
  let v := decide_metadata s inc r v in
  (hits, match v.2 with [] => Ok v.1 | _ => Err v.2 end).

(** ** Committing *)

(** [commit_special]. *)
Definition commit_special (s : State) (path : string) (node : SpecialNode) (version : N) : State :=
  let s := if has (specials s) path
           then with_history_bytes s (sat_add (history_bytes s) SPECIAL_NODE_BYTES) else s in
  with_specials s (dim_set (specials s) path node version).

(** The attribute keys of a path. *)
Definition attributes_of (s : State) (path : string) : list (string * string) :=
  filter (λ key, key.1 = path) (bt_keys (d_cur (xattrs s))).

(** [remove_special]: the inode, its mode and its attributes. *)
Definition remove_special (s : State) (dirty : gset IdentityKey.t) (path : string) (version : N) :
    State * gset IdentityKey.t :=
  let s := if has (specials s) path
           then with_history_bytes s (sat_add (history_bytes s) SPECIAL_NODE_BYTES) else s in
  let '(s, dirty) :=
    if has (modes s) path
    then (with_modes s (dim_remove (modes s) path version), {[ IdentityKey.Mode path ]} ∪ dirty)
    else (s, dirty) in
  let '(s, dirty) :=
    foldl (λ (st : State * gset IdentityKey.t) key,
      (with_xattrs st.1 (dim_remove (xattrs st.1) key version),
       {[ IdentityKey.Xattr key.1 key.2 ]} ∪ st.2)) (s, dirty) (attributes_of s path) in
  (with_specials s (dim_remove (specials s) path version), dirty).

(** The staged content changes of [commit]'s loop. *)
Record Staging := mkStaging {
  st_state : State;
  st_dirty : gset IdentityKey.t;
  st_removed : list string;
  st_set : list (string * bytes * list Op)
}.

(** One effect of [commit]'s loop. *)
Definition commit_effect (version : N) (st : Staging) (effect : Effect.t) : Staging :=
  let s := st_state st in
  let dirty := {[ effect_key effect ]} ∪ st_dirty st in
  let keep s := mkStaging s dirty (st_removed st) (st_set st) in
  match effect with
  | Effect.Special path node => keep (commit_special s path node version)
  | Effect.RemoveSpecial path =>
      let '(s, dirty) := remove_special s dirty path version in
      mkStaging s dirty (st_removed st) (st_set st)
  | Effect.SetContent path bs os => mkStaging s dirty (st_removed st) (st_set st ++ [(path, bs, os)])
  | Effect.RemoveContent path => mkStaging s dirty (st_removed st ++ [path]) (st_set st)
  | Effect.MakeDir path =>
      keep (with_dirs s ({[ path ]} ∪ dirs s) (push_history (dir_history s) path version true))
  | Effect.RemoveDir path =>
      keep (with_dirs s (dirs s ∖ {[ path ]}) (push_history (dir_history s) path version false))
  | Effect.Mode path mode => keep (with_modes s (dim_set (modes s) path mode version))
  | Effect.Symlink path target => keep (with_symlinks s (dim_set (symlinks s) path target version))
  | Effect.RemoveSymlink path => keep (with_symlinks s (dim_remove (symlinks s) path version))
  | Effect.Hardlink path target => keep (with_hardlinks s (dim_set (hardlinks s) path target version))
  | Effect.RemoveHardlink path => keep (with_hardlinks s (dim_remove (hardlinks s) path version))
  | Effect.SetXattr path name value =>
      keep (with_xattrs s (dim_set (xattrs s) (path, name) value version))
  | Effect.RemoveXattr path name => keep (with_xattrs s (dim_remove (xattrs s) (path, name) version))
  end.

(** The bytes the superseded content of a path adds to the history. *)
Definition retain_content (s : State) (path : string) : State :=
  match d_cur (content s) !! path with
  | Some previous => with_history_bytes s (sat_add (history_bytes s) (len previous))
  | None => s
  end.

Definition commit_removed (version : N) (s : State) (path : string) : State :=
  let s := retain_content s path in with_content s (dim_remove (content s) path version).
Definition commit_set (version : N) (s : State) (e : string * bytes * list Op) : State :=
  let s := retain_content s e.1.1 in with_content s (dim_set (content s) e.1.1 e.1.2 version).

(** [commit]: the state and the keys to bring the identity up to date by. *)
Definition commit (s : State) (dirty : gset IdentityKey.t) (effects : list Effect.t) (version : N) :
    State * gset IdentityKey.t :=
  let st := foldl (commit_effect version) (mkStaging s dirty [] []) effects in
  let s := foldl (commit_removed version) (st_state st) (st_removed st) in
  let s := foldl (commit_set version) s (st_set st) in
  let delta := foldl (λ m (e : string * bytes * list Op), <[e.1.1 := e.2]> m) ∅ (st_set st) in
  (with_deltas s (deltas s ++ [delta]), st_dirty st).

(** ** Submitting *)
Inductive Outcome :=
| Accepted (version : N)
| Conflict (windows : list ConflictWindow).

Definition submit (g : Green) (inc : Increment) : Green * Outcome :=
  match accepted g !! inc_id inc with
  | Some version => (g, Accepted version)
  | None =>
      match rejected (g_cache g) !! inc_id inc with
      | Some windows => (g, Conflict windows)
      | None =>
          let '(hits, decision) := decide (g_state g) (fast_path_hits g) inc (resolve inc) in
          match decision with
          | Ok effects =>
              let version := sat_add (head (g_state g)) 1 in
              let '(s, dirty) := commit (g_state g) (identity_dirty (g_ident g)) effects version in
              (mkGreen s (mkIdent (identity (g_ident g)) (identity_version (g_ident g)) dirty)
                 (<[inc_id inc := version]> (accepted g)) (g_cache g) (folded_below g) hits,
               Accepted version)
          | Err windows =>
              (mkGreen (g_state g) (g_ident g) (accepted g)
                 (retain_rejected (g_cache g) (inc_id inc) windows) (folded_below g) hits,
               Conflict windows)
          end
      end
  end.
