(* ===== verification/GreenOps.v ===== *)
(** * The green's other operations

    Models the rest of [Green] of [crates/merge/src/engine.rs]: seeding from
    an origin, the head identity, folding the histories, the accounting, the
    readers of the current and of earlier versions, and rebase. *)

From S2P Require Import Prelude Range OpsDoc ByteSplice PosMap Derive Special Origin Journal.
From S2P Require Import IncrementDoc History Rejected Identity Green.
#[local] Open Scope N_scope.

(** ** Identity *)
Section identity.
Context `{Blake3}.

(** [entries_of]: a key's entry at version [since] and at the head. *)
Definition entries_of (s : State) (key : IdentityKey.t) (since : N) : option Entry * option Entry :=
  match key with
  | IdentityKey.File path =>
      (file_entry path <$> dim_at (content s) path since, file_entry path <$> d_cur (content s) !! path)
  | IdentityKey.Special path =>
      (special_entry path <$> dim_at (specials s) path since,
       special_entry path <$> d_cur (specials s) !! path)
  | IdentityKey.Dir path =>
      (if default false ((λ h, present_at h since) <$> dir_history s !! path)
       then Some (dir_entry path) else None,
       if has_elem (dirs s) path then Some (dir_entry path) else None)
  | IdentityKey.Mode path =>
      (mode_entry path <$> dim_at (modes s) path since, mode_entry path <$> d_cur (modes s) !! path)
  | IdentityKey.Symlink path =>
      (link_entry IDENTITY_TAG_SYMLINK path <$> dim_at (symlinks s) path since,
       link_entry IDENTITY_TAG_SYMLINK path <$> d_cur (symlinks s) !! path)
  | IdentityKey.Hardlink path =>
      (link_entry IDENTITY_TAG_HARDLINK path <$> dim_at (hardlinks s) path since,
       link_entry IDENTITY_TAG_HARDLINK path <$> d_cur (hardlinks s) !! path)
  | IdentityKey.Xattr path name =>
      (xattr_entry path name <$> dim_at (xattrs s) (path, name) since,
       xattr_entry path name <$> d_cur (xattrs s) !! (path, name))
  end.

(** One dirty key of [fold_identity]'s loop. *)
Definition fold_key (s : State) (since : N) (h : SetHash) (key : IdentityKey.t) : SetHash :=
  let '(old, new) := entries_of s key since in
  let h := match old with Some e => hash_remove h e | None => h end in
  match new with Some e => hash_add h e | None => h end.

(** [fold_identity]. *)
Definition fold_identity (g : Green) : Green :=
  let i := g_ident g in
  let h := foldl (fold_key (g_state g) (identity_version i)) (identity i) (bt_elems (identity_dirty i)) in
  mkGreen (g_state g) (mkIdent h (head (g_state g)) ∅) (accepted g) (g_cache g) (folded_below g)
    (fast_path_hits g).

(** [head_identity]. *)
Definition head_identity (g : Green) : Green * bytes :=
  let g := fold_identity g in (g, hash_identity (identity (g_ident g))).

(** The entries of every dimension, in [head_identity_from_scratch]'s order. *)
Definition all_entries (s : State) : list Entry :=
  map (λ e, special_entry e.1 e.2) (bt_list (d_cur (specials s)))
  ++ map (λ e, file_entry e.1 e.2) (bt_list (d_cur (content s)))
  ++ map dir_entry (bt_elems (dirs s))
  ++ map (λ e, mode_entry e.1 e.2) (bt_list (d_cur (modes s)))
  ++ map (λ e, link_entry IDENTITY_TAG_SYMLINK e.1 e.2) (bt_list (d_cur (symlinks s)))
  ++ map (λ e, link_entry IDENTITY_TAG_HARDLINK e.1 e.2) (bt_list (d_cur (hardlinks s)))
  ++ map (λ e, xattr_entry e.1.1 e.1.2 e.2) (bt_list (d_cur (xattrs s))).

(** [head_identity_from_scratch]. *)
Definition head_identity_from_scratch (g : Green) : bytes :=
  hash_identity (foldl hash_add SetHash_default (all_entries (g_state g))).

(** ** Seeding *)

(** One entry of [with_origin]'s loops: the dimension seeded, its identity added. *)
Definition seed {K V} `{Countable K} (d : Dim K V) (h : SetHash) (table : list (K * V))
    (entry : K → V → Entry) : Dim K V * SetHash :=
  foldl (λ (st : Dim K V * SetHash) (e : K * V),
    (dim_seed st.1 e.1 e.2, hash_add st.2 (entry e.1 e.2))) (d, h) table.

Definition seed_dirs (paths : list string) (h : SetHash) :
    gset string * gmap string (History bool) * SetHash :=
  foldl (λ (st : gset string * gmap string (History bool) * SetHash) path,
    let '(ds, hist, h) := st in
    (({[ path ]} ∪ ds, <[path := [(0, true)]]> hist),
     if has_elem ds path then h else hash_add h (dir_entry path))) (∅, ∅, h) paths.

(** [with_origin]. *)
Definition with_origin (origin : Origin) : Green :=
  let c := origin_canonicalize origin in
  let '(sp, h) := seed dim_empty SetHash_default (o_specials c) special_entry in
  let '(co, h) := seed dim_empty h (o_files c) file_entry in
  let '(ds, dh, h) := seed_dirs (o_dirs c) h in
  let '(mo, h) := seed dim_empty h (o_modes c) mode_entry in
  let '(sy, h) := seed dim_empty h (o_symlinks c) (link_entry IDENTITY_TAG_SYMLINK) in
  let '(ha, h) := seed dim_empty h (o_hardlinks c) (link_entry IDENTITY_TAG_HARDLINK) in
  let '(xa, h) := seed dim_empty h (o_xattrs c) (λ k v, xattr_entry k.1 k.2 v) in
  mkGreen (mkState co sp mo sy ha xa ds dh [] 0) (mkIdent h 0 ∅) ∅ cache_empty 0 0.

(** ** Folding *)
Definition content_cost (v : option bytes) : N := match v with Some bs => len bs | None => 0 end.
Definition special_cost (v : option SpecialNode) : N :=
  match v with Some _ => SPECIAL_NODE_BYTES | None => 0 end.

(** The bytes a fold of the histories releases. *)
Definition released_by {V} (hist : gmap string (History V)) (floor : N) (cost : V → N) (acc : N) : N :=
  foldl (λ acc h, sat_add acc (fold_entries h floor cost).2) acc (bt_values hist).

Definition fold_state (s : State) (floor released : N) : State :=
  mkState
    (mkDim (d_cur (content s)) (fold_histories (d_hist (content s)) floor content_cost)
       (d_changed (content s)))
    (mkDim (d_cur (specials s)) (fold_histories (d_hist (specials s)) floor special_cost)
       (d_changed (specials s)))
    (dim_fold (modes s) floor) (dim_fold (symlinks s) floor) (dim_fold (hardlinks s) floor)
    (dim_fold (xattrs s) floor) (dirs s) (fold_histories (dir_history s) floor (λ _, 0))
    (deltas s) (sat_sub (history_bytes s) released).

(** [fold_history_before]: the green and the bytes released. *)
Definition fold_history_before (g : Green) (floor : N) : Green * N :=
  if floor <=? folded_below g then (g, 0) else
  let g := if identity_version (g_ident g) <? floor then fold_identity g else g in
  let s := g_state g in
  let released :=
    released_by (d_hist (specials s)) floor special_cost
      (released_by (d_hist (content s)) floor content_cost 0) in
  (mkGreen (fold_state s floor released) (g_ident g) (accepted g) (g_cache g) floor (fast_path_hits g),
   released).

(** [fold_history_to_budget]: the floor rises a version a turn, so the gap to
    [reachable_floor] is fuel enough. *)
Fixpoint fold_to_budget (fuel : nat) (g : Green) (reachable_floor budget released : N) : Green * N :=
  match fuel with
  | O => (g, released)
  | S fuel =>
      if (budget <? history_bytes (g_state g)) && (folded_below g <? reachable_floor) then
        let '(g, more) := fold_history_before g (sat_add (folded_below g) 1) in
        fold_to_budget fuel g reachable_floor budget (sat_add released more)
      else (g, released)
  end.
Definition fold_history_to_budget (g : Green) (reachable_floor budget : N) : Green * N :=
  fold_to_budget (N.to_nat (reachable_floor - folded_below g)) g reachable_floor budget 0.
End identity.

(** ** The cache, through the green *)
Definition with_cache (g : Green) (c : Cache) : Green :=
  mkGreen (g_state g) (g_ident g) (accepted g) c (folded_below g) (fast_path_hits g).
Definition green_set_rejected_budget (g : Green) (budget : N) : Green :=
  with_cache g (set_rejected_budget (g_cache g) budget).
Definition green_forget_rejected (g : Green) (id : bytes) : Green * N :=
  let '(c, released) := forget_rejected (g_cache g) id in (with_cache g c, released).

(** ** Accounting *)

(** [history_reservation]. *)
Definition reservation_paths (inc : Increment) : gset string :=
  foldl (λ (paths_ : gset string) op,
    let named :=
      if is_content (op_kind op)
         || match op_kind op with
            | OpKind.Create | OpKind.Unlink | OpKind.Rename | OpKind.Mknod => true | _ => false end
      then pt_path (paths (inc_doc inc)) (op_path op) else None in
    let source :=
      if bool_decide (op_kind op = OpKind.Rename) && (op_src op <=? u16_max)
      then pt_path (paths (inc_doc inc)) (op_src op) else None in
    list_to_set (option_list named) ∪ list_to_set (option_list source) ∪ paths_) ∅ (ops (inc_doc inc)).
Definition history_reservation (g : Green) (inc : Increment) : N :=
  if has_key (accepted g) (inc_id inc) then 0 else
  foldl (λ total path,
    sat_add (sat_add total (content_cost (d_cur (content (g_state g)) !! path)))
      (special_cost (d_cur (specials (g_state g)) !! path)))
    0 (bt_elems (reservation_paths inc)).

Definition retention_charge (g : Green) : N :=
  sat_add (history_bytes (g_state g)) (rejected_bytes (g_cache g)).

(** A history's earlier values, the last entry excluded: [iter().rev().skip(1)]. *)
Definition earlier {V} (h : History V) : History V := drop 1 (rev h).

(** [history_bytes_recounted]. *)
Definition history_bytes_recounted (s : State) : N :=
  sat_add
    (sum_N (map (λ h : History (option SpecialNode),
       sat_mul (len (filter (λ e : N * option SpecialNode, is_Some e.2) (earlier h))) SPECIAL_NODE_BYTES)
       (bt_values (d_hist (specials s)))))
    (sum_N (map (λ h : History (option bytes), sum_N (map (λ e, content_cost e.2) (earlier h)))
       (bt_values (d_hist (content s))))).

Record RetainedBytes := mkRetainedBytes { rb_content : N; rb_history : N; rb_rejected : N }.
Definition retained_bytes (g : Green) : RetainedBytes :=
  let s := g_state g in
  mkRetainedBytes
    (sat_add (sum_N (map len (bt_values (d_cur (content s)))))
       (sat_mul (N.of_nat (size (d_cur (specials s)))) SPECIAL_NODE_BYTES))
    (history_bytes s) (rejected_bytes (g_cache g)).

(** ** Readers *)

(** [metadata_path], [special], [mode], [xattr]: an IPC alias reads its inode. *)
Definition metadata_path (s : State) (path : string) : string :=
  match d_cur (hardlinks s) !! path with
  | Some target => if has (specials s) target then target else path
  | None => path
  end.
Definition special (s : State) (path : string) : option SpecialNode :=
  match d_cur (specials s) !! path with
  | Some node => Some node
  | None => d_cur (hardlinks s) !! path ≫= λ target, d_cur (specials s) !! target
  end.
Definition mode (s : State) (path : string) : option N := d_cur (modes s) !! metadata_path s path.
Definition xattr (s : State) (path name : string) : option bytes :=
  d_cur (xattrs s) !! (metadata_path s path, name).

(** [changed_since]. *)
Definition changed_since (s : State) (version : N) : list string :=
  (filter (λ e : string * N, version < e.2) (bt_list (d_changed (content s)))).*1.

(** [changed_between]. *)
Definition changed_between (s : State) (from to : N) : list string :=
  let changed : gset string :=
    list_to_set (paths_changed_in (d_hist (content s)) from to)
    ∪ list_to_set (paths_changed_in (d_hist (specials s)) from to)
    ∪ list_to_set (paths_changed_in (dir_history s) from to)
    ∪ list_to_set (paths_changed_in (d_hist (modes s)) from to)
    ∪ list_to_set (paths_changed_in (d_hist (symlinks s)) from to)
    ∪ list_to_set (paths_changed_in (d_hist (hardlinks s)) from to)
    ∪ list_to_set (paths_changed_in (d_hist (xattrs s)) from to).*1 in
  bt_elems (foldl (λ (changed : gset string) (e : string * History (option string)),
    if existsb (λ target, has_key (d_hist (specials s)) target && has_elem changed target)
         (option_list (history_at e.2 from) ++ option_list (history_at e.2 to))
    then {[ e.1 ]} ∪ changed else changed) changed (bt_list (d_hist (hardlinks s)))).

(** A dimension's entries at a version, in key order. *)
Definition table_at {K V} `{Countable K, !BTreeKey K} (d : Dim K V) (version : N) : list (K * V) :=
  omap (λ e : K * History (option V), pair e.1 <$> history_at e.2 version) (bt_list (d_hist d)).
Definition dirs_at (s : State) (version : N) : list string :=
  (filter (λ e : string * History bool, present_at e.2 version = true) (bt_list (dir_history s))).*1.
Definition lengths (files : list (string * bytes)) : list (string * N) :=
  map (λ e, (e.1, len e.2)) files.

(** [current_base], [base_at], [files_at]. *)
Definition current_base (s : State) : Base :=
  mkBase (lengths (bt_list (d_cur (content s)))) (bt_list (d_cur (specials s))) (bt_elems (dirs s))
    (bt_list (d_cur (modes s))) (bt_list (d_cur (symlinks s))) (bt_list (d_cur (xattrs s)))
    (bt_list (d_cur (hardlinks s))).
Definition base_at (s : State) (version : N) : Base :=
  if head s <=? version then current_base s
  else mkBase (lengths (table_at (content s) version)) (table_at (specials s) version)
         (dirs_at s version) (table_at (modes s) version) (table_at (symlinks s) version)
         (table_at (xattrs s) version) (table_at (hardlinks s) version).
Definition files_at (s : State) (version : N) : list (string * bytes) :=
  if head s <=? version then bt_list (d_cur (content s)) else table_at (content s) version.

(** [head_entries] and [entries_at]: what the base holds at one path, but hard
    links.  The attributes are the contiguous run of keys with the path. *)
Definition at_path {V} (path : string) (v : option V) : list (string * V) :=
  option_list (pair path <$> v).
Definition head_entries (s : State) (path : string) (b : Base) : Base :=
  mkBase (b_files b ++ lengths (at_path path (d_cur (content s) !! path)))
    (b_specials b ++ at_path path (d_cur (specials s) !! path))
    (b_dirs b ++ if has_elem (dirs s) path then [path] else [])
    (b_modes b ++ at_path path (d_cur (modes s) !! path))
    (b_symlinks b ++ at_path path (d_cur (symlinks s) !! path))
    (b_xattrs b ++ filter (λ e, e.1.1 = path) (bt_list (d_cur (xattrs s))))
    (b_hardlinks b).
Definition entries_at (s : State) (path : string) (version : N) (b : Base) : Base :=
  mkBase (b_files b ++ lengths (at_path path (dim_at (content s) path version)))
    (b_specials b ++ at_path path (dim_at (specials s) path version))
    (b_dirs b ++ if default false ((λ h, present_at h version) <$> dir_history s !! path)
                 then [path] else [])
    (b_modes b ++ at_path path (dim_at (modes s) path version))
    (b_symlinks b ++ at_path path (dim_at (symlinks s) path version))
    (b_xattrs b ++ filter (λ e, e.1.1 = path) (table_at (xattrs s) version))
    (b_hardlinks b).

(** [base_for]. *)
Definition base_for (s : State) (version : N) (journal : list VolumeOp.t) : Base :=
  let named : gset string := list_to_set (concat (map names journal)) in
  let at_head := head s <=? version in
  let b := foldl (λ b path, if at_head then head_entries s path b else entries_at s path version b)
             (of_files []) (bt_elems named) in
  let named_link (e : string * string) := has_elem named e.1 || has_elem named e.2 in
  let links := if at_head then bt_list (d_cur (hardlinks s)) else table_at (hardlinks s) version in
  mkBase (b_files b) (b_specials b) (b_dirs b) (b_modes b) (b_symlinks b) (b_xattrs b)
    (b_hardlinks b ++ filter (λ e, named_link e = true) links).

(** ** Rebase *)
Inductive Rebased :=
| RebasedTo (version : N) (changed : gmap string (option bytes)) (journal : list VolumeOp.t)
| RebaseConflict (windows : list ConflictWindow).

(** [content_volume_op]. *)
Definition content_volume_op (path : string) (op : Op) : option VolumeOp.t :=
  match op_kind op with
  | OpKind.Overwrite => Some (VolumeOp.Overwrite path (op_at op) (op_len op))
  | OpKind.Insert => Some (VolumeOp.Insert path (op_at op) (op_len op))
  | OpKind.Extend => Some (VolumeOp.Extend path (op_at op) (op_len op))
  | OpKind.Delete => Some (VolumeOp.Delete path (op_at op) (op_len op))
  | OpKind.Truncate => Some (VolumeOp.Truncate path (op_len op))
  | _ => None
  end.

(** One effect of [rebased_from]'s loop. *)
Definition restate (s : State) (st : gmap string (option bytes) * list VolumeOp.t) (effect : Effect.t) :
    gmap string (option bytes) * list VolumeOp.t :=
  let '(changed, journal) := st in
  match effect with
  | Effect.Special path node =>
      (changed, journal ++ (if has (specials s) path then [VolumeOp.Unlink path] else [])
                ++ [VolumeOp.Mknod path node (default 0 (mode s path))])
  | Effect.RemoveSpecial path => (changed, journal ++ [VolumeOp.Unlink path])
  | Effect.SetContent path bs os =>
      (<[path := Some bs]> changed,
       journal ++ (if has (content s) path then [] else [VolumeOp.Create path])
       ++ omap (content_volume_op path) os)
  | Effect.RemoveContent path => (<[path := None]> changed, journal ++ [VolumeOp.Unlink path])
  | Effect.MakeDir path => (changed, journal ++ [VolumeOp.Mkdir path])
  | Effect.RemoveDir path => (changed, journal ++ [VolumeOp.Rmdir path])
  | Effect.Mode path m => (changed, journal ++ [VolumeOp.SetMode path m])
  | Effect.Symlink path target => (changed, journal ++ [VolumeOp.Symlink path target])
  | Effect.RemoveSymlink path | Effect.RemoveHardlink path => (changed, journal ++ [VolumeOp.Unlink path])
  | Effect.Hardlink path target => (changed, journal ++ [VolumeOp.Link path target])
  | Effect.SetXattr path name value => (changed, journal ++ [VolumeOp.SetXattr path name value])
  | Effect.RemoveXattr path name => (changed, journal ++ [VolumeOp.RemoveXattr path name])
  end.

Definition rebased_from (s : State) (effects : list Effect.t) (to : N) : Rebased :=
  let '(changed, journal) := foldl (restate s) (∅, []) effects in
  RebasedTo to (filter (λ e, e.2 ≠ d_cur (content s) !! e.1) changed) journal.

(** [rebase]: the fast-path counter is restored, so the green is as it was. *)
Definition rebase (g : Green) (inc : Increment) : Green * Rebased :=
  let '(_, decision) := decide (g_state g) (fast_path_hits g) inc (resolve inc) in
  (g, match decision with
      | Err windows => RebaseConflict windows
      | Ok effects => rebased_from (g_state g) effects (head (g_state g))
      end).
