(* ===== verification/GreenState.v ===== *)
(** * The green's state invariant

    A commit is a run of single-key updates at one version ([touched]), each
    on a key it has marked for the identity; so an invariant of a green's state is proved once per
    kind of update.  [state_inv] is the invariant of the version histories,
    [same_at] says two states read the same at a version. *)

From S2P Require Import Prelude Range OpsDoc ByteSplice PosMap Special Origin IncrementDoc History.
From S2P Require Import Rejected Identity Green GreenOps.
#[local] Open Scope N_scope.

(** Whether a directory stood at a version. *)
Definition dir_at (s : State) (path : string) (version : N) : bool :=
  default false ((λ h, present_at h version) <$> dir_history s !! path).

(** ** The invariant *)
Record state_inv (s : State) (version : N) : Prop := {
  si_content : dim_inv (content s) version;
  si_specials : dim_inv (specials s) version;
  si_modes : dim_inv (modes s) version;
  si_symlinks : dim_inv (symlinks s) version;
  si_hardlinks : dim_inv (hardlinks s) version;
  si_xattrs : dim_inv (xattrs s) version;
  si_dir_history : ∀ p h, dir_history s !! p = Some h → hist_ok h version;
  si_dirs : ∀ p, p ∈ dirs s ↔ dir_at s p version = true
}.

Lemma state_inv_weaken s version version' :
  state_inv s version → version ≤ version' → state_inv s version'.
Proof.
  intros Hs Hle. pose proof (si_dir_history _ _ Hs) as Hh.
  constructor; try (eapply dim_inv_weaken; [apply Hs|done]).
  - intros p h Hp. eapply hist_ok_weaken; [by eapply Hh|done].
  - intros p. rewrite (si_dirs _ _ Hs). unfold dir_at.
    destruct (dir_history s !! p) as [h|] eqn:E; [|done]. simpl. unfold present_at.
    rewrite (entry_at_bounded h version version'); [done| |done]. by eapply Hh.
Qed.

(** ** Reading the same at a version *)
Record same_at (version : N) (s s' : State) : Prop := {
  sa_content : ∀ p, dim_at (content s) p version = dim_at (content s') p version;
  sa_specials : ∀ p, dim_at (specials s) p version = dim_at (specials s') p version;
  sa_modes : ∀ p, dim_at (modes s) p version = dim_at (modes s') p version;
  sa_symlinks : ∀ p, dim_at (symlinks s) p version = dim_at (symlinks s') p version;
  sa_hardlinks : ∀ p, dim_at (hardlinks s) p version = dim_at (hardlinks s') p version;
  sa_xattrs : ∀ k, dim_at (xattrs s) k version = dim_at (xattrs s') k version;
  sa_dirs : ∀ p, dir_at s p version = dir_at s' p version
}.

#[export] Instance same_at_equivalence version : Equivalence (same_at version).
Proof.
  split.
  - intros s. by constructor.
  - intros s s' []. constructor; intros; by symmetry.
  - intros s s' s'' [] []. constructor; intros; etrans; eauto.
Qed.

(** ** Single-key updates *)

(** An IPC inode's entry removed, without its metadata. *)
Definition drop_special (s : State) (path : string) (version : N) : State :=
  let s := if has (specials s) path
           then with_history_bytes s (sat_add (history_bytes s) SPECIAL_NODE_BYTES) else s in
  with_specials s (dim_remove (specials s) path version).

Inductive touched (version : N) (dirty : gset IdentityKey.t) (s : State) : State → Prop :=
| t_set_content e : IdentityKey.File e.1.1 ∈ dirty → touched version dirty s (commit_set version s e)
| t_remove_content p : IdentityKey.File p ∈ dirty → touched version dirty s (commit_removed version s p)
| t_special p n :
    IdentityKey.Special p ∈ dirty → touched version dirty s (commit_special s p n version)
| t_drop_special p :
    IdentityKey.Special p ∈ dirty → touched version dirty s (drop_special s p version)
| t_set_mode p m :
    IdentityKey.Mode p ∈ dirty → touched version dirty s (with_modes s (dim_set (modes s) p m version))
| t_remove_mode p :
    IdentityKey.Mode p ∈ dirty → touched version dirty s (with_modes s (dim_remove (modes s) p version))
| t_symlink p t :
    IdentityKey.Symlink p ∈ dirty →
    touched version dirty s (with_symlinks s (dim_set (symlinks s) p t version))
| t_remove_symlink p :
    IdentityKey.Symlink p ∈ dirty →
    touched version dirty s (with_symlinks s (dim_remove (symlinks s) p version))
| t_hardlink p t :
    IdentityKey.Hardlink p ∈ dirty →
    touched version dirty s (with_hardlinks s (dim_set (hardlinks s) p t version))
| t_remove_hardlink p :
    IdentityKey.Hardlink p ∈ dirty →
    touched version dirty s (with_hardlinks s (dim_remove (hardlinks s) p version))
| t_set_xattr k v :
    IdentityKey.Xattr k.1 k.2 ∈ dirty →
    touched version dirty s (with_xattrs s (dim_set (xattrs s) k v version))
| t_remove_xattr k :
    IdentityKey.Xattr k.1 k.2 ∈ dirty →
    touched version dirty s (with_xattrs s (dim_remove (xattrs s) k version))
| t_make_dir p :
    IdentityKey.Dir p ∈ dirty →
    touched version dirty s
      (with_dirs s ({[ p ]} ∪ dirs s) (push_history (dir_history s) p version true))
| t_remove_dir p :
    IdentityKey.Dir p ∈ dirty →
    touched version dirty s
      (with_dirs s (dirs s ∖ {[ p ]}) (push_history (dir_history s) p version false)).

Abbreviation touches version dirty := (rtc (touched version dirty)).
#[export] Hint Constructors touched : slates.

Lemma touches_mono version dirty dirty' s s' :
  dirty ⊆ dirty' → touches version dirty s s' → touches version dirty' s s'.
Proof.
  intros Hsub. induction 1 as [|s s1 s2 Hs _ IH]; [done|]. eapply rtc_l; [|exact IH].
  destruct Hs; eauto with slates.
Qed.

(** ** A commit is such a run *)

(** Staged content is marked. *)
Definition staged (st : Staging) : Prop :=
  (∀ p, p ∈ st_removed st → IdentityKey.File p ∈ st_dirty st) ∧
  (∀ e, e ∈ st_set st → IdentityKey.File e.1.1 ∈ st_dirty st).

Lemma with_xattrs_id s : with_xattrs s (xattrs s) = s.
Proof. by destruct s. Qed.

Lemma drop_attributes_touches version keys : ∀ s dirty s', xattrs s' = xattrs s →
  ∃ X D, foldl (λ (st : State * gset IdentityKey.t) key,
      (with_xattrs st.1 (dim_remove (xattrs st.1) key version),
       {[ IdentityKey.Xattr key.1 key.2 ]} ∪ st.2)) (s, dirty) keys = (with_xattrs s X, D) ∧
    dirty ⊆ D ∧ touches version D s' (with_xattrs s' X).
Proof.
  induction keys as [|key keys IH]; intros s dirty s' Hx; cbn [foldl fst snd].
  - exists (xattrs s), dirty. rewrite with_xattrs_id. split_and!; [done..|].
    by rewrite <- Hx, with_xattrs_id.
  - destruct (IH (with_xattrs s (dim_remove (xattrs s) key version))
                ({[ IdentityKey.Xattr key.1 key.2 ]} ∪ dirty)
                (with_xattrs s' (dim_remove (xattrs s') key version)))
      as (X & D & -> & Hd & Ht); [by cbn; rewrite Hx|].
    exists X, D. split_and!; [done|set_solver|].
    eapply rtc_l; [|exact Ht]. apply t_remove_xattr. set_solver.
Qed.

Lemma remove_special_touches version s dirty path :
  IdentityKey.Special path ∈ dirty →
  let st := remove_special s dirty path version in
  touches version st.2 s st.1 ∧ dirty ⊆ st.2.
Proof.
  intros Hp. unfold remove_special. cbv zeta.
  set (s0 := if has (specials s) path then _ else s).
  assert (Hdrop : drop_special s path version = with_specials s0 (dim_remove (specials s0) path version))
    by done.
  assert (Hm : ∃ m d1, (if has (modes s0) path
      then (with_modes s0 (dim_remove (modes s0) path version), {[IdentityKey.Mode path]} ∪ dirty)
      else (s0, dirty)) = (with_modes s0 m, d1) ∧ dirty ⊆ d1 ∧
      touches version d1 (drop_special s path version)
        (with_modes (drop_special s path version) m)).
  { rewrite Hdrop. destruct (has (modes s0) path).
    - eexists _, _. split; [reflexivity|]. split; [set_solver|]. apply rtc_once.
      refine (t_remove_mode version _ (with_specials s0 _) path _). set_solver.
    - exists (modes s0), dirty. split; [by destruct s0|]. split; [done|]. by destruct s0. }
  destruct Hm as (m & d1 & -> & Hd1 & Ht1).
  destruct (drop_attributes_touches version (attributes_of (with_modes s0 m) path) (with_modes s0 m) d1
              (with_modes (drop_special s path version) m)) as (X & D & -> & HD & HtD).
  { by rewrite Hdrop. }
  cbn [fst snd]. split; [|set_solver]. eapply rtc_l; [apply (t_drop_special _ _ _ path); set_solver|].
  etrans; [by eapply touches_mono|]. rewrite Hdrop in *. exact HtD.
Qed.

Lemma commit_effect_touches version st e :
  staged st →
  let st' := commit_effect version st e in
  touches version (st_dirty st') (st_state st) (st_state st') ∧ st_dirty st ⊆ st_dirty st' ∧ staged st'.
Proof.
  intros [Hr Hs]. cbv zeta. unfold staged.
  destruct e as [p n|p|p bs os|p|p|p|p m|p t|p|p t|p|p n v|p n]; cbn [commit_effect effect_key].
  2: { pose proof (remove_special_touches version (st_state st)
         ({[ IdentityKey.Special p ]} ∪ st_dirty st) p ltac:(set_solver)) as Ht.
       destruct (remove_special _ _ _ _) as [s' d']. destruct Ht as [Ht Hd]. cbn in *.
       split_and!; [done|set_solver|set_solver|set_solver]. }
  all: cbn [st_dirty st_state st_removed st_set].
  all: split_and!; [first [done|apply rtc_once]|set_solver|set_solver|].
  all: try (intros e He; rewrite ?elem_of_app, ?list_elem_of_singleton in He; set_solver).
  all: try (constructor; set_solver).
Qed.

Lemma staging_touches version effects : ∀ st,
  staged st →
  let st' := foldl (commit_effect version) st effects in
  touches version (st_dirty st') (st_state st) (st_state st') ∧ st_dirty st ⊆ st_dirty st' ∧ staged st'.
Proof.
  induction effects as [|e effects IH]; intros st Hst; cbn [foldl]; [done|].
  destruct (commit_effect_touches version st e Hst) as (Ht & Hd & Hst').
  destruct (IH _ Hst') as (Ht' & Hd' & Hst''). split_and!; [|set_solver|done].
  etrans; [by eapply touches_mono|done].
Qed.

Lemma foldl_touches {A} version dirty (f : State → A → State) (l : list A) :
  (∀ s x, x ∈ l → touched version dirty s (f s x)) → ∀ s, touches version dirty s (foldl f s l).
Proof.
  induction l as [|x l IH]; intros Hf s; [done|]. simpl.
  eapply rtc_l; [apply (Hf s x); by constructor|]. apply IH. intros. apply Hf. by constructor.
Qed.

Lemma touches_deltas version dirty s s' : touches version dirty s s' → deltas s' = deltas s.
Proof.
  induction 1 as [|s s1 s2 Hs _ IH]; [done|]. rewrite IH. destruct Hs; try done;
    unfold commit_set, commit_removed, commit_special, drop_special, retain_content;
    repeat (case_match || split_if); done.
Qed.

(** The effects staged and applied, then the version's delta appended. *)
Lemma commit_touches s dirty effects version :
  ∃ s' delta dirty', commit s dirty effects version = (with_deltas s' (deltas s ++ [delta]), dirty') ∧
    touches version dirty' s s' ∧ dirty ⊆ dirty'.
Proof.
  unfold commit. cbv zeta.
  destruct (staging_touches version effects (mkStaging s dirty [] [])) as (Ht & Hd & Hr & Hset).
  { split; set_solver. }
  set (st := foldl (commit_effect version) _ effects) in *. cbn [st_state st_dirty] in *.
  set (s1 := foldl (commit_removed version) _ _). set (s2 := foldl (commit_set version) _ _).
  assert (Hall : touches version (st_dirty st) s s2).
  { etrans; [exact Ht|]. transitivity s1.
    - apply foldl_touches. intros s' p Hp. apply t_remove_content. by apply Hr.
    - apply foldl_touches. intros s' e He. apply t_set_content. by apply Hset. }
  eexists s2, _, _. rewrite (touches_deltas _ _ _ _ Hall). done.
Qed.

(** ** The invariant and the old versions survive *)
Lemma dirs_push_inv s p version (present : bool) ds :
  (∀ q, q ≠ p → q ∈ ds ↔ q ∈ dirs s) → (p ∈ ds ↔ present = true) →
  state_inv s version →
  state_inv (with_dirs s ds (push_history (dir_history s) p version present)) version.
Proof.
  intros Hne Hp Hs. destruct Hs as [? ? ? ? ? ? Hh Hd]. constructor; try done; cbn.
  - intros q h. apply (push_history_ok (dir_history s) p version present version); [done|lia].
  - intros q. unfold dir_at, push_history. cbn. rewrite lookup_insert.
    destruct (base.decide (p = q)) as [->|Hq].
    + simpl. by rewrite present_at_snoc_new.
    + rewrite Hne by done. exact (Hd q).
Qed.

Lemma touched_inv version dirty s s' :
  touched version dirty s s' → state_inv s version → state_inv s' version.
Proof.
  intros Ht Hs. pose proof Hs as [? ? ? ? ? ? ? ?].
  destruct Ht; try (apply dirs_push_inv; [set_solver..|done]);
    unfold commit_set, commit_removed, commit_special, drop_special, retain_content;
    repeat (case_match || split_if); constructor; try done;
    (apply dim_inv_set || apply dim_inv_remove); done.
Qed.

Lemma touched_same version dirty s s' pinned :
  touched version dirty s s' → pinned < version → same_at pinned s s'.
Proof.
  intros Ht Hp.
  destruct Ht; unfold commit_set, commit_removed, commit_special, drop_special, retain_content;
    repeat (case_match || split_if); constructor; intros; try done;
    try (symmetry; (apply dim_at_set_old || apply dim_at_remove_old); done);
    unfold dir_at, push_history; cbn; rewrite lookup_insert; case_decide; try done; subst; simpl;
    rewrite present_at_snoc_old by done;
    match goal with |- _ = present_at (default [] ?o) _ => by destruct o end.
Qed.

Lemma touches_inv version dirty s s' :
  touches version dirty s s' → state_inv s version → state_inv s' version.
Proof. induction 1; eauto using touched_inv. Qed.

Lemma touches_same version dirty s s' pinned :
  touches version dirty s s' → pinned < version → same_at pinned s s'.
Proof.
  induction 1 as [|s s1 s2 Ht _ IH]; intros Hp; [done|]. etrans; [by eapply touched_same|by apply IH].
Qed.
