(* ===== verification/GreenAccount.v ===== *)
(** * The head identity's invariant

    The identity a green keeps is brought up to date from the keys marked
    since it was last read.  [ident_inv] says what it sums: the entries of
    the version it was last folded at, and every key that reads differently
    now is marked.  From it, the folded identity is the one computed from
    scratch.  Then the accounting of the histories: the running totals are the recounted
    ones. *)

From S2P Require Import Prelude OpsDoc Special Origin History Rejected Identity Green GreenOps GreenState.
#[local] Open Scope N_scope.

Section identity.
Context `{Blake3}.

(** A key's entry at a version, and at the head. *)
Definition entry_then (s : State) (since : N) (k : IdentityKey.t) : option Entry :=
  (entries_of s k since).1.
Definition entry_now (s : State) (k : IdentityKey.t) : option Entry := (entries_of s k 0).2.

Lemma entries_of_now s k since : (entries_of s k since).2 = entry_now s k.
Proof. by destruct k. Qed.

(** ** Sums over maps of entries *)
Definition lanes_sum (l : list Entry) (i : nat) : Z := foldr Z.add 0%Z (map (λ e, lane e i) l).
Definition total (m : gmap IdentityKey.t Entry) (i : nat) : Z := lanes_sum (map_to_list m).*2 i.

Lemma lanes_sum_app l k i : lanes_sum (l ++ k) i = (lanes_sum l i + lanes_sum k i)%Z.
Proof. unfold lanes_sum. induction l; simpl; lia. Qed.

Lemma lanes_sum_perm l k i : l ≡ₚ k → lanes_sum l i = lanes_sum k i.
Proof. unfold lanes_sum. induction 1; simpl; lia. Qed.

Lemma total_insert m k e i : m !! k = None → total (<[k := e]> m) i = (lane e i + total m i)%Z.
Proof.
  intros Hk. unfold total.
  assert (Hp : (map_to_list (<[k:=e]> m)).*2 ≡ₚ e :: (map_to_list m).*2) by by rewrite map_to_list_insert.
  rewrite (lanes_sum_perm _ _ i Hp). done.
Qed.

Lemma total_delete m k e i : m !! k = Some e → total m i = (lane e i + total (delete k m) i)%Z.
Proof.
  intros Hk. rewrite <- (insert_delete_id m k e Hk) at 1. apply total_insert.
  apply lookup_delete_eq.
Qed.

Lemma sums_to_foldl l : ∀ h f,
  sums_to h f → sums_to (foldl hash_add h l) (λ i, (f i + lanes_sum l i)%Z).
Proof.
  induction l as [|e l IH]; intros h f Hh; simpl.
  - eapply sums_to_ext; [exact Hh|]. intros i. unfold lanes_sum. simpl. lia.
  - eapply sums_to_ext; [apply IH, sums_to_add, Hh|]. intros i. unfold lanes_sum. simpl. lia.
Qed.

(** ** Folding the marked keys *)
Lemma fold_key_sums s since h m k :
  sums_to h (total m) → m !! k = entry_then s since k →
  sums_to (fold_key s since h k) (total (partial_alter (λ _, entry_now s k) k m)).
Proof.
  intros Hh Hk. unfold fold_key, entry_then in *. pose proof (entries_of_now s k since) as Hn.
  destruct (entries_of s k since) as [old new]. cbn in *. rewrite <- Hn.
  assert (Hold : sums_to (match old with Some e => hash_remove h e | None => h end) (total (delete k m))).
  { destruct old as [e|].
    - eapply sums_to_ext; [apply sums_to_remove, Hh|]. intros i. cbv beta. rewrite (total_delete m k e i Hk). lia.
    - by rewrite delete_id. }
  destruct new as [e|]; [|exact Hold].
  eapply sums_to_ext; [apply sums_to_add, Hold|]. intros i. cbv beta.
  change (partial_alter (λ _, Some e) k m) with (<[k := e]> m).
  rewrite <- insert_delete_eq, total_insert by apply lookup_delete_eq. lia.
Qed.

Lemma fold_keys_sums s since ks : ∀ h m,
  NoDup ks → sums_to h (total m) → (∀ k, m !! k = entry_then s since k) →
  ∃ m', sums_to (foldl (fold_key s since) h ks) (total m') ∧
    ∀ k, m' !! k = if bool_decide (k ∈ ks) then entry_now s k else entry_then s since k.
Proof.
  induction ks as [|k ks IH] using rev_ind; intros h m Hnd Hh Hm.
  - exists m. split; [done|]. intros k. by rewrite bool_decide_false by set_solver.
  - apply NoDup_app in Hnd as (Hnd & Hdis & _). rewrite foldl_app. simpl.
    destruct (IH h m Hnd Hh Hm) as (m' & Hh' & Hm').
    exists (partial_alter (λ _, entry_now s k) k m'). split.
    + apply fold_key_sums; [done|]. rewrite Hm', bool_decide_false; [done|set_solver].
    + intros q. destruct (base.decide (k = q)) as [->|Hq].
      * rewrite lookup_partial_alter_eq. by rewrite bool_decide_true by set_solver.
      * rewrite lookup_partial_alter_ne, Hm' by done.
        case_bool_decide; case_bool_decide; set_solver.
Qed.

(** ** The entries of the head, keyed *)
Definition keyed {K V} `{Countable K, !BTreeKey K} (key : K → IdentityKey.t) (entry : K → V → Entry)
    (m : gmap K V) : list (IdentityKey.t * Entry) :=
  map (λ e, (key e.1, entry e.1 e.2)) (bt_list m).

Lemma keyed_elem {K V} `{Countable K, !BTreeKey K} key (entry : K → V → Entry) (m : gmap K V) k e :
  (k, e) ∈ keyed key entry m ↔ ∃ q v, k = key q ∧ m !! q = Some v ∧ e = entry q v.
Proof.
  unfold keyed. rewrite list_elem_of_fmap. split.
  - intros ([q v] & [= -> ->] & Hin). apply elem_of_bt_list in Hin. eauto.
  - intros (q & v & -> & Hm & ->). exists (q, v). split; [done|]. by apply elem_of_bt_list.
Qed.

Lemma keyed_NoDup {K V} `{Countable K, !BTreeKey K} key (entry : K → V → Entry) (m : gmap K V) :
  Inj (=) (=) key → NoDup (keyed key entry m).*1.
Proof.
  intros Hinj. assert (E : (keyed key entry m).*1 = key <$> bt_keys m).
  { unfold keyed, bt_keys. rewrite <- !list_fmap_compose. done. }
  rewrite E. apply NoDup_fmap_2; [done|]. apply NoDup_bt_keys.
Qed.

Lemma keyed_key {K V} `{Countable K, !BTreeKey K} key (entry : K → V → Entry) (m : gmap K V) k :
  k ∈ (keyed key entry m).*1 → ∃ q, k = key q.
Proof.
  intros Hin. apply list_elem_of_fmap in Hin as ([? ?] & -> & Hin).
  apply keyed_elem in Hin as (? & ? & -> & _). by eexists.
Qed.

Lemma keyed_values {K V} `{Countable K, !BTreeKey K} key (entry : K → V → Entry) (m : gmap K V) :
  (keyed key entry m).*2 = map (λ e, entry e.1 e.2) (bt_list m).
Proof. unfold keyed. by rewrite <- list_fmap_compose. Qed.

Definition xattr_key (k : string * string) : IdentityKey.t := IdentityKey.Xattr k.1 k.2.
Definition keyed_entries (s : State) : list (IdentityKey.t * Entry) :=
  keyed IdentityKey.Special special_entry (d_cur (specials s))
  ++ keyed IdentityKey.File file_entry (d_cur (content s))
  ++ map (λ p, (IdentityKey.Dir p, dir_entry p)) (bt_elems (dirs s))
  ++ keyed IdentityKey.Mode mode_entry (d_cur (modes s))
  ++ keyed IdentityKey.Symlink (link_entry IDENTITY_TAG_SYMLINK) (d_cur (symlinks s))
  ++ keyed IdentityKey.Hardlink (link_entry IDENTITY_TAG_HARDLINK) (d_cur (hardlinks s))
  ++ keyed xattr_key (λ k v, xattr_entry k.1 k.2 v) (d_cur (xattrs s)).

Lemma keyed_entries_values s : (keyed_entries s).*2 = all_entries s.
Proof.
  unfold keyed_entries, all_entries. rewrite !fmap_app, !keyed_values.
  rewrite <- (list_fmap_compose (λ p, (IdentityKey.Dir p, dir_entry p)) snd). reflexivity.
Qed.

Lemma keyed_entries_elem s k e : (k, e) ∈ keyed_entries s ↔ entry_now s k = Some e.
Proof.
  unfold keyed_entries. rewrite !elem_of_app, !keyed_elem, list_elem_of_fmap.
  setoid_rewrite elem_of_bt_elems. unfold entry_now. split.
  - intros [X|[X|[X|[X|[X|[X|X]]]]]]; destruct X as (q & X);
      first [destruct X as (v & -> & Hv & ->)|destruct X as ([= -> ->] & Hv)]; cbn.
    1-2, 4-6: by rewrite Hv.
    + unfold has_elem. by rewrite bool_decide_true.
    + destruct q. cbn in *. by rewrite Hv.
  - destruct k as [p|p|p|p|p|p|p n]; cbn; rewrite ?fmap_Some.
    + intros (v & Hv & ->). right. left. by exists p, v.
    + intros (v & Hv & ->). left. by exists p, v.
    + unfold has_elem. case_bool_decide; [|done]. intros [= <-]. do 2 right. left. by exists p.
    + intros (v & Hv & ->). do 3 right. left. by exists p, v.
    + intros (v & Hv & ->). do 4 right. left. by exists p, v.
    + intros (v & Hv & ->). do 5 right. left. by exists p, v.
    + intros (v & Hv & ->). do 6 right. by exists (p, n), v.
Qed.

Lemma keyed_entries_keys s : NoDup (keyed_entries s).*1.
Proof.
  unfold keyed_entries. rewrite !fmap_app.
  assert (Hd : (map (λ p, (IdentityKey.Dir p, dir_entry p)) (bt_elems (dirs s))).*1
               = IdentityKey.Dir <$> bt_elems (dirs s)) by by rewrite <- list_fmap_compose.
  rewrite Hd.
  assert (Hx : Inj (=) (=) xattr_key) by (intros [? ?] [? ?] [= -> ->]; done).
  repeat first [apply NoDup_app; split_and!];
    try (apply keyed_NoDup; try done; intros ?? [= ->]; done).
  all: try (apply NoDup_fmap_2; [intros ?? [= ->]; done|apply NoDup_bt_elems]).
  all: intros k Hin; rewrite ?elem_of_app; intros Hout;
    repeat match goal with
    | X : _ ∨ _ |- _ => destruct X as [X|X]
    end;
    repeat match goal with
    | X : _ ∈ (keyed _ _ _).*1 |- _ => apply keyed_key in X as [? X]
    | X : _ ∈ IdentityKey.Dir <$> _ |- _ => apply list_elem_of_fmap in X as (? & X & _)
    end; subst; discriminate.
Qed.

Lemma keyed_entries_NoDup s : NoDup (keyed_entries s).
Proof. apply (NoDup_fmap_1 fst), keyed_entries_keys. Qed.

Lemma total_now s m : (∀ k, m !! k = entry_now s k) → ∀ i, total m i = lanes_sum (all_entries s) i.
Proof.
  intros Hm i. unfold total. rewrite <- keyed_entries_values. apply lanes_sum_perm.
  apply fmap_Permutation. apply NoDup_Permutation.
  - apply NoDup_map_to_list.
  - apply keyed_entries_NoDup.
  - intros [k e]. by rewrite elem_of_map_to_list, keyed_entries_elem, Hm.
Qed.

(** ** The invariant *)
Record ident_inv (s : State) (i : Ident) : Prop := {
  ii_version : identity_version i ≤ head s;
  ii_sums : ∃ m, sums_to (identity i) (total m) ∧ ∀ k, m !! k = entry_then s (identity_version i) k;
  ii_clean : ∀ k, k ∉ identity_dirty i → entry_then s (identity_version i) k = entry_now s k
}.

(** States that read the same at a version have its entries. *)
Lemma same_at_entries version s s' k :
  same_at version s s' → entry_then s version k = entry_then s' version k.
Proof.
  intros [Hc Hs Hm Hy Hh Hx Hd]. unfold entry_then. destruct k; cbn [entries_of fst snd]; try by f_equal.
  specialize (Hd path). unfold dir_at in Hd. by rewrite Hd.
Qed.

(** At the head, the histories read what is current. *)
Lemma entries_at_head s k : state_inv s (head s) → entry_then s (head s) k = entry_now s k.
Proof.
  intros Hs. unfold entry_then, entry_now.
  destruct k; cbn [entries_of fst snd]; try (f_equal; symmetry; apply dok_cur, di_ok; apply Hs).
  unfold has_elem. pose proof (si_dirs _ _ Hs path) as Hd. unfold dir_at in Hd.
  destruct (default false _), (bool_decide_reflect (path ∈ dirs s)) as [Hin|Hin]; try done.
  - by destruct Hin; apply Hd.
  - by apply Hd in Hin.
Qed.

(** An update leaves every unmarked key's entry. *)
Lemma touched_now version dirty s s' k :
  touched version dirty s s' → k ∉ dirty → entry_now s' k = entry_now s k.
Proof.
  intros Ht Hk. unfold entry_now.
  destruct Ht as [e ?|p ?|p n ?|p ?|p m ?|p ?|p t ?|p ?|p t ?|p ?|q v ?|q ?|p ?|p ?];
    unfold commit_set, commit_removed, commit_special, drop_special, retain_content;
    repeat (case_match || split_if); destruct k; cbn [entries_of snd]; try done; try f_equal;
    cbn [content specials modes symlinks hardlinks xattrs dirs with_content with_specials with_modes
         with_symlinks with_hardlinks with_xattrs with_dirs with_history_bytes dim_set dim_remove d_cur];
    rewrite ?lookup_insert, ?lookup_delete; try (case_decide; [|done]; subst; cbn in *; contradiction).
  - unfold has_elem. do 2 case_bool_decide; set_solver.
  - unfold has_elem. do 2 case_bool_decide; set_solver.
Qed.

Lemma touches_now version dirty s s' k :
  touches version dirty s s' → k ∉ dirty → entry_now s' k = entry_now s k.
Proof.
  intros Ht Hk. induction Ht as [|s s1 s2 Hs _ IH]; [done|]. rewrite IH. by eapply touched_now.
Qed.

Lemma ident_inv_touches s s' i dirty version :
  touches version dirty s s' → head s < version → head s ≤ head s' → identity_dirty i ⊆ dirty →
  ident_inv s i → ident_inv s' (mkIdent (identity i) (identity_version i) dirty).
Proof.
  intros Ht Hv Hle Hsub [Hver (m & Hsum & Hm) Hclean].
  assert (Hsame : same_at (identity_version i) s s') by (eapply touches_same; [done|lia]).
  constructor; cbn.
  - lia.
  - exists m. split; [done|]. intros k. rewrite Hm. by apply same_at_entries.
  - intros k Hk. rewrite <- (same_at_entries _ s s') by done. rewrite (touches_now _ _ _ _ k Ht Hk).
    apply Hclean. set_solver.
Qed.

(** Folding brings the identity to the head's entries. *)
Lemma fold_identity_sums g :
  ident_inv (g_state g) (g_ident g) →
  ∃ m, sums_to (identity (g_ident (fold_identity g))) (total m) ∧ ∀ k, m !! k = entry_now (g_state g) k.
Proof.
  intros [_ (m & Hsum & Hm) Hclean]. unfold fold_identity. cbn [g_ident identity].
  destruct (fold_keys_sums (g_state g) (identity_version (g_ident g))
              (bt_elems (identity_dirty (g_ident g))) (identity (g_ident g)) m) as (m' & Hs' & Hm');
    [apply NoDup_bt_elems|done|done|].
  exists m'. split; [done|]. intros k. rewrite Hm'. case_bool_decide as Hk; [done|].
  apply Hclean. by rewrite elem_of_bt_elems in Hk.
Qed.

Lemma fold_identity_inv g :
  state_inv (g_state g) (head (g_state g)) → ident_inv (g_state g) (g_ident g) →
  ident_inv (g_state (fold_identity g)) (g_ident (fold_identity g)).
Proof.
  intros Hs Hi. destruct (fold_identity_sums g Hi) as (m & Hsum & Hm). constructor; cbn.
  - lia.
  - exists m. split; [exact Hsum|]. intros k. rewrite Hm. symmetry. by apply entries_at_head.
  - intros k _. by apply entries_at_head.
Qed.

(** The running identity is the recomputed one. *)
Lemma head_identity_scratch g :
  ident_inv (g_state g) (g_ident g) → (head_identity g).2 = head_identity_from_scratch g.
Proof.
  intros Hi. destruct (fold_identity_sums g Hi) as (m & Hsum & Hm).
  unfold head_identity, head_identity_from_scratch. cbn [snd]. f_equal.
  eapply sums_to_inj; [exact Hsum|apply sums_to_foldl, sums_to_default|].
  intros i. cbv beta. rewrite (total_now _ _ Hm). done.
Qed.
End identity.

(** * Balanced accounting of the histories

    [history_cost] is what the histories' earlier values cost; [balanced]
    says the running total is that.  Every single-key update adds the
    superseded value's cost to both, a fold takes the dropped values' from
    both. *)

#[local] Open Scope N_scope.

(** What a history's earlier values cost, and a whole map of histories'. *)
Definition hist_cost {V} (cost : V → N) (h : History V) : N :=
  sum_N (map (λ e, cost e.2) (earlier h)).
Definition cost_of {K V} `{Countable K, !BTreeKey K} (cost : V → N) (hist : gmap K (History V)) : N :=
  sum_N (map (hist_cost cost) (bt_values hist)).
Definition history_cost (s : State) : N :=
  cost_of special_cost (d_hist (specials s)) + cost_of content_cost (d_hist (content s)).
Definition balanced (s : State) : Prop := history_bytes s = history_cost s.

(** ** One history *)
Lemma hist_cost_snoc {V} (cost : V → N) (h : History V) e :
  hist_cost cost (h ++ [e]) = sum_N (map (λ e, cost e.2) h).
Proof.
  unfold hist_cost, earlier. rewrite rev_app_distr. cbn [rev app drop]. apply sum_N_perm.
  by rewrite <- Permutation_rev.
Qed.

Lemma hist_cost_push {V} (cost : V → N) (h : History V) v x e :
  last h = Some (v, x) → hist_cost cost (h ++ [e]) = hist_cost cost h + cost x.
Proof.
  intros Hl. apply last_Some in Hl as (h' & ->). rewrite !hist_cost_snoc, map_app, sum_N_app. cbn. lia.
Qed.

Lemma hist_cost_app {V} (cost : V → N) (gone kept : History V) :
  (gone ≠ [] → kept ≠ []) →
  hist_cost cost (gone ++ kept) = sum_N (map (λ e, cost e.2) gone) + hist_cost cost kept.
Proof.
  intros Hne. destruct kept as [|e kept _] using rev_ind.
  - destruct gone; [done|]. by destruct Hne.
  - rewrite app_assoc, !hist_cost_snoc, map_app, sum_N_app. done.
Qed.

(** A fold's charge is what the history loses. *)
Lemma fold_entries_cost {V} (h : History V) floor cost :
  ascending h →
  hist_cost cost h = (fold_entries h floor cost).2 + hist_cost cost (fold_entries h floor cost).1.
Proof.
  intros Ha. destruct (fold_entries_split h floor cost Ha) as (gone & kept & -> & -> & -> & Hk).
  apply hist_cost_app. intros Hg. by destruct (Hk Hg) as (? & ? & -> & _).
Qed.

(** ** A map of histories *)
Section maps.
Context {K V : Type} `{Countable K, !BTreeKey K}.
Implicit Types hist : gmap K (History V).

Lemma cost_of_map_to_list (cost : V → N) hist :
  cost_of cost hist = sum_N (map (λ e, hist_cost cost e.2) (map_to_list hist)).
Proof.
  unfold cost_of, bt_values. apply sum_N_perm. rewrite map_map.
  apply Permutation_map, bt_list_perm.
Qed.

Lemma cost_of_insert (cost : V → N) hist k h :
  hist !! k = None → cost_of cost (<[k := h]> hist) = hist_cost cost h + cost_of cost hist.
Proof.
  intros Hk. rewrite !cost_of_map_to_list.
  rewrite (sum_N_perm _ _ (Permutation_map _ (map_to_list_insert hist k h Hk))). done.
Qed.

Lemma cost_of_empty (cost : V → N) : cost_of cost (∅ : gmap K (History V)) = 0.
Proof. rewrite cost_of_map_to_list, map_to_list_empty. done. Qed.

Lemma cost_of_split (cost : V → N) hist k h :
  hist !! k = Some h → cost_of cost hist = hist_cost cost h + cost_of cost (delete k hist).
Proof.
  intros Hk. rewrite <- (insert_delete_id hist k h Hk) at 1. apply cost_of_insert, lookup_delete_eq.
Qed.

Lemma cost_of_update (cost : V → N) hist k h :
  cost_of cost (<[k := h]> hist) = hist_cost cost h + cost_of cost (delete k hist).
Proof. rewrite <- insert_delete_eq. apply cost_of_insert, lookup_delete_eq. Qed.

Lemma cost_of_fold (cost : V → N) hist floor :
  (∀ k h, hist !! k = Some h → ascending h) →
  cost_of cost hist =
    sum_N (map (λ h, (fold_entries h floor cost).2) (bt_values hist))
    + cost_of cost (fold_histories hist floor cost).
Proof.
  induction hist as [|k h hist Hk IH] using map_ind; intros Ha.
  - unfold fold_histories. rewrite fmap_empty, !cost_of_empty. done.
  - unfold fold_histories in *. rewrite fmap_insert, !cost_of_insert by (by rewrite ?lookup_fmap, ?Hk).
    rewrite IH; [|intros q h' Hq; apply (Ha q); rewrite lookup_insert_ne by congruence; done].
    rewrite (fold_entries_cost h floor cost) at 1
      by (apply (Ha k); by rewrite lookup_insert, decide_True).
    assert (Hp : bt_values (<[k:=h]> hist) ≡ₚ h :: bt_values hist).
    { unfold bt_values. rewrite !bt_list_perm, map_to_list_insert by done. done. }
    rewrite (sum_N_perm _ _ (Permutation_map _ Hp)). cbn [map sum_N foldr].
    fold (sum_N (map (λ h, (fold_entries h floor cost).2) (bt_values hist))). lia.
Qed.
End maps.

(** A key's push adds what the superseded value costs. *)
Lemma cost_of_push {K V} `{Countable K, !BTreeKey K} (d : Dim K V) (cost : option V → N) k version x :
  dim_inv d version → cost None = 0 →
  cost_of cost (push_history (d_hist d) k version x) = cost_of cost (d_hist d) + cost (d_cur d !! k).
Proof.
  intros Hd H0. unfold push_history. rewrite cost_of_update. pose proof (di_last _ _ Hd k) as Hl.
  destruct (d_hist d !! k) as [h|] eqn:E; cbn [default].
  - rewrite (hist_cost_push _ _ _ _ _ Hl), (cost_of_split cost (d_hist d) k h E). simpl. lia.
  - destruct Hl as [-> _]. rewrite H0, delete_id by done. cbn. lia.
Qed.

(** ** Updates *)

(** An update adds the same to the running total as to the histories' cost. *)
Lemma touched_cost version dirty s s' :
  touched version dirty s s' → state_inv s version →
  ∃ n, history_cost s' = history_cost s + n ∧ history_bytes s' = sat_add (history_bytes s) n ∨
       history_cost s' = history_cost s ∧ history_bytes s' = history_bytes s.
Proof.
  intros Ht Hs. pose proof (si_content _ _ Hs) as Hc. pose proof (si_specials _ _ Hs) as Hp.
  unfold history_cost.
  destruct Ht as [e ?|p ?|p n ?|p ?|p m ?|p ?|p t ?|p ?|p t ?|p ?|q v ?|q ?|p ?|p ?];
    try (exists 0; by right).
  - unfold commit_set, retain_content. exists (content_cost (d_cur (content s) !! e.1.1)).
    destruct (d_cur (content s) !! e.1.1) as [prev|] eqn:E; cbn [with_content with_history_bytes content
      specials history_bytes dim_set d_hist]; rewrite (cost_of_push (content s) content_cost _ _ _ Hc eq_refl), E;
      cbn [content_cost]; [left|right]; split; try done; lia.
  - unfold commit_removed, retain_content. exists (content_cost (d_cur (content s) !! p)).
    destruct (d_cur (content s) !! p) as [prev|] eqn:E; cbn [with_content with_history_bytes content
      specials history_bytes dim_remove d_hist]; rewrite (cost_of_push (content s) content_cost _ _ _ Hc eq_refl), E;
      cbn [content_cost]; [left|right]; split; try done; lia.
  - unfold commit_special, has. exists (special_cost (d_cur (specials s) !! p)).
    destruct (has_key (d_cur (specials s)) p) eqn:E;
      [apply has_key_true in E as [node E]|apply has_key_false in E];
      cbn [with_specials with_history_bytes content specials history_bytes dim_set d_hist];
      rewrite (cost_of_push (specials s) special_cost _ _ _ Hp eq_refl), E;
      cbn [special_cost]; [left|right]; split; try done; lia.
  - unfold drop_special, has. exists (special_cost (d_cur (specials s) !! p)).
    destruct (has_key (d_cur (specials s)) p) eqn:E;
      [apply has_key_true in E as [node E]|apply has_key_false in E];
      cbn [with_specials with_history_bytes content specials history_bytes dim_remove d_hist];
      rewrite (cost_of_push (specials s) special_cost _ _ _ Hp eq_refl), E;
      cbn [special_cost]; [left|right]; split; try done; lia.
Qed.

Lemma touches_balanced version dirty s s' :
  touches version dirty s s' → state_inv s version → history_cost s' ≤ usize_max → balanced s →
  balanced s' ∧ history_cost s ≤ history_cost s'.
Proof.
  unfold balanced, usize_max. induction 1 as [|s s1 s2 Ht Hr IH]; intros Hs Hfit Hb; [done|].
  assert (Hs1 : state_inv s1 version) by by eapply touched_inv.
  destruct (touched_cost _ _ _ _ Ht Hs) as (n & Hn).
  assert (Hmono : history_cost s1 ≤ history_cost s2).
  { clear -Hr Hs1. induction Hr as [|s s1 s2 Ht Hr IH]; [done|].
    destruct (touched_cost _ _ _ _ Ht Hs1) as (n & Hn). specialize (IH (touched_inv _ _ _ _ Ht Hs1)). lia. }
  assert (Hb1 : history_bytes s1 = history_cost s1) by (unfold sat_add in Hn; lia).
  destruct (IH Hs1 Hfit Hb1). split; [done|]. lia.
Qed.

(** ** The recount *)
Lemma hist_cost_special (h : History (option SpecialNode)) :
  hist_cost special_cost h =
    len (filter (λ e : N * option SpecialNode, is_Some e.2) (earlier h)) * SPECIAL_NODE_BYTES.
Proof.
  unfold hist_cost. induction (earlier h) as [|[v [n|]] l IH]; [done|..]; cbn [map sum_N foldr snd special_cost].
  - rewrite filter_cons_True by by eexists. rewrite len_cons. fold (sum_N (map (λ e : N * option SpecialNode, special_cost e.2) l)). lia.
  - rewrite filter_cons_False by by intros [? ?]. fold (sum_N (map (λ e : N * option SpecialNode, special_cost e.2) l)). lia.
Qed.

Lemma sum_N_elem n l : n ∈ l → n ≤ sum_N l.
Proof. induction 1; cbn; fold (sum_N l); lia. Qed.

(** The recount is the cost, wherever that fits a [usize]. *)
Lemma recounted_cost s : history_cost s ≤ usize_max → history_bytes_recounted s = history_cost s.
Proof.
  intros Hfit. unfold history_bytes_recounted, history_cost in *.
  assert (Hsp : map (λ h : History (option SpecialNode),
     sat_mul (len (filter (λ e : N * option SpecialNode, is_Some e.2) (earlier h))) SPECIAL_NODE_BYTES)
     (bt_values (d_hist (specials s))) = map (hist_cost special_cost) (bt_values (d_hist (specials s)))).
  { apply map_ext_in. intros h Hin. rewrite hist_cost_special. unfold sat_mul. apply N.min_l.
    rewrite <- hist_cost_special. etrans; [apply (sum_N_elem _ (map (hist_cost special_cost) (bt_values (d_hist (specials s)))))|].
    - apply list_elem_of_In, in_map, Hin.
    - unfold cost_of, usize_max in Hfit. lia. }
  rewrite Hsp. unfold cost_of in *. unfold usize_max in Hfit. rewrite sat_add_small; [done|].
  unfold hist_cost at 2 in Hfit. exact Hfit.
Qed.

(** ** Folding *)
Lemma released_by_sum {V} (hist : gmap string (History V)) floor (cost : V → N) acc :
  acc + sum_N (map (λ h, (fold_entries h floor cost).2) (bt_values hist)) ≤ u64_max →
  released_by hist floor cost acc = acc + sum_N (map (λ h, (fold_entries h floor cost).2) (bt_values hist)).
Proof.
  unfold released_by. generalize (bt_values hist). intros l. revert acc.
  induction l as [|h l IH]; intros acc Hfit; cbn [map sum_N foldr foldl] in *; [lia|].
  fold (sum_N (map (λ h, (fold_entries h floor cost).2) l)) in *.
  rewrite sat_add_small by lia. rewrite IH; lia.
Qed.
