(* ===== verification/GreenReach.v ===== *)
(** * A green's life

    The operations on a green as a step relation, the invariant every
    reachable green satisfies, and what follows of the whole component: old
    versions never change, retries are idempotent, the head identity and the
    history accounting agree with their recomputation, and a fold keeps every
    version from its floor on.  Then concrete greens, on which the theorems
    are applied. *)

From S2P Require Import Prelude Range OpsDoc ByteSplice PosMap Special Origin IncrementDoc History.
From S2P Require Import Rejected Identity Green GreenOps GreenState GreenAccount.
#[local] Open Scope N_scope.

(** ** Folding keeps what it must *)
Lemma entry_at_fold_head {V} (h : History V) floor cost head :
  hist_ok h head → entry_at (fold_entries h floor cost).1 head = entry_at h head.
Proof.
  intros Hh. pose proof (fold_entries_ok h floor cost head Hh) as [_ Hb']. destruct Hh as [Ha Hb].
  destruct (N.le_ge_cases floor head) as [Hf|Hf]; [by apply entry_at_fold|].
  rewrite <- (entry_at_bounded h head floor), <- (entry_at_bounded _ head floor Hb') by done.
  apply entry_at_fold; [done|lia].
Qed.

Lemma fold_entry {V} (h : History V) floor cost head version :
  hist_ok h head → floor ≤ version ∨ version = head →
  entry_at (fold_entries h floor cost).1 version = entry_at h version.
Proof. intros Hh [Hv| ->]; [apply entry_at_fold; [apply Hh|done]|by apply entry_at_fold_head]. Qed.

Lemma dim_at_fold {K V} `{Countable K} (d : Dim K V) floor cost head version k :
  dim_inv d head → floor ≤ version ∨ version = head →
  dim_at d k version =
    dim_at (mkDim (d_cur d) (fold_histories (d_hist d) floor cost) (d_changed d)) k version.
Proof.
  intros Hd Hv. unfold dim_at, fold_histories. cbn [d_hist]. rewrite lookup_fmap.
  destruct (d_hist d !! k) as [h|] eqn:E; [|done]. simpl. unfold history_at.
  rewrite (fold_entry h floor cost head); [done| |done]. by apply (dok_hist _ _ (di_ok _ _ Hd) k).
Qed.

Lemma fold_state_same s floor released version :
  state_inv s (head s) → floor ≤ version ∨ version = head s →
  same_at version s (fold_state s floor released).
Proof.
  intros Hs Hv. constructor; intros k; try (eapply dim_at_fold; [apply Hs|done]).
  unfold dir_at, fold_state, fold_histories. cbn [dir_history]. rewrite lookup_fmap.
  destruct (dir_history s !! k) as [h|] eqn:E; [|done]. simpl. unfold present_at.
  rewrite (fold_entry h floor _ (head s)); [done| |done]. by apply (si_dir_history _ _ Hs k).
Qed.

Lemma fold_state_inv s floor released :
  state_inv s (head s) → state_inv (fold_state s floor released) (head s).
Proof.
  intros Hs. constructor; try (apply dim_inv_fold; apply Hs).
  - intros p h. cbn [fold_state dir_history]. unfold fold_histories. rewrite lookup_fmap_Some.
    intros (h' & <- & Hp). apply fold_entries_ok. by apply (si_dir_history _ _ Hs p).
  - intros p. rewrite <- (sa_dirs _ _ _ (fold_state_same s floor released (head s) Hs (or_intror eq_refl))).
    apply Hs.
Qed.

(** The running total loses what the histories lose. *)
Lemma fold_state_balanced s floor :
  state_inv s (head s) → balanced s → history_cost s ≤ usize_max →
  let released := released_by (d_hist (specials s)) floor special_cost
      (released_by (d_hist (content s)) floor content_cost 0) in
  balanced (fold_state s floor released) ∧
  history_cost (fold_state s floor released) + released = history_cost s.
Proof.
  unfold balanced, usize_max. intros Hs Hb Hfit.
  assert (Ha : ∀ {K V} `{Countable K} (d : Dim K V) k h,
    dim_inv d (head s) → d_hist d !! k = Some h → ascending h).
  { intros K V ?? d k h Hd Hk. by apply (dok_hist _ _ (di_ok _ _ Hd) k). }
  pose proof (cost_of_fold content_cost (d_hist (content s)) floor
    (λ k h, Ha _ _ _ _ _ k h (si_content _ _ Hs))) as Hc.
  pose proof (cost_of_fold special_cost (d_hist (specials s)) floor
    (λ k h, Ha _ _ _ _ _ k h (si_specials _ _ Hs))) as Hp.
  unfold history_cost in *. cbn [fold_state specials content d_hist history_bytes]. unfold sat_sub.
  cbv zeta. rewrite (released_by_sum (d_hist (content s))) by lia.
  rewrite (released_by_sum (d_hist (specials s))) by lia. lia.
Qed.

Section green.
Context `{Blake3}.

(** ** Seeding *)
Lemma seed_split {K V} `{Countable K} (table : list (K * V)) (entry : K → V → Entry) : ∀ d h,
  seed d h table entry =
    (foldl (λ d e, dim_seed d e.1 e.2) d table, foldl hash_add h (map (λ e, entry e.1 e.2) table)).
Proof.
  induction table as [|e table IH]; intros d h; [done|]. unfold seed in *. cbn [foldl map fst snd].
  apply IH.
Qed.

Lemma seeded_inv {K V} `{Countable K} (table : list (K * V)) : ∀ d,
  dim_inv d 0 → dim_inv (foldl (λ d e, dim_seed d e.1 e.2) d table) 0.
Proof. induction table; intros; simpl; [done|]. auto using dim_inv_seed. Qed.

Lemma seeded_cur {K V} `{Countable K} (table : list (K * V)) : ∀ d,
  d_cur (foldl (λ d e, dim_seed d e.1 e.2) d table) = foldl (λ m e, <[e.1 := e.2]> m) (d_cur d) table.
Proof. induction table; intros; simpl; [done|]. by rewrite IHtable. Qed.

Lemma seeded_singletons {K V} `{Countable K} (table : list (K * V)) : ∀ d,
  (∀ k h, d_hist d !! k = Some h → ∃ e, h = [e]) →
  ∀ k h, d_hist (foldl (λ d e, dim_seed d e.1 e.2) d table) !! k = Some h → ∃ e, h = [e].
Proof.
  induction table as [|e table IH]; intros d Hd; [done|]. cbn [foldl]. apply IH.
  intros k h. cbn [dim_seed d_hist]. rewrite lookup_insert. case_decide; [|by apply Hd].
  intros [= <-]. by eexists.
Qed.

Lemma singletons_cost {K V} `{Countable K, !BTreeKey K} (cost : V → N) (hist : gmap K (History V)) :
  (∀ k h, hist !! k = Some h → ∃ e, h = [e]) → cost_of cost hist = 0.
Proof.
  induction hist as [|k h hist Hk IH] using map_ind; intros Hh; [apply cost_of_empty|].
  rewrite cost_of_insert, IH by (done || (intros q h' Hq; apply (Hh q);
    rewrite lookup_insert_ne by congruence; done)).
  destruct (Hh k h) as [e ->]; [by rewrite lookup_insert, decide_True|]. done.
Qed.

(** A canonical table is what its map iterates. *)
Lemma seeded_table {K V} `{Countable K, !BTreeKey K} (l : list (K * V)) :
  bt_list (d_cur (foldl (λ d e, dim_seed d e.1 e.2) dim_empty (dedup_by_key fst l)))
    = dedup_by_key fst l.
Proof.
  rewrite seeded_cur, dedup_by_key_bt_list. cbn [dim_empty d_cur]. f_equal.
  apply bt_collect_bt_list.
Qed.

Lemma seed_dirs_split (paths : list string) h :
  NoDup paths →
  ∃ ds dh, seed_dirs paths h = (ds, dh, foldl hash_add h (map dir_entry paths)) ∧
    ds = list_to_set paths ∧ ∀ p hist, dh !! p = Some hist ↔ p ∈ paths ∧ hist = [(0, true)].
Proof.
  unfold seed_dirs. induction paths as [|p paths IH] using rev_ind; intros Hnd.
  - eexists _, _. split; [reflexivity|]. split; [done|]. intros p hist. rewrite lookup_empty. set_solver.
  - apply NoDup_app in Hnd as (Hnd & Hdis & _). destruct (IH Hnd) as (ds & dh & E & Hds & Hdh).
    rewrite foldl_app, E, map_app, foldl_app. cbn [foldl map].
    assert (Hp : has_elem ds p = false) by (apply has_elem_false; subst; set_solver).
    rewrite Hp. eexists _, _. split; [reflexivity|]. split; [subst; set_solver|].
    intros q hist. rewrite lookup_insert. case_decide as Eq.
    + subst q. set_solver.
    + rewrite Hdh. set_solver.
Qed.

Lemma ident_inv_scratch s :
  state_inv s (head s) →
  ident_inv s (mkIdent (foldl hash_add SetHash_default (all_entries s)) (head s) ∅).
Proof.
  intros Hs. constructor; cbn.
  - lia.
  - exists (list_to_map (keyed_entries s)).
    assert (Hm : ∀ k, (list_to_map (keyed_entries s) : gmap _ _) !! k = entry_now s k).
    { intros k. apply option_eq. intros e. rewrite <- keyed_entries_elem.
      symmetry. apply elem_of_list_to_map, keyed_entries_keys. }
    split; [|intros k; by rewrite Hm, entries_at_head].
    eapply sums_to_ext; [apply sums_to_foldl, sums_to_default|]. intros i. cbv beta.
    by rewrite (total_now s _ Hm).
  - intros k _. by apply entries_at_head.
Qed.

Lemma with_origin_inv o :
  let g := with_origin o in
  state_inv (g_state g) 0 ∧ ident_inv (g_state g) (g_ident g) ∧
  history_cost (g_state g) = 0 ∧ history_bytes (g_state g) = 0 ∧ head (g_state g) = 0 ∧
  accepted g = ∅ ∧ g_cache g = cache_empty ∧ folded_below g = 0.
Proof.
  unfold with_origin. cbv zeta. rewrite !seed_split.
  cbn [origin_canonicalize o_specials o_files o_dirs o_modes o_symlinks o_hardlinks o_xattrs].
  edestruct (seed_dirs_split (sort_dedup (o_dirs o))) as (ds & dh & E & Hds & Hdh).
  { rewrite sort_dedup_bt_elems. apply NoDup_bt_elems. }
  rewrite E, !seed_split. cbn [g_state g_ident accepted g_cache folded_below].
  match goal with |- state_inv ?x 0 ∧ _ => set (s := x) end.
  assert (Hs : state_inv s 0).
  { constructor; try (apply seeded_inv, dim_inv_empty).
    - intros p h. cbn. rewrite Hdh. intros [_ ->]. split; repeat constructor; cbn; lia.
    - intros p. unfold dir_at. cbn. rewrite Hds, elem_of_list_to_set. split.
      + intros Hp. by rewrite (proj2 (Hdh p [(0, true)]) (conj Hp eq_refl)).
      + destruct (dh !! p) as [h|] eqn:Ep; [|done]. apply Hdh in Ep. tauto. }
  split_and!; try done.
  - rewrite <- !foldl_app.
    match goal with |- ident_inv s (mkIdent (foldl hash_add _ ?l) 0 ∅) => assert (Hl : l = all_entries s) end.
    { unfold all_entries, s. cbn [specials content dirs modes symlinks hardlinks xattrs].
      rewrite !seeded_table, Hds. rewrite sort_dedup_bt_elems.
      assert (Hset : (list_to_set (bt_elems (list_to_set (o_dirs o) : gset string)) : gset string)
                     = list_to_set (o_dirs o)).
      { apply set_eq. intros x. by rewrite elem_of_list_to_set, elem_of_bt_elems. }
      rewrite Hset. reflexivity. }
    rewrite Hl. by apply (ident_inv_scratch s).
  - unfold history_cost, s. cbn [specials content].
    rewrite !singletons_cost; [done|..]; apply seeded_singletons; intros k h; cbn; by rewrite lookup_empty.
Qed.

(** ** Steps *)
Inductive green_step (g : Green) : Green → Prop :=
| gs_submit inc :
    head (g_state g) < u64_max → history_cost (g_state (submit g inc).1) ≤ usize_max →
    green_step g (submit g inc).1
| gs_identity : green_step g (head_identity g).1
| gs_fold floor : green_step g (fold_history_before g floor).1
| gs_budget budget : budget < usize_max → green_step g (green_set_rejected_budget g budget)
| gs_forget id : green_step g (green_forget_rejected g id).1
| gs_rebase inc : green_step g (rebase g inc).1.

Definition green_reachable (g : Green) : Prop := ∃ o, rtc green_step (with_origin o) g.

Record green_inv (g : Green) : Prop := {
  gi_state : state_inv (g_state g) (head (g_state g));
  gi_ident : ident_inv (g_state g) (g_ident g);
  gi_balanced : balanced (g_state g);
  gi_fits : history_cost (g_state g) ≤ usize_max;
  gi_cache : cache_ok (g_cache g);
  gi_accepted : ∀ id v, accepted g !! id = Some v → 0 < v ∧ v ≤ head (g_state g);
  gi_disjoint : ∀ id, is_Some (accepted g !! id) → rejected (g_cache g) !! id = None
}.

(** ** What a submission does *)
Inductive submit_spec (g : Green) (inc : Increment) : Green * Outcome → Prop :=
| ss_accepted v :
    accepted g !! inc_id inc = Some v → submit_spec g inc (g, Accepted v)
| ss_rejected ws :
    accepted g !! inc_id inc = None → rejected (g_cache g) !! inc_id inc = Some ws →
    submit_spec g inc (g, Conflict ws)
| ss_conflict hits ws :
    accepted g !! inc_id inc = None → rejected (g_cache g) !! inc_id inc = None →
    decide (g_state g) (fast_path_hits g) inc (resolve inc) = (hits, Err ws) →
    submit_spec g inc
      (mkGreen (g_state g) (g_ident g) (accepted g) (retain_rejected (g_cache g) (inc_id inc) ws)
         (folded_below g) hits, Conflict ws)
| ss_commit hits effects s' delta dirty :
    let version := sat_add (head (g_state g)) 1 in
    accepted g !! inc_id inc = None → rejected (g_cache g) !! inc_id inc = None →
    decide (g_state g) (fast_path_hits g) inc (resolve inc) = (hits, Ok effects) →
    commit (g_state g) (identity_dirty (g_ident g)) effects version
      = (with_deltas s' (deltas (g_state g) ++ [delta]), dirty) →
    touches version dirty (g_state g) s' → identity_dirty (g_ident g) ⊆ dirty →
    submit_spec g inc
      (mkGreen (with_deltas s' (deltas (g_state g) ++ [delta]))
         (mkIdent (identity (g_ident g)) (identity_version (g_ident g)) dirty)
         (<[inc_id inc := version]> (accepted g)) (g_cache g) (folded_below g) hits,
       Accepted version).

Lemma submit_specP g inc : submit_spec g inc (submit g inc).
Proof.
  unfold submit. destruct (accepted g !! inc_id inc) as [v|] eqn:Ea; [by constructor|].
  destruct (rejected (g_cache g) !! inc_id inc) as [ws|] eqn:Er; [by constructor|].
  destruct (decide _ _ inc (resolve inc)) as [hits [effects|ws]] eqn:Ed; cbv zeta; [|by constructor].
  destruct (commit_touches (g_state g) (identity_dirty (g_ident g)) effects
              (sat_add (head (g_state g)) 1)) as (s' & delta & dirty & E & Ht & Hsub).
  rewrite E. by eapply ss_commit.
Qed.

Lemma head_next s delta s' : head (with_deltas s' (deltas s ++ [delta])) = head s + 1.
Proof. unfold head. cbn. by rewrite len_app. Qed.

Lemma with_deltas_inv s ds version : state_inv s version → state_inv (with_deltas s ds) version.
Proof. intros []. by constructor. Qed.

(** ** The invariant *)
Lemma submit_inv g inc :
  green_inv g → head (g_state g) < u64_max → history_cost (g_state (submit g inc).1) ≤ usize_max →
  green_inv (submit g inc).1.
Proof.
  intros [Hs Hi Hb Hf Hc Ha Hd] Hh.
  destruct (submit_specP g inc) as [v Ev|ws Ea Er|hits ws Ea Er Ed|hits effects s' delta dirty version Ea Er Ed Ec Ht Hsub];
    cbn [fst]; intros Hfit; try by constructor.
  - constructor; cbn [g_state g_ident g_cache accepted]; try done; [by apply retain_rejected_ok|].
    intros id Hid. apply retain_rejected_other; [|by apply Hd]. intros ->. by rewrite Ea in Hid; destruct Hid.
  - assert (Ev : version = head (g_state g) + 1) by (unfold version; rewrite sat_add_small; lia).
    assert (Hw : state_inv (g_state g) version) by (eapply state_inv_weaken; [done|lia]).
    cbn [g_state] in Hfit.
    destruct (touches_balanced _ _ _ _ Ht Hw Hfit Hb) as [Hb' _].
    constructor; cbn [g_state g_ident g_cache accepted]; try done.
    + rewrite head_next, <- Ev. apply with_deltas_inv. by eapply touches_inv.
    + pose proof (touches_deltas _ _ _ _ Ht) as Hds.
      assert (Hi' := ident_inv_touches _ s' _ dirty version Ht ltac:(lia)
        ltac:(unfold head; rewrite Hds; lia) Hsub Hi).
      destruct Hi' as [Hv Hm Hcl]. constructor; cbn in *; [|done..].
      rewrite head_next. destruct Hi as [? _ _]. lia.
    + intros id v. rewrite head_next, lookup_insert. case_decide; [intros [= <-]; lia|].
      intros Hv. apply Ha in Hv. lia.
    + intros id. rewrite lookup_insert. case_decide as E; [by subst|]. apply Hd.
Qed.

Lemma head_identity_inv g : green_inv g → green_inv (head_identity g).1.
Proof.
  intros [Hs Hi Hb Hf Hc Ha Hd]. pose proof (fold_identity_inv g Hs Hi). by constructor.
Qed.

Lemma fold_before_inv g floor : green_inv g → green_inv (fold_history_before g floor).1.
Proof.
  intros Hg. unfold fold_history_before. split_if; [done|]. bool_to_prop. cbn [fst].
  set (g0 := if identity_version (g_ident g) <? floor then _ else g).
  assert (Hg0 : green_inv g0) by (unfold g0; split_if; [by apply head_identity_inv|done]).
  assert (Hiv : floor ≤ identity_version (g_ident g0) ∨ identity_version (g_ident g0) = head (g_state g0)).
  { unfold g0. split_if; [by right|]. left. by apply N.ltb_ge. }
  destruct Hg0 as [Hs Hi Hb Hf Hc Ha Hd].
  destruct (fold_state_balanced (g_state g0) floor Hs Hb Hf) as [Hb' Hcost].
  constructor; cbn [g_state g_ident g_cache accepted]; try done.
  - exact (fold_state_inv _ _ _ Hs).
  - destruct Hi as [Hv (m & Hsum & Hm) Hcl]. pose proof (fold_state_same (g_state g0) floor
      (released_by (d_hist (specials (g_state g0))) floor special_cost
        (released_by (d_hist (content (g_state g0))) floor content_cost 0)) _ Hs Hiv) as Hsame.
    constructor; [done| |].
    + exists m. split; [done|]. intros k. rewrite Hm. by apply same_at_entries.
    + intros k Hk. rewrite <- (same_at_entries _ _ _ k Hsame). rewrite Hcl by done. by destruct k.
  - cbv zeta in Hcost. lia.
Qed.

Lemma green_step_inv g g' : green_step g g' → green_inv g → green_inv g'.
Proof.
  intros Ht Hg. destruct Ht.
  - by apply submit_inv.
  - by apply head_identity_inv.
  - by apply fold_before_inv.
  - destruct Hg as [Hs Hi Hb Hf Hc Ha Hd]. constructor; try done; [by apply set_rejected_budget_ok|].
    intros id Hid. apply set_rejected_budget_other. by apply Hd.
  - destruct Hg as [Hs Hi Hb Hf Hc Ha Hd]. unfold green_forget_rejected.
    pose proof (forget_rejected_ok (g_cache g) id Hc) as [Hok _].
    pose proof (forget_rejected_other (g_cache g) id) as Hoth.
    destruct (forget_rejected (g_cache g) id) as [c n]. cbn in *. constructor; try done.
    intros q Hq. by apply Hoth, Hd.
  - unfold rebase. by destruct (decide _ _ _ _).
Qed.

Lemma reachable_inv g : green_reachable g → green_inv g.
Proof.
  intros [o Hr]. assert (H0 : green_inv (with_origin o)).
  { destruct (with_origin_inv o) as (Hs & Hi & Hc & Hb & Hh & Ha & Hca & _). constructor.
    - by rewrite Hh.
    - done.
    - unfold balanced. congruence.
    - rewrite Hc. unfold usize_max. lia.
    - rewrite Hca. apply cache_empty_ok.
    - intros id v. by rewrite Ha, lookup_empty.
    - intros id. rewrite Ha, lookup_empty. by intros [? ?]. }
  induction Hr; eauto using green_step_inv.
Qed.
End green.

(** ** Concrete greens

    A small origin, increments against it and the greens they lead to, on
    which the theorems about greens are applied. *)
#[local] Existing Instance prefix_hash.

Definition origin_ab : Origin :=
  mkOrigin [("a"%string, as_bytes "hello"); ("b"%string, as_bytes "bye")] ["d"%string]
    [("a"%string, 420)] [("l"%string, "a"%string)] [] [] [].
Definition green0 : Green := with_origin origin_ab.

(** An increment with one-byte identity [id] on base [base]. *)
Definition increment_of (id base : N) (names : list string) (os : list Op) (post : string) : Increment :=
  mkIncrement [byte_of id] base (mkOpsDoc (mkPathTable names) os) (as_bytes post) [].

(** Overwrite the first two bytes of [a]; insert at its end; unlink [a]. *)
Definition inc_overwrite : Increment :=
  increment_of 1 0 ["a"%string] [mkOp OpKind.Overwrite 0 0 0 2 0] "HE".
Definition inc_extend : Increment :=
  increment_of 2 0 ["a"%string] [mkOp OpKind.Extend 0 0 5 1 0] "!".
Definition inc_unlink : Increment :=
  increment_of 3 0 ["a"%string] [mkOp OpKind.Unlink 0 0 0 0 u64_max] "".

Definition green1 : Green := (submit green0 inc_overwrite).1.
Definition green2 : Green := (submit green1 inc_extend).1.

(** The number bounds of a step, checked by computation. *)
Ltac by_bound := apply N.ltb_lt || apply N.leb_le; vm_compute; reflexivity.

Lemma green0_reachable : green_reachable green0.
Proof. by exists origin_ab. Qed.
Lemma green0_step : green_step green0 green1.
Proof. apply gs_submit; by_bound. Qed.
Lemma green1_step : green_step green1 green2.
Proof. apply gs_submit; by_bound. Qed.
Lemma green1_reachable : green_reachable green1.
Proof. exists origin_ab. eapply rtc_once, green0_step. Qed.
Lemma green2_reachable : green_reachable green2.
Proof. exists origin_ab. eapply rtc_l; [apply green0_step|]. apply rtc_once, green1_step. Qed.

(** Both edits land: the second was written against the origin. *)
Example green2_content : d_cur (content (g_state green2)) !! "a"%string = Some (as_bytes "HEllo!").
Proof. vm_compute. reflexivity. Qed.
