(* ===== verification/GreenSpec.v ===== *)
(** * A green is an append-only log of trees

    The contract of a green: a tree of entries per version.  [Tree] is one
    version's entries, [tree_at] the tree the histories hold for a version,
    [apply_effects] the tree a commit makes.  A commit appends that tree and
    leaves every earlier one; a submission that conflicts appends nothing. *)

From S2P Require Import Prelude Range OpsDoc ByteSplice PosMap Special Origin IncrementDoc History.
From S2P Require Import Rejected Identity Green GreenOps GreenState GreenAccount.
From S2P Require Import GreenReach.
#[local] Open Scope N_scope.

(** ** Trees *)
Record Tree := mkTree {
  t_files : gmap string bytes;
  t_specials : gmap string SpecialNode;
  t_modes : gmap string N;
  t_symlinks : gmap string string;
  t_hardlinks : gmap string string;
  t_xattrs : gmap (string * string) bytes;
  t_dirs : gset string
}.

(** What is current, and what the histories hold for a version. *)
Definition tree_now (s : State) : Tree :=
  mkTree (d_cur (content s)) (d_cur (specials s)) (d_cur (modes s)) (d_cur (symlinks s))
    (d_cur (hardlinks s)) (d_cur (xattrs s)) (dirs s).
Definition map_at {K V} `{Countable K} (d : Dim K V) (version : N) : gmap K V :=
  omap (λ h, history_at h version) (d_hist d).
Definition tree_at (s : State) (version : N) : Tree :=
  mkTree (map_at (content s) version) (map_at (specials s) version) (map_at (modes s) version)
    (map_at (symlinks s) version) (map_at (hardlinks s) version) (map_at (xattrs s) version)
    (dom (filter (λ e : string * History bool, present_at e.2 version = true) (dir_history s))).

(** ** The effects of a commit on a tree

    Every effect but a file's in order; the files removed go before the files
    set, whichever order the effects name them in (a rename chain sets a path
    another rename vacates). *)
Definition apply_effect (t : Tree) (e : Effect.t) : Tree :=
  let '(mkTree f sp mo sy ha xa ds) := t in
  match e with
  | Effect.Special p n => mkTree f (<[p := n]> sp) mo sy ha xa ds
  | Effect.RemoveSpecial p =>
      mkTree f (delete p sp) (delete p mo) sy ha (filter (λ e, e.1.1 ≠ p) xa) ds
  | Effect.SetContent _ _ _ | Effect.RemoveContent _ => t
  | Effect.MakeDir p => mkTree f sp mo sy ha xa ({[ p ]} ∪ ds)
  | Effect.RemoveDir p => mkTree f sp mo sy ha xa (ds ∖ {[ p ]})
  | Effect.Mode p m => mkTree f sp (<[p := m]> mo) sy ha xa ds
  | Effect.Symlink p l => mkTree f sp mo (<[p := l]> sy) ha xa ds
  | Effect.RemoveSymlink p => mkTree f sp mo (delete p sy) ha xa ds
  | Effect.Hardlink p l => mkTree f sp mo sy (<[p := l]> ha) xa ds
  | Effect.RemoveHardlink p => mkTree f sp mo sy (delete p ha) xa ds
  | Effect.SetXattr p n v => mkTree f sp mo sy ha (<[(p, n) := v]> xa) ds
  | Effect.RemoveXattr p n => mkTree f sp mo sy ha (delete (p, n) xa) ds
  end.

Definition removed_path (e : Effect.t) : option string :=
  match e with Effect.RemoveContent p => Some p | _ => None end.
Definition set_file (e : Effect.t) : option (string * bytes) :=
  match e with Effect.SetContent p bs _ => Some (p, bs) | _ => None end.

Definition apply_files (files : gmap string bytes) (es : list Effect.t) : gmap string bytes :=
  foldl (λ m (e : string * bytes), <[e.1 := e.2]> m)
    (foldl (λ m p, delete p m) files (omap removed_path es)) (omap set_file es).
Definition apply_effects (t : Tree) (es : list Effect.t) : Tree :=
  let t' := foldl apply_effect t es in
  mkTree (apply_files (t_files t) es) (t_specials t') (t_modes t') (t_symlinks t') (t_hardlinks t')
    (t_xattrs t') (t_dirs t').

(** ** Reading trees *)
Lemma lookup_map_at {K V} `{Countable K} (d : Dim K V) version k :
  map_at d version !! k = dim_at d k version.
Proof. unfold map_at. rewrite lookup_omap. done. Qed.

Lemma elem_of_dirs_at s version p : p ∈ t_dirs (tree_at s version) ↔ dir_at s p version = true.
Proof.
  unfold dir_at. cbn. rewrite elem_of_dom. split.
  - intros [h Hh]. apply map_lookup_filter_Some in Hh as [-> Hp]. exact Hp.
  - destruct (dir_history s !! p) as [h|] eqn:E; [|done]. simpl. intros Hp. exists h.
    by apply map_lookup_filter_Some.
Qed.

Lemma same_at_tree version s s' : same_at version s s' → tree_at s version = tree_at s' version.
Proof.
  intros Hs. assert (Hd : t_dirs (tree_at s version) = t_dirs (tree_at s' version)).
  { apply set_eq. intros p. rewrite !elem_of_dirs_at. by rewrite (sa_dirs _ _ _ Hs). }
  unfold tree_at in *. cbn [t_dirs] in Hd. f_equal; [..|exact Hd];
    apply map_eq; intros k; rewrite !lookup_map_at; apply Hs.
Qed.

(** The head's tree is the current one. *)
Lemma tree_at_head s version : state_inv s version → tree_at s version = tree_now s.
Proof.
  intros Hs. assert (Hd : t_dirs (tree_at s version) = dirs s).
  { apply set_eq. intros p. rewrite elem_of_dirs_at. symmetry. apply Hs. }
  unfold tree_at, tree_now in *. cbn [t_dirs] in Hd. f_equal; [..|exact Hd];
    apply map_eq; intros k; rewrite lookup_map_at; symmetry; apply dok_cur, di_ok; apply Hs.
Qed.

(** ** A commit applies its effects *)
Lemma drop_attributes_cur version keys : ∀ s dirty,
  let st := foldl (λ (st : State * gset IdentityKey.t) key,
      (with_xattrs st.1 (dim_remove (xattrs st.1) key version),
       {[ IdentityKey.Xattr key.1 key.2 ]} ∪ st.2)) (s, dirty) keys in
  tree_now st.1 = mkTree (d_cur (content s)) (d_cur (specials s)) (d_cur (modes s)) (d_cur (symlinks s))
    (d_cur (hardlinks s)) (foldl (λ m k, delete k m) (d_cur (xattrs s)) keys) (dirs s) ∧
  specials st.1 = specials s.
Proof.
  induction keys as [|key keys IH]; intros s dirty; [done|]. cbn [foldl fst snd]. cbv zeta in IH.
  destruct (IH (with_xattrs s (dim_remove (xattrs s) key version))
    ({[ IdentityKey.Xattr key.1 key.2 ]} ∪ dirty)) as [-> ->]. done.
Qed.

Lemma foldl_delete {K V} `{Countable K} (ks : list K) : ∀ (m : gmap K V) k,
  foldl (λ m k, delete k m) m ks !! k = if bool_decide (k ∈ ks) then None else m !! k.
Proof.
  induction ks as [|q ks IH]; intros m k; simpl; [done|]. rewrite IH, lookup_delete.
  repeat case_bool_decide; repeat case_decide; set_solver.
Qed.

Lemma drop_attributes_filter (s : State) p :
  foldl (λ m k, delete k m) (d_cur (xattrs s)) (attributes_of s p)
    = filter (λ e, e.1.1 ≠ p) (d_cur (xattrs s)).
Proof.
  apply map_eq. intros [q n]. rewrite foldl_delete, map_lookup_filter.
  unfold attributes_of. case_bool_decide as Hin.
  - apply list_elem_of_filter in Hin as [Hq _]. cbn in Hq. subst q.
    destruct (d_cur (xattrs s) !! (p, n)); [|done]. simpl. by case_guard.
  - destruct (d_cur (xattrs s) !! (q, n)) as [v|] eqn:E; [|done]. simpl. case_guard as Hg; [done|].
    cbn in Hg. destruct Hin. apply list_elem_of_filter. split; [cbn; by destruct (base.decide (q = p))|].
    unfold bt_keys. apply list_elem_of_fmap. exists (q, n, v). split; [done|]. by apply elem_of_bt_list.
Qed.

Lemma remove_special_tree s dirty p version :
  tree_now (remove_special s dirty p version).1 = apply_effect (tree_now s) (Effect.RemoveSpecial p).
Proof.
  unfold remove_special. cbv zeta. set (s0 := if has (specials s) p then _ else s).
  assert (H0 : tree_now s0 = tree_now s ∧ (specials s0 = specials s)) by (unfold s0; split_if; done).
  destruct H0 as [H0 Hsp].
  match goal with |- context [let '(s1, d1) := ?x in _] => set (st := x) end.
  assert (H1 : tree_now st.1 = mkTree (d_cur (content s)) (d_cur (specials s)) (delete p (d_cur (modes s)))
     (d_cur (symlinks s)) (d_cur (hardlinks s)) (d_cur (xattrs s)) (dirs s)).
  { unfold tree_now in H0. injection H0 as Hf Hs' Hm Hy Hh Hx Hd. unfold st, has.
    destruct (has_key (d_cur (modes s0)) p) eqn:E; unfold tree_now; cbn; [by f_equal; rewrite ?Hm|].
    apply has_key_false in E. rewrite Hm in E. rewrite delete_id by done. by f_equal. }
  destruct st as [s1 d1]. cbn [fst] in H1.
  destruct (drop_attributes_cur version (attributes_of s1 p) s1 d1) as [Ht Hs2].
  destruct (foldl _ (s1, d1) (attributes_of s1 p)) as [s2 d2]. cbn [fst] in *.
  rewrite drop_attributes_filter in Ht. unfold tree_now in *. injection H1 as Hf Hs' Hm Hy Hh Hx Hd.
  injection Ht as Hf2 Hs2' Hm2 Hy2 Hh2 Hx2 Hd2. cbn.
  rewrite Hf2, Hm2, Hy2, Hh2, Hx2, Hd2, Hs2', Hf, Hs', Hm, Hy, Hh, Hx, Hd. done.
Qed.

Lemma drop_attributes_content version keys : ∀ (st : State * gset IdentityKey.t),
  content (foldl (λ (st : State * gset IdentityKey.t) key,
      (with_xattrs st.1 (dim_remove (xattrs st.1) key version),
       {[ IdentityKey.Xattr key.1 key.2 ]} ∪ st.2)) st keys).1 = content st.1.
Proof. induction keys as [|key keys IH]; intros st; [done|]. cbn [foldl]. by rewrite IH. Qed.

Lemma remove_special_content s dirty p version :
  content (remove_special s dirty p version).1 = content s.
Proof.
  unfold remove_special. cbv zeta. set (s0 := if has (specials s) p then _ else s).
  match goal with |- context [let '(s1, d1) := ?x in _] => set (st := x) end.
  assert (Hst : content st.1 = content s) by (unfold st, s0; repeat split_if; done).
  destruct st as [s1 d1]. cbn [fst] in Hst.
  pose proof (drop_attributes_content version (attributes_of s1 p) (s1, d1)) as Hd. cbn [fst] in Hd.
  destruct (foldl _ (s1, d1) (attributes_of s1 p)) as [s2 d2]. cbn in *. congruence.
Qed.

Lemma commit_effect_tree version st e :
  let st' := commit_effect version st e in
  tree_now (st_state st') = apply_effect (tree_now (st_state st)) e ∧
  content (st_state st') = content (st_state st) ∧
  st_removed st' = st_removed st ++ option_list (removed_path e) ∧
  (st_set st').*1 = (st_set st).*1 ++ option_list (set_file e).
Proof.
  destruct e as [p n|p|p bs os|p|p|p|p m|p t|p|p t|p|p n v|p n]; cbv zeta; cbn [commit_effect effect_key removed_path set_file option_list].
  2: { pose proof (remove_special_tree (st_state st) ({[IdentityKey.Special p]} ∪ st_dirty st) p version) as Ht.
       pose proof (remove_special_content (st_state st) ({[IdentityKey.Special p]} ∪ st_dirty st) p version) as Hc.
       destruct (remove_special _ _ _ _) as [s' d']. cbn in *. by rewrite !app_nil_r. }
  all: cbn [st_state st_removed st_set]; rewrite ?fmap_app, ?app_nil_r; try done.
  unfold commit_special. split_if; done.
Qed.

Lemma staging_tree version effects : ∀ st,
  let st' := foldl (commit_effect version) st effects in
  tree_now (st_state st') = foldl apply_effect (tree_now (st_state st)) effects ∧
  content (st_state st') = content (st_state st) ∧
  st_removed st' = st_removed st ++ omap removed_path effects ∧
  (st_set st').*1 = (st_set st).*1 ++ omap set_file effects.
Proof.
  induction effects as [|e effects IH]; intros st; cbn [foldl]; [by rewrite !app_nil_r|].
  destruct (commit_effect_tree version st e) as (Ht & Hc & Hr & Hs).
  destruct (IH (commit_effect version st e)) as (Ht' & Hc' & Hr' & Hs'). cbv zeta.
  rewrite Ht', Hc', Hr', Hs', Ht, Hc, Hr, Hs, <- !app_assoc. split_and!; try done; f_equal; cbn.
  - by destruct (removed_path e).
  - by destruct (set_file e).
Qed.

(** A tree with other files. *)
Definition with_files (t : Tree) (files : gmap string bytes) : Tree :=
  mkTree files (t_specials t) (t_modes t) (t_symlinks t) (t_hardlinks t) (t_xattrs t) (t_dirs t).

Lemma commit_removed_tree version paths : ∀ s,
  tree_now (foldl (commit_removed version) s paths)
    = with_files (tree_now s) (foldl (λ m p, delete p m) (d_cur (content s)) paths).
Proof.
  induction paths as [|p paths IH]; intros s; [done|]. cbn [foldl]. rewrite IH.
  unfold commit_removed, retain_content. by case_match.
Qed.

Lemma commit_set_tree version sets : ∀ s,
  tree_now (foldl (commit_set version) s sets)
    = with_files (tree_now s)
        (foldl (λ m (e : string * bytes), <[e.1 := e.2]> m) (d_cur (content s)) sets.*1).
Proof.
  induction sets as [|e sets IH]; intros s; [done|]. cbn [foldl fmap list_fmap]. rewrite IH.
  unfold commit_set, retain_content. by case_match.
Qed.

Lemma commit_tree s dirty effects version :
  tree_now (commit s dirty effects version).1 = apply_effects (tree_now s) effects.
Proof.
  unfold commit. cbv zeta. cbn [fst].
  destruct (staging_tree version effects (mkStaging s dirty [] [])) as (Ht & Hc & Hr & Hs).
  set (st := foldl (commit_effect version) _ effects) in *. cbn [st_state st_removed st_set] in *.
  set (s1 := foldl (commit_removed version) _ _). set (s2 := foldl (commit_set version) _ _).
  change (tree_now (with_deltas s2 _)) with (tree_now s2). unfold s2.
  rewrite commit_set_tree. unfold s1 at 1. rewrite commit_removed_tree.
  assert (Hf : d_cur (content s1) = foldl (λ m p, delete p m) (d_cur (content s)) (omap removed_path effects)).
  { change (d_cur (content s1)) with (t_files (tree_now s1)). unfold s1.
    rewrite commit_removed_tree, Hr, Hc. done. }
  rewrite Hf, Hs, Ht. done.
Qed.

(** ** The log *)
Definition log (g : Green) : list Tree :=
  map (λ n, tree_at (g_state g) (N.of_nat n)) (seq 0 (S (length (deltas (g_state g))))).

Lemma log_lookup g version :
  version ≤ head (g_state g) → log g !! N.to_nat version = Some (tree_at (g_state g) version).
Proof.
  intros Hv. unfold log. rewrite list_lookup_fmap.
  unfold head, len in Hv. rewrite lookup_seq_lt by lia. cbn. by rewrite N2Nat.id.
Qed.

Section log.
Context `{Blake3}.

(** The step a fresh, accepted submission makes. *)
Lemma commit_extends_log g effects s' delta dirty version :
  green_inv g → version = head (g_state g) + 1 →
  commit (g_state g) (identity_dirty (g_ident g)) effects version
    = (with_deltas s' (deltas (g_state g) ++ [delta]), dirty) →
  touches version dirty (g_state g) s' →
  map (λ n, tree_at (with_deltas s' (deltas (g_state g) ++ [delta])) (N.of_nat n))
      (seq 0 (S (length (deltas (g_state g) ++ [delta]))))
    = log g ++ [apply_effects (tree_now (g_state g)) effects].
Proof.
  intros Hg Hv Hc Ht. unfold log. rewrite length_app, Nat.add_comm. cbn [length plus].
  rewrite seq_S, map_app. f_equal.
  - apply map_ext_in. intros n Hn%in_seq. symmetry. apply same_at_tree.
    destruct (touches_same version dirty (g_state g) s' (N.of_nat n) Ht) as [].
    { rewrite Hv. unfold head, len. lia. }
    by constructor.
  - cbn [map]. f_equal. rewrite <- (commit_tree (g_state g) (identity_dirty (g_ident g)) effects version), Hc.
    cbn [fst]. apply tree_at_head.
    replace (N.of_nat (0 + S (length (deltas (g_state g))))) with version
      by (rewrite Hv; unfold head, len; lia).
    apply with_deltas_inv. eapply touches_inv; [exact Ht|].
    eapply state_inv_weaken; [apply Hg|lia].
Qed.

(** What a submission's outcome says of the log. *)
Definition submit_refines (g : Green) (inc : Increment) (g' : Green) (o : Outcome) : Prop :=
  match o with
  | Accepted v =>
      accepted g !! inc_id inc = Some v ∧ g' = g ∨
      accepted g !! inc_id inc = None ∧ rejected (g_cache g) !! inc_id inc = None ∧ v = head (g_state g) + 1 ∧
      accepted g' = <[inc_id inc := v]> (accepted g) ∧
      ∃ hits effects,
        decide (g_state g) (fast_path_hits g) inc (resolve inc) = (hits, Ok effects) ∧
        log g' = log g ++ [apply_effects (tree_now (g_state g)) effects]
  | Conflict ws =>
      accepted g !! inc_id inc = None ∧
      log g' = log g ∧ accepted g' = accepted g ∧ g_state g' = g_state g ∧
      (rejected (g_cache g) !! inc_id inc = Some ws ∨
       rejected (g_cache g) !! inc_id inc = None ∧
       ∃ hits, decide (g_state g) (fast_path_hits g) inc (resolve inc) = (hits, Err ws))
  end.

(** C30. A green is an append-only log of trees.  A submission of a fresh
    increment that every dimension accepts appends exactly one tree, the
    current one with the decided effects applied, at the next version, and
    leaves every logged tree as it was; an increment accepted before answers
    the version it was given, never a conflict, and changes nothing; one the
    cache of rejections holds answers its windows again; a conflict leaves the
    whole state. *)
Theorem submit_appends_tree g inc :
  green_reachable g → head (g_state g) < u64_max →
  submit_refines g inc (submit g inc).1 (submit g inc).2.
Proof.
  intros Hr Hh. pose proof (reachable_inv g Hr) as Hg. unfold submit_refines.
  destruct (submit_specP g inc) as [v Ev|ws Ea Er|hits ws Ea Er Ed|hits effects s' delta dirty version Ea Er Ed Ec Ht Hsub];
    cbn [fst snd].
  - by left.
  - split_and!; eauto.
  - split_and!; eauto.
  - right. assert (Ev : version = head (g_state g) + 1) by (unfold version; rewrite sat_add_small; lia).
    split_and!; [done|done|done|done|]. exists hits, effects. split; [done|].
    exact (commit_extends_log g effects s' delta dirty version Hg Ev Ec Ht).
Qed.

(** A pinned version at or above every floor keeps its tree. *)
Lemma step_pinned g g' pinned :
  green_inv g → green_step g g' → pinned ≤ head (g_state g) → folded_below g' ≤ pinned →
  same_at pinned (g_state g) (g_state g') ∧ head (g_state g) ≤ head (g_state g').
Proof.
  intros Hg Ht Hp Hf. destruct Ht as [inc Hh _| |floor|budget _|id|inc]; try (cbn; done).
  - destruct (submit_specP g inc) as [v Ev|ws Ea Er|hits ws Ea Er Ed|hits effects s' delta dirty version Ea Er Ed Ec Ht Hsub];
      cbn [fst g_state]; try done. rewrite head_next. split; [|lia].
    assert (Ev : version = head (g_state g) + 1) by (unfold version; rewrite sat_add_small; lia).
    destruct (touches_same version dirty (g_state g) s' pinned Ht) as []; [lia|]. by constructor.
  - unfold fold_history_before in *. split_if; [done|]. cbn [fst g_state folded_below] in *.
    set (g0 := if identity_version (g_ident g) <? floor then _ else g) in *.
    assert (Hs : g_state g0 = g_state g) by (unfold g0; split_if; done).
    rewrite Hs. split; [|done]. apply fold_state_same; [apply Hg|by left].
  - unfold green_forget_rejected in *. by destruct (forget_rejected (g_cache g) id).
  - unfold rebase in *. by destruct (decide _ _ _ _).
Qed.

Lemma step_floor g g' : green_step g g' → folded_below g ≤ folded_below g'.
Proof.
  intros Ht. destruct Ht as [inc Hh _| |floor|budget _|id|inc]; try (cbn; lia).
  - destruct (submit_specP g inc); cbn; lia.
  - unfold fold_history_before. split_if; cbn; bool_to_prop; lia.
  - unfold green_forget_rejected. destruct (forget_rejected (g_cache g) id). cbn. lia.
  - unfold rebase. destruct (decide _ _ _ _). cbn. lia.
Qed.

Lemma run_floor g g' : rtc green_step g g' → folded_below g ≤ folded_below g'.
Proof. induction 1; [done|]. etrans; [by eapply step_floor|done]. Qed.

(** C31. A version a reader pins stays as it was: after any run of
    submissions, identity readings, folds, cache operations and rebases that
    never folds past it, the histories hold the same tree for it. *)
Theorem pinned_version_immutable g g' pinned :
  green_reachable g → rtc green_step g g' → pinned ≤ head (g_state g) → folded_below g' ≤ pinned →
  tree_at (g_state g') pinned = tree_at (g_state g) pinned.
Proof.
  intros Hr Hrun. apply reachable_inv in Hr. induction Hrun as [|g g1 g2 Ht Hrun IH]; [done|].
  intros Hp Hf. pose proof (run_floor _ _ Hrun) as Hfl.
  destruct (step_pinned g g1 pinned Hr Ht Hp ltac:(lia)) as [Hsame Hhead].
  rewrite IH; [symmetry; by apply same_at_tree|by eapply green_step_inv|lia|done].
Qed.
End log.

(** ** On the samples *)
Lemma submit_appends_tree_witness :
  (submit green1 inc_extend).2 = Accepted 2 ∧
  submit_refines green1 inc_extend (submit green1 inc_extend).1 (submit green1 inc_extend).2.
Proof.
  split; [vm_compute; reflexivity|].
  apply (submit_appends_tree (H := prefix_hash) green1 inc_extend green1_reachable). by_bound.
Defined.

Lemma pinned_version_immutable_witness :
  t_files (tree_at (g_state green2) 0) !! "a"%string = Some (as_bytes "hello") ∧
  tree_at (g_state green2) 0 = tree_at (g_state green0) 0.
Proof.
  split; [vm_compute; reflexivity|].
  apply (pinned_version_immutable (H := prefix_hash) green0 green2 0 green0_reachable).
  - eapply rtc_l; [apply green0_step|]. apply rtc_once, green1_step.
  - by_bound.
  - by_bound.
Defined.
