(* ===== verification/GreenProps.v ===== *)
(** * Retries, the head identity, accounting and folding

    What holds of every green its operations reach, beyond the log of trees:
    a retried increment gets its first answer, the running identity and the
    running byte total are the recomputed ones, and folding releases exactly
    what it drops and keeps every version it must. *)

From S2P Require Import Prelude Range OpsDoc ByteSplice PosMap Special Origin IncrementDoc History.
From S2P Require Import Rejected Identity Green GreenOps GreenState GreenAccount.
From S2P Require Import GreenReach GreenSpec.
#[local] Open Scope N_scope.

(** ** Decisions do not read the fast-path counter *)
Lemma decide_hits s hits hits' inc r : (decide s hits inc r).2 = (decide s hits' inc r).2.
Proof.
  unfold decide, decide_content. cbv zeta.
  match goal with
  | |- context [foldl ?f (hits, _) _] =>
      assert (Hf : ∀ l h h' v, (foldl f (h, v) l).2 = (foldl f (h', v) l).2)
  end.
  { intros l. induction l as [|e l IH]; intros h h' v; [done|]. cbn [foldl].
    destruct (_ || _); [apply IH|]. destruct (merge_content s inc e.1 e.2) as [fast outcome]. apply IH. }
  match goal with |- context [foldl _ (hits, ?v) ?l] => specialize (Hf l hits hits' v) end.
  destruct (foldl _ (hits, _) _) as [h1 v1], (foldl _ (hits', _) _) as [h2 v2]. cbn in Hf. by subst.
Qed.

Section green.
Context `{Blake3}.

(** ** Retries *)
Lemma step_accepted g g' id v :
  green_step g g' → accepted g !! id = Some v → accepted g' !! id = Some v.
Proof.
  intros Ht Hid. destruct Ht as [inc Hh _| |floor|budget _|id'|inc]; try done.
  - destruct (submit_specP g inc) as [| | |hits effects s' delta dirty version Ea]; try done.
    cbn. rewrite lookup_insert_ne; [done|]. intros <-. congruence.
  - unfold fold_history_before. split_if; [done|]. cbn. by split_if.
  - unfold green_forget_rejected. by destruct (forget_rejected (g_cache g) id').
  - unfold rebase. by destruct (decide _ _ _ _).
Qed.

Lemma accepted_after g inc g1 v : submit g inc = (g1, Accepted v) → accepted g1 !! inc_id inc = Some v.
Proof.
  intros E. pose proof (submit_specP g inc) as Hs. rewrite E in Hs. inversion Hs; subst; [done|].
  cbn. by rewrite lookup_insert, decide_True.
Qed.

(** An accepted increment is accepted once: whatever happens to the green
    in between, submitting it again answers the version it was committed at
    and changes nothing at all. *)
Theorem accepted_retry_idempotent g inc g1 v g2 :
  submit g inc = (g1, Accepted v) → rtc green_step g1 g2 → submit g2 inc = (g2, Accepted v).
Proof.
  intros Hs Hrun. apply accepted_after in Hs. unfold submit at 1.
  assert (Ha : accepted g2 !! inc_id inc = Some v) by (induction Hrun; eauto using step_accepted).
  by rewrite Ha.
Qed.

(** A refused increment retried at once is refused with the same windows,
    whether the cache kept the refusal or it is judged again, and the state
    is as before either submission. *)
Theorem conflict_retry_same g inc g1 ws :
  submit g inc = (g1, Conflict ws) →
  (submit g1 inc).2 = Conflict ws ∧ g_state (submit g1 inc).1 = g_state g.
Proof.
  intros E. pose proof (submit_specP g inc) as Hs. rewrite E in Hs.
  inversion Hs as [|ws' Ea Er|hits ws' Ea Er Ed|]; subst; [by rewrite E|].
  unfold submit. cbn [accepted g_cache g_state fast_path_hits]. rewrite Ea.
  destruct (rejected (retain_rejected (g_cache g) (inc_id inc) ws) !! inc_id inc) as [ws'|] eqn:Er'.
  - apply retain_rejected_same in Er'; [|done]. by subst.
  - pose proof (decide_hits (g_state g) (fast_path_hits g) hits inc (resolve inc)) as Hd.
    rewrite Ed in Hd. destruct (decide (g_state g) hits inc (resolve inc)) as [h2 o2].
    cbn in Hd. by subst o2.
Qed.

(** ** The head identity *)

(** In every reachable green the head identity, brought up to date from
    the marked keys alone, is the one computed from scratch over every entry
    of every dimension. *)
Theorem head_identity_exact g :
  green_reachable g → (head_identity g).2 = head_identity_from_scratch g.
Proof. intros Hr. apply head_identity_scratch, reachable_inv, Hr. Qed.

(** The head identity names the current tree alone: greens whose trees
    are the same have the same identity, whatever history led there. *)
Theorem head_identity_of_tree g g' :
  green_reachable g → green_reachable g' → tree_now (g_state g) = tree_now (g_state g') →
  (head_identity g).2 = (head_identity g').2.
Proof.
  intros Hr Hr' E. rewrite !head_identity_scratch by (by apply reachable_inv).
  unfold head_identity_from_scratch, all_entries. unfold tree_now in E.
  injection E as -> -> -> -> -> -> ->. done.
Qed.

(** ** Accounting *)

(** The running total of the histories' bytes is exactly what a recount
    of every earlier value of every history gives, and the rejected results'
    total is what the kept results cost, within their budget. *)
Theorem accounting_balanced g :
  green_reachable g →
  history_bytes (g_state g) = history_bytes_recounted (g_state g) ∧ cache_ok (g_cache g).
Proof.
  intros Hr. apply reachable_inv in Hr as [? ? Hb Hf Hc ? ?]. split; [|done].
  rewrite recounted_cost by done. exact Hb.
Qed.

(** ** Folding *)
Lemma fold_before_spec g floor :
  green_inv g →
  let '(g', released) := fold_history_before g floor in
  green_inv g' ∧ tree_now (g_state g') = tree_now (g_state g) ∧
  (∀ version, floor ≤ version → tree_at (g_state g') version = tree_at (g_state g) version) ∧
  history_bytes (g_state g') + released = history_bytes (g_state g) ∧
  folded_below g' = N.max floor (folded_below g) ∧ head (g_state g') = head (g_state g).
Proof.
  intros Hg. pose proof (fold_before_inv g floor Hg) as Hg'. revert Hg'. unfold fold_history_before.
  split_if; bool_to_prop; [intros; split_and!; try done; lia|]. cbn [fst]. intros Hg'.
  revert Hg'. set (g0 := if identity_version (g_ident g) <? floor then _ else g). intros Hg'.
  assert (Hs : g_state g0 = g_state g) by (unfold g0; split_if; done).
  split_and!; [done|..]; clear Hg'; cbn [g_state folded_below]; rewrite ?Hs.
  - done.
  - intros version Hv. symmetry. apply same_at_tree, fold_state_same; [apply Hg|by left].
  - destruct (fold_state_balanced (g_state g) floor) as [Hb Hc]; [apply Hg..|].
    unfold balanced in Hb. rewrite Hb, (gi_balanced _ Hg). exact Hc.
  - lia.
  - done.
Qed.

(** Folding to a floor changes nothing a reader at or above the floor can
    see, nor the current tree, and releases exactly the bytes the histories
    lose. *)
Theorem fold_keeps_reachable_versions g floor :
  green_reachable g →
  let '(g', released) := fold_history_before g floor in
  tree_now (g_state g') = tree_now (g_state g) ∧
  (∀ version, floor ≤ version → tree_at (g_state g') version = tree_at (g_state g) version) ∧
  history_bytes (g_state g') + released = history_bytes (g_state g) ∧
  folded_below g' = N.max floor (folded_below g).
Proof.
  intros Hr. pose proof (fold_before_spec g floor (reachable_inv g Hr)) as Hf.
  destruct (fold_history_before g floor). tauto.
Qed.

Lemma fold_to_budget_spec fuel : ∀ g reachable_floor budget released,
  green_inv g → reachable_floor ≤ u64_max → reachable_floor - folded_below g ≤ N.of_nat fuel →
  released + history_bytes (g_state g) ≤ u64_max →
  let '(g', r) := fold_to_budget fuel g reachable_floor budget released in
  (history_bytes (g_state g') ≤ budget ∨ reachable_floor ≤ folded_below g') ∧
  folded_below g' ≤ N.max reachable_floor (folded_below g) ∧
  history_bytes (g_state g') + r = history_bytes (g_state g) + released ∧
  tree_now (g_state g') = tree_now (g_state g) ∧
  (∀ version, reachable_floor ≤ version → tree_at (g_state g') version = tree_at (g_state g) version) ∧
  (history_bytes (g_state g) ≤ budget → g' = g).
Proof.
  induction fuel as [|fuel IH]; intros g rf budget released Hg Hrf Hfuel Hfit; cbn [fold_to_budget].
  - split_and!; try done; try lia.
  - destruct ((budget <? _) && _) eqn:E.
    + bool_to_prop. assert (Hnext : sat_add (folded_below g) 1 = folded_below g + 1).
      { apply sat_add_small. lia. }
      pose proof (fold_before_spec g (sat_add (folded_below g) 1) Hg) as Hf.
      destruct (fold_history_before g (sat_add (folded_below g) 1)) as [g1 more].
      destruct Hf as (Hg1 & Ht1 & Hv1 & Hb1 & Hf1 & Hh1). rewrite Hnext in *.
      assert (Hmore : sat_add released more = released + more) by (apply sat_add_small; lia).
      rewrite Hmore. specialize (IH g1 rf budget (released + more) Hg1 Hrf ltac:(lia) ltac:(lia)).
      destruct (fold_to_budget fuel g1 rf budget (released + more)) as [g2 r].
      destruct IH as (Hor & Hle & Hbal & Hnow & Hver & _). split_and!; [done|lia|lia|congruence| |lia].
      intros version Hv. rewrite Hver, Hv1 by lia. done.
    + apply andb_false_iff in E. split_and!; try done; try lia.
      destruct E as [E|E]; [left|right]; bool_to_prop; lia.
Qed.

(** Folding to a budget terminates with the history within the budget or
    the floor at the oldest version a live reader names, never past it; it
    folds nothing when the budget is met already, releases exactly what the
    history loses, and keeps every version from the reachable floor on. *)
Theorem fold_to_budget_correct g reachable_floor budget :
  green_reachable g → reachable_floor ≤ u64_max →
  let '(g', released) := fold_history_to_budget g reachable_floor budget in
  (history_bytes (g_state g') ≤ budget ∨ reachable_floor ≤ folded_below g') ∧
  folded_below g' ≤ N.max reachable_floor (folded_below g) ∧
  history_bytes (g_state g') + released = history_bytes (g_state g) ∧
  tree_now (g_state g') = tree_now (g_state g) ∧
  (∀ version, reachable_floor ≤ version → tree_at (g_state g') version = tree_at (g_state g) version) ∧
  (history_bytes (g_state g) ≤ budget → g' = g).
Proof.
  intros Hr Hrf. apply reachable_inv in Hr. unfold fold_history_to_budget.
  pose proof (gi_balanced _ Hr) as Hb. pose proof (gi_fits _ Hr) as Hf. unfold balanced, usize_max in *.
  pose proof (fold_to_budget_spec (N.to_nat (reachable_floor - folded_below g)) g reachable_floor budget 0
    Hr Hrf ltac:(lia) ltac:(lia)) as Hs.
  destruct (fold_to_budget _ g reachable_floor budget 0) as [g' r]. by rewrite N.add_0_r in Hs.
Qed.
End green.

(** ** On the samples *)
Lemma accepted_retry_idempotent_witness :
  head (g_state green2) = 2 ∧ submit green2 inc_overwrite = (green2, Accepted 1).
Proof.
  split; [vm_compute; reflexivity|].
  apply (accepted_retry_idempotent (H := prefix_hash) green0 inc_overwrite green1).
  - rewrite (surjective_pairing (submit green0 inc_overwrite)). f_equal.
  - apply rtc_once, green1_step.
Defined.

Lemma conflict_retry_same_witness :
  let ws := [window "a" DeleteModify] in
  let g := (submit green1 inc_unlink).1 in
  (submit green1 inc_unlink).2 = Conflict ws ∧
  (submit g inc_unlink).2 = Conflict ws ∧ g_state (submit g inc_unlink).1 = g_state green1.
Proof.
  intros ws g. split; [vm_compute; reflexivity|].
  apply (conflict_retry_same green1 inc_unlink g ws).
  rewrite (surjective_pairing (submit green1 inc_unlink)). f_equal.
Defined.

Lemma head_identity_exact_witness :
  size (identity_dirty (g_ident green2)) = 1%nat ∧
  (@head_identity prefix_hash green2).2 = @head_identity_from_scratch prefix_hash green2.
Proof.
  split; [vm_compute; reflexivity|].
  apply (head_identity_exact (H := prefix_hash) green2 green2_reachable).
Defined.

(** The origin that already holds what the first submission writes. *)
Definition origin_HE : Origin :=
  mkOrigin [("b"%string, as_bytes "bye"); ("a"%string, as_bytes "HEllo")] ["d"%string]
    [("a"%string, 420)] [("l"%string, "a"%string)] [] [] [].
Lemma head_identity_of_tree_witness :
  head (g_state green1) = 1 ∧
  (@head_identity prefix_hash green1).2 = (@head_identity prefix_hash (@with_origin prefix_hash origin_HE)).2.
Proof.
  split; [vm_compute; reflexivity|].
  apply (head_identity_of_tree (H := prefix_hash) green1 (@with_origin prefix_hash origin_HE)).
  - apply green1_reachable.
  - by exists origin_HE.
  - vm_compute. reflexivity.
Defined.

Lemma accounting_balanced_witness :
  history_bytes (g_state green2) = 10 ∧
  history_bytes (g_state green2) = history_bytes_recounted (g_state green2) ∧ cache_ok (g_cache green2).
Proof.
  split; [vm_compute; reflexivity|].
  apply (accounting_balanced (H := prefix_hash) green2 green2_reachable).
Defined.

Lemma fold_keeps_reachable_versions_witness :
  (@fold_history_before prefix_hash green2 2).2 = 10 ∧
  let '(g', released) := @fold_history_before prefix_hash green2 2 in
  tree_now (g_state g') = tree_now (g_state green2) ∧
  (∀ version, 2 ≤ version → tree_at (g_state g') version = tree_at (g_state green2) version) ∧
  history_bytes (g_state g') + released = history_bytes (g_state green2) ∧
  folded_below g' = N.max 2 (folded_below green2).
Proof.
  split; [vm_compute; reflexivity|].
  apply (fold_keeps_reachable_versions (H := prefix_hash) green2 2 green2_reachable).
Defined.

Lemma fold_to_budget_correct_witness :
  (@fold_history_to_budget prefix_hash green2 2 6).2 = 5 ∧
  let '(g', released) := @fold_history_to_budget prefix_hash green2 2 6 in
  (history_bytes (g_state g') ≤ 6 ∨ 2 ≤ folded_below g') ∧
  folded_below g' ≤ N.max 2 (folded_below green2) ∧
  history_bytes (g_state g') + released = history_bytes (g_state green2) ∧
  tree_now (g_state g') = tree_now (g_state green2) ∧
  (∀ version, 2 ≤ version → tree_at (g_state g') version = tree_at (g_state green2) version) ∧
  (history_bytes (g_state green2) ≤ 6 → g' = green2).
Proof.
  split; [vm_compute; reflexivity|].
  apply (fold_to_budget_correct (H := prefix_hash) green2 2 6 green2_reachable). by_bound.
Defined.
