(* ===== verification/GreenMerge.v ===== *)
(** * What an accepted increment does to the files

    [decide] taken apart: an accepted increment's effects are its per-path
    merges' in order, and each merge accepted.  From it: no file's bytes are
    lost that the agent did not see, and an uncontended edit publishes the
    agent's own bytes. *)

From S2P Require Import Prelude Range OpsDoc ByteSplice PosMap Special Origin IncrementDoc History.
From S2P Require Import Rejected Identity Green GreenOps GreenState GreenAccount.
From S2P Require Import GreenReach GreenSpec.
#[local] Open Scope N_scope.

(** ** Recording *)
Definition ok_effect (r : result ConflictWindow (option Effect.t)) : option Effect.t :=
  match r with Ok e => e | Err _ => None end.
Definition err_window {A} (r : result ConflictWindow A) : option ConflictWindow :=
  match r with Ok _ => None | Err w => Some w end.

Lemma record_fold {A} (f : A → result ConflictWindow (option Effect.t)) (l : list A) : ∀ v,
  foldl (λ v x, record v (f x)) v l =
    (v.1 ++ omap (λ x, ok_effect (f x)) l, v.2 ++ omap (λ x, err_window (f x)) l).
Proof.
  induction l as [|x l IH]; intros [es ws]; cbn [foldl omap list_omap fst snd]; [by rewrite !app_nil_r|].
  rewrite IH. unfold record. destruct (f x) as [[e|]|w]; cbn [ok_effect err_window fst snd];
    by rewrite <- ?app_assoc.
Qed.


(** The rename loop. *)
Definition rename_effects (s : State) (base : N) (e : string * string) : list Effect.t :=
  match merge_rename s e.1 base e.2 with Ok es => es | Err _ => [] end.
Definition rename_windows (s : State) (base : N) (e : string * string) : option ConflictWindow :=
  err_window (merge_rename s e.1 base e.2).

Lemma rename_fold s base (l : list (string * string)) : ∀ v : Verdicts,
  foldl (λ (v : Verdicts) (e : string * string),
    match merge_rename s e.1 base e.2 with
    | Ok effects => (v.1 ++ effects, v.2)
    | Err w => (v.1, v.2 ++ [w])
    end) v l =
  (v.1 ++ mjoin (map (rename_effects s base) l), v.2 ++ omap (rename_windows s base) l).
Proof.
  induction l as [|e l IH]; intros [es ws]; [cbn; by rewrite !app_nil_r|].
  cbn [foldl map omap list_omap mjoin list_join fst snd]. rewrite IH. unfold rename_effects, rename_windows.
  destruct (merge_rename s e.1 base e.2) as [es'|w]; cbn [err_window fst snd app];
    rewrite <- ?app_assoc; done.
Qed.

(** The edit loop. *)
Definition edited_here (r : Resolved) (path : string) : bool :=
  negb (has_elem (r_creates r) path || has_key (r_renames r) path).
Definition edit_effect (s : State) (inc : Increment) (r : Resolved) (e : string * list Op) :
    option Effect.t :=
  if edited_here r e.1
  then match (merge_content s inc e.1 e.2).2 with Ok o => o | Err _ => None end else None.
Definition edit_windows (s : State) (inc : Increment) (r : Resolved) (e : string * list Op) :
    list ConflictWindow :=
  if edited_here r e.1
  then match (merge_content s inc e.1 e.2).2 with Ok _ => [] | Err ws => ws end else [].

Lemma edit_fold s inc r (l : list (string * list Op)) : ∀ (st : N * Verdicts),
  (foldl (λ (st : N * Verdicts) (e : string * list Op),
    let '(hits, v) := st in
    if has_elem (r_creates r) e.1 || has_key (r_renames r) e.1 then st
    else
      let '(fast, outcome) := merge_content s inc e.1 e.2 in
      (if fast then sat_add hits 1 else hits,
       match outcome with
       | Ok (Some effect) => (v.1 ++ [effect], v.2)
       | Ok None => v
       | Err found => (v.1, v.2 ++ found)
       end)) st l).2 =
  (st.2.1 ++ omap (edit_effect s inc r) l, st.2.2 ++ mjoin (map (edit_windows s inc r) l)).
Proof.
  induction l as [|e l IH]; intros [hits [es ws]]; [cbn; by rewrite !app_nil_r|].
  cbn [foldl map omap list_omap mjoin list_join fst snd]. rewrite IH.
  unfold edit_effect at 2, edit_windows at 2, edited_here.
  destruct (has_elem (r_creates r) e.1 || has_key (r_renames r) e.1); cbn [negb fst snd]; [done|].
  destruct (merge_content s inc e.1 e.2) as [fast [[eff|]|found]]; cbn [fst snd app];
    rewrite <- ?app_assoc; done.
Qed.

(** ** An accepted increment, taken apart *)

(** The merges outside the content dimension touch no file. *)
Lemma other_effects_no_file {A} (f : A → result ConflictWindow (option Effect.t)) (l : list A) e :
  (∀ x e, f x = Ok (Some e) → set_file e = None ∧ removed_path e = None) →
  e ∈ omap (λ x, ok_effect (f x)) l → set_file e = None ∧ removed_path e = None.
Proof.
  intros Hf Hin. apply list_elem_of_omap in Hin as (x & _ & Hx).
  destruct (f x) as [o|] eqn:E; [|done]. cbn in Hx. subst o. by eapply Hf.
Qed.

(** Every branch of a merge that yields an effect yields one of no file. *)
Ltac no_file :=
  intros; match goal with H : ?f = Ok (Some _) |- _ => revert H end;
  repeat (case_match || split_if); intros [= <-]; done.

Lemma app_nil_inv {A} (l k : list A) : l ++ k = [] → l = [] ∧ k = [].
Proof. by destruct l, k. Qed.

(** What the loops over the content dimension collect. *)
Definition file_effects (s : State) (inc : Increment) (r : Resolved) : list Effect.t :=
  mjoin (map (rename_effects s (inc_base inc)) (bt_list (r_renames r)))
  ++ omap (λ p, ok_effect (merge_create s p (apply [] (default [] (r_content r !! p)) (inc_post inc))))
       (bt_elems (r_creates r))
  ++ omap (λ p, ok_effect (merge_unlink s p (inc_base inc))) (bt_elems (r_unlinks r))
  ++ omap (edit_effect s inc r) (bt_list (r_content r)).
Definition file_windows (s : State) (inc : Increment) (r : Resolved) : list ConflictWindow :=
  omap (rename_windows s (inc_base inc)) (bt_list (r_renames r))
  ++ omap (λ p, err_window (merge_create s p (apply [] (default [] (r_content r !! p)) (inc_post inc))))
       (bt_elems (r_creates r))
  ++ omap (λ p, err_window (merge_unlink s p (inc_base inc))) (bt_elems (r_unlinks r))
  ++ mjoin (map (edit_windows s inc r) (bt_list (r_content r))).

Lemma decide_content_split s inc r hits v :
  (decide_content s inc r hits v).2 = (v.1 ++ file_effects s inc r, v.2 ++ file_windows s inc r).
Proof.
  unfold decide_content, file_effects, file_windows. cbv zeta. rewrite edit_fold, !record_fold, rename_fold.
  cbn [fst snd]. by rewrite <- !app_assoc.
Qed.

(** The directory and metadata merges add effects of no file. *)
Definition adds_no_file (v v' : Verdicts) : Prop :=
  ∃ es ws, v' = (v.1 ++ es, v.2 ++ ws) ∧ ∀ e, e ∈ es → set_file e = None ∧ removed_path e = None.

Lemma adds_no_file_trans v v' v'' : adds_no_file v v' → adds_no_file v' v'' → adds_no_file v v''.
Proof.
  intros (es & ws & -> & He) (es' & ws' & -> & He'). exists (es ++ es'), (ws ++ ws').
  cbn [fst snd]. rewrite <- !app_assoc. split; [done|]. intros e [|]%elem_of_app; auto.
Qed.

Lemma record_fold_no_file {A} (f : A → result ConflictWindow (option Effect.t)) (l : list A) v :
  (∀ x e, f x = Ok (Some e) → set_file e = None ∧ removed_path e = None) →
  adds_no_file v (foldl (λ v x, record v (f x)) v l).
Proof.
  intros Hf. rewrite record_fold. eexists _, _. split; [reflexivity|].
  intros e. by apply other_effects_no_file.
Qed.

Lemma decide_directories_no_file s r v : adds_no_file v (decide_directories s r v).
Proof.
  unfold decide_directories. cbv zeta.
  eapply adds_no_file_trans; [|apply record_fold_no_file; unfold merge_rmdir; no_file].
  apply record_fold_no_file. unfold merge_mkdir. no_file.
Qed.

Lemma decide_metadata_no_file s inc r v : adds_no_file v (decide_metadata s inc r v).
Proof.
  unfold decide_metadata. cbv zeta.
  eapply adds_no_file_trans; [|apply record_fold_no_file; unfold merge_remove_xattr; no_file].
  eapply adds_no_file_trans; [|apply record_fold_no_file; unfold merge_set_xattr; no_file].
  eapply adds_no_file_trans; [|apply record_fold_no_file; unfold merge_hardlink; no_file].
  eapply adds_no_file_trans; [|apply record_fold_no_file; unfold merge_symlink; no_file].
  apply record_fold_no_file. unfold merge_setmode. no_file.
Qed.

Lemma decide_split s hits inc r hits' effects :
  decide s hits inc r = (hits', Ok effects) →
  ∃ before after,
    effects = before ++ file_effects s inc r ++ after ∧ file_windows s inc r = [] ∧
    bt_elems (r_invalid r) = [] ∧ unfit_content s inc r = [] ∧
    ∀ e, e ∈ before ++ after → set_file e = None ∧ removed_path e = None.
Proof.
  unfold decide. cbv zeta.
  match goal with |- context [foldl ?f ?v ?l] => set (v0 := v); set (v1 := foldl f v0 l) end.
  assert (H1 : adds_no_file v0 v1).
  { apply record_fold_no_file. intros x e. unfold merge_special. no_file. }
  pose proof (decide_content_split s inc r hits v1) as Hc.
  destruct (decide_content s inc r hits v1) as [h2 v2]. cbn [snd] in Hc.
  pose proof (decide_directories_no_file s r v2) as H3.
  pose proof (decide_metadata_no_file s inc r (decide_directories s r v2)) as H4.
  destruct (adds_no_file_trans _ _ _ H3 H4) as (after & ws' & -> & Hafter).
  destruct H1 as (before & ws & -> & Hbefore). subst v2. cbn [fst snd v0] in *.
  destruct (((_ ++ ws) ++ _) ++ ws') eqn:Ew; [|done]. intros [= _ <-].
  apply app_nil_inv in Ew as [Ew _]. apply app_nil_inv in Ew as [Ew Hfw].
  apply app_nil_inv in Ew as [Ew _]. apply map_eq_nil in Ew. apply app_nil_inv in Ew as [Hi Hu].
  exists before, after. rewrite <- app_assoc. cbn. split_and!; try done.
  intros e [|]%elem_of_app; auto.
Qed.

(** ** The files after a commit *)
Lemma foldl_insert_cases {V} (l : list (string * V)) : ∀ (m : gmap string V) p,
  (∃ v, (p, v) ∈ l ∧ foldl (λ m (e : string * V), <[e.1 := e.2]> m) m l !! p = Some v) ∨
  (∀ v, (p, v) ∉ l) ∧ foldl (λ m (e : string * V), <[e.1 := e.2]> m) m l !! p = m !! p.
Proof.
  induction l as [|[q w] l IH]; intros m p; cbn [foldl fst snd]; [right; set_solver|].
  destruct (IH (<[q:=w]> m) p) as [(v & Hin & Hv)|[Hni Hv]].
  - left. exists v. split; [set_solver|done].
  - rewrite lookup_insert in Hv. case_decide as E.
    + subst q. left. exists w. split; [set_solver|done].
    + right. split; [|done]. intros v [[= -> ->]|?]%elem_of_cons; [done|by eapply Hni].
Qed.

Lemma apply_files_cases files es p :
  (∃ bs, (p, bs) ∈ omap set_file es ∧ apply_files files es !! p = Some bs) ∨
  (∀ bs, (p, bs) ∉ omap set_file es) ∧
  apply_files files es !! p = if bool_decide (p ∈ omap removed_path es) then None else files !! p.
Proof.
  unfold apply_files. rewrite <- foldl_delete. apply foldl_insert_cases.
Qed.

(** Only the content loops name files. *)
Lemma omap_no_file {B} (f : Effect.t → option B) before middle after x :
  (∀ e, e ∈ before ++ after → f e = None) →
  x ∈ omap f (before ++ middle ++ after) ↔ x ∈ omap f middle.
Proof.
  intros Hn. rewrite !list_elem_of_omap. split.
  - intros (e & Hin & He). rewrite !elem_of_app in Hin.
    destruct Hin as [Hin|[Hin|Hin]]; [|by exists e|]; rewrite Hn in He by set_solver; done.
  - intros (e & Hin & He). exists e. set_solver.
Qed.

(** Where a path's new content comes from. *)
Definition deltas_since (s : State) (path : string) (base : N) : list (list Op) :=
  if changed_at (content s) path <=? base then [] else intervening s path base.
Definition mapped_edits (s : State) (path : string) (base : N) (os : list Op) : list Op :=
  (foldl (classify_edit (deltas_since s path base)) ([], [], None) os).1.1.

(** An edit that maps past every delta: none of them touched its range. *)
Definition maps_clean (deltas : list (list Op)) (op : Op) : Prop :=
  match map_range deltas (touched_range op) with Shifted _ => True | Overlaps => False end.
#[export] Instance maps_clean_dec deltas op : Decision (maps_clean deltas op).
Proof. unfold maps_clean. destruct (map_range _ _); apply _. Defined.

(** What an edit of a contended file may do to its current bytes: the edits that map past every delta since the
    increment's base are applied where their ranges went, and each other edit is an overwrite whose bytes the file
    already holds at its place. *)
Definition edits_seen (deltas : list (list Op)) (post old : bytes) (os mapped : list Op) : Prop :=
  Forall2 (op_mapped deltas) (filter (maps_clean deltas) os) mapped ∧
  ∀ op, op ∈ os → ¬ maps_clean deltas op →
    op_kind op = OpKind.Overwrite ∧ candidate_identical deltas post old op = true.

Lemma classify_seen deltas os mapped candidates :
  foldl (classify_edit deltas) ([], [], None) os = (mapped, candidates, None) →
  Forall2 (op_mapped deltas) (filter (maps_clean deltas) os) mapped ∧
  ∀ op, op ∈ os → ¬ maps_clean deltas op → op_kind op = OpKind.Overwrite ∧ op ∈ candidates.
Proof.
  revert mapped candidates. induction os as [|op os IH] using rev_ind; intros mapped candidates.
  { intros [= <- <-]. split; [constructor|set_solver]. }
  rewrite foldl_app. destruct (foldl _ _ os) as [[m c] s] eqn:E. cbn [foldl classify_edit].
  rewrite filter_app, filter_cons, filter_nil.
  destruct (map_range deltas (touched_range op)) as [x|] eqn:Er.
  - intros [= <- <- ->]. destruct (IH _ _ eq_refl) as [Hm Hc]. split.
    + apply Forall2_app; [done|]. rewrite decide_True by (unfold maps_clean; by rewrite Er).
      constructor; [by exists x|constructor].
    + intros o [Ho| ->%list_elem_of_singleton]%elem_of_app Hn; [by apply Hc|]. unfold maps_clean in Hn. by rewrite Er in Hn.
  - case_bool_decide as Hk; [|by destruct s]. intros [= <- <- ->]. destruct (IH _ _ eq_refl) as [Hm Hc]. split.
    + rewrite decide_False by (unfold maps_clean; rewrite Er; tauto). by rewrite app_nil_r.
    + intros o [Ho| ->%list_elem_of_singleton]%elem_of_app Hn; [|set_solver]. destruct (Hc o Ho Hn). set_solver.
Qed.

Lemma merge_content_effect s inc p os e :
  (merge_content s inc p os).2 = Ok (Some e) →
  ∃ current, d_cur (content s) !! p = Some current ∧
    e = Effect.SetContent p (apply current (mapped_edits s p (inc_base inc) os) (inc_post inc))
          (mapped_edits s p (inc_base inc) os) ∧
    edits_seen (deltas_since s p (inc_base inc)) (inc_post inc) current os (mapped_edits s p (inc_base inc) os).
Proof.
  unfold merge_content, mapped_edits. fold (deltas_since s p (inc_base inc)).
  destruct (d_cur (content s) !! p) as [current|]; [|done]. cbv zeta. fold (deltas_since s p (inc_base inc)).
  destruct (foldl _ ([], [], None) os) as [[mapped candidates] shifting] eqn:E. cbn [fst snd].
  destruct shifting; [by split_if|]. destruct (filter _ candidates) eqn:Ef; [|done].
  destruct (classify_seen _ _ _ _ E) as [Hm Hc].
  assert (Hseen : edits_seen (deltas_since s p (inc_base inc)) (inc_post inc) current os mapped).
  { split; [done|]. intros op Hop Hn. destruct (Hc op Hop Hn) as [Hk Hin]. split; [done|].
    destruct (candidate_identical _ _ _ op) eqn:Ei; [done|]. exfalso.
    assert (Hf : op ∈ filter (λ op, candidate_identical (deltas_since s p (inc_base inc)) (inc_post inc) current op = false)
      candidates) by (by apply list_elem_of_filter). unfold deltas_since in *. rewrite Ef in Hf. by apply elem_of_nil in Hf. }
  destruct mapped; [done|]. intros [= <-]. by exists current.
Qed.

Lemma merge_rename_effect s dst base src es e :
  merge_rename s dst base src = Ok es → e ∈ es →
  (∀ p bs os, e = Effect.SetContent p bs os →
     p = dst ∧ src ≠ dst ∧ d_cur (content s) !! src = Some bs ∧ changed_at (content s) dst ≤ base) ∧
  (∀ p, e = Effect.RemoveContent p → p = src ∧ src ≠ dst).
Proof.
  unfold merge_rename. case_bool_decide; [intros [= <-]; set_solver|].
  destruct (negb _); [done|]. destruct (occupied_by_nonfile s dst); [done|].
  destruct (base <? _) eqn:Eb; [done|]. bool_to_prop. intros [= <-] Hin.
  destruct (d_cur (content s) !! src) as [bs|] eqn:Es.
  - apply elem_of_cons in Hin as [->|Hin%list_elem_of_singleton]; [|subst e]; split; naive_solver.
  - destruct (d_cur (symlinks s) !! src); [|destruct (d_cur (hardlinks s) !! src)];
      repeat (apply elem_of_cons in Hin as [->|Hin]); try set_solver; split; naive_solver.
Qed.

Lemma merge_unlink_effect s p base e :
  merge_unlink s p base = Ok (Some e) →
  set_file e = None ∧ (∀ q, e = Effect.RemoveContent q → q = p ∧ changed_at (content s) p ≤ base).
Proof.
  unfold merge_unlink. repeat (split_if; [try done|]); repeat split_if; try done; intros [= <-];
    bool_to_prop; split; try done; intros q [= <-]; done.
Qed.

Lemma file_sets s inc r p bs :
  (p, bs) ∈ omap set_file (file_effects s inc r) →
  (∃ src, r_renames r !! p = Some src ∧ src ≠ p ∧ d_cur (content s) !! src = Some bs ∧
     changed_at (content s) p ≤ inc_base inc) ∨
  (p ∈ r_creates r ∧ d_cur (content s) !! p = None) ∨
  (∃ os current, r_content r !! p = Some os ∧ edited_here r p = true ∧
     d_cur (content s) !! p = Some current ∧
     bs = apply current (mapped_edits s p (inc_base inc) os) (inc_post inc) ∧
     edits_seen (deltas_since s p (inc_base inc)) (inc_post inc) current os (mapped_edits s p (inc_base inc) os)).
Proof.
  intros Hin. apply list_elem_of_omap in Hin as (e & Hin & He).
  destruct e as [| |q bs' os'| | | | | | | | | |]; try done. cbn in He. injection He as -> ->.
  unfold file_effects in Hin. rewrite !elem_of_app in Hin. destruct Hin as [Hin|[Hin|[Hin|Hin]]].
  - left. apply list_elem_of_join in Hin as (es & Hin & Hes).
    apply list_elem_of_fmap in Hes as ([dst src] & -> & Hds). apply elem_of_bt_list in Hds.
    unfold rename_effects in Hin. destruct (merge_rename _ _ _ _) as [es|] eqn:Er; [|set_solver].
    destruct (merge_rename_effect _ _ _ _ _ _ Er Hin) as [Hset _].
    destruct (Hset p bs os' eq_refl) as (-> & ? & ? & ?). eauto.
  - right. left. apply list_elem_of_omap in Hin as (q & Hq & Hc). rewrite elem_of_bt_elems in Hq.
    unfold merge_create in Hc. split_if; [done|].
    destruct (d_cur (content s) !! q) eqn:Eq; [by split_if|]. cbn in Hc. injection Hc as <- _ _. done.
  - exfalso. apply list_elem_of_omap in Hin as (q & Hq & Hc).
    destruct (merge_unlink s q (inc_base inc)) as [o|] eqn:Eu; [|done]. cbn in Hc. subst o.
    by apply merge_unlink_effect in Eu as [? _].
  - right. right. apply list_elem_of_omap in Hin as ([q os] & Hq & Hc). apply elem_of_bt_list in Hq.
    unfold edit_effect in Hc. cbn [fst snd] in Hc. destruct (edited_here r q) eqn:Ee; [|done].
    destruct (merge_content s inc q os).2 as [o|] eqn:Em; [|done]. subst o.
    apply merge_content_effect in Em as (current & Hcur & E & Hseen). injection E as -> -> ->.
    exists os, current. done.
Qed.



(** Edits that all map cleanly leave nothing to compare. *)
Lemma classify_clean deltas os :
  Forall (λ op, ∃ r, map_range deltas (touched_range op) = Shifted r) os →
  ∃ mapped, foldl (classify_edit deltas) ([], [], None) os = (mapped, [], None) ∧
    Forall2 (op_mapped deltas) os mapped.
Proof.
  induction os as [|op os IH] using rev_ind; intros Hall; [by exists []|].
  apply Forall_app in Hall as [Hall Hop]. inversion_clear Hop as [|?? [r Hr] _].
  destruct (IH Hall) as (mapped & E & Hm). exists (mapped ++ [with_at op (r_start r)]).
  rewrite foldl_app, E. cbn [foldl classify_edit]. rewrite Hr. split; [done|].
  apply Forall2_app; [done|]. constructor; [|done]. by exists r.
Qed.

(** Uncontended, every edit is where the agent put it. *)
Lemma mapped_edits_unchanged s p base os :
  changed_at (content s) p ≤ base →
  foldl (classify_edit (deltas_since s p base)) ([], [], None) os = (os, [], None).
Proof.
  intros Hc. unfold deltas_since. rewrite (proj2 (N.leb_le _ _)) by done.
  induction os as [|op os IH] using rev_ind; [done|]. rewrite foldl_app, IH. cbn [foldl classify_edit map_range].
  unfold classify_edit. cbn [map_range].
  assert (E : with_at op (r_start (touched_range op)) = op).
  { unfold touched_range, with_at. destruct op as [kind]. by destruct kind. }
  by rewrite E.
Qed.

(** A file the increment edits, and neither creates nor renames over, ends as
    its mapped edits applied to what it holds now. *)
Lemma edited_file s inc r before rest p os current :
  r_content r !! p = Some os → p ∉ r_creates r → r_renames r !! p = None →
  (∀ e, e ∈ before ++ rest → set_file e = None ∧ removed_path e = None) →
  d_cur (content s) !! p = Some current →
  (let '(mapped, candidates, shifting) :=
     foldl (classify_edit (deltas_since s p (inc_base inc))) ([], [], None) os in
   mapped ≠ [] ∧ candidates = [] ∧ shifting = None) →
  apply_files (d_cur (content s)) (before ++ file_effects s inc r ++ rest) !! p
    = Some (apply current
        (foldl (classify_edit (deltas_since s p (inc_base inc))) ([], [], None) os).1.1 (inc_post inc)).
Proof.
  intros Hos Hnc Hnr Hnf Hcur Hclean.
  assert (Hed : edited_here r p = true).
  { unfold edited_here. rewrite (proj2 (has_elem_false _ _)), (proj2 (has_key_false _ _)) by done. done. }
  destruct (apply_files_cases (d_cur (content s)) (before ++ file_effects s inc r ++ rest) p)
    as [(b & Hin & ->)|[Hni _]].
  - apply omap_no_file in Hin; [|naive_solver].
    apply file_sets in Hin as [(src & Hs & _)|[[? _]|(os' & c & Ho & _ & Hc & -> & _)]]; [congruence|done|].
    assert (os' = os) as -> by congruence. assert (c = current) as -> by congruence. done.
  - exfalso.
    destruct (foldl _ ([], [], None) os) as [[mapped candidates] shifting] eqn:Ef.
    destruct Hclean as (Hne & -> & ->).
    apply (Hni (apply current mapped (inc_post inc))). apply omap_no_file; [naive_solver|].
    apply list_elem_of_omap. exists (Effect.SetContent p (apply current mapped (inc_post inc)) mapped).
    split; [|done]. unfold file_effects. rewrite !elem_of_app. do 3 right.
    apply list_elem_of_omap. exists (p, os). split; [by apply elem_of_bt_list|].
    unfold edit_effect. cbn [fst snd]. rewrite Hed. unfold merge_content. rewrite Hcur. cbv zeta.
    unfold deltas_since in Ef. rewrite Ef. cbn [filter list_filter snd]. by destruct mapped.
Qed.

Section green.
Context `{Blake3}.


(** An uncontended edit publishes the agent's bytes: when the increment is
    accepted and nobody changed the file since the increment's base, the file
    after the commit is the increment's own operations applied to the base
    version's bytes. *)
Theorem uncontended_edit_exact g inc hits effects p os bs :
  green_reachable g →
  decide (g_state g) (fast_path_hits g) inc (resolve inc) = (hits, Ok effects) →
  r_content (resolve inc) !! p = Some os → os ≠ [] →
  p ∉ r_creates (resolve inc) → r_renames (resolve inc) !! p = None →
  t_files (tree_at (g_state g) (inc_base inc)) !! p = Some bs →
  changed_at (content (g_state g)) p ≤ inc_base inc →
  t_files (apply_effects (tree_now (g_state g)) effects) !! p = Some (apply bs os (inc_post inc)).
Proof.
  intros Hr Hd Hos Hne Hnc Hnr Hbs Hch. apply reachable_inv in Hr.
  set (s := g_state g) in *. set (r := resolve inc) in *.
  destruct (decide_split _ _ _ _ _ _ Hd) as (before & rest & -> & Hw & _ & _ & Hnf).
  cbn in Hbs. rewrite lookup_map_at in Hbs.
  rewrite (dim_settled (content s) (head s) p (inc_base inc)) in Hbs; [|apply Hr|done].
  pose proof (mapped_edits_unchanged s p (inc_base inc) os Hch) as Hmap.
  cbn [apply_effects t_files tree_now]. erewrite edited_file; [|done..|by rewrite Hmap].
  by rewrite Hmap.
Qed.

(** A contended edit is spliced where its bytes went.  Let the file have
    been led from the bytes [bs] the increment was written against to its
    current bytes by the deltas since the increment's base, each canonical for
    the bytes before it.  When the increment's own canonical edits of [bs] (no
    truncation) all map cleanly past those deltas, the accepted result is the
    mapped edits spliced into the current bytes, and the mapped list is
    canonical for those bytes: in order, disjoint and inside the file. *)
Theorem contended_edit_spliced g inc hits effects p os bs ds :
  decide (g_state g) (fast_path_hits g) inc (resolve inc) = (hits, Ok effects) →
  r_content (resolve inc) !! p = Some os → os ≠ [] →
  p ∉ r_creates (resolve inc) → r_renames (resolve inc) !! p = None →
  ds.*1 = deltas_since (g_state g) p (inc_base inc) → deltas_ok bs ds →
  t_files (tree_now (g_state g)) !! p = Some (replay bs ds) →
  len (replay bs ds) ≤ usize_max → len (inc_post inc) ≤ usize_max →
  net_ops (len bs) (len (inc_post inc)) 0 os →
  Forall (λ op, op_kind op ≠ OpKind.Truncate) os →
  Forall (λ op, ∃ r, map_range ds.*1 (touched_range op) = Shifted r) os →
  ∃ mapped,
    Forall2 (op_mapped ds.*1) os mapped ∧
    net_ops (len (replay bs ds)) (len (inc_post inc)) 0 mapped ∧
    t_files (apply_effects (tree_now (g_state g)) effects) !! p
      = Some (emitted (replay bs ds) (inc_post inc) 0 mapped).
Proof.
  intros Hd Hos Hne Hnc Hnr Hds Hok Hcur Hl1 Hl2 Hnet Htr Hclean.
  set (s := g_state g) in *. set (r := resolve inc) in *.
  destruct (decide_split _ _ _ _ _ _ Hd) as (before & rest & -> & Hw & _ & _ & Hnf).
  destruct (classify_clean _ _ Hclean) as (mapped & Hmap & Hall). rewrite Hds in Hmap.
  pose proof (mapped_net_all ds bs _ os mapped Hok Hnet Htr Hall) as Hmnet.
  exists mapped. split_and!; [done|done|]. rewrite <- apply_emitted by done.
  cbn [tree_now t_files] in Hcur. cbn [apply_effects t_files tree_now].
  erewrite edited_file; [|exact Hos|done|done|exact Hnf|exact Hcur|].
  - by rewrite Hmap.
  - rewrite Hmap. cbn. split_and!; [|done|done].
    intros ->. by inversion Hall.
Qed.
End green.


Lemma uncontended_edit_exact_witness :
  ∃ hits effects os,
    decide (g_state green0) (fast_path_hits green0) inc_overwrite (resolve inc_overwrite)
      = (hits, Ok effects) ∧
    r_content (resolve inc_overwrite) !! "a"%string = Some os ∧
    t_files (apply_effects (tree_now (g_state green0)) effects) !! "a"%string
      = Some (apply (as_bytes "hello") os (inc_post inc_overwrite)).
Proof.
  eexists _, _, _. split; [vm_compute; reflexivity|]. split; [vm_compute; reflexivity|].
  apply (uncontended_edit_exact (H := prefix_hash) green0 inc_overwrite 1 _ "a" _ (as_bytes "hello")
           green0_reachable).
  - vm_compute. reflexivity.
  - vm_compute. reflexivity.
  - discriminate.
  - apply (bool_decide_unpack _). vm_compute. exact I.
  - vm_compute. reflexivity.
  - vm_compute. reflexivity.
  - by_bound.
Defined.

Lemma contended_edit_spliced_witness :
  let decision := decide (g_state green1) (fast_path_hits green1) inc_extend (resolve inc_extend) in
  let effects := match decision.2 with Ok es => es | Err _ => [] end in
  changed_at (content (g_state green1)) "a" = 1 ∧
  ∃ mapped,
    net_ops 5 1 0 mapped ∧
    t_files (apply_effects (tree_now (g_state green1)) effects) !! "a"%string
      = Some (emitted (as_bytes "HEllo") (as_bytes "!") 0 mapped).
Proof.
  intros decision effects. split; [vm_compute; reflexivity|].
  destruct (contended_edit_spliced green1 inc_extend decision.1 effects "a"
    [mkOp OpKind.Extend 0 0 5 1 0] (as_bytes "hello")
    [([mkOp OpKind.Overwrite 0 0 0 2 0], as_bytes "HE")]) as (mapped & _ & Hn & Hf).
  - vm_compute. reflexivity.
  - vm_compute. reflexivity.
  - discriminate.
  - apply (bool_decide_unpack _). vm_compute. exact I.
  - vm_compute. reflexivity.
  - vm_compute. reflexivity.
  - vm_compute. repeat split; discriminate.
  - vm_compute. reflexivity.
  - by_bound.
  - by_bound.
  - vm_compute. repeat split; discriminate.
  - repeat constructor. discriminate.
  - repeat constructor. eexists. vm_compute. reflexivity.
  - exists mapped. split; [exact Hn|exact Hf].
Defined.
