(* ===== verification/GreenRebase.v ===== *)
(** * Rebase previews the merge

    A clean rebase restates what a submission would commit, without
    committing it.  Its [changed] map is the difference of the files, as long
    as no path is both set and vacated by the increment. *)

From S2P Require Import Prelude Range OpsDoc ByteSplice PosMap Special Origin IncrementDoc Journal.
From S2P Require Import History Rejected Identity Green GreenOps GreenState GreenAccount.
From S2P Require Import GreenAccount GreenReach GreenSpec GreenMerge.
#[local] Open Scope N_scope.

(** No path is both set and removed. *)
Definition apart (es : list Effect.t) : Prop :=
  ∀ p, p ∈ omap removed_path es → p ∉ (omap set_file es).*1.

Lemma restate_file s st e p :
  (restate s st e).1 !! p =
    match set_file e, removed_path e with
    | Some (q, bs), _ => if base.decide (q = p) then Some (Some bs) else st.1 !! p
    | _, Some q => if base.decide (q = p) then Some None else st.1 !! p
    | _, _ => st.1 !! p
    end.
Proof.
  destruct st as [changed journal]. destruct e; cbn [restate set_file removed_path fst]; try done;
    by rewrite lookup_insert.
Qed.

(** The map the loop builds, read against the files. *)
Definition overlay (changed : gmap string (option bytes)) (files : gmap string bytes) (p : string) :
    option bytes :=
  match changed !! p with Some o => o | None => files !! p end.

Lemma foldl_insert_snoc {V} (l : list (string * V)) (m : gmap string V) q v p :
  foldl (λ m (e : string * V), <[e.1 := e.2]> m) m (l ++ [(q, v)]) !! p =
    if base.decide (q = p) then Some v else foldl (λ m (e : string * V), <[e.1 := e.2]> m) m l !! p.
Proof. rewrite foldl_app. cbn. by rewrite lookup_insert. Qed.

Lemma foldl_insert_ext {V} (l : list (string * V)) (m m' : gmap string V) p :
  p ∈ l.*1 ∨ m !! p = m' !! p →
  foldl (λ m (e : string * V), <[e.1 := e.2]> m) m l !! p =
  foldl (λ m (e : string * V), <[e.1 := e.2]> m) m' l !! p.
Proof.
  induction l as [|[q v] l IH] using rev_ind; [cbn; set_solver|].
  rewrite !foldl_insert_snoc, fmap_app. case_decide; [done|]. intros Hp. apply IH. set_solver.
Qed.

Lemma restated_files s es : ∀ files,
  apart es → ∀ p, overlay (foldl (restate s) (∅, []) es).1 files p = apply_files files es !! p.
Proof.
  intros files. induction es as [|e es IH] using rev_ind; intros Hap p.
  { unfold overlay, apply_files. cbn. by rewrite lookup_empty. }
  assert (Hap' : apart es).
  { intros q Hq. unfold apart in Hap. rewrite !omap_app, fmap_app in Hap. specialize (Hap q). set_solver. }
  specialize (IH Hap' p). unfold overlay in *. rewrite foldl_app. cbn [foldl]. rewrite restate_file.
  unfold apply_files in *. rewrite !omap_app. unfold apart in Hap. rewrite !omap_app, fmap_app in Hap.
  destruct e as [| |q bs os|q| | | | | | | | |]; cbn [set_file removed_path omap list_omap];
    rewrite ?app_nil_r; try exact IH.
  - rewrite foldl_insert_snoc. case_decide; [done|]. exact IH.
  - rewrite (foldl_app (λ m p, delete p m)). cbn [foldl]. case_decide as E.
    + subst q. rewrite (foldl_insert_ext _ _ (delete p files)).
      * specialize (Hap p). destruct (foldl_insert_cases (omap set_file es) (delete p files) p) as [(v & Hin & _)|[_ ->]].
        -- exfalso. apply Hap; [set_solver|]. rewrite app_nil_r. apply list_elem_of_fmap. by exists (p, v).
        -- by rewrite lookup_delete_eq.
      * right. by rewrite !lookup_delete_eq.
    + etrans; [exact IH|]. apply foldl_insert_ext. right. by rewrite lookup_delete_ne.
Qed.

Section rebase.
Context (g : Green) (inc : Increment).

(** A clean rebase previews the submission.  The green is left as it is;
    the reported version is the head; every reported file really differs from
    the head's; and, where no path is both set and vacated, overlaying the
    reported changes on the head's files gives exactly the files the
    submission's commit would make. *)
Theorem rebase_previews_commit g' to changed journal :
  rebase g inc = (g', RebasedTo to changed journal) →
  g' = g ∧ to = head (g_state g) ∧
  (∀ p o, changed !! p = Some o → o ≠ d_cur (content (g_state g)) !! p) ∧
  ∃ hits effects,
    decide (g_state g) (fast_path_hits g) inc (resolve inc) = (hits, Ok effects) ∧
    (apart effects → ∀ p,
       overlay changed (d_cur (content (g_state g))) p
         = t_files (apply_effects (tree_now (g_state g)) effects) !! p).
Proof.
  unfold rebase. destruct (decide _ _ inc (resolve inc)) as [hits [effects|ws]] eqn:Ed; [|done].
  unfold rebased_from. destruct (foldl (restate (g_state g)) (∅, []) effects) as [ch j] eqn:Ef.
  intros [= <- <- <- <-]. split_and!; [done|done|..].
  - intros p o Ho. by apply map_lookup_filter_Some in Ho as [_ ?].
  - exists hits, effects. split; [done|]. intros Hap p. cbn [apply_effects t_files tree_now].
    rewrite <- (restated_files (g_state g) effects _ Hap p), Ef. unfold overlay. cbn [fst].
    rewrite map_lookup_filter. destruct (ch !! p) as [o|]; [|done]. simpl.
    case_guard as Hg; simpl; [done|]. by rewrite Hg.
Qed.
End rebase.

Lemma rebase_previews_commit_witness :
  ∃ to changed journal,
    rebase green1 inc_extend = (green1, RebasedTo to changed journal) ∧
    changed !! "a"%string = Some (Some (as_bytes "HEllo!")) ∧
    to = head (g_state green1).
Proof.
  eexists _, _, _. split; [|split].
  - rewrite (surjective_pairing (rebase green1 inc_extend)). f_equal.
  - vm_compute. reflexivity.
  - eapply (rebase_previews_commit green1 inc_extend).
    rewrite (surjective_pairing (rebase green1 inc_extend)). f_equal.
Defined.
