(* ===== verification/GreenReaders.v ===== *)
(** * The readers agree

    A base composed for one journal ([base_for]) gathers only what the journal
    names; on every named path it answers as the whole base of the version
    ([base_at]) does, at the head and at an earlier version alike. *)

From S2P Require Import Prelude OpsDoc Special Journal Namespace History Green GreenOps GreenReach.
#[local] Open Scope N_scope.

(** ** Tables *)
Lemma table_get_app {K V} `{EqDecision K} (l k : list (K * V)) x :
  table_get (l ++ k) x = match table_get l x with Some v => Some v | None => table_get k x end.
Proof.
  unfold table_get. induction l as [|e l IH]; cbn [app List.find]; [done|].
  case_bool_decide; [done|]. exact IH.
Qed.

Lemma table_get_none {K V} `{EqDecision K} (l : list (K * V)) x :
  (∀ v, (x, v) ∉ l) → table_get l x = None.
Proof.
  unfold table_get. induction l as [|[k v] l IH]; intros Hn; [done|]. cbn [List.find fst].
  case_bool_decide as E; [subst; exfalso; apply (Hn v); by left|].
  apply IH. intros w Hw. apply (Hn w). by right.
Qed.

Lemma table_get_elem {K V} `{EqDecision K} (l : list (K * V)) x v :
  NoDup l.*1 → (x, v) ∈ l → table_get l x = Some v.
Proof.
  unfold table_get. induction l as [|[k w] l IH]; intros Hnd Hin; [set_solver|].
  cbn [List.find fst]. inversion_clear Hnd as [|?? Hni Hnd'].
  apply elem_of_cons in Hin as [[= -> ->]|Hin]; [by rewrite bool_decide_true|].
  rewrite bool_decide_false; [by apply IH|]. intros ->. apply Hni. apply list_elem_of_fmap. by exists (x, v).
Qed.

Lemma table_get_bt_list {K V} `{Countable K, !BTreeKey K} (m : gmap K V) k :
  table_get (bt_list m) k = m !! k.
Proof.
  destruct (m !! k) as [v|] eqn:E.
  - apply table_get_elem; [apply NoDup_bt_keys|]. by apply elem_of_bt_list.
  - apply table_get_none. intros v Hv. apply elem_of_bt_list in Hv. congruence.
Qed.

Lemma omap_keys_NoDup {K A V} (f : K * A → option V) (l : list (K * A)) :
  NoDup l.*1 → NoDup (omap (λ e, pair e.1 <$> f e) l).*1.
Proof.
  induction l as [|e l IH]; intros Hnd; [constructor|]. inversion_clear Hnd as [|?? Hni Hnd'].
  cbn [omap list_omap]. destruct (f e) as [v|]; cbn; [|by apply IH]. constructor; [|by apply IH].
  intros Hin. apply Hni. apply list_elem_of_fmap in Hin as ([k w] & Hk & Hin). cbn in Hk. subst.
  apply list_elem_of_omap in Hin as (e' & Hin & He'). destruct (f e'); [|done].
  injection He' as <- <-. apply list_elem_of_fmap. by exists e'.
Qed.

(** A version's table answers as its histories do. *)
Lemma table_get_table_at {K V} `{Countable K, !BTreeKey K} (d : Dim K V) k version :
  table_get (table_at d version) k = dim_at d k version.
Proof.
  unfold dim_at. destruct (d_hist d !! k ≫= λ h, history_at h version) as [v|] eqn:E.
  - destruct (d_hist d !! k) as [h|] eqn:Eh; [|done]. cbn in E.
    apply table_get_elem; [apply omap_keys_NoDup, NoDup_bt_keys|].
    apply list_elem_of_omap. exists (k, h). split; [by apply elem_of_bt_list|]. cbn. by rewrite E.
  - apply table_get_none. intros v Hv. apply list_elem_of_omap in Hv as ([q h] & Hin & Hv).
    apply elem_of_bt_list in Hin. cbn in Hv. destruct (history_at h version) eqn:Eh; [|done].
    injection Hv as -> ->. rewrite Hin in E. cbn in E. congruence.
Qed.

Lemma table_get_map {K V W} `{EqDecision K} (f : V → W) (l : list (K * V)) k :
  table_get (map (λ e, (e.1, f e.2)) l) k = f <$> table_get l k.
Proof.
  unfold table_get. induction l as [|e l IH]; [done|]. cbn [map List.find fst].
  case_bool_decide; [done|]. exact IH.
Qed.

(** ** What one pass over the names gathers *)
Lemma table_get_gathered {V} (g : string → option V) (names : list string) q :
  table_get (concat (map (λ p, at_path p (g p)) names)) q = if bool_decide (q ∈ names) then g q else None.
Proof.
  induction names as [|p names IH]; [done|]. cbn [map concat].
  rewrite table_get_app, IH. unfold at_path.
  destruct (base.decide (p = q)) as [->|Hne].
  - rewrite (bool_decide_true (q ∈ q :: names)) by set_solver.
    destruct (g q); cbn; [by rewrite bool_decide_true|]. by case_bool_decide.
  - assert (E : table_get (option_list (pair p <$> g p)) q = None).
    { destruct (g p); cbn; [|done]. unfold table_get. cbn. by rewrite bool_decide_false. }
    rewrite E. do 2 case_bool_decide; set_solver.
Qed.

Lemma table_get_filter {K V} `{EqDecision K} (P : K * V → Prop) `{!∀ e, Decision (P e)}
    (l : list (K * V)) k :
  (∀ v, P (k, v)) → table_get (filter P l) k = table_get l k.
Proof.
  intros HP. unfold table_get. induction l as [|[q v] l IH]; [done|]. rewrite filter_cons.
  case_decide as E; cbn [List.find fst].
  - case_bool_decide; [done|]. exact IH.
  - rewrite bool_decide_false; [exact IH|]. intros ->. by apply E.
Qed.

Lemma table_get_filter_none {K V} `{EqDecision K} (P : K * V → Prop) `{!∀ e, Decision (P e)}
    (l : list (K * V)) k :
  (∀ v, ~ P (k, v)) → table_get (filter P l) k = None.
Proof. intros HP. apply table_get_none. intros v Hv. apply list_elem_of_filter in Hv as [? _]. by eapply HP. Qed.

Lemma table_get_gathered_xattrs (X : list (string * string * bytes)) (names : list string) q n :
  table_get (concat (map (λ p, filter (λ e : string * string * bytes, e.1.1 = p) X) names)) (q, n)
    = if bool_decide (q ∈ names) then table_get X (q, n) else None.
Proof.
  induction names as [|p names IH]; [done|]. cbn [map concat]. rewrite table_get_app, IH.
  destruct (base.decide (p = q)) as [->|Hne].
  - rewrite (bool_decide_true (q ∈ q :: names)), table_get_filter by (done || set_solver).
    destruct (table_get X (q, n)); [done|]. by case_bool_decide.
  - rewrite table_get_filter_none by (intros v; cbn; congruence). do 2 case_bool_decide; set_solver.
Qed.

Lemma elem_of_gathered (c : string → bool) (names : list string) q :
  q ∈ concat (map (λ p, if c p then [p] else []) names) ↔ q ∈ names ∧ c q = true.
Proof.
  induction names as [|p names IH]; [set_solver|]. cbn [map concat]. rewrite elem_of_app, IH.
  destruct (base.decide (p = q)) as [->|]; [destruct (c q) eqn:E|destruct (c p)]; set_solver.
Qed.

Definition gather (F : string → list (string * N)) (S : string → list (string * SpecialNode))
    (D : string → list string) (M : string → list (string * N)) (Y : string → list (string * string))
    (X : string → list (string * string * bytes)) (b : Base) (p : string) : Base :=
  mkBase (b_files b ++ F p) (b_specials b ++ S p) (b_dirs b ++ D p) (b_modes b ++ M p)
    (b_symlinks b ++ Y p) (b_xattrs b ++ X p) (b_hardlinks b).

Lemma gather_all F S D M Y X names : ∀ b,
  foldl (gather F S D M Y X) b names =
    mkBase (b_files b ++ concat (map F names)) (b_specials b ++ concat (map S names))
      (b_dirs b ++ concat (map D names)) (b_modes b ++ concat (map M names))
      (b_symlinks b ++ concat (map Y names)) (b_xattrs b ++ concat (map X names)) (b_hardlinks b).
Proof.
  induction names as [|p names IH]; intros b; cbn [foldl map concat].
  - rewrite !app_nil_r. by destruct b.
  - rewrite IH. cbn [gather b_files b_specials b_dirs b_modes b_symlinks b_xattrs b_hardlinks].
    by rewrite <- !app_assoc.
Qed.

(** Two bases answer alike at a path. *)
Record agree_at (path : string) (b b' : Base) : Prop := {
  aa_len : base_len_of b path = base_len_of b' path;
  aa_special : table_get (b_specials b) path = table_get (b_specials b') path;
  aa_dir : path ∈ b_dirs b ↔ path ∈ b_dirs b';
  aa_mode : base_mode_of b path = base_mode_of b' path;
  aa_symlink : base_symlink_target b path = base_symlink_target b' path;
  aa_xattr : ∀ name, base_xattr b path name = base_xattr b' path name;
  aa_hardlink : base_hardlink_target b path = base_hardlink_target b' path
}.

Lemma lengths_gathered (g : string → option bytes) (names : list string) q :
  table_get (concat (map (λ p, lengths (at_path p (g p))) names)) q
    = if bool_decide (q ∈ names) then len <$> g q else None.
Proof.
  rewrite <- (table_get_gathered (λ p, len <$> g p)). do 2 f_equal. apply map_ext. intros p.
  unfold lengths, at_path. by destruct (g p).
Qed.

(** What is gathered for a named path answers as any base with the same values. *)
Lemma agree_gathered path names (f : string → option bytes) sp di mo sy X links b' :
  path ∈ names →
  base_len_of b' path = len <$> f path → table_get (b_specials b') path = sp path →
  (path ∈ b_dirs b' ↔ di path = true) → base_mode_of b' path = mo path →
  base_symlink_target b' path = sy path → (∀ n, base_xattr b' path n = table_get X (path, n)) →
  base_hardlink_target b' path = table_get links path →
  agree_at path
    (mkBase (concat (map (λ p, lengths (at_path p (f p))) names)) (concat (map (λ p, at_path p (sp p)) names))
       (concat (map (λ p, if di p then [p] else []) names)) (concat (map (λ p, at_path p (mo p)) names))
       (concat (map (λ p, at_path p (sy p)) names))
       (concat (map (λ p, filter (λ e : string * string * bytes, e.1.1 = p) X) names)) links) b'.
Proof.
  intros Hin Hf Hs Hd Hm Hy Hx Hl.
  constructor; unfold base_len_of, base_mode_of, base_symlink_target, base_xattr, base_hardlink_target in *;
    cbn [b_files b_specials b_dirs b_modes b_symlinks b_xattrs b_hardlinks].
  - rewrite lengths_gathered, bool_decide_true by done. done.
  - rewrite table_get_gathered, bool_decide_true by done. done.
  - rewrite elem_of_gathered. tauto.
  - rewrite table_get_gathered, bool_decide_true by done. done.
  - rewrite table_get_gathered, bool_decide_true by done. done.
  - intros n. rewrite table_get_gathered_xattrs, bool_decide_true by done. done.
  - done.
Qed.

Lemma elem_of_dirs_at_list s version path :
  path ∈ dirs_at s version ↔ default false ((λ h, present_at h version) <$> dir_history s !! path) = true.
Proof.
  unfold dirs_at. rewrite list_elem_of_fmap. split.
  - intros ([p h] & -> & Hin). apply list_elem_of_filter in Hin as [Hp Hin].
    apply elem_of_bt_list in Hin. cbn in *. by rewrite Hin.
  - destruct (dir_history s !! path) as [h|] eqn:E; [|done]. cbn. intros Hp. exists (path, h).
    split; [done|]. apply list_elem_of_filter. split; [done|]. by apply elem_of_bt_list.
Qed.

(** The base gathered for a journal answers as the version's whole base at
    every path the journal names: its file length, IPC node, directory, mode,
    symlink target, attributes and hard-link target, whether the version is
    the head or an earlier one. *)
Theorem base_for_agrees s version journal path :
  path ∈ concat (map names journal) → agree_at path (base_for s version journal) (base_at s version).
Proof.
  intros Hin. unfold base_for, base_at. cbv zeta.
  set (named := list_to_set (concat (map names journal)) : gset string).
  assert (Hn : path ∈ named) by (unfold named; rewrite elem_of_list_to_set; exact Hin).
  assert (Hl : path ∈ bt_elems named) by by apply elem_of_bt_elems.
  assert (Hlink : ∀ links : list (string * string),
    table_get links path =
    table_get (filter (λ e, has_elem named e.1 || has_elem named e.2 = true) links) path).
  { intros links. symmetry. apply table_get_filter. intros v. cbn. by rewrite (proj2 (has_elem_true _ _) Hn). }
  destruct (head s <=? version).
  - change (λ b path, head_entries s path b) with
      (gather (λ p, lengths (at_path p (d_cur (content s) !! p))) (λ p, at_path p (d_cur (specials s) !! p))
         (λ p, if has_elem (dirs s) p then [p] else []) (λ p, at_path p (d_cur (modes s) !! p))
         (λ p, at_path p (d_cur (symlinks s) !! p))
         (λ p, filter (λ e, e.1.1 = p) (bt_list (d_cur (xattrs s))))).
    rewrite gather_all. apply (agree_gathered path (bt_elems named) (λ p, d_cur (content s) !! p)
      (λ p, d_cur (specials s) !! p) (has_elem (dirs s)) (λ p, d_cur (modes s) !! p)
      (λ p, d_cur (symlinks s) !! p)); [done|..].
    + unfold base_len_of. cbn [current_base b_files]. unfold lengths. by rewrite table_get_map, table_get_bt_list.
    + apply table_get_bt_list.
    + cbn [current_base b_dirs]. by rewrite elem_of_bt_elems, has_elem_true.
    + apply table_get_bt_list.
    + apply table_get_bt_list.
    + done.
    + apply Hlink.
  - change (λ b path, entries_at s path version b) with
      (gather (λ p, lengths (at_path p (dim_at (content s) p version)))
         (λ p, at_path p (dim_at (specials s) p version))
         (λ p, if default false ((λ h, present_at h version) <$> dir_history s !! p) then [p] else [])
         (λ p, at_path p (dim_at (modes s) p version)) (λ p, at_path p (dim_at (symlinks s) p version))
         (λ p, filter (λ e, e.1.1 = p) (table_at (xattrs s) version))).
    rewrite gather_all. apply (agree_gathered path (bt_elems named) (λ p, dim_at (content s) p version)
      (λ p, dim_at (specials s) p version)
      (λ p, default false ((λ h, present_at h version) <$> dir_history s !! p))
      (λ p, dim_at (modes s) p version) (λ p, dim_at (symlinks s) p version)); [done|..].
    + unfold base_len_of. cbn [b_files]. unfold lengths. by rewrite table_get_map, table_get_table_at.
    + apply table_get_table_at.
    + apply elem_of_dirs_at_list.
    + apply table_get_table_at.
    + apply table_get_table_at.
    + done.
    + apply Hlink.
Qed.

Lemma base_for_agrees_witness :
  b_files (base_for (g_state green2) 1 [VolumeOp.Overwrite "a" 0 2]) = [("a"%string, 5)] ∧
  agree_at "a" (base_for (g_state green2) 1 [VolumeOp.Overwrite "a" 0 2]) (base_at (g_state green2) 1).
Proof.
  split; [vm_compute; reflexivity|]. apply (base_for_agrees (g_state green2) 1).
  apply (bool_decide_unpack _). vm_compute. exact I.
Defined.
