(* ===== verification/PlainJournal.v ===== *)
(** * Journals of file operations

    A journal of writes, edits, truncates, creates and unlinks, and of renames
    of files that are new in it ([plain_op]): the save patterns of an editor.
    Its entities stay at their origin ([plain]), its namespace compositions
    are empty, and [compose_volume] answers the sealed files alone. *)

From S2P Require Import Prelude Range OpsDoc ByteSplice PosMap Derive Special Origin Journal Namespace.
From S2P Require Import DocOrder Volume.
#[local] Open Scope N_scope.

Definition plain_op (B : gmap string bytes) (op : VolumeOp.t) : Prop :=
  is_Some (content_op op) ∨
  match op with
  | VolumeOp.Create _ | VolumeOp.Unlink _ => True
  | VolumeOp.Rename from _ => B !! from = None
  | _ => False
  end.

(** An entity at a path of the kind [Q]: a base file in place, or a new file
    where the base has none. *)
Definition plain (B : gmap string bytes) (Q : string → Prop) (e : Entity) : Prop :=
  Q (e_final_path e) ∧
  match e_origin e with
  | Some o => o = e_final_path e ∧ is_Some (B !! o)
  | None => B !! e_final_path e = None
  end.

(** ** Entities stay plain *)
Section plain.
Context (base : Base) (B : gmap string bytes) (Q : string → Prop) (HB : base_of base B).

Lemma plain_base p n content live clob :
  Q p → base_len_of base p = Some n → plain B Q (mkEntity (Some p) n content live p clob).
Proof. intros HQ Hn. split; [done|]. split; [done|]. rewrite (proj1 (HB p)) in Hn. by destruct (B !! p). Qed.

Lemma plain_find es p missing es' i :
  Q p → Forall (plain B Q) es → find_or_materialize es base p missing = Ok (es', i) →
  Forall (plain B Q) es' ∧ ∃ e, es' !! i = Some e ∧ e_final_path e = p.
Proof.
  intros HQ Hall. unfold find_or_materialize. destruct (live_index es p) as [k|] eqn:Ei.
  - intros [= <- <-]. destruct (live_index_some _ _ _ Ei) as (e & Hi & _ & Hp). eauto.
  - unfold materialize_base. destruct (consumed es p); [done|].
    destruct (base_len_of base p) as [n|] eqn:En; [|done]. intros [= <- <-]. split.
    + apply Forall_app. split; [done|]. constructor; [|done]. by apply plain_base.
    + eexists. rewrite lookup_app_r, Nat.sub_diag by lia. done.
Qed.

Lemma plain_update es i f missing es' e :
  Forall (plain B Q) es → es !! i = Some e → plain B Q (f e) →
  update_at es i f missing = Ok es' → Forall (plain B Q) es'.
Proof.
  intros Hall Hi Hf. unfold update_at. rewrite Hi. cbn. intros [= <-].
  by apply Forall_insert.
Qed.

Lemma plain_create es p es' :
  Q p → Forall (plain B Q) es → apply_create es base p = Ok es' → Forall (plain B Q) es'.
Proof.
  intros HQ Hall. unfold apply_create. case_bool_decide; [done|]. cbv zeta.
  destruct (position _ es) as [i|] eqn:Ep; cbn [mbind option_bind].
  - destruct (position_some _ _ _ Ep) as (e & Hi & Ht). rewrite Hi. cbn. intros [= <-].
    rewrite !andb_true_iff, !bool_decide_eq_true in Ht. destruct Ht as [[_ Hp] Ho].
    pose proof (Forall_lookup_1 _ _ _ _ Hall Hi) as He. apply Forall_app. split.
    + apply Forall_insert; [done|]. exact He.
    + constructor; [|done]. unfold plain in *. rewrite Ho in He. cbn. split_and!; [done..|]. apply He.
  - case_bool_decide as Hb; [by split_if|]. intros [= <-]. apply Forall_app. split; [done|].
    constructor; [|done]. unfold plain. cbn. split; [done|]. rewrite (proj1 (HB p)) in Hb.
    destruct (B !! p); [|done]. by destruct Hb.
Qed.

Lemma plain_rename_target es to es' d :
  Q to → Forall (plain B Q) es → resolve_rename_target es base to = Ok (es', d) →
  Forall (plain B Q) es' ∧ (∀ j, is_Some (es !! j) → es' !! j = es !! j) ∧
  match d with
  | Some i => ∃ e, es' !! i = Some e ∧ e_final_path e = to
  | None => B !! to = None
  end.
Proof.
  intros HQ Hall. unfold resolve_rename_target. destruct (live_index es to) as [k|] eqn:Ei.
  { intros [= <- <-]. destruct (live_index_some _ _ _ Ei) as (e & Hi & _ & Hp). eauto. }
  case_bool_decide as Hb.
  - unfold materialize_base. destruct (consumed es to); [done|].
    destruct (base_len_of base to) as [n|] eqn:En; [|by destruct Hb]. intros [= <- <-]. split_and!.
    + apply Forall_app. split; [done|]. constructor; [|done]. by apply plain_base.
    + intros j [x Hj]. apply lookup_app_l. by eapply lookup_lt_Some.
    + eexists. by rewrite lookup_app_r, Nat.sub_diag by lia.
  - intros [= <- <-]. split_and!; [done..|]. rewrite (proj1 (HB to)) in Hb.
    destruct (B !! to); [|done]. by destruct Hb.
Qed.

Lemma plain_rename es from to es' :
  Q from → Q to → B !! from = None → Forall (plain B Q) es → apply_rename es base from to = Ok es' →
  Forall (plain B Q) es'.
Proof.
  intros HQf HQt Hfrom Hall. unfold apply_rename. case_bool_decide as Hft; [by intros [= <-]|].
  destruct (find_or_materialize _ _ _ _) as [[es1 s]|] eqn:Ef; [|done]. cbn [mbind result_bind].
  destruct (plain_find _ _ _ _ _ HQf Hall Ef) as (Hall1 & e & Hs & Hp).
  destruct (resolve_rename_target _ _ _) as [[es2 d]|] eqn:Er; [|done]. cbn [mbind result_bind].
  destruct (plain_rename_target _ _ _ _ HQt Hall1 Er) as (Hall2 & Hkeep & Hd).
  assert (Hs2 : es2 !! s = Some e) by (rewrite Hkeep; eauto).
  assert (Ho : e_origin e = None).
  { pose proof (Forall_lookup_1 _ _ _ _ Hall2 Hs2) as He. unfold plain in He.
    destruct (e_origin e); [|done]. destruct He as (_ & -> & b & Hb). congruence. }
  destruct d as [d|].
  - destruct Hd as (dd & Hd & Hdp). rewrite Hd. cbn [ok_or mbind result_bind].
    assert (Hsd : d ≠ s) by congruence.
    rewrite list_lookup_insert_ne, Hs2 by done. cbn [ok_or mbind result_bind]. rewrite Ho.
    pose proof (Forall_lookup_1 _ _ _ _ Hall2 Hd) as Hdd.
    assert (Hall3 : Forall (plain B Q) (<[d:=clobber_over dd]> es2)) by (apply Forall_insert; done).
    case_bool_decide as Edo; cbn [andb]; rewrite ?bool_decide_true by done; cbn [mbind result_bind];
      unfold update_at.
    + rewrite list_lookup_insert_eq by (rewrite length_insert; by eapply lookup_lt_Some).
      cbn. intros [= <-]. rewrite list_insert_insert_eq. apply Forall_insert; [done|].
      unfold plain in *. rewrite Edo in Hdd. cbn. split_and!; [done..|]. apply Hdd.
    + rewrite list_lookup_insert_ne, Hs2 by done. cbn. intros [= <-]. apply Forall_insert; [done|].
      unfold plain in *. cbn. rewrite Ho. split; [done|].
      destruct (e_origin dd) as [o|]; [|rewrite <- Hdp; apply Hdd]. destruct Hdd as (_ & -> & _). congruence.
  - cbn [mbind result_bind]. unfold update_at. rewrite Hs2. cbn. intros [= <-].
    apply Forall_insert; [done|]. unfold plain. cbn. by rewrite Ho.
Qed.

Lemma plain_apply es op es' :
  plain_op B op → (∀ p, p ∈ names op → Q p) → Forall (plain B Q) es → apply_op es base op = Ok es' → Forall (plain B Q) es'.
Proof.
  intros Hop HQ Hall. unfold apply_op. destruct (content_op op) as [c|] eqn:Ec.
  - destruct (find_or_materialize _ _ _ _) as [[es1 i]|] eqn:Ef; [|done]. cbn [mbind result_bind].
    assert (HQp : Q (default ""%string (single_path op))) by (destruct op; try done; apply HQ; by left).
    destruct (plain_find _ _ _ _ _ HQp Hall Ef) as (Hall1 & e & Hi & _). eapply plain_update; [done..|]. by apply (Forall_lookup_1 _ _ _ _ Hall1 Hi).
  - destruct Hop as [[? ?]|Hop]; [congruence|]. destruct op; try done.
    + apply plain_create; [|done]. apply HQ. by left.
    + unfold apply_unlink. destruct (find_or_materialize _ _ _ _) as [[es1 i]|] eqn:Ef; [|done].
      cbn [mbind result_bind].
      destruct (plain_find _ _ _ _ _ (HQ _ ltac:(by left)) Hall Ef) as (Hall1 & e & Hi & _).
      eapply plain_update; [done..|]. by apply (Forall_lookup_1 _ _ _ _ Hall1 Hi).
    + apply plain_rename; [apply HQ; set_solver..|done|done].
Qed.

Lemma plain_replay journal : ∀ es es',
  Forall (plain_op B) journal → (∀ op p, op ∈ journal → p ∈ names op → Q p) →
  Forall (plain B Q) es → replay_ops es base journal = Ok es' →
  Forall (plain B Q) es'.
Proof.
  induction journal as [|op journal IH]; intros es es' Hj HQ Hall; [by intros [= <-]|].
  inversion_clear Hj as [|?? Hop Hj']. cbn [replay_ops].
  destruct (apply_op es base op) as [es1|] eqn:E; [|done]. cbn [mbind result_bind].
  apply IH; [done|intros o p Ho; apply HQ; by right|].
  eapply plain_apply; [done| |done..]. intros p. apply HQ. by left.
Qed.
End plain.

(** ** The namespace compositions of such a journal *)

(** No name of the operation is a symlink, a hard link or an IPC name of the base. *)
Definition quiet (base : Base) (op : VolumeOp.t) : Prop :=
  ∀ p, p ∈ names op →
    p ∉ (b_symlinks base).*1 ∧ p ∉ (b_hardlinks base).*1 ∧ bt_collect (b_specials base) !! p = None.

(** A file operation of those, whatever it renames. *)
Definition file_op (op : VolumeOp.t) : Prop :=
  match op with
  | VolumeOp.Overwrite _ _ _ | VolumeOp.Extend _ _ _ | VolumeOp.Truncate _ _ | VolumeOp.Insert _ _ _
  | VolumeOp.Delete _ _ _ | VolumeOp.Create _ | VolumeOp.Unlink _ | VolumeOp.Rename _ _ => True
  | _ => False
  end.

Lemma plain_file_op B op : plain_op B op → file_op op.
Proof. intros [[c Hc]|Hop]; destruct op; done. Qed.

Lemma fold_result_skip {E S A} (step : S → A → result E S) (s : S) (l : list A) :
  (∀ a, a ∈ l → step s a = Ok s) → fold_result step s l = Ok s.
Proof.
  induction l as [|a l IH]; intros Hs; [done|]. cbn [fold_result]. rewrite Hs by (by left).
  cbn [mbind result_bind]. apply IH. intros b Hb. apply Hs. by right.
Qed.

Lemma foldl_skip {S A} (step : S → A → S) (s : S) (l : list A) :
  (∀ a, a ∈ l → step s a = s) → foldl step s l = s.
Proof.
  induction l as [|a l IH]; intros Hs; [done|]. cbn [foldl]. rewrite Hs by (by left).
  apply IH. intros b Hb. apply Hs. by right.
Qed.

Section silent.
Context (base : Base) (journal : list VolumeOp.t).
Context (Hfile : ∀ op, op ∈ journal → file_op op) (Hquiet : ∀ op, op ∈ journal → quiet base op).

Lemma omap_file_ops {X} (f : VolumeOp.t → option X) :
  (∀ op, file_op op → f op = None) → omap f journal = [].
Proof.
  intros Hf. revert Hfile. clear Hquiet. induction journal as [|op l IH]; intros Hfile; [done|].
  cbn. rewrite Hf by (apply Hfile; by left). apply IH. intros o Ho. apply Hfile. by right.
Qed.

Lemma silent_directories : compose_directories base journal = Ok [].
Proof.
  unfold compose_directories. rewrite fold_result_skip; [done|].
  intros op Hop. specialize (Hfile op Hop). by destruct op.
Qed.

Lemma silent_specials :
  ∃ c, composition_of base journal = Ok c ∧ c_changes c = ∅ ∧
    ∀ p, p ∈ c_paths c → is_Some (bt_collect (b_specials base) !! p).
Proof.
  unfold composition_of. cbv zeta. rewrite (omap_file_ops mknod_path) by (intros op ?; by destruct op).
  set (initial := bt_collect (b_specials base)). rewrite fold_result_skip.
  2: { intros op Hop. pose proof (Hfile op Hop). destruct op as [| | | | | | |p| | | | | | | |]; try done.
       cbn. rewrite (proj2 (has_elem_false _ _)); [done|].
       destruct (Hquiet _ Hop p) as (_ & _ & Hn); [by left|].
       rewrite elem_of_union, elem_of_dom. unfold initial. rewrite Hn. intros [[? ?]|?]; [done|set_solver]. }
  eexists. split; [reflexivity|]. cbn. split.
  - match goal with |- bt_collect (omap ?f ?l) = _ => assert (E : omap f l = []) end; [|by rewrite E].
    induction (bt_elems _) as [|x l IH]; [done|]. cbn. by rewrite bool_decide_true.
  - intros p. rewrite elem_of_union, elem_of_dom. intros [?|?]; [done|set_solver].
Qed.

Lemma silent_unlink op p paths :
  op ∈ journal → op = VolumeOp.Unlink p →
  (paths = symlink_paths base journal ∨ paths = hardlink_paths base journal) →
  has_elem paths p = false.
Proof.
  intros Hop -> Hp. destruct (Hquiet _ Hop p) as (Hs & Hh & _); [by left|]. apply has_elem_false.
  destruct Hp as [->| ->]; unfold symlink_paths, hardlink_paths;
    rewrite omap_file_ops by (intros o ?; by destruct o);
    rewrite elem_of_union, elem_of_list_to_set; set_solver.
Qed.

Lemma silent_links initial makes over paths :
  (paths = symlink_paths base journal ∨ paths = hardlink_paths base journal) →
  (∀ op, file_op op → makes op = None) →
  compose_links initial makes over paths journal = Ok [].
Proof.
  intros Hp Hm. unfold compose_links. rewrite fold_result_skip; [done|].
  intros op Hop. unfold link_step. rewrite Hm by by apply Hfile. destruct op; try done.
  by rewrite (silent_unlink _ _ _ Hop eq_refl Hp).
Qed.

Lemma silent_modes survivors away dirs : compose_modes base survivors away dirs journal = Ok [].
Proof.
  unfold compose_modes. rewrite foldl_skip; [done|].
  intros op Hop. specialize (Hfile op Hop). by destruct op.
Qed.

Lemma silent_xattrs survivors away dirs : compose_xattrs base survivors away dirs journal = Ok [].
Proof.
  unfold compose_xattrs. rewrite foldl_skip; [done|].
  intros op Hop. specialize (Hfile op Hop). by destruct op.
Qed.

(** [compose_volume] of the journal: the replayed entities, sealed alone. *)
Lemma compose_volume_files doc :
  compose_volume base journal = Ok doc →
  ∃ entities, replay_ops [] base journal = Ok entities ∧
    doc = canonicalize (seal entities [] [] [] [] []).
Proof.
  destruct silent_specials as (c & Hc & Hch & Hcp). unfold compose_volume. rewrite Hc. cbn [mbind result_bind].
  destruct (check_no_file_directory_collision base journal) as [u|]; [|done]. cbn [mbind result_bind].
  rewrite silent_directories. cbn [mbind result_bind].
  unfold compose_symlinks, compose_hardlinks.
  rewrite silent_links by (auto || by intros []). cbn [mbind result_bind].
  rewrite silent_links by (auto || by intros []). cbn [mbind result_bind].
  rewrite filter_all.
  2: { intros op Hop. pose proof (Hfile op Hop). unfold skipped_by_files. destruct op as [| | | | | | |p| | | | | | | |]; try done.
       cbn [is_directory is_symlink is_link is_mknod orb].
       rewrite !(silent_unlink _ p _ Hop eq_refl) by auto. cbn [orb]. apply has_elem_false.
       intros Hin. destruct (Hquiet _ Hop p) as (_ & _ & Hn); [by left|].
       apply Hcp in Hin as [? ?]. congruence. }
  destruct (replay_ops [] base journal) as [entities|]; [|done]. cbn [mbind result_bind].
  rewrite silent_modes. cbn [mbind result_bind]. rewrite silent_xattrs. cbn [mbind result_bind].
  intros [= <-]. exists entities. split; [done|]. unfold emit_specials. rewrite Hch. done.
Qed.
End silent.
