(* ===== verification/DocFiles.v ===== *)
(** * The file operations of a document

    What a document of file operations (edits, creates, unlinks) says of each
    path: its content operations in canonical order, with the path index
    erased ([doc_content]), and the paths it creates and unlinks
    ([doc_names]).  Canonicalizing keeps both up to that order, and
    [Green::resolve] reads exactly them. *)

From S2P Require Import Prelude Range OpsDoc ByteSplice PosMap Special Origin IncrementDoc DocOrder.
From S2P Require Import History Rejected Identity Green.
#[local] Open Scope N_scope.

Definition file_kind (k : OpKind.t) : bool :=
  is_content k || bool_decide (k = OpKind.Create) || bool_decide (k = OpKind.Unlink).

(** An operation with its path index erased. *)
Definition strip (op : Op) : Op := with_path op 0.

(** The operations that name a path, by a table. *)
Definition names_path (t : PathTable) (p : string) (op : Op) : Prop := pt_path t (op_path op) = Some p.
#[export] Instance names_path_dec t p op : Decision (names_path t p op).
Proof. unfold names_path. apply _. Defined.

Definition content_on (t : PathTable) (p : string) (op : Op) : Prop :=
  is_content (op_kind op) = true ∧ names_path t p op.
#[export] Instance content_on_dec t p op : Decision (content_on t p op).
Proof. unfold content_on. apply _. Defined.

Definition doc_content (d : OpsDoc) (p : string) : list Op :=
  map strip (filter (content_on (paths d) p) (ops d)).
Definition doc_names (d : OpsDoc) (k : OpKind.t) (p : string) : Prop :=
  ∃ op, op ∈ ops d ∧ op_kind op = k ∧ names_path (paths d) p op.

(** A document of file operations whose references index a table of distinct paths. *)
Record file_doc (d : OpsDoc) : Prop := {
  fd_size : len (pt_paths (paths d)) ≤ u16_max + 1;
  fd_distinct : NoDup (pt_paths (paths d));
  fd_ops : ∀ op, op ∈ ops d → file_kind (op_kind op) = true ∧ op_path op < len (pt_paths (paths d))
}.

(** ** The engine does not read the path index *)
Lemma apply_strip base os post : apply base (map strip os) post = apply base os post.
Proof.
  unfold apply. assert (E : ∀ st, foldl (apply_step base post) st (map strip os)
    = foldl (apply_step base post) st os); [|by rewrite E].
  induction os as [|op os IH]; intros st; [done|]. cbn [map foldl]. rewrite IH. by destruct st.
Qed.

Lemma fits_base_strip os blen plen : fits_base (map strip os) blen plen = fits_base os blen plen.
Proof. unfold fits_base. induction os as [|op os IH]; [done|]. cbn [map forallb]. by rewrite IH. Qed.

(** ** Canonicalizing *)
Lemma canonical_table d :
  pt_paths (paths (canonicalize d)) ≡ₚ pt_paths (paths d).
Proof.
  unfold canonicalize. destruct (sort_and_remap (paths d)) as [t remap] eqn:E.
  assert (t = mkPathTable (sorted_entries (paths d)).*2) as -> by (unfold sort_and_remap in E; by simplify_eq).
  cbn [paths pt_paths]. unfold sorted_entries. rewrite sort_by_perm. by rewrite enumerate_from_values.
Qed.

Lemma elem_of_canonical d op :
  op ∈ ops (canonicalize d) ↔ ∃ op', op = remap_op (sort_and_remap (paths d)).2 op' ∧ op' ∈ ops d.
Proof.
  unfold canonicalize. destruct (sort_and_remap (paths d)) as [t remap]. cbn [ops snd].
  rewrite elem_of_sort_by. change (map ?f ?l) with (f <$> l). by rewrite list_elem_of_fmap.
Qed.

(** A file operation remapped: its path index alone changes, its name stays. *)
Lemma remap_file_op d op :
  file_doc d → op ∈ ops d →
  let op' := remap_op (sort_and_remap (paths d)).2 op in
  strip op' = strip op ∧ op_kind op' = op_kind op ∧
  op_path op' < len (pt_paths (paths (canonicalize d))) ∧
  pt_path (paths (canonicalize d)) (op_path op') = pt_path (paths d) (op_path op).
Proof.
  intros [Hs Hd Hops] Hin. destruct (Hops op Hin) as [Hk Hp].
  destruct (remap_same_path (paths d) (op_path op) Hs Hp) as (j & Hj & Hjl & Hjp).
  assert (Ec : paths (canonicalize d) = (sort_and_remap (paths d)).1).
  { unfold canonicalize. by destruct (sort_and_remap (paths d)). }
  rewrite Ec. unfold remap_op.
  destruct op as [k fl pa at_ l src]; destruct k; try done;
    cbn [op_kind with_src with_at op_path] in *; rewrite Hj; done.
Qed.

Lemma canonicalize_file_doc d : file_doc d → file_doc (canonicalize d).
Proof.
  intros Hd. pose proof (canonical_table d) as Ht. constructor.
  - assert (len (pt_paths (paths (canonicalize d))) = len (pt_paths (paths d))) as ->
      by (unfold len; by rewrite Ht). apply Hd.
  - rewrite Ht. apply Hd.
  - intros op (op' & -> & Hin)%elem_of_canonical.
    destruct (remap_file_op d op' Hd Hin) as (_ & -> & Hlt & _). split; [by apply (fd_ops _ Hd)|done].
Qed.

Lemma canonicalize_names d k p : file_doc d → doc_names (canonicalize d) k p ↔ doc_names d k p.
Proof.
  intros Hd. unfold doc_names, names_path. split.
  - intros (op & (op' & -> & Hin)%elem_of_canonical & Hk & Hp).
    destruct (remap_file_op d op' Hd Hin) as (_ & Hk' & _ & Hp').
    exists op'. split_and!; [done|congruence|congruence].
  - intros (op & Hin & Hk & Hp). destruct (remap_file_op d op Hd Hin) as (_ & Hk' & _ & Hp').
    eexists. rewrite elem_of_canonical. split_and!; [by eexists|congruence|congruence].
Qed.

(** Distinct paths: one index per name. *)
Lemma names_path_inj t p a b :
  NoDup (pt_paths t) → names_path t p a → names_path t p b → op_path a = op_path b.
Proof.
  unfold names_path, pt_path, lookupN. intros Hnd.
  repeat split_if; try done. intros Ha Hb.
  apply N2Nat.inj. by eapply NoDup_lookup.
Qed.

Lemma op_leb_strip a b : op_path a = op_path b → op_leb (strip a) (strip b) = op_leb a b.
Proof. intros E. unfold op_leb, strip. cbn. by rewrite E, N.eqb_refl. Qed.

Lemma filter_map_ext {A B} (P : B → Prop) (Q : A → Prop) `{!∀ x, Decision (P x)} `{!∀ x, Decision (Q x)}
    (f : A → B) (l : list A) :
  (∀ x, x ∈ l → P (f x) ↔ Q x) → filter P (map f l) = map f (filter Q l).
Proof.
  induction l as [|x l IH]; intros Hf; [done|]. cbn [map]. rewrite !filter_cons.
  assert (Hx := Hf x ltac:(by left)). rewrite IH by (intros; apply Hf; by right).
  repeat case_decide; naive_solver.
Qed.

Lemma canonicalize_content d p :
  file_doc d → doc_content (canonicalize d) p = sort_by op_leb (doc_content d p).
Proof.
  intros Hd. pose proof (canonicalize_file_doc d Hd) as [_ Hnd _].
  unfold doc_content at 1.
  assert (Eops : ops (canonicalize d) = sort_by op_leb (map (remap_op (sort_and_remap (paths d)).2) (ops d))).
  { unfold canonicalize. by destruct (sort_and_remap (paths d)). }
  rewrite Eops, (filter_sort_by op_leb op_leb_total op_leb_trans).
  rewrite (filter_map_ext _ (content_on (paths d) p)).
  2: { intros op Hin. destruct (remap_file_op d op Hd Hin) as (_ & Hk & _ & Hp).
       unfold content_on, names_path. by rewrite Hk, Hp. }
  rewrite (map_sort_by op_leb op_leb).
  - f_equal. unfold doc_content. rewrite map_map. apply map_ext_in. intros op Hin.
    apply list_elem_of_In, list_elem_of_filter in Hin as [_ Hin].
    by apply (remap_file_op d op Hd Hin).
  - intros a b Ha Hb. apply op_leb_strip.
    apply list_elem_of_fmap in Ha as (a' & -> & Ha). apply list_elem_of_fmap in Hb as (b' & -> & Hb).
    apply list_elem_of_filter in Ha as [[_ Ha] Hina]. apply list_elem_of_filter in Hb as [[_ Hb] Hinb].
    destruct (remap_file_op d a' Hd Hina) as (_ & _ & _ & Ea).
    destruct (remap_file_op d b' Hd Hinb) as (_ & _ & _ & Eb).
    eapply names_path_inj; [exact Hnd|unfold names_path; rewrite Ea; exact Ha|].
    unfold names_path. rewrite Eb. exact Hb.
Qed.

(** ** What [resolve] reads *)
Lemma ref_name_path d i p : len (pt_paths (paths d)) ≤ u16_max + 1 → i < len (pt_paths (paths d)) →
  ref_name d i = p ↔ pt_path (paths d) i = Some p.
Proof.
  intros Hs Hi. unfold ref_name. rewrite clamp_u16_small by (unfold u16_max in *; lia).
  unfold pt_path, lookupN. rewrite (proj2 (N.ltb_lt _ _)) by done.
  destruct (lookup_lt_is_Some_2 (pt_paths (paths d)) (N.to_nat i)) as [x ->]; [unfold len in Hi; lia|].
  cbn. split; congruence.
Qed.

(** The resolution of a document of file operations. *)
Record file_resolved (d : OpsDoc) (os : list Op) (r : Resolved) : Prop := {
  fr_content : ∀ p, default [] (r_content r !! p) = filter (content_on (paths d) p) os;
  fr_nonempty : ∀ p, r_content r !! p ≠ Some [];
  fr_creates : ∀ p, p ∈ r_creates r ↔ ∃ op, op ∈ os ∧ op_kind op = OpKind.Create ∧ names_path (paths d) p op;
  fr_unlinks : ∀ p, p ∈ r_unlinks r ↔ ∃ op, op ∈ os ∧ op_kind op = OpKind.Unlink ∧ names_path (paths d) p op;
  fr_other : r_specials r = ∅ ∧ r_invalid r = ∅ ∧ r_mkdirs r = ∅ ∧ r_rmdirs r = ∅ ∧ r_modes r = ∅ ∧
    r_symlinks r = ∅ ∧ r_hardlinks r = ∅ ∧ r_renames r = ∅ ∧ r_xattr_sets r = [] ∧ r_xattr_removes r = []
}.

Lemma names_snoc d os op k p :
  (∃ o, o ∈ os ++ [op] ∧ op_kind o = k ∧ names_path (paths d) p o) ↔
  (∃ o, o ∈ os ∧ op_kind o = k ∧ names_path (paths d) p o) ∨ (op_kind op = k ∧ names_path (paths d) p op).
Proof.
  split.
  - intros (o & Hin & Hk & Hn). apply elem_of_app in Hin as [Hin|Hin%list_elem_of_singleton].
    + left. by exists o.
    + right. by subst.
  - intros [(o & Hin & Hk & Hn)|[Hk Hn]]; [exists o|exists op]; rewrite elem_of_app, list_elem_of_singleton; auto.
Qed.

Lemma file_resolved_content d os r op :
  len (pt_paths (paths d)) ≤ u16_max + 1 → op_path op < len (pt_paths (paths d)) →
  is_content (op_kind op) = true → file_resolved d os r →
  file_resolved d (os ++ [op])
    (mkResolved (<[ref_name d (op_path op) := default [] (r_content r !! ref_name d (op_path op)) ++ [op]]>
        (r_content r)) (r_creates r) (r_specials r) (r_invalid r) (r_unlinks r) (r_mkdirs r) (r_rmdirs r)
       (r_modes r) (r_symlinks r) (r_hardlinks r) (r_renames r) (r_xattr_sets r) (r_xattr_removes r)).
Proof.
  intros Hs Hp Hc [Hcon Hne Hcr Hun Hot]. constructor; cbn; [| | | |done].
  - intros p. rewrite filter_app, lookup_insert, <- Hcon. rewrite filter_cons, filter_nil.
    case_decide as E; case_decide as E'.
    + by subst p.
    + destruct E'. split; [done|]. by apply ref_name_path.
    + destruct E. apply ref_name_path; [done..|]. apply E'.
    + by rewrite app_nil_r.
  - intros p. rewrite lookup_insert. case_decide; [|apply Hne]. intros [= E]. by apply app_nil in E as [_ ?].
  - intros p. rewrite Hcr, names_snoc. split; [by left|]. intros [?|[Hk _]]; [done|]. by rewrite Hk in Hc.
  - intros p. rewrite Hun, names_snoc. split; [by left|]. intros [?|[Hk _]]; [done|]. by rewrite Hk in Hc.
Qed.

Lemma resolve_file_ops inc os :
  len (pt_paths (paths (inc_doc inc))) ≤ u16_max + 1 →
  (∀ op, op ∈ os → file_kind (op_kind op) = true ∧ op_path op < len (pt_paths (paths (inc_doc inc)))) →
  file_resolved (inc_doc inc) os (foldl (resolve_op inc) resolved_empty os).
Proof.
  intros Hs. induction os as [|op os IH] using rev_ind; intros Hops.
  { constructor; cbn; try done; intros p; try rewrite lookup_empty; try done; set_solver. }
  destruct (Hops op) as [Hk Hp]; [apply elem_of_app; right; by left|].
  assert (Hr : file_resolved (inc_doc inc) os (foldl (resolve_op inc) resolved_empty os)).
  { apply IH. intros o Ho. apply Hops, elem_of_app. by left. }
  rewrite foldl_app. cbn [foldl]. revert Hr. generalize (foldl (resolve_op inc) resolved_empty os).
  intros r Hr. destruct (is_content (op_kind op)) eqn:Hc.
  { pose proof (file_resolved_content _ _ _ _ Hs Hp Hc Hr) as Hr'. destruct r. unfold resolve_op.
    destruct (op_kind op); done. }
  destruct Hr as [Hcon Hne Hcr Hun Hot]. destruct r as [co cr sp iv un mk rm mo sy ha re xs xr].
  assert (Hf : ∀ p, filter (content_on (paths (inc_doc inc)) p) (os ++ [op])
    = filter (content_on (paths (inc_doc inc)) p) os).
  { intros p. rewrite filter_app, filter_cons_False, filter_nil, app_nil_r; [done|].
    intros [Hc' _]. congruence. }
  unfold file_kind in Hk. rewrite Hc in Hk. unfold resolve_op.
  destruct (op_kind op) eqn:Ek; try done; cbn in *; constructor; cbn; try done;
    intros p; rewrite ?Hf; try apply Hcon; try apply Hne; rewrite ?names_snoc, ?Ek;
    rewrite ?elem_of_union, ?elem_of_singleton, ?Hcr, ?Hun.
  - unfold names_path. rewrite <- ref_name_path by done. intuition congruence.
  - intuition congruence.
  - intuition congruence.
  - unfold names_path. rewrite <- ref_name_path by done. intuition congruence.
Qed.

Lemma resolve_file_doc inc :
  file_doc (inc_doc inc) → file_resolved (inc_doc inc) (ops (inc_doc inc)) (resolve inc).
Proof.
  intros [Hs _ Hops]. pose proof (resolve_file_ops inc (ops (inc_doc inc)) Hs Hops) as Hr.
  unfold resolve. cbv zeta. destruct (foldl (resolve_op inc) resolved_empty (ops (inc_doc inc))) as
    [co cr sp iv un mk rm mo sy ha re xs xr]. destruct Hr as [Hcon Hne Hcr Hun Hot]. cbn in *.
  destruct Hot as (-> & -> & -> & -> & -> & -> & -> & -> & -> & ->).
  constructor; cbn; try done.
Qed.
