(* ===== verification/SealedDoc.v ===== *)
(** * The sealed document of a files-only journal

    [seal] with no namespace emissions: its document's table, the content
    operations it holds for each emitted path, each shifted into the file's
    region of the post-state, and that those operations rebuild the file from
    the files laid out in path order, or from any post-state that holds the
    same bytes where they draw.  Then the document of a plain journal, and
    what it says of each path. *)

From S2P Require Import Prelude Range OpsDoc ByteSplice PosMap Derive Special Origin IncrementDoc Journal Namespace DocOrder Volume History Rejected Identity Green PlainJournal DocFiles.
#[local] Open Scope N_scope.

(** ** Content operations carry path index 0 before they are placed *)
Lemma emit_path0 at_ blen skip l src e op : op ∈ emit at_ blen skip l src e → op_path op = 0.
Proof. unfold emit. repeat split_if; intros Hin; repeat (apply elem_of_cons in Hin as [->|Hin]; [done|]); set_solver. Qed.

Lemma read_loop_path0 fuel blen : ∀ pieces c fo os,
  (∀ op, op ∈ os → op_path op = 0) → ∀ op, op ∈ (read_loop fuel blen pieces c fo os).1 → op_path op = 0.
Proof.
  induction fuel as [|fuel IH]; intros pieces c fo os Hos; [done|].
  destruct pieces as [|piece pieces]; [done|]. cbn [read_loop].
  destruct (gather_new (piece :: pieces) 0) as [run_len rest].
  assert (Hos' : ∀ skip e op, op ∈ os ++ emit c blen skip run_len fo e → op_path op = 0).
  { intros skip e op [?|?]%elem_of_app; [by apply Hos|by eapply emit_path0]. }
  destruct rest as [|s rest]; [apply Hos'|]. apply IH, Hos'.
Qed.

Lemma compose_path0 blen journal op : op ∈ (compose_content_sized blen journal).1 → op_path op = 0.
Proof.
  unfold compose_content_sized, read_out. cbn [fst].
  pose proof (read_loop_path0 (length (compose_pieces blen journal)) blen (compose_pieces blen journal) 0 0 []
    ltac:(set_solver) op) as Hl.
  destruct (read_loop _ _ _ _ _ _) as [os c]. cbn [fst] in Hl. split_if; [|exact Hl].
  intros [?|Hin]%elem_of_app; [by apply Hl|]. by apply list_elem_of_singleton in Hin as ->.
Qed.

(** ** The table *)
Lemma intern_all names : ∀ pre,
  NoDup (pre ++ names) →
  foldl (λ t name, (intern t name).1) (mkPathTable pre) names = mkPathTable (pre ++ names).
Proof.
  induction names as [|n names IH]; intros pre Hnd; cbn [foldl]; [by rewrite app_nil_r|].
  assert (Hn : n ∉ pre) by (apply NoDup_app in Hnd as (_ & Hd & _); intros Hin; by eapply Hd; [|left]).
  unfold intern. cbn [pt_paths]. rewrite position_from_none by done. cbn [fst].
  rewrite IH by (by rewrite <- app_assoc). by rewrite <- app_assoc.
Qed.

Lemma position_from_lookup p l : ∀ i j,
  position_from p l i = Some j → i ≤ j ∧ l !! N.to_nat (j - i) = Some p.
Proof.
  induction l as [|q l IH]; intros i j; cbn [position_from]; [done|].
  case_bool_decide as E; [intros [= <-]; subst; split; [lia|]; by rewrite N.sub_diag|].
  intros Hj. apply IH in Hj as [Hle Hl]. split; [lia|].
  replace (N.to_nat (j - i)) with (S (N.to_nat (j - (i + 1)))) by lia. done.
Qed.

Lemma index_of_name names p :
  len names ≤ u16_max + 1 → p ∈ names →
  index_of names p < len names ∧ pt_path (mkPathTable names) (index_of names p) = Some p.
Proof.
  intros Hl Hin. unfold index_of. destruct (position_from p names 0) as [i|] eqn:E;
    [|by apply position_from_none_inv in E].
  apply position_from_lookup in E as [_ Hi]. rewrite N.sub_0_r in Hi.
  pose proof (lookup_lt_Some _ _ _ Hi) as Hlt. unfold len in *.
  rewrite clamp_u16_small by (unfold u16_max in *; lia). split; [lia|].
  unfold pt_path, lookupN. cbn [pt_paths]. unfold len. by rewrite (proj2 (N.ltb_lt _ _)) by lia.
Qed.

(** ** The operations of the emissions *)
Definition emission_head (index : string → N) (em : Emission) : list Op :=
  match em_source em with
  | Some source => [rename_op (index (em_final_path em)) (index source)]
  | None => if em_created em then [namespace_op OpKind.Create (index (em_final_path em))] else []
  end.
Fixpoint sealed_ops (index : string → N) (ems : list Emission) (off : N) : list Op :=
  match ems with
  | [] => []
  | em :: ems =>
      emission_head index em ++ push_content (em_ops em) (index (em_final_path em)) off
      ++ sealed_ops index ems (sat_add off (em_final_len em))
  end.

Lemma seal_emissions index ems : ∀ os off,
  (foldl (seal_emission index) (os, off) ems).1 = os ++ sealed_ops index ems off.
Proof.
  induction ems as [|em ems IH]; intros os off; cbn [foldl sealed_ops]; [by rewrite app_nil_r|].
  unfold seal_emission at 2. rewrite IH. unfold emission_head. by rewrite <- !app_assoc.
Qed.

(** A path's emission and where its region starts. *)
Fixpoint region_of (ems : list Emission) (p : string) (off : N) : option (Emission * N) :=
  match ems with
  | [] => None
  | em :: ems =>
      if bool_decide (em_final_path em = p) then Some (em, off)
      else region_of ems p (sat_add off (em_final_len em))
  end.

Lemma region_of_elem ems p : ∀ off em o,
  region_of ems p off = Some (em, o) → em ∈ ems ∧ em_final_path em = p.
Proof.
  induction ems as [|e ems IH]; intros off em o; cbn [region_of]; [done|].
  case_bool_decide; [intros [= -> ->]; split; [by left|done]|]. intros Hr. destruct (IH _ _ _ Hr) as [Hin Hp]. split; [by apply elem_of_cons; right|done].
Qed.

Lemma region_of_none ems p : ∀ off, region_of ems p off = None ↔ p ∉ em_final_path <$> ems.
Proof.
  induction ems as [|e ems IH]; intros off; cbn [region_of fmap list_fmap]; [set_solver|].
  case_bool_decide as E; [split; [done|]|rewrite IH]; set_solver.
Qed.

(** ** Content operations of a path among them *)
Section content.
Context (t : PathTable) (index : string → N) (p : string).

Lemma region_op_kind i off op : op_kind (region_op i off op) = op_kind op.
Proof. unfold region_op. cbn. by split_if. Qed.
Lemma region_op_path i off op : op_path (region_op i off op) = i.
Proof. unfold region_op. cbn. by split_if. Qed.
Lemma region_op_strip i off op : strip (region_op i off op) = region_op 0 off op.
Proof. unfold region_op, strip. cbn. by split_if. Qed.

Lemma head_no_content em op : op ∈ emission_head index em → is_content (op_kind op) = false.
Proof.
  unfold emission_head. destruct (em_source em); [|destruct (em_created em)];
    intros Hin; repeat (apply elem_of_cons in Hin as [->|Hin]; [done|]); set_solver.
Qed.

Lemma sealed_content ems : ∀ off,
  NoDup (em_final_path <$> ems) →
  (∀ em, em ∈ ems → ∀ op, op ∈ em_ops em → is_content (op_kind op) = true) →
  (∀ em, em ∈ ems → pt_path t (index (em_final_path em)) = Some (em_final_path em)) →
  map strip (filter (content_on t p) (sealed_ops index ems off)) =
    match region_of ems p off with
    | Some (em, o) => map (region_op 0 o) (em_ops em)
    | None => []
    end.
Proof.
  induction ems as [|em ems IH]; intros off Hnd Hc Hi; [done|]. cbn [sealed_ops region_of].
  inversion_clear Hnd as [|?? Hni Hnd'].
  specialize (IH (sat_add off (em_final_len em)) Hnd' ltac:(intros; eapply Hc; [by right|done])
    ltac:(intros; apply Hi; by right)).
  rewrite !filter_app, (filter_none _ (emission_head index em)), app_nil_l, map_app, IH.
  2: { intros op Hin [Hk _]. apply head_no_content in Hin. congruence. }
  assert (Hat : ∀ op, op ∈ push_content (em_ops em) (index (em_final_path em)) off →
    is_content (op_kind op) = true ∧ pt_path t (op_path op) = Some (em_final_path em)).
  { intros op Hin. apply list_elem_of_fmap in Hin as (op' & -> & Hin).
    rewrite region_op_kind, region_op_path. split; [by apply (Hc em); [left|]|]. apply Hi. by left. }
  case_bool_decide as E.
  - rewrite (proj2 (region_of_none _ _ _)) by (by rewrite <- E). rewrite app_nil_r, filter_all.
    + unfold push_content. rewrite map_map. apply map_ext. intros op. apply region_op_strip.
    + intros op Hin. destruct (Hat op Hin) as [? Hp]. split; [done|]. unfold names_path. by rewrite Hp, E.
  - rewrite filter_none; [done|]. intros op Hin [_ Hp]. destruct (Hat op Hin) as [_ Hp'].
    unfold names_path in Hp. congruence.
Qed.
End content.

(** ** Placing the operations in the post-state *)
Lemma region_op_bytes (post F : bytes) off op plen :
  slice post off (off + len F) = F → off + len F ≤ len post → len post ≤ u64_max →
  (adds_content (op_kind op) = true → op_src op + op_len op ≤ len F) →
  plen = len post →
  op_bytes post (region_op 0 off op) = op_bytes F op ∧
  (adds_content (op_kind op) = true → op_src (region_op 0 off op) + op_len (region_op 0 off op) ≤ plen).
Proof.
  intros Hs Hl Hm Ha ->. unfold op_bytes. rewrite region_op_kind.
  destruct (adds_content (op_kind op)) eqn:Ek; [|done]. specialize (Ha eq_refl).
  assert (E : op_src (region_op 0 off op) = op_src op + off ∧ op_len (region_op 0 off op) = op_len op).
  { unfold region_op. cbn. rewrite Ek. cbn. rewrite sat_add_small by lia. done. }
  destruct E as [-> ->]. split; [|lia]. rewrite <- Hs at 1. rewrite slice_slice by lia.
  f_equal; lia.
Qed.

Lemma region_net blen (post F : bytes) off os : ∀ pos,
  slice post off (off + len F) = F → off + len F ≤ len post → len post ≤ u64_max →
  net_ops blen (len F) pos os →
  net_ops blen (len post) pos (map (region_op 0 off) os) ∧
  ∀ b, len b = blen → emitted b post pos (map (region_op 0 off) os) = emitted b F pos os.
Proof.
  induction os as [|op os IH]; intros pos Hs Hl Hm Hn; [done|]. cbn [map net_ops emitted] in *.
  destruct Hn as (Hc & Hp & Hr & Ht & Ha & Hn). destruct (IH _ Hs Hl Hm Hn) as [IHn IHe].
  destruct (region_op_bytes post F off op _ Hs Hl Hm Ha eq_refl) as [Hb Hsrc].
  assert (E : op_at (region_op 0 off op) = op_at op ∧ op_removed (region_op 0 off op) = op_removed op ∧
    op_len (region_op 0 off op) = op_len op).
  { unfold op_removed. rewrite region_op_kind. unfold region_op. cbn. split_if; done. }
  destruct E as (Ea & Er & El). rewrite region_op_kind, Ea, Er, El in *. split_and!; try done.
  intros b Hb'. by rewrite Hb, IHe.
Qed.

Lemma region_fits blen (post F : bytes) off os :
  slice post off (off + len F) = F → off + len F ≤ len post → len post ≤ u64_max →
  fits_base os blen (len F) = true → fits_base (map (region_op 0 off) os) blen (len post) = true.
Proof.
  intros Hs Hl Hm. unfold fits_base. induction os as [|op os IH]; [done|]. cbn [map forallb].
  rewrite !andb_true_iff. intros [Hop Hos]. split; [|by apply IH]. clear IH Hos.
  unfold op_fits_base in *. rewrite region_op_kind.
  assert (E : op_at (region_op 0 off op) = op_at op ∧ op_len (region_op 0 off op) = op_len op)
    by (unfold region_op; cbn; split_if; done).
  destruct E as [-> ->]. apply andb_true_iff in Hop as [-> Hsrc]. cbn [andb].
  destruct (adds_content (op_kind op)) eqn:Ek; [|done]. cbn [negb orb] in *.
  destruct (checked_add (op_src op) (op_len op)) as [e|] eqn:Ec; [|done].
  apply checked_add_some in Ec as [-> Hle]. bool_to_prop.
  assert (E : op_src (region_op 0 off op) = op_src op + off).
  { unfold region_op. cbn. rewrite Ek. cbn. rewrite sat_add_small by lia. done. }
  rewrite E. unfold checked_add. rewrite !(proj2 (N.leb_le _ _)) by lia. done.
Qed.

(** ** Another post-state *)

(** A canonical list against a longer or shorter post-state that still holds
    what its operations draw. *)
Lemma net_ops_post blen plen plen' os : ∀ pos,
  net_ops blen plen pos os →
  (∀ op, op ∈ os → adds_content (op_kind op) = true → op_src op + op_len op ≤ plen') →
  net_ops blen plen' pos os.
Proof.
  induction os as [|op os IH]; intros pos Hn Hs; [done|]. cbn [net_ops] in *.
  destruct Hn as (Hc & Hp & Hr & Ht & _ & Hn). split_and!; try done; [apply Hs; by left|].
  apply IH; [done|]. intros o Ho. apply Hs. by right.
Qed.

Lemma fits_base_post os blen plen plen' :
  plen' ≤ u64_max → fits_base os blen plen = true →
  (∀ op, op ∈ os → adds_content (op_kind op) = true → op_src op + op_len op ≤ plen') →
  fits_base os blen plen' = true.
Proof.
  intros Hm. unfold fits_base. induction os as [|op os IH]; intros Hf Hs; [done|]. cbn [forallb] in *.
  rewrite andb_true_iff in *. destruct Hf as [Hop Hf]. split.
  - specialize (Hs op ltac:(by left)). unfold op_fits_base in *. apply andb_true_iff in Hop as [-> _].
    destruct (adds_content (op_kind op)); [|done]. specialize (Hs eq_refl). cbn [negb orb andb].
    unfold checked_add. rewrite (proj2 (N.leb_le _ _)) by lia. apply N.leb_le. lia.
  - apply IH; [done|]. intros o Ho. apply Hs. by right.
Qed.

Lemma emitted_ext base post post' os : ∀ pos,
  (∀ op, op ∈ os → op_bytes post op = op_bytes post' op) →
  emitted base post pos os = emitted base post' pos os.
Proof.
  induction os as [|op os IH]; intros pos Hs; [done|]. cbn [emitted]. rewrite Hs by (by left).
  rewrite IH; [done|]. intros o Ho. apply Hs. by right.
Qed.

Lemma len_emitted_ext base post post' os : ∀ pos,
  (∀ op, op ∈ os → len (op_bytes post op) = len (op_bytes post' op)) →
  len (emitted base post pos os) = len (emitted base post' pos os).
Proof.
  induction os as [|op os IH]; intros pos Hs; [done|]. cbn [emitted]. autorewrite with len.
  rewrite Hs by (by left). rewrite (IH (op_at op + op_removed op)); [done|]. intros o Ho. apply Hs. by right.
Qed.

(** ** Operations that stand where they are read

    No operation that adds bytes follows a net change of length: its base
    offset is its offset in the file it leads to. *)
Fixpoint unshifted (shift : Z) (os : list Op) : bool :=
  match os with
  | [] => true
  | op :: r =>
      let added := if adds_content (op_kind op) then op_len op else 0 in
      (negb (adds_content (op_kind op)) || (shift =? 0)%Z)
      && unshifted (shift + Z.of_N added - Z.of_N (op_removed op)) r
  end.

Lemma unshifted_bytes base post F os : ∀ pos pre shift,
  net_ops (len base) (len post) pos os → F = pre ++ emitted base post pos os →
  Z.of_N (len pre) = (Z.of_N pos + shift)%Z → unshifted shift os = true →
  ∀ op, op ∈ os → adds_content (op_kind op) = true →
    op_at op + op_len op ≤ len F ∧ slice F (op_at op) (op_at op + op_len op) = op_bytes post op.
Proof.
  induction os as [|o os IH]; intros pos pre shift Hn HF Hpre Hu op Hop; [by apply elem_of_nil in Hop|].
  pose proof (len_op_bytes _ _ _ _ _ Hn) as Hlen. cbn [net_ops emitted unshifted] in *.
  destruct Hn as (Hc & Hp & Hr & Ht & Hs & Hn). apply andb_true_iff in Hu as [Hu Hu'].
  apply elem_of_cons in Hop as [->|Hop].
  - intros Ha. rewrite Ha in *. cbn [negb orb] in Hu. apply Z.eqb_eq in Hu.
    assert (Hl : len (pre ++ slice base pos (op_at o)) = op_at o) by (autorewrite with len; lia).
    subst F. rewrite app_assoc. split; [autorewrite with len in *; lia|].
    rewrite slice_app_r by lia. rewrite Hl, N.sub_diag, slice_app_l by lia.
    replace (op_at o + op_len o - op_at o) with (len (op_bytes post o)) by lia. apply slice_all.
  - eapply (IH _ (pre ++ slice base pos (op_at o) ++ op_bytes post o)); [exact Hn|by rewrite HF, <- !app_assoc| |exact Hu'|done].
    autorewrite with len. rewrite <- Hlen. lia.
Qed.

(** * The document of a plain journal

    The document [seal] makes for a journal of file operations, read back: the
    paths it creates and unlinks are the classification's, and the content
    operations it holds for a path rebuild that path's final bytes from the
    base and the post-state, the concatenation of the emitted files in path
    order. *)

#[local] Open Scope N_scope.

(** The emissions in the order of their regions. *)
Definition laid_out (ems : list Emission) : list Emission :=
  sort_by (λ a b, String.leb (em_final_path a) (em_final_path b)) ems.

(** The post-state: every emitted file's final bytes, in path order. *)
Definition post_of (fs : gmap string bytes) (ems : list Emission) : bytes :=
  concat (map (λ em, default [] (fs !! em_final_path em)) (laid_out ems)).

(** ** Regions *)
Lemma region_slice (content : Emission → bytes) ems p : ∀ (pre post : bytes) em o,
  (∀ em, em ∈ ems → em_final_len em = len (content em)) →
  post = pre ++ concat (map content ems) → len post ≤ u64_max →
  region_of ems p (len pre) = Some (em, o) →
  slice post o (o + len (content em)) = content em ∧ o + len (content em) ≤ len post.
Proof.
  induction ems as [|e ems IH]; intros pre post em o Hlen Hpost Hmax; cbn [region_of]; [done|].
  cbn [map concat] in Hpost. case_bool_decide as E.
  - intros [= <- <-]. subst post. rewrite slice_app_r, N.sub_diag by lia.
    replace (len pre + len (content e) - len pre) with (len (content e)) by lia.
    rewrite slice_app_l, slice_all by lia. split; [done|]. autorewrite with len. lia.
  - rewrite Hlen by (by left). rewrite sat_add_small.
    2: { subst post. autorewrite with len in Hmax. lia. }
    rewrite <- len_app. intros Hr. eapply IH; [|by rewrite Hpost, app_assoc|done|done].
    intros x Hx. apply Hlen. by right.
Qed.

Definition regions_len (ems : list Emission) : N := foldr (λ em n, em_final_len em + n) 0 ems.

Lemma region_of_bounds ems p : ∀ off em o,
  off + regions_len ems ≤ u64_max → region_of ems p off = Some (em, o) →
  off ≤ o ∧ o + em_final_len em ≤ off + regions_len ems.
Proof.
  unfold regions_len. induction ems as [|e ems IH]; intros off em o Hm; cbn [region_of foldr] in *; [done|].
  case_bool_decide; [intros [= <- <-]; lia|]. rewrite sat_add_small by lia.
  intros Hr%IH; lia.
Qed.

(** The regions of two paths do not meet. *)
Lemma regions_apart ems p q : ∀ off em o em' o',
  p ≠ q → off + regions_len ems ≤ u64_max →
  region_of ems p off = Some (em, o) → region_of ems q off = Some (em', o') →
  o + em_final_len em ≤ o' ∨ o' + em_final_len em' ≤ o.
Proof.
  induction ems as [|e ems IH]; intros off em o em' o' Hne Hm; cbn [region_of] in *; [done|].
  assert (Hm' : sat_add off (em_final_len e) + regions_len ems ≤ u64_max ∧
    sat_add off (em_final_len e) = off + em_final_len e).
  { unfold regions_len in *. cbn [foldr] in Hm. rewrite sat_add_small by lia. lia. }
  destruct Hm' as [Hm' Es]. case_bool_decide; case_bool_decide; [congruence|..].
  - intros [= <- <-] Hr%region_of_bounds; [|done]. lia.
  - intros Hr%region_of_bounds [= <- <-]; [|done]. lia.
  - by apply IH.
Qed.

(** ** Emissions have distinct paths *)
Lemma NoDup_omap_key {A B K} (f : A → option B) (key : B → K) (l : list A) :
  (∀ i j a b x y, l !! i = Some a → l !! j = Some b → f a = Some x → f b = Some y → key x = key y → i = j) →
  NoDup (key <$> omap f l).
Proof.
  induction l as [|a l IH]; intros Hinj; [constructor|]. cbn [omap list_omap].
  assert (IH' : NoDup (key <$> omap f l)).
  { apply IH. intros i j b c x y Hi Hj Hx Hy Hk. enough (S i = S j) by lia. by eapply Hinj. }
  destruct (f a) as [x|] eqn:Ex; [|done]. cbn. constructor; [|done].
  intros (y & Hy & Hin)%list_elem_of_fmap. apply list_elem_of_omap in Hin as (b & Hin & Hb).
  apply list_elem_of_lookup in Hin as [j Hj].
  enough (O = S j) by done. by eapply (Hinj _ _ a b x y).
Qed.

Lemma NoDup_fmap_inj_elem {A K} (key : A → K) (l : list A) x y :
  NoDup (key <$> l) → x ∈ l → y ∈ l → key x = key y → x = y.
Proof.
  intros Hnd (i & Hi)%list_elem_of_lookup (j & Hj)%list_elem_of_lookup Hk.
  assert (i = j) as ->; [|congruence].
  eapply NoDup_lookup; [exact Hnd|..]; rewrite list_lookup_fmap; [by rewrite Hi|by rewrite Hj; cbn; rewrite Hk].
Qed.

Lemma classify_ems es : (classify es).1 = omap emission_of es.
Proof. unfold classify. by rewrite classify_loop. Qed.

Lemma emission_of_path e em : emission_of e = Some em → e_live e = true ∧ em_final_path em = e_final_path e.
Proof.
  unfold emission_of. destruct (e_live e); [|done]. destruct (compose_content_sized _ _) as [os n].
  split_if; [done|]. by intros [= <-].
Qed.

Lemma emissions_distinct B es fs : tracks B es fs → NoDup (em_final_path <$> (classify es).1).
Proof.
  intros HT. rewrite classify_ems. apply NoDup_omap_key. intros i j a b x y Hi Hj Hx Hy Hk.
  apply emission_of_path in Hx as [Hla Hpa], Hy as [Hlb Hpb].
  eapply (t_unique _ _ _ HT i j a b); congruence.
Qed.

(** ** The emissions of plain entities *)
Record plain_emission (B fs : gmap string bytes) (em : Emission) : Prop := {
  pe_exact : ∃ F, fs !! em_final_path em = Some F ∧ emission_exact B em F;
  pe_source : em_source em = None;
  pe_created : em_created em = true → B !! em_final_path em = None;
  pe_edited : em_created em = false → is_Some (B !! em_final_path em) ∧ em_ops em ≠ [];
  pe_path0 : ∀ op, op ∈ em_ops em → op_path op = 0;
  pe_new : em_created em = true → (length (em_ops em) ≤ 1)%nat
}.

Lemma emission_of_shape e em :
  emission_of e = Some em →
  em_created em = bool_decide (e_origin e = None) ∧
  em_ops em = (compose_content_sized (e_base_len e) (e_content e)).1 ∧
  (e_origin e = Some (e_final_path e) → em_ops em ≠ []).
Proof.
  unfold emission_of. destruct (e_live e); [|done]. destruct (compose_content_sized _ _) as [os n].
  split_if; [done|]. intros [= <-]. cbn. split_and!; [done..|]. intros Ho ->.
  rewrite Ho in *. cbn in *. rewrite bool_decide_true in * by done. done.
Qed.

(** A file composed from nothing is one operation at most. *)
Lemma gather_all_new pieces : ∀ n,
  Forall (λ p, ∃ l, p = Piece.New l) pieces → (gather_new pieces n).2 = [].
Proof.
  induction pieces as [|p pieces IH]; intros n Hall; [done|]. inversion_clear Hall as [|?? [l ->] Hall'].
  cbn [gather_new]. by apply IH.
Qed.

Lemma run_nil_new pieces F c c' : run [] c pieces F c' → Forall (λ p, ∃ l, p = Piece.New l) pieces.
Proof.
  induction 1 as [|c a l ps f c' Hl Hc Hr IH|c l d ps f c' Hl Hd Hr IH]; [constructor| |constructor; eauto].
  apply run_bounds in Hr. change (len []) with 0 in Hr. lia.
Qed.

Lemma compose_new content F :
  ran [] content F → (length (compose_content_sized 0 content).1 ≤ 1)%nat.
Proof.
  intros (journal & <- & Hex). destruct (compose_pieces_run _ _ _ Hex) as [Hrun _].
  apply run_nil_new in Hrun. change (len []) with 0 in Hrun. unfold compose_content_sized, read_out. cbn [fst].
  destruct (compose_pieces 0 journal.*1) as [|p pieces]; [by apply Nat.leb_le|].
  pose proof (gather_all_new (p :: pieces) 0 Hrun) as Hg. cbn [length read_loop].
  destruct (gather_new (p :: pieces) 0) as [n rest]. cbn [snd] in Hg. subst rest. cbn [app].
  unfold sat_sub, emit. cbn. destruct (n =? 0); by apply Nat.leb_le.
Qed.

Lemma plain_emissions B Q es fs em :
  tracks B es fs → Forall (plain B Q) es → em ∈ (classify es).1 →
  plain_emission B fs em ∧ Q (em_final_path em).
Proof.
  intros HT Hall. rewrite classify_ems. intros (i & e & Hi & He)%elem_of_omap_entities.
  destruct (emission_of_path _ _ He) as [Hl Hp]. destruct (emission_of_shape _ _ He) as (Hc & Hos & Hne).
  destruct (emission_of_live B es fs i e HT Hi Hl) as (F & HF & Hm). rewrite He in Hm.
  destruct Hm as (_ & Hx & Hs). pose proof (Forall_lookup_1 _ _ _ _ Hall Hi) as Hpl. destruct Hpl as [HQ Hpl].
  split; [|by rewrite Hp]. constructor.
  - exists F. by rewrite Hp.
  - rewrite Hs. case_bool_decide as Eo; [done|]. destruct (e_origin e); [|done].
    destruct Hpl as [-> _]. done.
  - rewrite Hc, Hp, bool_decide_eq_true. by intros Ho; rewrite Ho in Hpl.
  - rewrite Hc, Hp, bool_decide_eq_false. destruct (e_origin e) as [o|]; [|done].
    destruct Hpl as [-> HB]. intros _. split; [done|]. by apply Hne.
  - intros op. rewrite Hos. apply compose_path0.
  - rewrite Hc, bool_decide_eq_true, Hos. intros Ho.
    destruct (t_base _ _ _ HT i e Hi) as [Hb _]. destruct (t_live _ _ _ HT i e Hi Hl) as (G & _ & Hr).
    rewrite Ho in Hb, Hr. rewrite Hb. by eapply compose_new.
Qed.

(** ** Sealing them *)
Definition raw_doc (ems : list Emission) (removed : list string) : OpsDoc :=
  let names := document_names ems removed [] [] [] [] [] in
  mkOpsDoc (mkPathTable names)
    (sealed_ops (index_of names) (laid_out ems) 0
     ++ map (λ origin, namespace_op OpKind.Unlink (index_of names origin)) removed).

Lemma document_names_NoDup ems removed : NoDup (document_names ems removed [] [] [] [] []).
Proof. unfold document_names. rewrite sort_dedup_bt_elems. apply NoDup_bt_elems. Qed.

Lemma seal_files es :
  seal es [] [] [] [] [] = canonicalize (raw_doc (classify es).1 (classify es).2).
Proof.
  unfold seal. destruct (classify es) as [ems removed]. cbv zeta. cbn [fst snd foldl].
  rewrite (intern_all _ []) by apply document_names_NoDup.
  pose proof (seal_emissions (index_of (document_names ems removed [] [] [] [] [])) (laid_out ems) [] 0) as Hs.
  unfold laid_out in Hs at 1.
  destruct (foldl (seal_emission _) ([], 0) _) as [os off]. cbn [fst app] in Hs. subst os.
  unfold raw_doc, emit_namespace. cbv zeta. cbn [map app]. by rewrite !app_nil_r.
Qed.

Lemma sealed_ops_elem index ems op : ∀ off,
  op ∈ sealed_ops index ems off →
  ∃ em, em ∈ ems ∧ (op ∈ emission_head index em ∨
    ∃ o op', op' ∈ em_ops em ∧ op = region_op (index (em_final_path em)) o op').
Proof.
  induction ems as [|em ems IH]; intros off; cbn [sealed_ops]; [set_solver|].
  rewrite !elem_of_app. intros [Hin|[Hin|Hin]].
  - exists em. split; [by left|by left].
  - exists em. split; [by left|]. right. unfold push_content in Hin.
    apply list_elem_of_fmap in Hin as (op' & -> & Hin). eauto.
  - destruct (IH _ Hin) as (em' & Hem & Hop). exists em'. split; [by right|done].
Qed.

Lemma sealed_head_elem index ems em op : ∀ off,
  em ∈ ems → op ∈ emission_head index em → op ∈ sealed_ops index ems off.
Proof.
  induction ems as [|e ems IH]; intros off Hin Hop; cbn [sealed_ops]; [set_solver|].
  rewrite !elem_of_app. apply elem_of_cons in Hin as [->|Hin]; [by left|]. do 2 right. by apply IH.
Qed.

Section sealed.
Context (B fs : gmap string bytes) (ems : list Emission) (removed : list string).
Context (Hdist : NoDup (em_final_path <$> ems)) (Hpl : ∀ em, em ∈ ems → plain_emission B fs em).
Let names := document_names ems removed [] [] [] [] [].
Context (Hsize : len names ≤ u16_max + 1).

Lemma laid_out_elem em : em ∈ laid_out ems ↔ em ∈ ems.
Proof. apply elem_of_sort_by. Qed.
Lemma laid_out_distinct : NoDup (em_final_path <$> laid_out ems).
Proof. unfold laid_out. by rewrite sort_by_perm. Qed.

Lemma elem_of_names p : p ∈ names ↔ (∃ em, em ∈ ems ∧ em_final_path em = p) ∨ p ∈ removed.
Proof.
  unfold names, document_names. cbn [map concat fmap list_fmap].
  rewrite sort_dedup_bt_elems, elem_of_bt_elems, elem_of_list_to_set, !app_nil_r, elem_of_app.
  assert (E : p ∈ concat (map emission_names ems) ↔ ∃ em, em ∈ ems ∧ em_final_path em = p); [|by rewrite E].
  rewrite list_elem_of_In, in_concat. split.
  - intros (l & (em & <- & Hem%list_elem_of_In)%in_map_iff & Hin). exists em. split; [done|].
    unfold emission_names in Hin. rewrite (pe_source _ _ _ (Hpl em Hem)) in Hin. by destruct Hin as [|[]].
  - intros (em & Hem & <-). exists (emission_names em). split; [|by left].
    apply in_map_iff. exists em. by rewrite <- list_elem_of_In.
Qed.

Lemma named_index p : p ∈ names →
  index_of names p < len names ∧ pt_path (mkPathTable names) (index_of names p) = Some p.
Proof. by apply index_of_name. Qed.
Lemma named_path p : p ∈ names → pt_path (mkPathTable names) (index_of names p) = Some p.
Proof. apply named_index. Qed.

Lemma emission_ops_content em op : em ∈ ems → op ∈ em_ops em → is_content (op_kind op) = true.
Proof.
  intros Hem Hop. destruct (pe_exact _ _ _ (Hpl em Hem)) as (F & _ & _ & Hnet & _).
  assert (Hs : op ∈ sort_by op_leb (em_ops em)) by by apply elem_of_sort_by. clear Hop.
  revert Hnet Hs. generalize 0 at 1. induction (sort_by op_leb (em_ops em)) as [|o l IH]; [set_solver|].
  cbn [net_ops]. intros pos (Hc & _ & _ & _ & _ & Hn) [->|Hin]%elem_of_cons; [done|by eapply IH].
Qed.

(** An operation of the raw document: a create, an edit or an unlink of a named path. *)
Lemma raw_op op : op ∈ ops (raw_doc ems removed) →
  (∃ em, em ∈ ems ∧ (
     op = namespace_op OpKind.Create (index_of names (em_final_path em)) ∧ em_created em = true ∨
     op_path op = index_of names (em_final_path em) ∧ is_content (op_kind op) = true)) ∨
  (∃ p, p ∈ removed ∧ op = namespace_op OpKind.Unlink (index_of names p)).
Proof.
  unfold raw_doc. cbv zeta. cbn [ops]. rewrite elem_of_app. intros [Hin|Hin].
  - left. apply sealed_ops_elem in Hin as (em & Hem & Hop). rewrite laid_out_elem in Hem.
    exists em. split; [done|]. destruct Hop as [Hop|(o & op' & Hop & ->)].
    + left. unfold emission_head in Hop. rewrite (pe_source _ _ _ (Hpl em Hem)) in Hop.
      destruct (em_created em); [|set_solver]. apply list_elem_of_singleton in Hop as ->. done.
    + right. rewrite region_op_kind, region_op_path. split; [done|]. by eapply emission_ops_content.
  - right. apply list_elem_of_fmap in Hin as (p & -> & Hin). eauto.
Qed.

Lemma raw_file_doc : file_doc (raw_doc ems removed).
Proof.
  constructor; [done|apply document_names_NoDup|]. intros op Hop. cbn [raw_doc paths pt_paths].
  assert (Hem : ∀ em, em ∈ ems → em_final_path em ∈ names) by (intros; apply elem_of_names; eauto).
  destruct (raw_op op Hop) as [(em & Hin & [[-> _]|[-> Hc]])|(p & Hin & ->)]; cbn.
  - split; [done|]. by apply named_index, Hem.
  - unfold file_kind. rewrite Hc. split; [done|]. by apply named_index, Hem.
  - split; [done|]. apply named_index, elem_of_names. by right.
Qed.

Lemma raw_creates p :
  doc_names (raw_doc ems removed) OpKind.Create p ↔ ∃ em, em ∈ ems ∧ em_final_path em = p ∧ em_created em = true.
Proof.
  unfold doc_names, names_path. cbn [raw_doc paths]. fold names. split.
  - intros (op & Hop & Hk & Hp). destruct (raw_op op Hop) as [(em & Hin & [[-> Hc]|[_ Hc]])|(q & _ & ->)].
    + exists em. cbn in Hp. rewrite named_path in Hp by (apply elem_of_names; eauto).
      split_and!; congruence || done.
    + by rewrite Hk in Hc.
    + done.
  - intros (em & Hin & <- & Hc). exists (namespace_op OpKind.Create (index_of names (em_final_path em))).
    split_and!; [|done|].
    + cbn [raw_doc ops]. fold names. rewrite elem_of_app. left. apply (sealed_head_elem _ _ em).
      * by apply laid_out_elem.
      * unfold emission_head. rewrite (pe_source _ _ _ (Hpl em Hin)), Hc. by left.
    + cbn. apply named_index, elem_of_names. eauto.
Qed.

Lemma raw_unlinks p : doc_names (raw_doc ems removed) OpKind.Unlink p ↔ p ∈ removed.
Proof.
  unfold doc_names, names_path. cbn [raw_doc paths]. fold names. split.
  - intros (op & Hop & Hk & Hp). destruct (raw_op op Hop) as [(em & Hin & [[-> Hc]|[_ Hc]])|(q & Hq & ->)].
    + done.
    + by rewrite Hk in Hc.
    + cbn in Hp. rewrite named_path in Hp by (apply elem_of_names; by right). congruence.
  - intros Hin. exists (namespace_op OpKind.Unlink (index_of names p)). split_and!; [|done|].
    + cbn [raw_doc ops]. fold names. rewrite elem_of_app. right. apply list_elem_of_fmap. eauto.
    + cbn. apply named_index, elem_of_names. by right.
Qed.

Lemma raw_content p :
  doc_content (raw_doc ems removed) p =
    match region_of (laid_out ems) p 0 with
    | Some (em, o) => map (region_op 0 o) (em_ops em)
    | None => []
    end.
Proof.
  unfold doc_content. cbn [raw_doc paths ops]. fold names. rewrite filter_app, map_app.
  rewrite (filter_none _ (map _ removed)), app_nil_r.
  - apply sealed_content; [apply laid_out_distinct|..]; intros em Hem%laid_out_elem.
    + intros op. by apply emission_ops_content.
    + apply named_index, elem_of_names. eauto.
  - intros op Hin [Hc _]. apply list_elem_of_fmap in Hin as (q & -> & _). done.
Qed.

(** ** The canonical document *)
Context (Hmax : len (post_of fs ems) ≤ u64_max).
Context (HB : ∀ p b, B !! p = Some b → len b ≤ u64_max).
Let doc := canonicalize (canonicalize (raw_doc ems removed)).

Lemma doc_file : file_doc doc.
Proof. apply canonicalize_file_doc, canonicalize_file_doc, raw_file_doc. Qed.

Lemma doc_names_raw k p : doc_names doc k p ↔ doc_names (raw_doc ems removed) k p.
Proof.
  unfold doc. rewrite canonicalize_names by apply canonicalize_file_doc, raw_file_doc.
  apply canonicalize_names, raw_file_doc.
Qed.

Lemma doc_content_sorted p : doc_content doc p = sort_by op_leb (doc_content (raw_doc ems removed) p).
Proof.
  unfold doc. rewrite canonicalize_content by apply canonicalize_file_doc, raw_file_doc.
  rewrite canonicalize_content by apply raw_file_doc.
  apply (sort_by_id op_leb), (sort_by_sorted op_leb op_leb_total op_leb_trans).
Qed.

Lemma region_sorted em o : em ∈ ems →
  sort_by op_leb (map (region_op 0 o) (em_ops em)) = map (region_op 0 o) (sort_by op_leb (em_ops em)).
Proof.
  intros Hem. symmetry. apply map_sort_by. intros x y Hx Hy. unfold op_leb.
  rewrite !region_op_kind, !region_op_path.
  assert (E : ∀ z, op_at (region_op 0 o z) = op_at z) by (intros z; unfold region_op; cbn; by split_if).
  rewrite !E, (pe_path0 _ _ _ (Hpl em Hem) x Hx), (pe_path0 _ _ _ (Hpl em Hem) y Hy). done.
Qed.

(** A path's content operations draw on its region and rebuild its file from
    the files laid out. *)
Record content_exact (p : string) (em : Emission) (o : N) (F : bytes) : Prop := {
  ce_file : fs !! p = Some F;
  ce_len : em_final_len em = len F;
  ce_fits : o + len F ≤ len (post_of fs ems);
  ce_region : ∀ op, op ∈ doc_content doc p → adds_content (op_kind op) = true →
    o ≤ op_src op ∧ op_src op + op_len op ≤ o + len F;
  ce_net : net_ops (len (sealed_base B em)) (len (post_of fs ems)) 0 (doc_content doc p);
  ce_emitted : emitted (sealed_base B em) (post_of fs ems) 0 (doc_content doc p) = F;
  ce_base : fits_base (doc_content doc p) (len (sealed_base B em)) (len (post_of fs ems)) = true;
  ce_edited : em_created em = false → doc_content doc p ≠ [];
  ce_new : em_created em = true → (length (doc_content doc p) ≤ 1)%nat
}.

Lemma sealed_base_len em : len (sealed_base B em) ≤ u64_max.
Proof.
  unfold sealed_base. split_if; [vm_compute; discriminate|].
  destruct (B !! _) eqn:E; [by eapply HB|vm_compute; discriminate].
Qed.

Lemma net_ops_drawn blen plen os : ∀ pos op,
  net_ops blen plen pos os → op ∈ os → adds_content (op_kind op) = true → op_src op + op_len op ≤ plen.
Proof.
  induction os as [|o os IH]; intros pos op Hn Hop; [by apply elem_of_nil in Hop|]. cbn [net_ops] in Hn.
  destruct Hn as (_ & _ & _ & _ & Hs & Hn). apply elem_of_cons in Hop as [->|Hop]; [done|by eapply IH].
Qed.

Lemma region_op_src i off op :
  adds_content (op_kind op) = true → op_src op + off ≤ u64_max →
  op_src (region_op i off op) = op_src op + off ∧ op_len (region_op i off op) = op_len op.
Proof. intros Ha Hm. unfold region_op. cbn. rewrite Ha. cbn. by rewrite sat_add_small by lia. Qed.

Lemma doc_content_emitted p em o :
  region_of (laid_out ems) p 0 = Some (em, o) → ∃ F, content_exact p em o F.
Proof.
  intros Hr. destruct (region_of_elem _ _ _ _ _ Hr) as [Hem%laid_out_elem Hp].
  destruct (pe_exact _ _ _ (Hpl em Hem)) as (F & HF & Hlen & Hnet & Hfit & Happ). rewrite Hp in HF.
  destruct (region_slice (λ em, default [] (fs !! em_final_path em)) (laid_out ems) p [] (post_of fs ems) em o)
    as [Hslice Hle]; [|done|done|done|].
  { intros x Hx%laid_out_elem. destruct (pe_exact _ _ _ (Hpl x Hx)) as (G & HG & HGl & _). by rewrite HG. }
  cbn beta in Hslice, Hle. rewrite Hp, HF in Hslice, Hle. unfold default, id in Hslice, Hle.
  pose proof (sealed_base_len em) as Hbase.
  destruct (region_net (len (sealed_base B em)) (post_of fs ems) F o _ 0 Hslice Hle Hmax Hnet) as [Hnet' Hem'].
  assert (Ec : doc_content doc p = map (region_op 0 o) (sort_by op_leb (em_ops em)))
    by (by rewrite doc_content_sorted, raw_content, Hr, region_sorted).
  exists F. constructor; rewrite ?Ec; try done.
  - intros op (op' & -> & Hop)%list_elem_of_fmap Ha. rewrite region_op_kind in Ha.
    pose proof (net_ops_drawn _ _ _ _ _ Hnet Hop Ha). destruct (region_op_src 0 o op' Ha) as [-> ->]; lia.
  - rewrite Hem' by done. rewrite <- Happ at 2. by rewrite apply_emitted by (done || unfold usize_max; lia).
  - by apply (region_fits _ _ F).
  - intros Hc E. apply map_eq_nil in E.
    destruct (pe_edited _ _ _ (Hpl em Hem) Hc) as [_ Hne]. apply Hne.
    apply Permutation_nil. rewrite <- E. apply sort_by_perm.
  - intros Hc. rewrite length_map, sort_by_perm. by apply (pe_new _ _ _ (Hpl em Hem)).
Qed.

Lemma laid_out_len : regions_len (laid_out ems) = len (post_of fs ems).
Proof.
  assert (E : ∀ l, (∀ em, em ∈ l → em ∈ ems) →
    regions_len l = len (concat (map (λ em, default [] (fs !! em_final_path em)) l))).
  { induction l as [|em l IH]; intros Hl; [done|]. unfold regions_len in *. cbn [foldr map concat].
    rewrite len_app, IH by (intros; apply Hl; by right). f_equal.
    destruct (pe_exact _ _ _ (Hpl em ltac:(apply Hl; by left))) as (F & HF & Hlen & _). by rewrite HF. }
  apply E. intros em. by rewrite laid_out_elem.
Qed.

Lemma doc_content_none p : region_of (laid_out ems) p 0 = None → doc_content doc p = [].
Proof. intros Hr. by rewrite doc_content_sorted, raw_content, Hr. Qed.

Lemma region_emission p :
  match emission_at ems p with
  | Some em => ∃ o, region_of (laid_out ems) p 0 = Some (em, o)
  | None => region_of (laid_out ems) p 0 = None
  end.
Proof.
  destruct (emission_at ems p) as [em|] eqn:E.
  - apply emission_at_some in E as [Hem Hp].
    destruct (region_of (laid_out ems) p 0) as [[em' o]|] eqn:Er.
    + destruct (region_of_elem _ _ _ _ _ Er) as [Hem'%laid_out_elem Hp'].
      exists o. do 2 f_equal. eapply (NoDup_fmap_inj_elem em_final_path); eauto. congruence.
    + apply region_of_none in Er. destruct Er. apply list_elem_of_fmap. exists em. by rewrite laid_out_elem.
  - apply region_of_none. intros (em & -> & Hem%laid_out_elem)%list_elem_of_fmap.
    by eapply emission_at_none.
Qed.
End sealed.
