(* ===== verification/Work.v ===== *)
(** * A work volume

    Models what a shard keeps of an agent's work volume and how it seals the
    work into an increment: [crates/server/src/work_files.rs] ([WorkFiles] as
    a delta over its base), [crates/server/src/work_log.rs] ([LoggedOp],
    [WorkLogEntry], [edit_ops], [apply_edit], [apply_declare], [replay]) and,
    of [crates/server/src/verbs.rs], [declared_xattr], [assemble_post_state]
    and [build_increment].  The entries of a log are taken decoded (the wire
    codec is not modelled), and the memory a work is charged is not counted. *)

From S2P Require Import Prelude Range OpsDoc ByteSplice PosMap Derive Special Origin Journal Namespace.
From S2P Require Import DocOrder Volume IncrementDoc History Rejected Identity Green GreenOps PlainJournal.
#[local] Open Scope N_scope.

(** ** The files of a work *)

(** [BaseGone], [Base]: the green, when it still exists, and the version. *)
Inductive BaseGone := base_gone.
Record WorkBase := mkWorkBase { wb_green : option Green; wb_version : N }.

(** [WorkFiles]: per path the bytes, or [None] for a removed file of the base. *)
Notation WorkFiles := (gmap string (option bytes)).

(** [Base::file]. *)
Definition base_file (base : WorkBase) (path : string) : result BaseGone (option bytes) :=
  match wb_green base with
  | Some green => Ok (content_at (g_state green) path (wb_version base))
  | None => Err base_gone
  end.

(** [WorkFiles::get]. *)
Definition work_get (files : WorkFiles) (base : WorkBase) (path : string) : result BaseGone (option bytes) :=
  match files !! path with
  | Some entry => Ok entry
  | None => base_file base path
  end.

(** [WorkFiles::files]. *)
Definition seen_entry (files : gmap string bytes) (e : string * option bytes) : gmap string bytes :=
  match e.2 with
  | Some bs => <[e.1 := bs]> files
  | None => delete e.1 files
  end.
Definition work_files (files : WorkFiles) (base : WorkBase) : list (string * bytes) :=
  let start :=
    match wb_green base with
    | Some green => bt_collect (files_at (g_state green) (wb_version base))
    | None => ∅
    end in
  bt_list (foldl seen_entry start (bt_list files)).

(** [WorkFiles::splice]. *)
Definition work_splice (files : WorkFiles) (base : WorkBase) (path : string) (at_ delete_len : N)
    (bs : bytes) : result BaseGone WorkFiles :=
  files ←
    match files !! path with
    | Some _ => Ok files
    | None => from_base ← base_file base path; Ok (<[path := from_base]> files)
    end;
  let content := default [] (default None (files !! path)) in
  let start := N.min at_ (len content) in
  let del := N.min delete_len (sat_sub (len content) start) in
  Ok (<[path := Some (takeN start content ++ bs ++ dropN (sat_add start del) content)]> files).

(** [WorkFiles::removal], [WorkFiles::remove_as]. *)
Definition removal (files : WorkFiles) (base : WorkBase) (path : string) : result BaseGone (option bool) :=
  seen ← work_get files base path;
  match seen with
  | None => Ok None
  | Some _ =>
      Ok (Some (match base_file base path with Ok file => bool_decide (is_Some file) | Err _ => true end))
  end.
Definition remove_as (files : WorkFiles) (path : string) (removal : option bool) : WorkFiles :=
  match removal with
  | None => files
  | Some true => <[path := None]> files
  | Some false => delete path files
  end.

(** [WorkFiles::declare]. *)
Definition work_declare (files : WorkFiles) (base : WorkBase) (op : VolumeOp.t) : result BaseGone WorkFiles :=
  match op with
  | VolumeOp.Unlink path => r ← removal files base path; Ok (remove_as files path r)
  | VolumeOp.Rename from to =>
      if bool_decide (from = to) then Ok files else
      seen ← work_get files base from;
      match seen with
      | None => Ok files
      | Some bs =>
          r ← removal files base from;
          Ok (<[to := Some bs]> (remove_as files from r))
      end
  | _ => Ok files
  end.

(** ** The log *)

(** [LoggedOp]: a journal operation, an IPC node as its encoding. *)
Module LoggedOp.
Inductive t :=
| Overwrite (path : string) (at_ len : N)
| Extend (path : string) (at_ len : N)
| Truncate (path : string) (len : N)
| Insert (path : string) (at_ len : N)
| Delete (path : string) (at_ len : N)
| Create (path : string)
| Mknod (path : string) (node : bytes) (mode : N)
| Unlink (path : string)
| Rename (from to : string)
| Mkdir (path : string)
| Rmdir (path : string)
| SetMode (path : string) (mode : N)
| Symlink (path target : string)
| SetXattr (path name : string) (value : bytes)
| RemoveXattr (path name : string)
| Link (path target : string).
End LoggedOp.

Inductive ReplayError := Undecodable | BadNode | ReplayBaseGone.

(** [LoggedOp::of], [LoggedOp::op]. *)
Definition logged_of (op : VolumeOp.t) : LoggedOp.t :=
  match op with
  | VolumeOp.Overwrite p a l => LoggedOp.Overwrite p a l
  | VolumeOp.Extend p a l => LoggedOp.Extend p a l
  | VolumeOp.Truncate p l => LoggedOp.Truncate p l
  | VolumeOp.Insert p a l => LoggedOp.Insert p a l
  | VolumeOp.Delete p a l => LoggedOp.Delete p a l
  | VolumeOp.Create p => LoggedOp.Create p
  | VolumeOp.Mknod p node mode => LoggedOp.Mknod p (node_encode node) mode
  | VolumeOp.Unlink p => LoggedOp.Unlink p
  | VolumeOp.Rename from to => LoggedOp.Rename from to
  | VolumeOp.Mkdir p => LoggedOp.Mkdir p
  | VolumeOp.Rmdir p => LoggedOp.Rmdir p
  | VolumeOp.SetMode p mode => LoggedOp.SetMode p mode
  | VolumeOp.Symlink p target => LoggedOp.Symlink p target
  | VolumeOp.SetXattr p name value => LoggedOp.SetXattr p name value
  | VolumeOp.RemoveXattr p name => LoggedOp.RemoveXattr p name
  | VolumeOp.Link p target => LoggedOp.Link p target
  end.
Definition logged_op (op : LoggedOp.t) : result ReplayError VolumeOp.t :=
  match op with
  | LoggedOp.Overwrite p a l => Ok (VolumeOp.Overwrite p a l)
  | LoggedOp.Extend p a l => Ok (VolumeOp.Extend p a l)
  | LoggedOp.Truncate p l => Ok (VolumeOp.Truncate p l)
  | LoggedOp.Insert p a l => Ok (VolumeOp.Insert p a l)
  | LoggedOp.Delete p a l => Ok (VolumeOp.Delete p a l)
  | LoggedOp.Create p => Ok (VolumeOp.Create p)
  | LoggedOp.Mknod p node mode =>
      match node_decode node with
      | Ok node => Ok (VolumeOp.Mknod p node mode)
      | Err _ => Err BadNode
      end
  | LoggedOp.Unlink p => Ok (VolumeOp.Unlink p)
  | LoggedOp.Rename from to => Ok (VolumeOp.Rename from to)
  | LoggedOp.Mkdir p => Ok (VolumeOp.Mkdir p)
  | LoggedOp.Rmdir p => Ok (VolumeOp.Rmdir p)
  | LoggedOp.SetMode p mode => Ok (VolumeOp.SetMode p mode)
  | LoggedOp.Symlink p target => Ok (VolumeOp.Symlink p target)
  | LoggedOp.SetXattr p name value => Ok (VolumeOp.SetXattr p name value)
  | LoggedOp.RemoveXattr p name => Ok (VolumeOp.RemoveXattr p name)
  | LoggedOp.Link p target => Ok (VolumeOp.Link p target)
  end.

(** [OwnFile], [WorkLogEntry]. *)
Record OwnFile := mkOwnFile { own_path : string; own_bytes : option bytes }.
Inductive WorkLogEntry :=
| EditEntry (path : string) (at_ delete_len : N) (bs : bytes)
| DeclaredEntry (op : LoggedOp.t)
| RestatedEntry (base : N) (files : list OwnFile) (journal : list LoggedOp.t).

(** [edit_ops]: the operations an edit of [path] declares. *)
Definition edit_ops (path : string) (old : option bytes) (at_ delete_len inserted : N) : list VolumeOp.t :=
  let old_len := match old with Some bs => len bs | None => 0 end in
  (if bool_decide (old = None) then [VolumeOp.Create path] else [])
  ++ (if 0 <? delete_len then [VolumeOp.Delete path at_ delete_len] else [])
  ++ (if 0 <? inserted then
        [if old_len <=? at_ then VolumeOp.Extend path at_ inserted else VolumeOp.Insert path at_ inserted]
      else []).

(** What the verbs change and [replay] rebuilds: the version, the files, the journal. *)
Record WorkParts := mkWorkParts { wp_version : N; wp_files : WorkFiles; wp_journal : list VolumeOp.t }.

(** [apply_edit], [apply_declare]. *)
Definition apply_edit (w : WorkParts) (base : WorkBase) (path : string) (at_ delete_len : N) (bs : bytes)
    (os : list VolumeOp.t) : result BaseGone WorkParts :=
  files ← work_splice (wp_files w) base path at_ delete_len bs;
  Ok (mkWorkParts (wp_version w) files (wp_journal w ++ os)).
Definition apply_declare (w : WorkParts) (base : WorkBase) (op : VolumeOp.t) : result BaseGone WorkParts :=
  files ← work_declare (wp_files w) base op;
  Ok (mkWorkParts (wp_version w) files (wp_journal w ++ [op])).

(** [From<BaseGone> for ReplayError], at a [?]. *)
Definition replay_err {A} (r : result BaseGone A) : result ReplayError A :=
  match r with Ok a => Ok a | Err _ => Err ReplayBaseGone end.

(** One entry of [replay]'s loop, and the loop. *)
Definition replay_entry (green : option Green) (w : WorkParts) (entry : WorkLogEntry) :
    result ReplayError WorkParts :=
  let base := mkWorkBase green (wp_version w) in
  match entry with
  | RestatedEntry restated own logged =>
      journal ← fold_result (λ js op, o ← logged_op op; Ok (js ++ [o])) [] logged;
      Ok (mkWorkParts restated (bt_collect (map (λ f, (own_path f, own_bytes f)) own)) journal)
  | EditEntry path at_ delete_len bs =>
      old ← replay_err (work_get (wp_files w) base path);
      replay_err (apply_edit w base path at_ delete_len bs (edit_ops path old at_ delete_len (len bs)))
  | DeclaredEntry op =>
      o ← logged_op op;
      replay_err (apply_declare w base o)
  end.
Definition replay_log (green : option Green) (created_at : N) (entries : list WorkLogEntry) :
    result ReplayError WorkParts :=
  fold_result (replay_entry green) (mkWorkParts created_at ∅ []) entries.

(** ** Sealing a work into an increment *)

(** [Iterator::find_map]. *)
Definition find_map {A B} (f : A → option B) (l : list A) : option B :=
  match omap f l with x :: _ => Some x | [] => None end.

(** [declared_xattr]: the last value the journal sets. *)
Definition declared_xattr (journal : list VolumeOp.t) (path name : string) : option bytes :=
  find_map (λ op,
    match op with
    | VolumeOp.SetXattr p n value => if bool_decide (p = path ∧ n = name) then Some value else None
    | _ => None
    end) (rev journal).

(** The last node the journal declares at a path. *)
Definition declared_node (journal : list VolumeOp.t) (path : string) : option SpecialNode :=
  find_map (λ op,
    match op with
    | VolumeOp.Mknod p node _ => if bool_decide (p = path) then Some node else None
    | _ => None
    end) (rev journal).

(** Whether an operation draws on the post-state. *)
Definition draws_post (kind : OpKind.t) : bool :=
  adds_content kind || match kind with OpKind.SetXattr | OpKind.Mknod => true | _ => false end.

(** The first loop of [assemble_post_state]: the size. *)
Definition post_size (os : list Op) : N :=
  foldl (λ size op,
    if negb (op_src op =? u64_max) && draws_post (op_kind op)
    then N.max size (sat_add (op_src op) (op_len op)) else size) 0 os.

(** The bytes an operation contributes and the offset into them. *)
Definition post_source (doc : OpsDoc) (files : WorkFiles) (base : WorkBase) (journal : list VolumeOp.t)
    (op : Op) : option (bytes * N) :=
  path ← pt_path (paths doc) (op_path op);
  if adds_content (op_kind op) then
    match work_get files base path with
    | Ok (Some file) => Some (file, op_at op)
    | _ => None
    end
  else match op_kind op with
  | OpKind.Mknod => node ← declared_node journal path; Some (node_encode node, 0)
  | OpKind.SetXattr =>
      if op_at op <=? u16_max then
        name ← pt_path (paths doc) (op_at op);
        value ← declared_xattr journal path name;
        Some (value, 0)
      else None
  | _ => None
  end.

(** The copy of one operation: both ranges must exist.  They have one length,
    as the post-state and the source are shorter than a word's largest value. *)
Definition copy_span (post : bytes) (dst : N) (source : bytes) (from l : N) : bytes :=
  match get_range post dst (sat_add dst l), get_range source from (sat_add from l) with
  | Some _, Some data => takeN dst post ++ data ++ dropN (sat_add dst l) post
  | _, _ => post
  end.
Definition assemble_op (doc : OpsDoc) (files : WorkFiles) (base : WorkBase) (journal : list VolumeOp.t)
    (post : bytes) (op : Op) : bytes :=
  if op_src op =? u64_max then post else
  match post_source doc files base journal op with
  | Some (source, source_at) => copy_span post (op_src op) source source_at (op_len op)
  | None => post
  end.

(** [assemble_post_state]. *)
Definition assemble_post_state (doc : OpsDoc) (files : WorkFiles) (base : WorkBase)
    (journal : list VolumeOp.t) : bytes :=
  foldl (assemble_op doc files base journal) (replicate (N.to_nat (post_size (ops doc))) (byte_of 0)) (ops doc).

(** [WorkState] without its revision and charge; the works and greens of a
    shard, by volume id. *)
Record WorkState := mkWorkState {
  w_green : bytes;
  w_base_version : N;
  w_journal : list VolumeOp.t;
  w_files : WorkFiles
}.
Record Shard := mkShard { works : gmap bytes WorkState; greens : gmap bytes Green }.

(** A work as its log rebuilds it. *)
Definition work_of (green_id : bytes) (parts : WorkParts) : WorkState :=
  mkWorkState green_id (wp_version parts) (wp_journal parts) (wp_files parts).

Inductive Refusal :=
| NotFound
| UnknownBase (green : bytes) (version : N)
| BadRequest (e : DeriveError.t).

(** [build_increment].  The plain BLAKE3 hash is a parameter. *)
Definition build_increment (hash : bytes → bytes) (state : Shard) (work_id : bytes) (evidence : list bytes) :
    result Refusal (bytes * Increment) :=
  w ← ok_or (works state !! work_id) NotFound;
  let green_id := w_green w in
  let base_version := w_base_version w in
  engine ← ok_or
    (engine ← greens state !! green_id; if base_version <=? head (g_state engine) then Some engine else None)
    (UnknownBase green_id base_version);
  let base := base_for (g_state engine) base_version (w_journal w) in
  match compose_volume base (w_journal w) with
  | Err e => Err (BadRequest e)
  | Ok doc =>
      let post := assemble_post_state doc (w_files w) (mkWorkBase (Some engine) base_version) (w_journal w) in
      Ok (green_id,
          mkIncrement (hash (work_id ++ le_bytes 8 base_version ++ encode doc ++ post)) base_version doc post
            evidence)
  end.

(** The log's form of an operation reads back as the operation. *)
Lemma logged_round_trip op :
  (∀ p node mode, op = VolumeOp.Mknod p node mode → node_wf node) → logged_op (logged_of op) = Ok op.
Proof.
  destruct op; try done. intros Hn. cbn [logged_of logged_op]. by rewrite (node_decode_encode _ (Hn _ _ _ eq_refl)).
Qed.

(** * What a work's log does to its files *)

(** The file at [path] as a work on [g] sees it. *)
Definition seen (g : Green) (w : WorkParts) (path : string) : option bytes :=
  match work_get (wp_files w) (mkWorkBase (Some g) (wp_version w)) path with Ok f => f | Err _ => None end.

(** An entry within the files it finds: an edit inside its file (a new file
    from its start), an unlink of a file, a rename of a file the base has not.
    It names no directory, link or IPC name of the head. *)
Definition in_range (g : Green) (w : WorkParts) (entry : WorkLogEntry) : Prop :=
  let free p := occupied_by_nonfile (g_state g) p = false in
  match entry with
  | EditEntry path at_ delete_len bs =>
      let f := default [] (seen g w path) in
      free path ∧ at_ + delete_len ≤ len f ∧ len f + len bs ≤ u64_max
  | DeclaredEntry op =>
      match logged_op op with
      | Ok (VolumeOp.Unlink path) => free path ∧ is_Some (seen g w path)
      | Ok (VolumeOp.Rename from to) =>
          free from ∧ free to ∧ is_Some (seen g w from) ∧ content_at (g_state g) from (wp_version w) = None
      | _ => False
      end
  | RestatedEntry _ _ _ => False
  end.
Fixpoint log_in_range (g : Green) (w : WorkParts) (log : list WorkLogEntry) : Prop :=
  match log with
  | [] => True
  | entry :: log =>
      in_range g w entry ∧
      match replay_entry (Some g) w entry with Ok w' => log_in_range g w' log | Err _ => False end
  end.

Lemma seen_at g w path :
  seen g w path =
    match wp_files w !! path with
    | Some entry => entry
    | None => content_at (g_state g) path (wp_version w)
    end.
Proof. unfold seen, work_get, base_file. cbn. by destruct (wp_files w !! path). Qed.

Lemma get_seen g w path : work_get (wp_files w) (mkWorkBase (Some g) (wp_version w)) path = Ok (seen g w path).
Proof. unfold seen, work_get, base_file. cbn. by destruct (wp_files w !! path). Qed.

(** ** The file operations of an edit *)
Lemma fs_run_app fs j1 fs1 j2 fs2 : fs_run fs j1 fs1 → fs_run fs1 j2 fs2 → fs_run fs (j1 ++ j2) fs2.
Proof. induction 1; [done|]. intros. eapply fs_run_cons; eauto. Qed.

Lemma fs_run_one fs op data fs' : fs_step fs op data fs' → fs_run fs [(op, data)] fs'.
Proof. intros Hs. eapply fs_run_cons; [done|]. apply fs_run_nil. Qed.

Lemma edit_runs fs path at_ delete_len bs (f := default [] (fs !! path)) :
  at_ + delete_len ≤ len f → len f + len bs ≤ u64_max →
  ∃ journal, journal.*1 = edit_ops path (fs !! path) at_ delete_len (len bs) ∧
    fs_run fs journal (<[path := takeN at_ f ++ bs ++ dropN (at_ + delete_len) f]> fs).
Proof.
  intros Hin Hmax. unfold edit_ops.
  set (g := takeN at_ f ++ dropN (at_ + delete_len) f).
  assert (Hg : len g = len f - delete_len) by (unfold g; autorewrite with len; lia).
  assert (H1 : ∃ j, j.*1 = (if bool_decide (fs !! path = None) then [VolumeOp.Create path] else []) ∧
    fs_run fs j (<[path := f]> fs)).
  { case_bool_decide as E.
    - exists [(VolumeOp.Create path, [])]. split; [done|]. unfold f. rewrite E. by apply fs_run_one, fs_create.
    - exists []. split; [done|]. unfold f. destruct (fs !! path) as [x|] eqn:Ex; [|done]. cbn.
      rewrite insert_id by done. apply fs_run_nil. }
  assert (H2 : ∃ j, j.*1 = (if 0 <? delete_len then [VolumeOp.Delete path at_ delete_len] else []) ∧
    fs_run (<[path := f]> fs) j (<[path := g]> fs)).
  { split_if; bool_to_prop.
    - exists [(VolumeOp.Delete path at_ delete_len, [])]. split; [done|].
      rewrite <- (insert_insert_eq fs path g f). apply fs_run_one.
      apply (fs_content _ _ (ContentOp.Delete at_ delete_len) path f []); [done|done|apply lookup_insert_eq|done|].
      cbn [exec_op]. fold g. lia.
    - exists []. split; [done|]. unfold g. replace (at_ + delete_len) with at_ by lia. rewrite takeN_dropN.
      apply fs_run_nil. }
  assert (H3 : ∃ j, j.*1 = (if 0 <? len bs then
        [if match fs !! path with Some b => len b | None => 0 end <=? at_
         then VolumeOp.Extend path at_ (len bs) else VolumeOp.Insert path at_ (len bs)] else []) ∧
    fs_run (<[path := g]> fs) j (<[path := takeN at_ f ++ bs ++ dropN (at_ + delete_len) f]> fs)).
  { assert (Hf : match fs !! path with Some b => len b | None => 0 end = len f) by (unfold f; by destruct (fs !! path)).
    rewrite Hf. assert (Hx : takeN at_ g ++ bs ++ dropN at_ g = takeN at_ f ++ bs ++ dropN (at_ + delete_len) f).
    { assert (Ht : len (takeN at_ f) = at_) by (autorewrite with len; lia).
      unfold g. rewrite takeN_app_eq, dropN_app_eq by done. done. }
    assert (Hm : len (takeN at_ f ++ bs ++ dropN (at_ + delete_len) f) ≤ u64_max) by (autorewrite with len; lia).
    split_if; bool_to_prop.
    - rewrite <- Hx, <- (insert_insert_eq fs path (takeN at_ g ++ bs ++ dropN at_ g) g). eexists [(_, bs)].
      split; [reflexivity|]. apply fs_run_one.
      split_if; bool_to_prop.
      + apply (fs_content _ _ (ContentOp.Extend at_ (len bs)) path g bs); [done|done|apply lookup_insert_eq| |].
        * split; [cbn; lia|done].
        * cbn [exec_op]. by rewrite Hx.
      + apply (fs_content _ _ (ContentOp.Insert at_ (len bs)) path g bs); [done|done|apply lookup_insert_eq| |].
        * split; [cbn; lia|done].
        * cbn [exec_op]. by rewrite Hx.
    - exists []. split; [done|]. rewrite (len_0_nil bs), app_nil_l by lia. fold g. apply fs_run_nil. }
  destruct H1 as (j1 & <- & H1), H2 as (j2 & <- & H2), H3 as (j3 & <- & H3).
  exists (j1 ++ j2 ++ j3). rewrite !fmap_app. split; [done|]. by repeat (eapply fs_run_app; [done|]).
Qed.

(** ** One entry *)
Lemma seen_splice g w path at_ delete_len bs files (f := default [] (seen g w path)) :
  at_ + delete_len ≤ len f → len f ≤ u64_max →
  work_splice (wp_files w) (mkWorkBase (Some g) (wp_version w)) path at_ delete_len bs = Ok files →
  ∀ journal p, seen g (mkWorkParts (wp_version w) files journal) p =
    if base.decide (p = path) then Some (takeN at_ f ++ bs ++ dropN (at_ + delete_len) f) else seen g w p.
Proof.
  intros Hin Hmax Hs journal p. rewrite !seen_at. cbn [wp_files wp_version].
  assert (E : ∃ entry, files = <[path := Some (takeN at_ f ++ bs ++ dropN (at_ + delete_len) f)]>
    (<[path := entry]> (wp_files w))).
  { unfold work_splice, base_file in Hs. cbn [wb_green] in Hs.
    assert (Hf : f = default [] (default None (Some (seen g w path)))) by done. rewrite seen_at in Hf.
    destruct (wp_files w !! path) as [entry|] eqn:Ee; cbn [mbind result_bind] in Hs.
    - exists entry. rewrite (insert_id _ path entry) by done. rewrite Ee in Hs. cbn [default from_option] in *.
      unfold id in *. rewrite <- Hf in Hs. injection Hs as <-. rewrite N.min_l by lia.
      unfold sat_sub. rewrite N.min_l, sat_add_small by lia. done.
    - exists (content_at (g_state g) path (wp_version w)). rewrite lookup_insert_eq in Hs.
      cbn [default from_option wb_version] in *. unfold id in *. rewrite <- Hf in Hs. injection Hs as <-.
      rewrite N.min_l by lia. unfold sat_sub. rewrite N.min_l, sat_add_small by lia. done. }
  destruct E as [entry ->]. case_decide as Ep; [subst; by rewrite lookup_insert_eq|].
  by rewrite !lookup_insert_ne by done.
Qed.

Lemma splice_ok g w path at_ delete_len bs :
  ∃ files, work_splice (wp_files w) (mkWorkBase (Some g) (wp_version w)) path at_ delete_len bs = Ok files.
Proof. unfold work_splice, base_file. cbn. destruct (wp_files w !! path); cbn; eauto. Qed.

(** Removing a file hides it and nothing else. *)
Lemma seen_removed g w path r :
  is_Some (seen g w path) →
  removal (wp_files w) (mkWorkBase (Some g) (wp_version w)) path = Ok r →
  ∀ journal p, seen g (mkWorkParts (wp_version w) (remove_as (wp_files w) path r) journal) p =
    if base.decide (p = path) then None else seen g w p.
Proof.
  intros [f Hf] Hr journal p. unfold removal in Hr. rewrite get_seen, Hf in Hr. cbn in Hr. injection Hr as <-.
  rewrite !seen_at. cbn [wp_files wp_version]. case_bool_decide as Hb; cbn [remove_as]; case_decide as Ep.
  - subst. by rewrite lookup_insert_eq.
  - by rewrite lookup_insert_ne.
  - subst. rewrite lookup_delete_eq. apply eq_None_not_Some. exact Hb.
  - by rewrite lookup_delete_ne.
Qed.

Lemma removal_ok g w path :
  ∃ r, removal (wp_files w) (mkWorkBase (Some g) (wp_version w)) path = Ok r.
Proof. unfold removal. rewrite get_seen. cbn. destruct (seen g w path); eauto. Qed.

(** What an entry leaves: files as the journal it adds runs them. *)
Record entry_ran (g : Green) (w w' : WorkParts) (fs fs' : gmap string bytes)
    (journal : list (VolumeOp.t * bytes)) : Prop := {
  er_version : wp_version w' = wp_version w;
  er_journal : wp_journal w' = wp_journal w ++ journal.*1;
  er_run : fs_run fs journal fs';
  er_seen : ∀ p, seen g w' p = fs' !! p;
  er_free : ∀ op p, op ∈ journal.*1 → p ∈ names op → occupied_by_nonfile (g_state g) p = false;
  er_plain : ∀ B : gmap string bytes, (∀ p, B !! p = content_at (g_state g) p (wp_version w)) →
    Forall (plain_op B) journal.*1
}.

Lemma edit_ops_names path old at_ delete_len inserted op :
  op ∈ edit_ops path old at_ delete_len inserted → names op = [path] ∧ ∀ B, plain_op B op.
Proof.
  unfold edit_ops. rewrite !elem_of_app. intros [Hin|[Hin|Hin]]; split_if; try (by apply elem_of_nil in Hin);
    apply list_elem_of_singleton in Hin as ->.
  - split; [done|]. intros B. by right.
  - split; [done|]. intros B. left. by eexists.
  - split_if; (split; [done|]); intros B; left; by eexists.
Qed.

Section entry.
Context (g : Green) (w : WorkParts) (fs : gmap string bytes) (Hseen : ∀ p, seen g w p = fs !! p).

Lemma edit_entry_runs path at_ delete_len bs :
  in_range g w (EditEntry path at_ delete_len bs) →
  ∃ w' journal fs', replay_entry (Some g) w (EditEntry path at_ delete_len bs) = Ok w' ∧
    entry_ran g w w' fs fs' journal.
Proof.
  cbn [in_range replay_entry]. intros (Hfree & Hin & Hmax). rewrite get_seen. cbn [replay_err mbind result_bind].
  destruct (splice_ok g w path at_ delete_len bs) as [files Hs]. unfold apply_edit. rewrite Hs. cbn.
  pose proof (seen_splice g w path at_ delete_len bs files Hin ltac:(lia) Hs) as Hsp.
  rewrite Hseen in *. destruct (edit_runs fs path at_ delete_len bs Hin Hmax) as (journal & Hj & Hrun).
  do 3 eexists. split; [reflexivity|].
  constructor; cbn [wp_version wp_journal]; [done|by rewrite <- Hj|exact Hrun| | |].
  - intros p. rewrite Hsp. case_decide as E; [subst; by rewrite lookup_insert_eq|]. by rewrite lookup_insert_ne.
  - intros op p Hop Hp. rewrite Hj in Hop. apply edit_ops_names in Hop as [Hn _]. rewrite Hn in Hp.
    by apply list_elem_of_singleton in Hp as ->.
  - intros B _. apply Forall_forall. intros op Hop. rewrite Hj in Hop. by apply edit_ops_names in Hop as [_ ?].
Qed.

Lemma unlink_runs path :
  occupied_by_nonfile (g_state g) path = false → is_Some (seen g w path) →
  ∃ w' journal fs',
    apply_declare w (mkWorkBase (Some g) (wp_version w)) (VolumeOp.Unlink path) = Ok w' ∧
    entry_ran g w w' fs fs' journal.
Proof.
  intros Hfree Hp. unfold apply_declare. cbn [work_declare].
  destruct (removal_ok g w path) as [r Hrem]. rewrite Hrem. cbn.
  pose proof (seen_removed g w path r Hp Hrem) as Hsr. rewrite Hseen in Hp. destruct Hp as [f Hp].
  do 3 eexists. split; [reflexivity|].
  apply Build_entry_ran with (journal := [(VolumeOp.Unlink path, [])]) (fs' := delete path fs);
    cbn [wp_version wp_journal fmap list_fmap fst]; [done|done|by eapply fs_run_one, fs_unlink| | |].
  - intros p. rewrite Hsr. case_decide as E; [subst; by rewrite lookup_delete_eq|]. by rewrite lookup_delete_ne.
  - intros o p ->%list_elem_of_singleton ->%list_elem_of_singleton. done.
  - intros B _. apply Forall_singleton. by right.
Qed.

Lemma rename_runs from to :
  occupied_by_nonfile (g_state g) from = false → occupied_by_nonfile (g_state g) to = false →
  is_Some (seen g w from) → content_at (g_state g) from (wp_version w) = None →
  ∃ w' journal fs',
    apply_declare w (mkWorkBase (Some g) (wp_version w)) (VolumeOp.Rename from to) = Ok w' ∧
    entry_ran g w w' fs fs' journal.
Proof.
  intros Hff Hft [f Hf] Hnew. unfold apply_declare. cbn [work_declare].
  assert (Hfree : ∀ op p, op ∈ [(VolumeOp.Rename from to, [] : bytes)].*1 → p ∈ names op →
    occupied_by_nonfile (g_state g) p = false) by (intros o p ->%list_elem_of_singleton; cbn; set_solver).
  assert (Hpl : ∀ B : gmap string bytes, (∀ p, B !! p = content_at (g_state g) p (wp_version w)) →
    Forall (plain_op B) [(VolumeOp.Rename from to, [] : bytes)].*1).
  { intros B HB. apply Forall_singleton. right. cbn. by rewrite HB. }
  case_bool_decide as E.
  { subst. cbn. do 3 eexists. split; [reflexivity|].
    by apply Build_entry_ran with (journal := [(VolumeOp.Rename to to, [])]) (fs' := fs);
      [..|apply fs_run_one, fs_rename_same| | |]. }
  rewrite get_seen, Hf. cbn [mbind result_bind].
  destruct (removal_ok g w from) as [r Hrem]. rewrite Hrem. cbn.
  pose proof (seen_removed g w from r (mk_is_Some _ _ Hf) Hrem) as Hsr. rewrite Hseen in Hf.
  do 3 eexists. split; [reflexivity|].
  apply Build_entry_ran with (journal := [(VolumeOp.Rename from to, [])]) (fs' := <[to := f]> (delete from fs));
    [done|done|by eapply fs_run_one, fs_rename| |done|done].
  intros p. specialize (Hsr [] p). rewrite seen_at in Hsr |- *. cbn [wp_files wp_version] in *.
  destruct (base.decide (p = to)) as [->|Hpt]; [by rewrite !lookup_insert_eq|].
  rewrite !lookup_insert_ne, Hsr by done. case_decide as Ep; [subst; by rewrite lookup_delete_eq|].
  by rewrite lookup_delete_ne.
Qed.

Lemma entry_runs entry :
  in_range g w entry →
  ∃ w' journal fs', replay_entry (Some g) w entry = Ok w' ∧ entry_ran g w w' fs fs' journal.
Proof.
  destruct entry as [path at_ delete_len bs|op|]; [apply edit_entry_runs| |done]. cbn [in_range replay_entry].
  intros Hr. destruct (logged_op op) as [o|]; [|done]. cbn [mbind result_bind].
  assert (E : ∃ w' journal fs', apply_declare w (mkWorkBase (Some g) (wp_version w)) o = Ok w' ∧
    entry_ran g w w' fs fs' journal); [|destruct E as (w' & journal & fs' & -> & ?); by do 3 eexists].
  destruct o; try done; [destruct Hr; by apply unlink_runs|destruct Hr as (? & ? & ? & ?); by apply rename_runs].
Qed.
End entry.

Lemma entry_ran_trans g w w1 w2 fs fs1 fs2 j1 j2 :
  entry_ran g w w1 fs fs1 j1 → entry_ran g w1 w2 fs1 fs2 j2 → entry_ran g w w2 fs fs2 (j1 ++ j2).
Proof.
  intros [Hv1 Hj1 Hr1 _ Hf1 Hp1] [Hv2 Hj2 Hr2 Hs2 Hf2 Hp2]. constructor.
  - congruence.
  - by rewrite fmap_app, app_assoc, <- Hj1.
  - by eapply fs_run_app.
  - done.
  - intros op p. rewrite fmap_app, elem_of_app. intros [?|?]; eauto.
  - intros B HB. rewrite fmap_app. apply Forall_app. split; [by apply Hp1|]. apply Hp2. by rewrite Hv1.
Qed.

(** A log in range replays, and its journal runs the files the work sees. *)
Lemma log_runs g log : ∀ w fs,
  (∀ p, seen g w p = fs !! p) → log_in_range g w log →
  ∃ w' journal fs', fold_result (replay_entry (Some g)) w log = Ok w' ∧ entry_ran g w w' fs fs' journal.
Proof.
  induction log as [|entry log IH]; intros w fs Hseen; cbn [log_in_range fold_result].
  - intros _. exists w, [], fs. split; [done|]. constructor; [done|by rewrite app_nil_r|apply fs_run_nil|done| |].
    + intros op p Hop. by apply elem_of_nil in Hop.
    + constructor.
  - intros [Hr Hlog]. destruct (entry_runs g w fs Hseen entry Hr) as (w1 & j1 & fs1 & Hw1 & Hran).
    rewrite Hw1 in *. cbn [mbind result_bind].
    destruct (IH w1 fs1 (er_seen _ _ _ _ _ _ Hran) Hlog) as (w2 & j2 & fs2 & Hw2 & Hran2).
    exists w2, (j1 ++ j2), fs2. split; [done|]. by eapply entry_ran_trans.
Qed.

(** ** Every file a work sees *)
Lemma seen_entries_lookup p : ∀ (l : list (string * option bytes)) (start : gmap string bytes),
  NoDup l.*1 →
  foldl seen_entry start l !! p =
    match (list_to_map l : WorkFiles) !! p with Some entry => entry | None => start !! p end.
Proof.
  induction l as [|[q e] l IH]; intros start Hnd; [done|]. inversion_clear Hnd as [|?? Hni Hnd'].
  cbn [foldl list_to_map foldr]. rewrite IH by done. unfold seen_entry. cbn [fst snd].
  destruct (base.decide (p = q)) as [->|Hne].
  - rewrite (not_elem_of_list_to_map_1 _ _ Hni). cbn. rewrite lookup_insert_eq.
    destruct e; [apply lookup_insert_eq|apply lookup_delete_eq].
  - cbn. rewrite lookup_insert_ne by done. destruct (_ !! p); [done|].
    destruct e; [by rewrite lookup_insert_ne|by rewrite lookup_delete_ne].
Qed.

Lemma work_files_seen g w fs :
  head (g_state g) ≤ wp_version w →
  (∀ p, content_at (g_state g) p (wp_version w) = d_cur (content (g_state g)) !! p) →
  (∀ p, seen g w p = fs !! p) →
  work_files (wp_files w) (mkWorkBase (Some g) (wp_version w)) = bt_list fs.
Proof.
  intros Hh Hat Hseen. unfold work_files. cbv zeta. cbn [wb_green wb_version]. f_equal. apply map_eq. intros p.
  unfold files_at. rewrite (proj2 (N.leb_le _ _)), bt_collect_bt_list by done.
  rewrite seen_entries_lookup by apply NoDup_bt_keys.
  rewrite (list_to_map_proper _ (map_to_list (wp_files w))), list_to_map_to_list by (apply NoDup_bt_keys || apply bt_list_perm).
  rewrite <- Hseen, seen_at, Hat. done.
Qed.

(** The bytes of a list of files. *)
Definition files_bytes (files : list (string * bytes)) : N := foldr (λ e n, len e.2 + n) 0 files.

Lemma files_bytes_app l k : files_bytes (l ++ k) = files_bytes l + files_bytes k.
Proof. unfold files_bytes. induction l as [|e l IH]; cbn; lia. Qed.
#[export] Instance files_bytes_perm : Proper (Permutation ==> eq) files_bytes.
Proof. unfold files_bytes. induction 1; cbn; lia. Qed.

Lemma files_bytes_le l k : l ⊆+ k → files_bytes l ≤ files_bytes k.
Proof. intros [r ->]%submseteq_Permutation. rewrite files_bytes_app. lia. Qed.

(** * The assembled post-state *)

(** ** One copy *)
Lemma copy_span_some post dst source from l :
  dst + l ≤ len post → from + l ≤ len source → len post ≤ u64_max → len source ≤ u64_max →
  copy_span post dst source from l = takeN dst post ++ slice source from (from + l) ++ dropN (dst + l) post.
Proof. intros. unfold copy_span. by rewrite !sat_add_small, !get_range_some by lia. Qed.

Lemma get_range_inv {A} (l : list A) a b x : get_range l a b = Some x → a ≤ b ∧ b ≤ len l.
Proof. unfold get_range. destruct (_ && _) eqn:E; [|done]. by bool_to_prop. Qed.

Lemma copy_span_cases post dst source from l :
  len post < u64_max → len source < u64_max →
  copy_span post dst source from l = post ∨ dst + l ≤ len post ∧ from + l ≤ len source.
Proof.
  intros Hp Hs. unfold copy_span. destruct (get_range post _ _) as [x|] eqn:Ep; [|by left].
  destruct (get_range source _ _) as [data|] eqn:Es; [|by left]. right.
  apply get_range_inv in Ep, Es. unfold sat_add in *. lia.
Qed.

Lemma len_copy_span post dst source from l :
  len post < u64_max → len source < u64_max → len (copy_span post dst source from l) = len post.
Proof.
  intros Hp Hs. destruct (copy_span_cases post dst source from l Hp Hs) as [->|[Hd Hf]]; [done|].
  rewrite copy_span_some by lia. autorewrite with len. lia.
Qed.

(** Outside its target a copy changes nothing. *)
Lemma copy_span_outside post dst source from l i :
  len post < u64_max → len source < u64_max → (N.of_nat i < dst ∨ dst + l ≤ N.of_nat i) →
  copy_span post dst source from l !! i = post !! i.
Proof.
  intros Hp Hs Hi. destruct (copy_span_cases post dst source from l Hp Hs) as [->|[Hd Hf]]; [done|].
  rewrite copy_span_some by lia.
  assert (Ht : length (takeN dst post) = N.to_nat dst) by (unfold takeN, len in *; rewrite length_take; lia).
  assert (Hl : length (slice source from (from + l)) = N.to_nat l).
  { pose proof (len_slice source from (from + l)) as Hl. unfold len in *. lia. }
  destruct Hi as [Hi|Hi].
  - rewrite lookup_app_l by lia. unfold takeN. by rewrite lookup_take_lt by lia.
  - rewrite !lookup_app_r by lia. unfold dropN. rewrite lookup_drop. f_equal. lia.
Qed.

(** Inside it the source's bytes stand. *)
Lemma copy_span_inside post dst source from l i :
  len post < u64_max → len source < u64_max → dst + l ≤ len post → from + l ≤ len source →
  dst ≤ N.of_nat i → N.of_nat i < dst + l →
  copy_span post dst source from l !! i = slice source from (from + l) !! (i - N.to_nat dst)%nat.
Proof.
  intros. rewrite copy_span_some by lia.
  assert (Ht : length (takeN dst post) = N.to_nat dst) by (unfold takeN, len in *; rewrite length_take; lia).
  assert (Hs : length (slice source from (from + l)) = N.to_nat l).
  { pose proof (len_slice source from (from + l)) as Hl. unfold len in *. lia. }
  rewrite lookup_app_r, Ht, lookup_app_l by lia. done.
Qed.

(** Equal bytes at every index of a range. *)
Lemma slice_ext {A} (l k : list A) a b :
  b ≤ len l → b ≤ len k → (∀ i, a ≤ N.of_nat i → N.of_nat i < b → l !! i = k !! i) → slice l a b = slice k a b.
Proof.
  intros Hl Hk Heq. apply list_eq. intros i. unfold slice, takeN, dropN.
  destruct (base.decide (i < N.to_nat (b - a))%nat) as [Hi|Hi].
  - rewrite !lookup_take_lt, !lookup_drop by done. apply Heq; lia.
  - rewrite !lookup_take_ge by lia. done.
Qed.

(** ** All copies *)
Lemma foldl_settles {A} (step : bytes → A → bytes) (covers : A → Prop)
    (n : N) (i : nat) (v : option byte) (l : list A) :
  (∀ x post, x ∈ l → len post = n → len (step post x) = n ∧
    (step post x !! i = v ∨ step post x !! i = post !! i ∧ ~ covers x)) →
  ∀ post, len post = n → post !! i = v ∨ Exists covers l → foldl step post l !! i = v.
Proof.
  induction l as [|x l IH]; intros Hs post Hn Hv; cbn [foldl].
  - destruct Hv as [?|He]; [done|]. by apply Exists_nil in He.
  - destruct (Hs x post ltac:(by left) Hn) as [Hn' Hx]. apply IH; [intros; apply Hs; [by right|done]|done|].
    destruct Hx as [?|[Hx Hc]]; [by left|]. rewrite Hx. destruct Hv as [?|He]; [by left|]. right.
    apply Exists_cons in He as [?|?]; done.
Qed.

Lemma post_size_bounds os : ∀ n,
  let size := foldl (λ size op,
    if negb (op_src op =? u64_max) && draws_post (op_kind op)
    then N.max size (sat_add (op_src op) (op_len op)) else size) n os in
  n ≤ size ∧
  (∀ op, op ∈ os → op_src op ≠ u64_max → draws_post (op_kind op) = true →
    sat_add (op_src op) (op_len op) ≤ size) ∧
  ∀ m, n ≤ m → (∀ op, op ∈ os → op_src op ≠ u64_max → draws_post (op_kind op) = true →
    sat_add (op_src op) (op_len op) ≤ m) → size ≤ m.
Proof.
  induction os as [|op os IH]; intros n; cbn [foldl].
  - split_and!; [lia|intros op Hop; by apply elem_of_nil in Hop|done].
  - set (n' := if _ : bool then _ else _). destruct (IH n') as (Hlo & Hin & Hhi). cbv zeta in *.
    assert (Hn : n ≤ n' ∧ (op_src op ≠ u64_max → draws_post (op_kind op) = true →
      sat_add (op_src op) (op_len op) ≤ n')).
    { unfold n'. destruct (op_src op =? u64_max) eqn:E1; cbn [negb andb]; bool_to_prop; [by split|].
      destruct (draws_post (op_kind op)); split; done || lia. }
    split_and!; [lia| |].
    + intros o [->|Ho]%elem_of_cons Hs Hd; [|by apply Hin]. destruct Hn as [_ Hn]. specialize (Hn Hs Hd). lia.
    + intros m Hm Hall. apply Hhi; [|intros; apply Hall; [by right|done..]]. unfold n'.
      destruct (op_src op =? u64_max) eqn:E1; cbn [negb andb]; bool_to_prop; [done|].
      destruct (draws_post (op_kind op)) eqn:E2; [|done]. specialize (Hall op ltac:(by left) E1 E2). lia.
Qed.

Section assembled.
Context (doc : OpsDoc) (files : WorkFiles) (base : WorkBase) (journal : list VolumeOp.t).
Let post := assemble_post_state doc files base journal.
Let size := post_size (ops doc).
Context (Hsize : size < u64_max).
Context (Hsource : ∀ op source at_, op ∈ ops doc → post_source doc files base journal op = Some (source, at_) →
  len source < u64_max).

(** The copy an operation makes. *)
Definition copies (op : Op) (source : bytes) (at_ : N) : Prop :=
  op_src op ≠ u64_max ∧ post_source doc files base journal op = Some (source, at_).

Lemma assemble_op_copy p op :
  assemble_op doc files base journal p op = p ∧ (~ ∃ source at_, copies op source at_) ∨
  ∃ source at_, copies op source at_ ∧
    assemble_op doc files base journal p op = copy_span p (op_src op) source at_ (op_len op).
Proof.
  unfold assemble_op, copies. destruct (op_src op =? u64_max) eqn:E; bool_to_prop; [left; naive_solver|].
  destruct (post_source _ _ _ _ _) as [[source at_]|]; [|left; naive_solver]. right. by exists source, at_.
Qed.

Lemma len_assemble_op p op :
  op ∈ ops doc → len p = size → len (assemble_op doc files base journal p op) = size.
Proof.
  intros Hop Hp. destruct (assemble_op_copy p op) as [[-> _]|(source & at_ & [_ Hs] & ->)]; [done|].
  rewrite len_copy_span; [done|lia|by eapply Hsource].
Qed.

Lemma len_assemble : len post = size.
Proof.
  unfold post, assemble_post_state. fold size.
  assert (E : ∀ l p, (∀ op, op ∈ l → op ∈ ops doc) → len p = size →
    len (foldl (assemble_op doc files base journal) p l) = size).
  { induction l as [|op l IH]; intros p Hl Hp; cbn [foldl]; [done|]. apply IH; [intros; apply Hl; by right|].
    apply len_assemble_op; [apply Hl; by left|done]. }
  apply E; [done|]. unfold len. rewrite length_replicate. lia.
Qed.

(** Where every copy stays out of a window, or writes what the reference
    holds there, the window's copies leave the reference's bytes. *)
Lemma assemble_window (R : bytes) lo hi :
  (∀ op source at_, op ∈ ops doc → copies op source at_ →
    (op_src op + op_len op ≤ lo ∨ hi ≤ op_src op) ∨
    op_src op + op_len op ≤ size ∧ at_ + op_len op ≤ len source ∧ op_src op + op_len op ≤ len R ∧
    slice source at_ (at_ + op_len op) = slice R (op_src op) (op_src op + op_len op)) →
  ∀ op source at_, op ∈ ops doc → copies op source at_ → lo ≤ op_src op → op_src op + op_len op ≤ hi →
  ∀ i, op_src op ≤ N.of_nat i → N.of_nat i < op_src op + op_len op → post !! i = R !! i.
Proof.
  intros Hall op source at_ Hop Hc Hlo Hhi i Hi Hi'. unfold post, assemble_post_state. fold size.
  apply (foldl_settles _ (λ op, ∃ source at_, copies op source at_ ∧ op_src op ≤ N.of_nat i ∧ N.of_nat i < op_src op + op_len op) size).
  - intros x p Hx Hp. split; [by apply len_assemble_op|].
    destruct (assemble_op_copy p x) as [[-> Hn]|(source' & at' & Hcx & ->)]; [right; naive_solver|].
    pose proof (Hsource x source' at' Hx (proj2 Hcx)) as Hsx.
    destruct (base.decide (op_src x ≤ N.of_nat i ∧ N.of_nat i < op_src x + op_len x)) as [[Hxi Hxi']|Hout].
    + left. destruct (Hall x source' at' Hx Hcx) as [?|(? & ? & HlR & Hsl)]; [lia|].
      rewrite copy_span_inside, Hsl by lia. unfold slice, takeN, dropN.
      rewrite lookup_take_lt, lookup_drop by lia. f_equal. lia.
    + right. split; [apply copy_span_outside; lia|]. naive_solver.
  - unfold len. rewrite length_replicate. lia.
  - right. apply Exists_exists. exists op. split; [done|]. eauto.
Qed.
End assembled.

(** ** What [build_increment] answers *)
Lemma build_increment_ok hash st work_id evidence to inc w g :
  works st !! work_id = Some w → greens st !! w_green w = Some g → w_base_version w ≤ head (g_state g) →
  build_increment hash st work_id evidence = Ok (to, inc) →
  to = w_green w ∧ inc_base inc = w_base_version w ∧
  compose_volume (base_for (g_state g) (w_base_version w) (w_journal w)) (w_journal w) = Ok (inc_doc inc) ∧
  inc_post inc = assemble_post_state (inc_doc inc) (w_files w) (mkWorkBase (Some g) (w_base_version w)) (w_journal w).
Proof.
  intros Hw Hg Hv. unfold build_increment. rewrite Hw. cbn [ok_or mbind result_bind]. rewrite Hg.
  cbn [mbind option_bind]. rewrite (proj2 (N.leb_le _ _)) by done. cbn [ok_or mbind result_bind].
  destruct (compose_volume _ _) as [doc|]; [|done]. intros [= <- <-]. done.
Qed.
