(* ===== verification/Publish.v ===== *)
(** * Publishing a work

    The program end to end for a work whose log holds edits, unlinks and
    renames of new files: the journal derived and sealed into an increment on
    the head ([compose_volume]), the post-state assembled from the work's files
    ([assemble_post_state]), the increment decided and committed
    ([Green::submit]).  The increment is accepted, the new version has the
    work's paths and lengths, and its bytes are the work's where no operation
    that adds bytes follows a net change of length; where one does, the
    assembled bytes are wrong. *)

From S2P Require Import Prelude Range OpsDoc ByteSplice PosMap Derive Special Origin Journal Namespace.
From S2P Require Import DocOrder Volume IncrementDoc History Rejected Identity Green GreenOps GreenState.
From S2P Require Import GreenAccount GreenReach GreenSpec GreenMerge GreenReaders.
From S2P Require Import PlainJournal DocFiles SealedDoc Work.
#[local] Open Scope N_scope.

(** ** Deciding a document of file operations *)
Lemma bt_elems_empty {K} `{Countable K, !BTreeKey K} : bt_elems (∅ : gset K) = [].
Proof. apply elem_of_nil_inv. intros x. rewrite elem_of_bt_elems. set_solver. Qed.
Lemma bt_list_empty {K V} `{Countable K, !BTreeKey K} : bt_list (∅ : gmap K V) = [].
Proof. apply elem_of_nil_inv. intros [k v]. rewrite elem_of_bt_list. by rewrite lookup_empty. Qed.

Lemma decide_files s hits inc d os r :
  file_resolved d os r → file_windows s inc r = [] → unfit_content s inc r = [] →
  ∃ hits', decide s hits inc r = (hits', Ok (file_effects s inc r)).
Proof.
  intros [_ _ _ _ (Esp & Ei & Emk & Erm & Emo & Esy & Eha & Ere & Exs & Exr)] Hw Hu.
  unfold decide. cbv zeta. rewrite Ei, Hu, Esp, bt_elems_empty, bt_list_empty. cbn [app map foldl].
  pose proof (decide_content_split s inc r hits ([], [])) as Hc.
  destruct (decide_content s inc r hits ([], [])) as [h v]. cbn [fst snd app] in Hc. subst v. rewrite Hw.
  exists h. unfold decide_directories, decide_metadata. cbv zeta.
  rewrite Emk, Erm, Emo, Esy, Eha, Exs, Exr, !bt_elems_empty, !bt_list_empty. done.
Qed.

Lemma changed_at_head s p : state_inv s (head s) → changed_at (content s) p ≤ head s.
Proof.
  intros Hs. pose proof (si_content _ _ Hs) as Hd. pose proof (di_last _ _ Hd p) as Hl.
  destruct (d_hist (content s) !! p) as [h|] eqn:Eh.
  - destruct (dok_hist _ _ (di_ok _ _ Hd) p h Eh) as [_ Hb]. apply last_Some_elem_of in Hl.
    unfold bounded in Hb. rewrite Forall_forall in Hb. by apply (Hb _ Hl).
  - unfold changed_at. destruct Hl as [_ ->]. cbn. lia.
Qed.

(** ** An increment of file operations on the head *)
Section publish.
Context (s : State) (inc : Increment) (d := inc_doc inc) (r := resolve inc) (B := d_cur (content s)).
Context (Hinv : state_inv s (head s)) (Hbase : inc_base inc = head s) (Hdoc : file_doc d).
Context (Hfree : ∀ k p, doc_names d k p → occupied_by_nonfile s p = false).
Context (Hcreate : ∀ p, doc_names d OpKind.Create p → B !! p = None).
Context (Hunlink : ∀ p, doc_names d OpKind.Unlink p → is_Some (B !! p)).
Context (Hedit : ∀ p, doc_content d p ≠ [] → doc_names d OpKind.Create p ∨ is_Some (B !! p)).

Let Hr : file_resolved d (ops d) r := resolve_file_doc inc Hdoc.

Lemma resolved_content p os : r_content r !! p = Some os ↔ os ≠ [] ∧ os = filter (content_on (paths d) p) (ops d).
Proof.
  pose proof (fr_content _ _ _ Hr p) as Hc. pose proof (fr_nonempty _ _ _ Hr p) as Hn.
  destruct (r_content r !! p) as [l|] eqn:E; cbn in Hc; split.
  - intros [= ->]. split; [congruence|done].
  - intros [_ ->]. by rewrite Hc.
  - done.
  - intros [Hne ->]. by rewrite <- Hc in Hne.
Qed.

Lemma resolved_strip p os : r_content r !! p = Some os → map strip os = doc_content d p ∧ os ≠ [].
Proof. intros [Hne ->]%resolved_content. done. Qed.

Lemma resolved_creates p : p ∈ r_creates r ↔ doc_names d OpKind.Create p.
Proof. apply Hr. Qed.
Lemma resolved_unlinks p : p ∈ r_unlinks r ↔ doc_names d OpKind.Unlink p.
Proof. apply Hr. Qed.
Lemma no_renames p : r_renames r !! p = None.
Proof. destruct (fr_other _ _ _ Hr) as (_ & _ & _ & _ & _ & _ & _ & -> & _). apply lookup_empty. Qed.

Lemma apply_resolved p os b :
  r_content r !! p = Some os → apply b os (inc_post inc) = apply b (doc_content d p) (inc_post inc).
Proof. intros Hp. rewrite <- (proj1 (resolved_strip p os Hp)). symmetry. apply apply_strip. Qed.

(** Each merge of the content dimension accepts. *)
Lemma create_accepts p bs :
  p ∈ r_creates r → merge_create s p bs = Ok (Some (Effect.SetContent p bs [insert_whole (len bs)])).
Proof.
  intros Hp%resolved_creates. unfold merge_create. rewrite (Hfree _ _ Hp).
  pose proof (Hcreate p Hp) as HB. unfold B in HB. by rewrite HB.
Qed.

Lemma unlink_accepts p :
  p ∈ r_unlinks r → merge_unlink s p (inc_base inc) = Ok (Some (Effect.RemoveContent p)).
Proof.
  intros Hp%resolved_unlinks. unfold merge_unlink. pose proof (Hfree _ _ Hp) as Hf.
  unfold occupied_by_nonfile in Hf. rewrite !orb_false_iff in Hf. destruct Hf as [_ ->].
  unfold has. rewrite (proj2 (has_key_true _ _)) by by apply Hunlink.
  rewrite (proj2 (N.ltb_ge _ _)); [done|]. rewrite Hbase. by apply changed_at_head.
Qed.

Lemma edit_accepts p os current :
  r_content r !! p = Some os → B !! p = Some current →
  (merge_content s inc p os).2 = Ok (Some (Effect.SetContent p (apply current os (inc_post inc)) os)).
Proof.
  intros Hp HB. unfold merge_content. unfold B in HB. rewrite HB. cbv zeta.
  assert (Hc : changed_at (content s) p ≤ inc_base inc) by (rewrite Hbase; by apply changed_at_head).
  pose proof (mapped_edits_unchanged s p (inc_base inc) os Hc) as Hm. unfold deltas_since in Hm.
  rewrite Hm. cbn [snd filter list_filter].
  pose proof (proj2 (resolved_strip p os Hp)). by destruct os.
Qed.

Lemma edited_in_base p os :
  r_content r !! p = Some os → p ∉ r_creates r → ∃ current, B !! p = Some current.
Proof.
  intros Hp Hc. destruct (Hedit p) as [Hn|HB]; [|by apply resolved_creates in Hn|exact HB].
  destruct (resolved_strip p os Hp) as [<- Hne]. by destruct os.
Qed.

Lemma publish_no_windows : file_windows s inc r = [].
Proof.
  unfold file_windows. destruct (fr_other _ _ _ Hr) as (_ & _ & _ & _ & _ & _ & _ & -> & _).
  rewrite bt_list_empty. cbn [omap list_omap app]. apply elem_of_nil_inv. intros w. rewrite !elem_of_app.
  intros [Hin|[Hin|Hin]].
  - apply list_elem_of_omap in Hin as (p & Hp & Hw). rewrite elem_of_bt_elems in Hp.
    by rewrite create_accepts in Hw.
  - apply list_elem_of_omap in Hin as (p & Hp & Hw). rewrite elem_of_bt_elems in Hp.
    by rewrite unlink_accepts in Hw.
  - apply list_elem_of_join in Hin as (ws & Hw & Hin). apply list_elem_of_fmap in Hin as ([p os] & -> & Hin).
    apply elem_of_bt_list in Hin. unfold edit_windows, edited_here in Hw. cbn [fst snd] in Hw.
    destruct (has_elem (r_creates r) p) eqn:Ec; [cbn in Hw; set_solver|].
    rewrite (proj2 (has_key_false _ _)) in Hw by apply no_renames. cbn [negb orb] in Hw.
    apply has_elem_false in Ec. destruct (edited_in_base p os Hin Ec) as [current HB].
    rewrite (edit_accepts p os current) in Hw by done. set_solver.
Qed.

(** The bytes the document gives a path. *)
Definition published (p : string) : bytes :=
  apply (if has_elem (r_creates r) p then [] else default [] (B !! p)) (doc_content d p) (inc_post inc).

Lemma doc_content_resolved p : doc_content d p = map strip (default [] (r_content r !! p)).
Proof. unfold doc_content. by rewrite <- (fr_content _ _ _ Hr). Qed.

Lemma edit_effect_published p os :
  r_content r !! p = Some os →
  set_file <$> edit_effect s inc r (p, os) =
    if has_elem (r_creates r) p then None else Some (Some (p, published p)).
Proof.
  intros Hp. unfold edit_effect, edited_here, published. cbn [fst snd].
  rewrite (proj2 (has_key_false _ _)) by apply no_renames. rewrite orb_false_r.
  destruct (has_elem (r_creates r) p) eqn:Ec; [done|]. apply has_elem_false in Ec. cbn [negb].
  destruct (edited_in_base p os Hp Ec) as [current HB].
  rewrite (edit_accepts p os current), HB by done. cbn. by rewrite (apply_resolved p os).
Qed.

Lemma create_effect_published p :
  p ∈ r_creates r →
  set_file <$> ok_effect (merge_create s p (apply [] (default [] (r_content r !! p)) (inc_post inc)))
    = Some (Some (p, published p)).
Proof.
  intros Hp. rewrite create_accepts by done. cbn. unfold published.
  by rewrite (proj2 (has_elem_true _ _)), doc_content_resolved, apply_strip by done.
Qed.

Lemma publish_sets p bs :
  (p, bs) ∈ omap set_file (file_effects s inc r) ↔
  (doc_names d OpKind.Create p ∨ doc_content d p ≠ []) ∧ bs = published p.
Proof.
  unfold file_effects. destruct (fr_other _ _ _ Hr) as (_ & _ & _ & _ & _ & _ & _ & Ere & _).
  rewrite Ere, bt_list_empty. cbn [map mjoin list_join app]. rewrite list_elem_of_omap.
  setoid_rewrite elem_of_app. setoid_rewrite elem_of_app. rewrite <- resolved_creates. split.
  - intros (e & [Hin|[Hin|Hin]] & He).
    + apply list_elem_of_omap in Hin as (q & Hq & Ho). rewrite elem_of_bt_elems in Hq.
      pose proof (create_effect_published q Hq) as Hc. rewrite Ho in Hc. cbn in Hc. rewrite He in Hc.
      injection Hc as -> ->. auto.
    + apply list_elem_of_omap in Hin as (q & Hq & Ho). rewrite elem_of_bt_elems in Hq.
      rewrite unlink_accepts in Ho by done. cbn in Ho. injection Ho as <-. done.
    + apply list_elem_of_omap in Hin as ([q os] & Hq & Ho). apply elem_of_bt_list in Hq.
      pose proof (edit_effect_published q os Hq) as Hc. rewrite Ho in Hc. cbn in Hc. rewrite He in Hc.
      split_if; [done|]. injection Hc as -> ->. split; [|done]. right.
      destruct (resolved_strip q os Hq) as [<- ?]. by destruct os.
  - intros [Hp ->]. destruct (has_elem (r_creates r) p) eqn:Ec.
    + apply has_elem_true in Ec. pose proof (create_effect_published p Ec) as Hc.
      apply fmap_Some in Hc as (e & He & Hset). exists e. split; [left|done].
      apply list_elem_of_omap. exists p. split; [by apply elem_of_bt_elems|done].
    + destruct Hp as [Hp%has_elem_true|Hne]; [congruence|]. rewrite doc_content_resolved in Hne.
      destruct (r_content r !! p) as [os|] eqn:Eo; [|done].
      pose proof (edit_effect_published p os Eo) as Hc. rewrite Ec in Hc.
      apply fmap_Some in Hc as (e & He & Hset). exists e. split; [right; right|done].
      apply list_elem_of_omap. exists (p, os). split; [by apply elem_of_bt_list|done].
Qed.

Lemma publish_removes p :
  p ∈ omap removed_path (file_effects s inc r) ↔ doc_names d OpKind.Unlink p.
Proof.
  unfold file_effects. destruct (fr_other _ _ _ Hr) as (_ & _ & _ & _ & _ & _ & _ & Ere & _).
  rewrite Ere, bt_list_empty. cbn [map mjoin list_join app]. rewrite list_elem_of_omap.
  setoid_rewrite elem_of_app. setoid_rewrite elem_of_app. rewrite <- resolved_unlinks. split.
  - intros (e & [Hin|[Hin|Hin]] & He).
    + apply list_elem_of_omap in Hin as (q & Hq & Ho). rewrite elem_of_bt_elems in Hq.
      rewrite create_accepts in Ho by done. cbn in Ho. injection Ho as <-. done.
    + apply list_elem_of_omap in Hin as (q & Hq & Ho). rewrite elem_of_bt_elems in Hq.
      rewrite unlink_accepts in Ho by done. cbn in Ho. injection Ho as <-. cbn in He. by injection He as <-.
    + apply list_elem_of_omap in Hin as ([q os] & Hq & Ho). apply elem_of_bt_list in Hq.
      pose proof (edit_effect_published q os Hq) as Hc. rewrite Ho in Hc. cbn in Hc.
      split_if; [done|]. by destruct e.
  - intros Hp. exists (Effect.RemoveContent p). split; [right; left|done].
    apply list_elem_of_omap. exists p. split; [by apply elem_of_bt_elems|]. by rewrite unlink_accepts.
Qed.

(** The files after the commit. *)
Lemma publish_files p :
  apply_files B (file_effects s inc r) !! p =
    if has_elem (r_creates r) p || negb (is_nil (doc_content d p)) then Some (published p)
    else if has_elem (r_unlinks r) p then None else B !! p.
Proof.
  assert (Hs : has_elem (r_creates r) p || negb (is_nil (doc_content d p)) = true ↔
    doc_names d OpKind.Create p ∨ doc_content d p ≠ []).
  { rewrite orb_true_iff, negb_true_iff, has_elem_true, resolved_creates.
    destruct (doc_content d p); cbn; intuition congruence. }
  destruct (apply_files_cases B (file_effects s inc r) p) as [(bs & Hin & ->)|[Hni ->]].
  - apply publish_sets in Hin as [Hp ->]. by rewrite (proj2 Hs Hp).
  - destruct (_ || _) eqn:E; [exfalso; apply (Hni (published p)), publish_sets; by rewrite <- Hs|].
    pose proof (publish_removes p) as Hrem. rewrite <- resolved_unlinks, <- has_elem_true in Hrem.
    case_bool_decide as Hd; [by rewrite (proj1 Hrem Hd)|].
    destruct (has_elem (r_unlinks r) p); [|done]. by destruct Hd; apply Hrem.
Qed.

Lemma publish_fits :
  (∀ p, doc_content d p ≠ [] →
     fits_base (doc_content d p) (if has_elem (r_creates r) p then 0 else len (default [] (B !! p)))
       (len (inc_post inc)) = true) →
  unfit_content s inc r = [].
Proof.
  intros Hfit. unfold unfit_content. rewrite filter_none; [done|]. intros [p os] Hin. cbn [fst snd].
  apply elem_of_bt_list in Hin. rewrite no_renames. cbn [default from_option].
  destruct (resolved_strip p os Hin) as [Hos Hne].
  assert (Hat : content_at s p (inc_base inc) = B !! p).
  { unfold content_at. rewrite Hbase. symmetry. apply dok_cur, di_ok, Hinv. }
  unfold id. rewrite Hat, not_false_iff_true, <- fits_base_strip, Hos.
  etrans; [|apply (Hfit p); rewrite <- Hos; by destruct os]. f_equal. split_if; [done|]. by destruct (B !! p).
Qed.

(** No entry but files is touched. *)
Lemma publish_tree t : foldl apply_effect t (file_effects s inc r) = t.
Proof.
  apply foldl_skip. intros e. unfold file_effects.
  destruct (fr_other _ _ _ Hr) as (_ & _ & _ & _ & _ & _ & _ & Ere & _).
  rewrite Ere, bt_list_empty. cbn [map mjoin list_join app]. rewrite !elem_of_app.
  intros [Hin|[Hin|Hin]]; apply list_elem_of_omap in Hin as (q & Hq & Ho).
  - rewrite elem_of_bt_elems in Hq. rewrite create_accepts in Ho by done. injection Ho as <-. by destruct t.
  - rewrite elem_of_bt_elems in Hq. rewrite unlink_accepts in Ho by done. injection Ho as <-. by destruct t.
  - destruct q as [q os]. apply elem_of_bt_list in Hq. pose proof (edit_effect_published q os Hq) as Hc.
    rewrite Ho in Hc. cbn in Hc. split_if; [done|]. destruct e; try done. by destruct t.
Qed.
End publish.

(** ** The volume's document on the head *)
Lemma head_base_of s :
  (∀ p b, d_cur (content s) !! p = Some b → len b ≤ u64_max) →
  base_of (base_at s (head s)) (d_cur (content s)).
Proof.
  intros Hb p. split; [|apply Hb]. unfold base_at. rewrite N.leb_refl. unfold base_len_of, current_base.
  cbn [b_files]. unfold lengths. by rewrite table_get_map, table_get_bt_list.
Qed.

Lemma head_quiet s op :
  (∀ p, p ∈ names op → occupied_by_nonfile s p = false) → quiet (base_at s (head s)) op.
Proof.
  intros Hf p Hp. specialize (Hf p Hp). unfold occupied_by_nonfile, has in Hf.
  rewrite !orb_false_iff, !has_key_false in Hf. destruct Hf as [[[_ Hsy] Hha] Hsp].
  unfold base_at. rewrite N.leb_refl. cbn [current_base b_symlinks b_hardlinks b_specials].
  assert (Hk : ∀ V (m : gmap string V), m !! p = None → p ∉ (bt_list m).*1).
  { intros V m Hm ([q v] & -> & Hin)%list_elem_of_fmap. apply elem_of_bt_list in Hin. cbn in Hm. congruence. }
  split_and!; [by apply Hk..|]. by rewrite bt_collect_bt_list.
Qed.

(** ** The base gathered for the journal *)
Lemma apply_op_base b b' es op :
  (∀ p, p ∈ names op → base_len_of b p = base_len_of b' p) → apply_op es b op = apply_op es b' op.
Proof.
  intros Hb. unfold apply_op, apply_create, apply_unlink, apply_rename, resolve_rename_target,
    find_or_materialize, materialize_base.
  destruct op; cbn [content_op single_path default from_option id names] in *;
    rewrite ?(Hb path) by set_solver; try done.
  rewrite (Hb from), (Hb to) by set_solver. done.
Qed.

Lemma replay_ops_base b b' journal : ∀ es,
  (∀ op p, op ∈ journal → p ∈ names op → base_len_of b p = base_len_of b' p) →
  replay_ops es b journal = replay_ops es b' journal.
Proof.
  induction journal as [|op journal IH]; intros es Hb; [done|]. cbn [replay_ops].
  rewrite (apply_op_base b b') by (intros p; apply Hb; by left).
  destruct (apply_op es b' op); [|done]. cbn [mbind result_bind]. apply IH. intros o p Ho. apply Hb. by right.
Qed.

Lemma table_get_none_keys {K V} `{EqDecision K} (l : list (K * V)) k : table_get l k = None ↔ k ∉ l.*1.
Proof.
  unfold table_get. induction l as [|[q v] l IH]; cbn [List.find fst fmap list_fmap]; [set_solver|].
  case_bool_decide; [set_solver|]. rewrite IH. set_solver.
Qed.

Lemma bt_collect_none {K V} `{Countable K} (l : list (K * V)) k : k ∉ l.*1 → bt_collect l !! k = None.
Proof.
  induction l as [|[q v] l IH] using rev_ind; [done|]. rewrite bt_collect_snoc, fmap_app.
  intros Hk. rewrite lookup_insert_ne by set_solver. apply IH. set_solver.
Qed.

Lemma gathered_quiet s journal op :
  (∀ o p, o ∈ journal → p ∈ names o → occupied_by_nonfile s p = false) → op ∈ journal →
  quiet (base_for s (head s) journal) op.
Proof.
  intros Hf Hop p Hp. destruct (head_quiet s op) with (p := p) as (Hs & Hh & Hx); [by intros; eapply Hf|done|].
  assert (Hin : p ∈ concat (map names journal)).
  { apply list_elem_of_In, in_concat. exists (names op). rewrite <- !list_elem_of_In. split; [|done].
    apply list_elem_of_fmap. eauto. }
  destruct (base_for_agrees s (head s) journal p Hin) as [_ Asp _ _ Asy _ Aha].
  unfold base_symlink_target, base_hardlink_target in *. split_and!.
  - apply table_get_none_keys. rewrite Asy. by apply table_get_none_keys.
  - apply table_get_none_keys. rewrite Aha. by apply table_get_none_keys.
  - apply bt_collect_none, table_get_none_keys. rewrite Asp.
    revert Hx. unfold base_at. rewrite N.leb_refl. cbn [current_base b_specials].
    rewrite bt_collect_bt_list, table_get_bt_list. done.
Qed.

Lemma compose_gathered s journal doc :
  (∀ op, op ∈ journal → file_op op) →
  (∀ op p, op ∈ journal → p ∈ names op → occupied_by_nonfile s p = false) →
  compose_volume (base_for s (head s) journal) journal = Ok doc →
  ∃ es, replay_ops [] (base_at s (head s)) journal = Ok es ∧
    doc = canonicalize (canonicalize (raw_doc (classify es).1 (classify es).2)).
Proof.
  intros Hfo Hfree Hcv.
  destruct (compose_volume_files _ journal Hfo (λ op, gathered_quiet s journal op Hfree) _ Hcv) as (es & Hes & Hdoc).
  exists es. rewrite seal_files in Hdoc. split; [|done].
  rewrite <- Hes. symmetry. apply replay_ops_base. intros op p Hop Hp. apply base_for_agrees.
  apply list_elem_of_In, in_concat. exists (names op). rewrite <- !list_elem_of_In. split; [|done].
  apply list_elem_of_fmap. eauto.
Qed.

Section document.
Context (B fs : gmap string bytes) (Q : string → Prop) (es : list Entity).
Context (HT : tracks B es fs) (Hplain : Forall (plain B Q) es) (ems := (classify es).1) (removed := (classify es).2).
Context (doc := canonicalize (canonicalize (raw_doc ems removed))).
Context (Hsize : len (pt_paths (paths doc)) ≤ u16_max + 1).

Lemma volume_emissions em : em ∈ ems → plain_emission B fs em.
Proof. intros Hem. by apply (plain_emissions B Q es fs). Qed.

Lemma volume_distinct : NoDup (em_final_path <$> ems).
Proof. by apply (emissions_distinct B es fs). Qed.

Lemma volume_size : len (document_names ems removed [] [] [] [] []) ≤ u16_max + 1.
Proof.
  assert (E : pt_paths (paths doc) ≡ₚ document_names ems removed [] [] [] [] []).
  { unfold doc. rewrite !canonical_table. done. }
  assert (El : len (pt_paths (paths doc)) = len (document_names ems removed [] [] [] [] []))
    by (unfold len; by rewrite E). by rewrite <- El.
Qed.

Lemma volume_removed p : p ∈ removed → Q p ∧ is_Some (B !! p).
Proof.
  pose proof (classify_gone B es fs p HT) as Hg. unfold removed.
  destruct (classify es) as [ems' removed']. intros Hin. apply Hg in Hin as [(i & e & Hi & _ & Ho) _].
  pose proof (Forall_lookup_1 _ _ _ _ Hplain Hi) as He. unfold plain in He. rewrite Ho in He.
  destruct He as (HQ & -> & HB). done.
Qed.

Lemma volume_names k p : doc_names doc k p → Q p.
Proof.
  unfold doc. rewrite (doc_names_raw B fs ems removed volume_distinct volume_emissions volume_size).
  intros (op & _ & _ & Hp). assert (Hin : p ∈ document_names ems removed [] [] [] [] []).
  { unfold names_path, pt_path, lookupN in Hp. split_if; [|done]. by eapply list_elem_of_lookup_2. }
  apply (elem_of_names B fs ems removed volume_emissions) in Hin as [(em & Hem & <-)|Hr]; [|by apply volume_removed].
  by apply (plain_emissions B Q es fs).
Qed.

Lemma volume_creates p :
  doc_names doc OpKind.Create p ↔ ∃ em, emission_at ems p = Some em ∧ em_created em = true.
Proof.
  unfold doc. rewrite (doc_names_raw B fs ems removed volume_distinct volume_emissions volume_size).
  rewrite (raw_creates B fs ems removed volume_distinct volume_emissions volume_size). split.
  - intros (em & Hem & Hp & Hc). destruct (emission_at ems p) as [em'|] eqn:E.
    + exists em'. split; [done|]. apply emission_at_some in E as [Hem' Hp'].
      assert (em' = em) as ->; [|done].
      eapply (NoDup_fmap_inj_elem em_final_path); [apply volume_distinct|done..|congruence].
    + by destruct (emission_at_none _ _ _ E Hem).
  - intros (em & [Hem Hp]%emission_at_some & Hc). eauto.
Qed.

Lemma volume_unlinks p : doc_names doc OpKind.Unlink p ↔ p ∈ removed.
Proof.
  unfold doc. rewrite (doc_names_raw B fs ems removed volume_distinct volume_emissions volume_size).
  apply (raw_unlinks B fs ems removed volume_distinct volume_emissions volume_size).
Qed.

Context (post : bytes) (Hmax : len post ≤ u64_max) (HR : len (post_of fs ems) ≤ u64_max).
Context (HB : ∀ p b, B !! p = Some b → len b ≤ u64_max).
Context (Hdrawn : ∀ p op, op ∈ doc_content doc p → adds_content (op_kind op) = true →
  op_src op + op_len op ≤ len post).

(** A path's operations draw the same bytes from the post-state as from the
    files laid out. *)
Definition settled (p : string) : Prop :=
  ∀ op, op ∈ doc_content doc p → adds_content (op_kind op) = true →
    slice post (op_src op) (op_src op + op_len op) = slice (post_of fs ems) (op_src op) (op_src op + op_len op).

Lemma volume_exact p em :
  emission_at ems p = Some em → ∃ o F, region_of (laid_out ems) p 0 = Some (em, o) ∧
    content_exact B fs ems removed p em o F.
Proof.
  intros E. pose proof (region_emission ems volume_distinct p) as Hr. rewrite E in Hr. destruct Hr as [o Hr].
  destruct (doc_content_emitted B fs ems removed volume_distinct volume_emissions volume_size HR HB p em o Hr)
    as [F HF]. eauto.
Qed.

(** What the document says of an emitted path's content. *)
Lemma volume_content p :
  match emission_at ems p with
  | Some em => ∃ F, fs !! p = Some F ∧
      len (apply (if em_created em then [] else default [] (B !! p)) (doc_content doc p) post) = len F ∧
      (settled p → apply (if em_created em then [] else default [] (B !! p)) (doc_content doc p) post = F) ∧
      fits_base (doc_content doc p) (if em_created em then 0 else len (default [] (B !! p))) (len post) = true ∧
      (em_created em = false → doc_content doc p ≠ []) ∧
      (em_created em = true → B !! p = None) ∧ (em_created em = false → is_Some (B !! p))
  | None => doc_content doc p = []
  end.
Proof.
  destruct (emission_at ems p) as [em|] eqn:E.
  2: { pose proof (region_emission ems volume_distinct p) as Hr. rewrite E in Hr.
       by apply (doc_content_none B fs ems removed volume_distinct volume_emissions volume_size). }
  destruct (volume_exact p em E) as (o & F & _ & [HF _ _ _ Hnet Hemi Hfit Hne _]).
  apply emission_at_some in E as [Hem Hp]. pose proof (volume_emissions em Hem) as Hpe. exists F.
  pose proof (sealed_base_len B HB em) as Hbl. fold doc in Hnet, Hemi, Hfit, Hne.
  apply (net_ops_post _ _ (len post)) in Hnet as Hnet'; [|by apply Hdrawn].
  apply (fits_base_post _ _ _ (len post)) in Hfit; [|done|by apply Hdrawn].
  assert (Hb : sealed_base B em = if em_created em then [] else default [] (B !! p)).
  { unfold sealed_base. rewrite (pe_source _ _ _ Hpe), Hp. done. }
  rewrite Hb in *. rewrite apply_emitted by (done || unfold usize_max; lia).
  pose proof (pe_created _ _ _ Hpe) as Hcr. pose proof (pe_edited _ _ _ Hpe) as Hed. rewrite Hp in *.
  split_and!; [done| | | |done|done|by apply Hed].
  - rewrite <- Hemi. apply len_emitted_ext. intros op Hop. unfold op_bytes.
    destruct (adds_content (op_kind op)) eqn:Ea; [|done].
    pose proof (Hdrawn p op Hop Ea). pose proof (net_ops_drawn _ _ _ _ _ Hnet Hop Ea). len_solve.
  - intros Hs. rewrite <- Hemi. apply emitted_ext. intros op Hop. unfold op_bytes.
    destruct (adds_content (op_kind op)) eqn:Ea; [|done]. by apply Hs.
  - by destruct (em_created em).
Qed.

(** A path the document does not set holds what it held, unless unlinked. *)
Lemma volume_rest p :
  emission_at ems p = None → fs !! p = if base.decide (p ∈ removed) then None else B !! p.
Proof.
  intros Hn. pose proof (classify_exact B es fs p HT) as Hx.
  rewrite (surjective_pairing (classify es)) in Hx. fold ems removed in Hx. unfold sealed_path in Hx.
  rewrite Hn in Hx. rewrite Hx. apply decide_ext. split; [|by left]. intros [?|Hs]; [done|]. exfalso.
  apply list_elem_of_omap in Hs as (em & Hem & Hs).
  rewrite (pe_source _ _ _ (volume_emissions em Hem)) in Hs. done.
Qed.
End document.

(** ** The post-state the shard assembles *)
Lemma post_of_le (fs : gmap string bytes) (ems : list Emission) :
  NoDup (em_final_path <$> ems) → (∀ em, em ∈ ems → is_Some (fs !! em_final_path em)) →
  len (post_of fs ems) ≤ files_bytes (bt_list fs).
Proof.
  intros Hnd Hin.
  set (pair_of := λ em, (em_final_path em, default [] (fs !! em_final_path em))).
  assert (E : ∀ l, len (concat (map (λ em, default [] (fs !! em_final_path em)) l)) = files_bytes (map pair_of l)).
  { unfold files_bytes. induction l as [|em l IH]; [done|]. cbn [map concat foldr]. by rewrite len_app, IH. }
  unfold post_of. rewrite E. apply files_bytes_le, NoDup_submseteq.
  - apply (NoDup_fmap_1 fst). unfold laid_out. change (map pair_of ?l) with (pair_of <$> l).
    rewrite <- list_fmap_compose. by rewrite sort_by_perm.
  - intros [p b] (em & Hp & Hem)%list_elem_of_fmap. apply elem_of_sort_by in Hem. apply elem_of_bt_list.
    injection Hp as -> ->. destruct (Hin em Hem) as [F HF]. by rewrite HF.
Qed.

Section assembled.
Context (g : Green) (w : WorkParts) (fs : gmap string bytes) (Q : string → Prop) (es : list Entity).
Context (B : gmap string bytes) (HT : tracks B es fs) (Hpl : Forall (plain B Q) es).
Let ems := (classify es).1.
Let removed := (classify es).2.
Let doc := canonicalize (canonicalize (raw_doc ems removed)).
Context (Hsize : len (pt_paths (paths doc)) ≤ u16_max + 1).
Context (HB : ∀ p b, B !! p = Some b → len b ≤ u64_max).
Context (Hseen : ∀ p, seen g w p = fs !! p) (Htotal : files_bytes (bt_list fs) < u64_max).
Let base := mkWorkBase (Some g) (wp_version w).
Let post := assemble_post_state doc (wp_files w) base (wp_journal w).
Let R := post_of fs ems.

Lemma reference_small : len R < u64_max.
Proof.
  assert (len R ≤ files_bytes (bt_list fs)); [|lia]. apply post_of_le; [by apply (volume_distinct B fs es)|].
  intros em Hem. destruct (pe_exact _ _ _ (volume_emissions B fs Q es HT Hpl em Hem)) as (F & HF & _). eauto.
Qed.

Lemma seen_small p F : fs !! p = Some F → len F < u64_max.
Proof.
  intros HF. assert (len F ≤ files_bytes (bt_list fs)); [|lia].
  etrans; [|apply (files_bytes_le [(p, F)])]; [unfold files_bytes; cbn; lia|].
  apply singleton_submseteq_l. by apply elem_of_bt_list.
Qed.

Lemma doc_is_file : file_doc doc.
Proof.
  by apply (doc_file B fs _ _ (volume_distinct B fs es HT) (volume_emissions B fs Q es HT Hpl) (volume_size es Hsize)).
Qed.

(** The operations of the document that add bytes, by path. *)
Lemma doc_adds op :
  op ∈ ops doc → adds_content (op_kind op) = true →
  ∃ p em o F, pt_path (paths doc) (op_path op) = Some p ∧ strip op ∈ doc_content doc p ∧
    region_of (laid_out ems) p 0 = Some (em, o) ∧ content_exact B fs ems removed p em o F.
Proof.
  intros Hop Ha. destruct (fd_ops _ doc_is_file op Hop) as [_ Hi].
  destruct (lookup_lt_is_Some_2 (pt_paths (paths doc)) (N.to_nat (op_path op))) as [p Hp]; [unfold len in Hi; lia|].
  assert (Hpt : pt_path (paths doc) (op_path op) = Some p).
  { unfold pt_path, lookupN. by rewrite (proj2 (N.ltb_lt _ _)). }
  assert (Hin : strip op ∈ doc_content doc p).
  { apply list_elem_of_fmap. exists op. split; [done|]. apply list_elem_of_filter. split; [|done].
    split; [|done]. by destruct (op_kind op). }
  destruct (emission_at ems p) as [em|] eqn:E.
  - destruct (volume_exact B fs Q es HT Hpl Hsize) with (p := p) (em := em) as (o & F & Hr & HF);
      [apply N.lt_le_incl, reference_small|done|done|]. by exists p, em, o, F.
  - pose proof (region_emission ems (volume_distinct B fs es HT) p) as Hr. rewrite E in Hr.
    pose proof (doc_content_none B fs ems removed (volume_distinct B fs es HT)
      (volume_emissions B fs Q es HT Hpl) (volume_size es Hsize) p Hr) as Hn. fold doc in Hn. rewrite Hn in Hin.
    by apply elem_of_nil in Hin.
Qed.

(** Such an operation draws on the region of its file. *)
Lemma doc_adds_src op :
  op ∈ ops doc → adds_content (op_kind op) = true → op_src op + op_len op ≤ len R.
Proof.
  intros Hop Ha. destruct (doc_adds op Hop Ha) as (p & em & o & F & _ & Hin & _ & HF).
  pose proof (ce_region _ _ _ _ _ _ _ _ HF (strip op) Hin Ha) as [_ Hr]. pose proof (ce_fits _ _ _ _ _ _ _ _ HF) as Hf.
  cbn in Hr. fold R in Hf. lia.
Qed.

(** A copy of the assembly: a file's bytes at the operation's offset. *)
Lemma copies_file op source at_ :
  op ∈ ops doc → copies doc (wp_files w) base (wp_journal w) op source at_ →
  adds_content (op_kind op) = true ∧ at_ = op_at op ∧
  ∃ p, pt_path (paths doc) (op_path op) = Some p ∧ fs !! p = Some source.
Proof.
  intros Hop [_ Hs]. destruct (fd_ops _ doc_is_file op Hop) as [Hk _]. unfold post_source in Hs.
  destruct (pt_path (paths doc) (op_path op)) as [p|]; [|done]. cbn [mbind option_bind] in Hs.
  unfold base in Hs. rewrite get_seen, Hseen in Hs. destruct (adds_content (op_kind op)) eqn:Ea.
  - destruct (fs !! p) as [F|] eqn:EF; [|done]. injection Hs as <- <-. split_and!; [done..|]. by exists p.
  - by destruct (op_kind op).
Qed.

Lemma adds_copies op p F :
  op ∈ ops doc → adds_content (op_kind op) = true → pt_path (paths doc) (op_path op) = Some p →
  fs !! p = Some F → copies doc (wp_files w) base (wp_journal w) op F (op_at op).
Proof.
  intros Hop Ha Hp HF. split; [pose proof (doc_adds_src op Hop Ha); pose proof reference_small; lia|].
  unfold post_source. rewrite Hp. cbn [mbind option_bind]. unfold base. by rewrite Ha, get_seen, Hseen, HF.
Qed.

Lemma post_size_small : post_size (ops doc) ≤ len R.
Proof.
  apply (post_size_bounds (ops doc) 0); [lia|]. intros op Hop Hs Hd.
  destruct (fd_ops _ doc_is_file op Hop) as [Hk _].
  assert (Ha : adds_content (op_kind op) = true) by by destruct (op_kind op).
  pose proof (doc_adds_src op Hop Ha). pose proof reference_small. rewrite sat_add_small by lia. done.
Qed.

Lemma sources_small op source at_ :
  op ∈ ops doc → post_source doc (wp_files w) base (wp_journal w) op = Some (source, at_) → len source < u64_max.
Proof.
  intros Hop Hs. destruct (base.decide (op_src op = u64_max)) as [E|E].
  - destruct (adds_content (op_kind op)) eqn:Ea.
    + pose proof (doc_adds_src op Hop Ea). pose proof reference_small. lia.
    + destruct (fd_ops _ doc_is_file op Hop) as [Hk _]. unfold post_source in Hs. rewrite Ea in Hs.
      destruct (pt_path (paths doc) (op_path op)); [|done]. cbn [mbind option_bind] in Hs. destruct (op_kind op) eqn:Ek; try done.
  - destruct (copies_file op source at_ Hop (conj E Hs)) as (_ & _ & p & _ & HF). by eapply seen_small.
Qed.

Lemma len_post : len post = post_size (ops doc).
Proof.
  apply len_assemble; [|apply sources_small].
  pose proof post_size_small. pose proof reference_small. lia.
Qed.

Lemma post_drawn p op :
  op ∈ doc_content doc p → adds_content (op_kind op) = true → op_src op + op_len op ≤ len post.
Proof.
  intros (op' & -> & [_ Hop]%list_elem_of_filter)%list_elem_of_fmap Ha.
  rewrite len_post. change (op_src (strip op') + op_len (strip op')) with (op_src op' + op_len op').
  change (adds_content (op_kind op') = true) in Ha. pose proof (doc_adds_src op' Hop Ha). pose proof reference_small.
  destruct (post_size_bounds (ops doc) 0) as (_ & Hin & _). specialize (Hin op' Hop ltac:(lia)).
  rewrite sat_add_small in Hin by lia. apply Hin. unfold draws_post. by rewrite Ha.
Qed.

(** The copies around a file whose operations stand where they are read: those
    of other files stay out of its region, its own write what belongs there. *)
Lemma window_copies p em o F :
  unshifted 0 (doc_content doc p) = true →
  region_of (laid_out ems) p 0 = Some (em, o) → content_exact B fs ems removed p em o F →
  ∀ x source at_, x ∈ ops doc → copies doc (wp_files w) base (wp_journal w) x source at_ →
    (op_src x + op_len x ≤ o ∨ o + len F ≤ op_src x) ∨
    op_src x + op_len x ≤ post_size (ops doc) ∧ at_ + op_len x ≤ len source ∧ op_src x + op_len x ≤ len R ∧
    slice source at_ (at_ + op_len x) = slice R (op_src x) (op_src x + op_len x).
Proof.
  intros Hu Hr HF x source at_ Hx Hc. destruct (copies_file x source at_ Hx Hc) as (Hax & -> & q & Hxq & Hsq).
  destruct (doc_adds x Hx Hax) as (q' & em' & o' & F' & Hq' & Hin' & Hr' & HF').
  assert (q' = q) as -> by congruence. pose proof reference_small as HR.
  pose proof (ce_region _ _ _ _ _ _ _ _ HF' (strip x) Hin' Hax) as [Hlo' Hhi']. cbn in Hlo', Hhi'.
  destruct (base.decide (q = p)) as [->|Hne].
  - right. assert (F' = source) as -> by (pose proof (ce_file _ _ _ _ _ _ _ _ HF'); congruence).
    destruct (unshifted_bytes _ _ source (doc_content doc p) 0 [] 0 (ce_net _ _ _ _ _ _ _ _ HF')
      (eq_sym (ce_emitted _ _ _ _ _ _ _ _ HF')) eq_refl Hu (strip x) Hin' Hax) as [Hat Hsl].
    pose proof (post_drawn p (strip x) Hin' Hax) as Hdx. rewrite len_post in Hdx.
    split_and!; [exact Hdx|exact Hat|by apply doc_adds_src|]. etrans; [exact Hsl|]. unfold op_bytes.
    change (op_kind (strip x)) with (op_kind x). by rewrite Hax.
  - left. pose proof (laid_out_len B fs ems (volume_emissions B fs Q es HT Hpl)) as Hll.
    destruct (regions_apart (laid_out ems) p q 0 em o em' o' ltac:(done) ltac:(fold R in Hll; lia) Hr Hr') as [?|?];
      rewrite ?(ce_len _ _ _ _ _ _ _ _ HF), ?(ce_len _ _ _ _ _ _ _ _ HF') in *; lia.
Qed.

(** Such a file is laid out exactly. *)
Lemma unshifted_settled p : unshifted 0 (doc_content doc p) = true → settled fs es post p.
Proof.
  intros Hu op Hop Ha. change (op ∈ doc_content doc p) in Hop. change (post_of fs (classify es).1) with R.
  pose proof Hop as (op' & -> & [[_ Hp'] Hop']%list_elem_of_filter)%list_elem_of_fmap.
  change (adds_content (op_kind op') = true) in Ha. change (op_src (strip op')) with (op_src op').
  change (op_len (strip op')) with (op_len op').
  destruct (doc_adds op' Hop' Ha) as (q & em & o & F & Hq & _ & Hr & HF). unfold names_path in Hp'.
  assert (q = p) as -> by congruence. pose proof (doc_adds_src op' Hop' Ha) as Hsrc.
  pose proof (ce_region _ _ _ _ _ _ _ _ HF (strip op') Hop Ha) as [Hlo Hhi].
  pose proof reference_small as HR. pose proof post_size_small as Hps.
  apply slice_ext; [exact (post_drawn p (strip op') Hop Ha)|lia|]. intros i Hi Hi'.
  exact (assemble_window doc (wp_files w) base (wp_journal w) ltac:(lia) sources_small R o (o + len F)
    (window_copies p em o F Hu Hr HF) op' F (op_at op') Hop'
    (adds_copies op' p F Hop' Ha Hq (ce_file _ _ _ _ _ _ _ _ HF)) Hlo Hhi i Hi Hi').
Qed.

(** A file the base does not have is one operation, read where it stands. *)
Lemma new_unshifted p : B !! p = None → unshifted 0 (doc_content doc p) = true.
Proof.
  intros HBp. destruct (emission_at ems p) as [em|] eqn:E.
  - destruct (volume_exact B fs Q es HT Hpl Hsize) with (p := p) (em := em) as (o & F & Hr & HF);
      [apply N.lt_le_incl, reference_small|done|done|].
    apply emission_at_some in E as [Hem <-]. pose proof (volume_emissions B fs Q es HT Hpl em Hem) as Hpe.
    assert (Hc : em_created em = true).
    { destruct (em_created em) eqn:Ec; [done|]. destruct (pe_edited _ _ _ Hpe Ec) as [[b Hb] _]. congruence. }
    pose proof (ce_new _ _ _ _ _ _ _ _ HF Hc) as Hl.
    change (length (doc_content doc (em_final_path em)) ≤ 1)%nat in Hl.
    destruct (doc_content doc (em_final_path em)) as [|op [|]]; [done| |by apply Nat.leb_le in Hl].
    cbn. by destruct (adds_content (op_kind op)).
  - pose proof (region_emission ems (volume_distinct B fs es HT) p) as Hr. rewrite E in Hr.
    pose proof (doc_content_none B fs ems removed (volume_distinct B fs es HT)
      (volume_emissions B fs Q es HT Hpl) (volume_size es Hsize) p Hr) as Hn.
    change (doc_content doc p = []) in Hn. by rewrite Hn.
Qed.
End assembled.

(** ** Deciding the volume's document *)
Section decided.
Context (s : State) (inc : Increment) (fs : gmap string bytes) (es : list Entity).
Let B := d_cur (content s).
Let Q := λ p, occupied_by_nonfile s p = false.
Let doc := canonicalize (canonicalize (raw_doc (classify es).1 (classify es).2)).
Context (Hinv : state_inv s (head s)) (Hbase : inc_base inc = head s).
Context (HT : tracks B es fs) (Hpl : Forall (plain B Q) es) (Hdoc : inc_doc inc = doc).
Context (Hsize : len (pt_paths (paths doc)) ≤ u16_max + 1).
Context (Hmax : len (inc_post inc) ≤ u64_max) (HR : len (post_of fs (classify es).1) ≤ u64_max).
Context (HB : ∀ p b, B !! p = Some b → len b ≤ u64_max).
Context (Hdrawn : ∀ p op, op ∈ doc_content (inc_doc inc) p → adds_content (op_kind op) = true →
  op_src op + op_len op ≤ len (inc_post inc)).

Lemma decided_doc : file_doc (inc_doc inc).
Proof.
  rewrite Hdoc. by apply (doc_file B fs _ _ (volume_distinct B fs es HT) (volume_emissions B fs Q es HT Hpl)
    (volume_size es Hsize)).
Qed.
Lemma decided_free k p : doc_names (inc_doc inc) k p → occupied_by_nonfile s p = false.
Proof. rewrite Hdoc. by apply (volume_names B fs Q es HT Hpl Hsize). Qed.
Lemma decided_creates p :
  doc_names (inc_doc inc) OpKind.Create p ↔ ∃ em, emission_at (classify es).1 p = Some em ∧ em_created em = true.
Proof. rewrite Hdoc. by apply (volume_creates B fs Q es HT Hpl Hsize). Qed.
Lemma decided_unlinks p : doc_names (inc_doc inc) OpKind.Unlink p ↔ p ∈ (classify es).2.
Proof. rewrite Hdoc. by apply (volume_unlinks B fs Q es HT Hpl Hsize). Qed.

Lemma decided_content p :
  match emission_at (classify es).1 p with
  | Some em => ∃ F, fs !! p = Some F ∧
      len (apply (if em_created em then [] else default [] (B !! p)) (doc_content (inc_doc inc) p) (inc_post inc))
        = len F ∧
      (settled fs es (inc_post inc) p →
       apply (if em_created em then [] else default [] (B !! p)) (doc_content (inc_doc inc) p) (inc_post inc) = F) ∧
      fits_base (doc_content (inc_doc inc) p) (if em_created em then 0 else len (default [] (B !! p)))
        (len (inc_post inc)) = true ∧
      (em_created em = false → doc_content (inc_doc inc) p ≠ []) ∧
      (em_created em = true → B !! p = None) ∧ (em_created em = false → is_Some (B !! p))
  | None => doc_content (inc_doc inc) p = []
  end.
Proof. rewrite Hdoc in *. by apply (volume_content B fs Q es HT Hpl Hsize). Qed.

Lemma decided_created_iff p em :
  emission_at (classify es).1 p = Some em → has_elem (r_creates (resolve inc)) p = em_created em.
Proof.
  intros Hem. apply eq_true_iff_eq. rewrite has_elem_true, (resolved_creates inc decided_doc), decided_creates.
  rewrite Hem. naive_solver.
Qed.

Lemma decided_creatable p : doc_names (inc_doc inc) OpKind.Create p → B !! p = None.
Proof.
  intros (em & Hem & Hc)%decided_creates. pose proof (decided_content p) as Hp. rewrite Hem in Hp. naive_solver.
Qed.
Lemma decided_unlinkable p : doc_names (inc_doc inc) OpKind.Unlink p → is_Some (B !! p).
Proof. intros Hp%decided_unlinks. by apply (volume_removed B fs Q es HT Hpl). Qed.
Lemma decided_editable p :
  doc_content (inc_doc inc) p ≠ [] → doc_names (inc_doc inc) OpKind.Create p ∨ is_Some (B !! p).
Proof.
  intros Hne. pose proof (decided_content p) as Hp.
  destruct (emission_at (classify es).1 p) as [em|] eqn:Hem; [|done].
  destruct (em_created em) eqn:Ec; [left; apply decided_creates; eauto|right; naive_solver].
Qed.

Lemma decided_fits : unfit_content s inc (resolve inc) = [].
Proof.
  apply (publish_fits s inc Hinv Hbase decided_doc). intros p Hne. pose proof (decided_content p) as Hp.
  destruct (emission_at (classify es).1 p) as [em|] eqn:Hem; [|done].
  rewrite (decided_created_iff p em Hem). naive_solver.
Qed.

Lemma decided_files p :
  len <$> apply_files B (file_effects s inc (resolve inc)) !! p = len <$> fs !! p ∧
  (settled fs es (inc_post inc) p → apply_files B (file_effects s inc (resolve inc)) !! p = fs !! p).
Proof.
  rewrite (publish_files s inc Hinv Hbase decided_doc decided_free decided_creatable decided_unlinkable
    decided_editable). pose proof (decided_content p) as Hp. unfold published.
  destruct (emission_at (classify es).1 p) as [em|] eqn:Hem.
  - rewrite (decided_created_iff p em Hem). destruct Hp as (F & -> & Hlen & Happ & _ & Hne & _). fold B.
    assert (Hset : em_created em || negb (is_nil (doc_content (inc_doc inc) p)) = true).
    { destruct (em_created em); [done|]. by destruct (doc_content (inc_doc inc) p); [destruct Hne|]. }
    rewrite Hset. cbn. rewrite Hlen. split; [done|]. intros Hs. by rewrite Happ.
  - assert (E : (if has_elem (r_creates (resolve inc)) p || negb (is_nil (doc_content (inc_doc inc) p))
        then Some (apply (if has_elem (r_creates (resolve inc)) p then [] else default [] (d_cur (content s) !! p))
          (doc_content (inc_doc inc) p) (inc_post inc))
        else if has_elem (r_unlinks (resolve inc)) p then None else d_cur (content s) !! p) = fs !! p);
      [|by rewrite E].
    rewrite Hp. cbn [is_nil negb]. rewrite orb_false_r, (proj2 (has_elem_false _ _)).
    2: { rewrite (resolved_creates inc decided_doc), decided_creates, Hem. naive_solver. }
    rewrite (volume_rest B fs Q es HT Hpl p Hem). case_decide as Hd.
    + rewrite (proj2 (has_elem_true _ _)); [done|].
      by rewrite (resolved_unlinks inc decided_doc), decided_unlinks.
    + rewrite (proj2 (has_elem_false _ _)); [done|].
      by rewrite (resolved_unlinks inc decided_doc), decided_unlinks.
Qed.

Lemma document_publishes hits :
  ∃ hits', decide s hits inc (resolve inc) = (hits', Ok (file_effects s inc (resolve inc))) ∧
    apply_effects (tree_now s) (file_effects s inc (resolve inc)) =
      with_files (tree_now s) (apply_files B (file_effects s inc (resolve inc))).
Proof.
  destruct (decide_files s hits inc _ _ _ (resolve_file_doc inc decided_doc)) as [hits' Hd].
  - apply (publish_no_windows s inc Hinv Hbase decided_doc decided_free decided_creatable decided_unlinkable
      decided_editable).
  - apply decided_fits.
  - exists hits'. split; [done|]. unfold apply_effects. cbv zeta.
    by rewrite (publish_tree s inc Hinv Hbase decided_doc decided_free decided_creatable decided_unlinkable
      decided_editable).
Qed.
End decided.

(** ** End to end *)
Section theorem.
Context `{Blake3}.

(** An increment a green decides with [Ok] and has not seen is committed. *)
Lemma submit_fresh g inc hits effects :
  green_reachable g → head (g_state g) < u64_max →
  accepted g !! inc_id inc = None → rejected (g_cache g) !! inc_id inc = None →
  decide (g_state g) (fast_path_hits g) inc (resolve inc) = (hits, Ok effects) →
  ∃ g', submit g inc = (g', Accepted (head (g_state g) + 1)) ∧
    tree_now (g_state g') = apply_effects (tree_now (g_state g)) effects.
Proof.
  intros _ Hh Ha Hr Hd. unfold submit. rewrite Ha, Hr, Hd. cbv zeta.
  rewrite sat_add_small by lia.
  destruct (commit _ _ _ _) as [s' dirty] eqn:Ec. eexists. split; [reflexivity|]. cbn [g_state].
  rewrite <- (commit_tree (g_state g) (identity_dirty (g_ident g)) effects (head (g_state g) + 1)), Ec. done.
Qed.

(** A log in range, replayed from the head and sealed. *)
Lemma log_version g log w :
  let s := g_state g in
  state_inv s (head s) → log_in_range g (mkWorkParts (head s) ∅ []) log →
  replay_log (Some g) (head s) log = Ok w → wp_version w = head s.
Proof.
  intros s Hinv Hlog Hw.
  destruct (log_runs g log (mkWorkParts (head s) ∅ []) (d_cur (content s))
    ltac:(intros p; rewrite seen_at; symmetry; apply dok_cur, di_ok, Hinv) Hlog)
    as (w' & journal & fs & Hw' & [Hver _ _ _ _ _]).
  unfold replay_log in Hw. rewrite Hw in Hw'. by injection Hw' as <-.
Qed.

Lemma log_sealed g log w doc (s := g_state g) (B := d_cur (content s)) :
  state_inv s (head s) → (∀ p b, B !! p = Some b → len b ≤ u64_max) →
  log_in_range g (mkWorkParts (head s) ∅ []) log → replay_log (Some g) (head s) log = Ok w →
  compose_volume (base_for s (head s) (wp_journal w)) (wp_journal w) = Ok doc →
  ∃ fs es, wp_version w = head s ∧ (∀ p, seen g w p = fs !! p) ∧
    work_files (wp_files w) (mkWorkBase (Some g) (head s)) = bt_list fs ∧
    tracks B es fs ∧ Forall (plain B (λ p, occupied_by_nonfile s p = false)) es ∧
    doc = canonicalize (canonicalize (raw_doc (classify es).1 (classify es).2)).
Proof.
  intros Hinv HB Hlog Hw Hcv.
  assert (Hat : ∀ p, content_at s p (head s) = B !! p) by (intros p; symmetry; apply dok_cur, di_ok, Hinv).
  destruct (log_runs g log (mkWorkParts (head s) ∅ []) B ltac:(intros p; rewrite seen_at; apply Hat) Hlog)
    as (w' & journal & fs & Hw' & [Hver Hjour Hrun Hseen Hfree Hplain]).
  unfold replay_log in Hw. rewrite Hw in Hw'. injection Hw' as <-. cbn in Hver, Hjour.
  specialize (Hplain B (λ p, eq_sym (Hat p))). rewrite Hjour in Hcv.
  destruct (compose_gathered s journal.*1 doc) as (es & Hes & Hdoc); [|done|done|].
  { intros op Hop. rewrite Forall_forall in Hplain. by eapply plain_file_op, Hplain. }
  pose proof (head_base_of s HB) as Hbo. fold B in Hbo.
  pose proof (replay_tracks _ B Hbo journal [] B fs (tracks_nil B) Hrun) as HT. rewrite Hes in HT.
  exists fs, es. split_and!; [done|done| |done| |done].
  - rewrite <- Hver. apply work_files_seen; [fold s; lia| |done]. intros p. rewrite Hver. apply Hat.
  - by apply (plain_replay _ B (λ p, occupied_by_nonfile s p = false) Hbo journal.*1 [] es).
Qed.

(** C1. A work published as the shard publishes it.  Let a work on a
    reachable green, created at the head, hold what its log says: edits inside
    their files (a new file from its start), unlinks, and renames of files the
    base has not, naming no directory, link or IPC name of the head; all its
    files together fit a word.  When [build_increment] makes an increment of
    it whose path table fits a [u16] index and whose id is new, the green
    accepts the increment at the next version.  The new tree differs from the
    head's in its files alone; its paths are the work's paths and each file
    has the length the work sees; and a file's bytes are the work's bytes
    wherever the base has no such file or no operation that adds bytes to it
    follows a net change of length.  (Where one does, [assemble_post_state]
    reads the file at base offsets: [shifted_edit_published_wrong].) *)
Theorem work_published hash st g green_id work_id log w evidence to inc :
  let s := g_state g in
  green_reachable g → head s < u64_max →
  (∀ p b, d_cur (content s) !! p = Some b → len b ≤ u64_max) →
  log_in_range g (mkWorkParts (head s) ∅ []) log → replay_log (Some g) (head s) log = Ok w →
  files_bytes (work_files (wp_files w) (mkWorkBase (Some g) (head s))) < u64_max →
  works st !! work_id = Some (work_of green_id w) → greens st !! green_id = Some g →
  build_increment hash st work_id evidence = Ok (to, inc) →
  len (pt_paths (paths (inc_doc inc))) ≤ u16_max + 1 →
  accepted g !! inc_id inc = None → rejected (g_cache g) !! inc_id inc = None →
  to = green_id ∧
  ∃ g', submit g inc = (g', Accepted (head s + 1)) ∧
    let files := d_cur (content (g_state g')) in
    tree_now (g_state g') = with_files (tree_now s) files ∧
    ∀ p, len <$> files !! p = len <$> seen g w p ∧
      (d_cur (content s) !! p = None ∨ unshifted 0 (doc_content (inc_doc inc) p) = true →
       files !! p = seen g w p).
Proof.
  intros s Hg Hh HB Hlog Hw Htotal Hwork Hgreen Hbuild Hsize Ha Hr.
  pose proof (gi_state _ (reachable_inv g Hg)) as Hinv. fold s in Hinv. set (B := d_cur (content s)) in *.
  pose proof (log_version g log w Hinv Hlog Hw) as Hver. fold s in Hver.
  destruct (build_increment_ok hash st work_id evidence to inc _ g Hwork Hgreen) as (-> & Hbase & Hcv & Hpost);
    [cbn; fold s; lia|done|]. cbn [work_of w_green w_base_version w_journal w_files] in *. split; [done|].
  rewrite Hver in *.
  destruct (log_sealed g log w (inc_doc inc) Hinv HB Hlog Hw Hcv) as (fs & es & _ & Hseen & Hfiles & HT & Hpl & Hdoc).
  fold s in Hfiles. rewrite Hfiles in Htotal. fold s B in HT, Hpl.
  pose proof Hsize as Hsize'. rewrite Hdoc in Hsize'.
  pose proof (reference_small fs _ es B HT Hpl Hsize' Htotal) as HR.
  pose proof (len_post g w fs _ es B HT Hpl Hsize' HB Hseen Htotal) as Hlp.
  pose proof (post_size_small fs _ es B HT Hpl Hsize' HB Htotal) as Hps.
  pose proof (post_drawn g w fs _ es B HT Hpl Hsize' HB Hseen Htotal) as Hdr.
  pose proof (unshifted_settled g w fs _ es B HT Hpl Hsize' HB Hseen Htotal) as Hset.
  pose proof (new_unshifted fs _ es B HT Hpl Hsize' HB Htotal) as Hnew.
  rewrite Hver in Hlp, Hdr, Hset. rewrite <- Hdoc in Hlp, Hps, Hdr, Hset, Hnew. rewrite <- Hpost in Hlp, Hdr, Hset.
  assert (Hmax : len (inc_post inc) ≤ u64_max) by lia.
  destruct (document_publishes s inc fs es Hinv Hbase HT Hpl Hdoc Hsize' Hmax (N.lt_le_incl _ _ HR) HB Hdr
    (fast_path_hits g)) as (hits & Hd & Htree).
  destruct (submit_fresh g inc hits _ Hg Hh Ha Hr Hd) as (g' & Hsub & Hnow).
  exists g'. split; [done|]. cbv zeta. fold s in Hnow. rewrite Htree in Hnow.
  assert (Hf : d_cur (content (g_state g')) = apply_files B (file_effects s inc (resolve inc)))
    by exact (f_equal t_files Hnow). rewrite Hf. split; [exact Hnow|]. intros p. rewrite Hseen.
  destruct (decided_files s inc fs es Hinv Hbase HT Hpl Hdoc Hsize' Hmax (N.lt_le_incl _ _ HR) HB Hdr p) as [Hl He].
  split; [exact Hl|]. intros [Hn|Hu]; apply He, Hset; [by apply Hnew|done].
Qed.
End theorem.

(** ** On the samples *)

(** The increment a shard builds of a log on [green0], hashed by its first bytes. *)
Definition work_id : bytes := [byte_of 7].
Definition log_parts (log : list WorkLogEntry) : WorkParts :=
  match replay_log (Some green0) 0 log with Ok w => w | Err _ => mkWorkParts 1 ∅ [] end.
Definition sample_shard (log : list WorkLogEntry) : Shard :=
  mkShard {[ work_id := work_of [] (log_parts log) ]} {[ [] := green0 ]}.
Definition built (log : list WorkLogEntry) : Increment :=
  match build_increment (takeN 32) (sample_shard log) work_id [] with
  | Ok (_, inc) => inc
  | Err _ => mkIncrement [] 9 OpsDoc_new [] []
  end.

(** A save by rename, the way editors do it ([t] written, then moved onto
    [a]), and [b] removed. *)
Definition save_log : list WorkLogEntry :=
  [EditEntry "t" 0 0 (as_bytes "hi"); DeclaredEntry (LoggedOp.Rename "t" "a");
   DeclaredEntry (LoggedOp.Unlink "b")].

Lemma save_log_in_range : log_in_range green0 (mkWorkParts (head (g_state green0)) ∅ []) save_log.
Proof.
  unfold save_log. cbn [log_in_range]. split; [split_and!; [vm_compute; reflexivity|by_bound..]|].
  change (replay_entry _ _ (EditEntry _ _ _ _)) with
    (Ok (log_parts [EditEntry "t" 0 0 (as_bytes "hi")]) : result ReplayError WorkParts). cbv iota.
  split; [split_and!; [vm_compute; reflexivity..|vm_compute; by eexists|vm_compute; reflexivity]|].
  match goal with |- match ?r with Ok w => _ | Err _ => _ end => assert (E : r = Ok (log_parts (take 2 save_log))) end;
    [vm_compute; reflexivity|rewrite E].
  split; [split_and!; [vm_compute; reflexivity|vm_compute; by eexists]|].
  match goal with |- match ?r with Ok w => _ | Err _ => _ end => assert (E' : r = Ok (log_parts save_log)) end;
    [vm_compute; reflexivity|by rewrite E'].
Qed.

Lemma work_published_witness :
  seen green0 (log_parts save_log) "a" = Some (as_bytes "hi") ∧
  ∃ g', submit green0 (built save_log) = (g', Accepted 1) ∧
    d_cur (content (g_state g')) !! "a"%string = Some (as_bytes "hi") ∧
    d_cur (content (g_state g')) !! "b"%string = None.
Proof.
  split; [vm_compute; reflexivity|].
  destruct (work_published (H := prefix_hash) (takeN 32) (sample_shard save_log) green0 [] work_id save_log
    (log_parts save_log) [] [] (built save_log)) as (_ & g' & Hsub & _ & Hfiles).
  - apply green0_reachable.
  - by_bound.
  - intros p b Hb. change (d_cur (content (g_state green0))) with
      (<["b"%string := as_bytes "bye"]> (<["a"%string := as_bytes "hello"]> (∅ : gmap string bytes))) in Hb.
    rewrite !lookup_insert_Some, lookup_empty in Hb.
    destruct Hb as [[_ <-]|[_ [[_ <-]|[_ Hb]]]]; [vm_compute; discriminate..|done].
  - apply save_log_in_range.
  - vm_compute. reflexivity.
  - by_bound.
  - vm_compute. reflexivity.
  - vm_compute. reflexivity.
  - vm_compute. reflexivity.
  - by_bound.
  - vm_compute. reflexivity.
  - vm_compute. reflexivity.
  - exists g'. split; [exact Hsub|]. split.
    + rewrite (proj2 (Hfiles "a"%string)) by (right; vm_compute; reflexivity). vm_compute. reflexivity.
    + rewrite (proj2 (Hfiles "b"%string)) by (right; vm_compute; reflexivity). vm_compute. reflexivity.
Defined.

(** An insert at the start, then the last byte replaced: the replacement
    follows a net change of length, and the post-state takes its byte from the
    file at the base offset.  The work sees [XhellO]; [Xhelll] is published. *)
Definition shifted_log : list WorkLogEntry :=
  [EditEntry "a" 0 0 (as_bytes "X"); EditEntry "a" 5 1 (as_bytes "O")].
Lemma shifted_edit_published_wrong :
  let '(g', outcome) := submit green0 (built shifted_log) in
  outcome = Accepted 1 ∧ seen green0 (log_parts shifted_log) "a" = Some (as_bytes "XhellO") ∧
  d_cur (content (g_state g')) !! "a"%string = Some (as_bytes "Xhelll") ∧
  unshifted 0 (doc_content (inc_doc (built shifted_log)) "a") = false.
Proof. vm_compute. split_and!; reflexivity. Qed.
