(* ===== verification/RaftState.v ===== *)
(** * The state of a Raft node

    Models the data of [crates/cluster/src/raft.rs]: the messages, the log,
    the window, what is retained and its validation, the admission checks of
    peer messages, and the node itself.  The node's fields are grouped by what
    they are for; each is read as [field n] and written as
    [n <| field := v |>], as the source writes [self.field]. *)

From S2P Require Import Prelude.
#[local] Open Scope N_scope.

(** ** Identities, roles and messages *)

(** [HostId(u64)]. *)
Abbreviation HostId := N (only parsing).

Inductive Role := Follower | PreCandidate | Candidate | Leader.
#[export] Instance Role_eq_dec : EqDecision Role.
Proof. solve_decision. Defined.

(** A counter's [saturating_add(1)], of a [u64] and of a [u8]. *)
Definition tick (n : N) : N := sat_add n 1.
Definition tick_u8 (n : N) : N := N.min (n + 1) u8_max.

Record VoterConfig := mkVoterConfig { vc_voters : list HostId; vc_joint : option (list HostId) }.
#[export] Instance VoterConfig_eq_dec : EqDecision VoterConfig.
Proof. solve_decision. Defined.

Record LogEntry := mkLogEntry { le_term : N; le_command : bytes; le_config : option VoterConfig }.
#[export] Instance LogEntry_eq_dec : EqDecision LogEntry.
Proof. solve_decision. Defined.

(** [LogEntry::command] and [LogEntry::configuration]. *)
Definition command_entry (term : N) (command : bytes) : LogEntry := mkLogEntry term command None.
Definition configuration_entry (term : N) (config : VoterConfig) : LogEntry :=
  mkLogEntry term [] (Some config).

Definition ENTRY_COUNT_BYTES : N := 4.
Definition ENTRY_FLAG_BYTES : N := 1.
Definition MIN_ENTRY_BYTES : N := 8 + ENTRY_COUNT_BYTES + ENTRY_FLAG_BYTES.

(** [LogEntry::encoded_len]. *)
Definition hosts_len (set : list HostId) : N := sat_add ENTRY_COUNT_BYTES (sat_mul (len set) 8).
Definition config_len (config : VoterConfig) : N :=
  sat_add (sat_add (hosts_len (vc_voters config)) ENTRY_FLAG_BYTES)
    (from_option hosts_len 0 (vc_joint config)).
Definition encoded_len (entry : LogEntry) : N :=
  sat_add (sat_add (sat_add (sat_add 8 ENTRY_COUNT_BYTES) (len (le_command entry))) ENTRY_FLAG_BYTES)
    (from_option config_len 0 (le_config entry)).

(** [.map(encoded_len).fold(0, usize::saturating_add)]. *)
Definition bytes_of (entries : list LogEntry) : N :=
  foldl (λ total entry, sat_add total (encoded_len entry)) 0 entries.

(** [fast_quorum]: the least size whose double and a classic quorum exceed twice the voters. *)
Definition fast_enough (voters fast : N) : bool :=
  0 <? sat_sub (sat_add (sat_mul fast 2) (sat_add (voters / 2) 1)) (sat_mul voters 2).
Definition fast_quorum (voters : N) : N :=
  default voters (List.find (fast_enough voters) (N.of_nat <$> seq 1 (N.to_nat voters))).

Record ElectionPriority := mkPriority { quorum_ns : N; spread_ns : N }.
Definition priority_default : ElectionPriority := mkPriority 0 0.
(** [ElectionPriority::outranks]. *)
Definition outranks (a b : ElectionPriority) : bool :=
  (0 <? quorum_ns a) && (0 <? quorum_ns b)
  && (sat_add (quorum_ns a) (spread_ns a) <? sat_sub (quorum_ns b) (spread_ns b)).

(** A window slot and its ballot: within a term the leader's entry outranks a fast vote. *)
Record WindowSlot := mkWindowSlot { ws_term : N; ws_fast : bool; ws_entry : LogEntry }.
Definition ballot (slot : WindowSlot) : N * bool := (ws_term slot, negb (ws_fast slot)).
(** The derived order of [(u64, bool)]. *)
Definition ballot_leb (a b : N * bool) : bool :=
  if a.1 =? b.1 then implb a.2 b.2 else a.1 <=? b.1.
Record SlotReport := mkSlotReport { sr_index : N; sr_slot : WindowSlot }.

Record RequestVote := mkRequestVote {
  rv_term : N; rv_candidate : HostId; rv_last_log_index : N; rv_last_log_term : N }.
Record PreVote := mkPreVote {
  pv_term : N; pv_candidate : HostId; pv_last_log_index : N; pv_last_log_term : N }.
Record PreVoteReply := mkPreVoteReply { pvr_voter : HostId; pvr_term : N; pvr_granted : bool }.
Record VoteReply := mkVoteReply {
  vr_voter : HostId; vr_term : N; vr_granted : bool; vr_reports : list SlotReport }.
Record FastPropose := mkFastPropose {
  fp_term : N; fp_proposer : HostId; fp_index : N; fp_command : bytes }.
Record FastVote := mkFastVote { fv_term : N; fv_voter : HostId; fv_index : N; fv_command : bytes }.
Record TimeoutNow := mkTimeoutNow { tn_term : N; tn_leader : HostId }.
Record AppendEntries := mkAppendEntries {
  ae_read_context : N; ae_term : N; ae_leader : HostId; ae_prev_log_index : N; ae_prev_log_term : N;
  ae_entries : list LogEntry; ae_leader_commit : N; ae_priorities : list (HostId * ElectionPriority);
  ae_sync_index : N; ae_open_from : N }.
Record AppendReply := mkAppendReply {
  ar_read_context : N; ar_follower : HostId; ar_term : N; ar_success : bool; ar_match_index : N;
  ar_conflict_term : N; ar_conflict_index : N; ar_priority : ElectionPriority }.
Record InstallSnapshot := mkInstallSnapshot {
  is_term : N; is_sender : HostId; is_last_included_index : N; is_last_included_term : N;
  is_config : VoterConfig; is_state : bytes }.
Record InstallSnapshotReply := mkInstallSnapshotReply {
  isr_follower : HostId; isr_term : N; isr_match_index : N }.

Inductive TransferRefusal := NotLeader | TargetIsSelf | TargetNotVoter | InFlight (target : HostId).
Record Transfer := mkTransfer {
  tf_target : HostId; tf_term : N; tf_quorum_checks : N; tf_invited : bool }.
Definition TRANSFER_QUORUM_CHECKS : N := 2.
Record Staging := mkStaging {
  sg_round_end : N; sg_window_passed : bool; sg_lag_at_tick : N; sg_strikes : N; sg_caught_up : bool }.
Definition PRIORITY_WINDOWS : N := 2.
Definition STALLED_WINDOWS : N := 1.
Inductive CatchUp := CatchUpReady | CatchUpPending | CatchUpAborted (member : HostId) | CatchUpNotLeader.

Inductive PreVoteRefusal := RefusedRole | RefusedLeased | RefusedTerm | RefusedLog.
Record PreVoteTally := mkPreVoteTally {
  pt_granted : N; pt_refused : N; pt_refused_role : N; pt_refused_leased : N; pt_refused_term : N;
  pt_refused_log : N }.
(** [PreVoteTally::count]. *)
Definition tally_count (t : PreVoteTally) (refusal : PreVoteRefusal) : PreVoteTally :=
  let '(mkPreVoteTally g r ro le te lo) := t in
  match refusal with
  | RefusedRole => mkPreVoteTally g r (tick ro) le te lo
  | RefusedLeased => mkPreVoteTally g r ro (tick le) te lo
  | RefusedTerm => mkPreVoteTally g r ro le (tick te) lo
  | RefusedLog => mkPreVoteTally g r ro le te (tick lo)
  end.

Record ElectionView := mkElectionView {
  ev_term : N; ev_priority : ElectionPriority; ev_leader_lease : bool; ev_pre_elections : N;
  ev_elections : N; ev_pre_votes : PreVoteTally; ev_seated : N; ev_joint : bool }.

Record ReadRound := mkReadRound {
  rr_context : N; rr_term : N; rr_index : N; rr_config : VoterConfig; rr_confirmed : gset HostId }.

(** ** What is retained *)
Record SavedRaft := mkSavedRaft {
  s_id : HostId; s_base : VoterConfig; s_term : N; s_voted_for : option HostId; s_log : list LogEntry;
  s_commit_index : N; s_snapshot_index : N; s_snapshot_term : N; s_snapshot_data : bytes;
  s_window : list SlotReport; s_synced_term : N }.

Inductive RaftRecoveryError :=
| AlreadyInitialized | ReusedIdentity | InvalidVoters | InvalidSnapshot | InvalidLogTerm
| InvalidCommitIndex | IndexOverflow | InvalidWindow.

(** [valid_config]: each set nonempty and without repeats. *)
Definition valid_set (voters : list HostId) : bool :=
  negb (bool_decide (voters = [])) && bool_decide (NoDup voters).
Definition valid_config (config : VoterConfig) : bool :=
  valid_set (vc_voters config) && from_option valid_set true (vc_joint config).
Definition entry_config_valid (entry : LogEntry) : bool := from_option valid_config true (le_config entry).

(** [SavedRaft::validate_window]: the first use of each index is fresh. *)
Definition validate_window (s : SavedRaft) : result RaftRecoveryError unit :=
  if (s_synced_term s <=? s_term s)
     && forallb (λ r, (0 <? sr_index r) && (ws_term (sr_slot r) <=? s_term s)) (s_window s)
     && bool_decide (NoDup (map sr_index (s_window s)))
  then Ok tt else Err InvalidWindow.

(** The entry loop of [SavedRaft::validate]. *)
Fixpoint validate_entries (term previous : N) (entries : list LogEntry) : result RaftRecoveryError unit :=
  match entries with
  | [] => Ok tt
  | entry :: rest =>
      if (le_term entry =? 0) || (le_term entry <? previous) || (term <? le_term entry)
      then Err InvalidLogTerm
      else if negb (entry_config_valid entry) then Err InvalidVoters
      else validate_entries term (le_term entry) rest
  end.

(** [SavedRaft::validate]. *)
Definition validate (s : SavedRaft) : result RaftRecoveryError unit :=
  if negb (valid_config (s_base s)) then Err InvalidVoters
  else if ((s_snapshot_index s =? 0) && (negb (s_snapshot_term s =? 0) || negb (bool_decide (s_snapshot_data s = []))))
          || ((0 <? s_snapshot_index s) && (s_snapshot_term s =? 0)) || (s_term s <? s_snapshot_term s)
  then Err InvalidSnapshot
  else
    last_index ← ok_or (checked_add (s_snapshot_index s) (len (s_log s))) IndexOverflow;
    if (s_commit_index s <? s_snapshot_index s) || (last_index <? s_commit_index s)
    then Err InvalidCommitIndex
    else
      _ ← validate_entries (s_term s) (s_snapshot_term s) (s_log s);
      validate_window s.

(** ** Admission of peer messages *)
Module Malformed.
Inductive t := ZeroTerm | Position | EntryTerm | Voters | Snapshot | Slot | Match.
#[global] Instance eq_dec : EqDecision t.
Proof. solve_decision. Defined.
#[global] Instance countable : Countable t.
Proof.
  refine {|
    encode k := match k with
      | ZeroTerm => 1 | Position => 2 | EntryTerm => 3 | Voters => 4 | Snapshot => 5 | Slot => 6 | Match => 7
      end%positive;
    decode p := match p with
      | 1 => Some ZeroTerm | 2 => Some Position | 3 => Some EntryTerm | 4 => Some Voters
      | 5 => Some Snapshot | 6 => Some Slot | 7 => Some Match | _ => None
      end%positive |}.
  by intros [].
Defined.
End Malformed.

Definition position_agrees (index term : N) : bool := Bool.eqb (index =? 0) (term =? 0).

Fixpoint admit_entries (entries : list LogEntry) (previous term : N) : result Malformed.t unit :=
  match entries with
  | [] => Ok tt
  | entry :: rest =>
      if (le_term entry =? 0) || (term <? le_term entry) || (le_term entry <? previous)
      then Err Malformed.EntryTerm
      else if negb (entry_config_valid entry) then Err Malformed.Voters
      else admit_entries rest (le_term entry) term
  end.

Definition admit_snapshot (request : InstallSnapshot) : result Malformed.t unit :=
  if is_term request =? 0 then Err Malformed.ZeroTerm
  else if (is_last_included_index request =? 0) || (is_last_included_term request =? 0)
          || (is_term request <? is_last_included_term request)
  then Err Malformed.Snapshot
  else if negb (valid_config (is_config request)) then Err Malformed.Voters
  else Ok tt.

Definition admit_candidacy (term last_log_index last_log_term : N) : result Malformed.t unit :=
  if term =? 0 then Err Malformed.ZeroTerm
  else if (term <? last_log_term) || negb (position_agrees last_log_index last_log_term)
  then Err Malformed.Position
  else Ok tt.

(** The loop of [admit_reports], over the indices already seen. *)
Fixpoint admit_report_loop (term : N) (seen : gset N) (reports : list SlotReport) : result Malformed.t unit :=
  match reports with
  | [] => Ok tt
  | r :: rest =>
      if (sr_index r =? 0) || (term <? ws_term (sr_slot r)) || has_elem seen (sr_index r)
      then Err Malformed.Slot
      else
        _ ← admit_entries [ws_entry (sr_slot r)] 0 term;
        admit_report_loop term ({[ sr_index r ]} ∪ seen) rest
  end.
Definition admit_reports (reply : VoteReply) : result Malformed.t unit :=
  admit_report_loop (vr_term reply) ∅ (vr_reports reply).

(** ** A won election's recovery *)
Record Recovery := mkRecovery {
  rc_term : N; rc_decided : gmap N (LogEntry * bool); rc_next : N; rc_last : N; rc_reach : N;
  rc_sliced : bool }.

Record WindowCounters := mkWindowCounters {
  wc_recovered : N; wc_recovered_fast_choices : N; wc_recovered_beyond_reach : N; wc_holes_filled : N;
  wc_pruned : N; wc_buffered : N; wc_absorbed : N; wc_decided_from_votes : N; wc_sent_ahead : N;
  wc_fast_commits : N; wc_recovery_slices : N; wc_recovery_refused : N; wc_recoveries_sliced : N }.

(** ** The node *)
(** The retained state, with what is derived from it. *)
#[projections(primitive)] Record Hard := mkHard {
  h_id : HostId;
  h_voters : list HostId;
  h_joint : option (list HostId);
  h_current_term : N;
  h_voted_for : option HostId;
  h_log : list LogEntry;
  h_config_entries : gset N;
  h_commit_index : N;
  h_snapshot_index : N;
  h_snapshot_term : N;
  h_snapshot_data : bytes;
  h_window : gmap N WindowSlot;
  h_synced_term : N
}.

(** The role and the votes gathered. *)
#[projections(primitive)] Record Election := mkElection {
  e_role : Role;
  e_votes : gset HostId;
  e_pre_votes : gset HostId;
  e_has_leader : bool;
  e_leader_hint : option HostId;
  e_contacts : gset HostId;
  e_reports : gmap HostId (list SlotReport)
}.

(** Read rounds. *)
#[projections(primitive)] Record Reads := mkReads {
  rd_read_context : N;
  rd_read_round : option ReadRound;
  rd_read_floor : N
}.

(** What a leader knows of its followers' logs. *)
#[projections(primitive)] Record Progress := mkProgress {
  p_next_index : gmap HostId N;
  p_match_index : gmap HostId N;
  p_probing : gset HostId;
  p_staging : gmap HostId Staging;
  p_staging_aborted : option HostId
}.

(** Leadership transfer and priorities. *)
#[projections(primitive)] Record Handoff := mkHandoff {
  t_transfer : option Transfer;
  t_own_priority : ElectionPriority;
  t_priorities : gmap HostId ElectionPriority;
  t_windows_led : N;
  t_priority_transfer_pending : bool;
  t_priority_transfer_failed : bool
}.

(** The fast track and a leader's recovery. *)
#[projections(primitive)] Record FastTrack := mkFastTrack {
  f_sync_index : N;
  f_open_from : N;
  f_open_announced : N * N;
  f_fast_votes : gmap N (gmap HostId bytes);
  f_fast_chosen : gset N;
  f_fast_through : N;
  f_fast_proposed : N;
  f_recovery : option Recovery
}.

(** The counters an observer reads. *)
#[projections(primitive)] Record Tallies := mkTallies {
  c_transfers_aborted : N;
  c_stagings_aborted : N;
  c_priority_transfers : N;
  c_pre_elections : N;
  c_elections : N;
  c_terms_exhausted : N;
  c_indices_exhausted : N;
  c_pre_vote_tally : PreVoteTally;
  c_malformed : gmap Malformed.t N;
  c_window_counters : WindowCounters;
  c_budget_refused : N
}.

#[projections(primitive)] Record RaftNode := mkRaftNode {
  retention_pending : bool;
  window_budget : N;
  log_budget : N;
  log_bytes_held : N;
  hard : Hard;
  election : Election;
  reads : Reads;
  progress : Progress;
  handoff : Handoff;
  fast_track : FastTrack;
  tallies : Tallies
}.

(** ** Fields of a node, read and written as [self.field] is *)

#[export] Instance set_retention_pending : Setter retention_pending := λ f n,
  mkRaftNode (f (retention_pending n)) (window_budget n) (log_budget n) (log_bytes_held n) (hard n)
    (election n) (reads n) (progress n) (handoff n) (fast_track n) (tallies n).
#[export] Instance set_window_budget : Setter window_budget := λ f n,
  mkRaftNode (retention_pending n) (f (window_budget n)) (log_budget n) (log_bytes_held n) (hard n)
    (election n) (reads n) (progress n) (handoff n) (fast_track n) (tallies n).
#[export] Instance set_log_budget : Setter log_budget := λ f n,
  mkRaftNode (retention_pending n) (window_budget n) (f (log_budget n)) (log_bytes_held n) (hard n)
    (election n) (reads n) (progress n) (handoff n) (fast_track n) (tallies n).
#[export] Instance set_log_bytes_held : Setter log_bytes_held := λ f n,
  mkRaftNode (retention_pending n) (window_budget n) (log_budget n) (f (log_bytes_held n)) (hard n)
    (election n) (reads n) (progress n) (handoff n) (fast_track n) (tallies n).
#[export] Instance set_hard : Setter hard := λ f n,
  mkRaftNode (retention_pending n) (window_budget n) (log_budget n) (log_bytes_held n) (f (hard n))
    (election n) (reads n) (progress n) (handoff n) (fast_track n) (tallies n).
#[export] Instance set_election : Setter election := λ f n,
  mkRaftNode (retention_pending n) (window_budget n) (log_budget n) (log_bytes_held n) (hard n)
    (f (election n)) (reads n) (progress n) (handoff n) (fast_track n) (tallies n).
#[export] Instance set_reads : Setter reads := λ f n,
  mkRaftNode (retention_pending n) (window_budget n) (log_budget n) (log_bytes_held n) (hard n) (election n)
    (f (reads n)) (progress n) (handoff n) (fast_track n) (tallies n).
#[export] Instance set_progress : Setter progress := λ f n,
  mkRaftNode (retention_pending n) (window_budget n) (log_budget n) (log_bytes_held n) (hard n) (election n)
    (reads n) (f (progress n)) (handoff n) (fast_track n) (tallies n).
#[export] Instance set_handoff : Setter handoff := λ f n,
  mkRaftNode (retention_pending n) (window_budget n) (log_budget n) (log_bytes_held n) (hard n) (election n)
    (reads n) (progress n) (f (handoff n)) (fast_track n) (tallies n).
#[export] Instance set_fast_track : Setter fast_track := λ f n,
  mkRaftNode (retention_pending n) (window_budget n) (log_budget n) (log_bytes_held n) (hard n) (election n)
    (reads n) (progress n) (handoff n) (f (fast_track n)) (tallies n).
#[export] Instance set_tallies : Setter tallies := λ f n,
  mkRaftNode (retention_pending n) (window_budget n) (log_budget n) (log_bytes_held n) (hard n) (election n)
    (reads n) (progress n) (handoff n) (fast_track n) (f (tallies n)).

Definition id (n : RaftNode) : HostId := h_id (hard n).
Definition voters (n : RaftNode) : list HostId := h_voters (hard n).
Definition joint (n : RaftNode) : option (list HostId) := h_joint (hard n).
Definition current_term (n : RaftNode) : N := h_current_term (hard n).
Definition voted_for (n : RaftNode) : option HostId := h_voted_for (hard n).
Definition log (n : RaftNode) : list LogEntry := h_log (hard n).
Definition config_entries (n : RaftNode) : gset N := h_config_entries (hard n).
Definition commit_index (n : RaftNode) : N := h_commit_index (hard n).
Definition snapshot_index (n : RaftNode) : N := h_snapshot_index (hard n).
Definition snapshot_term (n : RaftNode) : N := h_snapshot_term (hard n).
Definition snapshot_data (n : RaftNode) : bytes := h_snapshot_data (hard n).
Definition window (n : RaftNode) : gmap N WindowSlot := h_window (hard n).
Definition synced_term (n : RaftNode) : N := h_synced_term (hard n).
#[export] Instance set_id : Setter id := λ f n, n <| hard ::= λ g,
  mkHard (f (h_id g)) (h_voters g) (h_joint g) (h_current_term g) (h_voted_for g) (h_log g)
    (h_config_entries g) (h_commit_index g) (h_snapshot_index g) (h_snapshot_term g) (h_snapshot_data g)
    (h_window g) (h_synced_term g) |>.
#[export] Instance set_voters : Setter voters := λ f n, n <| hard ::= λ g,
  mkHard (h_id g) (f (h_voters g)) (h_joint g) (h_current_term g) (h_voted_for g) (h_log g)
    (h_config_entries g) (h_commit_index g) (h_snapshot_index g) (h_snapshot_term g) (h_snapshot_data g)
    (h_window g) (h_synced_term g) |>.
#[export] Instance set_joint : Setter joint := λ f n, n <| hard ::= λ g,
  mkHard (h_id g) (h_voters g) (f (h_joint g)) (h_current_term g) (h_voted_for g) (h_log g)
    (h_config_entries g) (h_commit_index g) (h_snapshot_index g) (h_snapshot_term g) (h_snapshot_data g)
    (h_window g) (h_synced_term g) |>.
#[export] Instance set_current_term : Setter current_term := λ f n, n <| hard ::= λ g,
  mkHard (h_id g) (h_voters g) (h_joint g) (f (h_current_term g)) (h_voted_for g) (h_log g)
    (h_config_entries g) (h_commit_index g) (h_snapshot_index g) (h_snapshot_term g) (h_snapshot_data g)
    (h_window g) (h_synced_term g) |>.
#[export] Instance set_voted_for : Setter voted_for := λ f n, n <| hard ::= λ g,
  mkHard (h_id g) (h_voters g) (h_joint g) (h_current_term g) (f (h_voted_for g)) (h_log g)
    (h_config_entries g) (h_commit_index g) (h_snapshot_index g) (h_snapshot_term g) (h_snapshot_data g)
    (h_window g) (h_synced_term g) |>.
#[export] Instance set_log : Setter log := λ f n, n <| hard ::= λ g,
  mkHard (h_id g) (h_voters g) (h_joint g) (h_current_term g) (h_voted_for g) (f (h_log g))
    (h_config_entries g) (h_commit_index g) (h_snapshot_index g) (h_snapshot_term g) (h_snapshot_data g)
    (h_window g) (h_synced_term g) |>.
#[export] Instance set_config_entries : Setter config_entries := λ f n, n <| hard ::= λ g,
  mkHard (h_id g) (h_voters g) (h_joint g) (h_current_term g) (h_voted_for g) (h_log g)
    (f (h_config_entries g)) (h_commit_index g) (h_snapshot_index g) (h_snapshot_term g) (h_snapshot_data g)
    (h_window g) (h_synced_term g) |>.
#[export] Instance set_commit_index : Setter commit_index := λ f n, n <| hard ::= λ g,
  mkHard (h_id g) (h_voters g) (h_joint g) (h_current_term g) (h_voted_for g) (h_log g) (h_config_entries g)
    (f (h_commit_index g)) (h_snapshot_index g) (h_snapshot_term g) (h_snapshot_data g) (h_window g)
    (h_synced_term g) |>.
#[export] Instance set_snapshot_index : Setter snapshot_index := λ f n, n <| hard ::= λ g,
  mkHard (h_id g) (h_voters g) (h_joint g) (h_current_term g) (h_voted_for g) (h_log g) (h_config_entries g)
    (h_commit_index g) (f (h_snapshot_index g)) (h_snapshot_term g) (h_snapshot_data g) (h_window g)
    (h_synced_term g) |>.
#[export] Instance set_snapshot_term : Setter snapshot_term := λ f n, n <| hard ::= λ g,
  mkHard (h_id g) (h_voters g) (h_joint g) (h_current_term g) (h_voted_for g) (h_log g) (h_config_entries g)
    (h_commit_index g) (h_snapshot_index g) (f (h_snapshot_term g)) (h_snapshot_data g) (h_window g)
    (h_synced_term g) |>.
#[export] Instance set_snapshot_data : Setter snapshot_data := λ f n, n <| hard ::= λ g,
  mkHard (h_id g) (h_voters g) (h_joint g) (h_current_term g) (h_voted_for g) (h_log g) (h_config_entries g)
    (h_commit_index g) (h_snapshot_index g) (h_snapshot_term g) (f (h_snapshot_data g)) (h_window g)
    (h_synced_term g) |>.
#[export] Instance set_window : Setter window := λ f n, n <| hard ::= λ g,
  mkHard (h_id g) (h_voters g) (h_joint g) (h_current_term g) (h_voted_for g) (h_log g) (h_config_entries g)
    (h_commit_index g) (h_snapshot_index g) (h_snapshot_term g) (h_snapshot_data g) (f (h_window g))
    (h_synced_term g) |>.
#[export] Instance set_synced_term : Setter synced_term := λ f n, n <| hard ::= λ g,
  mkHard (h_id g) (h_voters g) (h_joint g) (h_current_term g) (h_voted_for g) (h_log g) (h_config_entries g)
    (h_commit_index g) (h_snapshot_index g) (h_snapshot_term g) (h_snapshot_data g) (h_window g)
    (f (h_synced_term g)) |>.

Definition role (n : RaftNode) : Role := e_role (election n).
Definition votes (n : RaftNode) : gset HostId := e_votes (election n).
Definition pre_votes (n : RaftNode) : gset HostId := e_pre_votes (election n).
Definition has_leader (n : RaftNode) : bool := e_has_leader (election n).
Definition leader_hint (n : RaftNode) : option HostId := e_leader_hint (election n).
Definition contacts (n : RaftNode) : gset HostId := e_contacts (election n).
Definition reports (n : RaftNode) : gmap HostId (list SlotReport) := e_reports (election n).
#[export] Instance set_role : Setter role := λ f n, n <| election ::= λ g,
  mkElection (f (e_role g)) (e_votes g) (e_pre_votes g) (e_has_leader g) (e_leader_hint g) (e_contacts g)
    (e_reports g) |>.
#[export] Instance set_votes : Setter votes := λ f n, n <| election ::= λ g,
  mkElection (e_role g) (f (e_votes g)) (e_pre_votes g) (e_has_leader g) (e_leader_hint g) (e_contacts g)
    (e_reports g) |>.
#[export] Instance set_pre_votes : Setter pre_votes := λ f n, n <| election ::= λ g,
  mkElection (e_role g) (e_votes g) (f (e_pre_votes g)) (e_has_leader g) (e_leader_hint g) (e_contacts g)
    (e_reports g) |>.
#[export] Instance set_has_leader : Setter has_leader := λ f n, n <| election ::= λ g,
  mkElection (e_role g) (e_votes g) (e_pre_votes g) (f (e_has_leader g)) (e_leader_hint g) (e_contacts g)
    (e_reports g) |>.
#[export] Instance set_leader_hint : Setter leader_hint := λ f n, n <| election ::= λ g,
  mkElection (e_role g) (e_votes g) (e_pre_votes g) (e_has_leader g) (f (e_leader_hint g)) (e_contacts g)
    (e_reports g) |>.
#[export] Instance set_contacts : Setter contacts := λ f n, n <| election ::= λ g,
  mkElection (e_role g) (e_votes g) (e_pre_votes g) (e_has_leader g) (e_leader_hint g) (f (e_contacts g))
    (e_reports g) |>.
#[export] Instance set_reports : Setter reports := λ f n, n <| election ::= λ g,
  mkElection (e_role g) (e_votes g) (e_pre_votes g) (e_has_leader g) (e_leader_hint g) (e_contacts g)
    (f (e_reports g)) |>.

Definition read_context (n : RaftNode) : N := rd_read_context (reads n).
Definition read_round (n : RaftNode) : option ReadRound := rd_read_round (reads n).
Definition read_floor (n : RaftNode) : N := rd_read_floor (reads n).
#[export] Instance set_read_context : Setter read_context := λ f n, n <| reads ::= λ g,
  mkReads (f (rd_read_context g)) (rd_read_round g) (rd_read_floor g) |>.
#[export] Instance set_read_round : Setter read_round := λ f n, n <| reads ::= λ g,
  mkReads (rd_read_context g) (f (rd_read_round g)) (rd_read_floor g) |>.
#[export] Instance set_read_floor : Setter read_floor := λ f n, n <| reads ::= λ g,
  mkReads (rd_read_context g) (rd_read_round g) (f (rd_read_floor g)) |>.

Definition next_index (n : RaftNode) : gmap HostId N := p_next_index (progress n).
Definition match_index (n : RaftNode) : gmap HostId N := p_match_index (progress n).
Definition probing (n : RaftNode) : gset HostId := p_probing (progress n).
Definition staging (n : RaftNode) : gmap HostId Staging := p_staging (progress n).
Definition staging_aborted (n : RaftNode) : option HostId := p_staging_aborted (progress n).
#[export] Instance set_next_index : Setter next_index := λ f n, n <| progress ::= λ g,
  mkProgress (f (p_next_index g)) (p_match_index g) (p_probing g) (p_staging g) (p_staging_aborted g) |>.
#[export] Instance set_match_index : Setter match_index := λ f n, n <| progress ::= λ g,
  mkProgress (p_next_index g) (f (p_match_index g)) (p_probing g) (p_staging g) (p_staging_aborted g) |>.
#[export] Instance set_probing : Setter probing := λ f n, n <| progress ::= λ g,
  mkProgress (p_next_index g) (p_match_index g) (f (p_probing g)) (p_staging g) (p_staging_aborted g) |>.
#[export] Instance set_staging : Setter staging := λ f n, n <| progress ::= λ g,
  mkProgress (p_next_index g) (p_match_index g) (p_probing g) (f (p_staging g)) (p_staging_aborted g) |>.
#[export] Instance set_staging_aborted : Setter staging_aborted := λ f n, n <| progress ::= λ g,
  mkProgress (p_next_index g) (p_match_index g) (p_probing g) (p_staging g) (f (p_staging_aborted g)) |>.

Definition transfer (n : RaftNode) : option Transfer := t_transfer (handoff n).
Definition own_priority (n : RaftNode) : ElectionPriority := t_own_priority (handoff n).
Definition priorities (n : RaftNode) : gmap HostId ElectionPriority := t_priorities (handoff n).
Definition windows_led (n : RaftNode) : N := t_windows_led (handoff n).
Definition priority_transfer_pending (n : RaftNode) : bool := t_priority_transfer_pending (handoff n).
Definition priority_transfer_failed (n : RaftNode) : bool := t_priority_transfer_failed (handoff n).
#[export] Instance set_transfer : Setter transfer := λ f n, n <| handoff ::= λ g,
  mkHandoff (f (t_transfer g)) (t_own_priority g) (t_priorities g) (t_windows_led g)
    (t_priority_transfer_pending g) (t_priority_transfer_failed g) |>.
#[export] Instance set_own_priority : Setter own_priority := λ f n, n <| handoff ::= λ g,
  mkHandoff (t_transfer g) (f (t_own_priority g)) (t_priorities g) (t_windows_led g)
    (t_priority_transfer_pending g) (t_priority_transfer_failed g) |>.
#[export] Instance set_priorities : Setter priorities := λ f n, n <| handoff ::= λ g,
  mkHandoff (t_transfer g) (t_own_priority g) (f (t_priorities g)) (t_windows_led g)
    (t_priority_transfer_pending g) (t_priority_transfer_failed g) |>.
#[export] Instance set_windows_led : Setter windows_led := λ f n, n <| handoff ::= λ g,
  mkHandoff (t_transfer g) (t_own_priority g) (t_priorities g) (f (t_windows_led g))
    (t_priority_transfer_pending g) (t_priority_transfer_failed g) |>.
#[export] Instance set_priority_transfer_pending : Setter priority_transfer_pending := λ f n, n <| handoff ::=
    λ g,
  mkHandoff (t_transfer g) (t_own_priority g) (t_priorities g) (t_windows_led g)
    (f (t_priority_transfer_pending g)) (t_priority_transfer_failed g) |>.
#[export] Instance set_priority_transfer_failed : Setter priority_transfer_failed := λ f n, n <| handoff ::= λ
    g,
  mkHandoff (t_transfer g) (t_own_priority g) (t_priorities g) (t_windows_led g)
    (t_priority_transfer_pending g) (f (t_priority_transfer_failed g)) |>.

Definition sync_index (n : RaftNode) : N := f_sync_index (fast_track n).
Definition open_from (n : RaftNode) : N := f_open_from (fast_track n).
Definition open_announced (n : RaftNode) : N * N := f_open_announced (fast_track n).
Definition fast_votes (n : RaftNode) : gmap N (gmap HostId bytes) := f_fast_votes (fast_track n).
Definition fast_chosen (n : RaftNode) : gset N := f_fast_chosen (fast_track n).
Definition fast_through (n : RaftNode) : N := f_fast_through (fast_track n).
Definition fast_proposed (n : RaftNode) : N := f_fast_proposed (fast_track n).
Definition recovery (n : RaftNode) : option Recovery := f_recovery (fast_track n).
#[export] Instance set_sync_index : Setter sync_index := λ f n, n <| fast_track ::= λ g,
  mkFastTrack (f (f_sync_index g)) (f_open_from g) (f_open_announced g) (f_fast_votes g) (f_fast_chosen g)
    (f_fast_through g) (f_fast_proposed g) (f_recovery g) |>.
#[export] Instance set_open_from : Setter open_from := λ f n, n <| fast_track ::= λ g,
  mkFastTrack (f_sync_index g) (f (f_open_from g)) (f_open_announced g) (f_fast_votes g) (f_fast_chosen g)
    (f_fast_through g) (f_fast_proposed g) (f_recovery g) |>.
#[export] Instance set_open_announced : Setter open_announced := λ f n, n <| fast_track ::= λ g,
  mkFastTrack (f_sync_index g) (f_open_from g) (f (f_open_announced g)) (f_fast_votes g) (f_fast_chosen g)
    (f_fast_through g) (f_fast_proposed g) (f_recovery g) |>.
#[export] Instance set_fast_votes : Setter fast_votes := λ f n, n <| fast_track ::= λ g,
  mkFastTrack (f_sync_index g) (f_open_from g) (f_open_announced g) (f (f_fast_votes g)) (f_fast_chosen g)
    (f_fast_through g) (f_fast_proposed g) (f_recovery g) |>.
#[export] Instance set_fast_chosen : Setter fast_chosen := λ f n, n <| fast_track ::= λ g,
  mkFastTrack (f_sync_index g) (f_open_from g) (f_open_announced g) (f_fast_votes g) (f (f_fast_chosen g))
    (f_fast_through g) (f_fast_proposed g) (f_recovery g) |>.
#[export] Instance set_fast_through : Setter fast_through := λ f n, n <| fast_track ::= λ g,
  mkFastTrack (f_sync_index g) (f_open_from g) (f_open_announced g) (f_fast_votes g) (f_fast_chosen g)
    (f (f_fast_through g)) (f_fast_proposed g) (f_recovery g) |>.
#[export] Instance set_fast_proposed : Setter fast_proposed := λ f n, n <| fast_track ::= λ g,
  mkFastTrack (f_sync_index g) (f_open_from g) (f_open_announced g) (f_fast_votes g) (f_fast_chosen g)
    (f_fast_through g) (f (f_fast_proposed g)) (f_recovery g) |>.
#[export] Instance set_recovery : Setter recovery := λ f n, n <| fast_track ::= λ g,
  mkFastTrack (f_sync_index g) (f_open_from g) (f_open_announced g) (f_fast_votes g) (f_fast_chosen g)
    (f_fast_through g) (f_fast_proposed g) (f (f_recovery g)) |>.

Definition transfers_aborted (n : RaftNode) : N := c_transfers_aborted (tallies n).
Definition stagings_aborted (n : RaftNode) : N := c_stagings_aborted (tallies n).
Definition priority_transfers (n : RaftNode) : N := c_priority_transfers (tallies n).
Definition pre_elections (n : RaftNode) : N := c_pre_elections (tallies n).
Definition elections (n : RaftNode) : N := c_elections (tallies n).
Definition terms_exhausted (n : RaftNode) : N := c_terms_exhausted (tallies n).
Definition indices_exhausted (n : RaftNode) : N := c_indices_exhausted (tallies n).
Definition pre_vote_tally (n : RaftNode) : PreVoteTally := c_pre_vote_tally (tallies n).
Definition malformed (n : RaftNode) : gmap Malformed.t N := c_malformed (tallies n).
Definition window_counters (n : RaftNode) : WindowCounters := c_window_counters (tallies n).
Definition budget_refused (n : RaftNode) : N := c_budget_refused (tallies n).
#[export] Instance set_transfers_aborted : Setter transfers_aborted := λ f n, n <| tallies ::= λ g,
  mkTallies (f (c_transfers_aborted g)) (c_stagings_aborted g) (c_priority_transfers g) (c_pre_elections g)
    (c_elections g) (c_terms_exhausted g) (c_indices_exhausted g) (c_pre_vote_tally g) (c_malformed g)
    (c_window_counters g) (c_budget_refused g) |>.
#[export] Instance set_stagings_aborted : Setter stagings_aborted := λ f n, n <| tallies ::= λ g,
  mkTallies (c_transfers_aborted g) (f (c_stagings_aborted g)) (c_priority_transfers g) (c_pre_elections g)
    (c_elections g) (c_terms_exhausted g) (c_indices_exhausted g) (c_pre_vote_tally g) (c_malformed g)
    (c_window_counters g) (c_budget_refused g) |>.
#[export] Instance set_priority_transfers : Setter priority_transfers := λ f n, n <| tallies ::= λ g,
  mkTallies (c_transfers_aborted g) (c_stagings_aborted g) (f (c_priority_transfers g)) (c_pre_elections g)
    (c_elections g) (c_terms_exhausted g) (c_indices_exhausted g) (c_pre_vote_tally g) (c_malformed g)
    (c_window_counters g) (c_budget_refused g) |>.
#[export] Instance set_pre_elections : Setter pre_elections := λ f n, n <| tallies ::= λ g,
  mkTallies (c_transfers_aborted g) (c_stagings_aborted g) (c_priority_transfers g) (f (c_pre_elections g))
    (c_elections g) (c_terms_exhausted g) (c_indices_exhausted g) (c_pre_vote_tally g) (c_malformed g)
    (c_window_counters g) (c_budget_refused g) |>.
#[export] Instance set_elections : Setter elections := λ f n, n <| tallies ::= λ g,
  mkTallies (c_transfers_aborted g) (c_stagings_aborted g) (c_priority_transfers g) (c_pre_elections g)
    (f (c_elections g)) (c_terms_exhausted g) (c_indices_exhausted g) (c_pre_vote_tally g) (c_malformed g)
    (c_window_counters g) (c_budget_refused g) |>.
#[export] Instance set_terms_exhausted : Setter terms_exhausted := λ f n, n <| tallies ::= λ g,
  mkTallies (c_transfers_aborted g) (c_stagings_aborted g) (c_priority_transfers g) (c_pre_elections g)
    (c_elections g) (f (c_terms_exhausted g)) (c_indices_exhausted g) (c_pre_vote_tally g) (c_malformed g)
    (c_window_counters g) (c_budget_refused g) |>.
#[export] Instance set_indices_exhausted : Setter indices_exhausted := λ f n, n <| tallies ::= λ g,
  mkTallies (c_transfers_aborted g) (c_stagings_aborted g) (c_priority_transfers g) (c_pre_elections g)
    (c_elections g) (c_terms_exhausted g) (f (c_indices_exhausted g)) (c_pre_vote_tally g) (c_malformed g)
    (c_window_counters g) (c_budget_refused g) |>.
#[export] Instance set_pre_vote_tally : Setter pre_vote_tally := λ f n, n <| tallies ::= λ g,
  mkTallies (c_transfers_aborted g) (c_stagings_aborted g) (c_priority_transfers g) (c_pre_elections g)
    (c_elections g) (c_terms_exhausted g) (c_indices_exhausted g) (f (c_pre_vote_tally g)) (c_malformed g)
    (c_window_counters g) (c_budget_refused g) |>.
#[export] Instance set_malformed : Setter malformed := λ f n, n <| tallies ::= λ g,
  mkTallies (c_transfers_aborted g) (c_stagings_aborted g) (c_priority_transfers g) (c_pre_elections g)
    (c_elections g) (c_terms_exhausted g) (c_indices_exhausted g) (c_pre_vote_tally g) (f (c_malformed g))
    (c_window_counters g) (c_budget_refused g) |>.
#[export] Instance set_window_counters : Setter window_counters := λ f n, n <| tallies ::= λ g,
  mkTallies (c_transfers_aborted g) (c_stagings_aborted g) (c_priority_transfers g) (c_pre_elections g)
    (c_elections g) (c_terms_exhausted g) (c_indices_exhausted g) (c_pre_vote_tally g) (c_malformed g)
    (f (c_window_counters g)) (c_budget_refused g) |>.
#[export] Instance set_budget_refused : Setter budget_refused := λ f n, n <| tallies ::= λ g,
  mkTallies (c_transfers_aborted g) (c_stagings_aborted g) (c_priority_transfers g) (c_pre_elections g)
    (c_elections g) (c_terms_exhausted g) (c_indices_exhausted g) (c_pre_vote_tally g) (c_malformed g)
    (c_window_counters g) (f (c_budget_refused g)) |>.

#[export] Instance set_wc_recovered : Setter wc_recovered := λ f g,
  mkWindowCounters (f (wc_recovered g)) (wc_recovered_fast_choices g) (wc_recovered_beyond_reach g)
    (wc_holes_filled g) (wc_pruned g) (wc_buffered g) (wc_absorbed g) (wc_decided_from_votes g)
    (wc_sent_ahead g) (wc_fast_commits g) (wc_recovery_slices g) (wc_recovery_refused g)
    (wc_recoveries_sliced g).
#[export] Instance set_wc_recovered_fast_choices : Setter wc_recovered_fast_choices := λ f g,
  mkWindowCounters (wc_recovered g) (f (wc_recovered_fast_choices g)) (wc_recovered_beyond_reach g)
    (wc_holes_filled g) (wc_pruned g) (wc_buffered g) (wc_absorbed g) (wc_decided_from_votes g)
    (wc_sent_ahead g) (wc_fast_commits g) (wc_recovery_slices g) (wc_recovery_refused g)
    (wc_recoveries_sliced g).
#[export] Instance set_wc_recovered_beyond_reach : Setter wc_recovered_beyond_reach := λ f g,
  mkWindowCounters (wc_recovered g) (wc_recovered_fast_choices g) (f (wc_recovered_beyond_reach g))
    (wc_holes_filled g) (wc_pruned g) (wc_buffered g) (wc_absorbed g) (wc_decided_from_votes g)
    (wc_sent_ahead g) (wc_fast_commits g) (wc_recovery_slices g) (wc_recovery_refused g)
    (wc_recoveries_sliced g).
#[export] Instance set_wc_holes_filled : Setter wc_holes_filled := λ f g,
  mkWindowCounters (wc_recovered g) (wc_recovered_fast_choices g) (wc_recovered_beyond_reach g)
    (f (wc_holes_filled g)) (wc_pruned g) (wc_buffered g) (wc_absorbed g) (wc_decided_from_votes g)
    (wc_sent_ahead g) (wc_fast_commits g) (wc_recovery_slices g) (wc_recovery_refused g)
    (wc_recoveries_sliced g).
#[export] Instance set_wc_pruned : Setter wc_pruned := λ f g,
  mkWindowCounters (wc_recovered g) (wc_recovered_fast_choices g) (wc_recovered_beyond_reach g)
    (wc_holes_filled g) (f (wc_pruned g)) (wc_buffered g) (wc_absorbed g) (wc_decided_from_votes g)
    (wc_sent_ahead g) (wc_fast_commits g) (wc_recovery_slices g) (wc_recovery_refused g)
    (wc_recoveries_sliced g).
#[export] Instance set_wc_buffered : Setter wc_buffered := λ f g,
  mkWindowCounters (wc_recovered g) (wc_recovered_fast_choices g) (wc_recovered_beyond_reach g)
    (wc_holes_filled g) (wc_pruned g) (f (wc_buffered g)) (wc_absorbed g) (wc_decided_from_votes g)
    (wc_sent_ahead g) (wc_fast_commits g) (wc_recovery_slices g) (wc_recovery_refused g)
    (wc_recoveries_sliced g).
#[export] Instance set_wc_absorbed : Setter wc_absorbed := λ f g,
  mkWindowCounters (wc_recovered g) (wc_recovered_fast_choices g) (wc_recovered_beyond_reach g)
    (wc_holes_filled g) (wc_pruned g) (wc_buffered g) (f (wc_absorbed g)) (wc_decided_from_votes g)
    (wc_sent_ahead g) (wc_fast_commits g) (wc_recovery_slices g) (wc_recovery_refused g)
    (wc_recoveries_sliced g).
#[export] Instance set_wc_decided_from_votes : Setter wc_decided_from_votes := λ f g,
  mkWindowCounters (wc_recovered g) (wc_recovered_fast_choices g) (wc_recovered_beyond_reach g)
    (wc_holes_filled g) (wc_pruned g) (wc_buffered g) (wc_absorbed g) (f (wc_decided_from_votes g))
    (wc_sent_ahead g) (wc_fast_commits g) (wc_recovery_slices g) (wc_recovery_refused g)
    (wc_recoveries_sliced g).
#[export] Instance set_wc_sent_ahead : Setter wc_sent_ahead := λ f g,
  mkWindowCounters (wc_recovered g) (wc_recovered_fast_choices g) (wc_recovered_beyond_reach g)
    (wc_holes_filled g) (wc_pruned g) (wc_buffered g) (wc_absorbed g) (wc_decided_from_votes g)
    (f (wc_sent_ahead g)) (wc_fast_commits g) (wc_recovery_slices g) (wc_recovery_refused g)
    (wc_recoveries_sliced g).
#[export] Instance set_wc_fast_commits : Setter wc_fast_commits := λ f g,
  mkWindowCounters (wc_recovered g) (wc_recovered_fast_choices g) (wc_recovered_beyond_reach g)
    (wc_holes_filled g) (wc_pruned g) (wc_buffered g) (wc_absorbed g) (wc_decided_from_votes g)
    (wc_sent_ahead g) (f (wc_fast_commits g)) (wc_recovery_slices g) (wc_recovery_refused g)
    (wc_recoveries_sliced g).
#[export] Instance set_wc_recovery_slices : Setter wc_recovery_slices := λ f g,
  mkWindowCounters (wc_recovered g) (wc_recovered_fast_choices g) (wc_recovered_beyond_reach g)
    (wc_holes_filled g) (wc_pruned g) (wc_buffered g) (wc_absorbed g) (wc_decided_from_votes g)
    (wc_sent_ahead g) (wc_fast_commits g) (f (wc_recovery_slices g)) (wc_recovery_refused g)
    (wc_recoveries_sliced g).
#[export] Instance set_wc_recovery_refused : Setter wc_recovery_refused := λ f g,
  mkWindowCounters (wc_recovered g) (wc_recovered_fast_choices g) (wc_recovered_beyond_reach g)
    (wc_holes_filled g) (wc_pruned g) (wc_buffered g) (wc_absorbed g) (wc_decided_from_votes g)
    (wc_sent_ahead g) (wc_fast_commits g) (wc_recovery_slices g) (f (wc_recovery_refused g))
    (wc_recoveries_sliced g).
#[export] Instance set_wc_recoveries_sliced : Setter wc_recoveries_sliced := λ f g,
  mkWindowCounters (wc_recovered g) (wc_recovered_fast_choices g) (wc_recovered_beyond_reach g)
    (wc_holes_filled g) (wc_pruned g) (wc_buffered g) (wc_absorbed g) (wc_decided_from_votes g)
    (wc_sent_ahead g) (wc_fast_commits g) (wc_recovery_slices g) (wc_recovery_refused g)
    (f (wc_recoveries_sliced g)).

(** Reduces reads of written fields. *)
Declare Reduction node_red :=
  lazy beta match delta [setter set_retention_pending set_window_budget set_log_budget set_log_bytes_held
    set_hard set_election set_reads set_progress set_handoff set_fast_track set_tallies set_id set_voters
    set_joint set_current_term set_voted_for set_log set_config_entries set_commit_index set_snapshot_index
    set_snapshot_term set_snapshot_data set_window set_synced_term set_role set_votes set_pre_votes
    set_has_leader set_leader_hint set_contacts set_reports set_read_context set_read_round set_read_floor
    set_next_index set_match_index set_probing set_staging set_staging_aborted set_transfer set_own_priority
    set_priorities set_windows_led set_priority_transfer_pending set_priority_transfer_failed set_sync_index
    set_open_from set_open_announced set_fast_votes set_fast_chosen set_fast_through set_fast_proposed
    set_recovery set_transfers_aborted set_stagings_aborted set_priority_transfers set_pre_elections
    set_elections set_terms_exhausted set_indices_exhausted set_pre_vote_tally set_malformed
    set_window_counters set_budget_refused set_wc_recovered set_wc_recovered_fast_choices
    set_wc_recovered_beyond_reach set_wc_holes_filled set_wc_pruned set_wc_buffered set_wc_absorbed
    set_wc_decided_from_votes set_wc_sent_ahead set_wc_fast_commits set_wc_recovery_slices
    set_wc_recovery_refused set_wc_recoveries_sliced retention_pending window_budget log_budget log_bytes_held
    hard election reads progress handoff fast_track tallies id h_id voters h_voters joint h_joint current_term
    h_current_term voted_for h_voted_for log h_log config_entries h_config_entries commit_index h_commit_index
    snapshot_index h_snapshot_index snapshot_term h_snapshot_term snapshot_data h_snapshot_data window
    h_window synced_term h_synced_term role e_role votes e_votes pre_votes e_pre_votes has_leader e_has_leader
    leader_hint e_leader_hint contacts e_contacts reports e_reports read_context rd_read_context read_round
    rd_read_round read_floor rd_read_floor next_index p_next_index match_index p_match_index probing p_probing
    staging p_staging staging_aborted p_staging_aborted transfer t_transfer own_priority t_own_priority
    priorities t_priorities windows_led t_windows_led priority_transfer_pending t_priority_transfer_pending
    priority_transfer_failed t_priority_transfer_failed sync_index f_sync_index open_from f_open_from
    open_announced f_open_announced fast_votes f_fast_votes fast_chosen f_fast_chosen fast_through
    f_fast_through fast_proposed f_fast_proposed recovery f_recovery transfers_aborted c_transfers_aborted
    stagings_aborted c_stagings_aborted priority_transfers c_priority_transfers pre_elections c_pre_elections
    elections c_elections terms_exhausted c_terms_exhausted indices_exhausted c_indices_exhausted
    pre_vote_tally c_pre_vote_tally malformed c_malformed window_counters c_window_counters budget_refused
    c_budget_refused].

(** Writes them back as the fields of the node. *)
Ltac node_fold :=
  repeat match goal with
  | |- context [h_id (hard ?n)] => change (h_id (hard n)) with (id n)
  | |- context [h_voters (hard ?n)] => change (h_voters (hard n)) with (voters n)
  | |- context [h_joint (hard ?n)] => change (h_joint (hard n)) with (joint n)
  | |- context [h_current_term (hard ?n)] => change (h_current_term (hard n)) with (current_term n)
  | |- context [h_voted_for (hard ?n)] => change (h_voted_for (hard n)) with (voted_for n)
  | |- context [h_log (hard ?n)] => change (h_log (hard n)) with (log n)
  | |- context [h_config_entries (hard ?n)] => change (h_config_entries (hard n)) with (config_entries n)
  | |- context [h_commit_index (hard ?n)] => change (h_commit_index (hard n)) with (commit_index n)
  | |- context [h_snapshot_index (hard ?n)] => change (h_snapshot_index (hard n)) with (snapshot_index n)
  | |- context [h_snapshot_term (hard ?n)] => change (h_snapshot_term (hard n)) with (snapshot_term n)
  | |- context [h_snapshot_data (hard ?n)] => change (h_snapshot_data (hard n)) with (snapshot_data n)
  | |- context [h_window (hard ?n)] => change (h_window (hard n)) with (window n)
  | |- context [h_synced_term (hard ?n)] => change (h_synced_term (hard n)) with (synced_term n)
  | |- context [e_role (election ?n)] => change (e_role (election n)) with (role n)
  | |- context [e_votes (election ?n)] => change (e_votes (election n)) with (votes n)
  | |- context [e_pre_votes (election ?n)] => change (e_pre_votes (election n)) with (pre_votes n)
  | |- context [e_has_leader (election ?n)] => change (e_has_leader (election n)) with (has_leader n)
  | |- context [e_leader_hint (election ?n)] => change (e_leader_hint (election n)) with (leader_hint n)
  | |- context [e_contacts (election ?n)] => change (e_contacts (election n)) with (contacts n)
  | |- context [e_reports (election ?n)] => change (e_reports (election n)) with (reports n)
  | |- context [rd_read_context (reads ?n)] => change (rd_read_context (reads n)) with (read_context n)
  | |- context [rd_read_round (reads ?n)] => change (rd_read_round (reads n)) with (read_round n)
  | |- context [rd_read_floor (reads ?n)] => change (rd_read_floor (reads n)) with (read_floor n)
  | |- context [p_next_index (progress ?n)] => change (p_next_index (progress n)) with (next_index n)
  | |- context [p_match_index (progress ?n)] => change (p_match_index (progress n)) with (match_index n)
  | |- context [p_probing (progress ?n)] => change (p_probing (progress n)) with (probing n)
  | |- context [p_staging (progress ?n)] => change (p_staging (progress n)) with (staging n)
  | |- context [p_staging_aborted (progress ?n)] => change (p_staging_aborted (progress n)) with (staging_aborted n)
  | |- context [t_transfer (handoff ?n)] => change (t_transfer (handoff n)) with (transfer n)
  | |- context [t_own_priority (handoff ?n)] => change (t_own_priority (handoff n)) with (own_priority n)
  | |- context [t_priorities (handoff ?n)] => change (t_priorities (handoff n)) with (priorities n)
  | |- context [t_windows_led (handoff ?n)] => change (t_windows_led (handoff n)) with (windows_led n)
  | |- context [t_priority_transfer_pending (handoff ?n)] => change (t_priority_transfer_pending (handoff n)) with (priority_transfer_pending n)
  | |- context [t_priority_transfer_failed (handoff ?n)] => change (t_priority_transfer_failed (handoff n)) with (priority_transfer_failed n)
  | |- context [f_sync_index (fast_track ?n)] => change (f_sync_index (fast_track n)) with (sync_index n)
  | |- context [f_open_from (fast_track ?n)] => change (f_open_from (fast_track n)) with (open_from n)
  | |- context [f_open_announced (fast_track ?n)] => change (f_open_announced (fast_track n)) with (open_announced n)
  | |- context [f_fast_votes (fast_track ?n)] => change (f_fast_votes (fast_track n)) with (fast_votes n)
  | |- context [f_fast_chosen (fast_track ?n)] => change (f_fast_chosen (fast_track n)) with (fast_chosen n)
  | |- context [f_fast_through (fast_track ?n)] => change (f_fast_through (fast_track n)) with (fast_through n)
  | |- context [f_fast_proposed (fast_track ?n)] => change (f_fast_proposed (fast_track n)) with (fast_proposed n)
  | |- context [f_recovery (fast_track ?n)] => change (f_recovery (fast_track n)) with (recovery n)
  | |- context [c_transfers_aborted (tallies ?n)] => change (c_transfers_aborted (tallies n)) with (transfers_aborted n)
  | |- context [c_stagings_aborted (tallies ?n)] => change (c_stagings_aborted (tallies n)) with (stagings_aborted n)
  | |- context [c_priority_transfers (tallies ?n)] => change (c_priority_transfers (tallies n)) with (priority_transfers n)
  | |- context [c_pre_elections (tallies ?n)] => change (c_pre_elections (tallies n)) with (pre_elections n)
  | |- context [c_elections (tallies ?n)] => change (c_elections (tallies n)) with (elections n)
  | |- context [c_terms_exhausted (tallies ?n)] => change (c_terms_exhausted (tallies n)) with (terms_exhausted n)
  | |- context [c_indices_exhausted (tallies ?n)] => change (c_indices_exhausted (tallies n)) with (indices_exhausted n)
  | |- context [c_pre_vote_tally (tallies ?n)] => change (c_pre_vote_tally (tallies n)) with (pre_vote_tally n)
  | |- context [c_malformed (tallies ?n)] => change (c_malformed (tallies n)) with (malformed n)
  | |- context [c_window_counters (tallies ?n)] => change (c_window_counters (tallies n)) with (window_counters n)
  | |- context [c_budget_refused (tallies ?n)] => change (c_budget_refused (tallies n)) with (budget_refused n)
  end.
Ltac node_fold_in H :=
  repeat match type of H with
  | context [h_id (hard ?n)] => change (h_id (hard n)) with (id n) in H
  | context [h_voters (hard ?n)] => change (h_voters (hard n)) with (voters n) in H
  | context [h_joint (hard ?n)] => change (h_joint (hard n)) with (joint n) in H
  | context [h_current_term (hard ?n)] => change (h_current_term (hard n)) with (current_term n) in H
  | context [h_voted_for (hard ?n)] => change (h_voted_for (hard n)) with (voted_for n) in H
  | context [h_log (hard ?n)] => change (h_log (hard n)) with (log n) in H
  | context [h_config_entries (hard ?n)] => change (h_config_entries (hard n)) with (config_entries n) in H
  | context [h_commit_index (hard ?n)] => change (h_commit_index (hard n)) with (commit_index n) in H
  | context [h_snapshot_index (hard ?n)] => change (h_snapshot_index (hard n)) with (snapshot_index n) in H
  | context [h_snapshot_term (hard ?n)] => change (h_snapshot_term (hard n)) with (snapshot_term n) in H
  | context [h_snapshot_data (hard ?n)] => change (h_snapshot_data (hard n)) with (snapshot_data n) in H
  | context [h_window (hard ?n)] => change (h_window (hard n)) with (window n) in H
  | context [h_synced_term (hard ?n)] => change (h_synced_term (hard n)) with (synced_term n) in H
  | context [e_role (election ?n)] => change (e_role (election n)) with (role n) in H
  | context [e_votes (election ?n)] => change (e_votes (election n)) with (votes n) in H
  | context [e_pre_votes (election ?n)] => change (e_pre_votes (election n)) with (pre_votes n) in H
  | context [e_has_leader (election ?n)] => change (e_has_leader (election n)) with (has_leader n) in H
  | context [e_leader_hint (election ?n)] => change (e_leader_hint (election n)) with (leader_hint n) in H
  | context [e_contacts (election ?n)] => change (e_contacts (election n)) with (contacts n) in H
  | context [e_reports (election ?n)] => change (e_reports (election n)) with (reports n) in H
  | context [rd_read_context (reads ?n)] => change (rd_read_context (reads n)) with (read_context n) in H
  | context [rd_read_round (reads ?n)] => change (rd_read_round (reads n)) with (read_round n) in H
  | context [rd_read_floor (reads ?n)] => change (rd_read_floor (reads n)) with (read_floor n) in H
  | context [p_next_index (progress ?n)] => change (p_next_index (progress n)) with (next_index n) in H
  | context [p_match_index (progress ?n)] => change (p_match_index (progress n)) with (match_index n) in H
  | context [p_probing (progress ?n)] => change (p_probing (progress n)) with (probing n) in H
  | context [p_staging (progress ?n)] => change (p_staging (progress n)) with (staging n) in H
  | context [p_staging_aborted (progress ?n)] => change (p_staging_aborted (progress n)) with (staging_aborted n) in H
  | context [t_transfer (handoff ?n)] => change (t_transfer (handoff n)) with (transfer n) in H
  | context [t_own_priority (handoff ?n)] => change (t_own_priority (handoff n)) with (own_priority n) in H
  | context [t_priorities (handoff ?n)] => change (t_priorities (handoff n)) with (priorities n) in H
  | context [t_windows_led (handoff ?n)] => change (t_windows_led (handoff n)) with (windows_led n) in H
  | context [t_priority_transfer_pending (handoff ?n)] => change (t_priority_transfer_pending (handoff n)) with (priority_transfer_pending n) in H
  | context [t_priority_transfer_failed (handoff ?n)] => change (t_priority_transfer_failed (handoff n)) with (priority_transfer_failed n) in H
  | context [f_sync_index (fast_track ?n)] => change (f_sync_index (fast_track n)) with (sync_index n) in H
  | context [f_open_from (fast_track ?n)] => change (f_open_from (fast_track n)) with (open_from n) in H
  | context [f_open_announced (fast_track ?n)] => change (f_open_announced (fast_track n)) with (open_announced n) in H
  | context [f_fast_votes (fast_track ?n)] => change (f_fast_votes (fast_track n)) with (fast_votes n) in H
  | context [f_fast_chosen (fast_track ?n)] => change (f_fast_chosen (fast_track n)) with (fast_chosen n) in H
  | context [f_fast_through (fast_track ?n)] => change (f_fast_through (fast_track n)) with (fast_through n) in H
  | context [f_fast_proposed (fast_track ?n)] => change (f_fast_proposed (fast_track n)) with (fast_proposed n) in H
  | context [f_recovery (fast_track ?n)] => change (f_recovery (fast_track n)) with (recovery n) in H
  | context [c_transfers_aborted (tallies ?n)] => change (c_transfers_aborted (tallies n)) with (transfers_aborted n) in H
  | context [c_stagings_aborted (tallies ?n)] => change (c_stagings_aborted (tallies n)) with (stagings_aborted n) in H
  | context [c_priority_transfers (tallies ?n)] => change (c_priority_transfers (tallies n)) with (priority_transfers n) in H
  | context [c_pre_elections (tallies ?n)] => change (c_pre_elections (tallies n)) with (pre_elections n) in H
  | context [c_elections (tallies ?n)] => change (c_elections (tallies n)) with (elections n) in H
  | context [c_terms_exhausted (tallies ?n)] => change (c_terms_exhausted (tallies n)) with (terms_exhausted n) in H
  | context [c_indices_exhausted (tallies ?n)] => change (c_indices_exhausted (tallies n)) with (indices_exhausted n) in H
  | context [c_pre_vote_tally (tallies ?n)] => change (c_pre_vote_tally (tallies n)) with (pre_vote_tally n) in H
  | context [c_malformed (tallies ?n)] => change (c_malformed (tallies n)) with (malformed n) in H
  | context [c_window_counters (tallies ?n)] => change (c_window_counters (tallies n)) with (window_counters n) in H
  | context [c_budget_refused (tallies ?n)] => change (c_budget_refused (tallies n)) with (budget_refused n) in H
  end.
Ltac node_simpl := match goal with |- ?G => let G' := eval node_red in G in change G' end; node_fold.
Ltac node_simpl_in H := let T := type of H in let T' := eval node_red in T in change T' in H; node_fold_in H.
Tactic Notation "node_simpl" "in" hyp(H) := node_simpl_in H.
