(* ===== verification/RaftLog.v ===== *)
(** * A Raft node's log, configuration and commit index

    Models the log half of [crates/cluster/src/raft.rs]: positions and terms,
    the configuration in force and its majorities, appending, truncating and
    compacting, the retained state and its recovery, and the leader's commit
    rule. *)

From S2P Require Import Prelude RaftState.
#[local] Open Scope N_scope.

(** ** Positions *)

(** [RaftNode::position]. *)
Definition position (n : RaftNode) (index : N) : option N :=
  if index <=? snapshot_index n then None else Some (index - snapshot_index n - 1).

(** [Vec::get]. *)
Definition log_get (n : RaftNode) (at_ : N) : option LogEntry :=
  if at_ <? len (log n) then log n !! N.to_nat at_ else None.
Definition entry_at (n : RaftNode) (index : N) : option LogEntry := position n index ≫= log_get n.

Definition last_log_index (n : RaftNode) : N := sat_add (snapshot_index n) (len (log n)).
Definition last_log_term (n : RaftNode) : N := from_option le_term (snapshot_term n) (last (log n)).

Definition entry_term (n : RaftNode) (index : N) : option N :=
  if index =? 0 then None
  else if index =? snapshot_index n then Some (snapshot_term n)
  else le_term <$> entry_at n index.

Definition candidate_log_is_current (n : RaftNode) (candidate_index candidate_term : N) : bool :=
  (last_log_term n <? candidate_term)
  || ((candidate_term =? last_log_term n) && (last_log_index n <=? candidate_index)).

(** ** Configurations *)
Definition base_config (n : RaftNode) : VoterConfig := mkVoterConfig (voters n) (joint n).
Definition config_at (n : RaftNode) (index : N) : option VoterConfig := entry_at n index ≫= le_config.

(** [BTreeSet::last] and [BTreeSet::range(..=bound).next_back()]. *)
Definition last_elem (s : gset N) : option N := last (bt_elems s).
Definition last_upto (s : gset N) (bound : N) : option N := last (filter (λ i, i ≤ bound) (bt_elems s)).

Definition latest_config_index (n : RaftNode) : N := default 0 (last_elem (config_entries n)).
Definition effective_config (n : RaftNode) : VoterConfig :=
  default (base_config n) (last_elem (config_entries n) ≫= config_at n).
Definition committed_config (n : RaftNode) : VoterConfig :=
  default (base_config n) (last_upto (config_entries n) (commit_index n) ≫= config_at n).

(** [config_before_latest]: the entry before the last, in descending order. *)
Definition config_before_latest (n : RaftNode) : option VoterConfig :=
  match rev (bt_elems (config_entries n)) with
  | [] => None
  | _ :: before => Some (default (base_config n) (hd_error before ≫= config_at n))
  end.

Definition config_members (config : VoterConfig) : gset HostId :=
  list_to_set (vc_voters config) ∪ list_to_set (default [] (vc_joint config)).
Definition all_voters (n : RaftNode) : list HostId := bt_elems (config_members (effective_config n)).
Definition is_voter (n : RaftNode) (node : HostId) : bool := bool_decide (node ∈ all_voters n).
Definition in_joint_configuration (n : RaftNode) : bool := bool_decide (is_Some (vc_joint (effective_config n))).
Definition votes_in_configuration (n : RaftNode) (voter : HostId) : bool :=
  bool_decide (voter ∈ vc_voters (effective_config n))
  || from_option (λ new, bool_decide (voter ∈ new)) false (vc_joint (effective_config n)).

(** A majority of one set, and of every set of a configuration. *)
Definition carries (granters : gset HostId) (set : list HostId) : bool :=
  len set / 2 <? len (filter (λ v, v ∈ granters) set).
Definition config_majority (config : VoterConfig) (granters : gset HostId) : bool :=
  carries granters (vc_voters config) && from_option (carries granters) true (vc_joint config).
Definition is_majority (n : RaftNode) (granters : gset HostId) : bool :=
  config_majority (effective_config n) granters.

Definition replication_targets (n : RaftNode) : list HostId :=
  let set : gset HostId := list_to_set (all_voters n) in
  let set := if bool_decide (role n = Leader) then set ∪ dom (staging n) else set in
  let set :=
    if commit_index n <? latest_config_index n then
      match config_before_latest n with
      | Some outgoing => set ∪ config_members outgoing
      | None => set
      end
    else set in
  bt_elems set.

(** ** Counting *)
Definition count_window (field : WindowCounters → N) `{!Setter field} (n : RaftNode) : RaftNode :=
  n <| window_counters ::= λ c, c <| field ::= tick |> |>.
Definition refuse_malformed (n : RaftNode) (kind : Malformed.t) : RaftNode :=
  n <| malformed ::= λ m, <[kind := tick (default 0 (m !! kind))]> m |>.
Definition pending (flag : bool) (n : RaftNode) : RaftNode := n <| retention_pending ::= λ b, b || flag |>.

(** ** Changing the log *)

(** [RaftNode::push_entry]. *)
Definition push_entry (n : RaftNode) (entry : LogEntry) : RaftNode * bool :=
  match checked_add (last_log_index n) 1 with
  | None => (n <| indices_exhausted ::= tick |>, false)
  | Some index =>
      let n := if bool_decide (is_Some (le_config entry))
               then n <| config_entries ::= λ s, {[ index ]} ∪ s |> else n in
      (n <| log_bytes_held ::= λ b, sat_add b (encoded_len entry) |> <| log ::= λ l, l ++ [entry] |>, true)
  end.

(** [RaftNode::truncate_from]. *)
Definition truncate_from (n : RaftNode) (index : N) : RaftNode :=
  let keep := index - snapshot_index n - 1 in
  let n := pending (keep <? len (log n)) n in
  let removed := bytes_of (default [] (get_from (log n) keep)) in
  n <| log_bytes_held ::= λ b, sat_sub b removed |> <| log ::= takeN keep |>
    <| config_entries ::= filter (λ i, i < index) |>.

(** [RaftNode::place_entry]. *)
Definition place_entry (n : RaftNode) (index : N) (entry : LogEntry) : RaftNode * bool :=
  match entry_term n index with
  | Some term =>
      if term =? le_term entry then (n, true) else push_entry (truncate_from n index) entry
  | None => push_entry (n <| retention_pending := true |>) entry
  end.

(** The prefix a compaction or an installed snapshot drops. *)
Definition drop_prefix (n : RaftNode) (discard up_to : N) : RaftNode :=
  let dropped := bytes_of (takeN discard (log n)) in
  n <| log ::= dropN discard |> <| log_bytes_held ::= λ b, sat_sub b dropped |>
    <| config_entries ::= filter (λ i, sat_add up_to 1 ≤ i) |>.

(** [RaftNode::compact]. *)
Definition compact (n : RaftNode) (up_to : N) (state : bytes) : RaftNode * bool :=
  if (up_to <=? snapshot_index n) || (commit_index n <? up_to) then (n, false) else
  match entry_term n up_to with
  | None => (n, false)
  | Some term =>
      let discard := N.min (up_to - snapshot_index n) (len (log n)) in
      let n :=
        match last (omap le_config (takeN discard (log n))) with
        | Some config => n <| voters := vc_voters config |> <| joint := vc_joint config |>
        | None => n
        end in
      (drop_prefix (n <| retention_pending := true |>) discard up_to
         <| snapshot_index := up_to |> <| snapshot_term := term |> <| snapshot_data := state |>, true)
  end.

(** ** The retained state *)
Definition node_new (id : HostId) (voters : list HostId) : RaftNode :=
  mkRaftNode true 0 usize_max 0
    (mkHard id voters None 0 None [] ∅ 0 0 0 [] ∅ 0)
    (mkElection Follower ∅ ∅ false None ∅ ∅)
    (mkReads 0 None 0)
    (mkProgress ∅ ∅ ∅ ∅ None)
    (mkHandoff None priority_default ∅ 0 false false)
    (mkFastTrack 0 0 (0, 0) ∅ ∅ 0 0 None)
    (mkTallies 0 0 0 0 0 0 0 (mkPreVoteTally 0 0 0 0 0 0) ∅ (mkWindowCounters 0 0 0 0 0 0 0 0 0 0 0 0 0) 0).

(** The slots of a window, as reports in index order. *)
Definition window_reports (w : gmap N WindowSlot) : list SlotReport :=
  map (λ e, mkSlotReport e.1 e.2) (bt_list w).
Definition saved (n : RaftNode) : SavedRaft :=
  mkSavedRaft (id n) (base_config n) (current_term n) (voted_for n) (log n) (commit_index n)
    (snapshot_index n) (snapshot_term n) (snapshot_data n) (window_reports (window n)) (synced_term n).

(** The entry loop of [RaftNode::restore]. *)
Fixpoint push_all (n : RaftNode) (entries : list LogEntry) : result RaftRecoveryError RaftNode :=
  match entries with
  | [] => Ok n
  | entry :: rest => let '(n, pushed) := push_entry n entry in if pushed then push_all n rest else Err IndexOverflow
  end.
Definition restore (s : SavedRaft) : result RaftRecoveryError RaftNode :=
  _ ← validate s;
  let node := node_new (s_id s) (vc_voters (s_base s)) in
  let node := node <| joint := vc_joint (s_base s) |> <| current_term := s_term s |>
    <| voted_for := s_voted_for s |> <| snapshot_index := s_snapshot_index s |> in
  node ← push_all node (s_log s);
  Ok (node <| commit_index := s_commit_index s |> <| snapshot_term := s_snapshot_term s |>
    <| snapshot_data := s_snapshot_data s |>
    <| window := bt_collect (map (λ r, (sr_index r, sr_slot r)) (s_window s)) |>
    <| synced_term := s_synced_term s |>).

Definition retained (n : RaftNode) : RaftNode := n <| retention_pending := false |>.
Definition suspend (n : RaftNode) : RaftNode :=
  n <| role := Follower |> <| has_leader := false |> <| leader_hint := None |> <| read_round := None |>
    <| contacts := ∅ |>.

(** ** Readers *)
Definition is_leader (n : RaftNode) : bool := bool_decide (role n = Leader).
Definition leader (n : RaftNode) : option HostId := if is_leader n then Some (id n) else leader_hint n.
Definition committed_through (n : RaftNode) : N := N.max (commit_index n) (fast_through n).
Definition committed_entries (n : RaftNode) : list LogEntry :=
  let count := sat_sub (committed_through n) (snapshot_index n) in
  default (log n) (get_range (log n) 0 count).
Definition log_bytes_through (n : RaftNode) (index : N) : N :=
  bytes_of (takeN (N.min (sat_sub index (snapshot_index n)) (len (log n))) (log n)).

Definition match_of (n : RaftNode) (voter : HostId) : N :=
  if voter =? id n then last_log_index n else default 0 (match_index n !! voter).

(** [Iterator::min]. *)
Definition min_elem (l : list N) : option N :=
  match l with [] => None | x :: r => Some (foldl N.min x r) end.
Definition replicated_through (n : RaftNode) : N :=
  if negb (is_leader n) then commit_index n
  else default (last_log_index n)
         (min_elem (map (match_of n) (filter (λ t, t ≠ id n) (replication_targets n)))).

(** ** The commit rule *)

(** The match index at the place a majority begins, in descending order. *)
Definition held_by_majority (matches : list N) : N :=
  default 0 (sort_by (λ a b, b <=? a) matches !! Nat.div (length matches) 2).
Definition quorum_match (n : RaftNode) : N :=
  let held set := held_by_majority (map (match_of n) set) in
  let config := effective_config n in
  let base := held (vc_voters config) in
  from_option (λ new, N.min base (held new)) base (vc_joint config).

(** [RaftNode::prune_committed]. *)
Definition prune_committed (n : RaftNode) : RaftNode :=
  let kept := filter (λ e : N * WindowSlot, commit_index n < e.1) (window n) in
  let pruned := N.of_nat (size (window n) - size kept) in
  pending (0 <? pruned)
    (n <| window := kept |> <| window_counters ::= λ c, c <| wc_pruned ::= λ k, sat_add k pruned |> |>).

(** [RaftNode::step_down_if_removed]. *)
Definition step_down_if_removed (n : RaftNode) : RaftNode :=
  if negb (is_leader n) then n else
  let committed := committed_config n in
  if bool_decide (vc_joint committed = None) && negb (bool_decide (id n ∈ vc_voters committed))
  then n <| read_round := None |> <| role := Follower |> <| has_leader := false |> <| leader_hint := None |>
         <| votes := ∅ |>
  else n.

(** The loop that extends what is known committed over the fast choices. *)
Fixpoint extend_through (fuel : nat) (chosen : gset N) (last_ through : N) : N :=
  match fuel with
  | O => through
  | S fuel =>
      if (through <? last_) && has_elem chosen (sat_add through 1)
      then extend_through fuel chosen last_ (sat_add through 1) else through
  end.

(** [RaftNode::advance_leader_commit]. *)
Definition advance_leader_commit (n : RaftNode) : RaftNode :=
  if negb (is_leader n) then n else
  let held := quorum_match n in
  let n := if (commit_index n <? held) && bool_decide (entry_term n held = Some (current_term n))
           then n <| retention_pending := true |> <| commit_index := held |> else n in
  let through := extend_through (size (fast_chosen n)) (fast_chosen n) (last_log_index n) (committed_through n) in
  let n := n <| fast_through := through |> <| fast_chosen ::= filter (λ i, through < i) |> in
  step_down_if_removed (prune_committed n).

(** [RaftNode::leader_append]. *)
Definition leader_append (n : RaftNode) (entry : LogEntry) : RaftNode * bool :=
  if log_budget n <? sat_add (log_bytes_held n) (encoded_len entry)
  then (n <| budget_refused ::= tick |>, false) else
  let '(n, pushed) := push_entry n entry in
  if negb pushed then (n, false) else
  let n := n <| retention_pending := true |> in
  let n := if sync_index n =? 0 then n <| sync_index := last_log_index n |> else n in
  (advance_leader_commit n, true).
