(* ===== verification/RaftElect.v ===== *)
(** * Elections of a Raft node

    Models the election half of [crates/cluster/src/raft.rs]: pre-votes,
    votes, stepping down, the recovery a won election owes to the windows of
    its voters, and becoming leader. *)

From S2P Require Import Prelude RaftState RaftLog.
#[local] Open Scope N_scope.

Inductive TermExhausted := TermExhausted_.

(** ** Stepping down *)
Definition step_down (n : RaftNode) (term : N) : RaftNode :=
  let n := pending (negb (current_term n =? term) || bool_decide (is_Some (voted_for n))) n in
  n <| current_term := term |> <| voted_for := None |> <| read_round := None |> <| role := Follower |>
    <| leader_hint := None |> <| votes := ∅ |> <| reports := ∅ |> <| transfer := None |> <| staging := ∅ |>
    <| sync_index := 0 |> <| open_from := 0 |> <| fast_votes := ∅ |> <| fast_chosen := ∅ |>
    <| fast_through := 0 |> <| fast_proposed := 0 |>.
Definition observe_term (n : RaftNode) (term : N) : RaftNode :=
  if current_term n <? term then step_down n term else n.

(** ** The recovery of a won election *)
Definition window_span (n : RaftNode) : N := window_budget n / MIN_ENTRY_BYTES.

(** [RaftNode::window_above]: [BTreeMap::range] from the next index. *)
Definition window_above (n : RaftNode) (index : N) : list SlotReport :=
  filter (λ r, sat_add index 1 ≤ sr_index r) (window_reports (window n)).

(** [Iterator::max] of the ballots. *)
Definition max_ballot (slots : list WindowSlot) : option (N * bool) :=
  match map ballot slots with
  | [] => None
  | b :: r => Some (foldl (λ m x, if ballot_leb m x then x else m) b r)
  end.

(** [RaftNode::recovered_value]. *)
Definition recovered_value (n : RaftNode) (slots : list WindowSlot) (heard : N) : option (LogEntry * bool) :=
  highest ← max_ballot slots;
  let at_highest := filter (λ slot, ballot slot = highest) slots in
  if highest.2 then (λ slot, (ws_entry slot, false)) <$> hd_error at_highest
  else if bool_decide (is_Some (vc_joint (effective_config n))) then None
  else
    let voters := len (vc_voters (effective_config n)) in
    let threshold := sat_sub (sat_add heard (fast_quorum voters)) voters in
    (λ slot, (ws_entry slot, true)) <$>
      List.find (λ candidate,
        threshold <=? len (filter (λ other, ws_entry other = ws_entry candidate) at_highest)) at_highest.

(** [RaftNode::plan_recovery]. *)
Definition plan_recovery (n : RaftNode) : Recovery :=
  let above := last_log_index n in
  let own := window_above n above in
  let heard_reports := filter (λ r, above < sr_index r) (concat (bt_values (reports n))) in
  let reported : gmap N (list WindowSlot) :=
    foldl (λ m r, <[sr_index r := default [] (m !! sr_index r) ++ [sr_slot r]]> m) ∅ (own ++ heard_reports) in
  let heard := N.of_nat (size (votes n)) in
  let decided := omap (λ slots, recovered_value n slots heard) reported in
  let '(next, last_) :=
    match checked_add above 1 with
    | Some next => (next, default above (last_elem (dom decided)))
    | None => (u64_max, sat_sub above 1)
    end in
  mkRecovery (current_term n) decided next last_ (sat_add above (window_span n)) false.

(** [RaftNode::admits]. *)
Definition admits (n : RaftNode) (recovery : Recovery) : bool :=
  let span := sat_sub (sat_add (rc_last recovery) 1) (rc_next recovery) in
  let holes := sat_sub span (N.of_nat (size (rc_decided recovery))) in
  let hole_bytes := sat_mul holes MIN_ENTRY_BYTES in
  let value_bytes := bytes_of (bt_values (rc_decided recovery)).*1 in
  sat_add (sat_add (log_bytes_held n) hole_bytes) value_bytes <=? log_budget n.

(** [RaftNode::recovering]. *)
Definition recovering (n : RaftNode) : bool :=
  is_leader n && from_option (λ r, rc_term r =? current_term n) false (recovery n).

(** [RaftNode::recovery_entry]. *)
Definition recovery_entry (n : RaftNode) (r : Recovery) (index : N) : RaftNode * LogEntry :=
  match rc_decided r !! index with
  | None => (count_window wc_holes_filled n, command_entry (current_term n) [])
  | Some (entry, fast) =>
      let n := count_window wc_recovered n in
      let n := if rc_reach r <? index then count_window wc_recovered_beyond_reach n else n in
      let n := if fast : bool then count_window wc_recovered_fast_choices n else n in
      (n, mkLogEntry (current_term n) (le_command entry) (le_config entry))
  end.

Definition with_next (r : Recovery) (next : N) : Recovery :=
  mkRecovery (rc_term r) (rc_decided r) next (rc_last r) (rc_reach r) (rc_sliced r).

(** The loop of [RaftNode::continue_recovery]; whether a push was refused. *)
Fixpoint recovery_loop (fuel : nat) (slice : N) (n : RaftNode) (r : Recovery) (spent : N) :
    RaftNode * Recovery * bool :=
  match fuel with
  | O => (n, r, false)
  | S fuel =>
      if rc_last r <? rc_next r then (n, r, false) else
      let index := rc_next r in
      let bytes := from_option (λ e, encoded_len e.1) MIN_ENTRY_BYTES (rc_decided r !! index) in
      if (0 <? spent) && (slice <? sat_add spent bytes) then (n, r, false) else
      let '(n, entry) := recovery_entry n r index in
      let '(n, pushed) := push_entry n entry in
      if negb pushed then (n, r, true) else
      match checked_add index 1 with
      | Some next => recovery_loop fuel slice n (with_next r next) (sat_add spent bytes)
      | None => (n, r, false)
      end
  end.

(** [RaftNode::continue_recovery]. *)
Definition continue_recovery (n : RaftNode) : RaftNode :=
  if negb (recovering n) then n <| recovery := None |> else
  match recovery n with
  | None => n
  | Some r =>
      let n := n <| recovery := None |> in
      let slice := N.max (window_budget n) MIN_ENTRY_BYTES in
      let '(n, r, refused) := recovery_loop (S (N.to_nat (rc_last r + 1 - rc_next r))) slice n r 0 in
      let n := count_window wc_recovery_slices n in
      if refused : bool then n else
      let n := n <| retention_pending := true |> in
      if rc_next r <=? rc_last r then
        let n := if rc_sliced r then n else count_window wc_recoveries_sliced n in
        n <| recovery := Some (mkRecovery (rc_term r) (rc_decided r) (rc_next r) (rc_last r) (rc_reach r) true) |>
      else if rc_sliced r then (leader_append n (command_entry (current_term n) [])).1
      else n
  end.

(** [RaftNode::recover]. *)
Definition recover (n : RaftNode) (r : Recovery) : RaftNode :=
  let owed := rc_next r <=? rc_last r in
  let n := n <| reports := ∅ |> <| synced_term := current_term n |> <| sync_index := 0 |> <| open_from := 0 |>
    <| fast_votes := ∅ |> <| fast_chosen := ∅ |> <| fast_through := 0 |> <| fast_proposed := 0 |>
    <| retention_pending := true |> <| read_floor := if owed then rc_last r else 0 |> in
  if owed then continue_recovery (n <| recovery := Some r |>) else n.

(** ** Becoming leader *)
Definition start_following (n : RaftNode) (next : N) (peer : HostId) : RaftNode :=
  n <| next_index ::= <[peer := next]> |> <| match_index ::= <[peer := 0]> |> <| probing ::= λ s, {[ peer ]} ∪ s |>.

Definition become_leader_if_majority (n : RaftNode) : RaftNode :=
  if negb (bool_decide (role n = Candidate)) || negb (is_majority n (votes n)) then n else
  let r := plan_recovery n in
  if negb (admits n r) then
    count_window wc_recovery_refused n <| role := Follower |> <| leader_hint := None |> <| votes := ∅ |>
      <| reports := ∅ |>
  else
    let n := recover (n <| role := Leader |>) r in
    let n := n <| transfer := None |> <| staging := ∅ |> <| staging_aborted := None |> <| windows_led := 0 |>
      <| priority_transfer_pending := false |> <| priority_transfer_failed := false |>
      <| contacts := votes n |> in
    let next := sat_add (last_log_index n) 1 in
    let n := n <| next_index := ∅ |> <| match_index := ∅ |> <| probing := ∅ |> in
    foldl (λ n' peer, start_following n' next peer) n (filter (λ p, p ≠ id n) (all_voters n)).

(** ** Campaigning *)
Definition next_term (n : RaftNode) : RaftNode * option N :=
  let next := checked_add (current_term n) 1 in
  (if bool_decide (next = None) then n <| terms_exhausted ::= tick |> else n, next).

Definition others (n : RaftNode) : list HostId := filter (λ v, v ≠ id n) (all_voters n).

Definition start_election (n : RaftNode) : RaftNode * result TermExhausted (list RequestVote) :=
  if negb (is_voter n (id n)) then (n, Ok []) else
  match next_term n with
  | (n, None) => (n, Err TermExhausted_)
  | (n, Some term) =>
      let n := n <| retention_pending := true |> <| current_term := term |> <| elections ::= tick |>
        <| read_round := None |> <| role := Candidate |> <| voted_for := Some (id n) |> <| votes := {[ id n ]} |>
        <| reports := ∅ |> in
      let n := become_leader_if_majority n in
      (n, Ok (map (λ _, mkRequestVote (current_term n) (id n) (last_log_index n) (last_log_term n)) (others n)))
  end.

Definition on_election_timeout (n : RaftNode) : RaftNode * result TermExhausted (list PreVote) :=
  if negb (is_voter n (id n)) then (n, Ok []) else
  match next_term n with
  | (n, None) => (n, Err TermExhausted_)
  | (n, Some term) =>
      let n := n <| has_leader := false |> <| leader_hint := None |> <| role := PreCandidate |>
        <| pre_elections ::= tick |> <| pre_votes := {[ id n ]} |> in
      if is_majority n (pre_votes n) then
        match start_election n with
        | (n, Ok _) => (n, Ok [])
        | (n, Err e) => (n, Err e)
        end
      else
        (n, Ok (map (λ _, mkPreVote term (id n) (last_log_index n) (last_log_term n)) (others n)))
  end.

Definition forget_leader (n : RaftNode) : RaftNode :=
  if bool_decide (role n = Follower) then n <| has_leader := false |> <| leader_hint := None |> else n.

Definition pre_vote_refusal (n : RaftNode) (request : PreVote) : option PreVoteRefusal :=
  if bool_decide (role n = Leader) then Some RefusedRole
  else if has_leader n then Some RefusedLeased
  else if pv_term request <=? current_term n then Some RefusedTerm
  else if negb (candidate_log_is_current n (pv_last_log_index request) (pv_last_log_term request))
  then Some RefusedLog
  else None.

Definition on_pre_vote (n : RaftNode) (request : PreVote) : RaftNode * PreVoteReply :=
  let reply n granted := (n, mkPreVoteReply (id n) (pv_term request) granted) in
  match admit_candidacy (pv_term request) (pv_last_log_index request) (pv_last_log_term request) with
  | Err kind => reply (refuse_malformed n kind) false
  | Ok _ =>
      match pre_vote_refusal n request with
      | Some refusal => reply (n <| pre_vote_tally ::= λ t, tally_count t refusal |>) false
      | None => reply n true
      end
  end.

(** A reply to this node's own pre-election, counted. *)
Definition tally_reply (granted : bool) (t : PreVoteTally) : PreVoteTally :=
  let '(mkPreVoteTally g r ro le te lo) := t in
  if granted then mkPreVoteTally (tick g) r ro le te lo else mkPreVoteTally g (tick r) ro le te lo.

Definition on_pre_vote_reply (n : RaftNode) (reply : PreVoteReply) : RaftNode * option (list RequestVote) :=
  if negb (bool_decide (role n = PreCandidate))
     || negb (bool_decide (Some (pvr_term reply) = checked_add (current_term n) 1))
  then (n, None) else
  let n := n <| pre_vote_tally ::= tally_reply (pvr_granted reply) |> in
  if negb (pvr_granted reply) then (n, None) else
  let n := n <| pre_votes ::= λ s, {[ pvr_voter reply ]} ∪ s |> in
  if is_majority n (pre_votes n) then
    match start_election n with
    | (n, Ok requests) => (n, Some requests)
    | (n, Err _) => (n, None)
    end
  else (n, None).

(** ** Voting *)
Definition on_request_vote (n : RaftNode) (request : RequestVote) : RaftNode * VoteReply :=
  match admit_candidacy (rv_term request) (rv_last_log_index request) (rv_last_log_term request) with
  | Err kind => let n := refuse_malformed n kind in (n, mkVoteReply (id n) (current_term n) false [])
  | Ok _ =>
      let n := if current_term n <? rv_term request then step_down n (rv_term request) else n in
      let not_yet_voted_elsewhere :=
        bool_decide (voted_for n = None) || bool_decide (voted_for n = Some (rv_candidate request)) in
      let granted := (rv_term request =? current_term n) && not_yet_voted_elsewhere
        && candidate_log_is_current n (rv_last_log_index request) (rv_last_log_term request) in
      let n := if granted
        then pending (negb (bool_decide (voted_for n = Some (rv_candidate request)))) n
               <| voted_for := Some (rv_candidate request) |>
        else n in
      (n, mkVoteReply (id n) (current_term n) granted
            (if granted then window_above n (rv_last_log_index request) else []))
  end.

Definition on_vote_reply (n : RaftNode) (reply : VoteReply) : RaftNode :=
  match admit_reports reply with
  | Err kind => refuse_malformed n kind
  | Ok _ =>
      if current_term n <? vr_term reply then step_down n (vr_term reply)
      else if bool_decide (role n = Candidate) && (vr_term reply =? current_term n) && vr_granted reply
              && votes_in_configuration n (vr_voter reply)
      then become_leader_if_majority
             (n <| votes ::= λ s, {[ vr_voter reply ]} ∪ s |>
                <| reports ::= <[vr_voter reply := vr_reports reply]> |>)
      else n
  end.
