(* ===== verification/RaftReplicate.v ===== *)
(** * Log replication of a Raft node

    Models the replication half of [crates/cluster/src/raft.rs]: the
    follower's append and snapshot handlers, the window that keeps entries
    ahead of a hole, the leader's progress tracking, batching and backing up. *)

From S2P Require Import Prelude RaftState RaftLog RaftElect.
#[local] Open Scope N_scope.

(** ** Replies *)
Definition append_reply (n : RaftNode) (success : bool) (match_index read_context : N) : AppendReply :=
  mkAppendReply read_context (id n) (current_term n) success match_index 0 0 (own_priority n).

(** The loop of [conflict_reply] down the run of a term. *)
Fixpoint run_start (fuel : nat) (n : RaftNode) (floor term first : N) : N :=
  match fuel with
  | O => first
  | S fuel =>
      if (floor <? first) && bool_decide (entry_term n (first - 1) = Some term)
      then run_start fuel n floor term (first - 1) else first
  end.
Definition conflict_reply (n : RaftNode) (prev read_context : N) : AppendReply :=
  let '(conflict_term, conflict_index) :=
    match entry_term n prev with
    | None => (0, sat_add (last_log_index n) 1)
    | Some term =>
        let floor := sat_add (snapshot_index n) 1 in
        (term, run_start (N.to_nat (prev - floor)) n floor term prev)
    end in
  mkAppendReply read_context (id n) (current_term n) false 0 conflict_term conflict_index (own_priority n).

Definition snapshot_reply (n : RaftNode) (match_index : N) : InstallSnapshotReply :=
  mkInstallSnapshotReply (id n) (current_term n) match_index.

(** [RaftNode::recognize_leader]. *)
Definition recognize_leader (n : RaftNode) (term : N) (leader : HostId) : RaftNode :=
  let n := if current_term n <? term then step_down n term else n in
  n <| read_round := None |> <| role := Follower |> <| has_leader := true |> <| leader_hint := Some leader |>.

(** ** The window *)
Definition window_holds_at_least (n : RaftNode) (index : N) (b : N * bool) : bool :=
  from_option (λ held, ballot_leb b (ballot held)) false (window n !! index).
Definition window_bytes (n : RaftNode) : N := bytes_of (map ws_entry (bt_values (window n))).
Definition window_fits (n : RaftNode) (entry : LogEntry) : bool :=
  sat_add (window_bytes n) (encoded_len entry) <=? window_budget n.

(** The loop of [RaftNode::buffer]. *)
Fixpoint buffer_loop (n : RaftNode) (term floor reach index : N) (entries : list LogEntry) : RaftNode :=
  match entries with
  | [] => n
  | entry :: rest =>
      let index := sat_add index 1 in
      let slot := mkWindowSlot term false entry in
      let n :=
        if negb (le_term entry =? term) || (index <=? floor) || (reach <? index) then n
        else if window_holds_at_least n index (ballot slot) || negb (window_fits n entry) then n
        else count_window wc_buffered (n <| window ::= <[index := slot]> |> <| retention_pending := true |>) in
      buffer_loop n term floor reach index rest
  end.
Definition buffer (n : RaftNode) (request : AppendEntries) : RaftNode :=
  if negb (synced_term n =? ae_term request) || negb (ae_term request =? current_term n) then n
  else
    buffer_loop n (ae_term request) (last_log_index n) (sat_add (last_log_index n) (window_span n))
      (ae_prev_log_index request) (ae_entries request).

Definition observe_sync (n : RaftNode) (term sync_index : N) : RaftNode :=
  if (sync_index =? 0) || (term <=? synced_term n) || negb (bool_decide (entry_term n sync_index = Some term))
  then n else n <| synced_term := term |> <| retention_pending := true |>.

(** The loop of [RaftNode::absorb]: at most one turn per slot. *)
Fixpoint absorb_loop (fuel : nat) (n : RaftNode) (term : N) : RaftNode :=
  match fuel with
  | O => n
  | S fuel =>
      match window n !! sat_add (last_log_index n) 1 with
      | Some slot =>
          if negb (ws_fast slot) && (ws_term slot =? term) && (le_term (ws_entry slot) =? term) then
            let '(n, pushed) := push_entry n (ws_entry slot) in
            if pushed
            then absorb_loop fuel (count_window wc_absorbed (n <| retention_pending := true |>)) term
            else n
          else n
      | None => n
      end
  end.
Definition absorb (n : RaftNode) (term : N) : RaftNode * N :=
  let n := absorb_loop (S (size (window n))) n term in (n, last_log_index n).

(** ** Appending *)

(** [RaftNode::admit_append]. *)
Definition admit_append (n : RaftNode) (request : AppendEntries) : result Malformed.t unit :=
  if ae_term request =? 0 then Err Malformed.ZeroTerm
  else if (ae_term request <? ae_prev_log_term request)
          || negb (position_agrees (ae_prev_log_index request) (ae_prev_log_term request))
  then Err Malformed.Position
  else
    _ ← admit_entries (ae_entries request) (ae_prev_log_term request) (ae_term request);
    if ae_prev_log_index request <? commit_index n then
      let covered := commit_index n - ae_prev_log_index request in
      match hd_error (dropN covered (ae_entries request)) with
      | Some first =>
          if le_term first <? default 0 (entry_term n (commit_index n)) then Err Malformed.EntryTerm else Ok tt
      | None => Ok tt
      end
    else Ok tt.

(** The entry loop of [on_append_entries]: the index it reaches. *)
Fixpoint place_entries (n : RaftNode) (index : N) (entries : list LogEntry) : RaftNode * N :=
  match entries with
  | [] => (n, index)
  | entry :: rest =>
      let index := sat_add index 1 in
      let '(n, placed) := place_entry n index entry in
      if placed then place_entries n index rest else (n, index)
  end.

(** [runs_past_the_index_range]: the refusal is counted. *)
Definition runs_past (prev : N) (entries : list LogEntry) : bool :=
  bool_decide (checked_add prev (len entries) = None).

(** [on_append_entries] from the consistency check on, at the position it is taken. *)
Definition append_at (n : RaftNode) (request : AppendEntries) (prev prev_term : N) (entries : list LogEntry) :
    RaftNode * AppendReply :=
  if (0 <? prev) && negb (bool_decide (entry_term n prev = Some prev_term)) then
    let request := mkAppendEntries (ae_read_context request) (ae_term request) (ae_leader request) prev
      prev_term entries (ae_leader_commit request) (ae_priorities request) (ae_sync_index request)
      (ae_open_from request) in
    let n := buffer n request in
    (n, conflict_reply n prev (ae_read_context request))
  else if runs_past prev entries then
    let n := n <| indices_exhausted ::= tick |> in
    (n, append_reply n false (last_log_index n) (ae_read_context request))
  else
    let '(n, index) := place_entries n prev entries in
    let n :=
      if commit_index n <? ae_leader_commit request then
        let committed := N.min (ae_leader_commit request) index in
        pending (negb (commit_index n =? committed)) n <| commit_index := committed |>
      else n in
    let n := observe_sync n (ae_term request) (ae_sync_index request) in
    let '(n, absorbed) := absorb n (ae_term request) in
    let n := prune_committed n in
    (n, append_reply n true (N.max absorbed index) (ae_read_context request)).

Definition on_append_entries (n : RaftNode) (request : AppendEntries) : RaftNode * AppendReply :=
  match admit_append n request with
  | Err kind => let n := refuse_malformed n kind in (n, append_reply n false 0 0)
  | Ok _ =>
      if ae_term request <? current_term n then (n, append_reply n false 0 0) else
      let n := recognize_leader n (ae_term request) (ae_leader request) in
      let '(term, known) := open_announced n in
      let known := if term =? ae_term request then known else 0 in
      let n := n <| open_announced := (ae_term request, N.max known (ae_open_from request)) |>
        <| priorities := bt_collect (ae_priorities request) |> in
      if ae_prev_log_index request <? commit_index n then
        let covered := commit_index n - ae_prev_log_index request in
        if len (ae_entries request) <=? covered
        then (n, append_reply n true (commit_index n) (ae_read_context request))
        else
          append_at n request (commit_index n) (default 0 (entry_term n (commit_index n)))
            (dropN covered (ae_entries request))
      else append_at n request (ae_prev_log_index request) (ae_prev_log_term request) (ae_entries request)
  end.

(** ** Snapshots *)
Definition install_snapshot_for (n : RaftNode) (follower : HostId) : option InstallSnapshot :=
  if negb (is_leader n) || (snapshot_index n =? 0) then None else
  let next := N.max (default 1 (next_index n !! follower)) 1 in
  if snapshot_index n <? next then None
  else Some (mkInstallSnapshot (current_term n) (id n) (snapshot_index n) (snapshot_term n) (base_config n)
               (snapshot_data n)).

Definition on_install_snapshot (n : RaftNode) (request : InstallSnapshot) : RaftNode * InstallSnapshotReply :=
  match admit_snapshot request with
  | Err kind => let n := refuse_malformed n kind in (n, snapshot_reply n 0)
  | Ok _ =>
      if is_term request <? current_term n then (n, snapshot_reply n 0) else
      let n := recognize_leader n (is_term request) (is_sender request) in
      let boundary := is_last_included_index request in
      let n :=
        if snapshot_index n <? boundary then
          let n := n <| retention_pending := true |> in
          let keeps_suffix := bool_decide (entry_term n boundary = Some (is_last_included_term request)) in
          let n :=
            if keeps_suffix then drop_prefix n (N.min (boundary - snapshot_index n) (len (log n))) boundary
            else n <| log := [] |> <| log_bytes_held := 0 |> <| config_entries := ∅ |> in
          let n := n <| snapshot_index := boundary |> <| snapshot_term := is_last_included_term request |>
            <| snapshot_data := is_state request |> <| voters := vc_voters (is_config request) |>
            <| joint := vc_joint (is_config request) |> <| commit_index ::= N.max boundary |> in
          prune_committed n
        else n in
      (n, snapshot_reply n (commit_index n))
  end.

Definition decline_snapshot (n : RaftNode) (request : InstallSnapshot) : RaftNode * InstallSnapshotReply :=
  let n := if current_term n <=? is_term request
           then recognize_leader n (is_term request) (is_sender request) else n in
  (n, snapshot_reply n 0).

(** ** Progress *)

(** A staged member that has taken its round completes it. *)
Definition complete_round (last_ matched : N) (staging : Staging) : Staging :=
  if negb (sg_caught_up staging) && (sg_round_end staging <=? matched) then
    if sg_window_passed staging
    then mkStaging last_ false (sg_lag_at_tick staging) (sg_strikes staging) (sg_caught_up staging)
    else mkStaging (sg_round_end staging) (sg_window_passed staging) (sg_lag_at_tick staging)
           (sg_strikes staging) true
  else staging.

(** [RaftNode::record_match]. *)
Definition record_match (n : RaftNode) (follower : HostId) (index : N) : RaftNode :=
  let matched := N.max (match_of n follower) index in
  let n := n <| match_index ::= <[follower := matched]> |> <| probing ::= λ s, s ∖ {[ follower ]} |> in
  let next := default 1 (next_index n !! follower) in
  let n := n <| next_index ::= <[follower := N.max next (sat_add matched 1)]> |> in
  n <| staging ::= alter (complete_round (last_log_index n) matched) follower |>.

Definition on_install_snapshot_reply (n : RaftNode) (reply : InstallSnapshotReply) : RaftNode :=
  if current_term n <? isr_term reply then step_down n (isr_term reply)
  else if negb (is_leader n) || negb (isr_term reply =? current_term n) then n
  else if last_log_index n <? isr_match_index reply then refuse_malformed n Malformed.Match
  else
    let n := n <| contacts ::= λ s, {[ isr_follower reply ]} ∪ s |> in
    if 0 <? isr_match_index reply
    then advance_leader_commit (record_match n (isr_follower reply) (isr_match_index reply))
    else n.

(** [Iterator::rposition]: the last position of a term. *)
Fixpoint rposition (term : N) (i : N) (l : list LogEntry) : option N :=
  match l with
  | [] => None
  | e :: l =>
      match rposition term (i + 1) l with
      | Some j => Some j
      | None => if le_term e =? term then Some i else None
      end
  end.
Definition last_index_of_term (n : RaftNode) (term : N) : option N :=
  (λ at_, sat_add (sat_add (snapshot_index n) at_) 1) <$> rposition term 0 (log n).

(** [RaftNode::back_up]. *)
Definition back_up (n : RaftNode) (reply : AppendReply) : RaftNode :=
  match next_index n !! ar_follower reply with
  | None => n
  | Some next =>
      let hint :=
        if ar_conflict_term reply =? 0 then ar_conflict_index reply
        else from_option (λ last_, sat_add last_ 1) (ar_conflict_index reply)
               (last_index_of_term n (ar_conflict_term reply)) in
      let floor := sat_add (match_of n (ar_follower reply)) 1 in
      let backed := N.max (N.max (N.min hint (sat_sub next 1)) floor) 1 in
      n <| next_index ::= <[ar_follower reply := backed]> |>
        <| probing ::= λ s, {[ ar_follower reply ]} ∪ s |>
  end.

(** The read round confirmed by a reply. *)
Definition confirm_read (n : RaftNode) (reply : AppendReply) : RaftNode :=
  if is_voter n (ar_follower reply) then
    n <| read_round ::= fmap (λ r,
      if (ar_read_context reply =? rr_context r) && (ar_term reply =? rr_term r)
      then mkReadRound (rr_context r) (rr_term r) (rr_index r) (rr_config r)
             ({[ ar_follower reply ]} ∪ rr_confirmed r)
      else r) |>
  else n.

Definition on_append_reply (n : RaftNode) (reply : AppendReply) : RaftNode :=
  if current_term n <? ar_term reply then step_down n (ar_term reply)
  else if negb (is_leader n) || negb (ar_term reply =? current_term n) then n
  else
    let n := confirm_read n reply in
    let n := n <| contacts ::= λ s, {[ ar_follower reply ]} ∪ s |>
      <| priorities ::= <[ar_follower reply := ar_priority reply]> |> in
    if ar_success reply then
      if last_log_index n <? ar_match_index reply then refuse_malformed n Malformed.Match
      else advance_leader_commit (record_match n (ar_follower reply) (ar_match_index reply))
    else back_up n reply.

(** ** Sending *)

(** The [take_while] of [batch_from], with what is spent before an entry. *)
Fixpoint batch_count (budget spent : N) (owed : list LogEntry) : nat :=
  match owed with
  | [] => O
  | entry :: rest =>
      let after := sat_add spent (encoded_len entry) in
      if (spent =? 0) || (after <=? budget) then S (batch_count budget after rest) else O
  end.
Definition owed_from (n : RaftNode) (from : N) : list LogEntry :=
  default [] (get_from (log n) (from - snapshot_index n - 1)).
Definition batch_from (n : RaftNode) (from budget : N) : list LogEntry :=
  take (batch_count budget 0 (owed_from n from)) (owed_from n from).

(** [RaftNode::room_ahead]. *)
Definition room_ahead (n : RaftNode) (first_unacknowledged next budget : N) : bool :=
  if first_unacknowledged <=? snapshot_index n then false else
  let resent := batch_from n first_unacknowledged budget in
  if last_log_index n <? sat_add first_unacknowledged (len resent) then false else
  let coming := bytes_of (batch_from n next budget) in
  let first := bytes_of resent in
  let sent := sat_sub next first_unacknowledged in
  let in_flight := bytes_of (default [] (get_range (owed_from n first_unacknowledged) 0 sent)) in
  (0 <? coming) && (sat_add (sat_sub in_flight first) coming <=? window_budget n).

(** [RaftNode::replicate_to]. *)
Definition replicate_to (n : RaftNode) (follower : HostId) (budget : N) : RaftNode * option AppendEntries :=
  let n := if recovering n then continue_recovery n else n in
  if negb (is_leader n) then (n, None) else
  let next := N.max (default 1 (next_index n !! follower)) 1 in
  let first_unacknowledged := sat_add (match_of n follower) 1 in
  let probing_ := has_elem (probing n) follower in
  let resend := negb probing_ && (first_unacknowledged <? next)
    && negb (room_ahead n first_unacknowledged next budget) in
  let from := if resend then first_unacknowledged else next in
  let prev_log_index := sat_sub from 1 in
  if prev_log_index <? snapshot_index n then
    (n <| next_index ::= <[follower := from]> |> <| probing ::= λ s, {[ follower ]} ∪ s |>, None)
  else
    let prev_log_term := if prev_log_index =? 0 then 0 else default 0 (entry_term n prev_log_index) in
    let entries := batch_from n from budget in
    let n :=
      if negb probing_ && negb resend then
        let n := n <| next_index ::= <[follower := sat_add from (len entries)]> |> in
        if first_unacknowledged <? from then count_window wc_sent_ahead n else n
      else n in
    let table := omap (λ voter, pair voter <$> priorities n !! voter) (others n) ++ [(id n, own_priority n)] in
    (n, Some (mkAppendEntries (from_option rr_context 0 (read_round n)) (current_term n) (id n) prev_log_index
                prev_log_term entries (commit_index n) table (sync_index n) (open_from n))).
