(* ===== verification/RaftFast.v ===== *)
(** * Proposals and the fast track of a Raft node

    Models [crates/cluster/src/raft.rs]'s proposals: the classic append, the
    opening of a term's fast track, proposals and votes on it, the leader's
    decision from the votes and the fast quorums it commits by. *)

From S2P Require Import Prelude RaftState RaftLog RaftElect.
#[local] Open Scope N_scope.

(** ** Classic proposals *)

(** [RaftNode::active_transfer]. *)
Definition active_transfer (n : RaftNode) : option Transfer :=
  t ← transfer n;
  if bool_decide (role n = Leader) && (tf_term t =? current_term n) then Some t else None.
Definition transferring (n : RaftNode) : bool := bool_decide (is_Some (active_transfer n)).

Definition append_command (n : RaftNode) (command : bytes) : RaftNode * bool :=
  if negb (is_leader n) || transferring n || (0 <? open_from n) || recovering n then (n, false)
  else leader_append n (command_entry (current_term n) command).

Definition set_log_budget_to (n : RaftNode) (bytes : N) : RaftNode := n <| log_budget := bytes |>.
Definition set_window_budget_to (n : RaftNode) (bytes : N) : RaftNode := n <| window_budget := bytes |>.
(** [RaftNode::window]. *)
Definition window_slots (n : RaftNode) : list SlotReport := window_above n 0.

(** ** Opening and proposing *)
Definition open_fast_track (n : RaftNode) : RaftNode * bool :=
  if negb (is_leader n) || (sync_index n =? 0) || (window_budget n =? 0) || (0 <? open_from n)
     || in_joint_configuration n || (commit_index n <? latest_config_index n) || transferring n
  then (n, false)
  else
    let from := sat_add (last_log_index n) 1 in
    (n <| open_from := from |> <| open_announced := (current_term n, from) |>, true).

Definition fast_open_from (n : RaftNode) : N :=
  let '(term, from) := open_announced n in if term =? current_term n then from else 0.
Definition fast_track_open (n : RaftNode) : bool :=
  (0 <? fast_open_from n) && (synced_term n =? current_term n).

Definition propose_fast (n : RaftNode) (command : bytes) : RaftNode * option FastPropose :=
  if negb (fast_track_open n) || transferring n then (n, None) else
  let used := N.max (N.max (default 0 (last (bt_keys (window n)))) (last_log_index n)) (fast_proposed n) in
  match checked_add used 1 with
  | None => (n <| indices_exhausted ::= tick |>, None)
  | Some after =>
      let index := N.max (fast_open_from n) after in
      (n <| fast_proposed := index |>, Some (mkFastPropose (current_term n) (id n) index command))
  end.

Definition stalled_index (n : RaftNode) : option N :=
  if negb (is_leader n) || (open_from n =? 0) || transferring n then None else
  let next := sat_add (last_log_index n) 1 in
  let waiting := from_option (λ index, next <=? index) false (last (bt_keys (fast_votes n))) in
  let heard : gset HostId := from_option dom ∅ (fast_votes n !! next) in
  if waiting && negb (is_majority n heard) then Some next else None.

Definition fill_hole (n : RaftNode) (index : N) : option FastPropose :=
  if bool_decide (stalled_index n = Some index)
  then Some (mkFastPropose (current_term n) (id n) index []) else None.

(** ** Voting *)
Definition on_fast_propose (n : RaftNode) (proposal : FastPropose) : RaftNode * option FastVote :=
  let index := fp_index proposal in
  let floor := last_log_index n in
  let reach := sat_add floor (window_span n) in
  if negb (fp_term proposal =? current_term n) || negb (is_voter n (id n))
     || negb (synced_term n =? current_term n) || (fast_open_from n =? 0) || (index <? fast_open_from n)
     || (index <=? floor) || (reach <? index)
  then (n, None)
  else
    let vote command := mkFastVote (fp_term proposal) (id n) index command in
    let cast :=
      let entry := command_entry (current_term n) (fp_command proposal) in
      let replaced := from_option (λ held, encoded_len (ws_entry held)) 0 (window n !! index) in
      let held := bytes_of (map ws_entry (bt_values (window n))) in
      if window_budget n <? sat_add (sat_sub held replaced) (encoded_len entry) then (n, None)
      else
        (n <| window ::= <[index := mkWindowSlot (current_term n) true entry]> |> <| retention_pending := true |>,
         Some (vote (le_command entry))) in
    match window n !! index with
    | Some held =>
        if ws_fast held && (ws_term held =? current_term n) then (n, Some (vote (le_command (ws_entry held))))
        else if ballot_leb (current_term n, false) (ballot held) then (n, None)
        else cast
    | None => cast
    end.

(** ** Deciding *)

(** [Vec<u8>]'s order, lexicographic on the bytes. *)
#[export] Program Instance bytes_key : BTreeKey bytes := { key_leb a b := String.leb (of_bytes a) (of_bytes b) }.
Next Obligation. intros a b. apply string_leb_total. Qed.
Next Obligation. intros a b c. apply string_leb_trans. Qed.
Next Obligation.
  intros a b H1 H2. rewrite <- (as_bytes_of_bytes a), <- (as_bytes_of_bytes b).
  f_equal. by apply string_leb_antisym.
Qed.

(** [Iterator::max_by]: the last of the greatest; [Iterator::min_by_key]: the first of the least. *)
Definition max_by {A} (leb : A → A → bool) (l : list A) : option A :=
  match l with [] => None | x :: r => Some (foldl (λ m y, if leb m y then y else m) x r) end.
Definition min_by {A} (leb : A → A → bool) (l : list A) : option A :=
  match l with [] => None | x :: r => Some (foldl (λ m y, if leb m y then m else y) x r) end.

(** The votes each command has, and the command the leader decides. *)
Definition vote_counts (votes : list bytes) : gmap bytes N :=
  foldl (λ counts command, <[command := sat_add (default 0 (counts !! command)) 1]> counts) ∅ votes.
Definition vote_leb (left right : bytes * N) : bool :=
  (left.2 <? right.2) || ((left.2 =? right.2) && key_leb right.1 left.1).
Definition most_voted (votes : list bytes) : option bytes :=
  fst <$> max_by vote_leb (bt_list (vote_counts votes)).

(** The loop of [RaftNode::decide_from_votes]: one turn per index with votes, and the one that ends it. *)
Fixpoint decide_loop (fuel : nat) (n : RaftNode) : RaftNode :=
  match fuel with
  | O => n
  | S fuel =>
      match fast_votes n !! sat_add (last_log_index n) 1 with
      | None => n
      | Some votes =>
          if negb (is_majority n (dom votes)) then n else
          match most_voted (bt_values votes) with
          | None => n
          | Some command =>
              let '(n, appended) := leader_append n (command_entry (current_term n) command) in
              if appended then decide_loop fuel (count_window wc_decided_from_votes n) else n
          end
      end
  end.
Definition decide_from_votes (n : RaftNode) : RaftNode :=
  if transferring n then n else decide_loop (S (size (fast_votes n))) n.

(** Whether a fast quorum of this term's votes carries the entry decided at an index. *)
Definition fast_quorum_carries (n : RaftNode) (fast index : N) (votes : gmap HostId bytes) : bool :=
  match entry_at n index with
  | None => false
  | Some entry =>
      (le_term entry =? current_term n)
      && (fast <=? len (filter (λ command, command = le_command entry) (bt_values votes)))
      && negb (has_elem (fast_chosen n) index)
  end.

(** [RaftNode::count_fast_quorums]. *)
Definition count_fast_quorums (n : RaftNode) : RaftNode :=
  let fast := fast_quorum (len (all_voters n)) in
  let committed := committed_through n in
  let last_ := last_log_index n in
  let chosen := fst <$> List.filter (λ e : N * gmap HostId bytes,
    (committed <? e.1) && (e.1 <=? last_) && fast_quorum_carries n fast e.1 e.2) (bt_list (fast_votes n)) in
  let n := foldl (λ n' index,
    count_window wc_fast_commits (n' <| fast_chosen ::= λ s, {[ index ]} ∪ s |>)) n chosen in
  let n := advance_leader_commit n in
  let committed := committed_through n in
  n <| fast_votes ::= filter (λ e : N * gmap HostId bytes, committed < e.1) |>.

Definition on_fast_vote (n : RaftNode) (vote : FastVote) : RaftNode :=
  let index := fv_index vote in
  if negb (is_leader n) || negb (fv_term vote =? current_term n) || (open_from n =? 0)
     || (index <? open_from n) || (index <=? committed_through n)
     || (sat_add (last_log_index n) (window_span n) <? index) || negb (is_voter n (fv_voter vote))
  then n
  else
    let n := n <| contacts ::= λ s, {[ fv_voter vote ]} ∪ s |>
      <| fast_votes ::= λ m, <[index := <[fv_voter vote := fv_command vote]> (default ∅ (m !! index))]> m |> in
    count_fast_quorums (decide_from_votes n).
