(* ===== verification/RaftAdmin.v ===== *)
(** * Quorum checks, transfers, reads and membership of a Raft node

    Models the rest of [crates/cluster/src/raft.rs]: the CheckQuorum tick and
    what ages with it, staging of new members, priorities, leadership
    transfer, read rounds and membership changes. *)

From S2P Require Import Prelude RaftState RaftLog RaftElect RaftReplicate RaftFast.
#[local] Open Scope N_scope.

(** ** The CheckQuorum tick *)

(** [RaftNode::forget_progress]. *)
Definition forget_progress (n : RaftNode) (member : HostId) : RaftNode :=
  if is_voter n member then n
  else n <| next_index ::= delete member |> <| match_index ::= delete member |>
         <| probing ::= λ s, s ∖ {[ member ]} |>.

(** One tick of one staging; whether it is stalled. *)
Definition age_one (last_ matched : N) (s : Staging) : Staging * bool :=
  if sg_caught_up s then (s, false) else
  let lag := sat_sub last_ matched in
  let strikes := if lag <? sg_lag_at_tick s then 0 else tick_u8 (sg_strikes s) in
  (mkStaging (sg_round_end s) true lag strikes (sg_caught_up s), STALLED_WINDOWS <=? strikes).

(** [RaftNode::age_staging]. *)
Definition abort_staging (n : RaftNode) (member : HostId) : RaftNode :=
  forget_progress (n <| staging ::= delete member |>) member
    <| stagings_aborted ::= tick |> <| staging_aborted := Some member |>.
Definition age_staging (n : RaftNode) : RaftNode :=
  let aged := map_imap (λ member s, Some (age_one (last_log_index n) (match_of n member) s)) (staging n) in
  let aborted := fst <$> List.filter (λ e : HostId * (Staging * bool), e.2.2) (bt_list aged) in
  foldl abort_staging (n <| staging := fst <$> aged |>) aborted.

(** [RaftNode::age_transfer]. *)
Definition age_transfer (n : RaftNode) : RaftNode :=
  match active_transfer n with
  | None => n <| transfer := None |>
  | Some t =>
      let quorum_checks := tick_u8 (tf_quorum_checks t) in
      if TRANSFER_QUORUM_CHECKS <=? quorum_checks then
        let n := n <| transfer := None |> <| transfers_aborted ::= tick |> in
        let n := if priority_transfer_pending n
                 then n <| priority_transfer_pending := false |> <| priority_transfer_failed := true |> else n in
        count_fast_quorums (decide_from_votes n)
      else n <| transfer := Some (mkTransfer (tf_target t) (tf_term t) quorum_checks (tf_invited t)) |>
  end.

(** [RaftNode::check_quorum]. *)
Definition check_quorum (n : RaftNode) : RaftNode :=
  if negb (is_leader n) then n else
  let n := age_staging (age_transfer n) in
  let n := n <| windows_led ::= tick_u8 |> in
  let targets : gset HostId := list_to_set (replication_targets n) in
  let n := n <| priorities ::= filter (λ e : HostId * ElectionPriority, e.1 ∈ targets) |> in
  let n := if negb (is_majority n ({[ id n ]} ∪ contacts n))
    then n <| read_round := None |> <| role := Follower |> <| has_leader := false |> <| leader_hint := None |>
           <| transfer := None |> <| staging := ∅ |>
    else n in
  n <| contacts := ∅ |>.

(** ** Staging *)
Definition stage_member (last_ : N) (n : RaftNode) (member : HostId) : RaftNode :=
  if has_key (staging n) member then n
  else n <| staging ::= <[member := mkStaging last_ false u64_max 0 false]> |>
         <| next_index ::= <[member := sat_add last_ 1]> |> <| match_index ::= <[member := 0]> |>
         <| probing ::= λ s, {[ member ]} ∪ s |>.

Definition catch_up (n : RaftNode) (target : list HostId) : RaftNode * CatchUp :=
  if negb (is_leader n) then (n, CatchUpNotLeader) else
  let voters := all_voters n in
  let adds : gset HostId := list_to_set (filter (λ m, m ≠ id n ∧ m ∉ voters) target) in
  let unstaged := filter (λ m, m ∉ adds) (bt_keys (staging n)) in
  let n := foldl (λ n' m, forget_progress (n' <| staging ::= delete m |>) m) n unstaged in
  let aborted := m ← staging_aborted n; if has_elem adds m then Some m else None in
  let n := n <| staging_aborted := None |> in
  match aborted with
  | Some member => (n, CatchUpAborted member)
  | None =>
      let n := foldl (stage_member (last_log_index n)) n (bt_elems adds) in
      (n, if forallb (λ m, from_option sg_caught_up false (staging n !! m)) (bt_elems adds)
          then CatchUpReady else CatchUpPending)
  end.

Definition staged (n : RaftNode) : list (HostId * bool) :=
  if negb (is_leader n) then [] else map (λ e, (e.1, sg_caught_up e.2)) (bt_list (staging n)).

(** ** Leadership transfer and priorities *)
Definition set_priority (n : RaftNode) (priority : ElectionPriority) : RaftNode := n <| own_priority := priority |>.

(** The live voters that outrank this node, with their priorities. *)
Definition outranking (n : RaftNode) (alive : list HostId) : list (HostId * ElectionPriority) :=
  List.filter (λ e : HostId * ElectionPriority, outranks e.2 (own_priority n))
    (omap (λ voter, pair voter <$> priorities n !! voter)
       (filter (λ voter, voter ≠ id n ∧ voter ∈ alive) (all_voters n))).
Definition election_rank (n : RaftNode) (alive : list HostId) : N := len (outranking n alive).

Definition transfer_leadership (n : RaftNode) (target : HostId) : RaftNode * result TransferRefusal unit :=
  if negb (is_leader n) then (n, Err NotLeader)
  else if target =? id n then (n, Err TargetIsSelf)
  else if negb (is_voter n target) then (n, Err TargetNotVoter)
  else
    match active_transfer n with
    | Some t => (n, Err (InFlight (tf_target t)))
    | None => (n <| transfer := Some (mkTransfer target (current_term n) 0 false) |>, Ok tt)
    end.

(** The order of [(quorum_ns, voter.0)]. *)
Definition priority_leb (a b : HostId * ElectionPriority) : bool :=
  (quorum_ns a.2 <? quorum_ns b.2) || ((quorum_ns a.2 =? quorum_ns b.2) && (a.1 <=? b.1)).
Definition priority_transfer (n : RaftNode) (alive : list HostId) : RaftNode * option HostId :=
  if negb (is_leader n) || (windows_led n <? PRIORITY_WINDOWS) || priority_transfer_failed n || transferring n
  then (n, None) else
  match min_by priority_leb (outranking n alive) with
  | None => (n, None)
  | Some (target, _) =>
      match transfer_leadership n target with
      | (n, Err _) => (n, None)
      | (n, Ok _) => (n <| priority_transfer_pending := true |> <| priority_transfers ::= tick |>, Some target)
      end
  end.

Definition election_view (n : RaftNode) : ElectionView :=
  let config := effective_config n in
  mkElectionView (current_term n) (own_priority n) (has_leader n) (pre_elections n) (elections n)
    (pre_vote_tally n) (len (vc_voters config)) (bool_decide (is_Some (vc_joint config))).

Definition most_caught_up_voter (n : RaftNode) : option HostId :=
  if negb (is_leader n) then None
  else max_by (λ left right, (match_of n left <? match_of n right)
                || ((match_of n left =? match_of n right) && (right <=? left))) (others n).
Definition transferring_to (n : RaftNode) : option HostId := tf_target <$> active_transfer n.

Definition take_timeout_now (n : RaftNode) : RaftNode * option (HostId * TimeoutNow) :=
  match active_transfer n with
  | None => (n, None)
  | Some t =>
      if tf_invited t then (n, None)
      else if default 0 (match_index n !! tf_target t) <? last_log_index n then (n, None)
      else
        (n <| transfer := Some (mkTransfer (tf_target t) (tf_term t) (tf_quorum_checks t) true) |>,
         Some (tf_target t, mkTimeoutNow (current_term n) (id n)))
  end.

Definition on_timeout_now (n : RaftNode) (invitation : TimeoutNow) : RaftNode * list RequestVote :=
  if negb (tn_term invitation =? current_term n) || is_leader n || negb (is_voter n (id n)) then (n, [])
  else
    match start_election n with
    | (n, Ok requests) => (n, requests)
    | (n, Err _) => (n, [])
    end.

(** ** Reads *)
Definition begin_read (n : RaftNode) : RaftNode * option N :=
  if negb (is_leader n) || recovering n
     || negb (bool_decide (entry_term n (commit_index n) = Some (current_term n)))
     || (commit_index n <? read_floor n) || bool_decide (is_Some (read_round n))
  then (n, None) else
  match checked_add (read_context n) 1 with
  | None => (n, None)
  | Some context =>
      let n := n <| read_context := context |> in
      (n <| read_round := Some (mkReadRound context (current_term n) (committed_through n) (effective_config n)
                                  {[ id n ]}) |>, Some context)
  end.

Definition read_index (n : RaftNode) (context : N) : RaftNode * option N :=
  match read_round n with
  | None => (n, None)
  | Some r =>
      if negb (rr_context r =? context) || negb (is_leader n) || negb (rr_term r =? current_term n)
         || negb (bool_decide (rr_config r = effective_config n)) || negb (is_majority n (rr_confirmed r))
      then (n, None)
      else (n <| read_round := None |>, Some (rr_index r))
  end.

Definition cancel_read (n : RaftNode) (context : N) : RaftNode :=
  if from_option (λ r, rr_context r =? context) false (read_round n) then n <| read_round := None |> else n.

(** ** Membership *)
Definition begin_membership_change (n : RaftNode) (new_voters : list HostId) : RaftNode * bool :=
  let current := effective_config n in
  if negb (is_leader n) || recovering n || transferring n || bool_decide (is_Some (vc_joint current))
     || bool_decide (new_voters = []) || (commit_index n <? latest_config_index n) || (0 <? open_from n)
  then (n, false)
  else
    leader_append (n <| read_round := None |>)
      (configuration_entry (current_term n) (mkVoterConfig (vc_voters current) (Some new_voters))).

Definition complete_membership_change (n : RaftNode) : RaftNode * bool :=
  match vc_joint (effective_config n) with
  | None => (n, false)
  | Some new_voters =>
      if negb (is_leader n) || recovering n || (commit_index n <? latest_config_index n) then (n, false)
      else
        leader_append (n <| read_round := None |>)
          (configuration_entry (current_term n) (mkVoterConfig new_voters None))
  end.

Definition promote_caught_up (n : RaftNode) (target : list HostId) : RaftNode * bool :=
  let sitting := all_voters n in
  let caught_up := fst <$> List.filter snd (staged n) in
  let partial := filter (λ host, host ∈ sitting ∨ host ∈ caught_up) target in
  if bool_decide (caught_up = []) || bool_decide (partial = sitting) then (n, false)
  else begin_membership_change n partial.
