(* ===== verification/RaftInv.v ===== *)
(** * The invariant of a Raft node

    What holds of every node [crates/cluster/src/raft.rs] can produce, stated
    once for the operations of all its parts: the log's terms, the commit
    index and the snapshot agree ([hard_ok]), a leader's recovery owns the end
    of its log ([lead_ok]), a candidate's votes are its own and those it was
    granted ([elect_ok]).  The section is parametric in the configurations
    allowed, the grants a node may count and the quorums it needs, and in
    [strict], whether the log is known to cover the commit index (an installed
    snapshot that disagrees with it can leave it past the log's end); so that
    the retained state's validity, the promises of any node and the group's
    election safety are instances.  [progresses] is what no operation undoes
    and [tracks] the retention flag's contract; the three make up [moves]. *)

From S2P Require Import Prelude RaftState RaftLog RaftElect RaftReplicate RaftFast RaftAdmin.
#[local] Open Scope N_scope.

(** ** Entry terms *)
Fixpoint terms_ok (term previous : N) (l : list LogEntry) : Prop :=
  match l with
  | [] => True
  | e :: r => 0 < le_term e ∧ previous ≤ le_term e ∧ le_term e ≤ term ∧ terms_ok term (le_term e) r
  end.
Definition last_term (previous : N) (l : list LogEntry) : N := from_option le_term previous (last l).

Lemma last_term_cons p e l : last_term p (e :: l) = last_term (le_term e) l.
Proof. unfold last_term. rewrite last_cons. by destruct (last l). Qed.

Lemma terms_ok_app t p l k : terms_ok t p (l ++ k) ↔ terms_ok t p l ∧ terms_ok t (last_term p l) k.
Proof.
  revert p. induction l as [|e l IH]; intros p; simpl; [tauto|].
  rewrite IH, last_term_cons. tauto.
Qed.

Lemma terms_ok_mono t t' p l : t ≤ t' → terms_ok t p l → terms_ok t' p l.
Proof. revert p. induction l as [|e l IH]; intros p ?; simpl; [done|]. intros (?&?&?&?). eauto with lia. Qed.

Lemma terms_ok_lookup t p l i e : terms_ok t p l → l !! i = Some e → 0 < le_term e ∧ p ≤ le_term e ∧ le_term e ≤ t.
Proof.
  revert p i. induction l as [|x l IH]; intros p [|i]; simpl; try done.
  - by intros (?&?&?&?) [= ->].
  - intros (?&?&?&?) Hi. destruct (IH _ _ H2 Hi) as (?&?&?). lia.
Qed.

Lemma terms_ok_take t p k l : terms_ok t p l → terms_ok t p (takeN k l).
Proof. intros H. rewrite <- (takeN_dropN k l) in H. by apply terms_ok_app in H as []. Qed.

(** The boundary of a kept suffix is the term of the last entry dropped. *)
Lemma terms_ok_drop t p k l e :
  terms_ok t p l → l !! k = Some e → terms_ok t (le_term e) (drop (S k) l).
Proof.
  intros H Hk. rewrite <- (take_drop_middle l k e Hk) in H. apply terms_ok_app in H as [_ H]. simpl in H. tauto.
Qed.

Lemma validate_entries_ok t p l :
  validate_entries t p l = Ok tt ↔ terms_ok t p l ∧ Forall (λ e, entry_config_valid e = true) l.
Proof.
  revert p. induction l as [|e l IH]; intros p; simpl; [split; [by split|done]|].
  rewrite Forall_cons. destruct ((le_term e =? 0) || (le_term e <? p) || (t <? le_term e)) eqn:E.
  - split; [done|]. intros ((?&?&?&?)&?). exfalso. bool_to_prop; lia.
  - bool_to_prop. destruct (entry_config_valid e) eqn:V; simpl; [|naive_solver].
    rewrite IH. intuition lia.
Qed.

Lemma admit_entries_ok t p l :
  admit_entries l p t = Ok tt → terms_ok t p l ∧ Forall (λ e, entry_config_valid e = true) l.
Proof.
  revert p. induction l as [|e l IH]; intros p; simpl; [by split|].
  destruct ((le_term e =? 0) || (t <? le_term e) || (le_term e <? p)) eqn:E; [done|].
  destruct (entry_config_valid e) eqn:V; simpl; [|done]. intros H%IH. bool_to_prop.
  rewrite Forall_cons. intuition lia.
Qed.

(** ** Positions *)
Definition lookup_at (base : N) (l : list LogEntry) (i : N) : option LogEntry :=
  if i <=? base then None else l !! N.to_nat (i - base - 1).

Lemma entry_at_eq n i : entry_at n i = lookup_at (snapshot_index n) (log n) i.
Proof.
  unfold entry_at, position, log_get, lookup_at. destruct (i <=? snapshot_index n) eqn:E; simpl; [done|].
  split_if; [done|]. symmetry. apply lookup_ge_None. bool_to_prop. unfold len in *. lia.
Qed.

Lemma lookup_at_bound b l i e : lookup_at b l i = Some e → b < i ≤ b + len l.
Proof. unfold lookup_at. split_if; [done|]. intros H%lookup_lt_Some. bool_to_prop. unfold len. lia. Qed.
Lemma lookup_at_some b l i : b < i → i ≤ b + len l → is_Some (lookup_at b l i).
Proof.
  intros ??. unfold lookup_at. rewrite (proj2 (N.leb_gt _ _)) by lia. apply lookup_lt_is_Some. unfold len in *. lia.
Qed.
Lemma lookup_at_elem b l i e : lookup_at b l i = Some e → e ∈ l.
Proof. unfold lookup_at. split_if; [done|]. apply list_elem_of_lookup_2. Qed.
Lemma lookup_at_snoc b l e i :
  lookup_at b (l ++ [e]) i = if i =? b + len l + 1 then Some e else lookup_at b l i.
Proof.
  unfold lookup_at. destruct (i =? b + len l + 1) eqn:E; bool_to_prop.
  - rewrite (proj2 (N.leb_gt _ _)) by lia. subst. rewrite lookup_app_r by (unfold len; lia).
    by replace (_ - _)%nat with 0%nat by (unfold len; lia).
  - split_if; [done|]. bool_to_prop. destruct (decide (N.to_nat (i - b - 1) < length l)%nat).
    + by rewrite lookup_app_l.
    + rewrite !(proj2 (lookup_ge_None _ _)); [done|lia|]. rewrite length_app. simpl. unfold len in *. lia.
Qed.
Lemma lookup_at_take b k l i :
  lookup_at b (takeN k l) i = if i <=? b + k then lookup_at b l i else None.
Proof.
  unfold lookup_at, takeN. destruct (i <=? b) eqn:E; [by split_if|].
  bool_to_prop. split_if; bool_to_prop; [apply lookup_take_lt|apply lookup_take_ge]; lia.
Qed.
Lemma lookup_at_drop b k l i :
  lookup_at (b + k) (dropN k l) i = if i <=? b + k then None else lookup_at b l i.
Proof.
  unfold lookup_at, dropN. destruct (i <=? b + k) eqn:E; [done|]. bool_to_prop.
  rewrite (proj2 (N.leb_gt i b)) by lia. rewrite lookup_drop. f_equal. lia.
Qed.

(** ** What no operation undoes *)

(** The committed prefix stays in place where the [strict] condition holds: that every snapshot installed agrees
    with what was committed.  Nothing else depends on it. *)
Record progresses (strict : Prop) (n n' : RaftNode) : Prop := mkProgresses {
  pg_id : id n' = id n;
  pg_term : current_term n ≤ current_term n';
  pg_vote : current_term n' = current_term n → ∀ v, voted_for n = Some v → voted_for n' = Some v;
  pg_snapshot : snapshot_index n ≤ snapshot_index n';
  pg_commit : commit_index n ≤ commit_index n';
  pg_prefix : strict → ∀ i, snapshot_index n' < i → i ≤ commit_index n → entry_at n' i = entry_at n i }.

Arguments pg_id {strict} n n'.
Arguments pg_term {strict} n n'.
Arguments pg_vote {strict} n n'.
Arguments pg_snapshot {strict} n n'.
Arguments pg_commit {strict} n n'.
Arguments pg_prefix {strict} n n'.

(** A change of what is retained raises the flag, and nothing lowers it. *)
Definition tracks (n n' : RaftNode) : Prop :=
  retention_pending n' = true ∨ (retention_pending n' = retention_pending n ∧ saved n' = saved n).

#[export] Instance progresses_preorder strict : PreOrder (progresses strict).
Proof.
  split.
  - intros n. by split.
  - intros a b c [] []. split; try lia; try congruence.
    + intros E v Hv. assert (current_term b = current_term a) by lia. apply pg_vote1; [lia|]. eauto.
    + intros Hst i ??. rewrite (pg_prefix1 Hst), (pg_prefix0 Hst); [done|lia..].
Qed.
#[export] Instance tracks_preorder : PreOrder tracks.
Proof.
  split.
  - by right.
  - unfold tracks. intros a b c [?|[??]] [?|[??]]; (left; congruence) || (right; split; congruence).
Qed.

(** ** The invariant *)
Section invariant.
Context {strict : Prop} {cfg_ok : VoterConfig → Prop} {granted : HostId → HostId → N → Prop} {quorum : gset HostId → Prop}.

Definition entry_cfg (e : LogEntry) : Prop := ∀ c, le_config e = Some c → cfg_ok c.

(** The retained state. *)
Record hard_ok (n : RaftNode) : Prop := mkHardOk {
  ok_base : cfg_ok (base_config n);
  ok_origin : snapshot_index n = 0 → snapshot_term n = 0 ∧ snapshot_data n = [];
  ok_boundary : 0 < snapshot_index n → 0 < snapshot_term n;
  ok_snapshot_term : snapshot_term n ≤ current_term n;
  ok_range : snapshot_index n + len (log n) ≤ u64_max;
  ok_commit_base : snapshot_index n ≤ commit_index n;
  ok_commit_end : strict → commit_index n ≤ snapshot_index n + len (log n);
  ok_terms : terms_ok (current_term n) (snapshot_term n) (log n);
  ok_cfgs : Forall entry_cfg (log n);
  ok_index : ∀ i, snapshot_index n < i → i ∈ config_entries n ↔ is_Some (config_at n i);
  ok_stale : ∀ i, i ∈ config_entries n → i ≤ snapshot_index n → i = u64_max;
  ok_window : ∀ i s, window n !! i = Some s → 0 < i ∧ ws_term s ≤ current_term n ∧ entry_cfg (ws_entry s);
  ok_synced : synced_term n ≤ current_term n }.

(** A recovery in progress owns the indices past the log's end. *)
Record recovery_ok (n : RaftNode) (r : Recovery) : Prop := mkRecoveryOk {
  ok_next : rc_next r = last_log_index n + 1 ∨ last_log_index n = u64_max;
  ok_decided : ∀ i e, rc_decided r !! i = Some e → entry_cfg e.1;
  ok_sync : sync_index n = 0;
  ok_open : open_from n = 0;
  ok_votes : fast_votes n = ∅ }.
Record lead_ok (n : RaftNode) : Prop := mkLeadOk {
  ok_positive : role n = Candidate ∨ role n = Leader → 0 < current_term n;
  ok_reports : ∀ v rs r, reports n !! v = Some rs → r ∈ rs → entry_cfg (ws_entry (sr_slot r));
  ok_past : ∀ r, recovery n = Some r → rc_term r ≤ current_term n;
  ok_candidate : ∀ r, role n = Candidate → recovery n = Some r → rc_term r < current_term n;
  ok_recovery : ∀ r, recovering n = true → recovery n = Some r → recovery_ok n r }.

(** The votes of a candidate and of a leader. *)
Record elect_ok (n : RaftNode) : Prop := mkElectOk {
  ok_self : role n = Candidate ∨ role n = Leader → voted_for n = Some (id n);
  ok_granted : role n = Candidate ∨ role n = Leader →
    ∀ v, v ∈ votes n → v = id n ∨ granted v (id n) (current_term n);
  ok_elected : role n = Leader → quorum (votes n) }.

Record node_ok (n : RaftNode) : Prop := mkNodeOk { ok_hard : hard_ok n; ok_lead : lead_ok n; ok_elect : elect_ok n }.

Definition steps (n n' : RaftNode) : Prop := node_ok n → node_ok n' ∧ progresses strict n n'.
Definition moves (n n' : RaftNode) : Prop := node_ok n → node_ok n' ∧ progresses strict n n' ∧ tracks n n'.

#[export] Instance steps_preorder : PreOrder steps.
Proof.
  split; [intros n ?; split; [done|reflexivity]|]. intros a b c Hab Hbc Ha. destruct (Hab Ha) as [Hb ?], (Hbc Hb) as [Hc ?].
  split; [done|]. by transitivity b.
Qed.
#[export] Instance moves_preorder : PreOrder moves.
Proof.
  split; [intros n ?; split_and!; [done|reflexivity..]|]. intros a b c Hab Hbc Ha.
  destruct (Hab Ha) as (Hb&?&?), (Hbc Hb) as (Hc&?&?). split_and!; [done|by transitivity b..].
Qed.

(** ** Frames *)

(** The fields the invariant reads. *)
Definition spine (n : RaftNode) :=
  (hard n, retention_pending n, (role n, votes n, reports n), (sync_index n, open_from n, fast_votes n, recovery n)).

Lemma entry_at_hard n n' i : hard n' = hard n → entry_at n' i = entry_at n i.
Proof. intros E. unfold entry_at, position, log_get, snapshot_index, log. by rewrite E. Qed.
Lemma config_at_hard n n' i : hard n' = hard n → config_at n' i = config_at n i.
Proof. intros E. unfold config_at. by rewrite (entry_at_hard n n'). Qed.
Lemma saved_hard n n' : hard n' = hard n → saved n' = saved n.
Proof.
  intros E. unfold saved, base_config, id, voters, joint, current_term, voted_for, log, commit_index,
    snapshot_index, snapshot_term, snapshot_data, window, synced_term. by rewrite E.
Qed.
Lemma last_log_index_hard n n' : hard n' = hard n → last_log_index n' = last_log_index n.
Proof. intros E. unfold last_log_index, snapshot_index, log. by rewrite E. Qed.
Lemma progresses_hard n n' : hard n' = hard n → progresses strict n n'.
Proof.
  intros E. split; intros; try apply (entry_at_hard n n' i E);
    unfold id, current_term, voted_for, snapshot_index, commit_index in *; by rewrite ?E in *.
Qed.
Lemma hard_ok_hard n n' : hard n' = hard n → hard_ok n → hard_ok n'.
Proof.
  intros E []. split; try (intros i; rewrite (config_at_hard n n' i E); revert i);
    unfold base_config, snapshot_index, snapshot_term, snapshot_data, current_term, log, commit_index, voters,
      joint, config_entries, window, synced_term in *; by rewrite E.
Qed.

Lemma lead_ok_frame n n' :
  role n' = role n → current_term n' = current_term n → reports n' = reports n →
  (recovery n', sync_index n', open_from n', fast_votes n', last_log_index n')
  = (recovery n, sync_index n, open_from n, fast_votes n, last_log_index n) → lead_ok n → lead_ok n'.
Proof.
  intros Er Et Ep [= Ec Es Eo Ef El] [Hp Hr Ha Hc Hy]. split; rewrite ?Er, ?Et, ?Ep, ?Ec; try done.
  intros r H H'. unfold recovering, is_leader in *. rewrite Er, Ec, Et in H. specialize (Hy r H H') as [].
  split; by rewrite ?El, ?Es, ?Eo, ?Ef.
Qed.
Lemma elect_ok_frame n n' :
  role n' = role n → current_term n' = current_term n → id n' = id n → voted_for n' = voted_for n →
  votes n' = votes n → elect_ok n → elect_ok n'.
Proof. intros Er Et Ei Ev Es []. split; by rewrite ?Er, ?Et, ?Ei, ?Ev, ?Es. Qed.

(** Writes to the fields the invariant does not read. *)
Lemma moves_spine n n' : spine n' = spine n → moves n n'.
Proof.
  unfold spine. intros [= Eh Ep Er Ev Es Ey Eo Ef Ec] [Hh Hl He].
  assert (current_term n' = current_term n) as Et by (unfold current_term; by rewrite Eh).
  assert (id n' = id n) as Ei by (unfold id; by rewrite Eh).
  assert (voted_for n' = voted_for n) as Ed by (unfold voted_for; by rewrite Eh).
  split; [split|split].
  - by apply (hard_ok_hard n).
  - apply (lead_ok_frame n); try done. rewrite (last_log_index_hard n n') by done. congruence.
  - by apply (elect_ok_frame n).
  - by apply progresses_hard.
  - right. split; [done|]. by apply saved_hard.
Qed.

Lemma spine_foldl {A} (f : RaftNode → A → RaftNode) l n :
  (∀ m x, spine (f m x) = spine m) → spine (foldl f n l) = spine n.
Proof. intros Hf. revert n. induction l as [|x l IH]; intros n; simpl; [done|]. by rewrite IH, Hf. Qed.

Lemma moves_pending b n : moves n (pending b n).
Proof.
  intros [Hh Hl He]. split; [split|split].
  - by apply (hard_ok_hard n).
  - by apply (lead_ok_frame n).
  - by apply (elect_ok_frame n).
  - by apply progresses_hard.
  - destruct b; [left; apply orb_true_r|right; split; [apply orb_false_r|by apply saved_hard]].
Qed.
Lemma moves_raised n : moves n (n <| retention_pending := true |>).
Proof.
  intros [Hh Hl He]. split; [split|split].
  - by apply (hard_ok_hard n).
  - by apply (lead_ok_frame n).
  - by apply (elect_ok_frame n).
  - by apply progresses_hard.
  - by left.
Qed.

(** A node that neither campaigns nor leads. *)
Definition quiet (n : RaftNode) : Prop := role n = Follower ∨ role n = PreCandidate.
Lemma lead_ok_quiet n n' :
  quiet n' → recovery n' = recovery n → current_term n ≤ current_term n' →
  reports n' = reports n ∨ reports n' = ∅ → lead_ok n → lead_ok n'.
Proof.
  intros Hq Er Et Ep [Hp Hr Ha Hc Hy]. split.
  - destruct Hq; intros [|]; congruence.
  - intros v rs r Hv. destruct Ep as [Ep|Ep]; rewrite Ep in Hv; [eauto|done].
  - intros r. rewrite Er. intros ?%Ha. lia.
  - destruct Hq; intros; congruence.
  - intros r H. unfold recovering, is_leader in H. destruct Hq as [Hq|Hq]; by rewrite Hq in H.
Qed.
Lemma elect_ok_quiet n : quiet n → elect_ok n.
Proof. intros [Hq|Hq]; split; rewrite Hq; intros; naive_solver. Qed.

Lemma moves_demoted n n' :
  hard n' = hard n → retention_pending n' = retention_pending n → quiet n' → recovery n' = recovery n →
  reports n' = reports n ∨ reports n' = ∅ → moves n n'.
Proof.
  intros Eh Ep Hq Er Es [Hh Hl He]. split; [split|split].
  - by apply (hard_ok_hard n).
  - apply (lead_ok_quiet n); try done. unfold current_term. by rewrite Eh.
  - by apply elect_ok_quiet.
  - by apply progresses_hard.
  - right. split; [done|]. by apply saved_hard.
Qed.

Lemma moves_trans a b c : moves a b → moves b c → moves a c.
Proof. intros. by transitivity b. Qed.
Lemma moves_if (b : bool) n n1 n2 : (b = true → moves n n1) → (b = false → moves n n2) → moves n (if b then n1 else n2).
Proof. destruct b; auto. Qed.

Lemma moves_count_window (field : WindowCounters → N) `{!Setter field} a b : moves a b → moves a (count_window field b).
Proof. intros H. transitivity b; [done|]. by apply moves_spine. Qed.

(** ** Stepping down *)
Lemma moves_step_down n term : current_term n < term → moves n (step_down n term).
Proof.
  intros Ht. unfold step_down. rewrite (proj2 (N.eqb_neq (current_term n) term)) by lia.
  unfold pending. intros [Hh Hl He]. split; [split|split].
  - destruct Hh. split; node_simpl; try done; try lia.
    + by apply (terms_ok_mono (current_term n)); [lia|].
    + intros i s Hs%ok_window0. naive_solver lia.
  - apply (lead_ok_quiet n); try done; node_simpl; auto; [by left|lia].
  - apply elect_ok_quiet. by left.
  - split; node_simpl; try done; try lia.
  - left. node_simpl. apply orb_true_r.
Qed.
Lemma moves_observe_term n term : moves n (observe_term n term).
Proof. unfold observe_term. apply moves_if; intros; [apply moves_step_down; by bool_to_prop|reflexivity]. Qed.
Lemma moves_recognize_leader n term leader : moves n (recognize_leader n term leader).
Proof.
  unfold recognize_leader. fold (observe_term n term).
  apply (moves_trans _ _ _ (moves_observe_term n term)).
  apply moves_demoted; node_simpl; auto. by left.
Qed.

(** ** Appending and truncating *)
Lemma last_log_index_eq n : hard_ok n → last_log_index n = snapshot_index n + len (log n).
Proof. intros []. unfold last_log_index. by rewrite sat_add_small. Qed.

Lemma hard_ok_range n : hard_ok n → last_log_index n ≤ u64_max.
Proof. intros H. rewrite last_log_index_eq by done. apply H. Qed.

(** What a push leaves as it was, and what it adds. *)
Lemma push_entry_spec n e n' b :
  push_entry n e = (n', b) → hard_ok n →
  (b = false ∧ last_log_index n = u64_max ∧ spine n' = spine n)
  ∨ (b = true ∧ last_log_index n < u64_max ∧ log n' = log n ++ [e] ∧ last_log_index n' = last_log_index n + 1
     ∧ n' = n <| hard := mkHard (id n) (voters n) (joint n) (current_term n) (voted_for n) (log n ++ [e])
                  (if le_config e then {[ last_log_index n + 1 ]} ∪ config_entries n else config_entries n)
                  (commit_index n) (snapshot_index n) (snapshot_term n) (snapshot_data n) (window n)
                  (synced_term n) |> <| log_bytes_held ::= λ b, sat_add b (encoded_len e) |>).
Proof.
  intros Hp Hh. pose proof (hard_ok_range n Hh) as Hr. pose proof (last_log_index_eq n Hh) as Hl.
  unfold push_entry, checked_add in Hp. destruct (last_log_index n + 1 <=? u64_max) eqn:E; simplify_eq/=; bool_to_prop.
  - right. assert (last_log_index (n <| log ::= λ l, l ++ [e] |>) = last_log_index n + 1) as Hi.
    { unfold last_log_index at 1. node_simpl. rewrite len_app, len_cons, len_nil.
      rewrite sat_add_small; lia. }
    destruct (le_config e) eqn:Ec; repeat split; try done; try lia; done.
  - left. split; [done|split; [lia|done]].
Qed.

Lemma push_entry_true n e n' b : push_entry n e = (n', b) → hard_ok n → last_log_index n < u64_max → b = true.
Proof. intros Hp Hh ?. destruct (push_entry_spec n e n' b Hp Hh) as [(?&?&?)|(?&?)]; [lia|done]. Qed.

Lemma lead_ok_not_recovering n : lead_ok n → recovering n = false → ∀ n',
  role n' = role n → current_term n' = current_term n → reports n' = reports n → recovery n' = recovery n →
  lead_ok n'.
Proof.
  intros [Hp Hr Ha Hc Hy] Hn n' Er Et Es Ey. split; rewrite ?Er, ?Et, ?Es, ?Ey; try done.
  intros r H. unfold recovering, is_leader in *. rewrite Er, Ey, Et in H. congruence.
Qed.

Lemma steps_push n e n' b :
  push_entry n e = (n', b) → recovering n = false → 0 < le_term e → last_log_term n ≤ le_term e →
  le_term e ≤ current_term n → entry_cfg e → steps n n'.
Proof.
  intros Hp Hn H0 H1 H2 H3 Hok. destruct (push_entry_spec _ _ _ _ Hp (ok_hard _ Hok)) as [(?&?&Hs)|(->&Hlt&_&_&->)].
  { destruct (moves_spine n n' Hs Hok) as (?&?&?). done. }
  destruct Hok as [Hh Hl He]. pose proof (last_log_index_eq n Hh) as Hi.
  assert (∀ i, lookup_at (snapshot_index n) (log n ++ [e]) i
               = if i =? last_log_index n + 1 then Some e else lookup_at (snapshot_index n) (log n) i) as Hlk.
  { intros i. by rewrite lookup_at_snoc, Hi. }
  split; [split|].
  - destruct Hh. split; node_simpl; try done.
    + rewrite len_app, len_cons, len_nil. lia.
    + intros Hst%ok_commit_end0. rewrite len_app, len_cons, len_nil. lia.
    + apply terms_ok_app. split; [done|]. simpl. by repeat split.
    + apply Forall_app. by repeat constructor.
    + intros i Hsi. unfold config_at. rewrite entry_at_eq. node_simpl. rewrite Hlk.
      specialize (ok_index0 i Hsi). unfold config_at in ok_index0. rewrite entry_at_eq in ok_index0.
      destruct (i =? last_log_index n + 1) eqn:E; bool_to_prop.
      * assert (i ∉ config_entries n) as Hni.
        { rewrite ok_index0. destruct (lookup_at _ _ i) eqn:El; simpl; [|by intros []].
          apply lookup_at_bound in El. lia. }
        simpl. destruct (le_config e); [set_solver|]. split; [done|by intros []].
      * rewrite <- ok_index0. destruct (le_config e); set_solver.
    + intros i Hin ?. destruct (le_config e); [|by apply ok_stale0].
      apply elem_of_union in Hin as [->%elem_of_singleton|]; [lia|by apply ok_stale0].
  - by apply (lead_ok_not_recovering n).
  - by apply (elect_ok_frame n).
  - split; node_simpl; try done. intros Hst i ? Hi'. rewrite !entry_at_eq. node_simpl. rewrite Hlk.
    rewrite (proj2 (N.eqb_neq _ _)); [done|]. pose proof (ok_commit_end _ Hh Hst). lia.
Qed.


Lemma moves_truncate n index :
  recovering n = false → commit_index n < index → moves n (truncate_from n index).
Proof.
  intros Hn Hc. unfold truncate_from. set (keep := index - snapshot_index n - 1).
  destruct (keep <? len (log n)) eqn:Hk; bool_to_prop.
  - intros [Hh Hl He]. pose proof (last_log_index_eq n Hh) as Hi.
    assert (snapshot_index n + keep + 1 = index) as Hix by (destruct Hh; lia).
    split; [split|split].
    + destruct Hh. unfold pending. split; node_simpl; try done.
      * rewrite len_takeN. lia.
      * intros Hst%ok_commit_end0. rewrite len_takeN. lia.
      * by apply terms_ok_take.
      * unfold takeN. by apply Forall_take.
      * intros i ?. unfold config_at. rewrite entry_at_eq. node_simpl.
        rewrite lookup_at_take, elem_of_filter, ok_index0 by done.
        unfold config_at. rewrite entry_at_eq. split_if; bool_to_prop; [intuition lia|].
        split; [intros []; lia|by intros []].
      * intros i [_ ?]%elem_of_filter. by apply ok_stale0.
    + by apply (lead_ok_not_recovering n).
    + by apply (elect_ok_frame n).
    + unfold pending. split; node_simpl; try done. intros _ i ??. rewrite !entry_at_eq. node_simpl.
      rewrite lookup_at_take, (proj2 (N.leb_le _ _)); [done|lia].
    + left. unfold pending. node_simpl. apply orb_true_r.
  - intros Hok. apply moves_spine; [|done]. destruct Hok as [Hh _ _].
    assert (filter (λ i, i < index) (config_entries n) = config_entries n) as Hf.
    { apply set_eq. intros i. rewrite elem_of_filter. split; [tauto|]. intros Hin. split; [|done].
      destruct (N.le_gt_cases i (snapshot_index n)) as [|Hsi]; [destruct Hh; lia|].
      apply (ok_index _ Hh i Hsi) in Hin. unfold config_at in Hin. rewrite entry_at_eq in Hin.
      destruct (lookup_at _ _ i) eqn:El; [|by destruct Hin]. apply lookup_at_bound in El.
      destruct Hh. lia. }
    assert (takeN keep (log n) = log n) as Ht by (by apply takeN_ge).
    unfold spine, pending. node_simpl. rewrite Hf, Ht, orb_false_r. done.
Qed.

Lemma moves_flag n n' : steps n n' → retention_pending n' = true → moves n n'.
Proof. intros H ? Hok. destruct (H Hok). by split_and!; [..|left]. Qed.
Lemma moves_steps n n' : moves n n' → steps n n'.
Proof. intros H Hok. by destruct (H Hok) as (?&?&?). Qed.

Lemma push_entry_kept n e n' b : push_entry n e = (n', b) → hard_ok n →
  retention_pending n' = retention_pending n ∧ role n' = role n ∧ commit_index n' = commit_index n
  ∧ current_term n' = current_term n ∧ snapshot_index n' = snapshot_index n ∧ window n' = window n
  ∧ recovering n' = recovering n.
Proof.
  intros Hp Hh. destruct (push_entry_spec n e n' b Hp Hh) as [(?&?&Hs)|(?&?&?&?&->)]; [|done].
  unfold spine in Hs. injection Hs as Eh ? Er ? ? ? ? ? Ey.
  unfold recovering, is_leader, commit_index, current_term, snapshot_index, window.
  rewrite Eh, Er, Ey. by split_and!.
Qed.

(** The term a log holds at a position from its snapshot on. *)
Definition holds (n : RaftNode) (i t : N) : Prop :=
  (i = snapshot_index n ∧ t = snapshot_term n)
  ∨ ∃ e, lookup_at (snapshot_index n) (log n) i = Some e ∧ le_term e = t.

Lemma holds_bound n i t : holds n i t → snapshot_index n ≤ i ≤ snapshot_index n + len (log n).
Proof. intros [[-> _]|(e&He&_)]; [lia|]. apply lookup_at_bound in He. lia. Qed.

Lemma holds_last n i t : holds n i t → i = snapshot_index n + len (log n) → last_log_term n = t.
Proof.
  intros Hh Hi. unfold last_log_term. destruct Hh as [[-> ->]|(e&He&<-)].
  - by rewrite (len_0_nil (log n)) by lia.
  - unfold lookup_at in He. split_if; [done|]. bool_to_prop.
    rewrite last_lookup. replace (pred _) with (N.to_nat (i - snapshot_index n - 1)) by (unfold len in *; lia).
    by rewrite He.
Qed.

Lemma entry_term_holds n i t : hard_ok n → entry_term n i = Some t → holds n i t.
Proof.
  intros Hh. unfold entry_term. split_if; [done|]. split_if; bool_to_prop.
  - intros [= <-]. by left.
  - rewrite entry_at_eq. destruct (lookup_at _ _ i) eqn:E; [|done]. intros [= <-]. right. eauto.
Qed.
Lemma entry_term_above n i : snapshot_index n < i → entry_term n i = le_term <$> lookup_at (snapshot_index n) (log n) i.
Proof.
  intros ?. unfold entry_term. rewrite !(proj2 (N.eqb_neq _ _)) by lia. by rewrite entry_at_eq.
Qed.

Lemma holds_truncate n i t index : hard_ok n → holds n i t → i < index → holds (truncate_from n index) i t.
Proof.
  intros Hh [H|(e&He&Ht)] Hi; [by left|]. right. exists e. split; [|done].
  unfold truncate_from, pending. node_simpl. rewrite lookup_at_take.
  pose proof (lookup_at_bound _ _ _ _ He). by rewrite (proj2 (N.leb_le _ _)) by lia.
Qed.

Lemma quiet_not_recovering n : quiet n → recovering n = false.
Proof. unfold quiet, recovering, is_leader. by intros [->| ->]. Qed.

(** One entry placed after a position the log holds. *)
Lemma moves_place_entry n prev t e n' b :
  place_entry n (prev + 1) e = (n', b) → node_ok n → quiet n → commit_index n ≤ prev → prev < u64_max →
  holds n prev t → t ≤ le_term e → 0 < le_term e → le_term e ≤ current_term n → entry_cfg e →
  moves n n' ∧ b = true ∧ quiet n' ∧ commit_index n' = commit_index n ∧ current_term n' = current_term n
  ∧ holds n' (prev + 1) (le_term e).
Proof.
  intros Hp Hok Hq Hc Hu Hd H1 H0 H2 H3. pose proof (holds_bound _ _ _ Hd) as Hb. pose proof (ok_hard _ Hok) as Hh.
  unfold place_entry in Hp. rewrite entry_term_above in Hp by lia.
  (* pushed at [prev + 1] onto a node whose log ends at [prev] *)
  assert (∀ m, moves n m → quiet m → commit_index m = commit_index n → current_term m = current_term n →
    retention_pending m = true → holds m prev t → last_log_index m = prev → push_entry m e = (n', b) →
    moves n n' ∧ b = true ∧ quiet n' ∧ commit_index n' = commit_index n ∧ current_term n' = current_term n
    ∧ holds n' (prev + 1) (le_term e)) as Hpush.
  { intros m Hm Hqm Ecm Etm Hfm Hdm Hlm Hpm. destruct (Hm Hok) as (Hokm&_&_). pose proof (ok_hard _ Hokm) as Hhm.
    pose proof (last_log_index_eq m Hhm) as Hi. destruct (push_entry_kept _ _ _ _ Hpm Hhm) as (E1&E2&E3&E4&E5&E6&E7).
    split_and!.
    - apply (moves_trans _ m); [done|]. apply moves_flag; [|congruence].
      apply (steps_push m e n' b); try done; [by apply quiet_not_recovering| |lia].
      rewrite (holds_last m prev t); [done..|lia].
    - apply (push_entry_true _ _ _ _ Hpm Hhm). lia.
    - unfold quiet in *. by rewrite E2.
    - congruence.
    - congruence.
    - destruct (push_entry_spec _ _ _ _ Hpm Hhm) as [(?&?&?)|(_&_&El&_)]; [lia|].
      right. exists e. split; [|done]. rewrite El, E5, lookup_at_snoc, (proj2 (N.eqb_eq _ _)); [done|lia]. }
  destruct (lookup_at (snapshot_index n) (log n) (prev + 1)) as [old|] eqn:Eo; simpl in Hp.
  - destruct (le_term old =? le_term e) eqn:Et; bool_to_prop.
    + simplify_eq. split_and!; try done; try reflexivity. right. by exists old.
    + pose proof (lookup_at_bound _ _ _ _ Eo).
      assert (moves n (truncate_from n (prev + 1))) as Hm
        by (apply moves_truncate; [by apply quiet_not_recovering|lia]).
      apply (Hpush (truncate_from n (prev + 1))); try done.
      * unfold truncate_from, pending. node_simpl. rewrite (proj2 (N.ltb_lt _ _)) by lia. apply orb_true_r.
      * apply holds_truncate; [done..|lia].
      * destruct (Hm Hok) as (Hokm&_&_). rewrite last_log_index_eq by apply Hokm.
        unfold truncate_from, pending. node_simpl. rewrite len_takeN. lia.
  - apply (Hpush (n <| retention_pending := true |>)); try done; [apply moves_raised|].
    change (last_log_index n = prev). rewrite last_log_index_eq by done.
    destruct (decide (prev + 1 ≤ snapshot_index n + len (log n))) as [Hle|]; [|lia].
    destruct (lookup_at_some (snapshot_index n) (log n) (prev + 1)) as [? Hs]; [lia..|congruence].
Qed.

Lemma moves_place_entries entries n prev t n' i :
  place_entries n prev entries = (n', i) → node_ok n → quiet n → commit_index n ≤ prev →
  prev + len entries ≤ u64_max → holds n prev t → terms_ok (current_term n) t entries → Forall entry_cfg entries →
  moves n n' ∧ quiet n' ∧ commit_index n' = commit_index n ∧ current_term n' = current_term n
  ∧ i = prev + len entries ∧ ∃ t', holds n' i t'.
Proof.
  revert n prev t. induction entries as [|e entries IH]; intros n prev t; simpl.
  { intros [= <- <-] ???????. rewrite len_nil, N.add_0_r. split_and!; try done; try reflexivity; eauto. }
  rewrite len_cons. intros Hp Hok Hq Hc Hu Hd (?&?&?&Hts) [Hce Hcs]%Forall_cons.
  rewrite sat_add_small in Hp by lia. destruct (place_entry n (prev + 1) e) as [m b] eqn:Ep.
  destruct (moves_place_entry n prev t e m b) as (Hm&->&Hqm&Ecm&Etm&Hdm); try done; [lia|].
  destruct (Hm Hok) as (Hokm&_&_).
  destruct (IH m (prev + 1) (le_term e)) as (?&?&?&?&?&?); try done; [lia..|congruence|].
  split_and!; try done; [by transitivity m|congruence..|lia].
Qed.

(** ** The commit index *)
Lemma steps_commit n i :
  commit_index n ≤ i → i ≤ snapshot_index n + len (log n) → steps n (n <| commit_index := i |>).
Proof.
  intros H1 H2 [Hh Hl He]. split; [split|].
  - destruct Hh. split; node_simpl; try done. lia.
  - by apply (lead_ok_frame n).
  - by apply (elect_ok_frame n).
  - by split.
Qed.

(** Window slots may always be dropped. *)
Lemma steps_window_filter n (P : N * WindowSlot → Prop) `{!∀ x, Decision (P x)} :
  steps n (n <| window ::= filter P |>).
Proof.
  intros [Hh Hl He]. split; [split|].
  - destruct Hh. split; node_simpl; try done.
    intros i s [Hs _]%map_lookup_filter_Some. eauto.
  - by apply (lead_ok_frame n).
  - by apply (elect_ok_frame n).
  - by split.
Qed.

Lemma moves_prune_committed n : moves n (prune_committed n).
Proof.
  unfold prune_committed. set (kept := filter _ (window n)).
  destruct (0 <? N.of_nat (size (window n) - size kept)) eqn:E; bool_to_prop.
  - apply moves_flag; [|unfold pending; node_simpl; apply orb_true_r].
    etransitivity; [apply (steps_window_filter n (λ e, commit_index n < e.1))|].
    etransitivity; [|apply moves_steps, moves_pending]. by apply moves_steps, moves_spine.
  - assert (kept = window n) as Hk.
    { apply map_subseteq_size_eq; [apply map_filter_subseteq|lia]. }
    apply moves_spine. unfold spine, pending. node_simpl. rewrite Hk, orb_false_r. done.
Qed.

Lemma moves_step_down_if_removed n : moves n (step_down_if_removed n).
Proof.
  unfold step_down_if_removed. repeat (apply moves_if; intros _); try reflexivity.
  apply moves_demoted; node_simpl; auto. by left.
Qed.

Lemma entry_term_bound n i t : hard_ok n → entry_term n i = Some t → i ≤ snapshot_index n + len (log n).
Proof. intros Hh H%entry_term_holds; [|done]. by apply holds_bound in H as []. Qed.

Lemma moves_advance_leader_commit n : moves n (advance_leader_commit n).
Proof.
  unfold advance_leader_commit. apply moves_if; intros _; [reflexivity|].
  set (m := if _ && _ then _ else n). apply (moves_trans _ m).
  - subst m. apply moves_if; intros E; [|reflexivity].
    apply andb_true_iff in E as [E1 E2%bool_decide_eq_true]. bool_to_prop. intros Hok.
    apply (moves_trans _ (n <| retention_pending := true |>)); [apply moves_raised| |done].
    apply moves_flag; [|done]. apply steps_commit; node_simpl; [lia|].
    apply (entry_term_bound n _ (current_term n)); [apply Hok|done].
  - etransitivity; [|apply moves_step_down_if_removed].
    etransitivity; [|apply moves_prune_committed]. by apply moves_spine.
Qed.

Lemma moves_sync_index n i : recovering n = false → moves n (n <| sync_index := i |>).
Proof.
  intros Hr [Hh Hl He]. split; [split|split].
  - by apply (hard_ok_hard n).
  - by apply (lead_ok_not_recovering n).
  - by apply (elect_ok_frame n).
  - by apply progresses_hard.
  - by right.
Qed.

Lemma last_log_term_le n : hard_ok n → last_log_term n ≤ current_term n.
Proof.
  intros Hh. unfold last_log_term. destruct (last (log n)) as [e|] eqn:El; simpl; [|apply Hh].
  rewrite last_lookup in El. apply (terms_ok_lookup _ _ _ _ _ (ok_terms _ Hh)) in El. lia.
Qed.

Lemma moves_leader_append n e :
  recovering n = false → 0 < current_term n → le_term e = current_term n → entry_cfg e →
  moves n (leader_append n e).1.
Proof.
  intros Hr H0 Ht Hc. unfold leader_append. split_if; [by apply moves_spine|].
  destruct (push_entry n e) as [m b] eqn:Ep. intros Hok. pose proof (ok_hard _ Hok) as Hh.
  destruct (push_entry_kept _ _ _ _ Ep Hh) as (_&_&_&_&_&_&Er).
  assert (steps n m) as Hs.
  { apply (steps_push n e m b); try done; try lia. rewrite Ht. by apply last_log_term_le. }
  destruct b; simpl.
  - refine (moves_trans _ _ _ _ (moves_advance_leader_commit _) Hok). apply moves_flag; [|by split_if].
    etransitivity; [exact Hs|]. etransitivity; [apply moves_steps, moves_raised|]. apply moves_steps.
    apply moves_if; intros _; [|reflexivity]. apply moves_sync_index. by rewrite <- Hr, <- Er.
  - destruct (push_entry_spec _ _ _ _ Ep Hh) as [(_&_&Hsp)|(?&_)]; [|done]. by apply moves_spine.
Qed.
End invariant.

Arguments entry_cfg cfg_ok e : clear implicits.
Arguments hard_ok strict cfg_ok n : clear implicits.
Arguments recovery_ok cfg_ok n r : clear implicits.
Arguments lead_ok cfg_ok n : clear implicits.
Arguments elect_ok granted quorum n : clear implicits.
Arguments node_ok strict cfg_ok granted quorum n : clear implicits.
Arguments steps strict cfg_ok granted quorum n n' : clear implicits.
Arguments moves strict cfg_ok granted quorum n n' : clear implicits.

Lemma ok_commit {cfg_ok} n : hard_ok True cfg_ok n → snapshot_index n ≤ commit_index n ≤ snapshot_index n + len (log n).
Proof. intros Hh. split; [apply Hh|by apply (ok_commit_end _ Hh)]. Qed.
