(* ===== verification/RaftAppend.v ===== *)
(** * The invariant through appends and snapshots

    That the follower's handlers, the window and the log's compaction keep the
    invariant of [RaftInv], undo nothing and raise the retention flag.  Then
    the same of elections and of recovery. *)

From S2P Require Import Prelude RaftState RaftLog RaftElect RaftReplicate RaftFast RaftAdmin RaftInv.
#[local] Open Scope N_scope.

Section append.
Context {strict : Prop} {cfg_ok : VoterConfig → Prop} {granted : HostId → HostId → N → Prop} {quorum : gset HostId → Prop}.
#[local] Abbreviation entry_cfg := (entry_cfg cfg_ok).
#[local] Abbreviation hard_ok := (hard_ok strict cfg_ok).
#[local] Abbreviation node_ok := (node_ok strict cfg_ok granted quorum).
#[local] Abbreviation steps := (steps strict cfg_ok granted quorum).
#[local] Abbreviation moves := (moves strict cfg_ok granted quorum).

(** ** The window *)
Lemma steps_window_insert n i s :
  0 < i → ws_term s ≤ current_term n → entry_cfg (ws_entry s) → steps n (n <| window ::= <[i := s]> |>).
Proof.
  intros H0 H1 H2 [Hh Hl He]. split; [split|].
  - destruct Hh. split; node_simpl; try done.
    intros j s' [[<- <-]|[_ Hs]]%lookup_insert_Some; [by split_and!|eauto].
  - by apply (lead_ok_frame n).
  - by apply (elect_ok_frame n).
  - by split.
Qed.

Lemma moves_buffer_loop n term floor reach i entries :
  term ≤ current_term n → Forall entry_cfg entries → moves n (buffer_loop n term floor reach i entries).
Proof.
  revert n i. induction entries as [|e l IH]; intros n i Ht Hc; simpl; [reflexivity|].
  apply Forall_cons in Hc as [He Hc].
  match goal with |- RaftInv.moves _ _ _ _ n (buffer_loop ?m' _ _ _ _ _) => set (m := m') end.
  assert (moves n m ∧ current_term m = current_term n) as [Hm Em].
  { subst m. repeat (split_if; [by split; [reflexivity|]|]). split; [|done]. bool_to_prop.
    apply moves_count_window, moves_flag; [|done].
    etransitivity; [|apply moves_steps, moves_raised]. apply steps_window_insert; [lia|done..]. }
  etransitivity; [exact Hm|]. apply IH; [by rewrite Em|done].
Qed.

Lemma moves_buffer n request : Forall entry_cfg (ae_entries request) → moves n (buffer n request).
Proof.
  intros Hc. unfold buffer. split_if; [reflexivity|]. bool_to_prop. apply moves_buffer_loop; [lia|done].
Qed.

Lemma moves_observe_sync n term i : term ≤ current_term n → moves n (observe_sync n term i).
Proof.
  intros Ht. unfold observe_sync. split_if; [reflexivity|]. apply moves_flag; [|done].
  etransitivity; [|apply moves_steps, moves_raised]. intros [Hh Hl He]. split; [split|].
  - destruct Hh. by split; node_simpl.
  - by apply (lead_ok_frame n).
  - by apply (elect_ok_frame n).
  - by split.
Qed.

Lemma moves_absorb_loop fuel n :
  quiet n → 0 < current_term n → moves n (absorb_loop fuel n (current_term n)).
Proof.
  revert n. induction fuel as [|fuel IH]; intros n Hq H0; simpl; [reflexivity|].
  destruct (window n !! _) as [slot|] eqn:Ew; [|reflexivity]. split_if; [|reflexivity]. bool_to_prop.
  destruct (push_entry n (ws_entry slot)) as [m b] eqn:Ep. intros Hok. pose proof (ok_hard _ Hok) as Hh.
  destruct (push_entry_kept _ _ _ _ Ep Hh) as (E1&E2&E3&E4&E5&E6&E7).
  destruct (push_entry_spec _ _ _ _ Ep Hh) as [(->&_&Hs)|(->&_)]; [by apply moves_spine|].
  assert (steps n m) as Hs.
  { apply (steps_push n (ws_entry slot) m true); try done; try lia; [by apply quiet_not_recovering| |].
    - rewrite H1. by eapply last_log_term_le.
    - by destruct (ok_window _ Hh _ _ Ew) as (_&_&?). }
  set (m' := count_window _ _).
  refine (moves_trans _ m' _ _ _ Hok).
  - apply moves_count_window, moves_flag; [|done]. etransitivity; [exact Hs|]. apply moves_steps, moves_raised.
  - rewrite <- E4.
    change (current_term m) with (current_term m'). apply IH; [|by rewrite <- E4 in H0].
    unfold quiet in *. subst m'. unfold count_window. node_simpl. by rewrite E2.
Qed.

(** ** Appending *)
Lemma terms_ok_suffix t p p' k l :
  terms_ok t p l → (∀ e, hd_error (dropN k l) = Some e → p' ≤ le_term e) → terms_ok t p' (dropN k l).
Proof.
  intros Hl Hp. rewrite <- (takeN_dropN k l) in Hl. apply terms_ok_app in Hl as [_ Hl].
  destruct (dropN k l) as [|e r]; simpl in *; [done|]. destruct Hl as (?&?&?&?). auto.
Qed.

Lemma entry_term_commit n : strict → hard_ok n → 0 < commit_index n →
  entry_term n (commit_index n) = Some (default 0 (entry_term n (commit_index n))).
Proof.
  intros Hst Hh Hc. unfold entry_term. rewrite (proj2 (N.eqb_neq _ _)) by lia. split_if; [done|]. bool_to_prop.
  rewrite entry_at_eq. pose proof (ok_commit_end _ Hh Hst). destruct Hh.
  by destruct (lookup_at_some (snapshot_index n) (log n) (commit_index n)) as [e ->]; [lia..|].
Qed.

Lemma moves_append_at n request prev prev_term entries :
  quiet n → current_term n = ae_term request → 0 < ae_term request → commit_index n ≤ prev →
  (prev = 0 → prev_term = 0) → terms_ok (ae_term request) prev_term entries → Forall entry_cfg entries →
  moves n (append_at n request prev prev_term entries).1.
Proof.
  intros Hq Et H0 Hc Hz Hts Hcs. unfold append_at.
  destruct ((0 <? prev) && _) eqn:Ec; cbn [fst]; [by apply moves_buffer|].
  destruct (runs_past prev entries) eqn:Er; cbn [fst]; [by apply moves_spine|].
  unfold runs_past in Er. apply bool_decide_eq_false in Er.
  destruct (checked_add prev (len entries)) as [?|] eqn:Ea; [|done]. apply checked_add_some in Ea as [_ Ha].
  destruct (place_entries n prev entries) as [m i] eqn:Ep. intros Hok. pose proof (ok_hard _ Hok) as Hh.
  assert (holds n prev prev_term) as Hd.
  { destruct (decide (prev = 0)) as [->|].
    - destruct Hh. left. assert (snapshot_index n = 0) as E0 by lia. destruct (ok_origin E0). rewrite Hz; [|done].
      split; congruence.
    - apply andb_false_iff in Ec as [Ec|Ec]; [bool_to_prop; lia|].
      apply negb_false_iff, bool_decide_eq_true in Ec. by eapply entry_term_holds. }
  destruct (moves_place_entries (strict := strict) (cfg_ok := cfg_ok) (granted := granted) (quorum := quorum) entries n prev prev_term m i)
    as (Hm&Hqm&Ecm&Etm&->&t'&Hd'); try done; [by rewrite Et|]. destruct (Hm Hok) as (Hokm&_&_).
  clear Ec. set (m1 := if commit_index m <? _ then _ else m).
  assert (moves m m1 ∧ quiet m1 ∧ current_term m1 = current_term n) as (Hm1&Hq1&Et1).
  { subst m1. split_if; [|split_and!; [reflexivity|done..]]. bool_to_prop. split_and!; [|by apply Hqm|done].
    set (c := N.min _ _). assert (commit_index m ≤ c) by (subst c; lia).
    destruct (commit_index m =? c) eqn:E; bool_to_prop.
    - apply moves_spine. unfold spine, pending. node_simpl. rewrite <- E, orb_false_r. done.
    - apply moves_flag; [|unfold pending; node_simpl; apply orb_true_r].
      etransitivity; [apply moves_steps, (moves_pending true)|]. apply steps_commit; [done|].
      apply holds_bound in Hd'. unfold pending. node_simpl. subst c. lia. }
  set (m2 := observe_sync m1 _ _).
  assert (moves m1 m2 ∧ quiet m2 ∧ current_term m2 = current_term n) as (Hm2&Hq2&Et2).
  { subst m2. split; [apply moves_observe_sync; lia|]. unfold observe_sync. by split_if. }
  unfold absorb. cbn [fst]. rewrite <- Et, <- Et2.
  refine (moves_trans _ _ _ _ (moves_prune_committed _) Hok).
  refine (moves_trans _ _ _ _ (moves_absorb_loop _ m2 Hq2 _)); [|lia].
  by refine (moves_trans _ _ _ (moves_trans _ _ _ Hm Hm1) Hm2).
Qed.

Lemma recognize_leader_kept n term leader :
  let m := recognize_leader n term leader in
  (log m, snapshot_index m, snapshot_term m, commit_index m) = (log n, snapshot_index n, snapshot_term n, commit_index n)
  ∧ quiet m ∧ (current_term n ≤ term → current_term m = term).
Proof.
  unfold recognize_leader, quiet. split_if; bool_to_prop; unfold step_down, pending; node_simpl;
    split_and!; try done; [by left..|]. intros ?. lia.
Qed.

Lemma entry_term_frame n n' i :
  (log n', snapshot_index n', snapshot_term n') = (log n, snapshot_index n, snapshot_term n) →
  entry_term n' i = entry_term n i.
Proof. intros [= El Es Et]. unfold entry_term. by rewrite !entry_at_eq, El, Es, Et. Qed.

Lemma moves_on_append_entries n request :
  (admit_append n request = Ok tt → Forall entry_cfg (ae_entries request)) →
  moves n (on_append_entries n request).1.
Proof.
  intros Hcfg. unfold on_append_entries. destruct (admit_append n request) as [[]|kind] eqn:Ea;
    [|by apply moves_spine]. specialize (Hcfg eq_refl).
  destruct (ae_term request <? current_term n) eqn:Et; simpl; [reflexivity|]. bool_to_prop.
  unfold admit_append in Ea. split_if; [done|]. split_if; [done|]. bool_to_prop.
  apply bind_ok in Ea as ([] & Ee & Ea). destruct (admit_entries_ok _ _ _ Ee) as [Hts _].
  destruct (recognize_leader_kept n (ae_term request) (ae_leader request)) as ([= El Es Ep Ec]&Hq&Ex).
  specialize (Ex Et). set (m0 := recognize_leader n _ _) in *.
  destruct (open_announced m0) as [oterm known].
  set (m := m0 <| open_announced := _ |> <| priorities := _ |>).
  assert (moves n m) as Hm.
  { transitivity m0; [apply moves_recognize_leader|by apply moves_spine]. }
  intros Hok. pose proof (ok_hard _ Hok) as Hh. change (commit_index m) with (commit_index m0). rewrite Ec.
  destruct (ae_prev_log_index request <? commit_index n) eqn:Eq; bool_to_prop.
  - split_if; [by apply Hm|].
    assert (entry_term m (commit_index n) = entry_term n (commit_index n)) as Ef.
    { apply entry_term_frame. change (log m) with (log m0). change (snapshot_index m) with (snapshot_index m0).
      change (snapshot_term m) with (snapshot_term m0). congruence. }
    refine (moves_trans _ _ _ Hm _ Hok). apply moves_append_at; try done; [lia|..].
    + change (commit_index m) with (commit_index m0). lia.
    + lia.
    + apply (terms_ok_suffix _ _ _ _ _ Hts). intros e He. rewrite Ef. cbn in Ea. rewrite He in Ea.
      split_if; [done|]. by bool_to_prop.
    + unfold dropN. by apply Forall_drop.
  - refine (moves_trans _ _ _ Hm _ Hok). apply moves_append_at; try done; [lia|..].
    + change (commit_index m) with (commit_index m0). lia.
    + intros Hz. unfold position_agrees in *. rewrite Hz in *. simpl in *.
      destruct (ae_prev_log_term request =? 0) eqn:?; bool_to_prop; done.
Qed.

(** ** Snapshots *)

(** The log moved to a later base, at a position it holds. *)
Lemma hard_ok_rebased n n' k t :
  hard_ok n → 0 < k → k ≤ len (log n) → holds n (snapshot_index n + k) t → 0 < t →
  cfg_ok (base_config n') →
  (log n', snapshot_index n', snapshot_term n') = (dropN k (log n), snapshot_index n + k, t) →
  config_entries n' = filter (λ i, sat_add (snapshot_index n + k) 1 ≤ i) (config_entries n) →
  commit_index n' = N.max (snapshot_index n + k) (commit_index n) →
  (current_term n', window n', synced_term n') = (current_term n, window n, synced_term n) → hard_ok n'.
Proof.
  intros Hh Hk Hkl Hd Ht Hb [= El Es Et] Ec Em [= Er Ew Ey].
  destruct Hd as [[? _]|(e&He&Hte)]; [lia|].
  assert (log n !! N.to_nat (k - 1) = Some e) as Hl.
  { unfold lookup_at in He. split_if; [done|]. by replace (k - 1) with (snapshot_index n + k - snapshot_index n - 1) by lia. }
  destruct Hh. split; rewrite ?El, ?Es, ?Et, ?Er, ?Ew, ?Ey; try done; try lia.
  - apply (terms_ok_lookup _ _ _ _ _ ok_terms) in Hl. lia.
  - rewrite len_dropN. lia.
  - intros Hst%ok_commit_end. rewrite len_dropN. lia.
  - unfold dropN. replace (N.to_nat k) with (S (N.to_nat (k - 1))) by lia. rewrite <- Hte.
    by apply (terms_ok_drop _ (snapshot_term n)).
  - unfold dropN. by apply Forall_drop.
  - intros i Hi. rewrite Ec, elem_of_filter, ok_index by lia. unfold config_at. rewrite !entry_at_eq, El, Es.
    rewrite lookup_at_drop, (proj2 (N.leb_gt _ _)) by lia. unfold sat_add. intuition lia.
  - intros i [Hf Hin]%(eq_ind_r (λ s, i ∈ s → _) (λ H, proj1 (elem_of_filter _ _ _) H) Ec) Hi.
    unfold sat_add in Hf. lia.
Qed.

Lemma steps_rebased n n' k :
  hard_ok n' → lead_ok cfg_ok n' → elect_ok granted quorum n' → id n' = id n →
  (current_term n', voted_for n') = (current_term n, voted_for n) →
  (log n', snapshot_index n') = (dropN k (log n), snapshot_index n + k) →
  commit_index n ≤ commit_index n' → steps n n'.
Proof.
  intros H1 H2 H3 Hi [= Et Ev] [= El Es] Hc Hok. split; [by split|]. split; try done; try congruence; try lia.
  intros _ i ??. rewrite !entry_at_eq, El, Es, lookup_at_drop, (proj2 (N.leb_gt _ _)); [done|lia].
Qed.

Lemma last_omap_config l c : Forall entry_cfg l → last (omap le_config l) = Some c → cfg_ok c.
Proof.
  intros Hl H. rewrite last_lookup in H. apply list_elem_of_lookup_2, list_elem_of_omap in H as (e&He&Hc).
  rewrite Forall_forall in Hl. by apply (Hl e).
Qed.

Lemma moves_compact n up_to state : moves n (compact n up_to state).1.
Proof.
  unfold compact. split_if; [reflexivity|]. bool_to_prop.
  destruct (entry_term n up_to) as [term|] eqn:Et; [|reflexivity]. intros Hok. pose proof (ok_hard _ Hok) as Hh.
  pose proof (entry_term_holds _ _ _ Hh Et) as Hd. pose proof (holds_bound _ _ _ Hd).
  set (k := up_to - snapshot_index n). replace (N.min k (len (log n))) with k by lia.
  set (m := match last _ with Some _ => _ | None => n end).
  assert (cfg_ok (base_config m) ∧ (log m = log n ∧ snapshot_index m = snapshot_index n
    ∧ commit_index m = commit_index n ∧ config_entries m = config_entries n ∧ current_term m = current_term n
    ∧ window m = window n ∧ synced_term m = synced_term n ∧ voted_for m = voted_for n ∧ id m = id n)
    ∧ election m = election n ∧ fast_track m = fast_track n) as (Hb&(E1&E2&E3&E4&E5&E6&E7&E8&E9)&E10&E11).
  { subst m. destruct (last _) as [c|] eqn:Ec; [|by split_and!; [apply Hh|..]]. split_and!; try done.
    unfold base_config. node_simpl. destruct c. apply (last_omap_config (takeN k (log n))); [|done].
    unfold takeN. apply Forall_take, Hh. }
  assert (0 < term).
  { destruct Hd as [[? _]|(e&He&<-)]; [lia|]. unfold lookup_at in He. split_if; [done|].
    by apply (terms_ok_lookup _ _ _ _ _ (ok_terms _ Hh)) in He as []. }
  assert (snapshot_index n + k = up_to) as Ek by lia. cbn [fst]. apply moves_flag; [|done|done].
  apply (steps_rebased n _ k); unfold drop_prefix; node_simpl; rewrite ?E1, ?E3, ?E5, ?E8, ?E9; try done.
  - apply (hard_ok_rebased n _ k term); try done; try lia; node_simpl; rewrite ?E1, ?E3, ?E4, ?E5, ?E6, ?E7; try done.
    all: rewrite ?Ek; try done. lia.
  - apply (lead_ok_frame n), Hok; node_simpl; unfold role, reports, recovery, sync_index, open_from, fast_votes;
      rewrite ?E5, ?E10, ?E11; try done.
    apply (f_equal2 pair); [done|]. rewrite (last_log_index_eq n Hh). unfold last_log_index. node_simpl. rewrite ?E1, len_dropN.
    rewrite sat_add_small; destruct Hh; lia.
  - apply (elect_ok_frame n), Hok; node_simpl; unfold role, votes; rewrite ?E5, ?E8, ?E9, ?E10; done.
  - by rewrite Ek.
Qed.

(** A snapshot within the committed prefix ends at the entry committed there. *)
Definition snapshot_agrees (n : RaftNode) (request : InstallSnapshot) : Prop :=
  snapshot_index n < is_last_included_index request → is_last_included_index request ≤ commit_index n →
  entry_term n (is_last_included_index request) = Some (is_last_included_term request).

(** The node a snapshot leaves, before its window is pruned. *)
Lemma steps_install n request n' :
  quiet n → (log n', config_entries n') =
    (if bool_decide (entry_term n (is_last_included_index request) = Some (is_last_included_term request))
     then (dropN (is_last_included_index request - snapshot_index n) (log n),
           filter (λ i, sat_add (is_last_included_index request) 1 ≤ i) (config_entries n))
     else ([], ∅)) →
  (snapshot_index n', snapshot_term n', base_config n', commit_index n')
  = (is_last_included_index request, is_last_included_term request, is_config request,
     N.max (is_last_included_index request) (commit_index n)) →
  (id n', current_term n', voted_for n', window n', synced_term n')
  = (id n, current_term n, voted_for n, window n, synced_term n) →
  (role n', recovery n', reports n') = (role n, recovery n, reports n) →
  snapshot_index n < is_last_included_index request → is_last_included_index request ≤ u64_max →
  0 < is_last_included_term request ≤ current_term n → cfg_ok (is_config request) → (strict → snapshot_agrees n request) →
  steps n n'.
Proof.
  intros Hq Ekeep [= Es Est Eb Ec] [= Ei Et Ev Ew Ey] [= Er Ecv Erp] Hlt Hmax Hterm Hcfg Hag Hok.
  pose proof (ok_hard _ Hok) as Hh. pose proof (ok_lead _ Hok) as Hl.
  set (boundary := is_last_included_index request) in *. set (k := boundary - snapshot_index n) in *.
  assert (snapshot_index n + k = boundary) as Ek by lia.
  assert (quiet n') as Hq' by (unfold quiet; by rewrite Er).
  assert (lead_ok cfg_ok n') as Hl'.
  { apply (lead_ok_quiet n); try done; [|by left]. by rewrite Et. }
  assert (elect_ok granted quorum n') as He' by (by apply elect_ok_quiet).
  case_bool_decide as Hkeep; injection Ekeep as El Ece.
  - pose proof (entry_term_holds _ _ _ Hh Hkeep) as Hd. pose proof (holds_bound _ _ _ Hd).
    revert Hok. apply (steps_rebased n n' k); try done; try congruence; [|lia].
    apply (hard_ok_rebased n n' k (is_last_included_term request)); rewrite ?Ek; try done; try lia; try congruence.
  - assert (strict → commit_index n < boundary) as Hbelow.
    { intros Hst. destruct (N.le_gt_cases boundary (commit_index n)); [|done]. by destruct Hkeep; apply (Hag Hst). }
    split; [split; try done|split; try done; try lia; try congruence].
    + destruct Hh. split; rewrite ?El, ?Ece, ?Es, ?Est, ?Et, ?Ew, ?Ey, ?len_nil; try done; try lia; try congruence.
      * intros Hst%Hbelow. lia.
      * intros i Hi. unfold config_at. rewrite entry_at_eq, El. unfold lookup_at. split; [set_solver|].
        by split_if; intros [].
    + intros Hst i ??. specialize (Hbelow Hst). lia.
Qed.

Lemma moves_on_install_snapshot n request :
  (admit_snapshot request = Ok tt → cfg_ok (is_config request)) → is_last_included_index request ≤ u64_max →
  (strict → snapshot_agrees n request) → moves n (on_install_snapshot n request).1.
Proof.
  intros Hcfg Hmax Hag. unfold on_install_snapshot. destruct (admit_snapshot request) as [[]|kind] eqn:Ea;
    [|by apply moves_spine]. specialize (Hcfg eq_refl).
  destruct (is_term request <? current_term n) eqn:Et; simpl; [reflexivity|]. bool_to_prop.
  assert (0 < is_last_included_term request ≤ is_term request) as Hterm.
  { revert Ea. unfold admit_snapshot. split_if; [done|]. split_if; [done|]. intros _. bool_to_prop. lia. }
  destruct (recognize_leader_kept n (is_term request) (is_sender request)) as ([= El Es Ep Ec]&Hq&Ex).
  specialize (Ex Et). pose proof (moves_recognize_leader (strict := strict) (cfg_ok := cfg_ok) (granted := granted) (quorum := quorum)
    n (is_term request) (is_sender request)) as Hm.
  set (m := recognize_leader n _ _) in *. split_if; [|done]. bool_to_prop.
  intros Hok. refine (moves_trans _ _ _ _ (moves_prune_committed _) Hok).
  apply (moves_trans _ _ _ Hm). apply moves_flag; [|by split_if]. intros Hokm. revert Hokm.
  pose proof (ok_hard _ (proj1 (Hm Hok))) as Hhm.
  assert (∀ i, entry_term (m <| retention_pending := true |>) i = entry_term m i) as Ee by done. rewrite Ee.
  apply (steps_install m request); try done; try lia.
  - case_bool_decide as Hk; [|done]. unfold drop_prefix. node_simpl. do 2 f_equal.
    pose proof (holds_bound _ _ _ (entry_term_holds _ _ _ Hhm Hk)). lia.
  - case_bool_decide; unfold drop_prefix, base_config; node_simpl; by destruct (is_config request).
  - by case_bool_decide.
  - by case_bool_decide.
  - intros Hst. unfold snapshot_agrees. rewrite Es, Ec, (entry_term_frame n m) by congruence. by apply Hag.
Qed.

Lemma moves_decline_snapshot n request : moves n (decline_snapshot n request).1.
Proof. unfold decline_snapshot. simpl. split_if; [apply moves_recognize_leader|reflexivity]. Qed.
End append.

(** * The invariant through elections and recovery

    That voting, campaigning, taking leadership and the recovery a won
    election owes keep the invariant of [RaftInv], undo nothing and raise the
    retention flag. *)

#[local] Open Scope N_scope.

Section campaign.
Context {strict : Prop} {cfg_ok : VoterConfig → Prop} {granted : HostId → HostId → N → Prop} {quorum : gset HostId → Prop}.
Context (quorum_ok : ∀ c s, cfg_ok c → config_majority c s = true → quorum s).
#[local] Abbreviation entry_cfg := (entry_cfg cfg_ok).
#[local] Abbreviation hard_ok := (hard_ok strict cfg_ok).
#[local] Abbreviation recovery_ok := (recovery_ok cfg_ok).
#[local] Abbreviation node_ok := (node_ok strict cfg_ok granted quorum).
#[local] Abbreviation steps := (steps strict cfg_ok granted quorum).
#[local] Abbreviation moves := (moves strict cfg_ok granted quorum).

(** ** The recovery *)
Lemma command_entry_cfg term command : entry_cfg (command_entry term command).
Proof. by intros c. Qed.

Lemma recovery_entry_spec n r i n' e :
  recovery_entry n r i = (n', e) → (∀ j x, rc_decided r !! j = Some x → entry_cfg x.1) →
  spine n' = spine n ∧ le_term e = current_term n ∧ entry_cfg e.
Proof.
  unfold recovery_entry. intros H Hd. destruct (rc_decided r !! i) as [[e0 fast]|] eqn:E; simplify_eq/=.
  - split; [by repeat split_if|]. split; [by repeat split_if|]. intros c Hc. by apply (Hd i (e0, fast)).
  - by split_and!.
Qed.

Lemma spine_eqs n n' : spine n' = spine n →
  hard n' = hard n ∧ retention_pending n' = retention_pending n ∧ role n' = role n ∧ recovery n' = recovery n
  ∧ (sync_index n', open_from n', fast_votes n') = (sync_index n, open_from n, fast_votes n).
Proof. unfold spine. intros [= ]. split_and!; congruence. Qed.

(** What a recovery's pushes leave as it was. *)
Definition kept (n n' : RaftNode) : Prop :=
  (retention_pending n', role n', current_term n') = (retention_pending n, role n, current_term n)
  ∧ (recovery n', sync_index n', open_from n', fast_votes n') = (recovery n, sync_index n, open_from n, fast_votes n).

Lemma kept_spine n n' : spine n' = spine n → kept n n'.
Proof.
  intros (Eh&Ep&Er&Ec&Et)%spine_eqs. unfold kept, current_term. rewrite Eh, Ep, Er, Ec. split; congruence.
Qed.
Lemma kept_trans a b c : kept a b → kept b c → kept a c.
Proof. unfold kept. intros [??] [??]. split; congruence. Qed.
Lemma kept_push n e n' b : push_entry n e = (n', b) → hard_ok n → kept n n'.
Proof.
  intros Hp Hh. destruct (push_entry_spec n e n' b Hp Hh) as [(?&?&Hs)|(?&?&?&?&->)]; [by apply kept_spine|done].
Qed.

Lemma recovery_loop_steps fuel slice n r spent n' r' refused :
  recovery_loop fuel slice n r spent = (n', r', refused) → node_ok n → recovery n = None → 0 < current_term n →
  rc_next r = last_log_index n + 1 ∨ last_log_index n = u64_max →
  (∀ j x, rc_decided r !! j = Some x → entry_cfg x.1) →
  steps n n' ∧ kept n n' ∧ (rc_next r' = last_log_index n' + 1 ∨ last_log_index n' = u64_max)
  ∧ rc_decided r' = rc_decided r ∧ rc_term r' = rc_term r
  ∧ (refused = true → spine n' = spine n ∧ last_log_index n = u64_max).
Proof.
  revert n r spent. induction fuel as [|fuel IH]; intros n r spent; simpl.
  { intros [= <- <- <-] ?????. by split_and!. }
  assert (steps n n) as Hrefl by reflexivity.
  split_if; [intros [= <- <- <-] ?????; by split_and!|].
  destruct (_ && _); [intros [= <- <- <-] ?????; by split_and!|].
  destruct (recovery_entry n r (rc_next r)) as [m e] eqn:Ee. destruct (push_entry m e) as [m' b] eqn:Ep.
  intros Hl Hok Hr H0 Hn Hd. destruct (recovery_entry_spec _ _ _ _ _ Ee Hd) as (Hs&Ht&Hc).
  destruct (moves_spine (granted := granted) (quorum := quorum) (cfg_ok := cfg_ok) n m Hs Hok) as (Hokm&_&_).
  pose proof (spine_eqs _ _ Hs) as (Eh&_&Erm&Ecm&_). pose proof (last_log_index_hard n m Eh) as Elm.
  assert (current_term m = current_term n) as Etm by (unfold current_term; by rewrite Eh).
  assert (steps n m') as Hst.
  { transitivity m; [by apply moves_steps, moves_spine|]. apply (steps_push m e m' b); try done; try lia.
    - unfold recovering. by rewrite Ecm, Hr, andb_false_r.
    - rewrite Ht, <- Etm. eapply last_log_term_le, Hokm. }
  assert (kept n m') as Hk.
  { apply (kept_trans _ m); [by apply kept_spine|]. eapply kept_push; [done|apply Hokm]. }
  destruct (push_entry_spec _ _ _ _ Ep (ok_hard _ Hokm)) as [(->&Hmax&Hsm)|(->&Hlt&_&Hlast&_)]; simpl in Hl.
  { injection Hl as <- <- <-. split_and!; try done; [|intros _; split; congruence].
    right. pose proof (spine_eqs _ _ Hsm) as (Ehm&_). by rewrite (last_log_index_hard m m'). }
  destruct Hn as [Hn|Hn]; [|lia]. unfold checked_add in Hl. split_if; bool_to_prop.
  - destruct (Hst Hok) as [Hokm' _]. destruct (IH _ _ _ Hl) as (?&?&?&?&?&Href); try done.
    + destruct Hk as [_ [= -> _ _ _]]. done.
    + destruct Hk as [[= _ _ ->] _]. done.
    + left. simpl. lia.
    + split_and!; try done; [by transitivity m'|by apply (kept_trans _ m')|].
      intros ?. destruct Href as [_ ?]; [done|]. lia.
  - simplify_eq/=. split_and!; try done. right. pose proof (hard_ok_range m (ok_hard _ Hokm)). lia.
Qed.

Lemma moves_clear_recovery n : moves n (n <| recovery := None |>).
Proof.
  intros [Hh Hl He]. split; [split|split].
  - by apply (hard_ok_hard n).
  - by destruct Hl; split; node_simpl.
  - by apply (elect_ok_frame n).
  - by apply progresses_hard.
  - by right.
Qed.

Lemma moves_set_recovery n r :
  role n ≠ Candidate → rc_term r ≤ current_term n → recovery_ok n r → moves n (n <| recovery := Some r |>).
Proof.
  intros Hc Ht Hr [Hh Hl He]. split; [split|split].
  - by apply (hard_ok_hard n).
  - destruct Hl. split; node_simpl; try done; try (by intros ? [= <-]).
    intros ? _ [= <-]. destruct Hr. by split.
  - by apply (elect_ok_frame n).
  - by apply progresses_hard.
  - by right.
Qed.

Lemma recovering_cleared n : recovery n = None → recovering n = false.
Proof. intros E. unfold recovering. by rewrite E, andb_false_r. Qed.

Lemma moves_continue_recovery n : moves n (continue_recovery n).
Proof.
  unfold continue_recovery. destruct (recovering n) eqn:Er; cbn [negb]; [|apply moves_clear_recovery].
  destruct (recovery n) as [r|] eqn:Ey; [|reflexivity]. intros Hok.
  assert (role n = Leader) as Hlead.
  { unfold recovering, is_leader in Er. apply andb_true_iff in Er as [Er _]. by apply bool_decide_eq_true in Er. }
  destruct (ok_recovery _ (ok_lead _ Hok) r Er Ey) as [Hn Hd Hs Ho Hf].
  pose proof (ok_past _ (ok_lead _ Hok) r Ey) as Hp.
  pose proof (ok_positive _ (ok_lead _ Hok) (or_intror Hlead)) as H0.
  destruct (moves_clear_recovery n Hok) as (Hok0&_).
  destruct (recovery_loop _ _ _ _ _) as [[m r'] refused] eqn:El.
  destruct (recovery_loop_steps _ _ _ _ _ _ _ _ El Hok0) as (Hst&Hk&Hn'&Hd'&Ht'&Href); try done.
  assert (steps n m) as Hsm.
  { transitivity (n <| recovery := None |>); [apply moves_steps, moves_clear_recovery|done]. }
  destruct Hk as [[= Ep' Er' Et'] [= Ec' Es' Eo' Ef']]. node_simpl in Ec'.
  destruct refused.
  { refine (moves_trans _ (n <| recovery := None |>) _ (moves_clear_recovery n) _ Hok).
    apply moves_count_window, moves_spine. by apply Href. }
  set (m1 := count_window wc_recovery_slices m <| retention_pending := true |>).
  assert (moves n m1) as Hm1.
  { apply moves_flag; [|done]. transitivity m; [done|].
    transitivity (count_window wc_recovery_slices m); [by apply moves_steps, moves_spine|].
    apply moves_steps, moves_raised. }
  split_if.
  - match goal with |- context [setter recovery _ ?m'] => set (m2 := m') end.
    assert (spine m2 = spine m1) as Es2 by (subst m2; by split_if).
    assert (last_log_index m2 = last_log_index m) as El2.
    { subst m2. by split_if. }
    pose proof (kept_spine _ _ Es2) as [[= _ Er2 Et2] [= Ec2 Ey2 Eo2 Ef2]].
    refine (moves_trans _ m2 _ (moves_trans _ m1 _ Hm1 (moves_spine _ _ Es2)) _ Hok).
    apply moves_set_recovery.
    + rewrite Er2. change (role m1) with (role m). rewrite Er'. node_simpl. by rewrite Hlead.
    + simpl. rewrite Ht', Et2. change (current_term m1) with (current_term m). by rewrite Et'.
    + split; simpl.
      * by rewrite El2.
      * by rewrite Hd'.
      * rewrite Ey2. change (sync_index m1) with (sync_index m). by rewrite Es'.
      * rewrite Eo2. change (open_from m1) with (open_from m). by rewrite Eo'.
      * rewrite Ef2. change (fast_votes m1) with (fast_votes m). by rewrite Ef'.
  - apply (moves_if (rc_sliced r') n); [intros _|by intros _|done].
    apply (moves_trans _ _ _ Hm1). apply moves_leader_append.
    + apply recovering_cleared. done.
    + change (current_term m1) with (current_term m). by rewrite Et'.
    + done.
    + apply command_entry_cfg.
Qed.

(** The plan's values come from the slots it read. *)
Lemma max_ballot_elem slots b : max_ballot slots = Some b → b ∈ map ballot slots.
Proof.
  unfold max_ballot. destruct (map ballot slots) as [|x l]; [done|]. intros [= <-].
  revert x. induction l as [|y l IH]; intros x; simpl; [set_solver|].
  specialize (IH (if ballot_leb x y then y else x)). split_if; set_solver.
Qed.
Lemma recovered_value_elem n slots heard x :
  recovered_value n slots heard = Some x → ∃ s, s ∈ slots ∧ x.1 = ws_entry s.
Proof.
  unfold recovered_value. destruct (max_ballot slots) as [b|]; simpl; [|done]. split_if; [|split_if; [done|]].
  - destruct (filter _ slots) as [|s l] eqn:E; [done|]. intros [= <-]. exists s. split; [|done].
    assert (s ∈ filter (λ slot, ballot slot = b) slots) as H by (rewrite E; set_solver).
    by apply list_elem_of_filter in H as [].
  - destruct (List.find _ _) as [s|] eqn:E; [|done]. intros [= <-]. exists s. split; [|done].
    apply List.find_some in E as [E _]. apply list_elem_of_In, list_elem_of_filter in E as []. done.
Qed.
Lemma plan_recovery_decided n i x :
  hard_ok n → lead_ok cfg_ok n → rc_decided (plan_recovery n) !! i = Some x → entry_cfg x.1.
Proof.
  intros Hh Hl. unfold plan_recovery. destruct (match checked_add _ _ with Some _ => _ | None => _ end) as [next last_].
  simpl. rewrite lookup_omap. set (rs := _ ++ _).
  assert (∀ r, r ∈ rs → entry_cfg (ws_entry (sr_slot r))) as Hrs.
  { subst rs. intros r [Hr|Hr]%elem_of_app.
    - unfold window_above, window_reports in Hr. apply list_elem_of_filter in Hr as [_ Hr].
      apply list_elem_of_fmap in Hr as ([j s]&->&Hj%elem_of_bt_list). by apply (ok_window _ Hh) in Hj as (_&_&?).
    - apply list_elem_of_filter in Hr as [_ Hr]. apply list_elem_of_In, in_concat in Hr as (l&Hl1&Hl2).
      unfold bt_values in Hl1. apply list_elem_of_In, list_elem_of_fmap in Hl1 as ([v l']&->&Hv%elem_of_bt_list).
      apply list_elem_of_In in Hl2. by apply (ok_reports _ Hl v l'). }
  generalize dependent rs. intros rs Hrs.
  assert (∀ (m0 : gmap N (list WindowSlot)), (∀ j ss s, m0 !! j = Some ss → s ∈ ss → entry_cfg (ws_entry s)) →
    ∀ j ss s, foldl (λ m r, <[sr_index r := default [] (m !! sr_index r) ++ [sr_slot r]]> m) m0 rs !! j = Some ss →
      s ∈ ss → entry_cfg (ws_entry s)) as Hfold.
  { induction rs as [|r rs IH]; intros m0 H0; simpl; [done|]. apply IH; [set_solver|].
    intros j ss s [[<- <-]|[_ Hs]]%lookup_insert_Some; [|by eauto].
    intros [Hs|Hs]%elem_of_app; [|apply list_elem_of_singleton in Hs as ->; apply Hrs; set_solver].
    destruct (m0 !! sr_index r) eqn:E; simpl in Hs; [by eauto|set_solver]. }
  destruct (foldl _ ∅ rs !! i) as [ss|] eqn:E; [|done]. intros (s&Hs&->)%recovered_value_elem.
  by apply (Hfold ∅) with (2 := E).
Qed.

Lemma moves_recover n r :
  role n = Leader → recovering n = false → rc_term r = current_term n →
  rc_next r = last_log_index n + 1 ∨ last_log_index n = u64_max →
  (∀ j x, rc_decided r !! j = Some x → entry_cfg x.1) → moves n (recover n r).
Proof.
  intros Hlead Hr Ht Hn Hd. unfold recover. match goal with |- context [if _ then continue_recovery (?m <| recovery := _ |>) else _] => set (m1 := m) end.
  assert (moves n m1) as Hm1.
  { apply moves_flag; [|done]. intros [Hh Hl He]. split; [split|].
    - destruct Hh. by split; subst m1; node_simpl.
    - destruct Hl. split; try done. intros r' Hr'. assert (recovering m1 = recovering n) as E by done. congruence.
    - by apply (elect_ok_frame n).
    - by split. }
  split_if; [|done]. apply (moves_trans _ (m1 <| recovery := Some r |>)); [|apply moves_continue_recovery].
  apply (moves_trans _ m1 _ Hm1). apply moves_set_recovery.
  - change (role m1) with (role n). by rewrite Hlead.
  - change (current_term m1) with (current_term n). by rewrite Ht.
  - by split.
Qed.

(** ** Becoming leader *)
Lemma last_elem_in (s : gset N) i : last_elem s = Some i → i ∈ s.
Proof. unfold last_elem. rewrite last_lookup. intros H%list_elem_of_lookup_2. by apply elem_of_bt_elems. Qed.

Lemma config_at_cfg n i c : hard_ok n → config_at n i = Some c → cfg_ok c.
Proof.
  intros Hh. unfold config_at. rewrite entry_at_eq. destruct (lookup_at _ _ i) as [e|] eqn:E; [|done].
  intros Hc. apply lookup_at_elem in E. pose proof (ok_cfgs _ Hh) as Hf. rewrite Forall_forall in Hf. by apply (Hf e).
Qed.
Lemma effective_config_cfg n : hard_ok n → cfg_ok (effective_config n).
Proof.
  intros Hh. unfold effective_config. destruct (last_elem (config_entries n) ≫= config_at n) as [c|] eqn:E; [|apply Hh].
  destruct (last_elem _) as [i|]; [|done]. by apply (config_at_cfg n i).
Qed.

Lemma moves_lead n :
  role n = Candidate → quorum (votes n) → moves n (n <| role := Leader |>).
Proof.
  intros Hc Hq [Hh Hl He]. split; [split|split].
  - by apply (hard_ok_hard n).
  - destruct Hl. split; node_simpl; try done; [intros _; apply ok_positive; by left|].
    intros r Hr Hy. exfalso. unfold recovering in Hr. node_simpl in Hr. rewrite Hy in Hr. simpl in Hr.
    bool_to_prop. specialize (ok_candidate r Hc Hy). lia.
  - destruct He. split; node_simpl; try done; intros _; [apply ok_self|apply ok_granted]; by left.
  - by apply progresses_hard.
  - by right.
Qed.

Lemma spine_start_following n next peer : spine (start_following n next peer) = spine n.
Proof. done. Qed.

Lemma moves_become_leader n : moves n (become_leader_if_majority n).
Proof.
  unfold become_leader_if_majority. destruct (negb _ || _) eqn:E; [reflexivity|].
  apply orb_false_iff in E as [Ec Em]. apply negb_false_iff, bool_decide_eq_true in Ec. apply negb_false_iff in Em.
  split_if.
  { apply moves_demoted; try done; [by left|by right]. }
  intros Hok. pose proof (ok_hard _ Hok) as Hh. pose proof (ok_lead _ Hok) as Hl.
  assert (quorum (votes n)) as Hq.
  { apply (quorum_ok (effective_config n)); [by apply effective_config_cfg|done]. }
  set (m := recover _ _).
  assert (moves n m) as Hm.
  { apply (moves_trans _ (n <| role := Leader |>)); [by apply moves_lead|]. apply moves_recover.
    - done.
    - unfold recovering. node_simpl. destruct (recovery n) as [r|] eqn:Er; [|by rewrite andb_false_r]. simpl.
      pose proof (ok_candidate _ Hl r Ec Er). by rewrite (proj2 (N.eqb_neq _ _)) by lia.
    - unfold plan_recovery. by destruct (match checked_add _ _ with Some _ => _ | None => _ end).
    - change (last_log_index (n <| role := Leader |>)) with (last_log_index n). unfold plan_recovery, checked_add.
      split_if; simpl; [by left|]. bool_to_prop. right. pose proof (hard_ok_range n Hh). lia.
    - intros i x. by apply plan_recovery_decided. }
  refine (moves_trans _ m _ Hm _ Hok). apply moves_spine. rewrite spine_foldl; [done|]. intros. apply spine_start_following.
Qed.

(** ** Campaigning *)
Lemma moves_next_term n : spine (next_term n).1 = spine n.
Proof. unfold next_term. simpl. by split_if. Qed.

(** The candidate an election starts from. *)
Lemma moves_candidate m term : term = current_term m + 1 →
  moves m (m <| retention_pending := true |> <| current_term := term |> <| elections ::= tick |> <| read_round := None |>
    <| role := Candidate |> <| voted_for := Some (id m) |> <| votes := {[ id m ]} |> <| reports := ∅ |>).
Proof.
  intros Ht. apply moves_flag; [|done]. intros [Hh Hl He]. split; [split|].
  - destruct Hh. split; node_simpl; try done; try lia.
    + by apply (terms_ok_mono (current_term m)); [lia|].
    + intros i s Hw%ok_window. naive_solver lia.
  - destruct Hl. split; node_simpl; try done; try lia.
    + intros r Hr%ok_past. lia.
    + intros r _ Hr%ok_past. lia.
  - split; node_simpl; [done|set_solver|done].
  - split; node_simpl; try done; try lia.
Qed.

Lemma moves_start_election n : moves n (start_election n).1.
Proof.
  unfold start_election. split_if; [reflexivity|]. pose proof (moves_next_term n) as Hs.
  destruct (next_term n) as [m [term|]] eqn:En; simpl in Hs; [|by apply moves_spine].
  assert (term = current_term n + 1) as Ht.
  { apply (f_equal snd) in En. by apply checked_add_some in En as [-> _]. }
  pose proof (spine_eqs _ _ Hs) as (Eh&_&_&Ey&_). assert (current_term m = current_term n) as Et by (unfold current_term; by rewrite Eh).
  simpl. apply (moves_trans _ m); [by apply moves_spine|]. etransitivity; [|apply moves_become_leader].
  apply moves_candidate. lia.
Qed.

Lemma moves_election_timeout n : moves n (on_election_timeout n).1.
Proof.
  unfold on_election_timeout. split_if; [reflexivity|]. pose proof (moves_next_term n) as Hs.
  destruct (next_term n) as [m [term|]] eqn:En; simpl in Hs; [|by apply moves_spine].
  apply (moves_trans _ m); [by apply moves_spine|]. match goal with |- context [start_election ?x] => set (m1 := x) end.
  assert (moves m m1) as Hm by (apply moves_demoted; try done; [by right|by left]).
  split_if; [|done]. apply (moves_trans _ m1 _ Hm). pose proof (moves_start_election m1) as H.
  by destruct (start_election m1) as [m2 [|]].
Qed.

Lemma moves_forget_leader n : moves n (forget_leader n).
Proof. unfold forget_leader. split_if; [by apply moves_spine|reflexivity]. Qed.

Lemma moves_on_pre_vote n request : moves n (on_pre_vote n request).1.
Proof. unfold on_pre_vote. repeat case_match; by apply moves_spine. Qed.

Lemma moves_on_pre_vote_reply n reply : moves n (on_pre_vote_reply n reply).1.
Proof.
  unfold on_pre_vote_reply. split_if; [reflexivity|]. split_if; [by apply moves_spine|].
  match goal with |- context [start_election ?x] => set (m1 := x) end.
  assert (moves n m1) as Hm by (by apply moves_spine).
  split_if; [|done]. apply (moves_trans _ m1 _ Hm). pose proof (moves_start_election m1) as H.
  by destruct (start_election m1) as [m2 [|]].
Qed.

(** ** Voting *)
Lemma moves_vote n candidate :
  voted_for n = None ∨ voted_for n = Some candidate →
  moves n (pending (negb (bool_decide (voted_for n = Some candidate))) n <| voted_for := Some candidate |>).
Proof.
  intros Hv. case_bool_decide as E; simpl.
  { apply moves_spine. unfold spine, pending. node_simpl. by rewrite <- E, orb_false_r. }
  destruct Hv as [Hv|]; [|done]. apply moves_flag; [|apply orb_true_r]. intros [Hh Hl He].
  assert (quiet n) as Hq.
  { destruct (role n) eqn:Er; [by left|by right|..]; exfalso; pose proof (ok_self _ He); naive_solver. }
  split; [split|].
  - by apply (hard_ok_hard (n <| voted_for := Some candidate |>)); [|destruct Hh; split].
  - by apply (lead_ok_frame n).
  - by apply elect_ok_quiet.
  - split; node_simpl; try done. intros _ v. by rewrite Hv.
Qed.

Lemma moves_on_request_vote n request : moves n (on_request_vote n request).1.
Proof.
  unfold on_request_vote. destruct (admit_candidacy _ _ _); [|by apply moves_spine].
  fold (observe_term n (rv_term request)). set (m := observe_term _ _).
  assert (moves n m) as Hm by apply moves_observe_term. cbn [fst]. apply (moves_trans _ _ _ Hm).
  destruct (_ && _ && _) eqn:E; [|reflexivity]. apply andb_true_iff in E as [E _]. apply andb_true_iff in E as [_ E].
  assert (voted_for m = None ∨ voted_for m = Some (rv_candidate request)) as Hv.
  { apply orb_true_iff in E as [E|E]; apply bool_decide_eq_true in E; auto. }
  by apply moves_vote.
Qed.

(** A vote counted by a candidate. *)
Lemma moves_count_vote n voter slots :
  role n = Candidate → granted voter (id n) (current_term n) →
  (∀ r, r ∈ slots → entry_cfg (ws_entry (sr_slot r))) →
  moves n (n <| votes ::= λ s, {[ voter ]} ∪ s |> <| reports ::= <[voter := slots]> |>).
Proof.
  intros Er Hg Hc [Hh Hl He]. split; [split|split].
  - by apply (hard_ok_hard n).
  - destruct Hl. split; node_simpl; try done.
    + intros v rs r [[<- <-]|[_ Hv]]%lookup_insert_Some; eauto.
    + intros r H H'. by destruct (ok_recovery r H H').
  - destruct He. split; node_simpl; try done; [|congruence].
    intros Hr v [->%elem_of_singleton|Hv]%elem_of_union; [|by auto]. by right.
  - by apply progresses_hard.
  - by right.
Qed.

(** What a vote reply must bring: configurations the group allows, and a grant that was cast. *)
Lemma moves_on_vote_reply n reply :
  (admit_reports reply = Ok tt → ∀ r, r ∈ vr_reports reply → entry_cfg (ws_entry (sr_slot r))) →
  (vr_granted reply = true → granted (vr_voter reply) (id n) (vr_term reply)) →
  moves n (on_vote_reply n reply).
Proof.
  intros Hc Hg. unfold on_vote_reply. destruct (admit_reports reply) as [[]|]; [|by apply moves_spine].
  specialize (Hc eq_refl). split_if; [apply moves_step_down; by bool_to_prop|].
  destruct (_ && _ && _ && _) eqn:E; [|reflexivity].
  apply andb_true_iff in E as [E _]. apply andb_true_iff in E as [E Hgr]. apply andb_true_iff in E as [Er Et].
  apply bool_decide_eq_true in Er. bool_to_prop. specialize (Hg Hgr).
  etransitivity; [|apply moves_become_leader]. apply moves_count_vote; [done|by rewrite <- Et|done].
Qed.
End campaign.
