(* ===== verification/RaftOps.v ===== *)
(** * Every operation of a Raft node

    The operations of [crates/cluster/src/raft.rs] as one type, and that each
    of them keeps the invariant, undoes nothing and raises the retention flag
    ([moves_op]), under what the operation's input must satisfy ([op_ok]). *)

From S2P Require Import Prelude RaftState RaftLog RaftElect RaftReplicate RaftFast RaftAdmin RaftInv RaftAppend.
#[local] Open Scope N_scope.

(** ** Operations and what they send *)
Inductive Message :=
| MPreVote (m : PreVote) | MPreVoteReply (m : PreVoteReply)
| MRequestVote (m : RequestVote) | MVoteReply (m : VoteReply)
| MAppend (m : AppendEntries) | MAppendReply (m : AppendReply)
| MSnapshot (m : InstallSnapshot) | MSnapshotReply (m : InstallSnapshotReply)
| MFastPropose (m : FastPropose) | MFastVote (m : FastVote) | MTimeoutNow (m : TimeoutNow).

(** A message and the host it is sent to. *)
Definition Packet : Type := HostId * Message.
Definition to_each {A} (hosts : list HostId) (f : A → Message) (l : list A) : list Packet :=
  zip_with (λ host m, (host, f m)) hosts l.
Definition to_opt {A} (f : A → list Packet) (o : option A) : list Packet := from_option f [] o.

Inductive Op :=
| SetLogBudget (bytes : N) | SetWindowBudget (bytes : N) | SetPriority (priority : ElectionPriority)
| ElectionTimeout | StartElection | ForgetLeader | ObserveTerm (term : N) | Suspend
| Receive (message : Message) | DeclineSnapshot (request : InstallSnapshot)
| AppendCommand (command : bytes) | OpenFastTrack | ProposeFast (command : bytes) | FillHole (index : N)
| CheckQuorum | CatchUpTo (target : list HostId) | PromoteCaughtUp (target : list HostId)
| PriorityTransfer (alive : list HostId) | TransferLeadership (target : HostId) | TakeTimeoutNow
| BeginRead | ReadIndex (context : N) | CancelRead (context : N)
| BeginMembershipChange (new_voters : list HostId) | CompleteMembershipChange
| ReplicateTo (follower : HostId) (budget : N) | SendSnapshot (follower : HostId)
| Compact (up_to : N) (state : bytes).

(** The handler of each message, with the reply it sends back to the sender. *)
Definition receive (n : RaftNode) (message : Message) : RaftNode * list Packet :=
  match message with
  | MPreVote m => let '(n, r) := on_pre_vote n m in (n, [(pv_candidate m, MPreVoteReply r)])
  | MPreVoteReply m =>
      let '(n, r) := on_pre_vote_reply n m in (n, to_opt (to_each (others n) MRequestVote) r)
  | MRequestVote m => let '(n, r) := on_request_vote n m in (n, [(rv_candidate m, MVoteReply r)])
  | MVoteReply m => (on_vote_reply n m, [])
  | MAppend m => let '(n, r) := on_append_entries n m in (n, [(ae_leader m, MAppendReply r)])
  | MAppendReply m => (on_append_reply n m, [])
  | MSnapshot m => let '(n, r) := on_install_snapshot n m in (n, [(is_sender m, MSnapshotReply r)])
  | MSnapshotReply m => (on_install_snapshot_reply n m, [])
  | MFastPropose m =>
      let '(n, r) := on_fast_propose n m in
      (n, to_opt (λ v, to_opt (λ host, [(host, MFastVote v)]) (leader n)) r)
  | MFastVote m => (on_fast_vote n m, [])
  | MTimeoutNow m => let '(n, r) := on_timeout_now n m in (n, to_each (others n) MRequestVote r)
  end.

Definition handle (n : RaftNode) (op : Op) : RaftNode * list Packet :=
  match op with
  | SetLogBudget bytes => (set_log_budget_to n bytes, [])
  | SetWindowBudget bytes => (set_window_budget_to n bytes, [])
  | SetPriority priority => (set_priority n priority, [])
  | ElectionTimeout =>
      let '(n, r) := on_election_timeout n in
      (n, match r with Ok l => to_each (others n) MPreVote l | Err _ => [] end)
  | StartElection =>
      let '(n, r) := start_election n in
      (n, match r with Ok l => to_each (others n) MRequestVote l | Err _ => [] end)
  | ForgetLeader => (forget_leader n, [])
  | ObserveTerm term => (observe_term n term, [])
  | Suspend => (suspend n, [])
  | Receive message => receive n message
  | DeclineSnapshot m => let '(n, r) := decline_snapshot n m in (n, [(is_sender m, MSnapshotReply r)])
  | AppendCommand command => ((append_command n command).1, [])
  | OpenFastTrack => ((open_fast_track n).1, [])
  | ProposeFast command =>
      let '(n, r) := propose_fast n command in
      (n, to_opt (λ p, map (λ host, (host, MFastPropose p)) (all_voters n)) r)
  | FillHole index => (n, to_opt (λ p, map (λ host, (host, MFastPropose p)) (all_voters n)) (fill_hole n index))
  | CheckQuorum => (check_quorum n, [])
  | CatchUpTo target => ((catch_up n target).1, [])
  | PromoteCaughtUp target => ((promote_caught_up n target).1, [])
  | PriorityTransfer alive => ((priority_transfer n alive).1, [])
  | TransferLeadership target => ((transfer_leadership n target).1, [])
  | TakeTimeoutNow => let '(n, r) := take_timeout_now n in (n, to_opt (λ p, [(p.1, MTimeoutNow p.2)]) r)
  | BeginRead => ((begin_read n).1, [])
  | ReadIndex context => ((read_index n context).1, [])
  | CancelRead context => (cancel_read n context, [])
  | BeginMembershipChange new_voters => ((begin_membership_change n new_voters).1, [])
  | CompleteMembershipChange => ((complete_membership_change n).1, [])
  | ReplicateTo follower budget =>
      let '(n, r) := replicate_to n follower budget in (n, to_opt (λ m, [(follower, MAppend m)]) r)
  | SendSnapshot follower => (n, to_opt (λ m, [(follower, MSnapshot m)]) (install_snapshot_for n follower))
  | Compact up_to state => ((compact n up_to state).1, [])
  end.

Section ops.
Context {strict : Prop} {cfg_ok : VoterConfig → Prop} {granted : HostId → HostId → N → Prop} {quorum : gset HostId → Prop}.
Context (quorum_ok : ∀ c s, cfg_ok c → config_majority c s = true → quorum s).
#[local] Abbreviation entry_cfg := (entry_cfg cfg_ok).
#[local] Abbreviation hard_ok := (hard_ok strict cfg_ok).
#[local] Abbreviation node_ok := (node_ok strict cfg_ok granted quorum).
#[local] Abbreviation steps := (steps strict cfg_ok granted quorum).
#[local] Abbreviation moves := (moves strict cfg_ok granted quorum).

(** ** The fast track *)
Lemma leader_positive n : node_ok n → is_leader n = true → 0 < current_term n.
Proof. intros Hok Hl%bool_decide_eq_true. apply (ok_positive _ (ok_lead _ Hok)). by right. Qed.

Lemma moves_on_fast_propose n proposal : moves n (on_fast_propose n proposal).1.
Proof.
  unfold on_fast_propose. set (refused := negb (fp_term proposal =? current_term n) || _ || _ || _ || _ || _ || _).
  destruct refused eqn:E; [reflexivity|]. subst refused. bool_to_prop.
  match goal with |- context [mkWindowSlot (current_term n) true ?e] => set (entry := e) end.
  match goal with |- context [if window_budget n <? ?x then _ else _] => set (cost := x) end.
  set (cast := if window_budget n <? cost then _ else _).
  assert (moves n cast.1) as Hc.
  { subst cast. split_if; simpl; [reflexivity|]. apply moves_flag; [|done].
    etransitivity; [|apply moves_steps, moves_raised]. apply steps_window_insert; [lia|done|apply command_entry_cfg]. }
  destruct (window n !! fp_index proposal); [|done]. repeat (split_if; [reflexivity|]). done.
Qed.

(** What a leader's append leaves as it was. *)
Definition led (n n' : RaftNode) : Prop :=
  current_term n' = current_term n ∧ recovery n' = recovery n ∧ (role n' = role n ∨ role n' = Follower).
Lemma led_not_recovering n n' : led n n' → recovering n = false → recovering n' = false.
Proof. unfold led, recovering, is_leader. intros (-> & -> & [->| ->]); done. Qed.

Lemma led_step_down_if_removed n : led n (step_down_if_removed n).
Proof. unfold led, step_down_if_removed. repeat split_if; node_simpl; auto. Qed.
Lemma led_prune n : led n (prune_committed n).
Proof. by split_and!; [..|left]. Qed.
Lemma led_trans a b c : led a b → led b c → led a c.
Proof. unfold led. intros (?&?&[?|?]) (?&?&[?|?]); split_and!; try congruence; (left; congruence) || (right; congruence). Qed.
Lemma led_advance n : led n (advance_leader_commit n).
Proof.
  unfold advance_leader_commit. split_if; [by split_and!; [..|left]|].
  eapply led_trans; [|apply led_step_down_if_removed]. eapply led_trans; [|apply led_prune].
  split_and!; [..|left]; by split_if.
Qed.
Lemma led_append n e : hard_ok n → led n (leader_append n e).1.
Proof.
  intros Hh. unfold leader_append. split_if; [by split_and!; [..|left]|].
  destruct (push_entry n e) as [m b] eqn:Ep. pose proof (kept_push _ _ _ _ Ep Hh) as [[= _ Er Et] [= Ey _ _ _]].
  assert (led n m) as Hm by (by split_and!; [..|left]). destruct b; simpl; [|done].
  eapply led_trans; [|apply led_advance]. apply (led_trans _ _ _ Hm). split_and!; [..|left]; by split_if.
Qed.

Lemma moves_decide_loop fuel n : recovering n = false → 0 < current_term n → moves n (decide_loop fuel n).
Proof.
  revert n. induction fuel as [|fuel IH]; intros n Hr H0; simpl; [reflexivity|].
  destruct (fast_votes n !! _) as [votes|]; [|reflexivity]. split_if; [reflexivity|].
  destruct (most_voted _) as [command|]; [|reflexivity].
  set (e := command_entry _ command).
  intros Hok. pose proof (led_append n e (ok_hard _ Hok)) as Hl.
  assert (moves n (leader_append n e).1) as Hm by (apply moves_leader_append; [done..|apply command_entry_cfg]).
  destruct (leader_append n e) as [m b]. simpl in *. destruct b; [|by apply Hm].
  refine (moves_trans _ _ _ (moves_count_window wc_decided_from_votes _ _ Hm) (IH _ _ _) Hok).
  - by apply (led_not_recovering n m).
  - destruct Hl as [Et _]. change (0 < current_term m). by rewrite Et.
Qed.

Lemma moves_decide_from_votes n : is_leader n = true → moves n (decide_from_votes n).
Proof.
  intros Hl. unfold decide_from_votes. split_if; [reflexivity|]. intros Hok.
  destruct (recovering n) eqn:Er; [|by apply moves_decide_loop; [..|apply leader_positive|]].
  destruct (recovery n) as [r|] eqn:Ey.
  - destruct (ok_recovery _ (ok_lead _ Hok) r Er Ey). simpl. rewrite ok_votes, lookup_empty. by apply moves_spine.
  - unfold recovering in Er. rewrite Ey, andb_false_r in Er. done.
Qed.

Lemma moves_fast_votes n f : (f ∅ = ∅ ∨ recovering n = false) → moves n (n <| fast_votes ::= f |>).
Proof.
  intros Hf [Hh Hl He]. split; [split|split].
  - by apply (hard_ok_hard n).
  - destruct Hl. split; node_simpl; try done. intros r Hr Hy. destruct Hf as [Hf|Hf].
    + destruct (ok_recovery r Hr Hy). split; try done. node_simpl. by rewrite ok_votes.
    + change (recovering n = true) in Hr. congruence.
  - by apply (elect_ok_frame n).
  - by apply progresses_hard.
  - by right.
Qed.

Lemma moves_count_fast_quorums n : moves n (count_fast_quorums n).
Proof.
  unfold count_fast_quorums. match goal with |- context [advance_leader_commit ?x] => set (m := x) end.
  assert (moves n m) as Hm by (apply moves_spine, spine_foldl; done).
  etransitivity; [exact Hm|]. etransitivity; [apply moves_advance_leader_commit|]. apply moves_fast_votes.
  left. apply map_filter_empty.
Qed.

Lemma moves_on_fast_vote n vote : moves n (on_fast_vote n vote).
Proof.
  unfold on_fast_vote. destruct (_ || _ || _ || _ || _ || _ || _) eqn:E; [reflexivity|]. bool_to_prop.
  intros Hok. match goal with |- context [decide_from_votes ?x] => set (m := x) end.
  assert (recovering n = false) as Hr.
  { destruct (recovering n) eqn:Er; [|done]. destruct (recovery n) as [r|] eqn:Ey.
    - destruct (ok_recovery _ (ok_lead _ Hok) r Er Ey). lia.
    - unfold recovering in Er. by rewrite Ey, andb_false_r in Er. }
  refine (moves_trans _ (decide_from_votes m) _ _ (moves_count_fast_quorums _) Hok).
  apply (moves_trans _ m); [|by apply moves_decide_from_votes]. subst m.
  apply (moves_trans _ (n <| contacts ::= λ s, {[fv_voter vote]} ∪ s |>)); [by apply moves_spine|].
  apply moves_fast_votes. by right.
Qed.

(** ** Progress, quorum checks and membership *)
Lemma spine_forget_progress n m : spine (forget_progress n m) = spine n.
Proof. unfold forget_progress. by split_if. Qed.

Lemma moves_record_match n follower i : moves n (record_match n follower i).
Proof. by apply moves_spine. Qed.
Lemma spine_confirm_read n reply : spine (confirm_read n reply) = spine n.
Proof. unfold confirm_read. by split_if. Qed.
Lemma spine_back_up n reply : spine (back_up n reply) = spine n.
Proof. unfold back_up. by case_match. Qed.

Lemma moves_on_append_reply n reply : moves n (on_append_reply n reply).
Proof.
  unfold on_append_reply. split_if; [apply moves_step_down; by bool_to_prop|]. split_if; [reflexivity|].
  match goal with |- context [refuse_malformed ?x _] => set (m := x) end.
  assert (moves n m) as Hm by (apply moves_spine; apply spine_confirm_read).
  etransitivity; [exact Hm|]. split_if; [|by apply moves_spine, spine_back_up].
  split_if; [by apply moves_spine|]. etransitivity; [apply moves_record_match|apply moves_advance_leader_commit].
Qed.

Lemma moves_on_install_snapshot_reply n reply : moves n (on_install_snapshot_reply n reply).
Proof.
  unfold on_install_snapshot_reply. split_if; [apply moves_step_down; by bool_to_prop|].
  split_if; [reflexivity|]. split_if; [by apply moves_spine|].
  split_if; [|by apply moves_spine]. match goal with |- context [record_match ?x _ _] => set (m := x) end.
  apply (moves_trans _ m); [by apply moves_spine|].
  etransitivity; [apply moves_record_match|apply moves_advance_leader_commit].
Qed.

Lemma moves_age_transfer n : is_leader n = true → moves n (age_transfer n).
Proof.
  intros Hl. unfold age_transfer. destruct (active_transfer n) as [t|]; [|by apply moves_spine].
  split_if; [|by apply moves_spine]. match goal with |- context [decide_from_votes ?x] => set (m := x) end.
  assert (spine m = spine n) as Hs by (subst m; by split_if).
  apply (moves_trans _ m); [by apply moves_spine|].
  apply (moves_trans _ (decide_from_votes m)); [|apply moves_count_fast_quorums]. apply moves_decide_from_votes.
  pose proof (spine_eqs _ _ Hs) as (_&_&Er&_). unfold is_leader. by rewrite Er.
Qed.

Lemma spine_age_staging n : spine (age_staging n) = spine n.
Proof.
  unfold age_staging. rewrite spine_foldl; [done|]. intros m x. unfold abort_staging.
  transitivity (spine (forget_progress (m <| staging ::= delete x |>) x)); [done|]. by rewrite spine_forget_progress.
Qed.

Lemma moves_check_quorum n : moves n (check_quorum n).
Proof.
  unfold check_quorum. split_if; [reflexivity|]. bool_to_prop. set (m := age_staging _).
  assert (moves n m) as Hm.
  { etransitivity; [by apply moves_age_transfer|]. apply moves_spine, spine_age_staging. }
  etransitivity; [exact Hm|]. split_if; [|by apply moves_spine]. apply moves_demoted; try done; [by left|by left].
Qed.

Lemma spine_stage_member last_ n m : spine (stage_member last_ n m) = spine n.
Proof. unfold stage_member. by split_if. Qed.

Lemma moves_catch_up n target : moves n (catch_up n target).1.
Proof.
  unfold catch_up. split_if; [reflexivity|].
  match goal with |- context [foldl ?f n ?l] => set (m := foldl f n l) end.
  assert (spine m = spine n) as Hs.
  { apply spine_foldl. intros x y. by rewrite spine_forget_progress. }
  apply moves_spine. destruct (_ ≫= _); simpl; [exact Hs|].
  rewrite spine_foldl by (intros; apply spine_stage_member). exact Hs.
Qed.

Lemma spine_transfer_leadership n target : spine (transfer_leadership n target).1 = spine n.
Proof. unfold transfer_leadership. by repeat case_match. Qed.

Lemma moves_priority_transfer n alive : moves n (priority_transfer n alive).1.
Proof.
  unfold priority_transfer. split_if; [reflexivity|]. destruct (min_by _ _) as [[target p]|]; [|reflexivity].
  pose proof (spine_transfer_leadership n target) as Hs.
  destruct (transfer_leadership n target) as [m [|]]; simpl in *; by apply moves_spine.
Qed.

Lemma moves_on_timeout_now n invitation : moves n (on_timeout_now n invitation).1.
Proof.
  unfold on_timeout_now. split_if; [reflexivity|]. pose proof (moves_start_election quorum_ok (strict := strict) (granted := granted) n) as H.
  by destruct (start_election n) as [m [|]].
Qed.

Lemma moves_append_command n command : moves n (append_command n command).1.
Proof.
  unfold append_command. destruct (_ || _ || _ || _) eqn:E; [reflexivity|]. bool_to_prop. intros Hok.
  by apply moves_leader_append; [..|apply leader_positive| |apply command_entry_cfg|].
Qed.

(** A configuration the leader appends. *)
Lemma moves_configuration n c :
  is_leader n = true → recovering n = false → cfg_ok c →
  moves n (leader_append (n <| read_round := None |>) (configuration_entry (current_term n) c)).1.
Proof.
  intros Hl Hr Hc. apply (moves_trans _ (n <| read_round := None |>)); [by apply moves_spine|]. intros Hok.
  apply moves_leader_append; try done; [by apply (leader_positive (n <| read_round := None |>))|].
  by intros c' [= <-].
Qed.

(** What a membership change may ask for. *)
Definition change_ok (n : RaftNode) (new_voters : list HostId) : Prop :=
  new_voters ≠ [] → cfg_ok (mkVoterConfig (vc_voters (effective_config n)) (Some new_voters)).

Lemma moves_begin_membership_change n new_voters :
  change_ok n new_voters → moves n (begin_membership_change n new_voters).1.
Proof.
  intros Hc. unfold begin_membership_change.
  destruct (_ || _ || _ || _ || bool_decide (new_voters = []) || _ || _) eqn:E; [reflexivity|]. bool_to_prop.
  apply moves_configuration; try done. apply Hc. intros ->. by rewrite bool_decide_eq_true_2 in *.
Qed.

Lemma moves_complete_membership_change n :
  (∀ new_voters, vc_joint (effective_config n) = Some new_voters → cfg_ok (mkVoterConfig new_voters None)) →
  moves n (complete_membership_change n).1.
Proof.
  intros Hc. unfold complete_membership_change. destruct (vc_joint (effective_config n)) as [new|]; [|reflexivity].
  destruct (_ || _ || _) eqn:E; [reflexivity|]. bool_to_prop. apply moves_configuration; auto.
Qed.

Lemma moves_promote_caught_up n target :
  (∀ new_voters, new_voters `sublist_of` target → change_ok n new_voters) → moves n (promote_caught_up n target).1.
Proof.
  intros Hc. unfold promote_caught_up. split_if; [reflexivity|].
  apply moves_begin_membership_change, Hc, sublist_filter.
Qed.

Lemma moves_replicate_to n follower budget : moves n (replicate_to n follower budget).1.
Proof.
  unfold replicate_to. set (m := if recovering n then continue_recovery n else n).
  assert (moves n m) as Hm by (subst m; split_if; [apply moves_continue_recovery|reflexivity]).
  split_if; [done|]. etransitivity; [exact Hm|]. repeat split_if; by apply moves_spine.
Qed.

Lemma moves_open_fast_track n : moves n (open_fast_track n).1.
Proof.
  unfold open_fast_track. destruct (_ || _ || _ || _ || _ || _ || _) eqn:E; [reflexivity|]. bool_to_prop.
  intros [Hh Hl He]. split; [split|split].
  - by apply (hard_ok_hard n).
  - destruct Hl. split; node_simpl; try done. intros r Hr Hy. destruct (ok_recovery r Hr Hy). lia.
  - by apply (elect_ok_frame n).
  - by apply progresses_hard.
  - by right.
Qed.

Lemma moves_suspend n : moves n (suspend n).
Proof. apply moves_demoted; try done; [by left|by left]. Qed.

(** ** All of them *)

(** What an operation's input must satisfy. *)
Definition op_ok (n : RaftNode) (op : Op) : Prop :=
  match op with
  | Receive (MVoteReply reply) =>
      (admit_reports reply = Ok tt → ∀ r, r ∈ vr_reports reply → entry_cfg (ws_entry (sr_slot r)))
      ∧ (vr_granted reply = true → granted (vr_voter reply) (id n) (vr_term reply))
  | Receive (MAppend request) => admit_append n request = Ok tt → Forall entry_cfg (ae_entries request)
  | Receive (MSnapshot request) =>
      (admit_snapshot request = Ok tt → cfg_ok (is_config request))
      ∧ is_last_included_index request ≤ u64_max ∧ (strict → snapshot_agrees n request)
  | BeginMembershipChange new_voters => change_ok n new_voters
  | CompleteMembershipChange =>
      ∀ new_voters, vc_joint (effective_config n) = Some new_voters → cfg_ok (mkVoterConfig new_voters None)
  | PromoteCaughtUp target => ∀ new_voters, new_voters `sublist_of` target → change_ok n new_voters
  | _ => True
  end.

Lemma moves_receive n message : op_ok n (Receive message) → moves n (receive n message).1.
Proof.
  destruct message as [m|m|m|m|m|m|m|m|m|m|m]; intros Hop; unfold receive; cbn [op_ok] in Hop; cbn [fst].
  - pose proof (moves_on_pre_vote (strict := strict) (cfg_ok := cfg_ok) (granted := granted) (quorum := quorum) n m) as H.
    by destruct (on_pre_vote n m).
  - pose proof (moves_on_pre_vote_reply quorum_ok (strict := strict) (granted := granted) n m) as H. by destruct (on_pre_vote_reply n m).
  - pose proof (moves_on_request_vote (strict := strict) (cfg_ok := cfg_ok) (granted := granted) (quorum := quorum) n m) as H.
    by destruct (on_request_vote n m).
  - destruct Hop. by apply moves_on_vote_reply.
  - pose proof (moves_on_append_entries (strict := strict) (granted := granted) (quorum := quorum) n m Hop) as H.
    by destruct (on_append_entries n m).
  - apply moves_on_append_reply.
  - destruct Hop as (H1&H2&H3).
    pose proof (moves_on_install_snapshot (strict := strict) (granted := granted) (quorum := quorum) n m H1 H2 H3) as H.
    by destruct (on_install_snapshot n m).
  - apply moves_on_install_snapshot_reply.
  - pose proof (moves_on_fast_propose n m) as H. by destruct (on_fast_propose n m).
  - apply moves_on_fast_vote.
  - pose proof (moves_on_timeout_now n m) as H. by destruct (on_timeout_now n m).
Qed.

Lemma moves_op n op : op_ok n op → moves n (handle n op).1.
Proof.
  destruct op; intros Hop; unfold handle; cbn [op_ok] in Hop; cbn [fst]; try (by apply moves_spine).
  - pose proof (moves_election_timeout quorum_ok (strict := strict) (granted := granted) n) as H. by destruct (on_election_timeout n).
  - pose proof (moves_start_election quorum_ok (strict := strict) (granted := granted) n) as H. by destruct (start_election n).
  - apply moves_forget_leader.
  - apply moves_observe_term.
  - apply moves_suspend.
  - by apply moves_receive.
  - pose proof (moves_decline_snapshot (strict := strict) (cfg_ok := cfg_ok) (granted := granted) (quorum := quorum) n request) as H.
    by destruct (decline_snapshot n request).
  - apply moves_append_command.
  - apply moves_open_fast_track.
  - apply moves_spine. unfold propose_fast. destruct (_ || _); [done|]. by destruct (checked_add _ _).
  - apply moves_check_quorum.
  - apply moves_catch_up.
  - by apply moves_promote_caught_up.
  - apply moves_priority_transfer.
  - apply moves_spine, spine_transfer_leadership.
  - apply moves_spine. unfold take_timeout_now. destruct (active_transfer n); [|done].
    by destruct (tf_invited _); [|destruct (_ <? _)].
  - apply moves_spine. unfold begin_read. destruct (_ || _); [done|]. by destruct (checked_add _ _).
  - apply moves_spine. unfold read_index. destruct (read_round n); [|done]. by destruct (_ || _).
  - apply moves_spine. unfold cancel_read. by split_if.
  - by apply moves_begin_membership_change.
  - by apply moves_complete_membership_change.
  - pose proof (moves_replicate_to n follower budget) as H. by destruct (replicate_to n follower budget).
  - apply moves_compact.
Qed.
End ops.
