(* ===== verification/RaftSaved.v ===== *)
(** * What a Raft node retains

    The invariant of [RaftInv] at the configurations [SavedRaft::validate]
    accepts: what a node retains validates and restores to the same state when
    the snapshots it installed agreed with its commits ([reachable]); and of
    any node, whatever its inputs ([reached]), no operation changes what it
    retains without raising the retention flag or undoes what it promises. *)

From S2P Require Import Prelude RaftState RaftLog RaftElect RaftReplicate RaftFast RaftAdmin RaftInv RaftAppend RaftOps.
#[local] Open Scope N_scope.

(** ** Validation *)
Lemma window_reports_index (w : gmap N WindowSlot) : map sr_index (window_reports w) = bt_keys w.
Proof. unfold window_reports, bt_keys. rewrite map_map. done. Qed.
Lemma elem_of_window_reports (w : gmap N WindowSlot) r : r ∈ window_reports w → w !! sr_index r = Some (sr_slot r).
Proof. unfold window_reports. intros ([i s]&->&H%elem_of_bt_list)%list_elem_of_fmap. done. Qed.

(** The committed prefix inside the log is all that separates the invariant from the one of nodes whose snapshots
    agree. *)
Section strictness.
Context {strict : Prop} {cfg_ok : VoterConfig → Prop}.

Lemma hard_ok_strict n :
  hard_ok strict cfg_ok n → commit_index n ≤ snapshot_index n + len (log n) → hard_ok True cfg_ok n.
Proof. by intros [] ?; split. Qed.
Lemma hard_ok_weaken n : hard_ok True cfg_ok n → hard_ok strict cfg_ok n.
Proof. intros []; split; try done. intros _. by apply ok_commit_end. Qed.

Lemma validated_strict n : hard_ok strict cfg_ok n → validate (saved n) = Ok tt → hard_ok True cfg_ok n.
Proof.
  intros Hh Hv. apply (hard_ok_strict n Hh). pose proof (ok_range _ Hh). revert Hv. unfold validate.
  do 2 (split_if; [done|]). unfold saved. cbn [s_snapshot_index s_log s_commit_index].
  rewrite (proj2 (checked_add_some _ _ _)) by (by split; [|done]). cbn. split_if; [done|]. intros _. by bool_to_prop.
Qed.

Lemma restored_ok granted quorum n :
  hard_ok strict cfg_ok n → role n = Follower → reports n = ∅ → recovery n = None →
  node_ok strict cfg_ok granted quorum n.
Proof.
  intros Hh Hr Hp Hy. split; [done| |].
  - split; rewrite ?Hr, ?Hp, ?Hy; try done; try (by intros [|]).
  - apply elect_ok_quiet. by left.
Qed.

(** A new node of the group. *)
Lemma node_new_ok granted quorum me voters :
  cfg_ok (mkVoterConfig voters None) → node_ok strict cfg_ok granted quorum (node_new me voters).
Proof.
  intros Hc. apply restored_ok; try done. split; try done; unfold node_new; node_simpl; try done; try (simpl; lia).
  intros i _. unfold config_at. rewrite entry_at_eq. unfold lookup_at. split; [set_solver|]. by split_if; intros [].
Qed.
End strictness.

Section validity.
Context {cfg_ok : VoterConfig → Prop} (cfg_valid : ∀ c, cfg_ok c → valid_config c = true).

Lemma validate_saved n : hard_ok True cfg_ok n → validate (saved n) = Ok tt.
Proof.
  intros Hh. unfold validate, saved. simpl. rewrite (cfg_valid _ (ok_base _ Hh)). simpl.
  assert (((snapshot_index n =? 0) && (negb (snapshot_term n =? 0) || negb (bool_decide (snapshot_data n = []))))
    || ((0 <? snapshot_index n) && (snapshot_term n =? 0)) || (current_term n <? snapshot_term n) = false) as ->.
  { destruct Hh. rewrite (proj2 (N.ltb_ge (current_term n) _)) by done. rewrite orb_false_r. apply orb_false_iff. split.
    - destruct (snapshot_index n =? 0) eqn:E; [|done]. bool_to_prop. destruct (ok_origin E) as [-> ->]. done.
    - destruct (0 <? snapshot_index n) eqn:E; [|done]. bool_to_prop. simpl. apply N.eqb_neq. specialize (ok_boundary E). lia. }
  assert (checked_add (snapshot_index n) (len (log n)) = Some (snapshot_index n + len (log n))) as ->.
  { apply checked_add_some. split; [done|apply Hh]. }
  simpl. rewrite (proj2 (N.ltb_ge _ _)) by apply (ok_commit_base _ Hh).
  rewrite (proj2 (N.ltb_ge _ _)) by apply (ok_commit_end _ Hh I). simpl.
  rewrite (proj2 (validate_entries_ok _ _ _)).
  2:{ split; [apply Hh|]. pose proof (ok_cfgs _ Hh) as Hf. eapply Forall_impl; [exact Hf|]. intros e He.
      unfold entry_config_valid. destruct (le_config e) as [c|] eqn:Ec; simpl; [|done]. by apply cfg_valid, He. }
  simpl. unfold validate_window. simpl. rewrite (proj2 (N.leb_le _ _)) by apply Hh.
  rewrite bool_decide_eq_true_2 by (rewrite window_reports_index; apply NoDup_bt_keys).
  rewrite (proj2 (List.forallb_forall _ _)); [done|]. intros r Hr%list_elem_of_In%elem_of_window_reports.
  apply (ok_window _ Hh) in Hr as (?&?&_). apply andb_true_iff. rewrite N.ltb_lt, N.leb_le. done.
Qed.

End validity.

Section restored.
Context {cfg_ok : VoterConfig → Prop}.

(** The entry loop of a restore. *)
Lemma push_all_spec es n :
  snapshot_index n + len (log n) + len es ≤ u64_max →
  ∃ n', push_all n es = Ok n' ∧ log n' = log n ++ es ∧ window_budget n' = window_budget n
    ∧ (∀ i, i ∈ config_entries n' ↔ i ∈ config_entries n
         ∨ is_Some (lookup_at (snapshot_index n + len (log n)) es i ≫= le_config))
    ∧ n' = n <| log := log n' |> <| config_entries := config_entries n' |> <| log_bytes_held := log_bytes_held n' |>.
Proof.
  revert n. induction es as [|e es IH]; intros n Hr; simpl.
  { exists n. rewrite app_nil_r. split_and!; try done. intros i. unfold lookup_at. split; [by left|].
    intros [?|[? H]]; [done|]. by split_if. }
  rewrite len_cons in Hr. unfold push_entry, last_log_index. rewrite sat_add_small by lia.
  unfold checked_add. rewrite (proj2 (N.leb_le _ _)) by lia.
  match goal with |- ∃ n', push_all ?x es = _ ∧ _ => set (m := x) end.
  assert (log m = log n ++ [e] ∧ snapshot_index m = snapshot_index n) as [El Es] by (subst m; by split_if).
  destruct (IH m) as (m'&Hp&El'&Ew'&Hc'&Em').
  { rewrite El, Es, len_app, len_cons, len_nil. lia. }
  exists m'. split_and!; [done| | | |].
  - by rewrite El', El, <- app_assoc.
  - rewrite Ew'. subst m. by split_if.
  - intros i. rewrite Hc', El, Es, len_app, len_cons, len_nil.
    assert (i ∈ config_entries m ↔ i ∈ config_entries n ∨ (i = snapshot_index n + len (log n) + 1 ∧ is_Some (le_config e))) as ->.
    { subst m. case_bool_decide as Hs; node_simpl; [set_solver|]. tauto. }
    unfold lookup_at. destruct (N.le_gt_cases i (snapshot_index n + len (log n))) as [?|?].
    + rewrite !(proj2 (N.leb_le _ _)) by lia. simpl. intuition (try lia).
    + rewrite (proj2 (N.leb_gt i (snapshot_index n + len (log n)))) by lia. destruct (decide (i = snapshot_index n + len (log n) + 1)) as [->|].
      * rewrite (proj2 (N.leb_le _ _)) by lia. replace (N.to_nat _) with 0%nat by lia. simpl.
        split; [|naive_solver]. intros [[?|[_ ?]]|[? ?]]; auto; done.
      * rewrite (proj2 (N.leb_gt _ _)) by lia.
        replace (N.to_nat (i - (snapshot_index n + len (log n)) - 1))
          with (S (N.to_nat (i - (snapshot_index n + (len (log n) + (1 + 0))) - 1))) by lia. simpl. tauto.
  - rewrite Em' at 1. subst m. by split_if.
Qed.

Lemma bt_collect_reports (w : gmap N WindowSlot) :
  bt_collect (map (λ r, (sr_index r, sr_slot r)) (window_reports w)) = w.
Proof.
  unfold window_reports. rewrite map_map. simpl.
  replace (map _ (bt_list w)) with (bt_list w); [apply bt_collect_bt_list|].
  symmetry. erewrite map_ext; [apply map_id|]. by intros [].
Qed.

(** A restore reads back what was retained, and indexes its configurations exactly. *)
Lemma restore_valid n : hard_ok True cfg_ok n → validate (saved n) = Ok tt →
  ∃ n', restore (saved n) = Ok n' ∧ saved n' = saved n ∧ hard_ok True cfg_ok n'
    ∧ (last_log_index n < u64_max → config_entries n' = config_entries n)
    ∧ role n' = Follower ∧ votes n' = ∅ ∧ reports n' = ∅ ∧ recovery n' = None ∧ retention_pending n' = true.
Proof.
  intros Hh Hval. unfold restore. rewrite Hval. simpl.
  match goal with |- context [push_all ?x _] => set (m := x) end.
  destruct (push_all_spec (log n) m) as (m'&Hp&El&_&Hc&Em).
  { change (snapshot_index n + 0 + len (log n) ≤ u64_max). rewrite N.add_0_r. apply Hh. }
  change (snapshot_index m + len (log m)) with (snapshot_index n + 0) in Hc. rewrite N.add_0_r in Hc.
  change (config_entries m) with (∅ : gset N) in Hc. change (log m) with (@nil LogEntry) in El.
  rewrite Hp. cbn. eexists. split; [done|].
  match goal with |- saved ?x = _ ∧ _ => set (n' := x) end.
  assert (log n' = log n) as Eln by (subst n'; node_simpl; by rewrite El).
  assert (∀ i, i ∈ config_entries n' ↔ is_Some (lookup_at (snapshot_index n) (log n) i ≫= le_config)) as Hci.
  { intros i. subst n'. node_simpl. rewrite Hc. set_solver. }
  assert (saved n' = saved n) as Hsv.
  { subst n'. unfold saved, base_config. node_simpl. rewrite Em. unfold m, node_new. node_simpl. rewrite El. simpl.
    by rewrite bt_collect_reports. }
  assert (base_config n' = base_config n) as E2 by exact (f_equal s_base Hsv).
  assert (current_term n' = current_term n) as E3 by exact (f_equal s_term Hsv).
  assert (commit_index n' = commit_index n) as E6 by exact (f_equal s_commit_index Hsv).
  assert (snapshot_index n' = snapshot_index n) as E7 by exact (f_equal s_snapshot_index Hsv).
  assert (snapshot_term n' = snapshot_term n) as E8 by exact (f_equal s_snapshot_term Hsv).
  assert (snapshot_data n' = snapshot_data n) as E9 by exact (f_equal s_snapshot_data Hsv).
  assert (synced_term n' = synced_term n) as E11 by exact (f_equal s_synced_term Hsv).
  assert (window n' = window n) as Ew by (subst n'; node_simpl; simpl; apply bt_collect_reports).
  split_and!; [done|..].
  - destruct Hh. split; rewrite ?E3, ?Eln, ?E6, ?E7, ?E8, ?E9, ?Ew, ?E11; try done.
    + by rewrite E2.
    + intros i ?. rewrite Hci. unfold config_at. by rewrite entry_at_eq, Eln, E7.
    + intros i Hi Hle. apply Hci in Hi as [c Hi]. unfold lookup_at in Hi.
      rewrite (proj2 (N.leb_le _ _)) in Hi by done. done.
  - intros Hlast. apply set_eq. intros i. rewrite Hci. rewrite last_log_index_eq in Hlast by done.
    destruct (N.le_gt_cases i (snapshot_index n)) as [Hi|Hi].
    + split.
      * unfold lookup_at. rewrite (proj2 (N.leb_le _ _)) by done. by intros [].
      * intros Hin. pose proof (ok_stale _ Hh i Hin Hi). lia.
    + rewrite (ok_index _ Hh i Hi). unfold config_at. by rewrite entry_at_eq.
  - subst n'. node_simpl. rewrite Em. done.
  - subst n'. node_simpl. rewrite Em. done.
  - subst n'. node_simpl. rewrite Em. done.
  - subst n'. node_simpl. rewrite Em. done.
  - subst n'. node_simpl. rewrite Em. done.
Qed.

(** A restart that is accepted comes back to what was retained, the committed prefix inside the log. *)
Lemma restored_from strict n n' : hard_ok strict cfg_ok n → restore (saved n) = Ok n' →
  saved n' = saved n ∧ hard_ok True cfg_ok n'
  ∧ role n' = Follower ∧ reports n' = ∅ ∧ recovery n' = None ∧ retention_pending n' = true.
Proof.
  intros Hh Hr. assert (validate (saved n) = Ok tt) as Hv.
  { unfold restore in Hr. by destruct (validate (saved n)) as [[]|]. }
  destruct (restore_valid n (validated_strict n Hh Hv) Hv) as (m&Hm&?&?&_&?&_&?&?&?). rewrite Hr in Hm.
  by injection Hm as ->.
Qed.

End restored.

(** ** Reachable nodes *)

(** What the callers of an operation provide: a snapshot that agrees with the committed prefix, and voter
    sets without repeats. *)
Definition input_ok (n : RaftNode) (op : Op) : Prop :=
  match op with
  | Receive (MSnapshot request) => is_last_included_index request ≤ u64_max ∧ snapshot_agrees n request
  | BeginMembershipChange target | PromoteCaughtUp target => NoDup target
  | _ => True
  end.

Inductive reachable : RaftNode → Prop :=
| reach_new me voters : valid_set voters = true → reachable (node_new me voters)
| reach_op n op : reachable n → input_ok n op → reachable (handle n op).1
| reach_retained n : reachable n → reachable (retained n)
| reach_restart n n' : reachable n → restore (saved n) = Ok n' → reachable n'.

Definition config_valid (c : VoterConfig) : Prop := valid_config c = true.
Definition valid_node : RaftNode → Prop := node_ok True config_valid (λ _ _ _, True) (λ _, True).

Lemma entry_config_valid_cfg e : entry_config_valid e = true → entry_cfg config_valid e.
Proof. unfold entry_config_valid. intros H c Hc. by rewrite Hc in H. Qed.

Lemma admit_reports_cfg reply : admit_reports reply = Ok tt →
  ∀ r, r ∈ vr_reports reply → entry_cfg config_valid (ws_entry (sr_slot r)).
Proof.
  unfold admit_reports. generalize (∅ : gset N). induction (vr_reports reply) as [|r l IH]; intros seen H x Hx; [set_solver|].
  cbn [admit_report_loop] in H. destruct (_ || _ || _); [done|]. apply bind_ok in H as ([]&He&H).
  apply admit_entries_ok in He as [_ He]. apply Forall_cons in He as [He _].
  apply elem_of_cons in Hx as [->|Hx]; [by apply entry_config_valid_cfg|by eapply IH].
Qed.


Lemma change_ok_valid n target : valid_node n → NoDup target → change_ok (cfg_ok := config_valid) n target.
Proof.
  intros Hok Hnd Hne. pose proof (effective_config_cfg n (ok_hard _ Hok)) as Hc. unfold config_valid, valid_config in *.
  simpl. apply andb_true_iff in Hc as [-> _]. unfold valid_set. rewrite bool_decide_eq_false_2, bool_decide_eq_true_2; done.
Qed.

(** The callers' promises are all the invariant needs at these configurations. *)
Lemma input_op_ok n op : valid_node n → input_ok n op →
  op_ok (strict := True) (cfg_ok := config_valid) (granted := λ _ _ _, True) n op.
Proof.
  intros Hok Hin. destruct op as [| | | | | | | |message| | | | | | | |target| | | | | | |target| | | |]; simpl in *; try done.
  - destruct message; simpl in *; try done.
    + split; [apply admit_reports_cfg|done].
    + unfold admit_append. destruct (ae_term m =? 0); [done|]. destruct (_ || _); [done|].
      intros ([]&He&_)%bind_ok. apply admit_entries_ok in He as [_ He].
      eapply Forall_impl; [exact He|]. apply entry_config_valid_cfg.
    + destruct Hin. split_and!; try done. unfold admit_snapshot, config_valid. destruct (_ =? _); [done|].
      destruct (_ || _); [done|]. by destruct (valid_config _).
  - intros l Hl. apply change_ok_valid; [done|]. by eapply sublist_NoDup.
  - by apply change_ok_valid.
  - intros l Hl. pose proof (effective_config_cfg n (ok_hard _ Hok)) as Hc. unfold config_valid, valid_config in *.
    rewrite Hl in Hc. simpl in *. apply andb_true_iff in Hc as [_ ->]. done.
Qed.

Lemma moves_input n op : valid_node n → input_ok n op →
  valid_node (handle n op).1 ∧ progresses True n (handle n op).1 ∧ tracks n (handle n op).1.
Proof. intros Hok Hin. apply moves_op; [done|by apply input_op_ok|done]. Qed.

Lemma reachable_valid n : reachable n → valid_node n.
Proof.
  induction 1 as [me voters Hv|n op _ IH Hin|n _ IH|n n' _ IH Hr].
  - apply node_new_ok. change (valid_set voters && true = true). by rewrite Hv.
  - by apply moves_input.
  - destruct IH. split; [by apply (hard_ok_hard n)|by apply (lead_ok_frame n)|by apply (elect_ok_frame n)].
  - destruct (restored_from True n n' (ok_hard _ IH) Hr) as (_&?&?&?&?&_). by apply restored_ok.
Qed.

(** A run of operations, and what their callers provide along it. *)
Definition run (n : RaftNode) (ops : list Op) : RaftNode := foldl (λ m op, (handle m op).1) n ops.
Fixpoint inputs_ok (n : RaftNode) (ops : list Op) : Prop :=
  match ops with
  | [] => True
  | op :: ops => input_ok n op ∧ inputs_ok (handle n op).1 ops
  end.

Lemma reachable_run n ops : reachable n → inputs_ok n ops → reachable (run n ops).
Proof.
  revert n. induction ops as [|op ops IH]; intros n Hn Hin; [done|]. destruct Hin as [Hop Hin].
  apply IH; [by apply reach_op|done].
Qed.

(** *** Whatever a node is given *)

(** A message's index is a [u64]. *)
Definition input_sized (op : Op) : Prop :=
  match op with Receive (MSnapshot request) => is_last_included_index request ≤ u64_max | _ => True end.

(** A node that came about by any operations at all: messages of any content, voter sets of any shape, snapshots
    that need not agree with anything. *)
Inductive reached : RaftNode → Prop :=
| reached_new me voters : reached (node_new me voters)
| reached_op n op : reached n → input_sized op → reached (handle n op).1
| reached_retained n : reached n → reached (retained n)
| reached_restart n n' : reached n → restore (saved n) = Ok n' → reached n'.

(** The snapshots along a run agree with what the node had committed. *)
Fixpoint snapshots_agree (n : RaftNode) (ops : list Op) : Prop :=
  match ops with
  | [] => True
  | op :: ops =>
      match op with Receive (MSnapshot request) => snapshot_agrees n request | _ => True end
      ∧ snapshots_agree (handle n op).1 ops
  end.

Definition any_node (strict : Prop) : RaftNode → Prop :=
  node_ok strict (λ _, True) (λ _ _ _, True) (λ _, True).

Lemma any_op_ok strict n op : input_sized op →
  (strict → match op with Receive (MSnapshot request) => snapshot_agrees n request | _ => True end) →
  op_ok (strict := strict) (cfg_ok := λ _, True) (granted := λ _ _ _, True) n op.
Proof.
  intros Hin Hag. destruct op as [| | | | | | | |message| | | | | | | | | | | | | | | | | | |]; try done.
  - destruct message as [| | | |m| | | | | |]; try done.
    intros _. apply List.Forall_forall. by intros e _ c.
Qed.
Lemma moves_any strict n op : input_sized op →
  (strict → match op with Receive (MSnapshot request) => snapshot_agrees n request | _ => True end) →
  any_node strict n →
  any_node strict (handle n op).1 ∧ progresses strict n (handle n op).1 ∧ tracks n (handle n op).1.
Proof. intros Hin Hag. by apply moves_op; [|apply any_op_ok]. Qed.

Lemma reached_any n : reached n → any_node False n.
Proof.
  induction 1 as [me voters|n op _ IH Hin|n _ IH|n n' _ IH Hr].
  - by apply node_new_ok.
  - by apply moves_any.
  - destruct IH. split; [by apply (hard_ok_hard n)|by apply (lead_ok_frame n)|by apply (elect_ok_frame n)].
  - destruct (restored_from False n n' (ok_hard _ IH) Hr) as (_&?&?&?&?&_). by apply restored_ok; [apply hard_ok_weaken|..].
Qed.

Lemma run_any strict n ops : any_node strict n → Forall input_sized ops → (strict → snapshots_agree n ops) →
  any_node strict (run n ops) ∧ progresses strict n (run n ops) ∧ tracks n (run n ops).
Proof.
  revert n. induction ops as [|op ops IH]; intros n Hok Hin Hag; simpl in *; [by split_and!|].
  apply Forall_cons in Hin as [Hop Hin].
  destruct (moves_any strict n op Hop) as (Hok'&?&?); [intros Hst; by apply Hag|done|].
  destruct (IH _ Hok' Hin) as (?&?&?); [intros Hst; by apply Hag|].
  split_and!; [done|by transitivity (handle n op).1..].
Qed.

(** The configuration in force is read from the retained state and the index of its configurations. *)
Lemma effective_config_saved n n' :
  saved n' = saved n → config_entries n' = config_entries n → effective_config n' = effective_config n.
Proof.
  intros Hs Hc. assert (log n' = log n) as El by exact (f_equal s_log Hs).
  assert (snapshot_index n' = snapshot_index n) as Ex by exact (f_equal s_snapshot_index Hs).
  assert (base_config n' = base_config n) as Eb by exact (f_equal s_base Hs).
  unfold effective_config. rewrite Hc, Eb. destruct (last_elem _) as [i|]; [|done]. cbn.
  unfold config_at. by rewrite !entry_at_eq, El, Ex.
Qed.

(** ** Properties *)

(** C34. What a node retains validates, and a restart from it is accepted and comes back to the same retained
    state: however its log was truncated, compacted, recovered or extended on the fast track, its published state
    does not refuse to start.  The node is one whose callers kept two promises the code does not check itself: each
    snapshot it installed agrees with what it had committed, and no voter set it was asked to change to repeats a
    host.  The voter configuration in force comes back too, unless the log ends at the largest index. *)
Theorem reachable_restores n :
  reachable n → validate (saved n) = Ok tt
  ∧ ∃ n', restore (saved n) = Ok n' ∧ saved n' = saved n
      ∧ (last_log_index n < u64_max → effective_config n' = effective_config n).
Proof.
  intros Hh%reachable_valid%ok_hard. split; [by apply (validate_saved (λ c H, H))|].
  destruct (restore_valid n Hh (validate_saved (λ c H, H) n Hh)) as (n'&Hr&Hs&_&Hc&_).
  exists n'. split_and!; try done. intros Hlt. apply effective_config_saved; auto.
Qed.

(** C35. No operation takes back what a node promised.  Over any run of operations, on a node that came about by
    any operations, restarts included, whatever the messages hold: the term never falls, a vote cast in a term is
    never recast, and neither the commit index nor the snapshot falls.  Where moreover the node's log covers what it
    has committed and every snapshot it installs along the run agrees with that, every committed entry above the
    snapshot stays at its index. *)
Theorem run_promises n ops :
  reached n → Forall input_sized ops →
  current_term n ≤ current_term (run n ops)
  ∧ (current_term (run n ops) = current_term n → ∀ v, voted_for n = Some v → voted_for (run n ops) = Some v)
  ∧ commit_index n ≤ commit_index (run n ops)
  ∧ snapshot_index n ≤ snapshot_index (run n ops)
  ∧ (commit_index n ≤ last_log_index n → snapshots_agree n ops →
     ∀ i, snapshot_index (run n ops) < i → i ≤ commit_index n → entry_at (run n ops) i = entry_at n i).
Proof.
  intros Hn%reached_any Hops. destruct (run_any False n ops Hn Hops) as (_&[]&_); [done|]. split_and!; try done.
  intros Hc Hag. destruct (run_any True n ops) as (_&[]&_); [|done..|by auto].
  destruct Hn as [Hh Hl He]. split; [|done..]. apply (hard_ok_strict n Hh). by rewrite <- (last_log_index_eq n Hh).
Qed.

(** The retention flag misses nothing: a node whose flag is still clear after any run of
    operations retains exactly what it retained before the run, so the state already published is its
    state and replies may be released. *)
Theorem run_retention n ops :
  reached n → Forall input_sized ops → retention_pending (run n ops) = false →
  retention_pending n = false ∧ saved (run n ops) = saved n.
Proof.
  intros Hn%reached_any Hops Hf. destruct (run_any False n ops Hn Hops) as (_&_&[?|[??]]); [done|congruence|].
  split; congruence.
Qed.

(** ** Witnesses *)
Definition sample_command : bytes := as_bytes "set".
Definition lone_leader : RaftNode := run (node_new 1 [1]) [StartElection; AppendCommand sample_command].
Lemma lone_leader_reachable : reachable lone_leader.
Proof. apply reachable_run; [by apply reach_new|repeat split]. Qed.

Definition sample_vote : Op := Receive (MRequestVote (mkRequestVote 3 2 0 0)).
Definition sample_snapshot : Op :=
  Receive (MSnapshot (mkInstallSnapshot 4 2 5 3 (mkVoterConfig [1; 2; 3] None) sample_command)).

Lemma reachable_restores_witness :
  commit_index lone_leader = 1 ∧ is_leader lone_leader = true ∧ validate (saved lone_leader) = Ok tt
  ∧ ∃ n', restore (saved lone_leader) = Ok n' ∧ saved n' = saved lone_leader
      ∧ effective_config n' = mkVoterConfig [1] None.
Proof.
  destruct (reachable_restores lone_leader lone_leader_reachable) as (Hv&n'&Hr&Hs&He).
  split_and!; [vm_compute; reflexivity..|]. exists n'. split_and!; [exact Hr|exact Hs|].
  rewrite He; vm_compute; reflexivity.
Defined.

Lemma run_promises_witness :
  let n := run (node_new 1 [1; 2; 3]) [sample_vote] in
  voted_for n = Some 2 ∧ voted_for (run n [sample_vote; CheckQuorum; sample_vote]) = Some 2.
Proof.
  split; [vm_compute; reflexivity|].
  apply (run_promises (run (node_new 1 [1; 2; 3]) [sample_vote]) [sample_vote; CheckQuorum; sample_vote]).
  - apply (reached_op (node_new 1 [1; 2; 3]) sample_vote); [apply reached_new|exact I].
  - repeat constructor.
  - vm_compute. reflexivity.
  - vm_compute. reflexivity.
Defined.

Lemma run_retention_witness :
  let n := retained (node_new 1 [1; 2; 3]) in
  saved (run n [CheckQuorum; ElectionTimeout; ForgetLeader; Receive (MPreVote (mkPreVote 1 2 0 0))]) = saved n
  ∧ retention_pending (run n [sample_vote]) = true ∧ retention_pending (run n [sample_snapshot]) = true.
Proof.
  split; [|vm_compute; split; reflexivity].
  apply run_retention; [by apply reached_retained, reached_new|by repeat constructor|vm_compute; reflexivity].
Defined.
