(* ===== verification/RaftQuorum.v ===== *)
(** * Quorums of a Raft group

    The counting behind [crates/cluster/src/raft.rs]'s decisions: two
    majorities meet, the commit rule's sorted match indices find exactly what
    a majority holds, and a value a fast quorum chose is the one any classic
    quorum's reports recover. *)

From S2P Require Import Prelude RaftState RaftLog RaftElect RaftFast.
#[local] Open Scope N_scope.

(** ** Majorities *)
Lemma half_lt a b : a / 2 < b ↔ a < 2 * b.
Proof.
  pose proof (N.div_mod a 2 ltac:(done)). pose proof (N.mod_upper_bound a 2 ltac:(done)).
  generalize dependent (a / 2). generalize dependent (a mod 2). intros. lia.
Qed.

Lemma filter_overlap {A} (P Q : A → Prop) `{!∀ x, Decision (P x), !∀ x, Decision (Q x)} (l : list A) :
  (length (filter P l) + length (filter Q l) ≤ length l + length (filter (λ x, P x ∧ Q x) l))%nat.
Proof. induction l as [|x l IH]; simpl; [done|]. rewrite !filter_cons. repeat case_decide; simpl; try tauto; lia. Qed.

Lemma carries_meet g1 g2 set :
  carries g1 set = true → carries g2 set = true → ∃ v, v ∈ set ∧ v ∈ g1 ∧ v ∈ g2.
Proof.
  unfold carries. intros H1%N.ltb_lt%half_lt H2%N.ltb_lt%half_lt. pose proof (filter_overlap (λ v, v ∈ g1) (λ v, v ∈ g2) set) as Ho.
  destruct (filter (λ x, x ∈ g1 ∧ x ∈ g2) set) as [|v l] eqn:E.
  - exfalso. apply (f_equal length) in E. simpl in E. unfold len in *. lia.
  - assert (v ∈ filter (λ x, x ∈ g1 ∧ x ∈ g2) set) as Hv by (rewrite E; set_solver).
    apply list_elem_of_filter in Hv as [[] ?]. eauto.
Qed.

Lemma majorities_meet c g1 g2 :
  config_majority c g1 = true → config_majority c g2 = true → ∃ v, v ∈ vc_voters c ∧ v ∈ g1 ∧ v ∈ g2.
Proof. unfold config_majority. intros [H1 _]%andb_true_iff [H2 _]%andb_true_iff. by apply carries_meet. Qed.

(** ** The commit rule *)

(** In descending order, the element at a place is at least [i] when more than that many are. *)
Lemma sorted_count (l : list N) (i : N) (k : nat) : StronglySorted (λ a b, (b <=? a) = true) l →
  i ≤ default 0 (l !! k) ↔ i = 0 ∨ (k < length (filter (N.le i) l))%nat.
Proof.
  intros Hs. revert k. induction Hs as [|x l Hs IH Hall]; intros k.
  - rewrite lookup_nil. simpl. lia.
  - rewrite filter_cons. destruct (N.le_gt_cases i x) as [Hi|Hi].
    + rewrite decide_True by done. destruct k as [|k]; simpl; [lia|]. rewrite IH. lia.
    + rewrite decide_False by lia. assert (filter (N.le i) l = []) as Hnone.
      { apply filter_none. intros y Hy. rewrite Forall_forall in Hall. specialize (Hall y Hy). bool_to_prop. lia. }
      rewrite Hnone. destruct k as [|k]; simpl; [lia|]. rewrite IH, Hnone. simpl. lia.
Qed.

Lemma held_by_majority_exact (matches : list N) (i : N) :
  0 < i → i ≤ held_by_majority matches ↔ len matches / 2 < len (filter (N.le i) matches).
Proof.
  intros Hi. unfold held_by_majority. rewrite sorted_count.
  2:{ apply sort_by_sorted; intros; rewrite !N.leb_le in *; lia. }
  assert (length (filter (N.le i) (sort_by (λ a b, b <=? a) matches)) = length (filter (N.le i) matches)) as ->
    by (by rewrite (sort_by_perm (λ a b, b <=? a) matches)).
  unfold len. rewrite <- (Nat2N.inj_div _ 2). lia.
Qed.

(** The voters whose logs reach an index, as the leader tracks them. *)
Definition holders (n : RaftNode) (config : VoterConfig) (i : N) : gset HostId :=
  filter (λ v, i ≤ match_of n v) (config_members config).

Lemma count_holders n config set i :
  (∀ v, v ∈ set → v ∈ config_members config) →
  length (filter (λ v, v ∈ holders n config i) set) = length (filter (N.le i) (map (match_of n) set)).
Proof.
  induction set as [|v set IH]; intros Hs; simpl; [done|]. rewrite !filter_cons.
  assert (v ∈ holders n config i ↔ i ≤ match_of n v) as Hv.
  { unfold holders. rewrite elem_of_filter. split; [by intros []|]. split; [done|]. apply Hs. set_solver. }
  repeat case_decide; try tauto; simpl; rewrite IH; set_solver.
Qed.
Lemma carries_holders n config set i :
  0 < i → (∀ v, v ∈ set → v ∈ config_members config) →
  i ≤ held_by_majority (map (match_of n) set) ↔ carries (holders n config i) set = true.
Proof.
  intros Hi Hs. rewrite held_by_majority_exact by done. unfold carries, len. rewrite N.ltb_lt, count_holders, length_map by done.
  done.
Qed.

(** The commit rule finds exactly what a majority holds: an index is at or below the leader's quorum
    match when, in every voter set of the configuration in force, a majority of the voters hold it. *)
Theorem quorum_match_exact n i :
  0 < i → i ≤ quorum_match n ↔
    config_majority (effective_config n) (holders n (effective_config n) i) = true.
Proof.
  intros Hi. unfold quorum_match, config_majority. set (c := effective_config n).
  rewrite andb_true_iff, <- carries_holders; [|done|].
  2:{ intros v Hv. unfold config_members. set_solver. }
  destruct (vc_joint c) as [new|] eqn:Ej; simpl; [|tauto].
  rewrite <- (carries_holders n c new); [lia|done|].
  intros v Hv. unfold config_members. rewrite Ej. set_solver.
Qed.

(** ** Fast quorums *)

(** A group small enough for its counts to be words. *)
Definition small (voters : N) : Prop := 4 * voters < u64_max.

Lemma fast_enough_iff voters fast :
  small voters → fast ≤ voters → fast_enough voters fast = true ↔ 2 * voters < 2 * fast + (voters / 2 + 1).
Proof.
  unfold small. intros Hs Hf. assert (voters / 2 ≤ voters) by (apply N.Div0.div_le_upper_bound; lia).
  unfold fast_enough, sat_mul, sat_add, sat_sub. rewrite N.ltb_lt. lia.
Qed.

Lemma find_seq (f : N → bool) (a k : nat) : (∃ i, (a ≤ i < a + k)%nat ∧ f (N.of_nat i) = true) →
  ∃ i, List.find f (N.of_nat <$> seq a k) = Some (N.of_nat i) ∧ (a ≤ i < a + k)%nat ∧ f (N.of_nat i) = true
    ∧ ∀ j, (a ≤ j < i)%nat → f (N.of_nat j) = false.
Proof.
  revert a. induction k as [|k IH]; intros a (i&Hi&Hf); [lia|]. simpl. destruct (f (N.of_nat a)) eqn:Ea.
  - exists a. split_and!; [done|lia|lia|done|lia].
  - destruct (IH (S a)) as (j&Hj&?&?&Hlt).
    { exists i. split; [|done]. assert (i ≠ a) by congruence. lia. }
    exists j. split_and!; [done|lia|lia|done|]. intros x ?. destruct (decide (x = a)) as [->|]; [done|]. apply Hlt. lia.
Qed.

(** The least size whose double with a classic majority exceeds twice the voters. *)
Lemma fast_quorum_least voters : 0 < voters → small voters →
  fast_quorum voters ≤ voters ∧ 2 * voters < 2 * fast_quorum voters + (voters / 2 + 1)
  ∧ ∀ fast, 0 < fast → fast < fast_quorum voters → 2 * fast + (voters / 2 + 1) ≤ 2 * voters.
Proof.
  intros H0 Hs. unfold fast_quorum.
  destruct (find_seq (fast_enough voters) 1 (N.to_nat voters)) as (i&->&Hi&Hf&Hmin).
  { exists (N.to_nat voters). split; [lia|]. rewrite N2Nat.id. apply fast_enough_iff; [done|lia|].
    pose proof (N.le_0_l (voters / 2)). lia. }
  simpl. apply fast_enough_iff in Hf; [|done|lia]. split_and!; [lia|done|].
  intros fast ??. specialize (Hmin (N.to_nat fast)). rewrite N2Nat.id in Hmin.
  destruct (N.le_gt_cases (2 * fast + (voters / 2 + 1)) (2 * voters)) as [|Hgt]; [done|].
  apply fast_enough_iff in Hgt; [|done|lia]. rewrite Hmin in Hgt by lia. done.
Qed.

(** ** Recovering a fast choice *)
Lemma size_overlap (X Y V : gset HostId) :
  X ⊆ V → Y ⊆ V → (size X + size Y ≤ size V + size (X ∩ Y))%nat.
Proof.
  intros HX HY. assert (size (X ∪ Y) ≤ size V)%nat as Hu by (apply subseteq_size; set_solver).
  rewrite size_union_alt, size_difference_alt in Hu.
  replace (Y ∩ X) with (X ∩ Y) in Hu by set_solver.
  assert (size (X ∩ Y) ≤ size Y)%nat by (apply subseteq_size; set_solver). lia.
Qed.

(** The voters of a list of distinct casts that satisfy a condition. *)
Definition casters (cast : list (HostId * WindowSlot)) (P : WindowSlot → Prop) `{!∀ s, Decision (P s)} : gset HostId :=
  list_to_set (filter (λ c : HostId * WindowSlot, P c.2) cast).*1.

Lemma casters_size cast P `{!∀ s, Decision (P s)} :
  NoDup cast.*1 → size (casters cast P) = length (filter P cast.*2).
Proof.
  intros Hn. unfold casters. rewrite size_list_to_set.
  - rewrite length_fmap. clear Hn. induction cast as [|[v s] cast IH]; simpl; [done|].
    rewrite !filter_cons. simpl. case_decide; simpl; by rewrite IH.
  - clear -Hn. induction cast as [|[v s] cast IH]; simpl; [constructor|].
    apply NoDup_cons in Hn as [Hv Hn]. rewrite filter_cons. simpl. case_decide; [|by apply IH].
    simpl. constructor; [|by apply IH]. intros ([w s']&->&Hw)%list_elem_of_fmap. apply list_elem_of_filter in Hw as [_ Hw].
    apply Hv. by apply (list_elem_of_fmap_2 fst) in Hw.
Qed.
Lemma elem_of_casters cast P `{!∀ s, Decision (P s)} v :
  v ∈ casters cast P ↔ ∃ s, (v, s) ∈ cast ∧ P s.
Proof.
  unfold casters. rewrite elem_of_list_to_set, list_elem_of_fmap. split.
  - intros ([w s]&->&[? ?]%list_elem_of_filter). by exists s.
  - intros (s&?&?). exists (v, s). split; [done|]. by apply list_elem_of_filter.
Qed.

Lemma ballot_leb_antisym a b : ballot_leb a b = true → ballot_leb b a = true → a = b.
Proof.
  destruct a as [t1 d1], b as [t2 d2]. unfold ballot_leb. simpl. rewrite (N.eqb_sym t2).
  destruct (t1 =? t2) eqn:E; bool_to_prop; [subst; by destruct d1, d2|]. intros. bool_to_prop. lia.
Qed.
(** The greatest ballot of a list whose members are all at most one of them. *)
Lemma max_ballot_top slots b :
  (∀ s, s ∈ slots → ballot_leb (ballot s) b = true) → (∃ s, s ∈ slots ∧ ballot s = b) → max_ballot slots = Some b.
Proof.
  intros Hle (s0&Hs0&Hb). unfold max_ballot. destruct slots as [|s slots]; [set_solver|]. simpl. f_equal.
  assert (∀ l m, (∀ x, x ∈ l → ballot_leb x b = true) → ballot_leb m b = true → b = m ∨ b ∈ l →
    foldl (λ m x, if ballot_leb m x then x else m) m l = b) as Hfold.
  { induction l as [|x l IH]; intros m Hl Hm Hin; simpl; [set_solver|]. apply IH; [set_solver| |].
    - split_if; [apply Hl; set_solver|done].
    - destruct (ballot_leb m x) eqn:E.
      + destruct Hin as [->|Hin]; [|set_solver]. left. apply ballot_leb_antisym; [done|]. apply Hl. set_solver.
      + destruct Hin as [->|[->|Hin]%elem_of_cons]; [by left| |by right].
        congruence. }
  apply Hfold.
  - intros x (y&->&Hy)%list_elem_of_fmap. apply Hle. set_solver.
  - apply Hle. set_solver.
  - apply elem_of_cons in Hs0 as [->|Hs0]; [by left|]. right. apply list_elem_of_fmap. eauto.
Qed.

(** The heard voters of a choice outnumber any other value's. *)
Lemma fast_counts (V H F : gset HostId) :
  H ⊆ V → F ⊆ V → small (N.of_nat (size V)) → N.of_nat (size V) / 2 < N.of_nat (size H) →
  fast_quorum (N.of_nat (size V)) ≤ N.of_nat (size F) →
  let threshold := N.of_nat (size H) + fast_quorum (N.of_nat (size V)) - N.of_nat (size V) in
  0 < threshold ∧ threshold ≤ N.of_nat (size (F ∩ H)) ∧ N.of_nat (size (H ∖ F)) < threshold.
Proof.
  intros HH HF Hs Hh Hf threshold. pose proof (size_overlap F H V HF HH) as Ho.
  assert (size H ≤ size V)%nat by (by apply subseteq_size).
  pose proof (half_lt (N.of_nat (size V)) (N.of_nat (size H))) as [Hh' _]. specialize (Hh' Hh).
  assert (0 < N.of_nat (size V)) as Hpos by lia.
  destruct (fast_quorum_least _ Hpos Hs) as (Hq&Hd&_). set (q := fast_quorum _) in *.
  rewrite (size_difference_alt H F). replace (H ∩ F) with (F ∩ H) by set_solver.
  assert (size (F ∩ H) ≤ size H)%nat by (apply subseteq_size; set_solver).
  set (half := N.of_nat (size V) / 2) in *. subst threshold. lia.
Qed.

Lemma recovered_value_fast n cast (H F : gset HostId) t e :
  vc_joint (effective_config n) = None → NoDup (vc_voters (effective_config n)) →
  small (len (vc_voters (effective_config n))) →
  NoDup cast.*1 → (∀ v s, (v, s) ∈ cast → v ∈ H) →
  H ⊆ list_to_set (vc_voters (effective_config n)) → F ⊆ list_to_set (vc_voters (effective_config n)) →
  carries H (vc_voters (effective_config n)) = true →
  fast_quorum (len (vc_voters (effective_config n))) ≤ N.of_nat (size F) →
  (∀ v, v ∈ F → v ∈ H → (v, mkWindowSlot t true e) ∈ cast) →
  (∀ v s, (v, s) ∈ cast → ballot_leb (ballot s) (t, false) = true) →
  recovered_value n cast.*2 (N.of_nat (size H)) = Some (e, true).
Proof.
  intros Hj Hnd Hsm Hnc Hch HH HF Hc Hf Hvote Htop. set (vs := vc_voters (effective_config n)) in *.
  assert (len vs = N.of_nat (size (list_to_set vs : gset HostId))) as Hlen by (by rewrite size_list_to_set).
  assert (len vs / 2 < N.of_nat (size H)) as Hmaj.
  { unfold carries in Hc. bool_to_prop. eapply N.lt_le_trans; [exact Hc|]. unfold len.
    rewrite <- (size_list_to_set (C := gset HostId)) by (by apply NoDup_filter).
    assert (size (list_to_set (filter (λ v, v ∈ H) vs) : gset HostId) ≤ size H)%nat; [|lia].
    apply subseteq_size. intros v. rewrite elem_of_list_to_set, list_elem_of_filter. tauto. }
  rewrite Hlen in Hmaj, Hsm, Hf.
  destruct (fast_counts (list_to_set vs) H F HH HF Hsm Hmaj Hf) as (Hth0&Hin&Hout).
  set (threshold := N.of_nat (size H) + _ - _) in *.
  assert (∃ v, v ∈ F ∩ H) as [v0 Hv0] by (apply set_choose_L; intros E; rewrite E, size_empty in Hin; lia).
  unfold recovered_value.
  rewrite (max_ballot_top _ (t, false)).
  2:{ intros s ([v s']&->&Hs)%list_elem_of_fmap. by eapply Htop. }
  2:{ exists (mkWindowSlot t true e). split; [|done]. apply (list_elem_of_fmap_2 snd cast (v0, mkWindowSlot t true e)).
      apply Hvote; set_solver. }
  cbn [mbind option_bind snd]. rewrite Hj. rewrite bool_decide_eq_false_2 by (by intros []).
  fold vs. set (top := filter _ cast.*2).
  assert (∀ x, len (filter (λ s, ws_entry s = x) top) = N.of_nat (size (casters cast (λ s, ws_entry s = x ∧ ballot s = (t, false))))) as Hcount.
  { intros x. rewrite casters_size by done. unfold len, top. by rewrite list_filter_filter. }
  assert (sat_sub (sat_add (N.of_nat (size H)) (fast_quorum (len vs))) (len vs) = threshold) as ->.
  { unfold threshold, sat_sub. rewrite Hlen, sat_add_small; [done|].
    assert (size H ≤ size (list_to_set vs : gset HostId))%nat by (by apply subseteq_size).
    destruct (fast_quorum_least (N.of_nat (size (list_to_set vs : gset HostId)))) as (?&_); [|done|].
    - apply half_lt in Hmaj. lia.
    - unfold small in Hsm. lia. }
  assert (threshold <= len (filter (λ s, ws_entry s = e) top)) as Hchosen.
  { rewrite Hcount. etransitivity; [exact Hin|].
    match goal with |- N.of_nat ?a ≤ N.of_nat ?b => cut (a ≤ b)%nat; [lia|] end. apply subseteq_size. intros v Hv. apply elem_of_casters. eexists. split; [apply Hvote; set_solver|done]. }
  destruct (List.find _ top) as [s|] eqn:Ef.
  - apply List.find_some in Ef as [Hs Hth]. bool_to_prop. simpl. do 2 f_equal.
    destruct (decide (ws_entry s = e)) as [|Hne]; [done|]. exfalso. rewrite Hcount in Hth.
    assert (size (casters cast (λ s', ws_entry s' = ws_entry s ∧ ballot s' = (t, false))) ≤ size (H ∖ F))%nat; [|lia].
    apply subseteq_size. intros v (s'&Hs'&He&_)%elem_of_casters. apply elem_of_difference. split; [by eapply Hch|].
    intros HvF. assert (v ∈ H) as HvH by (by eapply Hch). specialize (Hvote v HvF HvH).
    assert (s' = mkWindowSlot t true e) as ->; [|by simpl in He; congruence].
    clear -Hnc Hs' Hvote. apply list_elem_of_lookup in Hs' as [i Hi], Hvote as [j Hj].
    assert (i = j) as ->.
    { eapply (NoDup_lookup cast.*1); [done|by rewrite list_lookup_fmap, Hi|by rewrite list_lookup_fmap, Hj]. }
    congruence.
  - exfalso. assert (0 < len (filter (λ s, ws_entry s = e) top)) as Hpos by lia.
    destruct (filter (λ s, ws_entry s = e) top) as [|s l] eqn:E; [simpl in Hpos; unfold len in Hpos; simpl in Hpos; lia|].
    assert (s ∈ filter (λ s, ws_entry s = e) top) as [He Hs]%list_elem_of_filter by (rewrite E; set_solver).
    apply list_elem_of_In, (List.find_none _ _ Ef s) in Hs. rewrite He, E in Hs. bool_to_prop. lia.
Qed.

(** ** The plan of a won election *)

(** The slot an electing voter brings at an index: the node's own, or the one it reported. *)
Definition slot_of (n : RaftNode) (i : N) (v : HostId) : option WindowSlot :=
  if v =? id n then window n !! i
  else sr_slot <$> List.find (λ r, sr_index r =? i) (default [] (reports n !! v)).
Definition casts (n : RaftNode) (i : N) (hosts : list HostId) : list (HostId * WindowSlot) :=
  omap (λ v, pair v <$> slot_of n i v) hosts.

Lemma filter_find rs i : NoDup (map sr_index rs) →
  filter (λ r, sr_index r = i) rs = option_list (List.find (λ r, sr_index r =? i) rs).
Proof.
  induction rs as [|r rs IH]; intros Hn; simpl; [done|]. apply NoDup_cons in Hn as [Hr Hn]. rewrite filter_cons.
  destruct (N.eqb_spec (sr_index r) i) as [<-|Hne].
  - rewrite decide_True by done. rewrite filter_none; [done|]. intros x Hx E. apply Hr. rewrite <- E.
    by apply list_elem_of_fmap_2.
  - rewrite decide_False by done. by apply IH.
Qed.

Lemma find_window_reports (w : gmap N WindowSlot) i :
  sr_slot <$> List.find (λ r, sr_index r =? i) (window_reports w) = w !! i.
Proof.
  destruct (List.find _ _) as [r|] eqn:E; simpl.
  - apply List.find_some in E as [Hr Hi]. bool_to_prop. apply list_elem_of_In in Hr.
    unfold window_reports in Hr. apply list_elem_of_fmap in Hr as ([j s]&->&Hj%elem_of_bt_list). simpl in *. congruence.
  - destruct (w !! i) as [s|] eqn:Ew; [|done]. exfalso. apply elem_of_bt_list in Ew.
    assert (mkSlotReport i s ∈ window_reports w) as Hin by (apply (list_elem_of_fmap_2 (λ e, mkSlotReport e.1 e.2)) in Ew; exact Ew).
    apply list_elem_of_In, (List.find_none _ _ E) in Hin. simpl in Hin. by rewrite N.eqb_refl in Hin.
Qed.

Lemma reported_slots (rs : list SlotReport) (m0 : gmap N (list WindowSlot)) i :
  default [] (foldl (λ m r, <[sr_index r := default [] (m !! sr_index r) ++ [sr_slot r]]> m) m0 rs !! i)
  = default [] (m0 !! i) ++ map sr_slot (filter (λ r, sr_index r = i) rs).
Proof.
  revert m0. induction rs as [|r rs IH]; intros m0; simpl; [by rewrite app_nil_r|]. rewrite IH, filter_cons.
  destruct (decide (sr_index r = i)) as [<-|Hne]; [|by rewrite lookup_insert_ne].
  rewrite lookup_insert_eq. simpl. by rewrite <- app_assoc.
Qed.

Lemma casts_snd n i hosts : (casts n i hosts).*2 = omap (slot_of n i) hosts.
Proof. unfold casts. induction hosts as [|v l IH]; simpl; [done|]. destruct (slot_of n i v); simpl; [f_equal|]; exact IH. Qed.
Lemma casts_keys n i hosts : NoDup hosts → NoDup (casts n i hosts).*1.
Proof.
  intros Hn. assert ((casts n i hosts).*1 `sublist_of` hosts) as Hs; [|by eapply sublist_NoDup].
  unfold casts. clear Hn. induction hosts as [|v l IH]; simpl; [constructor|].
  destruct (slot_of n i v); simpl; by constructor.
Qed.
Lemma elem_of_casts n i hosts v s : (v, s) ∈ casts n i hosts ↔ v ∈ hosts ∧ slot_of n i v = Some s.
Proof.
  unfold casts. rewrite list_elem_of_omap. split.
  - intros (w&Hw&E). destruct (slot_of n i w) eqn:Es; simplify_eq/=. done.
  - intros [Hv Hs]. exists v. by rewrite Hs.
Qed.

(** The slots the plan reads at an index are those its voters bring. *)
Lemma plan_slots n i (l : list (HostId * list SlotReport)) :
  (∀ v rs, (v, rs) ∈ l → reports n !! v = Some rs ∧ v ≠ id n ∧ NoDup (map sr_index rs)) →
  map sr_slot (filter (λ r, sr_index r = i) (concat l.*2)) = omap (slot_of n i) l.*1.
Proof.
  induction l as [|[v rs] l IH]; intros Hl; [done|]. change (concat ((v, rs) :: l).*2) with (rs ++ concat l.*2).
  rewrite filter_app, map_app, IH by set_solver.
  change (omap (slot_of n i) ((v, rs) :: l).*1)
    with (match slot_of n i v with Some s => s :: omap (slot_of n i) l.*1 | None => omap (slot_of n i) l.*1 end).
  destruct (Hl v rs) as (Hr&Hv&Hn); [set_solver|]. rewrite filter_find by done.
  assert (slot_of n i v = sr_slot <$> List.find (λ r, sr_index r =? i) rs) as ->.
  { unfold slot_of. by rewrite (proj2 (N.eqb_neq v (id n))), Hr by done. }
  by destruct (List.find _ rs).
Qed.

(** C38. What the fast track chose survives its leader: when a fast quorum of the voters cast one command
    at an index in a term, any later election won by a majority that has seen no later ballot there plans to
    re-propose exactly that command, whichever voters it heard. *)
Theorem fast_choice_recovered n (F : gset HostId) i t e :
  vc_joint (effective_config n) = None → NoDup (vc_voters (effective_config n)) →
  small (len (vc_voters (effective_config n))) →
  votes n ⊆ list_to_set (vc_voters (effective_config n)) → is_majority n (votes n) = true →
  id n ∈ votes n → dom (reports n) ⊆ votes n ∖ {[ id n ]} →
  (∀ v rs, reports n !! v = Some rs → NoDup (map sr_index rs)) → last_log_index n < i →
  F ⊆ list_to_set (vc_voters (effective_config n)) →
  fast_quorum (len (vc_voters (effective_config n))) ≤ N.of_nat (size F) →
  (∀ v, v ∈ F → v ∈ votes n → slot_of n i v = Some (mkWindowSlot t true e)) →
  (∀ v s, v ∈ votes n → slot_of n i v = Some s → ballot_leb (ballot s) (t, false) = true) →
  rc_decided (plan_recovery n) !! i = Some (e, true).
Proof.
  intros Hj Hnd Hsm HV Hm Hid Hdom Hrs Hi HF Hf Hvote Htop.
  set (hosts := id n :: bt_keys (reports n)).
  assert (∀ v, v ∈ bt_keys (reports n) → v ∈ votes n ∧ v ≠ id n) as Hkeys.
  { intros v ([w rs]&->&Hw%elem_of_bt_list)%list_elem_of_fmap. simpl.
    assert (w ∈ dom (reports n)) as Hd by (by apply elem_of_dom_2 in Hw). set_solver. }
  assert (NoDup hosts) as Hnh.
  { constructor; [|apply NoDup_bt_keys]. intros H. by apply Hkeys in H as []. }
  assert (recovered_value n (casts n i hosts).*2 (N.of_nat (size (votes n))) = Some (e, true)) as Hrec.
  { apply (recovered_value_fast n (casts n i hosts) (votes n) F t e); try done.
    - by apply casts_keys.
    - intros v s [Hv _]%elem_of_casts. apply elem_of_cons in Hv as [->|Hv]; [done|]. by apply Hkeys.
    - unfold is_majority, config_majority in Hm. by apply andb_true_iff in Hm as [].
    - intros v HvF Hv. apply elem_of_casts. split; [|by apply Hvote].
      destruct (decide (v = id n)) as [->|Hne]; [by left|]. right.
      specialize (Hvote v HvF Hv). unfold slot_of in Hvote. rewrite (proj2 (N.eqb_neq _ _)) in Hvote by done.
      destruct (reports n !! v) as [rs|] eqn:Er; [|done].
      apply (list_elem_of_fmap_2 fst (bt_list (reports n)) (v, rs)). by apply elem_of_bt_list.
    - intros v s [Hv Hs]%elem_of_casts. apply (Htop v); [|done].
      apply elem_of_cons in Hv as [->|Hv]; [done|]. by apply Hkeys. }
  unfold plan_recovery. destruct (match checked_add _ _ with Some _ => _ | None => _ end) as [next last_].
  cbn [rc_decided]. rewrite lookup_omap. match goal with |- context [foldl _ ∅ ?l] => set (rs := l) end.
  assert (map sr_slot (filter (λ r, sr_index r = i) rs) = (casts n i hosts).*2) as Hcasts.
  { subst rs hosts. rewrite casts_snd, filter_app, map_app. cbn [omap list_omap].
    assert (map sr_slot (filter (λ r, sr_index r = i) (window_above n (last_log_index n))) = option_list (slot_of n i (id n))) as ->.
    { unfold window_above. rewrite list_filter_filter_l; [|unfold sat_add; lia].
      rewrite filter_find. 2:{ unfold window_reports. rewrite map_map. apply NoDup_bt_keys. }
      unfold slot_of. rewrite N.eqb_refl, <- find_window_reports. by destruct (List.find _ _). }
    rewrite list_filter_filter_l by lia. unfold bt_values. rewrite (plan_slots n i (bt_list (reports n))).
    - by destruct (slot_of n i (id n)).
    - intros v vs Hv. pose proof Hv as Hl%elem_of_bt_list. split_and!; [done| |by apply (Hrs v)].
      apply Hkeys. by apply (list_elem_of_fmap_2 fst (bt_list (reports n)) (v, vs)). }
  pose proof (reported_slots rs ∅ i) as Hslots. rewrite Hcasts, lookup_empty in Hslots.
  destruct (foldl _ ∅ rs !! i) as [slots|]; cbn [default from_option app] in Hslots; by rewrite <- Hslots in Hrec.
Qed.

(** ** Witnesses *)
Definition counting_leader : RaftNode :=
  node_new 1 [1; 2; 3] <| role := Leader |> <| log := [command_entry 1 (as_bytes "a"); command_entry 1 (as_bytes "b")] |>
    <| match_index := {[ 2 := 1; 3 := 0 ]} |>.
Lemma quorum_match_exact_witness :
  quorum_match counting_leader = 1
  ∧ config_majority (effective_config counting_leader) (holders counting_leader (effective_config counting_leader) 1) = true
  ∧ config_majority (effective_config counting_leader) (holders counting_leader (effective_config counting_leader) 2) = false.
Proof.
  split_and!; [vm_compute; reflexivity| |].
  - apply quorum_match_exact; vm_compute; done.
  - destruct (config_majority _ _) eqn:E; [|done]. apply quorum_match_exact in E; [|done]. vm_compute in E. done.
Defined.

Definition chosen_slot : WindowSlot := mkWindowSlot 1 true (command_entry 1 (as_bytes "a")).
Definition other_slot : WindowSlot := mkWindowSlot 1 true (command_entry 1 (as_bytes "b")).
Definition fast_candidate : RaftNode :=
  node_new 1 [1; 2; 3; 4] <| current_term := 2 |> <| role := Candidate |> <| votes := {[ 1; 2; 4 ]} |>
    <| window := {[ 1 := chosen_slot ]} |>
    <| reports := {[ 2 := [mkSlotReport 1 chosen_slot]; 4 := [mkSlotReport 1 other_slot] ]} |>.
Lemma fast_choice_recovered_witness :
  rc_decided (plan_recovery fast_candidate) !! 1 = Some (command_entry 1 (as_bytes "a"), true).
Proof.
  apply (fast_choice_recovered fast_candidate {[ 1; 2; 3 ]} 1 1 (command_entry 1 (as_bytes "a"))).
  - vm_compute. reflexivity.
  - apply (bool_decide_unpack _). vm_compute. exact I.
  - vm_compute. reflexivity.
  - apply (bool_decide_unpack _). vm_compute. exact I.
  - vm_compute. reflexivity.
  - apply (bool_decide_unpack _). vm_compute. exact I.
  - apply (bool_decide_unpack _). vm_compute. exact I.
  - intros v rs Hv. assert (∀ p, p ∈ map_to_list (reports fast_candidate) → NoDup (map sr_index p.2)) as Hall.
    { apply Forall_forall. vm_compute. repeat constructor; set_solver. }
    by apply (Hall (v, rs)), elem_of_map_to_list.
  - vm_compute. reflexivity.
  - apply (bool_decide_unpack _). vm_compute. exact I.
  - vm_compute. discriminate.
  - intros v Hv Hv'. assert (v = 1 ∨ v = 2 ∨ v = 3) as [->|[->| ->]] by set_solver; [vm_compute; reflexivity..|].
    exfalso. revert Hv'. apply (bool_decide_unpack _). vm_compute. exact I.
  - intros v s Hv. assert (v = 1 ∨ v = 2 ∨ v = 4) as [->|[->| ->]] by (cbn in Hv; set_solver);
      vm_compute; intros [= <-]; reflexivity.
Defined.
