(* ===== verification/RaftSystem.v ===== *)
(** * A Raft group on an asynchronous network

    Nodes of [crates/cluster/src/raft.rs] exchanging messages as its callers
    run them: an operation's messages wait until the state that sent them is
    published, the network loses, delays, reorders and repeats what was sent,
    and a host that crashes restarts from what it last published.  The voter
    configuration is fixed.  The theorem is election safety: a term has one
    leader. *)

From S2P Require Import Prelude RaftState RaftLog RaftElect RaftReplicate RaftFast RaftAdmin RaftInv RaftAppend RaftOps RaftSaved RaftQuorum.
From stdpp Require Import functions.
#[local] Open Scope N_scope.

(** ** The system *)
Record System := mkSystem {
  live : HostId → RaftNode;
  disk : HostId → SavedRaft;
  outbox : HostId → list Packet;
  net : list Packet
}.

Definition system_new (voters : list HostId) : System :=
  mkSystem (λ me, node_new me voters) (λ me, saved (node_new me voters)) (λ _, []) [].

(** An operation a host may run: any message it receives was sent to it, and the voters do not change. *)
Definition enabled (st : System) (v : HostId) (op : Op) : Prop :=
  match op with
  | Receive message => (v, message) ∈ net st
  | BeginMembershipChange _ | CompleteMembershipChange | PromoteCaughtUp _ => False
  | _ => True
  end.

Inductive system_step : System → System → Prop :=
| step_op st v op n' sent : enabled st v op → handle (live st v) op = (n', sent) →
    system_step st (mkSystem (<[v := n']> (live st)) (disk st) (<[v := outbox st v ++ sent]> (outbox st)) (net st))
| step_publish st v :
    system_step st (mkSystem (<[v := retained (live st v)]> (live st)) (<[v := saved (live st v)]> (disk st))
                      (outbox st) (net st))
| step_release st v : retention_pending (live st v) = false →
    system_step st (mkSystem (live st) (disk st) (<[v := []]> (outbox st)) (net st ++ outbox st v))
| step_crash st v n' : restore (disk st v) = Ok n' →
    system_step st (mkSystem (<[v := n']> (live st)) (disk st) (<[v := []]> (outbox st)) (net st)).

Definition system_reachable (voters : list HostId) : System → Prop := rtc system_step (system_new voters).

(** A host leads a term when it does so now, or when it sent an append of that term. *)
Definition leads (st : System) (v : HostId) (term : N) : Prop :=
  (role (live st v) = Leader ∧ current_term (live st v) = term)
  ∨ ∃ to m, (to, MAppend m) ∈ net st ∧ ae_leader m = v ∧ ae_term m = term.

(** ** What packets say *)

(** The vote a packet shows: its voter, its term and whom it is for. *)
Definition claim_of (p : Packet) : option (HostId * N * HostId) :=
  match p with
  | (to, MVoteReply r) => if vr_granted r then Some (vr_voter r, vr_term r, to) else None
  | (_, MAppend m) => Some (ae_leader m, ae_term m, ae_leader m)
  | _ => None
  end.

Definition granted_by (packets : list Packet) (v c : HostId) (t : N) : Prop :=
  ∃ r, (c, MVoteReply r) ∈ packets ∧ vr_granted r = true ∧ vr_voter r = v ∧ vr_term r = t.

(** ** What an operation sends *)
Definition inert (m : Message) : Prop :=
  match m with MVoteReply _ | MAppend _ | MSnapshot _ => False | _ => True end.

Lemma to_each_inert {A} hosts (f : A → Message) l p : (∀ x, inert (f x)) → p ∈ to_each hosts f l → inert p.2.
Proof.
  intros Hf. unfold to_each. revert l. induction hosts as [|h hosts IH]; intros [|x l]; simpl; set_solver.
Qed.
Lemma to_opt_inert {A} (f : A → list Packet) o p : (∀ x p, p ∈ f x → inert p.2) → p ∈ to_opt f o → inert p.2.
Proof. intros Hf. destruct o; simpl; [apply Hf|set_solver]. Qed.
Lemma broadcast_inert hosts (m : Message) (p : Packet) : inert m → p ∈ map (λ host, (host, m)) hosts → inert p.2.
Proof. intros Hm (h&->&_)%list_elem_of_fmap. done. Qed.

(** What an operation sends: nothing that claims a vote or carries a log, a vote, an append or a snapshot. *)
Lemma handle_cases n op n' sent p : handle n op = (n', sent) → p ∈ sent →
  inert p.2
  ∨ (∃ m, n' = (on_request_vote n m).1 ∧ p = (rv_candidate m, MVoteReply (on_request_vote n m).2))
  ∨ (∃ follower budget m, n' = (replicate_to n follower budget).1 ∧ (replicate_to n follower budget).2 = Some m
     ∧ p = (follower, MAppend m))
  ∨ (∃ follower m, n' = n ∧ install_snapshot_for n follower = Some m ∧ p = (follower, MSnapshot m)).
Proof.
  intros Hh Hp.
  destruct op as [| | | | | | | |message| | | | | | | | | | | | | | | | |follower budget|follower|];
    simpl in Hh; try (injection Hh as <- <-; by apply elem_of_nil in Hp).
  - destruct (on_election_timeout n) as [m [l|]]; injection Hh as <- <-; [|by apply elem_of_nil in Hp].
    left. eapply to_each_inert; [|exact Hp]; done.
  - destruct (start_election n) as [m [l|]]; injection Hh as <- <-; [|by apply elem_of_nil in Hp].
    left. eapply to_each_inert; [|exact Hp]; done.
  - destruct message; unfold receive in Hh; try (injection Hh as <- <-; by apply elem_of_nil in Hp).
    + destruct (on_pre_vote n m). injection Hh as <- <-. left. by apply list_elem_of_singleton in Hp as ->.
    + destruct (on_pre_vote_reply n m) as [x r]. injection Hh as <- <-. left. eapply to_opt_inert; [|exact Hp].
      intros ?? H. eapply to_each_inert; [|exact H]; done.
    + right; left. exists m. destruct (on_request_vote n m) as [x r]. injection Hh as <- <-.
      by apply list_elem_of_singleton in Hp as ->.
    + destruct (on_append_entries n m). injection Hh as <- <-. left. by apply list_elem_of_singleton in Hp as ->.
    + destruct (on_install_snapshot n m). injection Hh as <- <-. left. by apply list_elem_of_singleton in Hp as ->.
    + destruct (on_fast_propose n m) as [x r]. injection Hh as <- <-. left. eapply to_opt_inert; [|exact Hp].
      intros ?? H. eapply to_opt_inert; [|exact H]. intros ?? H'. by apply list_elem_of_singleton in H' as ->.
    + destruct (on_timeout_now n m) as [x r]. injection Hh as <- <-. left. eapply to_each_inert; [|exact Hp]; done.
  - destruct (decline_snapshot n request). injection Hh as <- <-. left. by apply list_elem_of_singleton in Hp as ->.
  - destruct (propose_fast n command) as [x r]. injection Hh as <- <-. left. eapply to_opt_inert; [|exact Hp].
    intros ?? H. eapply broadcast_inert; [|exact H]; done.
  - injection Hh as <- <-. left. eapply to_opt_inert; [|exact Hp]. intros ?? H. eapply broadcast_inert; [|exact H]; done.
  - destruct (take_timeout_now n) as [x r]. injection Hh as <- <-. left. eapply to_opt_inert; [|exact Hp].
    intros ?? H. by apply list_elem_of_singleton in H as ->.
  - right; right; left. exists follower, budget. destruct (replicate_to n follower budget) as [x [r|]]; injection Hh as <- <-;
      [|by apply elem_of_nil in Hp]. apply list_elem_of_singleton in Hp as ->. by exists r.
  - right; right; right. exists follower. destruct (install_snapshot_for n follower) as [r|] eqn:E; injection Hh as <- <-;
      [|by apply elem_of_nil in Hp]. apply list_elem_of_singleton in Hp as ->. by exists r.
Qed.

(** A snapshot a host is about to install agrees with what the host has committed.  Nothing in a run promises it. *)
Definition agreed (st : System) (v : HostId) (op : Op) : Prop :=
  match op with Receive (MSnapshot request) => snapshot_agrees (live st v) request | _ => True end.

Section safety.
Context {strict : Prop} (voters : list HostId).
Definition group_config : VoterConfig := mkVoterConfig voters None.
Definition group_cfg (c : VoterConfig) : Prop := c = group_config.
Definition group_quorum (s : gset HostId) : Prop := config_majority group_config s = true.
Context (voters_valid : valid_set voters = true).

Lemma group_quorum_ok c s : group_cfg c → config_majority c s = true → group_quorum s.
Proof. by intros ->. Qed.
Lemma group_cfg_valid c : group_cfg c → valid_config c = true.
Proof. intros ->. unfold valid_config. simpl. by rewrite voters_valid. Qed.

#[local] Abbreviation group_node packets := (node_ok strict group_cfg (granted_by packets) group_quorum).

(** What a message carries from a group of this configuration. *)
Definition carries_group (packets : list Packet) (m : Message) : Prop :=
  match m with
  | MAppend m => Forall (entry_cfg group_cfg) (ae_entries m)
      ∧ ∃ q, group_quorum q ∧ ∀ v, v ∈ q → v = ae_leader m ∨ granted_by packets v (ae_leader m) (ae_term m)
  | MSnapshot m => group_cfg (is_config m) ∧ is_last_included_index m ≤ u64_max
  | MVoteReply r => ∀ x, x ∈ vr_reports r → entry_cfg group_cfg (ws_entry (sr_slot x))
  | _ => True
  end.

Lemma granted_mono packets packets' v c t :
  packets ⊆ packets' → granted_by packets v c t → granted_by packets' v c t.
Proof. intros Hs (r&?&?). exists r. auto. Qed.
Lemma carries_mono packets packets' m : packets ⊆ packets' → carries_group packets m → carries_group packets' m.
Proof.
  intros Hs. destruct m; simpl; try done. intros (?&q&?&Hq). split; [done|]. exists q. split; [done|].
  intros v Hv. destruct (Hq v Hv); eauto using granted_mono.
Qed.
Lemma group_node_mono packets packets' n : packets ⊆ packets' → group_node packets n → group_node packets' n.
Proof.
  intros Hs [Hh Hl []]. split; [done..|]. split; try done. intros Hr v Hv.
  destruct (ok_granted Hr v Hv); eauto using granted_mono.
Qed.

(** ** What a node's packets claim *)

(** A packet of a node: its claim is the node's own vote in its current term. *)
Definition sent_by (packets : list Packet) (n : RaftNode) (p : Packet) : Prop :=
  carries_group packets p.2
  ∧ ∀ v t c, claim_of p = Some (v, t, c) → v = id n ∧ t = current_term n ∧ voted_for n = Some c.
Lemma inert_sent packets n (p : Packet) : inert p.2 → sent_by packets n p.
Proof. destruct p as [to []]; try done; intros _; by split. Qed.

Lemma elem_of_window_above n i r : r ∈ window_above n i → window n !! sr_index r = Some (sr_slot r).
Proof. unfold window_above. intros [_ H]%list_elem_of_filter. by apply elem_of_window_reports. Qed.

Lemma vote_sent packets n request :
  group_node packets (on_request_vote n request).1 →
  sent_by packets (on_request_vote n request).1 (rv_candidate request, MVoteReply (on_request_vote n request).2).
Proof.
  unfold on_request_vote. destruct (admit_candidacy _ _ _); [|intros _; split; simpl; [set_solver|done]].
  set (m := if current_term n <? rv_term request then _ else n).
  destruct (_ && _ && _) eqn:E; cbn [fst snd]; intros Hok; split; simpl; try done; try set_solver.
  - intros x Hx%elem_of_window_above. apply (ok_window _ (ok_hard _ Hok)) in Hx as (_&_&?). done.
Qed.

Lemma batch_from_elem n from budget e : e ∈ batch_from n from budget → e ∈ log n.
Proof.
  unfold batch_from, owed_from, get_from. intros H%elem_of_take. destruct H as (i&H&_).
  apply list_elem_of_lookup_2 in H. destruct (_ <=? _); simpl in H; [|set_solver].
  unfold dropN in H. rewrite <- (take_drop (N.to_nat (from - snapshot_index n - 1)) (log n)). apply elem_of_app. by right.
Qed.

Lemma replicate_sent packets n follower budget m :
  group_node packets (replicate_to n follower budget).1 → (replicate_to n follower budget).2 = Some m →
  sent_by packets (replicate_to n follower budget).1 (follower, MAppend m).
Proof.
  unfold replicate_to. set (n1 := if recovering n then continue_recovery n else n).
  clearbody n1. destruct (is_leader n1) eqn:El; cbn [negb]; [|done]. split_if; [done|]. cbn [fst snd].
  match goal with |- node_ok _ _ _ _ ?x → _ => set (n2 := x) end. intros Hok Hm. apply (inj Some) in Hm as <-.
  assert (spine n2 = spine n1) as Hs.
  { clear -n2. unfold n2. destruct (_ && _); [destruct (_ <? _)|]; reflexivity. }
  pose proof (spine_eqs _ _ Hs) as (Eh&_&Er&_).
  assert (log n2 = log n1) as Elog by (unfold log; by rewrite Eh).
  assert (role n2 = Leader) as Hlead by (rewrite Er; by apply bool_decide_eq_true in El).
  split.
  - simpl. split.
    + apply List.Forall_forall. intros e He%list_elem_of_In%batch_from_elem. rewrite <- Elog in He.
      pose proof (ok_cfgs _ (ok_hard _ Hok)) as Hf. rewrite List.Forall_forall in Hf. by apply Hf, list_elem_of_In.
    + exists (votes n2). split; [by apply (ok_elected _ (ok_elect _ Hok))|]. intros v Hv.
      apply (ok_granted _ (ok_elect _ Hok)); auto.
  - simpl. intros v t c [= <- <- <-]. split_and!; try done. apply (ok_self _ (ok_elect _ Hok)). auto.
Qed.

Lemma snapshot_sent packets n follower m :
  group_node packets n → install_snapshot_for n follower = Some m → sent_by packets n (follower, MSnapshot m).
Proof.
  intros Hok. unfold install_snapshot_for. split_if; [done|]. split_if; [done|]. intros [= <-]. split; [|done].
  simpl. split; [apply Hok|]. pose proof (ok_range _ (ok_hard _ Hok)). lia.
Qed.

(** Whatever an operation sends tells of the node that sent it. *)
Lemma handle_sent packets n op n' sent p :
  handle n op = (n', sent) → group_node packets n' → p ∈ sent → sent_by packets n' p.
Proof.
  intros Hh Hok Hp. destruct (handle_cases _ _ _ _ _ Hh Hp) as [?|[(m&->&->)|[(f&b&m&->&Hm&->)|(f&m&->&Hm&->)]]].
  - by apply inert_sent.
  - by apply vote_sent.
  - by apply replicate_sent.
  - by apply snapshot_sent.
Qed.

(** ** The invariant of the group *)

(** A retained or a live state stands by a claim: it is at a later term, or still holds that vote. *)
Definition stands (term : N) (vote : option HostId) (t : N) (c : HostId) : Prop :=
  t ≤ term ∧ (t = term → vote = Some c).

Record system_ok (st : System) : Prop := mkSystemOk {
  sys_id : ∀ v, id (live st v) = v;
  sys_node : ∀ v, group_node (net st) (live st v);
  sys_disk : ∀ v n', restore (disk st v) = Ok n' →
    id n' = v ∧ group_node (net st) n' ∧ retention_pending n' = true
    ∧ current_term n' = s_term (disk st v) ∧ voted_for n' = s_voted_for (disk st v);
  sys_retained : ∀ v, retention_pending (live st v) = false → disk st v = saved (live st v);
  sys_carries : ∀ v p, p ∈ net st ++ outbox st v → carries_group (net st) p.2;
  sys_source : ∀ w p v t c, p ∈ outbox st w → claim_of p = Some (v, t, c) → v = w;
  sys_live : ∀ v p t c, p ∈ net st ++ outbox st v → claim_of p = Some (v, t, c) →
    stands (current_term (live st v)) (voted_for (live st v)) t c;
  sys_stored : ∀ v p t c, p ∈ net st → claim_of p = Some (v, t, c) →
    stands (s_term (disk st v)) (s_voted_for (disk st v)) t c;
  sys_once : ∀ v p1 p2 t c1 c2, p1 ∈ net st ++ outbox st v → p2 ∈ net st ++ outbox st v →
    claim_of p1 = Some (v, t, c1) → claim_of p2 = Some (v, t, c2) → c1 = c2 }.

Lemma stands_progress n n' t c :
  progresses strict n n' → stands (current_term n) (voted_for n) t c → stands (current_term n') (voted_for n') t c.
Proof.
  intros Hp [Ht Hv]. pose proof (pg_term _ _ Hp). split; [lia|]. intros ->.
  assert (current_term n' = current_term n) as E by lia. apply (pg_vote _ _ Hp E), Hv. lia.
Qed.

Lemma enabled_op_ok st v op : system_ok st → enabled st v op → (strict → agreed st v op) →
  op_ok (strict := strict) (cfg_ok := group_cfg) (granted := granted_by (net st)) (live st v) op.
Proof.
  intros Hs Hin Ha. destruct op; simpl in *; try done. destruct message; simpl in *; try done.
  all: assert (carries_group (net st) (v, _).2) as Hc by (eapply (sys_carries _ Hs v); apply elem_of_app; left; exact Hin);
    simpl in Hc.
  - split; [by intros _|]. intros Hg. exists m. rewrite (sys_id _ Hs). done.
  - intros _. apply Hc.
  - by destruct Hc.
Qed.

Lemma saved_restores n n' packets : group_node packets n → restore (saved n) = Ok n' →
  id n' = id n ∧ group_node packets n' ∧ retention_pending n' = true
  ∧ current_term n' = current_term n ∧ voted_for n' = voted_for n.
Proof.
  intros Hok Hr. destruct (restored_from strict n n' (ok_hard _ Hok) Hr) as (Hsv&Hh&?&?&?&?). split_and!; try done.
  - exact (f_equal s_id Hsv).
  - by apply restored_ok; [apply hard_ok_weaken|..].
  - exact (f_equal s_term Hsv).
  - exact (f_equal s_voted_for Hsv).
Qed.

Lemma system_new_ok : system_ok (system_new voters).
Proof.
  assert (∀ v, group_node [] (node_new v voters)) as Hn.
  { intros v. by apply node_new_ok. }
  split; simpl; try done; try set_solver.
  - intros v n' Hr. destruct (saved_restores _ _ _ (Hn v) Hr) as (?&?&?&?&?). done.
Qed.

Lemma step_op_ok st v op n' sent :
  system_ok st → enabled st v op → (strict → agreed st v op) → handle (live st v) op = (n', sent) →
  system_ok (mkSystem (<[v := n']> (live st)) (disk st) (<[v := outbox st v ++ sent]> (outbox st)) (net st)).
Proof.
  intros Hs He Ha Hh.
  pose proof (moves_op group_quorum_ok (live st v) op (enabled_op_ok st v op Hs He Ha) (sys_node _ Hs v)) as Hm.
  rewrite Hh in Hm. cbn [fst] in Hm. destruct Hm as (Hok&Hp&Ht).
  assert (id n' = v) as Hid by (rewrite (pg_id _ _ Hp); apply Hs).
  assert (∀ p, p ∈ sent → sent_by (net st) n' p) as Hsent by (intros p; by eapply handle_sent).
  assert (∀ p t c, p ∈ net st ++ outbox st v ++ sent → claim_of p = Some (v, t, c) →
    stands (current_term n') (voted_for n') t c) as Hstands.
  { intros p t c Hin Hc. rewrite app_assoc in Hin. apply elem_of_app in Hin as [Hin|Hin].
    - eapply stands_progress; [done|]. by eapply (sys_live _ Hs).
    - destruct (proj2 (Hsent p Hin) _ _ _ Hc) as (_&->&?). by split. }
  split; simpl.
  - intros w. destruct (decide (v = w)) as [<-|]; [by rewrite fn_lookup_insert|rewrite fn_lookup_insert_ne by done; apply Hs].
  - intros w. destruct (decide (v = w)) as [<-|]; [by rewrite fn_lookup_insert|rewrite fn_lookup_insert_ne by done; apply Hs].
  - apply Hs.
  - intros w. destruct (decide (v = w)) as [<-|]; [|rewrite fn_lookup_insert_ne by done; apply Hs].
    rewrite fn_lookup_insert. intros Hf. destruct Ht as [|[Ef ->]]; [congruence|]. apply Hs. congruence.
  - intros w p. destruct (decide (v = w)) as [<-|]; [|rewrite fn_lookup_insert_ne by done; apply Hs].
    rewrite fn_lookup_insert, app_assoc. intros [Hin|Hin]%elem_of_app; [by eapply (sys_carries _ Hs)|by apply Hsent].
  - intros w p x t c. destruct (decide (v = w)) as [<-|]; [|rewrite fn_lookup_insert_ne by done; apply Hs].
    rewrite fn_lookup_insert. intros [Hin|Hin]%elem_of_app Hc; [by eapply (sys_source _ Hs)|].
    destruct (proj2 (Hsent p Hin) _ _ _ Hc) as (->&_). done.
  - intros w p t c. destruct (decide (v = w)) as [<-|]; [|rewrite !fn_lookup_insert_ne by done; apply Hs].
    rewrite !fn_lookup_insert. apply Hstands.
  - apply Hs.
  - intros w p1 p2 t c1 c2. destruct (decide (v = w)) as [<-|]; [|rewrite fn_lookup_insert_ne by done; apply Hs].
    rewrite fn_lookup_insert. intros H1 H2 Hc1 Hc2.
    pose proof (Hstands _ _ _ H1 Hc1) as [_ Hv1]. pose proof (Hstands _ _ _ H2 Hc2) as [_ Hv2].
    rewrite app_assoc in H1, H2. apply elem_of_app in H1 as [H1|H1], H2 as [H2|H2].
    + by eapply (sys_once _ Hs v p1 p2).
    + destruct (proj2 (Hsent _ H2) _ _ _ Hc2) as (_&->&?). specialize (Hv1 eq_refl). congruence.
    + destruct (proj2 (Hsent _ H1) _ _ _ Hc1) as (_&->&?). specialize (Hv2 eq_refl). congruence.
    + destruct (proj2 (Hsent _ H1) _ _ _ Hc1) as (_&->&?), (proj2 (Hsent _ H2) _ _ _ Hc2) as (_&_&?). congruence.
Qed.

Lemma retained_ok packets n : group_node packets n → group_node packets (retained n).
Proof. intros []. split; [by apply (hard_ok_hard n)|by apply (lead_ok_frame n)|by apply (elect_ok_frame n)]. Qed.

Lemma step_publish_ok st v : system_ok st →
  system_ok (mkSystem (<[v := retained (live st v)]> (live st)) (<[v := saved (live st v)]> (disk st)) (outbox st) (net st)).
Proof.
  intros Hs. split; simpl.
  - intros w. destruct (decide (v = w)) as [<-|]; [rewrite fn_lookup_insert|rewrite fn_lookup_insert_ne by done]; apply Hs.
  - intros w. destruct (decide (v = w)) as [<-|]; [rewrite fn_lookup_insert; apply retained_ok|rewrite fn_lookup_insert_ne by done]; apply Hs.
  - intros w. destruct (decide (v = w)) as [<-|]; [|rewrite fn_lookup_insert_ne by done; apply Hs].
    rewrite fn_lookup_insert. intros n' Hr. destruct (saved_restores _ _ _ (sys_node _ Hs v) Hr) as (->&?&?&?&?).
    split_and!; try done. apply Hs.
  - intros w. destruct (decide (v = w)) as [<-|]; [by rewrite !fn_lookup_insert|rewrite !fn_lookup_insert_ne by done; apply Hs].
  - apply Hs.
  - apply Hs.
  - intros w p t c. destruct (decide (v = w)) as [<-|]; [rewrite fn_lookup_insert; apply (sys_live _ Hs v)|].
    rewrite !fn_lookup_insert_ne by done. apply Hs.
  - intros w p t c Hin. destruct (decide (v = w)) as [<-|]; [|rewrite fn_lookup_insert_ne by done; by apply Hs].
    rewrite fn_lookup_insert. apply (sys_live _ Hs v). apply elem_of_app. by left.
  - apply Hs.
Qed.

Lemma step_release_ok st v : retention_pending (live st v) = false → system_ok st →
  system_ok (mkSystem (live st) (disk st) (<[v := []]> (outbox st)) (net st ++ outbox st v)).
Proof.
  intros Hf Hs. assert (net st ⊆ net st ++ outbox st v) as Hsub by set_solver.
  assert (∀ w p, p ∈ (net st ++ outbox st v) ++ (<[v := []]> (outbox st)) w → p ∈ net st ++ outbox st v ∨ p ∈ outbox st w) as Hin.
  { intros w p [?|Hp]%elem_of_app; [by left|]. destruct (decide (v = w)) as [<-|].
    - rewrite fn_lookup_insert in Hp. by apply elem_of_nil in Hp.
    - rewrite fn_lookup_insert_ne in Hp by done. by right. }
  assert (∀ w p t c, p ∈ (net st ++ outbox st v) ++ (<[v := []]> (outbox st)) w → claim_of p = Some (w, t, c) →
    p ∈ net st ++ outbox st w) as Hown.
  { intros w p t c [Hp|Hp]%Hin Hc; [|apply elem_of_app; by right]. apply elem_of_app in Hp as [Hp|Hp]; [apply elem_of_app; by left|].
    rewrite (sys_source _ Hs v p w t c Hp Hc). apply elem_of_app. by right. }
  split; simpl.
  - apply Hs.
  - intros w. eapply group_node_mono; [exact Hsub|apply Hs].
  - intros w n' Hr. destruct (sys_disk _ Hs w n' Hr) as (?&?&?&?&?). split_and!; try done. by eapply group_node_mono.
  - apply Hs.
  - intros w p [Hp|Hp]%Hin; (eapply carries_mono; [exact Hsub|]); [by eapply (sys_carries _ Hs v)|].
    eapply (sys_carries _ Hs w). apply elem_of_app. by right.
  - intros w p x t c. destruct (decide (v = w)) as [<-|]; [|rewrite fn_lookup_insert_ne by done; apply Hs].
    rewrite fn_lookup_insert. intros Hp. by apply elem_of_nil in Hp.
  - intros w p t c Hp Hc. eapply (sys_live _ Hs w); [|done]. by eapply Hown.
  - intros w p t c [Hp|Hp]%elem_of_app Hc; [by eapply (sys_stored _ Hs)|].
    pose proof (sys_source _ Hs v p w t c Hp Hc) as ->. rewrite (sys_retained _ Hs v Hf).
    eapply (sys_live _ Hs v); [|done]. apply elem_of_app. by right.
  - intros w p1 p2 t c1 c2 H1 H2 Hc1 Hc2. eapply (sys_once _ Hs w p1 p2); try done; by eapply Hown.
Qed.

Lemma step_crash_ok st v n' : restore (disk st v) = Ok n' → system_ok st →
  system_ok (mkSystem (<[v := n']> (live st)) (disk st) (<[v := []]> (outbox st)) (net st)).
Proof.
  intros Hr Hs. destruct (sys_disk _ Hs v n' Hr) as (Hid&Hok&Hf&Et&Ev).
  assert (∀ w p, p ∈ net st ++ (<[v := []]> (outbox st)) w → p ∈ net st ++ outbox st w) as Hin.
  { intros w p [?|Hp]%elem_of_app; [apply elem_of_app; by left|]. destruct (decide (v = w)) as [<-|].
    - rewrite fn_lookup_insert in Hp. by apply elem_of_nil in Hp.
    - rewrite fn_lookup_insert_ne in Hp by done. apply elem_of_app. by right. }
  split; simpl.
  - intros w. destruct (decide (v = w)) as [<-|]; [by rewrite fn_lookup_insert|rewrite fn_lookup_insert_ne by done; apply Hs].
  - intros w. destruct (decide (v = w)) as [<-|]; [by rewrite fn_lookup_insert|rewrite fn_lookup_insert_ne by done; apply Hs].
  - apply Hs.
  - intros w. destruct (decide (v = w)) as [<-|]; [|rewrite fn_lookup_insert_ne by done; apply Hs].
    rewrite fn_lookup_insert. congruence.
  - intros w p Hp%Hin. by eapply (sys_carries _ Hs).
  - intros w p x t c. destruct (decide (v = w)) as [<-|]; [|rewrite fn_lookup_insert_ne by done; apply Hs].
    rewrite fn_lookup_insert. intros Hp. by apply elem_of_nil in Hp.
  - intros w p t c Hp Hc. destruct (decide (v = w)) as [<-|].
    + rewrite fn_lookup_insert, app_nil_r in Hp. rewrite fn_lookup_insert. rewrite Et, Ev. by eapply (sys_stored _ Hs).
    + rewrite fn_lookup_insert_ne by done. eapply (sys_live _ Hs); [|done]. by apply Hin.
  - apply Hs.
  - intros w p1 p2 t c1 c2 H1%Hin H2%Hin. by apply (sys_once _ Hs).
Qed.

(** ** Election safety *)

(** A voter stands behind one host in a term. *)
Definition backs (st : System) (v c : HostId) (t : N) : Prop :=
  (∃ p, p ∈ net st ∧ claim_of p = Some (v, t, c))
  ∨ (current_term (live st v) = t ∧ voted_for (live st v) = Some c).

Lemma backs_once st v c1 c2 t : system_ok st → backs st v c1 t → backs st v c2 t → c1 = c2.
Proof.
  intros Hs. assert (∀ p c, p ∈ net st → claim_of p = Some (v, t, c) → current_term (live st v) = t →
    voted_for (live st v) = Some c) as Hlive.
  { intros p c Hp Hc Et. eapply (sys_live _ Hs v p t c); [apply elem_of_app; by left|done|done]. }
  intros [(p1&Hp1&Hc1)|[Et1 Hv1]] [(p2&Hp2&Hc2)|[Et2 Hv2]].
  - eapply (sys_once _ Hs v p1 p2); try done; apply elem_of_app; by left.
  - specialize (Hlive _ _ Hp1 Hc1 Et2). congruence.
  - specialize (Hlive _ _ Hp2 Hc2 Et1). congruence.
  - congruence.
Qed.

Lemma leads_quorum st v t : system_ok st → leads st v t → ∃ q, group_quorum q ∧ ∀ x, x ∈ q → backs st x v t.
Proof.
  intros Hs. assert (∀ x, granted_by (net st) x v t → backs st x v t) as Hg.
  { intros x (r&Hr&Hgr&<-&<-). left. exists (v, MVoteReply r). split; [done|]. simpl. by rewrite Hgr. }
  intros [[Hr Ht]|(to&m&Hm&<-&<-)].
  - pose proof (sys_node _ Hs v) as Hok. exists (votes (live st v)). split; [by apply (ok_elected _ (ok_elect _ Hok))|].
    intros x Hx. destruct (ok_granted _ (ok_elect _ Hok) (or_intror Hr) x Hx) as [->|Hgr].
    + rewrite (sys_id _ Hs). right. split; [done|]. rewrite (ok_self _ (ok_elect _ Hok)) by auto. by rewrite (sys_id _ Hs).
    + rewrite (sys_id _ Hs), Ht in Hgr. by apply Hg.
  - destruct (sys_carries _ Hs 0 (to, MAppend m)) as (_&q&Hq&Hv); [apply elem_of_app; by left|].
    exists q. split; [done|]. intros x [->|Hgr]%Hv; [|by apply Hg]. left. exists (to, MAppend m). done.
Qed.

Lemma one_leader st a b t : system_ok st → leads st a t → leads st b t → a = b.
Proof.
  intros Hs Ha Hb. destruct (leads_quorum st a t Hs Ha) as (qa&Hqa&Hva), (leads_quorum st b t Hs Hb) as (qb&Hqb&Hvb).
  destruct (majorities_meet _ _ _ Hqa Hqb) as (v&_&H1&H2). eapply backs_once; [done|by apply Hva|by apply Hvb].
Qed.
End safety.

Lemma reachable_ok voters st :
  valid_set voters = true → system_reachable voters st → system_ok (strict := False) voters st.
Proof.
  unfold system_reachable. intros Hv Hr. pose proof (system_new_ok (strict := False) voters Hv) as H0. revert H0.
  generalize dependent (system_new voters). intros s0 Hr. induction Hr as [|s0 s1 s2 Hstep _ IH]; [done|]. intros Hs. apply IH.
  destruct Hstep; [by eapply step_op_ok|by apply step_publish_ok|by apply step_release_ok|by apply step_crash_ok].
Qed.

(** C3. A term has one leader: in a group of a fixed voter configuration, whatever its nodes run and in
    whatever order, over a network that loses, delays, reorders and repeats messages, snapshots included, with
    hosts that crash at any point and restart from what they last published, any two hosts that lead a term, now
    or by an append that ever reached the network, are the same host.  Nothing is asked of the snapshots: it holds
    also where one replaces entries its host had committed. *)
Theorem election_safety voters st a b term :
  valid_set voters = true → system_reachable voters st → leads st a term → leads st b term → a = b.
Proof. intros Hv Hr. apply (one_leader (strict := False) voters). by apply reachable_ok. Qed.

(** ** A run that elects *)
Definition do_op (v : HostId) (op : Op) (st : System) : System :=
  mkSystem (<[v := (handle (live st v) op).1]> (live st)) (disk st)
    (<[v := outbox st v ++ (handle (live st v) op).2]> (outbox st)) (net st).
Definition do_publish (v : HostId) (st : System) : System :=
  mkSystem (<[v := retained (live st v)]> (live st)) (<[v := saved (live st v)]> (disk st)) (outbox st) (net st).
Definition do_release (v : HostId) (st : System) : System :=
  mkSystem (live st) (disk st) (<[v := []]> (outbox st)) (net st ++ outbox st v).

Lemma then_op voters v op st : enabled st v op → system_reachable voters st → system_reachable voters (do_op v op st).
Proof. intros He Hr. eapply rtc_r; [exact Hr|]. apply step_op with op; [done|apply surjective_pairing]. Qed.
Lemma then_publish voters v st : system_reachable voters st → system_reachable voters (do_publish v st).
Proof. intros Hr. eapply rtc_r; [exact Hr|]. apply step_publish. Qed.
Lemma then_release voters v st : retention_pending (live st v) = false → system_reachable voters st →
  system_reachable voters (do_release v st).
Proof. intros Hf Hr. eapply rtc_r; [exact Hr|]. by apply step_release. Qed.

Definition trio : list HostId := [1; 2; 3].
Definition campaigned : System := do_release 1 (do_publish 1 (do_op 1 StartElection (system_new trio))).
Definition vote_request : Message := MRequestVote (mkRequestVote 1 1 0 0).
Definition voted : System := do_release 2 (do_publish 2 (do_op 2 (Receive vote_request) campaigned)).
Definition vote_grant : Message := MVoteReply (mkVoteReply 2 1 true []).
Definition elected : System := do_op 1 (AppendCommand sample_command) (do_op 1 (Receive vote_grant) voted).
Definition appended : System := do_release 1 (do_publish 1 (do_op 1 (ReplicateTo 3 100) elected)).

Lemma campaigned_reachable : system_reachable trio campaigned.
Proof. apply then_release; [vm_compute; reflexivity|]. apply then_publish, then_op; [exact I|]. apply rtc_refl. Qed.
Lemma voted_reachable : system_reachable trio voted.
Proof.
  apply then_release; [vm_compute; reflexivity|]. apply then_publish, then_op; [|apply campaigned_reachable].
  apply (list_elem_of_lookup_2 _ 0). vm_compute. reflexivity.
Qed.
Lemma appended_reachable : system_reachable trio appended.
Proof.
  apply then_release; [vm_compute; reflexivity|]. apply then_publish, then_op; [exact I|].
  apply then_op; [exact I|]. apply then_op; [|apply voted_reachable].
  apply (list_elem_of_lookup_2 _ 2). vm_compute. reflexivity.
Qed.

Lemma election_safety_witness :
  is_leader (live appended 1) = true ∧ current_term (live appended 1) = 1 ∧ length (net appended) = 4%nat
  ∧ ∀ b, leads appended b 1 → b = 1.
Proof.
  split_and!; [vm_compute; reflexivity..|]. intros b Hb.
  apply (election_safety trio appended b 1 1); [vm_compute; reflexivity|apply appended_reachable|exact Hb|].
  left. split; vm_compute; reflexivity.
Defined.
