(* ===== verification/RaftLive.v ===== *)
(** * Progress of a Raft group

    That an election makes progress: a node whose log is current among a
    majority that has not moved past its term, and whose round is answered,
    leads the next term. *)

From S2P Require Import Prelude RaftState RaftLog RaftElect RaftReplicate RaftFast RaftAdmin RaftInv RaftAppend RaftOps RaftSaved.
#[local] Open Scope N_scope.

(** ** One round *)

(** The request every voter of a round is sent, and their answers handed to the candidate in turn. *)
Definition round_request (n : RaftNode) : RequestVote :=
  mkRequestVote (current_term n) (id n) (last_log_index n) (last_log_term n).
Definition answer (peers : HostId → RaftNode) (request : RequestVote) (n : RaftNode) (v : HostId) : RaftNode :=
  on_vote_reply n (on_request_vote (peers v) request).2.
Definition election_round (n : RaftNode) (peers : HostId → RaftNode) (answering : list HostId) : RaftNode :=
  let n1 := (start_election n).1 in foldl (answer peers (round_request n1)) n1 answering.

(** A peer that grants with nothing to report: it is at or below the candidate's old term, its window is empty,
    and its log is no more current. *)
Definition grants (n peer : RaftNode) : Prop :=
  current_term peer ≤ current_term n ∧ window peer = ∅
  ∧ candidate_log_is_current peer (last_log_index n) (last_log_term n) = true.

Lemma window_above_empty n i : window n = ∅ → window_above n i = [].
Proof. intros E. unfold window_above, window_reports. by rewrite E. Qed.

(** A node without a window whose voters report nothing has nothing to recover. *)
Lemma plan_recovery_empty n :
  window n = ∅ → (∀ v rs, reports n !! v = Some rs → rs = []) →
  rc_decided (plan_recovery n) = ∅ ∧ rc_last (plan_recovery n) < rc_next (plan_recovery n) ≤ u64_max + 1
  ∧ sat_sub (sat_add (rc_last (plan_recovery n)) 1) (rc_next (plan_recovery n)) = 0.
Proof.
  intros Hw Hr. unfold plan_recovery. rewrite (window_above_empty n) by done.
  assert (concat (bt_values (reports n)) = []) as ->.
  { assert (∀ l : list (list SlotReport), Forall (λ x, x = []) l → concat l = []) as Hc.
    { induction 1 as [|x l -> _ IH]; [done|]. exact IH. }
    apply Hc. apply Forall_forall. intros rs ([v rs']&->&Hv%elem_of_bt_list)%list_elem_of_fmap. by eapply Hr. }
  assert (last_log_index n ≤ u64_max) by (unfold last_log_index, sat_add; lia).
  assert (0 < u64_max) by done.
  cbn [app filter list_filter foldl]. rewrite omap_empty. unfold last_elem, sat_sub, sat_add.
  rewrite dom_empty_L. change (last (bt_elems (∅ : gset N))) with (@None N).
  unfold checked_add. destruct (last_log_index n + 1 <=? u64_max) eqn:E; bool_to_prop; simpl; (split; [done|]); lia.
Qed.

Lemma admits_empty n r :
  rc_decided r = ∅ → sat_sub (sat_add (rc_last r) 1) (rc_next r) = 0 → log_bytes_held n ≤ log_budget n → log_budget n ≤ u64_max →
  admits n r = true.
Proof.
  intros Hd Hs Hb Hm. unfold admits. rewrite Hs, Hd. apply N.leb_le.
  change (sat_add (sat_add (log_bytes_held n) 0) 0 ≤ log_budget n). unfold sat_add. lia.
Qed.

(** ** The candidate through its round *)
Section round.
Context (n0 : RaftNode) (term : N).

(** Elected, or a candidate that has the votes of those who answered and no majority yet. *)
Definition same_log (n : RaftNode) : Prop :=
  (id n, log n, snapshot_index n, snapshot_term n) = (id n0, log n0, snapshot_index n0, snapshot_term n0).
Definition won (n : RaftNode) : Prop := role n = Leader ∧ current_term n = term ∧ same_log n.
Record waiting (heard : gset HostId) (n : RaftNode) : Prop := mkWaiting {
  wt_role : role n = Candidate;
  wt_term : current_term n = term;
  wt_log : same_log n;
  wt_votes : votes n = {[ id n0 ]} ∪ heard;
  wt_window : window n = ∅;
  wt_reports : ∀ v rs, reports n !! v = Some rs → rs = [];
  wt_config : effective_config n = effective_config n0;
  wt_budget : log_bytes_held n ≤ log_budget n ≤ u64_max }.

Lemma waiting_become heard n : waiting heard n →
  won (become_leader_if_majority n)
  ∨ (waiting heard (become_leader_if_majority n) ∧ is_majority n (votes n) = false).
Proof.
  intros [Hr Ht Hi Hv Hw Hp Hc Hb]. unfold become_leader_if_majority.
  rewrite bool_decide_eq_true_2 by done. cbn [negb orb].
  destruct (is_majority n (votes n)) eqn:Em; cbn [negb]; [|by right].
  destruct (plan_recovery_empty n Hw Hp) as (Hd&Hn&Hs).
  rewrite (admits_empty n (plan_recovery n)) by (try done; apply Hb). cbn [negb]. left.
  unfold recover. rewrite (proj2 (N.leb_gt _ _)) by lia.
  match goal with |- won (foldl _ ?m _) => set (m1 := m) end.
  assert (won m1) as H1 by (split; [done|split; [exact Ht|exact Hi]]).
  generalize (filter (λ p, p ≠ id m1) (all_voters m1)). intros l. clearbody m1.
  revert m1 H1. induction l as [|v l IH]; intros m1 H1; simpl; [done|]. apply IH. exact H1.
Qed.

Definition the_request : RequestVote := mkRequestVote term (id n0) (last_log_index n0) (last_log_term n0).

Lemma granted_answer peers v :
  grants n0 (peers v) → current_term n0 < term → id (peers v) = v →
  admit_candidacy term (last_log_index n0) (last_log_term n0) = Ok tt →
  (on_request_vote (peers v) the_request).2 = mkVoteReply v term true [].
Proof.
  intros (Hpt&Hpw&Hcur) Hlt Hid Hadm. unfold on_request_vote, the_request.
  cbn [rv_term rv_candidate rv_last_log_index rv_last_log_term]. rewrite Hadm.
  rewrite (proj2 (N.ltb_lt _ _)) by lia. set (m := step_down (peers v) term).
  assert (candidate_log_is_current m (last_log_index n0) (last_log_term n0) = true) as Hcm by exact Hcur.
  change (voted_for m) with (@None HostId). change (current_term m) with term.
  rewrite N.eqb_refl, Hcm. rewrite (bool_decide_eq_true_2 (None = None)) by done. cbn [orb andb snd].
  rewrite window_above_empty by exact Hpw. by change (id (pending _ m <| voted_for := _ |>)) with (id (peers v)); rewrite Hid.
Qed.

Lemma answer_step heard n peers v :
  waiting heard n → grants n0 (peers v) → current_term n0 < term → id (peers v) = v →
  v ∈ all_voters n0 → admit_candidacy term (last_log_index n0) (last_log_term n0) = Ok tt →
  won (answer peers the_request n v)
  ∨ (waiting ({[ v ]} ∪ heard) (answer peers the_request n v)
     ∧ is_majority n ({[ id n0 ]} ∪ ({[ v ]} ∪ heard)) = false).
Proof.
  intros Hwt Hg Hlt Hid Hv Hadm. unfold answer. rewrite (granted_answer peers v) by done.
  destruct Hwt as [Hr Ht Hi Hvo Hw Hp Hc Hb]. unfold on_vote_reply.
  change (admit_reports _) with (@Ok Malformed.t unit tt). cbn [vr_reports vr_term vr_granted vr_voter].
  rewrite Ht, N.ltb_irrefl, N.eqb_refl, bool_decide_eq_true_2 by done.
  assert (votes_in_configuration n v = true) as ->.
  { unfold votes_in_configuration. rewrite Hc. unfold all_voters in Hv. apply elem_of_bt_elems in Hv. unfold config_members in Hv.
    apply orb_true_iff. apply elem_of_union in Hv as [Hv%elem_of_list_to_set|Hv%elem_of_list_to_set].
    - left. by apply bool_decide_eq_true.
    - right. destruct (vc_joint _); simpl in *; [by apply bool_decide_eq_true|set_solver]. }
  cbn [andb]. match goal with |- won (become_leader_if_majority ?x) ∨ _ => set (n' := x) end.
  assert (votes n' = {[ id n0 ]} ∪ ({[ v ]} ∪ heard)) as Ev.
  { subst n'. node_simpl. rewrite Hvo. set_solver. }
  assert (waiting ({[ v ]} ∪ heard) n') as Hwt'.
  { split; [exact Hr|exact Ht|exact Hi|exact Ev|exact Hw| |exact Hc|exact Hb].
    intros x rs Hx. unfold n' in Hx. node_simpl in Hx. apply lookup_insert_Some in Hx as [[_ <-]|[_ Hx]]; [done|by eapply Hp]. }
  destruct (waiting_become _ _ Hwt') as [?|[? Hm]]; [by left|right]. split; [done|]. by rewrite Ev in Hm.
Qed.

Lemma won_answer n peers v :
  won n → grants n0 (peers v) → current_term n0 < term → id (peers v) = v →
  admit_candidacy term (last_log_index n0) (last_log_term n0) = Ok tt → won (answer peers the_request n v).
Proof.
  intros (Hr&Ht&Hl) Hg Hlt Hid Hadm. unfold answer. rewrite (granted_answer peers v) by done. unfold on_vote_reply.
  change (admit_reports _) with (@Ok Malformed.t unit tt). cbn [vr_reports vr_term vr_granted vr_voter].
  rewrite Ht, N.ltb_irrefl, bool_decide_eq_false_2 by (by rewrite Hr). by split_and!.
Qed.

Lemma round_fold peers answering heard n :
  current_term n0 < term → admit_candidacy term (last_log_index n0) (last_log_term n0) = Ok tt →
  (∀ v, v ∈ answering → v ∈ all_voters n0 ∧ id (peers v) = v ∧ grants n0 (peers v)) →
  won n ∨ (waiting heard n ∧ is_majority n0 ({[ id n0 ]} ∪ heard) = false) →
  let n' := foldl (answer peers the_request) n answering in
  won n' ∨ (waiting (list_to_set answering ∪ heard) n'
            ∧ is_majority n0 ({[ id n0 ]} ∪ (list_to_set answering ∪ heard)) = false).
Proof.
  intros Hlt Hadm. revert heard n. induction answering as [|v l IH]; intros heard n Hans Hn; cbn [foldl list_to_set].
  { by replace (∅ ∪ heard) with heard by set_solver. }
  destruct (Hans v) as (Hv&Hid&Hg); [by left|].
  replace ({[v]} ∪ list_to_set l ∪ heard) with (list_to_set l ∪ ({[v]} ∪ heard)) by set_solver.
  apply IH; [intros w Hw; apply Hans; by right|]. destruct Hn as [Hn|[Hn _]]; [left; by apply won_answer|].
  destruct (answer_step heard n peers v) as [?|[? Hm]]; try done; [by left|right]. split; [done|].
  unfold is_majority in *. by rewrite (wt_config _ _ Hn) in Hm.
Qed.
End round.

Lemma last_position_agrees n : hard_ok True config_valid n → position_agrees (last_log_index n) (last_log_term n) = true.
Proof.
  intros Hh. unfold position_agrees. rewrite last_log_index_eq by done. unfold last_log_term.
  destruct (last (log n)) as [e|] eqn:El; simpl.
  - rewrite last_lookup in El. pose proof (terms_ok_lookup _ _ _ _ _ (ok_terms _ Hh) El) as (?&_).
    apply lookup_lt_Some in El. rewrite !(proj2 (N.eqb_neq _ _)); [done|lia|unfold len; lia].
  - apply last_None in El. rewrite El, len_nil, N.add_0_r.
    destruct (N.eqb_spec (snapshot_index n) 0) as [E|E].
    + destruct (ok_origin _ Hh E) as [-> _]. done.
    + pose proof (ok_boundary _ Hh). rewrite (proj2 (N.eqb_neq _ _)); [done|lia].
Qed.

(** C39. An undisturbed election round elects.  A node whose callers kept the promises of [reachable], a voter of its
    own configuration with a term left to take, starts an election; enough voters to make a majority with it, none of
    them past its term or ahead of its log, receive its request, and their replies reach it.  Where the fast track's
    windows of the candidate and of those voters are empty, and the candidate's log is within its byte budget (it
    declines the term otherwise), it leads the next term. *)
Theorem election_round_elects n peers answering :
  reachable n → is_voter n (id n) = true → current_term n < u64_max → window n = ∅ →
  log_bytes_held n ≤ log_budget n ≤ u64_max →
  (∀ v, v ∈ answering → v ∈ all_voters n ∧ id (peers v) = v ∧ grants n (peers v)) →
  is_majority n ({[ id n ]} ∪ list_to_set answering) = true →
  is_leader (election_round n peers answering) = true
  ∧ current_term (election_round n peers answering) = current_term n + 1.
Proof.
  intros Hh%reachable_valid%ok_hard Hv Ht Hw Hb Hans Hm. unfold election_round.
  assert (admit_candidacy (current_term n + 1) (last_log_index n) (last_log_term n) = Ok tt) as Hadm.
  { unfold admit_candidacy. rewrite (proj2 (N.eqb_neq _ _)) by lia. pose proof (last_log_term_le n Hh).
    rewrite (proj2 (N.ltb_ge _ _)) by lia. by rewrite last_position_agrees. }
  assert (∃ n1, (start_election n).1 = n1 ∧ (won n (current_term n + 1) n1
    ∨ (waiting n (current_term n + 1) ∅ n1 ∧ is_majority n ({[ id n ]} ∪ ∅) = false))) as (n1&->&Hn1).
  { eexists. split; [done|]. unfold start_election, next_term. rewrite Hv. cbn [negb].
    assert (checked_add (current_term n) 1 = Some (current_term n + 1)) as -> by (apply checked_add_some; lia).
    rewrite bool_decide_eq_false_2 by done. cbn [fst].
    match goal with |- context [become_leader_if_majority ?x] => set (n' := x) end.
    assert (waiting n (current_term n + 1) ∅ n') as Hwt.
    { split; try done. subst n'. node_simpl. set_solver. }
    destruct (waiting_become _ _ _ _ Hwt) as [?|[? Hf]]; [by left|right]. split; [done|].
    rewrite (wt_votes _ _ _ _ Hwt) in Hf. exact Hf. }
  assert (same_log n n1 ∧ current_term n1 = current_term n + 1) as [Hs Et].
  { destruct Hn1 as [(?&?&?)|[[] _]]; done. }
  assert (round_request n1 = the_request n (current_term n + 1)) as ->.
  { injection Hs as E1 E2 E3 E4. unfold round_request, the_request, last_log_index, last_log_term.
    by rewrite Et, E1, E2, E3, E4. }
  destruct (round_fold n (current_term n + 1) peers answering ∅ n1) as [(Hr&Ht'&_)|[_ Hf]]; try done; [lia| |].
  - split; [by apply bool_decide_eq_true|done].
  - rewrite (union_empty_r_L (list_to_set answering : gset HostId)) in Hf. congruence.
Qed.

Lemma election_round_elects_witness :
  is_leader (election_round (node_new 1 [1; 2; 3]) (λ v, node_new v [1; 2; 3]) [2]) = true
  ∧ current_term (election_round (node_new 1 [1; 2; 3]) (λ v, node_new v [1; 2; 3]) [2]) = 1.
Proof.
  apply (election_round_elects (node_new 1 [1; 2; 3]) (λ v, node_new v [1; 2; 3]) [2]).
  - apply reach_new. vm_compute. reflexivity.
  - vm_compute. reflexivity.
  - vm_compute. reflexivity.
  - reflexivity.
  - vm_compute. split; discriminate.
  - intros v ->%list_elem_of_singleton. split; [|split; [reflexivity|split; [|split]]].
    + apply (bool_decide_unpack _). vm_compute. exact I.
    + vm_compute. discriminate.
    + reflexivity.
    + vm_compute. reflexivity.
  - vm_compute. reflexivity.
Defined.
