(* ===== verification/RaftFindings.v ===== *)
(** * Raft behaviours the source does not describe

    Evaluations of the node on small runs, where its code does something else
    than a comment beside it says; and a run of a group in which that breaks
    agreement. *)

From S2P Require Import Prelude RaftState RaftLog RaftElect RaftReplicate RaftFast RaftAdmin RaftInv RaftAppend RaftOps RaftSaved RaftQuorum RaftSystem.
#[local] Open Scope N_scope.

(** ** A snapshot below the commit index *)
Definition two_entries : Message :=
  MAppend (mkAppendEntries 0 1 1 0 0 [command_entry 1 (as_bytes "a"); command_entry 1 (as_bytes "b")] 2 [] 0 0).
Definition other_boundary : InstallSnapshot :=
  mkInstallSnapshot 2 1 1 2 (mkVoterConfig [1; 2; 3] None) (as_bytes "state").
(** A snapshot ending inside the committed prefix with another term is admitted, clears the log and leaves the
    commit index past its end: the node's own state no longer validates. *)
Theorem snapshot_uncovers_commit :
  let n := run (node_new 2 [1; 2; 3]) [Receive two_entries] in
  let n' := run n [Receive (MSnapshot other_boundary)] in
  validate (saved n) = Ok tt ∧ admit_snapshot other_boundary = Ok tt ∧ commit_index n' = 2 ∧ last_log_index n' = 1
  ∧ validate (saved n') = Err InvalidCommitIndex.
Proof. vm_compute. split_and!; reflexivity. Qed.

(** ** A membership change that repeats a voter *)
(** A change to a voter set with a repeat begins, and what the leader then retains is refused at a restart,
    as its entry is by every follower. *)
Theorem repeated_voter_unretained :
  let n := run (node_new 1 [1]) [StartElection; AppendCommand (as_bytes "a")] in
  let '(n', begun) := begin_membership_change n [2; 2] in
  begun = true ∧ validate (saved n) = Ok tt ∧ validate (saved n') = Err InvalidVoters
  ∧ admit_entries (log n') 0 1 = Err Malformed.Voters.
Proof. vm_compute. split_and!; reflexivity. Qed.

(** ** What is known committed after leading *)
Definition grant_of_2 : Message := MVoteReply (mkVoteReply 2 1 true []).
Definition match_of_2 : Message := MAppendReply (mkAppendReply 0 2 1 true 1 0 0 priority_default).
(** A leader that the quorum check deposes keeps its [fast_through]. *)
Theorem deposed_keeps_fast_through :
  let n := run (node_new 1 [1; 2; 3])
    [StartElection; Receive grant_of_2; AppendCommand (as_bytes "a"); Receive match_of_2; CheckQuorum; CheckQuorum] in
  is_leader n = false ∧ fast_through n = 1.
Proof. vm_compute. split; reflexivity. Qed.

(** ** An acknowledgement past what was checked *)

(** Events of a group: a host runs an operation of its own, publishes and releases what it sent, or takes the
    packet at a position of the network. *)
Inductive Event := Run (v : HostId) (op : Op) | Send (v : HostId) | Deliver (k : nat).
Definition own_op (op : Op) : bool :=
  match op with
  | Receive _ | BeginMembershipChange _ | CompleteMembershipChange | PromoteCaughtUp _ => false
  | _ => true
  end.
Definition play (st : System) (e : Event) : System :=
  match e with
  | Run v op => if own_op op then do_op v op st else st
  | Send v => do_release v (do_publish v st)
  | Deliver k =>
      match net st !! k with
      | None => st
      | Some (v, m) => do_op v (Receive m) st
      end
  end.

Lemma play_reachable voters events st :
  system_reachable voters st → system_reachable voters (foldl play st events).
Proof.
  revert st. induction events as [|e events IH]; intros st Hr; [done|]. apply IH. destruct e as [v op|v|k]; simpl.
  - destruct (own_op op) eqn:E; [|done]. apply then_op; [|done]. by destruct op.
  - apply then_release; [simpl; by rewrite functions.fn_lookup_insert|by apply then_publish].
  - destruct (net st !! k) as [[v m]|] eqn:E; [|done].
    apply then_op; [|done]. by eapply list_elem_of_lookup_2.
Qed.

(** Host 1 leads term 1 and keeps three commands to itself; host 2 leads terms 2 and 3 without reaching it.
    Each leader appends the empty command its group appends on winning. *)
Definition divided : list Event :=
  let x := AppendCommand (as_bytes "x") in
  [Run 1 StartElection; Send 1; Deliver 0; Send 2; Deliver 2; Run 1 (AppendCommand []); Run 1 (ReplicateTo 2 100);
   Send 1; Deliver 3; Run 1 x; Run 1 x; Run 1 x; Send 1; Send 2;
   Run 2 StartElection; Send 2; Deliver 6; Send 3; Deliver 7; Run 2 (AppendCommand []);
   Run 2 (AppendCommand (as_bytes "c")); Run 2 StartElection; Send 2; Deliver 9; Send 3; Deliver 10;
   Run 2 (AppendCommand [])].
(** Host 1 refuses host 2's first append; the refusal arrives twice, so host 2 backs up to the start and sends
    its first entry.  Host 1 holds it, and acknowledges its own log's end. *)
Definition acknowledged : list Event :=
  [Run 2 (ReplicateTo 1 1); Send 2; Deliver 11; Send 1; Deliver 12; Deliver 12; Run 2 (ReplicateTo 1 1); Send 2;
   Deliver 13; Send 1; Deliver 14; Send 2].
(** Host 1 is elected by host 3, whose log is empty, and commits its own log. *)
Definition overtaken : list Event :=
  [Run 1 StartElection; Send 1; Deliver 16; Send 3; Deliver 17; Run 1 (AppendCommand []); Run 1 (ReplicateTo 3 1000);
   Send 1; Deliver 18; Send 3; Deliver 19; Run 1 (ReplicateTo 3 1000); Send 1; Deliver 20; Send 3; Deliver 21].

(** A delivery in a run after which the receiver acknowledges entries of a deposed leader that the append it answers
    did not cover: the index it names is past the append's last, and holds an entry of an older term. *)
Definition acknowledges_uncovered (st : System) (k : nat) : Prop :=
  match net st !! k with
  | Some (v, MAppend m) =>
      let '(n, reply) := on_append_entries (live st v) m in
      ar_success reply = true ∧ ae_prev_log_index m + len (ae_entries m) < ar_match_index reply
      ∧ match entry_at n (ar_match_index reply) with Some e => le_term e < ae_term m | None => False end
  | _ => False
  end.

(** The packets a run delivers. *)
Definition deliveries (events : list Event) : list nat := omap (λ e, match e with Deliver k => Some k | _ => None end) events.

(** The reply of a successful append names at least the end of the follower's whole log. *)
Lemma acknowledges_log_end n request prev prev_term entries n' reply :
  append_at n request prev prev_term entries = (n', reply) → ar_success reply = true →
  last_log_index n' ≤ ar_match_index reply.
Proof.
  unfold append_at. split_if; [intros [= <- <-] Hs; unfold conflict_reply in Hs; by repeat case_match|].
  split_if; [by intros [= <- <-]|].
  destruct (place_entries n prev entries) as [m i]. unfold absorb. cbv zeta.
  match goal with |- context [absorb_loop ?f ?x ?t] => set (z := absorb_loop f x t) end.
  intros [= <- <-] _. unfold append_reply. cbn [ar_match_index].
  assert (last_log_index (prune_committed z) = last_log_index z) as -> by done. lia.
Qed.

(** C40. Agreement on committed entries does not hold of the code as it is.  The reply of every append a follower
    places names at least the end of the follower's whole log, not the last index the append covered
    ([absorb(..).max(index)]); and a group of three has a run, of nothing but its hosts' own operations, publications,
    releases and deliveries, in which no host crashes and no packet but one is delivered more than once, in which a
    follower acknowledges entries of a deposed leader that no append covered, and two hosts end with different
    entries committed at one index. *)
Theorem stale_tail_breaks_agreement :
  (∀ n request prev prev_term entries n' reply,
     append_at n request prev prev_term entries = (n', reply) → ar_success reply = true →
     last_log_index n' ≤ ar_match_index reply)
  ∧ ∃ before k after repeated once,
      let st := foldl play (system_new trio) (before ++ Deliver k :: after) in
      system_reachable trio st
      ∧ deliveries (before ++ Deliver k :: after) ≡ₚ repeated :: once ∧ NoDup once
      ∧ acknowledges_uncovered (foldl play (system_new trio) before) k
      ∧ 2 ≤ commit_index (live st 1) ∧ 2 ≤ commit_index (live st 2)
      ∧ entry_at (live st 1) 2 = Some (command_entry 1 (as_bytes "x"))
      ∧ entry_at (live st 2) 2 = Some (command_entry 2 []).
Proof.
  split; [apply acknowledges_log_end|].
  exists (divided ++ take 8 acknowledged), 13%nat, (drop 9 acknowledged ++ overtaken), 12%nat,
    [0; 2; 3; 6; 7; 9; 10; 11; 12; 13; 14; 16; 17; 18; 19; 20; 21]%nat.
  split; [apply play_reachable, rtc_refl|]. split; [|split; [|split]].
  - apply (bool_decide_unpack _). vm_compute. exact I.
  - apply (bool_decide_unpack _). vm_compute. exact I.
  - vm_compute. split_and!; reflexivity.
  - vm_compute. split_and!; (reflexivity || discriminate).
Qed.
