(* ===== verification/RaftSpec.v ===== *)
(** * The replicated log

    What a Raft group of [crates/cluster/src/raft.rs] promises, as a state
    machine over whole logs: each term has at most one owner, whose log is the
    term's; a host's log follows the term it is in; a quorum's
    acknowledgements choose a prefix.  Hosts publish, release what they sent
    and crash as the group of [RaftSystem] does.  The invariant is leader
    completeness, and with it that committed prefixes agree. *)

From S2P Require Import Prelude RaftState RaftInv.
From stdpp Require Import functions.
#[local] Open Scope N_scope.

(** ** The state *)

(** What hosts tell each other: a prefix held of a term's log, a vote, a candidacy with the end of its log. *)
Inductive Fact :=
| Ack (w : HostId) (t : N) (m : nat)
| Grant (w : HostId) (t : N) (c : HostId)
| Request (c : HostId) (t : N) (last_t : N) (size : nat).

Record Host := mkHost { sh_term : N; sh_log : list LogEntry; sh_commit : nat; sh_role : Role }.

(** [sp_owner t] and [sp_lead t]: who led a term, and its log; [sp_pub t]: how much of it the owner has published. *)
Record Spec := mkSpec {
  sp_live : HostId → Host;
  sp_disk : HostId → Host;
  sp_out : HostId → list Fact;
  sp_net : list Fact;
  sp_owner : N → option HostId;
  sp_lead : N → list LogEntry;
  sp_pub : N → option nat }.

Definition published (s : Spec) (t : N) : list LogEntry :=
  match sp_pub s t with Some p => take p (sp_lead s t) | None => [] end.
(** A term's log as a host sees it: its own in full, another's as far as published. *)
Definition sight (s : Spec) (v : HostId) (t : N) : list LogEntry :=
  if decide (sp_owner s t = Some v) then sp_lead s t else published s t.
Definition sees (s : Spec) (v : HostId) (t : N) : Prop := sp_owner s t = Some v ∨ is_Some (sp_pub s t).

(** Every entry of a log stands where its term's log has it. *)
Definition cons_with (view : N → list LogEntry) (l : list LogEntry) : Prop :=
  ∀ i e, l !! i = Some e → take (S i) l `prefix_of` view (le_term e).

Section spec.
Context (voters : list HostId) (quorum : gset HostId → Prop).

Definition acked (s : Spec) (w : HostId) (t : N) (j : nat) : Prop := ∃ m, Ack w t m ∈ sp_net s ++ sp_out s w ∧ (j < m)%nat.
Definition acked_net (s : Spec) (w : HostId) (t : N) (j : nat) : Prop := ∃ m, Ack w t m ∈ sp_net s ∧ (j < m)%nat.

(** A position of a term's log that holds an entry of the term. *)
Definition fresh_at (l : list LogEntry) (t : N) (j : nat) : Prop := ∃ e, l !! j = Some e ∧ le_term e = t.

(** The prefix through a position is chosen; it may still come to be. *)
Definition chosen (s : Spec) (t : N) (j : nat) : Prop :=
  fresh_at (sp_lead s t) t j ∧ ∃ q, quorum q ∧ ∀ w, w ∈ q → sp_owner s t = Some w ∨ acked_net s w t j.
Definition choosable (s : Spec) (t : N) (j : nat) : Prop :=
  fresh_at (sp_lead s t) t j
  ∧ ∃ q, quorum q ∧ ∀ w, w ∈ q → sp_owner s t = Some w ∨ acked s w t j ∨ sh_term (sp_disk s w) ≤ t.

(** The first [c] entries of a log are part of a chosen prefix. *)
Definition certified (s : Spec) (view : N → list LogEntry) (term : N) (l : list LogEntry) (c : nat) : Prop :=
  c = 0%nat ∨ ∃ t j, t ≤ term ∧ chosen s t j ∧ (j < length (view t))%nat ∧ (c ≤ S j)%nat ∧ (c ≤ length l)%nat
                     ∧ take c l `prefix_of` view t.

(** The end of a log is not behind another's. *)
Definition not_behind (last_t : N) (size : nat) (l : list LogEntry) : Prop :=
  last_term 0 l < last_t ∨ (last_t = last_term 0 l ∧ (length l ≤ size)%nat).

(** What a log may become under the log of the term it follows. *)
Definition follows (t l l' : list LogEntry) : Prop :=
  l' = l ∨ (l `prefix_of` l' ∧ l' `prefix_of` t)
  ∨ (l' `prefix_of` t ∧ ¬ l `prefix_of` t ∧ ¬ t `prefix_of` l
     ∧ ∀ k, take k l = take k t → (k ≤ length l)%nat → (k ≤ length t)%nat → (k ≤ length l')%nat).

(** ** Steps *)
Definition with_host (s : Spec) (v : HostId) (h : Host) (facts : list Fact) : Spec :=
  mkSpec (<[v := h]> (sp_live s)) (sp_disk s) (<[v := sp_out s v ++ facts]> (sp_out s)) (sp_net s) (sp_owner s) (sp_lead s) (sp_pub s).
Definition with_lead (s : Spec) (v : HostId) (t : N) (l : list LogEntry) : Spec :=
  mkSpec (sp_live s) (sp_disk s) (sp_out s) (sp_net s) (<[t := Some v]> (sp_owner s)) (<[t := l]> (sp_lead s)) (sp_pub s).

(** A host publishes its state, and with it the logs of the terms it owns; releases what it sent; or restarts,
    losing what it had not published. *)
Definition with_publish (s : Spec) (v : HostId) : Spec :=
  mkSpec (sp_live s) (<[v := sp_live s v]> (sp_disk s)) (sp_out s) (sp_net s) (sp_owner s) (sp_lead s)
    (λ t, if decide (sp_owner s t = Some v) then Some (length (sp_lead s t)) else sp_pub s t).
Definition with_release (s : Spec) (v : HostId) : Spec :=
  mkSpec (sp_live s) (sp_disk s) (<[v := []]> (sp_out s)) (sp_net s ++ sp_out s v) (sp_owner s) (sp_lead s) (sp_pub s).
Definition with_crash (s : Spec) (v : HostId) (h' : Host) : Spec :=
  mkSpec (<[v := h']> (sp_live s)) (sp_disk s) (<[v := []]> (sp_out s)) (sp_net s)
    (λ t, if decide (sp_owner s t = Some v ∧ sp_pub s t = None) then None else sp_owner s t)
    (λ t, if decide (sp_owner s t = Some v) then published s t else sp_lead s t) (sp_pub s).

(** A role kept, or given up. *)
Definition role_kept (h h' : Host) : Prop :=
  sh_term h ≤ sh_term h' ∧ ∀ r, r = Candidate ∨ r = Leader → sh_role h' = r → sh_role h = r ∧ sh_term h' = sh_term h.

Inductive spec_step : Spec → Spec → Prop :=
| spec_idle s v h' : role_kept (sp_live s v) h' → sh_log h' = sh_log (sp_live s v) → sh_commit h' = sh_commit (sp_live s v) →
    spec_step s (with_host s v h' [])
| spec_campaign s v h' k : v ∈ voters → sh_term (sp_live s v) < sh_term h' → sh_role h' = Candidate →
    sh_log h' = sh_log (sp_live s v) → sh_commit h' = sh_commit (sp_live s v) →
    spec_step s (with_host s v h' (replicate k (Request v (sh_term h') (last_term 0 (sh_log h')) (length (sh_log h')))))
| spec_grant s v h' c last_t size : role_kept (sp_live s v) h' → sh_log h' = sh_log (sp_live s v) →
    sh_commit h' = sh_commit (sp_live s v) → Request c (sh_term h') last_t size ∈ sp_net s →
    not_behind last_t size (sh_log h') → spec_step s (with_host s v h' [Grant v (sh_term h') c])
| spec_win s v h' es q : sh_role (sp_live s v) = Candidate → sp_owner s (sh_term h') = None → quorum q →
    (∀ w, w ∈ q → w = v ∨ Grant w (sh_term h') v ∈ sp_net s) → sh_term h' = sh_term (sp_live s v) → sh_role h' = Leader →
    sh_log h' = sh_log (sp_live s v) ++ es → Forall (λ e, le_term e = sh_term h') es → sh_commit h' = sh_commit (sp_live s v) →
    0 < sh_term h' →
    spec_step s (with_lead (with_host s v h' []) v (sh_term h') (sh_log h'))
| spec_lead s v h' es : sh_role (sp_live s v) = Leader → sh_term h' = sh_term (sp_live s v) → sh_role h' ≠ Candidate →
    sh_log h' = sh_log (sp_live s v) ++ es → Forall (λ e, le_term e = sh_term h') es → 0 < sh_term h' →
    (sh_commit h' = sh_commit (sp_live s v)
     ∨ ∃ j q, sh_commit h' = S j ∧ fresh_at (sh_log h') (sh_term h') j ∧ quorum q
         ∧ ∀ w, w ∈ q → w = v ∨ acked_net s w (sh_term h') j) →
    spec_step s (with_lead (with_host s v h' []) v (sh_term h') (sh_log h'))
| spec_follow s v h' ms : sh_term (sp_live s v) ≤ sh_term h' → sh_role h' ≠ Candidate → sh_role h' ≠ Leader →
    sees s v (sh_term h') → follows (sight s v (sh_term h')) (sh_log (sp_live s v)) (sh_log h') →
    (sh_commit h' = sh_commit (sp_live s v) ∨ certified s (sight s v) (sh_term h') (sh_log h') (sh_commit h')) →
    Forall (λ m, (m ≤ length (sight s v (sh_term h')))%nat ∧ take m (sight s v (sh_term h')) `prefix_of` sh_log h') ms →
    spec_step s (with_host s v h' (Ack v (sh_term h') <$> ms))
| spec_publish s v :
    spec_step s (with_publish s v)
| spec_release s v : sh_term (sp_live s v) = sh_term (sp_disk s v) → sh_log (sp_live s v) = sh_log (sp_disk s v) →
    (∀ t, sp_owner s t = Some v → sp_pub s t = Some (length (sp_lead s t))) →
    spec_step s (with_release s v)
| spec_crash s v h' : sh_term h' = sh_term (sp_disk s v) → sh_log h' = sh_log (sp_disk s v) →
    sh_commit h' = sh_commit (sp_disk s v) → sh_role h' = Follower →
    spec_step s (with_crash s v h').

(** ** The invariant *)
Record spec_ok (s : Spec) : Prop := mkSpecOk {
  (* ownership of terms *)
  k_none : ∀ t, sp_owner s t = None → sp_lead s t = [] ∧ sp_pub s t = None;
  k_pub : ∀ t p u, sp_pub s t = Some p → sp_owner s t = Some u →
    (p ≤ length (sp_lead s t))%nat ∧ t ≤ sh_term (sp_disk s u);
  k_own : ∀ t u, sp_owner s t = Some u → u ∈ voters ∧ t ≤ sh_term (sp_live s u)
    ∧ (sh_role (sp_live s u) = Candidate → sh_term (sp_live s u) ≠ t)
    ∧ ∃ q, quorum q ∧ ∀ w, w ∈ q → w = u ∨ Grant w t u ∈ sp_net s;
  k_same : ∀ t u, sp_owner s t = Some u → sh_term (sp_live s u) = t → sh_log (sp_live s u) = sp_lead s t;
  k_same_disk : ∀ t u, sp_owner s t = Some u → is_Some (sp_pub s t) → sh_term (sp_disk s u) = t →
    sh_log (sp_disk s u) = published s t;
  k_leader : ∀ v, sh_role (sp_live s v) = Leader → sp_owner s (sh_term (sp_live s v)) = Some v;
  k_candidate : ∀ v, sh_role (sp_live s v) = Candidate → v ∈ voters;
  (* logs *)
  k_term : ∀ v, sh_term (sp_disk s v) ≤ sh_term (sp_live s v);
  k_lead_terms : ∀ t e, e ∈ sp_lead s t → 0 < le_term e ≤ t;
  k_live_terms : ∀ v e, e ∈ sh_log (sp_live s v) → le_term e ≤ sh_term (sp_live s v);
  k_disk_terms : ∀ v e, e ∈ sh_log (sp_disk s v) → le_term e ≤ sh_term (sp_disk s v);
  k_lead : ∀ t u, sp_owner s t = Some u → cons_with (sight s u) (sp_lead s t);
  k_published : ∀ t, cons_with (published s) (published s t);
  k_live : ∀ v, cons_with (sight s v) (sh_log (sp_live s v));
  k_disk : ∀ v, cons_with (published s) (sh_log (sp_disk s v));
  (* commits *)
  k_commit : ∀ v, certified s (sight s v) (sh_term (sp_live s v)) (sh_log (sp_live s v)) (sh_commit (sp_live s v));
  k_commit_disk : ∀ v, certified s (published s) (sh_term (sp_disk s v)) (sh_log (sp_disk s v)) (sh_commit (sp_disk s v));
  (* what was acknowledged is held *)
  k_ack : ∀ w t m, Ack w t m ∈ sp_net s ++ sp_out s w →
    t ≤ sh_term (sp_live s w) ∧ (m ≤ length (sight s w t))%nat;
  k_ack_net : ∀ w t m, Ack w t m ∈ sp_net s → t ≤ sh_term (sp_disk s w) ∧ (m ≤ length (published s t))%nat;
  k_held : ∀ w t j, acked s w t j ∨ sp_owner s t = Some w → choosable s t j →
    take (S j) (sp_lead s t) `prefix_of` sh_log (sp_live s w);
  k_held_disk : ∀ w t j, acked_net s w t j ∨ sp_owner s t = Some w → (j < length (published s t))%nat → choosable s t j →
    take (S j) (sp_lead s t) `prefix_of` sh_log (sp_disk s w);
  (* votes *)
  k_grant : ∀ w t' c, Grant w t' c ∈ sp_net s ++ sp_out s w → t' ≤ sh_term (sp_live s w)
    ∧ ∃ last_t size, Request c t' last_t size ∈ sp_net s
      ∧ ∀ t j, t < t' → acked s w t j ∨ sp_owner s t = Some w → choosable s t j →
          t < last_t ∨ (t = last_t ∧ (j < size)%nat);
  k_grant_net : ∀ w t' c, Grant w t' c ∈ sp_net s → t' ≤ sh_term (sp_disk s w);
  k_request : ∀ c t' last_t size, Request c t' last_t size ∈ sp_net s ++ sp_out s c → t' ≤ sh_term (sp_live s c)
    ∧ (sh_role (sp_live s c) = Candidate → sh_term (sp_live s c) = t' →
       last_t = last_term 0 (sh_log (sp_live s c)) ∧ size = length (sh_log (sp_live s c)));
  k_request_net : ∀ c t' last_t size, Request c t' last_t size ∈ sp_net s → t' ≤ sh_term (sp_disk s c);
  k_source : ∀ v f, f ∈ sp_out s v → match f with Ack w _ _ | Grant w _ _ | Request w _ _ _ => w = v end;
  (* leader completeness *)
  k_complete : ∀ t t' u j, t < t' → sp_owner s t' = Some u → choosable s t j →
    take (S j) (sp_lead s t) `prefix_of` sp_lead s t' ∧ ∀ p, sp_pub s t' = Some p → (j < p)%nat }.

(** ** Prefixes *)
Lemma prefix_shorter {A} (a b c : list A) : a `prefix_of` c → b `prefix_of` c → (length a ≤ length b)%nat → a `prefix_of` b.
Proof.
  intros Ha Hb Hl. destruct (prefix_weak_total a b c Ha Hb) as [|H]; [done|].
  apply prefix_length_eq in H; [by subst|lia].
Qed.
Lemma take_prefix_take {A} (l l' : list A) k : l `prefix_of` l' → (k ≤ length l)%nat → take k l = take k l'.
Proof. intros [r ->] Hk. by rewrite take_app_le. Qed.
Lemma prefix_take_iff {A} (l l' : list A) : l `prefix_of` l' ↔ (length l ≤ length l')%nat ∧ take (length l) l' = l.
Proof.
  split.
  - intros [r ->]. rewrite length_app, take_app_length. split; [lia|done].
  - intros [_ H]. rewrite <- H. apply prefix_take.
Qed.
Lemma take_mono {A} (l : list A) a b : (a ≤ b)%nat → take a l `prefix_of` take b l.
Proof. intros H. replace (take a l) with (take a (take b l)) by (rewrite take_take; f_equal; lia). apply prefix_take. Qed.

Lemma cons_with_prefix view l l' : l' `prefix_of` l → cons_with view l → cons_with view l'.
Proof.
  intros Hp Hc i e Hi. rewrite (take_prefix_take l' l) by (done || by apply lookup_lt_Some in Hi).
  apply Hc. by eapply prefix_lookup_Some.
Qed.
Lemma cons_with_mono view view' l : (∀ t, view t `prefix_of` view' t) → cons_with view l → cons_with view' l.
Proof. intros Hv Hc i e Hi. etransitivity; [by apply Hc|apply Hv]. Qed.
Lemma cons_with_app view l es t :
  cons_with view l → Forall (λ e, le_term e = t) es → l ++ es `prefix_of` view t → cons_with view (l ++ es).
Proof.
  intros Hc Ht Hv i e Hi. apply lookup_app_Some in Hi as [Hi|[Hl Hi]].
  - rewrite take_app_le by (by apply lookup_lt_Some in Hi). by apply Hc.
  - rewrite (Forall_lookup_1 _ _ _ _ Ht Hi).
    etransitivity; [apply prefix_take|done].
Qed.

(** Logs agree where they hold an entry of one term. *)
Lemma cons_with_match view a b i e e' :
  cons_with view a → cons_with view b → a !! i = Some e → b !! i = Some e' → le_term e = le_term e' →
  take (S i) a = take (S i) b.
Proof.
  intros Ha Hb Hi Hi' Et. pose proof (Ha _ _ Hi) as H. pose proof (Hb _ _ Hi') as H'. rewrite Et in H.
  apply lookup_lt_Some in Hi, Hi'. apply prefix_take_iff in H as [_ H], H' as [_ H'].
  rewrite <- H, <- H', !length_take. f_equal. lia.
Qed.

Lemma last_term_lookup l : l ≠ [] → ∃ e, l !! pred (length l) = Some e ∧ last_term 0 l = le_term e.
Proof.
  intros Hl. unfold last_term. rewrite last_lookup. destruct (l !! pred (length l)) as [e|] eqn:E; [eauto|].
  apply lookup_ge_None in E. destruct l; [done|simpl in *; lia].
Qed.

Definition terms_within (view : N → list LogEntry) : Prop := ∀ t e, e ∈ view t → 0 < le_term e ≤ t.

Lemma cons_with_sorted view l i j e e' :
  cons_with view l → terms_within view → l !! i = Some e → l !! j = Some e' → (i ≤ j)%nat → le_term e ≤ le_term e'.
Proof.
  intros Hc Ht Hi Hj Hij. apply (Ht (le_term e') e). apply (elem_of_prefix (take (S j) l)); [|by apply Hc].
  apply (list_elem_of_lookup_2 _ i). rewrite lookup_take_lt by lia. done.
Qed.
Lemma cons_with_positive view l e : cons_with view l → terms_within view → e ∈ l → 0 < le_term e.
Proof.
  intros Hc Ht [i Hi]%list_elem_of_lookup. apply (Ht (le_term e) e). apply (elem_of_prefix (take (S i) l)); [|by apply Hc].
  apply (list_elem_of_lookup_2 _ i). rewrite lookup_take_lt by lia. done.
Qed.

(** A log that holds a term's prefix through a position of that term ends no earlier. *)
Lemma held_not_behind view l t T j last_t size :
  cons_with view l → terms_within view → fresh_at T t j → take (S j) T `prefix_of` l → not_behind last_t size l →
  t < last_t ∨ (t = last_t ∧ (j < size)%nat).
Proof.
  intros Hc Ht (e&He&<-) Hp Hb.
  assert (l !! j = Some e) as Hj by (eapply prefix_lookup_Some; [|done]; by rewrite lookup_take_lt by lia).
  assert (l ≠ []) as Hl by (by intros ->). destruct (last_term_lookup l Hl) as (e'&He'&Hlast).
  pose proof (lookup_lt_Some _ _ _ Hj). assert (le_term e ≤ le_term e') as Hle.
  { apply (cons_with_sorted view l j (pred (length l)) e e'); [done..|lia]. }
  unfold not_behind in Hb. rewrite Hlast in Hb.
  destruct (N.lt_total (le_term e) last_t) as [|[|]]; [by left|right; split; [done|lia]|lia].
Qed.

(** ** Views *)
Lemma published_lead s t : published s t `prefix_of` sp_lead s t.
Proof. unfold published. destruct (sp_pub s t); [apply prefix_take|apply prefix_nil]. Qed.
Lemma sight_lead s v t : sight s v t `prefix_of` sp_lead s t.
Proof. unfold sight. destruct (decide _); [done|apply published_lead]. Qed.
Lemma published_sight s v t : published s t `prefix_of` sight s v t.
Proof. unfold sight. destruct (decide _); [apply published_lead|done]. Qed.
Lemma sight_own s v t : sp_owner s t = Some v → sight s v t = sp_lead s t.
Proof. intros H. unfold sight. by destruct (decide _). Qed.

Lemma chosen_choosable s t j : chosen s t j → choosable s t j.
Proof.
  intros (Hf&q&Hq&Hw). split; [done|]. exists q. split; [done|]. intros w [?|(m&Hm&?)]%Hw; [by left|].
  right; left. exists m. split; [|done]. apply elem_of_app. by left.
Qed.
Lemma acked_net_acked s w t j : acked_net s w t j → acked s w t j.
Proof. intros (m&Hm&?). exists m. split; [|done]. apply elem_of_app. by left. Qed.
Lemma choosable_lookup s t j : choosable s t j → (j < length (sp_lead s t))%nat.
Proof. intros ((e&He&_)&_). by apply lookup_lt_Some in He. Qed.

Section of_ok.
Context (quorum_meet : ∀ a b, quorum a → quorum b → ∃ w : HostId, w ∈ a ∧ w ∈ b).
Context (quorum_single : ∀ q u u', quorum q → (∀ w, w ∈ q → w = u') → u ∈ voters → u = u').
Context (s : Spec) (Hok : spec_ok s).

Lemma lead_owned t : sp_lead s t ≠ [] → ∃ u, sp_owner s t = Some u.
Proof. intros H. destruct (sp_owner s t) as [u|] eqn:E; [eauto|]. by destruct (k_none _ Hok t E). Qed.
Lemma pub_owned t : is_Some (sp_pub s t) → ∃ u, sp_owner s t = Some u.
Proof.
  intros [p H]. destruct (sp_owner s t) as [u|] eqn:E; [eauto|]. destruct (k_none _ Hok t E). congruence.
Qed.
Lemma choosable_owned t j : choosable s t j → ∃ u, sp_owner s t = Some u.
Proof. intros H. apply lead_owned. apply choosable_lookup in H. by intros E; rewrite E in H; simpl in H; lia. Qed.

Lemma lead_terms_within : terms_within (sp_lead s).
Proof. intros t e. apply (k_lead_terms _ Hok). Qed.
Lemma prefix_terms_within view : (∀ t, view t `prefix_of` sp_lead s t) → terms_within view.
Proof. intros Hv t e He. apply lead_terms_within. by eapply elem_of_prefix. Qed.
Lemma sight_terms v : terms_within (sight s v).
Proof. apply prefix_terms_within. intros. apply sight_lead. Qed.
Lemma published_terms : terms_within (published s).
Proof. apply prefix_terms_within. intros. apply published_lead. Qed.

(** Two chosen prefixes are prefixes of one log. *)
Lemma certified_agree view view' t t' l l' c c' :
  (∀ t, view t `prefix_of` sp_lead s t) → (∀ t, view' t `prefix_of` sp_lead s t) →
  certified s view t l c → certified s view' t' l' c' → take (c `min` c') l = take (c `min` c') l'.
Proof.
  assert (∀ view t l c, (∀ t, view t `prefix_of` sp_lead s t) → certified s view t l c →
    c = 0%nat ∨ ∃ t j, chosen s t j ∧ (c ≤ S j)%nat ∧ (c ≤ length l)%nat ∧ take c l `prefix_of` take (S j) (sp_lead s t)) as Hc.
  { clear. intros view t l c Hv [->|(t0&j&_&Hch&_&Hj&Hl&Hp)]; [by left|]. right. exists t0, j. split_and!; try done.
    apply (prefix_shorter _ _ (sp_lead s t0)); [by etransitivity|apply prefix_take|].
    rewrite !length_take. destruct (choosable_lookup s t0 j); [by apply chosen_choosable|lia..]. }
  assert (∀ (a b : list LogEntry) x y u, take x a `prefix_of` u → take y b `prefix_of` u → (x ≤ length a)%nat → (y ≤ length b)%nat →
    take (x `min` y) a = take (x `min` y) b) as Hu.
  { clear. intros a b x y u Ha Hb Hx Hy.
    transitivity (take (x `min` y) u).
    - rewrite <- (take_prefix_take _ _ _ Ha) by (rewrite length_take; lia). rewrite take_take. f_equal. lia.
    - rewrite <- (take_prefix_take _ _ _ Hb) by (rewrite length_take; lia). rewrite take_take. f_equal. lia. }
  intros Hv Hv' H H'. apply Hc in H as [->|(t1&j1&Hch1&Hj1&Hl1&Hp1)]; [done| |done].
  apply Hc in H' as [->|(t2&j2&Hch2&Hj2&Hl2&Hp2)]; [by rewrite Nat.min_0_r| |done].
  assert (∀ t1 t2 j, t1 < t2 → chosen s t1 j → ∀ j', chosen s t2 j' → take (S j) (sp_lead s t1) `prefix_of` sp_lead s t2) as Hlt.
  { intros a b j Hab Ha%chosen_choosable j' Hb%chosen_choosable. destruct (choosable_owned _ _ Hb) as [u Hu'].
    by apply (k_complete _ Hok a b u). }
  destruct (N.lt_total t1 t2) as [Hlt12|[<-|Hlt12]].
  - apply (Hu l l' c c' (sp_lead s t2)); try done; etransitivity; [exact Hp1|by eapply Hlt|exact Hp2|apply prefix_take].
  - apply (Hu l l' c c' (sp_lead s t1)); try done; etransitivity; [exact Hp1|apply prefix_take|exact Hp2|apply prefix_take].
  - apply (Hu l l' c c' (sp_lead s t1)); try done; etransitivity; [exact Hp1|apply prefix_take|exact Hp2|by eapply Hlt].
Qed.

(** What a host has committed is in the log of every later term that has one. *)
Lemma commit_in_lead v t u : sh_term (sp_live s v) ≤ t → sp_owner s t = Some u →
  take (sh_commit (sp_live s v)) (sh_log (sp_live s v)) `prefix_of` sp_lead s t.
Proof.
  intros Ht Hu. destruct (k_commit _ Hok v) as [->|(t0&j&Ht0&Hch&Hj&Hc&Hl&Hp)]; [apply prefix_nil|].
  assert (take (sh_commit (sp_live s v)) (sh_log (sp_live s v)) `prefix_of` sp_lead s t0) as Hp0
    by (etransitivity; [exact Hp|apply sight_lead]).
  destruct (N.lt_trichotomy t0 t) as [Hlt|[->|]]; [|done|lia]. apply chosen_choosable in Hch.
  destruct (k_complete _ Hok t0 t u j Hlt Hu Hch) as [Hpl _]. etransitivity; [|exact Hpl].
  apply (prefix_shorter _ _ (sp_lead s t0)); [done|apply prefix_take|]. apply choosable_lookup in Hch. rewrite !length_take. lia.
Qed.

(** What a host has committed is in the log of every later term it sees. *)
Lemma commit_seen v t : sh_term (sp_live s v) ≤ t → sees s v t →
  take (sh_commit (sp_live s v)) (sh_log (sp_live s v)) `prefix_of` sight s v t
  ∧ (sh_commit (sp_live s v) ≤ length (sh_log (sp_live s v)))%nat.
Proof.
  intros Ht Hs. destruct (k_commit _ Hok v) as [->|(t0&j&Ht0&Hch&Hj&Hc&Hl&Hp)]; [split; [apply prefix_nil|lia]|].
  split; [|done]. destruct (N.lt_trichotomy t0 t) as [Hlt|[->|]]; [|done|lia].
  assert (∃ u, sp_owner s t = Some u) as [u Hu] by (destruct Hs as [?|?]; [eauto|by apply pub_owned]).
  destruct (k_complete _ Hok t0 t u j Hlt Hu (chosen_choosable _ _ _ Hch)) as [Hpl Hpub].
  assert (take (sh_commit (sp_live s v)) (sh_log (sp_live s v)) `prefix_of` take (S j) (sp_lead s t)) as Hpt.
  { apply (prefix_shorter _ _ (sp_lead s t)); [|apply prefix_take|].
    - etransitivity; [|exact Hpl]. apply (prefix_shorter _ _ (sp_lead s t0)); [|apply prefix_take|].
      + etransitivity; [exact Hp|apply sight_lead].
      + apply chosen_choosable, choosable_lookup in Hch. rewrite !length_take. lia.
    - apply prefix_length in Hpl. apply chosen_choosable, choosable_lookup in Hch. rewrite !length_take in *. lia. }
  etransitivity; [exact Hpt|]. unfold sight. destruct (decide _) as [|Hn]; [apply prefix_take|].
  destruct Hs as [?|[p Hpu]]; [done|]. unfold published. rewrite Hpu. apply take_mono. by apply Hpub.
Qed.
End of_ok.

(** ** A step of one host *)
Section host_step.
Context (quorum_meet : ∀ a b, quorum a → quorum b → ∃ w : HostId, w ∈ a ∧ w ∈ b).
Context (quorum_single : ∀ q u u', quorum q → (∀ w, w ∈ q → w = u') → u ∈ voters → u = u').
Context (s s' : Spec) (v : HostId) (h' : Host) (facts : list Fact) (Hok : spec_ok s).
Context (Elive : sp_live s' v = h') (Elives : ∀ w, w ≠ v → sp_live s' w = sp_live s w).
Context (Edisk : sp_disk s' = sp_disk s) (Enet : sp_net s' = sp_net s) (Epub : sp_pub s' = sp_pub s).
Context (Eout : sp_out s' v = sp_out s v ++ facts) (Eouts : ∀ w, w ≠ v → sp_out s' w = sp_out s w).
Context (Hterm : sh_term (sp_live s v) ≤ sh_term h').
(** The host may come to own the term it is in, and extend its log. *)
Context (Hown : ∀ t, sp_owner s' t = sp_owner s t ∨ (t = sh_term h' ∧ sp_owner s' t = Some v ∧ sp_owner s t = None)).
Context (Hlead : ∀ t, sp_lead s' t = sp_lead s t
  ∨ (t = sh_term h' ∧ sp_owner s' t = Some v ∧ sp_lead s t `prefix_of` sp_lead s' t ∧ sh_term h' = sh_term (sp_live s v))).
Context (Hacks : ∀ w t m, Ack w t m ∈ facts → w = v ∧ t = sh_term h').

Lemma step_lead t : sp_lead s t `prefix_of` sp_lead s' t.
Proof. by destruct (Hlead t) as [->|(_&_&?&_)]. Qed.
Lemma step_published t : published s' t = published s t.
Proof.
  unfold published. rewrite Epub. destruct (sp_pub s t) as [p|] eqn:Ep; [|done].
  destruct (pub_owned s Hok t) as [u Hu]; [eauto|]. destruct (k_pub _ Hok t p u Ep Hu) as [Hp _].
  symmetry. apply take_prefix_take; [apply step_lead|done].
Qed.
Lemma step_owner_other t w : w ≠ v → sp_owner s' t = Some w ↔ sp_owner s t = Some w.
Proof. intros Hw. destruct (Hown t) as [->|(_&E&E')]; [done|]. rewrite E, E'. split; congruence. Qed.
Lemma step_owner t w : sp_owner s t = Some w → sp_owner s' t = Some w.
Proof. intros H. destruct (Hown t) as [->|(_&_&E)]; [done|congruence]. Qed.
Lemma step_sight_other w t : w ≠ v → sight s' w t = sight s w t.
Proof.
  intros Hw. unfold sight. rewrite step_published. destruct (decide (sp_owner s t = Some w)) as [E|E].
  - rewrite decide_True by (by apply step_owner). destruct (Hlead t) as [->|(_&E'&_)]; [done|].
    apply (step_owner_other t w Hw) in E. congruence.
  - rewrite decide_False; [done|]. by intros ?%(step_owner_other t w Hw).
Qed.
Lemma step_sight w t : sight s w t `prefix_of` sight s' w t.
Proof.
  unfold sight. destruct (decide (sp_owner s t = Some w)) as [E|E].
  - rewrite decide_True by (by apply step_owner). apply step_lead.
  - rewrite <- step_published. destruct (decide _); [apply published_lead|done].
Qed.
Lemma step_acked w t j : acked s' w t j → acked s w t j ∨ (w = v ∧ t = sh_term h').
Proof.
  intros (m&Hm&Hj). rewrite Enet in Hm. destruct (decide (w = v)) as [->|Hw].
  - rewrite Eout, app_assoc in Hm. apply elem_of_app in Hm as [Hm|Hm]; [left; by exists m|].
    right. by destruct (Hacks _ _ _ Hm).
  - rewrite (Eouts w Hw) in Hm. left. by exists m.
Qed.
Lemma step_acked_net w t j : acked_net s' w t j ↔ acked_net s w t j.
Proof. unfold acked_net. by rewrite Enet. Qed.

(** What may be chosen after the step could be before it, but for what the step adds. *)
Lemma step_choosable t j : choosable s' t j →
  (choosable s t j ∧ take (S j) (sp_lead s' t) = take (S j) (sp_lead s t))
  ∨ (t = sh_term h' ∧ sp_owner s' t = Some v ∧ (length (sp_lead s t) ≤ j)%nat ∧ sh_term h' = sh_term (sp_live s v)).
Proof.
  intros (Hf&q&Hq&Hw). destruct (decide (j < length (sp_lead s t))%nat) as [Hj|Hj].
  - left. split; [|symmetry; apply take_prefix_take; [apply step_lead|lia]]. split.
    + destruct Hf as (e&He&Ht). exists e. split; [|done]. destruct (lookup_lt_is_Some_2 _ _ Hj) as [e' He'].
      rewrite He'. rewrite (prefix_lookup_Some _ _ _ _ He' (step_lead t)) in He. done.
    + exists q. split; [done|]. intros w [Ho|[Ha|Ht]]%Hw.
      * destruct (Hown t) as [E|(_&_&E)]; [left; congruence|]. destruct (k_none _ Hok t E) as [En _].
        rewrite En in Hj. simpl in Hj. lia.
      * apply step_acked in Ha as [?|[-> ->]]; [by right; left|]. right; right.
        pose proof (k_term _ Hok v). lia.
      * rewrite Edisk in Ht. by right; right.
  - right. destruct (Hlead t) as [E|(?&?&_&?)]; [|split_and!; (done || lia)].
    destruct Hf as (e&He&_). rewrite E in He. apply lookup_lt_Some in He. lia.
Qed.

(** What the owner of a term adds while a later term has one cannot be chosen. *)
Lemma step_added_late t t' u j : t < t' → sp_owner s t' = Some u → choosable s' t j →
  t = sh_term h' → sp_owner s' t = Some v → (length (sp_lead s t) ≤ j)%nat → sh_term h' = sh_term (sp_live s v) →
  v ∈ voters → False.
Proof.
  intros Hlt Hu (_&q&Hq&Hw) -> Hv Hj Hsame Hvot. destruct (k_own _ Hok t' u Hu) as (Hvu&Htu&_&q'&Hq'&Hg).
  assert (u ≠ v) as Hne by (intros ->; lia).
  assert (∀ w, Grant w t' u ∈ sp_net s → t' ≤ sh_term (sp_disk s w)) as Hgd by (intros w; apply Hok).
  assert (t' ≤ sh_term (sp_disk s u)) as Hd.
  { destruct (decide (set_Exists (λ w, w ≠ u) q')) as [(w&Hw'&Hne')|Hno].
    - destruct (Hg w Hw') as [|Hgr]; [done|]. destruct (k_grant _ Hok w t' u) as (_&lt&li&Hr&_).
      { apply elem_of_app. by left. } by apply (k_request_net _ Hok) in Hr.
    - destruct Hne. symmetry. apply (quorum_single q' v u Hq'); [|done]. intros w Hw'.
      destruct (decide (w = u)); [done|]. destruct Hno. by exists w. }
  destruct (quorum_meet q q' Hq Hq') as (w&Hwq&Hwq'). destruct (Hw w Hwq) as [Ho|[Ha|Ht]].
  - assert (w = v) as -> by congruence. destruct (Hg v Hwq') as [|Hgr]; [done|].
    apply Hgd in Hgr. pose proof (k_term _ Hok v). lia.
  - apply step_acked in Ha as [(m&Hm&?)|[-> _]].
    + destruct (k_ack _ Hok _ _ _ Hm) as [_ Hlen]. pose proof (prefix_length _ _ (sight_lead s w (sh_term h'))). lia.
    + destruct (Hg v Hwq') as [|Hgr]; [done|]. apply Hgd in Hgr. pose proof (k_term _ Hok v). lia.
  - rewrite Edisk in Ht. destruct (Hg w Hwq') as [->|Hgr]; [lia|]. apply Hgd in Hgr. lia.
Qed.

Lemma step_chosen t j : chosen s t j → chosen s' t j.
Proof.
  intros (Hf&q&Hq&Hw). split.
  - destruct Hf as (e&He&Ht). exists e. split; [|done]. eapply prefix_lookup_Some; [done|apply step_lead].
  - exists q. split; [done|]. intros w [?%step_owner|?]%Hw; [by left|right; by apply step_acked_net].
Qed.
Lemma step_certified view view' t l c : (∀ t, view t `prefix_of` view' t) → certified s view t l c → certified s' view' t l c.
Proof.
  intros Hv [->|(t0&j&?&Hch&?&?&?&?)]; [by left|]. right. exists t0, j. split_and!; try done.
  - by apply step_chosen.
  - pose proof (prefix_length _ _ (Hv t0)). lia.
  - by etransitivity.
Qed.

(** What the step owes: its role, its log and commit, what it sent and a term it won. *)
Context (Rvoter : ∀ t, sp_owner s' t = Some v → v ∈ voters).
Context (Rleader : sh_role h' = Leader → sp_owner s' (sh_term h') = Some v).
Context (Rcandidate : sh_role h' = Candidate → v ∈ voters ∧ sp_owner s' (sh_term h') ≠ Some v
  ∧ (sh_term (sp_live s v) < sh_term h' ∨ (sh_role (sp_live s v) = Candidate ∧ sh_log h' = sh_log (sp_live s v)))).
Context (Rquorum : ∀ t, sp_owner s t = None → sp_owner s' t = Some v →
  ∃ q, quorum q ∧ ∀ w, w ∈ q → w = v ∨ Grant w t v ∈ sp_net s).
Context (Rsame : sp_owner s' (sh_term h') = Some v → sh_log h' = sp_lead s' (sh_term h')).
Context (Rterms : ∀ e, e ∈ sh_log h' → 0 < le_term e ≤ sh_term h').
Context (Rcons : cons_with (sight s' v) (sh_log h')).
Context (Rcommit : certified s' (sight s' v) (sh_term h') (sh_log h') (sh_commit h')).
Context (Rkeep : ∀ t j, acked s v t j ∨ sp_owner s t = Some v → choosable s t j →
  take (S j) (sp_lead s t) `prefix_of` sh_log (sp_live s v) → take (S j) (sp_lead s t) `prefix_of` sh_log h').
Context (Rfacts : ∀ f, f ∈ facts →
  match f with
  | Ack w t m => w = v ∧ t = sh_term h' ∧ (m ≤ length (sight s' v t))%nat ∧ take m (sight s' v t) `prefix_of` sh_log h'
  | Grant w t c => w = v ∧ t = sh_term h' ∧ sh_log h' = sh_log (sp_live s v)
      ∧ ∃ last_t size, Request c t last_t size ∈ sp_net s ∧ not_behind last_t size (sh_log h')
  | Request c t last_t size => c = v ∧ t = sh_term h' ∧ sh_term (sp_live s v) < sh_term h'
      ∧ last_t = last_term 0 (sh_log h') ∧ size = length (sh_log h')
  end).
Context (Rcomplete : ∀ t t' j, t < t' → sp_owner s t' = None → sp_owner s' t' = Some v → choosable s t j →
  take (S j) (sp_lead s t) `prefix_of` sp_lead s' t').

Lemma step_own_term t u : sp_owner s' t = Some u → t ≤ sh_term (sp_live s' u).
Proof.
  intros Hu. destruct (Hown t) as [E|(->&E&_)].
  - rewrite E in Hu. destruct (k_own _ Hok t u Hu) as (_&Ht&_). destruct (decide (u = v)) as [->|Hne].
    + rewrite Elive. lia.
    + by rewrite Elives.
  - assert (u = v) as -> by congruence. by rewrite Elive.
Qed.

(** An acknowledgement of a position the step adds is not another host's. *)
Lemma step_held_added w t j : acked s' w t j ∨ sp_owner s' t = Some w → t = sh_term h' → sp_owner s' t = Some v →
  (length (sp_lead s t) ≤ j)%nat → w = v.
Proof.
  intros Hw -> Hv Hj. destruct (decide (w = v)) as [|Hne]; [done|]. destruct Hw as [[(m&Hm&?)|[? _]]%step_acked|]; [|done|congruence].
  destruct (k_ack _ Hok _ _ _ Hm) as [_ Hl]. pose proof (prefix_length _ _ (sight_lead s w (sh_term h'))). lia.
Qed.

Lemma step_held w t j : acked s' w t j ∨ sp_owner s' t = Some w → choosable s' t j →
  take (S j) (sp_lead s' t) `prefix_of` sh_log (sp_live s' w).
Proof.
  intros Hw Hc. destruct (step_choosable t j Hc) as [[Hcs ->]|(Et&Hv&Hj&_)].
  - assert (acked s w t j ∨ sp_owner s t = Some w ∨ (w = v ∧ ∃ m, Ack v t m ∈ facts ∧ (j < m)%nat)) as Hcase.
    { destruct Hw as [(m&Hm&Hj)|Ho].
      - rewrite Enet in Hm. destruct (decide (w = v)) as [->|Hne].
        + rewrite Eout, app_assoc in Hm. apply elem_of_app in Hm as [Hm|Hm]; [by left; exists m|]. right; right. eauto.
        + rewrite Eouts in Hm by done. by left; exists m.
      - destruct (Hown t) as [E|(_&_&E)]; [right; left; congruence|].
        destruct (choosable_owned s Hok t j Hcs) as [u Hu]. congruence. }
    assert (acked s w t j ∨ sp_owner s t = Some w → take (S j) (sp_lead s t) `prefix_of` sh_log (sp_live s' w)) as Hold.
    { intros Ho. destruct (decide (w = v)) as [->|Hne].
      - rewrite Elive. apply Rkeep; try done. by apply (k_held _ Hok).
      - rewrite Elives by done. by apply (k_held _ Hok). }
    destruct Hcase as [?|[?|(->&m&Hm&Hj)]]; [auto..|]. rewrite Elive.
    destruct (Rfacts _ Hm) as (_&_&Hl&Hp).
    rewrite (take_prefix_take _ _ (S j) (step_lead t)) by (apply choosable_lookup in Hcs; lia).
    rewrite <- (take_prefix_take _ _ (S j) (sight_lead s' v t)) by lia.
    etransitivity; [|exact Hp]. apply take_mono. lia.
  - assert (w = v) as -> by (by eapply step_held_added). rewrite Elive, Rsame by (by rewrite <- Et).
    rewrite Et. apply prefix_take.
Qed.

Lemma step_grant w t' c : Grant w t' c ∈ sp_net s' ++ sp_out s' w → t' ≤ sh_term (sp_live s' w)
  ∧ ∃ last_t size, Request c t' last_t size ∈ sp_net s'
    ∧ ∀ t j, t < t' → acked s' w t j ∨ sp_owner s' t = Some w → choosable s' t j →
        t < last_t ∨ (t = last_t ∧ (j < size)%nat).
Proof.
  intros Hg. rewrite Enet in *.
  assert (∀ t j, acked s' w t j ∨ sp_owner s' t = Some w → choosable s' t j → w = v → t < sh_term h' →
    (acked s w t j ∨ sp_owner s t = Some w) ∧ choosable s t j) as Hself.
  { intros t j Hw Hc -> Hlt. destruct (step_choosable t j Hc) as [[Hcs _]|(?&_)]; [|lia]. split; [|done].
    destruct Hw as [[?|[_ ?]]%step_acked|Ho]; [by left|lia|]. right.
    destruct (Hown t) as [E|(?&_)]; [congruence|lia]. }
  destruct (decide (w = v)) as [->|Hne].
  - rewrite Elive. rewrite Eout, app_assoc in Hg. apply elem_of_app in Hg as [Hg|Hg].
    + destruct (k_grant _ Hok _ _ _ Hg) as (Ht&lt&li&Hr&Hcov). split; [lia|]. exists lt, li. split; [done|].
      intros t j Hlt Hw Hc. destruct (Hself t j Hw Hc eq_refl) as [??]; [lia|]. by apply Hcov.
    + destruct (Rfacts _ Hg) as (_&->&El&lt&li&Hr&Hb). split; [done|]. exists lt, li. split; [done|].
      intros t j Hlt Hw Hc. destruct (Hself t j Hw Hc eq_refl) as [Hw' Hc']; [lia|].
      apply (held_not_behind (sight s v) (sh_log (sp_live s v)) t (sp_lead s t) j).
      * apply Hok.
      * by apply sight_terms.
      * apply Hc'.
      * by apply (k_held _ Hok).
      * by rewrite <- El.
  - rewrite Eouts in Hg by done. rewrite Elives by done. destruct (k_grant _ Hok _ _ _ Hg) as (Ht&lt&li&Hr&Hcov).
    split; [done|]. exists lt, li. split; [done|]. intros t j Hlt Hw Hc.
    destruct (step_choosable t j Hc) as [[Hcs _]|(Et&Hv&Hj&_)].
    + apply Hcov; try done. destruct Hw as [[?|[? _]]%step_acked|Ho]; [by left|done|right].
      by apply (step_owner_other t w Hne).
    + destruct Hne. by eapply step_held_added.
Qed.

Lemma step_request c t' last_t size : Request c t' last_t size ∈ sp_net s' ++ sp_out s' c → t' ≤ sh_term (sp_live s' c)
  ∧ (sh_role (sp_live s' c) = Candidate → sh_term (sp_live s' c) = t' →
     last_t = last_term 0 (sh_log (sp_live s' c)) ∧ size = length (sh_log (sp_live s' c))).
Proof.
  intros Hr. rewrite Enet in Hr. destruct (decide (c = v)) as [->|Hne].
  - rewrite Elive. rewrite Eout, app_assoc in Hr. apply elem_of_app in Hr as [Hr|Hr].
    + destruct (k_request _ Hok _ _ _ _ Hr) as [Ht Hc]. split; [lia|]. intros Hrole Et.
      destruct (Rcandidate Hrole) as (_&_&[?|[Hrs ->]]); [lia|]. apply Hc; [done|lia].
    + destruct (Rfacts _ Hr) as (_&->&_&->&->). done.
  - rewrite Eouts in Hr by done. rewrite Elives by done. by apply (k_request _ Hok).
Qed.

Lemma step_complete t t' u j : t < t' → sp_owner s' t' = Some u → choosable s' t j →
  take (S j) (sp_lead s' t) `prefix_of` sp_lead s' t' ∧ ∀ p, sp_pub s' t' = Some p → (j < p)%nat.
Proof.
  intros Hlt Hu Hc. rewrite Epub. destruct (step_choosable t j Hc) as [[Hcs ->]|(Et&Hv&Hj&Hs)].
  - destruct (Hown t') as [E|(->&E&En)].
    + rewrite E in Hu. destruct (k_complete _ Hok t t' u j Hlt Hu Hcs) as [Hp Hq]. split; [|done].
      etransitivity; [exact Hp|apply step_lead].
    + split; [by apply Rcomplete|]. destruct (k_none _ Hok _ En) as [_ ->]. done.
  - exfalso. destruct (Hown t') as [E|(?&_)]; [|lia]. rewrite E in Hu.
    eapply step_added_late; try done. by apply (Rvoter t).
Qed.

Lemma host_step_ok : spec_ok s'.
Proof.
  split.
  - intros t E. destruct (Hlead t) as [El|(_&E'&_)]; [|congruence]. destruct (Hown t) as [Eo|(_&E'&_)]; [|congruence].
    rewrite Eo in E. destruct (k_none _ Hok t E). rewrite Epub. split; [congruence|done].
  - intros t p u. rewrite Epub, Edisk. intros Hp Hu. destruct (pub_owned s Hok t) as [u' Hu']; [eauto|].
    rewrite (step_owner t u' Hu') in Hu. assert (u' = u) as -> by congruence. destruct (k_pub _ Hok t p u Hp Hu').
    split; [|done]. pose proof (prefix_length _ _ (step_lead t)). lia.
  - intros t u Hu. rewrite Enet. split_and!.
    + destruct (decide (u = v)) as [->|Hne]; [by apply (Rvoter t)|]. apply (step_owner_other t u Hne) in Hu.
      by apply (k_own _ Hok t u).
    + by apply step_own_term.
    + destruct (decide (u = v)) as [->|Hne].
      * rewrite Elive. intros (_&Hn&_)%Rcandidate <-. by apply Hn.
      * rewrite Elives by done. apply (step_owner_other t u Hne) in Hu. by apply (k_own _ Hok t u).
    + destruct (Hown t) as [E|(->&E&En)].
      * rewrite E in Hu. by apply (k_own _ Hok t u).
      * assert (u = v) as -> by congruence. by apply Rquorum.
  - intros t u Hu. destruct (decide (u = v)) as [->|Hne].
    + rewrite Elive. intros <-. by apply Rsame.
    + rewrite Elives by done. intros Et. apply (step_owner_other t u Hne) in Hu. rewrite (k_same _ Hok t u Hu Et).
      destruct (Hlead t) as [->|(_&E&_)]; [done|]. apply (step_owner t u) in Hu. congruence.
  - intros t u Hu. rewrite Epub, Edisk, step_published. intros Hp. destruct (pub_owned s Hok t Hp) as [u' Hu'].
    rewrite (step_owner t u' Hu') in Hu. assert (u' = u) as -> by congruence. by apply Hok.
  - intros w. destruct (decide (w = v)) as [->|Hne]; [by rewrite Elive|]. rewrite Elives by done.
    intros Hl%(k_leader _ Hok). by apply step_owner.
  - intros w. destruct (decide (w = v)) as [->|Hne]; [rewrite Elive; by intros []%Rcandidate|]. rewrite Elives by done. apply Hok.
  - intros w. rewrite Edisk. pose proof (k_term _ Hok w). destruct (decide (w = v)) as [->|Hne]; [rewrite Elive; lia|by rewrite Elives].
  - intros t e He. destruct (Hlead t) as [E|(->&E&_)]; [rewrite E in He; by apply (k_lead_terms _ Hok)|].
    apply Rterms. by rewrite Rsame.
  - intros w e. destruct (decide (w = v)) as [->|Hne]; [rewrite Elive; intros; by apply Rterms|]. rewrite Elives by done. apply Hok.
  - intros w e. rewrite Edisk. apply Hok.
  - intros t u Hu. destruct (Hlead t) as [E|(->&E&_)].
    + rewrite E. destruct (sp_owner s t) as [u'|] eqn:Eu.
      * rewrite (step_owner t u' Eu) in Hu. assert (u' = u) as -> by congruence.
        apply (cons_with_mono (sight s u)); [apply step_sight|by apply (k_lead _ Hok)].
      * destruct (k_none _ Hok t Eu) as [-> _]. by intros i e.
    + assert (u = v) as -> by congruence. by rewrite <- Rsame.
  - intros t. rewrite step_published. apply (cons_with_mono (published s)); [|apply Hok]. intros t'. by rewrite step_published.
  - intros w. destruct (decide (w = v)) as [->|Hne]; [by rewrite Elive|]. rewrite Elives by done.
    apply (cons_with_mono (sight s w)); [apply step_sight|apply Hok].
  - intros w. rewrite Edisk. apply (cons_with_mono (published s)); [|apply Hok]. intros t'. by rewrite step_published.
  - intros w. destruct (decide (w = v)) as [->|Hne]; [by rewrite Elive|]. rewrite Elives by done.
    apply (step_certified (sight s w)); [apply step_sight|apply Hok].
  - intros w. rewrite Edisk. apply (step_certified (published s)); [|apply Hok]. intros t'. by rewrite step_published.
  - intros w t m. rewrite Enet. intros Ha. pose proof (prefix_length _ _ (step_sight w t)).
    destruct (decide (w = v)) as [->|Hne].
    + rewrite Elive. rewrite Eout, app_assoc in Ha. apply elem_of_app in Ha as [Ha|Ha].
      * destruct (k_ack _ Hok _ _ _ Ha). split; lia.
      * destruct (Rfacts _ Ha) as (_&->&?&_). done.
    + rewrite Elives by done. rewrite Eouts in Ha by done. destruct (k_ack _ Hok _ _ _ Ha). split; [done|lia].
  - intros w t m. rewrite Enet, Edisk, step_published. apply Hok.
  - apply step_held.
  - intros w t j Hw. rewrite step_published, Edisk. intros Hj Hc. pose proof (prefix_length _ _ (published_lead s t)).
    destruct (step_choosable t j Hc) as [[Hcs ->]|(_&_&?&_)]; [|lia]. apply (k_held_disk _ Hok); try done.
    destruct Hw as [?%step_acked_net|Ho]; [by left|right]. destruct (choosable_owned s Hok t j Hcs) as [u Hu].
    rewrite (step_owner t u Hu) in Ho. congruence.
  - apply step_grant.
  - intros w t' c. rewrite Enet, Edisk. apply Hok.
  - apply step_request.
  - intros c t' lt li. rewrite Enet, Edisk. apply Hok.
  - intros w f. destruct (decide (w = v)) as [->|Hne]; [|rewrite Eouts by done; apply Hok].
    rewrite Eout. intros [Hf|Hf]%elem_of_app; [by apply (k_source _ Hok)|]. specialize (Rfacts f Hf). destruct f; by destruct Rfacts.
  - apply step_complete.
Qed.
End host_step.
End spec.
