(* ===== verification/RaftComplete.v ===== *)
(** * Leader completeness of the replicated log

    That every step of [RaftSpec]'s state machine keeps its invariant, and
    with it that what any two hosts have committed agrees. *)

From S2P Require Import Prelude RaftState RaftInv RaftSpec.
From stdpp Require Import functions.
#[local] Open Scope N_scope.

Section complete.
Context {voters : list HostId} {quorum : gset HostId → Prop}.
Context (quorum_meet : ∀ a b, quorum a → quorum b → ∃ w : HostId, w ∈ a ∧ w ∈ b).
Context (quorum_single : ∀ q u u', quorum q → (∀ w, w ∈ q → w = u') → u ∈ voters → u = u').
#[local] Abbreviation spec_ok := (spec_ok voters quorum).
#[local] Abbreviation certified := (certified quorum).
#[local] Abbreviation choosable := (choosable quorum).

Lemma certified_term s view t t' l c : t ≤ t' → certified s view t l c → certified s view t' l c.
Proof. intros Ht [->|(t0&j&?&?)]; [by left|]. right. exists t0, j. split; [lia|done]. Qed.

(** The terms of a host's log. *)
Lemma live_terms s v e : spec_ok s → e ∈ sh_log (sp_live s v) → 0 < le_term e ≤ sh_term (sp_live s v).
Proof.
  intros Hok He. split; [|by apply (k_live_terms _ _ _ Hok)].
  apply (cons_with_positive (sight s v) (sh_log (sp_live s v))); [apply Hok|by eapply sight_terms|done].
Qed.
Lemma own_past s v t : spec_ok s → sh_term (sp_live s v) < t → sp_owner s t ≠ Some v.
Proof. intros Hok Ht Ho. destruct (k_own _ _ _ Hok t v Ho) as (_&?&_). lia. Qed.

(** ** Steps that leave the log *)
Lemma same_log_ok s v h' facts : spec_ok s →
  sh_term (sp_live s v) ≤ sh_term h' → sh_log h' = sh_log (sp_live s v) → sh_commit h' = sh_commit (sp_live s v) →
  (sh_role h' = Leader → sh_role (sp_live s v) = Leader ∧ sh_term h' = sh_term (sp_live s v)) →
  (sh_role h' = Candidate → v ∈ voters ∧
    (sh_term (sp_live s v) < sh_term h' ∨ (sh_role (sp_live s v) = Candidate ∧ sh_term h' = sh_term (sp_live s v)))) →
  (∀ f, f ∈ facts →
    match f with
    | Ack _ _ _ => False
    | Grant w t c => w = v ∧ t = sh_term h'
        ∧ ∃ last_t size, Request c t last_t size ∈ sp_net s ∧ not_behind last_t size (sh_log h')
    | Request c t last_t size => c = v ∧ t = sh_term h' ∧ sh_term (sp_live s v) < sh_term h'
        ∧ last_t = last_term 0 (sh_log h') ∧ size = length (sh_log h')
    end) →
  spec_ok (with_host s v h' facts).
Proof.
  intros Hok Ht El Ec Hl Hc Hf. apply (host_step_ok voters quorum quorum_meet quorum_single s _ v h' facts Hok); simpl; auto.
  - by rewrite fn_lookup_insert.
  - intros w Hw. by rewrite fn_lookup_insert_ne.
  - by rewrite fn_lookup_insert.
  - intros w Hw. by rewrite fn_lookup_insert_ne.
  - intros w t m []%Hf.
  - intros t Ho. by apply (k_own _ _ _ Hok t v).
  - intros [Hr ->]%Hl. by apply (k_leader _ _ _ Hok).
  - intros Hr. destruct (Hc Hr) as [Hv Hcase]. split_and!; try done.
    + intros Ho. destruct (k_own _ _ _ Hok _ _ Ho) as (_&?&Hn&_). destruct Hcase as [?|[Hr' Et]]; [lia|]. by apply Hn.
    + destruct Hcase as [?|[??]]; auto.
  - congruence.
  - intros Ho. rewrite El. destruct (N.lt_trichotomy (sh_term (sp_live s v)) (sh_term h')) as [Hlt|[Et|]]; [|by apply Hok|lia].
    by apply (own_past s v) in Hlt.
  - intros e. rewrite El. intros He%live_terms; [|done]. lia.
  - rewrite El. apply Hok.
  - rewrite El, Ec. apply (certified_term _ _ (sh_term (sp_live s v))); [done|]. apply Hok.
  - intros t j _ _. by rewrite El.
  - intros f Hin. specialize (Hf f Hin). destruct f; [done| |done]. by destruct Hf as (?&?&?).
  - congruence.
Qed.

(** ** Following a leader *)

(** A prefix the log shares with the log it follows is kept. *)
Lemma follows_keeps T l l' k :
  follows T l l' → take k l `prefix_of` T → (k ≤ length l)%nat → take k l `prefix_of` l'.
Proof.
  intros [->|[[? _]|(HT&_&_&Hk)]] Hp Hl; [apply prefix_take|etransitivity; [apply prefix_take|done]|].
  apply (prefix_shorter _ _ T); [done..|]. rewrite length_take. rewrite Nat.min_l by done.
  apply prefix_take_iff in Hp as [Hlen Heq]. rewrite length_take, Nat.min_l in Hlen, Heq by done.
  apply Hk; [done|done|lia].
Qed.
Lemma follows_own T l l' : follows T l l' → l = T → l' = l.
Proof.
  intros [->|[[H1 H2]|(_&H&_)]] ->; [done| |done].
  by apply (anti_symm prefix).
Qed.

Lemma follow_ok s v h' ms : spec_ok s → sh_term (sp_live s v) ≤ sh_term h' → sh_role h' ≠ Candidate →
  sh_role h' ≠ Leader → sees s v (sh_term h') →
  follows (sight s v (sh_term h')) (sh_log (sp_live s v)) (sh_log h') →
  (sh_commit h' = sh_commit (sp_live s v) ∨ certified s (sight s v) (sh_term h') (sh_log h') (sh_commit h')) →
  Forall (λ m, (m ≤ length (sight s v (sh_term h')))%nat ∧ take m (sight s v (sh_term h')) `prefix_of` sh_log h') ms →
  spec_ok (with_host s v h' (Ack v (sh_term h') <$> ms)).
Proof.
  intros Hok Ht Hnc Hnl Hsee Hfol Hcom Hms. set (T := sight s v (sh_term h')) in *.
  assert (∃ u, sp_owner s (sh_term h') = Some u) as [u Hu]
    by (destruct Hsee as [?|?]; [eauto|by eapply pub_owned]).
  (* a host that owns the term keeps its log *)
  assert (sp_owner s (sh_term h') = Some v → sh_log h' = sh_log (sp_live s v)) as Hmine.
  { intros Ho. apply (follows_own T); [done|]. subst T. rewrite sight_own by done. apply (k_same _ _ _ Hok); [done|].
    destruct (k_own _ _ _ Hok _ _ Ho) as (_&?&_). lia. }
  assert (∀ t j, acked s v t j ∨ sp_owner s t = Some v → choosable s t j →
    take (S j) (sp_lead s t) `prefix_of` sh_log (sp_live s v) → take (S j) (sp_lead s t) `prefix_of` sh_log h') as Hkeep.
  { intros t j Hw Hc Hp. destruct (decide (sp_owner s (sh_term h') = Some v)) as [Ho|Hno]; [by rewrite Hmine|].
    pose proof (choosable_lookup _ _ _ _ Hc) as Hj.
    assert (t ≤ sh_term h') as Hle.
    { destruct Hw as [(m&Hm&_)|Ho]; [apply (k_ack _ _ _ Hok) in Hm|apply (k_own _ _ _ Hok) in Ho as (_&?&_)]; lia. }
    assert (take (S j) (sp_lead s t) `prefix_of` T) as HT.
    { subst T. unfold sight. rewrite decide_False by done. destruct Hsee as [?|[p Hp']]; [done|].
      destruct (N.lt_trichotomy t (sh_term h')) as [Hlt|[->|]]; [|..|lia].
      - destruct (k_complete _ _ _ Hok t (sh_term h') u j Hlt Hu Hc) as [Hpl Hpub]. specialize (Hpub p Hp').
        unfold published. rewrite Hp'. apply (prefix_shorter _ _ (sp_lead s (sh_term h'))); [done|apply prefix_take|].
        apply prefix_length in Hpl. rewrite !length_take in *. lia.
      - destruct Hw as [(m&Hm&Hjm)|]; [|done]. apply (k_ack _ _ _ Hok) in Hm as [_ Hm].
        unfold sight in Hm. rewrite decide_False in Hm by done.
        apply (prefix_shorter _ _ (sp_lead s (sh_term h'))); [apply prefix_take|apply published_lead|]. rewrite length_take. lia. }
    apply prefix_take_iff in Hp as [Hpl Hpe]. rewrite <- Hpe in HT |- *.
    by apply (follows_keeps T). }
  assert (cons_with (sight s v) (sh_log h')) as Hcons.
  { destruct Hfol as [->|Hfol]; [apply Hok|]. assert (sh_log h' `prefix_of` T) as Hp by naive_solver.
    apply (cons_with_prefix _ T); [done|]. subst T. unfold sight at 2. destruct (decide _).
    - by apply (k_lead _ _ _ Hok).
    - apply (cons_with_mono (published s)); [intros; apply published_sight|apply Hok]. }
  assert (∀ e, e ∈ sh_log h' → 0 < le_term e ≤ sh_term h') as Hterms.
  { intros e He. destruct Hfol as [E|Hfol].
    - rewrite E in He. apply live_terms in He; [lia|done].
    - apply (sight_terms voters quorum s Hok v). apply (elem_of_prefix (sh_log h')); [done|naive_solver]. }
  apply (host_step_ok voters quorum quorum_meet quorum_single s _ v h' (Ack v (sh_term h') <$> ms) Hok); simpl; auto; try done.
  - by rewrite fn_lookup_insert.
  - intros w Hw. by rewrite fn_lookup_insert_ne.
  - by rewrite fn_lookup_insert.
  - intros w Hw. by rewrite fn_lookup_insert_ne.
  - intros w t m (?&[= <- <- <-]&_)%list_elem_of_fmap. done.
  - intros t Ho. by apply (k_own _ _ _ Hok t v).
  - congruence.
  - intros Ho. rewrite Hmine by done. apply (k_same _ _ _ Hok); [done|]. destruct (k_own _ _ _ Hok _ _ Ho) as (_&?&_). lia.
  - destruct Hcom as [->|Hcom]; [|done]. pose proof (commit_seen voters quorum s Hok v (sh_term h') Ht Hsee) as [Hcs Hcl].
    pose proof (follows_keeps _ _ _ _ Hfol Hcs Hcl) as Hk. apply prefix_take_iff in Hk as [Hkl Hke].
    rewrite length_take, Nat.min_l in Hkl, Hke by done.
    destruct (k_commit _ _ _ Hok v) as [->|(t0&j&?&?&?&?&?&?)]; [by left|].
    right. exists t0, j. split_and!; try done; [lia|]. by rewrite Hke.
  - intros f (m&->&Hm)%list_elem_of_fmap. rewrite Forall_forall in Hms. split_and!; try done; apply Hms; by apply list_elem_of_In.
  - congruence.
Qed.

(** ** Leading *)
Lemma certified_prefix s view t l l' c : l `prefix_of` l' → certified s view t l c → certified s view t l' c.
Proof.
  intros Hp [->|(t0&j&?&?&?&?&?&?)]; [by left|]. right. exists t0, j. pose proof (prefix_length _ _ Hp).
  split_and!; try done; [lia|]. by rewrite <- (take_prefix_take l l').
Qed.

(** The owner of a term, or the host that wins it, extends its log. *)
Lemma extend_ok s v h' es (t := sh_term h') (s' := with_lead (with_host s v h' []) v t (sh_log h')) :
  spec_ok s → t = sh_term (sp_live s v) → sh_log h' = sh_log (sp_live s v) ++ es → Forall (λ e, le_term e = t) es →
  0 < t → v ∈ voters → sh_role h' ≠ Candidate →
  (sp_owner s t = Some v ∨ sp_owner s t = None
   ∧ (∃ q, quorum q ∧ ∀ w, w ∈ q → w = v ∨ Grant w t v ∈ sp_net s)
   ∧ ∀ t0 j, t0 < t → choosable s t0 j → take (S j) (sp_lead s t0) `prefix_of` sh_log (sp_live s v)) →
  (sh_commit h' = sh_commit (sp_live s v) ∨ certified s' (sight s' v) t (sh_log h') (sh_commit h')) →
  spec_ok s'.
Proof.
  intros Hok Et El Hes H0 Hv Hr Ho Hcom.
  assert (sp_lead s t `prefix_of` sh_log h') as Hpre.
  { rewrite El. destruct Ho as [Ho|(Hn&_)].
    - rewrite <- (k_same _ _ _ Hok t v Ho) by done. by apply prefix_app_r.
    - destruct (k_none _ _ _ Hok t Hn) as [-> _]. apply prefix_nil. }
  assert (∀ u, sp_owner s' u = sp_owner s u ∨ (u = t ∧ sp_owner s' u = Some v ∧ sp_owner s u = None)) as Hown.
  { intros u. simpl. destruct (decide (u = t)) as [->|Hu]; [|left; by rewrite fn_lookup_insert_ne].
    rewrite fn_lookup_insert. destruct Ho as [->|(->&_)]; auto. }
  assert (∀ u, sp_lead s' u = sp_lead s u
    ∨ (u = t ∧ sp_owner s' u = Some v ∧ sp_lead s u `prefix_of` sp_lead s' u ∧ t = sh_term (sp_live s v))) as Hlead.
  { intros u. simpl. destruct (decide (u = t)) as [->|Hu]; [right; by rewrite !fn_lookup_insert|left; by rewrite fn_lookup_insert_ne]. }
  assert (∀ u, sight s v u `prefix_of` sight s' v u) as Hmono
    by (intros u; by apply (step_sight voters quorum s s' v h' Hok)).
  assert (sight s' v t = sh_log h') as Hsight.
  { rewrite sight_own; simpl; by rewrite fn_lookup_insert. }
  apply (host_step_ok voters quorum quorum_meet quorum_single s s' v h' [] Hok); try done; simpl.
  - by rewrite fn_lookup_insert.
  - intros w Hw. by rewrite fn_lookup_insert_ne.
  - by rewrite fn_lookup_insert, app_nil_r.
  - intros w Hw. by rewrite fn_lookup_insert_ne.
  - fold t. lia.
  - intros w u m Hin. by apply elem_of_nil in Hin.
  - intros _. by rewrite fn_lookup_insert.
  - intros u Hn. destruct (decide (u = t)) as [->|Hu]; [|rewrite fn_lookup_insert_ne by done; congruence].
    intros _. destruct Ho as [?|(_&?&_)]; [congruence|done].
  - intros _. by rewrite fn_lookup_insert.
  - intros e. rewrite El. intros [He|He]%elem_of_app; [apply live_terms in He; [fold t; lia|done]|].
    rewrite Forall_forall in Hes. rewrite (Hes e) by (by apply list_elem_of_In). fold t. lia.
  - rewrite El. apply (cons_with_app _ _ _ t); [|done|by rewrite Hsight, El].
    apply (cons_with_mono (sight s v)); [done|]. apply Hok.
  - destruct Hcom as [->|?]; [|done]. apply (certified_prefix _ _ _ (sh_log (sp_live s v))); [rewrite El; by apply prefix_app_r|].
    apply (step_certified quorum s s' v h') with (sight s v); try done.
    all: fold t; first [lia|rewrite Et; apply Hok].
  - intros t0 j _ _ Hp. rewrite El. by apply prefix_app_r.
  - intros f Hin. by apply elem_of_nil in Hin.
  - intros t0 t' j Hlt Hn. destruct (decide (t' = t)) as [->|Hu]; [|rewrite fn_lookup_insert_ne by done; congruence].
    intros _ Hc. rewrite fn_lookup_insert, El. destruct Ho as [?|(_&_&Hcomp)]; [congruence|]. by apply prefix_app_r, Hcomp.
Qed.

(** What may be chosen in an earlier term is in the log of a host that wins: the election rule. *)
Lemma winner_complete s v q (t := sh_term (sp_live s v)) : spec_ok s → sh_role (sp_live s v) = Candidate → quorum q →
  (∀ w, w ∈ q → w = v ∨ Grant w t v ∈ sp_net s) →
  ∀ t0 j, t0 < t → choosable s t0 j → take (S j) (sp_lead s t0) `prefix_of` sh_log (sp_live s v).
Proof.
  intros Hok Hr Hq Hg.
  intros t0 j Hlt Hc. pose proof Hc as (Hf&q0&Hq0&Hw0). destruct (choosable_owned _ _ s Hok _ _ Hc) as [u Hu].
  destruct (quorum_meet q0 q Hq0 Hq) as (w&Hwq0&Hwq). destruct (Hg w Hwq) as [->|Hgr].
  - (* the winner itself *)
    destruct (Hw0 v Hwq0) as [Ho|[Ha|Hd]]; [apply (k_held _ _ _ Hok); auto..|].
    destruct (decide (set_Exists (λ w, w ≠ v) q)) as [(w&Hw&Hne)|Hno].
    + destruct (Hg w Hw) as [|Hgr]; [done|]. destruct (k_grant _ _ _ Hok w t v) as (_&lt&li&Hreq&_).
      { apply elem_of_app. by left. } apply (k_request_net _ _ _ Hok) in Hreq. lia.
    + assert (u = v) as ->; [|apply (k_held _ _ _ Hok); auto]. apply (quorum_single q u v Hq).
      * intros w Hw. destruct (decide (w = v)); [done|]. destruct Hno. by exists w.
      * by apply (k_own _ _ _ Hok t0 u).
  - pose proof (k_grant_net _ _ _ Hok _ _ _ Hgr) as Hgd.
    destruct (k_grant _ _ _ Hok w t v) as (_&lt&li&Hreq&Hcov); [apply elem_of_app; by left|].
    destruct (k_request _ _ _ Hok v t lt li) as (_&Hend); [apply elem_of_app; by left|].
    destruct (Hend Hr) as [-> ->]; [done|].
    assert (acked s w t0 j ∨ sp_owner s t0 = Some w) as Hww.
    { destruct (Hw0 w Hwq0) as [?|[?|?]]; [by right|by left|lia]. }
    pose proof (Hcov t0 j Hlt Hww Hc) as Hend'. pose proof (k_live _ _ _ Hok v) as Hcons.
    set (l := sh_log (sp_live s v)) in *.
    assert (l ≠ []) as Hnil.
    { intros E. rewrite E in Hend'. cbn in Hend'. destruct Hf as (e&He&Ete). apply list_elem_of_lookup_2 in He.
      apply (k_lead_terms _ _ _ Hok) in He. lia. }
    destruct (last_term_lookup l Hnil) as (e&He&Elast). rewrite Elast in Hend'.
    pose proof (Hcons _ _ He) as Hwhole. rewrite take_ge in Hwhole by lia.
    assert (l `prefix_of` sp_lead s (le_term e)) as Hll by (etransitivity; [exact Hwhole|apply sight_lead]).
    pose proof (choosable_lookup _ _ _ _ Hc) as Hj.
    assert (take (S j) (sp_lead s t0) `prefix_of` sp_lead s (le_term e) ∧ (j < length l)%nat) as [Hpre Hlen].
    { destruct Hend' as [Hlt'|[-> ?]]; [|split; [apply prefix_take|done]].
      destruct (lead_owned _ _ s Hok (le_term e)) as [u' Hu'].
      { intros E. rewrite E in Hll. by apply prefix_nil_inv in Hll. }
      destruct (k_complete _ _ _ Hok t0 (le_term e) u' j Hlt' Hu' Hc) as [Hp _]. split; [done|].
      (* the entry chosen is of an earlier term than the log's last *)
      destruct Hf as (e0&He0&Ete0). assert (sp_lead s (le_term e) !! j = Some e0) as Hj0.
      { eapply prefix_lookup_Some; [|exact Hp]. by rewrite lookup_take_lt by lia. }
      destruct (decide (j < length l)%nat) as [|Hge]; [done|]. exfalso.
      assert (le_term e ≤ le_term e0); [|lia].
      apply (cons_with_sorted (sight s u') (sp_lead s (le_term e)) (pred (length l)) j e e0);
        [by apply (k_lead _ _ _ Hok)|by eapply sight_terms|by eapply prefix_lookup_Some|done|lia]. }
    apply (prefix_shorter _ _ (sp_lead s (le_term e))); [done..|]. rewrite length_take. lia.
Qed.

Lemma win_ok s v h' es q : spec_ok s → sh_role (sp_live s v) = Candidate → sp_owner s (sh_term h') = None → quorum q →
  (∀ w, w ∈ q → w = v ∨ Grant w (sh_term h') v ∈ sp_net s) → sh_term h' = sh_term (sp_live s v) → sh_role h' = Leader →
  sh_log h' = sh_log (sp_live s v) ++ es → Forall (λ e, le_term e = sh_term h') es → sh_commit h' = sh_commit (sp_live s v) →
  0 < sh_term h' → spec_ok (with_lead (with_host s v h' []) v (sh_term h') (sh_log h')).
Proof.
  intros Hok Hr Hn Hq Hg Et Hl El Hes Ec H0. apply (extend_ok s v h' es); try done; [by apply (k_candidate _ _ _ Hok)|congruence| |by left].
  right. split_and!; [done|by exists q|]. rewrite Et in *. by apply (winner_complete s v q).
Qed.

Lemma lead_ok s v h' es : spec_ok s → sh_role (sp_live s v) = Leader → sh_term h' = sh_term (sp_live s v) →
  sh_role h' ≠ Candidate → sh_log h' = sh_log (sp_live s v) ++ es → Forall (λ e, le_term e = sh_term h') es →
  0 < sh_term h' →
  (sh_commit h' = sh_commit (sp_live s v)
   ∨ ∃ j q, sh_commit h' = S j ∧ fresh_at (sh_log h') (sh_term h') j ∧ quorum q
       ∧ ∀ w, w ∈ q → w = v ∨ acked_net s w (sh_term h') j) →
  spec_ok (with_lead (with_host s v h' []) v (sh_term h') (sh_log h')).
Proof.
  intros Hok Hr Et Hc El Hes H0 Hcom. pose proof (k_leader _ _ _ Hok v Hr) as Ho. rewrite <- Et in Ho.
  apply (extend_ok s v h' es); try done; [by apply (k_own _ _ _ Hok (sh_term h') v)|by left|].
  destruct Hcom as [?|(j&q&Ej&Hf&Hq&Hw)]; [by left|right]. right. exists (sh_term h'), j.
  pose proof Hf as (e&He&_). pose proof (lookup_lt_Some _ _ _ He).
  assert (sp_lead (with_lead (with_host s v h' []) v (sh_term h') (sh_log h')) (sh_term h') = sh_log h') as Elead
    by (simpl; by rewrite fn_lookup_insert).
  rewrite !sight_own, Elead by (simpl; by rewrite fn_lookup_insert). split_and!; try done; try lia.
  - split; [by rewrite Elead|]. exists q. split; [done|]. intros w [->|(m&Hm&?)]%Hw.
    + left. simpl. by rewrite fn_lookup_insert.
    + right. by exists m.
  - apply prefix_take.
Qed.

(** ** Publishing, releasing and crashing *)

(** What moves no log: acknowledgements may go, terms rise and the public views grow. *)
Section quiet_step.
Context (s s' : Spec) (Hok : spec_ok s).
Context (Elead : ∀ t, sp_lead s' t `prefix_of` sp_lead s t).
Context (Eowner : ∀ t u, sp_owner s' t = Some u → sp_owner s t = Some u).
Context (Eacked : ∀ w t j, acked s' w t j → acked s w t j).
Context (Edisk : ∀ w, sh_term (sp_disk s w) ≤ sh_term (sp_disk s' w)).

Lemma quiet_choosable t j : choosable s' t j → choosable s t j ∧ take (S j) (sp_lead s' t) = take (S j) (sp_lead s t).
Proof.
  intros Hc. pose proof (choosable_lookup _ _ _ _ Hc) as Hj. destruct Hc as ((e&He&Et)&q&Hq&Hw).
  split; [|apply take_prefix_take; [done|lia]]. split.
  - exists e. split; [|done]. by eapply prefix_lookup_Some.
  - exists q. split; [done|]. intros w [?|[?|?]]%Hw; [left; by apply Eowner|right; left; by apply Eacked|].
    right; right. pose proof (Edisk w). lia.
Qed.
End quiet_step.

Lemma chosen_frame s s' t j :
  (∀ e, sp_lead s t !! j = Some e → sp_lead s' t !! j = Some e) →
  (∀ u, sp_owner s t = Some u → sp_owner s' t = Some u) → (∀ f, f ∈ sp_net s → f ∈ sp_net s') →
  chosen quorum s t j → chosen quorum s' t j.
Proof.
  intros Hl Ho Hn ((e&He&Et)&q&Hq&Hw). split; [exists e; auto|]. exists q. split; [done|].
  intros w [?|(m&Hm&?)]%Hw; [left; auto|right; exists m; auto].
Qed.

Lemma certified_mono s s' view view' t l c : (∀ t j, chosen quorum s t j → chosen quorum s' t j) →
  (∀ u, view u `prefix_of` view' u) → certified s view t l c → certified s' view' t l c.
Proof.
  intros Hch Hv [->|(t0&j&?&?&?&?&?&?)]; [by left|]. right. exists t0, j. pose proof (prefix_length _ _ (Hv t0)).
  split_and!; try done; [auto|lia|by etransitivity].
Qed.

(** *** Views after publishing *)
Lemma publish_published s v t : published (with_publish s v) t = sight s v t.
Proof. unfold published, sight. simpl. destruct (decide _); [|done]. by rewrite take_ge. Qed.
Lemma publish_sight s v w t : sight s w t `prefix_of` sight (with_publish s v) w t.
Proof.
  unfold sight at 2. rewrite publish_published. simpl. destruct (decide (sp_owner s t = Some w)); [apply sight_lead|].
  unfold sight at 1. rewrite decide_False by done. apply published_sight.
Qed.
Lemma publish_mono s v t : published s t `prefix_of` published (with_publish s v) t.
Proof. rewrite publish_published. apply published_sight. Qed.

Lemma publish_ok s v : spec_ok s → spec_ok (with_publish s v).
Proof.
  intros Hok. set (s' := with_publish s v). pose proof (publish_published s v) as Epub.
  pose proof (publish_sight s v) as Hsight. pose proof (publish_mono s v) as Hpub. fold s' in Epub, Hsight, Hpub.
  assert (∀ w, sh_term (sp_disk s w) ≤ sh_term (sp_disk s' w)) as Hdisk.
  { intros w. simpl. destruct (decide (v = w)) as [<-|]; [rewrite fn_lookup_insert; apply (k_term _ _ _ Hok)|].
    rewrite fn_lookup_insert_ne by done. lia. }
  assert (∀ t j, choosable s' t j → choosable s t j) as Hch by (intros t j Hc; by apply (quiet_choosable s s')).
  assert (∀ view view' t l c, (∀ u, view u `prefix_of` view' u) → certified s view t l c → certified s' view' t l c) as Hcert
    by (intros; by apply (certified_mono s s' view)).
  split; simpl; try apply Hok.
  - intros t Hn. destruct (k_none _ _ _ Hok t Hn) as [? ?]. split; [done|]. by rewrite decide_False by congruence.
  - intros t p u. destruct (decide _) as [Ho|Hno].
    + intros [= <-] Hu. assert (u = v) as -> by congruence. rewrite fn_lookup_insert. split; [done|]. by apply (k_own _ _ _ Hok).
    + intros Hp Hu. rewrite fn_lookup_insert_ne by congruence. by apply (k_pub _ _ _ Hok).
  - intros t u Hu Hp. rewrite Epub. destruct (decide (v = u)) as [<-|Hne].
    + rewrite fn_lookup_insert, sight_own by done. by apply (k_same _ _ _ Hok).
    + rewrite fn_lookup_insert_ne by done. rewrite decide_False in Hp by congruence. unfold sight. rewrite decide_False by congruence.
      by apply (k_same_disk _ _ _ Hok).
  - intros w. destruct (decide (v = w)) as [<-|]; [rewrite fn_lookup_insert; lia|].
    rewrite fn_lookup_insert_ne by done. apply (k_term _ _ _ Hok).
  - intros w e. destruct (decide (v = w)) as [<-|]; [rewrite fn_lookup_insert|rewrite fn_lookup_insert_ne by done]; apply Hok.
  - intros t u Hu. apply (cons_with_mono (sight s u)); [apply Hsight|by apply (k_lead _ _ _ Hok)].
  - intros t. rewrite Epub. apply (cons_with_mono (sight s v)); [intros; by rewrite Epub|]. unfold sight at 2. destruct (decide _).
    + by apply (k_lead _ _ _ Hok).
    + apply (cons_with_mono (published s)); [intros; apply published_sight|apply Hok].
  - intros w. apply (cons_with_mono (sight s w)); [apply Hsight|apply Hok].
  - intros w. destruct (decide (v = w)) as [<-|]; [rewrite fn_lookup_insert|rewrite fn_lookup_insert_ne by done].
    + apply (cons_with_mono (sight s v)); [intros; by rewrite Epub|apply Hok].
    + apply (cons_with_mono (published s)); [done|apply Hok].
  - intros w. apply (Hcert (sight s w)); [apply Hsight|apply Hok].
  - intros w. destruct (decide (v = w)) as [<-|]; [rewrite fn_lookup_insert|rewrite fn_lookup_insert_ne by done].
    + apply (Hcert (sight s v)); [intros; by rewrite Epub|apply Hok].
    + apply (Hcert (published s)); [done|apply Hok].
  - intros w t m Ha. destruct (k_ack _ _ _ Hok _ _ _ Ha). split; [done|]. pose proof (prefix_length _ _ (Hsight w t)). lia.
  - intros w t m Ha. destruct (k_ack_net _ _ _ Hok _ _ _ Ha). pose proof (prefix_length _ _ (Hpub t)). pose proof (Hdisk w). simpl in *. split; lia.
  - intros w t j Hw Hc%Hch. by apply (k_held _ _ _ Hok).
  - intros w t j Hw Hj Hc%Hch. destruct (decide (v = w)) as [<-|Hne].
    + rewrite fn_lookup_insert. apply (k_held _ _ _ Hok); [|done]. destruct Hw as [?%acked_net_acked|?]; [by left|by right].
    + rewrite fn_lookup_insert_ne by done. apply (k_held_disk _ _ _ Hok); try done. rewrite Epub in Hj. unfold sight in Hj.
      destruct (decide _) as [Ho|]; [|done]. destruct Hw as [(m&Hm&?)|?]; [|congruence].
      apply (k_ack_net _ _ _ Hok) in Hm as [_ Hm]. lia.
  - intros w t' c Hg. destruct (k_grant _ _ _ Hok _ _ _ Hg) as (?&lt&li&?&Hcov). split; [done|]. exists lt, li. split; [done|].
    intros t j Hlt Hw Hc%Hch. by apply Hcov.
  - intros w t' c Hg. apply (k_grant_net _ _ _ Hok) in Hg. pose proof (Hdisk w). simpl in *. lia.
  - intros c t' lt li Hr. apply (k_request_net _ _ _ Hok) in Hr. pose proof (Hdisk c). simpl in *. lia.
  - intros t t' u j Hlt Hu Hc%Hch. destruct (k_complete _ _ _ Hok t t' u j Hlt Hu Hc) as [Hp Hq]. split; [done|].
    intros p. destruct (decide _); [|apply Hq]. intros [= <-]. apply prefix_length in Hp. apply choosable_lookup in Hc.
    rewrite length_take in Hp. lia.
Qed.

(** *** Views after releasing *)
Lemma release_sight s v : (∀ t, sp_owner s t = Some v → sp_pub s t = Some (length (sp_lead s t))) → ∀ t, published s t = sight s v t.
Proof.
  intros Hpub t. unfold sight. destruct (decide _) as [Ho|]; [|done]. unfold published. rewrite (Hpub t Ho). by rewrite take_ge.
Qed.
Lemma release_chosen s v t j : chosen quorum s t j → chosen quorum (with_release s v) t j.
Proof. apply chosen_frame; try done. intros f Hf. simpl. rewrite elem_of_app. by left. Qed.

Lemma release_ok s v : spec_ok s → sh_term (sp_live s v) = sh_term (sp_disk s v) → sh_log (sp_live s v) = sh_log (sp_disk s v) →
  (∀ t, sp_owner s t = Some v → sp_pub s t = Some (length (sp_lead s t))) →
  spec_ok (with_release s v).
Proof.
  intros Hok Et El Hpub. set (s' := with_release s v). pose proof (release_sight s v Hpub) as Esight.
  assert (∀ w f, f ∈ sp_net s' ++ sp_out s' w → f ∈ sp_net s ++ sp_out s w ∨ (w ≠ v ∧ f ∈ sp_out s v)) as Hin.
  { intros w f. simpl. rewrite !elem_of_app. destruct (decide (v = w)) as [<-|Hne].
    - rewrite fn_lookup_insert. set_solver.
    - rewrite fn_lookup_insert_ne by done. intros [[?|?]|?]; auto. }
  assert (∀ w f, f ∈ sp_net s' ++ sp_out s' w →
    match f with Ack x _ _ | Grant x _ _ | Request x _ _ _ => x = w end → f ∈ sp_net s ++ sp_out s w) as Hby.
  { intros w f [?|[Hne Hf]]%Hin Hx; [done|]. apply (k_source _ _ _ Hok) in Hf. destruct f; congruence. }
  assert (∀ f, f ∈ sp_net s' → f ∈ sp_net s ∨ f ∈ sp_out s v) as Hnet by (intros f; simpl; by rewrite elem_of_app).
  assert (∀ w t j, acked s' w t j → acked s w t j) as Hacked.
  { intros w t j (m&Hm&?). exists m. split; [|done]. by apply Hby. }
  assert (∀ t j, choosable s' t j → choosable s t j) as Hch by (intros t j Hc; by apply (quiet_choosable s s')).
  assert (∀ view t l c, certified s view t l c → certified s' view t l c) as Hcert
    by (intros; apply (certified_mono s s' view); [apply release_chosen|done..]).
  assert (∀ f, f ∈ sp_net s → f ∈ sp_net s') as Hmore by (intros f Hf; simpl; rewrite elem_of_app; by left).
  split; simpl; try apply Hok.
  - intros t u Hu. destruct (k_own _ _ _ Hok t u Hu) as (?&?&?&q&?&Hg). split_and!; try done. exists q. split; [done|].
    intros w [?|?]%Hg; [by left|right; by apply Hmore].
  - intros w. apply Hcert, Hok.
  - intros w. apply Hcert, Hok.
  - intros w t m Ha%Hby; [|done]. by apply (k_ack _ _ _ Hok).
  - intros w t m [Ha|Ha]%Hnet; [by apply (k_ack_net _ _ _ Hok)|]. pose proof (k_source _ _ _ Hok _ _ Ha) as Hs. simpl in Hs. subst w.
    destruct (k_ack _ _ _ Hok v t m) as [??]; [rewrite elem_of_app; by right|].
    change (published s' t) with (published s t). rewrite Esight. split; [lia|done].
  - intros w t j Hw Hc%Hch. apply (k_held _ _ _ Hok); [|done]. destruct Hw as [?%Hacked|?]; [by left|by right].
  - intros w t j Hw Hj Hc%Hch. change (published s' t) with (published s t) in Hj. destruct (decide (w = v)) as [->|Hne].
    + rewrite <- El. apply (k_held _ _ _ Hok); [|done]. destruct Hw as [?%acked_net_acked%Hacked|?]; [by left|by right].
    + apply (k_held_disk _ _ _ Hok); try done. destruct Hw as [(m&Hm&?)|?]; [left|by right]. exists m. split; [|done].
      apply Hnet in Hm as [?|Hm]; [done|]. apply (k_source _ _ _ Hok) in Hm. congruence.
  - intros w t' c Hg%Hby; [|done]. destruct (k_grant _ _ _ Hok _ _ _ Hg) as (?&lt&li&Hr&Hcov). split; [done|]. exists lt, li.
    split; [by apply Hmore|]. intros t j Hlt Hw Hc%Hch. apply Hcov; try done. destruct Hw as [?%Hacked|?]; [by left|by right].
  - intros w t' c [Hg|Hg]%Hnet; [by apply (k_grant_net _ _ _ Hok) in Hg|]. pose proof (k_source _ _ _ Hok _ _ Hg) as Hs. simpl in Hs. subst w.
    destruct (k_grant _ _ _ Hok v t' c) as [? _]; [rewrite elem_of_app; by right|]. lia.
  - intros c t' lt li Hr%Hby; [|done]. by apply (k_request _ _ _ Hok).
  - intros c t' lt li [Hr|Hr]%Hnet; [by apply (k_request_net _ _ _ Hok) in Hr|]. pose proof (k_source _ _ _ Hok _ _ Hr) as Hs. simpl in Hs. subst c.
    destruct (k_request _ _ _ Hok v t' lt li) as [? _]; [rewrite elem_of_app; by right|]. lia.
  - intros w f. destruct (decide (v = w)) as [<-|]; [rewrite fn_lookup_insert; by intros ?%elem_of_nil|].
    rewrite fn_lookup_insert_ne by done. apply Hok.
  - intros t t' u j Hlt Hu Hc%Hch. by apply (k_complete _ _ _ Hok t t' u).
Qed.

(** *** Views after a crash *)
Section crashed.
Context (s : Spec) (v : HostId) (h' : Host).
#[local] Abbreviation s' := (with_crash s v h').

Lemma crash_owner t u : sp_owner s' t = Some u ↔ sp_owner s t = Some u ∧ (u = v → is_Some (sp_pub s t)).
Proof.
  simpl. destruct (decide _) as [[Ho Hp]|Hno]; split; try done.
  - intros [Hu Hs]. destruct Hs as [? ?]; congruence.
  - intros Hu. split; [done|]. intros ->. destruct (sp_pub s t); [done|]. by destruct Hno.
  - by intros [? _].
Qed.
Lemma crash_cut t : sp_owner s t = Some v → sp_lead s' t = published s t.
Proof. intros Ho. simpl. by rewrite decide_True. Qed.
Lemma crash_kept t : sp_owner s t ≠ Some v → sp_lead s' t = sp_lead s t.
Proof. intros Ho. simpl. by rewrite decide_False. Qed.
Lemma crash_lead t : sp_lead s' t `prefix_of` sp_lead s t.
Proof. destruct (decide (sp_owner s t = Some v)); [rewrite crash_cut by done; apply published_lead|by rewrite crash_kept]. Qed.
Lemma crash_published t : published s' t = published s t.
Proof.
  unfold published at 1. change (sp_pub s' t) with (sp_pub s t). destruct (decide (sp_owner s t = Some v)).
  - rewrite crash_cut by done. unfold published. destruct (sp_pub s t); [|done]. rewrite take_take. f_equal. lia.
  - by rewrite crash_kept.
Qed.
Lemma crash_sight w t : w ≠ v → sight s' w t = sight s w t.
Proof.
  intros Hw. unfold sight. rewrite crash_published. destruct (decide (sp_owner s t = Some w)) as [Ho|Ho].
  - rewrite decide_True by (apply crash_owner; done). apply crash_kept. congruence.
  - rewrite decide_False; [done|]. by intros [? _]%crash_owner.
Qed.
Lemma crash_sight_own t : sight s' v t = published s t.
Proof. unfold sight. rewrite crash_published. destruct (decide _) as [[Ho _]%crash_owner|]; [by apply crash_cut|done]. Qed.

(** What is certified in a view that shows the host's terms as published stays so. *)
Lemma crash_certified view view' t l c : (∀ u, view u = view' u) → (∀ u, sp_owner s u = Some v → view u = published s u) →
  certified s view t l c → certified s' view' t l c.
Proof.
  intros Hv Hp [->|(t0&j&?&Hc&Hj&?&?&?)]; [by left|]. right. exists t0, j. rewrite <- Hv. split_and!; try done.
  apply (chosen_frame s); try done.
  - intros e He. destruct (decide (sp_owner s t0 = Some v)) as [Ho|]; [|by rewrite crash_kept].
    rewrite crash_cut by done. rewrite (Hp t0 Ho) in Hj. destruct (lookup_lt_is_Some_2 _ _ Hj) as [e' He'].
    rewrite (prefix_lookup_Some _ _ _ _ He' (published_lead s t0)) in He. congruence.
  - intros u Hu. apply crash_owner. split; [done|]. intros ->. rewrite (Hp t0 Hu) in Hj. unfold published in Hj.
    destruct (sp_pub s t0); [done|simpl in Hj; lia].
Qed.
End crashed.

Lemma crash_ok s v h' : spec_ok s → sh_term h' = sh_term (sp_disk s v) → sh_log h' = sh_log (sp_disk s v) →
  sh_commit h' = sh_commit (sp_disk s v) → sh_role h' = Follower → spec_ok (with_crash s v h').
Proof.
  intros Hok Et El Ec Er. set (s' := with_crash s v h'). pose proof (crash_owner s v h') as Hown.
  pose proof (crash_cut s v h') as Hcut. pose proof (crash_kept s v h') as Hkept. pose proof (crash_lead s v h') as Hlead.
  pose proof (crash_published s v h') as Epub. pose proof (crash_sight s v h') as Esight. pose proof (crash_sight_own s v h') as Esightv.
  pose proof (crash_certified s v h') as Hcert. fold s' in Hown, Hcut, Hkept, Hlead, Epub, Esight, Esightv, Hcert.
  assert (∀ w t j, acked s' w t j → acked s w t j) as Hacked.
  { intros w t j (m&Hm&?). exists m. split; [|done]. simpl in Hm. destruct (decide (v = w)) as [<-|].
    - rewrite fn_lookup_insert, app_nil_r in Hm. rewrite elem_of_app. by left.
    - by rewrite fn_lookup_insert_ne in Hm. }
  assert (∀ t j, choosable s' t j → choosable s t j ∧ take (S j) (sp_lead s' t) = take (S j) (sp_lead s t)) as Hch.
  { intros t j Hc. apply (quiet_choosable s s'); try done. by intros ?? [? _]%Hown. }
  split; simpl.
  - intros t Hn. fold (sp_lead s' t). destruct (decide (sp_owner s t = Some v)) as [Ho|Hno].
    + destruct (decide _) as [[_ Hp]|Hno]; [|congruence]. split; [|done]. unfold published. by rewrite Hp.
    + rewrite decide_False in Hn by tauto. by apply (k_none _ _ _ Hok).
  - intros t p u Hp [Hu _]%Hown. destruct (k_pub _ _ _ Hok t p u Hp Hu) as [Hl ?]. split; [|done].
    destruct (decide _); [|done]. unfold published. rewrite Hp, length_take. lia.
  - intros t u [Hu Hs]%Hown. destruct (k_own _ _ _ Hok t u Hu) as (?&?&?&?). split_and!; try done.
    + destruct (decide (v = u)) as [<-|]; [|by rewrite fn_lookup_insert_ne]. rewrite fn_lookup_insert, Et.
      destruct (Hs eq_refl) as [p Hp]. by apply (k_pub _ _ _ Hok t p v).
    + destruct (decide (v = u)) as [<-|]; [rewrite fn_lookup_insert; congruence|by rewrite fn_lookup_insert_ne].
  - intros t u [Hu Hs]%Hown. fold (sp_lead s' t). destruct (decide (v = u)) as [<-|Hne].
    + rewrite fn_lookup_insert, Et, El. rewrite decide_True by done. intros Ht. apply (k_same_disk _ _ _ Hok); auto.
    + rewrite fn_lookup_insert_ne by done. rewrite decide_False by congruence. by apply (k_same _ _ _ Hok).
  - intros t u [Hu _]%Hown. rewrite Epub. by apply (k_same_disk _ _ _ Hok).
  - intros w. destruct (decide (v = w)) as [<-|Hne]; [rewrite fn_lookup_insert; congruence|]. rewrite fn_lookup_insert_ne by done.
    intros Hl%(k_leader _ _ _ Hok). by apply Hown.
  - intros w. destruct (decide (v = w)) as [<-|Hne]; [rewrite fn_lookup_insert; congruence|]. rewrite fn_lookup_insert_ne by done. apply Hok.
  - intros w. destruct (decide (v = w)) as [<-|Hne]; [rewrite fn_lookup_insert; lia|]. rewrite fn_lookup_insert_ne by done. apply (k_term _ _ _ Hok).
  - intros t e He. apply (k_lead_terms _ _ _ Hok). eapply elem_of_prefix; [exact He|apply Hlead].
  - intros w e. destruct (decide (v = w)) as [<-|Hne]; [rewrite fn_lookup_insert, Et, El|rewrite fn_lookup_insert_ne by done]; apply Hok.
  - apply Hok.
  - intros t u [Hu _]%Hown. fold (sp_lead s' t). destruct (decide (u = v)) as [->|Hne].
    + rewrite decide_True by done. apply (cons_with_mono (published s)); [intros; by rewrite Esightv|apply Hok].
    + rewrite decide_False by congruence. apply (cons_with_mono (sight s u)); [intros; by rewrite Esight|by apply (k_lead _ _ _ Hok)].
  - intros t. rewrite Epub. apply (cons_with_mono (published s)); [intros; by rewrite Epub|apply Hok].
  - intros w. destruct (decide (v = w)) as [<-|Hne].
    + rewrite fn_lookup_insert, El. apply (cons_with_mono (published s)); [intros; by rewrite Esightv|apply Hok].
    + rewrite fn_lookup_insert_ne by done. apply (cons_with_mono (sight s w)); [intros; by rewrite Esight|apply Hok].
  - intros w. apply (cons_with_mono (published s)); [intros; by rewrite Epub|apply Hok].
  - intros w. destruct (decide (v = w)) as [<-|Hne].
    + rewrite fn_lookup_insert, Et, El, Ec. apply (Hcert (published s)); try done. apply Hok.
    + rewrite fn_lookup_insert_ne by done. apply (Hcert (sight s w)); [intros; by rewrite Esight| |apply Hok].
      intros u Hu. unfold sight. by rewrite decide_False by congruence.
  - intros w. apply (Hcert (published s)); try done. apply Hok.
  - intros w t m. destruct (decide (v = w)) as [<-|Hne].
    + rewrite !fn_lookup_insert, app_nil_r, Et, Esightv. apply Hok.
    + rewrite !fn_lookup_insert_ne, Esight by done. apply Hok.
  - intros w t m. rewrite Epub. apply Hok.
  - intros w t j Hw Hc. fold (sp_lead s' t). destruct (Hch t j Hc) as [Hcs Etake]. change (if decide _ then _ else _) with (sp_lead s' t). rewrite Etake.
    destruct (decide (v = w)) as [<-|Hne].
    + rewrite fn_lookup_insert, El. apply (k_held_disk _ _ _ Hok); try done.
      * destruct Hw as [(m&Hm&?)|[? _]%Hown]; [left|by right]. exists m. split; [|done]. simpl in Hm.
        by rewrite fn_lookup_insert, app_nil_r in Hm.
      * apply choosable_lookup in Hc. destruct Hw as [(m&Hm&?)|[Ho _]%Hown].
        -- simpl in Hm. rewrite fn_lookup_insert, app_nil_r in Hm. apply (k_ack_net _ _ _ Hok) in Hm as [_ Hm]. lia.
        -- by rewrite Hcut in Hc.
    + rewrite fn_lookup_insert_ne by done. apply (k_held _ _ _ Hok); [|done].
      destruct Hw as [?%Hacked|[? _]%Hown]; [by left|by right].
  - intros w t j Hw. rewrite Epub. intros Hj Hc. destruct (Hch t j Hc) as [Hcs Etake].
    change (if decide _ then _ else _) with (sp_lead s' t). rewrite Etake. apply (k_held_disk _ _ _ Hok); try done.
    destruct Hw as [?|[? _]%Hown]; [by left|by right].
  - intros w t' c Hg. assert (Grant w t' c ∈ sp_net s ++ sp_out s w) as Hg'.
    { destruct (decide (v = w)) as [<-|]; [|by rewrite fn_lookup_insert_ne in Hg].
      rewrite fn_lookup_insert, app_nil_r in Hg. rewrite elem_of_app. by left. }
    destruct (k_grant _ _ _ Hok _ _ _ Hg') as (Ht&lt&li&Hr&Hcov). split.
    + destruct (decide (v = w)) as [<-|]; [|by rewrite fn_lookup_insert_ne].
      rewrite fn_lookup_insert, app_nil_r in Hg. rewrite fn_lookup_insert, Et. by apply (k_grant_net _ _ _ Hok) in Hg.
    + exists lt, li. split; [done|]. intros t j Hlt Hw Hc. apply Hcov; [done| |by apply Hch].
      destruct Hw as [?%Hacked|[? _]%Hown]; [by left|by right].
  - apply Hok.
  - intros c t' lt li. destruct (decide (v = c)) as [<-|Hne].
    + rewrite !fn_lookup_insert, app_nil_r, Et, Er. intros Hr%(k_request_net _ _ _ Hok). done.
    + rewrite !fn_lookup_insert_ne by done. apply Hok.
  - apply Hok.
  - intros w f. destruct (decide (v = w)) as [<-|]; [rewrite fn_lookup_insert; by intros ?%elem_of_nil|].
    rewrite fn_lookup_insert_ne by done. apply Hok.
  - intros t t' u j Hlt [Hu Hs]%Hown Hc. destruct (Hch t j Hc) as [Hcs Etake].
    change (if decide (sp_owner s t = _) then _ else _) with (sp_lead s' t). rewrite Etake.
    destruct (k_complete _ _ _ Hok t t' u j Hlt Hu Hcs) as [Hp Hq]. split; [|done].
    destruct (decide (sp_owner s t' = Some v)) as [Ho|]; [|done]. destruct Hs as [p Hpp]; [congruence|].
    unfold published. rewrite Hpp. specialize (Hq p Hpp). apply (prefix_shorter _ _ (sp_lead s t')); [done|apply prefix_take|].
    apply prefix_length in Hp. rewrite !length_take in *. lia.
Qed.

(** ** Reachable states *)
Lemma spec_step_ok s s' : spec_ok s → spec_step voters quorum s s' → spec_ok s'.
Proof.
  intros Hok Hstep. destruct Hstep as [s v h' [Ht Hk] ??|s v h' k ?????|s v h' c lt li [Ht Hk] ????|s v h' es q|s v h' es|s v h' ms|s v|s v|s v h'].
  - apply same_log_ok; try done.
    + by apply Hk; right.
    + intros Hc. destruct (Hk Candidate) as [??]; [by left|done|]. split; [by apply (k_candidate _ _ _ Hok)|by right].
    + intros f Hin. by apply elem_of_nil in Hin.
  - apply same_log_ok; try done; [lia|congruence|by split; [|left]|].
    intros f [-> _]%elem_of_replicate. done.
  - apply same_log_ok; try done.
    + by apply Hk; right.
    + intros Hc. destruct (Hk Candidate) as [??]; [by left|done|]. split; [by apply (k_candidate _ _ _ Hok)|by right].
    + intros f ->%list_elem_of_singleton. split_and!; try done. by exists lt, li.
  - by eapply win_ok.
  - by eapply lead_ok.
  - by apply follow_ok.
  - by apply publish_ok.
  - by apply release_ok.
  - by apply crash_ok.
Qed.
End complete.
