(* ===== verification/RaftFull.v ===== *)
(** * Whole logs of Raft nodes, and what a leader does to its own

    A node's log with the prefix it compacted away ([full]), and the effect
    on it of every operation that is not a follower's: nothing ([calm]), or
    entries of the leader's term at its end and a commit its followers' match
    indices bear ([drives]). *)

From S2P Require Import Prelude RaftState RaftLog RaftElect RaftReplicate RaftFast RaftAdmin RaftInv RaftAppend RaftOps RaftSaved RaftQuorum RaftSystem RaftSpec.
#[local] Open Scope N_scope.

(** ** Whole logs *)
Definition full (F : list LogEntry) (s : SavedRaft) : Prop :=
  N.of_nat (length F) = s_snapshot_index s + len (s_log s)
  ∧ drop (N.to_nat (s_snapshot_index s)) F = s_log s
  ∧ (0 < s_snapshot_index s →
     ∃ e, F !! (N.to_nat (s_snapshot_index s) - 1)%nat = Some e ∧ le_term e = s_snapshot_term s).

Section full.
Context {cfg_ok : VoterConfig → Prop}.
#[local] Abbreviation hard_ok := (hard_ok True cfg_ok).

Lemma full_lookup F n i : full F (saved n) → snapshot_index n < i →
  lookup_at (snapshot_index n) (log n) i = F !! (N.to_nat i - 1)%nat.
Proof.
  intros (_&Hd&_) Hi. cbn in Hd. unfold lookup_at. rewrite (proj2 (N.leb_gt _ _)) by done.
  rewrite <- Hd, lookup_drop. f_equal. lia.
Qed.
Lemma full_entry_at F n i : full F (saved n) → snapshot_index n < i → entry_at n i = F !! (N.to_nat i - 1)%nat.
Proof. intros. rewrite entry_at_eq. by apply full_lookup. Qed.

Lemma full_entry_term F n i : full F (saved n) → snapshot_index n ≤ i → 0 < i →
  entry_term n i = le_term <$> F !! (N.to_nat i - 1)%nat.
Proof.
  intros HF Hi H0. unfold entry_term. rewrite (proj2 (N.eqb_neq _ _)) by lia. destruct (i =? snapshot_index n) eqn:E; bool_to_prop.
  - subst i. destruct HF as (_&_&Hs). destruct (Hs H0) as (e&He&Et). cbn in He, Et. by rewrite He, <- Et.
  - rewrite (full_entry_at F) by (done || lia). done.
Qed.
Lemma full_entry_term_some F n i t : hard_ok n → full F (saved n) → entry_term n i = Some t →
  0 < i ∧ snapshot_index n ≤ i ∧ ∃ e, F !! (N.to_nat i - 1)%nat = Some e ∧ le_term e = t.
Proof.
  intros Hh HF Ht. assert (0 < i) as H0.
  { unfold entry_term in Ht. destruct (i =? 0) eqn:E; [done|]. bool_to_prop. lia. }
  pose proof (entry_term_holds _ _ _ Hh Ht) as Hd. apply holds_bound in Hd as [Hs _].
  rewrite (full_entry_term F) in Ht by done. destruct (F !! _) as [e|]; [|done]. injection Ht as <-. eauto.
Qed.

Lemma full_last_index F n : hard_ok n → full F (saved n) → N.to_nat (last_log_index n) = length F.
Proof. intros Hh (Hl&_). cbn in Hl. rewrite last_log_index_eq by done. lia. Qed.
Lemma full_last_term F n : hard_ok n → full F (saved n) → last_log_term n = last_term 0 F.
Proof.
  intros Hh (Hl&Hd&Hs). cbn in Hl, Hd, Hs. unfold last_log_term, last_term.
  rewrite <- (take_drop (N.to_nat (snapshot_index n)) F), last_app, Hd.
  destruct (last (log n)) as [e|] eqn:E; [done|]. apply last_None in E. rewrite E, len_nil in Hl.
  destruct (decide (snapshot_index n = 0)) as [E0|Hn].
  - destruct (ok_origin _ Hh E0) as [-> _]. by rewrite E0.
  - destruct Hs as (e&He&Et); [lia|]. rewrite take_ge by lia. rewrite last_lookup.
    replace (pred _) with (N.to_nat (snapshot_index n) - 1)%nat by lia. by rewrite He.
Qed.

Lemma full_app F n n' es : full F (saved n) → log n' = log n ++ es →
  (snapshot_index n', snapshot_term n') = (snapshot_index n, snapshot_term n) → full (F ++ es) (saved n').
Proof.
  intros (Hl&Hd&Hs) El [= Ei Et]. cbn in *. unfold full. cbn. rewrite El, Ei, Et. split_and!.
  - rewrite length_app, len_app. unfold len in *. lia.
  - rewrite drop_app_le by lia. by rewrite Hd.
  - intros H0. destruct (Hs H0) as (e&He&?). exists e. split; [|done]. by apply lookup_app_l_Some.
Qed.

(** A node's whole log is determined by what it keeps and the views it stands in. *)
Lemma full_unique view F F' s : cons_with view F → cons_with view F' → full F s → full F' s →
  (s_snapshot_index s = 0 → s_snapshot_term s = 0) → F = F'.
Proof.
  intros Hc Hc' (Hl&Hd&Hs) (Hl'&Hd'&Hs') H0. set (k := N.to_nat (s_snapshot_index s)) in *.
  rewrite <- (take_drop k F), <- (take_drop k F'), Hd, Hd'. f_equal.
  destruct (decide (k = 0)%nat) as [->|Hk]; [done|].
  destruct Hs as (e&He&Et); [lia|]. destruct Hs' as (e'&He'&Et'); [lia|].
  replace k with (S (k - 1)) by lia. eapply (cons_with_match view); try done. congruence.
Qed.
End full.

(** ** Operations that leave the log *)
(** No slot of a leader's own entries is added. *)
Definition window_shrinks (n n' : RaftNode) : Prop :=
  ∀ i s, ws_fast s = false → window n' !! i = Some s → window n !! i = Some s.

(** Match indices stay within what is known of the followers. *)
Definition matches (A : HostId → N → Prop) (n : RaftNode) : Prop := ∀ w m, match_index n !! w = Some m → A w m.

Record calm (n n' : RaftNode) : Prop := mkCalm {
  ca_full : ∀ F, full F (saved n) → full F (saved n');
  ca_kept : (id n', commit_index n', synced_term n') = (id n, commit_index n, synced_term n);
  ca_window : window_shrinks n n';
  ca_term : current_term n ≤ current_term n';
  ca_role : role n' = Candidate ∨ role n' = Leader → role n' = role n ∧ current_term n' = current_term n;
  ca_match : role n' = Leader → ∀ A : HostId → N → Prop, (∀ w, A w 0) → matches A n → matches A n' }.

Lemma calm_hard n n' : hard n' = hard n →
  (role n' = Candidate ∨ role n' = Leader → role n' = role n) →
  (role n' = Leader → ∀ A : HostId → N → Prop, (∀ w, A w 0) → matches A n → matches A n') → calm n n'.
Proof.
  intros Eh Hr Hm. split; try done.
  - intros F HF. by rewrite (saved_hard n n' Eh).
  - unfold id, commit_index, synced_term. by rewrite Eh.
  - unfold window_shrinks, window. by rewrite Eh.
  - unfold current_term. by rewrite Eh.
  - intros H%Hr. split; [done|]. unfold current_term. by rewrite Eh.
Qed.
Lemma calm_frame n n' : hard n' = hard n → role n' = role n → match_index n' = match_index n → calm n n'.
Proof. intros Eh Er Em. apply calm_hard; [done..|]. intros _ A _. unfold matches. by rewrite Em. Qed.
#[export] Instance calm_refl : Reflexive calm.
Proof. intros n. by apply calm_frame. Qed.
Lemma calm_trans a b c : calm a b → calm b c → calm a c.
Proof.
  intros [Hf [= E1 E2 E3] Hw Ht Hr Hm] [Hf' [= E1' E2' E3'] Hw' Ht' Hr' Hm']. split.
  - auto.
  - congruence.
  - intros i s Hfast ?%Hw'; auto.
  - lia.
  - intros H. destruct (Hr' H) as [E ?]. rewrite E in H |- *. destruct (Hr H). split; congruence.
  - intros H A H0 HA. destruct (Hr' (or_intror H)) as [E _]. apply Hm'; try done. apply Hm; try done. congruence.
Qed.

Lemma calm_step_down n term : current_term n < term → calm n (step_down n term).
Proof. intros Ht. split; unfold step_down, pending, window_shrinks; node_simpl; try done; try lia; by intros []. Qed.
Lemma calm_observe_term n term : calm n (observe_term n term).
Proof. unfold observe_term. split_if; [apply calm_step_down; by bool_to_prop|reflexivity]. Qed.
Lemma calm_recognize_leader n term leader : calm n (recognize_leader n term leader).
Proof.
  unfold recognize_leader. fold (observe_term n term). eapply calm_trans; [apply calm_observe_term|].
  apply calm_hard; [done|by intros []|done].
Qed.

(** ** Operations of a leader *)
Section drives.
Context (voters : list HostId) {granted : HostId → HostId → N → Prop}.
#[local] Abbreviation cfg := (group_cfg voters).
#[local] Abbreviation quorum := (group_quorum voters).
#[local] Abbreviation node_ok := (node_ok True cfg granted quorum).
#[local] Abbreviation moves := (moves True cfg granted quorum).
(** What followers are known to hold. *)
Context (A : HostId → N → Prop) (A0 : ∀ w, A w 0).

(** A commit index that a quorum of the leader and its followers holds. *)
Definition borne (me : HostId) (i : N) : Prop :=
  ∃ q, quorum q ∧ ∀ w, w ∈ q → w = me ∨ ∃ m, A w m ∧ i ≤ m.

Record drives (n n' : RaftNode) : Prop := mkDrives {
  dr_kept : (id n', current_term n', synced_term n') = (id n, current_term n, synced_term n);
  dr_snapshot : (snapshot_index n', snapshot_term n') = (snapshot_index n, snapshot_term n);
  dr_role : role n' = role n ∨ role n' = Follower;
  dr_log : ∃ es, log n' = log n ++ es ∧ Forall (λ e, le_term e = current_term n) es;
  dr_window : window_shrinks n n';
  dr_match : matches A n → matches A n';
  dr_commit : commit_index n' = commit_index n
    ∨ (commit_index n < commit_index n' ∧ entry_term n' (commit_index n') = Some (current_term n)
       ∧ (matches A n → borne (id n) (commit_index n'))) }.

Lemma entry_term_app n n' es i t : log n' = log n ++ es →
  (snapshot_index n', snapshot_term n') = (snapshot_index n, snapshot_term n) →
  entry_term n i = Some t → entry_term n' i = Some t.
Proof.
  intros El [= Ei Et]. unfold entry_term. rewrite !entry_at_eq, El, Ei, Et. repeat split_if; try done.
  unfold lookup_at. split_if; [done|]. destruct (log n !! _) as [e|] eqn:E; [|done]. by erewrite lookup_app_l_Some.
Qed.

Lemma drives_trans a b c : drives a b → drives b c → drives a c.
Proof.
  intros [[= E1 E2 E3] [= E4 E5] Hr (es&El&Hes) Hw Hm Hc] [[= E1' E2' E3'] [= E4' E5'] Hr' (es'&El'&Hes') Hw' Hm' Hc'].
  split; try congruence.
  - destruct Hr, Hr'; (left; congruence) || (right; congruence).
  - exists (es ++ es'). rewrite El', El, app_assoc. split; [done|]. apply Forall_app. split; [done|]. by rewrite <- E2.
  - intros i s Hfast ?%Hw'; auto.
  - auto.
  - destruct Hc' as [Ec'|(Hlt&Ht&Hb)].
    + destruct Hc as [Ec|(Hlt&Ht&Hb)]; [left; congruence|right]. rewrite Ec'. split_and!; try done.
      by eapply entry_term_app; [..|exact Ht]; [|congruence].
    + right. assert (commit_index a ≤ commit_index b) by (destruct Hc as [->|[? _]]; lia).
      split_and!; [lia|congruence|]. rewrite <- E1. auto.
Qed.
Lemma drives_frame n n' : hard n' = hard n → role n' = role n ∨ role n' = Follower →
  (matches A n → matches A n') → drives n n'.
Proof.
  intros Eh Hr Hm. split; try done.
  - unfold id, current_term, synced_term. by rewrite Eh.
  - unfold snapshot_index, snapshot_term. by rewrite Eh.
  - exists []. rewrite app_nil_r. split; [|done]. unfold log. by rewrite Eh.
  - unfold window_shrinks, window. by rewrite Eh.
  - left. unfold commit_index. by rewrite Eh.
Qed.
Lemma drives_same n n' : hard n' = hard n → role n' = role n → match_index n' = match_index n → drives n n'.
Proof. intros Eh Er Em. apply drives_frame; [done|by left|]. unfold matches. by rewrite Em. Qed.
#[local] Instance drives_refl : Reflexive drives.
Proof. intros n. by apply drives_same. Qed.

Lemma drives_push n e n' b : push_entry n e = (n', b) → le_term e = current_term n → drives n n'.
Proof.
  intros Hp Ht. unfold push_entry in Hp. destruct (checked_add _ _) as [i|]; simplify_eq; [|by apply drives_same].
  split; unfold window_shrinks; repeat split_if; node_simpl; try done; try (by left).
  all: exists [e]; split; [done|by repeat constructor].
Qed.

Lemma group_config_eq n : hard_ok True cfg n → effective_config n = group_config voters.
Proof. intros Hh. exact (effective_config_cfg n Hh). Qed.

(** What the commit rule finds is held by a quorum. *)
Lemma quorum_match_borne n : hard_ok True cfg n → 0 < quorum_match n → matches A n → borne (id n) (quorum_match n).
Proof.
  intros Hh Hq HA. exists (holders n (group_config voters) (quorum_match n)). split.
  - unfold group_quorum, config_majority. simpl. rewrite andb_true_r. apply carries_holders; [done|set_solver|].
    unfold quorum_match. rewrite (group_config_eq n Hh). done.
  - intros w Hw. unfold holders in Hw. apply elem_of_filter in Hw as [Hw _]. unfold match_of in Hw.
    destruct (w =? id n) eqn:E; bool_to_prop; [by left|right].
    destruct (match_index n !! w) as [m|] eqn:Em; simpl in Hw; [eauto|lia].
Qed.

Lemma drives_prune n : drives n (prune_committed n).
Proof.
  unfold prune_committed, pending. split; unfold window_shrinks; node_simpl; try done; try (by left).
  - exists []. by rewrite app_nil_r.
  - by intros i s _ [? _]%map_lookup_filter_Some.
Qed.
Lemma drives_step_down_if_removed n : drives n (step_down_if_removed n).
Proof. unfold step_down_if_removed. repeat split_if; try reflexivity. apply drives_frame; [done|by right|done]. Qed.

Lemma drives_advance n : hard_ok True cfg n → drives n (advance_leader_commit n).
Proof.
  intros Hh. unfold advance_leader_commit. split_if; [reflexivity|].
  set (m := if _ && _ then _ else n). apply (drives_trans _ m).
  - subst m. destruct (_ && _) eqn:E; [|reflexivity]. apply andb_true_iff in E as [E1 E2%bool_decide_eq_true]. bool_to_prop.
    split; unfold window_shrinks; node_simpl; try done; try (by left); [exists []; by rewrite app_nil_r|].
    right. split_and!; [done|done|]. intros HA. apply quorum_match_borne; [done|lia|done].
  - eapply drives_trans; [|apply drives_step_down_if_removed]. eapply drives_trans; [|apply drives_prune].
    by apply drives_same.
Qed.

Lemma drives_append n e : node_ok n → recovering n = false → le_term e = current_term n → 0 < current_term n →
  entry_cfg cfg e → drives n (leader_append n e).1.
Proof.
  intros Hok Hr Ht H0 Hc. unfold leader_append. split_if; [by apply drives_same|].
  destruct (push_entry n e) as [m b] eqn:Ep. pose proof (drives_push _ _ _ _ Ep Ht) as Hd. destruct b; simpl; [|done].
  eapply drives_trans; [exact Hd|]. match goal with |- context [advance_leader_commit ?x] => set (k := x) end.
  apply (drives_trans _ k); [subst k; split_if; by apply drives_same|]. apply drives_advance.
  assert (steps True cfg granted quorum n m) as Hs.
  { apply (steps_push n e m true); try done; try lia. rewrite Ht. by eapply last_log_term_le, Hok. }
  destruct (Hs Hok) as [Hokm _]. apply (hard_ok_hard m); [subst k; by split_if|apply Hokm].
Qed.

Lemma drives_decide_loop fuel n : node_ok n → recovering n = false → 0 < current_term n → drives n (decide_loop fuel n).
Proof.
  revert n. induction fuel as [|fuel IH]; intros n Hok Hr H0; simpl; [reflexivity|].
  destruct (fast_votes n !! _) as [votes|]; [|reflexivity]. split_if; [reflexivity|].
  destruct (most_voted _) as [command|]; [|reflexivity]. set (e := command_entry _ command).
  pose proof (led_append n e (ok_hard _ Hok)) as Hl.
  pose proof (drives_append n e Hok Hr eq_refl H0 (command_entry_cfg _ _)) as Hd.
  destruct (moves_leader_append (granted := granted) (quorum := quorum) n e Hr H0 eq_refl (command_entry_cfg _ _) Hok) as (Hokm&_&_).
  destruct (leader_append n e) as [m b]. simpl in *. destruct b; [|done]. eapply drives_trans; [exact Hd|].
  eapply drives_trans; [|apply IH]; [by apply drives_same|by eapply moves_count_window; [reflexivity|]|by apply (led_not_recovering n m)|].
  destruct Hl as [Et _]. change (0 < current_term m). by rewrite Et.
Qed.
Lemma drives_decide_from_votes n : node_ok n → is_leader n = true → drives n (decide_from_votes n).
Proof.
  intros Hok Hl. unfold decide_from_votes. split_if; [reflexivity|].
  destruct (recovering n) eqn:Er; [|by apply drives_decide_loop; [..|eapply leader_positive]].
  destruct (recovery n) as [r|] eqn:Ey.
  - destruct (ok_recovery _ (ok_lead _ Hok) r Er Ey). simpl. by rewrite ok_votes, lookup_empty.
  - by rewrite (recovering_cleared n Ey) in Er.
Qed.
Lemma drives_count_fast_quorums n : node_ok n → drives n (count_fast_quorums n).
Proof.
  intros Hok. unfold count_fast_quorums. match goal with |- context [advance_leader_commit ?x] => set (m := x) end.
  assert (spine m = spine n ∧ match_index m = match_index n) as [Hs Em].
  { subst m. generalize (fst <$> List.filter (λ e : N * gmap HostId bytes, (committed_through n <? e.1) && (e.1 <=? last_log_index n)
      && fast_quorum_carries n (fast_quorum (len (all_voters n))) e.1 e.2) (bt_list (fast_votes n))).
    intros l. clear Hok. revert n. induction l as [|x l IH]; intros n; simpl; [done|].
    match goal with |- context [foldl ?f ?k l] => destruct (IH k) as [-> ->] end. done. }
  pose proof (spine_eqs _ _ Hs) as (Eh&_&Er&_). apply (drives_trans _ m); [by apply drives_same|].
  eapply drives_trans; [apply drives_advance; apply (hard_ok_hard n); [done|apply Hok]|]. by apply drives_same.
Qed.
Lemma drives_on_fast_vote n vote : node_ok n → drives n (on_fast_vote n vote).
Proof.
  intros Hok.
  unfold on_fast_vote. destruct (_ || _ || _ || _ || _ || _ || _) eqn:E; [reflexivity|]. bool_to_prop.
  match goal with |- context [decide_from_votes ?x] => set (m := x) end.
  assert (moves n m) as Hm.
  { apply (moves_trans _ (n <| contacts ::= λ s, {[fv_voter vote]} ∪ s |>)); [by apply moves_spine|].
    apply moves_fast_votes. right. destruct (recovering n) eqn:Er; [|done]. destruct (recovery n) as [r|] eqn:Ey.
    - destruct (ok_recovery _ (ok_lead _ Hok) r Er Ey). lia.
    - by rewrite (recovering_cleared n Ey) in Er. }
  destruct (Hm Hok) as (Hokm&_&_). apply (drives_trans _ m); [by apply drives_same|].
  eapply drives_trans; [by apply drives_decide_from_votes|]. apply drives_count_fast_quorums.
  by apply (moves_decide_from_votes m).
Qed.

Lemma recovery_entry_same n r i n' e : recovery_entry n r i = (n', e) →
  hard n' = hard n ∧ role n' = role n ∧ match_index n' = match_index n ∧ le_term e = current_term n.
Proof.
  unfold recovery_entry. destruct (rc_decided r !! i) as [[e0 fast]|]; intros [= <- <-]; [|done].
  by repeat split_if.
Qed.
Lemma drives_recovery_loop fuel slice n r spent n' r' refused :
  recovery_loop fuel slice n r spent = (n', r', refused) → drives n n'.
Proof.
  revert n r spent. induction fuel as [|fuel IH]; intros n r spent; simpl; [by intros [= <- _ _]|].
  split_if; [by intros [= <- _ _]|]. destruct (_ && _); [by intros [= <- _ _]|].
  destruct (recovery_entry n r (rc_next r)) as [m e] eqn:Ee. destruct (push_entry m e) as [k b] eqn:Ep.
  destruct (recovery_entry_same _ _ _ _ _ Ee) as (Eh&Er&Em&Et).
  assert (drives n k) as Hd.
  { apply (drives_trans _ m); [by apply drives_same|]. apply (drives_push _ _ _ _ Ep). rewrite Et. unfold current_term. by rewrite Eh. }
  destruct b; simpl; [|by intros [= <- _ _]]. destruct (checked_add _ _); [|by intros [= <- _ _]].
  intros Hl%IH. by eapply drives_trans.
Qed.
Lemma drives_continue_recovery n : node_ok n → drives n (continue_recovery n).
Proof.
  intros Hok. unfold continue_recovery. destruct (recovering n) eqn:Er; cbn [negb]; [|by apply drives_same].
  destruct (recovery n) as [r|] eqn:Ey; [|reflexivity].
  assert (role n = Leader) as Hlead.
  { unfold recovering, is_leader in Er. apply andb_true_iff in Er as [Er _]. by apply bool_decide_eq_true in Er. }
  destruct (ok_recovery _ (ok_lead _ Hok) r Er Ey) as [Hn Hd Hs Ho Hf].
  pose proof (ok_positive _ (ok_lead _ Hok) (or_intror Hlead)) as H0.
  destruct (moves_clear_recovery (granted := granted) (quorum := quorum) n Hok) as (Hok0&_).
  destruct (recovery_loop _ _ _ _ _) as [[m r'] refused] eqn:El.
  pose proof (drives_recovery_loop _ _ _ _ _ _ _ _ El) as Hdr.
  destruct (recovery_loop_steps _ _ _ _ _ _ _ _ El Hok0) as (Hst&Hk&_&_&_&_); try done.
  destruct Hk as [[= _ _ Et'] [= Ec' _ _ _]]. node_simpl in Ec'. destruct (Hst Hok0) as [Hokm _].
  apply (drives_trans _ (n <| recovery := None |>)); [by apply drives_same|]. apply (drives_trans _ _ _ Hdr).
  destruct refused; [by apply drives_same|]. split_if; [by split_if; apply drives_same|].
  set (m1 := count_window wc_recovery_slices m <| retention_pending := true |>).
  apply (drives_trans _ m1); [by apply drives_same|]. split_if; [|reflexivity].
  apply drives_append; try done.
  - apply (moves_raised (count_window wc_recovery_slices m)). by eapply moves_count_window; [reflexivity|].
  - by apply recovering_cleared.
  - change (current_term m1) with (current_term m). by rewrite Et'.
Qed.

Lemma drives_replicate_to n follower budget : node_ok n → drives n (replicate_to n follower budget).1.
Proof.
  intros Hok. unfold replicate_to. set (m := if recovering n then continue_recovery n else n).
  assert (drives n m) as Hm by (subst m; split_if; [by apply drives_continue_recovery|reflexivity]).
  split_if; [done|]. apply (drives_trans _ _ _ Hm). repeat split_if; by apply drives_same.
Qed.

(** ** Match indices *)
Lemma match_forget_progress n x : matches A n → matches A (forget_progress n x).
Proof.
  unfold forget_progress. split_if; [done|]. unfold matches. node_simpl. intros HA w m [_ H]%lookup_delete_Some. eauto.
Qed.
Lemma same_forget_progress n x : hard (forget_progress n x) = hard n ∧ role (forget_progress n x) = role n.
Proof. unfold forget_progress. by split_if. Qed.

Lemma drives_foldl {X} (f : RaftNode → X → RaftNode) l n :
  (∀ m x, hard (f m x) = hard m ∧ role (f m x) = role m ∧ (matches A m → matches A (f m x))) → drives n (foldl f n l).
Proof.
  intros Hf. revert n. induction l as [|x l IH]; intros n; simpl; [reflexivity|]. eapply drives_trans; [|apply IH].
  destruct (Hf n x) as (?&?&?). apply drives_frame; auto.
Qed.
Lemma drives_age_staging n : drives n (age_staging n).
Proof.
  unfold age_staging. eapply drives_trans; [|apply drives_foldl]; [by apply drives_same|].
  intros m x. unfold abort_staging. destruct (same_forget_progress (m <| staging ::= delete x |>) x) as [E1 E2].
  split_and!; [exact E1|exact E2|]. intros HA. by apply (match_forget_progress (m <| staging ::= delete x |>) x).
Qed.
Lemma drives_catch_up n target : drives n (catch_up n target).1.
Proof.
  unfold catch_up. split_if; [reflexivity|]. match goal with |- context [foldl ?f n ?l] => set (m := foldl f n l) end.
  assert (drives n m) as Hm.
  { apply drives_foldl. intros k x. destruct (same_forget_progress (k <| staging ::= delete x |>) x) as [E1 E2].
    split_and!; [exact E1|exact E2|]. intros HA. by apply (match_forget_progress (k <| staging ::= delete x |>) x). }
  apply (drives_trans _ _ _ Hm). destruct (_ ≫= _); simpl; [by apply drives_same|].
  eapply drives_trans; [|apply drives_foldl]; [by apply drives_same|]. intros k x. unfold stage_member. split_if; [done|].
  split_and!; try done. unfold matches. node_simpl. intros HA w y [[<- <-]|[_ H]]%lookup_insert_Some; eauto.
Qed.
Lemma drives_age_transfer n : node_ok n → is_leader n = true → drives n (age_transfer n).
Proof.
  intros Hok Hl. unfold age_transfer. destruct (active_transfer n) as [t|]; [|by apply drives_same].
  split_if; [|by apply drives_same]. match goal with |- context [decide_from_votes ?x] => set (m := x) end.
  assert (spine m = spine n ∧ match_index m = match_index n) as [Hs Em] by (subst m; by split_if).
  pose proof (spine_eqs _ _ Hs) as (Eh&_&Er&_).
  destruct (moves_spine (strict := True) (cfg_ok := cfg) (granted := granted) (quorum := quorum) n m Hs Hok) as (Hokm&_&_).
  assert (is_leader m = true) as Hlm by (unfold is_leader; by rewrite Er).
  apply (drives_trans _ m); [by apply drives_same|]. eapply drives_trans; [by apply drives_decide_from_votes|].
  apply drives_count_fast_quorums. by apply (moves_decide_from_votes m).
Qed.
Lemma drives_check_quorum n : node_ok n → drives n (check_quorum n).
Proof.
  intros Hok. unfold check_quorum. split_if; [reflexivity|]. bool_to_prop. set (m := age_staging _).
  assert (drives n m) as Hm by (eapply drives_trans; [by apply drives_age_transfer|apply drives_age_staging]).
  apply (drives_trans _ _ _ Hm). split_if; [|by apply drives_same]. apply drives_frame; [done|by right|done].
Qed.
Lemma drives_append_command n command : node_ok n → drives n (append_command n command).1.
Proof.
  intros Hok. unfold append_command. destruct (_ || _ || _ || _) eqn:E; [reflexivity|]. bool_to_prop.
  by apply drives_append; [..|eapply leader_positive|apply command_entry_cfg].
Qed.

(** A reply that tells of a follower's log. *)
Lemma drives_record_match n follower i : (∀ m, A (id n) m) → A follower i → drives n (record_match n follower i).
Proof.
  intros Hself Hi. apply drives_frame; [done|by left|]. unfold matches, record_match. node_simpl.
  intros HA w m [[<- <-]|[_ H]]%lookup_insert_Some; [|eauto]. unfold match_of.
  split_if; [bool_to_prop; by subst|]. destruct (match_index n !! follower) as [x|] eqn:E; simpl.
  - destruct (N.max_spec x i) as [[_ ->]|[_ ->]]; eauto.
  - by rewrite N.max_0_l.
Qed.

Lemma drives_on_append_reply n reply : node_ok n → is_leader n = true → ar_term reply ≤ current_term n → (∀ m, A (id n) m) →
  (ar_success reply = true → ar_term reply = current_term n → A (ar_follower reply) (ar_match_index reply)) →
  drives n (on_append_reply n reply).
Proof.
  intros Hok Hl Ht Hself HA. unfold on_append_reply. rewrite (proj2 (N.ltb_ge _ _)) by done. split_if; [reflexivity|].
  bool_to_prop. match goal with |- context [refuse_malformed ?x _] => set (m := x) end.
  assert (spine m = spine n ∧ match_index m = match_index n) as [Hs Em].
  { subst m. split; [apply spine_confirm_read|]. unfold confirm_read. by split_if. }
  pose proof (spine_eqs _ _ Hs) as (Eh&_&Er&_). apply (drives_trans _ m); [by apply drives_same|].
  destruct (ar_success reply); [|unfold back_up; destruct (next_index m !! _); by apply drives_same].
  split_if; [by apply drives_same|]. assert (id m = id n) as Ei by (unfold id; by rewrite Eh).
  eapply drives_trans; [apply drives_record_match; [by rewrite Ei|by apply HA]|]. apply drives_advance.
  apply (hard_ok_hard n); [exact Eh|apply Hok].
Qed.
Lemma drives_on_install_snapshot_reply n reply : node_ok n → is_leader n = true → isr_term reply ≤ current_term n →
  (∀ m, A (id n) m) →
  (0 < isr_match_index reply → isr_term reply = current_term n → A (isr_follower reply) (isr_match_index reply)) →
  drives n (on_install_snapshot_reply n reply).
Proof.
  intros Hok Hl Ht Hself HA. unfold on_install_snapshot_reply. rewrite (proj2 (N.ltb_ge _ _)) by done. split_if; [reflexivity|].
  bool_to_prop. split_if; [by apply drives_same|]. split_if; [|by apply drives_same]. bool_to_prop.
  match goal with |- context [record_match ?x _ _] => set (m := x) end. apply (drives_trans _ m); [by apply drives_same|].
  eapply drives_trans; [apply drives_record_match; [done|by apply HA]|]. apply drives_advance.
  apply (hard_ok_hard n); [done|apply Hok].
Qed.

(** ** All of them *)
Definition effect (n n' : RaftNode) : Prop := calm n n' ∨ (role n = Leader ∧ drives n n').

Lemma effect_calm n n' : calm n n' → effect n n'.
Proof. by left. Qed.
Lemma effect_same n n' : hard n' = hard n → role n' = role n → match_index n' = match_index n → effect n n'.
Proof. intros. by apply effect_calm, calm_frame. Qed.
Lemma effect_leader n n' : (is_leader n = true → drives n n') → (is_leader n = false → n' = n) → effect n n'.
Proof.
  intros Hd Hs. destruct (is_leader n) eqn:E; [right; split; [by apply bool_decide_eq_true in E|auto]|].
  rewrite Hs by done. by apply effect_same.
Qed.

(** The operations that neither campaign, vote nor follow; what a reply brings is known. *)
Definition own_effect (op : Op) : bool :=
  match op with
  | StartElection | ElectionTimeout | BeginMembershipChange _ | CompleteMembershipChange | PromoteCaughtUp _ => false
  | Receive (MPreVoteReply _) | Receive (MVoteReply _) | Receive (MRequestVote _) | Receive (MAppend _)
  | Receive (MSnapshot _) | Receive (MTimeoutNow _) => false
  | _ => true
  end.
Definition reply_known (n : RaftNode) (op : Op) : Prop :=
  match op with
  | Receive (MAppendReply r) => ar_success r = true → ar_term r = current_term n → A (ar_follower r) (ar_match_index r)
  | Receive (MSnapshotReply r) => 0 < isr_match_index r → isr_term r = current_term n → A (isr_follower r) (isr_match_index r)
  | _ => True
  end.

Lemma calm_compact n up_to state : hard_ok True cfg n → calm n (compact n up_to state).1.
Proof.
  intros Hh. unfold compact. split_if; [reflexivity|]. bool_to_prop. destruct (entry_term n up_to) as [term|] eqn:Et; [|reflexivity].
  set (m := match last _ with Some _ => _ | None => n end). cbn [fst].
  assert ((log m, commit_index m, synced_term m, window m, current_term m, id m, role m, match_index m)
    = (log n, commit_index n, synced_term n, window n, current_term n, id n, role n, match_index n)) as [= E1 E2 E3 E4 E5 E6 E7 E8].
  { subst m. by destruct (last _). }
  split; unfold drop_prefix, window_shrinks; node_simpl; rewrite ?E1, ?E2, ?E3, ?E4, ?E5, ?E6, ?E7; try done.
  - intros F HF. destruct (full_entry_term_some F n up_to term Hh HF Et) as (Hpos&Hs&e&He&Hte).
    destruct HF as (Hl&Hd&_). cbn in Hl, Hd. unfold full. cbn.
    pose proof (lookup_lt_Some _ _ _ He). rewrite N.min_l by lia. split_and!.
    + rewrite len_dropN. lia.
    + rewrite <- Hd. unfold dropN. rewrite drop_drop. f_equal. lia.
    + intros _. eauto.
  - unfold matches. node_simpl. by rewrite E8.
Qed.

Lemma calm_on_fast_propose n proposal : calm n (on_fast_propose n proposal).1.
Proof.
  unfold on_fast_propose. destruct (_ || _ || _ || _ || _ || _ || _); [reflexivity|].
  match goal with |- context [mkWindowSlot (current_term n) true ?e] => set (entry := e) end.
  match goal with |- context [if window_budget n <? ?x then _ else _] => set (cost := x) end.
  set (cast := if window_budget n <? cost then _ else _).
  assert (calm n cast.1) as Hc.
  { subst cast. split_if; simpl; [reflexivity|]. split; try done. intros i s Hf. node_simpl.
    intros [[_ <-]|[_ ?]]%lookup_insert_Some; done. }
  destruct (window n !! fp_index proposal); [|done]. repeat (split_if; [reflexivity|]). done.
Qed.

Lemma effect_own n op : node_ok n → (∀ m, A (id n) m) → own_effect op = true → reply_known n op → effect n (handle n op).1.
Proof.
  intros Hok Hself Ho Hk. destruct op as [| | | | | | | |message| | | | | | | | | | | | | | | | | | |]; try done; unfold handle.
  - by apply effect_same.
  - by apply effect_same.
  - by apply effect_same.
  - unfold forget_leader. split_if; by apply effect_same.
  - apply effect_calm, calm_observe_term.
  - apply effect_calm, calm_hard; [done|by intros []|done].
  - destruct message as [m|m|m|m|m|m|m|m|m|m|m]; try done; unfold receive; cbn [fst].
    + unfold on_pre_vote. destruct (admit_candidacy _ _ _); [destruct (pre_vote_refusal n m)|]; by apply effect_same.
    + unfold on_append_reply at 1. destruct (current_term n <? ar_term m) eqn:Et; [apply effect_calm, calm_step_down; by bool_to_prop|].
      bool_to_prop. apply effect_leader.
      * intros Hl. pose proof (drives_on_append_reply n m Hok Hl Et Hself Hk) as H. unfold on_append_reply in H.
        by rewrite (proj2 (N.ltb_ge _ _)) in H by done.
      * intros Hl. by rewrite Hl.
    + unfold on_install_snapshot_reply at 1. destruct (current_term n <? isr_term m) eqn:Et; [apply effect_calm, calm_step_down; by bool_to_prop|].
      bool_to_prop. apply effect_leader.
      * intros Hl. pose proof (drives_on_install_snapshot_reply n m Hok Hl Et Hself Hk) as H. unfold on_install_snapshot_reply in H.
        by rewrite (proj2 (N.ltb_ge _ _)) in H by done.
      * intros Hl. by rewrite Hl.
    + pose proof (calm_on_fast_propose n m) as H. destruct (on_fast_propose n m). by apply effect_calm.
    + apply effect_leader; [intros _; by apply drives_on_fast_vote|]. intros Hl. unfold on_fast_vote. by rewrite Hl.
  - unfold decline_snapshot. cbn [fst]. apply effect_calm. split_if; [apply calm_recognize_leader|reflexivity].
  - apply effect_leader; [intros _; by apply drives_append_command|]. intros Hl. unfold append_command. by rewrite Hl.
  - unfold open_fast_track. destruct (_ || _ || _ || _ || _ || _ || _); by apply effect_same.
  - unfold propose_fast. destruct (_ || _); [by apply effect_same|]. destruct (checked_add _ _); by apply effect_same.
  - by apply effect_same.
  - apply effect_leader; [intros _; by apply drives_check_quorum|]. intros Hl. unfold check_quorum. by rewrite Hl.
  - apply effect_leader; [intros _; apply drives_catch_up|]. intros Hl. unfold catch_up. by rewrite Hl.
  - unfold priority_transfer, transfer_leadership. destruct (_ || _ || _ || _); [by apply effect_same|].
    destruct (min_by _ _) as [[target p]|]; [|by apply effect_same]. repeat split_if; try (by apply effect_same).
    destruct (active_transfer n); by apply effect_same.
  - unfold transfer_leadership. repeat split_if; try (by apply effect_same). destruct (active_transfer n); by apply effect_same.
  - unfold take_timeout_now. destruct (active_transfer n); [|by apply effect_same]. repeat split_if; by apply effect_same.
  - unfold begin_read. destruct (_ || _ || _ || _ || _); [by apply effect_same|]. destruct (checked_add _ _); by apply effect_same.
  - unfold read_index. destruct (read_round n); [|by apply effect_same]. destruct (_ || _ || _ || _ || _); by apply effect_same.
  - unfold cancel_read. split_if; by apply effect_same.
  - apply effect_leader.
    + intros _. pose proof (drives_replicate_to n follower budget Hok) as H. by destruct (replicate_to n follower budget).
    + intros Hl. unfold replicate_to. assert (recovering n = false) as -> by (unfold recovering; by rewrite Hl). by rewrite Hl.
  - by apply effect_same.
  - apply effect_calm, calm_compact, Hok.
Qed.
End drives.
