(* ===== verification/RaftWin.v ===== *)
(** * Campaigns, wins and votes of a Raft node, on whole logs

    What an election does to a node's log: a campaign nothing, a win the
    entries of its recovery ([won]), a vote nothing, and a vote only for a log
    that is not behind. *)

From S2P Require Import Prelude RaftState RaftLog RaftElect RaftReplicate RaftFast RaftAdmin RaftInv RaftAppend RaftOps RaftSaved RaftQuorum RaftSystem RaftSpec RaftFull.
#[local] Open Scope N_scope.

Section win.
Context (voters : list HostId) (voters_valid : valid_set voters = true) {granted : HostId → HostId → N → Prop}.
#[local] Abbreviation cfg := (group_cfg voters).
#[local] Abbreviation quorum := (group_quorum voters).
#[local] Abbreviation node_ok := (node_ok True cfg granted quorum).

Lemma group_quorum_meet a b : quorum a → quorum b → ∃ w : HostId, w ∈ a ∧ w ∈ b.
Proof. intros Ha Hb. destruct (majorities_meet _ _ _ Ha Hb) as (w&_&?&?). eauto. Qed.

Lemma group_quorum_single q u u' : quorum q → (∀ w, w ∈ q → w = u') → u ∈ voters → u = u'.
Proof using voters_valid.
  clear granted. intros Hq Hs Hu. unfold group_quorum, config_majority, carries in Hq. cbn [vc_voters vc_joint group_config from_option] in Hq.
  rewrite andb_true_r in Hq. apply N.ltb_lt, half_lt in Hq.
  assert (NoDup voters) as Hnd.
  { unfold valid_set in voters_valid. apply andb_true_iff in voters_valid as [_ H]. by apply bool_decide_eq_true in H. }
  assert (NoDup (filter (λ w, w ∈ q) voters)) as Hnf by by apply NoDup_filter.
  assert (∀ w, w ∈ filter (λ w, w ∈ q) voters → w = u') as Hf by (intros w [? _]%list_elem_of_filter; auto).
  unfold len in Hq. destruct (filter (λ w, w ∈ q) voters) as [|x [|y l]] eqn:Ef.
  - simpl in Hq. lia.
  - assert (x ∈ voters) as Hx.
    { assert (x ∈ filter (λ w, w ∈ q) voters) as H by (rewrite Ef; set_solver). by apply list_elem_of_filter in H as []. }
    rewrite <- (Hf x) by set_solver. simpl in Hq. destruct voters as [|a [|b l]]; simpl in *; [set_solver| |lia]. set_solver.
  - exfalso. assert (x = y) as -> by (rewrite (Hf x), (Hf y); set_solver). inversion Hnf. set_solver.
Qed.

Lemma voter_in n v : hard_ok True cfg n → is_voter n v = true → v ∈ voters.
Proof.
  intros Hh Hv. unfold is_voter, all_voters in Hv. apply bool_decide_eq_true, elem_of_bt_elems in Hv.
  rewrite (group_config_eq voters n Hh) in Hv. unfold config_members in Hv. simpl in Hv. set_solver.
Qed.

(** A host that is a quorum by itself has no one to ask. *)
Lemma lone_others n : hard_ok True cfg n → quorum {[ id n ]} → others n = [].
Proof.
  intros Hh Hq. unfold others, all_voters. rewrite (group_config_eq voters n Hh).
  destruct (filter _ _) as [|x l] eqn:E; [done|]. exfalso.
  assert (x ∈ filter (λ v, v ≠ id n) (bt_elems (config_members (group_config voters)))) as Hx by (rewrite E; set_solver).
  apply list_elem_of_filter in Hx as [Hne Hx]. apply elem_of_bt_elems in Hx. unfold config_members in Hx. simpl in Hx.
  apply Hne. apply (group_quorum_single {[ id n ]} x (id n) Hq); set_solver.
Qed.

(** ** Winning *)
Record won (n n' : RaftNode) : Prop := mkWon {
  wo_candidate : role n = Candidate;
  wo_quorum : ∃ q, quorum q ∧ ∀ v, v ∈ q → v = id n ∨ granted v (id n) (current_term n);
  wo_role : role n' = Leader;
  wo_kept : (id n', current_term n', commit_index n', snapshot_index n', snapshot_term n')
    = (id n, current_term n, commit_index n, snapshot_index n, snapshot_term n);
  wo_log : ∃ es, log n' = log n ++ es ∧ Forall (λ e, le_term e = current_term n) es;
  wo_window : window_shrinks n n';
  wo_synced : synced_term n' = current_term n;
  wo_match : ∀ w m, match_index n' !! w = Some m → m = 0;
  wo_flag : retention_pending n' = true }.

Lemma push_entry_role n e n' b : push_entry n e = (n', b) →
  commit_index n' = commit_index n ∧ role n' = role n ∧ (retention_pending n' = retention_pending n).
Proof. unfold push_entry. destruct (checked_add _ _); intros [= <- <-]; [|done]. by split_if. Qed.

Lemma recovery_loop_kept fuel slice n r spent n' r' refused :
  recovery_loop fuel slice n r spent = (n', r', refused) →
  commit_index n' = commit_index n ∧ role n' = role n ∧ retention_pending n' = retention_pending n ∧ rc_sliced r' = rc_sliced r.
Proof.
  revert n r spent. induction fuel as [|fuel IH]; intros n r spent; simpl; [by intros [= <- <- _]|].
  split_if; [by intros [= <- <- _]|]. destruct (_ && _); [by intros [= <- <- _]|].
  destruct (recovery_entry n r (rc_next r)) as [m e] eqn:Ee. destruct (push_entry m e) as [k b] eqn:Ep.
  assert (commit_index m = commit_index n ∧ role m = role n ∧ retention_pending m = retention_pending n) as (E1&E2&E3).
  { unfold recovery_entry in Ee. destruct (rc_decided r !! _) as [[e0 fast]|]; injection Ee as <- _; [|done]. by repeat split_if. }
  destruct (push_entry_role _ _ _ _ Ep) as (E4&E5&E6).
  destruct b; simpl; [|intros [= <- <- _]; split_and!; congruence].
  destruct (checked_add _ _); [|intros [= <- <- _]; split_and!; congruence].
  intros (?&?&?&Es)%IH. cbn in Es. split_and!; congruence.
Qed.

(** The first slice of a recovery extends the log and commits nothing. *)
Lemma continue_recovery_kept n r : recovery n = Some r → rc_sliced r = false →
  commit_index (continue_recovery n) = commit_index n ∧ role (continue_recovery n) = role n
  ∧ (retention_pending n = true → retention_pending (continue_recovery n) = true)
  ∧ drives voters (λ _ _, True) n (continue_recovery n).
Proof.
  intros Hr Hs. unfold continue_recovery. split_if; [split_and!; try done; by apply drives_same|]. rewrite Hr.
  destruct (recovery_loop _ _ _ _ _) as [[m r'] refused] eqn:El.
  destruct (recovery_loop_kept _ _ _ _ _ _ _ _ El) as (E1&E2&E3&E4).
  assert (drives voters (λ _ _, True) n m) as Hd.
  { eapply drives_trans; [|exact (drives_recovery_loop voters (λ _ _, True) _ _ _ _ _ _ _ _ El)]. by apply drives_same. }
  destruct refused; [split_and!; [exact E1|exact E2| |eapply drives_trans; [exact Hd|by apply drives_same]]|].
  { change (retention_pending n = true → retention_pending m = true). by rewrite E3. }
  split_if; [|rewrite E4, Hs]; repeat split_if; split_and!; try done; (eapply drives_trans; [exact Hd|by apply drives_same]).
Qed.

Lemma follow_all_kept n next peers (f := foldl (λ n' peer, start_following n' next peer) n peers) :
  hard f = hard n ∧ role f = role n ∧ retention_pending f = retention_pending n
  ∧ ((∀ w m, match_index n !! w = Some m → m = 0) → ∀ w m, match_index f !! w = Some m → m = 0).
Proof.
  subst f. revert n. induction peers as [|p peers IH]; intros n; simpl; [done|].
  destruct (IH (start_following n next p)) as (->&->&->&Hm). split_and!; try done. intros H0. apply Hm.
  intros w m. unfold start_following. node_simpl. intros [[_ <-]|[_ ?]]%lookup_insert_Some; eauto.
Qed.

Lemma won_become n : node_ok n →
  become_leader_if_majority n = n
  ∨ (quorum (votes n) ∧ (calm n (become_leader_if_majority n) ∨ won n (become_leader_if_majority n))).
Proof.
  intros Hok. unfold become_leader_if_majority. destruct (negb _ || _) eqn:E; [by left|right].
  apply orb_false_iff in E as [Ec Em]. apply negb_false_iff, bool_decide_eq_true in Ec. apply negb_false_iff in Em.
  assert (quorum (votes n)) as Hq by (unfold is_majority in Em; by rewrite (group_config_eq voters n (ok_hard _ Hok)) in Em).
  split; [done|]. split_if; [left; apply calm_hard; [done|by intros []|done]|right].
  set (r := plan_recovery n). set (m := recover _ _).
  assert (rc_sliced r = false) as Hsl.
  { subst r. unfold plan_recovery. by destruct (match checked_add _ _ with Some _ => _ | None => _ end). }
  assert ((id m, current_term m, commit_index m, snapshot_index m, snapshot_term m, role m, retention_pending m, synced_term m)
      = (id n, current_term n, commit_index n, snapshot_index n, snapshot_term n, Leader, true, current_term n)
    ∧ (∃ es, log m = log n ++ es ∧ Forall (λ e, le_term e = current_term n) es) ∧ window_shrinks n m)
    as ([= E1 E2 E3 E4 E5 E6 E7 E8]&Hlog&Hw).
  { subst m. unfold recover. match goal with |- context [if _ then continue_recovery (?x <| recovery := _ |>) else _] => set (k := x) end.
    split_if; [|split_and!; [done|exists []; by rewrite app_nil_r|by intros i s]].
    destruct (continue_recovery_kept (k <| recovery := Some r |>) r) as (E1&E2&E3&[[= E4 E5 E6] [= E7 E8] _ Hl Hw _ _]); [done..|].
    split_and!; [|exact Hl|exact Hw]. rewrite E1, E2, E4, E5, E6, E7, E8, (E3 eq_refl). done. }
  match goal with |- won n (foldl _ ?x _) => set (k := x) end.
  destruct (follow_all_kept k (sat_add (last_log_index m) 1) (filter (λ p, p ≠ id k) (all_voters k))) as (F1&F2&F3&F4).
  set (n' := foldl _ _ _) in *.
  assert (hard n' = hard m) as Eh by (rewrite F1; done).
  split; unfold window_shrinks, id, current_term, commit_index, snapshot_index, snapshot_term, log, window, synced_term; rewrite ?Eh; try done.
  - exists (votes n). split; [done|]. apply (ok_granted _ (ok_elect _ Hok)). by left.
  - by rewrite F2.
  - change ((id m, current_term m, commit_index m, snapshot_index m, snapshot_term m)
      = (id n, current_term n, commit_index n, snapshot_index n, snapshot_term n)). congruence.
  - by apply F4.
  - by rewrite F3.
Qed.

(** ** Campaigning *)
Record campaigns (n m : RaftNode) : Prop := mkCampaigns {
  cp_voter : id n ∈ voters;
  cp_role : role m = Candidate;
  cp_votes : votes m = {[ id n ]};
  cp_term : current_term m = current_term n + 1;
  cp_full : ∀ F, full F (saved n) → full F (saved m);
  cp_kept : (id m, commit_index m, synced_term m, window m, voted_for m)
    = (id n, commit_index n, synced_term n, window n, Some (id n));
  cp_flag : retention_pending m = true }.

Definition request_of (n : RaftNode) : RequestVote :=
  mkRequestVote (current_term n) (id n) (last_log_index n) (last_log_term n).

(** An election leaves the log as it was, or campaigns: the requests tell of the candidate's log, and a host
    that wins at once sends none. *)
Inductive elects (n : RaftNode) : RaftNode → list RequestVote → Prop :=
| elects_calm n' : calm n n' → elects n n' []
| elects_asks m : campaigns n m → elects n m (map (λ _, request_of m) (others m))
| elects_lone m n' : campaigns n m → calm m n' ∨ won m n' → elects n n' [].

Lemma elects_calm_l a b c l : calm a b → hard b = hard a → elects b c l → elects a c l.
Proof.
  intros Hc Eh He. assert (∀ m, campaigns b m → campaigns a m) as Hcm.
  { intros m [H1 H2 H3 H4 H5 H6 H7]. assert (saved b = saved a) as Es by by apply saved_hard.
    assert ((id b, current_term b, commit_index b, synced_term b, window b)
      = (id a, current_term a, commit_index a, synced_term a, window a)) as [= E1 E2 E3 E4 E5]
      by (unfold id, current_term, commit_index, synced_term, window; by rewrite Eh).
    rewrite E1 in *. split; try done; [lia|by rewrite <- Es|congruence]. }
  destruct He as [c Hbc|m Hm|m c Hm Hx].
  - apply elects_calm. by eapply calm_trans.
  - apply elects_asks; auto.
  - eapply elects_lone; eauto.
Qed.

Lemma start_election_elects n : node_ok n →
  elects n (start_election n).1 (match (start_election n).2 with Ok l => l | Err _ => [] end).
Proof.
  intros Hok. unfold start_election. destruct (is_voter n (id n)) eqn:Ev; cbn [negb]; [|by apply elects_calm].
  pose proof (moves_next_term n) as Hs. assert (match_index (next_term n).1 = match_index n) as Em by (unfold next_term; simpl; by split_if).
  destruct (next_term n) as [n0 [term|]] eqn:En; simpl in Hs, Em.
  2:{ apply elects_calm. pose proof (spine_eqs _ _ Hs) as (Eh&_&Er&_). by apply calm_frame. }
  assert (term = current_term n + 1) as Ht.
  { apply (f_equal snd) in En. by apply checked_add_some in En as [-> _]. }
  pose proof (spine_eqs _ _ Hs) as (Eh&_&Er&_).
  match goal with |- context [become_leader_if_majority ?x] => set (m := x) end.
  assert (campaigns n m) as Hc.
  { assert ((id n0, commit_index n0, synced_term n0, window n0) = (id n, commit_index n, synced_term n, window n)) as [= E1 E2 E3 E4]
      by (unfold id, commit_index, synced_term, window; by rewrite Eh).
    split; subst m; node_simpl; try done.
    - eapply voter_in; [apply Hok|done].
    - by rewrite E1.
    - intros F. unfold full, saved. cbn. unfold snapshot_index, log, snapshot_term. rewrite Eh. done.
    - congruence. }
  assert (node_ok m) as Hokm.
  { destruct (moves_spine (strict := True) (cfg_ok := cfg) (granted := granted) (quorum := quorum) n n0 Hs Hok) as (Hok0&_&_).
    apply (moves_candidate (group_quorum_ok voters) n0); [|done]. unfold current_term. by rewrite Eh. }
  cbn [fst snd]. destruct (won_become m Hokm) as [E|[Hq Hx]].
  - rewrite E. by apply elects_asks.
  - assert (others (become_leader_if_majority m) = []) as ->.
    { assert (id (become_leader_if_majority m) = id m ∧ hard_ok True cfg (become_leader_if_majority m)) as [Ei Hh].
      { destruct (moves_become_leader (group_quorum_ok voters) (granted := granted) m Hokm) as (Hok'&Hp&_).
        split; [apply Hp|apply Hok']. }
      apply lone_others; [done|]. rewrite Ei. rewrite (cp_votes _ _ Hc) in Hq.
      pose proof (cp_kept _ _ Hc) as [= Eid _ _ _ _]. by rewrite Eid. }
    by eapply elects_lone.
Qed.

Lemma election_timeout_elects n : node_ok n → ∃ l, elects n (on_election_timeout n).1 l.
Proof.
  intros Hok. unfold on_election_timeout. split_if; [exists []; by apply elects_calm|].
  pose proof (moves_next_term n) as Hs. assert (match_index (next_term n).1 = match_index n) as Em by (unfold next_term; simpl; by split_if).
  destruct (next_term n) as [m [term|]] eqn:En; simpl in Hs, Em; pose proof (spine_eqs _ _ Hs) as (Eh&_&Er&_).
  2:{ exists []. apply elects_calm. by apply calm_frame. }
  match goal with |- context [start_election ?x] => set (m1 := x) end.
  assert (calm n m1) as Hc by (apply calm_hard; [exact Eh|by intros []|done]).
  split_if; [|exists []; by apply elects_calm].
  assert (node_ok m1) as Hok1.
  { destruct (moves_spine (strict := True) (cfg_ok := cfg) (granted := granted) (quorum := quorum) n m Hs Hok) as (Hok0&_&_).
    apply (moves_demoted m); try done; [by right|by left]. }
  pose proof (start_election_elects m1 Hok1) as He. destruct (start_election m1) as [m2 [l|e]]; simpl in *;
    eexists; eapply elects_calm_l; try done; exact Eh.
Qed.

Lemma pre_vote_reply_elects n reply : node_ok n →
  elects n (on_pre_vote_reply n reply).1 (default [] (on_pre_vote_reply n reply).2).
Proof.
  intros Hok. unfold on_pre_vote_reply. split_if; [by apply elects_calm|]. split_if; [by apply elects_calm, calm_frame|].
  match goal with |- context [start_election ?x] => set (m1 := x) end.
  assert (calm n m1) as Hc by (by apply calm_frame). split_if; [|by apply elects_calm].
  assert (node_ok m1) as Hok1.
  { by apply (moves_spine (strict := True) (cfg_ok := cfg) (granted := granted) (quorum := quorum) n m1). }
  pose proof (start_election_elects m1 Hok1) as He.
  destruct (start_election m1) as [m2 [l|e]]; simpl in *; by eapply elects_calm_l.
Qed.
Lemma timeout_now_elects n invitation : node_ok n →
  elects n (on_timeout_now n invitation).1 (on_timeout_now n invitation).2.
Proof.
  intros Hok. unfold on_timeout_now. split_if; [by apply elects_calm|]. pose proof (start_election_elects n Hok) as He.
  by destruct (start_election n) as [m2 [l|e]].
Qed.

(** ** Votes *)
Lemma vote_reply_becomes n reply : node_ok n →
  (admit_reports reply = Ok tt → ∀ r, r ∈ vr_reports reply → entry_cfg cfg (ws_entry (sr_slot r))) →
  (vr_granted reply = true → granted (vr_voter reply) (id n) (vr_term reply)) →
  calm n (on_vote_reply n reply) ∨ won n (on_vote_reply n reply).
Proof.
  intros Hok Hc Hg. unfold on_vote_reply. destruct (admit_reports reply) as [[]|]; [|left; by apply calm_frame].
  specialize (Hc eq_refl). split_if; [left; apply calm_step_down; by bool_to_prop|].
  destruct (_ && _ && _ && _) eqn:E; [|by left].
  apply andb_true_iff in E as [E _]. apply andb_true_iff in E as [E Hgr]. apply andb_true_iff in E as [Er Et].
  apply bool_decide_eq_true in Er. bool_to_prop. specialize (Hg Hgr). rewrite Et in Hg.
  match goal with |- context [become_leader_if_majority ?x] => set (m := x) end.
  assert (node_ok m) as Hokm by (by apply (moves_count_vote n)).
  destruct (won_become m Hokm) as [->|[_ [Hm|Hw]]].
  - left. by apply calm_frame.
  - left. eapply calm_trans; [|exact Hm]. by apply calm_frame.
  - right. by destruct Hw; split.
Qed.

(** A vote changes no log, and a granted one is for a candidate whose log is not behind. *)
Lemma request_vote_calm n request :
  calm n (on_request_vote n request).1
  ∧ (vr_granted (on_request_vote n request).2 = true →
     vr_voter (on_request_vote n request).2 = id n
     ∧ vr_term (on_request_vote n request).2 = rv_term request
     ∧ current_term (on_request_vote n request).1 = rv_term request
     ∧ candidate_log_is_current n (rv_last_log_index request) (rv_last_log_term request) = true).
Proof.
  unfold on_request_vote. destruct (admit_candidacy _ _ _); [|split; [by apply calm_frame|done]].
  fold (observe_term n (rv_term request)). pose proof (calm_observe_term n (rv_term request)) as Hc.
  set (m := observe_term _ _) in *. cbn [fst snd].
  assert (candidate_log_is_current m (rv_last_log_index request) (rv_last_log_term request)
    = candidate_log_is_current n (rv_last_log_index request) (rv_last_log_term request)) as El.
  { subst m. unfold observe_term. by split_if. }
  assert (id m = id n) as Ei by (subst m; unfold observe_term; by split_if).
  destruct (_ && _ && _) eqn:E; cbn [vr_granted]; [|by split]. rewrite !andb_true_iff in E. destruct E as [[Et _] Hl].
  apply N.eqb_eq in Et. split.
  - eapply calm_trans; [exact Hc|]. split; try done. by intros [].
  - intros _. rewrite <- El. split_and!; try done.
Qed.
End win.
