(* ===== verification/RaftFollow.v ===== *)
(** * A follower's log, as its leader's log has it

    What the append and snapshot handlers of [crates/cluster/src/raft.rs] do
    to a node's whole log when the message carries part of the log of its
    term: the log follows it ([follows]), the window keeps entries that are
    its own, and a successful reply tells of a prefix held. *)

From S2P Require Import Prelude RaftState RaftLog RaftElect RaftReplicate RaftFast RaftAdmin RaftInv RaftAppend RaftOps RaftSaved RaftQuorum RaftSystem RaftSpec RaftComplete RaftFull.
#[local] Open Scope N_scope.

(** ** Following *)
Lemma follows_refl T l : follows T l l.
Proof. by left. Qed.
Lemma follows_extend T l l' : l `prefix_of` l' → l' `prefix_of` T → follows T l l'.
Proof. intros. right. by left. Qed.
Lemma follows_trans T a b c : follows T a b → follows T b c → follows T a c.
Proof.
  intros [->|Hab] Hbc; [done|]. destruct Hbc as [->|[[H1 H2]|(_&Hn&_)]]; [by right| |].
  - destruct Hab as [[H3 H4]|(H3&H4&H5&H6)]; right; [left; split; [by etransitivity|done]|right].
    split_and!; try done. intros k Hk Hl Ht. pose proof (H6 k Hk Hl Ht). apply prefix_length in H1. lia.
  - exfalso. apply Hn. by destruct Hab as [[_ ?]|(?&_)].
Qed.

(** A log cut where it first differs and continued. *)
Lemma follows_conflict T l k e e' :
  take k l = take k T → l !! k = Some e → T !! k = Some e' → e ≠ e' → follows T l (take (S k) T).
Proof.
  intros Ht Hl HT Hne. right; right. split_and!.
  - apply prefix_take.
  - intros H. rewrite (prefix_lookup_Some _ _ _ _ Hl H) in HT. congruence.
  - intros H. rewrite (prefix_lookup_Some _ _ _ _ HT H) in Hl. congruence.
  - intros j Hj Hjl Hjt. apply lookup_lt_Some in HT as Hlt. rewrite length_take.
    destruct (decide (j ≤ k)%nat) as [|Hgt]; [lia|]. exfalso. apply Hne.
    assert (take j l !! k = take j T !! k) as E by by rewrite Hj. rewrite !lookup_take_lt in E by lia. congruence.
Qed.

(** ** The window's own entries *)

(** A slot of a leader's own entry holds what its term's log has there. *)
Definition slots_ok (view : N → list LogEntry) (n : RaftNode) : Prop :=
  ∀ i s, window n !! i = Some s → ws_fast s = false →
    ws_term s ≤ synced_term n ∧ le_term (ws_entry s) = ws_term s
    ∧ view (ws_term s) !! (N.to_nat i - 1)%nat = Some (ws_entry s).
(** A node synchronized with its term holds part of its log. *)
Definition store_ok (view : N → list LogEntry) (n : RaftNode) (F : list LogEntry) : Prop :=
  (synced_term n = current_term n → F `prefix_of` view (current_term n)) ∧ slots_ok view n.

Lemma store_ok_mono view view' n F : (∀ t, view t `prefix_of` view' t) → store_ok view n F → store_ok view' n F.
Proof.
  intros Hv [Hs Hw]. split.
  - intros E. etransitivity; [by apply Hs|apply Hv].
  - intros i s Hi Hf. destruct (Hw i s Hi Hf) as (?&?&?). split_and!; try done. by eapply prefix_lookup_Some.
Qed.
Lemma slots_ok_shrinks view n n' : window_shrinks n n' → synced_term n ≤ synced_term n' → slots_ok view n → slots_ok view n'.
Proof. intros Hw Hs Hok i s Hi Hf. destruct (Hok i s (Hw i s Hf Hi) Hf) as (?&?&?). split_and!; try done. lia. Qed.
Lemma slots_ok_same view n n' : (window n', synced_term n') = (window n, synced_term n) → slots_ok view n → slots_ok view n'.
Proof. intros [= Ew Es]. unfold slots_ok. by rewrite Ew, Es. Qed.
Lemma store_ok_shrinks view n n' F : window_shrinks n n' → synced_term n' = synced_term n → current_term n ≤ current_term n' →
  synced_term n ≤ current_term n → store_ok view n F → store_ok view n' F.
Proof.
  intros Hw Es Et Hle [Hs Hok]. split; [|apply (slots_ok_shrinks view n n'); [done|lia|done]].
  intros E. assert (current_term n' = current_term n) as Ec by lia. rewrite Ec. apply Hs. lia.
Qed.

(** The entries of a message, where a log has them. *)
Definition segment (T : list LogEntry) (k : nat) (entries : list LogEntry) : Prop :=
  ∀ j e, entries !! j = Some e → T !! (k + j)%nat = Some e.
Lemma segment_cons T k e entries : segment T k (e :: entries) → T !! k = Some e ∧ segment T (S k) entries.
Proof.
  intros H. split; [rewrite <- (Nat.add_0_r k); by apply H|]. intros j x Hx.
  replace (S k + j)%nat with (k + S j)%nat by lia. by apply H.
Qed.
Lemma segment_drop T k d entries : segment T k entries → segment T (k + d) (drop d entries).
Proof. intros H j x. rewrite lookup_drop, <- Nat.add_assoc. apply H. Qed.
Lemma segment_length T k entries : segment T k entries → (k ≤ length T)%nat → (k + length entries ≤ length T)%nat.
Proof.
  intros H Hk. destruct (length entries) as [|l] eqn:E; [lia|]. destruct (lookup_lt_is_Some_2 entries l) as [x Hx%H%lookup_lt_Some]; lia.
Qed.

(** What the window leaves alone. *)
Definition body (n : RaftNode) :=
  (id n, current_term n, commit_index n, synced_term n, role n, (log n, snapshot_index n, snapshot_term n)).
Lemma body_eqs n n' : body n' = body n →
  id n' = id n ∧ current_term n' = current_term n ∧ commit_index n' = commit_index n ∧ synced_term n' = synced_term n
  ∧ role n' = role n ∧ (log n', snapshot_index n', snapshot_term n') = (log n, snapshot_index n, snapshot_term n).
Proof. unfold body. by intros [= -> -> -> -> -> -> -> ->]. Qed.
Lemma full_frame F n n' : (log n', snapshot_index n', snapshot_term n') = (log n, snapshot_index n, snapshot_term n) →
  full F (saved n) → full F (saved n').
Proof. intros [= E1 E2 E3]. unfold full, saved. cbn [s_log s_snapshot_index s_snapshot_term]. by rewrite E1, E2, E3. Qed.

Section follow.
Context {cfg_ok : VoterConfig → Prop} {granted : HostId → HostId → N → Prop} {quorum : gset HostId → Prop}.
#[local] Abbreviation entry_cfg := (entry_cfg cfg_ok).
#[local] Abbreviation hard_ok := (hard_ok True cfg_ok).
#[local] Abbreviation node_ok := (node_ok True cfg_ok granted quorum).
Context (view : N → list LogEntry) (Hview : terms_within view).

(** ** Placing entries *)
Lemma full_truncate F n index : full F (saved n) → snapshot_index n < index → index ≤ N.of_nat (length F) →
  full (take (N.to_nat index - 1) F) (saved (truncate_from n index)).
Proof.
  intros (Hl&Hd&Hs) Hi Hle. cbn in Hl, Hd, Hs. unfold full, truncate_from, pending, saved. node_simpl.
  cbn [s_log s_snapshot_index s_snapshot_term]. split_and!.
  - rewrite length_take, len_takeN. lia.
  - rewrite <- Hd. unfold takeN. rewrite skipn_firstn_comm. f_equal. lia.
  - intros H0. destruct (Hs H0) as (e&He&?). exists e. split; [|done]. rewrite lookup_take_lt; [done|lia].
Qed.

Lemma place_entry_full n prev t e n' b F T (k := N.to_nat prev) :
  place_entry n (prev + 1) e = (n', b) → node_ok n → quiet n → commit_index n ≤ prev → prev < u64_max →
  holds n prev t → t ≤ le_term e → 0 < le_term e → le_term e ≤ current_term n → entry_cfg e →
  full F (saved n) → cons_with view F → cons_with view T → take k T `prefix_of` F → T !! k = Some e →
  ∃ F', full F' (saved n') ∧ follows T F F' ∧ take (S k) T `prefix_of` F'
    ∧ (id n', role n', window n', synced_term n') = (id n, role n, window n, synced_term n).
Proof.
  intros Hp Hok Hq Hc Hu Hd H1 H0 H2 H3 HF HcF HcT Hpre HT. pose proof (ok_hard _ Hok) as Hh.
  pose proof (ok_commit _ Hh) as Hcm. pose proof HF as (Hlen&_&_). cbn in Hlen.
  pose proof (lookup_lt_Some _ _ _ HT) as HkT.
  assert (take k F = take k T) as Htk.
  { apply prefix_take_iff in Hpre as [Hl He]. rewrite length_take, Nat.min_l in He by lia. done. }
  assert (k ≤ length F)%nat as HkF by (apply prefix_length in Hpre; rewrite length_take in Hpre; lia).
  (* an entry pushed where the log ends *)
  assert (∀ m, hard_ok m → full (take k F) (saved m) → last_log_index m < u64_max → push_entry m e = (n', b) →
    (id m, role m, window m, synced_term m) = (id n, role n, window n, synced_term n) →
    full (take (S k) T) (saved n') ∧ (id n', role n', window n', synced_term n') = (id n, role n, window n, synced_term n)) as Hpush.
  { intros m Hhm HFm Hum Hpm Ew. destruct (push_entry_spec _ _ _ _ Hpm Hhm) as [(_&?&_)|(_&_&El&_&->)]; [lia|].
    split; [|done]. rewrite (take_S_r T k e HT), <- Htk. by apply (full_app (take k F) m). }
  unfold place_entry in Hp. rewrite (full_entry_term F) in Hp by (done || lia).
  replace (N.to_nat (prev + 1) - 1)%nat with k in Hp by lia.
  destruct (F !! k) as [old|] eqn:Eo; simpl in Hp.
  - pose proof (lookup_lt_Some _ _ _ Eo) as HkF'. destruct (le_term old =? le_term e) eqn:Et; bool_to_prop.
    + injection Hp as <- <-. exists F. split_and!; try done; [apply follows_refl|].
      rewrite <- (cons_with_match view F T k old e) by done. apply prefix_take.
    + exists (take (S k) T).
      assert (moves True cfg_ok granted quorum n (truncate_from n (prev + 1))) as Hm
        by (apply moves_truncate; [by apply quiet_not_recovering|lia]).
      destruct (Hm Hok) as (Hokm&_&_).
      destruct (Hpush (truncate_from n (prev + 1))) as [??]; try done.
      * apply Hokm.
      * replace k with (N.to_nat (prev + 1) - 1)%nat by lia. apply full_truncate; [done|lia..].
      * rewrite last_log_index_eq by apply Hokm. unfold truncate_from, pending. node_simpl. rewrite len_takeN. lia.
      * split_and!; try done. apply (follows_conflict T F k old e); try done. by intros ->.
  - apply lookup_ge_None in Eo. assert (length F = k) as EF by lia.
    assert (take k F = F) as Etk by (by rewrite take_ge by lia).
    exists (take (S k) T). destruct (Hpush (n <| retention_pending := true |>)) as [??]; try done.
    + by apply (hard_ok_hard n).
    + by rewrite Etk.
    + change (last_log_index n < u64_max). rewrite last_log_index_eq by done. lia.
    + split_and!; try done. apply follows_extend; [|apply prefix_take].
      rewrite <- Etk, Htk. apply take_mono. lia.
Qed.

Lemma place_entries_full entries n prev t n' i F T (k := N.to_nat prev) :
  place_entries n prev entries = (n', i) → node_ok n → quiet n → commit_index n ≤ prev →
  prev + len entries ≤ u64_max → holds n prev t → terms_ok (current_term n) t entries → Forall entry_cfg entries →
  full F (saved n) → cons_with view F → cons_with view T → take k T `prefix_of` F → segment T k entries → (k ≤ length T)%nat →
  ∃ F', full F' (saved n') ∧ follows T F F' ∧ cons_with view F' ∧ take (k + length entries) T `prefix_of` F'
    ∧ (id n', role n', window n', synced_term n') = (id n, role n, window n, synced_term n).
Proof.
  revert n prev t F k. induction entries as [|e entries IH]; intros n prev t F k; simpl.
  { intros [= <- <-] ????????????. rewrite Nat.add_0_r. exists F. split_and!; try done. apply follows_refl. }
  rewrite len_cons. intros Hp Hok Hq Hc Hu Hd (?&?&?&Hts) [Hce Hcs]%Forall_cons HF HcF HcT Hpre Hseg Hk.
  rewrite sat_add_small in Hp by lia. destruct (place_entry n (prev + 1) e) as [m b] eqn:Ep.
  apply segment_cons in Hseg as [HTk Hseg].
  destruct (place_entry_full n prev t e m b F T) as (F1&HF1&Hf1&Hp1&[= Ei1 Er1 Ew1 Es1]); try done; [lia|].
  destruct (moves_place_entry (strict := True) (cfg_ok := cfg_ok) (granted := granted) (quorum := quorum) n prev t e m b) as (Hm&->&Hqm&Ecm&Etm&Hdm);
    try done; [lia|].
  destruct (Hm Hok) as (Hokm&_&_).
  assert (cons_with view F1) as HcF1.
  { destruct Hf1 as [->|Hf1]; [done|]. apply (cons_with_prefix _ T); [|done]. destruct Hf1 as [[_ ?]|(?&_)]; done. }
  assert (N.to_nat (prev + 1) = S k) as Ek by lia.
  destruct (IH m (prev + 1) (le_term e) F1) as (F'&HF'&Hf'&Hc'&Hp'&[= Ei' Er' Ew' Es']); rewrite ?Ek; try done; [lia..|congruence| |].
  - apply lookup_lt_Some in HTk. lia.
  - exists F'. split_and!; try done; [by eapply follows_trans| |congruence].
    rewrite Ek in Hp'. by replace (k + S (length entries))%nat with (S k + length entries)%nat by lia.
Qed.

(** ** The window *)
Lemma buffer_loop_store entries n term floor reach index T : view term = T → term ≤ synced_term n →
  segment T (N.to_nat index) entries → (N.to_nat index ≤ length T)%nat → N.of_nat (length T) ≤ u64_max →
  let n' := buffer_loop n term floor reach index entries in (slots_ok view n → slots_ok view n') ∧ body n' = body n.
Proof.
  intros HT. revert n index. induction entries as [|e entries IH]; intros n index Hs Hseg Hi Hu; cbn [buffer_loop]; [done|].
  apply segment_cons in Hseg as [He Hseg]. pose proof (lookup_lt_Some _ _ _ He).
  rewrite sat_add_small by lia. replace (S (N.to_nat index)) with (N.to_nat (index + 1)) in Hseg by lia.
  match goal with |- context [buffer_loop ?m' _ _ _ _ _] => set (m := m') end.
  assert ((slots_ok view n → slots_ok view m) ∧ body m = body n) as [Hm Em].
  { subst m. repeat (split_if; [done|]). split; [|done]. bool_to_prop. intros Hok i s.
    unfold count_window. node_simpl. intros [[<- <-]|[_ Hi']]%lookup_insert_Some; [|by apply Hok].
    intros _. cbn. split_and!; try done. rewrite HT. by replace (N.to_nat (index + 1) - 1)%nat with (N.to_nat index) by lia. }
  pose proof (body_eqs _ _ Em) as (_&_&_&Es&_). destruct (IH m (index + 1)) as [IH1 IH2]; [by rewrite Es|done|lia|done|].
  split; [by auto|]. by rewrite IH2.
Qed.

Lemma buffer_store n request F T : view (ae_term request) = T → segment T (N.to_nat (ae_prev_log_index request)) (ae_entries request) →
  (N.to_nat (ae_prev_log_index request) ≤ length T)%nat → N.of_nat (length T) ≤ u64_max →
  store_ok view n F → store_ok view (buffer n request) F ∧ body (buffer n request) = body n.
Proof.
  intros HT Hseg Hk Hu [Hs Hw]. unfold buffer. split_if; [done|]. bool_to_prop.
  match goal with |- context [buffer_loop ?a ?b ?c ?d ?e ?f] =>
    destruct (buffer_loop_store f a b c d e T) as [H1 H2]; [done|lia|done..|] end.
  pose proof (body_eqs _ _ H2) as (_&Et&_&Es&_). split; [|done]. split; [|by apply H1]. rewrite Es, Et. apply Hs.
Qed.

(** A log whose terms reach the node's own is part of that term's log. *)
Lemma reaches_prefix F t i e : cons_with view F → (∀ e, e ∈ F → le_term e ≤ t) → F !! i = Some e → le_term e = t →
  F `prefix_of` view t.
Proof.
  intros Hc Ht Hi He. pose proof (lookup_lt_Some _ _ _ Hi) as Hlt.
  destruct (lookup_lt_is_Some_2 F (pred (length F))) as [e' He']; [lia|].
  assert (le_term e' = t) as <-.
  { apply N.le_antisymm; [apply Ht; by eapply list_elem_of_lookup_2|]. rewrite <- He.
    apply (cons_with_sorted view F i (pred (length F))); [done..|lia]. }
  specialize (Hc _ _ He'). by rewrite take_ge in Hc by lia.
Qed.

Lemma observe_sync_store n i F : hard_ok n → full F (saved n) → cons_with view F → (∀ e, e ∈ F → le_term e ≤ current_term n) →
  store_ok view n F → store_ok view (observe_sync n (current_term n) i) F.
Proof.
  intros Hh HF Hc Ht [Hs Hw]. unfold observe_sync. split_if; [done|]. bool_to_prop. split.
  - intros _. destruct (full_entry_term_some F n i (current_term n) Hh HF) as (_&_&e&He&Hte); [by apply bool_decide_eq_true in H0|].
    by apply (reaches_prefix F (current_term n) (N.to_nat i - 1)%nat e).
  - apply (slots_ok_shrinks view n); [by intros j s|node_simpl; lia|done].
Qed.

Lemma absorb_loop_full fuel n F : node_ok n → quiet n → 0 < current_term n → full F (saved n) → store_ok view n F →
  let n' := absorb_loop fuel n (current_term n) in
  ∃ F', full F' (saved n') ∧ store_ok view n' F' ∧ (F' = F ∨ (F `prefix_of` F' ∧ F' `prefix_of` view (current_term n)))
    ∧ (id n', current_term n', commit_index n', synced_term n', role n')
      = (id n, current_term n, commit_index n, synced_term n, role n).
Proof.
  revert n F. induction fuel as [|fuel IH]; intros n F Hok Hq H0 HF Hst; cbn [absorb_loop]; [exists F; auto|].
  assert (∃ F', full F' (saved n) ∧ store_ok view n F' ∧ (F' = F ∨ (F `prefix_of` F' ∧ F' `prefix_of` view (current_term n)))
    ∧ (id n, current_term n, commit_index n, synced_term n, role n)
      = (id n, current_term n, commit_index n, synced_term n, role n)) as Hstay by (exists F; auto).
  destruct (window n !! _) as [slot|] eqn:Ew; [|done]. split_if; [|done]. bool_to_prop. pose proof (ok_hard _ Hok) as Hh.
  destruct (push_entry n (ws_entry slot)) as [m b] eqn:Ep. destruct Hst as [Hsy Hsl].
  destruct (push_entry_spec _ _ _ _ Ep Hh) as [(->&_&Hs)|(->&Hlt&El&_&Em)].
  { destruct (spine_eqs _ _ Hs) as (Eh&_&Er&_). exists F. unfold store_ok, slots_ok, synced_term, current_term, id, commit_index, window.
    rewrite Er, Eh. split_and!; auto. by rewrite (saved_hard n m Eh). }
  (* the slot continues the log of the term *)
  destruct (Hsl _ _ Ew) as (Hle&Hte&Hv); [done|]. assert (synced_term n = current_term n) as Esy by (pose proof (ok_synced _ Hh); lia).
  pose proof (Hsy Esy) as HFT. replace (ws_term slot) with (current_term n) in Hv by congruence.
  rewrite sat_add_small in Hv by lia. replace (N.to_nat (last_log_index n + 1) - 1)%nat with (length F) in Hv
    by (rewrite <- (full_last_index F n Hh HF); lia).
  assert (F ++ [ws_entry slot] `prefix_of` view (current_term n)) as HF1.
  { destruct HFT as [r Er]. rewrite Er in Hv |- *. apply prefix_app. rewrite lookup_app_r, Nat.sub_diag in Hv by lia.
    destruct r as [|x r]; [done|]. injection Hv as ->. by exists r. }
  assert (steps True cfg_ok granted quorum n m) as Hst.
  { apply (steps_push n (ws_entry slot) m true); try done; try lia; [by apply quiet_not_recovering| |].
    - rewrite H1. by eapply last_log_term_le.
    - by destruct (ok_window _ Hh _ _ Ew) as (_&_&?). }
  set (m' := count_window _ _). assert (node_ok m') as Hokm.
  { apply (moves_count_window wc_absorbed m); [apply moves_raised|by apply Hst]. }
  destruct (IH m' (F ++ [ws_entry slot])) as (F'&HF'&Hst'&Hcase&Ek); try done.
  - subst m m'. done.
  - subst m m'. done.
  - apply (full_app F n); [done| |]; subst m m'; done.
  - split; [intros _|]; subst m m'; done.
  - exists F'. replace (current_term m') with (current_term n) in * by (subst m m'; done). split_and!; try done.
    + right. destruct Hcase as [->|[Hp ?]]; [split; [by apply prefix_app_r|done]|]. split; [|done].
      etransitivity; [|exact Hp]. by apply prefix_app_r.
    + rewrite Ek. subst m m'. done.
Qed.

(** ** The append handler *)

(** A node that took a message of the term whose log is [T]. *)
Record followed (T : list LogEntry) (t commit : N) (n n' : RaftNode) (F F' : list LogEntry) : Prop := mkFollowed {
  fo_kept : (id n', current_term n', role n') = (id n, t, Follower);
  fo_full : full F' (saved n');
  fo_follows : follows T F F';
  fo_store : store_ok view n' F';
  fo_commit : commit_index n' = commit_index n
    ∨ (commit_index n' ≤ commit ∧ take (N.to_nat (commit_index n')) T `prefix_of` F'
       ∧ (N.to_nat (commit_index n') ≤ length T)%nat) }.

Lemma follows_terms t F F' : follows (view t) F F' → (∀ e, e ∈ F → le_term e ≤ t) → ∀ e, e ∈ F' → le_term e ≤ t.
Proof.
  intros [->|Hf] Ht e He; [by apply Ht|]. apply (Hview t). apply (elem_of_prefix F'); [done|]. by destruct Hf as [[_ ?]|(?&_)].
Qed.
Lemma follows_cons t F F' : follows (view t) F F' → cons_with view F → cons_with view (view t) → cons_with view F'.
Proof.
  intros [->|Hf] HF HT; [done|]. apply (cons_with_prefix _ (view t)); [|done]. by destruct Hf as [[_ ?]|(?&_)].
Qed.

Lemma store_ok_follows n n' F F' (t := current_term n) : follows (view t) F F' →
  (current_term n', window n', synced_term n') = (current_term n, window n, synced_term n) →
  store_ok view n F → store_ok view n' F'.
Proof.
  intros Hf [= Et Ew Es] [Hs Hw]. split.
  - rewrite Et, Es. intros E. destruct Hf as [->|[[_ ?]|(?&Hn&_)]]; [by apply Hs|done|by destruct Hn; apply Hs].
  - apply (slots_ok_same view n); [congruence|done].
Qed.

(** After the entries are placed: the commit index, the sync mark and the window. *)
Lemma settle_full n index commit sync F (T := view (current_term n)) :
  node_ok n → role n = Follower → 0 < current_term n → commit_index n ≤ index → (N.to_nat index ≤ length F)%nat →
  full F (saved n) → store_ok view n F → cons_with view F → (∀ e, e ∈ F → le_term e ≤ current_term n) →
  take (N.to_nat index) T `prefix_of` F → (N.to_nat index ≤ length T)%nat →
  let m := if commit_index n <? commit
           then pending (negb (commit_index n =? N.min commit index)) n <| commit_index := N.min commit index |> else n in
  let m' := prune_committed (absorb (observe_sync m (current_term n) sync) (current_term n)).1 in
  node_ok m' ∧ ∃ F', followed T (current_term n) commit n m' F F' ∧ F `prefix_of` F'.
Proof.
  intros Hok Hr H0 Hci Hil HF Hst HcF HtF Hpre HiT m.
  assert (moves True cfg_ok granted quorum n m ∧ (id m, current_term m, role m, (log m, snapshot_index m, snapshot_term m))
    = (id n, current_term n, role n, (log n, snapshot_index n, snapshot_term n))
    ∧ (window m, synced_term m) = (window n, synced_term n)
    ∧ (commit_index m = commit_index n ∨ (commit_index m ≤ commit ∧ commit_index m ≤ index))) as (Hm&[= E1 E2 E3 E4 E5 E6]&Ews&Hcm).
  { subst m. split_if; [|split_and!; [reflexivity|done..|by left]]. bool_to_prop. split_and!; [|done..|right; node_simpl; lia].
    set (c := N.min _ _). assert (commit_index n ≤ c) by (subst c; lia).
    destruct (commit_index n =? c) eqn:E; bool_to_prop.
    - apply moves_spine. unfold spine, pending. node_simpl. rewrite <- E, orb_false_r. done.
    - apply moves_flag; [|unfold pending; node_simpl; apply orb_true_r].
      etransitivity; [apply moves_steps, (moves_pending true)|]. apply steps_commit; [done|].
      destruct HF as (Hl&_). cbn in Hl. unfold pending. node_simpl. subst c. lia. }
  clearbody m. destruct (Hm Hok) as (Hokm&_&_). pose proof Ews as [= Ew Es].
  assert (full F (saved m)) as HFm by (apply (full_frame F n); [congruence|done]).
  assert (store_ok view m F) as Hstm.
  { destruct Hst as [H1 H2]. split; [by rewrite Es, E2|by apply (slots_ok_same view n)]. }
  set (m2 := observe_sync m (current_term n) sync).
  assert (store_ok view m2 F) as Hst2.
  { subst m2. rewrite <- E2. apply observe_sync_store; try done; [apply Hokm|by rewrite E2]. }
  assert (node_ok m2) as Hok2 by (apply (moves_observe_sync m); [lia|done]).
  assert ((id m2, current_term m2, commit_index m2, role m2, (log m2, snapshot_index m2, snapshot_term m2))
    = (id m, current_term m, commit_index m, role m, (log m, snapshot_index m, snapshot_term m))) as [= B1 B2 B3 B4 B5 B6 B7].
  { subst m2. unfold observe_sync. by split_if. }
  clearbody m2. unfold absorb. cbn [fst]. generalize (S (size (window m2))). intros fuel.
  destruct (absorb_loop_full fuel m2 F) as (F'&HF'&Hst'&Hcase&[= C1 C2 C3 C4 C5]); try done.
  { left. congruence. }
  { congruence. }
  { by apply (full_frame F m); [congruence|]. }
  assert (node_ok (prune_committed (absorb_loop fuel m2 (current_term m2)))) as Hok3.
  { apply (moves_prune_committed (absorb_loop fuel m2 (current_term m2))). apply (moves_absorb_loop fuel m2); try done; [left|]; congruence. }
  rewrite B2, E2 in *. set (m3 := absorb_loop _ _ _) in *. split; [done|]. exists F'.
  assert (F `prefix_of` F') as HFF by (destruct Hcase as [->|[? _]]; done). split; [|done]. split.
  - transitivity (id m3, current_term m3, role m3); [done|]. congruence.
  - by apply (full_frame F' m3).
  - destruct Hcase as [->|[? ?]]; [apply follows_refl|by apply follows_extend].
  - apply (store_ok_shrinks view m3); try done; [|rewrite C2, C4, <- B2; by apply Hok2].
    unfold prune_committed, pending, window_shrinks. node_simpl. by intros i s _ [? _]%map_lookup_filter_Some.
  - assert (commit_index (prune_committed m3) = commit_index m3) as -> by done. rewrite C3, B3.
    destruct Hcm as [?|[??]]; [by left|right]. split_and!; [done| |lia].
    etransitivity; [|exact HFF]. etransitivity; [|exact Hpre]. apply take_mono. lia.
Qed.

(** Logs that hold an entry of one term at a position share what precedes it. *)
Lemma anchored n prev prev_term F T : hard_ok n → full F (saved n) → cons_with view F → cons_with view T →
  ((0 <? prev) && negb (bool_decide (entry_term n prev = Some prev_term))) = false →
  (0 < prev → ∃ e, T !! (N.to_nat prev - 1)%nat = Some e ∧ le_term e = prev_term) → take (N.to_nat prev) T `prefix_of` F.
Proof.
  intros Hh HF Hc HcT Hb Hp. destruct (decide (prev = 0)) as [->|Hne]; [apply prefix_nil|].
  apply andb_false_iff in Hb as [Hb|Hb]; [bool_to_prop; lia|]. apply negb_false_iff, bool_decide_eq_true in Hb.
  destruct (full_entry_term_some F n prev prev_term Hh HF Hb) as (?&_&e&He&Et). destruct Hp as (e'&He'&Et'); [done|].
  assert (take (S (N.to_nat prev - 1)) F = take (S (N.to_nat prev - 1)) T) as E
    by (apply (cons_with_match view F T _ e e'); first [done|congruence]).
  replace (S (N.to_nat prev - 1)) with (N.to_nat prev) in E by lia. rewrite <- E. apply prefix_take.
Qed.

Lemma conflict_refuses n prev context : ar_success (conflict_reply n prev context) = false.
Proof. unfold conflict_reply. destruct (match entry_term n prev with None => _ | Some _ => _ end). done. Qed.

Lemma append_at_full n request prev prev_term entries F (T := view (ae_term request)) n' reply :
  append_at n request prev prev_term entries = (n', reply) →
  node_ok n → role n = Follower → current_term n = ae_term request → 0 < ae_term request → commit_index n ≤ prev →
  (prev = 0 → prev_term = 0) → terms_ok (ae_term request) prev_term entries → Forall entry_cfg entries →
  full F (saved n) → store_ok view n F → cons_with view F → (∀ e, e ∈ F → le_term e ≤ current_term n) →
  cons_with view T → segment T (N.to_nat prev) entries → (N.to_nat prev ≤ length T)%nat → N.of_nat (length T) ≤ u64_max →
  (0 < prev → ∃ e, T !! (N.to_nat prev - 1)%nat = Some e ∧ le_term e = prev_term) →
  ∃ F', followed T (ae_term request) (ae_leader_commit request) n n' F F'
    ∧ (ar_success reply = true → take (N.to_nat prev + length entries) T `prefix_of` F'
       ∧ (N.to_nat prev + length entries ≤ length T)%nat ∧ N.to_nat (ar_match_index reply) = length F').
Proof.
  intros Ha Hok Hr Et H0 Hc Hz Hts Hcs HF Hst HcF HtF HcT Hseg Hk Hu Hp. pose proof (ok_hard _ Hok) as Hh.
  unfold append_at in Ha. destruct ((0 <? prev) && _) eqn:Ec.
  { set (request' := mkAppendEntries _ _ _ _ _ _ _ _ _ _) in Ha. injection Ha as <- <-.
    destruct (buffer_store n request' F T) as [Hst' Hb]; try done. destruct (body_eqs _ _ Hb) as (E1&E2&E3&E4&E5&E6).
    exists F. split; [split; [congruence|by apply (full_frame F n)|apply follows_refl|done|by left]|].
    by rewrite conflict_refuses. }
  destruct (runs_past prev entries) eqn:Er.
  { injection Ha as <- <-. exists F. split; [|done]. split; [node_simpl; congruence|done|apply follows_refl|done|by left]. }
  unfold runs_past in Er. apply bool_decide_eq_false in Er.
  destruct (checked_add prev (len entries)) as [?|] eqn:Ea; [|done]. apply checked_add_some in Ea as [_ Hsum].
  pose proof (anchored n prev prev_term F T Hh HF HcF HcT Ec Hp) as Hpre.
  assert (holds n prev prev_term) as Hd.
  { destruct (decide (prev = 0)) as [->|].
    - destruct Hh. left. assert (snapshot_index n = 0) as E0 by lia. destruct (ok_origin E0). rewrite Hz; [|done].
      split; congruence.
    - apply andb_false_iff in Ec as [Ec|Ec]; [bool_to_prop; lia|].
      apply negb_false_iff, bool_decide_eq_true in Ec. by eapply entry_term_holds. }
  destruct (place_entries n prev entries) as [m i] eqn:Ep. assert (view (current_term n) = T) as ET by (by rewrite Et).
  clearbody T. rewrite <- Et in *. assert (quiet n) as Hq by (by left).
  destruct (place_entries_full entries n prev prev_term m i F T) as (F1&HF1&Hf1&Hc1&Hp1&[= Ei Erl Ew Es]); try done.
  destruct (moves_place_entries (strict := True) (cfg_ok := cfg_ok) (granted := granted) (quorum := quorum) entries n prev prev_term m i)
    as (Hm&Hqm&Ecm&Etm&->&_); try done. destruct (Hm Hok) as (Hokm&_&_).
  replace (if commit_index m <? _ then _ else m) with
    (if commit_index m <? ae_leader_commit request
     then pending (negb (commit_index m =? N.min (ae_leader_commit request) (prev + len entries))) m
       <| commit_index := N.min (ae_leader_commit request) (prev + len entries) |> else m) in Ha by done.
  pose proof (segment_length T _ _ Hseg Hk) as HlT. assert (N.to_nat (prev + len entries) = (N.to_nat prev + length entries)%nat) as El
    by (unfold len; lia).
  assert (cons_with view F1 ∧ ∀ e, e ∈ F1 → le_term e ≤ current_term n) as [Hc1' Ht1].
  { split; [done|]. apply (follows_terms (current_term n) F); [by rewrite ET|done]. }
  destruct (settle_full m (prev + len entries) (ae_leader_commit request) (ae_sync_index request) F1) as (Hok3&F'&Hfo&Hpf); rewrite ?Etm, ?Ecm, ?El, ?ET.
  all: try done; try lia; try congruence.
  - apply prefix_length in Hp1. rewrite length_take in Hp1. lia.
  - apply (store_ok_follows n m F F1); rewrite ?ET; try done; congruence.
  - rewrite Etm in Hok3, Hfo. rewrite ET in Hfo. destruct (absorb _ _) as [m3 absorbed] eqn:Eab. cbn [fst] in *.
    assert (absorbed = last_log_index m3) as -> by (unfold absorb in Eab; clear -Eab; congruence). destruct Hfo as [[= G1 G2 G3] HF' Hf' Hst' Hcm].
    injection Ha as <- <-. exists F'. split.
    + split; [congruence|done|by apply (follows_trans T F F1)|done|]. by rewrite Ecm in Hcm.
    + intros _. split_and!; [by etransitivity|done|]. cbn [append_reply ar_match_index].
      rewrite N.max_l.
      * by apply (full_last_index F' (prune_committed m3) (ok_hard _ Hok3)).
      * change (last_log_index m3) with (last_log_index (prune_committed m3)). apply (f_equal N.of_nat) in El.
        pose proof (full_last_index F' _ (ok_hard _ Hok3) HF') as Hl'. apply prefix_length in Hp1, Hpf. rewrite length_take in Hp1. lia.
Qed.

(** A message that is not malformed carries part of the log of its term. *)
Definition carried_append (m : AppendEntries) : Prop :=
  let T := view (ae_term m) in let k := N.to_nat (ae_prev_log_index m) in
  position_agrees (ae_prev_log_index m) (ae_prev_log_term m) = true →
  segment T k (ae_entries m) ∧ (k ≤ length T)%nat
  ∧ (0 < ae_prev_log_index m → ∃ e, T !! (k - 1)%nat = Some e ∧ le_term e = ae_prev_log_term m).

Lemma calm_store n n' F : hard_ok n → calm n n' → store_ok view n F → store_ok view n' F.
Proof. intros Hh [_ [= _ _ Es] Hw Ht _ _]. apply store_ok_shrinks; try done. apply Hh. Qed.

Lemma reply_kept n request prev prev_term entries n' reply : append_at n request prev prev_term entries = (n', reply) →
  ar_success reply = true → ar_term reply = current_term n' ∧ ar_follower reply = id n'.
Proof.
  unfold append_at. destruct (_ && _); [intros [= <- <-]; by rewrite conflict_refuses|].
  split_if; [by intros [= <- <-]|]. destruct (place_entries _ _ _). destruct (absorb _ _). by intros [= <- <-].
Qed.

Lemma on_append_full n m F (T := view (ae_term m)) n' reply :
  on_append_entries n m = (n', reply) → node_ok n → (admit_append n m = Ok tt → Forall entry_cfg (ae_entries m)) →
  full F (saved n) → store_ok view n F → cons_with view F → (∀ e, e ∈ F → le_term e ≤ current_term n) →
  cons_with view T → N.of_nat (length T) ≤ u64_max → carried_append m →
  (current_term n ≤ ae_term m → take (N.to_nat (commit_index n)) F `prefix_of` T) →
  (calm n n' ∧ ar_success reply = false)
  ∨ (current_term n ≤ ae_term m ∧ ∃ F', followed T (ae_term m) (ae_leader_commit m) n n' F F'
     ∧ (ar_success reply = true → ar_term reply = ae_term m ∧ ar_follower reply = id n
        ∧ (ar_match_index reply ≤ N.max (commit_index n) (ae_prev_log_index m + len (ae_entries m)) ∨ synced_term n' = ae_term m →
           (N.to_nat (ar_match_index reply) ≤ length T)%nat ∧ take (N.to_nat (ar_match_index reply)) T `prefix_of` F'))).
Proof.
  intros Ho Hok Hcfg HF Hst HcF HtF HcT Hu Hca Hcom. unfold on_append_entries in Ho.
  destruct (admit_append n m) as [[]|kind] eqn:Ea; [|injection Ho as <- <-; left; split; [by apply calm_frame|done]].
  specialize (Hcfg eq_refl). destruct (ae_term m <? current_term n) eqn:Et; [injection Ho as <- <-; left; split; [reflexivity|done]|].
  bool_to_prop. right. split; [done|]. specialize (Hcom Et). unfold admit_append in Ea. split_if; [done|]. split_if; [done|]. bool_to_prop.
  destruct Hca as (Hseg&Hk&Hp); [done|].
  apply bind_ok in Ea as ([] & Ee & Ea). destruct (admit_entries_ok _ _ _ Ee) as [Hts _].
  destruct (recognize_leader_kept n (ae_term m) (ae_leader m)) as ([= El Es Ep Ec]&_&Ex). specialize (Ex Et).
  pose proof (moves_recognize_leader (strict := True) (cfg_ok := cfg_ok) (granted := granted) (quorum := quorum) n (ae_term m) (ae_leader m)) as Hm.
  pose proof (calm_recognize_leader n (ae_term m) (ae_leader m)) as Hcr.
  assert (role (recognize_leader n (ae_term m) (ae_leader m)) = Follower) as Er by done.
  set (m0 := recognize_leader n _ _) in *. destruct (open_announced m0) as [oterm known].
  set (x := m0 <| open_announced := _ |> <| priorities := _ |>) in Ho.
  assert (node_ok x) as Hokx.
  { destruct (Hm Hok) as (Hok0&_&_). by apply (moves_spine (strict := True) (cfg_ok := cfg_ok) (granted := granted) (quorum := quorum) m0). }
  assert (calm n x) as Hcx by (eapply calm_trans; [exact Hcr|by apply calm_frame]).
  pose proof (calm_store n x F (ok_hard _ Hok) Hcx Hst) as Hstx. pose proof (ca_full _ _ Hcx F HF) as HFx.
  pose proof (ca_kept _ _ Hcx) as [= Ki Kc Ks]. assert (∀ i, entry_term x i = entry_term n i) as Ke.
  { intros i. apply entry_term_frame. transitivity (log m0, snapshot_index m0, snapshot_term m0); [done|congruence]. }
  assert (role x = Follower ∧ current_term x = ae_term m) as [Kr Kt] by done. clearbody x.
  pose proof (ok_commit _ (ok_hard _ Hok)) as Hcb. pose proof HF as (HFl&_). cbn in HFl.
  assert (take (N.to_nat (commit_index n)) T = take (N.to_nat (commit_index n)) F ∧ (N.to_nat (commit_index n) ≤ length T)%nat) as [HcT' HclT].
  { apply prefix_take_iff in Hcom as [Hl He]. rewrite length_take, Nat.min_l in Hl, He by lia. done. }
  (* what holds whichever position the message is taken at *)
  assert (∀ prev prev_term entries, append_at x m prev prev_term entries = (n', reply) →
    commit_index n ≤ prev → (prev = 0 → prev_term = 0) → terms_ok (ae_term m) prev_term entries → Forall entry_cfg entries →
    segment T (N.to_nat prev) entries → (N.to_nat prev ≤ length T)%nat →
    (0 < prev → ∃ e, T !! (N.to_nat prev - 1)%nat = Some e ∧ le_term e = prev_term) →
    prev + len entries = ae_prev_log_index m + len (ae_entries m) →
    ∃ F', followed T (ae_term m) (ae_leader_commit m) n n' F F'
     ∧ (ar_success reply = true → ar_term reply = ae_term m ∧ ar_follower reply = id n
        ∧ (ar_match_index reply ≤ N.max (commit_index n) (ae_prev_log_index m + len (ae_entries m)) ∨ synced_term n' = ae_term m →
           (N.to_nat (ar_match_index reply) ≤ length T)%nat ∧ take (N.to_nat (ar_match_index reply)) T `prefix_of` F'))) as Hat.
  { intros prev prev_term entries Hat H1 H2 H3 H4 H5 H6 H7 H8.
    destruct (append_at_full x m prev prev_term entries F n' reply) as (F'&[[= G1 G2 G3] HF' Hf' Hst' Hcm]&Hr); try done; try lia.
    { rewrite Kt. intros e He%HtF. lia. }
    rewrite Kc in Hcm. exists F'. split; [split; try done; congruence|]. intros Hs. destruct (Hr Hs) as (Hp1&Hl1&Hml).
    destruct (reply_kept _ _ _ _ _ _ _ Hat Hs) as [-> ->]. split_and!; [congruence..|]. intros [Hcov|Hsy].
    - assert (take (N.to_nat (commit_index n)) T `prefix_of` F') as Hcf
        by (rewrite HcT'; apply (follows_keeps T F F'); [done..|lia]).
      assert ((N.to_nat prev + length entries)%nat = N.to_nat (prev + len entries)) as Epl by (unfold len; lia). rewrite Epl in *.
      rewrite H8 in *. fold T in Hp1, Hl1. apply N.max_le in Hcov as [Hcov|Hcov]; (split; [lia|]).
      + etransitivity; [|exact Hcf]. apply take_mono. lia.
      + etransitivity; [|exact Hp1]. apply take_mono. lia.
    - destruct Hst' as [Hst' _]. rewrite G2 in Hst'. specialize (Hst' Hsy). rewrite Hml. pose proof (prefix_length _ _ Hst').
      split; [done|]. fold T in Hst'. by apply prefix_take_iff in Hst' as [_ ->]. }
  rewrite Kc in Ho. destruct (ae_prev_log_index m <? commit_index n) eqn:Eq; bool_to_prop.
  - destruct (len (ae_entries m) <=? commit_index n - ae_prev_log_index m) eqn:El'; bool_to_prop.
    + injection Ho as <- <-. exists F. split.
      * split; [congruence|done|apply follows_refl|done|by left].
      * intros _. cbn [append_reply ar_term ar_follower ar_match_index]. split_and!; [done..|]. intros _.
        split; [done|]. rewrite HcT'. apply prefix_take.
    + apply Hat in Ho; try done; try lia.
      * apply (terms_ok_suffix _ _ _ _ _ Hts). intros e He. rewrite Ke. cbn in Ea. rewrite He in Ea.
        split_if; [done|]. by bool_to_prop.
      * unfold dropN. by apply Forall_drop.
      * apply (segment_drop T _ (N.to_nat (commit_index n - ae_prev_log_index m))) in Hseg.
        by replace (N.to_nat (ae_prev_log_index m) + _)%nat with (N.to_nat (commit_index n)) in Hseg by lia.
      * intros Hc0. rewrite Ke. rewrite (entry_term_commit n I (ok_hard _ Hok) Hc0).
        destruct (full_entry_term_some F n _ _ (ok_hard _ Hok) HF (entry_term_commit n I (ok_hard _ Hok) Hc0)) as (_&_&e&He&Hte).
        exists e. split; [|done]. rewrite <- (lookup_take_lt T (N.to_nat (commit_index n))), HcT', lookup_take_lt by lia. done.
      * rewrite len_dropN. lia.
  - apply Hat in Ho; try done. intros Hz. unfold position_agrees in *. rewrite Hz in *. simpl in *.
    destruct (ae_prev_log_term m =? 0) eqn:?; bool_to_prop; done.
Qed.

(** ** The snapshot handler *)
Definition carried_snapshot (m : InstallSnapshot) : Prop :=
  0 < is_last_included_index m → ∃ e,
    view (is_term m) !! (N.to_nat (is_last_included_index m) - 1)%nat = Some e ∧ le_term e = is_last_included_term m.

Lemma full_dropped F n n' b e : full F (saved n) → snapshot_index n < b → F !! (N.to_nat b - 1)%nat = Some e →
  (log n', snapshot_index n', snapshot_term n') = (dropN (N.min (b - snapshot_index n) (len (log n))) (log n), b, le_term e) →
  full F (saved n').
Proof.
  intros (Hl&Hd&_) Hb He [= E1 E2 E3]. cbn in Hl, Hd. apply lookup_lt_Some in He as Hlt. unfold full, saved.
  cbn [s_log s_snapshot_index s_snapshot_term]. rewrite E1, E2, E3. rewrite N.min_l by lia. split_and!.
  - rewrite len_dropN. lia.
  - rewrite <- Hd. unfold dropN. rewrite drop_drop. f_equal. lia.
  - intros _. eauto.
Qed.
Lemma full_reset T n' b e : T !! (N.to_nat b - 1)%nat = Some e → 0 < b →
  (log n', snapshot_index n', snapshot_term n') = ([], b, le_term e) → full (take (N.to_nat b) T) (saved n').
Proof.
  intros He Hb [= E1 E2 E3]. apply lookup_lt_Some in He as Hlt. unfold full, saved. cbn [s_log s_snapshot_index s_snapshot_term].
  rewrite E1, E2, E3. split_and!.
  - rewrite length_take, len_nil. lia.
  - apply drop_ge. rewrite length_take. lia.
  - intros _. exists e. by rewrite lookup_take_lt by lia.
Qed.

(** A log that lacks the entry a snapshot ends with is replaced by what precedes it. *)
Lemma follows_reset T F b e : T !! b = Some e → F !! b ≠ Some e → follows T F (take (S b) T).
Proof.
  intros He Hne. destruct (decide (F `prefix_of` T)) as [Hp|Hp].
  - apply follows_extend; [|apply prefix_take]. apply (prefix_shorter _ _ T); [done|apply prefix_take|].
    apply lookup_lt_Some in He as Hlt. rewrite length_take. destruct (decide (length F ≤ b)%nat) as [|Hb]; [lia|].
    destruct (lookup_lt_is_Some_2 F b) as [e' He']; [lia|]. destruct Hne. rewrite <- He. rewrite He'. symmetry.
    by eapply prefix_lookup_Some.
  - right; right. split_and!; [apply prefix_take|done| |].
    + intros Ht. apply Hne. by eapply prefix_lookup_Some.
    + intros k Hk HkF HkT. apply lookup_lt_Some in He as Hlt. rewrite length_take.
      destruct (decide (k ≤ S b)%nat) as [|Hb]; [lia|]. destruct Hne. rewrite <- He.
      rewrite <- (lookup_take_lt F k), <- (lookup_take_lt T k) by lia. by rewrite Hk.
Qed.

Lemma snapshot_carried n m F : hard_ok n → full F (saved n) → carried_snapshot m →
  take (N.to_nat (commit_index n)) F `prefix_of` view (is_term m) → snapshot_agrees n m.
Proof.
  intros Hh HF Hca Hp Hlt Hle. rewrite (full_entry_term F) by (done || lia). destruct Hca as (e&He&<-); [lia|].
  pose proof (ok_commit _ Hh). pose proof HF as (Hl&_). cbn in Hl.
  assert (F !! (N.to_nat (is_last_included_index m) - 1)%nat = Some e) as ->; [|done].
  destruct (lookup_lt_is_Some_2 F (N.to_nat (is_last_included_index m) - 1)%nat) as [e' He']; [lia|]. rewrite He', <- He.
  symmetry. rewrite <- (lookup_take_lt F (N.to_nat (commit_index n))) in He' by lia.
  by eapply prefix_lookup_Some.
Qed.

(** The node a snapshot past the log's base leaves. *)
Lemma installed_full n m F (T := view (is_term m)) (b := is_last_included_index m) :
  hard_ok n → full F (saved n) → store_ok view n F → cons_with view F → cons_with view T → carried_snapshot m →
  take (N.to_nat (commit_index n)) F `prefix_of` T → current_term n = is_term m → snapshot_index n < b →
  let keeps := bool_decide (entry_term n b = Some (is_last_included_term m)) in
  ∀ n', (log n', snapshot_index n', snapshot_term n')
        = (if keeps then dropN (N.min (b - snapshot_index n) (len (log n))) (log n) else [], b, is_last_included_term m) →
  (current_term n', window n', synced_term n') = (current_term n, window n, synced_term n) →
  ∃ F', full F' (saved n') ∧ follows T F F' ∧ store_ok view n' F' ∧ take (N.to_nat b) T `prefix_of` F'
    ∧ (N.to_nat b ≤ length T)%nat.
Proof.
  intros Hh HF Hst HcF HcT Hca Hcom Et Hb keeps n' E1 E2. destruct Hca as (e&He&Hte); [lia|].
  assert (S (N.to_nat b - 1) = N.to_nat b) as Eb by lia. fold T b in He. pose proof (lookup_lt_Some _ _ _ He) as HbT.
  assert (∃ F', full F' (saved n') ∧ follows T F F' ∧ take (N.to_nat b) T `prefix_of` F') as (F'&HF'&Hf'&Hp').
  { subst keeps. case_bool_decide as Hk.
    - destruct (full_entry_term_some F n b _ Hh HF Hk) as (_&_&e'&He'&Hte'). exists F. split_and!.
      + apply (full_dropped F n n' b e'); try done. by rewrite Hte'.
      + apply follows_refl.
      + rewrite <- Eb, <- (cons_with_match view F T (N.to_nat b - 1) e' e) by (done || congruence). apply prefix_take.
    - exists (take (N.to_nat b) T). split_and!; [|rewrite <- Eb|done].
      + apply (full_reset T n' b e); [done|lia|]. by rewrite Hte.
      + apply (follows_reset T F _ e); [done|]. intros HFe. apply Hk.
        rewrite (full_entry_term F) by (done || lia). rewrite HFe. cbn. by rewrite Hte. }
  exists F'. split_and!; try done; [|lia]. apply (store_ok_follows n n' F F'); try done. by rewrite Et.
Qed.

Lemma on_install_full n m F (T := view (is_term m)) n' reply :
  on_install_snapshot n m = (n', reply) → node_ok n →
  full F (saved n) → store_ok view n F → cons_with view F → cons_with view T → carried_snapshot m →
  (current_term n ≤ is_term m → take (N.to_nat (commit_index n)) F `prefix_of` T) →
  (calm n n' ∧ isr_match_index reply = 0)
  ∨ (current_term n ≤ is_term m ∧ isr_term reply = is_term m ∧ isr_follower reply = id n
     ∧ ∃ F', followed T (is_term m) (is_last_included_index m) n n' F F'
     ∧ (N.to_nat (isr_match_index reply) ≤ length T)%nat ∧ take (N.to_nat (isr_match_index reply)) T `prefix_of` F').
Proof.
  intros Ho Hok HF Hst HcF HcT Hca Hcom. unfold on_install_snapshot in Ho.
  destruct (admit_snapshot m) as [[]|kind] eqn:Ea; [|injection Ho as <- <-; left; split; [by apply calm_frame|done]].
  destruct (is_term m <? current_term n) eqn:Et; [injection Ho as <- <-; left; split; [reflexivity|done]|]. bool_to_prop.
  right. specialize (Hcom Et).
  destruct (recognize_leader_kept n (is_term m) (is_sender m)) as ([= El Es Ep Ec]&_&Ex). specialize (Ex Et).
  pose proof (moves_recognize_leader (strict := True) (cfg_ok := cfg_ok) (granted := granted) (quorum := quorum) n (is_term m) (is_sender m)) as Hm.
  pose proof (calm_recognize_leader n (is_term m) (is_sender m)) as Hcx.
  assert (role (recognize_leader n (is_term m) (is_sender m)) = Follower) as Er by done.
  set (x := recognize_leader n _ _) in *. clearbody x. destruct (Hm Hok) as (Hokx&_&_).
  pose proof (calm_store n x F (ok_hard _ Hok) Hcx Hst) as Hstx. pose proof (ca_full _ _ Hcx F HF) as HFx.
  pose proof (ca_kept _ _ Hcx) as [= Ki Kc Ks]. pose proof HF as (HFl&_). cbn in HFl.
  pose proof (ok_commit _ (ok_hard _ Hok)) as Hcb.
  assert (take (N.to_nat (commit_index n)) T = take (N.to_nat (commit_index n)) F ∧ (N.to_nat (commit_index n) ≤ length T)%nat) as [HcT' HclT].
  { apply prefix_take_iff in Hcom as [Hl He]. rewrite length_take, Nat.min_l in Hl, He by lia. done. }
  injection Ho as <- <-. cbn [snapshot_reply isr_term isr_follower isr_match_index].
  split; [done|]. destruct (snapshot_index x <? is_last_included_index m) eqn:Eb; bool_to_prop.
  - match goal with |- context [prune_committed ?y] => set (z := y) end.
    assert ((log z, snapshot_index z, snapshot_term z)
      = (if bool_decide (entry_term x (is_last_included_index m) = Some (is_last_included_term m))
         then dropN (N.min (is_last_included_index m - snapshot_index x) (len (log x))) (log x) else [],
         is_last_included_index m, is_last_included_term m)
      ∧ (current_term z, window z, synced_term z) = (current_term x, window x, synced_term x)
      ∧ (id z, role z) = (id x, role x) ∧ commit_index z = N.max (is_last_included_index m) (commit_index x)) as (Z1&Z2&[= Z3 Z4]&Z5).
    { subst z. change (entry_term (x <| retention_pending := true |>) (is_last_included_index m))
        with (entry_term x (is_last_included_index m)). case_bool_decide; by split_and!. }
    clearbody z. destruct (installed_full x m F (ok_hard _ Hokx) HFx Hstx HcF HcT Hca) with (n' := z) as (F'&HF'&Hf'&Hst'&Hp'&HbT);
      try done; [by rewrite Ec|]. injection Z2 as Zt _ Zs.
    split_and!; [by rewrite <- Ex, <- Zt|by rewrite <- Ki, <- Z3|]. exists F'.
    change (commit_index (prune_committed z)) with (commit_index z). rewrite Z5, Ec.
    assert (take (N.to_nat (commit_index n)) T `prefix_of` F') as Hcf
      by (rewrite HcT'; apply (follows_keeps T F F'); [done..|lia]).
    split.
    + split; [|done|done| |].
      * transitivity (id z, current_term z, role z); [done|congruence].
      * apply (store_ok_shrinks view z); try done; [|rewrite Zs, Zt; apply Hokx].
        unfold prune_committed, pending, window_shrinks. node_simpl. by intros i s _ [? _]%map_lookup_filter_Some.
      * change (commit_index (prune_committed z)) with (commit_index z). rewrite Z5, Ec.
        destruct (N.max_spec (is_last_included_index m) (commit_index n)) as [[_ ->]|[_ ->]]; [by left|by right].
    + destruct (N.max_spec (is_last_included_index m) (commit_index n)) as [[_ ->]|[_ ->]]; done.
  - split_and!; [congruence|done|]. exists F. split; [|by rewrite Ec; split; [|rewrite HcT'; apply prefix_take]].
    split; [congruence|done|apply follows_refl|done|left; congruence].
Qed.

End follow.
