(* ===== verification/RaftRefine.v ===== *)
(** * A Raft group refines the replicated log

    The relation between a group of nodes of [crates/cluster/src/raft.rs] and
    the state machine of [RaftSpec]: a node's whole log is its host's, what
    its packets tell are facts, a leader's log is its term's.  Publishing,
    releasing and restarting step both alike; [RaftAgree] does the operations. *)

From S2P Require Import Prelude RaftState RaftLog RaftElect RaftReplicate RaftFast RaftAdmin RaftInv RaftAppend RaftOps RaftSaved RaftQuorum RaftSystem RaftSpec RaftComplete RaftFull RaftWin RaftFollow.
From stdpp Require Import functions.
#[local] Open Scope N_scope.

(** ** What packets tell *)
Definition fact_of (p : Packet) : option Fact :=
  match p with
  | (_, MAppendReply r) =>
      if ar_success r then Some (Ack (ar_follower r) (ar_term r) (N.to_nat (ar_match_index r))) else None
  | (_, MSnapshotReply r) =>
      if 0 <? isr_match_index r then Some (Ack (isr_follower r) (isr_term r) (N.to_nat (isr_match_index r))) else None
  | (to, MVoteReply r) => if vr_granted r then Some (Grant (vr_voter r) (vr_term r) to) else None
  | (_, MRequestVote r) =>
      Some (Request (rv_candidate r) (rv_term r) (rv_last_log_term r) (N.to_nat (rv_last_log_index r)))
  | _ => None
  end.
Definition facts (l : list Packet) : list Fact := omap fact_of l.

(** The term whose log a message carries. *)
Definition log_term (m : Message) : option N :=
  match m with MAppend m => Some (ae_term m) | MSnapshot m => Some (is_term m) | _ => None end.

Lemma elem_of_facts f l : f ∈ facts l ↔ ∃ p, p ∈ l ∧ fact_of p = Some f.
Proof. apply list_elem_of_omap. Qed.
Lemma grant_claimed l w t c : Grant w t c ∈ facts l → ∃ p, p ∈ l ∧ claim_of p = Some (w, t, c).
Proof.
  intros ([to m]&Hp&Hf)%elem_of_facts. exists (to, m). split; [done|]. destruct m; simpl in *; try done.
  all: repeat case_match; try done; by simplify_eq.
Qed.
Lemma granted_fact l w c t : granted_by l w c t → Grant w t c ∈ facts l.
Proof. intros (r&Hr&Hg&<-&<-). apply elem_of_facts. eexists. split; [exact Hr|]. simpl. by rewrite Hg. Qed.

Definition host_of (n : RaftNode) (F : list LogEntry) : Host :=
  mkHost (current_term n) F (N.to_nat (commit_index n)) (role n).

(** What a leader of a term may know of a follower. *)
Definition known (a : Spec) (v : HostId) (t : N) (w : HostId) (m : N) : Prop :=
  w = v ∨ m = 0 ∨ ∃ k, Ack w t k ∈ sp_net a ∧ (N.to_nat m ≤ k)%nat.

Section refine.
Context (voters : list HostId) (voters_valid : valid_set voters = true).
#[local] Abbreviation cfg := (group_cfg voters).
#[local] Abbreviation quorum := (group_quorum voters).
#[local] Abbreviation spec_ok := (spec_ok voters quorum).
#[local] Abbreviation certified := (certified quorum).
#[local] Abbreviation meet := (group_quorum_meet voters).
#[local] Abbreviation single := (group_quorum_single voters voters_valid).

(** ** The relation *)

(** A message carries part of the log of its term, and tells of a prefix of it that is chosen. *)
Definition packet_ok (a : Spec) (view : N → list LogEntry) (m : Message) : Prop :=
  match m with
  | MAppend m => carried_append view m ∧ certified a view (ae_term m) (view (ae_term m)) (N.to_nat (ae_leader_commit m))
  | MSnapshot m =>
      carried_snapshot view m ∧ certified a view (is_term m) (view (is_term m)) (N.to_nat (is_last_included_index m))
  | _ => True
  end.

(** What a host has on disk. *)
Record keeps (st : System) (a : Spec) (v : HostId) (m : RaftNode) : Prop := mkKeeps {
  ke_saved : disk st v = saved m;
  ke_hard : hard_ok True cfg m;
  ke_full : full (sh_log (sp_disk a v)) (saved m);
  ke_store : store_ok (published a) m (sh_log (sp_disk a v));
  ke_term : sh_term (sp_disk a v) = current_term m;
  ke_commit : sh_commit (sp_disk a v) = N.to_nat (commit_index m);
  ke_voted : ∀ t, sp_owner a t = Some v → is_Some (sp_pub a t) → current_term m = t → voted_for m = Some v }.

Record refines (st : System) (a : Spec) : Prop := mkRefines {
  r_system : system_ok (strict := True) voters st;
  r_spec : spec_ok a;
  r_live : ∀ v, sp_live a v = host_of (live st v) (sh_log (sp_live a v));
  r_full : ∀ v, full (sh_log (sp_live a v)) (saved (live st v));
  r_store : ∀ v, store_ok (sight a v) (live st v) (sh_log (sp_live a v));
  r_disk : ∀ v, ∃ m, keeps st a v m;
  r_out : ∀ v, sp_out a v = facts (outbox st v);
  r_net : sp_net a = facts (net st);
  r_flag : ∀ v t, retention_pending (live st v) = false → sp_owner a t = Some v → sp_pub a t = Some (length (sp_lead a t));
  r_range : ∀ t, N.of_nat (length (sp_lead a t)) ≤ u64_max;
  r_match : ∀ v, role (live st v) = Leader → matches (known a v (current_term (live st v))) (live st v);
  r_packs_out : ∀ v p, p ∈ outbox st v →
    packet_ok a (sight a v) p.2 ∧ ∀ t, log_term p.2 = Some t → sp_owner a t = Some v;
  r_packs_net : ∀ p, p ∈ net st → packet_ok a (published a) p.2 ∧ ∀ t, log_term p.2 = Some t → is_Some (sp_pub a t);
  r_voted : ∀ t v, sp_owner a t = Some v → current_term (live st v) = t → voted_for (live st v) = Some v;
  r_claims : ∀ t v p c, sp_owner a t = Some v → p ∈ net st ++ outbox st v → claim_of p = Some (v, t, c) → c = v }.

(** ** Growing views *)
Lemma carried_append_mono view view' m : (∀ t, view t `prefix_of` view' t) → carried_append view m → carried_append view' m.
Proof.
  intros Hv Hc Hpos. destruct (Hc Hpos) as (Hs&Hk&Hp). specialize (Hv (ae_term m)). split_and!.
  - intros j e He. eapply prefix_lookup_Some; [by apply Hs|done].
  - apply prefix_length in Hv. lia.
  - intros (e&He&?)%Hp. exists e. split; [|done]. by eapply prefix_lookup_Some.
Qed.
Lemma carried_snapshot_mono view view' m : (∀ t, view t `prefix_of` view' t) → carried_snapshot view m → carried_snapshot view' m.
Proof. intros Hv Hc (e&He&?)%Hc. exists e. split; [|done]. by eapply prefix_lookup_Some. Qed.

Lemma certified_grown a a' view view' t c : (∀ t j, chosen quorum a t j → chosen quorum a' t j) →
  (∀ t, view t `prefix_of` view' t) → certified a view t (view t) c → certified a' view' t (view' t) c.
Proof. intros Hc Hv H. apply (certified_prefix _ _ _ (view t)); [done|]. by apply (certified_mono a a' view). Qed.
Lemma packet_ok_grown a a' view view' m : (∀ t j, chosen quorum a t j → chosen quorum a' t j) →
  (∀ t, view t `prefix_of` view' t) → packet_ok a view m → packet_ok a' view' m.
Proof.
  intros Hc Hv. destruct m; simpl; try done.
  - intros [??]. split; [by eapply carried_append_mono|by eapply certified_grown].
  - intros [??]. split; [by eapply carried_snapshot_mono|by eapply certified_grown].
Qed.
(** ** A host that moved *)
Record moved (a a' : Spec) (v : HostId) (n' : RaftNode) (F' : list LogEntry) (sent : list Packet) : Prop := mkMoved {
  mv_ok : spec_ok a';
  mv_live : sp_live a' v = host_of n' F';
  mv_lives : ∀ w, w ≠ v → sp_live a' w = sp_live a w;
  mv_out : sp_out a' v = sp_out a v ++ facts sent;
  mv_outs : ∀ w, w ≠ v → sp_out a' w = sp_out a w;
  mv_kept : (sp_disk a', sp_net a', sp_pub a') = (sp_disk a, sp_net a, sp_pub a);
  mv_published : ∀ t, published a' t = published a t;
  mv_other : ∀ w t, w ≠ v → sight a' w t = sight a w t;
  mv_chosen : ∀ t j, chosen quorum a t j → chosen quorum a' t j;
  mv_sight : ∀ w t, sight a w t `prefix_of` sight a' w t;
  mv_owner : ∀ t u, sp_owner a t = Some u → sp_owner a' t = Some u;
  mv_owned : ∀ t u, sp_owner a' t = Some u → sp_owner a t = Some u
    ∨ (u = v ∧ t = current_term n' ∧ role n' = Leader ∧ retention_pending n' = true);
  mv_lead : ∀ t, sp_lead a' t = sp_lead a t ∨ (t = current_term n' ∧ sp_owner a' t = Some v ∧ sp_lead a' t = F') }.

(** [b] differs from [a] in the host alone. *)
Definition same_but (v : HostId) (a b : Spec) : Prop :=
  (sp_disk b, sp_net b, sp_owner b, sp_lead b, sp_pub b) = (sp_disk a, sp_net a, sp_owner a, sp_lead a, sp_pub a)
  ∧ (∀ w, w ≠ v → sp_live b w = sp_live a w) ∧ ∀ w, sp_out b w = sp_out a w.
Lemma same_but_refl v a : same_but v a a.
Proof. done. Qed.
Lemma same_but_host v a h : same_but v a (with_host a v h []).
Proof.
  split_and!; [done| |]; simpl.
  - intros w Hw. by rewrite fn_lookup_insert_ne.
  - intros w. destruct (decide (w = v)) as [->|]; [by rewrite fn_lookup_insert, app_nil_r|by rewrite fn_lookup_insert_ne].
Qed.

Lemma moved_host a b v n' F' sent (a' := with_host b v (host_of n' F') (facts sent)) : same_but v a b → spec_ok a' → moved a a' v n' F' sent.
Proof.
  intros ([= E1 E2 E3 E4 E5]&Hl&Ho) Hok.
  assert (published a' = published a ∧ sight a' = sight a) as [Epub Esight] by (unfold sight, published; simpl; by rewrite E3, E4, E5).
  split; rewrite ?Epub, ?Esight; subst a'; simpl; rewrite ?E3, ?E4; try done; auto.
  - by rewrite fn_lookup_insert.
  - intros w Hw. rewrite fn_lookup_insert_ne; auto.
  - by rewrite fn_lookup_insert, Ho.
  - intros w Hw. rewrite fn_lookup_insert_ne; auto.
  - congruence.
  - intros t j. unfold chosen, acked_net. simpl. by rewrite E2, E3, E4.
Qed.

(** The host comes to own the term it is in, or extends the log of the term it owns. *)
Lemma moved_lead a b v n' F' sent (t := current_term n') (a' := with_lead (with_host b v (host_of n' F') []) v t F') :
  spec_ok b → spec_ok a' → same_but v a b → t = sh_term (sp_live b v) →
  sp_owner a t = Some v ∨ (sp_owner a t = None ∧ role n' = Leader ∧ retention_pending n' = true) → sp_lead a t `prefix_of` F' → facts sent = [] →
  moved a a' v n' F' sent.
Proof.
  intros Hb Hok ([= E1 E2 E3 E4 E5]&Hl&Ho) Et Hown Hp Hfs.
  assert (∀ x, sp_owner a' x = sp_owner b x ∨ (x = t ∧ sp_owner a' x = Some v ∧ sp_owner b x = None)) as Howner.
  { intros x. simpl. rewrite E3. destruct (decide (t = x)) as [<-|]; [rewrite fn_lookup_insert|rewrite fn_lookup_insert_ne by done; by left].
    destruct Hown as [->|[-> _]]; auto. }
  assert (∀ x, sp_lead a' x = sp_lead b x ∨ (x = t ∧ sp_owner a' x = Some v ∧ sp_lead b x `prefix_of` sp_lead a' x
    ∧ t = sh_term (sp_live b v))) as Hlead.
  { intros x. simpl. rewrite E4. destruct (decide (t = x)) as [<-|]; [rewrite !fn_lookup_insert|rewrite !fn_lookup_insert_ne by done; by left].
    right. done. }
  assert (published b = published a ∧ sight b = sight a) as [Epub Esight] by (unfold sight, published; by rewrite E3, E4, E5).
  assert (∀ t j, chosen quorum a t j → chosen quorum b t j) as Hch.
  { intros x j. unfold chosen, acked_net. by rewrite E2, E3, E4. }
  split; rewrite <- ?Epub, <- ?Esight, <- ?E3, <- ?E4; try done.
  - simpl. by rewrite fn_lookup_insert.
  - intros w Hw. simpl. rewrite fn_lookup_insert_ne by done. auto.
  - simpl. by rewrite fn_lookup_insert, Ho, Hfs.
  - intros w Hw. simpl. rewrite fn_lookup_insert_ne by done. auto.
  - simpl. congruence.
  - by apply (step_published voters quorum b a' v (host_of n' F')).
  - by apply (step_sight_other voters quorum b a' v (host_of n' F')).
  - intros x j Hx%Hch. by apply (step_chosen quorum b a' v (host_of n' F')).
  - by apply (step_sight voters quorum b a' v (host_of n' F')).
  - by apply (step_owner b a' v (host_of n' F')).
  - intros x u Hx. destruct (Howner x) as [E|(->&E&E')]; [left; congruence|]. right. rewrite E3 in E'.
    destruct Hown as [|(_&?&?)]; [congruence|]. split_and!; try done. congruence.
  - intros x. simpl. destruct (decide (t = x)) as [<-|]; [rewrite !fn_lookup_insert; by right|rewrite fn_lookup_insert_ne by done; by left].
Qed.
Lemma keeps_moved st st' a a' w m : disk st' = disk st → (sp_disk a', sp_pub a') = (sp_disk a, sp_pub a) →
  (∀ t, published a t `prefix_of` published a' t) →
  (∀ t, sp_owner a' t = Some w → is_Some (sp_pub a t) → sp_owner a t = Some w) → keeps st a w m → keeps st' a' w m.
Proof.
  intros Ed [= E1 E2] Hp Ho [? ? ? ? ? ? Hv]. split; rewrite ?Ed, ?E1, ?E2; try done.
  - by eapply store_ok_mono.
  - intros t Ht Hs. apply Hv; auto.
Qed.

(** The flag, once lowered: everything the host owns is published. *)
Lemma moved_flag st a a' v n' F' sent t : refines st a → moved a a' v n' F' sent → full F' (saved n') → tracks (live st v) n' →
  retention_pending n' = false → sp_owner a' t = Some v → sp_pub a' t = Some (length (sp_lead a' t)).
Proof.
  intros Hr Hm HF Ht Hf Ho. destruct (mv_owned _ _ _ _ _ _ Hm t v Ho) as [Hoa|(_&_&_&?)]; [|congruence].
  destruct Ht as [|[Efl Es]]; [congruence|]. pose proof (mv_kept _ _ _ _ _ _ Hm) as [= _ _ Ep]. rewrite Ep.
  rewrite (r_flag _ _ Hr v t) by (done || congruence). f_equal.
  destruct (mv_lead _ _ _ _ _ _ Hm t) as [->|(Et&_&->)]; [done|].
  assert (sh_term (sp_live a v) = t) as Eta.
  { rewrite (r_live _ _ Hr v). simpl. rewrite Et. exact (eq_sym (f_equal s_term Es)). }
  rewrite <- (k_same _ _ _ (r_spec _ _ Hr) t v Hoa Eta). rewrite Es in HF.
  pose proof (r_full _ _ Hr v) as [H1 _]. destruct HF as [H2 _]. lia.
Qed.

Lemma op_refines st v n' sent a a' F'
    (st' := mkSystem (<[v := n']> (live st)) (disk st) (<[v := outbox st v ++ sent]> (outbox st)) (net st)) :
  refines st a → system_ok (strict := True) voters st' → moved a a' v n' F' sent → progresses True (live st v) n' → tracks (live st v) n' →
  full F' (saved n') → store_ok (sight a' v) n' F' →
  (role n' = Leader → matches (known a v (current_term n')) n') →
  (∀ p, p ∈ sent → (packet_ok a' (sight a' v) p.2 ∧ ∀ t, log_term p.2 = Some t → sp_owner a' t = Some v)
    ∧ ∀ x t c, claim_of p = Some (x, t, c) → t = current_term n') →
  refines st' a'.
Proof.
  intros Hr Hs Hm Hp Ht HF Hst Hma Hpk. pose proof (mv_kept _ _ _ _ _ _ Hm) as [= Ed En Ep].
  pose proof (mv_ok _ _ _ _ _ _ Hm) as Hok'. pose proof (r_spec _ _ Hr) as Hok.
  assert (role n' = Leader → voted_for n' = Some v) as Hlead.
  { intros Hl. pose proof (sys_node _ _ Hs v) as Hn. simpl in Hn. rewrite fn_lookup_insert in Hn.
    rewrite (ok_self _ (ok_elect _ Hn)) by (by right). f_equal. pose proof (sys_id _ _ Hs v) as Hi. simpl in Hi.
    by rewrite fn_lookup_insert in Hi. }
  assert (∀ t, sp_owner a' t = Some v → current_term n' = t → voted_for n' = Some v) as Hvoted.
  { intros t Ho Et. destruct (mv_owned _ _ _ _ _ _ Hm t v Ho) as [Hoa|(_&_&?&_)]; [|auto].
    pose proof (k_own _ _ _ Hok t v Hoa) as (_&Hle&_). rewrite (r_live _ _ Hr v) in Hle. simpl in Hle.
    pose proof (pg_term _ _ Hp). apply (pg_vote _ _ Hp); [lia|]. apply (r_voted _ _ Hr t v Hoa). lia. }
  split; simpl; try done.
  - intros w. destruct (decide (w = v)) as [->|Hw]; [rewrite fn_lookup_insert, (mv_live _ _ _ _ _ _ Hm); done|].
    rewrite fn_lookup_insert_ne, (mv_lives _ _ _ _ _ _ Hm w) by done. apply Hr.
  - intros w. destruct (decide (w = v)) as [->|Hw]; [by rewrite fn_lookup_insert, (mv_live _ _ _ _ _ _ Hm)|].
    rewrite fn_lookup_insert_ne, (mv_lives _ _ _ _ _ _ Hm w) by done. apply Hr.
  - intros w. destruct (decide (w = v)) as [->|Hw]; [by rewrite fn_lookup_insert, (mv_live _ _ _ _ _ _ Hm)|].
    rewrite fn_lookup_insert_ne, (mv_lives _ _ _ _ _ _ Hm w) by done. apply (store_ok_mono (sight a w)); [|apply Hr].
    intros t. by rewrite (mv_other _ _ _ _ _ _ Hm).
  - intros w. destruct (r_disk _ _ Hr w) as [m Hk]. exists m. apply (keeps_moved st _ a a'); try done; [congruence| |].
    + intros t. by rewrite (mv_published _ _ _ _ _ _ Hm).
    + intros t Ho [u Hu]%(pub_owned _ _ _ Hok). rewrite (mv_owner _ _ _ _ _ _ Hm t u Hu) in Ho. congruence.
  - intros w. destruct (decide (w = v)) as [->|Hw].
    + rewrite fn_lookup_insert, (mv_out _ _ _ _ _ _ Hm), (r_out _ _ Hr). unfold facts. by rewrite omap_app.
    + rewrite fn_lookup_insert_ne, (mv_outs _ _ _ _ _ _ Hm w) by done. apply Hr.
  - rewrite En. apply Hr.
  - intros w t. destruct (decide (w = v)) as [->|Hw].
    + rewrite fn_lookup_insert. by apply (moved_flag st a a' v n' F' sent).
    + rewrite fn_lookup_insert_ne by done. intros Hf Ho. rewrite Ep. destruct (mv_owned _ _ _ _ _ _ Hm t w Ho) as [Hoa|[? _]]; [|done].
      rewrite (r_flag _ _ Hr w t Hf Hoa). destruct (mv_lead _ _ _ _ _ _ Hm t) as [->|(_&?&_)]; [done|congruence].
  - intros t. destruct (mv_lead _ _ _ _ _ _ Hm t) as [->|(_&_&->)]; [apply Hr|]. pose proof (sys_node _ _ Hs v) as Hn.
    simpl in Hn. rewrite fn_lookup_insert in Hn. destruct HF as [-> _]. apply Hn.
  - intros w. unfold known. rewrite En. destruct (decide (w = v)) as [->|Hw]; [by rewrite fn_lookup_insert|].
    rewrite fn_lookup_insert_ne by done. apply Hr.
  - assert (∀ w p, p ∈ outbox st w → packet_ok a' (sight a' w) p.2 ∧ ∀ t, log_term p.2 = Some t → sp_owner a' t = Some w) as Hold.
    { intros w p Hin. destruct (r_packs_out _ _ Hr w p Hin) as [H1 H2]. split.
      - apply (packet_ok_grown a a' (sight a w)); [apply Hm..|done].
      - intros t Hlt%H2. by apply (mv_owner _ _ _ _ _ _ Hm). }
    intros w p. destruct (decide (w = v)) as [->|Hw]; [|rewrite fn_lookup_insert_ne by done; apply Hold].
    rewrite fn_lookup_insert. intros [Hin|Hin]%elem_of_app; [by apply Hold|by apply Hpk].
  - intros p Hin. destruct (r_packs_net _ _ Hr p Hin) as [H1 H2]. rewrite Ep. split; [|done].
    apply (packet_ok_grown a a' (published a)); [apply Hm| |done]. intros t. by rewrite (mv_published _ _ _ _ _ _ Hm).
  - intros t w Ho. destruct (decide (w = v)) as [->|Hw]; [rewrite fn_lookup_insert; by apply Hvoted|].
    rewrite fn_lookup_insert_ne by done. apply (r_voted _ _ Hr). by destruct (mv_owned _ _ _ _ _ _ Hm t w Ho) as [|[? _]].
  - intros t w p c Ho Hin Hc. destruct (decide (w = v)) as [->|Hw].
    + pose proof (sys_live _ _ Hs v p t c) as Hsl. simpl in Hsl. rewrite !fn_lookup_insert in Hsl. rewrite fn_lookup_insert in Hin.
      destruct (Hsl Hin Hc) as [Hle Hv]. destruct (decide (t = current_term n')) as [Et|Hne].
      { specialize (Hv Et). rewrite (Hvoted t Ho) in Hv by done. congruence. }
      destruct (mv_owned _ _ _ _ _ _ Hm t v Ho) as [Hoa|(_&?&_)]; [|done]. rewrite app_assoc in Hin.
      apply elem_of_app in Hin as [Hin|Hin]; [by eapply (r_claims _ _ Hr)|]. destruct Hne. by eapply Hpk.
    + rewrite fn_lookup_insert_ne in Hin by done. destruct (mv_owned _ _ _ _ _ _ Hm t w Ho) as [Hoa|[? _]]; [|done].
      by eapply (r_claims _ _ Hr).
Qed.
(** ** Publishing *)
Lemma publish_refines st v a : refines st a →
  refines (mkSystem (<[v := retained (live st v)]> (live st)) (<[v := saved (live st v)]> (disk st)) (outbox st) (net st))
    (with_publish a v).
Proof.
  intros Hr. pose proof (r_spec _ _ Hr) as Hok. set (a' := with_publish a v).
  assert (∀ t j, chosen quorum a t j → chosen quorum a' t j) as Hch by done.
  assert (∀ w (P : RaftNode → Prop), P (live st w) → (w = v → P (retained (live st v))) →
    P ((<[v := retained (live st v)]> (live st)) w)) as Hlive.
  { intros w P H1 H2. destruct (decide (w = v)) as [->|]; [rewrite fn_lookup_insert; auto|by rewrite fn_lookup_insert_ne]. }
  split; simpl.
  - apply step_publish_ok; apply Hr.
  - apply (spec_step_ok meet single a); [done|]. apply spec_publish.
  - intros w. apply Hlive; [apply Hr|intros ->; apply (r_live _ _ Hr v)].
  - intros w. apply Hlive; [apply Hr|intros ->; apply (r_full _ _ Hr v)].
  - intros w. assert (store_ok (sight a' w) (live st w) (sh_log (sp_live a w))) as Hst.
    { apply (store_ok_mono (sight a w)); [intros t; apply publish_sight|apply Hr]. }
    apply Hlive; [done|by intros ->].
  - intros w. destruct (decide (w = v)) as [->|Hw].
    + exists (live st v). split; simpl; rewrite ?fn_lookup_insert; try done.
      * apply (sys_node _ _ (r_system _ _ Hr) v).
      * apply Hr.
      * apply (store_ok_mono (sight a v)); [intros t; subst a'; by rewrite publish_published|apply Hr].
      * by rewrite (r_live _ _ Hr v).
      * by rewrite (r_live _ _ Hr v).
      * intros t Ho _. by apply (r_voted _ _ Hr).
    + destruct (r_disk _ _ Hr w) as [m [? ? ? ? ? ? Hv]]. exists m. split; simpl; rewrite ?fn_lookup_insert_ne by done; try done.
      * apply (store_ok_mono (published a)); [apply publish_mono|done].
      * intros t Ho Hs. apply Hv; [done|]. by rewrite decide_False in Hs by congruence.
  - apply Hr.
  - apply Hr.
  - intros w t Hf Ho. destruct (decide (w = v)) as [->|Hw]; [by rewrite decide_True|].
    rewrite fn_lookup_insert_ne in Hf by done. rewrite decide_False by congruence. by apply (r_flag _ _ Hr w).
  - apply Hr.
  - intros w. apply Hlive; [apply Hr|intros ->; apply (r_match _ _ Hr v)].
  - intros w p Hin. destruct (r_packs_out _ _ Hr w p Hin) as [H1 H2]. split; [|done].
    apply (packet_ok_grown a a' (sight a w)); [done|apply publish_sight|done].
  - intros p Hin. destruct (r_packs_net _ _ Hr p Hin) as [H1 H2]. split.
    + apply (packet_ok_grown a a' (published a)); [done|apply publish_mono|done].
    + intros t Ht%H2. by destruct (decide _).
  - intros t w Ho. apply Hlive; [by apply Hr|intros ->; by apply (r_voted _ _ Hr)].
  - apply Hr.
Qed.

(** ** Releasing *)
Lemma retained_same st a v : refines st a → retention_pending (live st v) = false →
  sh_term (sp_live a v) = sh_term (sp_disk a v) ∧ sh_log (sp_live a v) = sh_log (sp_disk a v).
Proof.
  intros Hr Hf. destruct (r_disk _ _ Hr v) as [m Hk]. pose proof (sys_retained _ _ (r_system _ _ Hr) v Hf) as Es.
  rewrite (ke_saved _ _ _ _ Hk) in Es. rewrite (ke_term _ _ _ _ Hk), (r_live _ _ Hr v).
  split; [exact (eq_sym (f_equal s_term Es))|]. simpl.
  apply (full_unique (sight a v) _ _ (saved m)).
  - apply Hr.
  - apply (cons_with_mono (published a)); [intros; apply published_sight|]. apply (k_disk _ _ _ (r_spec _ _ Hr)).
  - rewrite Es. apply Hr.
  - apply Hk.
  - intros H0. apply (ok_origin _ (ke_hard _ _ _ _ Hk) H0).
Qed.

Lemma release_refines st v a : refines st a → retention_pending (live st v) = false →
  refines (mkSystem (live st) (disk st) (<[v := []]> (outbox st)) (net st ++ outbox st v)) (with_release a v).
Proof.
  intros Hr Hf. pose proof (r_spec _ _ Hr) as Hok. set (a' := with_release a v).
  assert (∀ t, published a t = sight a v t) as Esight by (apply release_sight; intros t Ho; by apply (r_flag _ _ Hr v)).
  assert (∀ t j, chosen quorum a t j → chosen quorum a' t j) as Hch by (intros t j; apply release_chosen).
  assert (sp_net a' = facts (net st ++ outbox st v)) as En.
  { simpl. rewrite (r_out _ _ Hr), (r_net _ _ Hr). unfold facts. by rewrite omap_app. }
  destruct (retained_same st a v Hr Hf) as [E1 E2].
  split; simpl; try apply Hr.
  - by apply step_release_ok; [..|apply Hr].
  - apply (spec_step_ok meet single a); [done|]. apply spec_release; try done. intros t Ho. by apply (r_flag _ _ Hr v).
  - intros w. destruct (r_disk _ _ Hr w) as [m Hk]. exists m. by apply (keeps_moved st _ a a').
  - intros w. destruct (decide (w = v)) as [->|]; [by rewrite !fn_lookup_insert|rewrite !fn_lookup_insert_ne by done; apply Hr].
  - done.
  - intros w Hl x m Hm. destruct (r_match _ _ Hr w Hl x m Hm) as [?|[?|(k&Hk&?)]]; [by left|by right; left|].
    right; right. exists k. split; [|done]. simpl. rewrite elem_of_app. by left.
  - intros w p Hin. destruct (decide (w = v)) as [->|Hw]; [rewrite fn_lookup_insert in Hin; by apply elem_of_nil in Hin|].
    rewrite fn_lookup_insert_ne in Hin by done. destruct (r_packs_out _ _ Hr w p Hin) as [H1 H2]. split; [|done].
    by apply (packet_ok_grown a a' (sight a w)).
  - intros p [Hin|Hin]%elem_of_app.
    + destruct (r_packs_net _ _ Hr p Hin) as [H1 H2]. split; [|done]. by apply (packet_ok_grown a a' (published a)).
    + destruct (r_packs_out _ _ Hr v p Hin) as [H1 H2]. split.
      * apply (packet_ok_grown a a' (sight a v)); [done| |done]. intros t. change (published a' t) with (published a t). by rewrite Esight.
      * intros t Ho%H2. rewrite (r_flag _ _ Hr v t Hf Ho). eauto.
  - intros t w p c Ho Hin Hc. apply (r_claims _ _ Hr t w p c Ho); [|done].
    apply elem_of_app in Hin as [[Hin|Hin]%elem_of_app|Hin]; apply elem_of_app; [by left|right|right].
    + by rewrite (sys_source _ _ (r_system _ _ Hr) v p w t c Hin Hc).
    + destruct (decide (w = v)) as [->|Hw]; [rewrite fn_lookup_insert in Hin; by apply elem_of_nil in Hin|].
      by rewrite fn_lookup_insert_ne in Hin.
Qed.
(** ** Restarting *)
Lemma store_ok_saved view n n' F : saved n' = saved n → store_ok view n F → store_ok view n' F.
Proof.
  intros Es [H1 H2]. assert (window n' = window n) as Ew.
  { rewrite <- (bt_collect_reports (window n')), <- (bt_collect_reports (window n)). do 2 f_equal. exact (f_equal s_window Es). }
  split.
  - rewrite (f_equal s_synced_term Es : synced_term n' = synced_term n), (f_equal s_term Es : current_term n' = current_term n). done.
  - apply (slots_ok_same view n); [|done]. by rewrite Ew, (f_equal s_synced_term Es : synced_term n' = synced_term n).
Qed.
Lemma packet_ok_crash a v h' view view' m : (∀ u, view u = view' u) → (∀ u, sp_owner a u = Some v → view u = published a u) →
  packet_ok a view m → packet_ok (with_crash a v h') view' m.
Proof.
  intros Hv Hp. assert (∀ t, view t `prefix_of` view' t) as Hpre by (intros t; by rewrite Hv).
  destruct m; simpl; try done; rewrite <- Hv.
  - intros [??]. split; [by eapply carried_append_mono|by apply (crash_certified a v h' view)].
  - intros [??]. split; [by eapply carried_snapshot_mono|by apply (crash_certified a v h' view)].
Qed.

Lemma crash_refines st v n' a : refines st a → restore (disk st v) = Ok n' →
  refines (mkSystem (<[v := n']> (live st)) (disk st) (<[v := []]> (outbox st)) (net st))
    (with_crash a v (host_of n' (sh_log (sp_disk a v)))) ∧
  spec_step voters quorum a (with_crash a v (host_of n' (sh_log (sp_disk a v)))).
Proof.
  intros Hr Hre. pose proof (r_spec _ _ Hr) as Hok. destruct (r_disk _ _ Hr v) as [m Hk].
  pose proof Hre as Hn. rewrite (ke_saved _ _ _ _ Hk) in Hn.
  destruct (restored_from True m n' (ke_hard _ _ _ _ Hk) Hn) as (Esv&_&Erole&_&_&Eflag).
  set (h' := host_of n' (sh_log (sp_disk a v))). set (a' := with_crash a v h').
  assert (current_term n' = current_term m ∧ commit_index n' = commit_index m ∧ voted_for n' = voted_for m) as (Et&Ec&Ev)
    by (split_and!; [exact (f_equal s_term Esv)|exact (f_equal s_commit_index Esv)|exact (f_equal s_voted_for Esv)]).
  assert (spec_step voters quorum a a') as Hstep.
  { apply spec_crash; simpl; rewrite ?Et, ?Ec; [symmetry; apply Hk|done|symmetry; apply Hk|done]. }
  split; [|done].
  split; simpl.
  - by apply step_crash_ok; [..|apply Hr].
  - by apply (spec_step_ok meet single a).
  - intros w. destruct (decide (w = v)) as [->|Hw]; [by rewrite !fn_lookup_insert|rewrite !fn_lookup_insert_ne by done; apply Hr].
  - intros w. destruct (decide (w = v)) as [->|Hw]; [rewrite !fn_lookup_insert|rewrite !fn_lookup_insert_ne by done; apply Hr].
    rewrite Esv. apply Hk.
  - intros w. destruct (decide (w = v)) as [->|Hw]; [rewrite !fn_lookup_insert|rewrite !fn_lookup_insert_ne by done].
    + apply (store_ok_saved _ m); [done|]. apply (store_ok_mono (published a)); [|apply Hk]. intros t.
      subst a'. by rewrite crash_sight_own.
    + apply (store_ok_mono (sight a w)); [|apply Hr]. intros t. subst a'. by rewrite crash_sight.
  - intros w. destruct (r_disk _ _ Hr w) as [k Hkw]. exists k. apply (keeps_moved st _ a a'); try done.
    + intros t. subst a'. by rewrite crash_published.
    + by intros t [? _]%crash_owner.
  - intros w. destruct (decide (w = v)) as [->|]; [by rewrite !fn_lookup_insert|rewrite !fn_lookup_insert_ne by done; apply Hr].
  - apply Hr.
  - intros w t Hf Ho%(crash_owner a v h'). destruct (decide (w = v)) as [->|Hw]; [rewrite fn_lookup_insert in Hf; congruence|].
    rewrite fn_lookup_insert_ne in Hf by done. destruct Ho as [Ho _]. rewrite decide_False by congruence. by apply (r_flag _ _ Hr w).
  - intros t. pose proof (prefix_length _ _ (crash_lead a v h' t)) as Hl. pose proof (r_range _ _ Hr t). simpl in Hl. lia.
  - intros w. destruct (decide (w = v)) as [->|Hw]; [rewrite !fn_lookup_insert; congruence|rewrite !fn_lookup_insert_ne by done; apply Hr].
  - intros w p Hin. destruct (decide (w = v)) as [->|Hw]; [rewrite fn_lookup_insert in Hin; by apply elem_of_nil in Hin|].
    rewrite fn_lookup_insert_ne in Hin by done. destruct (r_packs_out _ _ Hr w p Hin) as [H1 H2]. split.
    + apply (packet_ok_crash a v h' (sight a w)); [intros t; subst a'; by rewrite crash_sight| |done].
      intros u Hu. unfold sight. by rewrite decide_False by congruence.
    + intros t Ho%H2. apply (crash_owner a v h'). done.
  - intros p Hin. destruct (r_packs_net _ _ Hr p Hin) as [H1 H2]. split; [|done].
    apply (packet_ok_crash a v h' (published a)); try done. intros t. subst a'. by rewrite crash_published.
  - intros t w Ho%(crash_owner a v h'). destruct Ho as [Ho Hp]. destruct (decide (w = v)) as [->|Hw].
    + rewrite fn_lookup_insert, Et, Ev. intros E. apply (ke_voted _ _ _ _ Hk t); auto.
    + rewrite fn_lookup_insert_ne by done. by apply (r_voted _ _ Hr).
  - intros t w p c Ho%(crash_owner a v h') Hin Hc. destruct Ho as [Ho _]. apply (r_claims _ _ Hr t w p c Ho); [|done].
    apply elem_of_app in Hin as [Hin|Hin]; apply elem_of_app; [by left|right].
    destruct (decide (w = v)) as [->|Hw]; [rewrite fn_lookup_insert in Hin; by apply elem_of_nil in Hin|].
    by rewrite fn_lookup_insert_ne in Hin.
Qed.
End refine.
