(* ===== verification/RaftAgree.v ===== *)
(** * Agreement of a Raft group

    Every operation of a node of [crates/cluster/src/raft.rs] is a step of the
    replicated log ([RaftSpec]) when the append acknowledgements it sends are
    covered by the message they answer; so the entries any two nodes of a
    group have committed agree. *)

From S2P Require Import Prelude RaftState RaftLog RaftElect RaftReplicate RaftFast RaftAdmin RaftInv RaftAppend RaftOps RaftSaved RaftQuorum RaftSystem RaftSpec RaftComplete RaftFull RaftWin RaftFollow RaftRefine.
From stdpp Require Import functions.
#[local] Open Scope N_scope.

(** ** Logs in packets *)

(** What a leader's message says of its log. *)
Definition says_log (n : RaftNode) (F : list LogEntry) (m : Message) : Prop :=
  match m with
  | MAppend m => role n = Leader ∧ ae_term m = current_term n ∧ ae_leader_commit m = commit_index n
      ∧ ∀ view, view (current_term n) = F → carried_append view m
  | MSnapshot m => role n = Leader ∧ is_term m = current_term n ∧ is_last_included_index m ≤ commit_index n
      ∧ ∀ view, view (current_term n) = F → carried_snapshot view m
  | _ => True
  end.

Lemma segment_batch F n from budget : full F (saved n) → snapshot_index n < from →
  segment F (N.to_nat (from - 1)) (batch_from n from budget).
Proof.
  intros (_&Hd&_) Hf j e. cbn in Hd. unfold batch_from, owed_from, get_from. split_if; simpl; [|done].
  unfold dropN. intros He. apply lookup_take_Some in He as [He _]. rewrite lookup_drop, <- Hd, lookup_drop in He.
  rewrite <- He. f_equal. lia.
Qed.

Section sent.
Context {cfg_ok : VoterConfig → Prop}.

Lemma replicate_says n follower budget m F : (replicate_to n follower budget).2 = Some m →
  hard_ok True cfg_ok (replicate_to n follower budget).1 → full F (saved (replicate_to n follower budget).1) →
  says_log (replicate_to n follower budget).1 F (MAppend m).
Proof.
  unfold replicate_to. set (n1 := if recovering n then continue_recovery n else n).
  clearbody n1. destruct (is_leader n1) eqn:El; cbn [negb]; [|done].
  set (from := if negb _ && _ && _ then _ else _). split_if; [done|]. cbn [fst snd].
  match goal with |- _ → hard_ok _ _ ?x → _ => set (n2 := x) end. intros Hm Hh HF. apply (inj Some) in Hm as <-.
  assert (hard n2 = hard n1 ∧ role n2 = role n1) as [Eh Er].
  { clear -n2. unfold n2. by repeat split_if. }
  assert (0 < from) as Hfrom.
  { subst from. split_if; [|lia]. unfold sat_add, u64_max. lia. }
  clearbody n2 from. apply bool_decide_eq_true in El.
  assert (snapshot_index n2 = snapshot_index n1) as Esi by (unfold snapshot_index; by rewrite Eh).
  assert (∀ i, entry_term n2 i = entry_term n1 i) as Ee.
  { intros i. apply entry_term_frame. unfold log, snapshot_index, snapshot_term. by rewrite Eh. }
  assert (batch_from n2 from budget = batch_from n1 from budget) as Eb.
  { unfold batch_from, owed_from, log, snapshot_index. by rewrite Eh. }
  bool_to_prop. unfold sat_sub in *. split_and!; [congruence|done|done|]. intros view Hv Hpos. cbn in *.
  assert (0 < from - 1 → ∃ e, F !! (N.to_nat (from - 1) - 1)%nat = Some e ∧ le_term e = default 0 (entry_term n1 (from - 1))) as Hp.
  { intros H0. rewrite (proj2 (N.eqb_neq (from - 1) 0)) in Hpos by lia. unfold position_agrees in Hpos.
    rewrite (proj2 (N.eqb_neq (from - 1) 0)) in Hpos by lia. rewrite <- Ee in *.
    destruct (entry_term n2 (from - 1)) as [t|] eqn:Et; [|done].
    destruct (full_entry_term_some F n2 _ t Hh HF Et) as (_&_&e&He&Hte). eauto. }
  rewrite <- Eb, Hv. split_and!.
  - apply segment_batch; [done|lia].
  - destruct (decide (0 < from - 1)) as [H0|]; [|lia]. destruct (Hp H0) as (e&He%lookup_lt_Some&_). lia.
  - intros H0. rewrite (proj2 (N.eqb_neq (from - 1) 0)) by lia. by apply Hp.
Qed.

Lemma snapshot_says n follower m F : install_snapshot_for n follower = Some m → hard_ok True cfg_ok n → full F (saved n) →
  says_log n F (MSnapshot m).
Proof.
  intros Hm Hh (_&_&Hs). unfold install_snapshot_for in Hm. destruct (is_leader n) eqn:El; [|done]. simpl in Hm. split_if; [done|].
  split_if; [done|]. injection Hm as <-. apply bool_decide_eq_true in El. split_and!; try done.
  - cbn. apply Hh.
  - intros view Hv H0. cbn in *. rewrite Hv. by apply Hs.
Qed.

Lemma handle_says n op n' sent p F : handle n op = (n', sent) → hard_ok True cfg_ok n' → full F (saved n') → p ∈ sent →
  says_log n' F p.2.
Proof.
  intros Hh Hok HF Hp. destruct (handle_cases _ _ _ _ _ Hh Hp) as [Hi|[(m&->&->)|[(f&b&m&->&Hm&->)|(f&m&->&Hm&->)]]].
  - by destruct p as [to []].
  - done.
  - by apply replicate_says.
  - by apply (snapshot_says n f).
Qed.
End sent.

(** ** Covered acknowledgements *)

(** A successful reply to an append tells of no more than the message and what was committed cover, unless the
    follower has synchronized with the term. *)
Definition covered (n : RaftNode) (m : AppendEntries) : Prop :=
  let '(n', reply) := on_append_entries n m in
  ar_success reply = true →
  ar_match_index reply ≤ N.max (commit_index n) (ae_prev_log_index m + len (ae_entries m)) ∨ synced_term n' = ae_term m.

Definition enabled_covered (st : System) (v : HostId) (op : Op) : Prop :=
  match op with
  | Receive message =>
      (v, message) ∈ net st ∧ match message with MAppend m => covered (live st v) m | _ => True end
  | BeginMembershipChange _ | CompleteMembershipChange | PromoteCaughtUp _ => False
  | _ => True
  end.

Inductive covered_step : System → System → Prop :=
| covered_op st v op n' sent : enabled_covered st v op → handle (live st v) op = (n', sent) →
    covered_step st (mkSystem (<[v := n']> (live st)) (disk st) (<[v := outbox st v ++ sent]> (outbox st)) (net st))
| covered_publish st v :
    covered_step st (mkSystem (<[v := retained (live st v)]> (live st)) (<[v := saved (live st v)]> (disk st))
                       (outbox st) (net st))
| covered_release st v : retention_pending (live st v) = false →
    covered_step st (mkSystem (live st) (disk st) (<[v := []]> (outbox st)) (net st ++ outbox st v))
| covered_crash st v n' : restore (disk st v) = Ok n' →
    covered_step st (mkSystem (<[v := n']> (live st)) (disk st) (<[v := []]> (outbox st)) (net st)).

Definition covered_reachable (voters : list HostId) : System → Prop := rtc covered_step (system_new voters).

(** ** Facts in packets *)
Lemma facts_cons p l : facts (p :: l) = from_option (λ f, f :: facts l) (facts l) (fact_of p).
Proof. unfold facts. simpl. by destruct (fact_of p). Qed.
Lemma facts_none l : (∀ p, p ∈ l → fact_of p = None) → facts l = [].
Proof. intros H. induction l as [|p l IH]; [done|]. rewrite facts_cons, H by set_solver. apply IH. set_solver. Qed.
Lemma facts_to_each {X} hosts (f : X → Message) l : (∀ to x, fact_of (to, f x) = None) → facts (to_each hosts f l) = [].
Proof.
  intros H. apply facts_none. unfold to_each. revert l. induction hosts as [|h hosts IH]; intros [|x l]; simpl; try set_solver.
Qed.
Lemma facts_broadcast hosts (m : Message) : (∀ to, fact_of (to, m) = None) → facts (map (λ host, (host, m)) hosts) = [].
Proof. intros H. apply facts_none. intros p (h&->&_)%list_elem_of_fmap. apply H. Qed.

Lemma own_facts n op : own_effect op = true → facts (handle n op).2 = [].
Proof.
  destruct op as [| | | | | | | |message| | | | | | | | | | | | | | | | | | |]; try done; intros Ho; unfold handle.
  - destruct message as [m|m|m|m|m|m|m|m|m|m|m]; try done; unfold receive.
    + by destruct (on_pre_vote n m).
    + destruct (on_fast_propose n m) as [x [r|]]; simpl; [|done]. by destruct (leader x).
  - destruct (propose_fast n command) as [x [r|]]; simpl; [|done]. by apply facts_broadcast.
  - destruct (fill_hole n index); simpl; [|done]. by apply facts_broadcast.
  - by destruct (take_timeout_now n) as [x [r|]].
  - by destruct (replicate_to n follower budget) as [x [r|]].
  - simpl. by destruct (install_snapshot_for n follower).
Qed.

(** Requests of one candidacy. *)
Lemma facts_requests hosts (r : RequestVote) {X} (xs : list X) : ∃ k,
  facts (to_each hosts MRequestVote (map (λ _, r) xs))
  = replicate k (Request (rv_candidate r) (rv_term r) (rv_last_log_term r) (N.to_nat (rv_last_log_index r))).
Proof.
  revert xs. induction hosts as [|h hosts IH]; intros [|x xs]; try (by exists 0%nat).
  destruct (IH xs) as [k Hk]. exists (S k). unfold to_each in *. cbn [zip_with map]. rewrite facts_cons, Hk. done.
Qed.

(** ** Steps of one operation *)
Section op.
Context (voters : list HostId) (voters_valid : valid_set voters = true).
#[local] Abbreviation cfg := (group_cfg voters).
#[local] Abbreviation quorum := (group_quorum voters).
#[local] Abbreviation spec_ok := (spec_ok voters quorum).
#[local] Abbreviation certified := (certified quorum).
#[local] Abbreviation meet := (group_quorum_meet voters).
#[local] Abbreviation single := (group_quorum_single voters voters_valid).
#[local] Abbreviation refines := (refines voters).
#[local] Abbreviation steps := (rtc (spec_step voters quorum)).

Lemma certified_le s view t l c c' : (c' ≤ c)%nat → certified s view t l c → certified s view t l c'.
Proof.
  intros Hle [->|(t0&j&?&?&?&?&?&?)]; [left; lia|]. right. exists t0, j. split_and!; try done; [lia..|].
  etransitivity; [by apply take_mono|done].
Qed.
Lemma steps_ok a b : spec_ok a → steps a b → spec_ok b.
Proof. intros Ha Hs. induction Hs as [|x y z Hxy _ IH]; [done|]. apply IH. by apply (spec_step_ok meet single x). Qed.

Context (st : System) (a : Spec) (v : HostId) (op : Op) (n' : RaftNode) (sent : list Packet).
Context (Hr : refines st a) (He : enabled st v op) (Ha : agreed st v op) (Hh : handle (live st v) op = (n', sent)).
#[local] Abbreviation n := (live st v).
#[local] Abbreviation F := (sh_log (sp_live a v)).
#[local] Abbreviation st' :=
  (mkSystem (<[v := n']> (live st)) (disk st) (<[v := outbox st v ++ sent]> (outbox st)) (net st)).
#[local] Abbreviation node_ok := (node_ok True cfg (granted_by (net st)) quorum).

Lemma op_moves : node_ok n' ∧ progresses True n n' ∧ tracks n n'.
Proof.
  pose proof (moves_op (group_quorum_ok voters) n op (enabled_op_ok voters st v op (r_system _ _ _ Hr) He (λ _, Ha))
    (sys_node _ _ (r_system _ _ _ Hr) v)) as Hm. by rewrite Hh in Hm.
Qed.
Lemma op_id : id n = v ∧ id n' = v.
Proof.
  destruct op_moves as (_&Hp&_). rewrite (pg_id _ _ Hp). split; apply (sys_id _ _ (r_system _ _ _ Hr)).
Qed.
Lemma live_host : sp_live a v = host_of n F.
Proof. apply Hr. Qed.

(** A host that moved as the operation did. *)
Lemma op_closes a' F' : moved voters a a' v n' F' sent → full F' (saved n') → store_ok (sight a' v) n' F' →
  (role n' = Leader → matches (known a v (current_term n')) n') → refines st' a'.
Proof.
  intros Hm HF Hst Hma. destruct op_moves as (Hok&Hp&Ht). pose proof (mv_ok _ _ _ _ _ _ _ Hm) as Hok'.
  assert (role n' = Leader → sp_owner a' (current_term n') = Some v ∧ sight a' v (current_term n') = F') as Hl.
  { intros Hl. pose proof (k_leader _ _ _ Hok' v) as Ho. rewrite (mv_live _ _ _ _ _ _ _ Hm) in Ho. specialize (Ho Hl).
    split; [done|]. rewrite sight_own by done. pose proof (k_same _ _ _ Hok' _ _ Ho) as Es.
    rewrite (mv_live _ _ _ _ _ _ _ Hm) in Es. symmetry. by apply Es. }
  assert (certified a' (sight a' v) (current_term n') F' (N.to_nat (commit_index n'))) as Hc.
  { pose proof (k_commit _ _ _ Hok' v) as Hc. by rewrite (mv_live _ _ _ _ _ _ _ Hm) in Hc. }
  apply (op_refines voters st v n' sent a a' F'); try done.
  - eapply step_op_ok; [done|apply Hr|done|by intros _|done].
  - intros p Hin. split.
    + pose proof (handle_says n op n' sent p F' Hh (ok_hard _ Hok) HF Hin) as Hs. destruct p as [to m]. simpl in *.
      destruct m; simpl in *; try done; destruct Hs as (Hlead&Et&Ec&Hs); destruct (Hl Hlead) as [Ho Es]; rewrite Et.
      * split; [|by intros ? [= <-]]. split; [by apply Hs|]. by rewrite Es, Ec.
      * split; [|by intros ? [= <-]]. split; [by apply Hs|]. rewrite Es. eapply certified_le; [|exact Hc]. lia.
    + intros x t c Hcl. destruct (handle_sent voters voters_valid (net st) n op n' sent p Hh Hok Hin) as [_ Hs].
      by destruct (Hs _ _ _ Hcl) as (_&->&_).
Qed.
(** *** Steps that leave the log *)
Lemma slots_store : slots_ok (sight a v) n.
Proof. apply (r_store _ _ _ Hr v). Qed.

Lemma host_closes h fs : spec_step voters quorum a (with_host a v h fs) → h = host_of n' F → fs = facts sent →
  calm n n' → steps a (with_host a v h fs) ∧ refines st' (with_host a v h fs).
Proof.
  intros Hstep -> -> Hc. split; [by apply rtc_once|]. pose proof (spec_step_ok meet single _ _ (r_spec _ _ _ Hr) Hstep) as Hok'.
  apply (op_closes _ F); [by apply (moved_host voters a a)| | |].
  - apply (ca_full _ _ Hc), Hr.
  - apply (calm_store (cfg_ok := cfg) _ n n'); [apply (sys_node _ _ (r_system _ _ _ Hr) v)|done|]. apply (r_store _ _ _ Hr v).
  - intros Hl. destruct (ca_role _ _ Hc (or_intror Hl)) as [Er ->]. apply (ca_match _ _ Hc Hl); [by right; left|].
    apply (r_match _ _ _ Hr). congruence.
Qed.

Lemma calm_kept : calm n n' → role_kept (sp_live a v) (host_of n' F) ∧ sh_commit (host_of n' F) = sh_commit (sp_live a v).
Proof.
  intros Hc. rewrite live_host. pose proof (ca_kept _ _ Hc) as [= _ Ec _]. split; [split; [apply Hc|]|simpl; by rewrite Ec].
  simpl. intros r Hrole Er. rewrite <- Er in *. destruct (ca_role _ _ Hc Hrole). split; congruence.
Qed.

Lemma calm_step : calm n n' → facts sent = [] → ∃ a', steps a a' ∧ refines st' a'.
Proof.
  intros Hc Hf. destruct (calm_kept Hc) as [Hk Ec]. eexists. apply (host_closes (host_of n' F) []); try done. by apply spec_idle.
Qed.

Lemma grant_step m : calm n n' → op = Receive (MRequestVote m) → facts sent = [Grant v (current_term n') (rv_candidate m)] →
  rv_term m = current_term n' → candidate_log_is_current n (rv_last_log_index m) (rv_last_log_term m) = true →
  ∃ a', steps a a' ∧ refines st' a'.
Proof.
  intros Hc Eop Hf Et Hl. pose proof He as He'. rewrite Eop in He'. destruct (calm_kept Hc) as [Hk Ec]. eexists. apply (host_closes (host_of n' F) (facts sent)); try done.
  rewrite Hf. apply (spec_grant voters quorum a v (host_of n' F) (rv_candidate m) (rv_last_log_term m) (N.to_nat (rv_last_log_index m))); try done.
  - simpl. rewrite <- Et, (r_net _ _ _ Hr). apply elem_of_facts. exists (v, MRequestVote m). split; [|done]. apply He'.
  - pose proof (sys_node _ _ (r_system _ _ _ Hr) v) as Hok. unfold candidate_log_is_current in Hl.
    rewrite (full_last_term F n (ok_hard _ Hok) (r_full _ _ _ Hr v)) in Hl.
    pose proof (full_last_index F n (ok_hard _ Hok) (r_full _ _ _ Hr v)) as Hi. unfold not_behind. simpl.
    apply orb_true_iff in Hl as [Hl|Hl]; [left; by bool_to_prop|right]. apply andb_true_iff in Hl as [??]. bool_to_prop. split; [done|lia].
Qed.

(** *** Steps of a leader *)
Lemma lead_commit es : full (F ++ es) (saved n') → drives voters (known a v (current_term n)) n n' → role n = Leader →
  N.to_nat (commit_index n') = N.to_nat (commit_index n)
  ∨ ∃ j q, N.to_nat (commit_index n') = S j ∧ fresh_at (F ++ es) (current_term n) j ∧ quorum q
      ∧ ∀ w, w ∈ q → w = v ∨ acked_net a w (current_term n) j.
Proof.
  intros HF Hd Hl. destruct op_moves as (Hok&_). destruct op_id as [Eid _].
  destruct (dr_commit _ _ _ _ Hd) as [->|(Hlt&Ht&Hb)]; [by left|right].
  destruct (Hb (r_match _ _ _ Hr v Hl)) as (q&Hq&Hw).
  destruct (full_entry_term_some _ n' _ _ (ok_hard _ Hok) HF Ht) as (_&_&e&He0&Hte).
  exists (N.to_nat (commit_index n') - 1)%nat, q. split_and!; [lia|by exists e|done|].
  intros w [->|(m&[->|[->|(k&Hk&Hm)]]&Hle)]%Hw; [by left|by left|lia|]. right. exists k. split; [done|lia].
Qed.

Lemma lead_step : role n = Leader → drives voters (known a v (current_term n)) n n' → facts sent = [] →
  ∃ a', steps a a' ∧ refines st' a'.
Proof.
  intros Hl Hd Hf. pose proof (dr_kept _ _ _ _ Hd) as [= _ Et Es]. destruct (dr_log _ _ _ _ Hd) as (es&El&Hes).
  assert (full (F ++ es) (saved n')) as HF by (apply (full_app F n); [apply Hr|done|apply Hd]).
  pose proof (sys_node _ _ (r_system _ _ _ Hr) v) as Hok. pose proof (r_spec _ _ _ Hr) as Hsp.
  assert (sp_owner a (current_term n) = Some v) as Ho.
  { pose proof (k_leader _ _ _ Hsp v) as Ho. rewrite live_host in Ho. by apply Ho. }
  assert (F = sp_lead a (current_term n)) as EF.
  { pose proof (k_same _ _ _ Hsp _ _ Ho) as Es'. apply Es'. by rewrite live_host. }
  set (a' := with_lead (with_host a v (host_of n' (F ++ es)) []) v (current_term n') (F ++ es)).
  assert (spec_step voters quorum a a') as Hstep.
  { apply (spec_lead voters quorum a v (host_of n' (F ++ es)) es).
    - by rewrite live_host.
    - by rewrite live_host.
    - simpl. destruct (dr_role _ _ _ _ Hd) as [->| ->]; congruence.
    - done.
    - simpl. by rewrite Et.
    - simpl. rewrite Et. apply (ok_positive _ (ok_lead _ Hok)). by right.
    - rewrite (f_equal sh_commit live_host). simpl. rewrite Et. by apply lead_commit. }
  exists a'. split; [by apply rtc_once|]. pose proof (spec_step_ok meet single _ _ Hsp Hstep) as Hok'.
  assert (moved voters a a' v n' (F ++ es) sent) as Hm.
  { apply (moved_lead voters a a); try done; rewrite ?Et; [by rewrite live_host|by left|]. rewrite <- EF. by apply prefix_app_r. }
  apply (op_closes a' (F ++ es)); try done.
  - split.
    + intros _. rewrite sight_own; simpl; by rewrite fn_lookup_insert.
    + apply (slots_ok_shrinks _ n n'); [apply Hd|by rewrite Es|]. intros i s Hi Hfa. destruct (slots_store i s Hi Hfa) as (?&?&?).
      split_and!; try done. eapply prefix_lookup_Some; [done|apply Hm].
  - intros _. rewrite Et. apply (dr_match _ _ _ _ Hd). by apply (r_match _ _ _ Hr).
Qed.
Lemma own_step : own_effect op = true → ∃ a', steps a a' ∧ refines st' a'.
Proof.
  intros Ho. assert (facts sent = []) as Hf by (pose proof (own_facts n op Ho) as Hf; by rewrite Hh in Hf).
  pose proof (sys_node _ _ (r_system _ _ _ Hr) v) as Hok. destruct op_id as [Eid _].
  assert (effect voters (known a v (current_term n)) n (handle n op).1) as Hx.
  { apply (effect_own voters (granted := granted_by (net st))); try done; [by right; left|by left|].
    destruct op as [| | | | | | | |message| | | | | | | | | | | | | | | | | | |]; try done.
    assert (∀ f, fact_of (v, message) = Some f → f ∈ sp_net a) as Hn.
    { intros f Hfo. rewrite (r_net _ _ _ Hr). apply elem_of_facts. exists (v, message). split; [apply He|done]. }
    destruct message as [m|m|m|m|m|m|m|m|m|m|m]; try done; simpl.
    - intros Hs <-. right; right. eexists. split; [apply Hn; simpl; by rewrite Hs|done].
    - intros Hs <-. right; right. eexists. split; [apply Hn; simpl; by rewrite (proj2 (N.ltb_lt _ _) Hs)|done]. }
  rewrite Hh in Hx. destruct Hx as [Hc|[Hl Hd]]; [by apply calm_step|by apply lead_step].
Qed.
(** *** Winning *)

(** A term a quorum votes a host into has no other owner. *)
Lemma owner_free t q : quorum q → (∀ w, w ∈ q → w = v ∨ granted_by (net st) w v t) →
  (∀ u, Grant v t u ∈ sp_net a → u = v) → sp_owner a t ≠ Some v → sp_owner a t = None.
Proof.
  intros Hq Hw Hown Hne. destruct (sp_owner a t) as [u|] eqn:Eu; [|done]. exfalso.
  assert (u ≠ v) as Huv by congruence. destruct (k_own _ _ _ (r_spec _ _ _ Hr) t u Eu) as (_&_&_&q'&Hq'&Hg).
  destruct (meet q q' Hq Hq') as (w&Hwq&Hwq'). pose proof (r_system _ _ _ Hr) as Hs.
  assert (∀ x c, Grant x t c ∈ sp_net a → ∃ p, p ∈ net st ∧ claim_of p = Some (x, t, c)) as Hcl.
  { intros x c Hx. rewrite (r_net _ _ _ Hr) in Hx. by apply grant_claimed. }
  assert (∀ x, granted_by (net st) x v t → ∃ p, p ∈ net st ∧ claim_of p = Some (x, t, v)) as Hcv.
  { intros x Hx%granted_fact%grant_claimed. done. }
  destruct (Hw w Hwq) as [Ev|(p&Hp&Hc)%Hcv], (Hg w Hwq') as [Ew|Hgr]; [congruence| | |].
  - apply Huv, Hown. by rewrite <- Ev.
  - subst w. apply Huv. symmetry. eapply (r_claims _ _ _ Hr t u p v Eu); [apply elem_of_app; by left|done].
  - destruct (Hcl _ _ Hgr) as (p2&Hp2&Hc2). apply Huv. eapply (sys_once _ _ Hs w p2 p); try done; apply elem_of_app; by left.
Qed.

Lemma win_step b m : steps a b → same_but v a b → sp_live b v = host_of m F →
  full F (saved m) → slots_ok (sight a v) m → synced_term m ≤ current_term m → id m = v → facts sent = [] →
  (∀ u, Grant v (current_term m) u ∈ sp_net a → u = v) →
  won voters (granted := granted_by (net st)) m n' → ∃ a', steps a a' ∧ refines st' a'.
Proof.
  intros Hab Eb Hb HFm Hsl Hsy Eid Hf Hgr Hwon. pose proof Eb as ([= _ En Eo El _]&_&_).
  destruct op_moves as (Hok'&_). pose proof (steps_ok _ _ (r_spec _ _ _ Hr) Hab) as Hokb.
  pose proof (wo_kept _ _ _ Hwon) as [= _ Et Ec Esi Est]. destruct (wo_log _ _ _ Hwon) as (es&Elog&Hes).
  destruct (wo_quorum _ _ _ Hwon) as (q&Hq&Hw). rewrite Eid in Hw.
  assert (full (F ++ es) (saved n')) as HF by (apply (full_app F m); [done|done|congruence]).
  assert (sp_owner a (current_term m) = None) as Hnone.
  { apply (owner_free _ q); try done. rewrite <- Eo. intros Ho. destruct (k_own _ _ _ Hokb _ _ Ho) as (_&_&Hc&_).
    rewrite Hb in Hc. apply Hc; [apply Hwon|done]. }
  set (a' := with_lead (with_host b v (host_of n' (F ++ es)) []) v (current_term n') (F ++ es)).
  assert (spec_step voters quorum b a') as Hstep.
  { apply (spec_win voters quorum b v (host_of n' (F ++ es)) es q); rewrite ?Hb; simpl; rewrite ?Et, ?Ec, ?Eo, ?En; try done; try apply Hwon.
    - intros w [->|Hx%granted_fact]%Hw; [by left|]. right. by rewrite (r_net _ _ _ Hr).
    - rewrite <- Et. apply (ok_positive _ (ok_lead _ Hok')). right. apply Hwon. }
  exists a'. split; [by eapply rtc_r|]. pose proof (spec_step_ok meet single _ _ Hokb Hstep) as Hoka'.
  assert (moved voters a a' v n' (F ++ es) sent) as Hm.
  { apply (moved_lead voters a b); try done; rewrite ?Et; [by rewrite Hb|right; split_and!; [done|apply Hwon..]|].
    destruct (k_none _ _ _ (r_spec _ _ _ Hr) _ Hnone) as [-> _]. apply prefix_nil. }
  apply (op_closes a' (F ++ es)); try done.
  - split.
    + intros _. rewrite sight_own; simpl; by rewrite fn_lookup_insert.
    + apply (slots_ok_shrinks _ m n'); [apply Hwon|rewrite (wo_synced _ _ _ Hwon); lia|].
      intros i s Hi Hfa. destruct (Hsl i s Hi Hfa) as (?&?&?).
      split_and!; try done. eapply prefix_lookup_Some; [done|apply Hm].
  - intros _ w x Hx. right; left. by apply (wo_match _ _ _ Hwon w).
Qed.

Lemma vote_step m : op = Receive (MVoteReply m) → ∃ a', steps a a' ∧ refines st' a'.
Proof.
  intros Eop. pose proof Hh as Hh'. rewrite Eop in Hh'. injection Hh' as En Es. pose proof (r_system _ _ _ Hr) as Hs.
  pose proof (sys_node _ _ Hs v) as Hok. destruct op_id as [Eid _].
  pose proof (enabled_op_ok voters st v op Hs He (λ _, Ha)) as Hop. rewrite Eop in Hop. destruct Hop as [Hc Hg].
  destruct (vote_reply_becomes voters (granted := granted_by (net st)) n m Hok Hc Hg) as [Hca|Hwon]; rewrite En in *.
  - apply calm_step; [done|]. by rewrite <- Es.
  - apply (win_step a n); try done; [apply live_host|apply Hr|apply slots_store|apply Hok|by rewrite <- Es|].
    intros u Hu. rewrite (r_net _ _ _ Hr) in Hu. apply grant_claimed in Hu as (p&Hp&Hcl).
    destruct (sys_live _ _ Hs v p (current_term n) u) as [_ Hv]; [apply elem_of_app; by left|done|].
    specialize (Hv eq_refl). rewrite (ok_self _ (ok_elect _ Hok)) in Hv by (left; apply Hwon). congruence.
Qed.
(** *** Campaigning *)
Lemma campaign_host m k (h := host_of m F) : campaigns voters n m →
  spec_step voters quorum a (with_host a v h (replicate k (Request v (sh_term h) (last_term 0 (sh_log h)) (length (sh_log h))))).
Proof.
  intros Hc. destruct op_id as [Eid _]. pose proof (cp_kept _ _ _ Hc) as [= _ Ec _ _ _].
  apply spec_campaign; try done.
  - rewrite <- Eid. apply Hc.
  - rewrite live_host. simpl. rewrite (cp_term _ _ _ Hc). lia.
  - apply Hc.
  - rewrite (f_equal sh_commit live_host). simpl. by rewrite Ec.
Qed.

Lemma campaign_store m : campaigns voters n m → full F (saved m) ∧ store_ok (sight a v) m F ∧ id m = v.
Proof.
  intros Hc. destruct op_id as [Eid _]. pose proof (cp_kept _ _ _ Hc) as [= Ei _ Es Ew _].
  pose proof (sys_node _ _ (r_system _ _ _ Hr) v) as Hok. split_and!; [apply (cp_full _ _ _ Hc), Hr| |congruence].
  apply (store_ok_shrinks _ n); try done; [by intros i s _; rewrite Ew|rewrite (cp_term _ _ _ Hc); lia|apply Hok|apply (r_store _ _ _ Hr v)].
Qed.

Lemma elect_step l : elects voters (granted := granted_by (net st)) n n' l →
  facts sent = [] ∨ (∃ hosts, sent = to_each hosts MRequestVote l) → ∃ a', steps a a' ∧ refines st' a'.
Proof.
  intros Hel Hf. destruct op_moves as (Hok'&_&_). pose proof (r_system _ _ _ Hr) as Hs. pose proof (r_spec _ _ _ Hr) as Hsp.
  assert (l = [] → facts sent = []) as Hnil.
  { intros ->. destruct Hf as [|[hosts ->]]; [done|]. by destruct hosts. }
  inversion Hel as [n1 Hca|m Hc|m n1 Hc Hx]; subst.
  - apply calm_step; auto.
  - destruct (campaign_store n' Hc) as (HF&Hst&Ei).
    assert (∃ k, facts sent = replicate k (Request v (sh_term (host_of n' F)) (last_term 0 F) (length F))) as [k Hk].
    { destruct Hf as [->|[hosts ->]]; [by exists 0%nat|]. destruct (facts_requests hosts (request_of n') (others n')) as [k ->].
      exists k. cbn [request_of rv_candidate rv_term rv_last_log_term rv_last_log_index host_of sh_term].
      by rewrite Ei, (full_last_term F n' (ok_hard _ Hok') HF), (full_last_index F n' (ok_hard _ Hok') HF). }
    pose proof (campaign_host n' k Hc) as Hstep. cbn [host_of sh_log] in Hstep. cbn [host_of] in Hk. rewrite <- Hk in Hstep.
    eexists. split; [by apply rtc_once|]. pose proof (spec_step_ok meet single _ _ Hsp Hstep) as Hok2.
    apply (op_closes _ F); [by apply (moved_host voters a a)|done|done|]. rewrite (cp_role _ _ _ Hc). done.
  - destruct (campaign_store m Hc) as (HF&Hst&Ei). pose proof (campaign_host m 0 Hc) as Hstep. simpl in Hstep.
    specialize (Hnil eq_refl). set (b := with_host a v (host_of m F) []) in *.
    pose proof (spec_step_ok meet single _ _ Hsp Hstep) as Hokb.
    assert (sp_live b v = host_of m F) as Hb by (simpl; by rewrite fn_lookup_insert).
    assert (synced_term m ≤ current_term m) as Hsy.
    { pose proof (cp_kept _ _ _ Hc) as [= _ _ -> _ _]. rewrite (cp_term _ _ _ Hc).
      pose proof (ok_synced _ (ok_hard _ (sys_node _ _ Hs v))). lia. }
    destruct Hx as [Hca|Hwon].
    + pose proof (ca_kept _ _ Hca) as [= _ Ec Es]. assert (role n' ≠ Leader) as Hnl.
      { intros Hl. destruct (ca_role _ _ Hca (or_intror Hl)) as [E _]. rewrite (cp_role _ _ _ Hc) in E. congruence. }
      assert (spec_step voters quorum b (with_host b v (host_of n' F) (facts sent))) as Hstep2.
      { rewrite Hnil. apply spec_idle; rewrite Hb; simpl; [|done|by rewrite Ec]. split; [apply Hca|]. simpl.
        intros r Hro Er. rewrite <- Er in *. destruct (ca_role _ _ Hca Hro). split; congruence. }
      eexists. split; [eapply rtc_l; [exact Hstep|by apply rtc_once]|].
      pose proof (spec_step_ok meet single _ _ Hokb Hstep2) as Hok2.
      apply (op_closes _ F); [apply (moved_host voters a b); [apply same_but_host|done]| | |done].
      * by apply (ca_full _ _ Hca).
      * by apply (store_ok_shrinks _ m); [apply Hca|..|apply Hca| |].
    + apply (win_step b m); try done; [by apply rtc_once|apply same_but_host|apply Hst|].
      intros u Hu. rewrite (r_net _ _ _ Hr) in Hu. apply grant_claimed in Hu as (p&Hp&Hcl). exfalso.
      destruct (sys_live _ _ Hs v p (current_term m) u) as [Hle _]; [apply elem_of_app; by left|done|].
      rewrite (cp_term _ _ _ Hc) in Hle. lia.
Qed.
(** *** Following *)
Lemma certified_follows T F' t c c' : certified a (sight a v) t T c → (c' ≤ c)%nat → take c' T `prefix_of` F' → (c' ≤ length T)%nat →
  certified a (sight a v) t F' c'.
Proof.
  intros Hc Hle Hp Hl. apply (certified_le _ _ _ _ _ c' Hle) in Hc as [->|(t0&j&?&?&?&?&?&?)]; [by left|].
  apply prefix_take_iff in Hp as [Hlf Htk]. rewrite length_take, Nat.min_l in Hlf, Htk by done.
  right. exists t0, j. split_and!; try done. by rewrite Htk.
Qed.

Lemma follow_step t commit F' ms (T := sight a v t) : followed (sight a v) T t commit n n' F F' → sees a v t → current_term n ≤ t →
  certified a (sight a v) t T (N.to_nat commit) → facts sent = Ack v t <$> ms →
  Forall (λ m, (m ≤ length T)%nat ∧ take m T `prefix_of` F') ms → ∃ a', steps a a' ∧ refines st' a'.
Proof.
  intros [[= Ei Et Er] HF Hf Hst Hcm] Hse Hle Hce Hfa Hms.
  assert (spec_step voters quorum a (with_host a v (host_of n' F') (Ack v (sh_term (host_of n' F')) <$> ms))) as Hstep.
  { apply spec_follow; simpl; rewrite ?Et, ?Er; try done.
    - by rewrite live_host.
    - rewrite (f_equal sh_commit live_host). simpl. destruct Hcm as [->|(Hc1&Hc2&Hc3)]; [by left|right].
      apply (certified_follows T _ _ (N.to_nat commit)); try done. lia. }
  cbn [host_of sh_term] in Hstep. rewrite Et, <- Hfa in Hstep. eexists. split; [by apply rtc_once|].
  pose proof (spec_step_ok meet single _ _ (r_spec _ _ _ Hr) Hstep) as Hok'.
  by apply (op_closes _ F'); [apply (moved_host voters a a)|..|rewrite Er].
Qed.

Lemma sight_cons t : cons_with (sight a v) (sight a v t).
Proof.
  pose proof (r_spec _ _ _ Hr) as Hsp. unfold sight at 2. destruct (decide _) as [Ho|]; [by apply (k_lead _ _ _ Hsp)|].
  apply (cons_with_mono (published a)); [intros; apply published_sight|apply Hsp].
Qed.
Lemma live_entries e : e ∈ F → le_term e ≤ current_term n.
Proof. intros H. pose proof (k_live_terms _ _ _ (r_spec _ _ _ Hr) v e H) as Ht. by rewrite live_host in Ht. Qed.
Lemma sight_range t : N.of_nat (length (sight a v t)) ≤ u64_max.
Proof. pose proof (r_range _ _ _ Hr t). pose proof (prefix_length _ _ (sight_lead a v t)). lia. Qed.
Lemma commit_sight t : sees a v t → current_term n ≤ t → take (N.to_nat (commit_index n)) F `prefix_of` sight a v t.
Proof.
  intros Hs Ht. pose proof (commit_seen voters quorum a (r_spec _ _ _ Hr) v t) as Hc. rewrite live_host in Hc. simpl in Hc.
  by apply Hc.
Qed.

(** A message from the network, as the host sees it. *)
Lemma net_packet m t : (v, m) ∈ net st → log_term m = Some t → packet_ok voters a (sight a v) m ∧ sees a v t.
Proof.
  intros Hin Ht. destruct (r_packs_net _ _ _ Hr _ Hin) as [Hp Hs]. split; [|right; by apply Hs].
  apply (packet_ok_grown voters a a (published a)); try done. intros. apply published_sight.
Qed.

Lemma append_step m : op = Receive (MAppend m) → covered n m → ∃ a', steps a a' ∧ refines st' a'.
Proof.
  intros Eop Hcov. pose proof Hh as Hh'. rewrite Eop in Hh'. simpl in Hh'. unfold covered in Hcov.
  destruct (on_append_entries n m) as [x reply] eqn:Eon. injection Hh' as Ex Es. subst x. pose proof (r_system _ _ _ Hr) as Hs.
  pose proof (sys_node _ _ Hs v) as Hok. destruct op_id as [Eid _].
  pose proof (enabled_op_ok voters st v op Hs He (λ _, Ha)) as Hop. rewrite Eop in Hop. simpl in Hop.
  pose proof He as Hin. rewrite Eop in Hin. simpl in Hin.
  destruct (net_packet (MAppend m) (ae_term m) Hin eq_refl) as [[Hca Hce] Hse].
  destruct (on_append_full (cfg_ok := cfg) (granted := granted_by (net st)) (quorum := quorum) (sight a v)
    (sight_terms voters quorum a (r_spec _ _ _ Hr) v) n m F n' reply Eon Hok Hop (r_full _ _ _ Hr v) (r_store _ _ _ Hr v)
    (k_live _ _ _ (r_spec _ _ _ Hr) v) live_entries (sight_cons _) (sight_range _) Hca (commit_sight _ Hse)) as [[Hc Hsu]|(Hle&F'&Hfo&Hrep)].
  - apply calm_step; [done|]. rewrite <- Es, facts_cons. simpl. by rewrite Hsu.
  - destruct (ar_success reply) eqn:Hsu.
    + destruct (Hrep eq_refl) as (E1&E2&Hc). destruct (Hc (Hcov eq_refl)) as [Hl Hp]. rewrite Eid in E2.
      apply (follow_step (ae_term m) (ae_leader_commit m) F' [N.to_nat (ar_match_index reply)]); try done.
      * rewrite <- Es, facts_cons. simpl. by rewrite Hsu, E1, E2.
      * by apply Forall_singleton.
    + apply (follow_step (ae_term m) (ae_leader_commit m) F' []); try done. rewrite <- Es, facts_cons. simpl. by rewrite Hsu.
Qed.

Lemma snapshot_step m : op = Receive (MSnapshot m) → ∃ a', steps a a' ∧ refines st' a'.
Proof.
  intros Eop. pose proof Hh as Hh'. rewrite Eop in Hh'. simpl in Hh'.
  destruct (on_install_snapshot n m) as [x reply] eqn:Eon. injection Hh' as Ex Es. subst x. pose proof (r_system _ _ _ Hr) as Hs.
  pose proof (sys_node _ _ Hs v) as Hok. destruct op_id as [Eid _].
  pose proof He as Hin. rewrite Eop in Hin. simpl in Hin.
  destruct (net_packet (MSnapshot m) (is_term m) Hin eq_refl) as [[Hca Hce] Hse].
  destruct (on_install_full (cfg_ok := cfg) (granted := granted_by (net st)) (quorum := quorum) (sight a v)
    n m F n' reply Eon Hok (r_full _ _ _ Hr v) (r_store _ _ _ Hr v)
    (k_live _ _ _ (r_spec _ _ _ Hr) v) (sight_cons _) Hca (commit_sight _ Hse)) as [[Hc Hz]|(Hle&E1&E2&F'&Hfo&Hl&Hp)].
  - apply calm_step; [done|]. rewrite <- Es, facts_cons. simpl. by rewrite Hz.
  - rewrite Eid in E2. destruct (0 <? isr_match_index reply) eqn:Ez.
    + apply (follow_step (is_term m) (is_last_included_index m) F' [N.to_nat (isr_match_index reply)]); try done.
      * rewrite <- Es, facts_cons. simpl. by rewrite Ez, E1, E2.
      * by apply Forall_singleton.
    + apply (follow_step (is_term m) (is_last_included_index m) F' []); try done. rewrite <- Es, facts_cons. simpl. by rewrite Ez.
Qed.
(** *** Voting *)
Lemma request_step m : op = Receive (MRequestVote m) → ∃ a', steps a a' ∧ refines st' a'.
Proof.
  intros Eop. pose proof Hh as Hh'. rewrite Eop in Hh'. simpl in Hh'. destruct op_id as [Eid _].
  pose proof (request_vote_calm n m) as [Hc Hg]. destruct (on_request_vote n m) as [x reply]. injection Hh' as Ex Es. subst x.
  cbn [fst snd] in *. destruct (vr_granted reply) eqn:Egr.
  - destruct (Hg eq_refl) as (E1&E2&E3&Hl). apply (grant_step m); try done.
    rewrite <- Es, facts_cons. simpl. by rewrite Egr, E1, E2, E3, Eid.
  - apply calm_step; [done|]. rewrite <- Es, facts_cons. simpl. by rewrite Egr.
Qed.
End op.

(** ** The simulation *)
Section simulation.
Context (voters : list HostId) (voters_valid : valid_set voters = true).
#[local] Abbreviation quorum := (group_quorum voters).
#[local] Abbreviation refines := (refines voters).
#[local] Abbreviation steps := (rtc (spec_step voters quorum)).

(** A snapshot on the network ends with what a host has committed there. *)
Lemma snapshot_agreed st a v m : refines st a → (v, MSnapshot m) ∈ net st → snapshot_agrees (live st v) m.
Proof.
  intros Hr Hin Hlt Hle. destruct (r_packs_net _ _ _ Hr _ Hin) as [[Hca Hce] _].
  pose proof (k_commit _ _ _ (r_spec _ _ _ Hr) v) as Hcv. rewrite (r_live _ _ _ Hr v) in Hcv. cbn [host_of sh_term sh_commit sh_log] in Hcv.
  pose proof (certified_agree _ _ _ (r_spec _ _ _ Hr) _ _ _ _ _ _ _ _ (published_lead a) (sight_lead a v) Hce Hcv) as Heq.
  destruct Hca as (e&He&<-); [lia|]. rewrite (full_entry_term _ _ _ (r_full _ _ _ Hr v)) by lia.
  rewrite <- (lookup_take_lt _ (N.to_nat (is_last_included_index m) `min` N.to_nat (commit_index (live st v)))) by lia.
  by rewrite <- Heq, lookup_take_lt, He by lia.
Qed.

Lemma covered_enabled st a v op : refines st a → enabled_covered st v op → enabled st v op ∧ agreed st v op.
Proof.
  intros Hr He. destruct op; try done. destruct message; destruct He as [Hin _]; (split; [done|]); try done.
  by apply (snapshot_agreed st a).
Qed.

Lemma op_simulates st a v op n' sent : refines st a → enabled_covered st v op → handle (live st v) op = (n', sent) →
  ∃ a', steps a a' ∧ refines (mkSystem (<[v := n']> (live st)) (disk st) (<[v := outbox st v ++ sent]> (outbox st)) (net st)) a'.
Proof.
  intros Hr Hcov Hh. pose proof (covered_enabled st a v op Hr Hcov) as [He Ha].
  pose proof (sys_node _ _ (r_system _ _ _ Hr) v) as Hok.
  destruct (own_effect op) eqn:Eo; [by apply (own_step voters voters_valid st a v op)|].
  pose proof (elect_step voters voters_valid st a v op n' sent Hr He Ha Hh) as Hel.
  destruct op as [| | | | | | | |message| | | | | | | | | | | | | | | | | | |]; try done.
  - destruct (election_timeout_elects voters voters_valid (live st v) Hok) as [l Hl]. simpl in Hh.
    destruct (on_election_timeout (live st v)) as [m r]. injection Hh as <- <-. apply (Hel l Hl). left. destruct r; [by apply facts_to_each|done].
  - pose proof (start_election_elects voters voters_valid (live st v) Hok) as Hl. simpl in Hh.
    destruct (start_election (live st v)) as [m r]. injection Hh as <- <-. apply (Hel _ Hl). right. destruct r; [by eexists|by exists []].
  - destruct message as [m|m|m|m|m|m|m|m|m|m|m]; try done.
    + pose proof (pre_vote_reply_elects voters voters_valid (live st v) m Hok) as Hl. simpl in Hh.
      destruct (on_pre_vote_reply (live st v) m) as [x r]. injection Hh as <- <-. apply (Hel _ Hl). right. destruct r; [by eexists|by exists []].
    + by apply (request_step voters voters_valid st a v (Receive (MRequestVote m)) n' sent Hr He Ha Hh m).
    + by apply (vote_step voters voters_valid st a v (Receive (MVoteReply m)) n' sent Hr He Ha Hh m).
    + destruct Hcov as [_ Hcov]. by apply (append_step voters voters_valid st a v (Receive (MAppend m)) n' sent Hr He Ha Hh m).
    + by apply (snapshot_step voters voters_valid st a v (Receive (MSnapshot m)) n' sent Hr He Ha Hh m).
    + pose proof (timeout_now_elects voters voters_valid (live st v) m Hok) as Hl. simpl in Hh.
      destruct (on_timeout_now (live st v) m) as [x r]. injection Hh as <- <-. apply (Hel _ Hl). right. by eexists.
Qed.

Lemma step_simulates st st' a : refines st a → covered_step st st' → ∃ a', steps a a' ∧ refines st' a'.
Proof.
  intros Hr Hstep. destruct Hstep as [st v op n' sent He Hh|st v|st v Hf|st v n' Hre].
  - by eapply op_simulates.
  - exists (with_publish a v). split; [apply rtc_once, spec_publish|by apply publish_refines].
  - exists (with_release a v). split; [|by apply release_refines]. apply rtc_once.
    destruct (retained_same voters st a v Hr Hf) as [E1 E2]. apply spec_release; try done. intros t Ho. by apply (r_flag _ _ _ Hr v).
  - eexists. destruct (crash_refines voters voters_valid st v n' a Hr Hre) as [H1 H2]. split; [by apply rtc_once|exact H1].
Qed.
End simulation.

(** ** Runs of covered steps *)
Definition spec_new : Spec :=
  mkSpec (λ _, mkHost 0 [] 0 Follower) (λ _, mkHost 0 [] 0 Follower) (λ _, []) [] (λ _, None) (λ _, []) (λ _, None).

Section reachable.
Context (voters : list HostId) (voters_valid : valid_set voters = true).
#[local] Abbreviation quorum := (group_quorum voters).

Lemma spec_new_ok : spec_ok voters quorum spec_new.
Proof.
  assert (∀ t j, ¬ choosable quorum spec_new t j) as Hno by (intros t j ((e&He&_)&_); done).
  split; simpl; try done; try (by left); try (intros; by apply elem_of_nil in H); try naive_solver.
  all: try (intros; exfalso; by eapply Hno).
  all: intros; by intros i e.
Qed.
Lemma new_refines : refines voters (system_new voters) spec_new.
Proof.
  pose proof (system_new_ok (strict := True) voters voters_valid) as Hs.
  assert (∀ v, full [] (saved (node_new v voters)) ∧ store_ok (λ _, []) (node_new v voters) []) as Hn.
  { intros v. split; [by split_and!|]. split; [done|]. by intros i s. }
  split; simpl; try done.
  - apply spec_new_ok.
  - intros v. exists (node_new v voters). split; try done. apply (sys_node _ _ Hs v).
  - intros v p Hp. by apply elem_of_nil in Hp.
  - intros p Hp. by apply elem_of_nil in Hp.
Qed.
Lemma reachable_refines st : covered_reachable voters st → ∃ a, rtc (spec_step voters quorum) spec_new a ∧ refines voters st a.
Proof.
  revert st. apply (rtc_ind_r (λ st, ∃ a, rtc (spec_step voters quorum) spec_new a ∧ refines voters st a)).
  - exists spec_new. split; [apply rtc_refl|apply new_refines].
  - intros st st' _ Hstep (a&Ha&Hra). destruct (step_simulates voters voters_valid st st' a Hra Hstep) as (a'&Ha'&Hr'). exists a'. split; [by etransitivity|done].
Qed.
End reachable.

(** C4. A group of a fixed voter configuration whose append acknowledgements are covered by the messages they
    answer refines the replicated log, by a forward simulation: a new group stands at the machine's initial state;
    and wherever a group stands at a state of the machine, every step it takes, an operation of any node, a message
    taken, lost or repeated, a publication, a release or a crash, is some steps of the machine that end where the
    group then stands.  Standing at a state is that every node's whole log, term, commit index and role are its
    host's, live and on disk, every packet sent tells its facts, and what leaders sent is part of the log of their
    term.  So every group reached so stands at a state the machine reaches. *)
Theorem covered_group_refines voters :
  valid_set voters = true →
  refines voters (system_new voters) spec_new
  ∧ (∀ st st' a, refines voters st a → covered_step st st' →
     ∃ a', rtc (spec_step voters (group_quorum voters)) a a' ∧ refines voters st' a')
  ∧ ∀ st, covered_reachable voters st →
    ∃ a, rtc (spec_step voters (group_quorum voters)) spec_new a ∧ refines voters st a.
Proof.
  intros Hv. split_and!; [by apply new_refines| |by apply reachable_refines].
  intros st st' a. by apply step_simulates.
Qed.

(** C2. What two nodes of such a group have committed agrees: at every index both have committed and neither has
    compacted away, they hold the same entry.  No premise on the snapshots they install is needed. *)
Theorem committed_entries_agree voters st x y i :
  valid_set voters = true → covered_reachable voters st →
  snapshot_index (live st x) < i → snapshot_index (live st y) < i →
  i ≤ commit_index (live st x) → i ≤ commit_index (live st y) →
  entry_at (live st x) i = entry_at (live st y) i.
Proof.
  intros Hv Hreach Hsx Hsy Hx Hy. destruct (reachable_refines voters Hv st Hreach) as (a&_&Hr).
  pose proof (k_commit _ _ _ (r_spec _ _ _ Hr)) as Hc. pose proof (Hc x) as Hcx. pose proof (Hc y) as Hcy.
  rewrite (r_live _ _ _ Hr x) in Hcx. rewrite (r_live _ _ _ Hr y) in Hcy. cbn [host_of sh_term sh_commit sh_log] in Hcx, Hcy.
  pose proof (certified_agree _ _ _ (r_spec _ _ _ Hr) _ _ _ _ _ _ _ _ (sight_lead a x) (sight_lead a y) Hcx Hcy) as Heq.
  rewrite (full_entry_at _ _ _ (r_full _ _ _ Hr x) Hsx), (full_entry_at _ _ _ (r_full _ _ _ Hr y) Hsy).
  rewrite <- (lookup_take_lt _ (N.to_nat (commit_index (live st x)) `min` N.to_nat (commit_index (live st y)))) by lia.
  rewrite Heq, lookup_take_lt by lia. done.
Qed.

(** C5. A leader holds what was committed before it: an entry a node of such a group has committed is in the log
    of every leader of its own or a later term, at the same index, or under that leader's snapshot. *)
Theorem leader_complete voters st x y i :
  valid_set voters = true → covered_reachable voters st →
  role (live st y) = Leader → current_term (live st x) ≤ current_term (live st y) →
  snapshot_index (live st x) < i → snapshot_index (live st y) < i → i ≤ commit_index (live st x) →
  entry_at (live st y) i = entry_at (live st x) i.
Proof.
  intros Hv Hreach Hl Ht Hsx Hsy Hx. destruct (reachable_refines voters Hv st Hreach) as (a&_&Hr).
  pose proof (r_spec _ _ _ Hr) as Hok. set (t := current_term (live st y)) in *.
  assert (sp_owner a t = Some y ∧ sh_log (sp_live a y) = sp_lead a t) as [Ho El].
  { pose proof (k_leader _ _ _ Hok y) as Ho. rewrite (r_live _ _ _ Hr y) in Ho. specialize (Ho Hl). split; [done|].
    apply (k_same _ _ _ Hok); [done|]. by rewrite (r_live _ _ _ Hr y). }
  pose proof (commit_in_lead _ _ _ Hok x t y) as Hp. rewrite <- El, (r_live _ _ _ Hr x) in Hp. cbn [host_of sh_term sh_commit sh_log] in Hp.
  specialize (Hp Ht Ho). rewrite (full_entry_at _ _ _ (r_full _ _ _ Hr x) Hsx), (full_entry_at _ _ _ (r_full _ _ _ Hr y) Hsy).
  pose proof (ok_commit _ (ok_hard _ (sys_node _ _ (r_system _ _ _ Hr) x))) as Hcb. pose proof (r_full _ _ _ Hr x) as [Hlen _]. cbn in Hlen.
  destruct (lookup_lt_is_Some_2 (sh_log (sp_live a x)) (N.to_nat i - 1)%nat) as [e He]; [lia|]. rewrite He.
  eapply prefix_lookup_Some; [|exact Hp]. by rewrite lookup_take_lt by lia.
Qed.

(** ** A run that commits *)

(** An operation, published, and what it sent released. *)
Definition sends (v : HostId) (op : Op) (st : System) : System := do_release v (do_publish v (do_op v op st)).
Definition message_at (k : nat) (st : System) : Message :=
  from_option snd (MTimeoutNow (mkTimeoutNow 0 0)) (net st !! k).

Lemma covered_then_op voters v op st : enabled_covered st v op → covered_reachable voters st →
  covered_reachable voters (do_op v op st).
Proof. intros He Hr. eapply rtc_r; [exact Hr|]. by apply covered_op with op; [|apply surjective_pairing]. Qed.
Lemma covered_then_sends voters v op st : enabled_covered st v op → covered_reachable voters st →
  covered_reachable voters (sends v op st).
Proof.
  intros He Hr. pose proof (covered_then_op voters v op st He Hr) as Ho. eapply rtc_r.
  - eapply rtc_r; [exact Ho|]. apply covered_publish.
  - apply covered_release. simpl. by rewrite !fn_lookup_insert.
Qed.

Definition replicated : System := sends 1 (ReplicateTo 2 100) elected.
Definition acknowledged : System := sends 2 (Receive (message_at 3 replicated)) replicated.
Definition committed : System := sends 1 (ReplicateTo 2 100) (do_op 1 (Receive (message_at 4 acknowledged)) acknowledged).
Definition learned : System := do_op 2 (Receive (message_at 5 committed)) committed.

Lemma received_net k st v m : net st !! k = Some (v, m) → (v, m) ∈ net st.
Proof. apply list_elem_of_lookup_2. Qed.

Lemma elected_covered : covered_reachable trio elected.
Proof.
  apply covered_then_op; [exact I|]. apply covered_then_op; [|apply covered_then_sends; [|apply covered_then_sends; [exact I|apply rtc_refl]]].
  - split; [|exact I]. apply (received_net 2). vm_compute. reflexivity.
  - split; [|exact I]. apply (received_net 0). vm_compute. reflexivity.
Qed.
Lemma committed_covered : covered_reachable trio committed.
Proof.
  apply covered_then_sends; [exact I|apply covered_then_op; [|apply covered_then_sends; [|
    apply covered_then_sends; [exact I|apply elected_covered]]]].
  - split; [apply (received_net 4); vm_compute; reflexivity|exact I].
  - split; [apply (received_net 3); vm_compute; reflexivity|]. vm_compute. intros _. right. reflexivity.
Qed.
Lemma learned_step : covered_step committed learned.
Proof.
  apply covered_op with (Receive (message_at 5 committed)); [|apply surjective_pairing].
  split; [apply (received_net 5); vm_compute; reflexivity|]. vm_compute. intros _. right. reflexivity.
Qed.
Lemma learned_covered : covered_reachable trio learned.
Proof. eapply rtc_r; [apply committed_covered|apply learned_step]. Qed.

Lemma covered_group_refines_witness :
  refines trio (system_new trio) spec_new ∧
  ∃ a a', refines trio committed a ∧ rtc (spec_step trio (group_quorum trio)) a a' ∧ refines trio learned a'.
Proof.
  destruct (covered_group_refines trio ltac:(vm_compute; reflexivity)) as (H0&Hstep&Hreach). split; [exact H0|].
  destruct (Hreach committed committed_covered) as (a&_&Ha). destruct (Hstep _ _ a Ha learned_step) as (a'&Hs&Ha').
  by exists a, a'.
Defined.
Lemma committed_entries_agree_witness :
  commit_index (live learned 1) = 1 ∧ commit_index (live learned 2) = 1 ∧ is_Some (entry_at (live learned 1) 1)
  ∧ entry_at (live learned 1) 1 = entry_at (live learned 2) 1.
Proof.
  split_and!; [vm_compute; reflexivity..|vm_compute; eauto|].
  apply (committed_entries_agree trio learned 1 2 1); [vm_compute; reflexivity|apply learned_covered|vm_compute; done..].
Defined.
Lemma leader_complete_witness :
  is_leader (live learned 1) = true ∧ commit_index (live learned 2) = 1
  ∧ entry_at (live learned 1) 1 = entry_at (live learned 2) 1.
Proof.
  split_and!; [vm_compute; reflexivity..|].
  apply (leader_complete trio learned 2 1 1); [vm_compute; reflexivity|apply learned_covered|vm_compute; done..].
Defined.
