(* ===== verification/RaftDurable.v ===== *)
(** * What a Raft group has committed stays committed

    Agreement of [crates/cluster/src/raft.rs] over time: an entry a host has
    retained as committed is at its index in every host that commits that far
    at any later point, whatever crashes and elections lie between. *)

From S2P Require Import Prelude RaftState RaftLog RaftElect RaftReplicate RaftFast RaftAdmin RaftInv RaftAppend RaftOps RaftSaved RaftQuorum RaftSystem RaftSpec RaftComplete RaftFull RaftWin RaftFollow RaftRefine RaftAgree.
From stdpp Require Import functions.
#[local] Open Scope N_scope.

(** ** Published commits *)
Section durable.
Context {voters : list HostId} {quorum : gset HostId → Prop}.
#[local] Abbreviation spec_ok := (spec_ok voters quorum).
#[local] Abbreviation certified := (certified quorum).

(** A term's log grows at its owner. *)
Lemma lead_certified s v h' t l c term log :
  sp_owner s t = None ∨ sp_owner s t = Some v → sp_lead s t `prefix_of` l → certified s (published s) term log c →
  certified (with_lead (with_host s v h' []) v t l) (published (with_lead (with_host s v h' []) v t l)) term log c.
Proof.
  intros Ho Hl. set (s' := with_lead _ v t l).
  assert (∀ u, sp_lead s u `prefix_of` sp_lead s' u) as Hlead.
  { intros u. simpl. destruct (decide (t = u)) as [<-|]; [by rewrite fn_lookup_insert|by rewrite fn_lookup_insert_ne]. }
  apply certified_mono.
  - intros u j. apply chosen_frame; [..|done].
    + intros e He. by eapply prefix_lookup_Some.
    + intros w Hw. simpl. destruct (decide (t = u)) as [<-|]; [rewrite fn_lookup_insert|by rewrite fn_lookup_insert_ne].
      destruct Ho; congruence.
  - intros u. unfold published. change (sp_pub s' u) with (sp_pub s u). destruct (sp_pub s u) as [p|]; [|done].
    destruct (Hlead u) as [k ->]. rewrite take_app. by exists (take (p - length (sp_lead s u)) k).
Qed.

(** What is chosen in the published logs stays so. *)
Lemma step_keeps_certified s s' t l c :
  spec_ok s → spec_step voters quorum s s' → certified s (published s) t l c → certified s' (published s') t l c.
Proof.
  intros Hok Hstep. destruct Hstep as [| | |s v h' es q|s v h' es Hr Et _ El| |s v|s v|s v h']; try done.
  - apply lead_certified; [by left|]. destruct (k_none _ _ _ Hok (sh_term h')) as [-> _]; [done|]. apply prefix_nil.
  - pose proof (k_leader _ _ _ Hok v Hr) as Ho. rewrite <- Et in Ho. apply lead_certified; [by right|].
    rewrite <- (k_same _ _ _ Hok _ v Ho) by done. rewrite El. by apply prefix_app_r.
  - apply certified_mono; [done|apply publish_mono].
  - apply certified_mono; [apply release_chosen|done].
  - apply crash_certified; [|done]. intros u. by rewrite crash_published.
Qed.
End durable.

(** ** Over a run *)
Section run.
Context (voters : list HostId) (voters_valid : valid_set voters = true).
#[local] Abbreviation quorum := (group_quorum voters).

Lemma steps_keep_certified a a' t l c :
  spec_ok voters quorum a → rtc (spec_step voters quorum) a a' →
  certified quorum a (published a) t l c → certified quorum a' (published a') t l c.
Proof.
  intros Hok H. induction H as [|a b a' Hstep _ IH]; [done|]. intros Hc. apply IH.
  - eapply spec_step_ok; [apply group_quorum_meet|by apply group_quorum_single|done..].
  - by eapply step_keeps_certified.
Qed.
Lemma run_refines st st' a :
  refines voters st a → rtc covered_step st st' → ∃ a', rtc (spec_step voters quorum) a a' ∧ refines voters st' a'.
Proof.
  intros Hr H. revert a Hr. induction H as [st|st st1 st' Hstep _ IH]; intros a Hr; [by exists a|].
  destruct (step_simulates voters voters_valid st st1 a Hr Hstep) as (b&Hb&Hrb).
  destruct (IH b Hrb) as (a'&Ha'&Hr'). exists a'. split; [by etransitivity|done].
Qed.

(** What a host has on disk as committed, as the replicated log's machine has it. *)
Lemma disk_certified st a v :
  refines voters st a → ∃ F, full F (disk st v) ∧
    certified quorum a (published a) (s_term (disk st v)) F (N.to_nat (s_commit_index (disk st v))).
Proof.
  intros Hr. destruct (r_disk _ _ _ Hr v) as [m Hm]. exists (sh_log (sp_disk a v)). rewrite (ke_saved _ _ _ _ _ Hm).
  split; [apply Hm|]. pose proof (k_commit_disk _ _ _ (r_spec _ _ _ Hr) v) as Hc.
  by rewrite (ke_term _ _ _ _ _ Hm), (ke_commit _ _ _ _ _ Hm) in Hc.
Qed.
Lemma live_certified st a v :
  refines voters st a → full (sh_log (sp_live a v)) (saved (live st v)) ∧
    certified quorum a (sight a v) (current_term (live st v)) (sh_log (sp_live a v)) (N.to_nat (commit_index (live st v))).
Proof.
  intros Hr. split; [apply Hr|]. pose proof (k_commit _ _ _ (r_spec _ _ _ Hr) v) as Hc.
  by rewrite (r_live _ _ _ Hr v) in Hc at 1 3.
Qed.

(** The full logs behind a host's disk at one time and a host's memory at a later one agree where both have committed. *)
Lemma durable_prefix st st' x y :
  covered_reachable voters st → rtc covered_step st st' → ∃ F F',
  full F (disk st x) ∧ full F' (saved (live st' y)) ∧
  let c := (N.to_nat (s_commit_index (disk st x)) `min` N.to_nat (commit_index (live st' y)))%nat in take c F = take c F'.
Proof.
  intros Hreach Hrun. destruct (reachable_refines voters voters_valid st Hreach) as (a&_&Hr).
  destruct (run_refines st st' a Hr Hrun) as (a'&Ha&Hr').
  destruct (disk_certified st a x Hr) as (F&HF&Hc). destruct (live_certified st' a' y Hr') as [HF' Hc'].
  exists F, (sh_log (sp_live a' y)). split_and!; [done..|]. cbn zeta.
  eapply (steps_keep_certified _ a') in Hc; [|apply Hr|done].
  exact (certified_agree _ _ _ (r_spec _ _ _ Hr') _ _ _ _ _ _ _ _ (published_lead a') (sight_lead a' y) Hc Hc').
Qed.
End run.

(** C6. What a host has retained as committed is never replaced: at any later point of a run of a covered group,
    through any operations, losses, crashes and restarts, every node that has committed as far holds the same entry
    at each index the host had retained as committed, unless one of them has compacted it away. *)
Theorem retained_commits_stay voters st st' x y i :
  valid_set voters = true → covered_reachable voters st → rtc covered_step st st' →
  s_snapshot_index (disk st x) < i → snapshot_index (live st' y) < i →
  i ≤ s_commit_index (disk st x) → i ≤ commit_index (live st' y) →
  entry_at (live st' y) i = lookup_at (s_snapshot_index (disk st x)) (s_log (disk st x)) i.
Proof.
  intros Hv Hreach Hrun Hsx Hsy Hx Hy. destruct (durable_prefix voters Hv st st' x y Hreach Hrun) as (F&F'&HF&HF'&Heq).
  rewrite (full_entry_at _ _ _ HF' Hsy). destruct HF as (_&Hd&_). unfold lookup_at.
  rewrite (proj2 (N.leb_gt _ _)) by lia. rewrite <- Hd, lookup_drop.
  set (c := (_ `min` _)%nat) in Heq. replace (N.to_nat (s_snapshot_index (disk st x)) + _)%nat with (N.to_nat i - 1)%nat by lia.
  rewrite <- (lookup_take_lt F' c), <- Heq, lookup_take_lt by lia. done.
Qed.

Lemma retained_commits_stay_witness :
  s_commit_index (disk committed 1) = 1 ∧ commit_index (live committed 2) = 0 ∧ commit_index (live learned 2) = 1
  ∧ is_Some (entry_at (live learned 2) 1)
  ∧ entry_at (live learned 2) 1 = lookup_at (s_snapshot_index (disk committed 1)) (s_log (disk committed 1)) 1.
Proof.
  split_and!; [vm_compute; reflexivity..|vm_compute; eauto|].
  apply (retained_commits_stay trio committed learned 1 2 1);
    [vm_compute; reflexivity|apply committed_covered|apply rtc_once, learned_step|vm_compute; done..].
Defined.
