(* ===== verification/MultiLog.v ===== *)
(** * A group's log divided over several Raft logs

    Models [crates/cluster/src/multilog.rs]: the entries of a multi-log and
    their bytes, the routing of a command to a log by its key, the merge that
    puts the logs' committed entries into one application order, and a node's
    share of such a group, with the barriers it appends while it leads. *)

From S2P Require Import Prelude RaftState RaftLog RaftElect RaftFast RaftAdmin.
#[local] Open Scope N_scope.

(** ** Entries *)
Definition TAG_GLOBAL : N := 0.
Definition TAG_KEYED : N := 1.
Definition TAG_BARRIER : N := 2.
Definition WORD_BYTES : N := 8.
Definition PREFERRED : ElectionPriority := mkPriority 1 0.

(** [Route]. *)
Inductive Route := RouteGlobal | RouteKey (key : N).

(** [MultiEntry]. *)
Inductive MultiEntry :=
| Global (command : bytes)
| Keyed (key : N) (command : bytes)
| Barrier (global : N)
| NoOp.
#[export] Instance MultiEntry_eq_dec : EqDecision MultiEntry.
Proof. solve_decision. Defined.

(** [MultiEntry::encode]. *)
Definition encode_entry (e : MultiEntry) : bytes :=
  match e with
  | Global command => byte_of TAG_GLOBAL :: command
  | Keyed key command => byte_of TAG_KEYED :: le_bytes 8 key ++ command
  | Barrier global => byte_of TAG_BARRIER :: le_bytes 8 global
  | NoOp => []
  end.

(** The [word] closure of [MultiEntry::decode]. *)
Definition word (bs : bytes) : option N := le_val <$> get_range bs 0 WORD_BYTES.

(** [MultiEntry::decode]. *)
Definition decode_entry (bs : bytes) : MultiEntry :=
  match bs with
  | [] => NoOp
  | tag :: rest =>
      if byte_val tag =? TAG_GLOBAL then Global rest
      else if byte_val tag =? TAG_KEYED then
        match word rest, get_from rest WORD_BYTES with
        | Some key, Some command => Keyed key command
        | _, _ => NoOp
        end
      else if (byte_val tag =? TAG_BARRIER) && (len rest =? WORD_BYTES) then from_option Barrier NoOp (word rest)
      else NoOp
  end.

(** ** Routing *)
Definition GOLDEN_GAMMA : N := 0x9e3779b97f4a7c15.
Definition MIX_ONE : N := 0xbf58476d1ce4e5b9.
Definition MIX_TWO : N := 0x94d049bb133111eb.

(** [u64::wrapping_add] and [u64::wrapping_mul]. *)
Definition u64_add (a b : N) : N := (a + b) mod 2 ^ 64.
Definition u64_mul (a b : N) : N := (a * b) mod 2 ^ 64.

Definition log_of (key : N) (logs : nat) : nat :=
  let z := u64_add key GOLDEN_GAMMA in
  let z := u64_mul (N.lxor z (N.shiftr z 30)) MIX_ONE in
  let z := u64_mul (N.lxor z (N.shiftr z 27)) MIX_TWO in
  let z := N.lxor z (N.shiftr z 31) in
  let count := N.of_nat (Nat.max logs 1) in
  N.to_nat (z mod count).

(** ** The merge *)

(** [Applied]. *)
Record Applied := mkApplied { a_log : nat; a_index : N; a_key : option N; a_command : bytes; a_epoch : N }.
#[export] Instance Applied_eq_dec : EqDecision Applied.
Proof. solve_decision. Defined.

(** [Merge]. *)
Record Merge := mkMerge { m_next : list N; m_epoch : N }.
#[export] Instance Merge_eq_dec : EqDecision Merge.
Proof. solve_decision. Defined.

(** [Committed] and [Committed::at]. *)
Record Committed := mkCommitted { c_first : N; c_entries : list LogEntry }.
Definition at_index (c : Committed) (index : N) : option LogEntry :=
  if c_first c <=? index then c_entries c !! N.to_nat (index - c_first c) else None.

(** [Merge::new]. *)
Definition merge_new (logs : nat) : Merge := mkMerge (replicate (Nat.max logs 1) 1) 0.

(** [Merge::next_index]. *)
Definition merge_next_index (m : Merge) (log : nat) : option N := m_next m !! log.

(** The entry the merge would consume next in [log]: the index, and the entry committed there. *)
Definition upcoming (committed : list Committed) (m : Merge) (log : nat) : option (N * MultiEntry) :=
  index ← m_next m !! log;
  entries ← committed !! log;
  entry ← at_index entries index;
  Some (index, decode_entry (le_command entry)).

(** [*next = index.saturating_add(1)]. *)
Definition consume (m : Merge) (log : nat) (index : N) : Merge :=
  mkMerge (<[log := sat_add index 1]> (m_next m)) (m_epoch m).

(** [Merge::others_reached]. *)
Definition others_reached (m : Merge) (global : N) (committed : list Committed) : bool :=
  forallb (λ log,
    match upcoming committed m log with
    | Some (_, Barrier named) => global <=? named
    | _ => false
    end) (seq 1 (length (m_next m) - 1)).

(** One turn of [Merge::advance_log]'s loop, [None] where it leaves the loop. *)
Definition turn_log (committed : list Committed) (log : nat) (m : Merge) : option (Merge * list Applied) :=
  '(index, entry) ← upcoming committed m log;
  match entry with
  | Barrier global => if m_epoch m <? global then None else Some (consume m log index, [])
  | Keyed key command => Some (consume m log index, [mkApplied log index (Some key) command (m_epoch m)])
  | Global _ | NoOp => Some (consume m log index, [])
  end.

(** One turn of [Merge::advance_designated]'s loop. *)
Definition turn_designated (committed : list Committed) (m : Merge) : option (Merge * list Applied) :=
  '(index, entry) ← upcoming committed m 0;
  match entry with
  | Global command =>
      if negb (others_reached m index committed) then None
      else Some (consume (mkMerge (m_next m) index) 0 index, [mkApplied 0 index None command (m_epoch m)])
  | Keyed key command => Some (consume m 0 index, [mkApplied 0 index (Some key) command (m_epoch m)])
  | Barrier _ | NoOp => Some (consume m 0 index, [])
  end.

(** A [while] loop over a merge and the commands it applied, with the flag [moved]. *)
Fixpoint drain_merge (turn : Merge → option (Merge * list Applied)) (fuel : nat) (m : Merge) : Merge * list Applied * bool :=
  match fuel with
  | O => (m, [], false)
  | S fuel =>
      match turn m with
      | None => (m, [], false)
      | Some (m, out) => let '(m, rest, _) := drain_merge turn fuel m in (m, out ++ rest, true)
      end
  end.

(** Turns of a loop over one log: no more than it has committed entries. *)
Definition held_entries (committed : list Committed) (log : nat) : nat :=
  from_option (λ c, length (c_entries c)) 0%nat (committed !! log).

(** [Merge::advance_log]. *)
Definition advance_log (m : Merge) (log : nat) (committed : list Committed) : Merge * list Applied * bool :=
  drain_merge (turn_log committed log) (S (held_entries committed log)) m.

(** [Merge::advance_designated]. *)
Definition advance_designated (m : Merge) (committed : list Committed) : Merge * list Applied * bool :=
  drain_merge (turn_designated committed) (S (held_entries committed 0)) m.

(** [for log in 1..self.next.len()]. *)
Fixpoint advance_logs (logs : list nat) (m : Merge) (committed : list Committed) : Merge * list Applied * bool :=
  match logs with
  | [] => (m, [], false)
  | log :: logs =>
      let '(m, out, moved) := advance_log m log committed in
      let '(m, rest, moved') := advance_logs logs m committed in
      (m, out ++ rest, moved || moved')
  end.

(** One pass of [Merge::advance]'s outer loop. *)
Definition advance_pass (m : Merge) (committed : list Committed) : Merge * list Applied * bool :=
  let '(m, out, moved) := advance_logs (seq 1 (length (m_next m) - 1)) m committed in
  let '(m, rest, moved') := advance_designated m committed in
  (m, out ++ rest, moved || moved').

(** [Merge::advance]: passes until one moves nothing. *)
Fixpoint advance_passes (fuel : nat) (m : Merge) (committed : list Committed) : Merge * list Applied :=
  match fuel with
  | O => (m, [])
  | S fuel =>
      let '(m, out, moved) := advance_pass m committed in
      if moved then let '(m, rest) := advance_passes fuel m committed in (m, out ++ rest) else (m, out)
  end.
Definition committed_size (committed : list Committed) : nat :=
  sum_list_with (λ c, length (c_entries c)) committed.
Definition advance (m : Merge) (committed : list Committed) : Merge * list Applied :=
  advance_passes (S (committed_size committed)) m committed.

(** ** A node's share of the group *)

(** [MultiLog]. *)
Record MultiLog := mkMultiLog {
  ml_logs : list RaftNode;
  ml_merge : Merge;
  ml_barriered : list (N * N);
  ml_latest_global : N;
  ml_scanned : N
}.

(** [MultiLog::new]. *)
Definition multilog_new (id : HostId) (voters : list HostId) (logs : nat) : MultiLog :=
  let count := Nat.max logs 1 in
  mkMultiLog (replicate count (node_new id voters)) (merge_new count) (replicate count (0, 0)) 0 0.

(** [MultiLog::count], [MultiLog::saved], [MultiLog::retention_pending], [MultiLog::retained]. *)
Definition ml_count (ml : MultiLog) : nat := length (ml_logs ml).
Definition ml_saved (ml : MultiLog) : list SavedRaft := map saved (ml_logs ml).
Definition ml_retention_pending (ml : MultiLog) : bool := existsb retention_pending (ml_logs ml).
Definition with_logs (ml : MultiLog) (logs : list RaftNode) : MultiLog :=
  mkMultiLog logs (ml_merge ml) (ml_barriered ml) (ml_latest_global ml) (ml_scanned ml).
Definition ml_retained (ml : MultiLog) : MultiLog := with_logs ml (map retained (ml_logs ml)).

(** [collect::<Result<Vec<_>, _>>()] over [RaftNode::restore]: the first error stops it. *)
Fixpoint restore_all (saved : list SavedRaft) : result RaftRecoveryError (list RaftNode) :=
  match saved with
  | [] => Ok []
  | s :: rest => node ← restore s; nodes ← restore_all rest; Ok (node :: nodes)
  end.

(** [for (next, node) in merge.next.iter_mut().zip(&logs)]. *)
Fixpoint start_above (next : list N) (logs : list RaftNode) : list N :=
  match next, logs with
  | _ :: next, node :: logs => sat_add (snapshot_index node) 1 :: start_above next logs
  | _, _ => next
  end.

(** [MultiLog::restore]. *)
Definition ml_restore (saved : list SavedRaft) : result RaftRecoveryError MultiLog :=
  logs ← restore_all saved;
  let count := Nat.max (length logs) 1 in
  let merge := merge_new count in
  Ok (mkMultiLog logs (mkMerge (start_above (m_next merge) logs) (m_epoch merge)) (replicate count (0, 0)) 0 0).

(** [MultiLog::log]; [MultiLog::log_mut] with the change made through the reference it hands out. *)
Definition ml_log (ml : MultiLog) (log : nat) : option RaftNode := ml_logs ml !! log.
Definition ml_log_mut (ml : MultiLog) (log : nat) (change : RaftNode → RaftNode) : MultiLog :=
  with_logs ml (alter change log (ml_logs ml)).

(** [MultiLog::route]. *)
Definition ml_route (ml : MultiLog) (route : Route) : nat :=
  match route with RouteGlobal => 0%nat | RouteKey key => log_of key (length (ml_logs ml)) end.

(** The entry [MultiLog::propose] appends. *)
Definition route_entry (route : Route) (command : bytes) : MultiEntry :=
  match route with RouteGlobal => Global command | RouteKey key => Keyed key command end.

(** [MultiLog::propose]. *)
Definition ml_propose (ml : MultiLog) (route : Route) (command : bytes) : MultiLog * bool :=
  let log := ml_route ml route in
  let entry := route_entry route command in
  match ml_logs ml !! log with
  | None => (ml, false)
  | Some node =>
      let '(node, appended) := append_command node (encode_entry entry) in
      (with_logs ml (<[log := node]> (ml_logs ml)), appended)
  end.

(** What the merge reads of a node's replica of a log: [Committed { first, entries }]. *)
Definition committed_of (node : RaftNode) : Committed :=
  mkCommitted (sat_add (snapshot_index node) 1) (committed_entries node).

(** The loop of [MultiLog::scan_globals], from [index] for [turns] entries. *)
Fixpoint scan_from (committed : Committed) (turns : nat) (index latest : N) : N :=
  match turns with
  | O => latest
  | S turns =>
      let latest := match decode_entry ∘ le_command <$> at_index committed index with Some (Global _) => index | _ => latest end in
      scan_from committed turns (sat_add index 1) latest
  end.

(** [MultiLog::scan_globals]. *)
Definition scan_globals (ml : MultiLog) : MultiLog :=
  match head (ml_logs ml) with
  | None => ml
  | Some designated =>
      let committed := committed_of designated in
      let through := sat_add (snapshot_index designated) (len (c_entries committed)) in
      let index := N.max (sat_add (ml_scanned ml) 1) (c_first committed) in
      let turns := N.to_nat (through + 1 - index) in
      mkMultiLog (ml_logs ml) (ml_merge ml) (ml_barriered ml)
        (scan_from committed turns index (ml_latest_global ml)) (N.max (ml_scanned ml) through)
  end.

(** [append_barrier_if_owed]. *)
Definition append_barrier_if_owed (node : RaftNode) (barrier : N * N) (latest : N) : RaftNode * (N * N) * bool :=
  if negb (is_leader node) then (node, barrier, false) else
  let term := current_term node in
  let covered := if barrier.1 =? term then barrier.2 else 0 in
  if negb (covered <? latest) then (node, barrier, false) else
  let '(node, appended) := append_command node (encode_entry (Barrier latest)) in
  if appended then (node, (term, latest), true) else (node, barrier, false).

(** [logs.iter_mut().zip(barriered.iter_mut())…count()], over the part of the two lists the zip pairs. *)
Fixpoint owe_barriers (nodes : list RaftNode) (barriered : list (N * N)) (latest : N) : list RaftNode * list (N * N) * nat :=
  match nodes, barriered with
  | node :: nodes, barrier :: barriered =>
      let '(node, barrier, appended) := append_barrier_if_owed node barrier latest in
      let '(nodes, barriered, count) := owe_barriers nodes barriered latest in
      (node :: nodes, barrier :: barriered, ((if appended then 1 else 0) + count)%nat)
  | _, _ => (nodes, barriered, 0%nat)
  end.

(** [MultiLog::append_barriers]. *)
Definition append_barriers (ml : MultiLog) : MultiLog * nat :=
  let ml := scan_globals ml in
  match ml_logs ml, ml_barriered ml with
  | node :: nodes, barrier :: barriered =>
      let '(nodes, barriered, count) := owe_barriers nodes barriered (ml_latest_global ml) in
      (mkMultiLog (node :: nodes) (ml_merge ml) (barrier :: barriered) (ml_latest_global ml) (ml_scanned ml), count)
  | _, _ => (ml, 0%nat)
  end.

(** [MultiLog::apply_ready]. *)
Definition apply_ready (ml : MultiLog) : MultiLog * list Applied :=
  let ml := scan_globals ml in
  let committed := map committed_of (ml_logs ml) in
  let '(merge, out) := advance (ml_merge ml) committed in
  (mkMultiLog (ml_logs ml) merge (ml_barriered ml) (ml_latest_global ml) (ml_scanned ml), out).

(** [MultiLog::set_priorities]. *)
Definition log_priority (measured : ElectionPriority) (ranked : list HostId) (log : nat) (node : RaftNode) : ElectionPriority :=
  let place := if decide (length ranked = 0%nat) then 0%nat else (log mod length ranked)%nat in
  if bool_decide (ranked !! place = Some (id node)) then PREFERRED else measured.
Definition ml_set_priorities (ml : MultiLog) (measured : ElectionPriority) (ranked : list HostId) : MultiLog :=
  with_logs ml (imap (λ log node, set_priority node (log_priority measured ranked log node)) (ml_logs ml)).
