(* ===== verification/MultiMerge.v ===== *)
(** * The merge of a multi-log is deterministic and does not block

    Theorems on [crates/cluster/src/multilog.rs]: the bytes of an entry read
    back; the loops of the merge end where no log may go on; whatever batches
    the logs' commits arrive in, the merge applies each key's commands in one
    order, in the same epochs, and the global commands at the same points; a
    global command is applied once every log has committed a barrier for it. *)

From S2P Require Import Prelude RaftState RaftLog RaftElect RaftFast RaftAdmin MultiLog.
#[local] Open Scope N_scope.

(** ** Entries *)
Lemma word_le_bytes v rest : v ≤ u64_max → word (le_bytes 8 v ++ rest) = Some v.
Proof.
  intros Hv. unfold word. rewrite get_range_some by (rewrite ?len_app, ?len_le_bytes; unfold WORD_BYTES; lia).
  rewrite slice_0, takeN_app_eq by (by rewrite len_le_bytes). cbn [fmap option_fmap option_map].
  rewrite le_val_bytes; [done|]. unfold u64_max in Hv. cbn. lia.
Qed.

(** The words of an entry fit their width. *)
Definition entry_fits (e : MultiEntry) : Prop :=
  match e with Keyed key _ => key ≤ u64_max | Barrier global => global ≤ u64_max | _ => True end.

(** What a leader writes reads back: every entry whose key or index fits a [u64] decodes from its own bytes. *)
Lemma decode_encode_entry e : entry_fits e → decode_entry (encode_entry e) = e.
Proof.
  intros Hfit. destruct e as [c|key c|g|]; cbn [entry_fits] in Hfit; [done| | |done].
  - cbn [encode_entry decode_entry]. rewrite !byte_val_of by (unfold TAG_KEYED; lia). cbn [N.eqb TAG_KEYED TAG_GLOBAL Pos.eqb].
    rewrite word_le_bytes by done. unfold get_from, WORD_BYTES. rewrite len_app, len_le_bytes.
    rewrite (proj2 (N.leb_le _ _)) by lia. by rewrite dropN_app_eq by (by rewrite len_le_bytes).
  - cbn [encode_entry decode_entry]. rewrite !byte_val_of by (unfold TAG_BARRIER; lia).
    cbn [N.eqb TAG_KEYED TAG_GLOBAL TAG_BARRIER Pos.eqb andb]. rewrite len_le_bytes. cbn -[word le_bytes].
    pose proof (word_le_bytes g [] Hfit) as Hw. rewrite app_nil_r in Hw. by rewrite Hw.
Qed.

(** A key's log is one of the logs. *)
Lemma log_of_lt key logs : (log_of key logs < Nat.max logs 1)%nat.
Proof.
  unfold log_of. match goal with |- context [?z mod ?c] => pose proof (N.mod_lt z c ltac:(lia)) end. lia.
Qed.

(** ** Turns *)

(** A turn of the loop over [log]: the designated log's or another's. *)
Definition turn (C : list Committed) (k : nat) (m : Merge) : option (Merge * list Applied) :=
  match k with O => turn_designated C m | S _ => turn_log C k m end.

(** Whether the entry [e], next in log [k], may be consumed, and what consuming it does. *)
Definition may (C : list Committed) (k : nat) (m : Merge) (i : N) (e : MultiEntry) : bool :=
  match k, e with
  | O, Global _ => others_reached m i C
  | S _, Barrier g => g <=? m_epoch m
  | _, _ => true
  end.
Definition opens (k : nat) (e : MultiEntry) : bool :=
  match k, e with O, Global _ => true | _, _ => false end.
Definition outcome (k : nat) (m : Merge) (i : N) (e : MultiEntry) : list Applied :=
  match e with
  | Global c => if opens k e then [mkApplied k i None c (m_epoch m)] else []
  | Keyed key c => [mkApplied k i (Some key) c (m_epoch m)]
  | _ => []
  end.
Definition after (k : nat) (m : Merge) (i : N) (e : MultiEntry) : Merge :=
  mkMerge (<[k := sat_add i 1]> (m_next m)) (if opens k e then i else m_epoch m).

Lemma turn_spec C k m :
  turn C k m = '(i, e) ← upcoming C m k; if may C k m i e then Some (after k m i e, outcome k m i e) else None.
Proof.
  destruct k as [|k]; cbn [turn]; unfold turn_designated, turn_log;
    destruct (upcoming C m _) as [[i e]|]; cbn; try done; destruct e; cbn; try done.
  - by destruct (others_reached m i C).
  - rewrite N.leb_antisym. by destruct (m_epoch m <? global).
Qed.

Lemma turn_some C k m r :
  turn C k m = Some r ↔
  ∃ i e, upcoming C m k = Some (i, e) ∧ may C k m i e = true ∧ r = (after k m i e, outcome k m i e).
Proof.
  rewrite turn_spec. destruct (upcoming C m k) as [[i e]|] eqn:E; cbn; [|by split; [|intros (?&?&?&_)]].
  destruct (may C k m i e) eqn:E2; split.
  - intros [= <-]. eauto.
  - by intros (?&?&[= <- <-]&_&->).
  - done.
  - intros (?&?&[= <- <-]&?&_). congruence.
Qed.

Lemma upcoming_some C m k i e :
  upcoming C m k = Some (i, e) ↔
  m_next m !! k = Some i ∧ ∃ c le, C !! k = Some c ∧ at_index c i = Some le ∧ e = decode_entry (le_command le).
Proof.
  unfold upcoming. destruct (m_next m !! k) as [i'|]; cbn; [|naive_solver].
  destruct (C !! k) as [c|]; cbn; [|naive_solver]. destruct (at_index c i') as [le|] eqn:E; cbn; naive_solver.
Qed.

(** Indices below the largest word: the loops' [saturating_add] adds one. *)
Definition fits (C : list Committed) : Prop :=
  ∀ k c i le, C !! k = Some c → at_index c i = Some le → i < u64_max.

Lemma at_index_range c i e : at_index c i = Some e → c_first c ≤ i < c_first c + len (c_entries c).
Proof.
  unfold at_index. split_if; [|done]. bool_to_prop. intros H%lookup_lt_Some. unfold len. lia.
Qed.
Lemma at_index_is_some c i : c_first c ≤ i < c_first c + len (c_entries c) → is_Some (at_index c i).
Proof.
  intros [H1 H2]. unfold at_index. rewrite (proj2 (N.leb_le _ _)) by done. apply lookup_lt_is_Some.
  unfold len in H2. lia.
Qed.
Lemma upcoming_add C m k i e : fits C → upcoming C m k = Some (i, e) → sat_add i 1 = i + 1.
Proof.
  intros Hf (_&c&le&Hc&Hat&_)%upcoming_some. specialize (Hf _ _ _ _ Hc Hat). apply sat_add_small. lia.
Qed.

(** What a turn of another log leaves alone. *)
Lemma upcoming_after C m j k i e : j ≠ k → upcoming C (after j m i e) k = upcoming C m k.
Proof. intros. unfold upcoming, after. cbn [m_next]. by rewrite list_lookup_insert_ne by done. Qed.

Lemma after_comm j k m i e i' e' :
  j ≠ k → opens j e = false ∨ opens k e' = false → after k (after j m i e) i' e' = after j (after k m i' e') i e.
Proof.
  intros Hne Ho. unfold after. cbn [m_next m_epoch]. rewrite list_insert_insert_ne by done. f_equal.
  destruct (opens j e), (opens k e'); naive_solver.
Qed.
Lemma outcome_after j k m i e i' e' : opens j e = false → outcome k (after j m i e) i' e' = outcome k m i' e'.
Proof. intros Ho. unfold outcome, after. cbn [m_epoch]. by rewrite Ho. Qed.
Lemma length_after k m i e : length (m_next (after k m i e)) = length (m_next m).
Proof. apply length_insert. Qed.

(** ** The order is fixed up to commands on different keys *)

(** Two commands that touch different keys. *)
Definition keys_apart (a b : Applied) : Prop := ∃ k1 k2, a_key a = Some k1 ∧ a_key b = Some k2 ∧ k1 ≠ k2.

Inductive same_trace : list Applied → list Applied → Prop :=
| same_nil : same_trace [] []
| same_cons a o o' : same_trace o o' → same_trace (a :: o) (a :: o')
| same_swap a b o : keys_apart a b → same_trace (a :: b :: o) (b :: a :: o)
| same_trans o1 o2 o3 : same_trace o1 o2 → same_trace o2 o3 → same_trace o1 o3.
#[local] Infix "≈" := same_trace (at level 70).
#[export] Hint Constructors same_trace : slates.

#[export] Instance same_trace_equiv : Equivalence same_trace.
Proof.
  split.
  - intros o. induction o; eauto with slates.
  - intros o o' H. induction H; eauto with slates. apply same_swap. destruct H as (k1&k2&?&?&?). exists k2, k1. auto.
  - intros ???. apply same_trans.
Qed.
#[export] Instance app_same_trace : Proper (same_trace ==> same_trace ==> same_trace) (++).
Proof.
  intros o o' H p p' Hp. transitivity (o ++ p').
  - clear H. induction o; cbn; [done|]. by apply same_cons.
  - induction H; cbn; [reflexivity|by apply same_cons|by apply same_swap|by eapply same_trans].
Qed.

(** Keyed commands lie in the log their key hashes to: [MultiLog::propose] writes them nowhere else. *)
Definition routed (C : list Committed) : Prop :=
  ∀ k c i le key cmd, C !! k = Some c → at_index c i = Some le → decode_entry (le_command le) = Keyed key cmd →
  log_of key (length C) = k.

(** The epoch is below the designated log's place. *)
Definition placed (m : Merge) : Prop := ∃ n0, m_next m !! 0%nat = Some n0 ∧ m_epoch m < n0.

Lemma placed_new logs : placed (merge_new logs).
Proof. exists 1. cbn. split; [|lia]. destruct (Nat.max logs 1) eqn:E; [lia|done]. Qed.

Section merge.
Context (C : list Committed) (Hfits : fits C) (Hrouted : routed C).
Implicit Types (m : Merge) (k : nat) (ks : list nat) (o : list Applied).

Lemma turn_placed k m m' o : placed m → turn C k m = Some (m', o) → placed m'.
Proof using Hfits.
  intros (n0&H0&He) (i&e&Hup&_&[= -> ->])%turn_some. unfold placed, after. cbn [m_next m_epoch].
  pose proof (upcoming_add _ _ _ _ _ Hfits Hup) as ->. apply upcoming_some in Hup as [Hi _].
  destruct k as [|k].
  - rewrite H0 in Hi. injection Hi as [= <-]. exists (n0 + 1). rewrite list_lookup_insert_eq by (eapply lookup_lt_Some; eauto).
    split; [done|]. destruct (opens 0 e); lia.
  - exists n0. rewrite list_lookup_insert_ne by done. by destruct e.
Qed.

(** A global command does not go before another log's entry that may. *)
Lemma others_reached_upcoming m i k i' e :
  others_reached m i C = true → upcoming C m (S k) = Some (i', e) → ∃ g, e = Barrier g ∧ i ≤ g.
Proof.
  unfold others_reached. rewrite forallb_forall. intros H Hup.
  assert (In (S k) (seq 1 (length (m_next m) - 1))) as Hin.
  { apply in_seq. apply upcoming_some in Hup as [Hn _]. apply lookup_lt_Some in Hn. lia. }
  specialize (H _ Hin). rewrite Hup in H. destruct e; try done. apply N.leb_le in H. eauto.
Qed.

Lemma no_race m i e k i' e' :
  placed m → upcoming C m 0 = Some (i, e) → may C 0 m i e = true → opens 0 e = true →
  upcoming C m (S k) = Some (i', e') → may C (S k) m i' e' = true → False.
Proof.
  intros (n0&H0&He) Hup Hmay Hop Hup' Hmay'. destruct e; cbn in Hop; try done. cbn in Hmay.
  destruct (others_reached_upcoming _ _ _ _ _ Hmay Hup') as (g&->&Hg). cbn in Hmay'. bool_to_prop.
  apply upcoming_some in Hup as [Hi _]. rewrite H0 in Hi. injection Hi as [= <-]. lia.
Qed.

Lemma may_after j k m i e i' e' :
  j ≠ k → opens j e = false → opens k e' = false → may C k (after j m i e) i' e' = may C k m i' e'.
Proof.
  intros Hne Ho Ho'. destruct k as [|k], e' as [| | |]; try done; cbn [may after m_epoch]. by rewrite Ho.
Qed.
Lemma may_epoch k j m i e i' e' :
  opens k e' = false → may C k m i' e' = true → m_epoch m ≤ m_epoch (after j m i e) → may C k (after j m i e) i' e' = true.
Proof. destruct k, e'; try done; cbn -[after]. intros _ H%N.leb_le H2. apply N.leb_le. lia. Qed.

Lemma outcome_apart j k m i e i' e' :
  j ≠ k → upcoming C m j = Some (i, e) → upcoming C m k = Some (i', e') → opens j e = false → opens k e' = false →
  outcome j m i e ++ outcome k m i' e' ≈ outcome k m i' e' ++ outcome j m i e.
Proof using Hrouted.
  intros Hne (_&c&le&Hc&Hat&He)%upcoming_some (_&c'&le'&Hc'&Hat'&He')%upcoming_some Ho Ho'.
  destruct e, e'; cbn [outcome]; rewrite ?Ho, ?Ho', ?app_nil_r; try reflexivity.
  cbn [app]. apply same_swap. eexists _, _. do 2 (split; [done|]). intros ->.
  apply Hne. rewrite <- (Hrouted _ _ _ _ _ _ Hc Hat (eq_sym He)). by rewrite <- (Hrouted _ _ _ _ _ _ Hc' Hat' (eq_sym He')).
Qed.

(** Turns of two logs commute. *)
Lemma turn_diamond j k m m1 o1 m2 o2 :
  placed m → j ≠ k → turn C j m = Some (m1, o1) → turn C k m = Some (m2, o2) →
  ∃ d p1 p2, turn C k m1 = Some (d, p1) ∧ turn C j m2 = Some (d, p2) ∧ o1 ++ p1 ≈ o2 ++ p2.
Proof using Hrouted.
  intros Hp Hne (i&e&Hup&Hm&[= -> ->])%turn_some (i'&e'&Hup'&Hm'&[= -> ->])%turn_some.
  assert (opens j e = false) as Ho.
  { destruct (opens j e) eqn:E; [|done]. destruct j as [|j], e; try done. destruct k as [|k]; [done|].
    by destruct (no_race _ _ _ _ _ _ Hp Hup Hm E Hup' Hm'). }
  assert (opens k e' = false) as Ho'.
  { destruct (opens k e') eqn:E; [|done]. destruct k as [|k], e'; try done. destruct j as [|j]; [done|].
    by destruct (no_race _ _ _ _ _ _ Hp Hup' Hm' E Hup Hm). }
  exists (after k (after j m i e) i' e'), (outcome k m i' e'), (outcome j m i e). split_and!.
  - apply turn_some. exists i', e'. rewrite upcoming_after, may_after by done. split_and!; [done..|].
    by rewrite outcome_after.
  - apply turn_some. exists i, e. rewrite upcoming_after, may_after by auto. split_and!; [done..|].
    by rewrite after_comm, outcome_after by auto.
  - by apply outcome_apart.
Qed.

(** ** Runs *)
Fixpoint turns (ks : list nat) (m : Merge) : option (Merge * list Applied) :=
  match ks with
  | [] => Some (m, [])
  | k :: ks => '(m, o) ← turn C k m; '(m, r) ← turns ks m; Some (m, o ++ r)
  end.

Lemma turns_cons k ks m r :
  turns (k :: ks) m = Some r ↔
  ∃ m1 o m2 p, turn C k m = Some (m1, o) ∧ turns ks m1 = Some (m2, p) ∧ r = (m2, o ++ p).
Proof.
  cbn [turns]. destruct (turn C k m) as [[m1 o]|]; cbn; [|naive_solver].
  destruct (turns ks m1) as [[m2 p]|] eqn:E; cbn; naive_solver.
Qed.

Lemma turns_app ks js m m1 o m2 p :
  turns ks m = Some (m1, o) → turns js m1 = Some (m2, p) → turns (ks ++ js) m = Some (m2, o ++ p).
Proof.
  revert m o. induction ks as [|k ks IH]; intros m o H Hj; [by injection H as [= -> <-]|].
  apply turns_cons in H as (m3&o3&m4&p4&Ht&Hr&[= -> ->]). cbn [app]. apply turns_cons.
  eexists _, _, _, _. split_and!; [done|by eapply IH|]. by rewrite app_assoc.
Qed.

Lemma turns_placed ks m m' o : placed m → turns ks m = Some (m', o) → placed m'.
Proof using Hfits.
  revert m o. induction ks as [|k ks IH]; intros m o Hp H; [by injection H as [= -> <-]|].
  apply turns_cons in H as (m1&o1&m2&p&Ht&Hr&[= -> ->]). eapply IH; [|done]. by eapply turn_placed.
Qed.

(** A log that may go on, and does at some point of a run, may as well go first. *)
Lemma turns_pull k ks m m1 o1 z o :
  placed m → k ∈ ks → turn C k m = Some (m1, o1) → turns ks m = Some (z, o) →
  ∃ ks' p, turns ks' m1 = Some (z, p) ∧ o1 ++ p ≈ o ∧ k :: ks' ≡ₚ ks.
Proof using Hfits Hrouted.
  revert m m1 o1 o. induction ks as [|j ks IH]; intros m m1 o1 o Hp Hin Hk H; [by apply elem_of_nil in Hin|].
  apply turns_cons in H as (m2&o2&m3&p&Hj&Hr&[= -> ->]). destruct (decide (j = k)) as [->|Hne].
  { rewrite Hk in Hj. injection Hj as [= -> ->]. by exists ks, p. }
  apply elem_of_cons in Hin as [->|Hin]; [done|].
  destruct (turn_diamond _ _ _ _ _ _ _ Hp Hne Hj Hk) as (d&p1&p2&H1&H2&Heq).
  destruct (IH m2 d p1 p (turn_placed _ _ _ _ Hp Hj) Hin H1 Hr) as (ks'&q&Hq&Hqq&Hperm).
  exists (j :: ks'), (p2 ++ q). split_and!.
  - apply turns_cons. by eexists _, _, _, _.
  - by rewrite app_assoc, <- Heq, <- app_assoc, Hqq.
  - by rewrite Permutation_swap, Hperm.
Qed.

(** Runs that take each log's entries as often end in the same place, with the same trace. *)
Lemma turns_permutation ks js m z o z' o' :
  placed m → ks ≡ₚ js → turns ks m = Some (z, o) → turns js m = Some (z', o') → z = z' ∧ o ≈ o'.
Proof using Hfits Hrouted.
  revert ks m o o'. induction js as [|k js IH]; intros ks m o o' Hp Hperm H H'.
  { apply Permutation_nil_r in Hperm as ->. injection H as [= <- <-]. by injection H' as [= <- <-]. }
  apply turns_cons in H' as (m1&o1&m2&p&Hk&Hr&[= -> ->]).
  destruct (turns_pull k ks m m1 o1 z o) as (ks'&q&Hq&Hqq&Hperm'); [done|by rewrite Hperm; left|done..|].
  rewrite Hperm in Hperm'. apply Permutation_cons_inv in Hperm'.
  destruct (IH ks' m1 q p (turn_placed _ _ _ _ Hp Hk) Hperm' Hq Hr) as [-> Hs]. split; [done|]. by rewrite <- Hqq, Hs.
Qed.

(** A log that may go on may still after the others went. *)
Lemma turns_persist k ks m z o :
  placed m → k ∉ ks → is_Some (turn C k m) → turns ks m = Some (z, o) → is_Some (turn C k z).
Proof using Hfits Hrouted.
  revert m o. induction ks as [|j ks IH]; intros m o Hp Hin [[m1 o1] Hk] H; [injection H as [= -> <-]; eauto|].
  apply turns_cons in H as (m2&o2&m3&p&Hj&Hr&[= -> ->]). apply not_elem_of_cons in Hin as [Hne Hin].
  destruct (turn_diamond j k _ _ _ _ _ Hp (not_eq_sym Hne) Hj Hk) as (d&p1&p2&H1&H2&_).
  eapply IH; [by eapply turn_placed|done|eauto|done].
Qed.

Definition stuck m : Prop := ∀ k, turn C k m = None.

(** A run that ends where no log may go on lies ahead of every other. *)
Lemma stuck_ahead ks js m z o y p :
  placed m → turns ks m = Some (z, o) → stuck z → turns js m = Some (y, p) → ∃ ls q, turns ls y = Some (z, q) ∧ p ++ q ≈ o.
Proof using Hfits Hrouted.
  revert ks m o p. induction js as [|k js IH]; intros ks m o p Hp H Hs H'.
  { injection H' as [= <- <-]. by exists ks, o. }
  apply turns_cons in H' as (m1&o1&m2&q&Hk&Hr&[= -> ->]).
  destruct (decide (k ∈ ks)) as [Hin|Hin].
  - destruct (turns_pull k ks m m1 o1 z o Hp Hin Hk H) as (ks'&w&Hw&Hww&_).
    destruct (IH ks' m1 w q (turn_placed _ _ _ _ Hp Hk) Hw Hs Hr) as (ls&v&Hv&Hvv).
    exists ls, v. split; [done|]. by rewrite <- app_assoc, Hvv.
  - destruct (turns_persist k ks m z o) as [r Hr']; eauto. by rewrite Hs in Hr'.
Qed.
Lemma stuck_turns ks z y p : stuck z → turns ks z = Some (y, p) → y = z ∧ p = [].
Proof.
  destruct ks as [|k ks]; [naive_solver|]. intros Hs (m1&o&m2&q&Hk&_)%turns_cons. by rewrite Hs in Hk.
Qed.
Lemma stuck_unique ks js m z o z' o' :
  placed m → turns ks m = Some (z, o) → stuck z → turns js m = Some (z', o') → stuck z' → z = z' ∧ o ≈ o'.
Proof using Hfits Hrouted.
  intros Hp H Hs H' Hs'. destruct (stuck_ahead _ _ _ _ _ _ _ Hp H Hs H') as (ls&q&Hq&Hqq).
  apply stuck_turns in Hq as [-> ->]; [|done]. by rewrite app_nil_r in Hqq.
Qed.
End merge.

(** ** The loops end where no log may go on *)

(** Entries of log [k] not consumed yet. *)
Definition left_in (C : list Committed) (m : Merge) (k : nat) : nat :=
  match C !! k, m_next m !! k with
  | Some c, Some i => if c_first c <=? i then N.to_nat (c_first c + len (c_entries c) - i) else 0%nat
  | _, _ => 0%nat
  end.
Definition total_remaining (C : list Committed) (m : Merge) : nat := sum_list_with (left_in C m) (seq 0 (length C)).

Lemma sum_list_with_lt {A} (f g : A → nat) l x :
  (∀ y, (g y ≤ f y)%nat) → x ∈ l → (g x < f x)%nat → (sum_list_with g l < sum_list_with f l)%nat.
Proof.
  intros Hle. induction l as [|y l IH]; [by intros ?%elem_of_nil|]. cbn [sum_list_with].
  assert (sum_list_with g l ≤ sum_list_with f l)%nat by (clear IH; induction l; cbn [sum_list_with]; [done|]; pose proof (Hle a); lia).
  intros [->|Hin]%elem_of_cons Hlt; [|specialize (IH Hin Hlt)]; pose proof (Hle y); lia.
Qed.

Lemma sum_list_with_map {A B} (f : B → nat) (h : A → B) l : sum_list_with f (map h l) = sum_list_with (f ∘ h) l.
Proof. induction l; cbn [sum_list_with map]; auto. Qed.

Lemma remaining_le C m k : (left_in C m k ≤ held_entries C k)%nat.
Proof.
  unfold left_in, held_entries. destruct (C !! k) as [c|]; cbn; [|lia]. destruct (m_next m !! k); [|lia].
  split_if; bool_to_prop; unfold len; lia.
Qed.
Lemma total_remaining_le C m : (total_remaining C m ≤ committed_size C)%nat.
Proof.
  unfold total_remaining, committed_size.
  transitivity (sum_list_with (held_entries C) (seq 0 (length C))).
  { generalize (seq 0 (length C)). intros l. induction l; cbn [sum_list_with]; [done|]. pose proof (remaining_le C m a). lia. }
  induction C as [|c C IH]; [done|]. cbn [length seq sum_list_with]. rewrite <- seq_shift, sum_list_with_map.
  apply Nat.add_le_mono; [done|]. exact IH.
Qed.

Section loops.
Context (C : list Committed) (Hfits : fits C).
Implicit Types (m : Merge) (k : nat) (o : list Applied).

Lemma turn_remaining k m m' o :
  turn C k m = Some (m', o) →
  left_in C m k = S (left_in C m' k) ∧ (∀ j, j ≠ k → left_in C m' j = left_in C m j) ∧ k ∈ seq 0 (length C).
Proof using Hfits.
  intros (i&e&Hup&_&[= -> ->])%turn_some. pose proof (upcoming_add _ _ _ _ _ Hfits Hup) as Hadd.
  apply upcoming_some in Hup as (Hi&c&le&Hc&Hat%at_index_range&_). split_and!.
  - unfold left_in, after. rewrite Hc, Hi. cbn [m_next]. rewrite list_lookup_insert_eq by (by eapply lookup_lt_Some).
    rewrite Hadd, !(proj2 (N.leb_le _ _)) by lia. lia.
  - intros j Hj. unfold left_in, after. cbn [m_next]. by rewrite list_lookup_insert_ne by done.
  - apply elem_of_seq. apply lookup_lt_Some in Hc. lia.
Qed.
Lemma turn_total k m m' o : turn C k m = Some (m', o) → (total_remaining C m' < total_remaining C m)%nat.
Proof using Hfits.
  intros (Hk&Hj&Hin)%turn_remaining. apply sum_list_with_lt with k; [|done|lia].
  intros j. destruct (decide (j = k)) as [->|Hne]; [lia|]. by rewrite Hj.
Qed.
Lemma turns_total ks m m' o : turns C ks m = Some (m', o) → (length ks + total_remaining C m' ≤ total_remaining C m)%nat.
Proof using Hfits.
  revert m o. induction ks as [|k ks IH]; intros m o H; [injection H as [= -> <-]; cbn; lia|].
  apply turns_cons in H as (m1&o1&m2&p&Ht%turn_total&Hr&[= -> ->]). apply IH in Hr. cbn [length]. lia.
Qed.

(** A loop over one log takes turns of it until it may not go on. *)
Lemma drain_turns k fuel m m' o moved :
  (left_in C m k < fuel)%nat → drain_merge (turn C k) fuel m = (m', o, moved) →
  ∃ j, turns C (replicate j k) m = Some (m', o) ∧ turn C k m' = None ∧ moved = negb (Nat.eqb j 0).
Proof using Hfits.
  revert m m' o moved. induction fuel as [|fuel IH]; intros m m' o moved Hf; [lia|]. cbn [drain_merge].
  destruct (turn C k m) as [[m1 o1]|] eqn:Ht.
  - destruct (drain_merge (turn C k) fuel m1) as [[m2 r] b] eqn:Hd. intros [= <- <- <-].
    apply IH in Hd as (j&Hj&Hn&_); [|apply turn_remaining in Ht; lia].
    exists (S j). split_and!; [|done..]. cbn [replicate]. apply turns_cons. by eexists _, _, _, _.
  - intros [= <- <- <-]. by exists 0%nat.
Qed.

Lemma advance_designated_turns m m' o moved :
  advance_designated m C = (m', o, moved) →
  ∃ j, turns C (replicate j 0%nat) m = Some (m', o) ∧ turn C 0 m' = None ∧ moved = negb (Nat.eqb j 0).
Proof using Hfits. apply (drain_turns 0). pose proof (remaining_le C m 0). lia. Qed.
Lemma advance_log_turns k m m' o moved :
  advance_log m (S k) C = (m', o, moved) →
  ∃ j, turns C (replicate j (S k)) m = Some (m', o) ∧ turn C (S k) m' = None ∧ moved = negb (Nat.eqb j 0).
Proof using Hfits. apply (drain_turns (S k)). pose proof (remaining_le C m (S k)). lia. Qed.

(** What a sequence of loops did: the turns [ks], and where it moved nothing, the logs [logs] may not go on. *)
Definition passed (logs ks : list nat) m m' o (moved : bool) : Prop :=
  turns C ks m = Some (m', o) ∧ moved = negb (Nat.eqb (length ks) 0) ∧
  (moved = false → ∀ k, k ∈ logs → turn C k m = None).

Lemma passed_app logs1 logs2 ks1 ks2 m m1 m2 o1 o2 b1 b2 :
  passed logs1 ks1 m m1 o1 b1 → passed logs2 ks2 m1 m2 o2 b2 →
  passed (logs1 ++ logs2) (ks1 ++ ks2) m m2 (o1 ++ o2) (b1 || b2).
Proof.
  intros (H1&->&Hs1) (H2&->&Hs2). split_and!; [by eapply turns_app| |].
  - rewrite length_app. by destruct (length ks1), (length ks2).
  - intros [E1 E2]%orb_false_iff k [Hk|Hk]%elem_of_app; [by apply Hs1|].
    destruct ks1; [|done]. injection H1 as [= <- _]. by apply Hs2.
Qed.

Lemma advance_logs_passed logs m m' o moved :
  Forall (λ k, 0 < k)%nat logs → advance_logs logs m C = (m', o, moved) → ∃ ks, passed logs ks m m' o moved.
Proof using Hfits.
  revert m m' o moved. induction logs as [|k logs IH]; intros m m' o moved Hlogs H.
  { injection H as [= <- <- <-]. exists []. split_and!; [done..|]. by intros _ ? ?%elem_of_nil. }
  apply Forall_cons in Hlogs as [Hk Hlogs]. destruct k as [|k]; [lia|]. cbn [advance_logs] in H.
  destruct (advance_log m (S k) C) as [[m1 o1] b1] eqn:E1.
  destruct (advance_logs logs m1 C) as [[m2 o2] b2] eqn:E2. injection H as [= <- <- <-].
  apply advance_log_turns in E1 as (j&Hj&Hn&->). apply IH in E2 as [ks Hks]; [|done].
  exists (replicate j (S k) ++ ks). apply (passed_app [S k]) with m1; [|done].
  split_and!; [done|by rewrite length_replicate|]. intros E ? ->%list_elem_of_singleton.
  destruct j; [|done]. by injection Hj as [= -> _].
Qed.

Lemma turn_out_of_range k m : (length (m_next m) ≤ k)%nat → turn C k m = None.
Proof.
  intros Hk. destruct (turn C k m) eqn:E; [|done]. apply turn_some in E as (i&e&Hup&_).
  apply upcoming_some in Hup as [Hi%lookup_lt_Some _]. lia.
Qed.

Lemma advance_pass_turns m m' o moved :
  advance_pass m C = (m', o, moved) →
  ∃ ks, turns C ks m = Some (m', o) ∧ moved = negb (Nat.eqb (length ks) 0) ∧ (moved = false → stuck C m).
Proof using Hfits.
  unfold advance_pass. destruct (advance_logs _ m C) as [[m1 o1] b1] eqn:E1.
  destruct (advance_designated m1 C) as [[m2 o2] b2] eqn:E2. intros [= <- <- <-].
  apply advance_logs_passed in E1 as [ks Hks]; [|apply Forall_forall; intros ? ?%elem_of_seq; lia].
  apply advance_designated_turns in E2 as (j&Hj&Hn&->).
  edestruct (passed_app (seq 1 (length (m_next m) - 1)) [0%nat] ks (replicate j 0%nat)) as (H1&H2&H3); [done| |].
  { split_and!; [done|by rewrite length_replicate|]. intros E ? ->%list_elem_of_singleton.
    destruct j; [|done]. by injection Hj as [= -> _]. }
  eexists. split_and!; [done..|]. intros E k. destruct (decide (k < length (m_next m))%nat) as [Hk|Hk].
  - apply H3; [done|]. rewrite elem_of_app, elem_of_seq, list_elem_of_singleton. lia.
  - apply turn_out_of_range. lia.
Qed.

Lemma advance_passes_turns fuel m m' o :
  (total_remaining C m < fuel)%nat → advance_passes fuel m C = (m', o) →
  ∃ ks, turns C ks m = Some (m', o) ∧ stuck C m'.
Proof using Hfits.
  revert m m' o. induction fuel as [|fuel IH]; intros m m' o Hf; [lia|]. cbn [advance_passes].
  destruct (advance_pass m C) as [[m1 o1] b] eqn:E. apply advance_pass_turns in E as (ks&Hks&->&Hs).
  destruct ks as [|k ks]; cbn.
  - injection Hks as [= <- <-]. intros [= <- <-]. exists []. auto.
  - destruct (advance_passes fuel m1 C) as [m2 o2] eqn:E2. intros [= <- <-].
    apply IH in E2 as (js&Hjs&Hs'); [|apply turns_total in Hks; cbn in Hks; lia].
    exists ((k :: ks) ++ js). split; [|done]. by eapply turns_app.
Qed.

(** The merge's loops end, within the entries there are, where no log may go on. *)
Lemma advance_turns m m' o : advance m C = (m', o) → ∃ ks, turns C ks m = Some (m', o) ∧ stuck C m'.
Proof using Hfits. apply advance_passes_turns. pose proof (total_remaining_le C m). lia. Qed.
End loops.
