(* ===== verification/MultiOrder.v ===== *)
(** * What the replicas of a multi-log apply

    Theorems on the order of [crates/cluster/src/multilog.rs]: replicas that
    see the logs' commits in different batches reach the same state, the merge
    waits only for entries that are not committed yet, a global command is
    applied once every log has a barrier for it, and a single log is applied
    in its own order. *)

From S2P Require Import Prelude RaftState RaftLog RaftElect RaftFast RaftAdmin MultiLog MultiMerge.
#[local] Open Scope N_scope.
#[local] Infix "≈" := same_trace (at level 70).

(** ** Growing views *)

(** Log [k] shows the entry [le] at index [i]. *)
Definition shown (C : list Committed) (k : nat) (i : N) (le : LogEntry) : Prop :=
  ∃ c, C !! k = Some c ∧ at_index c i = Some le.

(** What one view of the logs shows, another shows too: it has committed more, or compacted less. *)
Definition shows (C D : list Committed) : Prop := ∀ k i le, shown C k i le → shown D k i le.
#[export] Instance shows_preorder : PreOrder shows.
Proof. split; unfold shows; [auto|]. intros ??? H1 H2 ????. by apply H2, H1. Qed.

Lemma shown_inj C k i le le' : shown C k i le → shown C k i le' → le = le'.
Proof. intros (c&Hc&H) (c'&Hc'&H'). by simplify_eq. Qed.
Lemma upcoming_shown C m k i e :
  upcoming C m k = Some (i, e) ↔ m_next m !! k = Some i ∧ ∃ le, shown C k i le ∧ e = decode_entry (le_command le).
Proof. rewrite upcoming_some. unfold shown. naive_solver. Qed.

Section views.
Context (C D : list Committed) (HCD : shows C D).

Lemma upcoming_shows m k x : upcoming C m k = Some x → upcoming D m k = Some x.
Proof using HCD. destruct x. rewrite !upcoming_shown. naive_solver. Qed.
Lemma others_reached_shows m i : others_reached m i C = true → others_reached m i D = true.
Proof using HCD.
  unfold others_reached. rewrite !forallb_forall. intros H k Hk. specialize (H k Hk).
  destruct (upcoming C m k) as [x|] eqn:E; [|done]. by rewrite (upcoming_shows _ _ _ E).
Qed.
Lemma turn_shows k m r : turn C k m = Some r → turn D k m = Some r.
Proof using HCD.
  rewrite !turn_some. intros (i&e&Hup&Hm&->). exists i, e. split_and!; [by apply upcoming_shows| |done].
  destruct k, e; try done. by apply others_reached_shows.
Qed.
Lemma turns_shows ks m r : turns C ks m = Some r → turns D ks m = Some r.
Proof using HCD.
  revert m r. induction ks as [|k ks IH]; [done|]. intros m r (m1&o&m2&p&Ht&Hr&->)%turns_cons.
  apply turns_cons. eexists _, _, _, _. split_and!; [by apply turn_shows|by apply IH|done].
Qed.
Lemma fits_shows : fits D → fits C.
Proof using HCD.
  intros H k c i le Hc Hat. destruct (HCD k i le) as (c'&Hc'&Hat'); [by exists c|]. by eapply H.
Qed.
End views.

(** A replica's history: the merge advanced over the views it had, in turn. *)
Fixpoint replay_views (views : list (list Committed)) (m : Merge) : Merge * list Applied :=
  match views with
  | [] => (m, [])
  | C :: views => let '(m, out) := advance m C in let '(m, rest) := replay_views views m in (m, out ++ rest)
  end.

Lemma replay_turns D views m z o :
  fits D → Forall (λ C, shows C D) views → replay_views views m = (z, o) → ∃ ks, turns D ks m = Some (z, o).
Proof.
  intros HD. revert m o. induction views as [|C views IH]; intros m o Hv H.
  { injection H as [= <- <-]. by exists []. }
  apply Forall_cons in Hv as [HC Hv]. cbn [replay_views] in H. destruct (advance m C) as [m1 o1] eqn:E.
  destruct (replay_views views m1) as [m2 o2] eqn:E2. injection H as [= <- <-].
  apply advance_turns in E as (ks&Hks&_); [|by eapply fits_shows]. apply IH in E2 as [js Hjs]; [|done].
  exists (ks ++ js). eapply turns_app; [|done]. by eapply turns_shows.
Qed.

Lemma replay_last views D m z o :
  replay_views (views ++ [D]) m = (z, o) →
  ∃ m1 o1 o2, replay_views views m = (m1, o1) ∧ advance m1 D = (z, o2) ∧ o = o1 ++ o2.
Proof.
  revert m o. induction views as [|C views IH]; intros m o; cbn [app replay_views].
  - destruct (advance m D) as [m1 o1] eqn:E. intros [= <- <-]. exists m, [], o1. by rewrite app_nil_r.
  - destruct (advance m C) as [m1 o1]. destruct (replay_views (views ++ [D]) m1) as [m2 o2] eqn:E. intros [= <- <-].
    apply IH in E as (m3&o3&o4&H1&H2&->). rewrite H1. exists m3, (o1 ++ o3), o4. by rewrite app_assoc.
Qed.

Lemma replay_complete D views m z o :
  fits D → Forall (λ C, shows C D) views → replay_views (views ++ [D]) m = (z, o) →
  ∃ ks, turns D ks m = Some (z, o) ∧ stuck D z.
Proof.
  intros HD Hv (m1&o1&o2&H1&H2&->)%replay_last. apply (replay_turns D) in H1 as [ks Hks]; [|done..].
  apply advance_turns in H2 as (js&Hjs&Hs); [|done]. exists (ks ++ js). split; [|done]. by eapply turns_app.
Qed.

(** ** Places and turns *)
Lemma turns_next C ks m z o k n :
  fits C → turns C ks m = Some (z, o) → m_next m !! k = Some n →
  m_next z !! k = Some (n + N.of_nat (count_occ Nat.eq_dec ks k)).
Proof.
  intros HC. revert m o n. induction ks as [|j ks IH]; intros m o n H Hn.
  { injection H as [= <- _]. cbn. by rewrite N.add_0_r. }
  apply turns_cons in H as (m1&o1&m2&p&(i&e&Hup&_&[= -> ->])%turn_some&Hr&[= -> ->]).
  pose proof (upcoming_add _ _ _ _ _ HC Hup) as Ha. apply upcoming_some in Hup as [Hi _].
  cbn [count_occ]. destruct (Nat.eq_dec j k) as [->|Hne].
  - assert (i = n) as -> by congruence. rewrite (IH _ _ (n + 1) Hr); [f_equal; lia|]. unfold after. cbn [m_next].
    rewrite Ha. by rewrite list_lookup_insert_eq by (by eapply lookup_lt_Some).
  - apply (IH _ _ n Hr). unfold after. cbn [m_next]. by rewrite list_lookup_insert_ne.
Qed.
Lemma turns_in_range C ks m z o k : turns C ks m = Some (z, o) → k ∈ ks → (k < length (m_next m))%nat.
Proof.
  revert m o. induction ks as [|j ks IH]; intros m o H Hk; [by apply elem_of_nil in Hk|].
  apply turns_cons in H as (m1&o1&m2&p&(i&e&Hup&_&[= -> ->])%turn_some&Hr&[= -> ->]).
  apply elem_of_cons in Hk as [->|Hk].
  - apply upcoming_some in Hup as [Hi _]. by eapply lookup_lt_Some.
  - erewrite <- length_after. by eapply IH.
Qed.

(** Runs to the same place took the same turns, in some order. *)
Lemma same_place_permutation C ks js m z o z' o' :
  fits C → turns C ks m = Some (z, o) → turns C js m = Some (z', o') → m_next z = m_next z' → ks ≡ₚ js.
Proof.
  intros HC H H' Heq. apply (Permutation_count_occ Nat.eq_dec). intros k.
  destruct (m_next m !! k) as [n|] eqn:Hn.
  - pose proof (turns_next _ _ _ _ _ _ _ HC H Hn). pose proof (turns_next _ _ _ _ _ _ _ HC H' Hn). rewrite Heq in *.
    simplify_eq. lia.
  - apply lookup_ge_None in Hn. rewrite !(proj1 (count_occ_not_In _ _ _)); [done|..];
      intros Hin%list_elem_of_In; [eapply (turns_in_range C js) in Hin|eapply (turns_in_range C ks) in Hin]; try done; lia.
Qed.

(** ** Application *)
Section application.
Context {G K : Type}.

(** A keyed command reads the global state and writes its key's; a global one may write anything. *)
Context (keyed : G → Applied → option K → K) (global : G * gmap N K → Applied → G * gmap N K).

Definition apply_one (s : G * gmap N K) (a : Applied) : G * gmap N K :=
  match a_key a with
  | Some key => (s.1, <[key := keyed s.1 a (s.2 !! key)]> s.2)
  | None => global s a
  end.
Definition apply_all (s : G * gmap N K) (out : list Applied) : G * gmap N K := foldl apply_one s out.

Lemma apply_apart s a b : keys_apart a b → apply_one (apply_one s a) b = apply_one (apply_one s b) a.
Proof.
  intros (k1&k2&H1&H2&Hne). unfold apply_one. rewrite H1, H2. cbn [fst snd].
  rewrite !lookup_insert_ne by done. by rewrite insert_insert_ne.
Qed.
#[export] Instance apply_all_same_trace s : Proper (same_trace ==> eq) (apply_all s).
Proof.
  intros o o' H. revert s. induction H as [|a o o' H IH|a b o Hab|o1 o2 o3 H1 IH1 H2 IH2]; intros s; cbn [apply_all foldl].
  - done.
  - apply IH.
  - by rewrite apply_apart.
  - by rewrite IH1.
Qed.
End application.

(** The commands that touch a key, and the global ones. *)
Definition touching (key : N) (out : list Applied) : list Applied :=
  filter (λ a, a_key a = None ∨ a_key a = Some key) out.
#[export] Instance touching_same_trace key : Proper (same_trace ==> eq) (touching key).
Proof.
  intros o o' H. unfold touching. induction H as [|a o o' H IH|a b o (k1&k2&H1&H2&Hne)|o1 o2 o3 H1 IH1 H2 IH2].
  - done.
  - rewrite !filter_cons. by rewrite IH.
  - rewrite !filter_cons, H1, H2. repeat case_decide; naive_solver.
  - by rewrite IH1.
Qed.

(** ** Replicas apply alike *)

(** C8. Whatever batches two replicas see the logs' commits in, once both have seen the same committed entries
    they stand at the same place in every log, and have reached the same state of the group: for any state with a
    global part and a part per key, any keyed command that reads the global part and writes its key's, and any
    global command. *)
Theorem batches_apply_alike {G K} (keyed : G → Applied → option K → K) global s D views views' m z o z' o' :
  fits D → routed D → placed m →
  Forall (λ C, shows C D) views → Forall (λ C, shows C D) views' →
  replay_views (views ++ [D]) m = (z, o) → replay_views (views' ++ [D]) m = (z', o') →
  z = z' ∧ apply_all keyed global s o = apply_all keyed global s o'.
Proof.
  intros HD Hr Hp Hv Hv' H H'. apply (replay_complete D) in H as (ks&Hks&Hs); [|done..].
  apply (replay_complete D) in H' as (js&Hjs&Hs'); [|done..].
  destruct (stuck_unique D HD Hr ks js m z o z' o') as [-> Ho]; [done..|]. by rewrite Ho.
Qed.

(** ** What the merge waits for *)

(** Everything consumed below the merge's place is below its epoch: the global commands of the designated log, and
    the barriers of the others. *)
Record settled (C : list Committed) (m : Merge) : Prop := {
  settled_global : ∀ n0 i le cmd, m_next m !! 0%nat = Some n0 → i < n0 → shown C 0 i le →
    decode_entry (le_command le) = Global cmd → i ≤ m_epoch m;
  settled_barrier : ∀ k n i le g, m_next m !! S k = Some n → i < n → shown C (S k) i le →
    decode_entry (le_command le) = Barrier g → g ≤ m_epoch m
}.

(** A barrier names a global command of the designated log: one it shows, or one past everything it shows. *)
Definition names_globals (C : list Committed) : Prop :=
  ∀ k i le g, shown C (S k) i le → decode_entry (le_command le) = Barrier g →
  (∃ le' cmd, shown C 0 g le' ∧ decode_entry (le_command le') = Global cmd) ∨ ∀ j le', shown C 0 j le' → j < g.

(** The merge of a replica that has advanced, from its start, over views of what [C] shows. *)
Definition replica_at (C : list Committed) (m : Merge) : Prop :=
  (∀ k c, C !! k = Some c → 1 ≤ c_first c) ∧
  ∃ logs views o, Forall (λ V, shows V C) views ∧ replay_views views (merge_new logs) = (m, o).

Lemma settled_new C logs : (∀ k c, C !! k = Some c → 1 ≤ c_first c) → settled C (merge_new logs).
Proof.
  intros Hf. split.
  - intros n0 i le cmd Hn Hi (c&Hc&Hat%at_index_range). apply Hf in Hc. apply lookup_replicate in Hn as [-> _]. lia.
  - intros k n i le g Hn Hi (c&Hc&Hat%at_index_range). apply Hf in Hc. apply lookup_replicate in Hn as [-> _]. lia.
Qed.

Section progress.
Context (C : list Committed) (Hfits : fits C).
Implicit Types (m : Merge) (k : nat).

Lemma after_next k m i e n :
  upcoming C m k = Some (i, e) → m_next (after k m i e) !! k = Some n → n = i + 1.
Proof using Hfits.
  intros Hup. unfold after. cbn [m_next]. rewrite (upcoming_add _ _ _ _ _ Hfits Hup).
  apply upcoming_some in Hup as [Hi%lookup_lt_Some _]. rewrite list_lookup_insert_eq by done. by intros [= <-].
Qed.

Lemma turn_settled k m m' o : placed m → settled C m → turn C k m = Some (m', o) → settled C m'.
Proof using Hfits.
  intros (p0&Hp0&Hpe) Hs (i&e&Hup&Hm&[= -> ->])%turn_some.
  assert (m_epoch m ≤ m_epoch (after k m i e)) as Hepoch.
  { unfold after. cbn [m_epoch]. destruct (opens k e) eqn:E; [|done]. destruct k, e; try done.
    apply upcoming_some in Hup as [Hi _]. simplify_eq. lia. }
  pose proof Hup as Hup'. apply upcoming_shown in Hup as (Hi&le0&Hle0&He).
  split.
  - intros n0 j le cmd Hn Hj Hle Hd. destruct (decide (k = 0%nat)) as [->|Hk].
    + pose proof (after_next _ _ _ _ _ Hup' Hn) as ->. destruct (decide (j = i)) as [->|Hne].
      * rewrite (shown_inj _ _ _ _ _ Hle Hle0) in Hd. rewrite Hd in He. subst e. cbn. lia.
      * etransitivity; [|done]. by apply (settled_global _ _ Hs i j le cmd Hi ltac:(lia)).
    + unfold after in Hn. cbn [m_next] in Hn. rewrite list_lookup_insert_ne in Hn by done.
      etransitivity; [|done]. by apply (settled_global _ _ Hs n0 j le cmd).
  - intros k' n j le g Hn Hj Hle Hd. etransitivity; [|done]. destruct (decide (k = S k')) as [->|Hk].
    + pose proof (after_next _ _ _ _ _ Hup' Hn) as ->. destruct (decide (j = i)) as [->|Hne].
      * rewrite (shown_inj _ _ _ _ _ Hle Hle0) in Hd. rewrite Hd in He. subst e. cbn in Hm. by apply N.leb_le.
      * by apply (settled_barrier _ _ Hs k' i j le g Hi ltac:(lia)).
    + unfold after in Hn. cbn [m_next] in Hn. rewrite list_lookup_insert_ne in Hn by done.
      by apply (settled_barrier _ _ Hs k' n j le g).
Qed.

Lemma turns_settled ks m m' o : placed m → settled C m → turns C ks m = Some (m', o) → settled C m' ∧ placed m'.
Proof using Hfits.
  revert m o. induction ks as [|k ks IH]; intros m o Hp Hs H; [by injection H as [= -> <-]|].
  apply turns_cons in H as (m1&o1&m2&p&Ht&Hr&[= -> ->]).
  eapply IH; [by eapply turn_placed|by eapply turn_settled|done].
Qed.

(** Where no log may go on, the designated log waits at a global command, and another log that shows its next entry
    waits there at a barrier that covers it. *)
Lemma stuck_designated m i e : stuck C m → upcoming C m 0 = Some (i, e) → (∃ cmd, e = Global cmd) ∧ others_reached m i C = false.
Proof.
  intros Hs Hup. specialize (Hs 0%nat). rewrite turn_spec, Hup in Hs. cbn [mbind option_bind may] in Hs.
  destruct e; try done. destruct (others_reached m i C); [done|]. eauto.
Qed.
Lemma stuck_barrier m n0 le0 k i e :
  names_globals C → settled C m → stuck C m → m_next m !! 0%nat = Some n0 → shown C 0 n0 le0 →
  upcoming C m (S k) = Some (i, e) → ∃ g, e = Barrier g ∧ n0 ≤ g.
Proof.
  intros Hn Hset Hs H0 Hle0 Hup. specialize (Hs (S k)). rewrite turn_spec, Hup in Hs. cbn [mbind option_bind may] in Hs.
  destruct e as [| |g|]; try done. destruct (g <=? m_epoch m) eqn:E; [done|]. bool_to_prop.
  apply upcoming_shown in Hup as (Hi&le&Hle&He). exists g. split; [done|].
  destruct (Hn _ _ _ _ Hle (eq_sym He)) as [(le'&cmd&Hle'&Hcmd)|Hpast]; [|specialize (Hpast _ _ Hle0); lia]. destruct (decide (n0 ≤ g)); [done|].
  pose proof (settled_global _ _ Hset n0 g le' cmd H0 ltac:(lia) Hle' Hcmd). lia.
Qed.
Lemma others_reached_all m i :
  (∀ k, (S k < length (m_next m))%nat → ∃ j g, upcoming C m (S k) = Some (j, Barrier g) ∧ i ≤ g) → others_reached m i C = true.
Proof.
  intros H. unfold others_reached. apply forallb_forall. intros [|k] Hk%in_seq; [lia|].
  destruct (H k ltac:(lia)) as (j&g&->&Hg). by apply N.leb_le.
Qed.
Lemma others_reached_stuck m n0 le0 :
  names_globals C → settled C m → stuck C m → m_next m !! 0%nat = Some n0 → shown C 0 n0 le0 →
  (∀ k, (S k < length (m_next m))%nat → is_Some (upcoming C m (S k))) → others_reached m n0 C = true.
Proof.
  intros Hn Hset Hs H0 Hle0 Hall. apply others_reached_all. intros k Hk. destruct (Hall k Hk) as [[j e] Hup].
  destruct (stuck_barrier _ _ _ _ _ _ Hn Hset Hs H0 Hle0 Hup) as (g&->&Hg). eauto.
Qed.
Lemma turns_length ks m m' o : turns C ks m = Some (m', o) → length (m_next m') = length (m_next m).
Proof.
  revert m o. induction ks as [|k ks IH]; intros m o H; [by injection H as [= -> <-]|].
  apply turns_cons in H as (m1&o1&m2&p&(i&e&_&_&[= -> ->])%turn_some&Hr&[= -> ->]).
  rewrite (IH _ _ Hr). apply length_after.
Qed.
Lemma turns_epoch_next ks m m' o k n n' :
  turns C ks m = Some (m', o) → m_next m !! k = Some n → m_next m' !! k = Some n' → n ≤ n'.
Proof using Hfits. intros H Hn Hn'. rewrite (turns_next _ _ _ _ _ _ _ Hfits H Hn) in Hn'. simplify_eq. lia. Qed.

Lemma replica_settled m : replica_at C m → placed m ∧ settled C m.
Proof using Hfits.
  intros (Hf&logs&views&o&Hv&H). apply (replay_turns C) in H as [ks Hks]; [|done..].
  destruct (turns_settled _ _ _ _ (placed_new logs) (settled_new C logs Hf) Hks). done.
Qed.

(** The turns of a run each take an entry: there are no more than entries. *)
Lemma turns_bound ks m m' o : turns C ks m = Some (m', o) → (length ks ≤ committed_size C)%nat.
Proof using Hfits. intros H%turns_total; [|done]. pose proof (total_remaining_le C m). lia. Qed.

(** What a run applied of the entry at [g] of the designated log. *)
Definition applied_at (g : N) (o : list Applied) : list Applied := filter (λ a, a_log a = 0%nat ∧ a_index a = g) o.

Lemma applied_at_outcome g k m i e : (k ≠ 0%nat ∨ i ≠ g) → applied_at g (outcome k m i e) = [].
Proof.
  intros Hne. unfold applied_at. apply filter_none. intros a Ha [Hl Hi]. unfold outcome in Ha.
  destruct e; [destruct (opens k _)|..]; (apply list_elem_of_singleton in Ha as -> || by apply elem_of_nil in Ha); cbn in *; naive_solver.
Qed.
Lemma turns_past g ks m m' o n0 :
  turns C ks m = Some (m', o) → m_next m !! 0%nat = Some n0 → g < n0 → applied_at g o = [].
Proof using Hfits.
  revert m o n0. induction ks as [|k ks IH]; intros m o n0 H H0 Hg; [by injection H as [= _ <-]|].
  apply turns_cons in H as (m1&o1&m2&p&(i&e&Hup&_&[= -> ->])%turn_some&Hr&[= -> ->]).
  unfold applied_at. rewrite filter_app. fold (applied_at g (outcome k m i e)) (applied_at g p).
  rewrite applied_at_outcome; [cbn [app]|destruct k; [right|by left]].
  - destruct k as [|k].
    + pose proof Hup as [Hi _]%upcoming_some. simplify_eq. apply (IH _ _ (n0 + 1) Hr); [|lia].
      unfold after. cbn [m_next]. rewrite (upcoming_add _ _ _ _ _ Hfits Hup).
      by rewrite list_lookup_insert_eq by (by eapply lookup_lt_Some).
    + apply (IH _ _ n0 Hr); [|done]. unfold after. cbn [m_next]. by rewrite list_lookup_insert_ne.
  - apply upcoming_some in Hup as [Hi _]. simplify_eq. lia.
Qed.
(** A run that passes a global command applies it, once. *)
Lemma turns_apply g le cmd ks m m' o n0 n1 :
  turns C ks m = Some (m', o) → m_next m !! 0%nat = Some n0 → m_next m' !! 0%nat = Some n1 → n0 ≤ g < n1 →
  shown C 0 g le → decode_entry (le_command le) = Global cmd →
  ∃ epoch, applied_at g o = [mkApplied 0 g None cmd epoch].
Proof using Hfits.
  intros H H0 H1 Hg Hle Hcmd. revert m o n0 H H0 Hg. induction ks as [|k ks IH]; intros m o n0 H H0 Hg.
  { injection H as [= <- _]. simplify_eq. lia. }
  apply turns_cons in H as (m2&o1&m3&p&(i&e&Hup&_&[= -> ->])%turn_some&Hr&[= -> ->]).
  unfold applied_at. rewrite filter_app. fold (applied_at g (outcome k m i e)) (applied_at g p).
  destruct (decide (k = 0%nat)) as [->|Hk].
  - pose proof (upcoming_add _ _ _ _ _ Hfits Hup) as Hadd. pose proof Hup as (Hi&le0&Hle0&He)%upcoming_shown. simplify_eq.
    assert (m_next (after 0 m n0 (decode_entry (le_command le0))) !! 0%nat = Some (n0 + 1)) as Hn.
    { unfold after. cbn [m_next]. rewrite Hadd. by rewrite list_lookup_insert_eq by (by eapply lookup_lt_Some). }
    destruct (decide (n0 = g)) as [->|Hne].
    + rewrite (shown_inj _ _ _ _ _ Hle0 Hle) in *. rewrite (turns_past _ _ _ _ _ _ Hr Hn), app_nil_r by lia.
      rewrite Hcmd. cbn [outcome opens]. unfold applied_at. rewrite filter_cons_True, filter_nil by done. eauto.
    + rewrite applied_at_outcome by (by right). cbn [app]. apply (IH _ _ _ Hr Hn). lia.
  - rewrite applied_at_outcome by (by left). cbn [app]. apply (IH _ _ n0 Hr); [|done].
    unfold after. cbn [m_next]. by rewrite list_lookup_insert_ne.
Qed.
End progress.

(** C10. Advancing the merge ends, and waits only for entries that are not committed yet.  At a replica that has
    advanced from its start over earlier views of the logs, where each barrier names a global command of the
    designated log, shown or still to come: the passes of an advance take at most as many turns as there are entries,
    each consuming one; they end where no log may take another turn; and then there is a log whose next entry this
    replica has not committed, so that no order of barriers and global commands blocks it. *)
Theorem advance_stops_at_an_end C m m' o :
  fits C → names_globals C → replica_at C m → advance m C = (m', o) →
  (∃ ks, turns C ks m = Some (m', o) ∧ (length ks ≤ committed_size C)%nat)
  ∧ stuck C m'
  ∧ ∃ k, (k < length (m_next m'))%nat ∧ upcoming C m' k = None.
Proof.
  intros HC Hn Hrep (ks&Hks&Hs)%advance_turns; [|done]. destruct (replica_settled C HC m Hrep) as [Hp Hset].
  split_and!; [exists ks; split; [done|by eapply turns_bound]|done|].
  destruct (turns_settled _ HC _ _ _ _ Hp Hset Hks) as [Hset' (n0&H0&_)].
  destruct (upcoming C m' 0) as [[i e]|] eqn:Hup; [|exists 0%nat; split; [by eapply lookup_lt_Some|done]].
  destruct (stuck_designated _ _ _ _ Hs Hup) as [_ Hor]. apply upcoming_shown in Hup as (Hi&le0&Hle0&_). simplify_eq.
  destruct (decide (Exists (λ k, upcoming C m' k = None) (seq 1 (length (m_next m') - 1)))) as [Hex|Hall].
  { apply Exists_exists in Hex as (k&Hk%elem_of_seq&E). exists k. split; [lia|done]. }
  apply not_Exists_Forall in Hall; [|intros ?; apply _]. rewrite Forall_forall in Hall.
  rewrite (others_reached_stuck C m' n0 le0) in Hor; try done. intros k Hk. apply not_eq_None_Some.
  apply Hall, elem_of_seq. lia.
Qed.

(** C9. A global command is applied once every log has a barrier for it.  At a replica that has advanced from its
    start over earlier views of the logs, where each barrier names a global command of the designated log, shown or
    still to come: let the replica have committed a global command at [g] of the designated log and not consumed it,
    with nothing missing before it there, and let every other log have committed, with nothing missing before it, a
    barrier naming [g] or a later global command.  Then advancing the merge applies the command of [g], exactly
    once, and the epoch it leaves is at least [g]. *)
Theorem barriers_open_global C m m' o n0 g le cmd :
  fits C → names_globals C → replica_at C m → advance m C = (m', o) →
  m_next m !! 0%nat = Some n0 → n0 ≤ g → shown C 0 g le → decode_entry (le_command le) = Global cmd →
  (∀ i, n0 ≤ i ≤ g → ∃ le, shown C 0 i le) →
  (∀ k n, m_next m !! S k = Some n → ∃ p le b, n ≤ p ∧ shown C (S k) p le ∧ decode_entry (le_command le) = Barrier b ∧
     g ≤ b ∧ ∀ i, n ≤ i ≤ p → ∃ le, shown C (S k) i le) →
  (∃ epoch, applied_at g o = [mkApplied 0 g None cmd epoch]) ∧ g ≤ m_epoch m'.
Proof.
  intros HC Hn Hrep (ks&Hks&Hs)%advance_turns Hn0 Hng Hg Hcmd Hgap Hbar; [|done].
  destruct (replica_settled C HC m Hrep) as [Hp Hset].
  destruct (turns_settled _ HC _ _ _ _ Hp Hset Hks) as [Hset' (n1&H1&He1)].
  destruct (decide (g < n1)) as [Hpast|Hn1].
  { split; [by eapply (turns_apply C HC)|]. by eapply (settled_global _ _ Hset' n1 g le cmd). }
  exfalso. apply N.nlt_ge in Hn1. pose proof (turns_epoch_next _ HC _ _ _ _ _ _ _ Hks Hn0 H1).
  destruct (Hgap n1 ltac:(lia)) as [le1 Hle1].
  destruct (stuck_designated C m' n1 (decode_entry (le_command le1)) Hs) as [_ Hor]; [apply upcoming_shown; eauto|].
  rewrite (others_reached_stuck C m' n1 le1) in Hor; try done. intros k Hk.
  apply lookup_lt_is_Some in Hk as [n' Hn']. pose proof (lookup_lt_Some _ _ _ Hn') as Hk.
  rewrite (turns_length _ _ _ _ _ Hks) in Hk. apply lookup_lt_is_Some in Hk as [n Hnk].
  destruct (Hbar k n Hnk) as (p&lep&b&Hnp&Hlep&Hb&Hgb&Hall).
  pose proof (turns_epoch_next _ HC _ _ _ _ _ _ _ Hks Hnk Hn').
  assert (n' ≤ p) as Hpn.
  { destruct (decide (n' ≤ p)); [done|]. pose proof (settled_barrier _ _ Hset' k n' p lep b Hn' ltac:(lia) Hlep Hb).
    simplify_eq. lia. }
  destruct (Hall n' ltac:(lia)) as [le' Hle']. eexists (n', _). apply upcoming_shown. eauto.
Qed.

(** ** One log *)

(** The commands of one log, in its own order. *)
Fixpoint in_order (i epoch : N) (entries : list LogEntry) : list Applied * N :=
  match entries with
  | [] => ([], epoch)
  | le :: rest =>
      match decode_entry (le_command le) with
      | Global c => let '(out, last) := in_order (i + 1) i rest in (mkApplied 0 i None c epoch :: out, last)
      | Keyed key c => let '(out, last) := in_order (i + 1) epoch rest in (mkApplied 0 i (Some key) c epoch :: out, last)
      | Barrier _ | NoOp => in_order (i + 1) epoch rest
      end
  end.

Lemma at_index_app first pre le rest i :
  i = first + len pre → at_index (mkCommitted first (pre ++ le :: rest)) i = Some le.
Proof.
  intros ->. unfold at_index. cbn [c_first c_entries]. rewrite (proj2 (N.leb_le _ _)) by lia.
  rewrite lookup_app_r by (unfold len; lia). replace (_ - _)%nat with 0%nat by (unfold len; lia). done.
Qed.
Lemma single_turns first pre rest epoch :
  first + len (pre ++ rest) ≤ u64_max →
  turns [mkCommitted first (pre ++ rest)] (replicate (length rest) 0%nat) (mkMerge [first + len pre] epoch) =
  Some (mkMerge [first + len (pre ++ rest)] (in_order (first + len pre) epoch rest).2, (in_order (first + len pre) epoch rest).1).
Proof.
  revert pre epoch. induction rest as [|le rest IH]; intros pre epoch Hb; [cbn; by rewrite app_nil_r|].
  assert (sat_add (first + len pre) 1 = first + len (pre ++ [le])) as Hadd.
  { rewrite len_app in *. rewrite len_cons in *. rewrite sat_add_small by lia. rewrite len_nil. lia. }
  pose proof (cons_middle le pre rest) as Hm. rewrite Hm in *.
  assert (upcoming [mkCommitted first (pre ++ [le] ++ rest)] (mkMerge [first + len pre] epoch) 0 =
          Some (first + len pre, decode_entry (le_command le))) as Hup.
  { apply upcoming_some. split; [done|]. eexists _, le. split_and!; [done|by apply at_index_app|done]. }
  cbn [replicate length]. apply turns_cons.
  eexists (after 0 (mkMerge [first + len pre] epoch) (first + len pre) (decode_entry (le_command le))), _, _, _.
  split_and!.
  - apply turn_some. eexists _, _. split_and!; [done| |done]. by destruct (decode_entry (le_command le)).
  - unfold after. cbn [m_next m_epoch insert list_insert]. rewrite Hadd. rewrite app_assoc in *. by apply IH.
  - unfold outcome. assert (first + len pre + 1 = first + len (pre ++ [le])) as Heq by (rewrite len_app, len_cons, len_nil; lia).
    cbn [in_order]. rewrite Heq. destruct (decode_entry (le_command le)); cbn; rewrite <- ?app_assoc; try done; by destruct (in_order _ _ _).
Qed.

Lemma routed_single c : routed [c].
Proof.
  intros [|k] c' i le key cmd Hc _ _; [|done]. pose proof (log_of_lt key 1). cbn [length]. lia.
Qed.

(** With one log the merge is that log in order: it applies every committed command of it, each once, at its own
    index, in the epoch of the last global command before it, and waits for nothing. *)
Theorem single_log_in_order entries :
  1 + len entries ≤ u64_max →
  advance (merge_new 1) [mkCommitted 1 entries] =
    (mkMerge [1 + len entries] (in_order 1 0 entries).2, (in_order 1 0 entries).1).
Proof.
  intros Hb. pose proof (single_turns 1 [] entries 0 Hb) as H. cbn [app] in H.
  change (mkMerge [1 + len []] 0) with (merge_new 1) in H. change (1 + len []) with 1 in H.
  assert (fits [mkCommitted 1 entries]) as Hf.
  { intros [|[|k]] c i le [= <-] Hat%at_index_range. cbn in Hat. lia. }
  destruct (advance (merge_new 1) _) as [z o] eqn:E. apply advance_turns in E as (ks&Hks&Hs); [|done].
  destruct (stuck_unique _ Hf (routed_single _) _ _ _ _ _ _ _ (placed_new 1) Hks Hs H) as [-> _].
  { intros k. destruct (turn _ k _) eqn:E; [|done]. apply turn_some in E as (i&e&(Hi&c&le&Hc&Hat%at_index_range&_)%upcoming_some&_).
    destruct k as [|k]; [|done]. cbn [m_next] in Hi. simplify_list_eq. lia. }
  pose proof (same_place_permutation _ _ _ _ _ _ _ _ Hf Hks H eq_refl) as Hperm.
  apply Permutation_sym, replicate_Permutation in Hperm. congruence.
Qed.

(** ** A multi-log of two logs *)
Definition entry_of (e : MultiEntry) : LogEntry := command_entry 1 (encode_entry e).
Definition text (s : string) : bytes := as_bytes s.

(** Log 0 holds a keyed command and a global one; log 1 a keyed command, a barrier for the global one, and another. *)
Definition two_logs : list Committed :=
  [mkCommitted 1 (map entry_of [Keyed 2 (text "a"); Global (text "resize")]);
   mkCommitted 1 (map entry_of [Keyed 0 (text "b"); Barrier 2; Keyed 0 (text "c")])].
(** Less of it: what a replica sees first. *)
Definition log_one_first : list Committed :=
  [mkCommitted 1 []; mkCommitted 1 (map entry_of [Keyed 0 (text "b"); Barrier 2; Keyed 0 (text "c")])].
Definition log_zero_first : list Committed :=
  [mkCommitted 1 (map entry_of [Keyed 2 (text "a"); Global (text "resize")]); mkCommitted 1 []].

(** A view all of whose entries are listed. *)
Definition listed (C : list Committed) (P : nat → N → LogEntry → bool) : bool :=
  forallb (λ k, from_option (λ c, forallb (λ j, from_option (P k (c_first c + N.of_nat j)) true (c_entries c !! j))
    (seq 0 (length (c_entries c)))) true (C !! k)) (seq 0 (length C)).
Lemma listed_shown C P k i le : listed C P = true → shown C k i le → P k i le = true.
Proof.
  intros H (c&Hc&Hat). unfold listed in H. rewrite forallb_forall in H.
  specialize (H k ltac:(apply in_seq; apply lookup_lt_Some in Hc; lia)). rewrite Hc in H. cbn [from_option] in H.
  rewrite forallb_forall in H. pose proof (at_index_range _ _ _ Hat) as Hr. unfold at_index in Hat.
  rewrite (proj2 (N.leb_le _ _)) in Hat by lia.
  specialize (H (N.to_nat (i - c_first c)) ltac:(apply in_seq; unfold len in Hr; lia)). rewrite Hat in H.
  cbn [from_option] in H. by replace (c_first c + N.of_nat (N.to_nat (i - c_first c))) with i in H by lia.
Qed.
Lemma fits_listed C : listed C (λ _ i _, i <? u64_max) = true → fits C.
Proof. intros H k c i le Hc Hat. apply N.ltb_lt. apply (listed_shown _ _ k i le H). by exists c. Qed.
Lemma routed_listed C :
  listed C (λ k _ le, match decode_entry (le_command le) with Keyed key _ => Nat.eqb (log_of key (length C)) k | _ => true end) = true → routed C.
Proof.
  intros H k c i le key cmd Hc Hat Hd. assert (shown C k i le) as Hs by (by exists c). apply (listed_shown _ _ _ _ _ H) in Hs.
  rewrite Hd in Hs. by apply Nat.eqb_eq.
Qed.
Definition at_view (C : list Committed) (k : nat) (i : N) : option LogEntry := c ← C !! k; at_index c i.
Lemma at_view_shown C k i le : at_view C k i = Some le ↔ shown C k i le.
Proof. unfold at_view, shown. destruct (C !! k); cbn; naive_solver. Qed.
Lemma shows_listed C D : listed C (λ k i le, bool_decide (at_view D k i = Some le)) = true → shows C D.
Proof. intros H k i le Hs. apply (listed_shown _ _ _ _ _ H), bool_decide_eq_true in Hs. by apply at_view_shown. Qed.
Lemma names_globals_listed C :
  listed C (λ k _ le, match k, decode_entry (le_command le) with
    | S _, Barrier g => match decode_entry ∘ le_command <$> at_view C 0 g with Some (Global _) => true | _ => false end
    | _, _ => true end) = true → names_globals C.
Proof.
  intros H k i le g Hs Hd. apply (listed_shown _ _ _ _ _ H) in Hs. cbn beta iota in Hs. rewrite Hd in Hs.
  destruct (at_view C 0 g) as [le'|] eqn:E; cbn in Hs; [|done]. apply at_view_shown in E. left. exists le'.
  destruct (decode_entry (le_command le')) eqn:E'; try done. eauto.
Qed.

Lemma two_logs_fits : fits two_logs.
Proof. apply fits_listed. vm_compute. reflexivity. Qed.
Lemma two_logs_routed : routed two_logs.
Proof. apply routed_listed. vm_compute. reflexivity. Qed.
Lemma two_logs_names : names_globals two_logs.
Proof. apply names_globals_listed. vm_compute. reflexivity. Qed.
Lemma two_logs_replica : replica_at two_logs (replay_views [log_one_first] (merge_new 2)).1.
Proof.
  split; [intros [|[|k]] c [= <-]; cbn; lia|]. exists 2%nat, [log_one_first], (replay_views [log_one_first] (merge_new 2)).2.
  split; [|apply surjective_pairing]. apply Forall_singleton, shows_listed. vm_compute. reflexivity.
Qed.
Lemma batches_shown : Forall (λ C, shows C two_logs) [log_one_first] ∧ Forall (λ C, shows C two_logs) [log_zero_first].
Proof. split; apply Forall_singleton, shows_listed; vm_compute; reflexivity. Qed.

(** The state of the example: the global part counts, a key's part lists what it saw of it. *)
Definition see (g : N) (a : Applied) (seen : option (list N)) : list N := default [] seen ++ [g].
Definition count_global (s : N * gmap N (list N)) (a : Applied) : N * gmap N (list N) := (s.1 + 1, s.2).

Lemma batches_apply_alike_witness :
  (replay_views ([log_one_first] ++ [two_logs]) (merge_new 2)).2 ≠ (replay_views ([log_zero_first] ++ [two_logs]) (merge_new 2)).2
  ∧ (replay_views ([log_one_first] ++ [two_logs]) (merge_new 2)).1 = (replay_views ([log_zero_first] ++ [two_logs]) (merge_new 2)).1
  ∧ apply_all see count_global (0, ∅) (replay_views ([log_one_first] ++ [two_logs]) (merge_new 2)).2
    = apply_all see count_global (0, ∅) (replay_views ([log_zero_first] ++ [two_logs]) (merge_new 2)).2.
Proof.
  split; [vm_compute; congruence|].
  apply (batches_apply_alike see count_global (0, ∅) two_logs [log_one_first] [log_zero_first] (merge_new 2));
    [apply two_logs_fits|apply two_logs_routed|apply placed_new|apply batches_shown|apply batches_shown|apply surjective_pairing..].
Defined.

(** A replica that saw log 1 first. *)
Definition half_way : Merge := (replay_views [log_one_first] (merge_new 2)).1.

Lemma advance_stops_at_an_end_witness :
  (∃ ks, turns two_logs ks half_way = Some (advance half_way two_logs) ∧ (length ks ≤ 5)%nat)
  ∧ stuck two_logs (advance half_way two_logs).1
  ∧ ∃ k, (k < 2)%nat ∧ upcoming two_logs (advance half_way two_logs).1 k = None.
Proof.
  apply (advance_stops_at_an_end two_logs half_way (advance half_way two_logs).1 (advance half_way two_logs).2);
    [apply two_logs_fits|apply two_logs_names|apply two_logs_replica|apply surjective_pairing].
Defined.

Lemma barriers_open_global_witness :
  (∃ epoch, applied_at 2 (advance half_way two_logs).2 = [mkApplied 0 2 None (text "resize") epoch])
  ∧ 2 ≤ m_epoch (advance half_way two_logs).1.
Proof.
  apply (barriers_open_global two_logs half_way _ (advance half_way two_logs).2 1 2
    (entry_of (Global (text "resize"))) (text "resize"));
    [apply two_logs_fits|apply two_logs_names|apply two_logs_replica|apply surjective_pairing|reflexivity|lia|
     by apply at_view_shown|vm_compute; reflexivity|..].
  - intros i Hi. assert (i = 1 ∨ i = 2) as [->| ->] by lia;
      [exists (entry_of (Keyed 2 (text "a")))|exists (entry_of (Global (text "resize")))]; by apply at_view_shown.
  - intros [|k] n Hn; [|vm_compute in Hn; discriminate].
    assert (n = 2) as -> by (vm_compute in Hn; congruence). exists 2, (entry_of (Barrier 2)), 2.
    split_and!; [lia|by apply at_view_shown|vm_compute; reflexivity|lia|].
    intros i Hi. assert (i = 2) as -> by lia. exists (entry_of (Barrier 2)). by apply at_view_shown.
Defined.

Lemma single_log_in_order_witness :
  advance (merge_new 1) [mkCommitted 1 (map entry_of [Keyed 9 (text "a"); Global (text "g"); NoOp])] =
    (mkMerge [4] 2, [mkApplied 0 1 (Some 9) (text "a") 0; mkApplied 0 2 None (text "g") 0]).
Proof. apply (single_log_in_order (map entry_of [Keyed 9 (text "a"); Global (text "g"); NoOp])). vm_compute. congruence. Defined.
