(* ===== verification/MultiGroup.v ===== *)
(** * A multi-log over Raft groups

    The composition of [crates/cluster/src/multilog.rs] with the Raft groups
    its logs are ([crates/cluster/src/raft.rs]): replicas that drive the merge
    over the commits of their own nodes, at whatever moments of the groups'
    runs, apply alike; the barriers a node appends name the latest global
    command it has committed, once per leadership. *)

From S2P Require Import Prelude RaftState RaftLog RaftElect RaftReplicate RaftFast RaftAdmin RaftInv RaftAppend RaftOps RaftSaved RaftQuorum RaftSystem RaftSpec RaftComplete RaftFull RaftWin RaftFollow RaftRefine RaftAgree RaftDurable MultiLog MultiMerge MultiOrder.
#[local] Open Scope N_scope.

(** ** Views that agree have a common one *)
Definition agree (C C' : list Committed) : Prop := ∀ k i le le', shown C k i le → shown C' k i le' → le = le'.
Definition from_one (n : nat) (C : list Committed) : Prop := length C = n ∧ Forall (λ c, c_first c = 1) C.

(** The longest of the views of log [k]. *)
Definition longer (a b : Committed) : Committed := if decide (length (c_entries a) < length (c_entries b))%nat then b else a.
Definition longest (Vs : list (list Committed)) (k : nat) : Committed :=
  foldr (λ C best, from_option (longer best) best (C !! k)) (mkCommitted 1 []) Vs.

Lemma longest_ge Vs C c k : C ∈ Vs → C !! k = Some c → (length (c_entries c) ≤ length (c_entries (longest Vs k)))%nat.
Proof.
  intros Hin Hc. induction Vs as [|V Vs IH]; [by apply elem_of_nil in Hin|]. cbn [longest foldr]. fold (longest Vs k).
  unfold longer. apply elem_of_cons in Hin as [->|Hin]; [rewrite Hc; cbn; case_decide; lia|].
  specialize (IH Hin). destruct (V !! k); cbn; [case_decide; lia|done].
Qed.
Lemma longest_in Vs k : longest Vs k = mkCommitted 1 [] ∨ ∃ C, C ∈ Vs ∧ C !! k = Some (longest Vs k).
Proof.
  induction Vs as [|V Vs IH]; [by left|]. cbn [longest foldr]. fold (longest Vs k). unfold longer.
  destruct (V !! k) as [c|] eqn:E; cbn; [case_decide|]; [right; exists V; split; [left|done]|..].
  all: destruct IH as [->|(C&HC&HCk)]; [by left|right; exists C; split; [by right|done]].
Qed.

Section common.
Context (n : nat) (Vs : list (list Committed)) (Hone : Forall (from_one n) Vs).
Context (Hagree : ∀ C C', C ∈ Vs → C' ∈ Vs → agree C C').

Definition common : list Committed := map (longest Vs) (seq 0 n).

Lemma common_lookup k c : common !! k = Some c ↔ (k < n)%nat ∧ c = longest Vs k.
Proof.
  unfold common. rewrite list_lookup_fmap. destruct (decide (k < n)%nat) as [Hk|Hk].
  - rewrite lookup_seq_lt by done. cbn. naive_solver.
  - rewrite lookup_seq_ge by lia. naive_solver.
Qed.
Lemma length_common : length common = n.
Proof. unfold common. by rewrite length_map, length_seq. Qed.
Lemma one_first C k c : C ∈ Vs → C !! k = Some c → c_first c = 1.
Proof using Hone.
  intros HC Hc. rewrite Forall_forall in Hone. destruct (Hone _ HC) as [_ Hf]. rewrite Forall_lookup in Hf. by eapply Hf.
Qed.
Lemma longest_first k : c_first (longest Vs k) = 1.
Proof using Hone. destruct (longest_in Vs k) as [->|(C&HC&HCk)]; [done|]. by eapply one_first. Qed.

(** An entry the common view shows is shown by one of the views. *)
Lemma common_shown k i le : shown common k i le → ∃ C, C ∈ Vs ∧ shown C k i le.
Proof.
  intros (c&[Hk ->]%common_lookup&Hat). destruct (longest_in Vs k) as [E|(C&HC&HCk)].
  - rewrite E in Hat. apply at_index_range in Hat. unfold len in Hat. cbn in Hat. lia.
  - exists C. split; [done|]. by exists (longest Vs k).
Qed.
Lemma common_shows C : C ∈ Vs → shows C common.
Proof using Hone Hagree.
  intros HC k i le Hs. pose proof Hs as (c&Hc&Hat). pose proof (one_first _ _ _ HC Hc) as Hf.
  pose proof (at_index_range _ _ _ Hat) as Hr. pose proof (longest_ge _ _ _ _ HC Hc) as Hl.
  assert (k < n)%nat as Hk.
  { rewrite Forall_forall in Hone. destruct (Hone _ HC) as [<- _]. by eapply lookup_lt_Some. }
  destruct (at_index_is_some (longest Vs k) i) as [le' Hle']; [rewrite longest_first; unfold len in *; lia|].
  assert (shown common k i le') as Hs' by (exists (longest Vs k); split; [by apply common_lookup|done]).
  destruct (common_shown _ _ _ Hs') as (C'&HC'&Hs''). by rewrite (Hagree _ _ HC HC' _ _ _ _ Hs Hs'').
Qed.
Lemma common_routed : (∀ C, C ∈ Vs → routed C) → routed common.
Proof using Hone.
  intros Hr k c i le key cmd Hc Hat Hd. destruct (common_shown k i le) as (C&HC&(c'&Hc'&Hat')); [by exists c|].
  pose proof (Hr C HC k c' i le key cmd Hc' Hat' Hd) as Hl. rewrite length_common.
  rewrite Forall_forall in Hone. by destruct (Hone _ HC) as [<- _].
Qed.
Lemma common_fits : (∀ C, C ∈ Vs → fits C) → fits common.
Proof. intros Hf k c i le Hc Hat. destruct (common_shown k i le) as (C&HC&(c'&Hc'&Hat')); [by exists c|]. by eapply Hf. Qed.
End common.

(** ** Replicas of the groups *)

(** A moment: the state of the Raft group of each log. *)
Definition Moment := nat → System.
Definition replica_logs (n : nat) (x : HostId) (a : Moment) : list RaftNode := map (λ k, live (a k) x) (seq 0 n).

(** [MultiLog::apply_ready] at moments of the groups, each with the nodes as they then are. *)
Fixpoint drive_replica (n : nat) (x : HostId) (moments : list Moment) (ml : MultiLog) : MultiLog * list Applied :=
  match moments with
  | [] => (ml, [])
  | a :: moments =>
      let '(ml, out) := apply_ready (with_logs ml (replica_logs n x a)) in
      let '(ml, rest) := drive_replica n x moments ml in (ml, out ++ rest)
  end.

Definition view (n : nat) (x : HostId) (a : Moment) : list Committed := map committed_of (replica_logs n x a).

Lemma scan_globals_kept ml : ml_logs (scan_globals ml) = ml_logs ml ∧ ml_merge (scan_globals ml) = ml_merge ml.
Proof. unfold scan_globals. by destruct (head (ml_logs ml)). Qed.
Lemma apply_ready_advance ml ml' out :
  apply_ready ml = (ml', out) → advance (ml_merge ml) (map committed_of (ml_logs ml)) = (ml_merge ml', out).
Proof.
  unfold apply_ready. destruct (scan_globals_kept ml) as [-> ->]. by destruct (advance _ _) as [m o]; intros [= <- <-].
Qed.
Lemma drive_replica_replay n x moments ml ml' out :
  drive_replica n x moments ml = (ml', out) → replay_views (map (view n x) moments) (ml_merge ml) = (ml_merge ml', out).
Proof.
  revert ml out. induction moments as [|a moments IH]; intros ml out; [by intros [= <- <-]|]. cbn [drive_replica map replay_views].
  destruct (apply_ready _) as [ml1 o1] eqn:E1. destruct (drive_replica n x moments ml1) as [ml2 o2] eqn:E2. intros [= <- <-].
  apply apply_ready_advance in E1. cbn [ml_merge ml_logs with_logs] in E1. fold (view n x a) in E1.
  rewrite E1. by rewrite (IH _ _ E2).
Qed.

(** What a node shows the merge, where it has not compacted and the fast track holds nothing more. *)
Lemma committed_of_at node i le :
  snapshot_index node = 0 → fast_through node ≤ commit_index node → commit_index node ≤ len (log node) →
  at_index (committed_of node) i = Some le → 0 < i ≤ commit_index node ∧ entry_at node i = Some le.
Proof.
  intros Hs Hf Hc. unfold committed_of, at_index. cbn [c_first c_entries]. rewrite Hs. change (sat_add 0 1) with 1.
  unfold committed_entries, committed_through, sat_sub. rewrite Hs, N.max_l, N.sub_0_r by done.
  rewrite get_range_some by lia. cbn [default from_option]. rewrite slice_0. unfold takeN.
  split_if; [|done]. bool_to_prop. intros [Hl Hi]%lookup_take_Some. split; [lia|].
  rewrite entry_at_eq. unfold lookup_at. rewrite Hs, (proj2 (N.leb_gt _ _)) by lia. rewrite <- Hl. f_equal. lia.
Qed.

(** A moment at which a replica may apply: its nodes hold what they have retained, have compacted nothing, and the
    fast track has committed nothing ahead of the leader's commit index. *)
Definition ready (n : nat) (x : HostId) (a : Moment) : Prop :=
  ∀ k, (k < n)%nat → disk (a k) x = saved (live (a k) x) ∧ snapshot_index (live (a k) x) = 0
    ∧ fast_through (live (a k) x) ≤ commit_index (live (a k) x).

Lemma view_from_one n x a : ready n x a → from_one n (view n x a).
Proof.
  intros Hr. unfold view, replica_logs. split; [by rewrite !length_map, length_seq|].
  rewrite map_map. apply Forall_map, Forall_forall. intros k Hk%elem_of_seq. destruct (Hr k) as (_&Hs&_); [lia|].
  cbn. by rewrite Hs.
Qed.
Lemma view_shown n x a k i le :
  shown (view n x a) k i le ↔ (k < n)%nat ∧ at_index (committed_of (live (a k) x)) i = Some le.
Proof.
  unfold shown, view, replica_logs. rewrite map_map. split.
  - intros (c&Hc&Hat). rewrite list_lookup_fmap in Hc. apply fmap_Some in Hc as (j&Hj&->).
    apply lookup_seq in Hj as [-> Hj]. done.
  - intros [Hk Hat]. exists (committed_of (live (a k) x)). split; [|done].
    rewrite list_lookup_fmap, lookup_seq_lt by done. done.
Qed.

Section replicas.
Context (voters : list HostId) (voters_valid : valid_set voters = true) (n : nat).

Definition group_moment (a : Moment) : Prop := ∀ k, (k < n)%nat → covered_reachable voters (a k).
Definition later (a b : Moment) : Prop := ∀ k, (k < n)%nat → rtc covered_step (a k) (b k).

Lemma ready_commit x a k : group_moment a → (k < n)%nat → snapshot_index (live (a k) x) = 0 →
  commit_index (live (a k) x) ≤ len (log (live (a k) x)).
Proof using voters_valid.
  intros Ha Hk Hs. destruct (reachable_refines voters voters_valid _ (Ha k Hk)) as (s&_&Hr).
  pose proof (ok_commit _ (ok_hard _ (sys_node _ _ (r_system _ _ _ Hr) x))). lia.
Qed.

(** What one replica shows at a moment agrees with what any shows later. *)
Lemma views_agree_later x y a b :
  group_moment a → later a b → ready n x a → ready n y b → agree (view n x a) (view n y b).
Proof using voters_valid.
  intros Ha Hab Hx Hy k i le le' (Hk&Hat)%view_shown (_&Hat')%view_shown.
  destruct (Hx k Hk) as (Hd&Hs&Hf), (Hy k Hk) as (_&Hs'&Hf').
  assert (group_moment b) as Hb by (intros j Hj; unfold covered_reachable; etransitivity; [by apply Ha|by apply Hab]).
  apply committed_of_at in Hat as [Hi He]; [|done..|by apply ready_commit].
  apply committed_of_at in Hat' as [Hi' He']; [|done..|by apply ready_commit].
  destruct (durable_prefix voters voters_valid (a k) (b k) x y (Ha k Hk) (Hab k Hk)) as (F&F'&HF&HF'&Heq).
  rewrite Hd in HF, Heq. cbn [saved s_commit_index] in Heq.
  rewrite (full_entry_at _ _ _ HF) in He by lia. rewrite (full_entry_at _ _ _ HF') in He' by lia.
  rewrite <- (lookup_take_lt F (N.to_nat (commit_index (live (a k) x)) `min` N.to_nat (commit_index (live (b k) y)))) in He by lia.
  rewrite Heq, lookup_take_lt in He by lia. congruence.
Qed.
Lemma agree_sym C C' : agree C C' → agree C' C.
Proof. intros H k i le le' H1 H2. symmetry. by eapply H. Qed.

(** Replicas at moments of one run: the moments of each, and that all of them lie on the run. *)
Definition on_run (x : HostId) (moments : list Moment) : Prop :=
  Forall (λ a, group_moment a ∧ ready n x a ∧ routed (view n x a) ∧ fits (view n x a)) moments.

Lemma run_views x y ms ms' :
  on_run x ms → on_run y ms' →
  (∀ a b, a ∈ ms ++ ms' → b ∈ ms ++ ms' → later a b ∨ later b a) →
  ∃ D, fits D ∧ routed D ∧ Forall (λ C, shows C D) (map (view n x) ms) ∧ Forall (λ C, shows C D) (map (view n y) ms').
Proof using voters_valid.
  intros Hx Hy Hrun. set (Vs := map (view n x) ms ++ map (view n y) ms').
  unfold on_run in *. rewrite Forall_forall in Hx, Hy.
  assert (∀ C, C ∈ Vs → ∃ a w, C = view n w a ∧ a ∈ ms ++ ms' ∧ group_moment a ∧ ready n w a ∧ routed C ∧ fits C) as HVs.
  { intros C [(a&->&Ha)%list_elem_of_fmap|(a&->&Ha)%list_elem_of_fmap]%elem_of_app; exists a.
    - exists x. destruct (Hx a Ha) as (?&?&?&?). rewrite elem_of_app. auto 10.
    - exists y. destruct (Hy a Ha) as (?&?&?&?). rewrite elem_of_app. auto 10. }
  assert (Forall (from_one n) Vs) as Hone.
  { apply Forall_forall. intros C (a&w&->&_&_&Hr&_)%HVs. by apply view_from_one. }
  assert (∀ C C', C ∈ Vs → C' ∈ Vs → agree C C') as Hag.
  { intros C C' (a&w&->&Ha&Hga&Hra&_)%HVs (b&w'&->&Hb&Hgb&Hrb&_)%HVs.
    destruct (Hrun a b Ha Hb); [by apply views_agree_later|by apply agree_sym, views_agree_later]. }
  exists (common n Vs). split_and!.
  - apply common_fits. by intros C (a&w&_&_&_&_&_&?)%HVs.
  - apply common_routed; [done|]. by intros C (a&w&_&_&_&_&?&_)%HVs.
  - apply Forall_forall. intros C HC. apply common_shows; [done..|]. apply elem_of_app. by left.
  - apply Forall_forall. intros C HC. apply common_shows; [done..|]. apply elem_of_app. by right.
Qed.
End replicas.

(** C7. Two hosts of a multi-log group never part, under the conditions below.  Each drives its merge over the commits
    of its own Raft nodes, at its own moments of the groups' runs; once they stand at the same place in every log, both
    have applied, for every key, the same commands and global commands in the same order, each in the same epoch, and
    any state they keep of it is the same.  The conditions: the groups' runs are covered runs ([covered_step]: the
    network loses, delays, reorders and repeats, hosts crash and restart and leaders change, and a follower's
    acknowledgement names nothing its append did not cover); at the moments a host applies, it holds what it has
    retained, has compacted nothing and its fast track is not ahead of its commit index ([ready]); keyed commands lie
    in the log of their key ([routed]); indices are below the largest word ([fits]). *)
Theorem multilog_replicas_agree {G K} (keyed : G → Applied → option K → K) global s voters n x y ms ms' mlx mly o o' :
  valid_set voters = true → on_run voters n x ms → on_run voters n y ms' →
  (∀ a b, a ∈ ms ++ ms' → b ∈ ms ++ ms' → later n a b ∨ later n b a) →
  drive_replica n x ms (multilog_new x voters n) = (mlx, o) → drive_replica n y ms' (multilog_new y voters n) = (mly, o') →
  m_next (ml_merge mlx) = m_next (ml_merge mly) →
  (∀ key, touching key o = touching key o') ∧ apply_all keyed global s o = apply_all keyed global s o'.
Proof.
  intros Hv Hx Hy Hrun H H' Heq. destruct (run_views voters Hv n x y ms ms' Hx Hy Hrun) as (D&HD&HrD&HsD&HsD').
  apply drive_replica_replay in H. apply drive_replica_replay in H'. cbn [multilog_new ml_merge] in H, H'.
  apply (replay_turns D) in H as [ks Hks]; [|done..]. apply (replay_turns D) in H' as [js Hjs]; [|done..].
  pose proof (same_place_permutation _ _ _ _ _ _ _ _ HD Hks Hjs Heq) as Hperm.
  destruct (turns_permutation D HD HrD ks js _ _ _ _ _ (placed_new _) Hperm Hks Hjs) as [_ Ho].
  split; [intros key|]; by rewrite Ho.
Qed.

(** ** Barriers *)

(** Log 0's committed entries at the node hold a global command at [i]. *)
Definition global_at (c : Committed) (i : N) : Prop :=
  ∃ le cmd, at_index c i = Some le ∧ decode_entry (le_command le) = Global cmd.

Lemma scan_from_spec c turns index latest :
  index + N.of_nat turns ≤ u64_max →
  let r := scan_from c turns index latest in
  (r = latest ∨ (global_at c r ∧ index ≤ r)) ∧
  (latest < index → latest ≤ r ∧ ∀ i, global_at c i → index ≤ i < index + N.of_nat turns → i ≤ r).
Proof.
  cbn zeta. revert index latest. induction turns as [|turns IH]; intros index latest Hb.
  { cbn [scan_from]. split; [by left|]. intros _. split; [done|]. intros. lia. }
  cbn [scan_from]. rewrite sat_add_small by lia.
  set (latest' := match _ with Some (Global _) => index | _ => latest end).
  assert ((latest' = latest ∧ ¬ global_at c index) ∨ (latest' = index ∧ global_at c index)) as Hl.
  { unfold latest', global_at. destruct (at_index c index) as [le|]; cbn; [|left; split; [done|by intros (?&?&?&_)]].
    destruct (decode_entry (le_command le)) eqn:E; [right; eauto 10|left; split; [done|intros (?&?&?&?); congruence]..]. }
  destruct (IH (index + 1) latest' ltac:(lia)) as [H1 H2]. split.
  - destruct H1 as [->|[? ?]]; [|right; split; [done|lia]].
    destruct Hl as [[-> _]|[-> ?]]; [by left|right; split; [done|lia]].
  - intros Hlt. destruct H2 as [H2 H3]; [destruct Hl as [[-> _]|[-> _]]; lia|].
    split; [destruct Hl as [[-> _]|[-> _]]; lia|]. intros i Hi Hr.
    destruct (decide (i = index)) as [->|]; [destruct Hl as [[_ ?]|[-> _]]; [done|lia]|]. apply H3; [done|lia].
Qed.

(** What a node knows of the designated log's global commands: the latest of those scanned. *)
Record scanned_ok (ml : MultiLog) (c : Committed) : Prop := {
  scanned_all : ∀ i, global_at c i → i ≤ ml_scanned ml → i ≤ ml_latest_global ml;
  scanned_named : ml_latest_global ml = 0 ∨ global_at c (ml_latest_global ml);
  scanned_bound : ml_latest_global ml ≤ ml_scanned ml
}.

(** Scanning finds the latest global command: after [MultiLog::scan_globals] the latest global command the node
    knows is the last one its replica of the designated log has committed, or zero where there is none, and every
    committed index is scanned. *)
Lemma scan_globals_latest ml designated logs :
  ml_logs ml = designated :: logs → scanned_ok ml (committed_of designated) →
  snapshot_index designated + len (committed_entries designated) < u64_max → ml_scanned ml < u64_max →
  let ml' := scan_globals ml in
  scanned_ok ml' (committed_of designated) ∧
  ∀ i, global_at (committed_of designated) i → i ≤ ml_latest_global ml'.
Proof.
  intros Hlogs [Hall Hnamed Hbound] Hb Hsc. cbn zeta. unfold scan_globals. rewrite Hlogs. cbn [head].
  set (c := committed_of designated) in *. assert (c_first c = snapshot_index designated + 1) as Hf.
  { unfold c, committed_of. cbn [c_first]. apply sat_add_small. lia. }
  change (committed_entries designated) with (c_entries c) in Hb. rewrite !sat_add_small by lia. rewrite Hf.
  set (through := snapshot_index designated + len (c_entries c)) in *.
  set (index := N.max (ml_scanned ml + 1) (snapshot_index designated + 1)).
  destruct (scan_from_spec c (N.to_nat (through + 1 - index)) index (ml_latest_global ml)) as [H1 H2]; [lia|].
  destruct H2 as [H2 H3]; [lia|]. set (r := scan_from _ _ _ _) in *.
  assert (∀ i, global_at c i → snapshot_index designated < i ≤ through) as Hr.
  { intros i (le&cmd&Hat%at_index_range&_). rewrite Hf in Hat. lia. }
  assert (∀ i, global_at c i → i ≤ r) as Hmax.
  { intros i Hi. specialize (Hr i Hi). destruct (decide (i ≤ ml_scanned ml)) as [Hle|Hgt].
    - etransitivity; [by apply Hall|done].
    - apply H3; [done|]. lia. }
  split; [|done]. split; cbn [ml_scanned ml_latest_global].
  - auto.
  - destruct H1 as [->|[? _]]; [done|by right].
  - destruct H1 as [->|[Hg%Hr _]]; lia.
Qed.

(** *** Once per leadership *)
Lemma log_step_down n : log (step_down_if_removed n) = log n.
Proof. unfold step_down_if_removed. destruct (negb (is_leader n)); [done|]. by destruct (_ && _). Qed.
Lemma log_advance n : log (advance_leader_commit n) = log n.
Proof.
  unfold advance_leader_commit. destruct (negb (is_leader n)); [done|]. rewrite log_step_down. cbn zeta.
  unfold prune_committed, pending. by destruct (_ && _).
Qed.
Lemma append_command_true node c node' :
  append_command node c = (node', true) →
  is_leader node = true ∧ current_term node' = current_term node ∧
  log node' = log node ++ [command_entry (current_term node) c].
Proof.
  unfold append_command. destruct (is_leader node) eqn:El; [|done]. cbn [negb orb]. split_if; [done|].
  unfold leader_append. split_if; [done|]. unfold push_entry. destruct (checked_add _ _); [|done]. cbn [negb].
  intros [= <-]. split; [done|]. split.
  - destruct (led_advance (let n := node <| log_bytes_held ::= λ b, sat_add b (encoded_len (command_entry (current_term node) c)) |>
      <| log ::= λ l, l ++ [command_entry (current_term node) c] |> <| retention_pending := true |> in
      if sync_index n =? 0 then n <| sync_index := last_log_index n |> else n)) as [H _].
    etransitivity; [exact H|]. cbn zeta. by split_if.
  - rewrite log_advance. by split_if.
Qed.
Lemma append_command_refused node c node' :
  append_command node c = (node', false) → (append_command node' c).2 = false ∧ is_leader node' = is_leader node
  ∧ current_term node' = current_term node.
Proof.
  unfold append_command. destruct (negb (is_leader node) || _ || _ || _) eqn:E; [intros [= <-]; by rewrite E|].
  unfold leader_append. destruct (log_budget node <? _) eqn:Eb; cbn [negb].
  - intros [= <-]. split; [|done].
    match goal with |- (if ?b then _ else _).2 = _ => change b with (negb (is_leader node) || transferring node || (0 <? open_from node) || recovering node) end.
    rewrite E. match goal with |- (if ?b then _ else _).2 = _ => change b with (log_budget node <? sat_add (log_bytes_held node) (encoded_len (command_entry (current_term node) c))) end.
    by rewrite Eb.
  - unfold push_entry. destruct (checked_add (last_log_index node) 1) eqn:Ec; cbn [negb]; [done|]. intros [= <-]. split; [|done].
    match goal with |- (if ?b then _ else _).2 = _ => change b with (negb (is_leader node) || transferring node || (0 <? open_from node) || recovering node) end.
    rewrite E. match goal with |- (if ?b then _ else _).2 = _ => change b with (log_budget node <? sat_add (log_bytes_held node) (encoded_len (command_entry (current_term node) c))) end.
    rewrite Eb. match goal with |- context [checked_add ?a 1] => change a with (last_log_index node) end. by rewrite Ec.
Qed.

(** A proposal lands in the log its route names, as the entry that route makes, and nowhere else. *)
Lemma propose_appends ml route c ml' :
  ml_propose ml route c = (ml', true) → ∃ node node',
  ml_logs ml !! ml_route ml route = Some node ∧ ml_logs ml' = <[ml_route ml route := node']> (ml_logs ml) ∧
  log node' = log node ++ [command_entry (current_term node) (encode_entry (route_entry route c))].
Proof.
  unfold ml_propose. destruct (ml_logs ml !! ml_route ml route) as [node|]; [|done].
  destruct (append_command node _) as [node' b] eqn:E. intros [= <- ->]. apply append_command_true in E as (_&_&Hl).
  by exists node, node'.
Qed.

Lemma owed_again node barrier latest node' barrier' appended :
  append_barrier_if_owed node barrier latest = (node', barrier', appended) →
  (append_barrier_if_owed node' barrier' latest).2 = false.
Proof.
  unfold append_barrier_if_owed at 1. destruct (is_leader node) eqn:El; cbn [negb].
  2:{ intros [= <- <- <-]. unfold append_barrier_if_owed. by rewrite El. }
  destruct ((if barrier.1 =? current_term node then barrier.2 else 0) <? latest) eqn:Ec; cbn [negb].
  2:{ intros [= <- <- <-]. unfold append_barrier_if_owed. by rewrite El, Ec. }
  destruct (append_command node (encode_entry (Barrier latest))) as [n a] eqn:Ea. destruct a; intros [= <- <- <-].
  - apply append_command_true in Ea as (_&Ht&_). unfold append_barrier_if_owed. destruct (is_leader n); [|done]. cbn [negb fst snd].
    by rewrite Ht, N.eqb_refl, N.ltb_irrefl.
  - apply append_command_refused in Ea as (Hr&Hl&Ht). unfold append_barrier_if_owed. rewrite Hl, El, Ht, Ec. cbn [negb].
    by destruct (append_command n _) as [n2 []].
Qed.

Lemma owe_barriers_again nodes barriered latest nodes' barriered' count :
  owe_barriers nodes barriered latest = (nodes', barriered', count) → (owe_barriers nodes' barriered' latest).2 = 0%nat.
Proof.
  revert barriered nodes' barriered' count. induction nodes as [|node nodes IH]; intros [|b barriered] nodes' barriered' count;
    cbn [owe_barriers]; try (by intros [= <- <- <-]).
  destruct (append_barrier_if_owed node b latest) as [[n1 b1] a1] eqn:E1.
  destruct (owe_barriers nodes barriered latest) as [[ns bs] k] eqn:E2. intros [= <- <- <-]. cbn [owe_barriers].
  apply owed_again in E1. apply IH in E2. destruct (append_barrier_if_owed n1 b1 latest) as [[n2 b2] a2].
  destruct (owe_barriers ns bs latest) as [[ns2 bs2] k2]. cbn in E1, E2. by subst.
Qed.

(** A log left as it was, or with one barrier naming the latest global command at its end. *)
Definition owed_log (latest : N) (node node' : RaftNode) : Prop :=
  log node' = log node ∨ (is_leader node = true ∧ 0 < latest ∧
    log node' = log node ++ [command_entry (current_term node) (encode_entry (Barrier latest))]).

Lemma log_append_refused node c node' : append_command node c = (node', false) → log node' = log node.
Proof.
  unfold append_command. destruct (_ || _ || _ || _); [by intros [= <-]|]. unfold leader_append.
  destruct (_ <? _); [by intros [= <-]|]. unfold push_entry. destruct (checked_add _ _); cbn [negb]; [done|by intros [= <-]].
Qed.
Lemma owed_log_barrier node barrier latest : owed_log latest node (append_barrier_if_owed node barrier latest).1.1.
Proof.
  unfold append_barrier_if_owed. destruct (is_leader node) eqn:El; cbn [negb]; [|by left].
  destruct (_ <? latest) eqn:Ec; cbn [negb]; [|by left]. bool_to_prop.
  destruct (append_command _ _) as [n []] eqn:Ea; cbn [fst].
  - apply append_command_true in Ea as (_&_&Hl). right. split_and!; [done|lia|done].
  - left. by eapply log_append_refused.
Qed.
Lemma owe_barriers_logs nodes barriered latest :
  Forall2 (owed_log latest) nodes (owe_barriers nodes barriered latest).1.1.
Proof.
  assert (∀ nodes, Forall2 (owed_log latest) nodes nodes) as Hrefl by (intros ns; induction ns; constructor; [by left|done]).
  revert barriered. induction nodes as [|node nodes IH]; intros [|b barriered]; cbn [owe_barriers fst]; [done|done|apply Hrefl|].
  pose proof (owed_log_barrier node b latest) as H1. specialize (IH barriered).
  destruct (append_barrier_if_owed node b latest) as [[n1 b1] a1]. destruct (owe_barriers nodes barriered latest) as [[ns bs] k].
  by constructor.
Qed.

(** Barriers are appended once: a call of [MultiLog::append_barriers] leaves log 0 alone and ends every other log
    as it was or, where the node leads it, with one barrier naming the latest global command; and a call right after
    it, with nothing new committed, appends none. *)
Theorem append_barriers_once ml designated logs ml' count :
  ml_logs ml = designated :: logs →
  snapshot_index designated + len (committed_entries designated) < u64_max → ml_scanned ml < u64_max →
  append_barriers ml = (ml', count) →
  (append_barriers ml').2 = 0%nat ∧
  ∃ logs', ml_logs ml' = designated :: logs' ∧
    (ml_barriered ml ≠ [] → Forall2 (owed_log (ml_latest_global ml')) logs logs').
Proof.
  intros Hlogs Hb Hsc. unfold append_barriers at 1. destruct (scan_globals_kept ml) as [Hl Hm]. rewrite Hl, Hlogs.
  assert (∀ barriered logs' latest, scan_globals (mkMultiLog (designated :: logs') (ml_merge ml) barriered latest (ml_scanned (scan_globals ml)))
          = mkMultiLog (designated :: logs') (ml_merge ml) barriered latest (ml_scanned (scan_globals ml))) as Hscan.
  { intros barriered logs' latest. unfold scan_globals. cbn [ml_logs head]. rewrite Hlogs. cbn [head ml_scanned ml_latest_global ml_merge ml_barriered].
    rewrite (sat_add_small (snapshot_index designated)) by (cbn [committed_of c_entries]; lia). cbn [committed_of c_entries c_first].
    rewrite !sat_add_small by lia. f_equal; [|lia].
    replace (N.to_nat _) with 0%nat by lia. done. }
  assert (ml_barriered (scan_globals ml) = ml_barriered ml) as Hbar by (unfold scan_globals; by destruct (head (ml_logs ml))).
  rewrite Hbar. destruct (ml_barriered ml) as [|b barriered].
  - intros [= <- <-]. split; [|exists logs; split; [by rewrite Hl|done]].
    unfold append_barriers. destruct (scan_globals ml) as [l m bb lg sc] eqn:Es. cbn in Hl, Hm, Hbar. subst. rewrite Hlogs in *.
    cbn [ml_scanned] in Hscan. by rewrite Hscan.
  - destruct (owe_barriers logs barriered (ml_latest_global (scan_globals ml))) as [[nodes bs] k] eqn:Eo. intros [= <- <-].
    rewrite Hm. split.
    + unfold append_barriers. rewrite Hscan. cbn [ml_logs ml_barriered ml_latest_global].
      apply owe_barriers_again in Eo. destruct (owe_barriers nodes bs _) as [[ns2 bs2] k2]. done.
    + exists nodes. split; [done|]. intros _. cbn [ml_latest_global].
      pose proof (owe_barriers_logs logs barriered (ml_latest_global (scan_globals ml))) as H. by rewrite Eo in H.
Qed.

(** ** Two groups that commit a global command and its barrier *)

(** The run of [RaftAgree] with another command: elected by hosts 1 and 2, it is appended, sent, acknowledged,
    committed and learned by host 2, who retains it. *)
Definition led_with (c : bytes) : System := do_op 1 (AppendCommand c) (do_op 1 (Receive vote_grant) voted).
Definition sent_with (c : bytes) : System := sends 1 (ReplicateTo 2 100) (led_with c).
Definition acked_with (c : bytes) : System := sends 2 (Receive (message_at 3 (sent_with c))) (sent_with c).
Definition committed_with (c : bytes) : System :=
  sends 1 (ReplicateTo 2 100) (do_op 1 (Receive (message_at 4 (acked_with c))) (acked_with c)).
Definition learned_with (c : bytes) : System :=
  do_publish 2 (do_op 2 (Receive (message_at 5 (committed_with c))) (committed_with c)).

Definition log_command (k : nat) : bytes :=
  match k with O => encode_entry (Global (text "resize")) | S _ => encode_entry (Barrier 1) end.
Definition first_moment : Moment := λ k, committed_with (log_command k).
Definition second_moment : Moment := λ k, learned_with (log_command k).

Ltac covered_run :=
  repeat match goal with
  | |- covered_reachable _ (sends _ _ _) => apply covered_then_sends
  | |- covered_reachable _ (do_op _ _ _) => apply covered_then_op
  | |- covered_reachable _ (system_new _) => apply rtc_refl
  end.

Lemma voted_covered : covered_reachable trio voted.
Proof.
  change voted with (sends 2 (Receive vote_request) (sends 1 StartElection (system_new trio))). covered_run; [|exact I].
  split; [apply (received_net 0); vm_compute; reflexivity|exact I].
Qed.
Lemma committed_with_covered k : covered_reachable trio (committed_with (log_command k)).
Proof.
  assert (∀ c, c = encode_entry (Global (text "resize")) ∨ c = encode_entry (Barrier 1) → covered_reachable trio (committed_with c)) as H.
  { intros c Hc. unfold committed_with, acked_with, sent_with, led_with.
    apply covered_then_sends; [exact I|]. apply covered_then_op.
    { split; [apply (received_net 4); destruct Hc as [->| ->]; vm_compute; reflexivity|].
      destruct Hc as [->| ->]; vm_compute; exact I. }
    apply covered_then_sends.
    { split; [apply (received_net 3); destruct Hc as [->| ->]; vm_compute; reflexivity|].
      destruct Hc as [->| ->]; vm_compute; intros _; right; reflexivity. }
    apply covered_then_sends; [exact I|]. apply covered_then_op; [exact I|]. apply covered_then_op; [|apply voted_covered].
    split; [apply (received_net 2); vm_compute; reflexivity|exact I]. }
  apply H. destruct k; [by left|by right].
Qed.
Lemma covered_then_publish v st : covered_step st (do_publish v st).
Proof. apply covered_publish. Qed.
Lemma covered_then_receive v m st : enabled_covered st v (Receive m) → covered_step st (do_op v (Receive m) st).
Proof. intros He. by apply covered_op with (Receive m); [|apply surjective_pairing]. Qed.
Lemma learned_with_later k : rtc covered_step (first_moment k) (second_moment k).
Proof.
  set (m := message_at 5 (first_moment k)).
  assert ((2, m) ∈ net (first_moment k)) as Hin by (apply (received_net 5); destruct k; vm_compute; reflexivity).
  apply (rtc_l _ _ (do_op 2 (Receive m) (first_moment k))).
  - apply covered_then_receive. split; [done|]. destruct k; vm_compute; intros _; right; reflexivity.
  - apply rtc_once, (covered_then_publish 2 (do_op 2 (Receive m) (first_moment k))).
Qed.
Lemma first_group : group_moment trio 2 first_moment.
Proof. intros k _. apply committed_with_covered. Qed.
Lemma second_group : group_moment trio 2 second_moment.
Proof. intros k _. unfold covered_reachable. etransitivity; [apply committed_with_covered|apply learned_with_later]. Qed.

Lemma run_moment x a :
  group_moment trio 2 a → ready 2 x a →
  listed (view 2 x a) (λ k _ le, match decode_entry (le_command le) with
    Keyed key _ => Nat.eqb (log_of key (length (view 2 x a))) k | _ => true end) = true →
  listed (view 2 x a) (λ _ i _, i <? u64_max) = true → on_run trio 2 x [a].
Proof.
  intros Hg Hr H1 H2. apply Forall_cons_2; [|apply Forall_nil_2]. split_and!; [done|done|by apply routed_listed|by apply fits_listed].
Qed.
Lemma first_ready : ready 2 1 first_moment.
Proof. intros [|[|k]] Hk; [vm_compute; split_and!; [reflexivity..|congruence]|vm_compute; split_and!; [reflexivity..|congruence]|lia]. Qed.
Lemma second_ready : ready 2 2 second_moment.
Proof. intros [|[|k]] Hk; [vm_compute; split_and!; [reflexivity..|congruence]|vm_compute; split_and!; [reflexivity..|congruence]|lia]. Qed.

Lemma multilog_replicas_agree_witness :
  (drive_replica 2 1 [first_moment] (multilog_new 1 trio 2)).2 = [mkApplied 0 1 None (text "resize") 0]
  ∧ apply_all see count_global (0, ∅) (drive_replica 2 1 [first_moment] (multilog_new 1 trio 2)).2
    = apply_all see count_global (0, ∅) (drive_replica 2 2 [second_moment] (multilog_new 2 trio 2)).2.
Proof.
  split; [vm_compute; reflexivity|].
  apply (multilog_replicas_agree see count_global (0, ∅) trio 2 1 2 [first_moment] [second_moment]
    (drive_replica 2 1 [first_moment] (multilog_new 1 trio 2)).1 (drive_replica 2 2 [second_moment] (multilog_new 2 trio 2)).1).
  - vm_compute. reflexivity.
  - apply run_moment; [apply first_group|apply first_ready|vm_compute; reflexivity..].
  - apply run_moment; [apply second_group|apply second_ready|vm_compute; reflexivity..].
  - intros a b Ha Hb. cbn [app] in Ha, Hb.
    assert (∀ a, a ∈ [first_moment; second_moment] → a = first_moment ∨ a = second_moment) as Hm.
    { intros c [Hc|[Hc|Hc%elem_of_nil]%elem_of_cons]%elem_of_cons; [left; exact Hc|right; exact Hc|destruct Hc]. }
    destruct (Hm a Ha) as [->| ->], (Hm b Hb) as [->| ->].
    + left. intros k _. apply rtc_refl.
    + left. intros k _. apply learned_with_later.
    + right. intros k _. apply learned_with_later.
    + left. intros k _. apply rtc_refl.
  - apply surjective_pairing.
  - apply surjective_pairing.
  - vm_compute. reflexivity.
Defined.

(** Host 1, leader of both logs, with a global command committed in log 0. *)
Definition leading : MultiLog := with_logs (multilog_new 1 trio 2) (replica_logs 2 1 first_moment).

Lemma append_barriers_once_witness : (append_barriers leading).2 = 1%nat ∧ (append_barriers (append_barriers leading).1).2 = 0%nat.
Proof.
  split; [vm_compute; reflexivity|].
  apply (append_barriers_once leading (live (first_moment 0%nat) 1) [live (first_moment 1%nat) 1] _ (append_barriers leading).2);
    [reflexivity|vm_compute; reflexivity|vm_compute; reflexivity|apply surjective_pairing].
Defined.
