(* ===== verification/BuddyBits.v ===== *)
(** * Refusals of the memory crate

    Models [crates/mem/src/error.rs]: the refusals the allocators answer with.  Then the bitmaps the
    buddy allocator keeps, and the sets of their words. *)

From Stdlib Require Import String.
From S2P Require Import Prelude.
#[local] Open Scope N_scope.

(** [ExtentRefusal] and [LayoutRefusal]; the latter's constructors carry its name where the two share one. *)
Inductive ExtentRefusal :=
| OtherArena | NoSuchRegion | Misaligned | WrongLength | OutOfRange | NotAllocated | Stale | Claimed.
Inductive LayoutRefusal := LayoutOutOfRange | LayoutMisaligned | Overlap | NotAWord | TouchesWord.

(** [MemError]; an OS error code is an [i32]. [MemOutOfRange] is its [OutOfRange]. *)
Inductive MemError :=
| StaleHandle (index generation : N)
| SlabFull (capacity : N)
| ArenaExhausted (requested largest_free : N)
| BudgetExceeded (requested available : N)
| LockRefused (requested locked : N) (code : option Z)
| RegionRefused (len : N) (code : option Z)
| TooLarge (len max : N)
| BadCapacity (capacity : N)
| OsRefused (call : string) (code : option Z)
| MemOutOfRange (offset len : N)
| ForeignExtent (offset len : N) (reason : ExtentRefusal)
| LayoutRefused (offset len : N) (reason : LayoutRefusal)
| GenerationExhausted (index : N)
| RegionOccupied (region : N)
| RegionInUse (region allocated : N)
| ViewsExhausted (most : N).
#[export] Instance ExtentRefusal_eq_dec : EqDecision ExtentRefusal.
Proof. solve_decision. Defined.
#[export] Instance LayoutRefusal_eq_dec : EqDecision LayoutRefusal.
Proof. solve_decision. Defined.
#[export] Instance MemError_eq_dec : EqDecision MemError.
Proof. solve_decision. Defined.

(** * Bitmaps of the buddy allocator

    Models [Bits] and [WordSet] of [crates/mem/src/buddy.rs]: one bit per
    granule in 64-bit words, the set of words a walk must visit, and the loop
    that takes the set bits of a word one by one. *)

#[local] Open Scope N_scope.

(** ** Words *)
Definition WORD_BITS : N := 64.

(** [usize::div_ceil]. *)
Definition div_ceil (a b : N) : N := (a + (b - 1)) / b.

(** [u64::trailing_zeros] (64 for zero). *)
Fixpoint pos_trailing_zeros (p : positive) : N :=
  match p with xO p => 1 + pos_trailing_zeros p | _ => 0 end.
Definition trailing_zeros (n : N) : N :=
  match n with 0 => WORD_BITS | Npos p => pos_trailing_zeros p end.

(** [slice::get] and an update through [slice::get_mut], at a word's index. *)
Definition word_at (ws : list N) (w : N) : option N := ws !! N.to_nat w.
Definition word_update (ws : list N) (w : N) (f : N → N) : list N := alter f (N.to_nat w) ws.

(** ** [Bits] *)

(** [Bits::new]. *)
Definition bits_new (bits : N) : list N := replicate (N.to_nat (div_ceil bits WORD_BITS)) 0.
(** [Bits::word_and_mask]. *)
Definition word_and_mask (index : N) : N * N := (index / WORD_BITS, N.shiftl 1 (index mod WORD_BITS)).
(** [Bits::index_of]: [None] where the index does not fit a [u32]. *)
Definition bit_index_of (word bit : N) : option N :=
  let index := word * WORD_BITS + bit in if index <=? u32_max then Some index else None.
(** [Bits::get]. *)
Definition bits_get (ws : list N) (index : N) : bool :=
  let '(word, mask) := word_and_mask index in
  from_option (λ w, negb (N.land w mask =? 0)) false (word_at ws word).
(** [Bits::set]. *)
Definition bits_set (ws : list N) (index : N) (on : bool) : list N :=
  let '(word, mask) := word_and_mask index in
  word_update ws word (λ w, if on then N.lor w mask else N.ldiff w mask).

(** ** [WordSet] *)

(** [WordSet::new]. *)
Definition words_new (bits : N) : list N := replicate (N.to_nat (div_ceil bits WORD_BITS)) 0.
(** [WordSet::insert] and [WordSet::remove]. *)
Definition words_insert (ws : list N) (word : N) : list N :=
  word_update ws (word / WORD_BITS) (λ s, N.lor s (N.shiftl 1 (word mod WORD_BITS))).
Definition words_remove (ws : list N) (word : N) : list N :=
  word_update ws (word / WORD_BITS) (λ s, N.ldiff s (N.shiftl 1 (word mod WORD_BITS))).
(** [WordSet::insert_all]. *)
Definition words_insert_all (ws : list N) (words : N) : list N :=
  foldl (λ ws w, words_insert ws (N.of_nat w)) ws (seq 0 (N.to_nat words)).
(** [while summary != 0 { let bit = summary.trailing_zeros(); summary &= summary.wrapping_sub(1); … }]: the bits the
    loop visits, lowest first. *)
Fixpoint set_bits (turns : nat) (summary : N) : list N :=
  match turns with
  | O => []
  | S turns =>
      if summary =? 0 then []
      else trailing_zeros summary :: set_bits turns (N.land summary (summary - 1))
  end.
Definition bits_of (summary : N) : list N := set_bits 64 summary.

(** ** The bit loop visits each set bit once *)
Lemma testbit_double_0 p : N.testbit (N.pos p~0) 0 = false.
Proof. done. Qed.
Lemma land_pred p : ∀ i, N.testbit (N.land (N.pos p) (N.pos p - 1)) i = N.testbit (N.pos p) i && negb (i =? pos_trailing_zeros p).
Proof.
  induction p as [p IH|p IH|]; intros i; cbn [pos_trailing_zeros].
  - replace (N.pos p~1 - 1) with (N.pos p~0) by lia. rewrite N.land_spec. destruct i as [|i] using N.peano_ind; [done|].
    replace (N.succ i =? 0) with false by (symmetry; apply N.eqb_neq; lia). rewrite andb_true_r.
    change (N.pos p~1) with (2 * N.pos p + 1). change (N.pos p~0) with (2 * N.pos p).
    rewrite N.testbit_odd_succ, N.testbit_even_succ by lia. apply andb_diag.
  - rewrite N.land_spec. destruct i as [|i] using N.peano_ind; [done|].
    replace (N.pos p~0 - 1) with (2 * (N.pos p - 1) + 1) by lia. change (N.pos p~0) with (2 * N.pos p).
    rewrite N.testbit_odd_succ, N.testbit_even_succ, <- N.land_spec, IH by lia. f_equal. f_equal.
    destruct (N.eqb_spec i (pos_trailing_zeros p)), (N.eqb_spec (N.succ i) (1 + pos_trailing_zeros p)); lia || done.
  - destruct i as [|i] using N.peano_ind; [done|]. rewrite N.land_0_r, N.bits_0.
    symmetry. apply andb_false_intro1. change 1 with (2 * 0 + 1). rewrite N.testbit_odd_succ by lia. apply N.bits_0.
Qed.
Lemma testbit_trailing p : N.testbit (N.pos p) (pos_trailing_zeros p) = true.
Proof.
  induction p as [p IH|p IH|]; cbn [pos_trailing_zeros]; [done| |done].
  change (N.pos p~0) with (2 * N.pos p). rewrite N.add_1_l, N.testbit_even_succ by lia. done.
Qed.

Lemma trailing_least p i : N.testbit (N.pos p) i = true → pos_trailing_zeros p ≤ i.
Proof.
  revert i. induction p as [p IH|p IH|]; intros i; cbn [pos_trailing_zeros]; [lia| |lia].
  destruct i as [|i] using N.peano_ind; [done|]. change (N.pos p~0) with (2 * N.pos p).
  rewrite N.testbit_even_succ by lia. intros H%IH. lia.
Qed.

Lemma set_bits_spec turns s :
  (∀ i, N.testbit s i = true → 64 - N.of_nat turns ≤ i < 64) → (turns ≤ 64)%nat →
  NoDup (set_bits turns s) ∧ ∀ i, i ∈ set_bits turns s ↔ N.testbit s i = true.
Proof.
  revert s. induction turns as [|turns IH]; intros s Hs Ht; cbn [set_bits].
  { split; [apply NoDup_nil_2|]. intros i. rewrite elem_of_nil. split; [done|]. intros H%Hs. lia. }
  destruct s as [|p]; cbn [N.eqb].
  { split; [apply NoDup_nil_2|]. intros i. rewrite elem_of_nil, N.bits_0. done. }
  cbn [trailing_zeros]. pose proof (land_pred p) as Hp. pose proof (Hs _ (testbit_trailing p)) as Hlow.
  destruct (IH (N.land (N.pos p) (N.pos p - 1))) as [Hnd Hin]; [|lia|].
  { intros i. rewrite Hp. intros [Hi Hne]%andb_true_iff. apply negb_true_iff, N.eqb_neq in Hne.
    pose proof (trailing_least _ _ Hi). specialize (Hs i Hi). lia. }
  split.
  - apply NoDup_cons_2; [|done]. rewrite Hin, Hp, N.eqb_refl. by rewrite andb_false_r.
  - intros i. rewrite elem_of_cons, Hin, Hp, andb_true_iff, negb_true_iff, N.eqb_neq.
    destruct (decide (i = pos_trailing_zeros p)) as [->|]; [rewrite testbit_trailing|]; naive_solver.
Qed.

(** A word: all its bits below 64. *)
Definition is_word (w : N) : Prop := ∀ i, N.testbit w i = true → i < 64.
Lemma is_word_0 : is_word 0.
Proof. intros i. by rewrite N.bits_0. Qed.
Lemma is_word_lor a b : is_word a → is_word b → is_word (N.lor a b).
Proof. intros Ha Hb i. rewrite N.lor_spec. intros [?|?]%orb_true_iff; auto. Qed.
Lemma is_word_ldiff a b : is_word a → is_word (N.ldiff a b).
Proof. intros Ha i. rewrite N.ldiff_spec. intros [? _]%andb_true_iff. auto. Qed.
Lemma is_word_land a b : is_word a → is_word (N.land a b).
Proof. intros Ha i. rewrite N.land_spec. intros [? _]%andb_true_iff. auto. Qed.
Lemma mask_spec k i : N.testbit (N.shiftl 1 k) i = (k =? i).
Proof. rewrite N.shiftl_1_l. apply N.pow2_bits_eqb. Qed.
Lemma is_word_mask k : k < 64 → is_word (N.shiftl 1 k).
Proof. intros Hk i. rewrite mask_spec. intros <-%N.eqb_eq. done. Qed.

Lemma bits_of_spec w : is_word w → NoDup (bits_of w) ∧ ∀ i, i ∈ bits_of w ↔ N.testbit w i = true.
Proof. intros Hw. apply set_bits_spec; [|lia]. intros i Hi%Hw. lia. Qed.

#[global] Opaque bits_of.

Lemma trailing_zeros_pow k : trailing_zeros (2 ^ k) = k.
Proof.
  induction k as [|k IH] using N.peano_ind; [done|]. rewrite N.pow_succ_r'. destruct (2 ^ k) as [|q] eqn:E.
  { pose proof (N.pow_nonzero 2 k). lia. }
  change (2 * N.pos q) with (N.pos q~0). cbn [trailing_zeros pos_trailing_zeros] in *. lia.
Qed.

(** ** Bits *)

(** The words of a bitmap. *)
Definition words_ok (ws : list N) : Prop := Forall is_word ws.
Definition capacity (ws : list N) : N := N.of_nat (length ws) * 64.

Lemma bits_get_testbit ws i : bits_get ws i = from_option (λ w, N.testbit w (i mod 64)) false (word_at ws (i / 64)).
Proof.
  unfold bits_get, word_and_mask, WORD_BITS. destruct (word_at ws (i / 64)) as [w|]; [|done]. cbn [from_option].
  destruct (N.testbit w (i mod 64)) eqn:E.
  - apply negb_true_iff, N.eqb_neq. intros H. assert (N.testbit (N.land w (N.shiftl 1 (i mod 64))) (i mod 64) = true) as Hb.
    { by rewrite N.land_spec, E, mask_spec, N.eqb_refl. }
    by rewrite H, N.bits_0 in Hb.
  - apply negb_false_iff, N.eqb_eq. apply N.bits_inj. intros j. rewrite N.land_spec, N.bits_0, mask_spec.
    destruct (N.eqb_spec (i mod 64) j) as [<-|]; [by rewrite E|apply andb_false_r].
Qed.

Lemma word_update_at ws w f w' :
  word_at (word_update ws w f) w' = if decide (w = w') then f <$> word_at ws w else word_at ws w'.
Proof.
  unfold word_at, word_update. case_decide as E.
  - subst w'. apply list_lookup_alter_eq.
  - apply list_lookup_alter_ne. lia.
Qed.
Lemma length_word_update ws w f : length (word_update ws w f) = length ws.
Proof. apply length_alter. Qed.
Lemma words_ok_update ws w f : words_ok ws → (∀ x, is_word x → is_word (f x)) → words_ok (word_update ws w f).
Proof. intros Hws Hf. apply Forall_alter; [done|]. intros x _. apply Hf. Qed.
Lemma words_ok_at ws w x : words_ok ws → word_at ws w = Some x → is_word x.
Proof. intros Hws Hx. by eapply Forall_lookup_1. Qed.
Lemma word_at_some ws w : w < N.of_nat (length ws) → is_Some (word_at ws w).
Proof. intros Hw. apply lookup_lt_is_Some. lia. Qed.

Lemma length_bits_set ws i on : length (bits_set ws i on) = length ws.
Proof. apply length_word_update. Qed.
Lemma words_ok_bits_set ws i on : words_ok ws → words_ok (bits_set ws i on).
Proof.
  intros Hws. apply words_ok_update; [done|]. intros x Hx. pose proof (N.mod_lt i 64 ltac:(lia)).
  destruct on; [apply is_word_lor; [done|by apply is_word_mask]|by apply is_word_ldiff].
Qed.
Lemma bits_get_set ws i on j :
  i < capacity ws → bits_get (bits_set ws i on) j = if decide (i = j) then on else bits_get ws j.
Proof.
  intros Hi. rewrite !bits_get_testbit. unfold bits_set, word_and_mask, WORD_BITS. rewrite word_update_at.
  pose proof (N.div_mod' i 64). pose proof (N.div_mod' j 64). pose proof (N.mod_lt i 64 ltac:(lia)). pose proof (N.mod_lt j 64 ltac:(lia)).
  unfold capacity in Hi. case_decide as E.
  - destruct (word_at_some ws (i / 64)) as [w Hw]; [apply N.Div0.div_lt_upper_bound; lia|]. rewrite <- E, Hw. cbn [fmap option_fmap option_map from_option].
    case_decide as E2.
    + subst j. destruct on; [rewrite N.lor_spec|rewrite N.ldiff_spec]; rewrite mask_spec, N.eqb_refl; [apply orb_true_r|apply andb_false_r].
    + assert (i mod 64 =? j mod 64 = false) as Hne by (apply N.eqb_neq; lia).
      destruct on; [rewrite N.lor_spec|rewrite N.ldiff_spec]; rewrite mask_spec, Hne; [apply orb_false_r|apply andb_true_r].
  - rewrite decide_False by congruence. done.
Qed.
Lemma bits_get_new n i : bits_get (bits_new n) i = false.
Proof.
  rewrite bits_get_testbit. unfold bits_new, word_at. destruct (replicate _ _ !! _) as [w|] eqn:E; [|done].
  apply lookup_replicate in E as [-> _]. apply N.bits_0.
Qed.
Lemma words_ok_new n : words_ok (bits_new n).
Proof. apply Forall_replicate, is_word_0. Qed.
Lemma capacity_new n : n ≤ capacity (bits_new n).
Proof.
  unfold capacity, bits_new, div_ceil, WORD_BITS. rewrite length_replicate. pose proof (N.div_mod' (n + (64 - 1)) 64).
  pose proof (N.mod_lt (n + (64 - 1)) 64 ltac:(lia)). lia.
Qed.

(** A word's bits are the bits of its granules. *)
Lemma bits_get_word ws w b : b < 64 → bits_get ws (w * 64 + b) = from_option (λ x, N.testbit x b) false (word_at ws w).
Proof.
  intros Hb. rewrite bits_get_testbit. f_equal.
  - f_equal. rewrite N.add_comm, N.Div0.mod_add, N.mod_small by lia. done.
  - f_equal. rewrite N.add_comm, N.div_add, N.div_small by lia. lia.
Qed.

(** ** Word sets *)
Lemma length_words_insert ws w : length (words_insert ws w) = length ws.
Proof. apply length_word_update. Qed.
Definition words_has (ws : list N) (w : N) : bool := bits_get ws w.
Lemma words_insert_bits ws w : words_insert ws w = bits_set ws w true.
Proof. done. Qed.
Lemma words_remove_bits ws w : words_remove ws w = bits_set ws w false.
Proof. done. Qed.
