(* ===== verification/Buddy.v ===== *)
(** * The buddy allocator

    Models [crates/mem/src/buddy.rs]: a region of power-of-two blocks of
    granules, a state byte, two free-list links and an incarnation per granule,
    a free list per order, and the bitmaps that keep what recovery images name.
    The allocator's fields are grouped into the part that tiles the region
    ([Pool]), the part images read ([Image]) and the locks. *)

From S2P Require Import Prelude BuddyBits.
#[local] Open Scope N_scope.

(** ** State *)
Definition FREE_BIT : N := 0x80.
Definition HEAD_BIT : N := 0x40.
Definition ORDER_MASK : N := 0x3F.
Definition INSIDE : N := 0.
Definition NONE : N := u32_max.

(** [Block]. *)
Record Block := mkBlock { offset : N; blen : N; incarnation : N }.
#[export] Instance Block_eq_dec : EqDecision Block.
Proof. solve_decision. Defined.

Record Shape := mkShape { granule : N; granule_shift : N; max_order : N }.
Record Pool := mkPool {
  p_state : list N; p_next : list N; p_prev : list N; p_heads : list N; p_incarnations : list N; p_free_bytes : N }.
Record Image := mkImage {
  i_live : list N; i_committed : list N; i_deferred : list N; i_capture : list N;
  i_changed : list N; i_uncommitted : list N; i_deferring : list N;
  i_capturing : bool; i_imaged : bool; i_scanned : N; i_deferred_bytes : N }.
(** [Buddy]. *)
Record Buddy := mkBuddy { shape : Shape; pool : Pool; image : Image; locked : list N; locked_bytes : N }.

#[export] Instance set_p_state : Setter p_state := λ f p,
  mkPool (f (p_state p)) (p_next p) (p_prev p) (p_heads p) (p_incarnations p) (p_free_bytes p).
#[export] Instance set_p_next : Setter p_next := λ f p,
  mkPool (p_state p) (f (p_next p)) (p_prev p) (p_heads p) (p_incarnations p) (p_free_bytes p).
#[export] Instance set_p_prev : Setter p_prev := λ f p,
  mkPool (p_state p) (p_next p) (f (p_prev p)) (p_heads p) (p_incarnations p) (p_free_bytes p).
#[export] Instance set_p_heads : Setter p_heads := λ f p,
  mkPool (p_state p) (p_next p) (p_prev p) (f (p_heads p)) (p_incarnations p) (p_free_bytes p).
#[export] Instance set_p_incarnations : Setter p_incarnations := λ f p,
  mkPool (p_state p) (p_next p) (p_prev p) (p_heads p) (f (p_incarnations p)) (p_free_bytes p).
#[export] Instance set_p_free_bytes : Setter p_free_bytes := λ f p,
  mkPool (p_state p) (p_next p) (p_prev p) (p_heads p) (p_incarnations p) (f (p_free_bytes p)).
#[export] Instance set_pool : Setter pool := λ f b, mkBuddy (shape b) (f (pool b)) (image b) (locked b) (locked_bytes b).
#[export] Instance set_image : Setter image := λ f b, mkBuddy (shape b) (pool b) (f (image b)) (locked b) (locked_bytes b).
#[export] Instance set_i_live : Setter i_live := λ f i,
  mkImage (f (i_live i)) (i_committed i) (i_deferred i) (i_capture i) (i_changed i) (i_uncommitted i) (i_deferring i)
    (i_capturing i) (i_imaged i) (i_scanned i) (i_deferred_bytes i).
#[export] Instance set_i_committed : Setter i_committed := λ f i,
  mkImage (i_live i) (f (i_committed i)) (i_deferred i) (i_capture i) (i_changed i) (i_uncommitted i) (i_deferring i)
    (i_capturing i) (i_imaged i) (i_scanned i) (i_deferred_bytes i).
#[export] Instance set_i_deferred : Setter i_deferred := λ f i,
  mkImage (i_live i) (i_committed i) (f (i_deferred i)) (i_capture i) (i_changed i) (i_uncommitted i) (i_deferring i)
    (i_capturing i) (i_imaged i) (i_scanned i) (i_deferred_bytes i).
#[export] Instance set_i_capture : Setter i_capture := λ f i,
  mkImage (i_live i) (i_committed i) (i_deferred i) (f (i_capture i)) (i_changed i) (i_uncommitted i) (i_deferring i)
    (i_capturing i) (i_imaged i) (i_scanned i) (i_deferred_bytes i).
#[export] Instance set_i_changed : Setter i_changed := λ f i,
  mkImage (i_live i) (i_committed i) (i_deferred i) (i_capture i) (f (i_changed i)) (i_uncommitted i) (i_deferring i)
    (i_capturing i) (i_imaged i) (i_scanned i) (i_deferred_bytes i).
#[export] Instance set_i_uncommitted : Setter i_uncommitted := λ f i,
  mkImage (i_live i) (i_committed i) (i_deferred i) (i_capture i) (i_changed i) (f (i_uncommitted i)) (i_deferring i)
    (i_capturing i) (i_imaged i) (i_scanned i) (i_deferred_bytes i).
#[export] Instance set_i_deferring : Setter i_deferring := λ f i,
  mkImage (i_live i) (i_committed i) (i_deferred i) (i_capture i) (i_changed i) (i_uncommitted i) (f (i_deferring i))
    (i_capturing i) (i_imaged i) (i_scanned i) (i_deferred_bytes i).
#[export] Instance set_i_capturing : Setter i_capturing := λ f i,
  mkImage (i_live i) (i_committed i) (i_deferred i) (i_capture i) (i_changed i) (i_uncommitted i) (i_deferring i)
    (f (i_capturing i)) (i_imaged i) (i_scanned i) (i_deferred_bytes i).
#[export] Instance set_i_imaged : Setter i_imaged := λ f i,
  mkImage (i_live i) (i_committed i) (i_deferred i) (i_capture i) (i_changed i) (i_uncommitted i) (i_deferring i)
    (i_capturing i) (f (i_imaged i)) (i_scanned i) (i_deferred_bytes i).
#[export] Instance set_i_scanned : Setter i_scanned := λ f i,
  mkImage (i_live i) (i_committed i) (i_deferred i) (i_capture i) (i_changed i) (i_uncommitted i) (i_deferring i)
    (i_capturing i) (i_imaged i) (f (i_scanned i)) (i_deferred_bytes i).
#[export] Instance set_i_deferred_bytes : Setter i_deferred_bytes := λ f i,
  mkImage (i_live i) (i_committed i) (i_deferred i) (i_capture i) (i_changed i) (i_uncommitted i) (i_deferring i)
    (i_capturing i) (i_imaged i) (i_scanned i) (f (i_deferred_bytes i)).

(** ** Arithmetic *)

(** [u32::saturating_add] and [u32]'s wrapping steps of one. *)
Definition sat_add_u32 (a b : N) : N := N.min (a + b) u32_max.
Definition wrapping_succ_u32 (a : N) : N := (a + 1) mod 2 ^ 32.
Definition wrapping_pred_u32 (a : N) : N := if a =? 0 then u32_max else a - 1.
(** [usize::is_power_of_two] and [usize::checked_next_power_of_two]. *)
Definition is_power_of_two (n : N) : bool := (0 <? n) && (2 ^ N.log2 n =? n).
Definition checked_next_power_of_two (n : N) : option N :=
  let p := 2 ^ N.log2_up n in if p <=? usize_max then Some p else None.

(** [Buddy::order_bytes], [Buddy::region_bytes], [Buddy::order_for]. *)
Definition order_bytes (sh : Shape) (order : N) : N :=
  let shift := order + granule_shift sh in if shift <? 64 then 2 ^ shift else usize_max.
Definition region_bytes (sh : Shape) : N := sat_mul (2 ^ max_order sh) (granule sh).
Definition order_for (sh : Shape) (len : N) : result MemError N :=
  let order :=
    rounded ← checked_add (N.max len 1) (sat_sub (granule sh) 1);
    power ← checked_next_power_of_two (N.shiftr rounded (granule_shift sh));
    let order := trailing_zeros power in
    if order <=? max_order sh then Some order else None in
  ok_or order (TooLarge len (region_bytes sh)).

(** ** State bytes and links *)
Definition state_at (p : Pool) (index : N) : N := default INSIDE (p_state p !! N.to_nat index).
Definition set_state (p : Pool) (index byte : N) : Pool := p <| p_state ::= λ s, <[N.to_nat index := byte]> s |>.
Definition mark (p : Pool) (index order : N) (free : bool) : Pool :=
  let byte := N.lor (N.lor HEAD_BIT (if order <=? u8_max then order else ORDER_MASK)) (if free then FREE_BIT else 0) in
  set_state p index byte.
Definition is_free_byte (byte : N) : bool := negb (N.land byte FREE_BIT =? 0).
Definition order_of_byte (byte : N) : N := N.land byte ORDER_MASK.

Definition set_link (links : list N) (index value : N) : list N := <[N.to_nat index := wrapping_succ_u32 value]> links.
Definition link_at (links : list N) (index : N) : N := from_option wrapping_pred_u32 NONE (links !! N.to_nat index).
Definition head_of (p : Pool) (order : N) : N := default NONE (p_heads p !! N.to_nat order).
Definition set_head (p : Pool) (order value : N) : Pool := p <| p_heads ::= λ h, <[N.to_nat order := value]> h |>.
Definition link (p : Pool) (index order : N) : Pool :=
  let head := head_of p order in
  let p := p <| p_next ::= λ l, set_link l index head |> in
  let p := p <| p_prev ::= λ l, set_link l index NONE |> in
  let p := if head =? NONE then p else p <| p_prev ::= λ l, set_link l head index |> in
  set_head p order index.
Definition unlink (p : Pool) (index order : N) : Pool :=
  let next := link_at (p_next p) index in
  let prev := link_at (p_prev p) index in
  let p := if prev =? NONE then set_head p order next else p <| p_next ::= λ l, set_link l prev next |> in
  let p := if next =? NONE then p else p <| p_prev ::= λ l, set_link l next prev |> in
  let p := p <| p_next ::= λ l, set_link l index NONE |> in
  p <| p_prev ::= λ l, set_link l index NONE |>.

(** [Buddy::incarnation_at] and a write through [Buddy::slot_mut]. *)
Definition incarnation_at (p : Pool) (index : N) : N := default 0 (p_incarnations p !! N.to_nat index).
Definition set_incarnation (p : Pool) (index value : N) : Pool :=
  p <| p_incarnations ::= λ l, <[N.to_nat index := value]> l |>.

(** ** Building *)
Definition buddy_new (granule : N) (max_order : N) : result MemError Buddy :=
  if negb (is_power_of_two granule) then Err (BadCapacity granule) else
  let granule_shift := trailing_zeros granule in
  let max_order := N.min (N.min (N.min max_order 63) ORDER_MASK) 31 in
  let granules := 2 ^ max_order in
  let count := N.to_nat granules in
  let state := <[0%nat := N.lor (N.lor FREE_BIT HEAD_BIT) max_order]> (replicate count INSIDE) in
  let heads := <[N.to_nat max_order := 0]> (replicate (S (N.to_nat max_order)) NONE) in
  let words := div_ceil granules WORD_BITS in
  Ok (mkBuddy (mkShape granule granule_shift max_order)
    (mkPool state (replicate count 0) (replicate count 0) heads (replicate count 0) (sat_mul granules granule))
    (mkImage (bits_new granules) (bits_new granules) (bits_new granules) (bits_new granules)
       (words_new words) (words_new words) (words_new words) false false 0 0)
    (bits_new granules) 0).
Definition buddy_new_imaged (granule : N) (max_order : N) : result MemError Buddy :=
  b ← buddy_new granule max_order; Ok (b <| image ::= λ i, i <| i_imaged := true |> |>).

(** ** Reading *)

(** [Buddy::largest_free], counting down from [order]. *)
Fixpoint largest_from (sh : Shape) (p : Pool) (order : nat) : N :=
  if negb (head_of p (N.of_nat order) =? NONE) then order_bytes sh (N.of_nat order)
  else match order with O => 0 | S order => largest_from sh p order end.
Definition largest_free (b : Buddy) : N := largest_from (shape b) (pool b) (N.to_nat (max_order (shape b))).

(** [Buddy::validate]. *)
Definition block_validate (b : Buddy) (block : Block) : result ExtentRefusal (N * N) :=
  let sh := shape b in let p := pool b in
  if negb (N.land (offset block) (sat_sub (granule sh) 1) =? 0) then Err Misaligned else
  match order_for sh (blen block) with
  | Err _ => Err WrongLength
  | Ok order =>
      if negb (order_bytes sh order =? blen block) then Err WrongLength else
      let index := N.shiftr (offset block) (granule_shift sh) in
      if u32_max <? index then Err OutOfRange else
      if negb (N.land index (sat_sub (2 ^ order) 1) =? 0) then Err Misaligned else
      match p_state p !! N.to_nat index with
      | None => Err OutOfRange
      | Some head =>
          if (head =? INSIDE) || is_free_byte head || negb (order_of_byte head =? order) then Err NotAllocated
          else if negb (incarnation_at p index =? incarnation block) then Err Stale
          else Ok (index, order)
      end
  end.
Definition foreign (block : Block) (reason : ExtentRefusal) : MemError := ForeignExtent (offset block) (blen block) reason.

(** [Buddy::named_by_an_image]; [Buddy::named_once_imaged] is its second factor. *)
Definition named_once_imaged (i : Image) (index : N) : bool :=
  bits_get (i_committed i) index || (i_capturing i && bits_get (i_capture i) index).
Definition named_by_an_image (i : Image) (index : N) : bool := i_imaged i && named_once_imaged i index.

Definition is_ok {E A} (r : result E A) : bool := match r with Ok _ => true | Err _ => false end.
Definition is_locked (b : Buddy) (block : Block) : bool :=
  match block_validate b block with Ok (index, _) => bits_get (locked b) index | Err _ => false end.
Definition buddy_imaged (b : Buddy) (block : Block) : bool :=
  match block_validate b block with Ok (index, _) => named_by_an_image (image b) index | Err _ => false end.
Definition block_held (b : Buddy) (block : Block) : bool :=
  match block_validate b block with Ok (index, _) => negb (bits_get (i_deferred (image b)) index) | Err _ => false end.

(** The head walk of [Buddy::allocated] and [Buddy::free_blocks], from granule [at_], of the heads whose free bit is
    [free]. *)
Fixpoint head_walk (sh : Shape) (p : Pool) (free : bool) (fuel : nat) (at_ : N) : list (N * N) :=
  match fuel with
  | O => []
  | S fuel =>
      if len (p_state p) <=? at_ then [] else
      let byte := state_at p at_ in
      if N.land byte HEAD_BIT =? 0 then head_walk sh p free fuel (at_ + 1) else
      let span := 2 ^ order_of_byte byte in
      let rest := head_walk sh p free fuel (at_ + span) in
      if eqb (is_free_byte byte) free then (N.shiftl at_ (granule_shift sh), N.shiftl span (granule_shift sh)) :: rest
      else rest
  end.
Definition allocated (b : Buddy) : list (N * N) :=
  head_walk (shape b) (pool b) false (length (p_state (pool b))) 0.
Definition free_blocks (b : Buddy) (from : N) : list (N * N) :=
  head_walk (shape b) (pool b) true (length (p_state (pool b))) (N.shiftr from (granule_shift (shape b))).

(** ** Allocating *)

(** [note_changed]. *)
Definition note_changed (i : Image) (index : N) : Image := i <| i_changed ::= λ w, words_insert w (word_and_mask index).1 |>.
(** [self.live.set(index, on); self.note_changed(index)], where the heads are kept. *)
Definition keep_live (i : Image) (index : N) (on : bool) : Image :=
  if i_imaged i then note_changed (i <| i_live ::= λ w, bits_set w index on |>) index else i.

(** The search of [Buddy::alloc] for an order with a free block; [None] past the largest. *)
Fixpoint find_free (sh : Shape) (p : Pool) (turns : nat) (found : N) : option N :=
  match turns with
  | O => None
  | S turns =>
      if negb (head_of p found =? NONE) then Some found
      else if max_order sh <=? found then None
      else find_free sh p turns (found + 1)
  end.

(** The split loop of [Buddy::alloc]: [turns] halvings of the block of order [current] at [index]. *)
Fixpoint split_down (turns : nat) (p : Pool) (index current : N) : Pool :=
  match turns with
  | O => p
  | S turns =>
      let current := sat_sub current 1 in
      let buddy := sat_add_u32 index (2 ^ current) in
      split_down turns (link (mark p buddy current true) buddy current) index current
  end.

(** [Buddy::take]. *)
Definition block_at (sh : Shape) (index order incarnation : N) : Block :=
  mkBlock (N.shiftl index (granule_shift sh)) (order_bytes sh order) incarnation.
Definition take_block (b : Buddy) (index order incarnation : N) : Buddy * Block :=
  let sh := shape b in
  let p := set_incarnation (mark (pool b) index order false) index incarnation in
  let p := p <| p_free_bytes ::= λ f, sat_sub f (order_bytes sh order) |> in
  (b <| pool := p |> <| image ::= λ i, keep_live i index true |>, block_at sh index order incarnation).

Definition alloc (b : Buddy) (len : N) : Buddy * result MemError Block :=
  let sh := shape b in let p := pool b in
  match order_for sh len with
  | Err e => (b, Err e)
  | Ok order =>
      match find_free sh p (S (N.to_nat (max_order sh - order))) order with
      | None => (b, Err (ArenaExhausted len (largest_free b)))
      | Some found =>
          let index := head_of p found in
          match checked_add (incarnation_at p index) 1 with
          | None => (b, Err (GenerationExhausted index))
          | Some incarnation =>
              let p := unlink p index found in
              let p := split_down (N.to_nat (found - order)) p index found in
              let '(b, block) := take_block (b <| pool := p |>) index order incarnation in
              (b, Ok block)
          end
      end
  end.

(** ** Freeing *)

(** [Buddy::coalesce]: at most [turns] merges. *)
Fixpoint coalesce (sh : Shape) (turns : nat) (p : Pool) (index order : N) : Pool * N * N :=
  match turns with
  | O => (p, index, order)
  | S turns =>
      let buddy := N.lxor index (2 ^ order) in
      let buddy_state := state_at p buddy in
      if negb (is_free_byte buddy_state) || negb (order_of_byte buddy_state =? order) then (p, index, order)
      else coalesce sh turns (set_state (unlink p buddy order) (N.max buddy index) INSIDE) (N.min index buddy) (order + 1)
  end.

(** [Buddy::coalesce_free]. *)
Definition coalesce_free (sh : Shape) (p : Pool) (index order : N) : Pool :=
  let p := p <| p_free_bytes ::= λ f, sat_add f (order_bytes sh order) |> in
  let '(p, index, order) := coalesce sh (N.to_nat (max_order sh - order)) p index order in
  link (mark p index order true) index order.

(** [Buddy::unmark_locked]. *)
Definition unmark_locked (b : Buddy) (index order : N) : Buddy * bool :=
  if negb (bits_get (locked b) index) then (b, false)
  else (mkBuddy (shape b) (pool b) (image b) (bits_set (locked b) index false)
          (sat_sub (locked_bytes b) (order_bytes (shape b) order)), true).

(** [Buddy::release]. *)
Definition release (b : Buddy) (index order : N) : Buddy * bool :=
  let b := b <| image ::= λ i, keep_live i index false |> in
  let '(b, was_locked) := unmark_locked b index order in
  (b <| pool ::= λ p, coalesce_free (shape b) p index order |>, was_locked).

Definition buddy_free (b : Buddy) (block : Block) : Buddy * result MemError unit :=
  match block_validate b block with
  | Err reason => (b, Err (foreign block reason))
  | Ok (index, order) =>
      if named_by_an_image (image b) index then (b, Err (foreign block Claimed))
      else ((release b index order).1, Ok tt)
  end.

Definition free_or_defer (b : Buddy) (block : Block) : Buddy * result MemError bool :=
  match block_validate b block with
  | Err reason => (b, Err (foreign block reason))
  | Ok (index, order) =>
      if negb (named_by_an_image (image b) index) then ((release b index order).1, Ok false)
      else if bits_get (i_deferred (image b)) index then (b, Err (foreign block NotAllocated))
      else
        let i := image b <| i_deferred ::= λ w, bits_set w index true |> in
        let i := note_changed i index in
        let i := i <| i_deferring ::= λ w, words_insert w (word_and_mask index).1 |> in
        let i := i <| i_deferred_bytes ::= λ n, sat_add n (order_bytes (shape b) order) |> in
        (b <| image := i |>, Ok true)
  end.

(** [Buddy::lock_block]. *)
Definition lock_block (b : Buddy) (block : Block) : Buddy * result MemError unit :=
  match block_validate b block with
  | Err reason => (b, Err (foreign block reason))
  | Ok (index, order) =>
      if bits_get (locked b) index then (b, Ok tt)
      else (mkBuddy (shape b) (pool b) (image b) (bits_set (locked b) index true)
              (sat_add (locked_bytes b) (order_bytes (shape b) order)), Ok tt)
  end.

(** ** Claiming *)

(** [Buddy::covering_free], over the levels left. *)
Fixpoint covering_free (p : Pool) (levels : list N) (index order : N) : option (N * N) :=
  match levels with
  | [] => None
  | level :: levels =>
      let head := N.ldiff index (sat_sub (2 ^ level) 1) in
      let byte := state_at p head in
      if byte =? INSIDE then covering_free p levels index order else
      let head_order := order_of_byte byte in
      if sat_add head (2 ^ head_order) <=? index then covering_free p levels index order
      else if is_free_byte byte && (order <=? head_order) then Some (head, head_order) else None
  end.
Definition levels_from (sh : Shape) (order : N) : list N :=
  map (λ k, order + N.of_nat k) (seq 0 (N.to_nat (max_order sh + 1 - order))).

(** The split loop of [Buddy::claim]: towards [index], [turns] halvings of the block of order [current] at [at_]. *)
Fixpoint split_towards (turns : nat) (p : Pool) (index at_ current : N) : Pool :=
  match turns with
  | O => p
  | S turns =>
      let current := sat_sub current 1 in
      let upper := sat_add_u32 at_ (2 ^ current) in
      let '(kept, freed) := if upper <=? index then (upper, at_) else (at_, upper) in
      split_towards turns (link (mark p freed current true) freed current) index kept current
  end.

Definition claim (b : Buddy) (off length : N) : Buddy * result MemError Block :=
  let sh := shape b in let p := pool b in
  let refused reason := (b, Err (ForeignExtent off length reason)) in
  if negb (N.land off (sat_sub (granule sh) 1) =? 0) then refused Misaligned else
  match order_for sh length with
  | Err _ => refused WrongLength
  | Ok order =>
      if negb (order_bytes sh order =? length) then refused WrongLength else
      let index := N.shiftr off (granule_shift sh) in
      if (u32_max <? index) || (len (p_state p) <=? index) then refused OutOfRange else
      if negb (N.land index (sat_sub (2 ^ order) 1) =? 0) then refused Misaligned else
      match covering_free p (levels_from sh order) index order with
      | None => refused Claimed
      | Some (head, head_order) =>
          match checked_add (incarnation_at p index) 1 with
          | None => (b, Err (GenerationExhausted index))
          | Some incarnation =>
              let p := unlink p head head_order in
              let p := split_towards (N.to_nat (head_order - order)) p index head head_order in
              let '(b, block) := take_block (b <| pool := p |>) index order incarnation in
              (b, Ok block)
          end
      end
  end.

(** ** Trimming *)

(** [pieces_of], over the orders below [below], highest first. *)
Fixpoint pieces_of (below : nat) (at_ granules : N) : list (N * N) :=
  match below with
  | O => []
  | S order =>
      if N.testbit granules (N.of_nat order) then
        (at_, N.of_nat order) :: pieces_of order (sat_add_u32 at_ (2 ^ N.of_nat order)) granules
      else pieces_of order at_ granules
  end.

(** The incarnations of the pieces: the first keeps the block's, the others take their next. *)
Fixpoint piece_incarnations (p : Pool) (pieces : list (N * N)) : result MemError (list N) :=
  match pieces with
  | [] => Ok []
  | (piece, _) :: rest =>
      value ← ok_or (checked_add (incarnation_at p piece) 1) (GenerationExhausted piece);
      values ← piece_incarnations p rest; Ok (value :: values)
  end.

(** The loop that makes each piece a head. *)
Definition keep_piece (b : Buddy) (piece order incarnation : N) : Buddy :=
  b <| pool ::= λ p, set_incarnation (mark p piece order false) piece incarnation |>
    <| image ::= λ i, keep_live i piece true |>.
Fixpoint keep_pieces (b : Buddy) (pieces : list (N * N)) (incarnations : list N) : Buddy * list Block :=
  match pieces, incarnations with
  | (piece, order) :: pieces, value :: incarnations =>
      let '(b', kept) := keep_pieces (keep_piece b piece order value) pieces incarnations in
      (b', block_at (shape b) piece order value :: kept)
  | _, _ => (b, [])
  end.

(** The loop that frees the rest, [at_..end_], lowest first: each the largest aligned block that fits. *)
Fixpoint fit_order (turns : nat) (at_ end_ order : N) : N :=
  match turns with
  | O => order
  | S turns => if end_ <? sat_add_u32 at_ (2 ^ order) then fit_order turns at_ end_ (sat_sub order 1) else order
  end.
Fixpoint free_rest (sh : Shape) (turns : nat) (p : Pool) (at_ end_ order : N) : Pool :=
  match turns with
  | O => p
  | S turns =>
      if negb (at_ <? end_) then p else
      let start := N.min (trailing_zeros at_) order in
      let free_order := fit_order (N.to_nat start) at_ end_ start in
      free_rest sh turns (coalesce_free sh p at_ free_order) (sat_add_u32 at_ (2 ^ free_order)) end_ order
  end.

Definition trim (b : Buddy) (block : Block) (keep : N) : Buddy * result MemError (option (list Block)) :=
  let sh := shape b in
  match block_validate b block with
  | Err reason => (b, Err (foreign block reason))
  | Ok (index, order) =>
      let granules := div_ceil (N.max keep 1) (granule sh) in
      let whole := 2 ^ order in
      if (whole <=? granules) || named_by_an_image (image b) index || is_locked b block then (b, Ok None) else
      let pieces := pieces_of (N.to_nat order) index granules in
      let at_ := from_option (λ e, sat_add_u32 e.1 (2 ^ e.2)) index (last pieces) in
      match piece_incarnations (pool b) (tail pieces) with
      | Err e => (b, Err e)
      | Ok values =>
          let '(b, kept) := keep_pieces b pieces (incarnation block :: values) in
          let end_ := sat_add_u32 index (if whole <=? u32_max then whole else u32_max) in
          let p := free_rest sh (N.to_nat (end_ - at_)) (pool b) at_ end_ order in
          (b <| pool := p |>, Ok (Some kept))
      end
  end.

(** [Buddy::trimmed_blocks]. *)
Fixpoint trimmed_pieces (sh : Shape) (p : Pool) (pieces : list (N * N)) : result ExtentRefusal (list Block) :=
  match pieces with
  | [] => Ok []
  | (piece, order) :: rest =>
      let byte := state_at p piece in
      if (byte =? INSIDE) || is_free_byte byte || negb (order_of_byte byte =? order) then Err NotAllocated else
      blocks ← trimmed_pieces sh p rest; Ok (block_at sh piece order (incarnation_at p piece) :: blocks)
  end.
Definition trimmed_blocks (b : Buddy) (head_ : Block) (keep : N) : result ExtentRefusal (list Block) :=
  match block_validate b head_ with
  | Err reason => Err reason
  | Ok (index, order) =>
      let granules := div_ceil (N.max keep 1) (granule (shape b)) in
      let pieces := pieces_of (N.to_nat (order + 1)) index granules in
      if bool_decide (head pieces = Some (index, order)) then trimmed_pieces (shape b) (pool b) pieces
      else Err WrongLength
  end.
Definition holds_trimmed (b : Buddy) (head_ : Block) (keep : N) : bool := is_ok (trimmed_blocks b head_ keep).

(** [Buddy::free_or_defer_trimmed]. *)
Fixpoint free_or_defer_all (b : Buddy) (blocks : list Block) (deferred : bool) : Buddy * result MemError bool :=
  match blocks with
  | [] => (b, Ok deferred)
  | block :: blocks =>
      let '(b, r) := free_or_defer b block in
      match r with Err e => (b, Err e) | Ok d => free_or_defer_all b blocks (deferred || d) end
  end.
Definition free_or_defer_trimmed (b : Buddy) (head_ : Block) (keep : N) : Buddy * result MemError bool :=
  match trimmed_blocks b head_ keep with
  | Err reason => (b, Err (foreign head_ reason))
  | Ok blocks => free_or_defer_all b blocks false
  end.

(** ** Captures *)

(** A walk over the words a set names: for each summary, its bits lowest first, [visit] on the word. *)
Definition words_of (ws : list N) : list N :=
  concat (imap (λ at_ summary, map (λ bit, N.of_nat at_ * WORD_BITS + bit) (bits_of summary)) ws).

(** The first capture's read of the state bytes. *)
Definition scan_live (p : Pool) (live : list N) : list N :=
  foldl (λ w e, if negb (e.2 =? INSIDE) && negb (is_free_byte e.2) then bits_set w e.1 true else w) live
    (imap (λ k byte, (N.of_nat k, byte)) (p_state p)).
Definition first_capture (p : Pool) (i : Image) : Image :=
  if i_imaged i then i else
  let i := i <| i_live ::= scan_live p |> <| i_imaged := true |>
             <| i_scanned ::= λ n, sat_add n (len (p_state p)) |> in
  i <| i_changed ::= λ w, words_insert_all w (len (i_live i)) |>.
Definition capture_word (i : Image) (word : N) : Image :=
  let live := default 0 (word_at (i_live i) word) in
  let deferred := default 0 (word_at (i_deferred i) word) in
  match word_at (i_capture i) word with
  | None => i
  | Some _ => i <| i_capture ::= λ w, word_update w word (λ _, N.ldiff live deferred) |>
                <| i_uncommitted ::= λ w, words_insert w word |>
  end.
(** [Buddy::capture]: the walk takes each summary of [changed] before it visits its words. *)
Definition capture (b : Buddy) : Buddy :=
  b <| image ::= λ i,
    let i := first_capture (pool b) i <| i_capturing := true |> in
    foldl capture_word (i <| i_changed ::= map (λ _, 0) |>) (words_of (i_changed i)) |>.

(** The blocks of a word's bits, released one by one; what [released] is told. *)
Definition release_bit (word : N) (st : Buddy * list (N * N * bool)) (bit : N) : Buddy * list (N * N * bool) :=
  let '(b, out) := st in
  match bit_index_of word bit with
  | None => (b, out)
  | Some index =>
      let order := order_of_byte (state_at (pool b) index) in
      let '(b, was_locked) := release b index order in
      (b, out ++ [(N.shiftl index (granule_shift (shape b)), order_bytes (shape b) order, was_locked)])
  end.
Definition kept_bytes (b : Buddy) (word kept : N) : N :=
  foldl (λ n bit, match bit_index_of word bit with
    | None => n
    | Some index => sat_add n (order_bytes (shape b) (order_of_byte (state_at (pool b) index)))
    end) 0 (bits_of kept).

(** The bookkeeping of a word of deferred blocks whose [keep] stays deferred. *)
Definition settle_word (i : Image) (word deferred keep : N) : Image :=
  let i := i <| i_deferred ::= λ w, word_update w word (λ _, N.land deferred keep) |> in
  let i := if N.land deferred keep =? 0 then i <| i_deferring ::= λ w, words_remove w word |> else i in
  if N.ldiff deferred keep =? 0 then i else i <| i_changed ::= λ w, words_insert w word |>.

(** [Buddy::commit_deferred_word]. *)
Definition commit_deferred_word (st : Buddy * list (N * N * bool) * N) (word : N) : Buddy * list (N * N * bool) * N :=
  let '(b, out, bytes) := st in
  let captured := default 0 (word_at (i_capture (image b)) word) in
  let deferred := default 0 (word_at (i_deferred (image b)) word) in
  let b := b <| image ::= λ i, settle_word i word deferred captured |> in
  let '(b, out) := foldl (release_bit word) (b, out) (bits_of (N.ldiff deferred captured)) in
  (b, out, sat_add bytes (kept_bytes b word (N.land deferred captured))).

(** [Buddy::commit_uncommitted]. *)
Definition commit_word (i : Image) (word : N) : Image :=
  let captured := default 0 (word_at (i_capture i) word) in
  i <| i_committed ::= λ w, word_update w word (λ _, captured) |>.
Definition commit_uncommitted (i : Image) : Image :=
  foldl commit_word (i <| i_uncommitted ::= map (λ _, 0) |>) (words_of (i_uncommitted i)).

(** [Buddy::commit_capture_releasing], with what it told [released]; [Buddy::commit_capture] ignores it. *)
Definition commit_capture_releasing (b : Buddy) : Buddy * list (N * N * bool) :=
  if negb (i_capturing (image b)) then (b, []) else
  let b := b <| image ::= λ i, i <| i_capturing := false |> |> in
  let '(b, out, bytes) := foldl commit_deferred_word (b, [], 0) (words_of (i_deferring (image b))) in
  (b <| image ::= λ i, commit_uncommitted (i <| i_deferred_bytes := bytes |>) |>, out).
Definition commit_capture (b : Buddy) : Buddy := (commit_capture_releasing b).1.

(** [Buddy::abandon_capture_releasing]; [Buddy::abandon_capture] ignores what it tells. *)
Definition abandon_bit (word : N) (st : Buddy * list (N * N * bool)) (bit : N) : Buddy * list (N * N * bool) :=
  let '(b, out) := st in
  match bit_index_of word bit with
  | None => (b, out)
  | Some index =>
      let bytes := order_bytes (shape b) (order_of_byte (state_at (pool b) index)) in
      release_bit word (b <| image ::= λ i, i <| i_deferred_bytes ::= λ n, sat_sub n bytes |> |>, out) bit
  end.
Definition abandon_word (st : Buddy * list (N * N * bool)) (word : N) : Buddy * list (N * N * bool) :=
  let '(b, out) := st in
  let committed := default 0 (word_at (i_committed (image b)) word) in
  let deferred := default 0 (word_at (i_deferred (image b)) word) in
  let b := b <| image ::= λ i, settle_word i word deferred committed |> in
  foldl (abandon_bit word) (b, out) (bits_of (N.ldiff deferred committed)).
Definition abandon_capture_releasing (b : Buddy) : Buddy * list (N * N * bool) :=
  if negb (i_capturing (image b)) then (b, []) else
  let b := b <| image ::= λ i, i <| i_capturing := false |> |> in
  foldl abandon_word (b, []) (words_of (i_deferring (image b))).
Definition abandon_capture (b : Buddy) : Buddy := (abandon_capture_releasing b).1.

(** [Buddy::commit_live]. *)
Definition commit_live (b : Buddy) : Buddy := commit_capture (capture b).

(** ** What can be allocated *)

(** The inner walk of [Buddy::allocatable] at one level. *)
Fixpoint count_level (next : list N) (fuel : nat) (at_ per units cap : N) : N :=
  match fuel with
  | O => units
  | S fuel =>
      if (at_ =? NONE) || negb (units <? cap) then units
      else count_level next fuel (link_at next at_) per (sat_add units per) cap
  end.
Definition allocatable (b : Buddy) (cap length : N) : N :=
  match order_for (shape b) length with
  | Err _ => 0
  | Ok order =>
      let p := pool b in
      let units := foldl (λ units level,
        let per := if level - order <? 64 then 2 ^ (level - order) else usize_max in
        count_level (p_next p) (List.length (p_state p)) (head_of p level) per units cap) 0 (levels_from (shape b) order) in
      N.min units cap
  end.
Definition can_allocate (b : Buddy) (count length : N) : bool := count <=? allocatable b count length.

(** [Buddy::upcoming]: the pieces of a free block, and the loop over the orders' cursors. *)
Fixpoint name_pieces (fuel : nat) (start at_ span block total bytes : N) : list (N * N) * N :=
  match fuel with
  | O => ([], total)
  | S fuel =>
      if (at_ <? span) && (total <? bytes) then
        let '(rest, total) := name_pieces fuel start (sat_add at_ block) span block (sat_add total block) bytes in
        ((sat_add start at_, block) :: rest, total)
      else ([], total)
  end.
Fixpoint first_cursor (cursors : list (N * N)) : option (N * N) :=
  match cursors with
  | [] => None
  | (order, index) :: cursors => if index =? NONE then first_cursor cursors else Some (order, index)
  end.
Fixpoint upcoming_loop (sh : Shape) (p : Pool) (fuel : nat) (cursors : list (N * N)) (block total bytes : N) : list (N * N) :=
  match fuel with
  | O => []
  | S fuel =>
      if negb (total <? bytes) then [] else
      match first_cursor cursors with
      | None => []
      | Some (found, index) =>
          let cursors := map (λ c, if c.1 =? found then (c.1, link_at (p_next p) index) else c) cursors in
          let start := N.shiftl index (granule_shift sh) in
          let span := order_bytes sh found in
          let '(named, total) := name_pieces (N.to_nat (2 ^ found)) start 0 span block total bytes in
          named ++ upcoming_loop sh p fuel cursors block total bytes
      end
  end.
Definition buddy_upcoming (b : Buddy) (length bytes : N) : list (N * N) :=
  let sh := shape b in let p := pool b in
  match order_for sh length with
  | Err _ => []
  | Ok order =>
      let cursors := map (λ o, (o, head_of p o)) (levels_from sh order) in
      upcoming_loop sh p (S (List.length (p_state p))) cursors (order_bytes sh order) 0 bytes
  end.
