(* ===== verification/BuddyTile.v ===== *)
(** * Tilings by power-of-two blocks

    The abstract region of [crates/mem/src/buddy.rs]: blocks, allocated or
    free, that cover it without overlap, each on its own size's boundary, no
    two free buddies; splitting, merging, and that the merging is complete: a
    wholly free aligned span lies in one free block.  Then the free lists, threaded through the
    region's granules. *)

From S2P Require Import Prelude BuddyBits Buddy.
#[local] Open Scope N_scope.

(** A granule's cell: the order of the block it heads, and whether that is free. *)
Abbreviation Cells := (N → option (N * bool)) (only parsing).
Definition put (T : Cells) (i : N) (c : option (N * bool)) : Cells := λ j, if decide (j = i) then c else T j.

Lemma put_eq T i c : put T i c i = c.
Proof. unfold put. by rewrite decide_True. Qed.
Lemma put_ne T i c j : j ≠ i → put T i c j = T j.
Proof. intros. unfold put. by rewrite decide_False. Qed.

(** The buddy of the block of order [o] at [h]. *)
Definition buddy_of (h o : N) : N := N.lxor h (2 ^ o).

Lemma pow_pos o : 0 < 2 ^ o.
Proof. apply N.neq_0_lt_0, N.pow_nonzero. lia. Qed.
Lemma pow_succ o : 2 ^ (o + 1) = 2 * 2 ^ o.
Proof. rewrite N.add_1_r. apply N.pow_succ_r'. Qed.
Lemma pow_divide a b : a ≤ b → (2 ^ a | 2 ^ b).
Proof. intros. exists (2 ^ (b - a)). rewrite <- N.pow_add_r. f_equal. lia. Qed.
Lemma divide_mono a b h : a ≤ b → (2 ^ b | h) → (2 ^ a | h).
Proof. intros Hab H. etransitivity; [by apply pow_divide|done]. Qed.

Lemma lxor_one q : N.lxor q 1 = q + 1 ∧ (2 | q) ∨ q = N.lxor q 1 + 1 ∧ (2 | N.lxor q 1).
Proof.
  assert (∀ k, N.lxor (2 * k) 1 = 2 * k + 1) as Hk.
  { intros k. symmetry. apply N.add_nocarry_lxor. apply N.bits_inj. intros i. rewrite N.land_spec, N.bits_0.
    destruct i as [|i] using N.peano_ind; [by rewrite N.testbit_even_0|]. rewrite (N.bits_above_log2 1), andb_false_r; [done|]. cbn. lia. }
  destruct (N.Even_or_Odd q) as [[k ->]|[k ->]].
  - left. split; [apply Hk|]. by exists k; lia.
  - right. rewrite <- (Hk k), N.lxor_assoc, N.lxor_nilpotent, N.lxor_0_r, Hk. split; [done|]. by exists k; lia.
Qed.

Lemma buddy_cases h o :
  (2 ^ o | h) →
  (buddy_of h o = h + 2 ^ o ∧ (2 ^ (o + 1) | h)) ∨ (h = buddy_of h o + 2 ^ o ∧ (2 ^ (o + 1) | buddy_of h o)).
Proof.
  intros [q ->]. unfold buddy_of. assert (N.lxor (q * 2 ^ o) (2 ^ o) = N.lxor q 1 * 2 ^ o) as ->.
  { rewrite <- !N.shiftl_mul_pow2, N.shiftl_lxor. f_equal. by rewrite N.shiftl_1_l. }
  rewrite pow_succ. destruct (lxor_one q) as [[E [k ->]]|[E [k Hk]]].
  - left. rewrite E. split; [lia|]. exists k. lia.
  - right. split; [rewrite E at 1; lia|]. exists k. rewrite Hk. lia.
Qed.
Lemma buddy_invol h o : buddy_of (buddy_of h o) o = h.
Proof. unfold buddy_of. by rewrite N.lxor_assoc, N.lxor_nilpotent, N.lxor_0_r. Qed.
Lemma buddy_aligned h o : (2 ^ o | h) → (2 ^ o | buddy_of h o).
Proof.
  intros H. destruct (buddy_cases h o H) as [[-> _]|[_ H2]].
  - apply N.divide_add_r; [done|reflexivity].
  - by apply (divide_mono o (o + 1)); [lia|].
Qed.
Lemma buddy_ne h o : (2 ^ o | h) → buddy_of h o ≠ h.
Proof. intros H. pose proof (pow_pos o). destruct (buddy_cases h o H) as [[-> _]|[E _]]; lia. Qed.

(** Multiples of a power of two. *)
Lemma aligned_le a b o : (2 ^ o | a) → (2 ^ o | b) → a < b → a + 2 ^ o ≤ b.
Proof. intros [x ->] [y ->] H. pose proof (pow_pos o). assert (x < y) by nia. nia. Qed.
Lemma aligned_span h i o k : k ≤ o → (2 ^ o | h) → (2 ^ k | i) → h ≤ i → i < h + 2 ^ o → i + 2 ^ k ≤ h + 2 ^ o.
Proof.
  intros Hk Hh Hi H1 H2. apply aligned_le; [done| |done].
  apply N.divide_add_r; [by eapply divide_mono|by apply pow_divide].
Qed.
Lemma aligned_head h i o : (2 ^ o | h) → (2 ^ o | i) → h ≤ i → i < h + 2 ^ o → h = i.
Proof. intros Hh Hi H1 H2. destruct (decide (h = i)) as [|]; [done|]. pose proof (aligned_le h i o Hh Hi ltac:(lia)). lia. Qed.

(** ** Tilings *)
Record tiling (M : N) (T : Cells) : Prop := {
  t_fit : ∀ h o f, T h = Some (o, f) → o ≤ M ∧ (2 ^ o | h) ∧ h + 2 ^ o ≤ 2 ^ M;
  t_apart : ∀ h o f h' o' f', T h = Some (o, f) → T h' = Some (o', f') → h < h' → h + 2 ^ o ≤ h';
  t_cover : ∀ i, i < 2 ^ M → ∃ h o f, T h = Some (o, f) ∧ h ≤ i < h + 2 ^ o;
  t_merged : ∀ h o, T h = Some (o, true) → o < M → T (buddy_of h o) ≠ Some (o, true)
}.

Section tiling.
Context (M : N) (T : Cells) (HT : tiling M T).

Lemma buddy_fit h o f : T h = Some (o, f) → o < M → buddy_of h o + 2 ^ o ≤ 2 ^ M.
Proof using HT.
  intros Hh Ho. destruct (t_fit _ _ HT _ _ _ Hh) as (_&Hal&Hfit). pose proof (pow_pos o).
  destruct (buddy_cases h o Hal) as [[-> H2]|[E _]]; [|lia].
  rewrite <- N.add_assoc. replace (2 ^ o + 2 ^ o) with (2 ^ (o + 1)) by (rewrite pow_succ; lia).
  apply aligned_le; [done|apply pow_divide; lia|lia].
Qed.

(** A granule lies in one block only. *)
Lemma cover_unique h o f h' o' f' i :
  T h = Some (o, f) → T h' = Some (o', f') → h ≤ i < h + 2 ^ o → h' ≤ i < h' + 2 ^ o' → h = h'.
Proof using HT.
  intros H H' Hi Hi'. destruct (N.lt_trichotomy h h') as [Hlt|[|Hlt]]; [|done|].
  - pose proof (t_apart _ _ HT _ _ _ _ _ _ H H' Hlt). lia.
  - pose proof (t_apart _ _ HT _ _ _ _ _ _ H' H Hlt). lia.
Qed.

(** Changing whether a block is free. *)
Lemma tile_set h o f f' :
  T h = Some (o, f) → (f' = true → o < M → T (buddy_of h o) ≠ Some (o, true)) → tiling M (put T h (Some (o, f'))).
Proof using HT.
  intros Hh Hb. assert (∀ x o' g, put T h (Some (o, f')) x = Some (o', g) → ∃ g', T x = Some (o', g')) as Hx.
  { intros x o' g. unfold put. case_decide as E; [|eauto]. intros [= <- <-]. subst x. eauto. }
  split.
  - intros x o' g (g'&Hg)%Hx. by eapply (t_fit _ _ HT).
  - intros x o1 g1 y o2 g2 (?&H1)%Hx (?&H2)%Hx. by eapply (t_apart _ _ HT).
  - intros i Hi. destruct (t_cover _ _ HT i Hi) as (x&o'&g&Hg&Hin). exists x, o', (if decide (x = h) then f' else g).
    split; [|done]. unfold put. case_decide; [|done]. subst x. by simplify_eq.
  - intros x o' Hfree Ho. destruct (decide (x = h)) as [->|Hne].
    + rewrite put_eq in Hfree. simplify_eq. rewrite put_ne; [by apply Hb|]. apply buddy_ne. by apply (t_fit _ _ HT) in Hh as (_&?&_).
    + rewrite put_ne in Hfree by done. destruct (decide (buddy_of x o' = h)) as [E|E].
      * rewrite E, put_eq. intros [= -> ->]. apply Hb; [done|done|]. by rewrite <- E, buddy_invol.
      * rewrite put_ne by done. by apply (t_merged _ _ HT).
Qed.

(** Splitting a block into its halves, not both free. *)
Definition split_cells (h o : N) (fl fu : bool) : Cells := put (put T h (Some (o, fl))) (h + 2 ^ o) (Some (o, fu)).

Lemma split_view h o fl fu x c :
  split_cells h o fl fu x = Some c →
  (x = h ∧ c = (o, fl)) ∨ (x = h + 2 ^ o ∧ c = (o, fu)) ∨ (x ≠ h ∧ x ≠ h + 2 ^ o ∧ T x = Some c).
Proof. unfold split_cells, put. repeat case_decide; naive_solver. Qed.

Lemma tile_split h o f fl fu :
  T h = Some (o + 1, f) → ¬ (fl = true ∧ fu = true) → tiling M (split_cells h o fl fu).
Proof using HT.
  intros Hh Hf. destruct (t_fit _ _ HT _ _ _ Hh) as (HoM&Hal&Hfit). pose proof (pow_pos o) as Hp. rewrite pow_succ in *.
  assert (2 ^ o | h) as Hal' by (eapply (divide_mono o (o + 1)); [lia|by rewrite pow_succ]).
  assert (∀ x o' g, x ≠ h → T x = Some (o', g) → x + 2 ^ o' ≤ h ∨ h + 2 * 2 ^ o ≤ x) as Hout.
  { intros x o' g Hne Hx. destruct (N.lt_trichotomy x h) as [Hlt|[|Hlt]]; [left|done|right].
    - by apply (t_apart _ _ HT _ _ _ _ _ _ Hx Hh).
    - pose proof (t_apart _ _ HT _ _ _ _ _ _ Hh Hx Hlt) as H. by rewrite pow_succ in H. }
  split.
  - intros x o' g [[-> [= -> ->]]|[[-> [= -> ->]]|(_&_&Hx)]]%split_view; [| |by apply (t_fit _ _ HT) in Hx].
    + split_and!; [lia|done|lia].
    + split_and!; [lia| |lia]. apply N.divide_add_r; [done|reflexivity].
  - intros x o1 g1 y o2 g2 Hx Hy Hlt.
    apply split_view in Hx as [[-> [= -> ->]]|[[-> [= -> ->]]|(Nx&_&Hx)]];
      apply split_view in Hy as [[-> [= -> ->]]|[[-> [= -> ->]]|(Ny&_&Hy)]]; try lia.
    + destruct (Hout _ _ _ Ny Hy); lia.
    + destruct (Hout _ _ _ Ny Hy); lia.
    + destruct (Hout _ _ _ Nx Hx); lia.
    + destruct (Hout _ _ _ Nx Hx); lia.
    + by apply (t_apart _ _ HT _ _ _ _ _ _ Hx Hy).
  - intros i Hi. destruct (t_cover _ _ HT i Hi) as (x&o'&g&Hx&Hin). destruct (decide (x = h)) as [->|Hne].
    + rewrite Hh in Hx. injection Hx as <- <-. rewrite pow_succ in Hin. destruct (decide (i < h + 2 ^ o)).
      * exists h, o, fl. split; [|lia]. unfold split_cells. rewrite put_ne, put_eq by lia. done.
      * exists (h + 2 ^ o), o, fu. split; [|lia]. unfold split_cells. by rewrite put_eq.
    + exists x, o', g. split; [|done]. unfold split_cells. rewrite !put_ne; [done|done|].
      destruct (Hout _ _ _ Hne Hx); lia.
  - intros x o' Hx Ho Hb. assert (buddy_of h o = h + 2 ^ o) as Hbud.
    { destruct (buddy_cases h o Hal') as [[? _]|[E H2]]; [done|]. exfalso. rewrite pow_succ in H2.
      assert (2 * 2 ^ o | h) as H3 by done. pose proof (aligned_le (buddy_of h o) h (o + 1)) as Hle. rewrite pow_succ in Hle.
      specialize (Hle H2 H3 ltac:(lia)). lia. }
    apply split_view in Hx as [[-> [= -> <-]]|[[-> [= -> <-]]|(Nx&Nx'&Hx)]].
    + rewrite Hbud in Hb. unfold split_cells in Hb. rewrite put_eq in Hb. naive_solver.
    + assert (buddy_of (h + 2 ^ o) o = h) as E by (by rewrite <- Hbud, buddy_invol). rewrite E in Hb. unfold split_cells in Hb.
      rewrite put_ne, put_eq in Hb by lia. naive_solver.
    + apply split_view in Hb as [[E [= -> _]]|[[E [= -> _]]|(_&_&Hb)]].
      * apply Nx'. by rewrite <- Hbud, <- E, buddy_invol.
      * apply Nx. apply (f_equal (λ y, buddy_of y o)) in E. rewrite buddy_invol in E. by rewrite E, <- Hbud, buddy_invol.
      * by apply (t_merged _ _ HT _ _ Hx Ho).
Qed.

(** Merging a block with its buddy into an allocated one. *)
Definition merge_cells (h o : N) : Cells := put (put T (h + 2 ^ o) None) h (Some (o + 1, false)).

Lemma tile_merge h o f f' :
  T h = Some (o, f) → T (h + 2 ^ o) = Some (o, f') → (2 ^ (o + 1) | h) → o < M → tiling M (merge_cells h o).
Proof using HT.
  intros Hh Hu Hal Ho. pose proof (pow_pos o) as Hp.
  destruct (t_fit _ _ HT _ _ _ Hu) as (_&_&Hfit).
  assert (∀ x c, merge_cells h o x = Some c → (x = h ∧ c = (o + 1, false)) ∨ (x ≠ h ∧ x ≠ h + 2 ^ o ∧ T x = Some c)) as Hview.
  { intros x c. unfold merge_cells, put. repeat case_decide; naive_solver. }
  assert (∀ x o' g, x ≠ h → x ≠ h + 2 ^ o → T x = Some (o', g) → x + 2 ^ o' ≤ h ∨ h + 2 * 2 ^ o ≤ x) as Hout.
  { intros x o' g N1 N2 Hx. destruct (N.lt_trichotomy x h) as [Hlt|[|Hlt]]; [left|done|right].
    - by apply (t_apart _ _ HT _ _ _ _ _ _ Hx Hh).
    - pose proof (t_apart _ _ HT _ _ _ _ _ _ Hh Hx Hlt). pose proof (t_apart _ _ HT _ _ _ _ _ _ Hu Hx ltac:(lia)). lia. }
  split.
  - intros x o' g [[-> [= -> ->]]|(_&_&Hx)]%Hview; [|by apply (t_fit _ _ HT) in Hx]. rewrite pow_succ in *. split_and!; [lia|done|lia].
  - intros x o1 g1 y o2 g2 [[-> [= -> ->]]|(Nx&Nx'&Hx)]%Hview [[-> [= -> ->]]|(Ny&Ny'&Hy)]%Hview Hlt; [lia|..].
    + rewrite pow_succ. destruct (Hout _ _ _ Ny Ny' Hy); lia.
    + destruct (Hout _ _ _ Nx Nx' Hx); lia.
    + by apply (t_apart _ _ HT _ _ _ _ _ _ Hx Hy).
  - intros i Hi. destruct (t_cover _ _ HT i Hi) as (x&o'&g&Hx&Hin).
    destruct (decide (x = h ∨ x = h + 2 ^ o)) as [E|E].
    + exists h, (o + 1), false. split; [unfold merge_cells; by rewrite put_eq|]. rewrite pow_succ.
      destruct E as [->| ->]; simplify_eq; lia.
    + exists x, o', g. split; [|done]. unfold merge_cells. rewrite !put_ne; [done|naive_solver..].
  - intros x o' [[_ [=]]|(Nx&Nx'&Hx)]%Hview Hlt Hb.
    apply Hview in Hb as [[_ [=]]|(_&_&Hb)]. by apply (t_merged _ _ HT _ _ Hx Hlt).
Qed.

(** ** Merging is complete *)

(** A granule in a free block. *)
Definition free_granule (i : N) : Prop := ∃ h o, T h = Some (o, true) ∧ h ≤ i < h + 2 ^ o.

Lemma no_small_block a k h o :
  (2 ^ k | a) → a + 2 ^ k ≤ 2 ^ M → k ≤ M → (∀ i, a ≤ i < a + 2 ^ k → free_granule i) →
  T h = Some (o, true) → a ≤ h < a + 2 ^ k → o < k → False.
Proof using HT.
  intros Ha Hfit HkM Hall. revert h. induction o as [o IH] using (well_founded_induction N.lt_wf_0). intros h Hh Hin Ho.
  destruct (t_fit _ _ HT _ _ _ Hh) as (_&Hal&_). pose proof (pow_pos o) as Hp.
  assert (a ≤ buddy_of h o < a + 2 ^ k) as Hb.
  { destruct (buddy_cases h o Hal) as [[E H2]|[E H2]].
    - rewrite E. pose proof (aligned_span a h k (o + 1) ltac:(lia) Ha H2 ltac:(lia) ltac:(lia)) as H. rewrite pow_succ in H. lia.
    - split; [|lia]. destruct (decide (a ≤ buddy_of h o)); [done|]. exfalso.
      pose proof (aligned_le (buddy_of h o) a (o + 1) H2 ltac:(eapply (divide_mono (o + 1) k); [lia|done]) ltac:(lia)) as H.
      rewrite pow_succ in H. lia. }
  destruct (Hall _ Hb) as (h'&o'&Hh'&Hin'). destruct (t_fit _ _ HT _ _ _ Hh') as (_&Hal'&_).
  pose proof (buddy_aligned h o Hal) as Halb.
  destruct (decide (o' < o)) as [Hlt|Hge].
  { assert (h' = buddy_of h o) as -> by (apply (aligned_head _ _ o'); [done|eapply (divide_mono o' o); [lia|done]|lia..]).
    by apply (IH o' Hlt (buddy_of h o) Hh' Hb ltac:(lia)). }
  destruct (decide (o' = o)) as [->|Hne].
  { assert (h' = buddy_of h o) as -> by (by apply (aligned_head _ _ o); [..|lia|lia]).
    by apply (t_merged _ _ HT h o Hh ltac:(lia)). }
  assert (h' ≤ h < h' + 2 ^ o') as Hcov.
  { assert (∃ m, (2 ^ (o + 1) | m) ∧ m ≤ h ∧ m ≤ buddy_of h o ∧ h < m + 2 ^ (o + 1) ∧ buddy_of h o < m + 2 ^ (o + 1)) as (m&Hm&?&?&?&?).
    { destruct (buddy_cases h o Hal) as [[E H2]|[E H2]]; [exists h|exists (buddy_of h o)]; rewrite pow_succ in *; split_and!; done || lia. }
    assert (h' ≤ m) as Hle.
    { destruct (decide (h' ≤ m)); [done|]. pose proof (aligned_le m h' (o + 1) Hm ltac:(eapply (divide_mono _ o'); [lia|done]) ltac:(lia)). lia. }
    pose proof (aligned_span h' m o' (o + 1) ltac:(lia) Hal' Hm Hle ltac:(lia)). lia. }
  assert (h = h') as <- by (apply (cover_unique _ _ _ _ _ _ h Hh Hh'); [lia|done]).
  rewrite Hh in Hh'. congruence.
Qed.

(** A wholly free aligned span lies in one free block. *)
Lemma free_span a k :
  (2 ^ k | a) → a + 2 ^ k ≤ 2 ^ M → k ≤ M → (∀ i, a ≤ i < a + 2 ^ k → free_granule i) →
  ∃ h o, T h = Some (o, true) ∧ k ≤ o ∧ h ≤ a ∧ a + 2 ^ k ≤ h + 2 ^ o.
Proof using HT.
  intros Ha Hfit HkM Hall. pose proof (pow_pos k). destruct (Hall a ltac:(lia)) as (h&o&Hh&Hin).
  destruct (t_fit _ _ HT _ _ _ Hh) as (_&Hal&_).
  destruct (decide (k ≤ o)) as [Hk|Hk].
  - exists h, o. split_and!; [done..|lia|]. apply aligned_span; [done..|lia|lia].
  - exfalso. assert (h = a) as -> by (apply (aligned_head _ _ o); [done|eapply (divide_mono o k); [lia|done]|lia..]).
    by apply (no_small_block a k a o Ha Hfit HkM Hall Hh); lia.
Qed.
End tiling.

(** A granule inside a block heads none. *)
Lemma tile_inside M T h o f x : tiling M T → T h = Some (o, f) → h < x < h + 2 ^ o → T x = None.
Proof.
  intros HT Hh Hx. destruct (T x) as [[o' f']|] eqn:E; [|done].
  pose proof (t_apart _ _ HT _ _ _ _ _ _ Hh E ltac:(lia)). lia.
Qed.
Lemma tile_outside M T x : tiling M T → 2 ^ M ≤ x → T x = None.
Proof.
  intros HT Hx. destruct (T x) as [[o f]|] eqn:E; [|done]. destruct (t_fit _ _ HT _ _ _ E) as (_&_&?). pose proof (pow_pos o). lia.
Qed.
Lemma tile_bound M T x c : tiling M T → T x = Some c → x < 2 ^ M.
Proof. intros HT Hx. destruct (decide (x < 2 ^ M)); [done|]. rewrite (tile_outside M T x) in Hx by (done || lia). done. Qed.

(** ** The live blocks determine the tiling *)

(** The order of the live block at a granule. *)
Definition live_at (T : Cells) (x : N) : option N := match T x with Some (o, false) => Some o | _ => None end.

Lemma live_at_some T x o : live_at T x = Some o ↔ T x = Some (o, false).
Proof. unfold live_at. destruct (T x) as [[? []]|]; naive_solver. Qed.

Section unique.
Context (M : N) (T T' : Cells) (HT : tiling M T) (HT' : tiling M T') (Hlive : ∀ x, live_at T x = live_at T' x).

Lemma free_granule_same i : i < 2 ^ M → free_granule T i → free_granule T' i.
Proof using HT HT' Hlive.
  intros Hi (h&o&Hh&Hin). destruct (t_cover _ _ HT' i Hi) as (h'&o'&[]&Hh'&Hin'); [by exists h', o'|]. exfalso.
  assert (T h' = Some (o', false)) as Hl by (apply live_at_some; rewrite Hlive; by apply live_at_some).
  pose proof (cover_unique _ _ HT _ _ _ _ _ _ _ Hh Hl Hin Hin') as <-. congruence.
Qed.
Lemma free_within h o :
  T h = Some (o, true) → ∃ h' o', T' h' = Some (o', true) ∧ o ≤ o' ∧ h' ≤ h ∧ h + 2 ^ o ≤ h' + 2 ^ o'.
Proof using HT HT' Hlive.
  intros Hh. destruct (t_fit _ _ HT _ _ _ Hh) as (Ho&Hal&Hfit). apply (free_span _ _ HT'); try done.
  intros i Hi. apply free_granule_same; [lia|]. by exists h, o.
Qed.
End unique.

Lemma free_same M T T' h o :
  tiling M T → tiling M T' → (∀ x, live_at T x = live_at T' x) → T h = Some (o, true) → T' h = Some (o, true).
Proof.
  intros HT HT' Hl Hh. destruct (free_within M T T' HT HT' Hl h o Hh) as (h'&o'&Hh'&Ho&Hle&Hend).
  destruct (free_within M T' T HT' HT (λ x, eq_sym (Hl x)) h' o' Hh') as (h2&o2&Hh2&Ho2&Hle2&Hend2).
  pose proof (pow_pos o). pose proof (pow_pos o').
  assert (h = h2) as <- by (apply (cover_unique _ _ HT _ _ _ _ _ _ h Hh Hh2); lia).
  rewrite Hh in Hh2. injection Hh2 as <-. assert (h' = h) as -> by lia. assert (o' = o) as -> by lia. done.
Qed.

(** Tilings with the same live blocks are the same, cell by cell. *)
Lemma tiling_unique M T T' :
  tiling M T → tiling M T' → (∀ x, live_at T x = live_at T' x) → ∀ x, T x = T' x.
Proof.
  intros HT HT' Hl x. destruct (T x) as [[o []]|] eqn:E.
  - symmetry. by apply (free_same M T T').
  - symmetry. apply live_at_some. rewrite <- Hl. by apply live_at_some.
  - destruct (T' x) as [[o []]|] eqn:E'; [| |done].
    + apply (free_same M T' T) in E'; [congruence|done..].
    + apply live_at_some in E'. rewrite <- Hl in E'. apply live_at_some in E'. congruence.
Qed.

(** ** The free granules *)
Definition weight (c : option (N * bool)) : N := match c with Some (o, true) => 2 ^ o | _ => 0 end.
Fixpoint weight_below (T : Cells) (n : nat) : N :=
  match n with O => 0 | S n => weight_below T n + weight (T (N.of_nat n)) end.
Definition free_weight (M : N) (T : Cells) : N := weight_below T (N.to_nat (2 ^ M)).

Lemma weight_below_ext T T' n : (∀ i, (i < n)%nat → T (N.of_nat i) = T' (N.of_nat i)) → weight_below T n = weight_below T' n.
Proof. induction n as [|n IH]; intros H; [done|]. cbn. rewrite IH, H; auto with lia. Qed.
Lemma weight_below_put T i c n :
  i < N.of_nat n → weight_below (put T i c) n + weight (T i) = weight_below T n + weight c.
Proof.
  induction n as [|n IH]; intros Hi; [lia|]. cbn [weight_below]. destruct (decide (i = N.of_nat n)) as [->|Hne].
  - rewrite put_eq, (weight_below_ext (put T (N.of_nat n) c) T); [lia|]. intros j Hj. apply put_ne. lia.
  - rewrite (put_ne _ _ _ (N.of_nat n)) by lia. specialize (IH ltac:(lia)). lia.
Qed.
Lemma free_weight_put M T i c : i < 2 ^ M → free_weight M (put T i c) + weight (T i) = free_weight M T + weight c.
Proof. intros Hi. apply weight_below_put. lia. Qed.
Lemma free_weight_ext M T T' : (∀ x, T x = T' x) → free_weight M T = free_weight M T'.
Proof. intros H. apply weight_below_ext. auto. Qed.

(** The free blocks fit in the region. *)
Lemma weight_below_bound M T n : tiling M T →
  ∃ top, weight_below T n ≤ top ∧ top ≤ 2 ^ M ∧ (∀ x c, T x = Some c → N.of_nat n ≤ x → top ≤ x).
Proof.
  intros HT. induction n as [|n (top&Hw&Ht&Hx)]; [exists 0; cbn; split_and!; [lia..|]; intros; lia|]. cbn [weight_below].
  destruct (T (N.of_nat n)) as [[o f]|] eqn:E.
  - exists (N.of_nat n + 2 ^ o). destruct (t_fit _ _ HT _ _ _ E) as (_&_&Hfit). pose proof (Hx _ _ E ltac:(lia)).
    split_and!; [destruct f; cbn [weight]; lia|done|]. intros x [o' f'] Hc Hge. apply (t_apart _ _ HT _ _ _ _ _ _ E Hc). lia.
  - exists top. cbn [weight]. split_and!; [lia|done|]. intros x c Hc Hge. apply (Hx x c Hc). lia.
Qed.
Lemma free_weight_bound M T : tiling M T → free_weight M T ≤ 2 ^ M.
Proof. intros HT. destruct (weight_below_bound M T (N.to_nat (2 ^ M)) HT) as (top&H1&H2&_). unfold free_weight. lia. Qed.

(** * The free lists of the buddy allocator

    The intrusive doubly-linked lists of [crates/mem/src/buddy.rs]: [link]
    pushes a granule on the list of an order and [unlink] takes it out,
    wherever it stands, and neither touches another list. *)

#[local] Open Scope N_scope.

(** ** Links *)
Lemma wrapping_u32 v : v ≤ u32_max → wrapping_pred_u32 (wrapping_succ_u32 v) = v.
Proof.
  intros Hv. unfold wrapping_pred_u32, wrapping_succ_u32. destruct (decide (v = u32_max)) as [->|Hne]; [done|].
  unfold u32_max in *. rewrite N.mod_small by (cbn; lia). rewrite (proj2 (N.eqb_neq _ _)) by lia. lia.
Qed.
Lemma link_at_set links i v j :
  i < len links → v ≤ u32_max → link_at (set_link links i v) j = if decide (j = i) then v else link_at links j.
Proof.
  intros Hi Hv. unfold link_at, set_link, len in *. case_decide as E.
  - subst j. rewrite list_lookup_insert_eq by lia. cbn. by apply wrapping_u32.
  - by rewrite list_lookup_insert_ne by lia.
Qed.
Lemma len_set_link links i v : len (set_link links i v) = len links.
Proof. unfold len, set_link. by rewrite length_insert. Qed.
#[export] Hint Rewrite len_set_link : len.

(** ** Chains *)

(** The elements of [L] in order, each linked to its neighbours, [before] ahead of the first. *)
Fixpoint chain (nx pv : N → N) (before : N) (L : list N) : Prop :=
  match L with
  | [] => True
  | x :: L => pv x = before ∧ nx x = hd NONE L ∧ chain nx pv x L
  end.

Lemma chain_frame nx pv nx' pv' b L :
  (∀ x, x ∈ L → nx' x = nx x ∧ pv' x = pv x) → chain nx pv b L → chain nx' pv' b L.
Proof.
  revert b. induction L as [|x L IH]; intros b Hf; [done|]. intros (H1&H2&H3). cbn [chain]. destruct (Hf x) as [-> ->]; [by left|].
  split_and!; [done..|]. apply IH; [|done]. intros y Hy. apply Hf. by right.
Qed.

(** A new element in front. *)
Lemma chain_push nx pv nx' pv' x L :
  x ∉ L → NoDup L →
  nx' x = hd NONE L → pv' x = NONE → (∀ y, hd_error L = Some y → pv' y = x) →
  (∀ y, y ≠ x → nx' y = nx y) → (∀ y, y ≠ x → hd_error L ≠ Some y → pv' y = pv y) →
  chain nx pv NONE L → chain nx' pv' NONE (x :: L).
Proof.
  intros Hx Hnd Hn Hp Hh Hnx Hpv HL. cbn [chain]. split_and!; [done..|]. destruct L as [|y L]; [done|].
  apply NoDup_cons in Hnd as [Hy _]. destruct HL as (_&H2&H3). apply not_elem_of_cons in Hx as [Hxy Hx]. cbn [chain]. split_and!.
  - by apply Hh.
  - rewrite Hnx by done. done.
  - eapply chain_frame; [|done]. intros z Hz. split; [apply Hnx; congruence|]. apply Hpv; [congruence|]. intros [= ->]. done.
Qed.

(** An element taken out: its neighbours are linked. *)
Lemma chain_remove nx pv nx' pv' b L1 x L2 :
  NoDup (L1 ++ x :: L2) → b ∉ L1 ++ x :: L2 → NONE ∉ L1 ++ x :: L2 → chain nx pv b (L1 ++ x :: L2) →
  (∀ j, j ∈ L1 ++ L2 → nx' j = if decide (j = pv x) then nx x else nx j) →
  (∀ j, j ∈ L1 ++ L2 → pv' j = if decide (j = nx x) then pv x else pv j) →
  nx x = hd NONE L2 ∧ pv x = default b (last L1) ∧ chain nx' pv' b (L1 ++ L2).
Proof.
  revert b. induction L1 as [|a L1 IH]; intros b Hnd Hb HN HL Hnx Hpv; cbn [app] in *.
  - destruct HL as (Hp&Hn&HL). split_and!; [done..|]. destruct L2 as [|y L2]; [done|].
    apply NoDup_cons in Hnd as [Hx Hnd]. destruct HL as (H1&H2&H3). cbn [hd] in Hn.
    assert (y ≠ b) by (intros ->; apply Hb; right; left). cbn [chain]. split_and!.
    + rewrite Hpv by (by left). by rewrite decide_True.
    + rewrite Hnx by (by left). by rewrite decide_False by congruence.
    + eapply chain_frame; [|done]. intros z Hz. apply NoDup_cons in Hnd as [Hy _].
      rewrite Hnx, Hpv by (by right). assert (z ≠ pv x) by (rewrite Hp; intros ->; apply Hb; right; by right).
      assert (z ≠ nx x) by congruence. by rewrite !decide_False.
  - destruct HL as (Hp&Hn&HL). apply NoDup_cons in Hnd as [Ha Hnd].
    assert (a ≠ x) by (intros ->; apply Ha; apply elem_of_app; right; left).
    destruct (IH a) as (H1&H2&H3); [done|done| |done|..].
    { intros Hin. apply HN. by right. }
    { intros j Hj. apply Hnx. by right. }
    { intros j Hj. apply Hpv. by right. }
    split_and!; [done| |].
    + rewrite H2. destruct L1 as [|c L1]; [done|]. change (last (a :: c :: L1)) with (last (c :: L1)).
      destruct (last (c :: L1)) eqn:E; [done|by apply last_None in E].
    + cbn [chain]. split_and!; [..|done].
      * rewrite Hpv by (by left). rewrite decide_False; [done|]. rewrite H1. destruct L2 as [|y L2]; cbn [hd].
        -- intros ->. apply HN. by left.
        -- intros ->. apply Ha. apply elem_of_app. right; right; left.
      * rewrite Hnx by (by left). rewrite H2. destruct L1 as [|c L1]; cbn [last default app hd] in *.
        -- rewrite decide_True by done. done.
        -- rewrite decide_False; [done|]. intros E. apply Ha.
           destruct (last (c :: L1)) as [d|] eqn:Ed; [|by apply last_None in Ed]. cbn in E. unfold Datatypes.id in E. subst d.
           apply last_Some_elem_of in Ed. apply (elem_of_app (c :: L1)). by left.
Qed.

(** ** The lists of a pool *)

(** [F o] lists the free blocks of order [o], first to last. *)
Record lists_ok (M : N) (p : Pool) (F : N → list N) : Prop := {
  l_next : len (p_next p) = 2 ^ M;
  l_prev : len (p_prev p) = 2 ^ M;
  l_heads : len (p_heads p) = M + 1;
  l_head : ∀ o, o ≤ M → head_of p o = hd NONE (F o);
  l_chain : ∀ o, o ≤ M → chain (link_at (p_next p)) (link_at (p_prev p)) NONE (F o);
  l_nodup : ∀ o, NoDup (F o);
  l_in : ∀ o x, x ∈ F o → o ≤ M ∧ x < 2 ^ M;
  l_one : ∀ o o' x, x ∈ F o → x ∈ F o' → o = o'
}.
Definition list_put (F : N → list N) (o : N) (L : list N) : N → list N := λ o', if decide (o' = o) then L else F o'.
Lemma list_put_eq F o L : list_put F o L o = L.
Proof. unfold list_put. by rewrite decide_True. Qed.
Lemma list_put_ne F o L o' : o' ≠ o → list_put F o L o' = F o'.
Proof. intros. unfold list_put. by rewrite decide_False. Qed.

Lemma head_of_set p o v o' :
  o < len (p_heads p) → head_of (set_head p o v) o' = if decide (o' = o) then v else head_of p o'.
Proof.
  unfold head_of, set_head, len. intros Ho. cbn. case_decide as E.
  - subst o'. by rewrite list_lookup_insert_eq by lia.
  - by rewrite list_lookup_insert_ne by lia.
Qed.

Section lists.
Context (M : N) (HM : M ≤ 31).

Lemma index_small x : x < 2 ^ M → x < u32_max.
Proof using HM.
  intros Hx. pose proof (N.pow_le_mono_r 2 M 31 ltac:(lia) HM) as H. change (2 ^ 31) with 2147483648 in H. unfold u32_max. lia.
Qed.
Lemma list_small p F o x : lists_ok M p F → x ∈ F o → x < u32_max.
Proof using HM. intros HF Hx. apply index_small. by apply (l_in _ _ _ HF) in Hx as [_ ?]. Qed.
Lemma head_small p F o : lists_ok M p F → o ≤ M → head_of p o ≤ u32_max.
Proof using HM.
  intros HF Ho. rewrite (l_head _ _ _ HF) by done. destruct (F o) as [|y L] eqn:E; cbn; [done|].
  apply N.lt_le_incl. apply (list_small _ _ o _ HF). rewrite E. left.
Qed.

(** What [link] writes. *)
Lemma link_fields p x o :
  p_state (link p x o) = p_state p ∧ p_incarnations (link p x o) = p_incarnations p ∧ p_free_bytes (link p x o) = p_free_bytes p
  ∧ len (p_next (link p x o)) = len (p_next p) ∧ len (p_prev (link p x o)) = len (p_prev p)
  ∧ len (p_heads (link p x o)) = len (p_heads p).
Proof. unfold link, set_head. destruct (_ =? NONE); cbn; rewrite ?len_set_link; unfold len; rewrite ?length_insert; split_and!; done. Qed.

Lemma link_ok p F x o :
  lists_ok M p F → x < 2 ^ M → o ≤ M → (∀ o', x ∉ F o') → lists_ok M (link p x o) (list_put F o (x :: F o)).
Proof using HM.
  intros HF Hx Ho Hnew. destruct (link_fields p x o) as (_&_&_&En&Ep&Eh). pose proof (head_small _ _ _ HF Ho) as Hhead.
  pose proof (index_small x Hx) as Hxs. pose proof (l_head _ _ _ HF o Ho) as Hhd.
  assert (∀ y, link_at (p_next (link p x o)) y = if decide (y = x) then head_of p o else link_at (p_next p) y) as Hnx.
  { intros y. unfold link, set_head. destruct (_ =? NONE); cbn; apply link_at_set; rewrite ?(l_next _ _ _ HF); done. }
  assert (∀ y, hd_error (F o) = Some y → y < 2 ^ M) as Hfirst.
  { intros y Hy. destruct (F o) as [|z L] eqn:E; [done|]. injection Hy as [= <-]. apply (l_in _ _ _ HF o). rewrite E. left. }
  assert (∀ y, link_at (p_prev (link p x o)) y = if decide (hd_error (F o) = Some y) then x else if decide (y = x) then NONE else link_at (p_prev p) y) as Hpv.
  { intros y. unfold link, set_head. rewrite Hhd. destruct (F o) as [|z L] eqn:E; cbn [hd hd_error].
    - cbn. apply link_at_set; [by rewrite (l_prev _ _ _ HF)|done].
    - specialize (Hfirst z eq_refl). pose proof (index_small z Hfirst). rewrite (proj2 (N.eqb_neq _ _)) by (unfold NONE; lia). cbn.
      rewrite !link_at_set by (rewrite ?len_set_link, ?(l_prev _ _ _ HF); unfold NONE; done || lia).
      destruct (decide (y = z)) as [->|]; [by rewrite decide_True|]. by rewrite (decide_False (P := Some z = Some y)) by congruence. }
  split; try (by rewrite ?En, ?Ep, ?Eh; apply HF).
  - intros o' Ho'. unfold link. rewrite head_of_set by (destruct (_ =? NONE); cbn; rewrite (l_heads _ _ _ HF); lia).
    case_decide as E; [subst o'; by rewrite list_put_eq|]. rewrite list_put_ne, <- (l_head _ _ _ HF) by done.
    destruct (_ =? NONE); done.
  - intros o' Ho'. destruct (decide (o' = o)) as [->|Hne].
    + rewrite list_put_eq. eapply chain_push; [apply Hnew|apply HF|..|by apply (l_chain _ _ _ HF)].
      * by rewrite Hnx, decide_True.
      * rewrite Hpv, decide_False, decide_True; [done..|]. intros E. apply (Hnew o). destruct (F o); [done|]. injection E as [= ->]. left.
      * intros y Hy. by rewrite Hpv, decide_True.
      * intros y Hy. by rewrite Hnx, decide_False.
      * intros y Hy Hy'. by rewrite Hpv, !decide_False.
    + rewrite list_put_ne by done. eapply chain_frame; [|by apply (l_chain _ _ _ HF)]. intros y Hy.
      assert (y ≠ x) by (intros ->; by apply (Hnew o')). rewrite Hnx, Hpv, !decide_False; [done|done| |done].
      intros E. apply Hne. apply (l_one _ _ _ HF _ _ y); [done|]. destruct (F o); [done|]. injection E as [= ->]. left.
  - intros o'. destruct (decide (o' = o)) as [->|]; [|rewrite list_put_ne by done; apply HF].
    rewrite list_put_eq. apply NoDup_cons_2; [apply Hnew|apply HF].
  - intros o' y. destruct (decide (o' = o)) as [->|]; [|rewrite list_put_ne by done; apply HF].
    rewrite list_put_eq. intros [->|Hy]%elem_of_cons; [done|by apply (l_in _ _ _ HF)].
  - assert (∀ o' y, y ∈ list_put F o (x :: F o) o' → (y = x ∧ o' = o) ∨ (y ≠ x ∧ y ∈ F o')) as Hin.
    { intros o' y. destruct (decide (o' = o)) as [->|]; [rewrite list_put_eq|rewrite list_put_ne by done].
      - intros [->|Hy]%elem_of_cons; [by left|]. destruct (decide (y = x)) as [->|]; [by left|by right].
      - intros Hy. right. split; [|done]. intros ->. by apply (Hnew o'). }
    intros o1 o2 y [[-> ->]|[H1 Hy]]%Hin [[H2 ->]|[H2 Hy']]%Hin; [done|done|done|]. by apply (l_one _ _ _ HF _ _ y).
Qed.

Lemma unlink_fields p x o :
  p_state (unlink p x o) = p_state p ∧ p_incarnations (unlink p x o) = p_incarnations p ∧ p_free_bytes (unlink p x o) = p_free_bytes p
  ∧ len (p_next (unlink p x o)) = len (p_next p) ∧ len (p_prev (unlink p x o)) = len (p_prev p)
  ∧ len (p_heads (unlink p x o)) = len (p_heads p).
Proof.
  unfold unlink, set_head. destruct (_ =? NONE), (_ =? NONE); cbn; rewrite ?len_set_link; unfold len; rewrite ?length_insert; split_and!; done.
Qed.

Lemma filter_removed (x : N) L1 L2 : NoDup (L1 ++ x :: L2) → filter (λ y, y ≠ x) (L1 ++ x :: L2) = L1 ++ L2.
Proof.
  intros Hnd. apply NoDup_app in Hnd as (_&H1&H2). apply NoDup_cons in H2 as [H2 _].
  rewrite filter_app, filter_cons_False by (intros H; by apply H).
  assert (∀ L : list N, x ∉ L → filter (λ y, y ≠ x) L = L) as Hf.
  { intros L HL. induction L as [|y L IH]; [done|]. apply not_elem_of_cons in HL as [??]. rewrite filter_cons_True by done. by rewrite IH. }
  rewrite !Hf; [done|done|]. intros Hx. apply (H1 x Hx). left.
Qed.

(** The neighbours of an element of a chain. *)
Lemma chain_at nx pv b L1 x L2 : chain nx pv b (L1 ++ x :: L2) → nx x = hd NONE L2 ∧ pv x = default b (last L1).
Proof.
  revert b. induction L1 as [|a L1 IH]; intros b; [by intros (?&?&_)|]. intros (_&_&H). apply IH in H as [-> ->]. split; [done|].
  destruct L1 as [|c L1]; [done|]. change (last (a :: c :: L1)) with (last (c :: L1)).
  destruct (last (c :: L1)) eqn:E; [done|by apply last_None in E].
Qed.

Lemma unlink_ok p F x o :
  lists_ok M p F → x ∈ F o → lists_ok M (unlink p x o) (list_put F o (filter (λ y, y ≠ x) (F o))).
Proof using HM.
  intros HF Hin. destruct (l_in _ _ _ HF _ _ Hin) as [Ho Hx]. destruct (unlink_fields p x o) as (_&_&_&En&Ep&Eh).
  destruct (list_elem_of_split _ _ Hin) as (L1&L2&EF). pose proof (l_chain _ _ _ HF o Ho) as Hch. rewrite EF in Hch.
  pose proof (l_nodup _ _ _ HF o) as Hnd. rewrite EF in Hnd. destruct (chain_at _ _ _ _ _ _ Hch) as [Hn Hp].
  set (nx := link_at (p_next p)) in *. set (pv := link_at (p_prev p)) in *.
  assert (∀ y, y ∈ L1 ++ x :: L2 → y < 2 ^ M ∧ y < u32_max) as Hsm.
  { intros y Hy. rewrite <- EF in Hy. pose proof (list_small _ _ _ _ HF Hy). apply (l_in _ _ _ HF) in Hy. tauto. }
  assert (nx x = NONE ∧ L2 = [] ∨ nx x < 2 ^ M ∧ nx x < u32_max ∧ nx x ∈ L2) as Hnc.
  { rewrite Hn. destruct L2 as [|y L2]; [by left|right]. cbn [hd]. destruct (Hsm y) as [??]; [apply elem_of_app; right; right; left|].
    split_and!; [done..|left]. }
  assert (pv x = NONE ∧ L1 = [] ∨ pv x < 2 ^ M ∧ pv x < u32_max ∧ pv x ∈ L1) as Hpc.
  { rewrite Hp. destruct (last L1) as [y|] eqn:El; [right|left; split; [done|by apply last_None]]. cbn.
    apply last_Some_elem_of in El. destruct (Hsm y) as [??]; [apply elem_of_app; by left|]. done. }
  assert (∀ y, link_at (p_next (unlink p x o)) y = if decide (y = x) then NONE
               else if decide (pv x ≠ NONE ∧ y = pv x) then nx x else nx y) as Hnx'.
  { intros y. unfold unlink. fold (nx x) (pv x). destruct (N.eqb_spec (pv x) NONE) as [E|E], (N.eqb_spec (nx x) NONE) as [E'|E']; cbn.
    all: rewrite link_at_set by (rewrite ?len_set_link, ?(l_next _ _ _ HF); done).
    all: case_decide; [done|]; try rewrite (decide_False (P := pv x ≠ NONE ∧ y = pv x)) by tauto; try done.
    all: rewrite link_at_set by (rewrite ?(l_next _ _ _ HF); destruct Hpc as [[? _]|(?&_)], Hnc as [[? _]|(_&?&_)]; unfold NONE in *; done || lia).
    all: repeat case_decide; tauto. }
  assert (∀ y, link_at (p_prev (unlink p x o)) y = if decide (y = x) then NONE
               else if decide (nx x ≠ NONE ∧ y = nx x) then pv x else pv y) as Hpv'.
  { clear Hnx'. intros y. unfold unlink. fold (nx x) (pv x). destruct (N.eqb_spec (pv x) NONE) as [E|E], (N.eqb_spec (nx x) NONE) as [E'|E']; cbn.
    all: rewrite link_at_set by (rewrite ?len_set_link, ?(l_prev _ _ _ HF); done).
    all: case_decide; [done|]; try rewrite (decide_False (P := nx x ≠ NONE ∧ y = nx x)) by tauto; try done.
    all: rewrite link_at_set by (rewrite ?(l_prev _ _ _ HF); destruct Hnc as [[? _]|(?&_)], Hpc as [[? _]|(_&?&_)]; unfold NONE in *; done || lia).
    all: repeat case_decide; tauto. }
  assert (NONE ∉ L1 ++ x :: L2) as HN by (intros [_ H]%Hsm; unfold NONE in H; lia).
  assert (∀ y, y ∈ L1 ++ L2 → y ≠ x ∧ y ∈ L1 ++ x :: L2) as Hrest.
  { intros y Hy. split; [|apply elem_of_app in Hy as [?|?]; apply elem_of_app; [by left|right; by right]].
    intros ->. apply NoDup_app in Hnd as (_&H1&H2). apply NoDup_cons in H2 as [H2 _].
    apply elem_of_app in Hy as [Hy|Hy]; [|done]. apply (H1 x Hy). left. }
  rewrite EF, filter_removed by done.
  destruct (chain_remove nx pv (link_at (p_next (unlink p x o))) (link_at (p_prev (unlink p x o))) NONE L1 x L2 Hnd HN HN Hch) as (_&_&Hnew).
  { intros j Hj. destruct (Hrest j Hj) as [H1 H2]. rewrite Hnx', decide_False by done.
    destruct (decide (j = pv x)) as [E|E]; [|by rewrite decide_False by tauto].
    rewrite decide_True; [done|]. split; [|done]. rewrite <- E. by intros ->. }
  { intros j Hj. destruct (Hrest j Hj) as [H1 H2]. rewrite Hpv', decide_False by done.
    destruct (decide (j = nx x)) as [E|E]; [|by rewrite decide_False by tauto].
    rewrite decide_True; [done|]. split; [|done]. rewrite <- E. by intros ->. }
  split; try (by rewrite ?En, ?Ep, ?Eh; apply HF).
  - clear Hnx' Hpv'. intros o' Ho'. assert (head_of (unlink p x o) o' = if decide (o' = o ∧ pv x = NONE) then nx x else head_of p o') as ->.
    { unfold unlink. fold (nx x) (pv x). destruct (N.eqb_spec (pv x) NONE) as [E|E].
      - transitivity (head_of (set_head p o (nx x)) o'); [by destruct (_ =? NONE)|]. rewrite head_of_set by (rewrite (l_heads _ _ _ HF); lia).
        repeat case_decide; tauto.
      - rewrite decide_False by tauto. by destruct (_ =? NONE). }
    case_decide as E.
    + destruct E as [-> E]. rewrite list_put_eq. destruct Hpc as [[_ ->]|(_&H&_)]; [done|unfold NONE in E; lia].
    + rewrite (l_head _ _ _ HF) by done. destruct (decide (o' = o)) as [->|]; [|by rewrite list_put_ne]. rewrite list_put_eq, EF.
      destruct Hpc as [[? _]|(_&_&Hl)]; [tauto|]. destruct L1; [by apply elem_of_nil in Hl|done].
  - intros o' Ho'. destruct (decide (o' = o)) as [->|Hne]; [by rewrite list_put_eq|]. rewrite list_put_ne by done.
    eapply chain_frame; [|by apply (l_chain _ _ _ HF)]. intros y Hy.
    assert (y ∉ L1 ++ x :: L2) as Hy' by (rewrite <- EF; intros H; apply Hne; by apply (l_one _ _ _ HF _ _ y)).
    assert (y ≠ x ∧ y ∉ L1 ∧ y ∉ L2) as (Ny&N1&N2).
    { rewrite elem_of_app, elem_of_cons in Hy'. tauto. }
    rewrite Hnx', Hpv', !(decide_False (P := y = x)) by done.
    rewrite !decide_False; [done|intros [? ->]; destruct Hnc as [[? _]|(_&_&?)]; done|intros [? ->]; destruct Hpc as [[? _]|(_&_&?)]; done].
  - intros o'. destruct (decide (o' = o)) as [->|]; [|rewrite list_put_ne by done; apply HF]. rewrite list_put_eq, <- (filter_removed x) by done.
    by apply NoDup_filter.
  - intros o' y. destruct (decide (o' = o)) as [->|]; [|rewrite list_put_ne by done; apply HF]. rewrite list_put_eq.
    intros Hy. apply (l_in _ _ _ HF). rewrite EF. by apply Hrest.
  - assert (∀ o' y, y ∈ list_put F o (L1 ++ L2) o' → y ∈ F o') as Hsub.
    { intros o' y. destruct (decide (o' = o)) as [->|]; [rewrite list_put_eq, EF; intros Hy; by apply Hrest|by rewrite list_put_ne]. }
    intros o1 o2 y H1%Hsub H2%Hsub. by apply (l_one _ _ _ HF _ _ y).
Qed.
End lists.
