(* ===== verification/BuddyPool.v ===== *)
(** * The pool of the buddy allocator tiles its region

    The invariant of the part of [crates/mem/src/buddy.rs] that holds the
    blocks: the state bytes are a tiling, the free list of each order lists
    exactly its free blocks, and the free total is their size; and what
    splitting, merging, allocating and freeing do to the tiling. *)

From S2P Require Import Prelude BuddyBits Buddy BuddyTile.
#[local] Open Scope N_scope.

(** ** State bytes *)
Definition head_byte (o : N) (f : bool) : N :=
  N.lor (N.lor HEAD_BIT (if o <=? u8_max then o else ORDER_MASK)) (if f then FREE_BIT else 0).

Lemma head_byte_spec o f :
  o ≤ 63 → head_byte o f ≠ INSIDE ∧ is_free_byte (head_byte o f) = f ∧ order_of_byte (head_byte o f) = o
    ∧ N.land (head_byte o f) HEAD_BIT ≠ 0.
Proof.
  intros Ho. assert (forallb (λ k, let o := N.of_nat k in forallb (λ f,
    negb (head_byte o f =? INSIDE) && Bool.eqb (is_free_byte (head_byte o f)) f && (order_of_byte (head_byte o f) =? o)
    && negb (N.land (head_byte o f) HEAD_BIT =? 0)) [true; false]) (seq 0 64) = true) as H by (vm_compute; reflexivity).
  rewrite forallb_forall in H. specialize (H (N.to_nat o) ltac:(apply in_seq; lia)). cbn zeta in H. rewrite N2Nat.id in H.
  rewrite forallb_forall in H. specialize (H f ltac:(destruct f; [left|right; left]; done)). bool_to_prop.
  split_and!; try done. by apply Bool.eqb_prop.
Qed.

(** The cell a state byte says. *)
Definition cell_of (byte : N) : option (N * bool) :=
  if byte =? INSIDE then None else Some (order_of_byte byte, is_free_byte byte).
Definition cells (p : Pool) : N → option (N * bool) := λ i, cell_of (state_at p i).

Lemma cell_of_head o f : o ≤ 63 → cell_of (head_byte o f) = Some (o, f).
Proof. intros Ho. destruct (head_byte_spec o f Ho) as (H1&H2&H3&_). unfold cell_of. by rewrite (proj2 (N.eqb_neq _ _)), H2, H3. Qed.
Lemma cell_some byte o f : cell_of byte = Some (o, f) ↔ byte ≠ INSIDE ∧ order_of_byte byte = o ∧ is_free_byte byte = f.
Proof. unfold cell_of. destruct (N.eqb_spec byte INSIDE); naive_solver. Qed.
Lemma cells_outside p x : len (p_state p) ≤ x → cells p x = None.
Proof. intros Hx. unfold cells, state_at. rewrite lookup_ge_None_2 by (unfold len in Hx; lia). done. Qed.

Lemma state_at_set p x byte y :
  x < len (p_state p) → state_at (set_state p x byte) y = if decide (y = x) then byte else state_at p y.
Proof.
  unfold state_at, set_state, len. intros Hx. cbn. case_decide as E.
  - subst y. by rewrite list_lookup_insert_eq by lia.
  - by rewrite list_lookup_insert_ne by lia.
Qed.
Lemma cells_mark p x o f : x < len (p_state p) → o ≤ 63 → ∀ y, cells (mark p x o f) y = put (cells p) x (Some (o, f)) y.
Proof.
  intros Hx Ho y. unfold cells, mark. fold (head_byte o f). rewrite state_at_set by done. unfold put. case_decide; [|done].
  by apply cell_of_head.
Qed.
Lemma cells_inside p x : x < len (p_state p) → ∀ y, cells (set_state p x INSIDE) y = put (cells p) x None y.
Proof. intros Hx y. unfold cells. rewrite state_at_set by done. unfold put. by case_decide. Qed.
Lemma cells_state p p' : p_state p' = p_state p → ∀ y, cells p' y = cells p y.
Proof. intros E y. unfold cells, state_at. by rewrite E. Qed.

(** ** Shapes *)
Record shape_ok (sh : Shape) : Prop := {
  sh_granule : granule sh = 2 ^ granule_shift sh;
  sh_order : max_order sh ≤ 31;
  sh_region : max_order sh + granule_shift sh < 64
}.
Lemma order_bytes_eq sh o : shape_ok sh → o ≤ max_order sh → order_bytes sh o = 2 ^ o * granule sh.
Proof.
  intros [Hg _ Hr] Ho. unfold order_bytes. rewrite (proj2 (N.ltb_lt _ _)) by lia. by rewrite N.pow_add_r, Hg.
Qed.
Lemma region_small sh n : shape_ok sh → n ≤ 2 ^ max_order sh → n * granule sh ≤ usize_max.
Proof.
  intros [Hg _ Hr] Hn. rewrite Hg. transitivity (2 ^ max_order sh * 2 ^ granule_shift sh); [nia|].
  rewrite <- N.pow_add_r. transitivity (2 ^ 63); [apply N.pow_le_mono_r; lia|]. done.
Qed.

(** ** The lists and the tiling *)

(** The lists of the pool list exactly the free blocks of the tiling. *)
Record region_ok (M : N) (p : Pool) (T : N → option (N * bool)) : Prop := {
  r_tile : tiling M T;
  r_lists : ∃ F, lists_ok M p F ∧ ∀ o x, x ∈ F o ↔ T x = Some (o, true);
  r_state : len (p_state p) = 2 ^ M;
  r_incarnations : len (p_incarnations p) = 2 ^ M
}.

(** [p'] has the sizes and the total of [p]. *)
Definition same_rest (p p' : Pool) : Prop :=
  len (p_state p') = len (p_state p) ∧ p_incarnations p' = p_incarnations p ∧ p_free_bytes p' = p_free_bytes p.
#[export] Instance same_rest_preorder : PreOrder same_rest.
Proof. split; [done|]. intros a b c (?&?&?) (?&?&?). split_and!; congruence. Qed.
Lemma same_rest_link p x o : same_rest p (link p x o).
Proof. unfold same_rest. destruct (link_fields p x o) as (->&->&->&_). done. Qed.
Lemma same_rest_unlink p x o : same_rest p (unlink p x o).
Proof. unfold same_rest. destruct (unlink_fields p x o) as (->&->&->&_). done. Qed.
Lemma same_rest_set p x byte : same_rest p (set_state p x byte).
Proof. split_and!; [|done..]. unfold len, set_state. cbn. by rewrite length_insert. Qed.

Lemma lists_state M p p' F :
  p_next p' = p_next p → p_prev p' = p_prev p → p_heads p' = p_heads p → lists_ok M p F → lists_ok M p' F.
Proof.
  intros En Ep Eh HF. split; rewrite ?En, ?Ep, ?Eh; try apply HF. intros o Ho. unfold head_of. rewrite Eh. by apply (l_head _ _ _ HF).
Qed.

Lemma tiling_ext M T T' : (∀ x, T' x = T x) → tiling M T → tiling M T'.
Proof.
  intros HE HT. split.
  - intros h o f. rewrite HE. apply (t_fit _ _ HT).
  - intros h o f h' o' f'. rewrite !HE. apply (t_apart _ _ HT).
  - intros i Hi. destruct (t_cover _ _ HT i Hi) as (h&o&f&Hh&Hin). exists h, o, f. by rewrite HE.
  - intros h o. rewrite !HE. apply (t_merged _ _ HT).
Qed.
Lemma region_fields M p p' T :
  p_next p' = p_next p → p_prev p' = p_prev p → p_heads p' = p_heads p → p_state p' = p_state p →
  len (p_incarnations p') = len (p_incarnations p) → region_ok M p T → region_ok M p' T.
Proof.
  intros En Ep Eh Es Ei [HT (F&HF&Hin) Hs Hi]. split; [done| |by rewrite Es|by rewrite Ei]. exists F. split; [|done].
  by apply (lists_state _ p).
Qed.

Section pool.
Context (M : N) (HM : M ≤ 31).
Implicit Types (p : Pool) (T : N → option (N * bool)) (h o x : N).

Lemma region_ext p T T' : (∀ x, T' x = T x) → tiling M T' → region_ok M p T → region_ok M p T'.
Proof.
  intros HE HT' [_ (F&HF&Hin) Hs Hi]. split; [done| |done..]. exists F. split; [done|]. intros o x. by rewrite Hin, HE.
Qed.

Lemma unlink_region p T x o T' :
  region_ok M p T → T x = Some (o, true) → tiling M T' →
  (∀ y o', T' y = Some (o', true) ↔ y ≠ x ∧ T y = Some (o', true)) → region_ok M (unlink p x o) T'.
Proof using HM.
  intros [HT (F&HF&Hin) Hs Hi] Hx HT' Hiff. destruct (same_rest_unlink p x o) as (E1&E2&_).
  split; [done| |by rewrite E1|by rewrite E2].
  eexists. split; [apply unlink_ok; [done|done|by apply Hin]|]. intros o' y. rewrite Hiff, <- Hin.
  destruct (decide (o' = o)) as [->|Hne]; [rewrite list_put_eq, list_elem_of_filter; done|].
  rewrite list_put_ne by done. split; [|tauto]. intros Hy. split; [|done]. intros ->. apply Hne.
  apply Hin in Hy. congruence.
Qed.
Lemma link_region p T x o T' :
  region_ok M p T → x < 2 ^ M → o ≤ M → (∀ o', T x ≠ Some (o', true)) → tiling M T' →
  (∀ y o', T' y = Some (o', true) ↔ (y = x ∧ o' = o) ∨ T y = Some (o', true)) → region_ok M (link p x o) T'.
Proof using HM.
  intros [HT (F&HF&Hin) Hs Hi] Hx Ho Hnew HT' Hiff. destruct (same_rest_link p x o) as (E1&E2&_).
  split; [done| |by rewrite E1|by rewrite E2].
  eexists. split; [apply link_ok; [done..|]; intros o' ?%Hin; by apply (Hnew o')|]. intros o' y. rewrite Hiff, <- Hin.
  destruct (decide (o' = o)) as [->|Hne]; [rewrite list_put_eq, elem_of_cons; tauto|]. rewrite list_put_ne by done. tauto.
Qed.
Lemma mark_region p T x o f : region_ok M p T → region_ok M (mark p x o f) T.
Proof.
  intros [HT (F&HF&Hin) Hs Hi]. destruct (same_rest_set p x (head_byte o f)) as (E1&E2&_). split; [done| |unfold mark; fold (head_byte o f); by rewrite E1|done].
  exists F. split; [|done]. by apply (lists_state _ p).
Qed.
Lemma set_region p T x byte : region_ok M p T → region_ok M (set_state p x byte) T.
Proof.
  intros [HT (F&HF&Hin) Hs Hi]. destruct (same_rest_set p x byte) as (E1&E2&_). split; [done| |by rewrite E1|done].
  exists F. split; [|done]. by apply (lists_state _ p).
Qed.

(** The cells of [p] are [T]'s but at [h], which the code has in hand, and at the blocks [S] it has put aside: not
    free in [T], and no heads yet in [p]. *)
Definition in_hand p T (S : N → Prop) h : Prop :=
  ¬ S h ∧ (∀ x, x ≠ h → ¬ S x → cells p x = T x) ∧ (∀ x, S x → cells p x = None ∧ ∃ o, T x = Some (o, false)).
Definition aside_none : N → Prop := λ _, False.

(** Taking a free block in hand. *)
Lemma take_hand p T h o :
  region_ok M p T → T h = Some (o, true) → (∀ x, cells p x = T x) →
  region_ok M (unlink p h o) (put T h (Some (o, false))) ∧ in_hand (unlink p h o) (put T h (Some (o, false))) aside_none h.
Proof using HM.
  intros Hr Hh Hc. split.
  - eapply unlink_region; [done..| |].
    + eapply tile_set; [apply Hr|done|done].
    + intros y o'. unfold put. case_decide; naive_solver.
  - split_and!; [by intros []| |by intros x []]. intros x Hx _. rewrite put_ne by done. rewrite <- Hc.
    apply cells_state. apply (unlink_fields p h o).
Qed.

(** One half of the block in hand freed, the other kept in hand. *)
Definition freed_half h o (upper : bool) : N := if upper then h + 2 ^ o else h.
Definition kept_half h o (upper : bool) : N := if upper then h else h + 2 ^ o.
Lemma split_hand p T h o (upper : bool) :
  region_ok M p T → T h = Some (o + 1, false) → in_hand p T aside_none h →
  let x := freed_half h o upper in let k := kept_half h o upper in
  let p' := link (mark p x o true) x o in let T' := split_cells T h o (negb upper) upper in
  region_ok M p' T' ∧ in_hand p' T' aside_none k ∧ T' k = Some (o, false).
Proof using HM.
  intros Hr Hh (_&Hc&_). cbn zeta. pose proof (r_tile _ _ _ Hr) as HT. destruct (t_fit _ _ HT _ _ _ Hh) as (Ho&_&Hfit).
  rewrite pow_succ in Hfit. pose proof (pow_pos o) as Hp. set (x := freed_half h o upper).
  assert (x < 2 ^ M) as Hx by (unfold x, freed_half; destruct upper; lia).
  assert (T (h + 2 ^ o) = None) as Hin by (eapply (tile_inside M T h (o + 1)); [done..|rewrite pow_succ; lia]).
  assert (tiling M (split_cells T h o (negb upper) upper)) as HT'.
  { eapply tile_split; [done..|]. destruct upper; intros [??]; done. }
  split_and!.
  - eapply (link_region _ T); [by apply mark_region|done|lia| |done|].
    + intros o'. unfold x, freed_half. destruct upper; congruence.
    + intros y o'. unfold split_cells, x, freed_half, put.
      destruct upper; cbn [negb]; repeat case_decide; split; try (intros [[??]|?]); intros; simplify_eq; auto; congruence || lia.
  - split_and!; [by intros []| |by intros y []]. intros y Hy _. rewrite (cells_state (mark p x o true)) by (apply (link_fields (mark p x o true) x o)).
    rewrite cells_mark by (rewrite ?(r_state _ _ _ Hr); done || lia). unfold split_cells. unfold x, freed_half, kept_half in *.
    destruct upper; cbn [negb] in *.
    + destruct (decide (y = h + 2 ^ o)) as [->|]; [by rewrite !put_eq|]. rewrite !put_ne by done. apply Hc; [done|by intros []].
    + destruct (decide (y = h)) as [->|].
      * rewrite put_eq, put_ne, put_eq by lia. done.
      * rewrite !put_ne by done. apply Hc; [done|by intros []].
  - unfold split_cells, kept_half. destruct upper; cbn [negb]; [rewrite put_ne, put_eq by lia; done|by rewrite put_eq].
Qed.

(** The block in hand merged with its free buddy. *)
Lemma merge_hand p T S h o :
  region_ok M p T → T h = Some (o, false) → o < M → T (buddy_of h o) = Some (o, true) → in_hand p T S h →
  let b := buddy_of h o in let p' := set_state (unlink p b o) (N.max b h) INSIDE in let T' := merge_cells T (N.min h b) o in
  region_ok M p' T' ∧ in_hand p' T' S (N.min h b) ∧ T' (N.min h b) = Some (o + 1, false).
Proof using HM.
  intros Hr Hh Ho Hb (HSh&Hc&HS). cbn zeta. pose proof (r_tile _ _ _ Hr) as HT. set (b := buddy_of h o) in *.
  destruct (t_fit _ _ HT _ _ _ Hh) as (_&Hal&Hfit). pose proof (pow_pos o) as Hp.
  assert (b ≠ h) as Hne by (by apply buddy_ne).
  assert (T (N.min h b + 2 ^ o) = Some (o, if decide (b < h) then false else true) ∧ N.max b h = N.min h b + 2 ^ o
    ∧ (∃ f, T (N.min h b) = Some (o, f)) ∧ (2 ^ (o + 1) | N.min h b)) as (Hu&Hmax&[f Hl]&Hal2).
  { unfold b in *. destruct (buddy_cases h o Hal) as [[E H2]|[E H2]].
    - rewrite N.min_l, N.max_l by lia. rewrite decide_False by lia. rewrite <- E. split_and!; eauto.
    - rewrite N.min_r, N.max_r by lia. rewrite decide_True by lia. rewrite <- E. split_and!; eauto. }
  assert (tiling M (merge_cells T (N.min h b) o)) as HT' by (by eapply tile_merge).
  assert (∀ y, cells (set_state (unlink p b o) (N.max b h) INSIDE) y = put (cells p) (N.max b h) None y) as Hcells.
  { intros y. pose proof (tile_bound M T b _ HT Hb). pose proof (tile_bound M T h _ HT Hh).
    destruct (same_rest_unlink p b o) as (E1&_&_). rewrite cells_inside by (rewrite E1, (r_state _ _ _ Hr); lia).
    unfold put. destruct (decide (y = N.max b h)); [done|]. apply cells_state. apply (unlink_fields p b o). }
  split_and!.
  - apply set_region. eapply unlink_region; [done|exact Hb|done|]. intros y o'. unfold merge_cells.
    split.
    + destruct (decide (y = N.min h b)) as [->|N1]; [by rewrite put_eq|]. rewrite put_ne by done.
      destruct (decide (y = N.min h b + 2 ^ o)) as [->|N2]; [by rewrite put_eq|]. rewrite put_ne by done. intros Hy.
      split; [|done]. intros ->. destruct (N.min_spec h b) as [[? E]|[? E]]; rewrite E in *; [rewrite N.max_l in Hmax by lia|]; congruence.
    + intros [N1 Hy]. assert (y ≠ h) by congruence. rewrite !put_ne; [done| |].
      * rewrite <- Hmax. lia.
      * lia.
  - assert (¬ S b) as HSb by (intros (_&o'&E)%HS; congruence).
    assert (∀ y, S y → y ≠ N.min h b ∧ y ≠ N.max b h) as HSy.
    { intros y Hy. assert (y ≠ h) by (by intros ->). assert (y ≠ b) by (by intros ->). lia. }
    split_and!.
    + intros [? _]%HSy. done.
    + intros y Hy HSy'. rewrite Hcells. unfold merge_cells. rewrite (put_ne _ (N.min h b)) by done. rewrite <- Hmax.
      unfold put. destruct (decide (y = N.max b h)); [done|]. apply Hc; [|done]. intros ->. lia.
    + intros y Hy. destruct (HSy y Hy) as [N1 N2]. destruct (HS y Hy) as [E [o' Eo]]. rewrite Hcells, put_ne by done. split; [done|].
      exists o'. unfold merge_cells. rewrite <- Hmax, !put_ne by done. done.
  - unfold merge_cells. by rewrite put_eq.
Qed.
End pool.

(** ** The loops *)
Lemma split_weight M T h o fl fu :
  tiling M T → T h = Some (o + 1, false) →
  free_weight M (split_cells T h o fl fu) = free_weight M T + weight (Some (o, fl)) + weight (Some (o, fu)).
Proof.
  intros HT Hh. destruct (t_fit _ _ HT _ _ _ Hh) as (_&_&Hfit). rewrite pow_succ in Hfit. pose proof (pow_pos o).
  unfold split_cells. pose proof (free_weight_put M (put T h (Some (o, fl))) (h + 2 ^ o) (Some (o, fu)) ltac:(lia)) as H1.
  pose proof (free_weight_put M T h (Some (o, fl)) ltac:(lia)) as H2. rewrite Hh in H2.
  rewrite put_ne, (tile_inside M T h (o + 1) false (h + 2 ^ o)) in H1 by (done || rewrite ?pow_succ; lia).
  change (weight (Some (o + 1, false))) with 0 in H2. change (weight None) with 0 in H1. lia.
Qed.
Lemma split_live M T h o fl fu x :
  tiling M T → T h = Some (o + 1, false) → ¬ (x = h ∧ fl = false) → ¬ (x = h + 2 ^ o ∧ fu = false) →
  live_at (split_cells T h o fl fu) x = live_at (put T h None) x.
Proof.
  intros HT Hh N1 N2. pose proof (pow_pos o). unfold live_at, split_cells.
  destruct (decide (x = h + 2 ^ o)) as [->|].
  - rewrite put_eq, put_ne, (tile_inside M T h (o + 1) false (h + 2 ^ o)) by (done || rewrite ?pow_succ; lia).
    destruct fu; [done|]. exfalso. by apply N2.
  - rewrite put_ne by done. destruct (decide (x = h)) as [->|]; [rewrite !put_eq|by rewrite !put_ne].
    destruct fl; [done|]. exfalso. by apply N1.
Qed.

Section loops.
Context (M : N) (HM : M ≤ 31).
Implicit Types (p : Pool) (T : N → option (N * bool)) (h o x : N).

Lemma sat_small a b : a + b ≤ 2 ^ M → sat_add_u32 a b = a + b.
Proof using HM.
  intros H. unfold sat_add_u32. pose proof (N.pow_le_mono_r 2 M 31 ltac:(lia) HM) as H2. change (2 ^ 31) with 2147483648 in H2.
  unfold u32_max. lia.
Qed.

(** [split_down] splits towards its own head. *)
Lemma split_down_towards turns p h cur :
  h + 2 ^ cur ≤ 2 ^ M → split_down turns p h cur = split_towards turns p h h cur.
Proof using HM.
  revert p cur. induction turns as [|turns IH]; intros p cur Hfit; [done|]. cbn [split_down split_towards].
  assert (2 ^ (cur - 1) ≤ 2 ^ cur) by (apply N.pow_le_mono_r; lia). pose proof (pow_pos (cur - 1)).
  unfold sat_sub. rewrite sat_small by lia. rewrite (proj2 (N.leb_gt _ _)) by lia. apply IH. lia.
Qed.

(** Splitting the block in hand towards the block of [order] at [index]. *)
Lemma split_towards_ok turns p T h index order :
  region_ok M p T → T h = Some (order + N.of_nat turns, false) → in_hand p T aside_none h →
  (2 ^ order | index) → h ≤ index < h + 2 ^ (order + N.of_nat turns) →
  let p' := split_towards turns p index h (order + N.of_nat turns) in
  ∃ T', region_ok M p' T' ∧ in_hand p' T' aside_none index ∧ T' index = Some (order, false) ∧ same_rest p p'
    ∧ free_weight M T' + 2 ^ order = free_weight M T + 2 ^ (order + N.of_nat turns)
    ∧ ∀ x, x ≠ index → live_at T' x = live_at (put T h None) x.
Proof using HM.
  cbn zeta. revert p T h. induction turns as [|turns IH]; intros p T h Hr Hh Hc Hal Hin.
  { change (N.of_nat 0) with 0 in *. rewrite N.add_0_r in *. cbn [split_towards].
    assert (h = index) as -> by (apply (aligned_head _ _ order); [apply (r_tile _ _ _ Hr) in Hh as (_&?&_)|..]; tauto).
    exists T. split_and!; try done. intros x Hx. unfold live_at. by rewrite put_ne. }
  pose proof (r_tile _ _ _ Hr) as HT. set (o := order + N.of_nat turns).
  replace (order + N.of_nat (S turns)) with (o + 1) in * by (unfold o; lia).
  destruct (t_fit _ _ HT _ _ _ Hh) as (Ho&_&Hfit). rewrite pow_succ in Hin, Hfit. pose proof (pow_pos o) as Hp.
  cbn [split_towards]. unfold sat_sub. replace (o + 1 - 1) with o by lia. rewrite sat_small by lia.
  set (upper := negb (h + 2 ^ o <=? index)).
  pose proof (split_hand M HM p T h o upper Hr Hh Hc) as (Hr1&Hc1&Hk1).
  assert ((if h + 2 ^ o <=? index then (h + 2 ^ o, h) else (h, h + 2 ^ o)) = (kept_half h o upper, freed_half h o upper)) as ->.
  { unfold upper, kept_half, freed_half. by destruct (h + 2 ^ o <=? index). }
  assert (kept_half h o upper ≤ index < kept_half h o upper + 2 ^ o) as Hin1.
  { unfold upper, kept_half. destruct (h + 2 ^ o <=? index) eqn:E; cbn [negb]; bool_to_prop; lia. }
  destruct (IH _ _ _ Hr1 Hk1 Hc1 Hal Hin1) as (T'&Hr'&Hc'&Hi'&Hs'&Hw'&Hl'). fold o in Hr', Hc', Hs', Hw'.
  exists T'. split_and!; try done.
  - etransitivity; [|exact Hs']. etransitivity; [|apply same_rest_link].
    apply (same_rest_set p (freed_half h o upper) (head_byte o true)).
  - rewrite Hw', (split_weight M) by done. rewrite pow_succ. destruct upper; cbn [negb weight]; lia.
  - intros x Hx. rewrite Hl' by done. destruct (decide (x = kept_half h o upper)) as [->|Hne].
    + unfold live_at at 1. rewrite put_eq. unfold live_at. destruct (decide (kept_half h o upper = h)) as [->|Hne]; [by rewrite put_eq|].
      rewrite put_ne by done. rewrite (tile_inside M T h (o + 1) false); [done..|]. rewrite pow_succ. unfold kept_half in *. destruct upper; lia.
    + unfold live_at at 1. rewrite put_ne by done. apply (split_live M); [done..| |]; intros [-> E]; apply Hne; unfold kept_half; by destruct upper.
Qed.

(** The merge loop ends with no free buddy to merge with. *)
Lemma coalesce_ok turns sh p T S h o p' h' o' :
  region_ok M p T → T h = Some (o, false) → in_hand p T S h → o + N.of_nat turns = M →
  coalesce sh turns p h o = (p', h', o') →
  ∃ T', region_ok M p' T' ∧ in_hand p' T' S h' ∧ T' h' = Some (o', false) ∧ same_rest p p'
    ∧ (o' < M → T' (buddy_of h' o') ≠ Some (o', true))
    ∧ free_weight M T' + 2 ^ o' = free_weight M T + 2 ^ o
    ∧ ∀ x, live_at (put T' h' None) x = live_at (put T h None) x.
Proof using HM.
  revert p T h o. induction turns as [|turns IH]; intros p T h o Hr Hh Hc HoM; cbn [coalesce].
  { intros [= <- <- <-]. exists T. split_and!; try done. lia. }
  fold (buddy_of h o). pose proof (r_tile _ _ _ Hr) as HT. destruct (t_fit _ _ HT _ _ _ Hh) as (_&Hal&Hfit).
  assert (o < M) as Ho by lia. pose proof (buddy_ne h o Hal) as Hbne. pose proof (pow_pos o) as Hp.
  assert (negb (is_free_byte (state_at p (buddy_of h o))) || negb (order_of_byte (state_at p (buddy_of h o)) =? o) = false
          ↔ T (buddy_of h o) = Some (o, true)) as Htest.
  { transitivity (cells p (buddy_of h o) = Some (o, true)).
    - unfold cells. rewrite cell_some, orb_false_iff, !negb_false_iff, N.eqb_eq. split; [|tauto]. intros [H1 H2]. split_and!; try done.
      intros E. by rewrite E in H1.
    - destruct Hc as (_&Hc1&Hc2). destruct (decide (cells p (buddy_of h o) = T (buddy_of h o))) as [->|Hd]; [done|].
      split; intros E; exfalso; apply Hd.
      + apply Hc1; [done|]. intros (E2&_)%Hc2. congruence.
      + apply Hc1; [done|]. intros (_&o2&E2)%Hc2. congruence. }
  destruct (negb _ || negb _) eqn:Et.
  { intros [= <- <- <-]. exists T. split_and!; try done. intros _ E. apply Htest in E. done. }
  assert (T (buddy_of h o) = Some (o, true)) as Hb by (by apply Htest). intros Hco.
  destruct (merge_hand M HM p T S h o Hr Hh Ho Hb Hc) as (Hr1&Hc1&Hh1).
  destruct (IH _ _ _ _ Hr1 Hh1 Hc1 ltac:(lia) Hco) as (T'&Hr'&Hc'&Hh'&Hs'&Hm'&Hw'&Hl').
  set (b := buddy_of h o) in *. set (l := N.min h b) in *.
  assert (l + 2 ^ o = N.max h b) as Hmax.
  { unfold l, b. destruct (buddy_cases h o Hal) as [[E _]|[E _]]; lia. }
  assert (h < 2 ^ M) by (by eapply (tile_bound M T)). assert (b < 2 ^ M) by (eapply (tile_bound M T); eauto).
  exists T'. split_and!; try done.
  - etransitivity; [|exact Hs']. etransitivity; [apply same_rest_unlink|apply same_rest_set].
  - rewrite Hw', pow_succ. unfold merge_cells. fold l. rewrite Hmax.
    pose proof (free_weight_put M (put T (N.max h b) None) l (Some (o + 1, false)) ltac:(lia)) as H1.
    pose proof (free_weight_put M T (N.max h b) None ltac:(lia)) as H2. rewrite (put_ne _ _ _ l) in H1 by lia.
    change (weight (Some (o + 1, false))) with 0 in H1. change (weight None) with 0 in H2.
    destruct (N.min_spec h b) as [[Hlt E]|[Hlt E]]; fold l in E; rewrite E in *.
    + rewrite N.max_r in * by lia. rewrite Hb in H2. rewrite Hh in H1. cbn [weight] in H1, H2. lia.
    + rewrite N.max_l in * by lia. rewrite Hh in H2. rewrite Hb in H1. cbn [weight] in H1, H2. lia.
  - intros x. rewrite Hl'. unfold live_at, merge_cells. fold l. rewrite Hmax. unfold put.
    destruct (decide (x = l)) as [->|N1].
    + destruct (decide (l = h)) as [_|Nh]; [done|]. assert (l = b) as -> by lia. by rewrite Hb.
    + destruct (decide (x = N.max h b)) as [->|N2]; [|by rewrite (decide_False (P := x = h)) by lia].
      destruct (decide (N.max h b = h)) as [_|Nh]; [done|]. replace (N.max h b) with b by lia. by rewrite Hb.
Qed.
End loops.

(** ** The pool *)
Record pool_ok (sh : Shape) (p : Pool) : Prop := {
  po_shape : shape_ok sh;
  po_region : region_ok (max_order sh) p (cells p);
  po_free : p_free_bytes p = free_weight (max_order sh) (cells p) * granule sh
}.
(** The order of the live block headed at a granule. *)
Definition live_block (p : Pool) (x : N) : option N := live_at (cells p) x.

Lemma live_block_some p x o : live_block p x = Some o ↔ cells p x = Some (o, false).
Proof. apply live_at_some. Qed.

Section blocks.
Context (sh : Shape).
Implicit Types (p : Pool) (h o x : N).

Lemma pool_granules p : pool_ok sh p → len (p_state p) = 2 ^ max_order sh.
Proof. intros Hp. apply (po_region _ _ Hp). Qed.
Lemma block_fits p x o f : pool_ok sh p → cells p x = Some (o, f) → o ≤ max_order sh ∧ (2 ^ o | x) ∧ x + 2 ^ o ≤ 2 ^ max_order sh.
Proof. intros Hp. apply (t_fit _ _ (r_tile _ _ _ (po_region _ _ Hp))). Qed.

(** A block in hand, marked: the cells are the tiling's. *)
Lemma mark_hand p T h o f :
  shape_ok sh → region_ok (max_order sh) p T → in_hand p T aside_none h → h < 2 ^ max_order sh → o ≤ max_order sh →
  ∀ x, cells (mark p h o f) x = put T h (Some (o, f)) x.
Proof.
  intros Hs Hr (_&Hc&_) Hh Ho x. pose proof (sh_order _ Hs). rewrite cells_mark by (rewrite ?(r_state _ _ _ Hr); done || lia).
  unfold put. case_decide; [done|]. apply Hc; [done|by intros []].
Qed.

(** Taking the block of [order] at [index] out of the free block of order [found] at [h]. *)
Definition carve p h found index order value : Pool :=
  let p := unlink p h found in
  let p := split_towards (N.to_nat (found - order)) p index h found in
  let p := set_incarnation (mark p index order false) index value in
  p <| p_free_bytes ::= λ f, sat_sub f (order_bytes sh order) |>.

Lemma carve_ok p h found index order value :
  pool_ok sh p → cells p h = Some (found, true) → order ≤ found → (2 ^ order | index) → h ≤ index < h + 2 ^ found →
  let p' := carve p h found index order value in
  pool_ok sh p' ∧ (∀ x, live_block p' x = if decide (x = index) then Some order else live_block p x)
  ∧ p_incarnations p' = <[N.to_nat index := value]> (p_incarnations p) ∧ index + 2 ^ order ≤ 2 ^ max_order sh.
Proof.
  intros Hp Hh Ho Hal Hin. cbn zeta. destruct Hp as [Hs Hr Hf]. pose proof (sh_order _ Hs) as HM. set (M := max_order sh) in *.
  destruct (take_hand M HM p (cells p) h found Hr Hh (λ x, eq_refl)) as [Hr1 Hc1].
  assert (found = order + N.of_nat (N.to_nat (found - order))) as Hfound by lia.
  destruct (split_towards_ok M HM (N.to_nat (found - order)) _ _ h index order Hr1) as (T'&Hr'&Hc'&Hi'&Hs'&Hw'&Hl');
    [rewrite put_eq; by rewrite <- Hfound|done|done|by rewrite <- Hfound|]. rewrite <- Hfound in *.
  set (p2 := split_towards _ _ _ _ _) in *. destruct (t_fit _ _ (r_tile _ _ _ Hr') _ _ _ Hi') as (HoM&_&Hfit). pose proof (pow_pos order).
  assert (∀ x, cells (carve p h found index order value) x = T' x) as Hcells.
  { intros x. change (cells (carve p h found index order value) x) with (cells (mark p2 index order false) x).
    rewrite (mark_hand p2 T') by (fold M; done || lia). unfold put. case_decide; [by subst|done]. }
  assert (same_rest p p2) as (Es&Ei&Ef) by (etransitivity; [apply same_rest_unlink|exact Hs']).
  assert (T' = T' ∧ free_weight M T' + 2 ^ order = free_weight M (cells p)) as [_ Hw].
  { split; [done|]. rewrite Hw'. pose proof (free_weight_put M (cells p) h (Some (found, false)) ltac:(eapply tile_bound; [apply Hr|exact Hh])) as H1.
    rewrite Hh in H1. cbn [weight] in H1. lia. }
  split_and!.
  - split; [done| |].
    + apply (region_ext M _ T'); [done|apply (tiling_ext M T'); [done|apply Hr']|]. apply (region_fields M (mark p2 index order false)); try done.
      * unfold carve. fold p2. cbn. unfold len. by rewrite length_insert.
      * by apply mark_region.
    + fold M. rewrite (free_weight_ext M _ T') by done. unfold carve. fold p2. cbn [p_free_bytes set_incarnation mark set_state].
      change (sat_sub (p_free_bytes p2) (order_bytes sh order) = free_weight M T' * granule sh).
      rewrite Ef, Hf, order_bytes_eq by done. unfold sat_sub. rewrite <- Hw. lia.
  - intros x. unfold live_block, live_at. rewrite Hcells. case_decide as E.
    + subst x. by rewrite Hi'.
    + fold (live_at T' x). rewrite Hl' by done. unfold live_at, put. repeat case_decide; try done; subst; by rewrite Hh.
  - unfold carve. fold p2. cbn. by rewrite Ei.
  - done.
Qed.

(** Freeing the block in hand. *)
Lemma coalesce_free_hand p T S h o :
  shape_ok sh → region_ok (max_order sh) p T → T h = Some (o, false) → in_hand p T S h →
  p_free_bytes p = free_weight (max_order sh) T * granule sh →
  let p' := coalesce_free sh p h o in
  ∃ T', region_ok (max_order sh) p' T' ∧ (∀ x, ¬ S x → cells p' x = T' x) ∧ (∀ x, S x → cells p' x = None ∧ ∃ o, T' x = Some (o, false))
    ∧ p_free_bytes p' = free_weight (max_order sh) T' * granule sh
    ∧ (∀ x, live_at T' x = live_at (put T h None) x) ∧ p_incarnations p' = p_incarnations p.
Proof.
  intros Hs Hr Hh Hc Hf. cbn zeta. pose proof (sh_order _ Hs) as HM. remember (max_order sh) as M eqn:EM.
  destruct (t_fit _ _ (r_tile _ _ _ Hr) _ _ _ Hh) as (Ho&_&Hfit).
  set (p1 := p <| p_free_bytes ::= λ f, sat_add f (order_bytes sh o) |>).
  assert (region_ok M p1 T) as Hr1 by (by apply (region_fields M p)).
  assert (in_hand p1 T S h) as Hc1 by done.
  unfold coalesce_free. fold p1. rewrite <- EM. destruct (coalesce sh (N.to_nat (M - o)) p1 h o) as [[p2 h'] o'] eqn:E.
  destruct (coalesce_ok M HM (N.to_nat (M - o)) _ _ _ _ _ _ _ _ _ Hr1 Hh Hc1 ltac:(lia) E) as (T'&Hr'&(HSh&Hc'&HS')&Hh'&(Es&Ei&Ef)&Hm'&Hw'&Hl').
  destruct (t_fit _ _ (r_tile _ _ _ Hr') _ _ _ Hh') as (Ho'&_&Hfit'). pose proof (pow_pos o').
  assert (tiling M (put T' h' (Some (o', true)))) as HT2 by (eapply tile_set; [apply Hr'|done|auto]).
  assert (∀ x, cells (link (mark p2 h' o' true) h' o') x = put (cells p2) h' (Some (o', true)) x) as Hcells.
  { intros x. rewrite (cells_state (mark p2 h' o' true)) by apply link_fields. apply cells_mark; [rewrite (r_state _ _ _ Hr'); lia|lia]. }
  exists (put T' h' (Some (o', true))). split_and!.
  - eapply (link_region M HM _ T'); [by apply mark_region|lia|done| |done|].
    + intros o2. congruence.
    + intros y o2. unfold put. case_decide; [subst y|]; split; try (intros [[??]|?]); intros; simplify_eq; auto; congruence.
  - intros x Hx. rewrite Hcells. unfold put. case_decide; [done|]. by apply Hc'.
  - intros x Hx. destruct (HS' x Hx) as [E1 [o2 E2]]. assert (x ≠ h') by congruence. rewrite Hcells, !put_ne by done. eauto.
  - destruct (same_rest_link (mark p2 h' o' true) h' o') as (_&_&->). change (p_free_bytes (mark p2 h' o' true)) with (p_free_bytes p2).
    rewrite Ef. unfold p1. cbn [p_free_bytes setter]. change (p_free_bytes (p <| p_free_bytes ::= λ f, sat_add f (order_bytes sh o) |>))
      with (sat_add (p_free_bytes p) (order_bytes sh o)).
    pose proof (free_weight_put M T' h' (Some (o', true)) ltac:(lia)) as H1. rewrite Hh' in H1. cbn [weight] in H1.
    rewrite Hf, order_bytes_eq by (done || by rewrite <- EM). rewrite sat_add_small; [rewrite <- N.mul_add_distr_r; f_equal; lia|].
    rewrite <- N.mul_add_distr_r. apply region_small; [done|]. rewrite <- EM. pose proof (free_weight_bound M _ HT2). lia.
  - intros x. rewrite <- Hl'. unfold live_at, put. case_decide; done.
  - destruct (same_rest_link (mark p2 h' o' true) h' o') as (_&->&_). change (p_incarnations (mark p2 h' o' true)) with (p_incarnations p2). by rewrite Ei.
Qed.

Lemma coalesce_free_ok p h o :
  pool_ok sh p → live_block p h = Some o →
  let p' := coalesce_free sh p h o in
  pool_ok sh p' ∧ (∀ x, live_block p' x = if decide (x = h) then None else live_block p x) ∧ p_incarnations p' = p_incarnations p.
Proof.
  intros [Hs Hr Hf] Hh%live_block_some. cbn zeta.
  destruct (coalesce_free_hand p (cells p) aside_none h o Hs Hr Hh) as (T'&Hr'&Hc'&_&Hf'&Hl'&Hi'); [split_and!; [by intros []|done|by intros x []]|done|].
  assert (∀ x, cells (coalesce_free sh p h o) x = T' x) as Hcells by (intros x; apply Hc'; by intros []).
  split_and!; [split; [done| |]|..].
  - apply (region_ext _ _ T'); [done|eapply tiling_ext; [done|apply Hr']|done].
  - by rewrite Hf', (free_weight_ext _ _ _ Hcells).
  - intros x. unfold live_block, live_at. rewrite Hcells. fold (live_at T' x). rewrite Hl'. unfold live_at, put. by case_decide.
  - done.
Qed.
End blocks.
