(* ===== verification/BuddyImage.v ===== *)
(** * The bitmaps that keep what recovery images name

    The invariant of the image part of [crates/mem/src/buddy.rs], against the
    set of live blocks: the live bits are the live heads, a capture computed
    from the changed words alone is [live & !deferred] in whole, a commit that
    copies the uncommitted words alone makes the committed set the captured
    one, and a deferred block is live. *)

From S2P Require Import Prelude BuddyBits Buddy.
#[local] Open Scope N_scope.

(** ** Walks over words *)
Lemma words_of_spec ws w : words_ok ws → w ∈ words_of ws ↔ bits_get ws w = true.
Proof.
  intros Hws. unfold words_of. rewrite list_elem_of_In, in_concat. split.
  - intros (l&Hl&Hw). apply list_elem_of_In in Hl, Hw. apply elem_of_lookup_imap in Hl as (k&s&->&Hs).
    apply list_elem_of_fmap in Hw as (b&->&Hb). pose proof (words_ok_at ws (N.of_nat k) s Hws) as Hs'. unfold word_at in Hs'.
    rewrite Nat2N.id in Hs'. specialize (Hs' Hs). apply (bits_of_spec s Hs') in Hb. pose proof (Hs' _ Hb) as Hlt. unfold WORD_BITS.
    rewrite bits_get_word by exact Hlt. unfold word_at. rewrite Nat2N.id, Hs. exact Hb.
  - rewrite bits_get_testbit. destruct (word_at ws (w / 64)) as [s|] eqn:Hs; [|done]. cbn [from_option]. intros Hb.
    exists (map (λ bit, N.of_nat (N.to_nat (w / 64)) * WORD_BITS + bit) (bits_of s)). rewrite <- !list_elem_of_In. split.
    + apply elem_of_lookup_imap. eauto.
    + apply list_elem_of_fmap. exists (w mod 64). split; [unfold WORD_BITS; pose proof (N.div_mod' w 64); lia|].
      by apply bits_of_spec; [eapply words_ok_at|].
Qed.

Lemma bits_get_cleared ws w : bits_get (map (λ _ : N, 0) ws) w = false.
Proof.
  rewrite bits_get_testbit. unfold word_at. rewrite list_lookup_fmap. destruct (ws !! _); cbn [fmap option_fmap option_map from_option]; [apply N.bits_0|done].
Qed.
Lemma words_ok_cleared ws : words_ok (map (λ _ : N, 0) ws).
Proof. apply Forall_map, Forall_forall. intros. apply is_word_0. Qed.

(** A word written whole. *)
Lemma bits_get_word_update ws w v x :
  bits_get (word_update ws w (λ _, v)) x =
    if decide (x / 64 = w ∧ w < N.of_nat (length ws)) then N.testbit v (x mod 64) else bits_get ws x.
Proof.
  rewrite !bits_get_testbit, word_update_at. destruct (decide (w = x / 64)) as [->|E]; [|by rewrite decide_False by (intros [<- _]; done)].
  destruct (word_at ws (x / 64)) as [u|] eqn:Eu.
  - rewrite decide_True; [done|]. split; [done|]. unfold word_at in Eu. apply lookup_lt_Some in Eu. lia.
  - rewrite decide_False; [done|]. intros [_ H]. destruct (word_at_some ws (x / 64) H) as [v' E]. congruence.
Qed.
Lemma bits_get_default ws w x : x / 64 = w → N.testbit (default 0 (word_at ws w)) (x mod 64) = bits_get ws x.
Proof. intros <-. rewrite bits_get_testbit. destruct (word_at ws (x / 64)); cbn [from_option]; [done|apply N.bits_0]. Qed.
Lemma is_word_default ws w : words_ok ws → is_word (default 0 (word_at ws w)).
Proof. intros Hws. destruct (word_at ws w) eqn:E; cbn; [by eapply words_ok_at|apply is_word_0]. Qed.
Lemma bits_get_range ws x : bits_get ws x = true → x / 64 < N.of_nat (length ws).
Proof.
  rewrite bits_get_testbit. destruct (word_at ws (x / 64)) eqn:E; [|done]. intros _. unfold word_at in E.
  apply lookup_lt_Some in E. lia.
Qed.

Lemma bits_get_out ws x : N.of_nat (length ws) ≤ x / 64 → bits_get ws x = false.
Proof. intros H. destruct (bits_get ws x) eqn:E; [|done]. apply bits_get_range in E. lia. Qed.

(** ** The invariant *)
Definition sized (n : nat) (ws : list N) : Prop := length ws = n ∧ words_ok ws.
Lemma sized_set n ws i on : sized n ws → sized n (bits_set ws i on).
Proof. intros [<- H]. split; [apply length_bits_set|by apply words_ok_bits_set]. Qed.
Lemma sized_word n ws w v : sized n ws → is_word v → sized n (word_update ws w (λ _, v)).
Proof. intros [<- H] Hv. split; [apply length_word_update|]. by apply words_ok_update. Qed.
Lemma sized_cleared n ws : sized n ws → sized n (map (λ _ : N, 0) ws).
Proof. intros [<- H]. split; [apply length_map|apply words_ok_cleared]. Qed.
#[export] Hint Resolve sized_set sized_word sized_cleared : slates.

(** [n] granules in [w] words, whose sets are [s] summaries: the live blocks are [L]. *)
Record image_ok (n : N) (w s : nat) (i : Image) (L : N → Prop) : Prop := {
  im_fit : n ≤ N.of_nat w * 64 ∧ N.of_nat w ≤ N.of_nat s * 64;
  im_bits : sized w (i_live i) ∧ sized w (i_committed i) ∧ sized w (i_deferred i) ∧ sized w (i_capture i);
  im_sets : sized s (i_changed i) ∧ sized s (i_uncommitted i) ∧ sized s (i_deferring i);
  im_bound : ∀ x, L x → x < n;
  im_live : i_imaged i = true → ∀ x, bits_get (i_live i) x = true ↔ L x;
  im_deferred : ∀ x, bits_get (i_deferred i) x = true → i_imaged i = true ∧ L x;
  im_capture : i_imaged i = true → ∀ x, bits_get (i_changed i) (x / 64) = false →
    bits_get (i_capture i) x = bits_get (i_live i) x && negb (bits_get (i_deferred i) x);
  im_committed : ∀ x, bits_get (i_uncommitted i) (x / 64) = false → bits_get (i_committed i) x = bits_get (i_capture i) x;
  im_deferring : ∀ x, bits_get (i_deferred i) x = true → bits_get (i_deferring i) (x / 64) = true;
  im_fresh : i_imaged i = false → i_capturing i = false
    ∧ ∀ x, bits_get (i_live i) x = false ∧ bits_get (i_committed i) x = false
}.

Section image.
Context (n : N) (w s : nat).
Implicit Types (i : Image) (L : N → Prop) (x : N).
#[local] Abbreviation image_ok := (image_ok n w s).

Lemma word_in i L x : image_ok i L → x < n → x < capacity (i_live i) ∧ x / 64 < capacity (i_changed i) ∧ x / 64 < capacity (i_deferring i).
Proof.
  intros Hi Hx. destruct (im_fit _ _ _ _ _ Hi) as [H1 H2]. destruct (im_bits _ _ _ _ _ Hi) as ([E1 _]&_).
  destruct (im_sets _ _ _ _ _ Hi) as ([E2 _]&_&[E3 _]). unfold capacity. rewrite E1, E2, E3.
  assert (x / 64 < N.of_nat w) by (apply N.Div0.div_lt_upper_bound; lia). lia.
Qed.
Lemma bit_in_word i L x : image_ok i L → L x → x / 64 < N.of_nat w.
Proof.
  intros Hi Hx%(im_bound _ _ _ _ _ Hi). destruct (im_fit _ _ _ _ _ Hi) as [H1 _]. apply N.Div0.div_lt_upper_bound. lia.
Qed.

(** A live head kept or dropped. *)
Lemma keep_live_ok i L L' x on :
  image_ok i L → x < n → (∀ y, L' y ↔ if decide (y = x) then on = true else L y) →
  (on = false → bits_get (i_deferred i) x = false) → image_ok (keep_live i x on) L'.
Proof.
  intros Hi Hx HL Hd. destruct (word_in i L x Hi Hx) as (Hc1&Hc2&_). pose proof Hi as Hi0. destruct Hi.
  assert (∀ y, L' y → y < n) as Hb by (intros y; rewrite HL; case_decide; [by intros; subst|auto]).
  assert (∀ y, bits_get (i_deferred i) y = true → i_imaged i = true ∧ L' y) as Hdef.
  { intros y Hy. destruct (im_deferred0 y Hy). split; [done|]. apply HL. case_decide; [|done]. subst y. destruct on; [done|].
    rewrite Hd in Hy; done. }
  unfold keep_live. destruct (i_imaged i) eqn:Eim; [|split; try done; [intros; congruence|by rewrite Eim|intros; congruence|auto]].
  split; cbn -[bits_set bits_get words_insert]; rewrite ?Eim; try done.
  - destruct im_bits0 as (?&?&?&?). split_and!; auto with slates.
  - destruct im_sets0 as (?&?&?). split_and!; auto with slates. rewrite words_insert_bits. auto with slates.
  - intros _ y. rewrite bits_get_set by done. rewrite HL. destruct (decide (x = y)) as [->|].
    + by rewrite decide_True.
    + rewrite decide_False by congruence. by apply im_live0.
  - intros _ y. rewrite words_insert_bits, bits_get_set by done. unfold WORD_BITS. case_decide as E; [done|]. intros Hch.
    rewrite bits_get_set by done. rewrite decide_False by (intros ->; done). by apply im_capture0.
Qed.

(** A block deferred. *)
Definition defer_image i x (bytes : N) : Image :=
  note_changed (i <| i_deferred ::= λ v, bits_set v x true |>) x
    <| i_deferring ::= λ v, words_insert v (word_and_mask x).1 |> <| i_deferred_bytes ::= λ b, sat_add b bytes |>.
Lemma defer_ok i L x bytes :
  image_ok i L → L x → i_imaged i = true → image_ok (defer_image i x bytes) L.
Proof.
  intros Hi HLx Him. pose proof (im_bound _ _ _ _ _ Hi x HLx) as Hx. destruct (word_in i L x Hi Hx) as (Hc1&Hc2&Hc3).
  assert (x < capacity (i_deferred i)) as Hc4.
  { destruct (im_bits _ _ _ _ _ Hi) as ([E1 _]&_&[E2 _]&_). unfold capacity in *. congruence. }
  destruct Hi. split; cbn -[bits_set bits_get words_insert]; try done.
  - destruct im_bits0 as (?&?&?&?). split_and!; auto with slates.
  - destruct im_sets0 as (?&?&?). rewrite !words_insert_bits. split_and!; auto with slates.
  - intros y. rewrite bits_get_set by done. case_decide as E; [by subst|apply im_deferred0].
  - intros _ y. rewrite words_insert_bits, bits_get_set by done. unfold WORD_BITS. case_decide as E; [done|]. intros Hch.
    rewrite bits_get_set by done. rewrite decide_False by (intros ->; done). by apply im_capture0.
  - intros y. rewrite words_insert_bits, bits_get_set by done. rewrite bits_get_set by done. unfold WORD_BITS.
    intros Hy. destruct (decide (x / 64 = y / 64)) as [|E1]; [done|]. rewrite (decide_False (P := x = y)) in Hy by (intros ->; done). by apply im_deferring0.
Qed.

(** ** Captures *)
Lemma words_insert_all_get ws count v :
  N.of_nat count ≤ capacity ws → bits_get (words_insert_all ws (N.of_nat count)) v = bool_decide (v < N.of_nat count) || bits_get ws v.
Proof.
  unfold words_insert_all. rewrite Nat2N.id. intros Hc.
  assert (length (foldl (λ ws k, words_insert ws (N.of_nat k)) ws (seq 0 count)) = length ws
    ∧ bits_get (foldl (λ ws k, words_insert ws (N.of_nat k)) ws (seq 0 count)) v = bool_decide (v < N.of_nat count) || bits_get ws v) as [_ ?]; [|done].
  induction count as [|count IH]; [split; [done|]; rewrite bool_decide_eq_false_2 by lia; done|].
  rewrite seq_S, foldl_app. cbn [foldl]. destruct IH as [IH1 IH2]; [lia|]. rewrite words_insert_bits. split; [by rewrite length_bits_set|].
  rewrite bits_get_set by (unfold capacity in *; rewrite IH1; lia). rewrite IH2. cbn [Nat.add]. destruct (decide (N.of_nat count = v)) as [E|E].
  - by rewrite bool_decide_eq_true_2 by lia.
  - f_equal. apply bool_decide_ext. lia.
Qed.
Lemma sized_insert_all m ws count : sized m ws → sized m (words_insert_all ws count).
Proof.
  intros Hws. unfold words_insert_all. generalize (seq 0 (N.to_nat count)). intros l. revert ws Hws.
  induction l as [|k l IH]; intros ws Hws; [done|]. cbn. apply IH. rewrite words_insert_bits. auto with slates.
Qed.

(** The first capture's scan finds the live heads. *)
Lemma scan_live_get p live x :
  len (p_state p) ≤ capacity live →
  bits_get (scan_live p live) x =
    bits_get live x || (negb (state_at p x =? INSIDE) && negb (is_free_byte (state_at p x)) && bool_decide (x < len (p_state p))).
Proof.
  unfold scan_live, state_at, len. generalize (p_state p). intros l. induction l as [|byte l IH] using rev_ind; intros Hc.
  { rewrite bool_decide_eq_false_2, andb_false_r, orb_false_r by (cbn; lia). done. }
  rewrite imap_app, foldl_app. cbn [imap foldl fst snd]. rewrite length_app in *. cbn [length] in *. rewrite Nat.add_0_r.
  specialize (IH ltac:(lia)).
  assert (length (foldl (λ w0 e, if negb (e.2 =? INSIDE) && negb (is_free_byte e.2) then bits_set w0 e.1 true else w0) live
    (imap (λ k byte0, (N.of_nat k, byte0)) l)) = length live) as Hlen.
  { clear. generalize (imap (λ k byte0, (N.of_nat k, byte0)) l). intros es. revert live. induction es as [|e es IH]; intros live; [done|]. cbn.
    rewrite IH. destruct (_ && _); [apply (length_bits_set live e.1 true)|done]. }
  destruct (decide (x = N.of_nat (length l))) as [->|Hne].
  - rewrite Nat2N.id, lookup_app_r, Nat.sub_diag by lia. cbn [lookup list_lookup default from_option]. rewrite bool_decide_eq_true_2, andb_true_r by lia.
    unfold Datatypes.id. destruct (negb (byte =? INSIDE) && negb (is_free_byte byte)) eqn:E.
    + rewrite bits_get_set by (unfold capacity in *; rewrite Hlen; lia). by rewrite decide_True, orb_true_r.
    + rewrite IH, orb_false_r. rewrite bool_decide_eq_false_2 by lia. by rewrite andb_false_r, orb_false_r.
  - transitivity (bits_get (foldl (λ w0 e, if negb (e.2 =? INSIDE) && negb (is_free_byte e.2) then bits_set w0 e.1 true else w0) live
      (imap (λ k byte0, (N.of_nat k, byte0)) l)) x).
    { destruct (negb (byte =? INSIDE) && negb (is_free_byte byte)); [|done]. rewrite bits_get_set by (unfold capacity in *; rewrite Hlen; lia). by rewrite decide_False. }
    rewrite IH. f_equal. destruct (decide (x < N.of_nat (length l))).
    + rewrite lookup_app_l by lia. f_equal. rewrite !bool_decide_eq_true_2 by lia. done.
    + rewrite !bool_decide_eq_false_2 by lia. by rewrite !andb_false_r.
Qed.
Lemma sized_scan m p live : sized m live → sized m (scan_live p live).
Proof.
  intros H. unfold scan_live. generalize (imap (λ k byte, (N.of_nat k, byte)) (p_state p)). intros es. revert live H.
  induction es as [|e es IH]; intros live H; [done|]. cbn [foldl]. apply IH. destruct (negb (e.2 =? INSIDE) && negb (is_free_byte e.2)); [by apply sized_set|done].
Qed.

Lemma first_capture_ok p i L :
  image_ok i L → len (p_state p) ≤ n →
  (∀ x, L x ↔ state_at p x ≠ INSIDE ∧ is_free_byte (state_at p x) = false ∧ x < len (p_state p)) →
  image_ok (first_capture p i) L ∧ i_imaged (first_capture p i) = true.
Proof.
  intros Hi Hp HL. unfold first_capture. destruct (i_imaged i) eqn:Eim; [done|]. split; [|done].
  destruct Hi as [[Hf1 Hf2] (Hb1&Hb2&Hb3&Hb4) (Hs1&Hs2&Hs3) Hbd Hlv Hdf Hcp Hcm Hdg Hfr].
  destruct (Hfr Eim) as [Hfc Hfb].
  assert (∀ x, bits_get (i_deferred i) x = false) as Hnd.
  { intros x. destruct (bits_get (i_deferred i) x) eqn:E; [|done]. destruct (Hdf x E). congruence. }
  split; cbn -[scan_live words_insert_all bits_get]; try done.
  - split_and!; auto using sized_scan.
  - split_and!; auto using sized_insert_all.
  - intros _ x. rewrite scan_live_get by (unfold capacity; destruct Hb1 as [-> _]; lia). destruct (Hfb x) as [-> _]. cbn [orb].
    rewrite HL, !andb_true_iff, !negb_true_iff, N.eqb_neq, bool_decide_eq_true. tauto.
  - intros x Hx. by rewrite Hnd in Hx.
  - intros _ x Hx. pose proof (sized_scan w p (i_live i) Hb1) as [E _].
    unfold len in Hx. rewrite words_insert_all_get in Hx by (rewrite E; unfold capacity; destruct Hs1 as [-> _]; lia).
    apply orb_false_iff in Hx as [Hx _]. apply bool_decide_eq_false in Hx. rewrite E in Hx.
    rewrite (bits_get_out (i_capture i)), (bits_get_out (scan_live p (i_live i))); [done|rewrite E; lia|destruct Hb4 as [-> _]; lia].
Qed.

(** The walk over the changed words. *)
Lemma capture_fold ws i :
  sized w (i_live i) → sized w (i_capture i) → sized s (i_uncommitted i) → N.of_nat w ≤ N.of_nat s * 64 →
  ∃ c u, foldl capture_word i ws = i <| i_capture := c |> <| i_uncommitted := u |> ∧ sized w c ∧ sized s u
    ∧ (∀ x, bits_get c x = if decide (x / 64 ∈ ws ∧ x / 64 < N.of_nat w) then bits_get (i_live i) x && negb (bits_get (i_deferred i) x)
                           else bits_get (i_capture i) x)
    ∧ (∀ v, bits_get u v = true ↔ bits_get (i_uncommitted i) v = true ∨ (v ∈ ws ∧ v < N.of_nat w)).
Proof.
  revert i. induction ws as [|v ws IH]; intros i Hl Hc Hu Hws.
  { exists (i_capture i), (i_uncommitted i). split_and!; [by destruct i|done|done|..].
    - intros x. rewrite decide_False; [done|]. by intros [?%elem_of_nil _].
    - intros x. split; [by left|]. by intros [?|[?%elem_of_nil _]]. }
  cbn [foldl]. unfold capture_word at 2. destruct (word_at (i_capture i) v) as [old|] eqn:Ev.
  - assert (v < N.of_nat w) as Hv by (unfold word_at in Ev; apply lookup_lt_Some in Ev; destruct Hc as [<- _]; lia).
    set (i1 := i <| i_capture ::= _ |> <| i_uncommitted ::= _ |>).
    assert (is_word (N.ldiff (default 0 (word_at (i_live i) v)) (default 0 (word_at (i_deferred i) v)))) as Hw
      by (apply is_word_ldiff, is_word_default; apply Hl).
    destruct (IH i1) as (c&u&->&Hc'&Hu'&Hcx&Hux); [done|unfold i1; cbn -[word_update]; auto with slates|
      unfold i1; cbn -[words_insert]; rewrite words_insert_bits; auto with slates|done|].
    exists c, u. split_and!; [done..| |].
    + intros x. rewrite Hcx. unfold i1. cbn -[word_update bits_get]. rewrite bits_get_word_update. destruct Hc as [-> _].
      destruct (decide (x / 64 = v)) as [Ex|Ex].
      * rewrite (decide_True (P := x / 64 = v ∧ v < N.of_nat w)) by done.
        rewrite N.ldiff_spec, !bits_get_default by done.
        rewrite (decide_True (P := x / 64 ∈ v :: ws ∧ x / 64 < N.of_nat w)) by (split; [rewrite elem_of_cons; by left|lia]). by case_decide.
      * rewrite (decide_False (P := x / 64 = v ∧ v < N.of_nat w)) by tauto. pose proof (elem_of_cons ws (x / 64) v) as Hcons.
        destruct (decide (x / 64 ∈ ws ∧ x / 64 < N.of_nat w)), (decide (x / 64 ∈ v :: ws ∧ x / 64 < N.of_nat w)); tauto || done.
    + intros y. rewrite Hux. unfold i1. cbn -[words_insert bits_get]. rewrite words_insert_bits, bits_get_set by (unfold capacity; destruct Hu as [-> _]; lia).
      rewrite elem_of_cons. case_decide as E; [subst y|]; naive_solver.
  - destruct (IH i) as (c&u&->&Hc'&Hu'&Hcx&Hux); [done..|]. exists c, u.
    assert (N.of_nat w ≤ v) as Hv by (unfold word_at in Ev; apply lookup_ge_None in Ev; destruct Hc as [<- _]; lia).
    split_and!; [done..| |].
    + intros x. rewrite Hcx. pose proof (elem_of_cons ws (x / 64) v) as Hcons.
      destruct (decide (x / 64 ∈ ws ∧ x / 64 < N.of_nat w)), (decide (x / 64 ∈ v :: ws ∧ x / 64 < N.of_nat w)); try done; exfalso.
      * tauto.
      * destruct (decide (x / 64 = v)); [lia|tauto].
    + intros y. rewrite Hux, elem_of_cons. destruct (decide (y = v)); [|tauto]. split; [tauto|]. intros [?|[_ ?]]; [by left|lia].
Qed.

(** A capture from the changed words is the capture recomputed in whole. *)
Lemma capture_walk_ok i L :
  image_ok i L → i_imaged i = true →
  let i' := foldl capture_word (i <| i_capturing := true |> <| i_changed ::= map (λ _, 0) |>) (words_of (i_changed i)) in
  image_ok i' L ∧ (∀ x, bits_get (i_capture i') x = bits_get (i_live i) x && negb (bits_get (i_deferred i) x))
  ∧ i_live i' = i_live i ∧ i_deferred i' = i_deferred i ∧ i_committed i' = i_committed i ∧ i_capturing i' = true ∧ i_imaged i' = true.
Proof.
  intros Hi Him. cbn zeta. destruct Hi as [[Hf1 Hf2] (Hb1&Hb2&Hb3&Hb4) (Hs1&Hs2&Hs3) Hbd Hlv Hdf Hcp Hcm Hdg Hfr].
  set (i0 := i <| i_capturing := true |> <| i_changed ::= map (λ _, 0) |>).
  destruct (capture_fold (words_of (i_changed i)) i0) as (c&u&->&Hc&Hu&Hcx&Hux); [done..|].
  assert (∀ v, v ∈ words_of (i_changed i) ↔ bits_get (i_changed i) v = true) as Hws by (intros v; apply words_of_spec, Hs1).
  assert (∀ x, bits_get c x = bits_get (i_live i) x && negb (bits_get (i_deferred i) x)) as Hall.
  { intros x. rewrite Hcx. cbn -[bits_get]. case_decide as E; [done|]. rewrite Hws in E.
    destruct (bits_get (i_changed i) (x / 64)) eqn:Ech; [|by apply Hcp].
    rewrite (bits_get_out (i_live i)), (bits_get_out (i_capture i)); [done|destruct Hb4 as [-> _]|destruct Hb1 as [-> _]]; (destruct (decide (x / 64 < N.of_nat w)); [exfalso; tauto|lia]). }
  split_and!; try done.
  split; cbn -[bits_get]; try done.
  - split_and!; auto with slates.
  - intros x Hx.
    assert (¬ (bits_get (i_uncommitted i) (x / 64) = true ∨ (x / 64 ∈ words_of (i_changed i) ∧ x / 64 < N.of_nat w))) as Hn by (intros Hn%Hux; congruence).
    rewrite Hcm by (destruct (bits_get (i_uncommitted i) (x / 64)); naive_solver).
    rewrite Hcx, decide_False by tauto. done.
  - intros Hf. congruence.
Qed.

(** The walk over the uncommitted words makes the committed set the captured one. *)
Lemma commit_fold ws i :
  sized w (i_committed i) → sized w (i_capture i) →
  ∃ c, foldl commit_word i ws = i <| i_committed := c |> ∧ sized w c
    ∧ ∀ x, bits_get c x = if decide (x / 64 ∈ ws) then bits_get (i_capture i) x else bits_get (i_committed i) x.
Proof.
  revert i. induction ws as [|v ws IH]; intros i Hm Hc.
  { exists (i_committed i). split_and!; [by destruct i|done|]. intros x. rewrite decide_False; [done|]. by intros ?%elem_of_nil. }
  cbn [foldl]. set (i1 := commit_word i v).
  destruct (IH i1) as (c&->&Hc'&Hcx); [unfold i1, commit_word; cbn -[word_update]; apply sized_word; [done|by apply is_word_default, Hc]|done|].
  exists c. split_and!; [done..|]. intros x. rewrite Hcx. unfold i1, commit_word. cbn -[word_update bits_get].
  destruct Hm as [Hm _]. rewrite bits_get_word_update, Hm. pose proof (elem_of_cons ws (x / 64) v) as Hcons. destruct (decide (x / 64 = v)) as [E|E].
  - rewrite (decide_True (P := x / 64 ∈ v :: ws)) by tauto. destruct (decide (x / 64 ∈ ws)); [done|].
    destruct (decide (x / 64 = v ∧ v < N.of_nat w)) as [E2|E2]; [by apply bits_get_default|].
    rewrite !bits_get_out; [done|destruct Hc as [-> _]|rewrite Hm]; lia.
  - rewrite (decide_False (P := x / 64 = v ∧ v < N.of_nat w)) by tauto. destruct (decide (x / 64 ∈ ws)), (decide (x / 64 ∈ v :: ws)); tauto || done.
Qed.
Lemma commit_uncommitted_ok i L :
  image_ok i L → i_imaged i = true →
  ∃ c, commit_uncommitted i = i <| i_uncommitted ::= map (λ _, 0) |> <| i_committed := c |> ∧ image_ok (commit_uncommitted i) L
    ∧ ∀ x, bits_get c x = bits_get (i_capture i) x.
Proof.
  intros Hi Him. destruct Hi as [Hf (Hb1&Hb2&Hb3&Hb4) (Hs1&Hs2&Hs3) Hbd Hlv Hdf Hcp Hcm Hdg Hfr].
  set (i1 := i <| i_uncommitted ::= map (λ _, 0) |>). destruct (commit_fold (words_of (i_uncommitted i)) i1 Hb2 Hb4) as (c&E&Hc&Hcx).
  change (commit_uncommitted i = i <| i_uncommitted ::= map (λ _, 0) |> <| i_committed := c |>) in E. rewrite E.
  assert (∀ x, bits_get c x = bits_get (i_capture i) x) as Hall.
  { intros x. rewrite Hcx. cbn -[bits_get words_of]. destruct (decide (x / 64 ∈ words_of (i_uncommitted i))) as [Ew|Ew]; [done|]. apply Hcm.
    destruct (bits_get (i_uncommitted i) (x / 64)) eqn:Eu; [|done]. exfalso. apply Ew. by apply words_of_spec; [apply Hs2|]. }
  exists c. split_and!; [done| |done]. split; cbn -[bits_get]; try done.
  - split_and!; auto with slates.
  - intros; congruence.
Qed.

(** The bookkeeping of a word: the deferred blocks of the word that [keep] does not name are dropped. *)
Lemma settle_word_ok i L word keep :
  image_ok i L →
  let d := default 0 (word_at (i_deferred i) word) in
  let i' := settle_word i word d keep in
  image_ok i' L
  ∧ (∀ x, bits_get (i_deferred i') x = bits_get (i_deferred i) x && (N.testbit keep (x mod 64) || negb (x / 64 =? word)))
  ∧ i_live i' = i_live i ∧ i_committed i' = i_committed i ∧ i_capture i' = i_capture i ∧ i_uncommitted i' = i_uncommitted i
  ∧ i_capturing i' = i_capturing i ∧ i_imaged i' = i_imaged i.
Proof.
  intros Hi. cbn zeta. set (d := default 0 (word_at (i_deferred i) word)). pose proof Hi as Hi0.
  destruct Hi as [[Hf1 Hf2] (Hb1&Hb2&Hb3&Hb4) (Hs1&Hs2&Hs3) Hbd Hlv Hdf Hcp Hcm Hdg Hfr].
  assert (is_word d) as Hd by (apply is_word_default, Hb3).
  set (D := word_update (i_deferred i) word (λ _, N.land d keep)).
  assert (∀ x, bits_get D x = bits_get (i_deferred i) x && (N.testbit keep (x mod 64) || negb (x / 64 =? word))) as HD.
  { intros x. unfold D. rewrite bits_get_word_update. destruct (N.eqb_spec (x / 64) word) as [E|E]; cbn [negb].
    - rewrite orb_false_r. case_decide as E2; [by rewrite N.land_spec; unfold d; rewrite bits_get_default|].
      rewrite bits_get_out; [done|]. lia.
    - rewrite orb_true_r, andb_true_r. by rewrite decide_False by tauto. }
  set (G := if N.land d keep =? 0 then words_remove (i_deferring i) word else i_deferring i).
  set (C := if N.ldiff d keep =? 0 then i_changed i else words_insert (i_changed i) word).
  assert (settle_word i word d keep = i <| i_deferred := D |> <| i_deferring := G |> <| i_changed := C |>) as ->.
  { unfold settle_word, G, C. by destruct (N.land d keep =? 0), (N.ldiff d keep =? 0). }
  split_and!; try done. split; cbn -[bits_get]; try done.
  - split_and!; try done. unfold D. apply sized_word; [done|by apply is_word_land].
  - unfold C, G. rewrite words_remove_bits, words_insert_bits. split_and!; [destruct (N.ldiff d keep =? 0)|done|destruct (N.land d keep =? 0)]; auto with slates.
  - intros x. rewrite HD. intros [? _]%andb_true_iff. by apply Hdf.
  - intros Him x HC. rewrite HD. unfold C in HC. destruct (N.eqb_spec (N.ldiff d keep) 0) as [E|E].
    + rewrite Hcp by done. f_equal. f_equal. destruct (bits_get (i_deferred i) x) eqn:Ex; [|done]. cbn [andb].
      destruct (N.eqb_spec (x / 64) word) as [Ew|]; [|by rewrite orb_true_r]. cbn [negb]. rewrite orb_false_r. symmetry.
      assert (N.testbit (N.ldiff d keep) (x mod 64) = false) as H0 by (by rewrite E, N.bits_0).
      rewrite N.ldiff_spec in H0. unfold d in H0. rewrite bits_get_default, Ex in H0 by done. cbn [andb] in H0. by apply negb_false_iff.
    + destruct (decide (word < capacity (i_changed i))) as [Hcap|Hcap].
      * rewrite words_insert_bits, bits_get_set in HC by done. case_decide as Ew; [done|]. rewrite Hcp by done.
        rewrite (proj2 (N.eqb_neq _ _)) by done. by rewrite orb_true_r, andb_true_r.
      * exfalso. apply E. unfold d, word_at. rewrite lookup_ge_None_2; [by rewrite N.ldiff_0_l|]. destruct Hb3 as [-> _].
        unfold capacity in Hcap. destruct Hs1 as [E1 _]. rewrite E1 in Hcap. lia.
  - intros x. rewrite HD. intros [Hx Hk]%andb_true_iff. pose proof (Hdg x Hx) as Hg. unfold G. destruct (N.eqb_spec (N.land d keep) 0) as [E|E]; [|done].
    destruct (N.eqb_spec (x / 64) word) as [Ew|Ew].
    + cbn [negb] in Hk. rewrite orb_false_r in Hk. exfalso. assert (N.testbit (N.land d keep) (x mod 64) = true) as H1.
      { rewrite N.land_spec, Hk. unfold d. by rewrite bits_get_default, Hx. }
      by rewrite E, N.bits_0 in H1.
    + rewrite words_remove_bits. destruct (decide (word < capacity (i_deferring i))) as [Hcap|Hcap].
      * rewrite bits_get_set by done. by rewrite decide_False.
      * rewrite bits_get_testbit. unfold bits_set, word_and_mask, WORD_BITS. rewrite word_update_at. rewrite bits_get_testbit in Hg.
        case_decide as E2; [|done]. rewrite E2. destruct (word_at (i_deferring i) (x / 64 / 64)) as [u|] eqn:Eu; [|done].
        exfalso. unfold word_at in Eu. apply lookup_lt_Some in Eu. unfold capacity in Hcap. pose proof (N.div_mod' word 64). pose proof (N.mod_lt word 64 ltac:(lia)). lia.
Qed.
End image.
