(* ===== verification/BuddyCore.v ===== *)
(** * The buddy allocator's blocks and its invariant

    What a length's order is, which blocks [Buddy::validate] accepts, and the
    invariant of the whole allocator of [crates/mem/src/buddy.rs], with its
    preservation by the steps the operations are built from: taking a block,
    releasing one, and settling the deferred blocks of a capture. *)

From S2P Require Import Prelude BuddyBits Buddy BuddyTile BuddyPool BuddyImage.
#[local] Open Scope N_scope.

(** ** Arithmetic *)
Lemma ceil_le a g k : 0 < g → (a + (g - 1)) / g ≤ k ↔ a ≤ k * g.
Proof.
  intros Hg. pose proof (N.div_mod' (a + (g - 1)) g). pose proof (N.mod_lt (a + (g - 1)) g ltac:(lia)).
  set (q := (a + (g - 1)) / g) in *. set (r := (a + (g - 1)) mod g) in *. clearbody q r. split; intros H1.
  - pose proof (N.mul_le_mono_l q k g H1). lia.
  - destruct (decide (q ≤ k)) as [|Hq]; [done|]. assert (g * (k + 1) ≤ g * q) by (apply N.mul_le_mono_l; lia). lia.
Qed.
Lemma land_low a k : N.land a (sat_sub (2 ^ k) 1) = a mod 2 ^ k.
Proof. unfold sat_sub. rewrite <- N.land_ones, N.ones_equiv. f_equal. lia. Qed.
Lemma low_zero a k : (N.land a (sat_sub (2 ^ k) 1) =? 0) = true ↔ (2 ^ k | a).
Proof.
  rewrite land_low, N.eqb_eq. apply N.Lcm0.mod_divide.
Qed.
Lemma shift_back a k : (2 ^ k | a) → N.shiftl (N.shiftr a k) k = a.
Proof. intros [q ->]. rewrite N.shiftr_div_pow2, N.shiftl_mul_pow2, N.div_mul by (apply N.pow_nonzero; lia). done. Qed.
Lemma shift_up a k : N.shiftr (N.shiftl a k) k = a.
Proof. rewrite N.shiftr_shiftl_l, N.sub_diag by lia. apply N.shiftl_0_r. Qed.

(** ** The order of a length *)
Section shape.
Context (sh : Shape) (Hs : shape_ok sh).
Implicit Types (n o k x : N).
#[local] Abbreviation g := (granule sh).
#[local] Abbreviation M := (max_order sh).

Lemma granule_pos : 0 < g.
Proof using Hs. rewrite (sh_granule _ Hs). apply pow_pos. Qed.
Lemma order_size o : o ≤ M → 2 ^ o * g ≤ 2 ^ 63.
Proof using Hs.
  intros Ho. rewrite (sh_granule _ Hs), <- N.pow_add_r. apply N.pow_le_mono_r; [lia|]. pose proof (sh_region _ Hs). lia.
Qed.

(** The least order whose blocks hold the length. *)
Lemma order_for_ok n o : order_for sh n = Ok o ↔ o ≤ M ∧ ∀ k, o ≤ k ↔ N.max n 1 ≤ 2 ^ k * g.
Proof using Hs.
  pose proof granule_pos as Hg. unfold order_for. rewrite ok_or_ok.
  set (m := N.max n 1). assert (1 ≤ m) by (unfold m; lia).
  set (u := (m + (g - 1)) / g).
  assert (∀ k, u ≤ k ↔ m ≤ k * g) as Hu by (intros k; apply ceil_le; lia).
  assert (0 < u) as Hpos. { destruct (decide (u ≤ 0)) as [H0%Hu|]; lia. }
  assert (∀ k, N.log2_up u ≤ k ↔ m ≤ 2 ^ k * g) as Hlog by (intros k; rewrite <- N.log2_up_le_pow2 by done; apply Hu).
  assert (∀ v, v = m + sat_sub g 1 → N.shiftr v (granule_shift sh) = u) as Hshift.
  { intros v ->. rewrite N.shiftr_div_pow2, <- (sh_granule _ Hs). done. }
  pose proof (sh_region _ Hs) as HR. split.
  - cbn [mbind option_bind]. destruct (checked_add m (sat_sub g 1)) as [r|] eqn:Er; [|done]. apply checked_add_some in Er as [-> Hr]. cbn.
    rewrite (Hshift _ eq_refl). unfold checked_next_power_of_two. destruct (2 ^ N.log2_up u <=? usize_max); [|done]. cbn.
    rewrite trailing_zeros_pow. destruct (N.leb_spec (N.log2_up u) M); [|done]. intros [= <-]. done.
  - intros [Ho Hk]. assert (N.log2_up u = o) as E.
    { apply N.le_antisymm; [apply Hlog, Hk; lia|]. apply Hk, Hlog. lia. }
    pose proof (order_size o Ho) as H63. change (2 ^ 63) with 9223372036854775808 in H63.
    assert (m ≤ 2 ^ o * g) by (apply Hk; lia).
    assert (2 ^ 0 * g ≤ 2 ^ o * g) by (apply N.mul_le_mono_r, N.pow_le_mono_r; lia).
    assert (checked_add m (sat_sub g 1) = Some (m + sat_sub g 1)) as ->.
    { apply checked_add_some. unfold sat_sub, u64_max. change (2 ^ 0) with 1 in *. lia. }
    cbn. rewrite (Hshift _ eq_refl). unfold checked_next_power_of_two. rewrite E.
    assert (2 ^ o ≤ 2 ^ 31) as H31 by (apply N.pow_le_mono_r; [lia|]; pose proof (sh_order _ Hs); lia). change (2 ^ 31) with 2147483648 in H31.
    rewrite (proj2 (N.leb_le (2 ^ o) usize_max)) by (unfold usize_max, u64_max; lia). cbn. rewrite trailing_zeros_pow.
    by rewrite (proj2 (N.leb_le _ _)) by done.
Qed.
Lemma order_for_bytes o : o ≤ M → order_for sh (order_bytes sh o) = Ok o.
Proof using Hs.
  intros Ho. rewrite order_bytes_eq by done. apply order_for_ok. split; [done|]. intros k. pose proof granule_pos. pose proof (pow_pos o).
  rewrite N.max_l by nia. split; intros H2.
  - by apply N.mul_le_mono_r, N.pow_le_mono_r; [lia|].
  - destruct (decide (o ≤ k)); [done|]. exfalso. assert (2 ^ k < 2 ^ o) by (apply N.pow_lt_mono_r; lia). nia.
Qed.
Lemma order_for_err n e : order_for sh n = Err e → e = TooLarge n (region_bytes sh) ∧ 2 ^ M * g < N.max n 1.
Proof using Hs.
  intros He. split.
  - revert He. unfold order_for, ok_or. destruct (mbind _ _); congruence.
  - destruct (decide (N.max n 1 ≤ 2 ^ M * g)) as [Hle|]; [|lia]. exfalso.
    pose proof granule_pos as Hg. set (u := (N.max n 1 + (g - 1)) / g).
    assert (∀ k, u ≤ k ↔ N.max n 1 ≤ k * g) as Hu by (intros k; apply ceil_le; lia).
    assert (0 < u) as Hpos. { destruct (decide (u ≤ 0)) as [H0%Hu|]; lia. }
    assert (order_for sh n = Ok (N.log2_up u)) as Hok.
    { apply order_for_ok. split.
      - by apply N.log2_up_le_pow2, Hu.
      - intros k. rewrite <- N.log2_up_le_pow2 by done. apply Hu. }
    congruence.
Qed.
End shape.

(** ** Heads, lists and blocks *)
Section pool.
Context (sh : Shape) (p : Pool) (Hp : pool_ok sh p).
#[local] Abbreviation M := (max_order sh).
Implicit Types (o x h : N).

Lemma region_tile : tiling M (cells p).
Proof using Hp. apply (po_region _ _ Hp). Qed.
Lemma live_bound x o : live_block p x = Some o → o ≤ M ∧ (2 ^ o | x) ∧ x + 2 ^ o ≤ 2 ^ M ∧ x < 2 ^ M.
Proof using Hp.
  intros (H1&H2&H3)%live_block_some%(t_fit _ _ region_tile). pose proof (pow_pos o). split_and!; done || lia.
Qed.
Lemma region_31 : 2 ^ M ≤ 2147483648.
Proof using Hp. change 2147483648 with (2 ^ 31). apply N.pow_le_mono_r; [lia|]. apply (sh_order _ (po_shape _ _ Hp)). Qed.

(** The head of an order's list is a free block of the order, where there is one. *)
Lemma head_of_ok o :
  o ≤ M → (head_of p o = NONE ∧ ∀ x, cells p x ≠ Some (o, true)) ∨ (head_of p o ≠ NONE ∧ cells p (head_of p o) = Some (o, true)).
Proof using Hp.
  intros Ho. destruct (r_lists _ _ _ (po_region _ _ Hp)) as (F&HF&Hin). rewrite (l_head _ _ _ HF o Ho). destruct (F o) as [|x l] eqn:E; cbn [hd].
  - left. split; [done|]. intros x Hx%Hin. by rewrite E in Hx; apply elem_of_nil in Hx.
  - right. assert (x ∈ F o) as Hx by (rewrite E; apply elem_of_cons; by left). pose proof (l_in _ _ _ HF _ _ Hx) as [_ Hlt].
    pose proof region_31. split; [unfold NONE, u32_max; lia|]. by apply Hin.
Qed.

Lemma find_free_ok turns o :
  o + N.of_nat turns = M + 1 → (0 < turns)%nat →
  match find_free sh p turns o with
  | Some f => o ≤ f ≤ M ∧ cells p (head_of p f) = Some (f, true)
  | None => ∀ k x, o ≤ k → cells p x ≠ Some (k, true)
  end.
Proof using Hp.
  revert o. induction turns as [|turns IH]; intros o Ho Ht; [lia|]. cbn [find_free].
  destruct (head_of_ok o ltac:(lia)) as [[Hnone Hno]|[Hsome Hh]].
  - rewrite Hnone, N.eqb_refl. cbn [negb]. destruct (N.leb_spec M o) as [HM|HM].
    + intros k x Hk Hx. destruct (block_fits sh p x k true Hp Hx) as (?&_). replace k with o in Hx by lia. by apply (Hno x).
    + specialize (IH (o + 1) ltac:(lia) ltac:(lia)). destruct (find_free sh p turns (o + 1)) as [f|]; [intuition lia|].
      intros k x Hk. destruct (decide (k = o)) as [->|]; [apply Hno|]. apply IH. lia.
  - rewrite (proj2 (N.eqb_neq _ _) Hsome). cbn [negb]. split; [lia|done].
Qed.

(** [Buddy::covering_free] finds the free block that holds the span, and only that. *)
Lemma covering_sound levels index order h ho :
  covering_free p levels index order = Some (h, ho) → cells p h = Some (ho, true) ∧ order ≤ ho ∧ h ≤ index < h + 2 ^ ho.
Proof using Hp.
  induction levels as [|level levels IH]; [done|]. cbn [covering_free].
  set (hd := N.ldiff index (sat_sub (2 ^ level) 1)). destruct (N.eqb_spec (state_at p hd) INSIDE) as [|Hb]; [done|].
  destruct (N.leb_spec (sat_add hd (2 ^ order_of_byte (state_at p hd))) index) as [|Hle]; [done|].
  destruct (is_free_byte (state_at p hd)) eqn:Ef; [|done]. destruct (N.leb_spec order (order_of_byte (state_at p hd))); [|done].
  intros [= <- <-]. split_and!; try done.
  - unfold cells. by apply cell_some.
  - unfold hd. apply N.ldiff_le. rewrite N.ldiff_ldiff_l. apply N.bits_inj. intros i. rewrite N.ldiff_spec, N.lor_spec, N.bits_0.
    destruct (N.testbit index i); [by rewrite orb_true_r|done].
  - unfold sat_add in Hle. lia.
Qed.
Lemma round_down index level : N.ldiff index (sat_sub (2 ^ level) 1) = index / 2 ^ level * 2 ^ level.
Proof.
  unfold sat_sub. replace (2 ^ level - 1) with (N.ones level) by (rewrite N.ones_equiv; lia).
  by rewrite N.ldiff_ones_r, N.shiftr_div_pow2, N.shiftl_mul_pow2.
Qed.
Lemma rounded index level :
  (2 ^ level | N.ldiff index (sat_sub (2 ^ level) 1)) ∧ N.ldiff index (sat_sub (2 ^ level) 1) ≤ index
  ∧ index < N.ldiff index (sat_sub (2 ^ level) 1) + 2 ^ level.
Proof.
  rewrite round_down. split; [by eexists|]. pose proof (N.div_mod' index (2 ^ level)) as E. pose proof (pow_pos level).
  pose proof (N.mod_lt index (2 ^ level) ltac:(lia)). rewrite N.mul_comm in E. revert E H0.
  generalize (index / 2 ^ level * 2 ^ level), (index mod 2 ^ level). lia.
Qed.
Lemma covering_complete levels index order h ho :
  cells p h = Some (ho, true) → order ≤ ho → h ≤ index < h + 2 ^ ho →
  (∃ pre post, levels = pre ++ ho :: post ∧ Forall (λ l, l < ho) pre) →
  covering_free p levels index order = Some (h, ho).
Proof using Hp.
  intros Hh Ho Hin (pre&post&->&Hpre). pose proof region_tile as HT. destruct (t_fit _ _ HT _ _ _ Hh) as (_&Hal&Hfit).
  pose proof (proj1 (cell_some _ _ _) Hh) as (Hb1&Hb2&Hb3). pose proof region_31.
  assert (covering_free p (ho :: post) index order = Some (h, ho)
    ∧ ∀ l ls, N.ldiff index (sat_sub (2 ^ l) 1) = h → covering_free p (l :: ls) index order = Some (h, ho)) as [Hlast Hfound].
  { assert (∀ l ls, N.ldiff index (sat_sub (2 ^ l) 1) = h → covering_free p (l :: ls) index order = Some (h, ho)) as Hf.
    { intros l ls E. cbn [covering_free]. rewrite E, (proj2 (N.eqb_neq _ _) Hb1), Hb2, Hb3. unfold sat_add.
      rewrite (proj2 (N.leb_gt _ _)) by (unfold u64_max; lia). by rewrite (proj2 (N.leb_le _ _)). }
    split; [|done]. apply Hf. rewrite round_down. destruct Hal as [q ->]. pose proof (pow_pos ho).
    replace (index / 2 ^ ho) with q; [done|]. apply (N.div_unique _ _ _ (index - q * 2 ^ ho)); [|rewrite (N.mul_comm (2 ^ ho))]; clear -Hin; set (P := 2 ^ ho) in *; clearbody P; lia. }
  induction pre as [|l pre IH]; [done|]. apply Forall_cons in Hpre as [Hl Hpre]. cbn [app].
  destruct (decide (N.ldiff index (sat_sub (2 ^ l) 1) = h)) as [E|E]; [by apply Hfound|]. cbn [covering_free].
  assert (cells p (N.ldiff index (sat_sub (2 ^ l) 1)) = None) as Hnone.
  { eapply (tile_inside M (cells p) h ho true); [done..|]. destruct (rounded index l) as (Hr1&Hr2&Hr3). revert E Hr1 Hr2 Hr3.
    generalize (N.ldiff index (sat_sub (2 ^ l) 1)). intros r E Hr1 Hr2 Hr3. destruct (decide (r < h)) as [Hlt|]; [|lia]. exfalso.
    assert (r + 2 ^ l ≤ h); [|lia]. apply aligned_le; [done|by eapply divide_mono; [apply N.lt_le_incl|]|done]. }
  unfold cells, cell_of in Hnone. destruct (N.eqb_spec (state_at p (N.ldiff index (sat_sub (2 ^ l) 1))) INSIDE); [|done]. by apply IH.
Qed.
Lemma levels_split order ho :
  order ≤ ho ≤ M → ∃ pre post, levels_from sh order = pre ++ ho :: post ∧ Forall (λ l, l < ho) pre.
Proof.
  intros Ho. unfold levels_from. replace (N.to_nat (M + 1 - order)) with (N.to_nat (ho - order) + S (N.to_nat (M - ho)))%nat by lia.
  rewrite seq_app, map_app. cbn [seq map]. eexists _, _. split; [do 2 f_equal; lia|]. apply Forall_map, Forall_forall. intros k Hk%elem_of_seq. lia.
Qed.
End pool.

(** [Buddy::validate] accepts exactly the live block at its head, of its order and incarnation. *)
Lemma validate_ok b blk x o :
  pool_ok (shape b) (pool b) →
  block_validate b blk = Ok (x, o) ↔ live_block (pool b) x = Some o ∧ blk = block_at (shape b) x o (incarnation_at (pool b) x).
Proof.
  intros Hp. pose proof (po_shape _ _ Hp) as Hs. set (sh := shape b) in *. set (p := pool b) in *. unfold block_validate. fold sh p.
  rewrite (sh_granule _ Hs). split.
  - destruct (N.land (offset blk) _ =? 0) eqn:E1; [|done]. apply low_zero in E1. cbn [negb].
    destruct (order_for sh (blen blk)) as [o'|e] eqn:E2; [|done]. destruct (N.eqb_spec (order_bytes sh o') (blen blk)) as [E3|]; [|done]. cbn [negb].
    destruct (u32_max <? _); [done|]. destruct (_ =? 0) eqn:E4; [|done]. cbn [negb].
    destruct (p_state p !! _) as [head|] eqn:E5; [|done]. destruct ((head =? INSIDE) || _ || _) eqn:E6; [done|].
    destruct (N.eqb_spec (incarnation_at p (N.shiftr (offset blk) (granule_shift sh))) (incarnation blk)) as [E7|]; [|done]. cbn [negb].
    intros [= <- <-]. apply orb_false_iff in E6 as [[E6 E8]%orb_false_iff E9]. apply negb_false_iff, N.eqb_eq in E9. apply N.eqb_neq in E6. split.
    + apply live_block_some. unfold cells, state_at. rewrite E5. cbn. by apply cell_some.
    + destruct blk as [off bl inc]. cbn in *. unfold block_at. rewrite shift_back by done. by rewrite E3, E7.
  - intros [Hl ->]. destruct (live_bound sh p Hp x o Hl) as (Ho&Hal&Hfit&Hx). pose proof (region_31 sh p Hp).
    apply live_block_some in Hl. unfold cells, state_at in Hl. apply cell_some in Hl as (H1&H2&H3). cbn [block_at offset blen incarnation].
    rewrite (proj2 (low_zero _ _)) by (rewrite N.shiftl_mul_pow2; by eexists). cbn [negb].
    rewrite (order_for_bytes sh Hs o Ho), N.eqb_refl, shift_up. cbn [negb].
    rewrite (proj2 (N.ltb_ge _ _)) by (unfold u32_max; lia). rewrite (proj2 (low_zero _ _)) by done. cbn [negb].
    assert (is_Some (p_state p !! N.to_nat x)) as [head E].
    { apply lookup_lt_is_Some. pose proof (pool_granules sh p Hp) as E. unfold len in E. lia. }
    rewrite E in *. cbn in H1, H2, H3. rewrite (proj2 (N.eqb_neq _ _) H1), H2, H3, !N.eqb_refl. done.
Qed.

(** ** The invariant *)
Definition words_for (n : N) : nat := N.to_nat (div_ceil n WORD_BITS).
Definition live (b : Buddy) (x : N) : Prop := is_Some (live_block (pool b) x).
Record core_ok (b : Buddy) : Prop := {
  co_pool : pool_ok (shape b) (pool b);
  co_image : image_ok (2 ^ max_order (shape b)) (words_for (2 ^ max_order (shape b)))
    (words_for (N.of_nat (words_for (2 ^ max_order (shape b))))) (image b) (live b);
  co_locked : sized (words_for (2 ^ max_order (shape b))) (locked b) ∧ ∀ x, bits_get (locked b) x = true → live b x
}.

Lemma words_for_fit n : n ≤ N.of_nat (words_for n) * 64.
Proof. pose proof (capacity_new n) as H. unfold capacity, bits_new in H. by rewrite length_replicate in H. Qed.
Lemma image_ext n w s i L L' : (∀ x, L' x ↔ L x) → image_ok n w s i L → image_ok n w s i L'.
Proof. intros HL []. split; try done; setoid_rewrite HL; done. Qed.
Lemma live_in b x : core_ok b → live b x → x < 2 ^ max_order (shape b).
Proof. intros Hb [o Ho]. by apply (live_bound _ _ (co_pool _ Hb) x o Ho). Qed.
Lemma live_u32 b x : core_ok b → live b x → x ≤ u32_max.
Proof. intros Hb Hx. pose proof (live_in b x Hb Hx). pose proof (region_31 _ _ (co_pool _ Hb)). unfold u32_max. lia. Qed.
Lemma locked_in b x : core_ok b → x < 2 ^ max_order (shape b) → x < capacity (locked b).
Proof. intros Hb Hx. destruct (co_locked _ Hb) as [[E _] _]. unfold capacity. rewrite E. pose proof (words_for_fit (2 ^ max_order (shape b))). lia. Qed.

(** ** Taking a block *)
Lemma take_ok b h found index order value :
  core_ok b → cells (pool b) h = Some (found, true) → order ≤ found → (2 ^ order | index) → h ≤ index < h + 2 ^ found →
  let b1 := b <| pool := split_towards (N.to_nat (found - order)) (unlink (pool b) h found) index h found |> in
  let b' := (take_block b1 index order value).1 in
  core_ok b' ∧ (∀ x, live_block (pool b') x = if decide (x = index) then Some order else live_block (pool b) x)
  ∧ p_incarnations (pool b') = <[N.to_nat index := value]> (p_incarnations (pool b))
  ∧ image b' = keep_live (image b) index true ∧ locked b' = locked b ∧ shape b' = shape b
  ∧ live_block (pool b) index = None.
Proof.
  intros Hb Hh Ho Hal Hin. cbn zeta. destruct (carve_ok (shape b) (pool b) h found index order value (co_pool _ Hb) Hh Ho Hal Hin) as (Hp'&Hl'&Hi'&Hfit).
  pose proof (pow_pos order). assert (live_block (pool b) index = None) as Hnone.
  { destruct (live_block (pool b) index) as [o|] eqn:E; [|done]. apply live_block_some in E. pose proof (pow_pos o).
    assert (h = index) by (eapply (cover_unique _ _ (region_tile _ _ (co_pool _ Hb)) h found true index o false index); [done..|lia]). subst. congruence. }
  split_and!; try done. split; [done| |].
  - eapply keep_live_ok; [apply Hb|change (index < 2 ^ max_order (shape b)); lia| |done]. intros y.
    change (is_Some (live_block (carve (shape b) (pool b) h found index order value) y) ↔ if decide (y = index) then true = true else live b y).
    rewrite (Hl' y). by destruct (decide (y = index)).
  - destruct (co_locked _ Hb) as [Hsz Hlk]. split; [done|]. intros x Hx%Hlk.
    change (is_Some (live_block (carve (shape b) (pool b) h found index order value) x)). rewrite Hl'. by destruct (decide (x = index)).
Qed.

(** ** Releasing blocks *)

(** What freeing the blocks [gone] does to the rest of the allocator. *)
Record after (b b' : Buddy) (gone : N → bool) : Prop := {
  af_shape : shape b' = shape b;
  af_live : ∀ x, live_block (pool b') x = if gone x then None else live_block (pool b) x;
  af_incarnations : p_incarnations (pool b') = p_incarnations (pool b);
  af_locked : ∀ x, bits_get (locked b') x = bits_get (locked b) x && negb (gone x);
  af_committed : i_committed (image b') = i_committed (image b);
  af_capture : i_capture (image b') = i_capture (image b);
  af_uncommitted : i_uncommitted (image b') = i_uncommitted (image b);
  af_capturing : i_capturing (image b') = i_capturing (image b);
  af_imaged : i_imaged (image b') = i_imaged (image b)
}.
Lemma after_refl b : after b b (λ _, false).
Proof. split; try done. intros x. by rewrite andb_true_r. Qed.
Lemma after_trans b1 b2 b3 g1 g2 : after b1 b2 g1 → after b2 b3 g2 → after b1 b3 (λ x, g1 x || g2 x).
Proof.
  intros [] []. split; try congruence.
  - intros x. rewrite af_live1, af_live0. by destruct (g1 x), (g2 x).
  - intros x. rewrite af_locked1, af_locked0. by destruct (g1 x), (g2 x), (bits_get (locked b1) x).
Qed.
Lemma after_ext b b' g g' : (∀ x, g x = g' x) → after b b' g → after b b' g'.
Proof. intros E []. split; try done; intros x; by rewrite <- E. Qed.

Lemma block_release_ok b x o :
  core_ok b → live_block (pool b) x = Some o → bits_get (i_deferred (image b)) x = false →
  let '(b', was_locked) := release b x o in
  core_ok b' ∧ after b b' (λ y, y =? x) ∧ was_locked = bits_get (locked b) x ∧ i_deferred (image b') = i_deferred (image b)
  ∧ i_deferring (image b') = i_deferring (image b).
Proof.
  intros Hb Hx Hd. destruct (coalesce_free_ok (shape b) (pool b) x o (co_pool _ Hb) Hx) as (Hp'&Hl'&Hi').
  assert (x < 2 ^ max_order (shape b)) as Hlt by (apply live_in; [done|by exists o]). pose proof (locked_in b x Hb Hlt) as Hcap.
  assert (∀ y, (if y =? x then None else live_block (pool b) y) = live_block (coalesce_free (shape b) (pool b) x o) y) as Hl.
  { intros y. rewrite Hl'. destruct (N.eqb_spec y x); [by rewrite decide_True|by rewrite decide_False]. }
  set (i' := keep_live (image b) x false).
  assert (image_ok (2 ^ max_order (shape b)) (words_for (2 ^ max_order (shape b))) (words_for (N.of_nat (words_for (2 ^ max_order (shape b)))))
    i' (λ y, is_Some (live_block (coalesce_free (shape b) (pool b) x o) y))) as Him.
  { eapply keep_live_ok; [apply Hb|done| |done]. intros y. rewrite Hl'. case_decide; [|done]. split; [by intros []|done]. }
  destruct (co_locked _ Hb) as [Hsz Hlk].
  assert (∀ lk n, sized (words_for (2 ^ max_order (shape b))) lk → (∀ y, bits_get lk y = bits_get (locked b) y && negb (y =? x)) →
    let b' := mkBuddy (shape b) (coalesce_free (shape b) (pool b) x o) i' lk n in
    core_ok b' ∧ after b b' (λ y, y =? x) ∧ i_deferred i' = i_deferred (image b) ∧ i_deferring i' = i_deferring (image b)) as Hall.
  { intros lk n Hsz' E. cbn zeta. split_and!; [split; [done..|]|split; try done|..]; try by (unfold i', keep_live; destruct (i_imaged (image b)) eqn:Eim; cbn; rewrite ?Eim).
    split; [done|]. intros y. unfold live. cbn [pool locked]. rewrite E, <- Hl, andb_true_iff, negb_true_iff. intros [Hy%Hlk ->]. done. }
  unfold release, unmark_locked. change (locked (b <| image ::= _ |>)) with (locked b).
  destruct (bits_get (locked b) x) eqn:Ex; cbn [negb].
  - destruct (Hall (bits_set (locked b) x false) (sat_sub (locked_bytes b) (order_bytes (shape b) o))) as (?&?&?&?); [auto with slates| |by split_and!].
    intros y. rewrite bits_get_set by done. destruct (N.eqb_spec y x) as [->|]; [by rewrite decide_True, andb_false_r|].
    rewrite decide_False by done. by rewrite andb_true_r.
  - destruct (Hall (locked b) (locked_bytes b)) as (?&?&?&?); [done| |by split_and!].
    intros y. destruct (N.eqb_spec y x) as [->|]; [by rewrite Ex|by rewrite andb_true_r].
Qed.
