(* ===== verification/BuddySettle.v ===== *)
(** * Settling a capture

    The commit and the abandoning of a capture in [crates/mem/src/buddy.rs]:
    the walks over the words with deferred blocks release exactly the deferred
    blocks that no image left can name, tell each once, and keep the
    allocator's invariant.  Then trims, which keep a block's first bytes. *)

From S2P Require Import Prelude BuddyBits Buddy BuddyTile BuddyPool BuddyImage BuddyCore.
#[local] Open Scope N_scope.

(** What [released] is told of a block. *)
Definition told (b : Buddy) (x : N) : N * N * bool :=
  (N.shiftl x (granule_shift (shape b)), order_bytes (shape b) (default 0 (live_block (pool b) x)), bits_get (locked b) x).
Lemma told_after b b' gone x : after b b' gone → gone x = false → told b' x = told b x.
Proof. intros [] Hx. unfold told. rewrite af_shape, af_live, af_locked, Hx, andb_true_r. done. Qed.

(** The order a live block's state byte holds. *)
Lemma live_order p x o : live_block p x = Some o → order_of_byte (state_at p x) = o.
Proof. intros (_&?&_)%live_block_some%cell_some. done. Qed.

(** A release step: the block at a bit goes back to the free lists and is told. *)
Definition releases (rel : N → Buddy * list (N * N * bool) → N → Buddy * list (N * N * bool)) : Prop :=
  ∀ word b out bit, bit < 64 → core_ok b → live b (word * 64 + bit) → bits_get (i_deferred (image b)) (word * 64 + bit) = false →
  ∃ b', rel word (b, out) bit = (b', out ++ [told b (word * 64 + bit)])
    ∧ core_ok b' ∧ after b b' (λ y, y =? word * 64 + bit) ∧ i_deferred (image b') = i_deferred (image b).

Lemma index_of_live b word bit : core_ok b → live b (word * 64 + bit) → bit_index_of word bit = Some (word * 64 + bit).
Proof. intros Hb Hx%(live_u32 b _ Hb). unfold bit_index_of, WORD_BITS. by rewrite (proj2 (N.leb_le _ _)). Qed.

Lemma release_bit_releases : releases release_bit.
Proof.
  intros word b out bit Hbit Hb Hx Hd. unfold release_bit. rewrite (index_of_live b) by done. set (x := word * 64 + bit) in *.
  destruct Hx as [o Ho]. rewrite (live_order _ _ _ Ho). pose proof (block_release_ok b x o Hb Ho Hd) as H. destruct (release b x o) as [b' lk].
  destruct H as (Hb'&Haf&->&Hdef&_). exists b'. split_and!; try done. unfold told. by rewrite Ho, (af_shape _ _ _ Haf).
Qed.
Lemma core_bytes b n : core_ok b → core_ok (b <| image ::= λ i, i <| i_deferred_bytes ::= n |> |>).
Proof. intros [Hp [] Hl]. split; [done| |done]. by split. Qed.
Lemma abandon_bit_releases : releases abandon_bit.
Proof.
  intros word b out bit Hbit Hb Hx Hd. unfold abandon_bit. rewrite (index_of_live b) by done. set (x := word * 64 + bit) in *.
  set (b1 := b <| image ::= _ |>). destruct (release_bit_releases word b1 out bit) as (b'&->&Hb'&Haf&Hdef); [done|by apply core_bytes|done..|].
  exists b'. split_and!; try done. fold x in Haf. destruct Haf. by split.
Qed.

(** The blocks of a word, released bit by bit. *)
Lemma release_bits rel word bits b out :
  releases rel → NoDup bits → core_ok b →
  (∀ bit, bit ∈ bits → bit < 64 ∧ live b (word * 64 + bit) ∧ bits_get (i_deferred (image b)) (word * 64 + bit) = false) →
  ∃ b', foldl (rel word) (b, out) bits = (b', out ++ map (λ bit, told b (word * 64 + bit)) bits) ∧ core_ok b'
    ∧ after b b' (λ x, bool_decide (x ∈ map (λ bit, word * 64 + bit) bits)) ∧ i_deferred (image b') = i_deferred (image b).
Proof.
  intros Hrel. revert b out. induction bits as [|bit bits IH]; intros b out Hnd Hb Hbits.
  { exists b. rewrite app_nil_r. split_and!; try done. apply (after_ext _ _ (λ _, false)); [|apply after_refl].
    intros x. symmetry. apply bool_decide_eq_false_2, not_elem_of_nil. }
  apply NoDup_cons in Hnd as [Hnew Hnd]. destruct (Hbits bit) as (H1&H2&H3); [by left|].
  destruct (Hrel word b out bit H1 Hb H2 H3) as (b1&E1&Hb1&Haf1&Hd1). cbn [foldl map]. rewrite E1.
  assert (∀ bit', bit' ∈ bits → (word * 64 + bit' =? word * 64 + bit) = false) as Hne.
  { intros bit' Hbit'. apply N.eqb_neq. intros E. assert (bit' = bit) by lia. congruence. }
  destruct (IH b1 (out ++ [told b (word * 64 + bit)]) Hnd Hb1) as (b'&->&Hb'&Haf'&Hd').
  { intros bit' Hbit'. destruct (Hbits bit') as (?&?&?); [by right|]. rewrite Hd1. split_and!; try done.
    unfold live. rewrite (af_live _ _ _ Haf1), Hne by done. done. }
  exists b'. split_and!; [|done| |congruence].
  - rewrite <- app_assoc. cbn [app]. do 3 f_equal. apply map_ext_in. intros bit' Hbit'%list_elem_of_In. apply (told_after b b1 _ _ Haf1). auto.
  - eapply after_ext; [|by eapply after_trans]. intros x. cbn beta.
    destruct (N.eqb_spec x (word * 64 + bit)) as [->|Hx].
    + cbn [orb]. symmetry. apply bool_decide_eq_true_2. by left.
    + cbn [orb]. apply bool_decide_ext. rewrite elem_of_cons. tauto.
Qed.

(** A word's deferred blocks settled: those [keep] names stay deferred, the others are released. *)
Definition settle_step (rel : N → Buddy * list (N * N * bool) → N → Buddy * list (N * N * bool)) (keep : list N)
    (st : Buddy * list (N * N * bool)) (word : N) : Buddy * list (N * N * bool) :=
  let '(b, out) := st in
  let kept := default 0 (word_at keep word) in
  let deferred := default 0 (word_at (i_deferred (image b)) word) in
  foldl (rel word) (b <| image ::= λ i, settle_word i word deferred kept |>, out) (bits_of (N.ldiff deferred kept)).

(** The blocks of the words [ws] settling releases. *)
Definition dropped (b : Buddy) (keep : list N) (ws : list N) (x : N) : Prop :=
  x / 64 ∈ ws ∧ bits_get (i_deferred (image b)) x = true ∧ bits_get keep x = false.
Record settles (b b' : Buddy) (keep ws xs : list N) : Prop := {
  se_core : core_ok b';
  se_after : after b b' (λ x, bool_decide (x ∈ xs));
  se_nodup : NoDup xs;
  se_dropped : ∀ x, x ∈ xs ↔ dropped b keep ws x;
  se_deferred : ∀ x, bits_get (i_deferred (image b')) x = bits_get (i_deferred (image b)) x && negb (bool_decide (x ∈ xs))
}.

Lemma settle_step_ok rel keep b out word :
  releases rel → core_ok b →
  ∃ b' xs, settle_step rel keep (b, out) word = (b', out ++ map (told b) xs) ∧ settles b b' keep [word] xs.
Proof.
  intros Hrel Hb. cbn [settle_step]. set (k := default 0 (word_at keep word)). set (d := default 0 (word_at (i_deferred (image b)) word)).
  destruct (settle_word_ok _ _ _ _ _ word k (co_image _ Hb)) as (Hi&Hdef&El&Ec&Ek&Eu&Eg&Em). fold d in Hi, Hdef, El, Ec, Ek, Eu, Eg, Em.
  set (b1 := b <| image ::= λ i, settle_word i word d k |>). assert (core_ok b1) as Hb1 by (split; apply Hb || exact Hi).
  assert (is_word (N.ldiff d k)) as Hw by (apply is_word_ldiff, is_word_default; apply (im_bits _ _ _ _ _ (co_image _ Hb))).
  destruct (bits_of_spec _ Hw) as [Hnd Hin].
  assert (∀ x, x / 64 = word → N.testbit (N.ldiff d k) (x mod 64) = bits_get (i_deferred (image b)) x && negb (bits_get keep x)) as Hbit.
  { intros x Ex. unfold d, k. by rewrite N.ldiff_spec, !bits_get_default. }
  assert (∀ bit, bit < 64 → (word * 64 + bit) / 64 = word ∧ (word * 64 + bit) mod 64 = bit) as Hdm.
  { intros bit Hlt. rewrite N.add_comm, N.div_add, N.Div0.mod_add, N.div_small, N.mod_small by lia. done. }
  assert (∀ x, x ∈ map (λ bit, word * 64 + bit) (bits_of (N.ldiff d k)) ↔ dropped b keep [word] x) as Hdrop.
  { intros x. unfold dropped. rewrite list_elem_of_fmap. setoid_rewrite Hin. rewrite list_elem_of_singleton. split.
    - intros (bit&->&Hbt). destruct (Hdm bit (Hw _ Hbt)) as [Ex Em']. split; [done|]. specialize (Hbit _ Ex). rewrite Em', Hbt in Hbit. symmetry in Hbit. apply andb_true_iff in Hbit as [? ?%negb_true_iff]. done.
    - intros (Ex&Hx1&Hx2). exists (x mod 64). split; [pose proof (N.div_mod' x 64); lia|]. by rewrite Hbit, Hx1, Hx2. }
  destruct (release_bits rel word (bits_of (N.ldiff d k)) b1 out Hrel Hnd Hb1) as (b'&->&Hb'&Haf&Hd').
  { intros bit Hbt. pose proof (proj1 (Hin bit) Hbt) as Htb. destruct (Hdm bit (Hw _ Htb)) as [Ex Emod].
    assert (dropped b keep [word] (word * 64 + bit)) as (_&Hx1&Hx2) by (apply Hdrop, list_elem_of_fmap; eauto).
    split_and!; [by apply Hw|by apply (im_deferred _ _ _ _ _ (co_image _ Hb))|]. change (image b1) with (settle_word (image b) word d k).
    rewrite Hdef, Ex, Emod, N.eqb_refl. cbn [negb]. rewrite orb_false_r. unfold k. rewrite <- Emod, bits_get_default, Hx2 by done. apply andb_false_r. }
  exists b', (map (λ bit, word * 64 + bit) (bits_of (N.ldiff d k))). split.
  { do 2 f_equal. rewrite map_map. done. }
  split; [done| | |done|].
  - apply (after_ext b b' (λ x, false || bool_decide (x ∈ map (λ bit, word * 64 + bit) (bits_of (N.ldiff d k))))); [done|].
    apply (after_trans b b1 b'); [|exact Haf]. split; [reflexivity|reflexivity|reflexivity| |exact Ec|exact Ek|exact Eu|exact Eg|exact Em].
    intros x. by rewrite andb_true_r.
  - apply NoDup_fmap_2; [|done]. intros ? ?. lia.
  - intros x. rewrite Hd'. change (image b1) with (settle_word (image b) word d k). rewrite Hdef.
    destruct (bits_get (i_deferred (image b)) x) eqn:Ex; [|done]. cbn [andb].
    destruct (N.eqb_spec (x / 64) word) as [Ew|Ew]; cbn [negb].
    + rewrite orb_false_r. unfold k. rewrite bits_get_default by done. destruct (bits_get keep x) eqn:Ek'; symmetry.
      * apply negb_true_iff, bool_decide_eq_false. intros (_&_&?)%Hdrop. congruence.
      * apply negb_false_iff, bool_decide_eq_true. apply Hdrop. split_and!; [by apply list_elem_of_singleton|done..].
    + rewrite orb_true_r. symmetry. apply negb_true_iff, bool_decide_eq_false. intros (H%list_elem_of_singleton&_)%Hdrop. done.
Qed.

(** ** Whole walks *)
Lemma settles_refl b keep : core_ok b → settles b b keep [] [].
Proof.
  intros Hb. split; [done| |apply NoDup_nil_2| |].
  - eapply after_ext; [|apply after_refl]. intros x. symmetry. by apply bool_decide_eq_false_2, not_elem_of_nil.
  - intros x. unfold dropped. split; [by intros ?%elem_of_nil|]. by intros (?%elem_of_nil&_).
  - intros x. by rewrite (bool_decide_eq_false_2 _ (not_elem_of_nil x)), andb_true_r.
Qed.
Lemma settles_trans b1 b2 b3 keep w ws xs ys :
  settles b1 b2 keep [w] xs → settles b2 b3 keep ws ys → settles b1 b3 keep (w :: ws) (xs ++ ys).
Proof.
  intros [Hc1 Ha1 Hn1 Hd1 Hf1] [Hc2 Ha2 Hn2 Hd2 Hf2].
  assert (∀ x, bool_decide (x ∈ xs ++ ys) = bool_decide (x ∈ xs) || bool_decide (x ∈ ys)) as Happ.
  { intros x. destruct (decide (x ∈ xs ++ ys)) as [H|H].
    - rewrite (bool_decide_eq_true_2 _ H). apply elem_of_app in H as [H|H]; by rewrite (bool_decide_eq_true_2 _ H), ?orb_true_r.
    - rewrite (bool_decide_eq_false_2 _ H). rewrite elem_of_app in H. by rewrite !bool_decide_eq_false_2 by tauto. }
  assert (∀ x, x ∈ ys → x ∉ xs) as Hdis.
  { intros x (_&Hx&_)%Hd2 H. by rewrite Hf1, (bool_decide_eq_true_2 _ H), andb_false_r in Hx. }
  split; [done| | | |].
  - eapply after_ext; [|by eapply after_trans]. done.
  - apply NoDup_app. split_and!; [done| |done]. intros x H1 H2. by apply (Hdis x).
  - intros x. rewrite elem_of_app, Hd1, Hd2. unfold dropped. rewrite Hf1, !elem_of_cons, elem_of_nil, andb_true_iff.
    destruct (decide (x ∈ xs)) as [H|H].
    + rewrite (bool_decide_eq_true_2 _ H). apply Hd1 in H as (H%list_elem_of_singleton&?&?). tauto.
    + rewrite (bool_decide_eq_false_2 _ H). rewrite Hd1 in H. unfold dropped in H. rewrite list_elem_of_singleton in H. cbn [negb]. tauto.
  - intros x. rewrite Hf2, Hf1, Happ, negb_orb. by rewrite andb_assoc.
Qed.

(** A walk whose steps settle words against the bitmap [kf], which settling does not change. *)
Lemma settle_walk rel (kf : Buddy → list N) (stepf : Buddy * list (N * N * bool) → N → Buddy * list (N * N * bool)) ws b out :
  releases rel → (∀ b b' gone, after b b' gone → kf b' = kf b) →
  (∀ b out w, stepf (b, out) w = settle_step rel (kf b) (b, out) w) → core_ok b →
  ∃ b' xs, foldl stepf (b, out) ws = (b', out ++ map (told b) xs) ∧ settles b b' (kf b) ws xs.
Proof.
  intros Hrel Hkf Hstep. revert b out. induction ws as [|w ws IH]; intros b out Hb.
  { exists b, []. cbn. rewrite app_nil_r. split; [done|by apply settles_refl]. }
  cbn [foldl]. rewrite Hstep. destruct (settle_step_ok rel (kf b) b out w Hrel Hb) as (b1&xs&->&Hs1).
  destruct (IH b1 (out ++ map (told b) xs) (se_core _ _ _ _ _ Hs1)) as (b'&ys&->&Hs2).
  rewrite (Hkf b b1 _ (se_after _ _ _ _ _ Hs1)) in Hs2.
  exists b', (xs ++ ys). split; [|by eapply settles_trans]. rewrite map_app, app_assoc. do 2 f_equal. apply map_ext_in. intros x Hx%list_elem_of_In.
  apply (told_after b b1 _ x (se_after _ _ _ _ _ Hs1)). apply bool_decide_eq_false_2. intros H.
  apply (se_dropped _ _ _ _ _ Hs2) in Hx as (_&Hx&_). by rewrite (se_deferred _ _ _ _ _ Hs1), (bool_decide_eq_true_2 _ H), andb_false_r in Hx.
Qed.

(** Every deferred block lies in a word the walk visits. *)
Lemma dropped_all b keep x :
  core_ok b → dropped b keep (words_of (i_deferring (image b))) x ↔ bits_get (i_deferred (image b)) x = true ∧ bits_get keep x = false.
Proof.
  intros Hb. unfold dropped. split; [tauto|]. intros [Hx Hk]. split_and!; try done.
  apply words_of_spec; [apply (im_sets _ _ _ _ _ (co_image _ Hb))|]. by apply (im_deferring _ _ _ _ _ (co_image _ Hb)).
Qed.

Lemma core_settling b : core_ok b → core_ok (b <| image ::= λ i, i <| i_capturing := false |> |>).
Proof. intros [Hp [] Hl]. split; [done| |done]. split; try done. cbn -[bits_get]. intros H. split; [done|]. by apply im_fresh. Qed.

(** What settling a capture against the bitmap [keep] does. *)
Record settled (b b' : Buddy) (keep : N → bool) (out : list (N * N * bool)) : Prop := {
  sd_core : core_ok b';
  sd_shape : shape b' = shape b;
  sd_live : ∀ x, live_block (pool b') x =
    if bits_get (i_deferred (image b)) x && negb (keep x) then None else live_block (pool b) x;
  sd_deferred : ∀ x, bits_get (i_deferred (image b')) x = bits_get (i_deferred (image b)) x && keep x;
  sd_incarnations : p_incarnations (pool b') = p_incarnations (pool b);
  sd_locked : ∀ x, bits_get (locked b') x = bits_get (locked b) x && negb (bits_get (i_deferred (image b)) x && negb (keep x));
  sd_capturing : i_capturing (image b') = false;
  sd_imaged : i_imaged (image b') = i_imaged (image b);
  sd_told : ∃ xs, out = map (told b) xs ∧ NoDup xs ∧ ∀ x, x ∈ xs ↔ bits_get (i_deferred (image b)) x = true ∧ keep x = false
}.
Lemma settles_settled b b' keep xs :
  core_ok b → settles (b <| image ::= λ i, i <| i_capturing := false |> |>) b' keep (words_of (i_deferring (image b))) xs →
  settled b b' (bits_get keep) (map (told b) xs).
Proof.
  intros Hb [Hc Ha Hn Hd Hf]. pose proof (core_settling b Hb) as Hb0.
  assert (∀ x, x ∈ xs ↔ bits_get (i_deferred (image b)) x = true ∧ bits_get keep x = false) as Hx.
  { intros x. rewrite Hd. exact (dropped_all _ keep x Hb0). }
  assert (∀ x, bool_decide (x ∈ xs) = bits_get (i_deferred (image b)) x && negb (bits_get keep x)) as Hbd.
  { intros x. destruct (decide (x ∈ xs)) as [H|H].
    - rewrite (bool_decide_eq_true_2 _ H). apply Hx in H as [-> ->]. done.
    - rewrite (bool_decide_eq_false_2 _ H). destruct (bits_get (i_deferred (image b)) x) eqn:E1, (bits_get keep x) eqn:E2; try done. exfalso. apply H, Hx. done. }
  destruct Ha. split; try done.
  - intros x. rewrite af_live, Hbd. done.
  - intros x. rewrite Hf, Hbd. cbn -[bits_get]. by destruct (bits_get (i_deferred (image b)) x), (bits_get keep x).
  - intros x. rewrite af_locked, Hbd. done.
  - eauto.
Qed.

Lemma abandon_ok b :
  core_ok b → i_capturing (image b) = true →
  let '(b', out) := abandon_capture_releasing b in
  settled b b' (bits_get (i_committed (image b))) out ∧ i_committed (image b') = i_committed (image b).
Proof.
  intros Hb Hcap. unfold abandon_capture_releasing. rewrite Hcap. cbn [negb]. set (b0 := b <| image ::= _ |>).
  destruct (settle_walk abandon_bit (λ b, i_committed (image b)) abandon_word (words_of (i_deferring (image b0))) b0 []) as (b'&xs&->&Hs);
    [apply abandon_bit_releases|by intros ??? []|done|by apply core_settling|].
  cbn [app]. split; [exact (settles_settled b b' (i_committed (image b)) xs Hb Hs)|]. apply (se_after _ _ _ _ _ Hs).
Qed.

(** A commit's walk also counts the bytes that stay deferred. *)
Lemma commit_walk ws b out n :
  ∃ n', foldl commit_deferred_word (b, out, n) ws =
    (foldl (λ st w, settle_step release_bit (i_capture (image st.1)) st w) (b, out) ws, n').
Proof.
  revert b out n. induction ws as [|w ws IH]; intros b out n; [by exists n|]. cbn [foldl].
  unfold commit_deferred_word at 2. cbn [settle_step fst].
  set (st := foldl (release_bit w) _ _). destruct st as [b1 out1]. apply IH.
Qed.
Lemma commit_ok b :
  core_ok b → i_capturing (image b) = true → i_imaged (image b) = true →
  let '(b', out) := commit_capture_releasing b in
  settled b b' (bits_get (i_capture (image b))) out ∧ ∀ x, bits_get (i_committed (image b')) x = bits_get (i_capture (image b)) x.
Proof.
  intros Hb Hcap Him. unfold commit_capture_releasing. rewrite Hcap. cbn [negb]. set (b0 := b <| image ::= _ |>).
  destruct (commit_walk (words_of (i_deferring (image b0))) b0 [] 0) as [n ->].
  destruct (settle_walk release_bit (λ b, i_capture (image b)) (λ st w, settle_step release_bit (i_capture (image st.1)) st w)
    (words_of (i_deferring (image b0))) b0 []) as (b1&xs&->&Hs);
    [apply release_bit_releases|by intros ??? []|done|by apply core_settling|].
  cbn [app]. pose proof (settles_settled b b1 (i_capture (image b)) xs Hb Hs) as Hsd. pose proof (se_after _ _ _ _ _ Hs) as Ha.
  set (i1 := image b1 <| i_deferred_bytes := n |>).
  assert (i_imaged i1 = true) as Him1 by (change (i_imaged (image b1) = true); by rewrite (af_imaged _ _ _ Ha)).
  pose proof (co_image _ (core_bytes b1 (λ _, n) (sd_core _ _ _ _ Hsd))) as Hi1.
  destruct (commit_uncommitted_ok _ _ _ i1 _ Hi1 Him1) as (c&E&Hok&Hc).
  assert (∀ x, bits_get c x = bits_get (i_capture (image b)) x) as Hcap'.
  { intros x. rewrite Hc. change (i_capture i1) with (i_capture (image b1)). by rewrite (af_capture _ _ _ Ha). }
  set (b' := b1 <| image := commit_uncommitted i1 |>). change (settled b b' (bits_get (i_capture (image b))) (map (told b) xs)
    ∧ ∀ x, bits_get (i_committed (image b')) x = bits_get (i_capture (image b)) x).
  split; [|intros x; unfold b'; cbn [image setter set_image]; rewrite E; apply Hcap'].
  destruct Hsd. unfold b'. rewrite E. split; try done. split; try apply sd_core0. rewrite E in Hok. exact Hok.
Qed.

(** ** Captures *)
Lemma first_capture_same p i :
  i_deferred (first_capture p i) = i_deferred i ∧ i_committed (first_capture p i) = i_committed i.
Proof. unfold first_capture. by destruct (i_imaged i). Qed.
Lemma capture_ok b :
  core_ok b →
  let b' := capture b in
  core_ok b' ∧ shape b' = shape b ∧ pool b' = pool b ∧ locked b' = locked b ∧ i_deferred (image b') = i_deferred (image b)
  ∧ i_committed (image b') = i_committed (image b) ∧ i_capturing (image b') = true ∧ i_imaged (image b') = true
  ∧ ∀ x, bits_get (i_capture (image b')) x = bool_decide (live b x) && negb (bits_get (i_deferred (image b)) x).
Proof.
  intros Hb. cbn zeta. pose proof (co_pool _ Hb) as Hp. pose proof (pool_granules _ _ Hp) as Hlen.
  destruct (first_capture_ok _ _ _ (pool b) (image b) (live b) (co_image _ Hb)) as [Hi1 Him]; [lia| |].
  { intros x. unfold live. split.
    - intros [o Ho]. pose proof (live_bound _ _ Hp x o Ho) as (_&_&_&Hx). apply live_block_some in Ho. unfold cells in Ho. apply cell_some in Ho. rewrite Hlen. naive_solver.
    - intros (H1&H2&H3). exists (order_of_byte (state_at (pool b) x)). apply live_block_some. unfold cells. by apply cell_some. }
  destruct (first_capture_same (pool b) (image b)) as [Ed Ec]. set (i1 := first_capture (pool b) (image b)) in *.
  destruct (capture_walk_ok _ _ _ i1 (live b) Hi1 Him) as (Hi'&Hcap&_&Ed'&Ec'&Ecap&Eim).
  split_and!; try done.
  - split; [done|exact Hi'|apply Hb].
  - rewrite <- Ed. exact Ed'.
  - rewrite <- Ec. exact Ec'.
  - intros x. etransitivity; [apply Hcap|]. rewrite Ed. f_equal. pose proof (im_live _ _ _ _ _ Hi1 Him x) as Hl.
    destruct (decide (live b x)) as [H|H]; [rewrite bool_decide_eq_true_2 by done; by apply Hl|]. rewrite bool_decide_eq_false_2 by done.
    destruct (bits_get (i_live i1) x) eqn:E; [|done]. exfalso. apply H, Hl. done.
Qed.

(** * Trimming a block

    [Buddy::trim] of [crates/mem/src/buddy.rs]: a live block replaced by the
    blocks of its kept prefix, the rest of it freed, with the pool's invariant
    kept. *)

#[local] Open Scope N_scope.

(** ** Blocks laid end to end *)
Fixpoint laid (at_ : N) (bs : list (N * N)) (end_ : N) : Prop :=
  match bs with
  | [] => at_ = end_
  | (x, o) :: bs => x = at_ ∧ (2 ^ o | x) ∧ laid (x + 2 ^ o) bs end_
  end.
Fixpoint piece_at (bs : list (N * N)) (y : N) : option N :=
  match bs with [] => None | (x, o) :: bs => if decide (y = x) then Some o else piece_at bs y end.

Lemma laid_le at_ bs e : laid at_ bs e → at_ ≤ e.
Proof. revert at_. induction bs as [|[x o] bs IH]; intros at_; [by intros ->|]. intros (->&_&H%IH). pose proof (pow_pos o). lia. Qed.
Lemma laid_app at_ bs1 m bs2 e : laid at_ bs1 m → laid m bs2 e → laid at_ (bs1 ++ bs2) e.
Proof. revert at_. induction bs1 as [|[x o] bs1 IH]; intros at_; [by intros ->|]. intros (->&H1&H2) H3. cbn. auto. Qed.
Lemma piece_at_laid at_ bs e y k : laid at_ bs e → piece_at bs y = Some k → (2 ^ k | y) ∧ at_ ≤ y ∧ y + 2 ^ k ≤ e.
Proof.
  revert at_. induction bs as [|[x o] bs IH]; intros at_; [done|]. intros (->&H1&H2). cbn [piece_at]. case_decide as E.
  - intros [= <-]. subst y. pose proof (laid_le _ _ _ H2). split_and!; done || lia.
  - intros H. destruct (IH _ H2 H) as (?&?&?). pose proof (pow_pos o). split_and!; done || lia.
Qed.
Lemma piece_apart at_ bs e y k y' k' :
  laid at_ bs e → piece_at bs y = Some k → piece_at bs y' = Some k' → y < y' → y + 2 ^ k ≤ y'.
Proof.
  revert at_. induction bs as [|[x o] bs IH]; intros at_; [done|]. intros (->&H1&H2). cbn [piece_at].
  destruct (decide (y = at_)) as [->|]; [intros [= <-]|]; (destruct (decide (y' = at_)) as [->|]; [intros|]).
  - lia.
  - intros (_&?&_)%(piece_at_laid _ _ _ _ _ H2). done.
  - apply (piece_at_laid _ _ _ _ _ H2) in H. pose proof (pow_pos o). lia.
  - intros Hy Hy'. by eapply IH.
Qed.
Lemma piece_cover at_ bs e i : laid at_ bs e → at_ ≤ i < e → ∃ y k, piece_at bs y = Some k ∧ y ≤ i < y + 2 ^ k.
Proof.
  revert at_. induction bs as [|[x o] bs IH]; intros at_; [intros -> ?; lia|]. intros (->&H1&H2) Hi. cbn [piece_at].
  destruct (decide (i < at_ + 2 ^ o)).
  - exists at_, o. rewrite decide_True by done. split; [done|lia].
  - destruct (IH _ H2 ltac:(lia)) as (y&k&Hy&Hin). exists y, k. pose proof (piece_at_laid _ _ _ _ _ H2 Hy). pose proof (pow_pos o).
    rewrite decide_False by lia. done.
Qed.
Lemma piece_at_head at_ x o bs e : laid at_ ((x, o) :: bs) e → piece_at ((x, o) :: bs) at_ = Some o.
Proof. intros (->&_). cbn. by rewrite decide_True. Qed.
Lemma piece_at_app bs1 bs2 y : piece_at (bs1 ++ bs2) y = match piece_at bs1 y with Some k => Some k | None => piece_at bs2 y end.
Proof. induction bs1 as [|[x o] bs1 IH]; [done|]. cbn. by case_decide. Qed.

Lemma piece_at_in bs e : In e bs → is_Some (piece_at bs e.1).
Proof. induction bs as [|[x o] bs IH]; [done|]. cbn. intros [<-|He]; [by rewrite decide_True|]. case_decide; [done|auto]. Qed.

(** ** A block of a tiling cut into live blocks *)
Definition refine (T : N → option (N * bool)) (bs : list (N * N)) : N → option (N * bool) := λ y,
  match piece_at bs y with Some k => Some (k, false) | None => T y end.

Section cut.
Context (M : N) (T : N → option (N * bool)) (h o : N) (bs : list (N * N)).
Context (HT : tiling M T) (Hh : T h = Some (o, false)) (Hl : laid h bs (h + 2 ^ o)).

Lemma cut_head : is_Some (piece_at bs h).
Proof using Hl.
  destruct bs as [|[x k] bs']; [cbn in Hl; pose proof (pow_pos o); lia|]. destruct Hl as (->&_). cbn. by rewrite decide_True.
Qed.
Lemma cut_old y k : piece_at bs y = Some k → y ≠ h → T y = None.
Proof using HT Hh Hl.
  intros Hy Hne. pose proof (piece_at_laid _ _ _ _ _ Hl Hy) as (_&?&?). pose proof (pow_pos k). apply (tile_inside M T h o false); [done..|lia].
Qed.
Lemma cut_free y k : refine T bs y = Some (k, true) ↔ T y = Some (k, true).
Proof using HT Hh Hl.
  unfold refine. destruct (piece_at bs y) as [j|] eqn:E; [|done]. split; [done|]. intros H.
  destruct (decide (y = h)) as [->|Hne]; [congruence|]. rewrite (cut_old y j E Hne) in H. done.
Qed.
(** A block of the cut tiling is a piece, or an old block outside the one cut. *)
Lemma cut_view y k f :
  refine T bs y = Some (k, f) → (piece_at bs y = Some k ∧ f = false) ∨ (T y = Some (k, f) ∧ (y + 2 ^ k ≤ h ∨ h + 2 ^ o ≤ y)).
Proof using HT Hh Hl.
  unfold refine. destruct (piece_at bs y) as [j|] eqn:E; [intros [= <- <-]; by left|]. intros Hy. right. split; [done|].
  destruct (N.lt_trichotomy y h) as [Hlt|[->|Hlt]].
  - left. by apply (t_apart _ _ HT _ _ _ _ _ _ Hy Hh).
  - destruct cut_head as [j Hj]. congruence.
  - right. by apply (t_apart _ _ HT _ _ _ _ _ _ Hh Hy).
Qed.
Lemma cut_tiling : tiling M (refine T bs).
Proof using HT Hh Hl.
  destruct (t_fit _ _ HT _ _ _ Hh) as (HoM&Hal&Hfit). pose proof (pow_pos o) as Hpo. split.
  - intros y k f [[Hy _]|[Hy _]]%cut_view; [|by apply (t_fit _ _ HT) in Hy].
    destruct (piece_at_laid _ _ _ _ _ Hl Hy) as (?&?&?). split_and!; [|done|lia].
    apply (N.pow_le_mono_r_iff 2); [lia|]. lia.
  - intros y k f y' k' f' [[Hy _]|[Hy Hd]]%cut_view [[Hy' _]|[Hy' Hd']]%cut_view Hlt.
    + by eapply piece_apart.
    + destruct (piece_at_laid _ _ _ _ _ Hl Hy) as (?&?&?). pose proof (pow_pos k). pose proof (pow_pos k'). lia.
    + destruct (piece_at_laid _ _ _ _ _ Hl Hy') as (?&?&?). pose proof (pow_pos k). pose proof (pow_pos k'). lia.
    + by apply (t_apart _ _ HT _ _ _ _ _ _ Hy Hy').
  - intros i Hi. destruct (decide (h ≤ i < h + 2 ^ o)) as [Hin|Hout].
    + destruct (piece_cover _ _ _ _ Hl Hin) as (y&k&Hy&Hy'). exists y, k, false. split; [|done]. unfold refine. by rewrite Hy.
    + destruct (t_cover _ _ HT i Hi) as (y&k&f&Hy&Hin). exists y, k, f. split; [|done]. unfold refine.
      destruct (piece_at bs y) as [j|] eqn:E; [|done]. exfalso. destruct (decide (y = h)) as [->|Hne].
      * rewrite Hh in Hy. injection Hy as <- <-. lia.
      * rewrite (cut_old y j E Hne) in Hy. done.
  - intros y k Hy%cut_free Hk Hb%cut_free. by apply (t_merged _ _ HT y k).
Qed.
Lemma cut_weight : free_weight M (refine T bs) = free_weight M T.
Proof using HT Hh Hl.
  unfold free_weight. generalize (N.to_nat (2 ^ M)). intros n. induction n as [|n IH]; [done|]. cbn [weight_below]. rewrite IH. f_equal.
  unfold refine. destruct (piece_at bs (N.of_nat n)) as [k|] eqn:E; [|done]. destruct (decide (N.of_nat n = h)) as [->|Hne]; [by rewrite Hh|].
  by rewrite (cut_old _ k E Hne).
Qed.
End cut.

(** ** The kept prefix *)
Lemma pieces_laid below at_ granules :
  (2 ^ N.of_nat below | at_) → at_ + 2 ^ N.of_nat below ≤ u32_max →
  laid at_ (pieces_of below at_ granules) (at_ + granules mod 2 ^ N.of_nat below).
Proof.
  revert at_. induction below as [|below IH]; intros at_ Hal Hfit; cbn [pieces_of].
  { cbn [laid]. change (2 ^ N.of_nat 0) with 1. rewrite N.mod_1_r. lia. }
  set (k := N.of_nat below) in *. replace (N.of_nat (S below)) with (k + 1) in * by lia. rewrite pow_succ in *. pose proof (pow_pos k) as Hpos.
  assert (2 ^ k | at_) as Hal' by (eapply (N.divide_trans _ (2 * 2 ^ k)); [by exists 2|done]).
  assert (granules mod (2 * 2 ^ k) = (if N.testbit granules k then 2 ^ k else 0) + granules mod 2 ^ k) as Emod.
  { rewrite (N.mul_comm 2), N.Div0.mod_mul_r.  pose proof (N.testbit_spec' granules k) as Hb.
    rewrite <- Hb. destruct (N.testbit granules k); cbn [N.b2n]; lia. }
  rewrite Emod. destruct (N.testbit granules k).
  - cbn [laid]. split_and!; [done|done|]. unfold sat_add_u32. rewrite N.min_l by lia. rewrite N.add_assoc. apply IH; [|lia].
    apply N.divide_add_r; [done|reflexivity].
  - apply IH; [done|lia].
Qed.

(** ** The rest *)
Lemma tz_divide n : 0 < n → (2 ^ trailing_zeros n | n).
Proof.
  destruct n as [|q]; [lia|]. intros _. cbn [trailing_zeros]. induction q as [q _|q IH|]; cbn [pos_trailing_zeros]; [apply N.divide_1_l| |apply N.divide_1_l].
  rewrite N.pow_add_r. change (N.pos q~0) with (2 ^ 1 * N.pos q). by apply N.mul_divide_mono_l.
Qed.
Lemma fit_order_ok turns at_ e :
  at_ < e → e < u32_max → fit_order turns at_ e (N.of_nat turns) ≤ N.of_nat turns ∧ at_ + 2 ^ fit_order turns at_ e (N.of_nat turns) ≤ e.
Proof.
  intros Hlt He. induction turns as [|turns IH]; cbn [fit_order]; [change (2 ^ N.of_nat 0) with 1; lia|].
  destruct (N.ltb_spec e (sat_add_u32 at_ (2 ^ N.of_nat (S turns)))) as [H|H].
  - unfold sat_sub. replace (N.of_nat (S turns) - 1) with (N.of_nat turns) by lia. lia.
  - unfold sat_add_u32 in H. lia.
Qed.
Fixpoint rest_of (turns : nat) (at_ e order : N) : list (N * N) :=
  match turns with
  | O => []
  | S turns =>
      if negb (at_ <? e) then [] else
      let start := N.min (trailing_zeros at_) order in
      let free_order := fit_order (N.to_nat start) at_ e start in
      (at_, free_order) :: rest_of turns (sat_add_u32 at_ (2 ^ free_order)) e order
  end.
Lemma free_rest_fold sh turns p at_ e order :
  free_rest sh turns p at_ e order = foldl (λ p b, coalesce_free sh p b.1 b.2) p (rest_of turns at_ e order).
Proof. revert p at_. induction turns as [|turns IH]; intros p at_; [done|]. cbn [free_rest rest_of]. destruct (negb _); [done|]. apply IH. Qed.
Lemma rest_laid turns at_ e order :
  0 < at_ ≤ e → e < u32_max → e ≤ at_ + N.of_nat turns → laid at_ (rest_of turns at_ e order) e.
Proof.
  revert at_. induction turns as [|turns IH]; intros at_ Hat He Ht; cbn [rest_of laid]; [lia|].
  destruct (N.ltb_spec at_ e) as [Hlt|Hge]; cbn [negb]; [|cbn [laid]; lia].
  set (start := N.min (trailing_zeros at_) order). pose proof (fit_order_ok (N.to_nat start) at_ e Hlt He) as [H1 H2]. rewrite N2Nat.id in H1, H2.
  set (k := fit_order _ _ _ _) in *. pose proof (pow_pos k). cbn [laid]. split_and!; [done| |].
  - apply (divide_mono k (trailing_zeros at_)); [unfold start in *; lia|apply tz_divide; lia].
  - replace (sat_add_u32 at_ (2 ^ k)) with (at_ + 2 ^ k) by (unfold sat_add_u32; lia). apply IH; lia.
Qed.

(** ** The pool, trimmed *)
Section trim.
Context (sh : Shape).
Implicit Types (p : Pool) (T : N → option (N * bool)).

(** Freeing the blocks put aside, one by one. *)
Lemma free_aside bs p T at_ e :
  shape_ok sh → region_ok (max_order sh) p T → laid at_ bs e →
  (∀ y, piece_at bs y = None → cells p y = T y) → (∀ y k, piece_at bs y = Some k → cells p y = None ∧ T y = Some (k, false)) →
  p_free_bytes p = free_weight (max_order sh) T * granule sh →
  let p' := foldl (λ p b, coalesce_free sh p b.1 b.2) p bs in
  pool_ok sh p' ∧ (∀ y, live_block p' y = match piece_at bs y with Some _ => None | None => live_at T y end) ∧ p_incarnations p' = p_incarnations p.
Proof.
  intros Hs. cbn zeta. revert p T at_. induction bs as [|[x o] bs IH]; intros p T at_ Hr Hl Hc Ha Hf; cbn [foldl fst snd].
  { assert (∀ y, cells p y = T y) as HE by auto. split_and!; [split; [done| |]| |done].
    - apply (region_ext _ _ T); [done|eapply tiling_ext; [done|apply Hr]|done].
    - by rewrite (free_weight_ext _ _ _ HE).
    - intros y. unfold live_block, live_at. by rewrite HE. }
  pose proof (piece_at_head _ _ _ _ _ Hl) as Hhd. destruct Hl as (->&Hal&Hl). destruct (Ha at_ o Hhd) as [Hc0 HT0].
  assert (piece_at bs at_ = None) as Hnot.
  { destruct (piece_at bs at_) eqn:E; [|done]. apply (piece_at_laid _ _ _ _ _ Hl) in E. pose proof (pow_pos o). lia. }
  assert (in_hand p T (λ y, is_Some (piece_at bs y)) at_) as Hhand.
  { split_and!; [by rewrite Hnot; intros [? [=]]| |].
    - intros y Hy Hn. apply Hc. cbn. rewrite decide_False by done. destruct (piece_at bs y) eqn:E; [|done]. exfalso. apply Hn. by eexists.
    - intros y [k Hk]. destruct (Ha y k) as [? ?]; [|by eauto]. cbn. rewrite decide_False; [done|]. congruence. }
  destruct (coalesce_free_hand sh p T _ at_ o Hs Hr HT0 Hhand Hf) as (T'&Hr'&Hc'&Ha'&Hf'&Hl'&Hi').
  destruct (IH _ T' _ Hr' Hl) as (Hp&Hlv&Hin); [| |done|].
  - intros y Hy. apply Hc'. rewrite Hy. by intros [? [=]].
  - intros y k Hy. destruct (Ha' y ltac:(by eexists)) as [E1 [k' E2]]. split; [done|]. rewrite E2. do 2 f_equal.
    assert (live_at T' y = Some k) as E3; [|apply live_at_some in E3; congruence]. rewrite Hl'. unfold live_at. rewrite put_ne by congruence.
    destruct (Ha y k) as [_ ->]; [|done]. cbn. rewrite decide_False; [done|congruence].
  - split_and!; [done| |congruence]. intros y. rewrite Hlv, Hl'. cbn [piece_at]. unfold live_at, put.
    destruct (decide (y = at_)) as [->|]; [by rewrite Hnot|done].
Qed.

(** The pieces marked. *)
Definition mark_pieces p (bs : list (N * N)) : Pool := foldl (λ p b, mark p b.1 b.2 false) p bs.
Lemma mark_pieces_cells bs p at_ e :
  laid at_ bs e → e ≤ len (p_state p) → (∀ y k, piece_at bs y = Some k → k ≤ 63) →
  ∀ y, cells (mark_pieces p bs) y = refine (cells p) bs y.
Proof.
  revert p at_. induction bs as [|[x o] bs IH]; intros p at_ Hl He Hk y; [done|]. cbn [mark_pieces foldl fst snd].
  pose proof (piece_at_head _ _ _ _ _ Hl) as Hhd. destruct Hl as (->&_&Hl). pose proof (laid_le _ _ _ Hl). pose proof (pow_pos o).
  assert (∀ y k, piece_at bs y = Some k → y ≠ at_) as Hne by (intros z k Hz%(piece_at_laid _ _ _ _ _ Hl); lia).
  assert (len (p_state (mark p at_ o false)) = len (p_state p)) as El by (unfold len, mark, set_state; cbn; by rewrite length_insert).
  fold (mark_pieces (mark p at_ o false) bs). rewrite (IH _ _ Hl).
  - unfold refine. cbn [piece_at]. destruct (piece_at bs y) as [k|] eqn:Ey; [by rewrite decide_False by eauto|].
    rewrite cells_mark; [|lia|by apply (Hk at_)]. unfold put. by case_decide.
  - by rewrite El.
  - intros z k Hz. apply (Hk z). cbn. rewrite decide_False by eauto. done.
Qed.
Lemma mark_pieces_rest bs p :
  same_rest p (mark_pieces p bs) ∧ p_next (mark_pieces p bs) = p_next p ∧ p_prev (mark_pieces p bs) = p_prev p ∧ p_heads (mark_pieces p bs) = p_heads p.
Proof.
  revert p. induction bs as [|[x o] bs IH]; intros p; [done|]. cbn [mark_pieces foldl fst snd]. fold (mark_pieces (mark p x o false) bs).
  destruct (IH (mark p x o false)) as (H1&->&->&->). split_and!; try done. etransitivity; [|exact H1]. apply (same_rest_set p x (head_byte o false)).
Qed.

(** A live block cut into pieces that stay live and a rest that is freed. *)
Lemma cut_pool p h o pieces rest m :
  pool_ok sh p → live_block p h = Some o → laid h pieces m → laid m rest (h + 2 ^ o) → pieces ≠ [] →
  let p' := foldl (λ p b, coalesce_free sh p b.1 b.2) (mark_pieces p pieces) rest in
  pool_ok sh p' ∧ p_incarnations p' = p_incarnations p
  ∧ ∀ y, live_block p' y = match piece_at pieces y with Some k => Some k | None => live_block p y end.
Proof.
  intros Hp Hh%live_block_some Hl1 Hl2 Hne. cbn zeta. pose proof (po_shape _ _ Hp) as Hs. pose proof (po_region _ _ Hp) as Hr.
  pose proof (r_tile _ _ _ Hr) as HT. pose proof (laid_app _ _ _ _ _ Hl1 Hl2) as Hl. destruct (t_fit _ _ HT _ _ _ Hh) as (HoM&_&Hfit).
  pose proof (laid_le _ _ _ Hl2). pose proof (pool_granules _ _ Hp) as Hlen. pose proof (sh_order _ Hs) as H31.
  pose proof (cut_tiling _ _ _ _ _ HT Hh Hl) as HT'. set (T := refine (cells p) (pieces ++ rest)) in *.
  destruct (mark_pieces_rest pieces p) as ((E1&E2&E3)&En&Ep&Eh).
  assert (∀ y, cells (mark_pieces p pieces) y = refine (cells p) pieces y) as Hcells.
  { apply (mark_pieces_cells pieces p h m); [done|lia|]. intros y k Hy. assert (T y = Some (k, false)) as Hy'.
    { unfold T, refine. by rewrite piece_at_app, Hy. } apply (t_fit _ _ HT') in Hy' as (?&_). lia. }
  assert (∀ y k, piece_at rest y = Some k → piece_at pieces y = None) as Hdis.
  { intros y k (_&Hy&_)%(piece_at_laid _ _ _ _ _ Hl2). destruct (piece_at pieces y) as [j|] eqn:Ej; [|done].
    apply (piece_at_laid _ _ _ _ _ Hl1) in Ej. pose proof (pow_pos j). lia. }
  assert (region_ok (max_order sh) (mark_pieces p pieces) T) as Hr'.
  { destruct Hr as [_ (F&HF&Hin) Hst Hi]. split; [done| |by rewrite E1|by rewrite E2]. exists F. split; [by apply (lists_state _ p)|].
    intros k y. rewrite Hin. symmetry. by apply (cut_free (max_order sh) (cells p) h o (pieces ++ rest)). }
  destruct (free_aside rest (mark_pieces p pieces) T m (h + 2 ^ o) Hs Hr' Hl2) as (Hp'&Hlv&Hin).
  - intros y Hy. rewrite Hcells. unfold T, refine. rewrite piece_at_app, Hy. by destruct (piece_at pieces y).
  - intros y k Hy. rewrite Hcells. unfold T, refine. rewrite piece_at_app, Hy, (Hdis y k Hy). split; [|done].
    apply (cut_old (max_order sh) (cells p) h o (pieces ++ rest) HT Hh Hl y k); [by rewrite piece_at_app, (Hdis y k Hy)|].
    intros ->. destruct pieces as [|[x j] ps]; [done|]. specialize (Hdis h k Hy). by rewrite (piece_at_head _ _ _ _ _ Hl1) in Hdis.
  - unfold T. rewrite (cut_weight (max_order sh) (cells p) h o) by done. rewrite E3. apply Hp.
  - split_and!; [done|by rewrite Hin|]. intros y. rewrite Hlv. unfold T, refine, live_at. rewrite piece_at_app.
    destruct (piece_at rest y) as [k|] eqn:Er; [|by destruct (piece_at pieces y)]. rewrite (Hdis y k Er).
    unfold live_block, live_at. destruct (decide (y = h)) as [->|Hny].
    + destruct pieces as [|[x j] ps]; [done|]. specialize (Hdis h k Er). by rewrite (piece_at_head _ _ _ _ _ Hl1) in Hdis.
    + by rewrite (cut_old (max_order sh) (cells p) h o (pieces ++ rest) HT Hh Hl y k) by (done || by rewrite piece_at_app, (Hdis y k Er)).
Qed.
End trim.

(** ** The allocator, trimmed *)
Lemma laid_end at_ bs e : laid at_ bs e → e < u32_max → from_option (λ b : N * N, sat_add_u32 b.1 (2 ^ b.2)) at_ (last bs) = e.
Proof.
  intros Hl He. revert at_ Hl. induction bs as [|[x o] bs IH]; intros at_ Hl; [done|]. destruct Hl as (->&_&Hl). pose proof (laid_le _ _ _ Hl).
  specialize (IH _ Hl). destruct bs as [|b bs]; [|rewrite last_cons_cons; destruct (last (b :: bs)) eqn:E; [exact IH|by apply last_None in E]]. cbn [laid] in Hl. cbn [last from_option fst snd]. subst e. unfold sat_add_u32. rewrite N.min_l; [done|]. lia.
Qed.

Fixpoint put_incarnations (l : list N) (bs : list (N * N)) (v : N → N) : list N :=
  match bs with [] => l | (x, _) :: bs => put_incarnations (<[N.to_nat x := v x]> l) bs v end.
Lemma length_put_incarnations bs l v : length (put_incarnations l bs v) = length l.
Proof. revert l. induction bs as [|[x o] bs IH]; intros l; [done|]. cbn. by rewrite IH, length_insert. Qed.
Lemma put_incarnations_at bs l v at_ e y :
  laid at_ bs e → e ≤ len l →
  default 0 (put_incarnations l bs v !! N.to_nat y) = match piece_at bs y with Some _ => v y | None => default 0 (l !! N.to_nat y) end.
Proof.
  revert l at_. induction bs as [|[x o] bs IH]; intros l at_ Hl He; [done|]. destruct Hl as (->&_&Hl). cbn [put_incarnations piece_at].
  pose proof (laid_le _ _ _ Hl). pose proof (pow_pos o). unfold len in *. rewrite (IH _ _ Hl) by (rewrite length_insert; done).
  destruct (decide (y = at_)) as [->|Hne].
  - rewrite list_lookup_insert_eq by lia. by destruct (piece_at bs at_).
  - by rewrite list_lookup_insert_ne by lia.
Qed.

(** [Buddy::trim]'s loop over the pieces, as its effect on each part. *)
Lemma mark_incarnation p l x o : mark (p <| p_incarnations := l |>) x o false = mark p x o false <| p_incarnations := l |>.
Proof. done. Qed.
Lemma mark_pieces_incarnation bs p l : mark_pieces (p <| p_incarnations := l |>) bs = mark_pieces p bs <| p_incarnations := l |>.
Proof. revert p. induction bs as [|[x o] bs IH]; intros p; [done|]. cbn [mark_pieces foldl fst snd]. rewrite mark_incarnation. apply IH. Qed.
Lemma keep_pieces_eq bs b v :
  keep_pieces b bs (map (λ e, v e.1) bs) =
    (mkBuddy (shape b) (mark_pieces (pool b <| p_incarnations ::= λ l, put_incarnations l bs v |>) bs)
       (foldl (λ i e, keep_live i e.1 true) (image b) bs) (locked b) (locked_bytes b),
     map (λ e, block_at (shape b) e.1 e.2 (v e.1)) bs).
Proof.
  revert b. induction bs as [|[x o] bs IH]; intros b; [by destruct b as [? [] ? ? ?]|]. cbn [keep_pieces map fst snd]. rewrite IH.
  by destruct b as [? [] ? ? ?].
Qed.
Lemma piece_incarnations_ok p bs vs :
  piece_incarnations p bs = Ok vs → vs = map (λ e, incarnation_at p e.1 + 1) bs.
Proof.
  revert vs. induction bs as [|[x o] bs IH]; intros vs; [by intros [= <-]|]. cbn [piece_incarnations map fst].
  destruct (checked_add (incarnation_at p x) 1) as [v|] eqn:Ev; [|done]. apply checked_add_some in Ev as [-> _]. cbn.
  destruct (piece_incarnations p bs) as [vs'|]; [|done]. intros [= <-]. by rewrite (IH vs').
Qed.
Lemma piece_incarnations_err p bs e : piece_incarnations p bs = Err e → ∃ y, e = GenerationExhausted y ∧ u64_max ≤ incarnation_at p y.
Proof.
  induction bs as [|[x o] bs IH]; [done|]. cbn [piece_incarnations].
  destruct (checked_add (incarnation_at p x) 1) as [v|] eqn:Ev; cbn.
  - destruct (piece_incarnations p bs) as [|e']; [done|]. intros [= <-]. by apply IH.
  - intros [= <-]. exists x. split; [done|]. unfold checked_add in Ev. revert Ev. split_if; bool_to_prop; [done|lia].
Qed.

(** The pieces' heads kept as live. *)
Lemma keep_live_same i x on :
  i_committed (keep_live i x on) = i_committed i ∧ i_capture (keep_live i x on) = i_capture i ∧ i_deferred (keep_live i x on) = i_deferred i
  ∧ i_capturing (keep_live i x on) = i_capturing i.
Proof. unfold keep_live. by destruct (i_imaged i). Qed.
Lemma keep_all_live n w s bs i L at_ e :
  image_ok n w s i L → laid at_ bs e → e ≤ n →
  let i' := foldl (λ i e, keep_live i e.1 true) i bs in
  image_ok n w s i' (λ y, is_Some (piece_at bs y) ∨ L y)
  ∧ i_committed i' = i_committed i ∧ i_capture i' = i_capture i ∧ i_deferred i' = i_deferred i ∧ i_capturing i' = i_capturing i.
Proof.
  cbn zeta. revert i L at_. induction bs as [|[x o] bs IH]; intros i L at_ Hi Hl He; cbn [foldl fst].
  { split_and!; try done. eapply image_ext; [|exact Hi]. intros y. cbn. split; [by intros [[? [=]]|]|by right]. }
  destruct Hl as (->&_&Hl). pose proof (laid_le _ _ _ Hl). pose proof (pow_pos o).
  destruct (IH (keep_live i at_ true) (λ y, if decide (y = at_) then true = true else L y) (at_ + 2 ^ o)) as (Hi'&->&->&->&->);
    [eapply keep_live_ok; [done|lia|done|done]|done|done|].
  destruct (keep_live_same i at_ true) as (->&->&->&->). split_and!; try done. eapply image_ext; [|exact Hi'].
  intros y. cbn [piece_at]. destruct (decide (y = at_)); [|done]. split; [by right|]. intros _. left. by eexists.
Qed.

Lemma pool_incarnations sh p l : length l = length (p_incarnations p) → pool_ok sh p → pool_ok sh (p <| p_incarnations := l |>).
Proof.
  intros El [Hs Hr Hf]. split; [done| |done]. apply (region_fields _ p); try done. change (len l = len (p_incarnations p)). unfold len. by rewrite El.
Qed.
(** The live block at [x] cut at [m] into the blocks [ps], their incarnations given by [v], and the rest freed. *)
Lemma trim_ok b x o ps m v :
  core_ok b → live_block (pool b) x = Some o → laid x ps m → ps ≠ [] → m < x + 2 ^ o →
  let b1 := (keep_pieces b ps (map (λ e, v e.1) ps)).1 in
  let b' := b1 <| pool := free_rest (shape b) (N.to_nat (x + 2 ^ o - m)) (pool b1) m (x + 2 ^ o) o |> in
  core_ok b' ∧ shape b' = shape b ∧ locked b' = locked b
  ∧ (∀ y, live_block (pool b') y = match piece_at ps y with Some k => Some k | None => live_block (pool b) y end)
  ∧ (∀ y, incarnation_at (pool b') y = if piece_at ps y is Some _ then v y else incarnation_at (pool b) y)
  ∧ i_committed (image b') = i_committed (image b) ∧ i_capture (image b') = i_capture (image b)
  ∧ i_deferred (image b') = i_deferred (image b) ∧ i_capturing (image b') = i_capturing (image b).
Proof.
  intros Hc Hx Hl Hne Hm. cbn zeta. rewrite keep_pieces_eq, free_rest_fold. cbn [fst pool].
  pose proof (co_pool _ Hc) as Hp. destruct (live_bound _ _ Hp x o Hx) as (HoM&Hal&Hfit&Hlt). pose proof (region_31 _ _ Hp) as H31.
  assert (0 < m) as Hm0.
  { destruct ps as [|[y k] ps']; [done|]. destruct Hl as (->&_&Hl). pose proof (laid_le _ _ _ Hl). pose proof (pow_pos k). lia. }
  pose proof (rest_laid (N.to_nat (x + 2 ^ o - m)) m (x + 2 ^ o) o ltac:(lia) ltac:(unfold u32_max; lia) ltac:(lia)) as Hrest.
  set (l := put_incarnations (p_incarnations (pool b)) ps v). set (p1 := pool b <| p_incarnations := l |>).
  assert (pool_ok (shape b) p1) as Hp1 by (apply pool_incarnations; [apply length_put_incarnations|done]).
  destruct (cut_pool (shape b) p1 x o ps (rest_of (N.to_nat (x + 2 ^ o - m)) m (x + 2 ^ o) o) m Hp1 Hx Hl Hrest Hne) as (Hp'&Hi'&Hl').
  set (p' := foldl _ _ _) in *. change (pool b <| p_incarnations ::= λ l, put_incarnations l ps v |>) with p1. fold p'.
  destruct (keep_all_live _ _ _ ps (image b) (live b) x m (co_image _ Hc) Hl ltac:(lia)) as (Him&Ec&Ek&Ed&Eg).
  assert (∀ y, is_Some (live_block p' y) ↔ is_Some (piece_at ps y) ∨ live b y) as Hlive.
  { intros y. rewrite Hl'. unfold live. change (live_block p1 y) with (live_block (pool b) y). destruct (piece_at ps y).
    - split; [by left|done].
    - split; [by right|by intros [[? [=]]|]]. }
  split_and!; try done.
  - split; [done| |].
    + eapply image_ext; [|exact Him]. exact Hlive.
    + destruct (co_locked _ Hc) as [Hsz Hlk]. split; [done|]. intros y Hy%Hlk. apply Hlive. by right.
  - intros y. unfold incarnation_at. change (default 0 (p_incarnations p' !! N.to_nat y) = if piece_at ps y is Some _ then v y else incarnation_at (pool b) y).
    rewrite Hi'. apply (put_incarnations_at ps (p_incarnations (pool b)) v x m y Hl). rewrite (r_incarnations _ _ _ (po_region _ _ Hp)). lia.
Qed.
