(* ===== verification/BuddyOps.v ===== *)
(** * The buddy allocator refines a region of live blocks

    The specification of [crates/mem/src/buddy.rs]: which blocks are live,
    which the committed recovery image and an open capture name, which are
    freed but kept for an image, and what each operation may do to them. The
    allocator's operations implement it, answers included, and keep the
    allocator's invariant. *)

From S2P Require Import Prelude BuddyBits Buddy BuddyTile BuddyPool BuddyImage BuddyCore BuddySettle.
#[local] Open Scope N_scope.

(** ** The specification *)

(** Per granule: the order of the live block it heads, its incarnation, and whether the committed image names it, the
    open capture names it, its free is deferred, its block is locked. *)
Record Region := mkRegion {
  g_live : N → option N; g_incarnation : N → N; g_committed : N → bool; g_captured : N → bool; g_deferred : N → bool;
  g_locked : N → bool; g_capturing : bool }.
Record agree (g g' : Region) : Prop := {
  ag_live : ∀ x, g_live g x = g_live g' x;
  ag_incarnation : ∀ x, g_incarnation g x = g_incarnation g' x;
  ag_committed : ∀ x, g_committed g x = g_committed g' x;
  ag_captured : ∀ x, g_captured g x = g_captured g' x;
  ag_deferred : ∀ x, g_deferred g x = g_deferred g' x;
  ag_locked : ∀ x, g_locked g x = g_locked g' x;
  ag_capturing : g_capturing g = g_capturing g'
}.
#[export] Instance agree_equiv : Equivalence agree.
Proof.
  split.
  - by split.
  - intros ?? []. split; congruence.
  - intros ??? [] []. split; congruence.
Qed.

Definition view (b : Buddy) : Region :=
  mkRegion (live_block (pool b)) (incarnation_at (pool b)) (bits_get (i_committed (image b)))
    (λ x, i_capturing (image b) && bits_get (i_capture (image b)) x) (bits_get (i_deferred (image b))) (bits_get (locked b))
    (i_capturing (image b)).

Section spec.
Context (sh : Shape).
Implicit Types (g : Region) (x o : N) (blk : Block).

(** An image may name the block at [x]. *)
Definition named g x : bool := g_committed g x || g_captured g x.
(** The span of order [o] at [x] lies in the region, on its boundary; it meets no live block. *)
Definition span x o : Prop := o ≤ max_order sh ∧ (2 ^ o | x) ∧ x + 2 ^ o ≤ 2 ^ max_order sh.
Definition unused g x o : Prop := ∀ y k, g_live g y = Some k → y + 2 ^ k ≤ x ∨ x + 2 ^ o ≤ y.
(** [blk] is the live block at [x]. *)
Definition is_block g blk x o : Prop := g_live g x = Some o ∧ blk = block_at sh x o (g_incarnation g x).

Definition region_add g x o : Region :=
  mkRegion (λ y, if decide (y = x) then Some o else g_live g y) (λ y, if decide (y = x) then g_incarnation g x + 1 else g_incarnation g y)
    (g_committed g) (g_captured g) (g_deferred g) (g_locked g) (g_capturing g).
Definition region_remove g x : Region :=
  mkRegion (λ y, if decide (y = x) then None else g_live g y) (g_incarnation g) (g_committed g) (g_captured g) (g_deferred g)
    (λ y, if decide (y = x) then false else g_locked g y) (g_capturing g).
Definition region_defer g x : Region :=
  mkRegion (g_live g) (g_incarnation g) (g_committed g) (g_captured g) (λ y, if decide (y = x) then true else g_deferred g y) (g_locked g)
    (g_capturing g).
Definition region_lock g x : Region :=
  mkRegion (g_live g) (g_incarnation g) (g_committed g) (g_captured g) (g_deferred g) (λ y, if decide (y = x) then true else g_locked g y)
    (g_capturing g).
(** A capture names every live block not deferred. *)
Definition region_capture g : Region :=
  mkRegion (g_live g) (g_incarnation g) (g_committed g) (λ x, bool_decide (is_Some (g_live g x)) && negb (g_deferred g x)) (g_deferred g)
    (g_locked g) true.
(** A capture settled: [keep] is what the image left names, and the deferred blocks it does not name are freed. *)
Definition region_settle g (keep : N → bool) : Region :=
  mkRegion (λ x, if g_deferred g x && negb (keep x) then None else g_live g x) (g_incarnation g) keep (λ _, false)
    (λ x, g_deferred g x && keep x) (λ x, g_locked g x && negb (g_deferred g x && negb (keep x))) false.

Inductive BuddyOp :=
| OAlloc (n : N) | OClaim (off n : N) | OFree (blk : Block) | OFreeOrDefer (blk : Block) | OLock (blk : Block)
| OTrim (blk : Block) (keep : N) | OCapture | OCommit | OAbandon.
Inductive Answer := ABlock (blk : Block) | ADone | ADeferred (deferred : bool) | AKept (kept : option (list Block)) | ARefused (e : MemError).

(** A block cut to the blocks [ps] of its first granules: the first keeps its incarnation, the others take their next. *)
Definition region_trim g x (ps : list (N * N)) : Region :=
  mkRegion (λ y, match piece_at ps y with Some k => Some k | None => g_live g y end)
    (λ y, if decide (y = x) then g_incarnation g x else if piece_at ps y is Some _ then g_incarnation g y + 1 else g_incarnation g y)
    (g_committed g) (g_captured g) (g_deferred g) (g_locked g) (g_capturing g).
Definition kept_granules (keep : N) : N := div_ceil (N.max keep 1) (granule sh).
Definition trims g x o (keep : N) (kept : list Block) g' : Prop :=
  ∃ ps, ps = pieces_of (N.to_nat o) x (kept_granules keep) ∧ kept_granules keep < 2 ^ o ∧ laid x ps (x + kept_granules keep) ∧ (∀ y k, piece_at ps y = Some k → y ≠ x → g_live g y = None)
    ∧ kept = map (λ e, block_at sh e.1 e.2 (g_incarnation (region_trim g x ps) e.1)) ps ∧ agree g' (region_trim g x ps).

(** What each operation answers and does. *)
Definition takes g x o blk g' : Prop := span x o ∧ unused g x o ∧ blk = block_at sh x o (g_incarnation g x + 1) ∧ agree g' (region_add g x o).
Definition region_step g (op : BuddyOp) (a : Answer) g' : Prop :=
  match op, a with
  | OAlloc n, ABlock blk => ∃ x o, order_for sh n = Ok o ∧ takes g x o blk g'
  | OAlloc n, ARefused e => agree g' g ∧
      match order_for sh n with
      | Err _ => e = TooLarge n (region_bytes sh)
      | Ok o => (∃ most, e = ArenaExhausted n most ∧ ∀ x, span x o → ¬ unused g x o)
          ∨ (∃ x, e = GenerationExhausted x ∧ u64_max ≤ g_incarnation g x)
      end
  | OClaim off n, ABlock blk => ∃ x o, off = N.shiftl x (granule_shift sh) ∧ n = order_bytes sh o ∧ takes g x o blk g'
  | OClaim off n, ARefused e => agree g' g ∧
      ((∃ x, e = GenerationExhausted x ∧ u64_max ≤ g_incarnation g x)
       ∨ ∀ x o, off = N.shiftl x (granule_shift sh) → n = order_bytes sh o → span x o → ¬ unused g x o)
  | OFree blk, ADone => ∃ x o, is_block g blk x o ∧ named g x = false ∧ agree g' (region_remove g x)
  | OFree blk, ARefused e => agree g' g ∧ ∀ x o, is_block g blk x o → named g x = true ∧ e = foreign blk Claimed
  | OFreeOrDefer blk, ADeferred d => ∃ x o, is_block g blk x o ∧ named g x = d
      ∧ if d then g_deferred g x = false ∧ agree g' (region_defer g x) else agree g' (region_remove g x)
  | OFreeOrDefer blk, ARefused e => agree g' g ∧ ∀ x o, is_block g blk x o → g_deferred g x = true ∧ e = foreign blk NotAllocated
  | OLock blk, ADone => ∃ x o, is_block g blk x o ∧ agree g' (region_lock g x)
  | OLock blk, ARefused e => agree g' g ∧ ∀ x o, ¬ is_block g blk x o
  | OTrim blk keep, AKept None => agree g' g
      ∧ ∃ x o, is_block g blk x o ∧ (2 ^ o ≤ kept_granules keep ∨ named g x = true ∨ g_locked g x = true)
  | OTrim blk keep, AKept (Some kept) => ∃ x o, is_block g blk x o ∧ named g x = false ∧ g_locked g x = false ∧ trims g x o keep kept g'
  | OTrim blk keep, ARefused e => agree g' g ∧ ((∃ y, e = GenerationExhausted y ∧ u64_max ≤ g_incarnation g y) ∨ ∀ x o, ¬ is_block g blk x o)
  | OCapture, ADone => agree g' (region_capture g)
  | OCommit, ADone => agree g' (if g_capturing g then region_settle g (g_captured g) else g)
  | OAbandon, ADone => agree g' (if g_capturing g then region_settle g (g_committed g) else g)
  | _, _ => False
  end.
End spec.

(** ** The allocator's operations *)
Definition answer {A} (f : A → Answer) (r : result MemError A) : Answer := match r with Ok a => f a | Err e => ARefused e end.
Definition run_op (b : Buddy) (op : BuddyOp) : Buddy * Answer :=
  match op with
  | OAlloc n => let '(b, r) := alloc b n in (b, answer ABlock r)
  | OClaim off n => let '(b, r) := claim b off n in (b, answer ABlock r)
  | OFree blk => let '(b, r) := buddy_free b blk in (b, answer (λ _, ADone) r)
  | OFreeOrDefer blk => let '(b, r) := free_or_defer b blk in (b, answer ADeferred r)
  | OLock blk => let '(b, r) := lock_block b blk in (b, answer (λ _, ADone) r)
  | OTrim blk keep => let '(b, r) := trim b blk keep in (b, answer AKept r)
  | OCapture => (capture b, ADone)
  | OCommit => (commit_capture b, ADone)
  | OAbandon => (abandon_capture b, ADone)
  end.
(** A capture is taken when none is open, as its callers settle each before the next. *)
Definition may_run (b : Buddy) (op : BuddyOp) : bool := match op with OCapture => negb (i_capturing (image b)) | _ => true end.

(** ** The specification's invariant: what an image names is live, and a deferred block is named *)
Record region_inv (g : Region) : Prop := {
  rv_named : ∀ x, named g x = true → is_Some (g_live g x);
  rv_deferred : ∀ x, g_deferred g x = true → named g x = true;
  rv_closed : g_capturing g = false → ∀ x, g_captured g x = false
}.
Lemma region_inv_agree g g' : agree g' g → region_inv g → region_inv g'.
Proof.
  intros [] []. unfold named in *. split.
  - intros x. unfold named. rewrite ag_committed0, ag_captured0, ag_live0. apply rv_named0.
  - intros x. unfold named. rewrite ag_deferred0, ag_committed0, ag_captured0. apply rv_deferred0.
  - rewrite ag_capturing0. intros H x. rewrite ag_captured0. auto.
Qed.
Lemma region_settle_inv g keep : (∀ x, keep x = true → named g x = true) → region_inv g → region_inv (region_settle g keep).
Proof.
  intros Hk Hg. split; unfold named; cbn.
  - intros x. rewrite orb_false_r. intros Hx. rewrite Hx, andb_false_r. by apply Hg, Hk.
  - intros x [_ ->]%andb_true_iff. done.
  - done.
Qed.
Lemma region_step_inv sh g op a g' :
  (op = OCapture → g_capturing g = false) → region_inv g → region_step sh g op a g' → region_inv g'.
Proof.
  intros Hop Hg. pose proof Hg as [Hn Hd Hc].
  assert (∀ x o blk, takes sh g x o blk g' → region_inv g') as Htake.
  { intros x o blk (_&_&_&Ha). apply (region_inv_agree _ _ Ha). split; [|done..]. intros y Hy. cbn. case_decide; [done|by apply Hn]. }
  assert (∀ x, named g x = false → agree g' (region_remove g x) → region_inv g') as Hrem.
  { intros x Hx Ha. apply (region_inv_agree _ _ Ha). split; [|done..]. intros y Hy. cbn. case_decide; [|by apply Hn]. subst y.
    change (named g x = true) in Hy. congruence. }
  destruct op, a; cbn [region_step]; try done.
  - intros (x&o&_&H). eauto.
  - intros [H _]. by apply (region_inv_agree _ _ H).
  - intros (x&o&_&_&H). eauto.
  - intros [H _]. by apply (region_inv_agree _ _ H).
  - intros (x&o&_&Hx&H). eauto.
  - intros [H _]. by apply (region_inv_agree _ _ H).
  - intros (x&o&_&Hx&H). destruct deferred; [|eauto]. destruct H as [_ H]. apply (region_inv_agree _ _ H). split; [done| |done].
    intros y. cbn. case_decide; [by subst|apply Hd].
  - intros [H _]. by apply (region_inv_agree _ _ H).
  - intros (x&o&_&H). by apply (region_inv_agree _ _ H).
  - intros [H _]. by apply (region_inv_agree _ _ H).
  - destruct kept as [kept|]; [|intros [H _]; by apply (region_inv_agree _ _ H)]. intros (x&o&_&_&_&ps&_&_&_&_&_&H).
    apply (region_inv_agree _ _ H). split; [|done..]. intros y Hy. cbn. destruct (piece_at ps y); [done|by apply Hn].
  - intros [H _]. by apply (region_inv_agree _ _ H).
  - intros H. apply (region_inv_agree _ _ H). split; unfold named; cbn; [| |done].
    + intros x [Hx|[Hx _]%andb_true_iff]%orb_true_iff; [apply Hn; unfold named; by rewrite Hx|by apply bool_decide_eq_true in Hx].
    + intros x Hx. pose proof (Hd x Hx) as Hx'. unfold named in Hx'. rewrite (Hc (Hop eq_refl)), orb_false_r in Hx'. by rewrite Hx'.
  - intros H. apply (region_inv_agree _ _ H). destruct (g_capturing g); [|done]. apply region_settle_inv; [|done]. intros x Hx. unfold named. rewrite Hx. apply orb_true_r.
  - intros H. apply (region_inv_agree _ _ H). destruct (g_capturing g); [|done]. apply region_settle_inv; [|done]. intros x Hx. unfold named. by rewrite Hx.
Qed.

(** ** The allocator implements it *)
Definition buddy_ok (b : Buddy) : Prop := core_ok b ∧ region_inv (view b).

Lemma named_view b x : core_ok b → named_by_an_image (image b) x = named (view b) x.
Proof.
  intros Hb. unfold named_by_an_image, named_once_imaged, named. cbn -[bits_get]. destruct (i_imaged (image b)) eqn:E; [done|].
  destruct (im_fresh _ _ _ _ _ (co_image _ Hb) E) as [-> H]. by destruct (H x) as [_ ->].
Qed.
Lemma is_block_valid b blk x o : core_ok b → block_validate b blk = Ok (x, o) ↔ is_block (shape b) (view b) blk x o.
Proof. intros Hb. apply validate_ok, Hb. Qed.
Lemma validate_refused b blk e x o : core_ok b → block_validate b blk = Err e → ¬ is_block (shape b) (view b) blk x o.
Proof. intros Hb He H%(is_block_valid b blk x o Hb). congruence. Qed.

Lemma checked_add_none a : checked_add a 1 = None → u64_max ≤ a.
Proof. unfold checked_add. split_if; bool_to_prop; [done|lia]. Qed.
Lemma incarnation_put p x v y :
  x < len (p_incarnations p) → default 0 (<[N.to_nat x := v]> (p_incarnations p) !! N.to_nat y) = if decide (y = x) then v else incarnation_at p y.
Proof.
  unfold len. intros Hx. destruct (decide (y = x)) as [->|Hne]; [by rewrite list_lookup_insert_eq by lia|].
  by rewrite list_lookup_insert_ne by lia.
Qed.
(** A live block meets no other span than its own. *)
Lemma free_unused b h o x k :
  core_ok b → cells (pool b) h = Some (o, true) → h ≤ x → x + 2 ^ k ≤ h + 2 ^ o → unused (view b) x k.
Proof.
  intros Hb Hh Hle Hend y j Hy%live_block_some. pose proof (region_tile _ _ (co_pool _ Hb)) as HT. pose proof (pow_pos j). pose proof (pow_pos k).
  destruct (N.lt_trichotomy h y) as [Hlt|[->|Hlt]]; [right|congruence|left].
  - pose proof (t_apart _ _ HT _ _ _ _ _ _ Hh Hy Hlt). lia.
  - pose proof (t_apart _ _ HT _ _ _ _ _ _ Hy Hh Hlt). lia.
Qed.
(** An unused span lies in a free block. *)
Lemma unused_free b x o :
  core_ok b → span (shape b) x o → unused (view b) x o →
  ∃ h k, cells (pool b) h = Some (k, true) ∧ o ≤ k ∧ h ≤ x ∧ x + 2 ^ o ≤ h + 2 ^ k.
Proof.
  intros Hb (Ho&Hal&Hfit) Hun. pose proof (region_tile _ _ (co_pool _ Hb)) as HT. apply (free_span _ _ HT); try done.
  intros i Hi. destruct (t_cover _ _ HT i ltac:(lia)) as (h&k&[]&Hh&Hin); [by exists h, k|]. exfalso.
  destruct (Hun h k); [by apply live_block_some| |]; lia.
Qed.

Lemma keep_live_view b p x v lk :
  agree (view (mkBuddy (shape b) p (keep_live (image b) x v) (locked b) lk))
    (mkRegion (live_block p) (incarnation_at p) (g_committed (view b)) (g_captured (view b)) (g_deferred (view b)) (g_locked (view b)) (g_capturing (view b))).
Proof. unfold keep_live. by destruct (i_imaged (image b)). Qed.

(** A block taken out of a free one. *)
Lemma takes_ok b h found index order value :
  core_ok b → cells (pool b) h = Some (found, true) → order ≤ found → (2 ^ order | index) → h ≤ index < h + 2 ^ found →
  checked_add (incarnation_at (pool b) index) 1 = Some value →
  let b1 := b <| pool := split_towards (N.to_nat (found - order)) (unlink (pool b) h found) index h found |> in
  let '(b', blk) := take_block b1 index order value in
  core_ok b' ∧ shape b' = shape b ∧ takes (shape b) (view b) index order blk (view b').
Proof.
  intros Hb Hh Ho Hal Hin [-> Hv]%checked_add_some. destruct (block_fits _ _ h found true (co_pool _ Hb) Hh) as (Hf1&Hf2&Hf3).
  pose proof (aligned_span h index found order Ho Hf2 Hal ltac:(lia) ltac:(lia)) as Hend.
  pose proof (take_ok b h found index order (incarnation_at (pool b) index + 1) Hb Hh Ho Hal Hin) as H. cbn zeta in *.
  destruct (take_block _ _ _ _) as [b' blk] eqn:E. cbn [fst] in H. destruct H as (Hb'&Hl&Hi&Him&Hlk&Hsh&_).
  assert (blk = block_at (shape b) index order (incarnation_at (pool b) index + 1)) as -> by (by injection E as _ <-).
  split_and!; try done. split_and!.
  - split_and!; [lia|done|lia].
  - apply (free_unused b h found); [done..|lia|lia].
  - done.
  - split; cbn -[bits_get live_block incarnation_at]; try (rewrite Him; unfold keep_live; by destruct (i_imaged (image b))).
    + exact Hl.
    + intros y. unfold incarnation_at at 1. rewrite Hi. apply incarnation_put.
      pose proof (r_incarnations _ _ _ (po_region _ _ (co_pool _ Hb))) as El. rewrite El. pose proof (pow_pos order). lia.
    + by rewrite Hlk.
Qed.

Lemma alloc_refines b n :
  core_ok b → let '(b', r) := alloc b n in
  core_ok b' ∧ shape b' = shape b ∧ region_step (shape b) (view b) (OAlloc n) (answer ABlock r) (view b').
Proof.
  intros Hb. pose proof (co_pool _ Hb) as Hp. pose proof (po_shape _ _ Hp) as Hs. unfold alloc.
  destruct (order_for (shape b) n) as [o|e] eqn:Eo; cbn [answer region_step].
  2:{ rewrite Eo. destruct (order_for_err _ Hs n e Eo) as [-> _]. done. }
  pose proof (proj1 (order_for_ok _ Hs n o) Eo) as [HoM _].
  pose proof (find_free_ok (shape b) (pool b) Hp (S (N.to_nat (max_order (shape b) - o))) o ltac:(lia) ltac:(lia)) as Hff.
  destruct (find_free _ _ _ _) as [f|].
  2:{ cbn [answer region_step]. rewrite Eo. split_and!; try done. left. eexists. split; [done|]. intros x Hx Hun.
      destruct (unused_free b x o Hb Hx Hun) as (h&k&Hh&Hk&_). by apply (Hff k h). }
  destruct Hff as [Hf Hh]. destruct (block_fits _ _ _ _ _ Hp Hh) as (_&Hal&Hfit). set (h := head_of (pool b) f) in *.
  destruct (checked_add (incarnation_at (pool b) h) 1) as [v|] eqn:Ev.
  2:{ cbn [answer region_step]. rewrite Eo. split_and!; try done. right. exists h. split; [done|]. by apply checked_add_none. }
  pose proof (pow_pos f) as Hpos.
  pose proof (takes_ok b h f h o v Hb Hh ltac:(lia) ltac:(eapply divide_mono; [|exact Hal]; lia) ltac:(lia) Ev) as H. cbn zeta in H.
  rewrite (split_down_towards (max_order (shape b))) by (apply (sh_order _ Hs) || done).
  destruct (take_block _ _ _ _) as [b' blk]. destruct H as (Hb'&Hsh&Ht). cbn [answer region_step]. split_and!; try done. by exists h, o.
Qed.

Lemma claim_refines b off n :
  core_ok b → let '(b', r) := claim b off n in
  core_ok b' ∧ shape b' = shape b ∧ region_step (shape b) (view b) (OClaim off n) (answer ABlock r) (view b').
Proof.
  intros Hb. pose proof (co_pool _ Hb) as Hp. pose proof (po_shape _ _ Hp) as Hs. pose proof (region_31 _ _ Hp) as H31.
  assert (∀ e, (∀ x o, off = N.shiftl x (granule_shift (shape b)) → n = order_bytes (shape b) o → span (shape b) x o → ¬ unused (view b) x o) →
    core_ok b ∧ shape b = shape b ∧ region_step (shape b) (view b) (OClaim off n) (ARefused e) (view b)) as Hrefuse.
  { intros e H. cbn [region_step]. split_and!; try done. by right. }
  unfold claim. rewrite (sh_granule _ Hs). destruct (N.land off _ =? 0) eqn:E1; cbn [negb].
  2:{ apply Hrefuse. intros x o -> _ _ _. apply not_true_iff_false in E1. apply E1, low_zero. rewrite N.shiftl_mul_pow2. by eexists. }
  apply low_zero in E1. destruct (order_for (shape b) n) as [o|e] eqn:E2.
  2:{ apply Hrefuse. intros x o _ -> (Ho&_). by rewrite (order_for_bytes _ Hs) in E2. }
  pose proof (proj1 (order_for_ok _ Hs n o) E2) as [HoM _].
  destruct (N.eqb_spec (order_bytes (shape b) o) n) as [E3|E3]; cbn [negb].
  2:{ apply Hrefuse. intros x o' _ -> (Ho&_). rewrite (order_for_bytes _ Hs) in E2 by done. congruence. }
  set (index := N.shiftr off (granule_shift (shape b))). assert (off = N.shiftl index (granule_shift (shape b))) as Eoff by (symmetry; by apply shift_back).
  assert (∀ x o', off = N.shiftl x (granule_shift (shape b)) → n = order_bytes (shape b) o' → span (shape b) x o' → x = index ∧ o' = o) as Huniq.
  { intros x o' -> -> (Ho&_). split; [unfold index; by rewrite shift_up|]. rewrite (order_for_bytes _ Hs) in E2 by done. congruence. }
  destruct ((u32_max <? index) || (len (p_state (pool b)) <=? index)) eqn:E4.
  { apply Hrefuse. intros x o' H1 H2 H3. destruct (Huniq x o' H1 H2 H3) as [-> ->]. destruct H3 as (_&_&H3). pose proof (pow_pos o).
    rewrite (pool_granules _ _ Hp) in E4. exfalso. revert E4. unfold u32_max. rewrite orb_true_iff, N.ltb_lt, N.leb_le. lia. }
  destruct (N.land index _ =? 0) eqn:E5; cbn [negb].
  2:{ apply Hrefuse. intros x o' H1 H2 H3. destruct (Huniq x o' H1 H2 H3) as [-> ->]. destruct H3 as (_&H3&_). apply not_true_iff_false in E5. exfalso. by apply E5, low_zero. }
  apply low_zero in E5. destruct (covering_free _ _ _ _) as [[h ho]|] eqn:E6.
  2:{ apply Hrefuse. intros x o' H1 H2 H3 Hun. destruct (Huniq x o' H1 H2 H3) as [-> ->].
      destruct (unused_free b index o Hb H3 Hun) as (h&k&Hh&Hk&Hle&Hend). pose proof (pow_pos o). pose proof (block_fits _ _ _ _ _ Hp Hh) as (HkM&_).
      rewrite (covering_complete _ _ Hp _ index o h k) in E6; [done|done|done|lia|by apply levels_split]. }
  destruct (covering_sound _ _ Hp _ _ _ _ _ E6) as (Hh&Hk&Hin).
  destruct (checked_add (incarnation_at (pool b) index) 1) as [v|] eqn:Ev.
  2:{ cbn [answer region_step]. split_and!; try done. left. exists index. split; [done|]. by apply checked_add_none. }
  pose proof (takes_ok b h ho index o v Hb Hh Hk E5 Hin Ev) as H. cbn zeta in H.
  destruct (take_block _ _ _ _) as [b' blk]. destruct H as (Hb'&Hsh&Ht). cbn [answer region_step]. split_and!; try done. by exists index, o.
Qed.

(** A block released. *)
Lemma block_release_refines b x o :
  core_ok b → live_block (pool b) x = Some o → bits_get (i_deferred (image b)) x = false →
  let b' := (release b x o).1 in core_ok b' ∧ shape b' = shape b ∧ agree (view b') (region_remove (view b) x).
Proof.
  intros Hb Hx Hd. pose proof (block_release_ok b x o Hb Hx Hd) as H. destruct (release b x o) as [b' lk]. cbn zeta. cbn [fst].
  destruct H as (Hb'&[]&_&Hdef&_). split_and!; try done. split; cbn -[bits_get live_block incarnation_at].
  - intros y. rewrite af_live. destruct (N.eqb_spec y x); [by rewrite decide_True|by rewrite decide_False].
  - intros y. unfold incarnation_at. by rewrite af_incarnations.
  - by rewrite af_committed.
  - by rewrite af_capturing, af_capture.
  - by rewrite Hdef.
  - intros y. rewrite af_locked. destruct (N.eqb_spec y x); [by rewrite decide_True, andb_false_r|by rewrite decide_False, andb_true_r].
  - done.
Qed.
(** An unnamed block is not deferred. *)
Lemma unnamed_kept b x : buddy_ok b → named (view b) x = false → bits_get (i_deferred (image b)) x = false.
Proof. intros [_ Hv] Hx. destruct (bits_get (i_deferred (image b)) x) eqn:E; [|done]. pose proof (rv_deferred _ Hv x E). congruence. Qed.

Lemma free_refines b blk :
  buddy_ok b → let '(b', r) := buddy_free b blk in
  core_ok b' ∧ shape b' = shape b ∧ region_step (shape b) (view b) (OFree blk) (answer (λ _, ADone) r) (view b').
Proof.
  intros Hb. pose proof Hb as [Hc Hv]. unfold buddy_free. destruct (block_validate b blk) as [[x o]|e] eqn:E.
  - rewrite (named_view b x Hc). pose proof (proj1 (is_block_valid b blk x o Hc) E) as Hblk.
    destruct (named (view b) x) eqn:En; cbn [answer region_step].
    + split_and!; try done. intros y k Hy. apply (is_block_valid b blk y k Hc) in Hy. rewrite E in Hy. by injection Hy as <- <-.
    + destruct (block_release_refines b x o Hc (proj1 Hblk) (unnamed_kept b x Hb En)) as (?&?&?). split_and!; try done. by exists x, o.
  - cbn [answer region_step]. split_and!; try done. intros x o H. exfalso. by apply (validate_refused b blk e x o Hc E).
Qed.

Lemma defer_refines b blk :
  buddy_ok b → let '(b', r) := free_or_defer b blk in
  core_ok b' ∧ shape b' = shape b ∧ region_step (shape b) (view b) (OFreeOrDefer blk) (answer ADeferred r) (view b').
Proof.
  intros Hb. pose proof Hb as [Hc Hv]. unfold free_or_defer. destruct (block_validate b blk) as [[x o]|e] eqn:E.
  2:{ cbn [answer region_step]. split_and!; try done. intros x o H. exfalso. by apply (validate_refused b blk e x o Hc E). }
  rewrite (named_view b x Hc). pose proof (proj1 (is_block_valid b blk x o Hc) E) as Hblk.
  destruct (named (view b) x) eqn:En; cbn [negb].
  2:{ cbn [answer region_step]. destruct (block_release_refines b x o Hc (proj1 Hblk) (unnamed_kept b x Hb En)) as (?&?&?). split_and!; try done. by exists x, o. }
  destruct (bits_get (i_deferred (image b)) x) eqn:Ed; cbn [answer region_step].
  { split_and!; try done. intros y k Hy. apply (is_block_valid b blk y k Hc) in Hy. rewrite E in Hy. by injection Hy as <- <-. }
  assert (live b x) as Hlive by (exists o; apply Hblk).
  assert (i_imaged (image b) = true) as Him.
  { rewrite <- named_view in En by done. unfold named_by_an_image in En. by apply andb_true_iff in En as [? _]. }
  pose proof (defer_ok _ _ _ (image b) (live b) x (order_bytes (shape b) o) (co_image _ Hc) Hlive Him) as Hi'.
  assert (x < capacity (i_deferred (image b))) as Hcap.
  { destruct (im_bits _ _ _ _ _ (co_image _ Hc)) as (_&_&[El _]&_). unfold capacity. rewrite El. pose proof (live_in b x Hc Hlive).
    pose proof (words_for_fit (2 ^ max_order (shape b))). lia. }
  split_and!; [split; [apply Hc|exact Hi'|apply Hc]|done|]. exists x, o. split_and!; try done. split; try done.
  intros y. cbn -[bits_get bits_set]. rewrite bits_get_set by done. destruct (decide (x = y)), (decide (y = x)); congruence.
Qed.

Lemma lock_refines b blk :
  buddy_ok b → let '(b', r) := lock_block b blk in
  core_ok b' ∧ shape b' = shape b ∧ region_step (shape b) (view b) (OLock blk) (answer (λ _, ADone) r) (view b').
Proof.
  intros [Hc Hv]. unfold lock_block. destruct (block_validate b blk) as [[x o]|e] eqn:E.
  2:{ cbn [answer region_step]. split_and!; try done. intros x o. by apply (validate_refused b blk e x o Hc E). }
  pose proof (proj1 (is_block_valid b blk x o Hc) E) as Hblk. assert (live b x) as Hlive by (exists o; apply Hblk).
  pose proof (locked_in b x Hc (live_in b x Hc Hlive)) as Hcap. destruct (co_locked _ Hc) as [Hsz Hlk].
  destruct (bits_get (locked b) x) eqn:El; cbn [answer region_step].
  - split_and!; try done. exists x, o. split; [done|]. split; try done. intros y. cbn -[bits_get]. by case_decide; [subst|].
  - split_and!; [split; [apply Hc|apply Hc|split; [exact (sized_set _ _ x true Hsz)|]]|done|].
    + intros y. cbn -[bits_get bits_set]. rewrite bits_get_set by done. case_decide; [by subst|apply Hlk].
    + exists x, o. split; [done|]. split; try done. intros y. cbn -[bits_get bits_set]. rewrite bits_get_set by done.
      destruct (decide (x = y)), (decide (y = x)); congruence.
Qed.

Lemma trim_refines b blk keep :
  buddy_ok b → let '(b', r) := trim b blk keep in
  core_ok b' ∧ shape b' = shape b ∧ region_step (shape b) (view b) (OTrim blk keep) (answer AKept r) (view b').
Proof.
  intros Hb. pose proof Hb as [Hc Hv]. unfold trim. destruct (block_validate b blk) as [[x o]|e] eqn:E.
  2:{ cbn [answer region_step]. split_and!; try done. right. intros x o H. by apply (validate_refused b blk e x o Hc E). }
  rewrite (named_view b x Hc). pose proof (proj1 (is_block_valid b blk x o Hc) E) as Hblk.
  assert (is_locked b blk = g_locked (view b) x) as -> by (unfold is_locked; by rewrite E).
  fold (kept_granules (shape b) keep). set (n := kept_granules (shape b) keep).
  destruct ((2 ^ o <=? n) || named (view b) x || g_locked (view b) x) eqn:Eg.
  { cbn [answer region_step]. split_and!; try done. exists x, o. split; [done|]. apply orb_true_iff in Eg as [[Eg%N.leb_le|Eg]%orb_true_iff|Eg]; auto. }
  apply orb_false_iff in Eg as [[Hn%N.leb_gt Hnm]%orb_false_iff Hlk].
  destruct Hblk as [Hl ->]. pose proof (co_pool _ Hc) as Hp. destruct (live_bound _ _ Hp x o Hl) as (HoM&Hal&Hfit&Hx). pose proof (region_31 _ _ Hp) as H31.
  assert (0 < n) as Hn0.
  { unfold n, kept_granules, div_ceil. pose proof (granule_pos _ (po_shape _ _ Hp)) as Hg. apply N.neq_0_lt_0. intros E0.
    pose proof (proj1 (ceil_le (N.max keep 1) _ 0 Hg)). lia. }
  set (ps := pieces_of (N.to_nat o) x n).
  assert (laid x ps (x + n)) as Hlaid.
  { pose proof (pieces_laid (N.to_nat o) x n) as H. rewrite N2Nat.id in H. rewrite (N.mod_small n) in H by done. apply H; [done|unfold u32_max; lia]. }
  destruct ps as [|[x0 o0] ps'] eqn:Eps; [cbn in Hlaid; lia|]. assert (x0 = x) as -> by (by destruct Hlaid as [-> _]).
  rewrite (laid_end x ((x, o0) :: ps') (x + n) Hlaid) by (unfold u32_max; lia). cbn [tail].
  destruct (piece_incarnations (pool b) ps') as [vs|e'] eqn:Ev.
  2:{ cbn [answer region_step]. split_and!; try done. left. by apply (piece_incarnations_err _ ps'). }
  apply piece_incarnations_ok in Ev as ->. set (bs := (x, o0) :: ps') in *.
  set (v := λ y, if decide (y = x) then incarnation_at (pool b) x else incarnation_at (pool b) y + 1).
  assert (∀ y k, piece_at ps' y = Some k → y ≠ x) as Hother.
  { intros y k Hy. destruct Hlaid as (_&_&Hlaid). apply (piece_at_laid _ _ _ _ _ Hlaid) in Hy. pose proof (pow_pos o0). lia. }
  assert (incarnation_at (pool b) x :: map (λ e, incarnation_at (pool b) e.1 + 1) ps' = map (λ e, v e.1) bs) as Evs.
  { unfold bs. cbn [map fst]. f_equal; [unfold v; by rewrite decide_True|]. destruct Hlaid as (_&_&Hlaid). clear -Hlaid Hother.
    apply map_ext_in. intros [y k] Hy. unfold v. cbn [fst]. rewrite decide_False; [done|]. intros ->.
    destruct (piece_at_in ps' (x, k) Hy) as [j Ej]. by apply (Hother x j). }
  cbn [block_at incarnation]. change (g_incarnation (view b) x) with (incarnation_at (pool b) x). rewrite Evs, keep_pieces_eq.
  assert (sat_add_u32 x (if 2 ^ o <=? u32_max then 2 ^ o else u32_max) = x + 2 ^ o) as ->.
  { rewrite (proj2 (N.leb_le _ _)) by (unfold u32_max; lia). unfold sat_add_u32, u32_max. lia. }
  pose proof (trim_ok b x o bs (x + n) v Hc Hl Hlaid ltac:(done) ltac:(lia)) as H. cbn zeta in H. rewrite keep_pieces_eq in H. cbn [fst] in H.
  set (b1 := mkBuddy _ _ _ _ _) in *. set (b' := b1 <| pool := _ |>) in *. destruct H as (Hc'&Hs'&Hlk'&Hl'&Hi'&E1&E2&E3&E4).
  cbn [answer region_step]. split_and!; try done. exists x, o. split_and!; try done. exists bs.
  assert (∀ y, incarnation_at (pool b') y = g_incarnation (region_trim (view b) x bs) y) as Hinc.
  { intros y. rewrite Hi'. unfold region_trim, v. cbn [g_incarnation view]. destruct (decide (y = x)) as [->|]; [by destruct (piece_at bs x)|done]. }
  split_and!; [done|done|done| | |].
  - intros y k Hy Hne. destruct (live_block (pool b) y) as [j|] eqn:Ej; [|done]. exfalso. apply live_block_some in Ej. apply live_block_some in Hl.
    destruct (piece_at_laid _ _ _ _ _ Hlaid Hy) as (_&?&?). pose proof (pow_pos k).
    by rewrite (tile_inside _ _ _ _ _ y (region_tile _ _ Hp) Hl) in Ej by lia.
  - change (shape b') with (shape b). apply map_ext_in. intros e He. f_equal. rewrite <- Hinc, Hi'.
    by destruct (piece_at_in bs e He) as [j ->].
  - split; [exact Hl'|exact Hinc|exact (λ y, f_equal (λ l, bits_get l y) E1)| |exact (λ y, f_equal (λ l, bits_get l y) E3)|done|exact E4].
    intros y. unfold view, region_trim. cbn [g_captured]. by rewrite E4, E2.
Qed.

Lemma capture_refines b : core_ok b → core_ok (capture b) ∧ shape (capture b) = shape b ∧ agree (view (capture b)) (region_capture (view b)).
Proof.
  intros Hc. destruct (capture_ok b Hc) as (Hc'&Hs&Hp&Hl&Hd&Hm&Hg&_&Hcap). split_and!; try done.
  split; cbn -[bits_get live_block incarnation_at capture]; rewrite ?Hp, ?Hl, ?Hd, ?Hm, ?Hg; try done.
Qed.
Lemma settled_view b b' keep out :
  settled b b' keep out → (∀ x, bits_get (i_committed (image b')) x = keep x) → agree (view b') (region_settle (view b) keep).
Proof.
  intros [] Hk. split; cbn -[bits_get live_block incarnation_at]; try done.
  - intros x. unfold incarnation_at. by rewrite sd_incarnations.
  - intros x. by rewrite sd_capturing.
Qed.
Lemma commit_refines b :
  core_ok b → core_ok (commit_capture b) ∧ shape (commit_capture b) = shape b
  ∧ agree (view (commit_capture b)) (if g_capturing (view b) then region_settle (view b) (g_captured (view b)) else view b).
Proof.
  intros Hc. unfold commit_capture. cbn [g_capturing view]. destruct (i_capturing (image b)) eqn:Eg.
  2:{ unfold commit_capture_releasing. rewrite Eg. done. }
  assert (i_imaged (image b) = true) as Him.
  { destruct (i_imaged (image b)) eqn:E; [done|]. destruct (im_fresh _ _ _ _ _ (co_image _ Hc) E). congruence. }
  pose proof (commit_ok b Hc Eg Him) as H. destruct (commit_capture_releasing b) as [b' out]. destruct H as [H Hm]. cbn [fst].
  split_and!; [apply H..|]. etransitivity; [by apply (settled_view _ _ _ _ H)|]. split; cbn -[bits_get live_block]; rewrite ?Eg; done.
Qed.
Lemma abandon_refines b :
  core_ok b → core_ok (abandon_capture b) ∧ shape (abandon_capture b) = shape b
  ∧ agree (view (abandon_capture b)) (if g_capturing (view b) then region_settle (view b) (g_committed (view b)) else view b).
Proof.
  intros Hc. unfold abandon_capture. cbn [g_capturing view]. destruct (i_capturing (image b)) eqn:Eg.
  2:{ unfold abandon_capture_releasing. rewrite Eg. done. }
  pose proof (abandon_ok b Hc Eg) as H. destruct (abandon_capture_releasing b) as [b' out]. destruct H as [H Hm]. cbn [fst].
  split_and!; [apply H..|]. apply (settled_view _ _ _ _ H). intros x. by rewrite Hm.
Qed.

(** ** Every operation implements its specification and keeps the invariant *)
Lemma run_op_core b op b' a :
  buddy_ok b → run_op b op = (b', a) → core_ok b' ∧ shape b' = shape b ∧ region_step (shape b) (view b) op a (view b').
Proof.
  intros Hb. pose proof Hb as [Hc _]. destruct op; cbn [run_op].
  - pose proof (alloc_refines b n Hc) as H. destruct (alloc b n). by intros [= <- <-].
  - pose proof (claim_refines b off n Hc) as H. destruct (claim b off n). by intros [= <- <-].
  - pose proof (free_refines b blk Hb) as H. destruct (buddy_free b blk). by intros [= <- <-].
  - pose proof (defer_refines b blk Hb) as H. destruct (free_or_defer b blk). by intros [= <- <-].
  - pose proof (lock_refines b blk Hb) as H. destruct (lock_block b blk). by intros [= <- <-].
  - pose proof (trim_refines b blk keep Hb) as H. destruct (trim b blk keep). by intros [= <- <-].
  - intros [= <- <-]. by apply capture_refines.
  - intros [= <- <-]. by apply commit_refines.
  - intros [= <- <-]. by apply abandon_refines.
Qed.
Lemma run_op_ok b op b' a :
  buddy_ok b → may_run b op = true → run_op b op = (b', a) →
  buddy_ok b' ∧ shape b' = shape b ∧ region_step (shape b) (view b) op a (view b').
Proof.
  intros Hb Hop E. destruct (run_op_core b op b' a Hb E) as (Hc&Hs&Hstep). split_and!; try done. split; [done|].
  eapply region_step_inv; [|apply Hb|exact Hstep]. intros ->. cbn in Hop |- *. by apply negb_true_iff.
Qed.
