(* ===== verification/BuddyProps.v ===== *)
(** * What the buddy allocator promises

    A fresh allocator of [crates/mem/src/buddy.rs] satisfies the invariant, and
    every run of its operations refines the region specification. From that:
    blocks handed out never meet, room is found where there is any, a freed
    block is refused ever after, what the committed image names is kept, and
    what each publication releases is told. *)

From S2P Require Import Prelude BuddyBits Buddy BuddyTile BuddyPool BuddyImage BuddyCore BuddySettle BuddyOps.
#[local] Open Scope N_scope.

(** ** A fresh allocator *)
Section fresh.
Context (M : N) (HM : M ≤ 31).
Definition fresh_cells : N → option (N * bool) := put (λ _, None) 0 (Some (M, true)).
Definition fresh_lists : N → list N := λ o, if decide (o = M) then [0] else [].

Lemma fresh_tiling : tiling M fresh_cells.
Proof.
  assert (∀ x c, fresh_cells x = Some c → x = 0 ∧ c = (M, true)) as Hone.
  { intros x c. unfold fresh_cells, put. case_decide; [by intros [= <-]|done]. }
  split.
  - intros h o f [-> [= -> ->]]%Hone. split_and!; [done|apply N.divide_0_r|lia].
  - intros h o f h' o' f' [-> _]%Hone [-> _]%Hone. lia.
  - intros i Hi. exists 0, M, true. split; [apply put_eq|lia].
  - intros h o [-> [= ->]]%Hone Ho. lia.
Qed.
Lemma fresh_weight : free_weight M fresh_cells = 2 ^ M.
Proof.
  pose proof (free_weight_put M (λ _, None) 0 (Some (M, true)) (pow_pos M)) as H. unfold fresh_cells. cbn [weight] in H.
  replace (free_weight M (λ _, None)) with 0 in H; [lia|]. unfold free_weight. generalize (N.to_nat (2 ^ M)). intros n. induction n as [|n IH]; [done|].
  cbn. by rewrite <- IH.
Qed.
Definition fresh_pool (free : N) : Pool :=
  let count := N.to_nat (2 ^ M) in
  mkPool (<[0%nat := N.lor (N.lor FREE_BIT HEAD_BIT) M]> (replicate count INSIDE)) (replicate count 0) (replicate count 0)
    (<[N.to_nat M := 0]> (replicate (S (N.to_nat M)) NONE)) (replicate count 0) free.

Lemma fresh_pool_cells free x : cells (fresh_pool free) x = fresh_cells x.
Proof using HM.
  assert (0 < 2 ^ M) as Hpos by apply pow_pos.
  assert (N.lor (N.lor FREE_BIT HEAD_BIT) M = head_byte M true) as Ebyte.
  { unfold head_byte. rewrite (proj2 (N.leb_le M u8_max)) by (unfold u8_max; lia). rewrite <- N.lor_assoc, N.lor_comm. done. }
  unfold cells, state_at, fresh_pool, fresh_cells, put. cbn [p_state]. destruct (decide (x = 0)) as [->|Hx].
  - rewrite list_lookup_insert_eq by (rewrite length_replicate; lia). cbn. rewrite Ebyte. apply cell_of_head. lia.
  - rewrite list_lookup_insert_ne by lia. destruct (replicate (N.to_nat (2 ^ M)) INSIDE !! N.to_nat x) eqn:E; [|done].
    apply lookup_replicate in E as [-> _]. done.
Qed.
Lemma fresh_region free : region_ok M (fresh_pool free) fresh_cells.
Proof using HM.
  assert (0 < 2 ^ M) as Hpos by apply pow_pos.
  assert (∀ n x, link_at (replicate n 0) x = NONE) as Hlink.
  { intros n x. unfold link_at. destruct (replicate n 0 !! N.to_nat x) eqn:E; [|done]. apply lookup_replicate in E as [-> _]. done. }
  split; [apply fresh_tiling| |unfold fresh_pool, len; cbn [p_state p_incarnations]; rewrite ?length_insert, length_replicate; lia..].
  exists fresh_lists. split.
  - split; try (unfold fresh_pool, len; cbn [p_next p_prev p_heads]; rewrite ?length_insert, length_replicate; lia).
    + intros o Ho. unfold head_of, fresh_pool, fresh_lists. cbn [p_heads]. destruct (decide (o = M)) as [->|Hne].
      * by rewrite list_lookup_insert_eq by (rewrite length_replicate; lia).
      * rewrite list_lookup_insert_ne by lia. rewrite lookup_replicate_2 by lia. done.
    + intros o Ho. unfold fresh_lists. cbn [fresh_pool p_next p_prev]. destruct (decide (o = M)); [|done]. cbn [chain hd]. by rewrite !Hlink.
    + intros o. unfold fresh_lists. destruct (decide (o = M)); [apply NoDup_singleton|apply NoDup_nil_2].
    + intros o x. unfold fresh_lists. destruct (decide (o = M)) as [->|]; [intros ->%list_elem_of_singleton; lia|by intros ?%elem_of_nil].
    + intros o o' x. unfold fresh_lists. destruct (decide (o = M)), (decide (o' = M)); try (by intros ?%elem_of_nil); intros; try congruence. by apply elem_of_nil in H0.
  - intros o x. unfold fresh_lists, fresh_cells, put. destruct (decide (o = M)) as [->|]; rewrite ?list_elem_of_singleton, ?elem_of_nil; case_decide; naive_solver.
Qed.
End fresh.

Lemma power_of_two_log n : is_power_of_two n = true → n = 2 ^ trailing_zeros n.
Proof. unfold is_power_of_two. intros [_ H]%andb_true_iff. apply N.eqb_eq in H. rewrite <- H at 2. by rewrite trailing_zeros_pow. Qed.
Lemma sized_new n : sized (words_for n) (bits_new n).
Proof. split; [apply length_replicate|apply words_ok_new]. Qed.

Lemma fresh_image n imaged L :
  (∀ x, ¬ L x) →
  image_ok n (words_for n) (words_for (N.of_nat (words_for n)))
    (mkImage (bits_new n) (bits_new n) (bits_new n) (bits_new n) (words_new (div_ceil n WORD_BITS)) (words_new (div_ceil n WORD_BITS))
       (words_new (div_ceil n WORD_BITS)) false imaged 0 0) L.
Proof.
  intros HL. assert (words_new (div_ceil n WORD_BITS) = bits_new (N.of_nat (words_for n))) as -> by (unfold words_for; rewrite N2Nat.id; done).
  split; cbn -[bits_get bits_new]; try (intros; rewrite bits_get_new in *; try done).
  - split; apply words_for_fit.
  - split_and!; apply sized_new.
  - split_and!; apply sized_new.
  - intros x Hx. exfalso. by apply (HL x).
  - split; [done|]. intros Hx. exfalso. by apply (HL x).
  - intros _. split; [done|]. intros x. by rewrite !bits_get_new.
Qed.

Lemma buddy_new_shape g m b :
  buddy_new g m = Ok b → granule (shape b) = g ∧ granule_shift (shape b) = trailing_zeros g ∧ max_order (shape b) = N.min m 31
  ∧ is_power_of_two g = true.
Proof. unfold buddy_new. destruct (is_power_of_two g); [|done]. cbn [negb]. intros [= <-]. cbn. split_and!; try done. unfold ORDER_MASK. lia. Qed.

(** A fresh allocator holds no live block, and its region is wholly free. *)
Lemma buddy_new_ok g m b imaged :
  buddy_new g m = Ok b → max_order (shape b) + granule_shift (shape b) < 64 →
  let b' := b <| image ::= λ i, i <| i_imaged := imaged |> |> in
  buddy_ok b' ∧ agree (view b') (mkRegion (λ _, None) (λ _, 0) (λ _, false) (λ _, false) (λ _, false) (λ _, false) false)
  ∧ p_free_bytes (pool b') = region_bytes (shape b').
Proof.
  intros E HR. destruct (buddy_new_shape g m b E) as (Eg&Es&Em&Hpow). cbn zeta. unfold buddy_new in E. rewrite Hpow in E. cbn [negb] in E.
  set (M := N.min (N.min (N.min m 63) ORDER_MASK) 31) in *. assert (max_order (shape b) = M) as EM by (injection E as <-; done).
  assert (M ≤ 31) as HM by (unfold M; lia). assert (0 < 2 ^ M) as Hpos by apply pow_pos.
  assert (b = mkBuddy (mkShape g (trailing_zeros g) M) (fresh_pool M (sat_mul (2 ^ M) g))
    (mkImage (bits_new (2 ^ M)) (bits_new (2 ^ M)) (bits_new (2 ^ M)) (bits_new (2 ^ M)) (words_new (div_ceil (2 ^ M) WORD_BITS))
       (words_new (div_ceil (2 ^ M) WORD_BITS)) (words_new (div_ceil (2 ^ M) WORD_BITS)) false false 0 0) (bits_new (2 ^ M)) 0) as -> by (injection E as <-; reflexivity).
  cbn [shape granule granule_shift max_order] in *.
  assert (shape_ok (mkShape g (trailing_zeros g) M)) as Hs by (split; cbn; [by apply power_of_two_log|done|done]).
  assert (∀ x, live_block (fresh_pool M (sat_mul (2 ^ M) g)) x = None) as Hnone.
  { intros x. unfold live_block, live_at. rewrite fresh_pool_cells by done. unfold fresh_cells, put. by case_decide. }
  pose proof (region_small _ (2 ^ M) Hs ltac:(cbn; lia)) as Hsmall. cbn [granule] in Hsmall.
  assert (sat_mul (2 ^ M) g = 2 ^ M * g) as Esat by (unfold sat_mul, usize_max in *; lia).
  set (b' := _ <| image ::= _ |>).
  assert (agree (view b') (mkRegion (λ _, None) (λ _, 0) (λ _, false) (λ _, false) (λ _, false) (λ _, false) false)) as Hag.
  { split; [exact Hnone| |exact (bits_get_new (2 ^ M))|done|exact (bits_get_new (2 ^ M))|exact (bits_get_new (2 ^ M))|done].
    intros x. change (default 0 (replicate (N.to_nat (2 ^ M)) 0 !! N.to_nat x) = 0). destruct (replicate _ 0 !! _) eqn:E2; [|done]. by apply lookup_replicate in E2 as [-> _]. }
  split_and!; [split; [|by apply (region_inv_agree _ _ Hag)]|done|done].
  split; cbn [shape pool image locked setter set_image max_order].
  - split; [done| |]; cbn [max_order].
    + apply (region_ext M _ (fresh_cells M)); [by apply fresh_pool_cells| |by apply fresh_region].
      apply (tiling_ext M (fresh_cells M)); [by apply fresh_pool_cells|by apply fresh_tiling].
    + cbn [granule]. rewrite (free_weight_ext M _ (fresh_cells M)) by (by apply fresh_pool_cells). rewrite fresh_weight by done. exact Esat.
  - apply (fresh_image (2 ^ M) imaged). intros x. unfold live. cbn [pool setter set_image]. rewrite Hnone. by intros [].
  - split; [apply sized_new|]. intros x. change (bits_get (bits_new (2 ^ M)) x = true → live b' x). by rewrite bits_get_new.
Qed.

(** ** Runs *)
Inductive reaches (b : Buddy) : list (BuddyOp * Answer) → Buddy → Prop :=
| reaches_nil : reaches b [] b
| reaches_op tr b1 op b2 a : reaches b tr b1 → may_run b1 op = true → run_op b1 op = (b2, a) → reaches b (tr ++ [(op, a)]) b2.
Inductive region_runs (sh : Shape) (g : Region) : list (BuddyOp * Answer) → Region → Prop :=
| region_nil g' : agree g' g → region_runs sh g [] g'
| region_op tr g1 op a g2 : region_runs sh g tr g1 → region_step sh g1 op a g2 → region_runs sh g (tr ++ [(op, a)]) g2.
Definition region_empty : Region := mkRegion (λ _, None) (λ _, 0) (λ _, false) (λ _, false) (λ _, false) (λ _, false) false.

(** An allocator as its owners make it, of a region whose bytes a [usize] counts. *)
Definition started (b : Buddy) : Prop :=
  (∃ g m, buddy_new g m = Ok b ∨ buddy_new_imaged g m = Ok b) ∧ max_order (shape b) + granule_shift (shape b) < 64.
Lemma started_ok b : started b → buddy_ok b ∧ agree (view b) region_empty.
Proof.
  intros [(g&m&H) HR].
  assert (∃ b0 imaged, buddy_new g m = Ok b0 ∧ b = b0 <| image ::= λ i, i <| i_imaged := imaged |> |>) as (b0&imaged&E&->).
  { destruct H as [H|H].
    - exists b, false. split; [done|]. unfold buddy_new in H. destruct (negb _); [done|]. by injection H as <-.
    - unfold buddy_new_imaged in H. destruct (buddy_new g m) as [b0|]; [|done]. injection H as <-. by exists b0, true. }
  destruct (buddy_new_ok g m b0 imaged E HR) as (H1&H2&_). done.
Qed.
Lemma reaches_ok b tr b' : buddy_ok b → reaches b tr b' → buddy_ok b' ∧ shape b' = shape b ∧ region_runs (shape b) (view b) tr (view b').
Proof.
  intros Hb. induction 1 as [|tr b1 op b2 a _ (H1&H2&H3) Hm E]; [split_and!; try done; by constructor|].
  destruct (run_op_ok b1 op b2 a H1 Hm E) as (Hb2&Hs&Hstep). split_and!; [done|congruence|]. rewrite H2 in Hstep. by econstructor.
Qed.
Lemma region_runs_agree sh g g0 tr g' : agree g g0 → region_runs sh g tr g' → region_runs sh g0 tr g'.
Proof. intros Ha. induction 1; [constructor; by etransitivity|by econstructor]. Qed.
Lemma started_reaches b0 tr b : started b0 → reaches b0 tr b → buddy_ok b ∧ shape b = shape b0.
Proof. intros [H _]%started_ok Hr. by destruct (reaches_ok b0 tr b H Hr) as (?&?&_). Qed.

(** C11. Every run of the buddy allocator, from a fresh one, is a run of the region of live blocks: each
    allocation answers a span no live block meets (and refuses only where there is none, or its generation is spent), each
    free the block it names or a refusal, a capture names the live blocks not deferred, and settling one frees exactly the
    deferred blocks no image names. *)
Theorem buddy_refines_region b0 tr b :
  started b0 → reaches b0 tr b → region_runs (shape b0) region_empty tr (view b).
Proof.
  intros [Hok Hag]%started_ok Hr. destruct (reaches_ok b0 tr b Hok Hr) as (_&_&H). by eapply region_runs_agree.
Qed.

(** ** Bytes *)
Definition apart (a b : Block) : Prop := offset a + blen a ≤ offset b ∨ offset b + blen b ≤ offset a.
Definition accepted (b : Buddy) (blk : Block) : Prop := is_ok (block_validate b blk) = true.

Lemma accepted_block b blk : core_ok b → accepted b blk ↔ ∃ x o, is_block (shape b) (view b) blk x o.
Proof.
  intros Hc. unfold accepted. split.
  - destruct (block_validate b blk) as [[x o]|] eqn:E; [|done]. intros _. exists x, o. by apply is_block_valid.
  - intros (x&o&H). apply is_block_valid in H; [|done]. by rewrite H.
Qed.
Lemma apart_bytes sh x o i y k j :
  shape_ok sh → o ≤ max_order sh → k ≤ max_order sh → apart (block_at sh x o i) (block_at sh y k j) ↔ x + 2 ^ o ≤ y ∨ y + 2 ^ k ≤ x.
Proof.
  intros Hs Ho Hk. unfold apart, block_at. cbn [offset blen]. rewrite !order_bytes_eq, !N.shiftl_mul_pow2, <- (sh_granule _ Hs) by done.
  pose proof (granule_pos sh Hs). rewrite <- !N.mul_add_distr_r, <- !N.mul_le_mono_pos_r by done. done.
Qed.
Lemma region_bytes_eq sh : shape_ok sh → region_bytes sh = 2 ^ max_order sh * granule sh.
Proof. intros Hs. unfold region_bytes, sat_mul. pose proof (region_small sh (2 ^ max_order sh) Hs ltac:(lia)). unfold usize_max in *. lia. Qed.
Lemma block_order b x o : core_ok b → live_block (pool b) x = Some o → o ≤ max_order (shape b).
Proof. intros Hc H. by apply (live_bound _ _ (co_pool _ Hc) x o H). Qed.

(** A taken span, in bytes. *)
Lemma takes_bytes b x o blk b' :
  core_ok b → core_ok b' → shape b' = shape b → takes (shape b) (view b) x o blk (view b') →
  (blen blk | offset blk) ∧ offset blk + blen blk ≤ region_bytes (shape b) ∧ accepted b' blk
  ∧ ∀ other, accepted b other → apart blk other ∧ accepted b' other.
Proof.
  intros Hc Hc' Hs ((Ho&Hal&Hfit)&Hun&->&Hag). pose proof (po_shape _ _ (co_pool _ Hc)) as Hsh. pose proof (granule_pos _ Hsh) as Hg.
  pose proof (pow_pos o) as Hpos. rewrite region_bytes_eq by done. cbn [block_at offset blen].
  rewrite order_bytes_eq, N.shiftl_mul_pow2, <- (sh_granule _ Hsh) by done. split_and!.
  - destruct Hal as [q ->]. exists q. lia.
  - rewrite <- N.mul_add_distr_r. by apply N.mul_le_mono_r.
  - apply accepted_block; [done|]. exists x, o. rewrite Hs. split.
    + rewrite (ag_live _ _ Hag). cbn. by rewrite decide_True.
    + rewrite (ag_incarnation _ _ Hag). cbn. by rewrite decide_True.
  - intros other (y&k&Hy&->)%accepted_block; [|done]. pose proof (block_order b y k Hc Hy) as Hk. pose proof (pow_pos k).
    assert (y + 2 ^ k ≤ x ∨ x + 2 ^ o ≤ y) as Hap by (by apply Hun). split; [apply apart_bytes; [done..|tauto]|].
    assert (y ≠ x) by lia. apply accepted_block; [done|]. exists y, k. rewrite Hs. split.
    + rewrite (ag_live _ _ Hag). cbn. by rewrite decide_False.
    + rewrite (ag_incarnation _ _ Hag). cbn. by rewrite decide_False.
Qed.

(** ** Allocation *)

(** C12. A block the allocator hands out holds the bytes asked for, lies in the region on its own size's boundary, meets
    no block that is live — so none an image names or a free deferred — and leaves every one of them live. *)
Theorem alloc_hands_out_apart b0 tr b n b' blk :
  started b0 → reaches b0 tr b → alloc b n = (b', Ok blk) →
  n ≤ blen blk ∧ (blen blk | offset blk) ∧ offset blk + blen blk ≤ region_bytes (shape b) ∧ accepted b' blk
  ∧ ∀ other, accepted b other → apart blk other ∧ accepted b' other.
Proof.
  intros Hst Hr E. destruct (started_reaches b0 tr b Hst Hr) as [[Hc _] _]. pose proof (po_shape _ _ (co_pool _ Hc)) as Hsh.
  pose proof (alloc_refines b n Hc) as H. rewrite E in H. destruct H as (Hc'&Hs&x&o&Ho&Ht). split; [|by eapply takes_bytes].
  destruct (proj1 (order_for_ok _ Hsh n o) Ho) as [HoM Hk]. destruct Ht as (_&_&->&_). cbn [block_at blen].
  rewrite order_bytes_eq by done. pose proof (proj1 (Hk o) ltac:(lia)). lia.
Qed.

(** C15. An allocation is refused as exhausted only where no span of its order in the region is free of live blocks, and
    the refusal changes nothing. *)
Theorem alloc_exhausted_when_full b0 tr b n b' requested most o x :
  started b0 → reaches b0 tr b → alloc b n = (b', Err (ArenaExhausted requested most)) → order_for (shape b) n = Ok o →
  (2 ^ o | x) → x + 2 ^ o ≤ 2 ^ max_order (shape b) →
  requested = n ∧ agree (view b') (view b) ∧ ¬ ∀ other, accepted b other → apart (block_at (shape b) x o 0) other.
Proof.
  intros Hst Hr E Ho Hal Hfit. destruct (started_reaches b0 tr b Hst Hr) as [[Hc _] _]. pose proof (po_shape _ _ (co_pool _ Hc)) as Hsh.
  pose proof (proj1 (order_for_ok _ Hsh n o) Ho) as [HoM _].
  pose proof (alloc_refines b n Hc) as H. rewrite E in H. destruct H as (_&_&H). cbn [answer region_step] in H. rewrite Ho in H.
  destruct H as [Hag [(most'&[= <- <-]&Hno)|(y&[=]&_)]]. split_and!; try done. intros Hall. apply (Hno x); [done|].
  intros y k Hy. destruct (Hall (block_at (shape b) y k (incarnation_at (pool b) y))) as [H|H].
  - apply accepted_block; [done|]. by exists y, k.
  - right. revert H. unfold block_at. cbn [offset blen].
    rewrite order_bytes_eq, !N.shiftl_mul_pow2, <- (sh_granule _ Hsh), <- N.mul_add_distr_r, <- N.mul_le_mono_pos_r by (done || by apply granule_pos). done.
  - left. revert H. unfold block_at. cbn [offset blen]. pose proof (block_order b y k Hc Hy).
    rewrite order_bytes_eq, !N.shiftl_mul_pow2, <- (sh_granule _ Hsh), <- N.mul_add_distr_r, <- N.mul_le_mono_pos_r by (done || by apply granule_pos). done.
Qed.

(** ** Freeing *)

(** A free of either kind answered without a refusal. *)
Definition frees (b : Buddy) (blk : Block) (b' : Buddy) : Prop :=
  buddy_free b blk = (b', Ok tt) ∨ ∃ d, free_or_defer b blk = (b', Ok d).
(** The block at [x] of incarnation [i] is gone: its head heads nothing, or a later block, or it waits for an image. *)
Definition gone (g : Region) (x i : N) : Prop :=
  i ≤ g_incarnation g x ∧ (is_Some (g_live g x) → i < g_incarnation g x ∨ g_deferred g x = true).
Lemma gone_agree g g' x i : agree g' g → gone g x i → gone g' x i.
Proof. intros [] [H1 H2]. unfold gone. by rewrite ag_incarnation, ag_live, ag_deferred. Qed.
Lemma gone_step sh g op a g' x i : gone g x i → region_step sh g op a g' → gone g' x i.
Proof.
  intros Hg.
  assert (∀ y o blk, takes sh g y o blk g' → gone g' x i) as Htake.
  { intros y o blk (_&_&_&Ha). apply (gone_agree _ _ _ _ Ha). destruct Hg as [H1 H2]. unfold gone. cbn.
    destruct (decide (x = y)) as [->|]; [|done]. split; [lia|]. intros _. left. lia. }
  assert (∀ y, agree g' (region_remove g y) → gone g' x i) as Hrem.
  { intros y Ha. apply (gone_agree _ _ _ _ Ha). destruct Hg as [H1 H2]. split; [done|]. cbn. destruct (decide (x = y)); [by intros []|done]. }
  assert (∀ keep, agree g' (region_settle g keep) → gone g' x i) as Hset.
  { intros keep Ha. apply (gone_agree _ _ _ _ Ha). destruct Hg as [H1 H2]. split; [done|]. cbn.
    destruct (g_deferred g x) eqn:Ed, (keep x) eqn:Ek; cbn; done. }
  destruct op, a; cbn [region_step]; try done.
  - intros (y&o&_&H). eauto.
  - intros [H _]. by eapply gone_agree.
  - intros (y&o&_&_&H). eauto.
  - intros [H _]. by eapply gone_agree.
  - intros (y&o&_&_&H). eauto.
  - intros [H _]. by eapply gone_agree.
  - intros (y&o&_&_&H). destruct deferred; [|eauto]. destruct H as [_ H]. apply (gone_agree _ _ _ _ H). destruct Hg as [H1 H2].
    split; [done|]. cbn. intros Hl%H2. case_decide; [by right|done].
  - intros [H _]. by eapply gone_agree.
  - intros (y&o&_&H). by apply (gone_agree _ _ _ _ H).
  - intros [H _]. by eapply gone_agree.
  - destruct kept as [kept|]; [|intros [H _]; by eapply gone_agree]. intros (y&o&[Hlv _]&_&_&ps&_&_&_&_&_&H). apply (gone_agree _ _ _ _ H).
    destruct Hg as [H1 H2]. unfold gone. cbn. destruct (decide (x = y)) as [->|Hne].
    + split; [done|]. intros _. apply H2. by eexists.
    + destruct (piece_at ps x) eqn:Ep; [|done]. split; [lia|]. intros _. left. lia.
  - intros [H _]. by eapply gone_agree.
  - intros H. by apply (gone_agree _ _ _ _ H).
  - destruct (g_capturing g); intros H; [eauto|]. by eapply gone_agree.
  - destruct (g_capturing g); intros H; [eauto|]. by eapply gone_agree.
Qed.
Lemma gone_runs sh g tr g' x i : region_runs sh g tr g' → gone g x i → gone g' x i.
Proof. induction 1 as [|tr g1 op a g2 _ IH Hstep]; intros Hg; [by eapply gone_agree|]. exact (gone_step sh g1 op a g2 x i (IH Hg) Hstep). Qed.

Lemma frees_ok b blk b' : buddy_ok b → frees b blk b' →
  buddy_ok b' ∧ shape b' = shape b ∧ ∃ x o, is_block (shape b) (view b) blk x o ∧ gone (view b') x (incarnation blk).
Proof.
  intros Hb H. assert (∃ op a, may_run b op = true ∧ run_op b op = (b', a) ∧ (op = OFree blk ∧ a = ADone ∨ op = OFreeOrDefer blk ∧ ∃ d, a = ADeferred d)) as (op&a&Hm&E&Hop).
  { destruct H as [H|[d H]]; [exists (OFree blk), ADone|exists (OFreeOrDefer blk), (ADeferred d)]; cbn; rewrite H; eauto 6. }
  destruct (run_op_ok b op b' a Hb Hm E) as (Hb'&Hs&Hstep). split_and!; try done.
  assert (∃ x o, is_block (shape b) (view b) blk x o
    ∧ (agree (view b') (region_remove (view b) x) ∨ agree (view b') (region_defer (view b) x))) as (x&o&[Hl ->]&Hag).
  { destruct Hop as [[-> ->]|[-> [d ->]]]; destruct Hstep as (x&o&Hblk&_&Ha); exists x, o; [tauto|]. destruct d; tauto. }
  exists x, o. split; [done|]. cbn [block_at incarnation].
  destruct Hag as [Hag|Hag]; apply (gone_agree _ _ _ _ Hag); (split; [cbn; lia|]); cbn; rewrite decide_True by done; [by intros []|by right].
Qed.
Lemma gone_refused b blk x o b1 :
  buddy_ok b1 → blk = block_at (shape b) x o (incarnation blk) → shape b1 = shape b → gone (view b1) x (incarnation blk) →
  (∃ e, buddy_free b1 blk = (b1, Err e)) ∧ ∃ e, free_or_defer b1 blk = (b1, Err e).
Proof.
  intros [Hc Hv] Hblk Hs [_ Hg]. unfold buddy_free, free_or_defer. destruct (block_validate b1 blk) as [[y k]|e] eqn:E; [|eauto].
  apply is_block_valid in E as [Hy E]; [|done]. pose proof (po_shape _ _ (co_pool _ Hc)) as Hsh.
  assert (y = x) as ->.
  { rewrite E in Hblk. unfold block_at in Hblk. rewrite Hs in Hblk. injection Hblk as Hoff _. apply (f_equal (λ v, N.shiftr v (granule_shift (shape b)))) in Hoff. by rewrite !shift_up in Hoff. }
  assert (bits_get (i_deferred (image b1)) x = true) as Hd.
  { destruct (Hg ltac:(by eexists)) as [H|H]; [|done]. rewrite E in H. cbn in H. lia. }
  rewrite named_view, (rv_deferred _ Hv x Hd), Hd by done. cbn [negb]. eauto.
Qed.

(** C13. A block is freed once: after a free of either kind accepted it, every later free of it, in any state the
    allocator reaches, is refused and changes nothing — also when its bytes were handed out again since. *)
Theorem no_double_free b0 tr b blk b1 tr' b2 :
  started b0 → reaches b0 tr b → frees b blk b1 → reaches b1 tr' b2 →
  (∃ e, buddy_free b2 blk = (b2, Err e)) ∧ ∃ e, free_or_defer b2 blk = (b2, Err e).
Proof.
  intros Hst Hr Hf Hr'. destruct (started_reaches b0 tr b Hst Hr) as [Hb _]. destruct (frees_ok b blk b1 Hb Hf) as (Hb1&Hs1&x&o&Hblk&Hg).
  destruct (reaches_ok b1 tr' b2 Hb1 Hr') as (Hb2&Hs2&Hruns).
  apply (gone_refused b blk x o b2 Hb2); [by destruct Hblk as [_ ->]|congruence|by eapply gone_runs].
Qed.

(** An allocation freed at once leaves the region as it was: the free is accepted, and every head, free or live, has
    its order again (the merges undo the splits exactly). *)
Theorem alloc_free_restores b0 tr b n b1 blk :
  started b0 → reaches b0 tr b → alloc b n = (b1, Ok blk) →
  ∃ b2, buddy_free b1 blk = (b2, Ok tt) ∧ (∀ x, cells (pool b2) x = cells (pool b) x) ∧ p_free_bytes (pool b2) = p_free_bytes (pool b).
Proof.
  intros Hst Hr E. destruct (started_reaches b0 tr b Hst Hr) as [Hb _].
  destruct (run_op_ok b (OAlloc n) b1 (ABlock blk) Hb eq_refl) as (Hb1&Hs1&x&o&_&(Hsp&Hun&->&Hag)); [cbn; by rewrite E|].
  assert (is_block (shape b1) (view b1) (block_at (shape b) x o (g_incarnation (view b) x + 1)) x o) as Hblk.
  { unfold is_block. rewrite (ag_live _ _ Hag), (ag_incarnation _ _ Hag), Hs1. cbn. by rewrite !decide_True. }
  assert (live_block (pool b) x = None) as Hnone.
  { destruct (live_block (pool b) x) as [k|] eqn:Ex; [|done]. pose proof (pow_pos k). pose proof (pow_pos o). destruct (Hun x k Ex); lia. }
  assert (named (view b1) x = false) as Hnm.
  { unfold named. rewrite (ag_committed _ _ Hag), (ag_captured _ _ Hag). cbn [region_add g_committed g_captured]. fold (named (view b) x).
    destruct (named (view b) x) eqn:En; [|done]. destruct (rv_named _ (proj2 Hb) x En) as [k Hk]. cbn [g_live view] in Hk. congruence. }
  set (blk := block_at _ _ _ _) in *. destruct (buddy_free b1 blk) as [b2 r] eqn:Ef.
  destruct (run_op_ok b1 (OFree blk) b2 (answer (λ _, ADone) r) Hb1 eq_refl) as (Hb2&Hs2&Hstep); [cbn; by rewrite Ef|].
  destruct r as [[]|e]; cbn [answer region_step] in Hstep.
  2:{ destruct Hstep as [_ H]. destruct (H x o Hblk). congruence. }
  destruct Hstep as (y&k&[Hy Ey]&_&Hag2). assert (y = x) as ->.
  { destruct Hblk as [_ Hblk]. rewrite Hblk in Ey. unfold block_at in Ey. injection Ey as Hoff _ _.
    apply (f_equal (λ v, N.shiftr v (granule_shift (shape b1)))) in Hoff. by rewrite !shift_up in Hoff. }
  assert (∀ x', cells (pool b2) x' = cells (pool b) x') as Hcells.
  { apply (tiling_unique (max_order (shape b))); [rewrite <- Hs1, <- Hs2; apply region_tile, Hb2|apply region_tile, Hb|]. intros z.
    change (g_live (view b2) z = live_block (pool b) z). rewrite (ag_live _ _ Hag2). cbn [region_remove g_live]. rewrite (ag_live _ _ Hag). cbn [region_add g_live view].
    destruct (decide (z = x)) as [->|]; [done|done]. }
  exists b2. split_and!; [done|done|].
  rewrite (po_free _ _ (co_pool _ (proj1 Hb2))), (po_free _ _ (co_pool _ (proj1 Hb))), Hs2, Hs1. f_equal. by apply free_weight_ext.
Qed.

(** ** Images *)

(** A step other than a commit keeps the block at [x] that the committed image names, and hands out no span it meets. *)
Lemma committed_step sh g op a g' x o :
  region_inv g → op ≠ OCommit → region_step sh g op a g' → g_committed g x = true → g_live g x = Some o →
  g_committed g' x = true ∧ g_live g' x = Some o ∧ g_incarnation g' x = g_incarnation g x
  ∧ ∀ nb, a = ABlock nb → ∃ y k i, nb = block_at sh y k i ∧ k ≤ max_order sh ∧ (x + 2 ^ o ≤ y ∨ y + 2 ^ k ≤ x).
Proof.
  intros Hv Hop Hstep Hcm Hl. assert (named g x = true) as Hn by (unfold named; by rewrite Hcm).
  assert (∀ g0, agree g' g0 → g_committed g0 x = true → g_live g0 x = Some o → g_incarnation g0 x = g_incarnation g x →
    g_committed g' x = true ∧ g_live g' x = Some o ∧ g_incarnation g' x = g_incarnation g x) as Hsame.
  { intros g0 [] H1 H2 H3. rewrite ag_committed, ag_live, ag_incarnation. done. }
  assert (∀ y k blk, takes sh g y k blk g' → g_committed g' x = true ∧ g_live g' x = Some o ∧ g_incarnation g' x = g_incarnation g x
    ∧ ∀ nb, ABlock blk = ABlock nb → ∃ y k i, nb = block_at sh y k i ∧ k ≤ max_order sh ∧ (x + 2 ^ o ≤ y ∨ y + 2 ^ k ≤ x)) as Htake.
  { intros y k blk ((Hk&_)&Hun&->&Ha). pose proof (pow_pos o). pose proof (pow_pos k). pose proof (Hun x o Hl) as Hap. assert (x ≠ y) by lia.
    destruct (Hsame _ Ha) as (?&?&?); cbn; rewrite ?decide_False by done; try done. split_and!; try done. intros nb [= <-]. eauto 6. }
  destruct op, a; cbn [region_step] in Hstep; try done.
  - destruct Hstep as (y&k&_&H). eauto.
  - destruct Hstep as [H _]. destruct (Hsame _ H) as (?&?&?); done.
  - destruct Hstep as (y&k&_&_&H). eauto.
  - destruct Hstep as [H _]. destruct (Hsame _ H) as (?&?&?); done.
  - destruct Hstep as (y&k&_&Hy&H). assert (x ≠ y) by congruence. destruct (Hsame _ H) as (?&?&?); cbn; rewrite ?decide_False by done; done.
  - destruct Hstep as [H _]. destruct (Hsame _ H) as (?&?&?); done.
  - destruct Hstep as (y&k&_&Hy&H). destruct deferred; [destruct H as [_ H]|]; destruct (Hsame _ H) as (?&?&?); try done; cbn; rewrite decide_False by congruence; done.
  - destruct Hstep as [H _]. destruct (Hsame _ H) as (?&?&?); done.
  - destruct Hstep as (y&k&_&H). destruct (Hsame _ H) as (?&?&?); done.
  - destruct Hstep as [H _]. destruct (Hsame _ H) as (?&?&?); done.
  - destruct kept as [kept|]; [|destruct Hstep as [H _]; destruct (Hsame _ H) as (?&?&?); done].
    destruct Hstep as (y&k&_&Hy&_&ps&_&_&_&Hnew&_&H). assert (x ≠ y) as Hne by congruence.
    assert (piece_at ps x = None) as Ep by (destruct (piece_at ps x) as [j|] eqn:Ep; [|done]; specialize (Hnew x j Ep Hne); congruence).
    destruct (Hsame _ H) as (?&?&?); cbn; rewrite ?Ep, ?(decide_False (P := x = y)) by done; done.
  - destruct Hstep as [H _]. destruct (Hsame _ H) as (?&?&?); done.
  - destruct (Hsame _ Hstep) as (?&?&?); done.
  - destruct (g_capturing g); destruct (Hsame _ Hstep) as (?&?&?); cbn; rewrite ?Hcm, ?andb_false_r; done.
Qed.

(** C14. A block the committed recovery image names stays as it is until a commit: through any run without one, it is the
    same live block of the same incarnation, and no block handed out meets it. *)
Theorem committed_block_kept b0 tr b blk x o tr' b2 :
  started b0 → reaches b0 tr b → block_validate b blk = Ok (x, o) → bits_get (i_committed (image b)) x = true →
  reaches b tr' b2 → Forall (λ e, e.1 ≠ OCommit) tr' →
  block_validate b2 blk = Ok (x, o) ∧ ∀ op nb, (op, ABlock nb) ∈ tr' → apart nb blk.
Proof.
  intros Hst Hr Hval Hcm Hr'. destruct (started_reaches b0 tr b Hst Hr) as [Hb _]. pose proof (po_shape _ _ (co_pool _ (proj1 Hb))) as Hsh.
  pose proof (proj1 (is_block_valid b blk x o (proj1 Hb)) Hval) as [Hl Hblk]. pose proof (block_order b x o (proj1 Hb) Hl) as HoM. intros Hno.
  assert (buddy_ok b2 ∧ shape b2 = shape b ∧ g_committed (view b2) x = true ∧ g_live (view b2) x = Some o
    ∧ g_incarnation (view b2) x = g_incarnation (view b) x ∧ ∀ op nb, (op, ABlock nb) ∈ tr' → apart nb blk) as (Hb2&Hs2&_&Hl2&Hi2&Hap).
  { induction Hr' as [|tr' b1 op b2 a Hr1 IH Hm E]; [split_and!; try done; by intros ?? ?%elem_of_nil|].
    apply Forall_app in Hno as [Hno1 Hno2]. apply Forall_cons in Hno2 as [Hno2 _]. cbn in Hno2. destruct (IH Hno1) as (Hb1&Hs1&Hc1&Hl1&Hi1&Hap1).
    destruct (run_op_ok b1 op b2 a Hb1 Hm E) as (Hb2&Hs2&Hstep).
    destruct (committed_step _ _ _ _ _ x o (proj2 Hb1) Hno2 Hstep Hc1 Hl1) as (Hc2&Hl2&Hi2&Hnew). split_and!; try congruence || done.
    intros op' nb [H|[= -> <-]%list_elem_of_singleton]%elem_of_app; [by eapply Hap1|].
    destruct (Hnew nb eq_refl) as (y&k&i&->&Hk&Hd). rewrite Hblk, Hs1. apply apart_bytes; [done|by rewrite <- Hs1|done|tauto]. }
  split; [|done]. apply is_block_valid; [apply Hb2|]. split; [done|]. by rewrite Hi2, Hs2.
Qed.

(** A commit tells its owner each block it returns to the free lists, once, with its offset, length and lock: the
    blocks told are exactly those live before and not after. *)
Theorem commit_tells_released b0 tr b b' out :
  started b0 → reaches b0 tr b → commit_capture_releasing b = (b', out) →
  ∃ xs, out = map (told b) xs ∧ NoDup xs ∧ ∀ x, x ∈ xs ↔ live b x ∧ ¬ live b' x.
Proof.
  intros Hst Hr E. destruct (started_reaches b0 tr b Hst Hr) as [[Hc Hv] _]. destruct (i_capturing (image b)) eqn:Eg.
  2:{ unfold commit_capture_releasing in E. rewrite Eg in E. injection E as <- <-. exists []. split_and!; [done|apply NoDup_nil_2|].
      intros x. rewrite elem_of_nil. tauto. }
  assert (i_imaged (image b) = true) as Him.
  { destruct (i_imaged (image b)) eqn:Ei; [done|]. destruct (im_fresh _ _ _ _ _ (co_image _ Hc) Ei). congruence. }
  pose proof (commit_ok b Hc Eg Him) as H. rewrite E in H. destruct H as [Hsd _]. destruct (sd_told _ _ _ _ Hsd) as (xs&->&Hnd&Hxs).
  exists xs. split_and!; try done. intros x. rewrite Hxs. unfold live. rewrite (sd_live _ _ _ _ Hsd).
  assert (bits_get (i_deferred (image b)) x = true → is_Some (live_block (pool b) x)) as Hdl by apply (im_deferred _ _ _ _ _ (co_image _ Hc)).
  destruct (bits_get (i_deferred (image b)) x), (bits_get (i_capture (image b)) x); cbn [andb negb]; split; try (by intros [? ?]); try tauto.
  - intros _. split; [auto|by intros [? [=]]].
Qed.

(** A capture, though it recomputes only the words that changed, names exactly the blocks the state bytes hold
    allocated whose free is not deferred. *)
Theorem capture_reads_state b0 tr b x :
  started b0 → reaches b0 tr b →
  bits_get (i_capture (image (capture b))) x =
    negb (state_at (pool b) x =? INSIDE) && negb (is_free_byte (state_at (pool b) x)) && negb (bits_get (i_deferred (image b)) x).
Proof.
  intros Hst Hr. destruct (started_reaches b0 tr b Hst Hr) as [[Hc _] _]. destruct (capture_ok b Hc) as (_&_&_&_&_&_&_&_&->). f_equal.
  unfold live, live_block, live_at, cells, cell_of. destruct (state_at (pool b) x =? INSIDE); [done|]. by destruct (is_free_byte _).
Qed.

(** ** Trimming *)

(** Blocks whose bytes follow one another, from [at_] to [end_]. *)
Fixpoint in_line (at_ : N) (blocks : list Block) (end_ : N) : Prop :=
  match blocks with [] => at_ = end_ | blk :: blocks => offset blk = at_ ∧ in_line (offset blk + blen blk) blocks end_ end.
Lemma laid_line sh x ps e v :
  shape_ok sh → laid x ps e → (∀ y k, piece_at ps y = Some k → k ≤ max_order sh) →
  in_line (x * granule sh) (map (λ p, block_at sh p.1 p.2 (v p.1)) ps) (e * granule sh).
Proof.
  intros Hs. revert x. induction ps as [|[y k] ps IH]; intros x Hl Hk; [cbn in *; by subst|]. pose proof (piece_at_head _ _ _ _ _ Hl) as Hhd.
  destruct Hl as (->&_&Hl). cbn [map in_line fst snd block_at offset blen]. rewrite N.shiftl_mul_pow2, <- (sh_granule _ Hs). split; [done|].
  rewrite order_bytes_eq, <- N.mul_add_distr_r by (eauto). apply IH; [done|]. intros z j Hz. apply (Hk z). cbn. case_decide as E; [|done].
  apply (piece_at_laid _ _ _ _ _ Hl) in Hz. pose proof (pow_pos k). lia.
Qed.
Lemma pieces_head below at_ n x o ps :
  pieces_of below at_ n = (x, o) :: ps → pieces_of (N.to_nat (o + 1)) at_ n = (x, o) :: ps.
Proof.
  revert at_. induction below as [|below IH]; intros at_; [done|]. cbn [pieces_of]. destruct (N.testbit n (N.of_nat below)) eqn:Eb; [|apply IH].
  intros [= <- <- <-]. replace (N.to_nat (N.of_nat below + 1)) with (S below) by lia. cbn [pieces_of]. by rewrite Eb.
Qed.
Lemma trimmed_pieces_ok sh p ps :
  (∀ e, In e ps → live_block p e.1 = Some e.2) → trimmed_pieces sh p ps = Ok (map (λ e, block_at sh e.1 e.2 (incarnation_at p e.1)) ps).
Proof.
  induction ps as [|[x o] ps IH]; intros H; [done|]. cbn [trimmed_pieces map fst snd].
  pose proof (H (x, o) ltac:(by left)) as Hx%live_block_some. unfold cells in Hx. apply cell_some in Hx as (H1&H2&H3). cbn [fst snd] in *.
  rewrite (proj2 (N.eqb_neq _ _) H1), H2, H3, N.eqb_refl. cbn [orb negb]. rewrite IH by (intros e He; apply H; by right). done.
Qed.
Lemma piece_at_exact at_ ps e p : laid at_ ps e → In p ps → piece_at ps p.1 = Some p.2.
Proof.
  revert at_. induction ps as [|[x o] ps IH]; intros at_; [done|]. intros (->&_&Hl) [<-|Hp]; cbn; [by rewrite decide_True|].
  pose proof (IH _ Hl Hp) as H. pose proof (piece_at_laid _ _ _ _ _ Hl H) as (_&?&_). pose proof (pow_pos o). by rewrite decide_False by lia.
Qed.

(** A trim that gives bytes back keeps the block's first bytes, at least those asked for and fewer than the block's,
    as blocks in line from its offset, the first with its incarnation; all are live, every other live block stays, and
    the kept blocks are found again from the first and the length asked for. *)
Theorem trim_keeps_prefix b0 tr b blk keep b' kept :
  started b0 → reaches b0 tr b → trim b blk keep = (b', Ok (Some kept)) →
  ∃ first rest total, kept = first :: rest ∧ in_line (offset blk) kept (offset blk + total) ∧ keep ≤ total < blen blk
    ∧ incarnation first = incarnation blk ∧ trimmed_blocks b' first keep = Ok kept ∧ Forall (accepted b') kept
    ∧ ∀ other, accepted b other → other ≠ blk → accepted b' other.
Proof.
  intros Hst Hr E. destruct (started_reaches b0 tr b Hst Hr) as [Hb _]. pose proof (trim_refines b blk keep Hb) as H. rewrite E in H.
  destruct H as (Hc'&Hs&x&o&[Hl ->]&_&_&ps&Eps&Hn&Hlaid&Hnew&Ekept&Hag). pose proof (co_pool _ (proj1 Hb)) as Hp. pose proof (po_shape _ _ Hp) as Hsh.
  pose proof (granule_pos _ Hsh) as Hg. set (n := kept_granules (shape b) keep) in *. pose proof (block_order b x o (proj1 Hb) Hl) as HoM.
  assert (N.max keep 1 ≤ n * granule (shape b)) as Hkeep by (apply ceil_le; [done|]; unfold n, kept_granules, div_ceil; lia).
  destruct ps as [|[x0 o0] ps'] eqn:Ep; [cbn in Hlaid; nia|]. assert (x0 = x) as -> by (by destruct Hlaid as [-> _]). set (bs := (x, o0) :: ps') in *.
  assert (∀ y, incarnation_at (pool b') y = g_incarnation (region_trim (view b) x bs) y) as Hinc by apply Hag.
  assert (∀ e, In e bs → live_block (pool b') e.1 = Some e.2) as Hlive.
  { intros e He. change (g_live (view b') e.1 = Some e.2). rewrite (ag_live _ _ Hag). cbn [region_trim g_live]. by rewrite (piece_at_exact _ _ _ _ Hlaid He). }
  assert (∀ e, In e bs → is_block (shape b') (view b') (block_at (shape b) e.1 e.2 (g_incarnation (region_trim (view b) x bs) e.1)) e.1 e.2) as Hblocks.
  { intros e He. split; [by apply Hlive|]. by rewrite (ag_incarnation _ _ Hag), Hs. }
  assert (∀ y k, piece_at bs y = Some k → k ≤ max_order (shape b)) as Hk.
  { intros y k (_&_&Hy)%(piece_at_laid _ _ _ _ _ Hlaid). pose proof (live_bound _ _ Hp x o Hl) as (_&_&?&_). destruct (decide (k ≤ max_order (shape b))); [done|].
    assert (2 ^ max_order (shape b) < 2 ^ k) by (apply N.pow_lt_mono_r; lia). lia. }
  exists (block_at (shape b) x o0 (g_incarnation (region_trim (view b) x bs) x)), (tail kept), (n * granule (shape b)).
  set (first := block_at (shape b) x o0 _). set (blk := block_at (shape b) x o _).
  assert (offset blk = x * granule (shape b) ∧ blen blk = 2 ^ o * granule (shape b)) as [-> ->].
  { unfold blk. cbn [block_at offset blen]. by rewrite order_bytes_eq, N.shiftl_mul_pow2, <- (sh_granule _ Hsh). }
  split_and!.
  - by rewrite Ekept.
  - rewrite Ekept, <- N.mul_add_distr_r. by apply (laid_line _ _ _ _ (g_incarnation (region_trim (view b) x bs))).
  - lia.
  - by apply N.mul_lt_mono_pos_r.
  - unfold first. cbn. by rewrite decide_True.
  - unfold trimmed_blocks. rewrite (proj2 (is_block_valid b' first x o0 Hc') (Hblocks (x, o0) ltac:(by left))), Hs. fold (kept_granules (shape b) keep). fold n.
    rewrite (pieces_head _ _ _ _ _ _ (eq_sym Eps)). cbn [head]. rewrite bool_decide_eq_true_2 by done. fold bs. rewrite trimmed_pieces_ok by done. rewrite Ekept.
    f_equal. apply map_ext. intros e. by rewrite Hinc.
  - rewrite Ekept. apply Forall_map, Forall_forall. intros e He%list_elem_of_In. apply accepted_block; [done|]. eauto.
  - intros other (y&k&[Hy ->])%accepted_block Hne; [|apply Hb]. apply accepted_block; [done|]. assert (y ≠ x) as Hyx.
    { intros ->. apply Hne. assert (k = o) as -> by congruence. done. }
    assert (piece_at bs y = None) as Epy by (destruct (piece_at bs y) as [j|] eqn:Ej; [specialize (Hnew y j Ej Hyx); congruence|done]).
    exists y, k. split; [rewrite (ag_live _ _ Hag)|rewrite (ag_incarnation _ _ Hag), Hs]; cbn [region_trim g_live g_incarnation]; by rewrite Epy, ?decide_False by done.
Qed.

(** Freeing a trimmed block's blocks is a run of frees. *)
Lemma reaches_trans b tr b1 tr' b2 : reaches b tr b1 → reaches b1 tr' b2 → reaches b (tr ++ tr') b2.
Proof. intros Hr. induction 1; [by rewrite app_nil_r|]. rewrite app_assoc. by econstructor. Qed.
Lemma free_all_reaches blocks b d b' r : free_or_defer_all b blocks d = (b', r) → ∃ tr, reaches b tr b'.
Proof.
  revert b d. induction blocks as [|blk blocks IH]; intros b d; cbn [free_or_defer_all]; [intros [= <- _]; exists []; constructor|].
  destruct (free_or_defer b blk) as [b1 [d1|e]] eqn:E.
  - intros (tr&Htr)%IH. exists ([] ++ [(OFreeOrDefer blk, ADeferred d1)] ++ tr). rewrite app_assoc. eapply reaches_trans; [|exact Htr].
    eapply reaches_op; [constructor|done|]. cbn. by rewrite E.
  - intros [= <- _]. exists ([] ++ [(OFreeOrDefer blk, ARefused e)]). eapply reaches_op; [constructor|done|]. cbn. by rewrite E.
Qed.
Lemma free_trimmed_reaches b first keep b' r : free_or_defer_trimmed b first keep = (b', r) → ∃ tr, reaches b tr b'.
Proof.
  unfold free_or_defer_trimmed. destruct (trimmed_blocks b first keep) as [blocks|e]; [apply free_all_reaches|].
  intros [= <- _]. exists []. constructor.
Qed.

(** ** A small allocator: four granules of 4096 bytes *)
Fixpoint run_ops (b : Buddy) (ops : list BuddyOp) : list (BuddyOp * Answer) * Buddy :=
  match ops with
  | [] => ([], b)
  | op :: ops => let '(b1, a) := run_op b op in let '(tr, b2) := run_ops b1 ops in ((op, a) :: tr, b2)
  end.
Fixpoint may_run_all (b : Buddy) (ops : list BuddyOp) : bool :=
  match ops with [] => true | op :: ops => may_run b op && may_run_all (run_op b op).1 ops end.
Lemma run_ops_reaches b ops : may_run_all b ops = true → reaches b (run_ops b ops).1 (run_ops b ops).2.
Proof.
  revert b. induction ops as [|op ops IH]; intros b; [constructor|]. cbn [may_run_all run_ops]. intros [Hm Hall]%andb_true_iff.
  destruct (run_op b op) as [b1 a] eqn:E. cbn [fst] in Hall. specialize (IH b1 Hall). destruct (run_ops b1 ops) as [tr b2]. cbn [fst snd] in *.
  change ((op, a) :: tr) with ([(op, a)] ++ tr). eapply reaches_trans; [|exact IH]. apply (reaches_op b [] b op b1 a); [constructor|done|done].
Qed.
Definition small : Buddy :=
  match buddy_new 4096 2 with Ok b => b | Err _ => mkBuddy (mkShape 1 0 0) (mkPool [] [] [] [] [] 0) (mkImage [] [] [] [] [] [] [] false false 0 0) [] 0 end.
Lemma small_started : started small.
Proof. split; [exists 4096, 2; left; reflexivity|vm_compute; reflexivity]. Qed.
(** A block allocated, published and freed while a later block is live. *)
Definition small_ops : list BuddyOp := [OAlloc 4096; OCapture; OCommit; OAlloc 5000].
Definition small_run : list (BuddyOp * Answer) * Buddy := run_ops small small_ops.
Lemma small_reaches : reaches small small_run.1 small_run.2.
Proof. apply run_ops_reaches. vm_compute. reflexivity. Qed.

Lemma buddy_refines_region_witness : region_runs (shape small) region_empty small_run.1 (view small_run.2).
Proof. apply (buddy_refines_region small small_run.1 small_run.2); [apply small_started|apply small_reaches]. Defined.
Lemma alloc_hands_out_apart_witness :
  let r := alloc small_run.2 100 in ∃ blk, r.2 = Ok blk ∧ ∀ other, accepted small_run.2 other → apart blk other ∧ accepted r.1 other.
Proof.
  cbv zeta. exists (mkBlock 4096 4096 1). split; [vm_compute; reflexivity|].
  apply (alloc_hands_out_apart small small_run.1 small_run.2 100 (alloc small_run.2 100).1 (mkBlock 4096 4096 1));
    [apply small_started|apply small_reaches|vm_compute; reflexivity].
Defined.
Lemma alloc_exhausted_when_full_witness :
  ¬ ∀ other, accepted small_run.2 other → apart (block_at (shape small_run.2) 0 2 0) other.
Proof.
  apply (alloc_exhausted_when_full small small_run.1 small_run.2 16384 small_run.2 16384 4096 2 0);
    [apply small_started|apply small_reaches|vm_compute; reflexivity|vm_compute; reflexivity|exists 0; reflexivity|vm_compute; discriminate].
Defined.
Lemma no_double_free_witness :
  let b1 := (free_or_defer small_run.2 (mkBlock 0 4096 1)).1 in ∃ e, free_or_defer b1 (mkBlock 0 4096 1) = (b1, Err e).
Proof.
  cbv zeta. set (b1 := (free_or_defer small_run.2 (mkBlock 0 4096 1)).1).
  apply (no_double_free small small_run.1 small_run.2 (mkBlock 0 4096 1) b1 [] b1);
    [apply small_started|apply small_reaches|right; exists true; vm_compute; reflexivity|constructor].
Defined.
Lemma alloc_free_restores_witness :
  let b1 := (alloc small_run.2 100).1 in ∃ b2, buddy_free b1 (mkBlock 4096 4096 1) = (b2, Ok tt) ∧ ∀ x, cells (pool b2) x = cells (pool small_run.2) x.
Proof.
  cbv zeta. destruct (alloc_free_restores small small_run.1 small_run.2 100 (alloc small_run.2 100).1 (mkBlock 4096 4096 1)) as (b2&H1&H2&_);
    [apply small_started|apply small_reaches|vm_compute; reflexivity|]. exists b2. split; assumption.
Defined.
Definition later_ops : list BuddyOp := [OFreeOrDefer (mkBlock 0 4096 1); OAlloc 4096; OFree (mkBlock 8192 8192 1); OAlloc 4096].
Lemma committed_block_kept_witness :
  let r := run_ops small_run.2 later_ops in block_validate r.2 (mkBlock 0 4096 1) = Ok (0, 0).
Proof.
  cbv zeta. apply (committed_block_kept small small_run.1 small_run.2 (mkBlock 0 4096 1) 0 0 (run_ops small_run.2 later_ops).1 (run_ops small_run.2 later_ops).2);
    [apply small_started|apply small_reaches|vm_compute; reflexivity|vm_compute; reflexivity|apply run_ops_reaches; vm_compute; reflexivity|].
  vm_compute. repeat constructor; discriminate.
Defined.
(** The same, deferred and captured again: the commit releases it. *)
Definition release_run : list (BuddyOp * Answer) * Buddy := run_ops small (small_ops ++ [OFreeOrDefer (mkBlock 0 4096 1); OCapture]).
Lemma release_reaches : reaches small release_run.1 release_run.2.
Proof. apply run_ops_reaches. vm_compute. reflexivity. Qed.
Lemma commit_tells_released_witness :
  let r := commit_capture_releasing release_run.2 in
  r.2 = [(0, 4096, false)] ∧ ∃ xs, r.2 = map (told release_run.2) xs ∧ NoDup xs ∧ ∀ x, x ∈ xs ↔ live release_run.2 x ∧ ¬ live r.1 x.
Proof.
  cbv zeta. split; [vm_compute; reflexivity|].
  apply (commit_tells_released small release_run.1 release_run.2); [apply small_started|apply release_reaches|by destruct (commit_capture_releasing release_run.2)].
Defined.
Lemma capture_reads_state_witness : bits_get (i_capture (image (capture small_run.2))) 2 = true.
Proof.
  rewrite (capture_reads_state small small_run.1 small_run.2 2); [vm_compute; reflexivity|apply small_started|apply small_reaches].
Defined.
Lemma trim_keeps_prefix_witness :
  let b := (run_ops small [OAlloc 16384]).2 in
  ∃ first rest total, in_line 0 (first :: rest) total ∧ 12000 ≤ total < 16384 ∧ trimmed_blocks (trim b (mkBlock 0 16384 1) 12000).1 first 12000 = Ok (first :: rest).
Proof.
  cbv zeta. set (b := (run_ops small [OAlloc 16384]).2).
  destruct (trim_keeps_prefix small (run_ops small [OAlloc 16384]).1 b (mkBlock 0 16384 1) 12000 (trim b (mkBlock 0 16384 1) 12000).1
    [mkBlock 0 8192 1; mkBlock 8192 4096 1]) as (first&rest&total&E&H1&H2&_&H3&_);
    [apply small_started|apply run_ops_reaches; vm_compute; reflexivity|vm_compute; reflexivity|]. rewrite E in H1, H3. by exists first, rest, total.
Defined.

(** A capture taken while one is open forgets what the open one named: a block freed under the first is freed again under
    the second. Its one caller settles every capture before the next, which [may_run] states. *)
Example capture_while_open_frees_twice :
  let blk := mkBlock 0 4096 1 in
  let b := (run_ops small [OAlloc 4096; OCapture; OFreeOrDefer blk; OCapture]).2 in
  may_run_all small [OAlloc 4096; OCapture; OFreeOrDefer blk; OCapture] = false ∧ (free_or_defer b blk).2 = Ok false.
Proof. vm_compute. done. Qed.
