(* ===== verification/Segmented.v ===== *)
(** * Segmented storage

    Models [crates/mem/src/segmented.rs]: an array that grows by appending a
    segment of a power-of-two length, and what it promises the slab that keeps
    its slots in one: it is a list of its elements, indexed from zero. *)

From S2P Require Import Prelude BuddyBits.
#[local] Open Scope N_scope.

(** ** What a slab needs of its storage *)

(** Elements by index, appended at the end while there are fewer than [bound] of them. *)
Class SlotStore (A St : Type) := {
  store_items : St → list A;
  store_ok : N → St → Prop;
  store_len : St → N;
  store_get : St → N → option A;
  store_set : St → N → A → St;
  store_push : St → A → St * N;
  store_len_ok bound s : store_ok bound s → store_len s = len (store_items s);
  store_get_ok bound s i : store_ok bound s → store_get s i = store_items s !! N.to_nat i;
  store_set_ok bound s i a : store_ok bound s →
    store_ok bound (store_set s i a) ∧ store_items (store_set s i a) = <[N.to_nat i := a]> (store_items s);
  store_push_ok bound s a : store_ok bound s → len (store_items s) < bound →
    let '(s', i) := store_push s a in
    store_ok bound s' ∧ i = len (store_items s) ∧ store_items s' = store_items s ++ [a]
}.

(** ** Segments *)

(** A [Vec]: its capacity and its elements. A push past the capacity grows it; no segment is pushed past its own. *)
Record Vec (A : Type) := mkVec { v_capacity : N; v_items : list A }.
Arguments mkVec {A}.
Arguments v_capacity {A}.
Arguments v_items {A}.
Definition with_capacity {A} (n : N) : Vec A := mkVec n [].
Definition vec_push {A} (v : Vec A) (a : A) : Vec A :=
  mkVec (N.max (v_capacity v) (len (v_items v) + 1)) (v_items v ++ [a]).

(** [Segmented]. *)
Record Segmented (A : Type) := mkSegmented {
  sg_segments : list (Vec A); sg_reserve : list (Vec A); sg_segment_len : N; sg_shift : N; sg_len : N }.
Arguments mkSegmented {A}.
Arguments sg_segments {A}.
Arguments sg_reserve {A}.
Arguments sg_segment_len {A}.
Arguments sg_shift {A}.
Arguments sg_len {A}.

Section segmented.
Context {A : Type}.
Implicit Types (s : Segmented A) (v : Vec A) (a : A) (i n : N).

(** [Segmented::new], with [usize::next_power_of_two], and [Segmented::preallocated]. *)
Definition segmented_new n : Segmented A :=
  let segment_len := 2 ^ N.log2_up (N.max n 1) in
  mkSegmented [] [] segment_len (trailing_zeros segment_len) 0.
Definition segmented_preallocated n : Segmented A :=
  let s := segmented_new n in mkSegmented [] [with_capacity n] (sg_segment_len s) (sg_shift s) (sg_len s).

Definition segmented_is_empty s : bool := sg_len s =? 0.
Definition segmented_capacity s : N :=
  match last (sg_segments s) with
  | None => 0
  | Some v => sat_add (sat_mul (sat_sub (len (sg_segments s)) 1) (sg_segment_len s)) (N.min (v_capacity v) (sg_segment_len s))
  end.
Definition reserve_segments s n : Segmented A :=
  mkSegmented (sg_segments s) (sg_reserve s ++ replicate (N.to_nat n) (with_capacity (sg_segment_len s))) (sg_segment_len s) (sg_shift s) (sg_len s).
Definition reserved_segments s : N := len (sg_reserve s).

(** [Segmented::split]. *)
Definition split_index s i : N * N := (N.shiftr i (sg_shift s), N.land i (sat_sub (sg_segment_len s) 1)).

(** [Segmented::push_reporting] and [Segmented::push]: [Vec::pop] takes the last of the reserve. *)
Definition take_segment s : bool * Vec A * list (Vec A) :=
  match last (sg_reserve s) with
  | Some v => (false, v, take (pred (length (sg_reserve s))) (sg_reserve s))
  | None => (true, with_capacity (sg_segment_len s), sg_reserve s)
  end.
(** The push into the segment of the next index. *)
Definition append_last s a : Segmented A :=
  mkSegmented (alter (λ v, vec_push v a) (N.to_nat (split_index s (sg_len s)).1) (sg_segments s)) (sg_reserve s) (sg_segment_len s)
    (sg_shift s) (sat_add (sg_len s) 1).
Definition push_reporting s a : Segmented A * (bool * N) :=
  let '(allocated, s) :=
    if sg_len s =? segmented_capacity s then
      let '(allocated, v, reserve) := take_segment s in
      (allocated, mkSegmented (sg_segments s ++ [v]) reserve (sg_segment_len s) (sg_shift s) (sg_len s))
    else (false, s) in
  (append_last s a, (allocated, sg_len s)).
Definition segmented_push s a : Segmented A * N := let '(s, (_, index)) := push_reporting s a in (s, index).

(** [Segmented::pop]: an emptied last segment goes to the reserve. *)
Definition vec_pop (v : Vec A) : Vec A := mkVec (v_capacity v) (take (pred (length (v_items v))) (v_items v)).
Definition segmented_pop s : Segmented A * option A :=
  if sg_len s =? 0 then (s, None) else
  let '(seg, _) := split_index s (sat_sub (sg_len s) 1) in
  match sg_segments s !! N.to_nat seg ≫= λ v, last (v_items v) with
  | None => (s, None)
  | Some a =>
      let segments := alter vec_pop (N.to_nat seg) (sg_segments s) in
      let '(segments, reserve) :=
        match last segments with
        | Some v => if bool_decide (v_items v = []) && (1 <? len segments)
                    then (take (pred (length segments)) segments, sg_reserve s ++ [v]) else (segments, sg_reserve s)
        | None => (segments, sg_reserve s)
        end in
      (mkSegmented segments reserve (sg_segment_len s) (sg_shift s) (sat_sub (sg_len s) 1), Some a)
  end.

(** [Segmented::get], a write through [Segmented::get_mut], [Segmented::iter] and a write through
    [Segmented::iter_mut_indexed]. *)
Definition segmented_get s i : option A :=
  if sg_len s <=? i then None else
  let '(seg, off) := split_index s i in sg_segments s !! N.to_nat seg ≫= λ v, v_items v !! N.to_nat off.
Definition segmented_set s i a : Segmented A :=
  if sg_len s <=? i then s else
  let '(seg, off) := split_index s i in
  mkSegmented (alter (λ v, mkVec (v_capacity v) (<[N.to_nat off := a]> (v_items v))) (N.to_nat seg) (sg_segments s))
    (sg_reserve s) (sg_segment_len s) (sg_shift s) (sg_len s).
Definition segmented_iter s : list A := concat (map v_items (sg_segments s)).

(** ** The invariant *)

(** Every segment but the last holds [segment_len] elements; a segment of another capacity holds the whole [bound], as a
    slab that reserves its bound in one allocation makes it. *)
Record segmented_ok (bound : N) s : Prop := {
  sk_len : sg_segment_len s = 2 ^ sg_shift s;
  sk_total : sg_len s = len (segmented_iter s);
  sk_small : sg_len s ≤ bound ∧ bound + 2 ^ sg_shift s ≤ u64_max;
  sk_room : Forall (λ v, v_capacity v = sg_segment_len s ∨ bound ≤ v_capacity v ∧ v_capacity v ≤ sg_segment_len s) (sg_segments s ++ sg_reserve s);
  sk_reserve : Forall (λ v, v_items v = []) (sg_reserve s);
  sk_full : ∀ k v, sg_segments s !! k = Some v → (S k < length (sg_segments s))%nat → len (v_items v) = sg_segment_len s;
  sk_last : ∀ v, last (sg_segments s) = Some v → len (v_items v) ≤ v_capacity v
}.

(** Rows of one length, but the last. *)
Lemma grid_lookup (ls : list (list A)) (L i : nat) :
  (0 < L)%nat → (∀ k l, ls !! k = Some l → (S k < length ls)%nat → length l = L) → (∀ l, last ls = Some l → (length l ≤ L)%nat) →
  concat ls !! i = ls !! (i / L)%nat ≫= λ l, l !! (i mod L)%nat.
Proof.
  intros HL. revert i. induction ls as [|l ls IH]; intros i Hf Hl; [done|]. cbn [concat]. destruct ls as [|l' ls].
  - cbn [concat]. rewrite app_nil_r. specialize (Hl l eq_refl). destruct (decide (i < L)%nat) as [Hi|Hi].
    + by rewrite Nat.div_small, Nat.mod_small by lia.
    + assert (0 < i / L)%nat by (apply Nat.div_str_pos; lia). rewrite !lookup_ge_None_2 by (cbn; lia). done.
  - pose proof (Hf 0%nat l eq_refl ltac:(cbn; lia)) as El. destruct (decide (i < L)%nat) as [Hi|Hi].
    + rewrite lookup_app_l by lia. by rewrite Nat.div_small, Nat.mod_small by lia.
    + rewrite lookup_app_r by lia. rewrite IH; [|intros k r Hk Hlt; apply (Hf (S k) r Hk); cbn in *; lia|done].
      rewrite El. assert (i / L = S ((i - L) / L) ∧ i mod L = (i - L) mod L)%nat as [-> ->]; [|done].
      set (j := (i - L)%nat). replace i with (j + 1 * L)%nat by lia. rewrite Nat.div_add, Nat.Div0.mod_add by lia. lia.
Qed.
Lemma grid_insert (ls : list (list A)) (L i : nat) a :
  (0 < L)%nat → (∀ k l, ls !! k = Some l → (S k < length ls)%nat → length l = L) → (∀ l, last ls = Some l → (length l ≤ L)%nat) →
  concat (alter (λ l, <[(i mod L)%nat := a]> l) (i / L)%nat ls) = <[i := a]> (concat ls).
Proof.
  intros HL Hf Hl. assert (∀ k, alter (λ l, <[(i mod L)%nat := a]> l) (i / L)%nat ls !! k =
    if decide (k = i / L)%nat then (λ l, <[(i mod L)%nat := a]> l) <$> ls !! k else ls !! k) as Hal.
  { intros k. case_decide; [subst; by rewrite list_lookup_alter_eq|by rewrite list_lookup_alter_ne]. }
  apply list_eq. intros j. rewrite (grid_lookup _ L); [|done| |].
  - rewrite Hal. destruct (decide (j = i)) as [->|Hj].
    + rewrite decide_True by done. destruct (decide (i < length (concat ls))%nat) as [Hlt|Hge].
      * rewrite list_lookup_insert_eq by done. apply lookup_lt_is_Some in Hlt as [x Hx]. rewrite (grid_lookup _ L i HL Hf Hl) in Hx.
        destruct (ls !! (i / L)%nat) as [l|]; [|done]. cbn in *. apply list_lookup_insert_eq. by eapply lookup_lt_Some.
      * rewrite list_insert_ge by lia. pose proof (lookup_ge_None_2 (concat ls) i ltac:(lia)) as Hx. rewrite Hx. rewrite (grid_lookup _ L i HL Hf Hl) in Hx.
        destruct (ls !! (i / L)%nat) as [l|]; [|done]. cbn in *. rewrite list_insert_ge by (by apply lookup_ge_None). done.
    + rewrite list_lookup_insert_ne by done. rewrite (grid_lookup _ L j HL Hf Hl). destruct (decide (j / L = i / L)%nat) as [E|]; [|done].
      destruct (ls !! (j / L)%nat) as [l|]; [|done]. cbn. apply list_lookup_insert_ne. intros E2. apply Hj.
      rewrite (Nat.div_mod_eq j L), (Nat.div_mod_eq i L). congruence.
  - intros k l. rewrite Hal, length_alter. case_decide; [|apply Hf]. destruct (ls !! k) as [r|] eqn:Er; [|done]. cbn. intros [= <-] Hk.
    rewrite length_insert. by apply (Hf k).
  - intros l. rewrite last_lookup, length_alter, Hal. rewrite last_lookup in Hl. case_decide; [|apply Hl]. destruct (ls !! pred (length ls)) as [r|]; [|done].
    cbn. intros [= <-]. rewrite length_insert. by apply Hl.
Qed.

Section ok.
Context (bound : N) (s : Segmented A) (Hs : segmented_ok bound s).
#[local] Abbreviation L := (N.to_nat (sg_segment_len s)).

Lemma segment_pos : (0 < L)%nat.
Proof using Hs. rewrite (sk_len _ _ Hs). pose proof (N.pow_nonzero 2 (sg_shift s)). lia. Qed.
Lemma split_index_eq i : (split_index s i).1 = i / sg_segment_len s ∧ (split_index s i).2 = i mod sg_segment_len s.
Proof using Hs.
  unfold split_index, sat_sub. cbn [fst snd]. rewrite (sk_len _ _ Hs), N.shiftr_div_pow2. split; [done|].
  rewrite <- N.land_ones, N.ones_equiv. f_equal. lia.
Qed.
Lemma segments_grid :
  (∀ k l, map v_items (sg_segments s) !! k = Some l → (S k < length (map v_items (sg_segments s)))%nat → length l = L)
  ∧ (∀ l, last (map v_items (sg_segments s)) = Some l → (length l ≤ L)%nat).
Proof using Hs.
  split.
  - intros k l. rewrite length_map, list_lookup_fmap. destruct (sg_segments s !! k) as [v|] eqn:E; [|done]. cbn. intros [= <-] Hk.
    pose proof (sk_full _ _ Hs k v E Hk) as H. unfold len in H. lia.
  - intros l. rewrite fmap_last. destruct (last (sg_segments s)) as [v|] eqn:E; [|done]. cbn. intros [= <-].
    pose proof (sk_last _ _ Hs v E) as H. unfold len in H.
    assert (v ∈ sg_segments s ++ sg_reserve s) as Hv by (apply elem_of_app; left; by apply last_Some_elem_of).
    pose proof (proj1 (Forall_forall _ _) (sk_room _ _ Hs) v Hv) as Hc. cbn in Hc. lia.
Qed.
Lemma segmented_get_ok i : segmented_get s i = segmented_iter s !! N.to_nat i.
Proof using Hs.
  unfold segmented_get. destruct (N.leb_spec (sg_len s) i) as [H|H].
  - rewrite lookup_ge_None_2; [done|]. rewrite (sk_total _ _ Hs) in H. unfold len in H. lia.
  - destruct (split_index_eq i) as [E1 E2]. destruct (split_index s i) as [seg off]. cbn [fst snd] in E1, E2. subst.
    unfold segmented_iter. destruct segments_grid as [Hf Hl]. rewrite (grid_lookup _ L _ segment_pos Hf Hl), list_lookup_fmap.
    rewrite N2Nat.inj_div, N2Nat.inj_mod. by destruct (sg_segments s !! _).
Qed.
Lemma alter_items (g : list A → list A) k (vs : list (Vec A)) :
  map v_items (alter (λ v, mkVec (v_capacity v) (g (v_items v))) k vs) = alter g k (map v_items vs).
Proof. revert k. induction vs as [|v vs IH]; intros [|k]; cbn; [done..|]. by rewrite IH. Qed.
Lemma segmented_set_ok i a :
  segmented_ok bound (segmented_set s i a) ∧ segmented_iter (segmented_set s i a) = <[N.to_nat i := a]> (segmented_iter s).
Proof using Hs.
  unfold segmented_set. destruct (N.leb_spec (sg_len s) i) as [H|H].
  { split; [done|]. rewrite list_insert_ge; [done|]. rewrite (sk_total _ _ Hs) in H. unfold len in H. lia. }
  destruct (split_index_eq i) as [E1 E2]. destruct (split_index s i) as [seg off]. cbn [fst snd] in E1, E2. subst.
  set (s' := mkSegmented _ _ _ _ _). destruct segments_grid as [Hf Hl].
  assert (segmented_iter s' = <[N.to_nat i := a]> (segmented_iter s)) as Hit.
  { unfold segmented_iter, s'. cbn [sg_segments]. rewrite (alter_items (λ l, <[N.to_nat (i mod sg_segment_len s) := a]> l)).
    rewrite N2Nat.inj_div, N2Nat.inj_mod. by apply grid_insert; [apply segment_pos|..]. }
  split; [|done].
  assert (∀ k v, sg_segments s' !! k = Some v → ∃ u, sg_segments s !! k = Some u ∧ v_capacity v = v_capacity u ∧ len (v_items v) = len (v_items u)) as Hold.
  { intros k v. unfold s'. cbn [sg_segments]. destruct (decide (N.to_nat (i / sg_segment_len s) = k)) as [->|Hne].
    - rewrite list_lookup_alter_eq. destruct (sg_segments s !! k) as [u|] eqn:Eu; [|done]. cbn. intros [= <-]. exists u. split_and!; try done.
      cbn. unfold len. by rewrite length_insert.
    - rewrite list_lookup_alter_ne by done. intros Hk. by exists v. }
  assert (length (sg_segments s') = length (sg_segments s)) as Elen by (unfold s'; cbn; apply length_alter).
  destruct Hs. split; try done.
  - change (sg_len s') with (sg_len s). rewrite sk_total0, Hit. unfold len. by rewrite length_insert.
  - change (sg_reserve s') with (sg_reserve s). change (sg_segment_len s') with (sg_segment_len s). apply Forall_app in sk_room0 as [Hr1 Hr2].
    apply Forall_app. split; [|done]. apply Forall_lookup. intros k v (u&Hu&->&_)%Hold. by apply (Forall_lookup_1 _ _ _ _ Hr1 Hu).
  - intros k v (u&Hu&_&->)%Hold Hk. apply (sk_full0 k u Hu). by rewrite <- Elen.
  - intros v. rewrite last_lookup, Elen. intros (u&Hu&->&->)%Hold. apply sk_last0. by rewrite last_lookup.
Qed.
End ok.

(** Full rows before the last. *)
Lemma iter_snoc (pre : list (Vec A)) v n :
  Forall (λ u, len (v_items u) = n) pre → len (concat (map v_items (pre ++ [v]))) = len pre * n + len (v_items v).
Proof.
  unfold len. induction 1 as [|u pre Hu _ IH]; cbn [map app concat]; [rewrite app_nil_r; cbn; lia|]. rewrite length_app. cbn [length]. lia.
Qed.
Definition seg_room (bound n : N) v : Prop := v_capacity v = n ∨ bound ≤ v_capacity v ∧ v_capacity v ≤ n.
(** A storage whose last segment has room. *)
Record push_ready (bound : N) s (pre : list (Vec A)) v : Prop := {
  pr_segments : sg_segments s = pre ++ [v];
  pr_full : Forall (λ u, len (v_items u) = sg_segment_len s) pre;
  pr_less : len (v_items v) < N.min (v_capacity v) (sg_segment_len s);
  pr_room : Forall (seg_room bound (sg_segment_len s)) (sg_segments s ++ sg_reserve s);
  pr_reserve : Forall (λ v, v_items v = []) (sg_reserve s)
}.
Lemma segments_cases bound s :
  segmented_ok bound s → sg_segments s = [] ∨ ∃ pre v, sg_segments s = pre ++ [v] ∧ Forall (λ u, len (v_items u) = sg_segment_len s) pre
    ∧ len (v_items v) ≤ v_capacity v ∧ len (v_items v) ≤ sg_segment_len s ∧ seg_room bound (sg_segment_len s) v
    ∧ sg_len s = len pre * sg_segment_len s + len (v_items v).
Proof.
  intros Hs. destruct (decide (sg_segments s = [])) as [|Hne]; [by left|right]. destruct (exists_last Hne) as (pre&v&E). exists pre, v.
  assert (last (sg_segments s) = Some v) as El by (by rewrite E, last_snoc).
  assert (Forall (λ u, len (v_items u) = sg_segment_len s) pre) as Hf.
  { apply Forall_lookup. intros k u Hu. apply (sk_full _ _ Hs k u).
    - rewrite E. by apply lookup_app_l_Some.
    - rewrite E, length_app. apply lookup_lt_Some in Hu. cbn. lia. }
  assert (seg_room bound (sg_segment_len s) v) as Hr.
  { apply (proj1 (Forall_forall _ _) (sk_room _ _ Hs)). rewrite E, !elem_of_app, list_elem_of_singleton. auto. }
  pose proof (sk_last _ _ Hs v El). split_and!; try done.
  - destruct Hr; lia.
  - rewrite (sk_total _ _ Hs). unfold segmented_iter. rewrite E. by apply iter_snoc.
Qed.
Lemma take_segment_ok bound s :
  segmented_ok bound s → let '(_, v, reserve) := take_segment s in
  v_items v = [] ∧ seg_room bound (sg_segment_len s) v ∧ Forall (seg_room bound (sg_segment_len s)) reserve ∧ Forall (λ v, v_items v = []) reserve.
Proof.
  intros Hs. unfold take_segment. pose proof (sk_room _ _ Hs) as Hr. apply Forall_app in Hr as [_ Hr]. pose proof (sk_reserve _ _ Hs) as He.
  destruct (last (sg_reserve s)) as [v|] eqn:E; [|split_and!; try done; by left].
  assert (v ∈ sg_reserve s) as Hv by (by apply last_Some_elem_of). rewrite Forall_forall in Hr, He.
  split_and!; [by apply He|by apply Hr|..]; apply Forall_forall; intros u Hu; [apply Hr|apply He]; by eapply elem_of_take in Hu as (?&?&?); apply list_elem_of_lookup_2 in H.
Qed.

Lemma push_ready_ok bound s a pre v :
  push_ready bound s pre v → sg_segment_len s = 2 ^ sg_shift s → sg_len s = len pre * sg_segment_len s + len (v_items v) →
  sg_len s < bound → bound + 2 ^ sg_shift s ≤ u64_max →
  let s' := append_last s a in
  segmented_ok bound s' ∧ segmented_iter s' = segmented_iter s ++ [a].
Proof.
  intros [E Hf Hl Hr He] HL Hlen Hlt Hsmall. cbn zeta. unfold append_last.
  assert (0 < sg_segment_len s) as Hpos by lia.
  assert ((split_index s (sg_len s)).1 = len pre) as ->.
  { cbn [split_index fst]. rewrite N.shiftr_div_pow2, <- HL, Hlen, N.add_comm, N.div_add, N.div_small by lia. lia. }
  rewrite E. unfold len. rewrite Nat2N.id. fold (len pre).
  assert (alter (λ v, vec_push v a) (length pre) (pre ++ [v]) = pre ++ [vec_push v a]) as Ea by (by rewrite alter_app_r_alt, Nat.sub_diag by lia).
  rewrite Ea. assert (v_capacity (vec_push v a) = v_capacity v) as Ec by (cbn; lia).
  assert (len (v_items (vec_push v a)) = len (v_items v) + 1) as El by (cbn; unfold len; rewrite length_app; cbn; lia).
  assert (sat_add (sg_len s) 1 = sg_len s + 1) as -> by (apply sat_add_small; lia).
  assert (concat (map v_items (pre ++ [vec_push v a])) = segmented_iter s ++ [a]) as Hit.
  { unfold segmented_iter. rewrite E, !map_app, !concat_app. cbn. by rewrite !app_nil_r, app_assoc. }
  split; [|done]. split; cbn [sg_segments sg_reserve sg_segment_len sg_shift sg_len]; try done.
  - unfold segmented_iter at 1. cbn [sg_segments]. rewrite (iter_snoc pre (vec_push v a) (sg_segment_len s)) by done. lia.
  - lia.
  - rewrite E in Hr. apply Forall_app in Hr as [Hr1 Hr2]. apply Forall_app in Hr1 as [Hr1 Hr3]. apply Forall_app. split; [|done]. apply Forall_app.
    split; [done|]. apply Forall_cons in Hr3 as [Hr3 _]. constructor; [|done]. by rewrite Ec.
  - intros k u Hu Hk. rewrite length_app in Hk. cbn in Hk. rewrite lookup_app_l in Hu by lia. by apply (Forall_lookup_1 _ _ _ _ Hf Hu).
  - intros u. rewrite last_snoc. intros [= <-]. rewrite Ec, El. lia.
Qed.
Lemma segmented_push_ok bound s a :
  segmented_ok bound s → len (segmented_iter s) < bound →
  let '(s', i) := segmented_push s a in
  segmented_ok bound s' ∧ i = len (segmented_iter s) ∧ segmented_iter s' = segmented_iter s ++ [a].
Proof.
  intros Hs Hlt. rewrite <- (sk_total _ _ Hs) in *. pose proof (sk_len _ _ Hs) as HL. pose proof (sk_small _ _ Hs) as [_ Hsmall].
  assert (0 < sg_segment_len s) as Hpos by (pose proof (N.pow_nonzero 2 (sg_shift s)); lia).
  unfold segmented_push, push_reporting. pose proof (take_segment_ok bound s Hs) as Ht. destruct (take_segment s) as [[al u] reserve]. destruct Ht as (Hu1&Hu2&Hu3&Hu4).
  pose proof (sk_room _ _ Hs) as Hroom. apply Forall_app in Hroom as [Hroom _].
  assert (0 < v_capacity u) as Hcu by (destruct Hu2; lia).
  destruct (segments_cases bound s Hs) as [E|(pre&v&E&Hf&Hv1&Hv2&Hv3&Htot)].
  - assert (sg_len s = 0) as E0 by (rewrite (sk_total _ _ Hs); unfold segmented_iter; by rewrite E).
    assert (segmented_capacity s = 0) as -> by (unfold segmented_capacity; by rewrite E). rewrite E0, N.eqb_refl, E. cbn [app].
    set (s1 := mkSegmented [u] reserve (sg_segment_len s) (sg_shift s) 0).
    destruct (push_ready_ok bound s1 a [] u) as [H1 H2]; [|done|cbn; unfold len; rewrite Hu1; done|cbn; lia|done|].
    + split; [done|constructor|rewrite Hu1; cbn; unfold len; cbn; lia|constructor; done|done].
    + split_and!; [done|done|]. rewrite H2. f_equal. unfold segmented_iter. rewrite E. cbn. by rewrite Hu1.
  - assert (segmented_capacity s = len pre * sg_segment_len s + N.min (v_capacity v) (sg_segment_len s)) as Ecap.
    { unfold segmented_capacity. rewrite E, last_snoc. assert (sat_sub (len (pre ++ [v])) 1 = len pre) as -> by (unfold sat_sub, len; rewrite length_app; cbn; lia).
      unfold sat_add, sat_mul. lia. }
    rewrite Ecap. destruct (N.eqb_spec (sg_len s) (len pre * sg_segment_len s + N.min (v_capacity v) (sg_segment_len s))) as [Eq|Ne].
    + assert (len (v_items v) = sg_segment_len s) as Efull by (destruct Hv3; lia).
      rewrite E. set (s1 := mkSegmented ((pre ++ [v]) ++ [u]) reserve (sg_segment_len s) (sg_shift s) (sg_len s)).
      destruct (push_ready_ok bound s1 a (pre ++ [v]) u) as [H1 H2]; [|done| |done|done|].
      * split; [done|apply Forall_app; split; [done|by constructor]|rewrite Hu1; cbn; unfold len; cbn; lia| |done].
        cbn [sg_segments sg_reserve s1]. apply Forall_app. split; [|done]. apply Forall_app. split; [by rewrite <- E|by constructor].
      * cbn. rewrite Hu1. unfold len in *. rewrite length_app. cbn. lia.
      * split_and!; [done|done|]. rewrite H2. f_equal. unfold segmented_iter, s1. cbn [sg_segments]. rewrite E, !map_app, !concat_app. cbn. by rewrite Hu1, !app_nil_r.
    + destruct (push_ready_ok bound s a pre v) as [H1 H2]; [|done|done|done|done|].
      * split; [done|done|lia|apply (sk_room _ _ Hs)|apply (sk_reserve _ _ Hs)].
      * done.
Qed.
(** The last element taken: its segment is kept as a reserve when that empties it and it is not the only one. *)
Lemma rows_ok bound s pre v :
  sg_segments s = pre ++ [v] → Forall (λ u, len (v_items u) = sg_segment_len s) pre → len (v_items v) ≤ v_capacity v →
  Forall (seg_room bound (sg_segment_len s)) (sg_segments s ++ sg_reserve s) → Forall (λ v, v_items v = []) (sg_reserve s) →
  sg_segment_len s = 2 ^ sg_shift s → sg_len s = len pre * sg_segment_len s + len (v_items v) → sg_len s ≤ bound → bound + 2 ^ sg_shift s ≤ u64_max →
  segmented_ok bound s.
Proof.
  intros E Hf Hv Hr He HL Hlen Hle Hsmall. split; try done.
  - unfold segmented_iter. by rewrite E, (iter_snoc pre v (sg_segment_len s)).
  - intros k u Hu Hk. rewrite E in Hu, Hk. rewrite length_app in Hk. cbn in Hk. rewrite lookup_app_l in Hu by lia. by apply (Forall_lookup_1 _ _ _ _ Hf Hu).
  - intros u. rewrite E, last_snoc. by intros [= <-].
Qed.
Lemma vec_pop_snoc v l a : v_items v = l ++ [a] → vec_pop v = mkVec (v_capacity v) l.
Proof. intros E. unfold vec_pop. rewrite E, length_app, Nat.add_comm. cbn [length pred Nat.add]. by rewrite take_app_length. Qed.
Lemma pop_segment pre v post l a :
  v_items v = l ++ [a] → alter vec_pop (length pre) (pre ++ v :: post) = pre ++ mkVec (v_capacity v) l :: post.
Proof. intros E. rewrite alter_app_r_alt, Nat.sub_diag by lia. cbn. by rewrite (vec_pop_snoc v l a E). Qed.
Lemma pop_index s (pre : list (Vec A)) n : sg_segment_len s = 2 ^ sg_shift s → n < sg_segment_len s → sg_len s = len pre * sg_segment_len s + n + 1 →
  split_index s (sat_sub (sg_len s) 1) = (len pre, N.land (sat_sub (sg_len s) 1) (sat_sub (sg_segment_len s) 1)).
Proof.
  intros HL Hn Hlen. unfold split_index. f_equal. rewrite N.shiftr_div_pow2, <- HL. unfold sat_sub. symmetry. apply (N.div_unique _ _ _ n); lia.
Qed.
Lemma snoc_cases {B} (l : list B) : l = [] ∨ ∃ l' b, l = l' ++ [b].
Proof. destruct l as [|b l] using rev_ind; eauto. Qed.
Lemma pop_from bound s pre v post l a :
  segmented_ok bound s → sg_segments s = pre ++ v :: post → v_items v = l ++ [a] → sg_len s = len pre * sg_segment_len s + len (v_items v) →
  len (v_items v) ≤ sg_segment_len s →
  segmented_pop s =
    let segments := pre ++ mkVec (v_capacity v) l :: post in
    let '(segments, reserve) :=
      match last segments with
      | Some v => if bool_decide (v_items v = []) && (1 <? len segments)
                  then (take (pred (length segments)) segments, sg_reserve s ++ [v]) else (segments, sg_reserve s)
      | None => (segments, sg_reserve s)
      end in
    (mkSegmented segments reserve (sg_segment_len s) (sg_shift s) (sat_sub (sg_len s) 1), Some a).
Proof.
  intros Hs E Ev Hlen Hle. assert (len (v_items v) = len l + 1) as El by (rewrite Ev; unfold len; rewrite length_app; cbn; lia).
  unfold segmented_pop. rewrite (proj2 (N.eqb_neq _ _)) by lia. rewrite (pop_index s pre (len l) (sk_len _ _ Hs)) by lia.
  assert (N.to_nat (len pre) = length pre) as -> by (unfold len; lia). rewrite E, list_lookup_middle by done. cbn [mbind option_bind]. rewrite Ev, last_snoc, (pop_segment pre v post l a Ev). done.
Qed.
Lemma segmented_pop_ok bound s :
  segmented_ok bound s → let '(s', r) := segmented_pop s in
  segmented_ok bound s' ∧ match r with Some a => segmented_iter s = segmented_iter s' ++ [a] | None => segmented_iter s = [] ∧ s' = s end.
Proof.
  intros Hs. destruct (N.eq_dec (sg_len s) 0) as [E0|Hpos].
  { unfold segmented_pop. rewrite E0. cbn [N.eqb]. split; [done|]. split; [|done]. rewrite (sk_total _ _ Hs) in E0. unfold len in E0. destruct (segmented_iter s); [done|cbn in E0; lia]. }
  pose proof (sk_len _ _ Hs) as HL. pose proof (sk_small _ _ Hs) as [Hb Hsmall]. pose proof (sk_reserve _ _ Hs) as He. pose proof (sk_room _ _ Hs) as Hr.
  destruct (segments_cases bound s Hs) as [E|(pre&v&E&Hf&Hv1&Hv2&Hv3&Htot)].
  { rewrite (sk_total _ _ Hs) in Hpos. unfold segmented_iter in Hpos. by rewrite E in Hpos. }
  apply Forall_app in Hr as [Hr Hrr]. rewrite E in Hr. apply Forall_app in Hr as [Hrp _].
  destruct (snoc_cases (v_items v)) as [Ev|(l&a&Ev)].
  - destruct (snoc_cases pre) as [->|(pre'&u&->)]; [rewrite Ev in Htot; unfold len in Htot; cbn [length] in Htot; lia|]. apply Forall_app in Hf as [Hf Hu]. apply Forall_cons in Hu as [Hu _].
    apply Forall_app in Hrp as [Hrp Hru]. apply Forall_cons in Hru as [Hru _]. rewrite Ev in Htot. unfold len in Htot. rewrite length_app in Htot. cbn [length] in Htot.
    destruct (snoc_cases (v_items u)) as [Eu|(l&a&Eu)]; [rewrite Eu in Hu; pose proof (N.pow_nonzero 2 (sg_shift s)); unfold len in Hu; cbn [length] in Hu; lia|].
    assert (len (v_items u) = len l + 1) as El by (rewrite Eu; unfold len; rewrite length_app; cbn; lia).
    rewrite (pop_from bound s pre' u [v] l a); [|done|by rewrite E, <- app_assoc|done|unfold len in *; lia|lia]. cbn zeta.
    assert (pre' ++ mkVec (v_capacity u) l :: [v] = (pre' ++ [mkVec (v_capacity u) l]) ++ [v]) as -> by (by rewrite <- app_assoc).
    rewrite last_snoc, bool_decide_true, (proj2 (N.ltb_lt _ _)) by (done || unfold len; rewrite !length_app; cbn; lia). cbn [andb].
    rewrite (length_app _ [v]), Nat.add_comm. cbn [length pred Nat.add]. rewrite take_app_length. split.
    + eapply (rows_ok bound _ pre' (mkVec (v_capacity u) l)); cbn [sg_segments sg_reserve sg_segment_len sg_shift sg_len v_items v_capacity]; try done.
      * destruct Hru; lia.
      * rewrite !Forall_app. split_and!; [done|by constructor|done|by constructor].
      * apply Forall_app. split; [done|]. by constructor.
      * unfold sat_sub, len in *. lia.
      * unfold sat_sub. lia.
    + unfold segmented_iter. cbn [sg_segments]. rewrite E, !map_app, !concat_app. cbn. by rewrite Ev, Eu, !app_nil_r, app_assoc.
  - assert (len (v_items v) = len l + 1) as El by (rewrite Ev; unfold len; rewrite length_app; cbn; lia).
    rewrite (pop_from bound s pre v [] l a Hs E Ev Htot Hv2). cbn zeta. rewrite last_snoc. cbn [v_items].
    assert (segmented_iter s = concat (map v_items (pre ++ [mkVec (v_capacity v) l])) ++ [a]) as Hit.
    { unfold segmented_iter. rewrite E, !map_app, !concat_app. cbn. by rewrite Ev, !app_nil_r, app_assoc. }
    assert (Forall (seg_room bound (sg_segment_len s)) (pre ++ [mkVec (v_capacity v) l])) as Hrn by (rewrite Forall_app; split; [done|by constructor]).
    destruct (bool_decide (l = []) && (1 <? len (pre ++ [mkVec (v_capacity v) l]))) eqn:Eb.
    + apply andb_true_iff in Eb as [->%bool_decide_eq_true Hlen%N.ltb_lt]. unfold len in Hlen. rewrite length_app, Nat.add_comm in Hlen. cbn in Hlen.
      rewrite length_app, Nat.add_comm. cbn [length pred Nat.add]. rewrite take_app_length. destruct (snoc_cases pre) as [->|(pre'&u&->)]; [cbn in Hlen; lia|].
      apply Forall_app in Hf as [Hf Hu]. apply Forall_cons in Hu as [Hu _]. apply Forall_app in Hrn as [Hrn Hrv]. split.
      * eapply (rows_ok bound _ pre' u); cbn [sg_segments sg_reserve sg_segment_len sg_shift sg_len]; try done.
        -- apply Forall_app in Hrn as [_ Hru]. apply Forall_cons in Hru as [Hru _]. destruct Hru as [|[? ?]]; [lia|]. cbn in El. unfold len in Htot. rewrite length_app in Htot. cbn in Htot. nia.
        -- rewrite !Forall_app. rewrite Forall_app in Hrn. done.
        -- apply Forall_app. split; [done|]. by constructor.
        -- unfold sat_sub, len in *. rewrite length_app in Htot. cbn in Htot, El. lia.
        -- unfold sat_sub. lia.
      * rewrite Hit. unfold segmented_iter. cbn [sg_segments]. rewrite !map_app, !concat_app. cbn. by rewrite !app_nil_r.
    + split; [|exact Hit]. eapply (rows_ok bound _ pre (mkVec (v_capacity v) l)); cbn [sg_segments sg_reserve sg_segment_len sg_shift sg_len v_items v_capacity]; try done.
      * lia.
      * rewrite Forall_app. done.
      * unfold sat_sub. lia.
      * unfold sat_sub. lia.
Qed.
(** Fresh and reserved storage. *)
Lemma segmented_preallocated_ok n : n + 2 ^ N.log2_up (N.max n 1) ≤ u64_max → segmented_ok n (segmented_preallocated n).
Proof.
  intros Hb. pose proof (trailing_zeros_pow (N.log2_up (N.max n 1))) as Etz.
  split; cbn [segmented_preallocated segmented_new sg_segments sg_reserve sg_segment_len sg_shift sg_len]; rewrite ?Etz; try done; [lia| |by constructor].
  constructor; [|constructor]. right. cbn. pose proof (N.log2_up_le_pow2 (N.max n 1) (N.log2_up (N.max n 1)) ltac:(lia)) as H. lia.
Qed.
Lemma reserve_segments_ok bound s n : segmented_ok bound s → segmented_ok bound (reserve_segments s n) ∧ segmented_iter (reserve_segments s n) = segmented_iter s.
Proof.
  intros []. split; [|done]. split; cbn [reserve_segments sg_segments sg_reserve sg_segment_len sg_shift sg_len]; try done.
  - rewrite app_assoc. apply Forall_app. split; [done|]. apply Forall_replicate. by left.
  - apply Forall_app. split; [done|]. by apply Forall_replicate.
Qed.
Lemma segmented_new_ok bound n : bound + 2 ^ N.log2_up (N.max n 1) ≤ u64_max → segmented_ok bound (segmented_new n).
Proof.
  intros Hb. pose proof (trailing_zeros_pow (N.log2_up (N.max n 1))) as Etz.
  split; cbn [segmented_new sg_segments sg_reserve sg_segment_len sg_shift sg_len]; rewrite ?Etz; try done. lia.
Qed.
End segmented.

#[export] Instance segmented_store A : SlotStore A (Segmented A) := {
  store_items := segmented_iter; store_ok := segmented_ok; store_len := sg_len; store_get := segmented_get; store_set := segmented_set;
  store_push := segmented_push;
  store_len_ok bound s H := sk_total bound s H; store_get_ok bound s i H := segmented_get_ok bound s H i;
  store_set_ok bound s i a H := segmented_set_ok bound s H i a; store_push_ok := segmented_push_ok }.
