(* ===== verification/Slab.v ===== *)
(** * Slabs of generational handles

    Models [crates/mem/src/handle.rs] and [crates/mem/src/slab.rs]: handles and
    their packed words, and a slab whose slots are kept in any storage with the
    promises of [SlotStore].  Then the invariant of a slab, through every operation. *)

From S2P Require Import Prelude BuddyBits Segmented.
#[local] Open Scope N_scope.

(** ** Handles *)
Record Handle := mkHandle { h_index : N; h_generation : N }.
#[export] Instance Handle_eq_dec : EqDecision Handle.
Proof. solve_decision. Defined.

(** The packed layout: [shard:16 | slot:24 | generation:24]. *)
Definition SHARD_BITS : N := 16.
Definition SLOT_BITS : N := 24.
Definition GENERATION_BITS : N := 24.
Definition INTEREST_MARK_BITS : N := 15.
Definition INTEREST_RAW_BITS : N := 32.
Definition INTEREST_MARK : N := N.shiftl (N.shiftl 1 INTEREST_MARK_BITS - 1) (INTEREST_RAW_BITS + 1).
Definition INTEREST_WRITABLE : N := N.shiftl 1 INTEREST_RAW_BITS.
Definition MAX_SLOT : N := N.shiftl 1 SLOT_BITS - 1.
Definition MAX_TASK_SLOT : N := N.shiftl 1 SLOT_BITS - N.shiftl 1 (SLOT_BITS - INTEREST_MARK_BITS) - 1.
Definition MAX_GENERATION : N := N.shiftl 1 GENERATION_BITS - 1.
Definition TASK_GENERATION_LIMIT : N := MAX_GENERATION - 1.
Definition ANY_GENERATION : N := MAX_GENERATION.

(** [Encoded::pack], [Encoded::interest] and [Encoded::as_interest]; an [Encoded] is its word. *)
Definition pack (shard slot generation : N) : option N :=
  if (MAX_TASK_SLOT <? slot) || (MAX_GENERATION <? generation) then None
  else Some (N.lor (N.lor (N.shiftl shard (SLOT_BITS + GENERATION_BITS)) (N.shiftl slot GENERATION_BITS)) generation).
Definition interest (shard raw : N) (writable : bool) : N :=
  N.lor (N.lor (N.lor (N.shiftl shard (SLOT_BITS + GENERATION_BITS)) INTEREST_MARK) (N.shiftl (N.b2n writable) INTEREST_RAW_BITS)) raw.
Definition as_interest (word : N) : option (N * bool) :=
  if negb (N.land word INTEREST_MARK =? INTEREST_MARK) then None
  else Some (N.land word u32_max, negb (N.land word INTEREST_WRITABLE =? 0)).
(** [Encoded::shard], [Encoded::slot], [Encoded::generation], [Encoded::matches], [Handle::encode]. *)
Definition word_shard (word : N) : N := N.shiftr word (SLOT_BITS + GENERATION_BITS).
Definition word_slot (word : N) : N := N.land (N.shiftr word GENERATION_BITS) (N.shiftl 1 SLOT_BITS - 1).
Definition word_generation (word : N) : N := N.land word (N.shiftl 1 GENERATION_BITS - 1).
Definition word_matches (word : N) (h : Handle) : bool := (word_slot word =? h_index h) && (word_generation word =? h_generation h).
Definition handle_encode (h : Handle) (shard : N) : option N := pack shard (h_index h) (h_generation h).

(** ** Slots *)
Inductive Body (T : Type) := Vacant (next_free : option N) | Occupied (value : T) | Retired.
Arguments Vacant {T}.
Arguments Occupied {T}.
Arguments Retired {T}.
Record SlabSlot (T : Type) := mkSlot { slot_generation : N; slot_body : Body T }.
Arguments mkSlot {T}.
Arguments slot_generation {T}.
Arguments slot_body {T}.

(** [Slab], its slots in a storage [St]. *)
Record Slab (St : Type) := mkSlab {
  slots : St; free_head : option N; occupied : N; max_slots : N; generation_base : N; generation_limit : N;
  retired : N; last_retired : option N }.
Arguments mkSlab {St}.
Arguments slots {St}.
Arguments free_head {St}.
Arguments occupied {St}.
Arguments max_slots {St}.
Arguments generation_base {St}.
Arguments generation_limit {St}.
Arguments retired {St}.
Arguments last_retired {St}.

(** [Slab::with_generation_base], [Slab::new], [Slab::preallocated]. *)
Definition slab_with_generation_base {T} (segment_slots max base : N) : Slab (Segmented (SlabSlot T)) :=
  mkSlab (segmented_new segment_slots) None 0 max base u32_max 0 None.
Definition slab_new {T} (segment_slots max : N) : Slab (Segmented (SlabSlot T)) := slab_with_generation_base segment_slots max 0.
Definition slab_preallocated {T} (max : N) : Slab (Segmented (SlabSlot T)) :=
  mkSlab (segmented_preallocated max) None 0 max 0 u32_max 0 None.
Definition slab_reserve_segments {T} (s : Slab (Segmented (SlabSlot T))) (count : N) : Slab (Segmented (SlabSlot T)) :=
  mkSlab (reserve_segments (slots s) count) (free_head s) (occupied s) (max_slots s) (generation_base s) (generation_limit s)
    (retired s) (last_retired s).

Section slab.
Context {T St : Type} `{SlotStore (SlabSlot T) St}.
Implicit Types (s : Slab St) (h : Handle) (v : T) (i g : N).

Definition with_generation_limit s (limit : N) : Slab St :=
  mkSlab (slots s) (free_head s) (occupied s) (max_slots s) (generation_base s) limit (retired s) (last_retired s).

(** [Slab::generation_high]. *)
Definition sat_succ_u32 (n : N) : N := N.min (n + 1) u32_max.
Fixpoint high_of s (turns : nat) (i high : N) : N :=
  match turns with
  | O => high
  | S turns => high_of s turns (i + 1) (match store_get (slots s) i with Some slot => N.max high (sat_succ_u32 (slot_generation slot)) | None => high end)
  end.
Definition generation_high s : N := high_of s (N.to_nat (store_len (slots s))) 0 (generation_base s).

(** [Slab::no_slot], [Slab::has_room], [Slab::room]. *)
Definition no_slot s : MemError :=
  match last_retired s with Some i => GenerationExhausted i | None => SlabFull (max_slots s) end.
Definition has_room s : bool := (sat_add (occupied s) (retired s) <? max_slots s) && (generation_base s <=? generation_limit s).
Definition room s : N :=
  let vacant := sat_sub (sat_sub (store_len (slots s)) (occupied s)) (retired s) in
  let fresh := if generation_base s <=? generation_limit s then sat_sub (max_slots s) (store_len (slots s)) else 0 in
  sat_add vacant fresh.

(** [Slab::insert]. *)
Definition slab_insert s v : Slab St * result MemError Handle :=
  match free_head s with
  | Some i =>
      match store_get (slots s) i with
      | None => (s, Err (SlabFull (max_slots s)))
      | Some slot =>
          let next := match slot_body slot with Vacant next => next | _ => None end in
          (mkSlab (store_set (slots s) i (mkSlot (slot_generation slot) (Occupied v))) next (sat_add (occupied s) 1) (max_slots s)
             (generation_base s) (generation_limit s) (retired s) (last_retired s), Ok (mkHandle i (slot_generation slot)))
      end
  | None =>
      if max_slots s <=? store_len (slots s) then (s, Err (no_slot s)) else
      let g := generation_base s in
      if generation_limit s <? g then (s, Err (GenerationExhausted (clamp_u32 (store_len (slots s))))) else
      let '(st, i) := store_push (slots s) (mkSlot g (Occupied v)) in
      let s := mkSlab st (free_head s) (sat_add (occupied s) 1) (max_slots s) (generation_base s) (generation_limit s) (retired s) (last_retired s) in
      if i <=? u32_max then (s, Ok (mkHandle i g)) else (s, Err (SlabFull (max_slots s)))
  end.

(** [Slab::insert_at], with the loop that fills the gap. *)
Fixpoint fill_gap (turns : nat) (st : St) (free : option N) : St * option N :=
  match turns with
  | O => (st, free)
  | S turns => let '(st, at_) := store_push st (mkSlot 0 (Vacant free)) in fill_gap turns st (Some (clamp_u32 at_))
  end.
Definition slab_insert_at s i g v : Slab St * result MemError Handle :=
  if max_slots s <=? i then (s, Err (SlabFull (max_slots s))) else
  if i <? store_len (slots s) then (s, Err (MemOutOfRange i (store_len (slots s)))) else
  if generation_limit s <? g then (s, Err (GenerationExhausted i)) else
  let '(st, free) := fill_gap (N.to_nat (i - store_len (slots s))) (slots s) (free_head s) in
  let '(st, _) := store_push st (mkSlot g (Occupied v)) in
  (mkSlab st free (sat_add (occupied s) 1) (max_slots s) (generation_base s) (generation_limit s) (retired s) (last_retired s), Ok (mkHandle i g)).

(** [stale], [Slab::get], a write through [Slab::get_mut], [Slab::generation_at], [Slab::contains]. *)
Definition stale h : MemError := StaleHandle (h_index h) (h_generation h).
Definition slab_get s h : result MemError T :=
  match store_get (slots s) (h_index h) with
  | Some (mkSlot g (Occupied v)) => if g =? h_generation h then Ok v else Err (stale h)
  | _ => Err (stale h)
  end.
Definition slab_set s h v : Slab St * result MemError unit :=
  match store_get (slots s) (h_index h) with
  | Some (mkSlot g (Occupied _)) =>
      if g =? h_generation h then
        (mkSlab (store_set (slots s) (h_index h) (mkSlot g (Occupied v))) (free_head s) (occupied s) (max_slots s) (generation_base s)
           (generation_limit s) (retired s) (last_retired s), Ok tt)
      else (s, Err (stale h))
  | _ => (s, Err (stale h))
  end.
Definition generation_at s i : option N :=
  match store_get (slots s) i with
  | Some (mkSlot g Retired) => None
  | Some slot => Some (slot_generation slot)
  | None => None
  end.
Definition slab_contains s h : bool := match slab_get s h with Ok _ => true | Err _ => false end.

(** [Slab::vacate], [Slab::remove], [Slab::discard]. *)
Definition vacate s h : Slab St * result MemError (Body T) :=
  match store_get (slots s) (h_index h) with
  | Some (mkSlot g (Occupied v)) =>
      if negb (g =? h_generation h) then (s, Err (stale h)) else
      let next := if (g + 1 <=? u32_max) && (g + 1 <=? generation_limit s) then Some (g + 1) else None in
      let slot := match next with Some next => mkSlot next (Vacant (free_head s)) | None => mkSlot g Retired end in
      (mkSlab (store_set (slots s) (h_index h) slot) (if next then Some (h_index h) else free_head s) (sat_sub (occupied s) 1) (max_slots s)
         (generation_base s) (generation_limit s) (if next then retired s else sat_add (retired s) 1)
         (if next then last_retired s else Some (h_index h)), Ok (Occupied v))
  | _ => (s, Err (stale h))
  end.
Definition slab_remove s h : Slab St * result MemError T :=
  let '(s, r) := vacate s h in
  (s, match r with Ok (Occupied v) => Ok v | Ok _ => Err (stale h) | Err e => Err e end).
Definition slab_discard s h : Slab St * result MemError unit :=
  let '(s, r) := vacate s h in (s, match r with Ok _ => Ok tt | Err e => Err e end).

(** [Slab::iter]: the live entries in index order. *)
Definition slab_entry (k : nat) (slot : SlabSlot T) : option (Handle * T) :=
  match slot with
  | mkSlot g (Occupied v) => Some (mkHandle (clamp_u32 (N.of_nat k)) g, v)
  | _ => None
  end.
Definition slab_iter s : list (Handle * T) := omap id (imap slab_entry (store_items (slots s))).
End slab.

(** * The invariant of a slab

    For [crates/mem/src/slab.rs] over any storage with the promises of
    [SlotStore]: the free list holds the vacant slots, the counts are exact and
    no generation passes the limit. Every operation keeps it, and what each
    does to the values the handles name and to the room that is left. *)

#[local] Open Scope N_scope.

(** ** Tallies *)
Fixpoint tally {A} (f : A → N) (l : list A) : N := match l with [] => 0 | a :: l => f a + tally f l end.
Lemma tally_app {A} (f : A → N) l l' : tally f (l ++ l') = tally f l + tally f l'.
Proof. induction l as [|a l IH]; cbn; [done|]. rewrite IH. lia. Qed.
Lemma tally_insert {A} (f : A → N) l i a b : l !! i = Some a → tally f (<[i := b]> l) + f a = tally f l + f b.
Proof.
  revert i. induction l as [|c l IH]; intros [|i]; [done..|intros [= ->]; cbn [tally insert list_insert]; lia|]. intros Hi. specialize (IH i Hi).
  change (<[S i := b]> (c :: l)) with (c :: <[i := b]> l). cbn [tally]. lia.
Qed.
Lemma tally_zero {A} (f : A → N) l : (∀ i a, l !! i = Some a → f a = 0) → tally f l = 0.
Proof. induction l as [|a l IH]; intros H; [done|]. cbn. rewrite (H 0%nat a eq_refl), IH; [done|]. intros i b Hb. by apply (H (S i)). Qed.
Lemma tally_pos {A} (f : A → N) l i a : l !! i = Some a → f a ≤ tally f l.
Proof. revert i. induction l as [|c l IH]; intros [|i]; [done..|intros [= ->]; cbn [tally]; lia|]. intros Hi. specialize (IH i Hi). cbn [tally]. lia. Qed.

Section slab.
Context {T St : Type} `{SlotStore (SlabSlot T) St}.
Implicit Types (s : Slab St) (h : Handle) (v : T) (l : list (SlabSlot T)) (slot : SlabSlot T).

Definition items s : list (SlabSlot T) := store_items (slots s).
Definition is_occupied slot : N := match slot_body slot with Occupied _ => 1 | _ => 0 end.
Definition is_retired slot : N := match slot_body slot with Retired => 1 | _ => 0 end.
Definition is_vacant slot : N := match slot_body slot with Vacant _ => 1 | _ => 0 end.

Lemma tally_kinds l : tally is_occupied l + tally is_retired l + tally is_vacant l = len l.
Proof.
  unfold len. induction l as [|[g b] l IH]; [done|]. cbn [tally length]. unfold is_occupied at 1, is_retired at 1, is_vacant at 1. cbn. destruct b; lia.
Qed.

(** The free list from a head: vacant slots, each naming the next. *)
Fixpoint free_chain l (head : option N) (F : list N) : Prop :=
  match F with
  | [] => head = None
  | i :: F => head = Some i ∧ ∃ g next, l !! N.to_nat i = Some (mkSlot g (Vacant next)) ∧ free_chain l next F
  end.
Lemma free_chain_frame l l' head F :
  (∀ i, i ∈ F → l' !! N.to_nat i = l !! N.to_nat i) → free_chain l head F → free_chain l' head F.
Proof.
  revert head. induction F as [|i F IH]; intros head Hf; [done|]. cbn [free_chain]. intros (->&g&next&Hi&HF). split; [done|].
  exists g, next. rewrite Hf by (by left). split; [done|]. apply IH; [|done]. intros j Hj. apply Hf. by right.
Qed.

Definition free_ok l (head : option N) : Prop :=
  ∃ F, NoDup F ∧ free_chain l head F ∧ ∀ i slot, l !! N.to_nat i = Some slot → is_vacant slot = 1 ↔ i ∈ F.
Lemma free_chain_lt l head F i : free_chain l head F → i ∈ F → (N.to_nat i < length l)%nat.
Proof.
  revert head. induction F as [|j F IH]; intros head; [by intros _ ?%elem_of_nil|]. cbn [free_chain]. intros (->&g&next&Hj&HF) [->|Hi]%elem_of_cons.
  - by eapply lookup_lt_Some.
  - by eapply IH.
Qed.
(** A slot appended: listed at the head of the free list when it is vacant. *)
Lemma free_push l head slot (head' : option N) :
  match slot_body slot with Vacant next => next = head ∧ head' = Some (len l) | _ => head' = head end →
  free_ok l head → free_ok (l ++ [slot]) head'.
Proof.
  intros Hb (F&Hnd&HF&Hvac). assert (N.to_nat (len l) = length l) as En by (unfold len; lia).
  assert (free_chain (l ++ [slot]) head F) as HF'.
  { eapply free_chain_frame; [|exact HF]. intros i Hi. apply lookup_app_l. by eapply free_chain_lt. }
  assert (len l ∉ F) as Hnew by (intros Hin; pose proof (free_chain_lt _ _ _ _ HF Hin); lia).
  assert ((l ++ [slot]) !! N.to_nat (len l) = Some slot) as Hlast by (rewrite En; by apply list_lookup_middle).
  exists (if is_vacant slot =? 1 then len l :: F else F). split_and!.
  - destruct (_ =? _); [by constructor|done].
  - unfold is_vacant. destruct slot as [g []]; cbn in *; [destruct Hb as [-> ->]; eauto 10|by subst..].
  - intros i x Hi. assert (i ∈ (if is_vacant slot =? 1 then len l :: F else F) ↔ i ∈ F ∨ i = len l ∧ is_vacant slot = 1) as ->.
    { destruct (N.eqb_spec (is_vacant slot) 1); rewrite ?elem_of_cons; tauto. }
    destruct (decide (i = len l)) as [->|Hne]; [rewrite Hlast in Hi; injection Hi as <-; tauto|].
    apply lookup_app_Some in Hi as [Hi|[Hge Hi]]; [rewrite (Hvac i x Hi); tauto|].
    assert (N.to_nat i - length l ≠ 0)%nat by lia. by destruct (N.to_nat i - length l)%nat.
Qed.

Record slab_ok s : Prop := {
  so_store : store_ok (max_slots s) (slots s);
  so_bound : len (items s) ≤ max_slots s ∧ max_slots s ≤ u32_max;
  so_free : free_ok (items s) (free_head s);
  so_occupied : occupied s = tally is_occupied (items s);
  so_retired : retired s = tally is_retired (items s);
  so_limit : generation_limit s ≤ u32_max ∧ Forall (λ slot, slot_generation slot ≤ generation_limit s) (items s)
}.

Lemma slab_get_items s i : slab_ok s → store_get (slots s) i = items s !! N.to_nat i.
Proof. intros Hs. apply (store_get_ok (max_slots s)), Hs. Qed.
Lemma slab_len_items s : slab_ok s → store_len (slots s) = len (items s).
Proof. intros Hs. apply (store_len_ok (max_slots s)), Hs. Qed.

(** ** Room *)
Lemma room_eq s : slab_ok s →
  room s = tally is_vacant (items s) + (if generation_base s <=? generation_limit s then max_slots s - len (items s) else 0).
Proof.
  intros Hs. unfold room. rewrite (slab_len_items s Hs), (so_occupied _ Hs), (so_retired _ Hs). destruct (so_bound _ Hs). pose proof (tally_kinds (items s)).
  unfold sat_sub, sat_add, u64_max, u32_max in *. destruct (generation_base s <=? generation_limit s); lia.
Qed.

(** ** What a handle names *)
Definition live_value s h : option T :=
  match items s !! N.to_nat (h_index h) with
  | Some (mkSlot g (Occupied v)) => if decide (g = h_generation h) then Some v else None
  | _ => None
  end.
(** The handle's slot has moved on. *)
Definition spent s h : Prop :=
  ∃ slot, items s !! N.to_nat (h_index h) = Some slot
    ∧ (h_generation h < slot_generation slot ∨ h_generation h = slot_generation slot ∧ slot_body slot = Retired).
(** A slot may only move on. *)
Definition slot_follows (a b : SlabSlot T) : Prop :=
  slot_generation a < slot_generation b ∨ slot_generation a = slot_generation b ∧ (slot_body a = Retired → slot_body b = Retired).
Lemma spent_follows s s' h :
  (∀ i a, items s !! i = Some a → ∃ b, items s' !! i = Some b ∧ slot_follows a b) → spent s h → spent s' h.
Proof.
  intros Hf (a&Ha&Hsp). destruct (Hf _ _ Ha) as (b&Hb&[Hlt|[E Hr]]); exists b; (split; [done|]); [lia|]. destruct Hsp as [|[E2 Er]]; [lia|]. right. split; [lia|auto].
Qed.
Lemma spent_dead s h : spent s h → live_value s h = None.
Proof.
  intros ([g b]&Ha&Hsp). unfold live_value. rewrite Ha. cbn in Hsp. destruct b; [done| |done]. case_decide; [|done]. destruct Hsp as [|[_ [=]]]. lia.
Qed.
Lemma live_of_get s h : slab_ok s → slab_get s h = match live_value s h with Some v => Ok v | None => Err (stale h) end.
Proof.
  intros Hs. unfold slab_get, live_value. rewrite (slab_get_items s _ Hs). destruct (items s !! _) as [[g []]|]; try done.
  destruct (N.eqb_spec g (h_generation h)); case_decide; done.
Qed.

(** A slot written: what it does to the live values. *)
Lemma live_insert s s' i slot :
  items s' = <[N.to_nat i := slot]> (items s) → (N.to_nat i < length (items s))%nat →
  ∀ h, live_value s' h = if decide (h_index h = i)
    then match slot_body slot with Occupied v => if decide (slot_generation slot = h_generation h) then Some v else None | _ => None end
    else live_value s h.
Proof.
  intros E Hi h. unfold live_value. rewrite E. destruct (decide (h_index h = i)) as [->|Hne].
  - rewrite list_lookup_insert_eq by done. by destruct slot as [g []].
  - by rewrite list_lookup_insert_ne by lia.
Qed.

(** ** The operations *)
Definition follows s s' : Prop := ∀ i a, items s !! i = Some a → ∃ b, items s' !! i = Some b ∧ slot_follows a b.
Lemma slot_follows_refl (a : SlabSlot T) : slot_follows a a.
Proof. right. done. Qed.
Lemma follows_write s s' i old slot :
  items s' = <[i := slot]> (items s) → items s !! i = Some old → slot_follows old slot → follows s s'.
Proof.
  intros E Hi Hf j a Hj. rewrite E. destruct (decide (j = i)) as [->|].
  - exists slot. rewrite list_lookup_insert_eq by (by eapply lookup_lt_Some). split; [done|]. congruence.
  - exists a. rewrite list_lookup_insert_ne by done. split; [done|apply slot_follows_refl].
Qed.
Lemma follows_app s s' l : items s' = items s ++ l → follows s s'.
Proof. intros E j a Hj. exists a. rewrite E. split; [by apply lookup_app_l_Some|apply slot_follows_refl]. Qed.
Lemma limit_write (limit : N) l i slot :
  slot_generation slot ≤ limit → Forall (λ x : SlabSlot T, slot_generation x ≤ limit) l → Forall (λ x, slot_generation x ≤ limit) (<[i := slot]> l).
Proof. intros. by apply Forall_insert. Qed.

(** The values of a slab after a value was written under a handle. *)
Definition now_holds s s' h v : Prop := ∀ h', live_value s' h' = if decide (h' = h) then Some v else live_value s h'.
Lemma now_holds_write s s' h v old :
  items s' = <[N.to_nat (h_index h) := mkSlot (h_generation h) (Occupied v)]> (items s) →
  items s !! N.to_nat (h_index h) = Some old → slot_generation old = h_generation h → now_holds s s' h v.
Proof.
  intros E Hold Hg h'. rewrite (live_insert s s' (h_index h) _ E) by (by eapply lookup_lt_Some). cbn.
  destruct (decide (h_index h' = h_index h)) as [Ei|Hne]; [|by rewrite decide_False by (intros ->; done)].
  destruct (decide (h_generation h = h_generation h')) as [Eg|Hne].
  - rewrite decide_True; [done|]. destruct h, h'; cbn in *; congruence.
  - rewrite decide_False by (intros ->; done). unfold live_value. rewrite Ei, Hold. destruct old as [g []]; try done. cbn in Hg. by rewrite decide_False by congruence.
Qed.

(** A written slot: the slab stays well formed, and its room changes by the vacancy of the slot. *)
Lemma slab_written s s' i old slot :
  slab_ok s → items s' = <[i := slot]> (items s) → items s !! i = Some old → store_ok (max_slots s) (slots s') →
  (max_slots s', generation_base s', generation_limit s') = (max_slots s, generation_base s, generation_limit s) →
  slot_generation slot ≤ generation_limit s → free_ok (items s') (free_head s') →
  occupied s' + is_occupied old = occupied s + is_occupied slot → retired s' + is_retired old = retired s + is_retired slot →
  slab_ok s' ∧ room s' + is_vacant old = room s + is_vacant slot.
Proof.
  intros Hs Eit Hi Hst [= Em Eb El] Hg HF Ho Hr.
  assert (len (items s') = len (items s)) as Elen by (rewrite Eit; unfold len; by rewrite length_insert).
  pose proof (tally_insert is_occupied _ _ _ slot Hi) as T1. pose proof (tally_insert is_retired _ _ _ slot Hi) as T2.
  pose proof (tally_insert is_vacant _ _ _ slot Hi) as T3. rewrite <- Eit in T1, T2, T3.
  assert (slab_ok s') as Hs'.
  { split; rewrite ?Em, ?El; [done|rewrite Elen; apply (so_bound _ Hs)|done| | |].
    - rewrite (so_occupied _ Hs) in Ho. lia.
    - rewrite (so_retired _ Hs) in Hr. lia.
    - destruct (so_limit _ Hs) as [? Hl]. split; [done|]. rewrite Eit. by apply limit_write. }
  split; [done|]. rewrite (room_eq s Hs), (room_eq s' Hs'), Elen, Em, Eb, El. lia.
Qed.

(** The promise of an insert. *)
Definition inserted s s' h v : Prop :=
  room s' + 1 = room s ∧ live_value s h = None ∧ ¬ spent s h ∧ now_holds s s' h v ∧ follows s s' ∧ h_index h < max_slots s.
Lemma insert_reused s v i :
  slab_ok s → free_head s = Some i → let '(s', r) := slab_insert s v in
  slab_ok s' ∧ ∃ h, r = Ok h ∧ inserted s s' h v.
Proof.
  intros Hs Ehd. destruct (so_free _ Hs) as (F&Hnd&HF&Hvac). unfold slab_insert. rewrite Ehd in *.
  destruct F as [|i' F]; [done|]. destruct HF as ([= <-]&g&next&Hi&HF). apply NoDup_cons in Hnd as [Hnew Hnd].
  rewrite (slab_get_items s i Hs), Hi. cbn [slot_body slot_generation].
  destruct (store_set_ok (max_slots s) (slots s) i (mkSlot g (Occupied v)) (so_store _ Hs)) as [Hst Hit]. fold (items s) in Hit.
  set (s' := mkSlab _ _ _ _ _ _ _ _). assert (items s' = <[N.to_nat i := mkSlot g (Occupied v)]> (items s)) as Eit by exact Hit.
  destruct (so_limit _ Hs) as [Hl1 Hl2]. pose proof (Forall_lookup_1 _ _ _ _ Hl2 Hi) as Hg. pose proof (so_bound _ Hs) as [Hb1 Hb2].
  pose proof (tally_kinds (items s)) as Tk.
  destruct (slab_written s s' (N.to_nat i) _ _ Hs Eit Hi Hst eq_refl Hg) as [Hs' Hroom].
  - exists F. split_and!; [done| |].
    + eapply free_chain_frame; [|exact HF]. intros j Hj. rewrite Eit, list_lookup_insert_ne; [done|]. intros E. assert (i = j) by lia. congruence.
    + intros j slot. rewrite Eit. destruct (decide (j = i)) as [->|Hne].
      * rewrite list_lookup_insert_eq by (by eapply lookup_lt_Some). intros [= <-]. split; [done|]. intros Hj. done.
      * rewrite list_lookup_insert_ne by lia. intros Hj. rewrite (Hvac j slot Hj), elem_of_cons. split; [by intros [|]|by right].
  - cbn [s' occupied is_occupied slot_body]. rewrite (so_occupied _ Hs). unfold sat_add, u64_max, u32_max in *. lia.
  - done.
  - split; [done|]. eexists. split; [done|]. split_and!.
    + cbn [is_vacant slot_body] in Hroom. lia.
    + unfold live_value. cbn. by rewrite Hi.
    + intros (slot&Hsl&Hd). cbn in Hsl, Hd. rewrite Hi in Hsl. injection Hsl as <-. cbn in Hd. destruct Hd as [|[_ [=]]]. lia.
    + by eapply now_holds_write.
    + eapply follows_write; [exact Eit|done|]. right. done.
    + cbn. apply lookup_lt_Some in Hi. unfold len in Hb1. lia.
Qed.

(** Slots appended: those of a gap, vacant and free, then an occupied one. *)
Lemma now_holds_push s s' l g v :
  items s' = items s ++ l ++ [mkSlot g (Occupied v)] → Forall (λ slot, is_vacant slot = 1) l →
  now_holds s s' (mkHandle (len (items s ++ l)) g) v.
Proof.
  intros E Hl h'. unfold live_value. rewrite E, app_assoc. assert (N.to_nat (len (items s ++ l)) = length (items s ++ l)) as En by (unfold len; lia).
  destruct (decide (N.to_nat (h_index h') = length (items s ++ l))) as [Ei|Ei].
  - rewrite Ei, lookup_app_r, Nat.sub_diag by lia. cbn. rewrite length_app in Ei |- *. rewrite (lookup_ge_None_2 (items s)) by lia.
    destruct (decide (g = h_generation h')) as [Eg|Eg].
    + rewrite decide_True; [done|]. destruct h' as [i g']. cbn in *. rewrite length_app in En. f_equal; [lia|done].
    + rewrite decide_False; [done|]. intros ->. done.
  - rewrite decide_False by (intros ->; cbn [h_index] in Ei; lia). destruct (decide (N.to_nat (h_index h') < length (items s))%nat) as [Hlt|Hlt].
    + rewrite !lookup_app_l by (rewrite ?length_app; lia). done.
    + rewrite (lookup_ge_None_2 (items s)) by lia. destruct (decide (N.to_nat (h_index h') < length (items s ++ l))%nat) as [Hlt2|Hlt2].
      * rewrite lookup_app_l by done. rewrite lookup_app_r by lia. destruct (l !! _) as [[g' b]|] eqn:El; [|done].
        pose proof (Forall_lookup_1 _ _ _ _ Hl El) as Hv. unfold is_vacant in Hv. cbn in Hv. by destruct b.
      * rewrite lookup_ge_None_2; [done|]. rewrite (length_app (items s ++ l)). cbn. lia.
Qed.
Lemma no_vacant s : slab_ok s → free_head s = None → tally is_vacant (items s) = 0.
Proof.
  intros Hs Hh. destruct (so_free _ Hs) as ([|]&_&HF&Hvac); [|destruct HF; congruence]. apply tally_zero. intros k slot Hk.
  pose proof (Hvac (N.of_nat k) slot) as Hx. rewrite Nat2N.id in Hx. specialize (Hx Hk). rewrite elem_of_nil in Hx. unfold is_vacant in *.
  destruct (slot_body slot); [exfalso; by apply Hx|done|done].
Qed.

(** The promise of slots appended: a gap of vacant slots, then one that holds the value. *)
Lemma slab_appended s s' gap g v :
  slab_ok s → items s' = items s ++ gap ++ [mkSlot g (Occupied v)] → store_ok (max_slots s) (slots s') →
  (max_slots s', generation_base s', generation_limit s') = (max_slots s, generation_base s, generation_limit s) →
  g ≤ generation_limit s → Forall (λ slot, is_vacant slot = 1 ∧ slot_generation slot = 0) gap →
  free_ok (items s') (free_head s') → occupied s' = occupied s + 1 → retired s' = retired s → len (items s ++ gap) < max_slots s →
  slab_ok s' ∧ now_holds s s' (mkHandle (len (items s ++ gap)) g) v ∧ follows s s' ∧ tally is_vacant (items s') = tally is_vacant (items s) + len gap.
Proof.
  intros Hs E Hst [= Em Eb El] Hg Hgap HF Ho Hr Hlen.
  assert (Forall (λ slot : SlabSlot T, is_vacant slot = 1) gap) as Hvac by (eapply Forall_impl; [exact Hgap|by intros ? []]).
  assert (tally is_occupied gap = 0 ∧ tally is_retired gap = 0 ∧ tally is_vacant gap = len gap) as (G1&G2&G3).
  { pose proof (tally_kinds gap). assert (tally is_vacant gap = len gap); [|lia]. unfold len. clear -Hvac. induction Hvac as [|x gap Hx _ IH]; [done|]. cbn [tally length]. lia. }
  split_and!; [|by apply now_holds_push|by eapply follows_app|rewrite E, !tally_app, G3; cbn; lia].
  split; rewrite ?Em, ?El; [done| |done| | |].
  - destruct (so_bound _ Hs). split; [|done]. rewrite E, app_assoc. unfold len in *. rewrite length_app. cbn. lia.
  - rewrite Ho, (so_occupied _ Hs), E, !tally_app, G1. cbn [tally is_occupied slot_body]. lia.
  - rewrite Hr, (so_retired _ Hs), E, !tally_app, G2. cbn [tally is_retired slot_body]. lia.
  - destruct (so_limit _ Hs) as [? Hl]. split; [done|]. rewrite E. apply Forall_app. split; [done|]. apply Forall_app. split; [|by constructor].
    eapply Forall_impl; [exact Hgap|]. intros ? [_ ->]. lia.
Qed.
Lemma live_past s h : len (items s) ≤ h_index h → live_value s h = None ∧ ¬ spent s h.
Proof.
  intros Hle. assert (items s !! N.to_nat (h_index h) = None) as E by (apply lookup_ge_None_2; unfold len in Hle; lia).
  split; [unfold live_value; by rewrite E|]. intros (slot&Hsl&_). congruence.
Qed.
Lemma insert_fresh s v :
  slab_ok s → free_head s = None → let '(s', r) := slab_insert s v in
  slab_ok s' ∧ match r with Ok h => inserted s s' h v | Err e => s' = s ∧ room s = 0 end.
Proof.
  intros Hs Ehd. pose proof (so_bound _ Hs) as [Hb1 Hb2]. pose proof (no_vacant s Hs Ehd) as Hv0. unfold slab_insert. rewrite Ehd, (slab_len_items s Hs).
  destruct (N.leb_spec (max_slots s) (len (items s))) as [Hfull|Hroom].
  { split; [done|]. split; [done|]. rewrite (room_eq s Hs), Hv0. destruct (_ <=? _); lia. }
  destruct (N.ltb_spec (generation_limit s) (generation_base s)) as [Hlim|Hlim].
  { split; [done|]. split; [done|]. rewrite (room_eq s Hs), Hv0. by rewrite (proj2 (N.leb_gt _ _)). }
  pose proof (store_push_ok (max_slots s) (slots s) (mkSlot (generation_base s) (Occupied v)) (so_store _ Hs) Hroom) as Hp.
  destruct (store_push (slots s) _) as [st i]. destruct Hp as (Hst&->&Hit). fold (items s) in *. rewrite (proj2 (N.leb_le _ u32_max)) by lia.
  set (s' := mkSlab _ _ _ _ _ _ _ _). assert (items s' = items s ++ [] ++ [mkSlot (generation_base s) (Occupied v)]) as Eit by exact Hit.
  pose proof (tally_kinds (items s)) as Tk.
  destruct (slab_appended s s' [] (generation_base s) v Hs Eit Hst eq_refl Hlim) as (Hs'&Hnow&Hfol&Hvac).
  - done.
  - rewrite Eit. eapply free_push; [|exact (so_free _ Hs)]. done.
  - cbn [s' occupied]. rewrite (so_occupied _ Hs). unfold sat_add, u64_max, u32_max in *. lia.
  - done.
  - by rewrite app_nil_r.
  - rewrite app_nil_r in Hnow. split; [done|]. split_and!; try done.
    + rewrite (room_eq s Hs), (room_eq s' Hs'), Hvac, Hv0. change (generation_base s') with (generation_base s). change (generation_limit s') with (generation_limit s).
      change (max_slots s') with (max_slots s). rewrite (proj2 (N.leb_le (generation_base s) _)) by done. rewrite Eit. unfold len in *. rewrite !length_app. cbn. lia.
    + by apply live_past.
    + by apply live_past.
Qed.
Lemma insert_ok s v :
  slab_ok s → let '(s', r) := slab_insert s v in
  slab_ok s' ∧ match r with Ok h => inserted s s' h v | Err e => s' = s ∧ room s = 0 end.
Proof.
  intros Hs. destruct (free_head s) as [i|] eqn:Ehd; [|by apply insert_fresh]. pose proof (insert_reused s v i Hs Ehd) as Hr.
  destruct (slab_insert s v) as [s' r]. destruct Hr as (Hs'&h&->&Hin). done.
Qed.

(** ** A slot taken by index *)
Lemma fill_gap_ok bound turns st free :
  bound ≤ u32_max → store_ok bound st → len (store_items st) + N.of_nat turns ≤ bound → free_ok (store_items st) free →
  let '(st', free') := fill_gap turns st free in
  store_ok bound st' ∧ free_ok (store_items st') free' ∧ ∃ gap, store_items st' = store_items st ++ gap ∧ length gap = turns
    ∧ Forall (λ slot, is_vacant slot = 1 ∧ slot_generation slot = 0) gap.
Proof.
  intros Hb. revert st free. induction turns as [|turns IH]; intros st free Hst Hle HF; cbn [fill_gap].
  { split_and!; [done..|]. exists []. by rewrite app_nil_r. }
  pose proof (store_push_ok bound st (mkSlot 0 (Vacant free)) Hst ltac:(lia)) as Hp. destruct (store_push st _) as [st1 i]. destruct Hp as (Hst1&->&Hit).
  assert (clamp_u32 (len (store_items st)) = len (store_items st)) as -> by (unfold clamp_u32; rewrite ?(proj2 (N.leb_le _ _)); lia).
  assert (free_ok (store_items st1) (Some (len (store_items st)))) as HF1 by (rewrite Hit; by eapply free_push; [|exact HF]).
  specialize (IH st1 (Some (len (store_items st))) Hst1). destruct (fill_gap turns st1 _) as [st' free'].
  destruct IH as (H1&H2&gap&H3&H4&H5); [rewrite Hit; unfold len in *; rewrite length_app; cbn; lia|done|].
  split_and!; [done..|]. exists (mkSlot 0 (Vacant free) :: gap). rewrite H3, Hit, <- app_assoc. cbn. split_and!; [done|lia|]. by constructor.
Qed.
Lemma insert_at_ok s i g v :
  slab_ok s → let '(s', r) := slab_insert_at s i g v in
  slab_ok s' ∧ match r with
    | Ok h => h = mkHandle i g ∧ live_value s h = None ∧ ¬ spent s h ∧ now_holds s s' h v ∧ follows s s' ∧ i < max_slots s
    | Err e => s' = s ∧ (max_slots s ≤ i ∨ i < len (items s) ∨ generation_limit s < g)
    end.
Proof.
  intros Hs. pose proof (so_bound _ Hs) as [Hb1 Hb2]. unfold slab_insert_at. rewrite (slab_len_items s Hs).
  destruct (N.leb_spec (max_slots s) i) as [Hm|Hm]; [by auto|]. destruct (N.ltb_spec i (len (items s))) as [Hi|Hi]; [by auto|].
  destruct (N.ltb_spec (generation_limit s) g) as [Hg|Hg]; [by auto|].
  pose proof (fill_gap_ok (max_slots s) (N.to_nat (i - len (items s))) (slots s) (free_head s) Hb2 (so_store _ Hs)) as Hf.
  destruct (fill_gap _ _ _) as [st free]. destruct Hf as (Hst&HF&gap&Hit&Hgl&Hgap); [fold (items s); lia|exact (so_free _ Hs)|]. fold (items s) in Hit.
  assert (len (items s ++ gap) = i) as Elen by (unfold len in *; rewrite length_app; lia).
  pose proof (store_push_ok (max_slots s) st (mkSlot g (Occupied v)) Hst ltac:(rewrite Hit; lia)) as Hp. destruct (store_push st _) as [st' at_].
  destruct Hp as (Hst'&_&Hit'). set (s' := mkSlab _ _ _ _ _ _ _ _).
  assert (items s' = items s ++ gap ++ [mkSlot g (Occupied v)]) as Eit by (unfold items at 1; cbn [s' slots]; rewrite Hit', Hit; by rewrite app_assoc).
  pose proof (tally_kinds (items s)) as Tk.
  destruct (slab_appended s s' gap g v Hs Eit Hst' eq_refl Hg Hgap) as (Hs'&Hnow&Hfol&_).
  - rewrite Eit, app_assoc, <- Hit. eapply free_push; [|exact HF]. done.
  - cbn [s' occupied]. rewrite (so_occupied _ Hs). unfold sat_add, u64_max, u32_max in *. lia.
  - done.
  - lia.
  - rewrite Elen in Hnow. split; [done|]. split_and!; try done; by apply live_past.
Qed.

(** ** Values changed and removed *)
Lemma live_slot s h v : live_value s h = Some v ↔ items s !! N.to_nat (h_index h) = Some (mkSlot (h_generation h) (Occupied v)).
Proof.
  unfold live_value. destruct (items s !! _) as [[g []]|]; try done. destruct (decide (g = h_generation h)) as [->|Hne]; split; congruence.
Qed.
Lemma set_ok s h v :
  slab_ok s → let '(s', r) := slab_set s h v in
  slab_ok s' ∧ match r with
    | Ok _ => is_Some (live_value s h) ∧ now_holds s s' h v ∧ follows s s' ∧ room s' = room s
    | Err e => s' = s ∧ live_value s h = None ∧ e = stale h
    end.
Proof.
  intros Hs. unfold slab_set. rewrite (slab_get_items s _ Hs). unfold live_value.
  destruct (items s !! N.to_nat (h_index h)) as [[g b]|] eqn:Hi; [|done]. destruct b as [|u|]; [done| |done].
  destruct (N.eqb_spec g (h_generation h)) as [->|Hne]; [|by rewrite decide_False]. rewrite decide_True by done.
  destruct (store_set_ok (max_slots s) (slots s) (h_index h) (mkSlot (h_generation h) (Occupied v)) (so_store _ Hs)) as [Hst Hit]. fold (items s) in Hit.
  set (s' := mkSlab _ _ _ _ _ _ _ _). assert (items s' = <[N.to_nat (h_index h) := mkSlot (h_generation h) (Occupied v)]> (items s)) as Eit by exact Hit.
  destruct (so_limit _ Hs) as [Hl1 Hl2]. pose proof (Forall_lookup_1 _ _ _ _ Hl2 Hi) as Hg. cbn in Hg.
  destruct (slab_written s s' _ _ _ Hs Eit Hi Hst eq_refl Hg) as [Hs' Hroom]; [|done..|].
  - destruct (so_free _ Hs) as (F&Hnd&HF&Hvac). exists F. split_and!; [done| |].
    + eapply free_chain_frame; [|exact HF]. intros j Hj. rewrite Eit, list_lookup_insert_ne; [done|]. intros E. assert (h_index h = j) as <- by lia.
      apply (Hvac _ _ Hi) in Hj. done.
    + intros j slot. rewrite Eit. destruct (decide (j = h_index h)) as [->|Hne]; [|rewrite list_lookup_insert_ne by lia; apply Hvac].
      rewrite list_lookup_insert_eq by (by eapply lookup_lt_Some). intros [= <-]. rewrite <- (Hvac _ _ Hi). done.
  - split; [done|]. split_and!; [eauto|by eapply now_holds_write|eapply follows_write; [exact Eit|done|by right]|].
    cbn [is_vacant slot_body] in Hroom. lia.
Qed.

(** The promise of a removal. *)
Definition removed s s' h : Prop :=
  (∀ h', live_value s' h' = if decide (h' = h) then None else live_value s h') ∧ spent s' h ∧ follows s s'
  ∧ room s' = room s + (if h_generation h <? generation_limit s then 1 else 0).
(** A slot that had been occupied and is vacated, or retired. *)
Lemma vacated s s' h v slot :
  slab_ok s → items s !! N.to_nat (h_index h) = Some (mkSlot (h_generation h) (Occupied v)) →
  items s' = <[N.to_nat (h_index h) := slot]> (items s) → slab_ok s' → room s' = room s + is_vacant slot →
  is_vacant slot = (if h_generation h <? generation_limit s then 1 else 0) →
  is_vacant slot = 1 ∧ h_generation h < slot_generation slot ∨ slot_body slot = Retired ∧ h_generation h = slot_generation slot → removed s s' h.
Proof.
  intros Hs Hi Eit Hs' Hroom Hv Hslot. pose proof (lookup_lt_Some _ _ _ Hi) as Hlt. split_and!.
  - intros h'. rewrite (live_insert s s' _ _ Eit Hlt). destruct (decide (h_index h' = h_index h)) as [Ei|Hne].
    + unfold is_vacant in Hslot. destruct slot as [g []]; cbn in *; [|destruct Hslot as [[]|[]]; done|].
      all: destruct (decide (h' = h)); [done|]; unfold live_value; rewrite Ei, Hi, decide_False; [done|intros Eg; destruct h, h'; cbn in *; congruence].
    + by rewrite decide_False by (intros ->; done).
  - exists slot. rewrite Eit, list_lookup_insert_eq by done. split; [done|]. destruct Hslot as [[]|[]]; auto.
  - eapply follows_write; [exact Eit|exact Hi|]. unfold slot_follows. cbn. destruct Hslot as [[]|[]]; auto.
  - by rewrite Hroom, Hv.
Qed.
Lemma vacate_free s s' h v slot :
  slab_ok s → items s !! N.to_nat (h_index h) = Some (mkSlot (h_generation h) (Occupied v)) →
  items s' = <[N.to_nat (h_index h) := slot]> (items s) →
  (slot_body slot = Vacant (free_head s) ∧ free_head s' = Some (h_index h) ∨ slot_body slot = Retired ∧ free_head s' = free_head s) →
  free_ok (items s') (free_head s').
Proof.
  intros Hs Hi Eit Hslot. destruct (so_free _ Hs) as (F&Hnd&HF&Hvac). pose proof (lookup_lt_Some _ _ _ Hi) as Hlt.
  assert (h_index h ∉ F) as Hnew by (intros Hj; apply (Hvac _ _ Hi) in Hj; done).
  assert (free_chain (items s') (free_head s) F) as HF'.
  { eapply free_chain_frame; [|exact HF]. intros j Hj. rewrite Eit, list_lookup_insert_ne; [done|]. intros E. assert (h_index h = j) by lia. congruence. }
  assert (∀ j x, items s' !! N.to_nat j = Some x → j ≠ h_index h → is_vacant x = 1 ↔ j ∈ F) as Hold.
  { intros j x Hj Hne. rewrite Eit, list_lookup_insert_ne in Hj by lia. by apply Hvac. }
  assert (items s' !! N.to_nat (h_index h) = Some slot) as Hnow by (rewrite Eit; by apply list_lookup_insert_eq).
  destruct slot as [g b]. cbn in Hslot. destruct Hslot as [[-> ->]|[-> ->]].
  - exists (h_index h :: F). split_and!; [by constructor|cbn [free_chain]; eauto 10|]. intros j x Hj. rewrite elem_of_cons.
    destruct (decide (j = h_index h)) as [->|Hne]; [rewrite Hnow in Hj; injection Hj as <-; split; auto|]. rewrite (Hold j x Hj Hne). tauto.
  - exists F. split_and!; [done..|]. intros j x Hj. destruct (decide (j = h_index h)) as [->|Hne]; [|by apply Hold]. rewrite Hnow in Hj. by injection Hj as <-.
Qed.
Lemma vacate_ok s h :
  slab_ok s → let '(s', r) := vacate s h in
  slab_ok s' ∧ match r with
    | Ok b => (∃ v, b = Occupied v ∧ live_value s h = Some v) ∧ removed s s' h
    | Err e => s' = s ∧ live_value s h = None ∧ e = stale h
    end.
Proof.
  intros Hs. unfold vacate. rewrite (slab_get_items s _ Hs). destruct (items s !! N.to_nat (h_index h)) as [[g b]|] eqn:Hi; [|by unfold live_value; rewrite Hi].
  destruct b as [|v|]; [by unfold live_value; rewrite Hi| |by unfold live_value; rewrite Hi].
  destruct (N.eqb_spec g (h_generation h)) as [->|Hne]; cbn [negb]; [|unfold live_value; rewrite Hi; by rewrite decide_False].
  destruct (so_limit _ Hs) as [Hl1 Hl2]. pose proof (Forall_lookup_1 _ _ _ _ Hl2 Hi) as Hg. cbn in Hg. destruct (so_bound _ Hs) as [Hb1 Hb2].
  pose proof (tally_kinds (items s)) as Tk. pose proof (tally_pos is_occupied _ _ _ Hi) as Tp. cbn [is_occupied slot_body] in Tp.
  pose proof (proj2 (live_slot s h v) Hi) as Hlive.
  assert ((h_generation h + 1 <=? u32_max) && (h_generation h + 1 <=? generation_limit s) = (h_generation h <? generation_limit s)) as ->.
  { apply Bool.eq_iff_eq_true. rewrite andb_true_iff, !N.leb_le, N.ltb_lt. lia. }
  destruct (N.ltb_spec (h_generation h) (generation_limit s)) as [Hlt|Hge].
  - pose proof (store_set_ok (max_slots s) (slots s) (h_index h) (mkSlot (h_generation h + 1) (Vacant (free_head s))) (so_store _ Hs)) as [Hst Hit]. fold (items s) in Hit.
    set (s' := mkSlab _ _ _ _ _ _ _ _). destruct (slab_written s s' _ _ _ Hs Hit Hi Hst eq_refl) as [Hs' Hroom]; [cbn; lia| | |done|].
    + eapply vacate_free; [done|exact Hi|exact Hit|]. by left.
    + cbn [s' occupied is_occupied slot_body]. rewrite (so_occupied _ Hs). unfold sat_sub. lia.
    + cbn [is_vacant slot_body] in Hroom. split; [done|]. split; [by eauto|]. eapply vacated; [done|exact Hi|exact Hit|done| | |]; [cbn [is_vacant slot_body]; lia| |].
      * by rewrite (proj2 (N.ltb_lt _ _)).
      * left. cbn. split; [done|lia].
  - pose proof (store_set_ok (max_slots s) (slots s) (h_index h) (mkSlot (h_generation h) Retired) (so_store _ Hs)) as [Hst Hit]. fold (items s) in Hit.
    set (s' := mkSlab _ _ _ _ _ _ _ _). destruct (slab_written s s' _ _ _ Hs Hit Hi Hst eq_refl) as [Hs' Hroom]; [cbn; lia| | | |].
    + eapply vacate_free; [done|exact Hi|exact Hit|]. by right.
    + cbn [s' occupied is_occupied slot_body]. rewrite (so_occupied _ Hs). unfold sat_sub. lia.
    + cbn [s' retired is_retired slot_body]. rewrite (so_retired _ Hs). unfold sat_add, u64_max, u32_max in *. lia.
    + cbn [is_vacant slot_body] in Hroom. split; [done|]. split; [by eauto|]. eapply vacated; [done|exact Hi|exact Hit|done| | |]; [cbn [is_vacant slot_body]; lia| |].
      * by rewrite (proj2 (N.ltb_ge _ _)).
      * right. done.
Qed.

(** ** The live entries *)
Lemma iter_ok s h v : slab_ok s → (h, v) ∈ slab_iter s ↔ live_value s h = Some v.
Proof.
  intros Hs. unfold slab_iter. fold (items s). rewrite live_slot. destruct (so_bound _ Hs) as [Hb1 Hb2]. unfold len in Hb1.
  rewrite list_elem_of_omap. split.
  - intros (o&Ho&Eo). apply list_elem_of_lookup in Ho as [k Hk]. rewrite list_lookup_imap in Hk. destruct (items s !! k) as [[g b]|] eqn:Ek; [|done].
    pose proof (lookup_lt_Some _ _ _ Ek). cbn in Hk. injection Hk as <-. cbn in Eo. destruct b; [done| |done]. injection Eo as <- <-. cbn [h_index h_generation].
    rewrite clamp_u32_small by lia. by rewrite Nat2N.id.
  - intros Hi. pose proof (lookup_lt_Some _ _ _ Hi). exists (Some (h, v)). split; [|done]. apply list_elem_of_lookup. exists (N.to_nat (h_index h)).
    rewrite list_lookup_imap, Hi. cbn. rewrite N2Nat.id, clamp_u32_small by lia. by destruct h.
Qed.
End slab.
