(* ===== verification/SlabProps.v ===== *)
(** * What a slab promises

    The abstract contract of [crates/mem/src/slab.rs], a map in which a handle is
    issued at most once, and its refinement; how many inserts a slab has room
    for; what a successor slab may issue; and the words of
    [crates/mem/src/handle.rs] that handles are packed into. *)

From S2P Require Import Prelude BuddyBits Segmented Slab.
#[local] Open Scope N_scope.

(** ** The contract *)

(** A handle map: the values of the live handles, and every handle issued so far. *)
#[export] Instance Handle_countable : Countable Handle.
Proof. apply (inj_countable' (λ h, (h_index h, h_generation h)) (λ p, mkHandle p.1 p.2)). by intros []. Defined.
Record HandleMap (T : Type) := mkHM { hm_live : gmap Handle T; hm_issued : gset Handle }.
Arguments mkHM {T}.
Arguments hm_live {T}.
Arguments hm_issued {T}.

(** Calls and their answers. *)
Inductive SlabCall (T : Type) :=
| CInsert (v : T) | CInsertAt (i g : N) (v : T) | CGet (h : Handle) | CSet (h : Handle) (v : T) | CContains (h : Handle)
| CRemove (h : Handle) | CDiscard (h : Handle).
Arguments CInsert {T}. Arguments CInsertAt {T}. Arguments CGet {T}. Arguments CSet {T}. Arguments CContains {T}. Arguments CRemove {T}. Arguments CDiscard {T}.
Inductive SlabAnswer (T : Type) :=
| AHandle (r : result MemError Handle) | AValue (r : result MemError T) | ADone (r : result MemError unit) | ALive (b : bool).
Arguments AHandle {T}. Arguments AValue {T}. Arguments ADone {T}. Arguments ALive {T}.

(** What a handle map may answer. A new handle was never issued; a handle that is not live is stale, whatever it was. *)
Inductive hm_step {T} : HandleMap T → SlabCall T → SlabAnswer T → HandleMap T → Prop :=
| HmIssue m h v : h ∉ hm_issued m → hm_step m (CInsert v) (AHandle (Ok h)) (mkHM (<[h := v]> (hm_live m)) ({[h]} ∪ hm_issued m))
| HmIssueAt m i g v : mkHandle i g ∉ hm_issued m →
    hm_step m (CInsertAt i g v) (AHandle (Ok (mkHandle i g))) (mkHM (<[mkHandle i g := v]> (hm_live m)) ({[mkHandle i g]} ∪ hm_issued m))
| HmFull m v e : hm_step m (CInsert v) (AHandle (Err e)) m
| HmRefuse m i g v e : hm_step m (CInsertAt i g v) (AHandle (Err e)) m
| HmGet m h : hm_step m (CGet h) (AValue (from_option Ok (Err (stale h)) (hm_live m !! h))) m
| HmContains m h : hm_step m (CContains h) (ALive (bool_decide (is_Some (hm_live m !! h)))) m
| HmSet m h u v : hm_live m !! h = Some u → hm_step m (CSet h v) (ADone (Ok tt)) (mkHM (<[h := v]> (hm_live m)) (hm_issued m))
| HmSetStale m h v : hm_live m !! h = None → hm_step m (CSet h v) (ADone (Err (stale h))) m
| HmRemove m h v : hm_live m !! h = Some v → hm_step m (CRemove h) (AValue (Ok v)) (mkHM (delete h (hm_live m)) (hm_issued m))
| HmRemoveStale m h : hm_live m !! h = None → hm_step m (CRemove h) (AValue (Err (stale h))) m
| HmDiscard m h v : hm_live m !! h = Some v → hm_step m (CDiscard h) (ADone (Ok tt)) (mkHM (delete h (hm_live m)) (hm_issued m))
| HmDiscardStale m h : hm_live m !! h = None → hm_step m (CDiscard h) (ADone (Err (stale h))) m.
Inductive hm_run {T} : HandleMap T → list (SlabCall T) → list (SlabAnswer T) → HandleMap T → Prop :=
| HmNil m : hm_run m [] [] m
| HmCons m c a m' cs as_ m'' : hm_step m c a m' → hm_run m' cs as_ m'' → hm_run m (c :: cs) (a :: as_) m''.

Section slab.
Context {T St : Type} `{SlotStore (SlabSlot T) St}.
Implicit Types (s : Slab St) (h : Handle) (v : T) (c : SlabCall T) (m : HandleMap T).

(** A call to a slab. *)
Definition slab_call s c : Slab St * SlabAnswer T :=
  match c with
  | CInsert v => let '(s, r) := slab_insert s v in (s, AHandle r)
  | CInsertAt i g v => let '(s, r) := slab_insert_at s i g v in (s, AHandle r)
  | CGet h => (s, AValue (slab_get s h))
  | CSet h v => let '(s, r) := slab_set s h v in (s, ADone r)
  | CContains h => (s, ALive (slab_contains s h))
  | CRemove h => let '(s, r) := slab_remove s h in (s, AValue r)
  | CDiscard h => let '(s, r) := slab_discard s h in (s, ADone r)
  end.
Fixpoint slab_calls s (cs : list (SlabCall T)) : Slab St * list (SlabAnswer T) :=
  match cs with
  | [] => (s, [])
  | c :: cs => let '(s, a) := slab_call s c in let '(s, as_) := slab_calls s cs in (s, a :: as_)
  end.

(** ** The refinement *)
Record slab_shows s m : Prop := {
  ss_ok : slab_ok s;
  ss_live : ∀ h, hm_live m !! h = live_value s h;
  ss_issued : ∀ h, h ∈ hm_issued m → is_Some (live_value s h) ∨ spent s h;
  ss_known : ∀ h, is_Some (live_value s h) → h ∈ hm_issued m
}.
Lemma shows_issue s s' m h v :
  slab_shows s m → slab_ok s' → now_holds s s' h v → follows s s' →
  slab_shows s' (mkHM (<[h := v]> (hm_live m)) ({[h]} ∪ hm_issued m)).
Proof.
  intros Hm Hs' Hn Hf. split; cbn [hm_live hm_issued]; [done|..]; intros h'; rewrite (Hn h').
  - destruct (decide (h' = h)) as [->|]; [by rewrite lookup_insert_eq|]. rewrite lookup_insert_ne by done. apply (ss_live _ _ Hm).
  - intros Hi. destruct (decide (h' = h)) as [->|]; [by left; eauto|]. destruct (ss_issued _ _ Hm h') as [|Hsp]; [set_solver|by left|right]. by eapply spent_follows.
  - destruct (decide (h' = h)) as [->|]; [set_solver|]. intros Hl%(ss_known _ _ Hm). set_solver.
Qed.
Lemma shows_fresh s m h : slab_shows s m → live_value s h = None → ¬ spent s h → h ∉ hm_issued m.
Proof. intros Hm Hn Hsp [[v Hv]|]%(ss_issued _ _ Hm); congruence. Qed.
Lemma shows_removed s s' m h :
  slab_shows s m → slab_ok s' → removed s s' h → is_Some (live_value s h) → slab_shows s' (mkHM (delete h (hm_live m)) (hm_issued m)).
Proof.
  intros Hm Hs' (Hn&Hsp&Hf&_) Hlive. split; cbn [hm_live hm_issued]; [done|..]; intros h'; rewrite (Hn h').
  - destruct (decide (h' = h)) as [->|]; [by rewrite lookup_delete_eq|]. rewrite lookup_delete_ne by done. apply (ss_live _ _ Hm).
  - intros Hi. destruct (decide (h' = h)) as [->|]; [by right|]. destruct (ss_issued _ _ Hm h' Hi) as [|Hs]; [by left|right]. by eapply spent_follows.
  - destruct (decide (h' = h)) as [->|]; [by intros [? ?]|]. apply (ss_known _ _ Hm).
Qed.
Lemma shows_set s s' m h v :
  slab_shows s m → slab_ok s' → now_holds s s' h v → follows s s' → is_Some (live_value s h) →
  slab_shows s' (mkHM (<[h := v]> (hm_live m)) (hm_issued m)).
Proof.
  intros Hm Hs' Hn Hf Hl. assert (hm_issued m = {[h]} ∪ hm_issued m) as -> by (pose proof (ss_known _ _ Hm h Hl); set_solver). by eapply shows_issue.
Qed.

Lemma call_shows s m c :
  slab_shows s m → let '(s', a) := slab_call s c in ∃ m', hm_step m c a m' ∧ slab_shows s' m'.
Proof.
  intros Hm. pose proof (ss_ok _ _ Hm) as Hs. destruct c as [v|i g v|h|h v|h|h|h]; cbn [slab_call].
  - pose proof (insert_ok s v Hs) as Hi. destruct (slab_insert s v) as [s' [h|e]]; destruct Hi as [Hs' Hr].
    + destruct Hr as (_&H1&H2&H3&H4&_). eexists. split; [apply HmIssue; by eapply shows_fresh|by eapply shows_issue].
    + destruct Hr as [-> _]. eexists. split; [apply HmFull|done].
  - pose proof (insert_at_ok s i g v Hs) as Hi. destruct (slab_insert_at s i g v) as [s' [h|e]]; destruct Hi as [Hs' Hr].
    + destruct Hr as (->&H1&H2&H3&H4&_). eexists. split; [apply HmIssueAt; by eapply shows_fresh|by eapply shows_issue].
    + destruct Hr as [-> _]. eexists. split; [apply HmRefuse|done].
  - exists m. split; [|done]. rewrite (live_of_get s h Hs), <- (ss_live _ _ Hm). destruct (hm_live m !! h) as [v|] eqn:E; [|].
    + pose proof (HmGet m h) as Hg. by rewrite E in Hg.
    + pose proof (HmGet m h) as Hg. by rewrite E in Hg.
  - pose proof (set_ok s h v Hs) as Hi. destruct (slab_set s h v) as [s' [[]|e]]; destruct Hi as [Hs' Hr].
    + destruct Hr as ([u Hu]&H2&H3&_). eexists. split; [eapply HmSet; by rewrite (ss_live _ _ Hm)|eapply shows_set; eauto].
    + destruct Hr as (->&H2&->). eexists. split; [apply HmSetStale; by rewrite (ss_live _ _ Hm)|done].
  - exists m. split; [|done]. unfold slab_contains. rewrite (live_of_get s h Hs), <- (ss_live _ _ Hm). pose proof (HmContains m h) as Hg.
    destruct (hm_live m !! h) as [v|]; [rewrite bool_decide_true in Hg by eauto|rewrite bool_decide_false in Hg by (by intros [])]; done.
  - unfold slab_remove. pose proof (vacate_ok s h Hs) as Hi. destruct (vacate s h) as [s' [b|e]]; destruct Hi as [Hs' Hr].
    + destruct Hr as ((v&->&Hl)&Hr). eexists. split; [apply HmRemove; by rewrite (ss_live _ _ Hm)|eapply shows_removed; eauto].
    + destruct Hr as (->&H2&->). eexists. split; [apply HmRemoveStale; by rewrite (ss_live _ _ Hm)|done].
  - unfold slab_discard. pose proof (vacate_ok s h Hs) as Hi. destruct (vacate s h) as [s' [b|e]]; destruct Hi as [Hs' Hr].
    + destruct Hr as ((v&->&Hl)&Hr). eexists. split; [eapply HmDiscard; by rewrite (ss_live _ _ Hm)|eapply shows_removed; eauto].
    + destruct Hr as (->&H2&->). eexists. split; [apply HmDiscardStale; by rewrite (ss_live _ _ Hm)|done].
Qed.
Lemma calls_show s m cs :
  slab_shows s m → let '(s', as_) := slab_calls s cs in ∃ m', hm_run m cs as_ m' ∧ slab_shows s' m'.
Proof.
  revert s m. induction cs as [|c cs IH]; intros s m Hm; cbn [slab_calls]; [exists m; split; [constructor|done]|].
  pose proof (call_shows s m c Hm) as Hc. destruct (slab_call s c) as [s1 a]. destruct Hc as (m1&Hstep&Hm1).
  specialize (IH s1 m1 Hm1). destruct (slab_calls s1 cs) as [s2 as_]. destruct IH as (m2&Hrun&Hm2). exists m2. split; [by econstructor|done].
Qed.
End slab.

(** Fresh slabs. *)
Section fresh.
Context {T : Type}.
Lemma fresh_ok (st : Segmented (SlabSlot T)) max base limit :
  segmented_ok max st → segmented_iter st = [] → max ≤ u32_max → limit ≤ u32_max →
  slab_ok (mkSlab st None 0 max base limit 0 None) ∧ ∀ h, live_value (mkSlab st None 0 max base limit 0 None) h = None.
Proof.
  intros Hst E Hm Hl. assert (items (mkSlab st None 0 max base limit 0 None) = []) as Ei by exact E. split.
  - split; rewrite ?Ei; [exact Hst|split; [unfold len; cbn [length max_slots]; lia|exact Hm]| |done|done|done]. exists []. split_and!; [constructor|done|]. intros i slot. by rewrite lookup_nil.
  - intros h. unfold live_value. by rewrite Ei.
Qed.
Lemma fresh_shows (st : Segmented (SlabSlot T)) max base limit :
  segmented_ok max st → segmented_iter st = [] → max ≤ u32_max → limit ≤ u32_max →
  slab_shows (mkSlab st None 0 max base limit 0 None) (mkHM ∅ ∅).
Proof.
  intros Hst E Hm Hl. destruct (fresh_ok st max base limit Hst E Hm Hl) as [Hs Hn]. split; [done|..]; intros h; cbn; rewrite ?Hn.
  - by rewrite lookup_empty.
  - set_solver.
  - by intros [].
Qed.

(** A slab as its constructors make it, with a bound and a limit that fit the handle's fields. *)
Inductive fresh_slab : Slab (Segmented (SlabSlot T)) → Prop :=
| FreshNew segment_slots max base : max ≤ u32_max → segment_slots ≤ u32_max → fresh_slab (slab_with_generation_base segment_slots max base)
| FreshPre max : max ≤ u32_max → fresh_slab (slab_preallocated max)
| FreshReserve s n : fresh_slab s → fresh_slab (slab_reserve_segments s n)
| FreshLimit s limit : fresh_slab s → limit ≤ u32_max → fresh_slab (with_generation_limit s limit).
Lemma segment_small n : n ≤ u32_max → 2 ^ N.log2_up (N.max n 1) ≤ 2 ^ 32.
Proof.
  intros Hn. apply N.pow_le_mono_r; [done|]. etransitivity; [apply N.log2_up_le_mono with (b := 2 ^ 32)|by rewrite N.log2_up_pow2 by done]. unfold u32_max in Hn. lia.
Qed.
Lemma fresh_form s : fresh_slab s → ∃ st max base limit,
  s = mkSlab st None 0 max base limit 0 None ∧ segmented_ok max st ∧ segmented_iter st = [] ∧ max ≤ u32_max ∧ limit ≤ u32_max.
Proof.
  induction 1 as [seg max base Hm Hs|max Hm|s n _ (st&max&base&limit&->&H1&H2&H3&H4)|s limit _ (st&max&base&limit'&->&H1&H2&H3&H4) Hl].
  - eexists _, _, _, _. split; [done|]. split_and!; [|done..]. apply segmented_new_ok. pose proof (segment_small seg Hs). unfold u32_max, u64_max in *. lia.
  - eexists _, _, _, _. split; [done|]. split_and!; [|done..]. apply segmented_preallocated_ok. pose proof (segment_small max Hm). unfold u32_max, u64_max in *. lia.
  - eexists _, _, _, _. split; [done|]. cbn [slots]. destruct (reserve_segments_ok max st n H1) as [H5 H6]. rewrite H6. done.
  - eexists _, _, _, _. split; [done|]. done.
Qed.
Lemma fresh_slab_shows s : fresh_slab s → slab_shows s (mkHM ∅ ∅).
Proof. intros (st&max&base&limit&->&?&?&?&?)%fresh_form. by apply fresh_shows. Qed.
Lemma fresh_slab_ok s : fresh_slab s → slab_ok s.
Proof. intros Hs%fresh_slab_shows. apply Hs. Qed.
End fresh.

(** The handles a run issued. *)
Definition issued_by {T} (a : SlabAnswer T) : option Handle := match a with AHandle (Ok h) => Some h | _ => None end.
Lemma step_issued {T} (m m' : HandleMap T) c a :
  hm_step m c a m' → hm_issued m ⊆ hm_issued m' ∧ (∀ h, issued_by a = Some h → h ∉ hm_issued m ∧ h ∈ hm_issued m')
  ∧ ∀ h, h ∈ hm_issued m → hm_live m !! h = None → hm_live m' !! h = None.
Proof.
  intros []; cbn [issued_by hm_issued hm_live]; (split; [set_solver|]); (split; [intros ? [=]; set_solver|]); intros k Hk Hn; try done;
    try (rewrite lookup_insert_ne; [done|set_solver]); try (rewrite lookup_insert_ne; [done|congruence]); by apply lookup_delete_None; right.
Qed.
Lemma run_issued {T} (m m' : HandleMap T) cs as_ :
  hm_run m cs as_ m' → NoDup (omap issued_by as_) ∧ (∀ h, h ∈ omap issued_by as_ → h ∉ hm_issued m) ∧ hm_issued m ⊆ hm_issued m'
  ∧ ∀ h, h ∈ hm_issued m → hm_live m !! h = None → hm_live m' !! h = None.
Proof.
  induction 1 as [m|m c a m1 cs as_ m2 Hs Hr (IH1&IH2&IH3&IH4)]; cbn [omap list_omap]; [split_and!; [constructor|set_solver..|done]|].
  destruct (step_issued m m1 c a Hs) as (H1&H2&H3). destruct (issued_by a) as [h|].
  - destruct (H2 h eq_refl) as [H4 H5]. split_and!; [constructor; [|done]|..].
    + intros Hin%IH2. done.
    + intros k [->|Hk]%elem_of_cons; [done|]. specialize (IH2 k Hk). set_solver.
    + set_solver.
    + intros k Hk Hn. apply IH4; [set_solver|auto].
  - split_and!; [done| |set_solver|]; [intros k Hk%IH2; set_solver|]. intros k Hk Hn. apply IH4; [set_solver|auto].
Qed.
Lemma calls_app {T St} `{SlotStore (SlabSlot T) St} (s : Slab St) cs1 cs2 :
  slab_calls s (cs1 ++ cs2) = let '(s1, as1) := slab_calls s cs1 in let '(s2, as2) := slab_calls s1 cs2 in (s2, as1 ++ as2).
Proof.
  revert s. induction cs1 as [|c cs1 IH]; intros s; cbn [slab_calls app]; [by destruct (slab_calls s cs2)|]. destruct (slab_call s c) as [s1 a]. rewrite IH.
  destruct (slab_calls s1 cs1) as [s2 as1]. by destruct (slab_calls s2 cs2).
Qed.

(** ** The claims *)

(** C16. A fresh slab answers every sequence of calls as a handle map does, and its iteration lists the live values of that map. *)
Theorem slab_refines_handle_map {T} (s : Slab (Segmented (SlabSlot T))) (cs : list (SlabCall T)) :
  fresh_slab s → let '(s', answers) := slab_calls s cs in
  slab_ok s' ∧ ∃ m, hm_run (mkHM ∅ ∅) cs answers m ∧ ∀ h v, (h, v) ∈ slab_iter s' ↔ hm_live m !! h = Some v.
Proof.
  intros Hs. pose proof (calls_show s _ cs (fresh_slab_shows s Hs)) as Hr. destruct (slab_calls s cs) as [s' answers].
  destruct Hr as (m&Hr&Hm). split; [apply Hm|]. exists m. split; [done|]. intros h v.
  rewrite (iter_ok s' h v (ss_ok _ _ Hm)), (ss_live _ _ Hm). done.
Qed.
(** C17. No two inserts of a slab's life return the same handle, and a handle that was removed is stale after any later calls,
    also when its slot holds another value. *)
Theorem handle_issued_once {T} (s : Slab (Segmented (SlabSlot T))) (cs later : list (SlabCall T)) h v :
  fresh_slab s → let '(s1, answers) := slab_calls s (cs ++ [CRemove h] ++ later) in
  NoDup (omap issued_by answers) ∧ (answers !! length cs = Some (AValue (Ok v)) → slab_get s1 h = Err (stale h)).
Proof.
  intros Hs. rewrite calls_app. pose proof (calls_show s _ cs (fresh_slab_shows s Hs)) as Hr. destruct (slab_calls s cs) as [s1 as1] eqn:E1. destruct Hr as (m1&Hr1&Hm1).
  assert (length as1 = length cs) as Elen by (clear -Hr1; induction Hr1; cbn; congruence).
  cbn [app slab_calls]. pose proof (call_shows s1 m1 (CRemove h) Hm1) as Hc. destruct (slab_call s1 (CRemove h)) as [s2 a]. destruct Hc as (m2&Hc&Hm2).
  pose proof (calls_show s2 m2 later Hm2) as Hr. destruct (slab_calls s2 later) as [s3 as3]. destruct Hr as (m3&Hr3&Hm3).
  destruct (run_issued _ _ _ _ Hr1) as (N1&_&_&_). destruct (step_issued _ _ _ _ Hc) as (H1&H2&H3). destruct (run_issued _ _ _ _ Hr3) as (N3&D3&_&L3).
  split.
  - assert (hm_run (mkHM ∅ ∅) (cs ++ CRemove h :: later) (as1 ++ a :: as3) m3) as Hall; [|by destruct (run_issued _ _ _ _ Hall)].
    clear -Hr1 Hc Hr3. induction Hr1; cbn; [by econstructor|]. econstructor; eauto.
  - rewrite <- Elen, list_lookup_middle by done. intros [= ->]. rewrite (live_of_get s3 h (ss_ok _ _ Hm3)), <- (ss_live _ _ Hm3).
    inversion Hc; subst. rewrite (L3 h); [done| |cbn; apply lookup_delete_eq]. cbn. apply (ss_known _ _ Hm1). rewrite <- (ss_live _ _ Hm1). eauto.
Qed.

(** ** Room *)
Section room.
Context {T St : Type} `{SlotStore (SlabSlot T) St}.
Implicit Types (s : Slab St) (v : T).

(** Inserts in a row, until one is refused. *)
Fixpoint insert_all s (vs : list T) : Slab St * list Handle :=
  match vs with
  | [] => (s, [])
  | v :: vs =>
      match slab_insert s v with
      | (s, Ok h) => let '(s, hs) := insert_all s vs in (s, h :: hs)
      | (s, Err _) => (s, [])
      end
  end.
Lemma insert_all_ok s vs :
  slab_ok s → let '(s', hs) := insert_all s vs in
  slab_ok s' ∧ len hs = N.min (len vs) (room s) ∧ room s' = room s - len hs
  ∧ (∀ h v, live_value s h = Some v → live_value s' h = Some v) ∧ ∀ k h v, hs !! k = Some h → vs !! k = Some v → live_value s' h = Some v.
Proof.
  revert s. induction vs as [|v vs IH]; intros s Hs; cbn [insert_all].
  { split; [done|]. unfold len. cbn. split_and!; [lia..|done|done]. }
  pose proof (insert_ok s v Hs) as Hi. destruct (slab_insert s v) as [s1 [h|e]]; destruct Hi as [Hs1 Hr].
  - destruct Hr as (Hroom&Hn&_&Hnow&_). specialize (IH s1 Hs1). destruct (insert_all s1 vs) as [s2 hs]. destruct IH as (Hs2&Hl&Hr2&Hkeep&Hgot).
    split; [done|]. unfold len in *. cbn [length] in *. split_and!; [lia|lia|..].
    + intros h' u Hu. apply Hkeep. rewrite (Hnow h'). rewrite decide_False; [done|]. intros ->. congruence.
    + intros [|k] h' u Hh Hu; cbn in Hh, Hu; [|by eapply Hgot]. injection Hh as ->. injection Hu as ->. apply Hkeep. rewrite (Hnow h'). by rewrite decide_True.
  - destruct Hr as [-> Hr]. split; [done|]. rewrite Hr. unfold len. cbn. split_and!; [lia..|done|done].
Qed.
Lemma has_room_eq s : slab_ok s → has_room s = (0 <? room s) && (generation_base s <=? generation_limit s).
Proof.
  intros Hs. unfold has_room. rewrite (room_eq s Hs), (so_occupied _ Hs), (so_retired _ Hs). pose proof (tally_kinds (items s)) as Tk. destruct (so_bound _ Hs) as [Hb1 Hb2].
  destruct (generation_base s <=? generation_limit s); [|by rewrite !andb_false_r]. rewrite !andb_true_r. apply Bool.eq_iff_eq_true. rewrite !N.ltb_lt.
  unfold sat_add, u64_max, u32_max in *. lia.
Qed.

(** ** Generations from a base *)
Definition gens_from (base : N) s : Prop := generation_base s = base ∧ Forall (λ slot, base ≤ slot_generation slot) (items s).
(** A call that takes no slot by index. *)
Definition plain_call (c : SlabCall T) : bool := match c with CInsertAt _ _ _ => false | _ => true end.
Lemma insert_gens base s v : slab_ok s → gens_from base s → gens_from base (slab_insert s v).1.
Proof.
  intros Hs [Hb Hf]. unfold slab_insert. destruct (free_head s) as [i|] eqn:Eh.
  - rewrite (slab_get_items s i Hs). destruct (items s !! N.to_nat i) as [slot|] eqn:Ei; [|done]. cbn [fst]. split; [done|]. unfold items. cbn [slots].
    destruct (store_set_ok (max_slots s) (slots s) i (mkSlot (slot_generation slot) (Occupied v)) (so_store _ Hs)) as [_ ->].
    apply Forall_insert; [done|]. apply (Forall_lookup_1 _ _ _ _ Hf Ei).
  - rewrite (slab_len_items s Hs). destruct (N.leb_spec (max_slots s) (len (items s))) as [|Hlt]; [done|]. destruct (_ <? _); [done|].
    pose proof (store_push_ok (max_slots s) (slots s) (mkSlot (generation_base s) (Occupied v)) (so_store _ Hs) Hlt) as Hp.
    destruct (store_push (slots s) _) as [st i]. destruct Hp as (_&_&Hit). destruct (_ <=? _); cbn [fst]; (split; [done|]); unfold items; cbn [slots]; rewrite Hit;
      apply Forall_app; (split; [done|]); constructor; [cbn; lia|done|cbn; lia|done].
Qed.
Lemma set_gens base s h v : slab_ok s → gens_from base s → gens_from base (slab_set s h v).1.
Proof.
  intros Hs [Hb Hf]. unfold slab_set. rewrite (slab_get_items s _ Hs). destruct (items s !! N.to_nat (h_index h)) as [[g []]|] eqn:Ei; try done.
  destruct (_ =? _); [|done]. cbn [fst]. split; [done|]. unfold items. cbn [slots].
  destruct (store_set_ok (max_slots s) (slots s) (h_index h) (mkSlot g (Occupied v)) (so_store _ Hs)) as [_ ->].
  apply Forall_insert; [done|]. apply (Forall_lookup_1 _ _ _ _ Hf Ei).
Qed.
Lemma vacate_gens base s h : slab_ok s → gens_from base s → gens_from base (vacate s h).1.
Proof.
  intros Hs [Hb Hf]. unfold vacate. rewrite (slab_get_items s _ Hs). destruct (items s !! N.to_nat (h_index h)) as [[g []]|] eqn:Ei; try done.
  pose proof (Forall_lookup_1 _ _ _ _ Hf Ei) as Hg. cbn in Hg. destruct (negb _); [done|]. cbn [fst]. split; [done|]. unfold items. cbn [slots].
  match goal with |- context [store_set (slots s) _ ?x] => destruct (store_set_ok (max_slots s) (slots s) (h_index h) x (so_store _ Hs)) as [_ ->] end.
  apply Forall_insert; [done|]. destruct (_ && _); cbn; lia.
Qed.
Lemma call_gens base s c :
  slab_ok s → plain_call c = true → gens_from base s →
  let '(s', a) := slab_call s c in gens_from base s' ∧ ∀ h, issued_by a = Some h → base ≤ h_generation h.
Proof.
  intros Hs Hc Hg. destruct c as [v|i g v|h|h v|h|h|h]; cbn [slab_call plain_call] in *; try done.
  - pose proof (insert_ok s v Hs) as Hi. pose proof (insert_gens base s v Hs Hg) as Hg'. destruct (slab_insert s v) as [s' [h|e]]; [|done]. cbn [fst] in Hg'.
    split; [done|]. intros h' [= <-]. destruct Hi as (_&_&_&_&Hnow&_). specialize (Hnow h). rewrite decide_True in Hnow by done. apply live_slot in Hnow.
    destruct Hg' as [_ Hf]. apply (Forall_lookup_1 _ _ _ _ Hf Hnow).
  - pose proof (set_gens base s h v Hs Hg) as Hg'. by destruct (slab_set s h v).
  - pose proof (vacate_gens base s h Hs Hg) as Hg'. unfold slab_remove. by destruct (vacate s h).
  - pose proof (vacate_gens base s h Hs Hg) as Hg'. unfold slab_discard. by destruct (vacate s h).
Qed.
Lemma calls_gens base s m cs :
  slab_shows s m → forallb plain_call cs = true → gens_from base s →
  let '(s', answers) := slab_calls s cs in ∀ h, h ∈ omap issued_by answers → base ≤ h_generation h.
Proof.
  revert s m. induction cs as [|c cs IH]; intros s m Hm Hc Hg; cbn [slab_calls]; [by intros h ?%elem_of_nil|]. cbn in Hc. apply andb_true_iff in Hc as [Hc Hcs].
  pose proof (call_shows s m c Hm) as H1. pose proof (call_gens base s c (ss_ok _ _ Hm) Hc Hg) as H2. destruct (slab_call s c) as [s1 a].
  destruct H1 as (m1&_&Hm1). destruct H2 as [Hg1 Ha]. specialize (IH s1 m1 Hm1 Hcs Hg1). destruct (slab_calls s1 cs) as [s2 as_]. cbn [omap list_omap].
  destruct (issued_by a) as [h0|]; [|done]. intros h [->|Hh]%elem_of_cons; [by apply Ha|by apply IH].
Qed.

(** ** The generation past every handle of a slab *)
Lemma high_of_ge s turns i high : high ≤ high_of s turns i high.
Proof. revert i high. induction turns as [|turns IH]; intros i high; [done|]. cbn [high_of]. etransitivity; [|apply IH]. destruct (store_get (slots s) i); lia. Qed.
Lemma high_of_past s turns i high k slot :
  slab_ok s → i ≤ k → k < i + N.of_nat turns → items s !! N.to_nat k = Some slot → sat_succ_u32 (slot_generation slot) ≤ high_of s turns i high.
Proof.
  intros Hs. revert i high. induction turns as [|turns IH]; intros i high Hik Hk Hsl; [lia|]. cbn [high_of]. destruct (decide (k = i)) as [->|Hne].
  - rewrite (slab_get_items s i Hs), Hsl. etransitivity; [|apply high_of_ge]. lia.
  - apply IH; [lia..|done].
Qed.
Lemma generation_high_past s h : slab_ok s → generation_limit s < u32_max → is_Some (live_value s h) ∨ spent s h → h_generation h < generation_high s.
Proof.
  intros Hs Hl Hh. assert (∃ slot, items s !! N.to_nat (h_index h) = Some slot ∧ h_generation h ≤ slot_generation slot) as (slot&Hi&Hg).
  { destruct Hh as [[v Hv%live_slot]|(slot&Hi&Hd)]; [eexists; split; [exact Hv|done]|]. exists slot. split; [done|]. destruct Hd as [|[]]; lia. }
  destruct (so_limit _ Hs) as [_ Hf]. pose proof (Forall_lookup_1 _ _ _ _ Hf Hi) as Hb. cbn in Hb. pose proof (lookup_lt_Some _ _ _ Hi) as Hlt.
  pose proof (high_of_past s (N.to_nat (store_len (slots s))) 0 (generation_base s) (h_index h) slot Hs) as Hp. fold (generation_high s) in Hp.
  rewrite (slab_len_items s Hs) in Hp. unfold len in Hp. specialize (Hp ltac:(lia) ltac:(lia) Hi). unfold sat_succ_u32 in Hp. lia.
Qed.
End room.

(** At any point of a slab's life, exactly [room] inserts in a row succeed and the next is refused; each value stays under its
    handle through the others; and while fresh slots may be issued, [has_room] says whether there is one to take. *)
Theorem room_counts_inserts {T} (s : Slab (Segmented (SlabSlot T))) (cs : list (SlabCall T)) (vs : list T) :
  fresh_slab s → let s1 := (slab_calls s cs).1 in let '(s2, hs) := insert_all s1 vs in
  len hs = N.min (len vs) (room s1) ∧ room s2 = room s1 - len hs
  ∧ (∀ k h v, hs !! k = Some h → vs !! k = Some v → slab_get s2 h = Ok v)
  ∧ (generation_base s1 ≤ generation_limit s1 → has_room s1 = (0 <? room s1)).
Proof.
  intros Hs. pose proof (calls_show s _ cs (fresh_slab_shows s Hs)) as Hr. destruct (slab_calls s cs) as [s1 answers]. destruct Hr as (m&_&Hm). cbn [fst].
  pose proof (insert_all_ok s1 vs (ss_ok _ _ Hm)) as Hi. destruct (insert_all s1 vs) as [s2 hs]. destruct Hi as (Hs2&Hl&Hr&_&Hgot). split_and!; [done..| |].
  - intros k h v Hh Hv. by rewrite (live_of_get s2 h Hs2), (Hgot k h v Hh Hv).
  - intros Hb. rewrite (has_room_eq s1 (ss_ok _ _ Hm)), (proj2 (N.leb_le _ _)) by done. apply andb_true_r.
Qed.

(** A successor that starts from [generation_high] of a slab whose limit is below the width issues none of its handles. *)
Theorem successor_issues_apart {T} (s : Slab (Segmented (SlabSlot T))) (cs cs' : list (SlabCall T)) (segment_slots max limit : N) :
  fresh_slab s → max ≤ u32_max → segment_slots ≤ u32_max → limit ≤ u32_max → forallb plain_call cs' = true →
  let '(s1, answers) := slab_calls s cs in generation_limit s1 < u32_max →
  let '(_, answers') := slab_calls (with_generation_limit (slab_with_generation_base segment_slots max (generation_high s1)) limit) cs' in
  ∀ h, h ∈ omap issued_by answers' → h ∉ omap issued_by answers ∧ slab_get s1 h = Err (stale h).
Proof.
  intros Hs Hm Hseg Hl Hc. pose proof (calls_show s _ cs (fresh_slab_shows s Hs)) as Hr. destruct (slab_calls s cs) as [s1 answers]. destruct Hr as (m1&Hr1&Hm1). intros Hlim.
  set (t := with_generation_limit _ _). assert (fresh_slab t) as Ht by (apply FreshLimit; [by apply FreshNew|done]).
  pose proof (calls_gens (generation_high s1) t _ cs' (fresh_slab_shows t Ht) Hc) as Hg. destruct (slab_calls t cs') as [t1 answers'].
  intros h Hh. assert (generation_high s1 ≤ h_generation h) as Hge.
  { apply Hg; [|done]. split; [done|]. constructor. }
  assert (∀ k, is_Some (live_value s1 k) ∨ spent s1 k → k ≠ h) as Hne by (intros k Hk ->; pose proof (generation_high_past s1 h (ss_ok _ _ Hm1) Hlim Hk); lia).
  split.
  - intros Hin. assert (h ∈ hm_issued m1) as Hi; [|by apply (Hne h (ss_issued _ _ Hm1 h Hi))]. clear -Hr1 Hin.
    induction Hr1 as [|m c a m' cs as_ m'' Hstep Hr IH]; [by apply elem_of_nil in Hin|]. cbn [omap list_omap] in Hin.
    destruct (step_issued _ _ _ _ Hstep) as (_&H2&_). destruct (run_issued _ _ _ _ Hr) as (_&_&H3&_).
    destruct (issued_by a) as [h0|]; [|by apply IH]. apply elem_of_cons in Hin as [->|Hin]; [|by apply IH]. destruct (H2 h0 eq_refl). set_solver.
  - rewrite (live_of_get s1 h (ss_ok _ _ Hm1)). destruct (live_value s1 h) as [v|] eqn:E; [|done]. exfalso. apply (Hne h); [left; eauto|done].
Qed.

(** ** Words *)
Lemma land_shiftl a m k : N.land a (N.shiftl m k) = N.shiftl (N.land (N.shiftr a k) m) k.
Proof.
  apply N.bits_inj. intros i. rewrite N.land_spec. destruct (N.lt_ge_cases i k).
  - rewrite !N.shiftl_spec_low by done. apply andb_false_r.
  - rewrite !N.shiftl_spec_high' by done. rewrite N.land_spec, N.shiftr_spec'. by replace (i - k + k) with i by lia.
Qed.
(** The fields of a word by arithmetic. *)
Lemma word_fields shard slot generation :
  slot < 2 ^ 24 → generation < 2 ^ 24 →
  let w := (shard * 2 ^ 24 + slot) * 2 ^ 24 + generation in word_shard w = shard ∧ word_slot w = slot ∧ word_generation w = generation.
Proof.
  intros Hs Hg w. unfold word_shard, word_slot, word_generation, SLOT_BITS, GENERATION_BITS.
  change (N.shiftl 1 24 - 1) with (N.ones 24). rewrite !N.land_ones, !N.shiftr_div_pow2. change (24 + 24) with 48.
  assert (w / 2 ^ 24 = shard * 2 ^ 24 + slot) as Ew by (symmetry; apply (N.div_unique _ _ _ generation); [done|unfold w; lia]).
  split_and!.
  - symmetry. apply (N.div_unique _ _ _ (slot * 2 ^ 24 + generation)); unfold w; change (2 ^ 48) with (2 ^ 24 * 2 ^ 24); [nia|lia].
  - rewrite Ew. symmetry. apply (N.mod_unique _ _ shard); [done|lia].
  - symmetry. apply (N.mod_unique _ _ (shard * 2 ^ 24 + slot)); [done|unfold w; lia].
Qed.
Lemma marked w : (N.land w INTEREST_MARK =? INTEREST_MARK) = ((w / 2 ^ 33) mod 2 ^ 15 =? 2 ^ 15 - 1).
Proof.
  change INTEREST_MARK with (N.shiftl (N.ones 15) 33). rewrite land_shiftl, N.land_ones, N.shiftr_div_pow2, !N.shiftl_mul_pow2. change (N.ones 15) with (2 ^ 15 - 1).
  apply Bool.eq_iff_eq_true. rewrite !N.eqb_eq. generalize ((w / 2 ^ 33) mod 2 ^ 15). intros x. lia.
Qed.
Lemma pack_word shard slot generation w :
  pack shard slot generation = Some w →
  slot ≤ MAX_TASK_SLOT ∧ generation ≤ MAX_GENERATION ∧ w = (shard * 2 ^ 24 + slot) * 2 ^ 24 + generation.
Proof.
  unfold pack. destruct (N.ltb_spec MAX_TASK_SLOT slot) as [|Hs]; [done|]. destruct (N.ltb_spec MAX_GENERATION generation) as [|Hg]; [done|]. cbn [orb].
  intros [= <-]. split_and!; [done..|]. unfold SLOT_BITS, GENERATION_BITS. change (24 + 24) with 48.
  assert (slot < 2 ^ 24 ∧ generation < 2 ^ 24) as [Hs' Hg'] by (change MAX_TASK_SLOT with 16776703 in Hs; change MAX_GENERATION with 16777215 in Hg; lia).
  rewrite (lor_shift_add shard) by (rewrite N.shiftl_mul_pow2; change (2 ^ 48) with (2 ^ 24 * 2 ^ 24); nia).
  rewrite N.shiftl_mul_pow2. replace (shard * 2 ^ 48 + slot * 2 ^ 24) with (N.shiftl (shard * 2 ^ 24 + slot) 24) by (rewrite N.shiftl_mul_pow2; lia).
  by apply lor_shift_add.
Qed.
Lemma interest_word shard raw writable :
  raw ≤ u32_max → interest shard raw writable = shard * 2 ^ 48 + ((2 ^ 15 - 1) * 2 ^ 33 + (N.b2n writable * 2 ^ 32 + raw)).
Proof.
  intros Hr. assert (raw < 2 ^ 32) as Hr' by (unfold u32_max in Hr; lia). unfold interest, SLOT_BITS, GENERATION_BITS, INTEREST_RAW_BITS.
  change (24 + 24) with 48. change INTEREST_MARK with (N.shiftl (2 ^ 15 - 1) 33). rewrite <- !N.lor_assoc, (lor_shift_add (N.b2n writable)) by done.
  assert (N.b2n writable * 2 ^ 32 + raw < 2 ^ 33) as Hw by (destruct writable; cbn [N.b2n]; lia).
  rewrite (lor_shift_add (2 ^ 15 - 1)) by done. apply lor_shift_add. lia.
Qed.

(** A packed handle fits a word, gives back its fields, and is never taken for an interest word; an interest word gives back its
    descriptor and direction; a handle is refused exactly when a field does not fit. *)
Theorem words_round_trip shard slot generation raw writable :
  shard < 2 ^ 16 → raw ≤ u32_max →
  match pack shard slot generation with
  | Some w => w ≤ u64_max ∧ word_shard w = shard ∧ word_matches w (mkHandle slot generation) = true ∧ as_interest w = None
  | None => MAX_TASK_SLOT < slot ∨ MAX_GENERATION < generation
  end
  ∧ let w := interest shard raw writable in
    w ≤ u64_max ∧ word_shard w = shard ∧ as_interest w = Some (raw, writable).
Proof.
  intros Hsh Hr. split.
  - destruct (pack shard slot generation) as [w|] eqn:E.
    + destruct (pack_word _ _ _ _ E) as (Hs&Hg&->). change MAX_TASK_SLOT with 16776703 in Hs. change MAX_GENERATION with 16777215 in Hg.
      destruct (word_fields shard slot generation ltac:(lia) ltac:(lia)) as (F1&F2&F3). split_and!; [unfold u64_max; lia|done| |].
      * unfold word_matches. rewrite F2, F3. cbn. by rewrite !N.eqb_refl.
      * unfold as_interest. rewrite marked. set (w := _ + generation).
        assert (w / 2 ^ 33 = shard * 2 ^ 15 + slot / 2 ^ 9) as ->.
        { pose proof (N.div_mod slot (2 ^ 9) ltac:(done)) as Hd. pose proof (N.mod_lt slot (2 ^ 9) ltac:(done)) as Hl. revert Hd Hl.
          generalize (slot / 2 ^ 9) (slot mod 2 ^ 9). intros q r Hd Hl. symmetry. apply (N.div_unique _ _ _ (r * 2 ^ 24 + generation)); unfold w; lia. }
        assert (slot / 2 ^ 9 < 2 ^ 15 - 1) as Hq by (apply N.Div0.div_lt_upper_bound; lia).
        rewrite N.add_comm, N.Div0.mod_add, N.mod_small by lia. by rewrite (proj2 (N.eqb_neq _ _)) by lia.
    + unfold pack in E. destruct (N.ltb_spec MAX_TASK_SLOT slot); [by left|]. destruct (N.ltb_spec MAX_GENERATION generation); [by right|done].
  - cbn zeta. rewrite interest_word by done. set (b := N.b2n writable). assert (b < 2) as Hb by (unfold b; destruct writable; cbn; lia).
    assert (raw < 2 ^ 32) as Hr' by (unfold u32_max in Hr; lia). set (w := _ + _).
    assert (∀ k q r, r < 2 ^ k → w = 2 ^ k * q + r → w / 2 ^ k = q ∧ w mod 2 ^ k = r) as Hdm.
    { intros k q r Hlt E. split; symmetry; [by apply (N.div_unique _ _ _ r)|by apply (N.mod_unique _ _ q)]. }
    split_and!; [unfold w, u64_max; lia| |].
    + unfold word_shard. rewrite N.shiftr_div_pow2. change (SLOT_BITS + GENERATION_BITS) with 48.
      apply (Hdm 48 shard ((2 ^ 15 - 1) * 2 ^ 33 + (b * 2 ^ 32 + raw))); unfold w; lia.
    + unfold as_interest. rewrite marked. destruct (Hdm 33 (shard * 2 ^ 15 + (2 ^ 15 - 1)) (b * 2 ^ 32 + raw)) as [-> _]; [lia|unfold w; lia|].
      rewrite N.add_comm, N.Div0.mod_add, N.mod_small, N.eqb_refl by lia. cbn [negb].
      change u32_max with (N.ones 32). rewrite N.land_ones. destruct (Hdm 32 (shard * 2 ^ 16 + (2 ^ 15 - 1) * 2 + b) raw) as [H1 ->]; [lia|unfold w; lia|].
      change INTEREST_WRITABLE with (N.shiftl (N.ones 1) 32). rewrite land_shiftl, N.land_ones, N.shiftr_div_pow2, H1, N.shiftl_mul_pow2.
      assert ((shard * 2 ^ 16 + (2 ^ 15 - 1) * 2 + b) mod 2 ^ 1 = b) as -> by (symmetry; apply (N.mod_unique _ _ (shard * 2 ^ 15 + (2 ^ 15 - 1))); lia).
      unfold b. by destruct writable.
Qed.

(** ** Witnesses and examples *)
Definition small : Slab (Segmented (SlabSlot N)) := with_generation_limit (slab_new 2 3) 1.
Lemma small_fresh : fresh_slab small.
Proof. apply FreshLimit; [apply FreshNew|]; unfold u32_max; lia. Qed.
Definition churn : list (SlabCall N) := [CInsert 10; CInsert 11; CRemove (mkHandle 0 0); CInsert 12; CGet (mkHandle 0 0); CRemove (mkHandle 0 1)].
Lemma slab_refines_handle_map_witness :
  (slab_calls small churn).2 =
    [AHandle (Ok (mkHandle 0 0)); AHandle (Ok (mkHandle 1 0)); AValue (Ok 10); AHandle (Ok (mkHandle 0 1)); AValue (Err (StaleHandle 0 0)); AValue (Ok 12)]
  ∧ ∃ m, hm_run (mkHM ∅ ∅) churn (slab_calls small churn).2 m.
Proof.
  split; [by vm_compute|]. pose proof (slab_refines_handle_map small churn small_fresh) as Hr. destruct (slab_calls small churn) as [s' answers].
  destruct Hr as (_&m&Hr&_). by exists m.
Defined.
Lemma handle_issued_once_witness :
  slab_get (slab_calls small [CInsert 10; CRemove (mkHandle 0 0); CInsert 12]).1 (mkHandle 0 0) = Err (StaleHandle 0 0).
Proof.
  pose proof (handle_issued_once small [CInsert 10] [CInsert 12] (mkHandle 0 0) 10 small_fresh) as Hr. change ([CInsert 10] ++ [CRemove (mkHandle 0 0)] ++ [CInsert 12])
    with [CInsert 10; CRemove (mkHandle 0 0); CInsert 12] in Hr.
  assert ((slab_calls small [CInsert 10; CRemove (mkHandle 0 0); CInsert 12]).2 !! 1%nat = Some (AValue (Ok 10))) as Ha by (by vm_compute).
  destruct (slab_calls small _) as [s1 answers]. by apply Hr.
Defined.
(** One slot retired, one occupied: one more insert has room. *)
Lemma room_counts_inserts_witness :
  let s := (slab_calls small churn).1 in room s = 1 ∧ len (insert_all s [20; 21]).2 = 1.
Proof.
  cbn zeta. split; [by vm_compute|]. pose proof (room_counts_inserts small churn [20; 21] small_fresh) as Hr. cbn zeta in Hr.
  assert (room (slab_calls small churn).1 = 1) as E by (by vm_compute). destruct (insert_all _ _) as [s2 hs]. destruct Hr as (Hr&_). cbn [snd]. rewrite Hr, E. done.
Defined.
Lemma successor_issues_apart_witness :
  generation_high (slab_calls small churn).1 = 2
  ∧ let '(_, answers') := slab_calls (with_generation_limit (slab_with_generation_base 2 3 (generation_high (slab_calls small churn).1)) 5) [CInsert 7] in
    omap issued_by answers' = [mkHandle 0 2] ∧ ∀ h, h ∈ omap issued_by answers' → slab_get (slab_calls small churn).1 h = Err (stale h).
Proof.
  split; [by vm_compute|].
  pose proof (successor_issues_apart small churn [CInsert 7] 2 3 5 small_fresh ltac:(unfold u32_max; lia) ltac:(unfold u32_max; lia) ltac:(unfold u32_max; lia) eq_refl) as Hr.
  assert ((omap issued_by (slab_calls (with_generation_limit (slab_with_generation_base 2 3 (generation_high (slab_calls small churn).1)) 5) [CInsert 7]).2) = [mkHandle 0 2]) as E by (by vm_compute).
  assert (generation_limit (slab_calls small churn).1 < u32_max) as Hl by (by vm_compute).
  destruct (slab_calls small churn) as [s1 answers]. cbn [fst] in *. specialize (Hr Hl). destruct (slab_calls _ [CInsert 7]) as [t1 answers'].
  split; [exact E|]. intros h Hh. by apply Hr.
Defined.
Lemma words_round_trip_witness :
  pack 3 16776703 5 = Some 1125891300130821 ∧ as_interest (interest 3 9 true) = Some (9, true).
Proof. split; [by vm_compute|]. apply (words_round_trip 3 16776703 5 9 true); [done|unfold u32_max; lia]. Defined.

(** Rebuilt from an image, a slab issues again the handle of an entry that was destroyed: the slots of a gap start at generation
    0, whatever generation the destroyed entry had reached. *)
Example rebuilt_slab_reissues :
  let s := (slab_calls (slab_new 4 8 : Slab (Segmented (SlabSlot N))) [CInsert 10; CInsert 11; CRemove (mkHandle 0 0)]).1 in
  slab_iter s = [(mkHandle 1 0, 11)]
  ∧ (slab_calls (slab_new 4 8 : Slab (Segmented (SlabSlot N))) [CInsertAt 1 0 11; CInsert 12; CGet (mkHandle 0 0)]).2
    = [AHandle (Ok (mkHandle 1 0)); AHandle (Ok (mkHandle 0 0)); AValue (Ok 12)].
Proof. by vm_compute. Qed.
(** A slab that spent the last generation: its successor starts at the width's maximum, which the default limit allows. *)
Example spent_successor_reissues :
  let s := (slab_calls (slab_with_generation_base 1 1 u32_max : Slab (Segmented (SlabSlot N))) [CInsert 7; CRemove (mkHandle 0 u32_max)]).1 in
  generation_high s = u32_max
  ∧ (slab_calls (slab_with_generation_base 1 1 (generation_high s) : Slab (Segmented (SlabSlot N))) [CInsert 8]).2 = [AHandle (Ok (mkHandle 0 u32_max))].
Proof. by vm_compute. Qed.
(** No fresh slot may be issued, but a vacated one may: [has_room] says no, and the insert succeeds. *)
Example no_room_yet_inserts :
  let s := (slab_calls (with_generation_limit (slab_with_generation_base 1 2 9) 5 : Slab (Segmented (SlabSlot N))) [CInsertAt 0 1 7; CRemove (mkHandle 0 1)]).1 in
  has_room s = false ∧ room s = 1 ∧ (slab_calls s [CInsert 8]).2 = [AHandle (Ok (mkHandle 0 2))].
Proof. by vm_compute. Qed.
