(* ===== verification/Frame.v ===== *)
(** * Session frames

    Models [Frame] and its codec, [crates/transport/src/session.rs], with the
    cursor of [crates/transport/src/lib.rs]: the frames a packet carries, their
    bytes, and that decoding gives back what was encoded.  Then the truncated
    packet numbers of [packet_number.rs], and that a receiver reconstructs them. *)

From S2P Require Import Prelude.
#[local] Open Scope N_scope.

(** ** Frames *)
Record AckRange := mkAckRange { gap : N; ack_len : N }.
Inductive Frame :=
| FStream (stream_id offset : N) (fin : bool) (data : bytes)
| FAck (largest range : N) (ranges : list AckRange)
| FMaxData (max : N)
| FMaxStreamData (stream_id max : N)
| FResetStream (stream_id final_size : N)
| FStopSending (stream_id : N)
| FMaxStreams (max : N)
| FDataBlocked (limit : N)
| FStreamsBlocked (limit : N)
| FStreamDataBlocked (stream_id limit : N)
| FPing.
#[export] Instance AckRange_eq_dec : EqDecision AckRange.
Proof. solve_decision. Defined.
#[export] Instance Frame_eq_dec : EqDecision Frame.
Proof. solve_decision. Defined.
Inductive SessionError := STruncated | UnknownFrame (kind : N) | FlagsSet.

(** ** Encoding *)
Definition STREAM_FRAME_HEADER_BYTES : N := 1 + 8 + 8 + 1 + 4.
Definition ACK_FRAME_BASE_BYTES : N := 1 + 8 + 8 + 2.
Definition ACK_RANGE_BYTES : N := 8 + 8.
Definition ONE_WORD_FRAME_BYTES : N := 1 + 8.
Definition TWO_WORD_FRAME_BYTES : N := 1 + 8 + 8.
Definition PING_FRAME_BYTES : N := 1.
Definition KIND_PADDING : N := 0.
Definition KIND_STREAM : N := 1.
Definition KIND_ACK : N := 2.
Definition KIND_MAX_DATA : N := 3.
Definition KIND_MAX_STREAM_DATA : N := 4.
Definition KIND_RESET_STREAM : N := 5.
Definition KIND_STOP_SENDING : N := 6.
Definition KIND_MAX_STREAMS : N := 7.
Definition KIND_DATA_BLOCKED : N := 8.
Definition KIND_STREAM_DATA_BLOCKED : N := 9.
Definition KIND_STREAMS_BLOCKED : N := 10.
Definition KIND_PING : N := 11.
Definition STREAM_FIN : N := 1.

(** [Frame::encoded_len]. *)
Definition encoded_len (f : Frame) : N :=
  match f with
  | FStream _ _ _ data => sat_add STREAM_FRAME_HEADER_BYTES (len data)
  | FAck _ _ ranges => sat_add ACK_FRAME_BASE_BYTES (sat_mul (N.min (len ranges) u16_max) ACK_RANGE_BYTES)
  | FMaxData _ | FStopSending _ | FMaxStreams _ | FDataBlocked _ | FStreamsBlocked _ => ONE_WORD_FRAME_BYTES
  | FMaxStreamData _ _ | FResetStream _ _ | FStreamDataBlocked _ _ => TWO_WORD_FRAME_BYTES
  | FPing => PING_FRAME_BYTES
  end.
(** [Frame::encode_into] and [encode_frames]. *)
Definition encode_ack_range (r : AckRange) : bytes := le_bytes 8 (gap r) ++ le_bytes 8 (ack_len r).
Definition encode_frame (f : Frame) : bytes :=
  match f with
  | FStream stream_id offset fin data =>
      [byte_of KIND_STREAM] ++ le_bytes 8 stream_id ++ le_bytes 8 offset ++ [byte_of (if fin then STREAM_FIN else 0)] ++ le_bytes 4 (clamp_u32 (len data)) ++ data
  | FAck largest range ranges =>
      [byte_of KIND_ACK] ++ le_bytes 8 largest ++ le_bytes 8 range ++ le_bytes 2 (clamp_u16 (len ranges))
        ++ concat (map encode_ack_range (takeN (clamp_u16 (len ranges)) ranges))
  | FMaxData max => [byte_of KIND_MAX_DATA] ++ le_bytes 8 max
  | FMaxStreamData stream_id max => [byte_of KIND_MAX_STREAM_DATA] ++ le_bytes 8 stream_id ++ le_bytes 8 max
  | FResetStream stream_id final_size => [byte_of KIND_RESET_STREAM] ++ le_bytes 8 stream_id ++ le_bytes 8 final_size
  | FStopSending stream_id => [byte_of KIND_STOP_SENDING] ++ le_bytes 8 stream_id
  | FMaxStreams max => [byte_of KIND_MAX_STREAMS] ++ le_bytes 8 max
  | FDataBlocked limit => [byte_of KIND_DATA_BLOCKED] ++ le_bytes 8 limit
  | FStreamsBlocked limit => [byte_of KIND_STREAMS_BLOCKED] ++ le_bytes 8 limit
  | FStreamDataBlocked stream_id limit => [byte_of KIND_STREAM_DATA_BLOCKED] ++ le_bytes 8 stream_id ++ le_bytes 8 limit
  | FPing => [byte_of KIND_PING]
  end.
Definition encode_frames (fs : list Frame) : bytes := concat (map encode_frame fs).

(** ** Decoding *)

(** [Reader] of the crate: the bytes and the position; a read past the end is [FrameError::Truncated], which [decode_frames]
    maps to its own. *)
Record Cursor := mkCursor { cur_all : bytes; cur_at : N }.
Definition cur_remaining (c : Cursor) : N := sat_sub (len (cur_all c)) (cur_at c).
Definition cur_is_empty (c : Cursor) : bool := cur_remaining c =? 0.
Definition cur_bytes (c : Cursor) (n : N) : result SessionError (bytes * Cursor) :=
  end_ ← ok_or (checked_add (cur_at c) n) STruncated;
  slice ← ok_or (get_range (cur_all c) (cur_at c) end_) STruncated;
  Ok (slice, mkCursor (cur_all c) end_).
Definition cur_u8 (c : Cursor) : result SessionError (N * Cursor) :=
  '(b, c) ← cur_bytes c 1; x ← ok_or (head b) STruncated; Ok (byte_val x, c).
Definition cur_u16 (c : Cursor) : result SessionError (N * Cursor) := '(b, c) ← cur_bytes c 2; Ok (le_val b, c).
Definition cur_u32 (c : Cursor) : result SessionError (N * Cursor) := '(b, c) ← cur_bytes c 4; Ok (le_val b, c).
Definition cur_u64 (c : Cursor) : result SessionError (N * Cursor) := '(b, c) ← cur_bytes c 8; Ok (le_val b, c).

Fixpoint decode_ack_ranges (n : nat) (c : Cursor) : result SessionError (list AckRange * Cursor) :=
  match n with
  | O => Ok ([], c)
  | S n => '(g, c) ← cur_u64 c; '(l, c) ← cur_u64 c; '(rs, c) ← decode_ack_ranges n c; Ok (mkAckRange g l :: rs, c)
  end.
(** A [u8]'s bits outside the mask [STREAM_FIN]. *)
Definition reserved_flags (flags : N) : N := N.ldiff flags STREAM_FIN.
(** The body of a frame of a known kind. *)
Definition decode_frame (kind : N) (c : Cursor) : result SessionError (Frame * Cursor) :=
  if kind =? KIND_STREAM then
    '(stream_id, c) ← cur_u64 c; '(offset, c) ← cur_u64 c; '(flags, c) ← cur_u8 c;
    if negb (reserved_flags flags =? 0) then Err FlagsSet else
    '(n, c) ← cur_u32 c; '(data, c) ← cur_bytes c n;
    Ok (FStream stream_id offset (negb (N.land flags STREAM_FIN =? 0)) data, c)
  else if kind =? KIND_ACK then
    '(largest, c) ← cur_u64 c; '(range, c) ← cur_u64 c; '(count, c) ← cur_u16 c; '(ranges, c) ← decode_ack_ranges (N.to_nat count) c;
    Ok (FAck largest range ranges, c)
  else if kind =? KIND_MAX_DATA then '(max, c) ← cur_u64 c; Ok (FMaxData max, c)
  else if kind =? KIND_MAX_STREAM_DATA then '(stream_id, c) ← cur_u64 c; '(max, c) ← cur_u64 c; Ok (FMaxStreamData stream_id max, c)
  else if kind =? KIND_RESET_STREAM then '(stream_id, c) ← cur_u64 c; '(final_size, c) ← cur_u64 c; Ok (FResetStream stream_id final_size, c)
  else if kind =? KIND_STOP_SENDING then '(stream_id, c) ← cur_u64 c; Ok (FStopSending stream_id, c)
  else if kind =? KIND_MAX_STREAMS then '(max, c) ← cur_u64 c; Ok (FMaxStreams max, c)
  else if kind =? KIND_DATA_BLOCKED then '(limit, c) ← cur_u64 c; Ok (FDataBlocked limit, c)
  else if kind =? KIND_STREAMS_BLOCKED then '(limit, c) ← cur_u64 c; Ok (FStreamsBlocked limit, c)
  else if kind =? KIND_STREAM_DATA_BLOCKED then '(stream_id, c) ← cur_u64 c; '(limit, c) ← cur_u64 c; Ok (FStreamDataBlocked stream_id limit, c)
  else if kind =? KIND_PING then Ok (FPing, c)
  else Err (UnknownFrame kind).
(** [decode_frames]: each turn of the loop consumes a byte, so one unit of fuel per byte is enough. *)
Fixpoint decode_loop (fuel : nat) (c : Cursor) : result SessionError (list Frame) :=
  match fuel with
  | O => Ok []
  | S fuel =>
      if cur_is_empty c then Ok [] else
      '(kind, c) ← cur_u8 c;
      if kind =? KIND_PADDING then decode_loop fuel c else
      '(f, c) ← decode_frame kind c; fs ← decode_loop fuel c; Ok (f :: fs)
  end.
Definition decode_frames (bs : bytes) : result SessionError (list Frame) := decode_loop (S (length bs)) (mkCursor bs 0).

(** ** Reading in sequence *)
Definition cursor_at (p s : bytes) : Cursor := mkCursor (p ++ s) (len p).
Definition room_for (p s : bytes) : Prop := len p + len s ≤ usize_max.
Definition reads {A} (f : Cursor → result SessionError (A * Cursor)) (x : bytes) (a : A) : Prop :=
  ∀ p y, room_for p (x ++ y) → f (cursor_at p (x ++ y)) = Ok (a, cursor_at (p ++ x) y).

Lemma fits_step p x y : room_for p (x ++ y) → room_for (p ++ x) y.
Proof. unfold room_for. len_solve. Qed.
Lemma cur_remaining_at p s : cur_remaining (cursor_at p s) = len s.
Proof. unfold cur_remaining, sat_sub, cursor_at. cbn. len_solve. Qed.
Lemma reads_bytes x n : n = len x → reads (λ c, cur_bytes c n) x x.
Proof.
  intros -> p y Hfit. unfold cur_bytes, cursor_at. cbn [cur_at cur_all]. unfold room_for, usize_max in Hfit. rewrite len_app in Hfit.
  rewrite (proj2 (checked_add_some _ _ (len p + len x))) by lia. cbn. rewrite get_range_some by len_solve. cbn.
  rewrite slice_app_r by lia. rewrite N.sub_diag. replace (len p + len x - len p) with (len x) by lia. rewrite slice_app_l, slice_all by lia.
  by rewrite len_app, <- app_assoc.
Qed.
Lemma reads_bind {A B} (f : Cursor → result SessionError (A * Cursor)) g x a x' (b : B) :
  reads f x a → reads (g a) x' b → reads (λ c, '(v, c') ← f c; g v c') (x ++ x') b.
Proof.
  intros Hf Hg p y Hfit. rewrite <- app_assoc in *. rewrite (Hf p _ Hfit). cbn. rewrite (Hg (p ++ x) y) by (by apply fits_step). by rewrite app_assoc.
Qed.
Lemma reads_ret {A} (a : A) : reads (λ c, Ok (a, c)) [] a.
Proof. intros p y _. by rewrite app_nil_r. Qed.
Lemma reads_last {A B} (f : Cursor → result SessionError (A * Cursor)) (h : A → B) x a :
  reads f x a → reads (λ c, '(v, c') ← f c; Ok (h v, c')) x (h a).
Proof. intros Hf. rewrite <- (app_nil_r x). eapply (reads_bind f (λ v c, Ok (h v, c))); [done|]. apply reads_ret. Qed.
Lemma reads_word w n (f : Cursor → result SessionError (N * Cursor)) :
  n < 256 ^ N.of_nat w → (∀ c, f c = '(b, c') ← cur_bytes c (N.of_nat w); Ok (le_val b, c')) → reads f (le_bytes w n) n.
Proof.
  intros Hn Hf p y Hfit. rewrite Hf, (reads_bytes (le_bytes w n) (N.of_nat w)) by (done || by rewrite len_le_bytes). cbn. by rewrite le_val_bytes.
Qed.
Lemma reads_u16 n : n ≤ u16_max → reads cur_u16 (le_bytes 2 n) n.
Proof. intros. apply reads_word; [unfold u16_max in *; simpl; lia|done]. Qed.
Lemma reads_u32 n : n ≤ u32_max → reads cur_u32 (le_bytes 4 n) n.
Proof. intros. apply reads_word; [unfold u32_max in *; simpl; lia|done]. Qed.
Lemma reads_u64 n : n ≤ u64_max → reads cur_u64 (le_bytes 8 n) n.
Proof. intros. apply reads_word; [unfold u64_max in *; simpl; lia|done]. Qed.
Lemma reads_u8 n : n ≤ u8_max → reads cur_u8 [byte_of n] n.
Proof.
  intros Hn p y Hfit. unfold cur_u8. rewrite (reads_bytes [byte_of n] 1) by done. cbn. by rewrite byte_val_of by (unfold u8_max in Hn; lia).
Qed.
#[export] Hint Resolve reads_u8 reads_u16 reads_u32 reads_u64 reads_last : slates.

(** ** Round trips *)

(** The field widths of a frame: lengths that fit their prefixes. *)
Definition frame_wf (f : Frame) : Prop :=
  match f with
  | FStream stream_id offset _ data => stream_id ≤ u64_max ∧ offset ≤ u64_max ∧ len data ≤ u32_max
  | FAck largest range ranges => largest ≤ u64_max ∧ range ≤ u64_max ∧ len ranges ≤ u16_max ∧ Forall (λ r, gap r ≤ u64_max ∧ ack_len r ≤ u64_max) ranges
  | FMaxStreamData a b | FResetStream a b | FStreamDataBlocked a b => a ≤ u64_max ∧ b ≤ u64_max
  | FMaxData a | FStopSending a | FMaxStreams a | FDataBlocked a | FStreamsBlocked a => a ≤ u64_max
  | FPing => True
  end.
Definition frame_kind (f : Frame) : N :=
  match f with
  | FStream _ _ _ _ => KIND_STREAM | FAck _ _ _ => KIND_ACK | FMaxData _ => KIND_MAX_DATA | FMaxStreamData _ _ => KIND_MAX_STREAM_DATA
  | FResetStream _ _ => KIND_RESET_STREAM | FStopSending _ => KIND_STOP_SENDING | FMaxStreams _ => KIND_MAX_STREAMS | FDataBlocked _ => KIND_DATA_BLOCKED
  | FStreamsBlocked _ => KIND_STREAMS_BLOCKED | FStreamDataBlocked _ _ => KIND_STREAM_DATA_BLOCKED | FPing => KIND_PING
  end.
Lemma reads_ack_ranges rs :
  Forall (λ r, gap r ≤ u64_max ∧ ack_len r ≤ u64_max) rs → reads (decode_ack_ranges (length rs)) (concat (map encode_ack_range rs)) rs.
Proof.
  induction 1 as [|[g l] rs [Hg Hl] _ IH]; cbn [length decode_ack_ranges map concat]; [apply reads_ret|]. unfold encode_ack_range. cbn [gap ack_len] in *. rewrite <- !app_assoc.
  eapply reads_bind; [by auto with slates|]. eapply reads_bind; [by auto with slates|]. by apply (reads_last _ (λ rs, mkAckRange g l :: rs)).
Qed.
Lemma reads_stream_data stream_id offset (fin : bool) data :
  len data ≤ u32_max →
  reads (λ c, '(flags, c) ← cur_u8 c; if negb (reserved_flags flags =? 0) then Err FlagsSet else
    '(n, c) ← cur_u32 c; '(data, c) ← cur_bytes c n; Ok (FStream stream_id offset (negb (N.land flags STREAM_FIN =? 0)) data, c))
    ([byte_of (if fin then STREAM_FIN else 0)] ++ le_bytes 4 (clamp_u32 (len data)) ++ data) (FStream stream_id offset fin data).
Proof.
  intros Hd. rewrite clamp_u32_small by done. eapply reads_bind; [apply reads_u8; by destruct fin|].
  assert (reserved_flags (if fin then STREAM_FIN else 0) = 0 ∧ negb (N.land (if fin then STREAM_FIN else 0) STREAM_FIN =? 0) = fin) as [-> ->] by (by destruct fin).
  cbn [N.eqb negb]. eapply reads_bind; [by auto with slates|]. by apply (reads_last _ (FStream stream_id offset fin)), reads_bytes.
Qed.
Lemma reads_frame f : frame_wf f → ∃ body, encode_frame f = byte_of (frame_kind f) :: body ∧ reads (decode_frame (frame_kind f)) body f.
Proof.
  destruct f; cbn [frame_wf encode_frame frame_kind app]; intros Hwf; (eexists; split; [done|]); unfold decode_frame; cbn [N.eqb Pos.eqb].
  - destruct Hwf as (H1&H2&H3). eapply reads_bind; [by auto with slates|]. eapply reads_bind; [by auto with slates|]. by apply reads_stream_data.
  - destruct Hwf as (H1&H2&H3&H4). rewrite clamp_u16_small by done. rewrite takeN_ge by done. do 3 (eapply reads_bind; [by auto with slates|]). rewrite to_nat_len.
    apply (reads_last _ (FAck largest range)). by apply reads_ack_ranges.
  - by apply (reads_last _ FMaxData), reads_u64.
  - destruct Hwf. eapply reads_bind; [by auto with slates|]. by apply (reads_last _ (FMaxStreamData stream_id)), reads_u64.
  - destruct Hwf. eapply reads_bind; [by auto with slates|]. by apply (reads_last _ (FResetStream stream_id)), reads_u64.
  - by apply (reads_last _ FStopSending), reads_u64.
  - by apply (reads_last _ FMaxStreams), reads_u64.
  - by apply (reads_last _ FDataBlocked), reads_u64.
  - by apply (reads_last _ FStreamsBlocked), reads_u64.
  - destruct Hwf. eapply reads_bind; [by auto with slates|]. by apply (reads_last _ (FStreamDataBlocked stream_id)), reads_u64.
  - apply reads_ret.
Qed.
Lemma frame_kind_range f : frame_kind f ≤ u8_max ∧ frame_kind f ≠ KIND_PADDING.
Proof. by destruct f. Qed.
Lemma cur_is_empty_at p b s : cur_is_empty (cursor_at p (b :: s)) = false.
Proof. unfold cur_is_empty. rewrite cur_remaining_at, len_cons. apply N.eqb_neq. lia. Qed.
(** The loop over encoded frames, then padding. *)
Lemma decode_loop_frames fs n : ∀ p fuel,
  Forall frame_wf fs → room_for p (encode_frames fs ++ replicate n (byte_of KIND_PADDING)) → (length (encode_frames fs) + n < fuel)%nat →
  decode_loop fuel (cursor_at p (encode_frames fs ++ replicate n (byte_of KIND_PADDING))) = Ok fs.
Proof.
  induction fs as [|f fs IH]; intros p fuel Hwf Hfit Hfuel.
  - unfold encode_frames in *. cbn [map concat app length] in *. revert p fuel Hfit Hfuel. induction n as [|n IHn]; intros p fuel Hfit Hfuel; (destruct fuel as [|fuel]; [lia|]); cbn [decode_loop].
    + unfold cur_is_empty. by rewrite cur_remaining_at.
    + rewrite replicate_S in *. rewrite cur_is_empty_at. change (byte_of KIND_PADDING :: replicate n (byte_of KIND_PADDING)) with ([byte_of KIND_PADDING] ++ replicate n (byte_of KIND_PADDING)) in *.
      rewrite (reads_u8 KIND_PADDING ltac:(done) p _ Hfit). cbn [mbind result_bind]. rewrite N.eqb_refl. apply IHn; [by apply fits_step|lia].
  - apply Forall_cons in Hwf as [Hf Hwf]. destruct (reads_frame f Hf) as (body&E&Hr). destruct (frame_kind_range f) as [Hk Hk0]. unfold encode_frames in *.
    cbn [map concat] in *. rewrite E in *. destruct fuel as [|fuel]; [lia|]. cbn [decode_loop]. rewrite length_app in Hfuel. cbn [length] in Hfuel.
    rewrite <- !app_assoc in *. cbn [app] in *. rewrite cur_is_empty_at. set (rest := concat (map encode_frame fs) ++ _) in *.
    change (byte_of (frame_kind f) :: body ++ rest) with ([byte_of (frame_kind f)] ++ body ++ rest) in *.
    rewrite (reads_u8 _ Hk p _ Hfit). cbn [mbind result_bind]. rewrite (proj2 (N.eqb_neq _ _)) by done. apply fits_step in Hfit.
    rewrite (Hr _ _ Hfit). cbn [mbind result_bind]. unfold rest. rewrite IH; [done|done|by apply fits_step|lia].
Qed.

(** ** What decoding answers *)
Lemma cur_bytes_ok c n x c' : cur_bytes c n = Ok (x, c') → len x = n ∧ cur_remaining c' = cur_remaining c - n ∧ n ≤ cur_remaining c.
Proof.
  unfold cur_bytes. destruct (checked_add (cur_at c) n) as [e|] eqn:Ee; cbn; [|done]. apply checked_add_some in Ee as [-> _].
  unfold get_range. destruct (_ && _) eqn:Eb; cbn; [|done]. intros [= <- <-]. apply andb_true_iff in Eb as [E1%N.leb_le E2%N.leb_le].
  unfold cur_remaining, sat_sub. cbn [cur_all cur_at]. rewrite len_slice. lia.
Qed.

Lemma cur_word_ok w c n c' (f : Cursor → result SessionError (N * Cursor)) :
  (∀ c, f c = '(b, c') ← cur_bytes c w; Ok (le_val b, c')) → f c = Ok (n, c') → n < 256 ^ w ∧ cur_remaining c = w + cur_remaining c'.
Proof.
  intros Hf. rewrite Hf. destruct (cur_bytes c w) as [[b c1]|] eqn:Eb; cbn; [|done]. intros [= <- <-]. destruct (cur_bytes_ok _ _ _ _ Eb) as (H1&H2&H3).
  rewrite <- H1. split; [apply le_val_lt|lia].
Qed.
Lemma cur_u16_ok c n c' : cur_u16 c = Ok (n, c') → n ≤ u16_max ∧ cur_remaining c = 2 + cur_remaining c'.
Proof. intros [H ?]%(cur_word_ok 2); [|done]. unfold u16_max. simpl in H. split; [lia|done]. Qed.
Lemma cur_u32_ok c n c' : cur_u32 c = Ok (n, c') → n ≤ u32_max ∧ cur_remaining c = 4 + cur_remaining c'.
Proof. intros [H ?]%(cur_word_ok 4); [|done]. unfold u32_max. simpl in H. split; [lia|done]. Qed.
Lemma cur_u64_ok c n c' : cur_u64 c = Ok (n, c') → n ≤ u64_max ∧ cur_remaining c = 8 + cur_remaining c'.
Proof. intros [H ?]%(cur_word_ok 8); [|done]. unfold u64_max. simpl in H. split; [lia|done]. Qed.
Lemma cur_u8_ok c n c' : cur_u8 c = Ok (n, c') → n ≤ u8_max ∧ cur_remaining c = 1 + cur_remaining c'.
Proof.
  unfold cur_u8. destruct (cur_bytes c 1) as [[b c1]|] eqn:Eb; cbn; [|done]. destruct (head b) as [x|]; cbn; [|done]. intros [= <- <-].
  destruct (cur_bytes_ok _ _ _ _ Eb) as (_&H2&H3). pose proof (byte_val_lt x). unfold u8_max. lia.
Qed.
(** One read after another: each names its value's width and what it consumed. *)
Ltac read_next :=
  match goal with
  | H : (mbind _ (cur_u64 ?c) = _) |- _ => let E := fresh "E" in destruct (cur_u64 c) as [[? ?]|] eqn:E; cbn in H; [apply cur_u64_ok in E as [? ?]|done]
  | H : (mbind _ (cur_u32 ?c) = _) |- _ => let E := fresh "E" in destruct (cur_u32 c) as [[? ?]|] eqn:E; cbn in H; [apply cur_u32_ok in E as [? ?]|done]
  | H : (mbind _ (cur_u16 ?c) = _) |- _ => let E := fresh "E" in destruct (cur_u16 c) as [[? ?]|] eqn:E; cbn in H; [apply cur_u16_ok in E as [? ?]|done]
  | H : (mbind _ (cur_u8 ?c) = _) |- _ => let E := fresh "E" in destruct (cur_u8 c) as [[? ?]|] eqn:E; cbn in H; [apply cur_u8_ok in E as [? ?]|done]
  end.
Lemma decode_ack_ranges_ok n : ∀ c rs c', decode_ack_ranges n c = Ok (rs, c') →
  length rs = n ∧ Forall (λ r, gap r ≤ u64_max ∧ ack_len r ≤ u64_max) rs ∧ cur_remaining c = 16 * N.of_nat n + cur_remaining c'.
Proof.
  induction n as [|n IH]; intros c rs c' Hd; cbn [decode_ack_ranges] in Hd; [injection Hd as <- <-; split_and!; [done|done|lia]|].
  do 2 read_next. destruct (decode_ack_ranges n _) as [[rs' c3]|] eqn:Er; cbn in Hd; [|done]. injection Hd as <- <-. destruct (IH _ _ _ Er) as (R1&R2&R3).
  split_and!; [cbn; lia|by constructor|lia].
Qed.
Lemma len_ack_ranges rs : len (concat (map encode_ack_range rs)) = 16 * len rs.
Proof. induction rs as [|r rs IH]; [done|]. cbn [map concat]. rewrite len_app, IH. unfold encode_ack_range. rewrite len_app, !len_le_bytes, len_cons. lia. Qed.
Lemma decode_frame_ok kind c f c' :
  decode_frame kind c = Ok (f, c') → frame_wf f ∧ len (encode_frame f) + cur_remaining c' = 1 + cur_remaining c.
Proof.
  unfold decode_frame. intros Hd.
  repeat match type of Hd with (if ?k =? ?j then _ else _) = _ => destruct (k =? j) end; try (injection Hd as <- <-; done); try done;
    repeat read_next; try (injection Hd as <- <-); cbn [frame_wf encode_frame]; rewrite ?len_app, ?len_le_bytes, ?len_cons, ?len_nil; try (split; [done|lia]).
  - destruct (negb _); [done|]. read_next. destruct (cur_bytes _ _) as [[data c5]|] eqn:Eb; cbn in Hd; [|done]. injection Hd as <- <-. destruct (cur_bytes_ok _ _ _ _ Eb) as (R1&R2&R3).
    cbn [frame_wf encode_frame]. rewrite !len_app, !len_le_bytes, !len_cons, !len_nil. split; [split_and!; [done..|lia]|lia].
  - destruct (decode_ack_ranges _ _) as [[rs c5]|] eqn:Er; cbn in Hd; [|done]. injection Hd as <- <-. destruct (decode_ack_ranges_ok _ _ _ _ Er) as (R1&R2&R3).
    assert (len rs = n1) as El by (unfold len; lia). cbn [frame_wf encode_frame]. rewrite clamp_u16_small by lia. rewrite takeN_ge by lia.
    rewrite !len_app, !len_le_bytes, len_ack_ranges, !len_cons, !len_nil. split; [split_and!; [done..|lia|done]|lia].
Qed.
Lemma decode_loop_ok fuel : ∀ c fs, decode_loop fuel c = Ok fs → Forall frame_wf fs ∧ len (encode_frames fs) ≤ cur_remaining c.
Proof.
  induction fuel as [|fuel IH]; intros c fs Hd; cbn [decode_loop] in Hd; [injection Hd as <-; split; [done|]; unfold encode_frames; cbn [map concat]; rewrite len_nil; lia|].
  destruct (cur_is_empty c); [injection Hd as <-; split; [done|]; unfold encode_frames; cbn [map concat]; rewrite len_nil; lia|]. read_next.
  destruct (_ =? _); [destruct (IH _ _ Hd); split; [done|lia]|]. destruct (decode_frame _ _) as [[f c2]|] eqn:Ef; cbn in Hd; [|done].
  destruct (decode_loop fuel c2) as [fs'|] eqn:El; cbn in Hd; [|done]. injection Hd as <-. destruct (decode_frame_ok _ _ _ _ Ef), (IH _ _ El).
  split; [by constructor|]. unfold encode_frames in *. cbn [map concat]. rewrite len_app. lia.
Qed.
(** Fuel past the bytes that remain changes nothing. *)
Lemma decode_loop_fuel fuel : ∀ fuel' c,
  cur_remaining c < N.of_nat fuel → cur_remaining c < N.of_nat fuel' → decode_loop fuel c = decode_loop fuel' c.
Proof.
  induction fuel as [|fuel IH]; intros [|fuel'] c H1 H2; try lia. cbn [decode_loop]. destruct (cur_is_empty c); [done|].
  destruct (cur_u8 c) as [[k c1]|] eqn:E; cbn; [|done]. apply cur_u8_ok in E as [_ E]. destruct (_ =? _); [apply IH; lia|].
  destruct (decode_frame k c1) as [[f c2]|] eqn:Ef; cbn; [|done]. destruct (decode_frame_ok _ _ _ _ Ef) as [_ E2].
  assert (1 ≤ len (encode_frame f)) by (destruct f; cbn [encode_frame app]; rewrite len_cons; lia). rewrite (IH fuel' c2) by lia. done.
Qed.
Lemma encoded_len_exact f : frame_wf f → encoded_len f = len (encode_frame f).
Proof.
  intros Hwf. destruct f; cbn [encoded_len encode_frame frame_wf] in *; rewrite ?len_app, ?len_le_bytes; try done.
  - destruct Hwf as (_&_&Hd). rewrite sat_add_small by (unfold STREAM_FRAME_HEADER_BYTES, u32_max, u64_max in *; lia). unfold STREAM_FRAME_HEADER_BYTES.
    rewrite !len_cons, !len_nil. lia.
  - destruct Hwf as (_&_&Hr&_). rewrite clamp_u16_small by done. rewrite takeN_ge, len_ack_ranges by done. unfold ACK_FRAME_BASE_BYTES, ACK_RANGE_BYTES, sat_add, sat_mul, u64_max, u16_max in *.
    rewrite !len_cons, !len_nil. lia.
Qed.

(** ** The claim *)

(** C23. Frames survive the wire: encoded one after another, padded with any number of padding bytes, they decode to the same
    frames; each takes exactly the bytes its announced length says; and whatever a payload decodes to is frames whose encodings fit
    the payload, so a payload never makes more frames than it has bytes for. *)
Theorem frames_round_trip (fs : list Frame) (padding : nat) (payload : bytes) (got : list Frame) :
  Forall frame_wf fs → len (encode_frames fs) + N.of_nat padding ≤ usize_max → len payload ≤ usize_max → decode_frames payload = Ok got →
  decode_frames (encode_frames fs ++ replicate padding (byte_of KIND_PADDING)) = Ok fs
  ∧ Forall (λ f, encoded_len f = len (encode_frame f)) fs
  ∧ Forall frame_wf got ∧ len (encode_frames got) ≤ len payload ∧ decode_frames (encode_frames got) = decode_frames payload.
Proof.
  intros Hwf Hfit Hp Hd. destruct (decode_loop_ok _ _ _ Hd) as [D1 D2]. assert (cur_remaining (mkCursor payload 0) = len payload) as Er by (unfold cur_remaining, sat_sub; cbn; lia).
  assert (∀ l n, Forall frame_wf l → len (encode_frames l) + N.of_nat n ≤ usize_max → decode_frames (encode_frames l ++ replicate n (byte_of KIND_PADDING)) = Ok l) as Hrt.
  { intros l n Hl Hln. apply (decode_loop_frames l n []); [done|unfold room_for; rewrite len_nil, len_app; unfold len at 2; rewrite length_replicate; lia|rewrite length_app, length_replicate; lia]. }
  split_and!; [by apply Hrt|eapply Forall_impl; [exact Hwf|apply encoded_len_exact]|done|lia|].
  rewrite Hd. rewrite <- (app_nil_r (encode_frames got)). apply (Hrt got 0%nat); [done|lia].
Qed.
Definition demo_frames : list Frame := [FStream 4 0 true (map byte_of [1; 2; 3]); FAck 9 2 [mkAckRange 1 0]; FPing].
Lemma frames_round_trip_witness :
  decode_frames (encode_frames demo_frames ++ replicate 3 (byte_of KIND_PADDING)) = Ok demo_frames ∧ Forall (λ f, encoded_len f = len (encode_frame f)) demo_frames.
Proof.
  destruct (frames_round_trip demo_frames 3 [byte_of KIND_PADDING] []) as (H1&H2&_).
  - unfold demo_frames. repeat constructor; vm_compute; done || (intros; discriminate).
  - by vm_compute.
  - by vm_compute.
  - by vm_compute.
  - by split.
Defined.

(** * Packet numbers on the wire

    Models [crates/transport/src/packet_number.rs]: a packet number is sent as its
    low one to four bytes, as many as the gap to the largest acknowledged number
    needs, and reconstructed from the largest number received. *)

#[local] Open Scope N_scope.

Definition MAX_PACKET_NUMBER_BYTES : N := 4.
Definition PACKET_NUMBER_SPACE_BITS : N := 62.
Definition PACKET_NUMBER_SPACE : N := N.shiftl 1 PACKET_NUMBER_SPACE_BITS.

(** [EncodedPacketNumber]: a field of four bytes and how many of them count; [as_slice]. *)
Record EncodedPacketNumber := mkEpn { epn_bytes : bytes; epn_len : N }.
Definition epn_as_slice (e : EncodedPacketNumber) : bytes :=
  match get_range (epn_bytes e) 0 (epn_len e) with Some s => s | None => epn_bytes e end.

(** [fill_from]: the parts laid end to end over the array. *)
Definition fill_from (out : bytes) (parts : list bytes) : bytes :=
  takeN (len out) (concat parts) ++ dropN (len (concat parts)) out.

(** [encode_packet_number]: the loop grows the field to four bytes at most. *)
Fixpoint grow_field (turns : nat) (bytes twice_gap : N) : N :=
  match turns with
  | O => bytes
  | S turns => if (bytes <? MAX_PACKET_NUMBER_BYTES) && (N.shiftl 1 (8 * bytes) <=? twice_gap) then grow_field turns (bytes + 1) twice_gap else bytes
  end.
Definition encode_packet_number (full_pn : N) (largest_acked : option N) : EncodedPacketNumber :=
  let num_unacked := match largest_acked with Some acked => sat_sub full_pn acked | None => sat_add full_pn 1 end in
  let bytes := grow_field 4 1 (num_unacked * 2) in
  let all := rev (le_bytes 8 full_pn) in
  let n := N.min bytes (len all) in
  mkEpn (fill_from (replicate 4 (byte_of 0)) [dropN (sat_sub (len all) n) all]) n.

(** [decode_packet_number], its window arithmetic in [Z] as the source's [i128]. *)
Definition fold_byte (acc : N) (b : byte) : N := N.lor (N.land (N.shiftl acc 8) u64_max) (byte_val b).
Definition reconstruct (largest_pn truncated_pn : N) (n : N) : N :=
  let expected := (Z.of_N largest_pn + 1)%Z in
  let pn_win := Z.shiftl 1 (Z.of_N (8 * n)) in
  let pn_hwin := (pn_win / 2)%Z in
  let pn_mask := (pn_win - 1)%Z in
  let candidate := Z.lor (Z.land expected (Z.lnot pn_mask)) (Z.of_N truncated_pn) in
  let space := Z.shiftl 1 (Z.of_N PACKET_NUMBER_SPACE_BITS) in
  let reconstructed :=
    if ((candidate <=? expected - pn_hwin) && (candidate <? space - pn_win))%Z then (candidate + pn_win)%Z
    else if ((expected + pn_hwin <? candidate) && (pn_win <=? candidate))%Z then (candidate - pn_win)%Z
    else candidate in
  Z.to_N (Z.min (Z.max reconstructed 0) (space - 1)).
Definition decode_packet_number (largest_pn : N) (truncated : bytes) : N :=
  let n := N.min (len truncated) MAX_PACKET_NUMBER_BYTES in
  if n =? 0 then sat_add largest_pn 1 else reconstruct largest_pn (foldl fold_byte 0 (takeN n truncated)) n.

(** ** The bytes of a number *)
Lemma le_val_mod w n : le_val (le_bytes w n) = n mod 256 ^ N.of_nat w.
Proof.
  revert n. induction w as [|w IH]; intros n; cbn [le_bytes le_val]; [by rewrite N.mod_1_r|]. rewrite IH, byte_val_of by (by apply N.mod_lt).
  replace (N.of_nat (S w)) with (N.succ (N.of_nat w)) by lia. rewrite N.pow_succ_r'. rewrite N.Div0.mod_mul_r. lia.
Qed.
Lemma take_le_bytes k w n : (k ≤ w)%nat → take k (le_bytes w n) = le_bytes k n.
Proof. revert w n. induction k as [|k IH]; intros [|w] n Hk; [done..|lia|]. cbn. f_equal. apply IH. lia. Qed.
Lemma fold_bytes bs : (length bs ≤ 4)%nat → foldl fold_byte 0 bs = le_val (rev bs).
Proof.
  induction bs as [|b bs IH] using rev_ind; intros Hl; [done|]. rewrite length_app in Hl. cbn in Hl. rewrite foldl_snoc, IH, rev_app_distr by lia. cbn [rev app le_val].
  unfold fold_byte. pose proof (le_val_lt (rev bs)) as Hv. pose proof (byte_val_lt b).
  assert (le_val (rev bs) < 2 ^ 24) as Hb.
  { eapply N.lt_le_trans; [exact Hv|]. change (2 ^ 24) with (256 ^ 3). apply N.pow_le_mono_r; [done|]. unfold len. rewrite length_rev. lia. }
  change u64_max with (N.ones 64). rewrite N.land_ones, N.mod_small by (rewrite N.shiftl_mul_pow2; lia). rewrite lor_shift_add by done. lia.
Qed.

(** ** The length chosen *)
Lemma grow_field_ok turns : ∀ b gap2, 1 ≤ b ≤ 4 → 4 ≤ b + N.of_nat turns →
  let n := grow_field turns b gap2 in 1 ≤ n ≤ 4 ∧ (gap2 < 2 ^ 32 → gap2 < 2 ^ (8 * n)).
Proof.
  induction turns as [|turns IH]; intros b gap2 Hb Ht; cbn [grow_field].
  - assert (b = 4) as -> by lia. done.
  - destruct (N.ltb_spec b MAX_PACKET_NUMBER_BYTES) as [Hlt|Hge]; unfold MAX_PACKET_NUMBER_BYTES in *; cbn [andb].
    + destruct (N.leb_spec (N.shiftl 1 (8 * b)) gap2) as [|Hgt]; [apply IH; lia|]. split; [lia|]. intros _. rewrite N.shiftl_mul_pow2 in Hgt. lia.
    + assert (b = 4) as -> by lia. done.
Qed.
(** The field holds the low bytes of the number, the most significant first. *)
Lemma encode_slice full acked :
  let e := encode_packet_number full acked in
  1 ≤ epn_len e ≤ 4 ∧ epn_as_slice e = rev (le_bytes (N.to_nat (epn_len e)) full)
  ∧ (match acked with Some a => full - a | None => sat_add full 1 end * 2 < 2 ^ 32 →
     match acked with Some a => full - a | None => sat_add full 1 end * 2 < 2 ^ (8 * epn_len e)).
Proof.
  cbn zeta. unfold encode_packet_number, sat_sub. set (g := match acked with Some a => full - a | None => sat_add full 1 end).
  destruct (grow_field_ok 4 1 (g * 2) ltac:(lia) ltac:(lia)) as [Hn Hg]. set (n := grow_field 4 1 (g * 2)) in *.
  assert (len (rev (le_bytes 8 full)) = 8) as El by (unfold len; by rewrite length_rev, length_le_bytes). rewrite El. replace (N.min n 8) with n by lia.
  cbn [epn_len]. split_and!; [lia..| |done]. unfold epn_as_slice. cbn [epn_bytes epn_len].
  assert (dropN (8 - n) (rev (le_bytes 8 full)) = rev (le_bytes (N.to_nat n) full)) as ->.
  { unfold dropN. rewrite skipn_rev, length_le_bytes, take_le_bytes by lia. do 2 f_equal. lia. }
  set (x := rev (le_bytes (N.to_nat n) full)). assert (len x = n) as Ex by (unfold x, len; rewrite length_rev, length_le_bytes; lia).
  unfold fill_from. cbn [concat]. rewrite app_nil_r. change (len (replicate 4 (byte_of 0))) with 4. rewrite (takeN_ge 4 x) by lia.
  rewrite get_range_some; [|lia|rewrite len_app; lia]. rewrite slice_0. by apply takeN_app_eq.
Qed.

(** ** Reconstruction *)
Lemma Z_lor_shift (q b k : N) : b < 2 ^ k → Z.lor (Z.shiftl (Z.of_N q) (Z.of_N k)) (Z.of_N b) = (Z.of_N q * 2 ^ Z.of_N k + Z.of_N b)%Z.
Proof. intros Hb. rewrite <- N2Z.inj_shiftl, <- N2Z.inj_lor, lor_shift_add by done. by rewrite N2Z.inj_add, N2Z.inj_mul, N2Z.inj_pow. Qed.
Lemma Z_lor_field (a b k : N) :
  b < 2 ^ k → Z.lor (Z.land (Z.of_N a) (Z.lnot (2 ^ Z.of_N k - 1))) (Z.of_N b) = (Z.of_N a - Z.of_N a mod 2 ^ Z.of_N k + Z.of_N b)%Z.
Proof.
  intros Hb. assert (Z.land (Z.of_N a) (Z.lnot (2 ^ Z.of_N k - 1)) = Z.shiftl (Z.of_N (a / 2 ^ k)) (Z.of_N k)) as ->.
  { rewrite <- Z.ldiff_land. replace (2 ^ Z.of_N k - 1)%Z with (Z.ones (Z.of_N k)) by (rewrite Z.ones_equiv; lia). rewrite Z.ldiff_ones_r by lia.
    rewrite Z.shiftr_div_pow2, N2Z.inj_div, N2Z.inj_pow by lia. done. }
  rewrite Z_lor_shift by done. rewrite N2Z.inj_div, N2Z.inj_pow. pose proof (Z.div_mod (Z.of_N a) (2 ^ Z.of_N k) ltac:(lia)). change (Z.of_N 2) with 2%Z. lia.
Qed.
(** Of the numbers congruent to the candidate, the one within half a window of the expected number. *)
Lemma pick_window (c E F W H : Z) :
  (W = 2 * H → W ≤ 2 ^ 32 → 0 ≤ F < 2 ^ 62 → F ≤ E + H → E < F + H → 0 ≤ c → F = c ∨ F = c + W ∨ F = c - W →
  Z.min (Z.max (if (c <=? E - H) && (c <? 2 ^ 62 - W) then c + W else if (E + H <? c) && (W <=? c) then c - W else c) 0) (2 ^ 62 - 1) = F)%Z.
Proof.
  intros. destruct (Z.leb_spec c (E - H)%Z), (Z.ltb_spec c (2 ^ 62 - W)%Z), (Z.ltb_spec (E + H)%Z c), (Z.leb_spec W c); cbn [andb]; lia.
Qed.
Lemma reconstruct_exact full largest n :
  1 ≤ n ≤ 4 → full < PACKET_NUMBER_SPACE → largest < PACKET_NUMBER_SPACE →
  full ≤ largest + 1 + 2 ^ (8 * n - 1) → largest + 1 < full + 2 ^ (8 * n - 1) → reconstruct largest (full mod 256 ^ n) n = full.
Proof.
  intros Hn Hf Hl Hhi Hlo. unfold reconstruct, PACKET_NUMBER_SPACE, PACKET_NUMBER_SPACE_BITS in *. rewrite N.shiftl_mul_pow2 in Hf, Hl.
  rewrite !Z.shiftl_mul_pow2, !Z.mul_1_l by lia.
  assert (256 ^ n = 2 ^ (8 * n)) as -> by (change 256 with (2 ^ 8); by rewrite <- N.pow_mul_r).
  replace (Z.of_N largest + 1)%Z with (Z.of_N (largest + 1)) by lia. rewrite Z_lor_field by (apply N.mod_lt; lia).
  rewrite N2Z.inj_mod, N2Z.inj_pow. change (Z.of_N 62) with 62%Z. change (Z.of_N 2) with 2%Z.
  assert (n = 1 ∨ n = 2 ∨ n = 3 ∨ n = 4) as Hc by lia.
  assert (∃ W : Z, (2 ^ Z.of_N (8 * n))%Z = W ∧ (256 ≤ W)%Z ∧ (W ≤ 2 ^ 32)%Z ∧ (W = 2 * (W / 2))%Z ∧ Z.of_N (2 ^ (8 * n - 1)) = (W / 2)%Z) as (W&EW&HW1&HW2&HW3&HW4)
    by (destruct Hc as [->|[->|[->| ->]]]; eexists; (split; [done|]); vm_compute; split_and!; done || (intros; discriminate)).
  rewrite EW. set (E := Z.of_N (largest + 1)). set (F := Z.of_N full). set (H := (W / 2)%Z) in *.
  assert (0 ≤ F < 2 ^ 62)%Z as HF by (unfold F; lia). assert (0 < E ≤ 2 ^ 62)%Z as HE by (unfold E; lia).
  assert (F ≤ E + H)%Z as H1 by (unfold F, E; lia). assert (E < F + H)%Z as H2 by (unfold F, E; lia).
  pose proof (Z.div_mod E W ltac:(lia)) as DE. pose proof (Z.mod_pos_bound E W ltac:(lia)) as ME. pose proof (Z.div_mod F W ltac:(lia)) as DF.
  pose proof (Z.mod_pos_bound F W ltac:(lia)) as MF. set (c := (E - E mod W + F mod W)%Z).
  assert (F = c ∨ F = c + W ∨ F = c - W)%Z as Hj.
  { assert (F - c = W * (F / W - E / W))%Z as Ed by (unfold c; lia). revert Ed. generalize (F / W - E / W)%Z. intros j Ed.
    assert (W * -2 < W * j)%Z as J1%Z.mul_lt_mono_pos_l by (unfold c in Ed; lia); [|lia].
    assert (W * j < W * 2)%Z as J2%Z.mul_lt_mono_pos_l by (unfold c in Ed; lia); [|lia].
    assert (j = -1 ∨ j = 0 ∨ j = 1)%Z as [->|[->| ->]] by lia; lia. }
  assert (0 ≤ c)%Z as Hc0.
  { pose proof (Z.div_pos E W ltac:(lia) ltac:(lia)) as Hq. assert (0 ≤ W * (E / W))%Z by (apply Z.mul_nonneg_nonneg; lia). unfold c. lia. }
  rewrite (pick_window c E F W H) by done. unfold F. by rewrite N2Z.id.
Qed.

(** ** The claim *)

(** C24. A packet number survives its truncation: sent in as few bytes as its distance from the largest acknowledged number asks
    for, it is reconstructed exactly by a receiver that knows at least what was acknowledged, as long as the number is not more than
    half a window behind what the receiver already got. *)
Theorem packet_number_round_trip (full largest : N) (acked : option N) :
  let e := encode_packet_number full acked in
  full < PACKET_NUMBER_SPACE → largest < PACKET_NUMBER_SPACE → match acked with Some a => a ≤ largest | None => True end →
  match acked with Some a => full - a | None => full + 1 end < 2 ^ 31 → largest + 1 < full + 2 ^ (8 * epn_len e - 1) →
  1 ≤ len (epn_as_slice e) ≤ 4 ∧ decode_packet_number largest (epn_as_slice e) = full.
Proof.
  cbn zeta. intros Hf Hl Ha Hg Hlo. destruct (encode_slice full acked) as (Hn&Es&Hw). set (e := encode_packet_number full acked) in *. set (n := epn_len e) in *.
  assert (len (epn_as_slice e) = n) as El by (rewrite Es; unfold len; rewrite length_rev, length_le_bytes; lia).
  assert (PACKET_NUMBER_SPACE ≤ u64_max) as Hsp by done. rewrite sat_add_small in Hw by lia.
  split; [by rewrite El|]. unfold decode_packet_number, MAX_PACKET_NUMBER_BYTES. rewrite El. replace (N.min n 4) with n by lia.
  rewrite (proj2 (N.eqb_neq _ _)) by lia. rewrite takeN_ge by lia. rewrite Es, fold_bytes, rev_involutive, le_val_mod by (rewrite length_rev, length_le_bytes; lia).
  replace (N.of_nat (N.to_nat n)) with n by lia. apply reconstruct_exact; try done.
  assert (2 ^ (8 * n) = 2 * 2 ^ (8 * n - 1)) as E2 by (rewrite <- N.pow_succ_r'; f_equal; lia).
  assert (match acked with Some a => full - a | None => full + 1 end * 2 < 2 ^ (8 * n)) as Hw' by (apply Hw; lia). destruct acked; lia.
Qed.
Lemma packet_number_round_trip_witness :
  epn_as_slice (encode_packet_number 1000 (Some 900)) = [byte_of 232] ∧ decode_packet_number 950 (epn_as_slice (encode_packet_number 1000 (Some 900))) = 1000.
Proof. split; [by vm_compute|]. apply (packet_number_round_trip 1000 950 (Some 900)); vm_compute; done || (intros; discriminate). Defined.
