(* ===== verification/AckGen.v ===== *)
(** * Acknowledgements

    Models [AckGenerator] and [ack_runs] of [crates/transport/src/conn.rs]: the
    ranges of packet numbers an end has received, and the acknowledgement of
    them. *)

From S2P Require Import Prelude Frame.
#[local] Open Scope N_scope.

Record AckGenerator := mkAckGen { ag_ranges : gmap N N; ag_max : N; ag_floor : option N }.

(** [AckGenerator::new], [AckGenerator::is_duplicate], [AckGenerator::raise_floor]. *)
Definition ackgen_new (max_ranges : N) : AckGenerator := mkAckGen ∅ (N.max max_ranges 1) None.
Definition is_duplicate (g : AckGenerator) (pn : N) : bool :=
  match ag_floor g with Some floor => pn <=? floor | None => false end
  || match bt_upto (ag_ranges g) pn with Some (_, high) => pn <=? high | None => false end.
Definition raise_floor (g : AckGenerator) (to : N) : AckGenerator :=
  mkAckGen (ag_ranges g) (ag_max g) (Some (match ag_floor g with Some floor => N.max floor to | None => to end)).

(** [AckGenerator::record]: the merge with the neighbours, and the loop that drops the oldest ranges past the cap. *)
Definition merge_below (ranges : gmap N N) (pn : N) : gmap N N * N :=
  match bt_before ranges pn with
  | Some (below_low, below_high) =>
      if bool_decide (checked_add below_high 1 = Some pn) then (delete below_low ranges, below_low) else (ranges, pn)
  | None => (ranges, pn)
  end.
Definition merge_neighbours (ranges : gmap N N) (pn : N) : gmap N N :=
  let '(ranges, low) := merge_below ranges pn in
  let '(ranges, high) :=
    match checked_add pn 1 with
    | Some above => match ranges !! above with Some above_high => (delete above ranges, above_high) | None => (ranges, pn) end
    | None => (ranges, pn)
    end in
  <[low := high]> ranges.
Fixpoint drop_oldest (turns : nat) (g : AckGenerator) : AckGenerator :=
  match turns with
  | O => g
  | S turns =>
      if ag_max g <? N.of_nat (size (ag_ranges g)) then
        match pop_first (ag_ranges g) with
        | (ranges, Some (_, dropped_high)) => drop_oldest turns (raise_floor (mkAckGen ranges (ag_max g) (ag_floor g)) dropped_high)
        | (_, None) => g
        end
      else g
  end.
Definition record_pn (g : AckGenerator) (pn : N) : AckGenerator :=
  if is_duplicate g pn then g else
  let g := mkAckGen (merge_neighbours (ag_ranges g) pn) (ag_max g) (ag_floor g) in
  drop_oldest (S (size (ag_ranges g))) g.

(** [AckGenerator::confirm]. *)
Definition confirm (g : AckGenerator) (largest : N) : AckGenerator :=
  let g := raise_floor g largest in
  let above := sat_add largest 1 in
  let '(under, kept) := split_off (ag_ranges g) above in
  let ranges := match bt_last under with
                | Some (_, high) => if above <=? high then <[above := high]> kept else kept
                | None => kept
                end in
  mkAckGen ranges (ag_max g) (ag_floor g).

(** [AckGenerator::ack_frame]: the runs from the highest, the later ones relative to the one above. *)
Fixpoint relative_runs (prev_low : N) (runs : list (N * N)) : list AckRange :=
  match runs with
  | [] => []
  | (low, high) :: runs => mkAckRange (sat_sub (sat_sub prev_low high) 2) (sat_sub high low) :: relative_runs low runs
  end.
Definition ack_frame (g : AckGenerator) (max_ranges : N) : option Frame :=
  match rev (bt_list (ag_ranges g)) with
  | [] => None
  | (first_low, largest) :: runs => Some (FAck largest (sat_sub largest first_low) (relative_runs first_low (takeN max_ranges runs)))
  end.

(** [ack_runs]: the runs an acknowledgement names. *)
Fixpoint further_runs (prev_low : N) (ranges : list AckRange) : list (N * N) :=
  match ranges with
  | [] => []
  | r :: ranges =>
      let high := sat_sub (sat_sub prev_low (gap r)) 2 in
      let low := sat_sub high (ack_len r) in
      (low, high) :: further_runs low ranges
  end.
Definition ack_runs (largest range : N) (ranges : list AckRange) : list (N * N) :=
  let prev_low := sat_sub largest range in (prev_low, largest) :: further_runs prev_low ranges.

(** ** The invariant *)

(** A packet number is held, or seen. *)
Definition held (ranges : gmap N N) (pn : N) : Prop := ∃ low high, ranges !! low = Some high ∧ low ≤ pn ∧ pn ≤ high.
Definition under_floor (g : AckGenerator) (pn : N) : Prop := ∃ floor, ag_floor g = Some floor ∧ pn ≤ floor.
Definition seen (g : AckGenerator) (pn : N) : Prop := under_floor g pn ∨ held (ag_ranges g) pn.
(** Disjoint ranges that do not touch. *)
Definition apart_ranges (ranges : gmap N N) : Prop :=
  (∀ low high, ranges !! low = Some high → low ≤ high)
  ∧ ∀ low high low' high', ranges !! low = Some high → ranges !! low' = Some high' → low < low' → high + 1 < low'.
Record ackgen_ok (g : AckGenerator) : Prop := {
  ao_apart : apart_ranges (ag_ranges g);
  ao_floor : ∀ low high floor, ag_ranges g !! low = Some high → ag_floor g = Some floor → floor < low;
  ao_max : 1 ≤ ag_max g;
  ao_size : N.of_nat (size (ag_ranges g)) ≤ ag_max g
}.

Lemma held_upto ranges pn : apart_ranges ranges →
  held ranges pn ↔ match bt_upto ranges pn with Some (_, high) => pn ≤ high | None => False end.
Proof.
  intros [Hle Hap]. unfold bt_upto. pose proof (greatest_spec (λ p : N * N, p.1 ≤ pn) ranges) as Hg. destruct (last _) as [[low high]|].
  - cbn in Hg. destruct Hg as (H1&H2&H3). split; [|intros; by exists low, high].
    intros (l&h&Hl&Hl1&Hl2). pose proof (H3 l h Hl Hl1). destruct (decide (l = low)) as [->|]; [congruence|].
    pose proof (Hap l h low high Hl H1 ltac:(lia)). lia.
  - split; [|done]. intros (l&h&Hl&Hl1&_). by apply (Hg l h).
Qed.
Lemma is_duplicate_seen g pn : ackgen_ok g → is_duplicate g pn = true ↔ seen g pn.
Proof.
  intros Hg. unfold is_duplicate, seen, under_floor. rewrite orb_true_iff, (held_upto _ pn (ao_apart _ Hg)).
  assert (match ag_floor g with Some floor => pn <=? floor | None => false end = true ↔ ∃ floor, ag_floor g = Some floor ∧ pn ≤ floor) as ->.
  { destruct (ag_floor g) as [f|]; [rewrite N.leb_le; naive_solver|naive_solver]. }
  destruct (bt_upto (ag_ranges g) pn) as [[low high]|]; [by rewrite N.leb_le|naive_solver].
Qed.
Lemma ackgen_new_ok max_ranges : ackgen_ok (ackgen_new max_ranges).
Proof. split; cbn; [split; intros *; by rewrite lookup_empty|intros *; by rewrite lookup_empty|lia|rewrite map_size_empty; lia]. Qed.

(** ** Recording *)
Lemma merge_below_ok ranges pn :
  apart_ranges ranges → ¬ held ranges pn → pn ≤ u64_max → let '(m, low) := merge_below ranges pn in
  low ≤ pn ∧ (low = pn ∨ ranges !! low = Some (pn - 1)) ∧ (∀ q, held m q ∨ low ≤ q ∧ q ≤ pn ↔ held ranges q ∨ q = pn)
  ∧ ∀ l h, m !! l = Some h → ranges !! l = Some h ∧ (h + 1 < low ∨ pn < l).
Proof.
  intros [Hle Hap] Hn Hpn. unfold merge_below, bt_before. pose proof (greatest_spec (λ p : N * N, p.1 < pn) ranges) as Hg.
  destruct (last _) as [[bl bh]|]; cbn in Hg.
  - destruct Hg as (H1&H2&H3). assert (bh < pn) as Hbh by (destruct (N.lt_ge_cases bh pn); [done|]; exfalso; apply Hn; exists bl, bh; split; [done|lia]).
    pose proof (Hle bl bh H1).
    assert (∀ l h, ranges !! l = Some h → l = bl ∨ h + 1 < bl ∨ pn < l) as Hc.
    { intros l h Hl. destruct (N.lt_trichotomy l pn) as [Hlt|[->|]]; [|exfalso; apply Hn; exists pn, h; pose proof (Hle _ _ Hl); split; [done|lia]|auto].
      pose proof (H3 l h Hl Hlt). destruct (decide (l = bl)); [auto|]. pose proof (Hap l h bl bh Hl H1 ltac:(lia)). auto. }
    case_bool_decide as E.
    + apply checked_add_some in E as [E _]. split_and!; [lia|right; rewrite H1; f_equal; lia| |].
      * intros q. split.
        -- intros [(l&h&[_ Hl]%lookup_delete_Some&Hq)|Hq]; [left; by exists l, h|]. destruct (decide (q = pn)); [auto|left]. exists bl, bh. split; [done|lia].
        -- intros [(l&h&Hl&Hq)| ->]; [|right; lia]. destruct (decide (l = bl)) as [->|]; [right; rewrite H1 in Hl; injection Hl as <-; lia|left].
           exists l, h. rewrite lookup_delete_ne by done. done.
      * intros l h [Hne Hl]%lookup_delete_Some. split; [done|]. destruct (Hc l h Hl) as [->|[|]]; [done|lia|lia].
    + assert (bh + 1 ≠ pn) by (intros E2; apply E, checked_add_some; lia). split_and!; [lia|by left| |].
      * intros q. split; [intros [|]; [auto|right; lia]|intros [| ->]; [auto|right; lia]].
      * intros l h Hl. split; [done|]. destruct (Hc l h Hl) as [->|[|]]; [rewrite H1 in Hl; injection Hl as <-; lia|lia|lia].
  - split_and!; [lia|by left| |].
    + intros q. split; [intros [|]; [auto|right; lia]|intros [| ->]; [auto|right; lia]].
    + intros l h Hl. split; [done|right]. destruct (N.lt_trichotomy l pn) as [Hlt|[->|]]; [|exfalso; apply Hn; exists pn, h; pose proof (Hle _ _ Hl); split; [done|lia]|done].
      exfalso. by apply (Hg l h).
Qed.
Lemma merge_neighbours_ok ranges pn :
  apart_ranges ranges → ¬ held ranges pn → pn < u64_max → let m := merge_neighbours ranges pn in
  apart_ranges m ∧ (∀ q, held m q ↔ held ranges q ∨ q = pn) ∧ ∀ low high, m !! low = Some high → low = pn ∨ is_Some (ranges !! low).
Proof.
  intros Hr Hn Hpn. cbn zeta. unfold merge_neighbours.
  pose proof (merge_below_ok ranges pn Hr Hn ltac:(lia)) as Hb. destruct (merge_below ranges pn) as [m low]. destruct Hb as (Hlow&Hkind&Hheld&Hrest). destruct Hr as [Hle Hap].
  rewrite (proj2 (checked_add_some pn 1 (pn + 1))) by lia.
  set (mh := match m !! (pn + 1) with Some ah => (delete (pn + 1) m, ah) | None => (m, pn) end).
  assert (pn ≤ mh.2 ∧ (∀ q, held mh.1 q ∨ low ≤ q ∧ q ≤ mh.2 ↔ held ranges q ∨ q = pn)
    ∧ ∀ l h, mh.1 !! l = Some h → ranges !! l = Some h ∧ (h + 1 < low ∨ mh.2 + 1 < l)) as (H1&H2&H3).
  { unfold mh. destruct (m !! (pn + 1)) as [ah|] eqn:Ea; cbn [fst snd].
    - pose proof (Hrest _ _ Ea) as [Ha _]. pose proof (Hle _ _ Ha). split_and!; [lia| |].
      + intros q. rewrite <- Hheld. split.
        * intros [(l&h&[_ Hl]%lookup_delete_Some&Hq)|Hq]; [left; by exists l, h|]. destruct (decide (q ≤ pn)); [right; lia|left]. exists (pn + 1), ah. split; [done|lia].
        * intros [(l&h&Hl&Hq)|Hq]; [|right; lia]. destruct (decide (l = pn + 1)) as [->|]; [right; rewrite Ea in Hl; injection Hl as <-; lia|left].
          exists l, h. rewrite lookup_delete_ne by done. done.
      + intros l h [Hne Hl]%lookup_delete_Some. destruct (Hrest l h Hl) as [Hl2 Hd]. split; [done|]. destruct Hd; [by left|right].
        apply (Hap (pn + 1) ah l h Ha Hl2). lia.
    - split_and!; [lia|done|]. intros l h Hl. destruct (Hrest l h Hl) as [Hl2 Hd]. split; [done|]. destruct Hd; [by left|right].
      assert (l ≠ pn + 1) by (intros ->; congruence). lia. }
  destruct mh as [m2 high]. cbn [fst snd] in *. split_and!.
  - split.
    + intros l h. rewrite lookup_insert_Some. intros [[<- <-]|[_ [Hl _]%H3]]; [lia|]. by apply Hle.
    + intros l h l' h' Hl Hl' Hlt. apply lookup_insert_Some in Hl, Hl'. destruct Hl as [[<- <-]|[Hne Hl]], Hl' as [[<- <-]|[Hne' Hl']]; [lia|..].
      * destruct (H3 l' h' Hl') as [Hl2 [|]]; [|done]. pose proof (Hle _ _ Hl2). lia.
      * destruct (H3 l h Hl) as [Hl2 [|]]; [done|]. lia.
      * apply (Hap l h l' h'); [apply H3, Hl|apply H3, Hl'|done].
  - intros q. rewrite <- H2. split.
    + intros (l&h&Hl&Hq). apply lookup_insert_Some in Hl as [[<- <-]|[_ Hl]]; [by right|]. left. by exists l, h.
    + intros [(l&h&Hl&Hq)|Hq]; [|exists low, high; by rewrite lookup_insert_eq]. exists l, h. split; [|done]. rewrite lookup_insert_ne; [done|]. intros <-.
      destruct (H3 low h Hl) as [Hl2 [|]]; [pose proof (Hle _ _ Hl2)|]; lia.
  - intros l h. rewrite lookup_insert_Some. intros [[<- _]|[_ [Hl _]%H3]]; [|eauto]. destruct Hkind as [->|Hk]; eauto.
Qed.
Lemma merge_neighbours_size ranges pn : (size (merge_neighbours ranges pn) ≤ S (size ranges))%nat.
Proof.
  unfold merge_neighbours, merge_below.
  assert (∀ (m : gmap N N) k v, (size (<[k := v]> m) ≤ S (size m))%nat) as Hins by (intros m k v; rewrite map_size_insert; destruct (m !! k); cbn; lia).
  assert (∀ (m : gmap N N) k, (size (delete k m) ≤ size m)%nat) as Hdel by (intros m k; rewrite map_size_delete; destruct (m !! k); cbn; lia).
  destruct (bt_before ranges pn) as [[bl bh]|]; [case_bool_decide|]; destruct (checked_add pn 1) as [a|]; try destruct (_ !! a); etransitivity; try apply Hins; apply le_n_S;
    rewrite ?Hdel; done.
Qed.

Lemma drop_oldest_ok turns g :
  apart_ranges (ag_ranges g) → (∀ low high floor, ag_ranges g !! low = Some high → ag_floor g = Some floor → floor < low) →
  1 ≤ ag_max g → (size (ag_ranges g) < turns)%nat → let g' := drop_oldest turns g in
  ackgen_ok g' ∧ (∀ q, seen g q → seen g' q) ∧ (∀ q, held (ag_ranges g') q → held (ag_ranges g) q) ∧ ag_max g' = ag_max g
  ∧ (N.of_nat (size (ag_ranges g)) ≤ ag_max g → g' = g).
Proof.
  revert g. induction turns as [|turns IH]; intros g Hap Hfl Hmax Hsz; [lia|]. cbn [drop_oldest].
  destruct (N.ltb_spec (ag_max g) (N.of_nat (size (ag_ranges g)))) as [Hlt|Hge]; [|split_and!; done].
  unfold pop_first. pose proof (bt_first_spec (ag_ranges g)) as Hf. destruct (bt_first (ag_ranges g)) as [[k v]|]; [|rewrite Hf, map_size_empty in Hlt; lia].
  destruct Hf as [Hk Hmin]. destruct Hap as [Hle Hap]. set (g1 := raise_floor _ v).
  assert (∀ l h, ag_ranges g1 !! l = Some h → l ≠ k ∧ ag_ranges g !! l = Some h ∧ v < l) as H1.
  { intros l h Hl. change (delete k (ag_ranges g) !! l = Some h) in Hl. apply lookup_delete_Some in Hl as [Hne Hl]. split_and!; [done..|]. pose proof (Hmin l h Hl). pose proof (Hap k v l h Hk Hl ltac:(lia)). lia. }
  destruct (IH g1) as (G1&G2&G3&G4&_).
  - split; [intros l h (_&Hl&_)%H1; by apply Hle|]. intros l h l' h' (_&Hl&_)%H1 (_&Hl'&_)%H1. exact (Hap l h l' h' Hl Hl').
  - intros l h fl (_&Hl&Hv)%H1 [= <-]. destruct (ag_floor g) as [fl|] eqn:Ef; [|done]. pose proof (Hfl l h fl Hl eq_refl). cbn. rewrite ?Ef. lia.
  - done.
  - unfold g1. cbn [ag_ranges raise_floor]. rewrite map_size_delete, Hk. cbn. lia.
  - split_and!; [done| | |done|lia].
    + intros q Hq. apply G2. destruct Hq as [(fl&Ef&Hq)|(l&h&Hl&Hq)].
      * left. eexists. cbn. rewrite Ef. split; [done|lia].
      * destruct (decide (l = k)) as [->|Hne]; [left; eexists; cbn; split; [done|]; rewrite Hk in Hl; injection Hl as <-; destruct (ag_floor g); lia|right].
        exists l, h. split; [|done]. cbn. by rewrite lookup_delete_ne.
    + intros q Hq%G3. destruct Hq as (l&h&(_&Hl&_)%H1&Hq). by exists l, h.
Qed.
(** Recording a packet: it is seen from now on, and only it is added to what is held. *)
Lemma record_ok g pn :
  ackgen_ok g → pn < u64_max → let g' := record_pn g pn in
  ackgen_ok g' ∧ (∀ q, seen g q ∨ q = pn → seen g' q) ∧ (∀ q, held (ag_ranges g') q → held (ag_ranges g) q ∨ q = pn) ∧ ag_max g' = ag_max g
  ∧ (N.of_nat (size (ag_ranges g)) < ag_max g → ∀ q, seen g' q → seen g q ∨ q = pn).
Proof.
  intros Hg Hpn. cbn zeta. unfold record_pn. destruct (is_duplicate g pn) eqn:Ed.
  { apply is_duplicate_seen in Ed; [|done]. split_and!; [done|by intros q [| ->]|by left|done|by left]. }
  assert (¬ seen g pn) as Hns by (intros Hs%(is_duplicate_seen g pn Hg); congruence).
  destruct (merge_neighbours_ok (ag_ranges g) pn (ao_apart _ Hg)) as (M1&M2&M3); [intros Hh; apply Hns; by right|done|].
  set (g1 := mkAckGen _ _ _). pose proof (merge_neighbours_size (ag_ranges g) pn) as Hsz.
  destruct (drop_oldest_ok (S (size (ag_ranges g1))) g1) as (D1&D2&D3&D4&D5); [exact M1| |apply (ao_max _ Hg)|lia|].
  - intros l h fl Hl Ef. destruct (M3 l h Hl) as [->|[h' Hl']]; [|by apply (ao_floor _ Hg l h' fl)].
    destruct (N.lt_ge_cases fl pn); [done|]. exfalso. apply Hns. left. by exists fl.
  - assert (∀ q, seen g1 q ↔ seen g q ∨ q = pn) as Hs1 by (intros q; unfold seen; cbn [g1 ag_ranges]; rewrite M2; unfold under_floor; cbn; tauto).
    split_and!; [done|intros q Hq; by apply D2, Hs1|intros q Hq%D3; by apply M2|exact D4|].
    intros Hroom. rewrite D5; [intros q Hq; by apply Hs1|]. cbn [g1 ag_ranges ag_max]. lia.
Qed.
Lemma confirm_size (m : gmap N N) above :
  let kept := filter (λ p : N * N, above ≤ p.1) m in
  (size (match bt_last (filter (λ p : N * N, p.1 < above)%N m) with
         | Some (_, high) => if (above <=? high)%N then <[above := high]> kept else kept | None => kept end) ≤ size m)%nat.
Proof.
  cbn zeta. set (kept := filter (λ p : N * N, above ≤ p.1) m). assert (size kept ≤ size m)%nat as Hk by (apply map_subseteq_size, map_filter_subseteq).
  pose proof (bt_last_spec (filter (λ p : N * N, p.1 < above) m)) as Hb. destruct (bt_last _) as [[ul uh]|]; [|done]. destruct (_ <=? _); [|done].
  destruct Hb as [Hu _]. apply map_lookup_filter_Some in Hu as [Hu Hlt]. cbn in Hlt.
  assert (size kept ≤ size (delete ul m))%nat as Hd.
  { apply map_subseteq_size, map_subseteq_spec. intros l h Hl. apply map_lookup_filter_Some in Hl as [Hl Hge]. cbn in Hge. rewrite lookup_delete_ne; [done|]. intros ->. lia. }
  rewrite map_size_delete, Hu in Hd. cbn in Hd. rewrite map_size_insert. assert (size m ≠ 0)%nat by (apply map_size_non_empty_iff; intros ->; by rewrite lookup_empty in Hu).
  destruct (kept !! above); cbn; lia.
Qed.
Lemma confirm_ok g largest :
  ackgen_ok g → largest < u64_max → let g' := confirm g largest in
  ackgen_ok g' ∧ (∀ q, seen g' q ↔ seen g q ∨ q ≤ largest) ∧ (∀ q, held (ag_ranges g') q ↔ held (ag_ranges g) q ∧ largest < q) ∧ ag_max g' = ag_max g.
Proof.
  intros Hg Hl. cbn zeta. unfold confirm. cbn [raise_floor ag_ranges split_off ag_max ag_floor]. rewrite (sat_add_small largest 1) by lia.
  destruct (ao_apart _ Hg) as [Hle Hap]. set (kept := filter (λ p : N * N, largest + 1 ≤ p.1) (ag_ranges g)).
  set (ranges := match bt_last _ with Some (_, high) => _ | None => _ end).
  assert (∀ l h, kept !! l = Some h ↔ ag_ranges g !! l = Some h ∧ largest < l) as Hk by (intros l h; unfold kept; rewrite map_lookup_filter_Some; cbn; intuition lia).
  assert (∀ l h, ranges !! l = Some h → largest < l ∧ (ag_ranges g !! l = Some h ∨ l = largest + 1 ∧ l ≤ h ∧ ∃ l', l' < l ∧ ag_ranges g !! l' = Some h)) as H1.
  { unfold ranges. pose proof (bt_last_spec (filter (λ p : N * N, p.1 < largest + 1) (ag_ranges g))) as Hb. destruct (bt_last _) as [[ul uh]|]; [|intros l h [? ?]%Hk; auto].
    destruct Hb as [Hu _]. apply map_lookup_filter_Some in Hu as [Hu1 Hu2]. cbn in Hu2. destruct (N.leb_spec (largest + 1) uh); [|intros l h [? ?]%Hk; auto].
    intros l h. rewrite lookup_insert_Some. intros [[<- <-]|[_ [? ?]%Hk]]; [|auto]. split; [lia|right]. eauto. }
  assert (∀ q, held ranges q ↔ held (ag_ranges g) q ∧ largest < q) as H2.
  { intros q. split.
    - intros (l&h&Hl2&Hq). destruct (H1 l h Hl2) as [Hlt [Hin|(->&_&l'&Hl'&Hin)]]; (split; [|lia]); [by exists l, h|]. exists l', h. split; [done|lia].
    - intros [(l&h&Hin&Hq) Hlt]. unfold ranges. pose proof (bt_last_spec (filter (λ p : N * N, p.1 < largest + 1) (ag_ranges g))) as Hb.
      destruct (decide (largest < l)) as [Hll|Hll].
      + assert (kept !! l = Some h) as Hkl by (by apply Hk). destruct (bt_last _) as [[ul uh]|]; [|by exists l, h]. destruct (_ <=? _) eqn:E; [|by exists l, h].
        exists l, h. split; [|done]. rewrite lookup_insert_ne; [done|]. intros <-. destruct Hb as [Hu _]. apply map_lookup_filter_Some in Hu as [Hu1 Hu2]. cbn in Hu2.
        apply N.leb_le in E. pose proof (Hap ul uh (largest + 1) h Hu1 Hin ltac:(lia)). lia.
      + assert (filter (λ p : N * N, p.1 < largest + 1) (ag_ranges g) !! l = Some h) as Hf by (apply map_lookup_filter_Some; cbn; split; [done|lia]).
        destruct (bt_last _) as [[ul uh]|]; [|by rewrite Hb in Hf]. destruct Hb as [Hu Hmax]. pose proof (Hmax l h Hf) as Hul.
        apply map_lookup_filter_Some in Hu as [Hu1 Hu2]. cbn in Hu2. assert (ul = l) as ->.
        { destruct (decide (ul = l)); [done|]. pose proof (Hap l h ul uh Hin Hu1 ltac:(lia)). lia. }
        rewrite Hin in Hu1. injection Hu1 as <-. rewrite (proj2 (N.leb_le _ _)) by lia. exists (largest + 1), h. rewrite lookup_insert_eq. split; [done|lia]. }
  split_and!; [|  |done|done].
  - split; cbn [ag_ranges ag_floor ag_max].
    + split.
      * intros l h Hl2. destruct (H1 l h Hl2) as [_ [Hin|(_&?&_)]]; [by apply Hle|done].
      * intros l h l' h' Hl1 Hl2 Hlt. destruct (H1 l h Hl1) as [Ha [Hin|(->&Hb&k&Hk1&Hin)]], (H1 l' h' Hl2) as [Ha' [Hin'|(->&_)]]; try lia.
        -- by apply (Hap l h l' h').
        -- apply (Hap k h l' h' Hin Hin'). lia.
    + intros l h fl Hl2 [= <-]. destruct (H1 l h Hl2) as [Ha [Hin|(->&Hb&k&Hk1&Hin)]]; (destruct (ag_floor g) as [f|] eqn:Ef; [|lia]).
      * pose proof (ao_floor _ Hg l h f Hin Ef). lia.
      * pose proof (ao_floor _ Hg k h f Hin Ef). lia.
    + apply (ao_max _ Hg).
    + assert (size ranges ≤ size (ag_ranges g))%nat as Hsz by apply confirm_size. pose proof (ao_size _ Hg). lia.
  - intros q. unfold seen. cbn [ag_ranges]. rewrite H2. unfold under_floor. cbn [ag_floor]. split.
    + intros [(fl&[= <-]&Hq)|[Hh _]]; [|auto]. destruct (ag_floor g) as [f|]; [|auto]. destruct (N.le_gt_cases q f); [left; left; by exists f|right; lia].
    + intros [[(f&Ef&Hq)|Hh]|Hq].
      * left. rewrite Ef. eexists. split; [done|lia].
      * destruct (N.le_gt_cases q largest); [|by right]. left. eexists. split; [done|]. destruct (ag_floor g); lia.
      * left. eexists. split; [done|]. destruct (ag_floor g); lia.
Qed.

(** ** The acknowledgement names exactly the highest runs held *)
Lemma further_relative (runs : list (N * N)) prev :
  Forall (λ p, p.1 ≤ p.2) runs → StronglySorted (λ p q : N * N, q.2 + 1 < p.1) runs → (∀ p, head runs = Some p → p.2 + 1 < prev) →
  further_runs prev (relative_runs prev runs) = runs.
Proof.
  revert prev. induction runs as [|[low high] runs IH]; intros prev Hle Hs Hp; [done|]. apply Forall_cons in Hle as [Hl Hle].
  apply StronglySorted_inv in Hs as [Hs Hall]. specialize (Hp _ eq_refl). cbn [fst snd] in *. cbn [relative_runs further_runs gap ack_len]. unfold sat_sub.
  replace (prev - (prev - high - 2) - 2) with high by lia. replace (high - (high - low)) with low by lia. f_equal. apply IH; [done..|].
  intros p Hh. destruct runs as [|r runs]; [done|]. injection Hh as ->. by apply Forall_cons in Hall as [? _].
Qed.
Lemma runs_sorted m : apart_ranges m → StronglySorted (λ p q : N * N, q.2 + 1 < p.1) (rev (bt_list m)) ∧ Forall (λ p : N * N, p.1 ≤ p.2) (rev (bt_list m)).
Proof.
  intros [Hle Hap]. split.
  - apply StronglySorted_rev. pose proof (bt_list_sorted m) as Hs. assert (∀ k v, (k, v) ∈ bt_list m → m !! k = Some v) as Hin by (intros k v; apply elem_of_bt_list).
    induction Hs as [|[k v] l Hs IH Hall]; [constructor|]. constructor; [apply IH; intros; apply Hin; by right|]. rewrite Forall_forall in *. intros [k' v'] Hk.
    apply (Hap k v k' v'); [apply Hin; by left|apply Hin; by right|exact (Hall (k', v') Hk)].
  - apply Forall_forall. intros [k v] Hk. rewrite elem_of_rev in Hk. apply (Hle k v). by apply elem_of_bt_list.
Qed.
Lemma take_sorted {A} (R : A → A → Prop) n (l : list A) : StronglySorted R l → StronglySorted R (take n l).
Proof. revert n. induction l as [|a l IH]; intros [|n] Hs; [constructor..|]. apply StronglySorted_inv in Hs as [Hs Hall]. cbn. constructor; [by apply IH|by apply Forall_take]. Qed.
Lemma ack_frame_runs g max_ranges f :
  ackgen_ok g → ack_frame g max_ranges = Some f →
  ∃ largest range ranges, f = FAck largest range ranges ∧ ack_runs largest range ranges = takeN (max_ranges + 1) (rev (bt_list (ag_ranges g))).
Proof.
  intros Hg. destruct (runs_sorted _ (ao_apart _ Hg)) as [Hs Hle]. unfold ack_frame. destruct (rev (bt_list (ag_ranges g))) as [|[low high] runs]; [done|].
  intros [= <-]. eexists _, _, _. split; [done|]. unfold ack_runs, sat_sub. apply Forall_cons in Hle as [Hl Hle]. cbn in Hl. apply StronglySorted_inv in Hs as [Hs Hall].
  replace (high - (high - low)) with low by lia. unfold takeN. replace (N.to_nat (max_ranges + 1)) with (S (N.to_nat max_ranges)) by lia. cbn [take]. f_equal.
  apply further_relative; [by apply Forall_take|by apply take_sorted|]. intros p Hp. rewrite head_lookup in Hp. apply lookup_take_Some in Hp as [Hp _].
  apply (Forall_lookup_1 _ _ _ _ Hall Hp).
Qed.

(** ** Runs *)

(** A packet arrives, and is processed when it is no duplicate; the peer is known to hold an acknowledgement. *)
Inductive AckEvent := Arrives (pn : N) | Confirmed (largest : N).
Definition event_in_space (e : AckEvent) : Prop := match e with Arrives pn => pn < u64_max | Confirmed largest => largest < u64_max end.
Definition ack_event (g : AckGenerator) (e : AckEvent) : AckGenerator * list N :=
  match e with
  | Arrives pn => (record_pn g pn, if is_duplicate g pn then [] else [pn])
  | Confirmed largest => (confirm g largest, [])
  end.
Fixpoint ack_events (g : AckGenerator) (es : list AckEvent) : AckGenerator * list N :=
  match es with
  | [] => (g, [])
  | e :: es => let '(g, processed) := ack_event g e in let '(g, later) := ack_events g es in (g, processed ++ later)
  end.
Lemma ack_event_ok g e :
  ackgen_ok g → event_in_space e → let '(g', processed) := ack_event g e in
  ackgen_ok g' ∧ NoDup processed ∧ (∀ q, q ∈ processed → ¬ seen g q ∧ seen g' q) ∧ (∀ q, seen g q → seen g' q)
  ∧ (∀ q, held (ag_ranges g') q → held (ag_ranges g) q ∨ q ∈ processed) ∧ ag_max g' = ag_max g.
Proof.
  intros Hg He. destruct e as [pn|largest]; cbn [ack_event event_in_space] in *.
  - destruct (record_ok g pn Hg He) as (R1&R2&R3&R4&_). pose proof (is_duplicate_seen g pn Hg) as Hd. unfold record_pn in *. destruct (is_duplicate g pn).
    + split_and!; [done|constructor|by intros q ?%elem_of_nil|done|by left|done].
    + split_and!; [done|apply NoDup_singleton| |by eauto| |done].
      * intros q ->%list_elem_of_singleton. split; [|by auto]. intros Hs%Hd. done.
      * intros q [| ->]%R3; [by left|right; by left].
  - destruct (confirm_ok g largest Hg He) as (C1&C2&C3&C4). split_and!; [done|constructor|by intros q ?%elem_of_nil|intros q Hq; apply C2; by left|intros q Hq; left; by apply C3|done].
Qed.
Lemma ack_events_ok g es :
  ackgen_ok g → Forall event_in_space es → let '(g', processed) := ack_events g es in
  ackgen_ok g' ∧ NoDup processed ∧ (∀ q, q ∈ processed → ¬ seen g q) ∧ (∀ q, seen g q ∨ q ∈ processed → seen g' q)
  ∧ (∀ q, held (ag_ranges g') q → held (ag_ranges g) q ∨ q ∈ processed) ∧ ag_max g' = ag_max g.
Proof.
  revert g. induction es as [|e es IH]; intros g Hg Hes; cbn [ack_events].
  { split_and!; [done|constructor|by intros q ?%elem_of_nil|by intros q [|?%elem_of_nil]|by left|done]. }
  apply Forall_cons in Hes as [He Hes]. pose proof (ack_event_ok g e Hg He) as H1. destruct (ack_event g e) as [g1 p1]. destruct H1 as (A1&A2&A3&A4&A5&A6).
  specialize (IH g1 A1 Hes). destruct (ack_events g1 es) as [g2 p2]. destruct IH as (B1&B2&B3&B4&B5&B6). split_and!; [done| | | | |congruence].
  - apply NoDup_app. split_and!; [done| |done]. intros q Hq Hq2. by apply (B3 q Hq2), A3.
  - intros q [Hq|Hq]%elem_of_app; [by apply A3|]. intros Hs. by apply (B3 q Hq), A4.
  - intros q [Hs|[Hq|Hq]%elem_of_app]; apply B4; [left; by apply A4|left; by apply A3|by right].
  - intros q [Hh|Hq]%B5; [|right; apply elem_of_app; by right]. destruct (A5 q Hh); [by left|right; apply elem_of_app; by left].
Qed.
