(* ===== verification/Stream.v ===== *)
(** * Ordered streams

    Models [crates/transport/src/stream.rs]: the sender that frames buffered bytes
    within its credit, and the assembler that gives the bytes of frames back in
    order, once each, however they arrive.  Then a stream
    over a network, and what its reader gets. *)

From S2P Require Import Prelude Frame.
#[local] Open Scope N_scope.

(** ** The sender *)
Record StreamSender := mkSender {
  tx_buffered : bytes; tx_send_offset : N; tx_credit : N; tx_finished : bool; tx_fin_framed : bool; tx_installed : N }.

(** [StreamSender::new], [set_installed], [write], [grant_credit], [finish]. *)
Definition sender_new : StreamSender := mkSender [] 0 0 false false 0.
Definition set_installed (t : StreamSender) (installed : N) : StreamSender :=
  mkSender (tx_buffered t) (tx_send_offset t) (tx_credit t) (tx_finished t) (tx_fin_framed t) installed.
Definition tx_write (t : StreamSender) (data : bytes) : StreamSender :=
  mkSender (tx_buffered t ++ data) (tx_send_offset t) (tx_credit t) (tx_finished t) (tx_fin_framed t) (tx_installed t).
Definition grant_credit (t : StreamSender) (max : N) : StreamSender :=
  mkSender (tx_buffered t) (tx_send_offset t) (N.max (tx_credit t) max) (tx_finished t) (tx_fin_framed t) (tx_installed t).
Definition tx_finish (t : StreamSender) : StreamSender :=
  mkSender (tx_buffered t) (tx_send_offset t) (tx_credit t) true (tx_fin_framed t) (tx_installed t).

(** [StreamSender::next_frame]. *)
Definition next_frame (t : StreamSender) (stream_id max_frame_len : N) : StreamSender * option Frame :=
  let sendable_end := N.min (len (tx_buffered t)) (tx_credit t) in
  if sendable_end <=? tx_send_offset t then
    if tx_finished t && negb (tx_fin_framed t) && (tx_send_offset t =? len (tx_buffered t)) && (tx_send_offset t <=? tx_credit t)
    then (mkSender (tx_buffered t) (tx_send_offset t) (tx_credit t) (tx_finished t) true (tx_installed t), Some (FStream stream_id (tx_send_offset t) true []))
    else (t, None)
  else
    let start := tx_send_offset t in
    let want := N.min (sat_sub sendable_end start) max_frame_len in
    let lo := N.min start (len (tx_buffered t)) in
    let hi := N.min (sat_add lo want) (len (tx_buffered t)) in
    let data := match get_range (tx_buffered t) lo hi with Some d => d | None => [] end in
    let send_offset := sat_add start (sat_sub hi lo) in
    let fin := tx_finished t && (send_offset =? len (tx_buffered t)) in
    (mkSender (tx_buffered t) send_offset (tx_credit t) (tx_finished t) (if fin then true else tx_fin_framed t) (tx_installed t),
     Some (FStream stream_id start fin data)).

(** [StreamSender::has_sendable], [StreamSender::blocked_at]. *)
Definition has_sendable (t : StreamSender) : bool :=
  let buffered := len (tx_buffered t) in
  let sendable_end := N.min buffered (tx_credit t) in
  (tx_send_offset t <? sendable_end)
  || (tx_finished t && negb (tx_fin_framed t) && (tx_send_offset t =? buffered) && (tx_send_offset t <=? tx_credit t)).
Definition blocked_at (t : StreamSender) : option N :=
  if (tx_credit t <=? tx_send_offset t) && (tx_credit t <? len (tx_buffered t)) then Some (tx_credit t) else None.

(** [StreamSender::is_drained]. *)
Definition is_drained (t : StreamSender) : bool := tx_fin_framed t.

(** ** The assembler *)
Inductive StreamError := BeyondWindow (end_ window : N) | FinChanged (was now : N).
Record StreamAssembler := mkAssembler { rx_read_offset : N; rx_buffered : gmap N bytes; rx_fin : option N; rx_window : N; rx_examined : N }.

(** [StreamAssembler::new], [StreamAssembler::grant_window], [StreamAssembler::is_complete]. *)
Definition assembler_new (window : N) : StreamAssembler := mkAssembler 0 ∅ None window 0.
Definition grant_window (a : StreamAssembler) (max : N) : StreamAssembler :=
  mkAssembler (rx_read_offset a) (rx_buffered a) (rx_fin a) (N.max (rx_window a) max) (rx_examined a).
Definition rx_is_complete (a : StreamAssembler) : bool := bool_decide (rx_fin a = Some (rx_read_offset a)).

(** [StreamAssembler::buffer_gap]. *)
Definition buffer_gap (m : gmap N bytes) (data_offset from to : N) (data : bytes) : gmap N bytes :=
  let lo := N.min (sat_sub from data_offset) (len data) in
  let hi := N.min (sat_sub to data_offset) (len data) in
  match get_range data lo hi with
  | Some gap => if bool_decide (gap = []) then m else <[from := gap]> m
  | None => m
  end.
(** The segments an offer can overlap, and the loop over them. *)
Definition seg_end (p : N * bytes) : N := sat_add p.1 (len p.2).
Definition overlapping (m : gmap N bytes) (start end_ : N) : list (N * N) :=
  filter (λ p, p.1 < end_ ∧ start < p.2) (map (λ p, (p.1, seg_end p)) (option_list (bt_before m start) ++ bt_range m start end_)).
Fixpoint fill_gaps (m : gmap N bytes) (offset end_ : N) (data : bytes) (pos : N) (overlaps : list (N * N)) : gmap N bytes * N :=
  match overlaps with
  | [] => (m, pos)
  | (seg_start, seg_end) :: overlaps =>
      let m := if pos <? seg_start then buffer_gap m offset pos (N.min seg_start end_) data else m in
      let pos := N.max pos seg_end in
      if end_ <=? pos then (m, pos) else fill_gaps m offset end_ data pos overlaps
  end.
(** [StreamAssembler::offer]. *)
Definition offer (a : StreamAssembler) (offset : N) (data : bytes) (fin : bool) : StreamAssembler * result StreamError unit :=
  match checked_add offset (len data) with
  | None => (a, Err (BeyondWindow u64_max (rx_window a)))
  | Some end_ =>
      if rx_window a <? end_ then (a, Err (BeyondWindow end_ (rx_window a))) else
      match (if fin then match rx_fin a with Some was => if negb (was =? end_) then Err (FinChanged was end_) else Ok (Some end_) | None => Ok (Some end_) end
             else Ok (rx_fin a)) with
      | Err e => (a, Err e)
      | Ok rx_fin' =>
          let start := N.max offset (rx_read_offset a) in
          if end_ <=? start then (mkAssembler (rx_read_offset a) (rx_buffered a) rx_fin' (rx_window a) (rx_examined a), Ok tt) else
          let overlaps := overlapping (rx_buffered a) start end_ in
          let examined := sat_add (sat_add (rx_examined a) (len overlaps)) 1 in
          let '(m, pos) := fill_gaps (rx_buffered a) offset end_ data start overlaps in
          let m := if pos <? end_ then buffer_gap m offset pos end_ data else m in
          (mkAssembler (rx_read_offset a) m rx_fin' (rx_window a) examined, Ok tt)
      end
  end.
(** [StreamAssembler::read]: the loop removes a segment each turn. *)
Fixpoint drain (turns : nat) (m : gmap N bytes) (read_offset : N) : gmap N bytes * N * bytes :=
  match turns with
  | O => (m, read_offset, [])
  | S turns =>
      match m !! read_offset with
      | None => (m, read_offset, [])
      | Some segment =>
          let '(m', offset, out) := drain turns (delete read_offset m) (sat_add read_offset (len segment)) in (m', offset, segment ++ out)
      end
  end.
Definition rx_read (a : StreamAssembler) : StreamAssembler * bytes :=
  let '(m, offset, out) := drain (S (size (rx_buffered a))) (rx_buffered a) (rx_read_offset a) in
  (mkAssembler offset m (rx_fin a) (rx_window a) (rx_examined a), out).
(** [StreamAssembler::highest_offset]. *)
Definition highest_offset (a : StreamAssembler) : N :=
  N.max (N.max (match bt_last (rx_buffered a) with Some p => seg_end p | None => rx_read_offset a end) (rx_read_offset a))
    (match rx_fin a with Some f => f | None => 0 end).

(** ** What an assembler holds *)

(** An offset is buffered, and covered: read or buffered. *)
Definition has_byte (m : gmap N bytes) (o : N) (b : byte) : Prop := ∃ s d, m !! s = Some d ∧ s ≤ o ∧ d !! N.to_nat (o - s) = Some b.
Definition in_buffer (m : gmap N bytes) (o : N) : Prop := ∃ s d, m !! s = Some d ∧ s ≤ o ∧ o < s + len d.
Definition disjoint_segments (m : gmap N bytes) : Prop :=
  (∀ s d, m !! s = Some d → d ≠ []) ∧ ∀ s d s' d', m !! s = Some d → m !! s' = Some d' → s < s' → s + len d ≤ s'.
(** The segments hold the stream's bytes. *)
Definition agrees_with (content : bytes) (m : gmap N bytes) : Prop := ∀ s d, m !! s = Some d → d = slice content s (s + len d) ∧ s + len d ≤ len content.
Record rx_ok (a : StreamAssembler) : Prop := {
  rk_disjoint : disjoint_segments (rx_buffered a);
  rk_above : ∀ s d, rx_buffered a !! s = Some d → rx_read_offset a ≤ s;
  rk_window : ∀ s d, rx_buffered a !! s = Some d → s + len d ≤ rx_window a;
  rk_read : rx_read_offset a ≤ rx_window a;
  rk_u64 : rx_window a ≤ u64_max
}.

(** ** Filling the gaps *)
Lemma seg_pos (m : gmap N bytes) s d : disjoint_segments m → m !! s = Some d → 0 < len d.
Proof. intros [Hne _] Hs. destruct (N.eq_dec (len d) 0) as [E|]; [|lia]. exfalso. by apply (Hne s d Hs), len_0_nil. Qed.
Section offering.
Context (offset end_ : N) (data : bytes) (Hend : end_ = offset + len data).
Implicit Types (m : gmap N bytes) (L : list (N * N)).

Lemma buffer_gap_eq m from to :
  offset ≤ from → from < to → to ≤ end_ →
  buffer_gap m offset from to data = <[from := slice data (from - offset) (to - offset)]> m ∧ len (slice data (from - offset) (to - offset)) = to - from.
Proof using Hend.
  intros H1 H2 H3. assert (len (slice data (from - offset) (to - offset)) = to - from) as El by (rewrite len_slice; lia). split; [|done].
  unfold buffer_gap, sat_sub. rewrite !N.min_l by lia. rewrite get_range_some by lia. rewrite bool_decide_false; [done|]. intros E. rewrite E, len_nil in El. lia.
Qed.
(** The segments that meet [[pos, end)], in order. *)
Definition meeting m (pos : N) L : Prop :=
  StronglySorted (λ p q : N * N, p.1 < q.1) L ∧ ∀ s e, (s, e) ∈ L ↔ ∃ d, m !! s = Some d ∧ e = s + len d ∧ s < end_ ∧ pos < e.
(** What filling adds: pieces of the data. *)
Definition added m m' : Prop :=
  m ⊆ m' ∧ ∀ s d, m' !! s = Some d → m !! s = Some d ∨ offset ≤ s ∧ s + len d ≤ end_ ∧ d = slice data (s - offset) (s - offset + len d).
Lemma added_refl m : added m m.
Proof. split; [done|auto]. Qed.
Lemma added_trans m1 m2 m3 : added m1 m2 → added m2 m3 → added m1 m3.
Proof. intros [H1 H2] [H3 H4]. split; [by etransitivity|]. intros s d [Hs|]%H4; [by apply H2|auto]. Qed.
(** A free piece of the data is buffered. *)
Lemma buffer_piece m from to :
  disjoint_segments m → offset ≤ from → from < to → to ≤ end_ →
  (∀ s d, m !! s = Some d → s + len d ≤ from ∨ to ≤ s) →
  let m' := buffer_gap m offset from to data in
  disjoint_segments m' ∧ added m m' ∧ m' !! from = Some (slice data (from - offset) (to - offset)) ∧ (∀ o, in_buffer m' o ↔ in_buffer m o ∨ from ≤ o ∧ o < to)
  ∧ ∀ s, s ≠ from → m' !! s = m !! s.
Proof using Hend.
  intros [Hne Hd] H1 H2 H3 Hfree. cbn zeta. destruct (buffer_gap_eq m from to H1 H2 H3) as [-> El]. set (x := slice data _ _) in *.
  assert (m !! from = None) as Hnone.
  { destruct (m !! from) as [d|] eqn:E; [|done]. assert (len d ≠ 0) by (intros H0%len_0_nil; by apply (Hne from d)). destruct (Hfree from d E); lia. }
  split_and!.
  - split.
    + intros s d [[<- <-]|[_ Hs]]%lookup_insert_Some; [|by apply (Hne s)]. intros E. rewrite E, len_nil in El. lia.
    + intros s d s' d' Hs Hs' Hlt. apply lookup_insert_Some in Hs, Hs'. destruct Hs as [[<- <-]|[Hn Hs]], Hs' as [[<- <-]|[Hn' Hs']]; [lia|..|by eapply Hd].
      * destruct (Hfree s' d' Hs'); [|lia]. lia.
      * destruct (Hfree s d Hs); [done|]. lia.
  - split; [by apply insert_subseteq|]. intros s d [[<- <-]|[_ Hs]]%lookup_insert_Some; [right|by left]. split_and!; [done|lia|]. rewrite El. unfold x. f_equal. lia.
  - apply lookup_insert_eq.
  - intros o. split.
    + intros (s&d&[[<- <-]|[_ Hs]]%lookup_insert_Some&Ho); [right; lia|left; by exists s, d].
    + intros [(s&d&Hs&Ho)|Ho].
      * exists s, d. rewrite lookup_insert_ne by congruence. done.
      * exists from, x. rewrite lookup_insert_eq. split; [done|lia].
  - intros s Hs. by rewrite lookup_insert_ne.
Qed.
(** A segment before the first that meets is before [pos]. *)
Lemma meeting_first m pos s e L sx dx :
  disjoint_segments m → meeting m pos ((s, e) :: L) → m !! sx = Some dx → sx = s ∨ sx + len dx ≤ pos ∨ end_ ≤ sx ∨ e ≤ sx.
Proof.
  intros Hd [Hs Hin] Hx. destruct (proj1 (Hin s e)) as (d&Hsd&->&H1&H2); [by left|]. destruct (decide (sx = s)) as [|Hne]; [auto|].
  destruct (N.le_gt_cases (sx + len dx) pos); [auto|]. destruct (N.le_gt_cases end_ sx); [auto|]. right. right. right.
  assert ((sx, sx + len dx) ∈ (s, s + len d) :: L) as Hm by (apply Hin; eauto). apply elem_of_cons in Hm as [[= -> _]|Hm]; [done|].
  apply StronglySorted_inv in Hs as [_ Hall]. rewrite Forall_forall in Hall. specialize (Hall _ Hm). cbn in Hall. destruct Hd as [_ Hd]. by apply (Hd s d sx dx).
Qed.
Lemma fill_gaps_ok L : ∀ m pos,
  disjoint_segments m → offset ≤ pos → pos < end_ → meeting m pos L →
  let '(m', pos') := fill_gaps m offset end_ data pos L in
  disjoint_segments m' ∧ added m m' ∧ pos ≤ pos' ∧ (∀ o, in_buffer m' o ↔ in_buffer m o ∨ pos ≤ o ∧ o < N.min pos' end_)
  ∧ (pos' < end_ → ∀ s d, m' !! s = Some d → s + len d ≤ pos' ∨ end_ ≤ s).
Proof using Hend.
  induction L as [|[s e] L IH]; intros m pos Hd Hof Hpos Hm; cbn [fill_gaps].
  - destruct Hm as [_ Hin]. split_and!; [done|apply added_refl|done|intros o; split; [auto|intros [|]; [done|lia]]|]. intros _ s d Hs.
    destruct (N.le_gt_cases (s + len d) pos); [auto|]. destruct (N.le_gt_cases end_ s); [auto|]. exfalso.
    apply (not_elem_of_nil (s, s + len d)), Hin. eauto.
  - destruct (proj1 (proj2 Hm s e)) as (d&Hsd&->&H1&H2); [by left|]. pose proof (seg_pos m s d Hd Hsd) as Hlen. rewrite (N.min_l s) by lia. rewrite (N.max_r pos) by lia.
    set (m1 := if pos <? s then _ else m).
    assert (disjoint_segments m1 ∧ added m m1 ∧ (∀ o, in_buffer m1 o ↔ in_buffer m o ∨ pos ≤ o ∧ o < s)
      ∧ (∀ x d', m1 !! x = Some d' → m !! x = Some d' ∨ x = pos ∧ x + len d' = s ∧ x < s)) as (D1&A1&B1&C1).
    { unfold m1. destruct (N.ltb_spec pos s) as [Hlt|Hge].
      - destruct (buffer_piece m pos s Hd Hof Hlt ltac:(lia)) as (P1&P2&P3&P4&P5).
        { intros x d' Hx. destruct (meeting_first m pos s (s + len d) L x d' Hd Hm Hx) as [->|[|[|]]]; [right; lia|by left|right; lia|right; lia]. }
        split_and!; [done..|]. intros x d' Hx. destruct (decide (x = pos)) as [->|]; [|left; by rewrite <- P5]. right. rewrite P3 in Hx. injection Hx as <-. rewrite len_slice. lia.
      - split_and!; [done|apply added_refl| |by left]. intros o. split; [auto|intros [|]; [done|lia]]. }
    assert (m1 !! s = Some d) as Hs1 by (by apply (lookup_weaken m m1), A1).
    assert (∀ o, in_buffer m1 o ↔ in_buffer m o ∨ pos ≤ o ∧ o < s + len d) as B2.
    { intros o. rewrite B1. split; [intros [|]; [auto|right; lia]|]. intros [|Ho]; [auto|]. destruct (N.lt_ge_cases o s); [right; lia|left]. exists s, d. split; [done|lia]. }
    destruct (N.leb_spec end_ (s + len d)) as [Hfin|Hgo].
    + split_and!; [done|done|lia| |lia]. intros o. rewrite B2. rewrite N.min_r by lia. split; [|intros [|]; [auto|right; lia]].
      intros [|Ho]; [auto|]. destruct (N.lt_ge_cases o s); [right; lia|left]. exists s, d. split; [done|lia].
    + assert (meeting m1 (s + len d) L) as Hm1.
      { destruct Hm as [Hs Hin]. apply StronglySorted_inv in Hs as [Hs Hall]. split; [done|]. intros x e'. rewrite Forall_forall in Hall. split.
        - intros Hx. specialize (Hall _ Hx). cbn in Hall. destruct (proj1 (Hin x e')) as (d'&Hx1&->&Hx2&Hx3); [by right|]. exists d'. split_and!; [by apply (lookup_weaken m m1), A1|done..|].
          destruct Hd as [Hne Hdd]. pose proof (Hdd s d x d' Hsd Hx1 Hall). pose proof (seg_pos m x d' (conj Hne Hdd) Hx1). lia.
        - intros (d'&Hx1&->&Hx2&Hx3). destruct (C1 x d' Hx1) as [Hx|(->&Hx&_)]; [|lia]. assert ((x, x + len d') ∈ (s, s + len d) :: L) as Hc by (apply Hin; exists d'; split_and!; [done..|lia]).
          apply elem_of_cons in Hc as [[= -> E]|]; [|done]. lia. }
      specialize (IH m1 (s + len d) D1 ltac:(lia) Hgo Hm1). destruct (fill_gaps m1 offset end_ data (s + len d) L) as [m' pos'].
      destruct IH as (I1&I2&I3&I4&I5). split_and!; [done|by eapply added_trans|lia| |done].
      intros o. rewrite I4, B2. split; [intros [[|]|]; [auto|right; lia|right; lia]|]. intros [|Ho]; [auto|]. destruct (N.lt_ge_cases o (s + len d)); [left; right; lia|right; lia].
Qed.
End offering.

(** ** Offers *)
Lemma map_sorted {A B} (R : A → A → Prop) (S : B → B → Prop) (f : A → B) (l : list A) :
  (∀ x y, R x y → S (f x) (f y)) → StronglySorted R l → StronglySorted S (map f l).
Proof.
  intros Hf. induction 1 as [|x l Hs IH Hall]; [constructor|]. cbn. constructor; [done|]. apply Forall_map. eapply Forall_impl; [exact Hall|]. intros y. apply Hf.
Qed.
Lemma filter_sorted {A} (R : A → A → Prop) (P : A → Prop) `{!∀ x, Decision (P x)} (l : list A) : StronglySorted R l → StronglySorted R (filter P l).
Proof.
  induction 1 as [|x l Hs IH Hall]; [constructor|]. rewrite filter_cons. case_decide; [|done]. constructor; [done|]. rewrite Forall_forall in *.
  intros y [_ Hy]%list_elem_of_filter. by apply Hall.
Qed.
Lemma overlapping_meeting m start end_ :
  disjoint_segments m → (∀ s d, m !! s = Some d → s + len d ≤ u64_max) → meeting end_ m start (overlapping m start end_).
Proof.
  intros Hd Hu. set (cands := option_list (bt_before m start) ++ bt_range m start end_).
  assert (StronglySorted key_lt cands ∧ (∀ s d, (s, d) ∈ cands → m !! s = Some d) ∧ ∀ s d, m !! s = Some d → s < end_ → start < s + len d → (s, d) ∈ cands) as (C1&C2&C3).
  { unfold cands, bt_before. pose proof (greatest_spec (λ p : N * bytes, p.1 < start) m) as Hg. destruct (last _) as [[bs bd]|]; cbn [option_list app].
    - cbn in Hg. destruct Hg as (G1&G2&G3). split_and!.
      + constructor; [apply bt_range_sorted|]. apply Forall_forall. intros [s d] Hs%bt_range_elem. unfold key_lt. cbn. lia.
      + intros s d [[= -> ->]|Hs%bt_range_elem]%elem_of_cons; [done|apply Hs].
      + intros s d Hs H1 H2. apply elem_of_cons. destruct (N.lt_ge_cases s start) as [Hlt|Hge]; [left|right; by apply bt_range_elem].
        pose proof (G3 s d Hs Hlt). destruct (decide (s = bs)) as [->|]; [congruence|]. destruct Hd as [_ Hd]. pose proof (Hd s d bs bd Hs G1 ltac:(lia)). lia.
    - split_and!; [apply bt_range_sorted|intros s d Hs%bt_range_elem; apply Hs|]. intros s d Hs H1 H2. apply bt_range_elem. split_and!; [done| |done].
      destruct (N.lt_ge_cases s start); [|done]. exfalso. by apply (Hg s d). }
  split.
  - unfold overlapping. apply filter_sorted. eapply map_sorted; [|exact C1]. done.
  - intros s e. unfold overlapping. rewrite list_elem_of_filter. cbn [fst snd]. fold cands. rewrite list_elem_of_fmap. split.
    + intros [[H1 H2] ([s' d]&[= -> ->]&Hc)]. apply C2 in Hc. exists d. unfold seg_end in *. cbn [fst snd] in *. rewrite sat_add_small in * by (by apply Hu). done.
    + intros (d&Hs&->&H1&H2). split; [done|]. exists (s, d). unfold seg_end. cbn [fst snd]. rewrite sat_add_small by (by apply Hu). split; [done|]. by apply C3.
Qed.
Lemma seg_fits a s d : rx_ok a → rx_buffered a !! s = Some d → s + len d ≤ u64_max.
Proof. intros Ha Hs. pose proof (rk_window _ Ha s d Hs). pose proof (rk_u64 _ Ha). lia. Qed.
Lemma offer_ok a offset data fin :
  rx_ok a → let '(a', r) := offer a offset data fin in
  match r with
  | Ok _ => rx_ok a' ∧ offset + len data ≤ rx_window a ∧ (rx_read_offset a', rx_window a') = (rx_read_offset a, rx_window a)
      ∧ rx_fin a' = (if fin then Some (offset + len data) else rx_fin a) ∧ (fin = true → ∀ f, rx_fin a = Some f → f = offset + len data)
      ∧ (∀ o, in_buffer (rx_buffered a') o ↔ in_buffer (rx_buffered a) o ∨ N.max offset (rx_read_offset a) ≤ o ∧ o < offset + len data)
      ∧ added offset (offset + len data) data (rx_buffered a) (rx_buffered a')
  | Err _ => a' = a
  end.
Proof.
  intros Ha. unfold offer. destruct (checked_add offset (len data)) as [e|] eqn:Ee; [|done]. apply checked_add_some in Ee as [-> He].
  destruct (N.ltb_spec (rx_window a) (offset + len data)) as [|Hw]; [done|].
  set (f := if fin then _ else Ok (rx_fin a)).
  assert (match f with Err _ => True | Ok f' => f' = (if fin then Some (offset + len data) else rx_fin a) ∧ (fin = true → ∀ f0, rx_fin a = Some f0 → f0 = offset + len data) end) as Hf.
  { unfold f. destruct fin; [|done]. destruct (rx_fin a) as [was|]; [|done]. destruct (N.eqb_spec was (offset + len data)) as [Ew|]; cbn; [|done]. split; [done|]. by intros _ f0 [= <-]. }
  destruct f as [f'|]; [|done]. destruct Hf as [-> Hfin]. set (start := N.max offset (rx_read_offset a)).
  destruct (N.leb_spec (offset + len data) start) as [Hle|Hlt].
  { split_and!; try done; [by destruct Ha| |apply added_refl]. intros o. cbn [rx_buffered]. split; [auto|intros [|]; [done|lia]]. }
  pose proof (overlapping_meeting (rx_buffered a) start (offset + len data) (rk_disjoint _ Ha) (λ s d, seg_fits a s d Ha)) as Hm.
  pose proof (fill_gaps_ok offset (offset + len data) data eq_refl _ (rx_buffered a) start (rk_disjoint _ Ha) ltac:(lia) Hlt Hm) as Hg.
  destruct (fill_gaps _ _ _ _ _ _) as [m pos]. destruct Hg as (G1&G2&G3&G4&G5).
  set (m' := if pos <? offset + len data then _ else m).
  assert (disjoint_segments m' ∧ added offset (offset + len data) data (rx_buffered a) m'
    ∧ ∀ o, in_buffer m' o ↔ in_buffer (rx_buffered a) o ∨ start ≤ o ∧ o < offset + len data) as (M1&M2&M3).
  { unfold m'. destruct (N.ltb_spec pos (offset + len data)) as [Hp|Hp].
    - destruct (buffer_piece offset (offset + len data) data eq_refl m pos (offset + len data) G1 ltac:(lia) Hp ltac:(lia) (G5 Hp)) as (P1&P2&P3&P4&P5).
      split_and!; [done|by eapply added_trans|]. intros o. rewrite P4, G4. rewrite N.min_l by lia. split; [intros [[|]|]; [auto|right; lia|right; lia]|].
      intros [|Ho]; [auto|]. destruct (N.lt_ge_cases o pos); [left; right; lia|right; lia].
    - split_and!; [done..|]. intros o. rewrite G4, N.min_r by lia. done. }
  split_and!; try done. split; cbn [rx_buffered rx_read_offset rx_window]; [done|..|apply (rk_read _ Ha)|apply (rk_u64 _ Ha)].
  - intros s d Hs. destruct (proj2 M2 s d Hs) as [Hs'|(H1&H2&H3)]; [by apply (rk_above _ Ha s d)|].
    destruct (rx_buffered a !! s) as [d'|] eqn:Eb; [by apply (rk_above _ Ha s d')|].
    assert (in_buffer m' s) as Hi by (exists s, d; split; [done|]; pose proof (seg_pos m' s d M1 Hs); lia). apply M3 in Hi as [(s'&d'&Hs'&Ho)|]; [|lia].
    pose proof (rk_above _ Ha s' d' Hs'). lia.
  - intros s d Hs. destruct (proj2 M2 s d Hs) as [Hs'|(H1&H2&H3)]; [by apply (rk_window _ Ha s d)|lia].
Qed.

(** ** Reads *)
Lemma agrees_added content offset data m m' :
  agrees_with content m → data = slice content offset (offset + len data) → offset + len data ≤ len content →
  added offset (offset + len data) data m m' → agrees_with content m'.
Proof.
  intros Hm Hd Hl [_ Ha] s d Hs. destruct (Ha s d Hs) as [Hs'|(H1&H2&H3)]; [by apply Hm|]. split; [|lia].
  rewrite H3 at 1. rewrite Hd, slice_slice by lia. f_equal; lia.
Qed.
Lemma drain_ok content turns : ∀ m r,
  disjoint_segments m → (∀ s d, m !! s = Some d → r ≤ s ∧ s + len d ≤ u64_max) → agrees_with content m → (size m < turns)%nat →
  let '(m', r', out) := drain turns m r in
  m' ⊆ m ∧ r ≤ r' ∧ out = slice content r r' ∧ (r < r' → r' ≤ len content) ∧ (∀ s d, m' !! s = Some d → r' < s) ∧ (∀ o, r ≤ o → o < r' → in_buffer m o)
  ∧ (∀ o, in_buffer m o → r' ≤ o → in_buffer m' o).
Proof.
  induction turns as [|turns IH]; intros m r Hd Hr Hc Hsz; [lia|]. cbn [drain]. destruct (m !! r) as [d|] eqn:E.
  - pose proof (seg_pos m r d Hd E) as Hpos. destruct (Hr r d E) as [_ Hu]. rewrite sat_add_small by done. destruct (Hc r d E) as [Hsl Hlen].
    assert (∀ s d', delete r m !! s = Some d' → m !! s = Some d' ∧ r + len d ≤ s) as Hdel.
    { intros s d' [Hne Hs]%lookup_delete_Some. split; [done|]. destruct (Hr s d' Hs). apply (proj2 Hd r d s d' E Hs). lia. }
    specialize (IH (delete r m) (r + len d)). destruct (drain turns (delete r m) (r + len d)) as [[m' r'] out].
    destruct IH as (I1&I2&I3&I4&I5&I6&I7).
    + split; [intros s d' [Hs _]%Hdel; by apply (proj1 Hd s)|]. intros s1 d1 s2 d2 [Hs1 _]%Hdel [Hs2 _]%Hdel. by apply (proj2 Hd s1 d1 s2 d2).
    + intros s d' [Hs Hle]%Hdel. split; [done|by apply Hr].
    + intros s d' [Hs _]%Hdel. by apply Hc.
    + assert (size m ≠ 0)%nat by (apply map_size_non_empty_iff; intros ->; by rewrite lookup_empty in E). rewrite map_size_delete, E. cbn. lia.
    + split_and!; [etransitivity; [exact I1|apply delete_subseteq]|lia| | |done| |].
      * rewrite I3, <- (slice_app content r (r + len d) r') by lia. by rewrite <- Hsl.
      * intros _. destruct (N.eq_dec r' (r + len d)) as [->|]; [done|]. apply I4. lia.
      * intros o H1 H2. destruct (N.lt_ge_cases o (r + len d)); [exists r, d; split; [done|lia]|]. destruct (I6 o ltac:(lia) H2) as (s&d'&[Hs _]%Hdel&Ho). by exists s, d'.
      * intros o (s&d'&Hs&Ho) Hle. apply I7; [|done]. exists s, d'. split; [|done]. rewrite lookup_delete_ne; [done|]. intros <-. rewrite E in Hs. injection Hs as <-. lia.
  - split_and!; [done|lia|by rewrite slice_empty by lia|lia| |lia|done]. intros s d Hs. destruct (Hr s d Hs). assert (s ≠ r) by (intros ->; congruence). lia.
Qed.
Lemma read_ok content a :
  rx_ok a → agrees_with content (rx_buffered a) → let '(a', out) := rx_read a in
  rx_ok a' ∧ agrees_with content (rx_buffered a') ∧ out = slice content (rx_read_offset a) (rx_read_offset a') ∧ rx_read_offset a ≤ rx_read_offset a'
  ∧ (rx_read_offset a < rx_read_offset a' → rx_read_offset a' ≤ len content) ∧ (rx_fin a', rx_window a') = (rx_fin a, rx_window a)
  ∧ ¬ in_buffer (rx_buffered a') (rx_read_offset a')
  ∧ (∀ o, rx_read_offset a ≤ o → o < rx_read_offset a' → in_buffer (rx_buffered a) o) ∧ (∀ o, in_buffer (rx_buffered a) o → rx_read_offset a' ≤ o → in_buffer (rx_buffered a') o).
Proof.
  intros Ha Hc. unfold rx_read. pose proof (drain_ok content (S (size (rx_buffered a))) (rx_buffered a) (rx_read_offset a) (rk_disjoint _ Ha)) as Hd.
  destruct (drain _ _ _) as [[m' r'] out]. destruct Hd as (D1&D2&D3&D4&D5&D6&D7); [intros s d Hs; split; [by apply (rk_above _ Ha s d)|by apply (seg_fits a)]|done|lia|].
  assert (∀ s d, m' !! s = Some d → rx_buffered a !! s = Some d) as Hsub by (intros s d Hs; by apply (lookup_weaken m')).
  split_and!; try done; cbn [rx_buffered rx_read_offset rx_window].
  - destruct (rk_disjoint _ Ha) as [Hne Hdis]. split; cbn [rx_buffered rx_read_offset rx_window].
    + split; [intros s d Hs%Hsub; by apply (Hne s)|]. intros s1 d1 s2 d2 H1%Hsub H2%Hsub. by apply (Hdis s1 d1 s2 d2).
    + intros s d Hs. pose proof (D5 s d Hs). lia.
    + intros s d Hs%Hsub. by apply (rk_window _ Ha s d).
    + destruct (N.eq_dec r' (rx_read_offset a)) as [->|]; [apply (rk_read _ Ha)|]. destruct (D6 (r' - 1) ltac:(lia) ltac:(lia)) as (s&d&Hs&Ho).
      pose proof (rk_window _ Ha s d Hs). lia.
    + apply (rk_u64 _ Ha).
  - intros s d Hs%Hsub. by apply Hc.
  - intros (s&d&Hs&Ho). pose proof (D5 s d Hs). lia.
Qed.

(** * Streams deliver

    The sender and the assembler of [crates/transport/src/stream.rs] over a
    network that loses, repeats and reorders frames: what is read is a prefix of
    what was written, and all of it once every frame arrived. *)

#[local] Open Scope N_scope.

(** ** The sender *)
Inductive SendOp := SWrite (data : bytes) | SGrant (max : N) | SFinish | SNext (stream_id cap : N).
Definition send_op (t : StreamSender) (op : SendOp) : StreamSender * option Frame :=
  match op with
  | SWrite data => (tx_write t data, None)
  | SGrant max => (grant_credit t max, None)
  | SFinish => (tx_finish t, None)
  | SNext stream_id cap => next_frame t stream_id cap
  end.
Fixpoint send_ops (t : StreamSender) (ops : list SendOp) : StreamSender * list Frame :=
  match ops with
  | [] => (t, [])
  | op :: ops => let '(t, f) := send_op t op in let '(t, fs) := send_ops t ops in (t, option_list f ++ fs)
  end.
(** The application writes nothing after it finished the stream, and no more than an offset can name. *)
Fixpoint writes_end (finished : bool) (ops : list SendOp) : Prop :=
  match ops with
  | [] => True
  | SWrite _ :: ops => finished = false ∧ writes_end finished ops
  | SFinish :: ops => writes_end true ops
  | _ :: ops => writes_end finished ops
  end.

(** A frame of the stream: its bytes at its offset, within the credit, and the end marked at the end. *)
Definition frame_of (content : bytes) (ended : bool) (f : Frame) : Prop :=
  match f with
  | FStream _ offset fin data => data = slice content offset (offset + len data) ∧ offset + len data ≤ len content ∧ (fin = true → ended = true ∧ offset + len data = len content)
  | _ => False
  end.
Definition frame_data (f : Frame) : bytes := match f with FStream _ _ _ data => data | _ => [] end.
Definition frame_fin (f : Frame) : bool := match f with FStream _ _ fin _ => fin | _ => false end.
Definition frame_end (f : Frame) : N := match f with FStream _ offset _ data => offset + len data | _ => 0 end.
Definition covers (f : Frame) (o : N) : Prop := match f with FStream _ offset _ data => offset ≤ o ∧ o < offset + len data | _ => False end.

Record tx_ok (t : StreamSender) (fs : list Frame) : Prop := {
  tk_offset : tx_send_offset t ≤ len (tx_buffered t) ∧ tx_send_offset t ≤ tx_credit t;
  tk_small : len (tx_buffered t) ≤ u64_max;
  tk_frames : Forall (frame_of (tx_buffered t) (tx_finished t)) fs;
  tk_credit : Forall (λ f, frame_end f ≤ tx_credit t) fs;
  tk_data : concat (map frame_data fs) = takeN (tx_send_offset t) (tx_buffered t);
  tk_cover : ∀ o, o < tx_send_offset t → ∃ f, f ∈ fs ∧ covers f o;
  tk_fin : tx_fin_framed t = true → tx_send_offset t = len (tx_buffered t) ∧ ∃ f, f ∈ fs ∧ frame_fin f = true;
  tk_open : (∃ f, f ∈ fs ∧ frame_fin f = true) → tx_finished t = true
}.
Lemma frame_of_write content data f : frame_of content false f → frame_of (content ++ data) false f.
Proof.
  destruct f; try done. cbn. intros (H1&H2&H3). split_and!; [by rewrite slice_app_l by lia|rewrite len_app; lia|intros [[=] _]%H3].
Qed.
Lemma write_tx_ok t fs data : tx_ok t fs → tx_finished t = false → len (tx_buffered t ++ data) ≤ u64_max → tx_ok (tx_write t data) fs.
Proof.
  intros Ht Hf Hs. destruct Ht. split; cbn [tx_write tx_buffered tx_send_offset tx_credit tx_finished tx_fin_framed]; try done.
  - rewrite len_app. lia.
  - rewrite Hf in *. eapply Forall_impl; [exact tk_frames0|]. intros f. apply frame_of_write.
  - by rewrite takeN_app_le by lia.
  - intros Hfr. destruct (tk_fin0 Hfr) as [_ Hx]. apply tk_open0 in Hx. congruence.
Qed.
Lemma next_frame_ok t fs stream_id cap :
  tx_ok t fs → let '(t', f) := next_frame t stream_id cap in
  tx_ok t' (fs ++ option_list f) ∧ tx_buffered t' = tx_buffered t ∧ tx_credit t' = tx_credit t ∧ tx_finished t' = tx_finished t
  ∧ (∀ g, f = Some g → len (frame_data g) ≤ cap) ∧ (is_Some f ↔ has_sendable t = true).
Proof.
  intros Ht. destruct (tk_offset _ _ Ht) as [Ho1 Ho2]. pose proof (tk_small _ _ Ht) as Hsm. unfold next_frame, has_sendable.
  set (e := N.min (len (tx_buffered t)) (tx_credit t)). destruct (N.leb_spec e (tx_send_offset t)) as [Hle|Hlt].
  - rewrite (proj2 (N.ltb_ge _ _)) by done. cbn [orb].
    destruct (tx_finished t && negb (tx_fin_framed t) && (tx_send_offset t =? len (tx_buffered t)) && (tx_send_offset t <=? tx_credit t)) eqn:Ec; cbn [option_list].
    + apply andb_true_iff in Ec as [Ec Ecr]. apply andb_true_iff in Ec as [Ec Eo%N.eqb_eq]. apply andb_true_iff in Ec as [Ef En].
      split_and!; try done; [|intros g [= <-]; cbn; unfold len; cbn; lia]. destruct Ht. split; cbn [tx_buffered tx_send_offset tx_credit tx_finished tx_fin_framed]; try done.
      * apply Forall_app. split; [done|]. constructor; [|done]. cbn. rewrite len_nil, N.add_0_r. split_and!; [by rewrite slice_empty by lia|done|done].
      * apply Forall_app. split; [done|]. constructor; [|done]. cbn. rewrite len_nil. lia.
      * rewrite map_app, concat_app, tk_data0. cbn. by rewrite app_nil_r.
      * intros o Hlt. destruct (tk_cover0 o Hlt) as (f&Hf&Hc). exists f. split; [apply elem_of_app; by left|done].
      * intros _. split; [done|]. eexists. split; [apply elem_of_app; right; by left|done].
    + rewrite app_nil_r. split_and!; try done.
  - rewrite (proj2 (N.ltb_lt _ _)) by done. cbn [orb option_list]. unfold sat_sub.
    assert (N.min (tx_send_offset t) (len (tx_buffered t)) = tx_send_offset t) as -> by lia. set (w := N.min (e - tx_send_offset t) cap).
    rewrite (sat_add_small (tx_send_offset t) w) by lia. rewrite (N.min_l (tx_send_offset t + w)) by lia.
    rewrite get_range_some by lia. replace (tx_send_offset t + w - tx_send_offset t) with w by lia. rewrite (sat_add_small (tx_send_offset t) w) by lia.
    set (d := slice (tx_buffered t) _ _). assert (len d = w) as El by (unfold d; rewrite len_slice; lia).
    set (fin := tx_finished t && (tx_send_offset t + w =? len (tx_buffered t))).
    assert (fin = true → tx_finished t = true ∧ tx_send_offset t + w = len (tx_buffered t)) as Hfin by (unfold fin; intros [H1 H2%N.eqb_eq]%andb_true_iff; done).
    split_and!; try done; [|intros g [= <-]; cbn; lia]. destruct Ht. split; cbn [tx_buffered tx_send_offset tx_credit tx_finished tx_fin_framed]; try done.
    + lia.
    + apply Forall_app. split; [done|]. constructor; [|done]. cbn. rewrite El. split_and!; [done|lia|done].
    + apply Forall_app. split; [done|]. constructor; [|done]. cbn. rewrite El. lia.
    + rewrite map_app, concat_app, tk_data0. cbn. rewrite app_nil_r, <- !slice_0. unfold d. apply slice_app; lia.
    + intros o Hlo. destruct (N.lt_ge_cases o (tx_send_offset t)) as [H|H].
      * destruct (tk_cover0 o H) as (f&Hf&Hc). exists f. split; [apply elem_of_app; by left|done].
      * eexists. split; [apply elem_of_app; right; by left|]. cbn. lia.
    + destruct fin eqn:Efin.
      * intros _. destruct Hfin as [_ ->]; [done|]. split; [done|]. eexists. split; [apply elem_of_app; right; by left|done].
      * intros Hff. destruct (tk_fin0 Hff) as [Heq (f&Hf&Hff2)]. lia.
    + intros (f&Hf&Hff). apply elem_of_app in Hf as [Hf|Hf]; [apply tk_open0; eauto|]. apply list_elem_of_singleton in Hf as ->. cbn in Hff. by apply Hfin.
Qed.
Lemma grant_tx_ok t fs max : tx_ok t fs → tx_ok (grant_credit t max) fs.
Proof.
  intros []. split; cbn [grant_credit tx_buffered tx_send_offset tx_credit tx_finished tx_fin_framed]; try done; [lia|]. eapply Forall_impl; [exact tk_credit0|]. cbn. lia.
Qed.
Lemma finish_tx_ok t fs : tx_ok t fs → tx_ok (tx_finish t) fs.
Proof.
  intros []. split; cbn [tx_finish tx_buffered tx_send_offset tx_credit tx_finished tx_fin_framed]; try done. eapply Forall_impl; [exact tk_frames0|].
  intros [] Hf; try done. cbn in *. destruct Hf as (H1&H2&H3). split_and!; [done..|]. intros E. by destruct (H3 E).
Qed.
Lemma send_ops_prefix ops : ∀ t, tx_buffered t `prefix_of` tx_buffered (send_ops t ops).1.
Proof.
  induction ops as [|op ops IH]; intros t; cbn [send_ops]; [done|]. destruct (send_op t op) as [t1 f] eqn:E. specialize (IH t1). destruct (send_ops t1 ops) as [t2 fs]. cbn [fst] in *.
  etransitivity; [|exact IH]. destruct op; cbn [send_op] in E; try (injection E as <- _; cbn; (done || by apply prefix_app_r)).
  unfold next_frame in E. repeat case_match; by injection E as <- _.
Qed.
Lemma prefix_len {A} (l k : list A) : l `prefix_of` k → len l ≤ len k.
Proof. intros Hp%prefix_length. unfold len. lia. Qed.
Lemma send_ops_ok ops : ∀ t fs,
  tx_ok t fs → writes_end (tx_finished t) ops → len (tx_buffered (send_ops t ops).1) ≤ u64_max →
  tx_ok (send_ops t ops).1 (fs ++ (send_ops t ops).2).
Proof.
  induction ops as [|op ops IH]; intros t fs Ht Hw Hs; cbn [send_ops] in *; [by rewrite app_nil_r|].
  destruct (send_op t op) as [t1 f] eqn:E. pose proof (send_ops_prefix ops t1) as Hp. specialize (IH t1 (fs ++ option_list f)). destruct (send_ops t1 ops) as [t2 fs2].
  cbn [fst snd] in *. apply prefix_len in Hp. rewrite app_assoc. apply IH; [| |done].
  - destruct op; cbn [send_op] in E; [injection E as <- <-|injection E as <- <-|injection E as <- <-|]; cbn [option_list]; rewrite ?app_nil_r.
    + apply write_tx_ok; [done|apply Hw|]. cbn in Hp. lia.
    + by apply grant_tx_ok.
    + by apply finish_tx_ok.
    + pose proof (next_frame_ok t fs stream_id cap Ht) as Hn. rewrite E in Hn. apply Hn.
  - destruct op; cbn [send_op writes_end] in E, Hw; [injection E as <- <-|injection E as <- <-|injection E as <- <-|]; [apply Hw|done|done|].
    pose proof (next_frame_ok t fs stream_id cap Ht) as Hn. rewrite E in Hn. destruct Hn as (_&_&_&->&_). done.
Qed.
Lemma sender_new_ok : tx_ok sender_new [].
Proof. split; cbn; try done; try (unfold len; cbn; lia). by intros (f&Hf%elem_of_nil&_). Qed.

(** ** The receiver *)
Inductive RecvEvent := RDeliver (f : Frame) | RRead | RGrant (max : N).
Record Receiver := mkReceiver { rv_rx : StreamAssembler; rv_out : bytes; rv_accepted : list Frame }.
Definition recv_event (r : Receiver) (e : RecvEvent) : Receiver :=
  match e with
  | RDeliver (FStream id offset fin data) =>
      match offer (rv_rx r) offset data fin with
      | (a, Ok _) => mkReceiver a (rv_out r) (FStream id offset fin data :: rv_accepted r)
      | (a, Err _) => mkReceiver a (rv_out r) (rv_accepted r)
      end
  | RDeliver _ => r
  | RRead => let '(a, out) := rx_read (rv_rx r) in mkReceiver a (rv_out r ++ out) (rv_accepted r)
  | RGrant max => mkReceiver (grant_window (rv_rx r) max) (rv_out r) (rv_accepted r)
  end.
Definition recv_events (r : Receiver) (es : list RecvEvent) : Receiver := foldl recv_event r es.
Definition receiver_new (window : N) : Receiver := mkReceiver (assembler_new window) [] [].

(** What a receiver holds of a stream. *)
Record rv_ok (content : bytes) (r : Receiver) : Prop := {
  vk_rx : rx_ok (rv_rx r);
  vk_agrees : agrees_with content (rx_buffered (rv_rx r));
  vk_read : rx_read_offset (rv_rx r) ≤ len content;
  vk_out : rv_out r = takeN (rx_read_offset (rv_rx r)) content;
  vk_covered : ∀ f o, f ∈ rv_accepted r → covers f o → o < rx_read_offset (rv_rx r) ∨ in_buffer (rx_buffered (rv_rx r)) o;
  vk_fin : ∀ f, rx_fin (rv_rx r) = Some f → f = len content;
  vk_marked : (∃ f, f ∈ rv_accepted r ∧ frame_fin f = true) → rx_fin (rv_rx r) = Some (len content)
}.
Definition event_of (content : bytes) (ended : bool) (e : RecvEvent) : Prop :=
  match e with RDeliver f => frame_of content ended f | RRead => True | RGrant max => max ≤ u64_max end.
(** A frame of the stream within the window is taken. *)
Lemma offer_in_window content ended r id offset fin data :
  rv_ok content r → frame_of content ended (FStream id offset fin data) → offset + len data ≤ rx_window (rv_rx r) →
  ∃ a, offer (rv_rx r) offset data fin = (a, Ok tt) ∧ rx_read_offset a = rx_read_offset (rv_rx r).
Proof.
  intros Hr (F1&F2&F3) Hw. pose proof (offer_ok (rv_rx r) offset data fin (vk_rx _ _ Hr)) as Ho. destruct (offer (rv_rx r) offset data fin) as [a [[]|e]] eqn:Eo.
  { exists a. split; [done|]. by destruct Ho as (_&_&[= O3 _]&_). }
  exfalso. revert Eo. unfold offer. pose proof (rk_u64 _ (vk_rx _ _ Hr)).
    rewrite (proj2 (checked_add_some offset (len data) (offset + len data))) by lia. rewrite (proj2 (N.ltb_ge _ _)) by done.
    destruct fin; [|repeat case_match; congruence]. destruct (rx_fin (rv_rx r)) as [was|] eqn:Ew; [|repeat case_match; congruence].
    rewrite (vk_fin _ _ Hr was Ew). destruct F3 as [_ E3]; [done|]. rewrite E3, N.eqb_refl. cbn [negb]. repeat case_match; congruence.
Qed.
Lemma deliver_ok content ended r f :
  rv_ok content r → frame_of content ended f → let r' := recv_event r (RDeliver f) in
  rv_ok content r' ∧ rx_window (rv_rx r') = rx_window (rv_rx r) ∧ (frame_end f ≤ rx_window (rv_rx r) → f ∈ rv_accepted r').
Proof.
  intros Hr Hf. destruct f as [id offset fin data| | | | | | | | | |]; try done. cbn zeta. cbn [recv_event frame_end]. cbn [frame_of] in Hf. destruct Hf as (F1&F2&F3).
  pose proof (offer_ok (rv_rx r) offset data fin (vk_rx _ _ Hr)) as Ho. destruct (offer (rv_rx r) offset data fin) as [a [[]|e]] eqn:Eo.
  - destruct Ho as (O1&O2&[= O3 O4]&O5&O6&O7&O8). split; [|split; [done|intros _; by left]]. destruct Hr. split; cbn [rv_rx rv_out rv_accepted]; rewrite ?O3; try done.
    + by eapply agrees_added.
    + intros f o [->|Hin]%elem_of_cons Hc; [|destruct (vk_covered0 f o Hin Hc); [by left|right; apply O7; by left]].
      cbn in Hc. destruct (N.lt_ge_cases o (rx_read_offset (rv_rx r))); [by left|right]. apply O7. right. lia.
    + rewrite O5. destruct fin; [|done]. intros f [= <-]. by apply F3.
    + intros (f&[->|Hin]%elem_of_cons&Hfin); rewrite O5.
      * cbn in Hfin. rewrite Hfin. f_equal. by apply F3.
      * destruct fin; [f_equal; by apply F3|]. apply vk_marked0. eauto.
  - subst a. split; [by destruct Hr|]. split; [done|]. intros Hw. destruct (offer_in_window content ended r id offset fin data Hr (conj F1 (conj F2 F3)) Hw) as (a&E&_). congruence.
Qed.
Lemma read_rv_ok content r :
  rv_ok content r → let r' := recv_event r RRead in rv_ok content r' ∧ rx_window (rv_rx r') = rx_window (rv_rx r)
  ∧ ¬ in_buffer (rx_buffered (rv_rx r')) (rx_read_offset (rv_rx r')).
Proof.
  intros Hr. cbn zeta. cbn [recv_event]. pose proof (read_ok content (rv_rx r) (vk_rx _ _ Hr) (vk_agrees _ _ Hr)) as Ho. destruct (rx_read (rv_rx r)) as [a out].
  destruct Ho as (O1&O2&O3&O4&O5&[= O6 O7]&O8&O9&O10). cbn [rv_rx]. split; [|done]. pose proof (vk_read _ _ Hr). split; cbn [rv_rx rv_out rv_accepted]; rewrite ?O6; try done; try apply Hr.
  - destruct (N.eq_dec (rx_read_offset a) (rx_read_offset (rv_rx r))) as [->|]; [done|]. apply O5. lia.
  - rewrite (vk_out _ _ Hr), O3, <- !slice_0. apply slice_app; lia.
  - intros f o Hf Hc. destruct (N.lt_ge_cases o (rx_read_offset a)); [by left|right]. destruct (vk_covered _ _ Hr f o Hf Hc); [lia|]. by apply O10.
Qed.
Lemma recv_events_ok content ended es : ∀ r, rv_ok content r → Forall (event_of content ended) es → rv_ok content (recv_events r es).
Proof.
  induction es as [|e es IH]; intros r Hr Hes; [done|]. apply Forall_cons in Hes as [He Hes]. apply IH; [|done]. destruct e as [f| |max].
  - by eapply deliver_ok.
  - by apply read_rv_ok.
  - destruct Hr. split; try done. cbn in *. destruct vk_rx0 as [Q1 Q2 Q3 Q4 Q5]. split; try done; cbn; [|lia|lia]. intros s d Hs. pose proof (Q3 s d Hs). lia.
Qed.
Lemma receiver_new_ok content window : window ≤ u64_max → rv_ok content (receiver_new window).
Proof.
  intros Hw. split; cbn [receiver_new rv_rx rv_out rv_accepted assembler_new rx_read_offset rx_buffered rx_fin]; try done; [|lia|by intros f o ?%elem_of_nil|by intros (f&?%elem_of_nil&_)].
  split; cbn; try done. lia.
Qed.

(** ** The claims *)
Lemma recv_accepted es f : ∀ r, f ∈ rv_accepted r → f ∈ rv_accepted (recv_events r es).
Proof.
  induction es as [|e es IH]; intros r Hf; [done|]. apply IH. destruct e as [[]| |]; try done; cbn [recv_event].
  - destruct (offer _ _ _ _) as [a []]; [by right|done].
  - by destruct (rx_read _).
Qed.
Lemma all_accepted content ended es : ∀ r,
  rv_ok content r → Forall (event_of content ended) es → len content ≤ rx_window (rv_rx r) → ∀ f, RDeliver f ∈ es → f ∈ rv_accepted (recv_events r es).
Proof.
  induction es as [|e es IH]; intros r Hr Hes Hw f Hf; [by apply elem_of_nil in Hf|]. apply Forall_cons in Hes as [He Hes].
  assert (rv_ok content (recv_event r e)) as Hr1 by (apply (recv_events_ok content ended [e]); [done|by constructor]).
  assert (len content ≤ rx_window (rv_rx (recv_event r e))) as Hw1.
  { destruct e as [g| |max]; [by destruct (deliver_ok content ended r g Hr He) as (_&->&_)|by destruct (read_rv_ok content r Hr) as (_&->&_)|cbn; lia]. }
  apply elem_of_cons in Hf as [<-|Hf]; [|by apply IH]. apply (recv_accepted es f). destruct (deliver_ok content ended r f Hr He) as (_&_&Ha). apply Ha.
  destruct f; try done. cbn in *. lia.
Qed.

(** C18. A stream over a network that loses, repeats and reorders its frames: what the reader gets is always a prefix of what was
    written; once every frame was accepted, a read gives at least all that was framed, and the whole stream, complete, when its
    end was framed; and a receiver whose window holds the stream accepts every frame that reaches it. *)
Theorem stream_delivers (ops : list SendOp) (es : list RecvEvent) (window : N) :
  let '(t, fs) := send_ops sender_new ops in let r := recv_events (receiver_new window) es in let r' := recv_event r RRead in
  writes_end false ops → len (tx_buffered t) ≤ u64_max → window ≤ u64_max →
  (∀ f, RDeliver f ∈ es → f ∈ fs) → (∀ max, RGrant max ∈ es → max ≤ u64_max) →
  rv_out r `prefix_of` tx_buffered t
  ∧ ((∀ f, f ∈ fs → f ∈ rv_accepted r) →
     takeN (tx_send_offset t) (tx_buffered t) `prefix_of` rv_out r' ∧ (is_drained t = true → rv_out r' = tx_buffered t ∧ rx_is_complete (rv_rx r') = true))
  ∧ (len (tx_buffered t) ≤ window → ∀ f, RDeliver f ∈ es → f ∈ rv_accepted r).
Proof.
  destruct (send_ops sender_new ops) as [t fs] eqn:Es. cbn zeta. intros Hw Hs Hwin Hnet Hgr.
  pose proof (send_ops_ok ops sender_new [] sender_new_ok Hw) as Ht. rewrite Es in Ht. specialize (Ht Hs). cbn [fst snd app] in Ht.
  assert (Forall (event_of (tx_buffered t) (tx_finished t)) es) as Hes.
  { apply Forall_forall. intros [f| |max] He; [|done|by apply Hgr]. apply (proj1 (Forall_forall _ _) (tk_frames _ _ Ht)). by apply Hnet. }
  pose proof (recv_events_ok _ _ es _ (receiver_new_ok (tx_buffered t) window Hwin) Hes) as Hr. set (r := recv_events (receiver_new window) es) in *.
  destruct (read_rv_ok _ r Hr) as (Hr'&_&Hstop). set (r' := recv_event r RRead) in *.
  assert (rv_accepted r' = rv_accepted r) as Eacc by (unfold r'; cbn [recv_event]; by destruct (rx_read (rv_rx r))).
  assert (∀ n : N, takeN n (tx_buffered t) `prefix_of` tx_buffered t) as Hpre by (intros n; unfold takeN; apply prefix_take).
  split_and!.
  - rewrite (vk_out _ _ Hr). apply Hpre.
  - intros Hall. assert (tx_send_offset t ≤ rx_read_offset (rv_rx r')) as Hle.
    { destruct (N.le_gt_cases (tx_send_offset t) (rx_read_offset (rv_rx r'))) as [|Hlt]; [done|]. destruct (tk_cover _ _ Ht _ Hlt) as (f&Hf&Hc).
      destruct (vk_covered _ _ Hr' f _ ltac:(rewrite Eacc; by apply Hall) Hc); [lia|done]. }
    rewrite (vk_out _ _ Hr'). split.
    + replace (tx_send_offset t) with (N.min (tx_send_offset t) (rx_read_offset (rv_rx r'))) by lia. rewrite <- takeN_takeN. unfold takeN. apply prefix_take.
    + intros Hd. destruct (tk_fin _ _ Ht Hd) as [Hend (f&Hf&Hff)]. pose proof (vk_read _ _ Hr').
      assert (rx_read_offset (rv_rx r') = len (tx_buffered t)) as E by lia. split; [by rewrite takeN_ge by lia|].
      unfold rx_is_complete. apply bool_decide_eq_true. rewrite E. apply (vk_marked _ _ Hr'). exists f. split; [rewrite Eacc; by apply Hall|done].
  - intros Hbig. apply (all_accepted (tx_buffered t) (tx_finished t)); [by apply receiver_new_ok|done|done].
Qed.

Definition demo_content : bytes := map byte_of [104; 101; 108; 108; 111].
Definition demo_send : list SendOp := [SWrite demo_content; SGrant 5; SFinish; SNext 4 2; SNext 4 2; SNext 4 2].
Definition demo_frame (i : nat) : Frame := nth i (send_ops sender_new demo_send).2 FPing.
Definition demo_recv : list RecvEvent := [RDeliver (demo_frame 2); RDeliver (demo_frame 0); RRead; RDeliver (demo_frame 0); RDeliver (demo_frame 1)].
(** Three frames out of order, one of them twice, give the five bytes. *)
Lemma stream_delivers_witness :
  let r' := recv_event (recv_events (receiver_new 5) demo_recv) RRead in rv_out r' = demo_content ∧ rx_is_complete (rv_rx r') = true.
Proof.
  assert (∀ f, RDeliver f ∈ demo_recv ↔ f ∈ (send_ops sender_new demo_send).2) as Hin.
  { intros f. assert ((send_ops sender_new demo_send).2 = [demo_frame 0; demo_frame 1; demo_frame 2]) as -> by (by vm_compute). unfold demo_recv.
    generalize (demo_frame 0) (demo_frame 1) (demo_frame 2). intros a b c. rewrite !elem_of_cons, !elem_of_nil. split; [intros [[= ->]|[[= ->]|[[=]|[[= ->]|[[= ->]|[]]]]]]; auto|]. intros [->|[->|[->|[]]]]; auto 6. }
  assert (∀ max, RGrant max ∉ demo_recv) as Hg by (intros max; unfold demo_recv; rewrite !elem_of_cons, elem_of_nil; by intros [[=]|[[=]|[[=]|[[=]|[[=]|[]]]]]]).
  pose proof (stream_delivers demo_send demo_recv 5) as H. destruct (send_ops sender_new demo_send) as [t fs] eqn:E. cbn [snd] in Hin.
  assert (tx_buffered t = demo_content ∧ is_drained t = true) as [Eb Ed] by (vm_compute in E; by injection E as <- _). rewrite Eb in H.
  destruct H as (_&H&Hacc); [done..|intros f; by apply Hin|by intros max ?%Hg|]. destruct H as [_ H]; [intros f Hf; apply Hacc; [done|by apply Hin]|by apply H].
Defined.

(** Frames pulled until there is none. *)
Fixpoint pull (n : nat) (t : StreamSender) (stream_id cap : N) : StreamSender * list Frame :=
  match n with
  | O => (t, [])
  | S n => match next_frame t stream_id cap with
           | (t, Some f) => let '(t, fs) := pull n t stream_id cap in (t, f :: fs)
           | (t, None) => (t, [])
           end
  end.
Lemma pull_ok n : ∀ t fs stream_id cap,
  tx_ok t fs → tx_finished t = true → len (tx_buffered t) ≤ tx_credit t → 0 < cap →
  len (tx_buffered t) - tx_send_offset t + (if tx_fin_framed t then 0 else 1) ≤ N.of_nat n → let '(t', fs') := pull n t stream_id cap in
  tx_ok t' (fs ++ fs') ∧ tx_buffered t' = tx_buffered t ∧ tx_send_offset t' = len (tx_buffered t) ∧ is_drained t' = true.
Proof.
  induction n as [|n IH]; intros t fs stream_id cap Ht Hf Hcr Hcap Hn; cbn [pull].
  - destruct (tx_fin_framed t) eqn:Eff; [|lia]. rewrite app_nil_r. split_and!; [done..| |done]. by apply (tk_fin _ _ Ht).
  - pose proof (next_frame_ok t fs stream_id cap Ht) as Hnf. destruct (tk_offset _ _ Ht) as [Ho1 Ho2]. unfold next_frame in *.
    rewrite (N.min_l (len (tx_buffered t))) in * by done. destruct (N.leb_spec (len (tx_buffered t)) (tx_send_offset t)) as [Hle|Hlt].
    + assert (tx_send_offset t = len (tx_buffered t)) as Eo by lia. rewrite Hf, Eo, N.eqb_refl, (proj2 (N.leb_le _ _)) in * by done. rewrite !andb_true_r in *. cbn [andb] in *.
      destruct (tx_fin_framed t) eqn:Eff; cbn [negb] in *.
      * rewrite app_nil_r. split_and!; try done.
      * destruct Hnf as (N1&_). set (t1 := mkSender _ _ _ _ _ _) in *. specialize (IH t1 (fs ++ [FStream stream_id (len (tx_buffered t)) true []]) stream_id cap N1 eq_refl Hcr Hcap).
        destruct (pull n t1 stream_id cap) as [t' fs']. rewrite <- app_assoc in IH. apply IH. cbn. lia.
    + destruct Hnf as (N1&_&_&_&_&_). set (t1 := mkSender _ _ _ _ _ _) in *. set (f := FStream _ _ _ _) in *.
      assert (tx_send_offset t < tx_send_offset t1) as Hadv.
      { unfold t1. cbn [tx_send_offset]. pose proof (tk_small _ _ Ht). unfold sat_sub, sat_add. lia. }
      specialize (IH t1 (fs ++ [f]) stream_id cap N1 Hf Hcr Hcap). destruct (pull n t1 stream_id cap) as [t' fs']. rewrite <- app_assoc in IH. apply IH.
      change (tx_buffered t1) with (tx_buffered t). destruct (tk_offset _ _ N1) as [Ho3 _]. change (tx_buffered t1) with (tx_buffered t) in Ho3.
      destruct (tx_fin_framed t) eqn:Eff; [destruct (tk_fin _ _ Ht Eff); lia|]. destruct (tx_fin_framed t1); lia.
Qed.

(** C22. A finished stream whose credit covers it is framed in full within as many turns as it has bytes and one more: pulling
    frames of any positive size ends with the end of the stream framed and nothing left to send, the frames' bytes in order are
    the bytes written, and no frame reaches past the credit. *)
Theorem sender_frames_all (ops : list SendOp) (stream_id cap : N) :
  let '(t, fs) := send_ops sender_new ops in let '(t', fs') := pull (S (length (tx_buffered t))) t stream_id cap in
  writes_end false ops → len (tx_buffered t) ≤ u64_max → tx_finished t = true → len (tx_buffered t) ≤ tx_credit t → 0 < cap →
  is_drained t' = true ∧ next_frame t' stream_id cap = (t', None) ∧ has_sendable t' = false
  ∧ concat (map frame_data (fs ++ fs')) = tx_buffered t ∧ Forall (λ f, frame_end f ≤ tx_credit t') (fs ++ fs').
Proof.
  destruct (send_ops sender_new ops) as [t fs] eqn:Es. destruct (pull _ t stream_id cap) as [t' fs'] eqn:Ep. intros Hw Hs Hf Hcr Hcap.
  pose proof (send_ops_ok ops sender_new [] sender_new_ok Hw) as Ht. rewrite Es in Ht. specialize (Ht Hs). cbn [fst snd app] in Ht.
  pose proof (pull_ok (S (length (tx_buffered t))) t fs stream_id cap Ht Hf Hcr Hcap) as H. rewrite Ep in H.
  destruct H as (P1&P2&P3&P4); [destruct (tx_fin_framed t); unfold len; lia|].
  assert (has_sendable t' = false) as Hns.
  { unfold has_sendable, is_drained in *. rewrite P4, andb_false_r, P3, P2. cbn [andb negb]. rewrite orb_false_r. apply N.ltb_ge. lia. }
  split_and!; [done| |done|by rewrite (tk_data _ _ P1), P3, P2, takeN_ge by done|apply P1].
  pose proof (next_frame_ok t' _ stream_id cap P1) as Hn. unfold next_frame in *. destruct (_ <=? _).
  - unfold is_drained in P4. rewrite P4. cbn [negb]. by rewrite andb_false_r.
  - destruct Hn as (_&_&_&_&_&[Hn _]). rewrite Hns in Hn. discriminate Hn. eauto.
Qed.
Lemma sender_frames_all_witness :
  let '(t', fs') := pull 6 (tx_finish (grant_credit (tx_write sender_new demo_content) 9)) 4 3 in
  is_drained t' = true ∧ concat (map frame_data fs') = demo_content.
Proof.
  pose proof (sender_frames_all [SWrite demo_content; SGrant 9; SFinish] 4 3) as H. cbn [send_ops send_op option_list app length tx_buffered tx_finish grant_credit tx_write sender_new] in *.
  change (S (length (demo_content))) with 6%nat in H. destruct (pull _ _ 4 3) as [t' fs']. destruct H as (H1&_&_&H2&_); [done..|]. split; [exact H1|exact H2].
Defined.
