(* ===== verification/StreamSpace.v ===== *)
(** * The stream-id space

    Models [crates/transport/src/streams.rs]: stream ids and their fields, the
    streams each end has open, and the credit that bounds how many of the peer's
    an end holds.  Then what an end promises whatever its peer does, and what
    two ends promise each other. *)

From S2P Require Import Prelude.
#[local] Open Scope N_scope.

(** ** Ids *)
Inductive Priority := Control | Metadata | Bulk.
Inductive Role := Client | Server.
#[export] Instance Priority_eq_dec : EqDecision Priority.
Proof. solve_decision. Defined.
#[export] Instance initiator_role_dec : EqDecision Role.
Proof. solve_decision. Defined.
Definition classes_above (p : Priority) : N := match p with Control => 0 | Metadata => 1 | Bulk => 2 end.
Definition priority_val (p : Priority) : N := match p with Control => 0 | Metadata => 1 | Bulk => 2 end.
Definition role_val (r : Role) : N := match r with Client => 0 | Server => 1 end.

Definition KIND_BITS : N := 8.
Definition CLASS_BITS : N := 2.
Definition INITIATOR_SHIFT : N := KIND_BITS + CLASS_BITS.
Definition SEQUENCE_SHIFT : N := INITIATOR_SHIFT + 1.
Definition MAX_SEQUENCE : N := N.shiftr u64_max SEQUENCE_SHIFT.
Definition KIND_MASK : N := N.shiftl 1 KIND_BITS - 1.
Definition CLASS_MASK : N := N.shiftl 1 CLASS_BITS - 1.

(** [compose], [kind], [priority], [initiator], [sequence]. *)
Definition compose (kind : N) (priority : Priority) (initiator : Role) (sequence : N) : N :=
  N.lor (N.lor (N.lor (N.land (N.shiftl sequence SEQUENCE_SHIFT) u64_max) (N.shiftl (role_val initiator) INITIATOR_SHIFT))
    (N.shiftl (priority_val priority) KIND_BITS)) (N.land kind KIND_MASK).
Definition kind_of (stream_id : N) : N := N.land stream_id KIND_MASK.
Definition priority_of (stream_id : N) : Priority :=
  match N.land (N.shiftr stream_id KIND_BITS) CLASS_MASK with 0 => Control | 1 => Metadata | _ => Bulk end.
Definition initiator_of (stream_id : N) : Role := if N.land (N.shiftr stream_id INITIATOR_SHIFT) 1 =? 0 then Client else Server.
Definition sequence_of (stream_id : N) : N := N.shiftr stream_id SEQUENCE_SHIFT.

(** ** The space *)
Inductive StreamRefusal :=
| Backlogged (waiting limit : N) | SequencesExhausted | NotAPeerStream (stream_id : N) | AlreadyReplied (stream_id : N).
Inductive Arrival := AOpen | AClosed | AViolation.
Inductive ReplyAdmission := Send | Moot.
#[export] Instance Arrival_eq_dec : EqDecision Arrival.
Proof. solve_decision. Defined.
Record Halves := mkHalves { hv_id : N; receive_done : bool; send_started : bool; send_done : bool }.
Record StreamSpace := mkSpace {
  sp_role : Role; sp_limit : N; local_next : N; local_open : gmap N Halves; wanting : bool; peer_credit : N; peer_next : N;
  peer_open : gmap N Halves; peer_awaited : gset N; peer_closed : N }.

(** [StreamSpace::new]. *)
Definition space_new (role : Role) (limit : N) : StreamSpace :=
  let limit := N.max limit 1 in mkSpace role limit 0 ∅ false limit 0 ∅ ∅ 0.

Section updates.
Implicit Types (s : StreamSpace).
Definition with_local s (next : N) (open : gmap N Halves) : StreamSpace :=
  mkSpace (sp_role s) (sp_limit s) next open (wanting s) (peer_credit s) (peer_next s) (peer_open s) (peer_awaited s) (peer_closed s).
Definition with_peer s (next : N) (open : gmap N Halves) (awaited : gset N) (closed : N) : StreamSpace :=
  mkSpace (sp_role s) (sp_limit s) (local_next s) (local_open s) (wanting s) (peer_credit s) next open awaited closed.

(** [StreamSpace::admits], [StreamSpace::sendable], [StreamSpace::credit], [StreamSpace::waiting_limit]. *)
Definition admits s (p : Priority) : bool :=
  let above := classes_above p in
  if above =? 0 then sat_sub (local_next s) (peer_credit s) <? sp_limit s else sat_add (local_next s) above <? peer_credit s.
Definition sendable s (stream_id : N) : bool :=
  negb (bool_decide (initiator_of stream_id = sp_role s)) || (sequence_of stream_id <? peer_credit s).
Definition credit s : N := sat_add (peer_closed s) (sp_limit s).
Definition waiting_limit s : option N := if (peer_credit s <? local_next s) || wanting s then Some (peer_credit s) else None.

(** [StreamSpace::open_local]. *)
Definition open_local s (kind : N) (p : Priority) : StreamSpace * result StreamRefusal N :=
  let waiting := sat_sub (local_next s) (peer_credit s) in
  if sp_limit s <=? waiting then (s, Err (Backlogged waiting (sp_limit s))) else
  if MAX_SEQUENCE <? local_next s then (s, Err SequencesExhausted) else
  let sequence := local_next s in
  let stream_id := compose kind p (sp_role s) sequence in
  (with_local s (sat_add sequence 1) (<[sequence := mkHalves stream_id false true false]> (local_open s)), Ok stream_id).

(** [StreamSpace::open_state], [arrive_local], [open_peer], [arrive_peer], [arrive]. *)
Definition open_state (h : Halves) (stream_id : N) : Arrival :=
  if negb (hv_id h =? stream_id) then AViolation else if receive_done h then AClosed else AOpen.
Definition arrive_local s (stream_id : N) : Arrival :=
  let sequence := sequence_of stream_id in
  match local_open s !! sequence with
  | Some h => open_state h stream_id
  | None => if sequence <? local_next s then AClosed else AViolation
  end.
Definition fresh_peer (stream_id : N) : Halves := mkHalves stream_id false false false.
(** The sequences [a..b]. *)
Definition seq_span (a b : N) : gset N := list_to_set (map (λ k, a + N.of_nat k) (seq 0 (N.to_nat (b - a)))).
Definition arrive_peer s (stream_id : N) : StreamSpace * Arrival :=
  let sequence := sequence_of stream_id in
  match peer_open s !! sequence with
  | Some h => (s, open_state h stream_id)
  | None =>
      if sequence <? peer_next s then
        if has_elem (peer_awaited s) sequence
        then (with_peer s (peer_next s) (<[sequence := fresh_peer stream_id]> (peer_open s)) (peer_awaited s ∖ {[sequence]}) (peer_closed s), AOpen)
        else (s, AClosed)
      else if credit s <=? sequence then (s, AViolation)
      else (with_peer s (sat_add sequence 1) (<[sequence := fresh_peer stream_id]> (peer_open s)) (peer_awaited s ∪ seq_span (peer_next s) sequence) (peer_closed s), AOpen)
  end.
Definition arrive s (stream_id : N) : StreamSpace * Arrival :=
  if bool_decide (initiator_of stream_id = sp_role s) then (s, arrive_local s stream_id) else arrive_peer s stream_id.

(** [StreamSpace::begin_reply]. *)
Definition begin_reply s (stream_id : N) : StreamSpace * result StreamRefusal ReplyAdmission :=
  let sequence := sequence_of stream_id in
  if bool_decide (initiator_of stream_id = sp_role s) then (s, Err (NotAPeerStream stream_id)) else
  match peer_open s !! sequence with
  | Some h =>
      if negb (hv_id h =? stream_id) then (s, Err (NotAPeerStream stream_id))
      else if send_done h then (s, Ok Moot)
      else if send_started h then (s, Err (AlreadyReplied stream_id))
      else (with_peer s (peer_next s) (<[sequence := mkHalves (hv_id h) (receive_done h) true (send_done h)]> (peer_open s)) (peer_awaited s) (peer_closed s), Ok Send)
  | None => if (sequence <? peer_next s) && negb (has_elem (peer_awaited s) sequence) then (s, Ok Moot) else (s, Err (NotAPeerStream stream_id))
  end.

(** [StreamSpace::halves], [receiving], [send_open]. *)
Definition halves s (stream_id : N) : option Halves :=
  let open := if bool_decide (initiator_of stream_id = sp_role s) then local_open s else peer_open s in
  match open !! sequence_of stream_id with Some h => if hv_id h =? stream_id then Some h else None | None => None end.
Definition receiving s (stream_id : N) : bool := match halves s stream_id with Some h => negb (receive_done h) | None => false end.
Definition send_open s (stream_id : N) : bool := match halves s stream_id with Some h => negb (send_done h) | None => false end.

(** [StreamSpace::update], [close_receive], [close_send]. *)
Definition update_halves s (stream_id : N) (change : Halves → Halves) : StreamSpace :=
  let sequence := sequence_of stream_id in
  let local := bool_decide (initiator_of stream_id = sp_role s) in
  let open := if local then local_open s else peer_open s in
  match open !! sequence with
  | None => s
  | Some h =>
      if negb (hv_id h =? stream_id) then s else
      let h := change h in
      let done := receive_done h && send_done h in
      let open := if done then delete sequence open else <[sequence := h]> open in
      if local then with_local s (local_next s) open
      else with_peer s (peer_next s) open (peer_awaited s) (if done then sat_add (peer_closed s) 1 else peer_closed s)
  end.
Definition close_receive s (stream_id : N) : StreamSpace := update_halves s stream_id (λ h, mkHalves (hv_id h) true (send_started h) (send_done h)).
Definition close_send s (stream_id : N) : StreamSpace := update_halves s stream_id (λ h, mkHalves (hv_id h) (receive_done h) (send_started h) true).

(** [StreamSpace::set_wanting], [StreamSpace::on_max_streams]. *)
Definition set_wanting s (w : bool) : StreamSpace :=
  mkSpace (sp_role s) (sp_limit s) (local_next s) (local_open s) w (peer_credit s) (peer_next s) (peer_open s) (peer_awaited s) (peer_closed s).
Definition on_max_streams s (max : N) : StreamSpace * (N * N) :=
  let from := peer_credit s in
  let to := N.max (peer_credit s) max in
  (mkSpace (sp_role s) (sp_limit s) (local_next s) (local_open s) (wanting s) to (peer_next s) (peer_open s) (peer_awaited s) (peer_closed s), (from, to)).
(** [StreamSpace::census]. *)
Definition census s : N * N * N := (N.of_nat (size (local_open s)), N.of_nat (size (peer_open s)), N.of_nat (size (peer_awaited s))).
End updates.

(** ** Fields of an id *)
Lemma compose_word kind p r q : q ≤ MAX_SEQUENCE → compose kind p r q = q * 2 ^ 11 + (role_val r * 2 ^ 10 + (priority_val p * 2 ^ 8 + kind mod 2 ^ 8)).
Proof.
  intros Hq. change MAX_SEQUENCE with 9007199254740991 in Hq. unfold compose. change SEQUENCE_SHIFT with 11. change INITIATOR_SHIFT with 10. change KIND_BITS with 8.
  change KIND_MASK with (N.ones 8). rewrite N.land_ones. change u64_max with (N.ones 64). rewrite N.land_ones, N.mod_small by (rewrite N.shiftl_mul_pow2; lia).
  pose proof (N.mod_lt kind (2 ^ 8) ltac:(done)) as Hk. assert (priority_val p < 3) by (by destruct p). assert (role_val r < 2) by (by destruct r).
  rewrite <- !N.lor_assoc. rewrite (lor_shift_add (priority_val p)) by done. rewrite (lor_shift_add (role_val r)) by lia. apply lor_shift_add. lia.
Qed.
Lemma compose_fields kind p r q :
  q ≤ MAX_SEQUENCE → let id := compose kind p r q in
  id ≤ u64_max ∧ kind_of id = kind mod 2 ^ 8 ∧ priority_of id = p ∧ initiator_of id = r ∧ sequence_of id = q.
Proof.
  intros Hq. cbn zeta. rewrite (compose_word kind p r q Hq). change MAX_SEQUENCE with 9007199254740991 in Hq.
  pose proof (N.mod_lt kind (2 ^ 8) ltac:(done)) as Hk. set (k := kind mod 2 ^ 8) in *. clearbody k. assert (priority_val p < 3) as Hp by (by destruct p). assert (role_val r < 2) as Hr by (by destruct r).
  set (w := q * 2 ^ 11 + _). assert (∀ j a b, b < 2 ^ j → w = 2 ^ j * a + b → w / 2 ^ j = a ∧ w mod 2 ^ j = b) as Hdm.
  { intros j a b Hlt E. split; symmetry; [by apply (N.div_unique _ _ _ b)|by apply (N.mod_unique _ _ a)]. }
  destruct (Hdm 8 (q * 2 ^ 3 + (role_val r * 2 ^ 2 + priority_val p)) k Hk ltac:(unfold w; lia)) as [D8 M8].
  destruct (Hdm 10 (q * 2 + role_val r) (priority_val p * 2 ^ 8 + k) ltac:(lia) ltac:(unfold w; lia)) as [D10 _].
  destruct (Hdm 11 q (role_val r * 2 ^ 10 + (priority_val p * 2 ^ 8 + k)) ltac:(lia) ltac:(unfold w; lia)) as [D11 _].
  split_and!.
  - unfold w, u64_max. lia.
  - unfold kind_of. change KIND_MASK with (N.ones 8). by rewrite N.land_ones.
  - unfold priority_of. change KIND_BITS with 8. change CLASS_MASK with (N.ones 2). rewrite N.land_ones, N.shiftr_div_pow2, D8.
    assert ((q * 2 ^ 3 + (role_val r * 2 ^ 2 + priority_val p)) mod 2 ^ 2 = priority_val p) as -> by (symmetry; apply (N.mod_unique _ _ (q * 2 + role_val r)); lia). by destruct p.
  - unfold initiator_of. change INITIATOR_SHIFT with 10. change 1 with (N.ones 1) at 1. rewrite N.land_ones, N.shiftr_div_pow2, D10.
    assert ((q * 2 + role_val r) mod 2 ^ 1 = role_val r) as -> by (symmetry; apply (N.mod_unique _ _ q); lia). by destruct r.
  - unfold sequence_of. change SEQUENCE_SHIFT with 11. by rewrite N.shiftr_div_pow2.
Qed.

(** * What a stream space promises

    The invariant of [crates/transport/src/streams.rs]: every sequence of the
    peer's is open, awaited or closed, and at most a limit of them is not closed;
    what is closed stays closed; and two ends that exchange their credit never
    see each other break the rules. *)

#[local] Open Scope N_scope.

(** ** The invariant *)
Definition halves_of (role_ok : Role → Prop) (next q : N) (h : Halves) : Prop :=
  q < next ∧ sequence_of (hv_id h) = q ∧ role_ok (initiator_of (hv_id h)) ∧ receive_done h && send_done h = false.
Record space_ok (s : StreamSpace) : Prop := {
  pk_limit : 1 ≤ sp_limit s ∧ sp_limit s ≤ 2 ^ 62;
  pk_open : ∀ q h, peer_open s !! q = Some h → halves_of (λ r, r ≠ sp_role s) (peer_next s) q h;
  pk_awaited : ∀ q, q ∈ peer_awaited s → q < peer_next s ∧ peer_open s !! q = None;
  pk_count : peer_closed s + N.of_nat (size (peer_open s)) + N.of_nat (size (peer_awaited s)) = peer_next s;
  pk_credit : peer_next s ≤ peer_closed s + sp_limit s;
  pk_space : peer_next s ≤ MAX_SEQUENCE + 1;
  lk_open : ∀ q h, local_open s !! q = Some h → halves_of (λ r, r = sp_role s) (local_next s) q h;
  lk_space : local_next s ≤ MAX_SEQUENCE + 1;
  lk_wait : local_next s ≤ peer_credit s + sp_limit s
}.
Lemma sequence_le id : id ≤ u64_max → sequence_of id ≤ MAX_SEQUENCE.
Proof. intros Hid. unfold sequence_of, MAX_SEQUENCE. rewrite !N.shiftr_div_pow2. by apply N.Div0.div_le_mono. Qed.
Lemma max_sequence_val : MAX_SEQUENCE = 2 ^ 53 - 1.
Proof. done. Qed.
Lemma credit_eq s : space_ok s → credit s = peer_closed s + sp_limit s.
Proof.
  intros Hs. apply sat_add_small. pose proof (pk_count _ Hs). pose proof (pk_space _ Hs). pose proof (pk_limit _ Hs). rewrite max_sequence_val in *. unfold u64_max. lia.
Qed.
Lemma elem_of_span a b q : q ∈ seq_span a b ↔ a ≤ q ∧ q < b.
Proof.
  unfold seq_span. rewrite elem_of_list_to_set, list_elem_of_fmap. split.
  - intros (k&->&Hk%elem_of_seq). lia.
  - intros Hq. exists (N.to_nat (q - a)). split; [lia|]. apply elem_of_seq. lia.
Qed.
Lemma size_span a b : N.of_nat (size (seq_span a b)) = b - a.
Proof.
  unfold seq_span. rewrite size_list_to_set, length_map, length_seq; [lia|]. apply NoDup_fmap_2_strong; [intros; lia|apply NoDup_seq].
Qed.
Lemma space_new_ok role limit : limit ≤ 2 ^ 62 → space_ok (space_new role limit).
Proof.
  intros Hl. split; cbn [space_new sp_limit peer_open peer_next peer_awaited peer_closed local_open local_next peer_credit];
    try (intros * H; rewrite lookup_empty in H; done); try set_solver; rewrite ?map_size_empty, ?size_empty, ?max_sequence_val; lia.
Qed.

(** ** The operations *)
Inductive SpaceOp :=
| OOpen (kind : N) (p : Priority) | OArrive (id : N) | OReply (id : N) | OCloseReceive (id : N) | OCloseSend (id : N) | OMaxStreams (max : N) | OWanting (w : bool).
Definition space_op (s : StreamSpace) (o : SpaceOp) : StreamSpace :=
  match o with
  | OOpen kind p => (open_local s kind p).1
  | OArrive id => (arrive s id).1
  | OReply id => (begin_reply s id).1
  | OCloseReceive id => close_receive s id
  | OCloseSend id => close_send s id
  | OMaxStreams max => (on_max_streams s max).1
  | OWanting w => set_wanting s w
  end.
Definition op_fits (o : SpaceOp) : Prop := match o with OArrive id | OReply id | OCloseReceive id | OCloseSend id => id ≤ u64_max | _ => True end.

(** A sequence whose frames no longer open anything. *)
Definition final_in (open : gmap N Halves) (gone : Prop) (id : N) : Prop :=
  match open !! sequence_of id with Some h => hv_id h = id → receive_done h = true | None => gone end.
Definition final (s : StreamSpace) (id : N) : Prop :=
  if bool_decide (initiator_of id = sp_role s) then final_in (local_open s) (sequence_of id < local_next s) id
  else final_in (peer_open s) (sequence_of id < peer_next s ∧ sequence_of id ∉ peer_awaited s) id.

(** An operation keeps the invariant, its end's role and limit, lets no credit fall and opens nothing final. *)
Record space_keeps (s s' : StreamSpace) : Prop := {
  ke_ok : space_ok s';
  ke_same : (sp_role s', sp_limit s') = (sp_role s, sp_limit s);
  ke_credit : credit s ≤ credit s' ∧ peer_credit s ≤ peer_credit s';
  ke_next : local_next s ≤ local_next s';
  ke_final : ∀ id, final s id → final s' id
}.
Lemma keeps_refl s : space_ok s → space_keeps s s.
Proof. done. Qed.
Lemma keeps_trans s1 s2 s3 : space_keeps s1 s2 → space_keeps s2 s3 → space_keeps s1 s3.
Proof. intros [] []. split; [done|congruence|lia|lia|auto]. Qed.

Lemma open_local_ok s kind p :
  space_ok s → let '(s', r) := open_local s kind p in
  space_keeps s s' ∧ match r with
    | Ok id => sequence_of id = local_next s ∧ initiator_of id = sp_role s ∧ priority_of id = p ∧ kind_of id = kind mod 2 ^ 8 ∧ local_next s' = local_next s + 1
        ∧ local_next s < peer_credit s + sp_limit s
    | Err _ => s' = s
    end.
Proof.
  intros Hs. unfold open_local, sat_sub. destruct (N.leb_spec (sp_limit s) (local_next s - peer_credit s)) as [|Hw]; [split; [by apply keeps_refl|done]|].
  destruct (N.ltb_spec MAX_SEQUENCE (local_next s)) as [|Hm]; [split; [by apply keeps_refl|done]|].
  destruct (compose_fields kind p (sp_role s) (local_next s) Hm) as (F1&F2&F3&F4&F5). rewrite sat_add_small by (rewrite max_sequence_val in *; unfold u64_max; lia).
  pose proof (pk_limit _ Hs). split; [|split_and!; [done..|lia]]. set (id := compose _ _ _ _) in *. split; [|done|split; done|cbn; lia|].
  - destruct Hs. split; cbn [with_local sp_limit sp_role peer_open peer_next peer_awaited peer_closed local_open local_next peer_credit]; try done; [|lia|lia].
    intros q h [[<- <-]|[_ Hq]]%lookup_insert_Some; [split_and!; [lia|done..]|]. destruct (lk_open0 q h Hq) as (?&?&?&?). split_and!; [lia|done..].
  - intros id'. unfold final. cbn [with_local sp_role local_open local_next peer_open peer_next peer_awaited]. case_bool_decide; [|done]. unfold final_in.
    destruct (decide (sequence_of id' = local_next s)) as [->|Hne].
    + destruct (local_open s !! local_next s) as [h|] eqn:E; [destruct (lk_open _ Hs _ _ E); lia|]. lia.
    + rewrite lookup_insert_ne by done. destruct (local_open s !! sequence_of id'); [done|]. lia.
Qed.
Lemma on_max_streams_ok s max : space_ok s → space_keeps s (on_max_streams s max).1 ∧ peer_credit (on_max_streams s max).1 = N.max (peer_credit s) max.
Proof. intros Hs. split; [|done]. split; [|done|cbn; split; [done|lia]|done|done]. destruct Hs. split; try done. cbn. lia. Qed.
Lemma set_wanting_ok s w : space_ok s → space_keeps s (set_wanting s w).
Proof. intros Hs. split; [|done|done|done|done]. by destruct Hs. Qed.

(** A peer's stream opened: its sequence was awaited, or new within the credit. *)
Lemma peer_opened s q id next awaited :
  space_ok s → id ≤ u64_max → sequence_of id = q → initiator_of id ≠ sp_role s → peer_open s !! q = None →
  q ∈ peer_awaited s ∧ next = peer_next s ∧ awaited = peer_awaited s ∖ {[q]}
  ∨ peer_next s ≤ q ∧ q < credit s ∧ next = q + 1 ∧ awaited = peer_awaited s ∪ seq_span (peer_next s) q →
  space_keeps s (with_peer s next (<[q := fresh_peer id]> (peer_open s)) awaited (peer_closed s)).
Proof.
  intros Hs Hid Hq Hr Hnone Hc. pose proof (credit_eq s Hs) as Ecr. pose proof (sequence_le id Hid) as Hmax. rewrite Hq in Hmax. pose proof (pk_limit _ Hs) as Hl.
  assert (q < next ∧ peer_next s ≤ next ∧ (∀ x, x ∈ awaited → x < next ∧ x ≠ q ∧ peer_open s !! x = None)
    ∧ N.of_nat (size (peer_open s)) + 1 + N.of_nat (size awaited) + peer_closed s = next ∧ next ≤ peer_closed s + sp_limit s ∧ next ≤ MAX_SEQUENCE + 1) as (N1&N2&N3&N4&N5&N6).
  { pose proof (pk_count _ Hs). pose proof (pk_credit _ Hs). pose proof (pk_space _ Hs). destruct Hc as [(Ha&->&->)|(Hge&Hlt&->&->)].
    - destruct (pk_awaited _ Hs q Ha) as [Hql _]. split_and!; [done|done| | |done|done].
      + intros x Hx. destruct (pk_awaited _ Hs x ltac:(set_solver)). split_and!; [done|set_solver|done].
      + rewrite size_difference by set_solver. rewrite size_singleton. assert (size (peer_awaited s) ≠ 0)%nat by (rewrite size_non_empty_iff; set_solver). lia.
    - split_and!; [lia|lia| | |lia|lia].
      + intros x [Hx|Hx%elem_of_span]%elem_of_union; [destruct (pk_awaited _ Hs x Hx); split_and!; [lia|lia|done]|]. split_and!; [lia|lia|].
        destruct (peer_open s !! x) as [h|] eqn:E; [|done]. destruct (pk_open _ Hs x h E). lia.
      + rewrite size_union, Nat2N.inj_add, size_span; [lia|]. intros x Hx Hx2%elem_of_span. destruct (pk_awaited _ Hs x Hx). lia. }
  split; [|done|done|done|].
  - destruct Hs. split; cbn [with_peer sp_limit sp_role peer_open peer_next peer_awaited peer_closed local_open local_next peer_credit]; try done.
    + intros x h [[<- <-]|[_ Hx]]%lookup_insert_Some; [done|]. destruct (pk_open0 x h Hx) as (?&?&?&?). split_and!; [lia|done..].
    + intros x Hx. destruct (N3 x Hx) as (?&?&?). split; [done|]. by rewrite lookup_insert_ne.
    + rewrite map_size_insert_None by done. lia.
  - intros id'. unfold final. cbn [with_peer sp_role local_open local_next peer_open peer_next peer_awaited]. case_bool_decide; [done|]. unfold final_in.
    destruct (decide (sequence_of id' = q)) as [->|Hne].
    + rewrite Hnone. intros [Hlt Hna]. destruct Hc as [(?&_)|(?&_)]; [done|lia].
    + rewrite lookup_insert_ne by done. destruct (peer_open s !! sequence_of id'); [done|]. intros [Hlt Hna]. split; [lia|].
      destruct Hc as [(_&_&->)|(_&_&_&->)]; [set_solver|]. intros [|Hx%elem_of_span]%elem_of_union; [done|lia].
Qed.
Lemma open_state_final h id : open_state h id = AOpen ↔ hv_id h = id ∧ receive_done h = false.
Proof. unfold open_state. destruct (N.eqb_spec (hv_id h) id); cbn; [|naive_solver]. destruct (receive_done h); naive_solver. Qed.
Lemma arrive_ok s id :
  space_ok s → id ≤ u64_max → let '(s', r) := arrive s id in
  space_keeps s s' ∧ (r = AClosed → final s id) ∧ (r = AOpen → ¬ final s id)
  ∧ (initiator_of id ≠ sp_role s → sequence_of id < credit s → r = AViolation → ∃ h, peer_open s !! sequence_of id = Some h ∧ hv_id h ≠ id).
Proof.
  intros Hs Hid. unfold arrive. assert (∀ h, open_state h id = AClosed → receive_done h = true) as Hcl.
  { intros h. unfold open_state. destruct (negb _); [done|]. by destruct (receive_done h). }
  case_bool_decide as Hr.
  - split_and!; [by apply keeps_refl|..|done]; unfold final, final_in; rewrite bool_decide_true by done; unfold arrive_local; destruct (local_open s !! sequence_of id) as [h|].
    + intros Ho%Hcl. done.
    + destruct (N.ltb_spec (sequence_of id) (local_next s)); done.
    + intros [E1 E2]%open_state_final Hf. rewrite (Hf E1) in E2. done.
    + destruct (N.ltb_spec (sequence_of id) (local_next s)); done.
  - unfold arrive_peer. pose proof (sequence_le id Hid) as Hmax. destruct (peer_open s !! sequence_of id) as [h|] eqn:E.
    { unfold final, final_in. rewrite bool_decide_false by done. rewrite E. split_and!; [by apply keeps_refl| | |].
      - intros Ho%Hcl. done.
      - intros [E1 E2]%open_state_final Hf. rewrite (Hf E1) in E2. done.
      - intros _ _ Hv. exists h. split; [done|]. intros E1. unfold open_state in Hv. rewrite E1, N.eqb_refl in Hv. cbn in Hv. by destruct (receive_done h). }
    destruct (N.ltb_spec (sequence_of id) (peer_next s)) as [Hlt|Hge].
    + destruct (has_elem (peer_awaited s) (sequence_of id)) eqn:Ea.
      * apply has_elem_true in Ea. split_and!; [apply (peer_opened s (sequence_of id) id); try done; by left|done| |done]. intros _. unfold final, final_in. rewrite bool_decide_false, E by done. by intros [].
      * apply has_elem_false in Ea. split_and!; [by apply keeps_refl| |done|done]. intros _. unfold final, final_in. rewrite bool_decide_false, E by done. done.
    + destruct (N.leb_spec (credit s) (sequence_of id)) as [Hcr|Hcr].
      * split_and!; [by apply keeps_refl|done|done|intros _ ?; lia].
      * rewrite sat_add_small by (rewrite max_sequence_val in Hmax; unfold u64_max; lia). split_and!; [apply (peer_opened s (sequence_of id) id); try done; by right|done| |done].
        intros _. unfold final, final_in. rewrite bool_decide_false, E by done. intros [? _]. lia.
Qed.

(** A half changed in place. *)
Definition half_moves (h h' : Halves) : Prop := hv_id h' = hv_id h ∧ (receive_done h = true → receive_done h' = true).
Lemma final_in_moves open h h' q (gone gone' : Prop) id :
  open !! q = Some h → half_moves h h' → (gone → gone') → final_in open gone id → final_in (<[q := h']> open) gone' id.
Proof.
  intros Hq [H1 H2] Hg. unfold final_in. destruct (decide (sequence_of id = q)) as [->|Hne].
  - rewrite Hq, lookup_insert_eq. intros Hf E. apply H2, Hf. congruence.
  - rewrite lookup_insert_ne by done. destruct (open !! sequence_of id); auto.
Qed.
Lemma final_in_gone open q (gone gone' : Prop) id :
  (gone → gone') → (sequence_of id = q → gone') → final_in open gone id → final_in (delete q open) gone' id.
Proof.
  intros Hg Hq. unfold final_in. destruct (decide (sequence_of id = q)) as [E|Hne]; [rewrite E, lookup_delete_eq; auto|]. rewrite lookup_delete_ne by done. destruct (open !! sequence_of id); auto.
Qed.
Lemma begin_reply_ok s id : space_ok s → space_keeps s (begin_reply s id).1.
Proof.
  intros Hs. unfold begin_reply. case_bool_decide as Hr; [by apply keeps_refl|]. destruct (peer_open s !! sequence_of id) as [h|] eqn:E.
  - destruct (negb _); [by apply keeps_refl|]. destruct (send_done h) eqn:Ed; [by apply keeps_refl|]. destruct (send_started h); [by apply keeps_refl|]. cbn [fst].
    split; [|done|done|done|].
    + pose proof (pk_open _ Hs _ _ E) as (P1&P2&P3&P4). destruct Hs. split; cbn [with_peer sp_limit sp_role peer_open peer_next peer_awaited peer_closed local_open local_next peer_credit]; try done.
      * intros q h' [[<- <-]|[_ Hq]]%lookup_insert_Some; [|by apply pk_open0]. split_and!; try done. cbn. apply andb_false_r.
      * intros q Hq. destruct (pk_awaited0 q Hq) as [? Hn]. split; [done|]. rewrite lookup_insert_ne; [done|]. intros <-. congruence.
      * by rewrite map_size_insert, E.
    + intros id'. unfold final. cbn [with_peer sp_role local_open local_next peer_open peer_next peer_awaited]. case_bool_decide; [done|]. by apply (final_in_moves _ h).
  - destruct (_ && _); by apply keeps_refl.
Qed.
Lemma update_ok s id change :
  space_ok s → (∀ h, half_moves h (change h)) → space_keeps s (update_halves s id change).
Proof.
  intros Hs Hch. unfold update_halves. case_bool_decide as Hr.
  - destruct (local_open s !! sequence_of id) as [h|] eqn:E; [|by apply keeps_refl]. destruct (N.eqb_spec (hv_id h) id) as [Eid|]; cbn [negb]; [|by apply keeps_refl].
    pose proof (lk_open _ Hs _ _ E) as (P1&P2&P3&P4). pose proof (Hch h) as [C1 C2]. split; [|by destruct (_ && _)|by destruct (_ && _)|by destruct (_ && _)|].
    + destruct Hs. destruct (receive_done (change h) && send_done (change h)) eqn:Ed; split; cbn [with_local sp_limit sp_role peer_open peer_next peer_awaited peer_closed local_open local_next peer_credit]; try done.
      * intros q h' [_ Hq]%lookup_delete_Some. by apply lk_open0.
      * intros q h' [[<- <-]|[_ Hq]]%lookup_insert_Some; [|by apply lk_open0]. rewrite <- C1 in P2, P3. done.
    + intros id'. unfold final. cbn [with_local sp_role local_open local_next peer_open peer_next peer_awaited]. case_bool_decide; [|done].
      destruct (receive_done (change h) && send_done (change h)); [apply final_in_gone; [done|lia]|by apply (final_in_moves _ h)].
  - destruct (peer_open s !! sequence_of id) as [h|] eqn:E; [|by apply keeps_refl]. destruct (N.eqb_spec (hv_id h) id) as [Eid|]; cbn [negb]; [|by apply keeps_refl].
    pose proof (pk_open _ Hs _ _ E) as (P1&P2&P3&P4). pose proof (Hch h) as [C1 C2]. pose proof (pk_count _ Hs) as Hcount. pose proof (pk_space _ Hs) as Hsp. pose proof (pk_limit _ Hs) as Hl.
    rewrite max_sequence_val in Hsp. assert (sat_add (peer_closed s) 1 = peer_closed s + 1) as Esat by (apply sat_add_small; unfold u64_max; lia).
    assert (sequence_of id ∉ peer_awaited s) as Hna by (intros Hx%(pk_awaited _ Hs); destruct Hx; congruence). rewrite Esat.
    assert (size (peer_open s) ≠ 0)%nat as Hnz by (apply map_size_non_empty_iff; intros Ex; by rewrite Ex, lookup_empty in E).
    destruct (receive_done (change h) && send_done (change h)) eqn:Ed; (split; [|done| |done|]).
    + destruct Hs. split; cbn [with_peer sp_limit sp_role peer_open peer_next peer_awaited peer_closed local_open local_next peer_credit]; try done; try lia.
      * intros q h' [_ Hq]%lookup_delete_Some. by apply pk_open0.
      * intros q Hq. destruct (pk_awaited0 q Hq) as [? Hn]. split; [done|]. rewrite lookup_delete_None. by right.
      * rewrite map_size_delete, E. cbn. lia.
    + unfold credit. cbn [with_peer peer_closed sp_limit peer_credit]. unfold sat_add. lia.
    + intros id'. unfold final. cbn [with_peer sp_role local_open local_next peer_open peer_next peer_awaited]. case_bool_decide; [done|]. apply final_in_gone; [done|]. intros ->. done.
    + destruct Hs. split; cbn [with_peer sp_limit sp_role peer_open peer_next peer_awaited peer_closed local_open local_next peer_credit]; try done.
      * intros q h' [[<- <-]|[_ Hq]]%lookup_insert_Some; [|by apply pk_open0]. rewrite <- C1 in P2, P3. done.
      * intros q Hq. destruct (pk_awaited0 q Hq) as [? Hn]. split; [done|]. rewrite lookup_insert_ne; [done|]. intros <-. congruence.
      * by rewrite map_size_insert, E.
    + done.
    + intros id'. unfold final. cbn [with_peer sp_role local_open local_next peer_open peer_next peer_awaited]. case_bool_decide; [done|]. by apply (final_in_moves _ h).
Qed.
Lemma space_op_ok s o : space_ok s → op_fits o → space_keeps s (space_op s o).
Proof.
  intros Hs Hf. destruct o as [kind p|id|id|id|id|max|w]; cbn [space_op op_fits] in *.
  - pose proof (open_local_ok s kind p Hs) as Ho. destruct (open_local s kind p). apply Ho.
  - pose proof (arrive_ok s id Hs Hf) as Ho. destruct (arrive s id). apply Ho.
  - by apply begin_reply_ok.
  - by apply update_ok.
  - by apply update_ok.
  - by apply on_max_streams_ok.
  - by apply set_wanting_ok.
Qed.
Definition space_ops (s : StreamSpace) (os : list SpaceOp) : StreamSpace := foldl space_op s os.
Lemma space_ops_ok os : ∀ s, space_ok s → Forall op_fits os → space_keeps s (space_ops s os).
Proof.
  induction os as [|o os IH]; intros s Hs Hf; [by apply keeps_refl|]. apply Forall_cons in Hf as [Ho Hf]. pose proof (space_op_ok s o Hs Ho) as Hk.
  eapply keeps_trans; [exact Hk|]. apply IH; [apply Hk|done].
Qed.

(** ** Whose ids are open *)
Lemma local_ids s o q h' :
  local_open (space_op s o) !! q = Some h' → (∃ h, local_open s !! q = Some h ∧ hv_id h = hv_id h') ∨ q = local_next s.
Proof.
  assert (∀ id change, (∀ h, half_moves h (change h)) → local_open (update_halves s id change) !! q = Some h' → ∃ h, local_open s !! q = Some h ∧ hv_id h = hv_id h') as Hup.
  { intros id change Hch. unfold update_halves. case_bool_decide.
    - destruct (local_open s !! sequence_of id) as [h|] eqn:E; [|eauto]. destruct (negb _); [eauto|]. cbn [with_local local_open].
      destruct (receive_done (change h) && send_done (change h)); [intros [_ ?]%lookup_delete_Some; eauto|]. intros [[<- <-]|[_ ?]]%lookup_insert_Some; [|eauto].
      exists h. split; [done|]. symmetry. apply (Hch h).
    - destruct (peer_open s !! sequence_of id); [|eauto]. destruct (negb _); eauto. }
  destruct o as [kind p|id|id|id|id|max|w]; cbn [space_op]; eauto.
  - unfold open_local. destruct (_ <=? _); [eauto|]. destruct (_ <? _); [eauto|]. cbn [fst with_local local_open]. intros [[<- _]|[_ ?]]%lookup_insert_Some; eauto.
  - unfold arrive, arrive_peer. case_bool_decide; [eauto|]. destruct (peer_open s !! _); [eauto|]. destruct (_ <? _); [destruct (has_elem _ _); eauto|]. destruct (_ <=? _); eauto.
  - unfold begin_reply. case_bool_decide; [eauto|]. destruct (peer_open s !! _) as [h|]; [|destruct (_ && _); eauto]. destruct (negb _); [eauto|]. destruct (send_done h); [eauto|].
    destruct (send_started h); eauto.
  - intros Hx. left. eapply Hup; [|exact Hx]. done.
  - intros Hx. left. eapply Hup; [|exact Hx]. done.
Qed.
Lemma peer_ids s o q h' :
  peer_open (space_op s o) !! q = Some h' → (∃ h, peer_open s !! q = Some h ∧ hv_id h = hv_id h') ∨ o = OArrive (hv_id h').
Proof.
  assert (∀ id change, (∀ h, half_moves h (change h)) → peer_open (update_halves s id change) !! q = Some h' → ∃ h, peer_open s !! q = Some h ∧ hv_id h = hv_id h') as Hup.
  { intros id change Hch. unfold update_halves. case_bool_decide.
    - destruct (local_open s !! sequence_of id); [|eauto]. destruct (negb _); eauto.
    - destruct (peer_open s !! sequence_of id) as [h|] eqn:E; [|eauto]. destruct (negb _); [eauto|]. cbn [with_peer peer_open].
      destruct (receive_done (change h) && send_done (change h)); [intros [_ ?]%lookup_delete_Some; eauto|]. intros [[<- <-]|[_ ?]]%lookup_insert_Some; [|eauto].
      exists h. split; [done|]. symmetry. apply (Hch h). }
  destruct o as [kind p|id|id|id|id|max|w]; cbn [space_op]; eauto.
  - unfold open_local. destruct (_ <=? _); [eauto|]. destruct (_ <? _); eauto.
  - unfold arrive, arrive_peer. case_bool_decide; [eauto|]. destruct (peer_open s !! sequence_of id); [eauto|].
    destruct (_ <? _); [destruct (has_elem _ _); [|eauto]|destruct (_ <=? _); [eauto|]]; cbn [fst with_peer peer_open]; (intros [[<- <-]|[_ ?]]%lookup_insert_Some; [by right|eauto]).
  - unfold begin_reply. case_bool_decide; [eauto|]. destruct (peer_open s !! sequence_of id) as [h|] eqn:E; [|destruct (_ && _); eauto]. destruct (negb _); [eauto|].
    destruct (send_done h); [eauto|]. destruct (send_started h); [eauto|]. cbn [fst with_peer peer_open]. intros [[<- <-]|[_ ?]]%lookup_insert_Some; eauto.
  - intros Hx. left. eapply Hup; [|exact Hx]. done.
  - intros Hx. left. eapply Hup; [|exact Hx]. done.
Qed.

(** ** Two ends *)

(** An end that opens streams, the end that receives them, the ids frames were sent on, and the credits told. The network
    delivers any of them, at any time, any number of times. *)
Record Session := mkSession { se_opener : StreamSpace; se_receiver : StreamSpace; se_sent : gset N; se_told : gset N }.
Inductive session_step : Session → Session → Prop :=
| SeOpener a b ids told o :
    op_fits o → (∀ max, o ≠ OMaxStreams max) → session_step (mkSession a b ids told) (mkSession (space_op a o) b ids told)
| SeSend a b ids told id h :
    initiator_of id = sp_role a → local_open a !! sequence_of id = Some h → hv_id h = id → id ≤ u64_max → sendable a id = true →
    session_step (mkSession a b ids told) (mkSession a b ({[id]} ∪ ids) told)
| SeTell a b ids told : session_step (mkSession a b ids told) (mkSession a b ids ({[credit b]} ∪ told))
| SeTake a b ids told max : max ∈ told → session_step (mkSession a b ids told) (mkSession (space_op a (OMaxStreams max)) b ids told)
| SeReceiver a b ids told o :
    op_fits o → (∀ id, o = OArrive id → initiator_of id = sp_role b) → session_step (mkSession a b ids told) (mkSession a (space_op b o) ids told)
| SeArrive a b ids told id : id ∈ ids → session_step (mkSession a b ids told) (mkSession a (space_op b (OArrive id)) ids told).
Inductive session_run : Session → Session → Prop :=
| SeDone s : session_run s s
| SeStep s1 s2 s3 : session_run s1 s2 → session_step s2 s3 → session_run s1 s3.
Definition session_new (role : Role) (limit : N) : Session :=
  mkSession (space_new role limit) (space_new (match role with Client => Server | Server => Client end) limit) ∅ ∅.

Record session_ok (se : Session) : Prop := {
  sk_opener : space_ok (se_opener se);
  sk_receiver : space_ok (se_receiver se);
  sk_roles : sp_role (se_opener se) ≠ sp_role (se_receiver se);
  sk_told : ∀ c, c ∈ se_told se → c ≤ credit (se_receiver se);
  sk_credit : peer_credit (se_opener se) ≤ credit (se_receiver se);
  sk_sent : ∀ id, id ∈ se_sent se → initiator_of id = sp_role (se_opener se) ∧ id ≤ u64_max ∧ sequence_of id < peer_credit (se_opener se)
    ∧ sequence_of id < local_next (se_opener se) ∧ ∀ h, local_open (se_opener se) !! sequence_of id = Some h → hv_id h = id;
  sk_one : ∀ id id', id ∈ se_sent se → id' ∈ se_sent se → sequence_of id = sequence_of id' → id = id';
  sk_known : ∀ q h, peer_open (se_receiver se) !! q = Some h → hv_id h ∈ se_sent se
}.
Lemma session_new_ok role limit : limit ≤ 2 ^ 62 → session_ok (session_new role limit).
Proof.
  intros Hl. split; cbn [session_new se_opener se_receiver se_sent se_told]; try (by apply space_new_ok); try set_solver.
  all: try (by destruct role).
  - cbn. unfold credit, sat_add, u64_max. cbn. lia.
Qed.
(** The opener moved, with its credit below the receiver's. *)
Lemma opener_moves a b ids told o :
  session_ok (mkSession a b ids told) → op_fits o → peer_credit (space_op a o) ≤ credit b → session_ok (mkSession (space_op a o) b ids told).
Proof.
  intros [] Hf Hcr. cbn [se_opener se_receiver se_sent se_told] in *. pose proof (space_op_ok a o sk_opener0 Hf) as [K1 [= K2 K3] K4 K5 K6].
  split; cbn [se_opener se_receiver se_sent se_told]; try done; [congruence|]. intros id Hid. destruct (sk_sent0 id Hid) as (S1&S2&S3&S4&S5). split_and!; [congruence|done|lia|lia|].
  intros h Hh. destruct (local_ids a o _ h Hh) as [(h0&Hh0&<-)|Hx]; [by apply S5|lia].
Qed.
Lemma receiver_moves a b ids told o :
  session_ok (mkSession a b ids told) → op_fits o → (∀ id, o = OArrive id → initiator_of id = sp_role b ∨ id ∈ ids) → session_ok (mkSession a (space_op b o) ids told).
Proof.
  intros [] Hf Hid. cbn [se_opener se_receiver se_sent se_told] in *. pose proof (space_op_ok b o sk_receiver0 Hf) as [K1 [= K2 K3] [K4 _] K5 K6].
  split; cbn [se_opener se_receiver se_sent se_told]; try done; [congruence|intros c Hc; specialize (sk_told0 c Hc); lia|lia|].
  intros q h Hq. destruct (peer_ids b o q h Hq) as [(h0&Hh0&<-)|Ho]; [by apply (sk_known0 q)|]. destruct (Hid _ Ho) as [Hr|]; [|done]. exfalso.
  pose proof (pk_open _ K1 q h Hq) as (_&_&Hne&_). rewrite K2 in Hne. done.
Qed.
Lemma session_step_ok s s' : session_ok s → session_step s s' → session_ok s'.
Proof.
  intros Hs Hst. destruct Hst as [a b ids told o Hf Hn|a b ids told id h H1 H2 H3 H4 H5|a b ids told|a b ids told max Hm|a b ids told o Hf Hn|a b ids told id Hid].
  - apply opener_moves; [done..|]. destruct Hs. cbn [se_opener se_receiver] in *. destruct o; cbn [space_op]; try done.
    + pose proof (open_local_ok a kind p sk_opener0) as Ho. unfold open_local in *. destruct (_ <=? _); [done|]. by destruct (_ <? _).
    + unfold arrive, arrive_peer. repeat case_match; done.
    + unfold begin_reply. repeat case_match; done.
    + unfold close_receive, update_halves. repeat case_match; done.
    + unfold close_send, update_halves. repeat case_match; done.
    + by destruct (Hn max).
  - destruct Hs. cbn [se_opener se_receiver se_sent se_told] in *. split; cbn [se_opener se_receiver se_sent se_told]; try done.
    + intros id' [->%elem_of_singleton|Hid]%elem_of_union; [|by apply sk_sent0]. destruct (lk_open _ sk_opener0 _ _ H2) as (L1&_).
      unfold sendable in H5. rewrite bool_decide_true in H5 by done. cbn in H5. apply N.ltb_lt in H5. split_and!; [done..|]. intros h' Hh'. congruence.
    + intros i j [->%elem_of_singleton|Hi]%elem_of_union [->%elem_of_singleton|Hj]%elem_of_union Eq; [done| | |by apply sk_one0].
      * destruct (sk_sent0 j Hj) as (_&_&_&_&S5). rewrite <- Eq in S5. rewrite <- (S5 h H2). done.
      * destruct (sk_sent0 i Hi) as (_&_&_&_&S5). rewrite Eq in S5. rewrite <- (S5 h H2). done.
    + intros q h' Hq. apply elem_of_union. right. by apply (sk_known0 q).
  - destruct Hs. split; try done. cbn [se_told se_receiver] in *. intros c [->%elem_of_singleton|Hc]%elem_of_union; [done|by apply sk_told0].
  - apply opener_moves; [done..|]. cbn. destruct Hs. cbn [se_opener se_receiver se_told] in *. specialize (sk_told0 max Hm). lia.
  - apply receiver_moves; [done..|]. intros id Ho. left. by apply Hn.
  - apply receiver_moves; [done| |]; [by destruct (sk_sent _ Hs id Hid) as (_&?&_)|]. intros i [= <-]. by right.
Qed.
Lemma session_run_ok s s' : session_ok s → session_run s s' → session_ok s'.
Proof. intros Hs Hr. induction Hr as [|s1 s2 s3 _ IH Hst]; [done|]. eapply session_step_ok; [by apply IH|done]. Qed.

(** ** The claims *)

(** C21. However its calls and its peer's frames are ordered, an end holds at most its limit of the peer's streams, open or awaited;
    its credit never falls; at most a limit of its own streams waits past the peer's credit; and a stream whose frame was found
    closed is never open to a frame again. *)
Theorem streams_bounded (role : Role) (limit : N) (os os' : list SpaceOp) id :
  limit ≤ 2 ^ 62 → Forall op_fits os → Forall op_fits os' → id ≤ u64_max →
  let s := space_ops (space_new role limit) os in let s' := space_ops s os' in let '(_, open, awaited) := census s in
  open + awaited ≤ N.max limit 1 ∧ credit s ≤ credit s' ∧ local_next s ≤ peer_credit s + N.max limit 1
  ∧ ((arrive s id).2 = AClosed → (arrive s' id).2 ≠ AOpen).
Proof.
  intros Hl Hos Hos' Hid. cbn zeta. pose proof (space_ops_ok os _ (space_new_ok role limit Hl) Hos) as Hk. set (s := space_ops _ os) in *.
  pose proof (space_ops_ok os' s (ke_ok _ _ Hk) Hos') as Hk'. set (s' := space_ops s os') in *. destruct (census s) as [[lo po] pa] eqn:Ec. unfold census in Ec. injection Ec as <- <- <-.
  destruct Hk as [Hs [= _ El] _ _ _]. cbn in El. pose proof (pk_count _ Hs). pose proof (pk_credit _ Hs). pose proof (lk_wait _ Hs). rewrite El in *. split_and!; [lia|apply (ke_credit _ _ Hk')|done|].
  intros Hc Ho. pose proof (arrive_ok s id Hs Hid) as A1. pose proof (arrive_ok s' id (ke_ok _ _ Hk') Hid) as A2. destruct (arrive s id) as [s1 r1], (arrive s' id) as [s2 r2]. cbn [snd] in *.
  destruct A1 as (_&F1&_), A2 as (_&_&F2&_). apply (F2 Ho). apply (ke_final _ _ Hk'). by apply F1.
Qed.

(** C20. Between two ends that derive the same limit, whatever the network does to the frames and the credits between them, a frame
    the one was allowed to send is never a violation at the other. *)
Theorem sent_within_credit (role : Role) (limit : N) (se : Session) id :
  limit ≤ 2 ^ 62 → session_run (session_new role limit) se → id ∈ se_sent se → (arrive (se_receiver se) id).2 ≠ AViolation.
Proof.
  intros Hl Hr Hid. pose proof (session_run_ok _ _ (session_new_ok role limit Hl) Hr) as Hs. destruct (sk_sent _ Hs id Hid) as (S1&S2&S3&_&_).
  pose proof (arrive_ok (se_receiver se) id (sk_receiver _ Hs) S2) as Ha. destruct (arrive (se_receiver se) id) as [b r]. destruct Ha as (_&_&_&Hv). cbn [snd]. intros ->.
  pose proof (sk_roles _ Hs). pose proof (sk_credit _ Hs). destruct (Hv ltac:(congruence) ltac:(lia) eq_refl) as (h&Hh&Hne).
  apply Hne. pose proof (pk_open _ (sk_receiver _ Hs) _ _ Hh) as (_&Hq&_). apply (sk_one _ Hs); [by apply (sk_known _ Hs (sequence_of id))|done|done].
Qed.

(** ** Witnesses *)
Definition first_id : N := compose 3 Bulk Client 0.
Definition second_id : N := compose 3 Bulk Client 1.
Lemma streams_bounded_witness :
  (arrive (space_ops (space_new Server 2) [OArrive second_id; OCloseReceive second_id; OReply second_id; OCloseSend second_id]) second_id).2 = AClosed
  ∧ (arrive (space_ops (space_ops (space_new Server 2) [OArrive second_id; OCloseReceive second_id; OReply second_id; OCloseSend second_id]) [OArrive first_id; OArrive second_id]) second_id).2 ≠ AOpen.
Proof.
  assert (first_id ≤ u64_max ∧ second_id ≤ u64_max) as [H1 H2] by (vm_compute; split; discriminate).
  pose proof (streams_bounded Server 2 [OArrive second_id; OCloseReceive second_id; OReply second_id; OCloseSend second_id] [OArrive first_id; OArrive second_id] second_id
    ltac:(lia) ltac:(repeat constructor; exact H2) ltac:(repeat constructor; [exact H1|exact H2]) H2) as Hw. cbn zeta in Hw.
  destruct (census _) as [[? ?] ?]. split; [by vm_compute|]. apply Hw. by vm_compute.
Defined.
Lemma sent_within_credit_witness :
  ∃ se, session_run (session_new Client 1) se ∧ first_id ∈ se_sent se ∧ (arrive (se_receiver se) first_id).2 ≠ AViolation.
Proof.
  set (a := space_op (space_new Client 1) (OOpen 3 Bulk)). set (se := mkSession a (space_new Server 1) ({[first_id]} ∪ ∅) ∅). exists se.
  assert (session_run (session_new Client 1) se) as Hr.
  { eapply SeStep; [eapply SeStep; [apply SeDone|apply (SeOpener _ _ _ _ (OOpen 3 Bulk)); [exact I|intros max E; discriminate E]]|].
    apply (SeSend a (space_new Server 1) ∅ ∅ first_id (mkHalves first_id false true false)); [reflexivity|vm_compute; reflexivity|reflexivity|vm_compute; discriminate|vm_compute; reflexivity]. }
  assert (first_id ∈ se_sent se) as Hi by (cbn; set_solver). split; [exact Hr|]. split; [exact Hi|]. apply (sent_within_credit Client 1 se first_id); [lia|exact Hr|exact Hi].
Defined.
