(* ===== verification/SentTracker.v ===== *)
(** * Packets in flight

    Models [SentTracker] of [crates/transport/src/conn.rs]: packet numbers, what
    each packet in flight carried, acknowledgements and loss.  Then a sender and a
    receiver over a network: what an acknowledgement means. *)

From S2P Require Import Prelude Frame AckGen.
#[local] Open Scope N_scope.

Definition REORDER_THRESHOLD : N := 3.
Record InFlight := mkInFlight { fl_frames : list Frame; fl_sent_at : N; fl_bytes : N; fl_size : N }.
Record SentPacket := mkSentPacket { pk_pn : N; pk_sent_at : N; pk_bytes : N; pk_size : N }.
Record Acked := mkAcked { ac_bytes : N; ac_pns : list N; ac_packets : list SentPacket; ac_frames : list Frame }.
Record Lost := mkLost { lo_frames : list Frame; lo_pns : list N; lo_highest : option N; lo_packets : list SentPacket }.
Record SentTracker := mkTracker { tr_next_pn : N; in_flight : gmap N InFlight; largest_acked : option N; acked_sent_at : gset N }.

(** [tracked_bytes], [SentTracker::new], [exhausted], [next_pn], [on_sent] (whose sum of the lengths of buffers held in memory
    is far below [2 ^ 64]). *)
Definition tracked_bytes (f : Frame) : N := match f with FStream _ _ _ data => len data | _ => 0 end.
Definition tracker_new : SentTracker := mkTracker 0 ∅ None ∅.
Definition exhausted (t : SentTracker) : bool := PACKET_NUMBER_SPACE <=? tr_next_pn t.
Definition next_pn (t : SentTracker) : SentTracker * option N :=
  if exhausted t then (t, None) else
  match checked_add (tr_next_pn t) 1 with
  | Some next => (mkTracker next (in_flight t) (largest_acked t) (acked_sent_at t), Some (tr_next_pn t))
  | None => (t, None)
  end.
Definition on_sent (t : SentTracker) (pn : N) (frames : list Frame) (sent_at size : N) : SentTracker :=
  mkTracker (tr_next_pn t) (<[pn := mkInFlight frames sent_at (sum_N (map tracked_bytes frames)) size]> (in_flight t)) (largest_acked t) (acked_sent_at t).

(** [prune_acked_sent_at]: [split_off] keeps the times at or past the oldest packet's. *)
Definition prune_acked_sent_at (flight : gmap N InFlight) (times : gset N) : gset N :=
  match bt_first flight with Some (_, oldest) => filter (λ x, fl_sent_at oldest ≤ x) times | None => ∅ end.

(** [on_ack]: the loop over the packets the range covers. *)
Definition sent_packet (pn : N) (f : InFlight) : SentPacket := mkSentPacket pn (fl_sent_at f) (fl_bytes f) (fl_size f).
Fixpoint take_acked (flight : gmap N InFlight) (times : gset N) (pns : list N) : gmap N InFlight * gset N * (N * list SentPacket * list Frame) :=
  match pns with
  | [] => (flight, times, (0, [], []))
  | pn :: pns =>
      match flight !! pn with
      | Some f =>
          let '(flight, times, (bytes, packets, frames)) := take_acked (delete pn flight) ({[fl_sent_at f]} ∪ times) pns in
          (flight, times, (sat_add (fl_bytes f) bytes, sent_packet pn f :: packets, fl_frames f ++ frames))
      | None => take_acked flight times pns
      end
  end.
Definition on_ack (t : SentTracker) (largest range : N) : SentTracker * Acked :=
  let low := sat_sub largest range in
  let pns := map fst (bt_range_incl (in_flight t) low largest) in
  let '(flight, times, (bytes, packets, frames)) := take_acked (in_flight t) (acked_sent_at t) pns in
  (mkTracker (tr_next_pn t) flight (Some (match largest_acked t with Some l => N.max l largest | None => largest end)) (prune_acked_sent_at flight times),
   mkAcked bytes pns packets frames).
(** [on_ack_frame]. *)
Fixpoint on_ack_runs (t : SentTracker) (runs : list (N * N)) : SentTracker * Acked :=
  match runs with
  | [] => (t, mkAcked 0 [] [] [])
  | (low, high) :: runs =>
      let '(t, more) := on_ack t high (sat_sub high low) in
      let '(t, rest) := on_ack_runs t runs in
      (t, mkAcked (sat_add (ac_bytes more) (ac_bytes rest)) (ac_pns more ++ ac_pns rest) (ac_packets more ++ ac_packets rest) (ac_frames more ++ ac_frames rest))
  end.
Definition on_ack_frame (t : SentTracker) (largest range : N) (ranges : list AckRange) : SentTracker * Acked := on_ack_runs t (ack_runs largest range ranges).

(** [take_lost]. *)
Definition is_lost (largest now loss_delay packet_threshold pn : N) (f : InFlight) : bool :=
  (sat_add pn packet_threshold <=? largest) || ((loss_delay <=? now) && (fl_sent_at f <=? now - loss_delay)).
Fixpoint split_lost (largest now loss_delay packet_threshold : N) (below : list (N * InFlight)) (loss_time : option N) : list N * option N :=
  match below with
  | [] => ([], loss_time)
  | (pn, f) :: below =>
      if is_lost largest now loss_delay packet_threshold pn f then
        let '(lost, time) := split_lost largest now loss_delay packet_threshold below loss_time in (pn :: lost, time)
      else
        let due := sat_add (fl_sent_at f) loss_delay in
        split_lost largest now loss_delay packet_threshold below (Some (match loss_time with Some earliest => N.min earliest due | None => due end))
  end.
Fixpoint take_packets (flight : gmap N InFlight) (pns : list N) : gmap N InFlight * (list SentPacket * list Frame) :=
  match pns with
  | [] => (flight, ([], []))
  | pn :: pns =>
      match flight !! pn with
      | Some f => let '(flight, (packets, frames)) := take_packets (delete pn flight) pns in (flight, (sent_packet pn f :: packets, fl_frames f ++ frames))
      | None => take_packets flight pns
      end
  end.
Definition max_list_N (l : list N) : option N := match l with [] => None | x :: l => Some (foldr N.max x l) end.
Definition take_lost (t : SentTracker) (now loss_delay packet_threshold : N) : SentTracker * (Lost * option N) :=
  match largest_acked t with
  | None => (t, (mkLost [] [] None [], None))
  | Some largest =>
      let '(lost, loss_time) := split_lost largest now loss_delay packet_threshold (filter (λ p, p.1 < largest) (bt_list (in_flight t))) None in
      let '(flight, (packets, frames)) := take_packets (in_flight t) lost in
      (mkTracker (tr_next_pn t) flight (largest_acked t) (acked_sent_at t), (mkLost frames lost (max_list_N lost) packets, loss_time))
  end.

(** [newest_sent_at], [any_in_flight_larger_than], [forget_unsent]. *)
Definition newest_sent_at (t : SentTracker) : option N := match bt_last (in_flight t) with Some (_, f) => Some (fl_sent_at f) | None => None end.
Definition any_in_flight_larger_than (t : SentTracker) (size : N) : bool := existsb (λ f, size <? fl_size f) (bt_values (in_flight t)).
Definition forget_unsent (t : SentTracker) (pn : N) : SentTracker * bool :=
  let tracked := has_key (in_flight t) pn in
  (mkTracker (if tracked && (tr_next_pn t =? sat_add pn 1) then pn else tr_next_pn t) (delete pn (in_flight t)) (largest_acked t) (acked_sent_at t), tracked).

(** [forget_stream] and [drop_copied]: frames dropped from packets, and packets left empty forgotten. *)
Definition sat_sum (l : list N) : N := foldr sat_add 0 l.
Definition is_stream_frame (stream_id : N) (f : Frame) : bool := match f with FStream id _ _ _ => id =? stream_id | _ => false end.
Definition strip_packet (drop : Frame → bool) (p : InFlight) : InFlight * N :=
  let dropped := sat_sum (map tracked_bytes (List.filter drop (fl_frames p))) in
  (mkInFlight (List.filter (λ f, negb (drop f)) (fl_frames p)) (fl_sent_at p) (sat_sub (fl_bytes p) dropped) (fl_size p), dropped).
Definition kept_packet (p : InFlight) : option InFlight := if bool_decide (fl_frames p = []) then None else Some p.
Definition forget_stream (t : SentTracker) (stream_id : N) : SentTracker * N :=
  let strip p := strip_packet (is_stream_frame stream_id) p in
  (mkTracker (tr_next_pn t) (omap (λ p, kept_packet (strip p).1) (in_flight t)) (largest_acked t) (acked_sent_at t),
   sat_sum (map (λ p, (strip p).2) (bt_values (in_flight t)))).
Definition drop_copied (t : SentTracker) (pn : N) (copied : list Frame) : SentTracker * N :=
  match in_flight t !! pn with
  | None => (t, 0)
  | Some p =>
      let '(p, dropped) := strip_packet (λ f, bool_decide (f ∈ copied)) p in
      (mkTracker (tr_next_pn t) (match kept_packet p with Some p => <[pn := p]> (in_flight t) | None => delete pn (in_flight t) end) (largest_acked t) (acked_sent_at t), dropped)
  end.
(** [copy_oldest] and [persistent_congestion]. *)
Definition copy_oldest (t : SentTracker) : list Frame :=
  match List.find (λ f, existsb (λ g, negb (bool_decide (g = FPing))) (fl_frames f)) (bt_values (in_flight t)) with Some f => fl_frames f | None => [] end.
Definition min_list_N (l : list N) : option N := match l with [] => None | x :: l => Some (foldr N.min x l) end.
Definition persistent_congestion (t : SentTracker) (lost : list SentPacket) (duration : N) : bool :=
  match min_list_N (map pk_sent_at lost), max_list_N (map pk_sent_at lost) with
  | Some first, Some last => (duration <=? sat_sub last first) && negb (existsb (λ x, (first <=? x) && (x <=? last)) (bt_elems (acked_sent_at t)))
  | _, _ => false
  end.

(** * What the reliability core promises

    For [crates/transport/src/conn.rs]: no frame sent is lost track of, and a
    packet counted acknowledged was processed by the peer, exactly once. *)

#[local] Open Scope N_scope.

(** ** Frames in flight *)
Definition flying (m : gmap N InFlight) : list Frame := concat (map fl_frames (bt_values m)).
Lemma flying_list (m : gmap N InFlight) : flying m ≡ₚ concat (map fl_frames (map_to_list m).*2).
Proof. unfold flying, bt_values. by rewrite bt_list_perm. Qed.
Lemma flying_delete m pn f : m !! pn = Some f → flying m ≡ₚ fl_frames f ++ flying (delete pn m).
Proof. intros Hf. rewrite !flying_list, <- (map_to_list_delete m pn f Hf). done. Qed.
Lemma flying_insert m pn f : m !! pn = None → flying (<[pn := f]> m) ≡ₚ fl_frames f ++ flying m.
Proof. intros Hn. rewrite (flying_delete (<[pn := f]> m) pn f) by apply lookup_insert_eq. by rewrite delete_insert_id by done. Qed.
Lemma flying_empty : flying ∅ = [].
Proof. done. Qed.

(** Packets taken out of flight. *)
Definition without (m : gmap N InFlight) (pns : list N) (m' : gmap N InFlight) : Prop := ∀ q, m' !! q = if decide (q ∈ pns) then None else m !! q.
Lemma without_cons m pn pns m' : without (delete pn m) pns m' → without m (pn :: pns) m'.
Proof.
  intros Hw q. rewrite (Hw q). destruct (decide (q = pn)) as [->|Hne].
  - rewrite (decide_True (P := pn ∈ pn :: pns)) by (by left). rewrite lookup_delete_eq. by case_decide.
  - rewrite lookup_delete_ne by done. destruct (decide (q ∈ pns)); [by rewrite decide_True by (by right)|]. rewrite decide_False; [done|]. by intros [|]%elem_of_cons.
Qed.
Lemma without_absent m pn pns m' : m !! pn = None → without m pns m' → without m (pn :: pns) m'.
Proof. intros Hn Hw. apply without_cons. by rewrite delete_id. Qed.
Lemma take_acked_ok pns : ∀ flight times,
  let '(flight', _, (_, packets, frames)) := take_acked flight times pns in flying flight ≡ₚ frames ++ flying flight' ∧ without flight pns flight'.
Proof.
  induction pns as [|pn pns IH]; intros flight times; cbn [take_acked]; [split; [done|]; by intros q|]. destruct (flight !! pn) as [f|] eqn:E.
  - specialize (IH (delete pn flight) ({[fl_sent_at f]} ∪ times)). destruct (take_acked _ _ pns) as [[fl' tm'] [[b p] fr]]. destruct IH as [I1 I2].
    split; [by rewrite (flying_delete flight pn f E), I1, app_assoc|by apply without_cons].
  - specialize (IH flight times). destruct (take_acked _ _ pns) as [[fl' tm'] [[b p] fr]]. destruct IH as [I1 I2]. split; [done|by apply without_absent].
Qed.
Lemma take_packets_ok pns : ∀ flight,
  let '(flight', (packets, frames)) := take_packets flight pns in flying flight ≡ₚ frames ++ flying flight' ∧ without flight pns flight'.
Proof.
  induction pns as [|pn pns IH]; intros flight; cbn [take_packets]; [split; [done|]; by intros q|]. destruct (flight !! pn) as [f|] eqn:E.
  - specialize (IH (delete pn flight)). destruct (take_packets _ pns) as [fl' [p fr]]. destruct IH as [I1 I2].
    split; [by rewrite (flying_delete flight pn f E), I1, app_assoc|by apply without_cons].
  - specialize (IH flight). destruct (take_packets _ pns) as [fl' [p fr]]. destruct IH as [I1 I2]. split; [done|by apply without_absent].
Qed.

(** ** Acknowledgements free what they cover *)
Definition run_covers (runs : list (N * N)) (q : N) : Prop := ∃ low high, (low, high) ∈ runs ∧ low ≤ q ∧ q ≤ high.
#[export] Instance covered_dec runs q : Decision (run_covers runs q).
Proof.
  refine (cast_if (decide (Exists (λ p : N * N, p.1 ≤ q ∧ q ≤ p.2) runs))).
  - apply Exists_exists in e as ([low high]&Hin&H). by exists low, high.
  - intros (low&high&Hin&H). apply n, Exists_exists. by exists (low, high).
Defined.
Definition freed (t : SentTracker) (P : N → Prop) `{!∀ q, Decision (P q)} (pns : list N) (frames : list Frame) (t' : SentTracker) : Prop :=
  flying (in_flight t) ≡ₚ frames ++ flying (in_flight t') ∧ NoDup pns ∧ (∀ q, q ∈ pns ↔ is_Some (in_flight t !! q) ∧ P q)
  ∧ (∀ q, in_flight t' !! q = if decide (P q) then None else in_flight t !! q) ∧ tr_next_pn t' = tr_next_pn t.
Lemma keys_range {V} (m : gmap N V) low high : NoDup (map fst (bt_range_incl m low high)) ∧ ∀ q, q ∈ map fst (bt_range_incl m low high) ↔ is_Some (m !! q) ∧ low ≤ q ∧ q ≤ high.
Proof.
  split.
  - pose proof (bt_range_incl_sorted m low high) as Hs. induction Hs as [|p l _ IH Hall]; [constructor|]. cbn. constructor; [|done].
    intros ([k v]&E&Hin)%list_elem_of_fmap. rewrite Forall_forall in Hall. specialize (Hall _ Hin). unfold key_lt in Hall. cbn in *. lia.
  - intros q. rewrite list_elem_of_fmap. split.
    + intros ([k v]&->&(?&?&?)%bt_range_incl_elem). cbn. eauto.
    + intros ([v Hv]&?&?). exists (q, v). split; [done|]. by apply bt_range_incl_elem.
Qed.
Lemma on_ack_ok t largest range :
  let '(t', acked) := on_ack t largest range in freed t (λ q, largest - range ≤ q ∧ q ≤ largest) (ac_pns acked) (ac_frames acked) t'.
Proof.
  unfold on_ack, sat_sub. destruct (keys_range (in_flight t) (largest - range) largest) as [K1 K2]. set (pns := map fst _) in *.
  pose proof (take_acked_ok pns (in_flight t) (acked_sent_at t)) as Ht. destruct (take_acked _ _ pns) as [[fl' tm'] [[b p] fr]]. destruct Ht as [T1 T2].
  split_and!; try done. intros q. cbn [in_flight]. rewrite (T2 q). destruct (in_flight t !! q) as [f|] eqn:E; [|by repeat case_decide].
  repeat case_decide; try done; [exfalso; apply H0, K2; done|exfalso; apply H, K2; eauto].
Qed.
Lemma on_ack_runs_ok runs : ∀ t, Forall (λ p, p.1 ≤ p.2) runs →
  let '(t', acked) := on_ack_runs t runs in freed t (run_covers runs) (ac_pns acked) (ac_frames acked) t'.
Proof.
  induction runs as [|[low high] runs IH]; intros t Hle; cbn [on_ack_runs].
  - split_and!; cbn [ac_pns ac_frames]; try done; [by apply NoDup_nil|].
    intros q. split; [by intros ?%elem_of_nil|]. intros (_&l&h&?%elem_of_nil&_). done.
  - apply Forall_cons in Hle as [Hl Hle]. cbn in Hl. unfold sat_sub. pose proof (on_ack_ok t high (high - low)) as H1. destruct (on_ack t high (high - low)) as [t1 a1].
    specialize (IH t1 Hle). destruct (on_ack_runs t1 runs) as [t2 a2]. destruct H1 as (P1&N1&M1&L1&X1), IH as (P2&N2&M2&L2&X2). replace (high - (high - low)) with low in * by lia.
    assert (∀ q, run_covers ((low, high) :: runs) q ↔ low ≤ q ∧ q ≤ high ∨ run_covers runs q) as Hc.
    { intros q. unfold run_covers. setoid_rewrite elem_of_cons. split; [intros (l&h&[[= -> ->]|Hin]&Hq); [auto|right; eauto]|]. intros [?|(l&h&Hin&Hq)]; eauto 6. }
    split_and!; cbn [ac_pns ac_frames].
    + by rewrite P1, P2, app_assoc.
    + apply NoDup_app. split_and!; [done| |done]. intros q Hq (Hs&_)%M2. apply M1 in Hq as [_ Hq]. rewrite L1, decide_True in Hs by done. by destruct Hs.
    + intros q. rewrite elem_of_app, M1, M2, L1, Hc. destruct (decide (low ≤ q ∧ q ≤ high)); [|tauto]. split; [intros [|[[? ?] _]]; [tauto|done]|tauto].
    + intros q. rewrite L2, L1. destruct (decide (run_covers ((low, high) :: runs) q)) as [Hy|Hn]; rewrite Hc in *; repeat case_decide; done || tauto.
    + congruence.
Qed.
Lemma ack_runs_le largest range ranges : Forall (λ p, p.1 ≤ p.2) (ack_runs largest range ranges).
Proof.
  unfold ack_runs, sat_sub. constructor; [cbn; lia|]. generalize (largest - range). induction ranges as [|r ranges IH]; intros prev; cbn [further_runs]; [constructor|].
  constructor; [cbn; unfold sat_sub; lia|apply IH].
Qed.

(** ** Loss *)
Lemma split_lost_ok largest now loss_delay threshold below : ∀ time,
  let '(lost, time') := split_lost largest now loss_delay threshold below time in
  lost = map fst (List.filter (λ p, is_lost largest now loss_delay threshold p.1 p.2) below)
  ∧ (∀ pn f, (pn, f) ∈ below → is_lost largest now loss_delay threshold pn f = false → ∃ due, time' = Some due ∧ due ≤ sat_add (fl_sent_at f) loss_delay)
  ∧ (∀ x, time = Some x → ∃ due, time' = Some due ∧ due ≤ x)
  ∧ (∀ due, time' = Some due → time = Some due ∨ ∃ pn f, (pn, f) ∈ below ∧ is_lost largest now loss_delay threshold pn f = false ∧ due = sat_add (fl_sent_at f) loss_delay).
Proof.
  induction below as [|[pn f] below IH]; intros time; cbn [split_lost].
  { split_and!; [done|by intros pn f ?%elem_of_nil|intros x ->; eauto|auto]. }
  destruct (is_lost largest now loss_delay threshold pn f) eqn:El.
  - specialize (IH time). destruct (split_lost _ _ _ _ below time) as [lost time']. destruct IH as (I1&I2&I3&I4). split_and!.
    + cbn [List.filter fst snd]. rewrite El. cbn. by rewrite I1.
    + intros q g [[= -> ->]|Hin]%elem_of_cons Hl; [congruence|by eapply I2].
    + done.
    + intros due [|(q&g&Hin&Hg)]%I4; [auto|right]. exists q, g. split; [by right|done].
  - set (due0 := match time with Some earliest => _ | None => _ end). specialize (IH (Some due0)). destruct (split_lost _ _ _ _ below _) as [lost time']. destruct IH as (I1&I2&I3&I4).
    assert (due0 ≤ sat_add (fl_sent_at f) loss_delay) as H0 by (unfold due0; destruct time; lia). destruct (I3 due0 eq_refl) as (d&Ed&Hd). split_and!.
    + cbn [List.filter fst snd]. rewrite El. done.
    + intros q g [[= -> ->]|Hin]%elem_of_cons Hl; [exists d; split; [done|lia]|by eapply I2].
    + intros x ->. exists d. split; [done|]. unfold due0 in Hd. lia.
    + intros due Hx. destruct (I4 due Hx) as [[= <-]|(q&g&Hin&Hg)]; [|right; exists q, g; split; [by right|done]]. unfold due0. destruct time as [x|]; [|right; exists pn, f; split; [by left|done]].
      destruct (N.min_spec x (sat_add (fl_sent_at f) loss_delay)) as [[_ ->]|[_ ->]]; [by left|right; exists pn, f; split; [by left|done]].
Qed.
(** A packet is declared lost exactly when it is below the largest acknowledged one and past a threshold; the timer is the
    earliest time at which another would be. *)
Definition below_largest (t : SentTracker) (q : N) (f : InFlight) (largest : N) : Prop := largest_acked t = Some largest ∧ in_flight t !! q = Some f ∧ q < largest.
Lemma take_lost_ok t now loss_delay threshold :
  let '(t', (lost, time)) := take_lost t now loss_delay threshold in
  flying (in_flight t) ≡ₚ lo_frames lost ++ flying (in_flight t') ∧ NoDup (lo_pns lost) ∧ without (in_flight t) (lo_pns lost) (in_flight t')
  ∧ (tr_next_pn t', largest_acked t') = (tr_next_pn t, largest_acked t)
  ∧ (∀ q, q ∈ lo_pns lost ↔ ∃ f largest, below_largest t q f largest ∧ is_lost largest now loss_delay threshold q f = true)
  ∧ (∀ q f largest, below_largest t q f largest → q ∉ lo_pns lost → ∃ due, time = Some due ∧ due ≤ sat_add (fl_sent_at f) loss_delay).
Proof.
  unfold take_lost, below_largest. destruct (largest_acked t) as [largest|] eqn:El.
  2:{ split_and!; cbn [lo_frames lo_pns].
      - done.
      - by apply NoDup_nil.
      - by intros q.
      - by rewrite El.
      - intros q. split; [by intros ?%elem_of_nil|]. by intros (?&?&(?&_)&_).
      - by intros q f l (?&_). }
  set (below := filter (λ p : N * InFlight, p.1 < largest) (bt_list (in_flight t))). pose proof (split_lost_ok largest now loss_delay threshold below None) as Hs.
  destruct (split_lost _ _ _ _ below None) as [lost time]. destruct Hs as (S1&S2&_&_). pose proof (take_packets_ok lost (in_flight t)) as Ht.
  destruct (take_packets (in_flight t) lost) as [fl' [packets frames]]. destruct Ht as [T1 T2]. cbn [lo_frames lo_pns in_flight].
  assert (∀ q f, (q, f) ∈ below ↔ in_flight t !! q = Some f ∧ q < largest) as Hb by (intros q f; unfold below; rewrite list_elem_of_filter, elem_of_bt_list; cbn; tauto).
  assert (∀ q, q ∈ lost ↔ ∃ f, in_flight t !! q = Some f ∧ q < largest ∧ is_lost largest now loss_delay threshold q f = true) as Hq.
  { intros q. rewrite S1, list_elem_of_fmap. split.
    - intros ([k f]&->&Hin). apply list_elem_of_In, List.filter_In in Hin as [Hin Hl]. apply list_elem_of_In, Hb in Hin as [? ?]. eauto.
    - intros (f&H1&H2&H3). exists (q, f). split; [done|]. apply list_elem_of_In, List.filter_In. split; [|done]. apply list_elem_of_In. by apply Hb. }
  split_and!; try done.
  - rewrite S1. assert (StronglySorted key_lt (List.filter (λ p : N * InFlight, is_lost largest now loss_delay threshold p.1 p.2) below)) as Hss.
    { assert (StronglySorted key_lt below) as Hs by apply sorted_filter, bt_list_sorted. clear -Hs. induction Hs as [|p l _ IH Hall]; [constructor|]. cbn. destruct (is_lost _ _ _ _ _ _); [|done].
      constructor; [done|]. rewrite Forall_forall in *. intros r Hr. apply Hall. apply list_elem_of_In in Hr. apply List.filter_In in Hr as [Hr _]. by apply list_elem_of_In. }
    clear -Hss. induction Hss as [|p l _ IH Hall]; [by apply NoDup_nil|]. cbn. constructor; [|done]. intros ([k v]&E&Hin)%list_elem_of_fmap. rewrite Forall_forall in Hall.
    specialize (Hall _ Hin). unfold key_lt in Hall. cbn in *. lia.
  - intros q. rewrite Hq. split; [intros (f&H1&H2&H3); exists f, largest; done|]. intros (f&l&([= <-]&H1&H2)&H3). eauto.
  - intros q f l ([= <-]&H1&H2) Hn. apply (S2 q f); [by apply Hb|]. destruct (is_lost largest now loss_delay threshold q f) eqn:E; [|done]. exfalso. apply Hn, Hq. eauto.
Qed.

(** ** A link *)

(** The sender's packets in flight, the receiver's ranges, the packet numbers and acknowledgements the network has taken; what
    was sent, acknowledged, declared lost, dropped on purpose and processed so far. *)
Record Link := mkLink {
  lk_tracker : SentTracker; lk_gen : AckGenerator; lk_net : gset N; lk_acks : list Frame;
  lk_sent : list Frame; lk_acked : list Frame; lk_lost : list Frame; lk_dropped : list Frame; lk_acked_pns : list N; lk_processed : list N }.
Inductive LinkEvent :=
| LSend (frames : list Frame) (now size : N) | LArrive (pn : N) | LEmit (max_ranges : N) | LConfirm (largest : N) | LAck (f : Frame) | LLoss (now loss_delay threshold : N)
| LRefused (frames : list Frame) (now size : N) | LForget (stream_id : N) | LDropCopied (pn : N) (copied : list Frame).
(** The frames [forget_stream] and [drop_copied] take out. *)
Definition forgotten (t : SentTracker) (stream_id : N) : list Frame := List.filter (is_stream_frame stream_id) (flying (in_flight t)).
Definition redundant (t : SentTracker) (pn : N) (copied : list Frame) : list Frame :=
  match in_flight t !! pn with Some p => List.filter (λ f, bool_decide (f ∈ copied)) (fl_frames p) | None => [] end.
Definition link_event (k : Link) (e : LinkEvent) : Link :=
  let 'mkLink t g net acks sent acked lost dropped apns processed := k in
  match e with
  | LSend frames now size =>
      match next_pn t with
      | (t, Some pn) => mkLink (on_sent t pn frames now size) g ({[pn]} ∪ net) acks (sent ++ frames) acked lost dropped apns processed
      | (_, None) => k
      end
  | LArrive pn =>
      if decide (pn ∈ net) then let '(g, p) := ack_event g (Arrives pn) in mkLink t g net acks sent acked lost dropped apns (processed ++ p) else k
  | LEmit max_ranges => match ack_frame g max_ranges with Some f => mkLink t g net (f :: acks) sent acked lost dropped apns processed | None => k end
  | LConfirm largest => if largest <? u64_max then mkLink t (confirm g largest) net acks sent acked lost dropped apns processed else k
  | LAck f =>
      if decide (f ∈ acks) then
        match f with
        | FAck largest range ranges =>
            let '(t, a) := on_ack_frame t largest range ranges in mkLink t g net acks sent (acked ++ ac_frames a) lost dropped (apns ++ ac_pns a) processed
        | _ => k
        end
      else k
  | LLoss now loss_delay threshold => let '(t, (l, _)) := take_lost t now loss_delay threshold in mkLink t g net acks sent acked (lost ++ lo_frames l) dropped apns processed
  | LRefused frames now size =>
      match next_pn t with
      | (t, Some pn) => mkLink (forget_unsent (on_sent t pn frames now size) pn).1 g net acks sent acked lost dropped apns processed
      | (_, None) => k
      end
  | LForget stream_id => mkLink (forget_stream t stream_id).1 g net acks sent acked lost (dropped ++ forgotten t stream_id) apns processed
  | LDropCopied pn copied => mkLink (drop_copied t pn copied).1 g net acks sent acked lost (dropped ++ redundant t pn copied) apns processed
  end.
Definition link_new (max_ranges : N) : Link := mkLink tracker_new (ackgen_new max_ranges) ∅ [] [] [] [] [] [] [].
Definition link_events (k : Link) (es : list LinkEvent) : Link := foldl link_event k es.

Record lk_ok (k : Link) : Prop := {
  ko_gen : ackgen_ok (lk_gen k);
  ko_net : ∀ pn, pn ∈ lk_net k → pn < tr_next_pn (lk_tracker k);
  ko_space : tr_next_pn (lk_tracker k) ≤ PACKET_NUMBER_SPACE;
  ko_flight : ∀ pn, is_Some (in_flight (lk_tracker k) !! pn) → pn < tr_next_pn (lk_tracker k);
  ko_frames : lk_sent k ≡ₚ lk_acked k ++ lk_lost k ++ lk_dropped k ++ flying (in_flight (lk_tracker k));
  ko_processed : NoDup (lk_processed k) ∧ ∀ q, q ∈ lk_processed k → seen (lk_gen k) q ∧ q ∈ lk_net k;
  ko_held : ∀ q, held (ag_ranges (lk_gen k)) q → q ∈ lk_processed k;
  ko_acks : ∀ f, f ∈ lk_acks k → ∃ largest range ranges, f = FAck largest range ranges ∧ ∀ q, run_covers (ack_runs largest range ranges) q → q ∈ lk_processed k;
  ko_acked : NoDup (lk_acked_pns k) ∧ ∀ q, q ∈ lk_acked_pns k → q ∈ lk_processed k ∧ in_flight (lk_tracker k) !! q = None
}.
(** Packets stripped of frames: what flew is what still flies and what was stripped. *)
Lemma filter_split {A} (f : A → bool) l : l ≡ₚ List.filter f l ++ List.filter (λ x, negb (f x)) l.
Proof. induction l as [|a l IH]; [done|]. cbn. destruct (f a); cbn; rewrite <- ?Permutation_middle; by constructor. Qed.
#[local] Instance filter_perm {A} (f : A → bool) : Proper (Permutation ==> Permutation) (List.filter f).
Proof.
  intros l l' Hp. induction Hp as [|x l l' _ IH|x y l|l1 l2 l3 _ IH1 _ IH2]; cbn; [done| | |by rewrite IH1].
  - destruct (f x); [by constructor|done].
  - destruct (f x), (f y); [by constructor|done..].
Qed.
Lemma strip_frames drop p : fl_frames (strip_packet drop p).1 = List.filter (λ f, negb (drop f)) (fl_frames p).
Proof. done. Qed.
Lemma flying_strip drop m : flying (omap (λ p, kept_packet (strip_packet drop p).1) m) ≡ₚ List.filter (λ f, negb (drop f)) (flying m).
Proof.
  induction m as [|pn p m Hn IH] using map_ind; [done|]. rewrite flying_insert, List.filter_app by done. rewrite omap_insert. unfold kept_packet at 1. rewrite strip_frames. case_bool_decide as E.
  - rewrite E. cbn [app]. rewrite <- IH. rewrite delete_id; [done|]. by rewrite lookup_omap, Hn.
  - rewrite flying_insert by (by rewrite lookup_omap, Hn). by rewrite strip_frames, IH.
Qed.
Lemma forget_stream_ok t stream_id : let t' := (forget_stream t stream_id).1 in
  flying (in_flight t) ≡ₚ forgotten t stream_id ++ flying (in_flight t') ∧ tr_next_pn t' = tr_next_pn t ∧ ∀ q, in_flight t !! q = None → in_flight t' !! q = None.
Proof.
  cbn zeta. unfold forget_stream. cbn [fst in_flight tr_next_pn]. split_and!; [|done|intros q Hq; by rewrite lookup_omap, Hq]. rewrite flying_strip. apply filter_split.
Qed.
Lemma drop_copied_ok t pn copied : let t' := (drop_copied t pn copied).1 in
  flying (in_flight t) ≡ₚ redundant t pn copied ++ flying (in_flight t') ∧ tr_next_pn t' = tr_next_pn t ∧ ∀ q, in_flight t !! q = None → in_flight t' !! q = None.
Proof.
  unfold drop_copied, redundant. destruct (in_flight t !! pn) as [p|] eqn:E; [|done]. destruct (strip_packet _ p) as [p' dropped] eqn:Es. cbn [fst in_flight tr_next_pn].
  assert (fl_frames p' = List.filter (λ f, negb (bool_decide (f ∈ copied))) (fl_frames p)) as Ef by (injection Es as <- _; done).
  rewrite (flying_delete _ pn p E). pose proof (filter_split (λ f, bool_decide (f ∈ copied)) (fl_frames p)) as Hs. cbn beta in Hs. rewrite <- Ef in Hs.
  set (gone := List.filter (λ f, bool_decide (f ∈ copied)) (fl_frames p)) in *. rewrite Hs, <- app_assoc. unfold kept_packet. case_bool_decide as En.
  - rewrite En. split_and!; [done|done|]. intros q Hq. by rewrite lookup_delete_None; right.
  - split_and!; [|done|].
    + rewrite <- insert_delete_eq, flying_insert; [done|by rewrite lookup_delete_eq].
    + intros q Hq. rewrite lookup_insert_ne; [done|]. congruence.
Qed.
(** The local stack's refusal leaves the tracker as it was. *)
Lemma refused_ok t frames now size :
  (∀ pn, is_Some (in_flight t !! pn) → pn < tr_next_pn t) → tr_next_pn t ≤ PACKET_NUMBER_SPACE →
  match next_pn t with (t', Some pn) => (forget_unsent (on_sent t' pn frames now size) pn).1 = t | _ => True end.
Proof.
  intros FL SP. unfold next_pn. destruct (exhausted t); [done|]. assert (PACKET_NUMBER_SPACE < u64_max) as Hsp by done.
  rewrite (proj2 (checked_add_some (tr_next_pn t) 1 (tr_next_pn t + 1))) by lia. unfold forget_unsent, on_sent, has_key. cbn [tr_next_pn in_flight fst largest_acked acked_sent_at].
  rewrite lookup_insert_eq, sat_add_small, N.eqb_refl by lia. cbn.
  assert (in_flight t !! tr_next_pn t = None) as Hn by (destruct (in_flight t !! tr_next_pn t) eqn:E; [|done]; specialize (FL _ (mk_is_Some _ _ E)); lia).
  rewrite delete_insert_id by done. by destruct t.
Qed.
Lemma link_drop_ok k t' gone :
  lk_ok k → flying (in_flight (lk_tracker k)) ≡ₚ gone ++ flying (in_flight t') → tr_next_pn t' = tr_next_pn (lk_tracker k) →
  (∀ q, in_flight (lk_tracker k) !! q = None → in_flight t' !! q = None) →
  lk_ok (mkLink t' (lk_gen k) (lk_net k) (lk_acks k) (lk_sent k) (lk_acked k) (lk_lost k) (lk_dropped k ++ gone) (lk_acked_pns k) (lk_processed k)).
Proof.
  intros [G NT SP FL FR PR HE AK [A1 A2]] Hfl Hn Hq. split; cbn; rewrite ?Hn; try done.
  - intros pn Hs. apply FL. destruct (in_flight (lk_tracker k) !! pn) eqn:E; [done|]. rewrite (Hq pn E) in Hs. by destruct Hs.
  - rewrite FR, Hfl. by rewrite <- app_assoc.
  - split; [done|]. intros q Hin. destruct (A2 q Hin). eauto.
Qed.
Lemma link_new_ok max_ranges : lk_ok (link_new max_ranges).
Proof.
  split; cbn; try done.
  - apply ackgen_new_ok.
  - intros pn [x Hx]. by rewrite lookup_empty in Hx.
  - split; [by apply NoDup_nil|by intros q ?%elem_of_nil].
  - intros q (low&high&Hl&_). by rewrite lookup_empty in Hl.
  - by intros f ?%elem_of_nil.
  - split; [by apply NoDup_nil|by intros q ?%elem_of_nil].
Qed.
(** A frame the receiver emits names only packets it processed. *)
Lemma emitted_runs g max_ranges f :
  ackgen_ok g → ack_frame g max_ranges = Some f →
  ∃ largest range ranges, f = FAck largest range ranges ∧ ∀ q, run_covers (ack_runs largest range ranges) q → held (ag_ranges g) q.
Proof.
  intros Hg Hf. destruct (ack_frame_runs g max_ranges f Hg Hf) as (largest&range&ranges&->&E). exists largest, range, ranges. split; [done|].
  rewrite E. intros q (low&high&Hin&Hq). exists low, high. split; [|done]. unfold takeN in Hin. apply list_elem_of_lookup in Hin as [i [Hi _]%lookup_take_Some].
  apply list_elem_of_lookup_2 in Hi. rewrite elem_of_rev in Hi. by apply elem_of_bt_list.
Qed.
Lemma link_send_ok k frames now size : lk_ok k → lk_ok (link_event k (LSend frames now size)).
Proof.
  intros Hk. destruct k as [t g net acks sent acked lost dropped apns processed]. cbn [link_event]. unfold next_pn, exhausted. destruct (N.leb_spec PACKET_NUMBER_SPACE (tr_next_pn t)) as [|Hlt]; [done|].
  assert (PACKET_NUMBER_SPACE ≤ u64_max) as Hsp by done. rewrite (proj2 (checked_add_some (tr_next_pn t) 1 (tr_next_pn t + 1))) by lia.
  destruct Hk as [G NT SP FL FR [P1 P2] HE AK [A1 A2]]. cbn in *.
  assert (in_flight t !! tr_next_pn t = None) as Hn by (destruct (in_flight t !! tr_next_pn t) eqn:E; [|done]; specialize (FL _ (mk_is_Some _ _ E)); lia).
  split; cbn; try done.
  - intros pn [->%elem_of_singleton|Hin%NT]%elem_of_union; lia.
  - lia.
  - intros pn Hs. destruct (decide (pn = tr_next_pn t)) as [->|Hne]; [lia|]. rewrite lookup_insert_ne in Hs by done. specialize (FL _ Hs). lia.
  - rewrite flying_insert by done. cbn [fl_frames]. rewrite FR, <- !app_assoc. do 3 apply Permutation_app_head. apply Permutation_app_comm.
  - split; [done|]. intros q Hq. destruct (P2 q Hq). set_solver.
  - split; [done|]. intros q Hq. destruct (A2 q Hq) as [Hp Hfl]. split; [done|]. destruct (P2 q Hp) as [_ Hq'%NT]. rewrite lookup_insert_ne by lia. done.
Qed.
Lemma link_receiver_ok k g' p :
  lk_ok k → ackgen_ok g' → NoDup p → (∀ q, q ∈ p → ¬ seen (lk_gen k) q ∧ seen g' q ∧ q ∈ lk_net k) → (∀ q, seen (lk_gen k) q → seen g' q) →
  (∀ q, held (ag_ranges g') q → held (ag_ranges (lk_gen k)) q ∨ q ∈ p) →
  lk_ok (mkLink (lk_tracker k) g' (lk_net k) (lk_acks k) (lk_sent k) (lk_acked k) (lk_lost k) (lk_dropped k) (lk_acked_pns k) (lk_processed k ++ p)).
Proof.
  intros [G NT SP FL FR [P1 P2] HE AK [A1 A2]] Hg Hp Hnew Hmono Hheld. split; cbn; try done.
  - split.
    + apply NoDup_app. split_and!; [done| |done]. intros q Hq Hq'. destruct (Hnew q Hq') as [[] _]. by apply P2.
    + intros q [Hq|Hq]%elem_of_app; [destruct (P2 q Hq); eauto|]. destruct (Hnew q Hq) as (_&?&?). done.
  - intros q [Hq|Hq]%Hheld; apply elem_of_app; [left; by apply HE|by right].
  - intros f Hf. destruct (AK f Hf) as (l&r&rs&->&Hc). exists l, r, rs. split; [done|]. intros q Hq. apply elem_of_app. left. by apply Hc.
  - split; [done|]. intros q Hq. destruct (A2 q Hq). split; [apply elem_of_app; by left|done].
Qed.
Lemma link_event_ok k e : lk_ok k → lk_ok (link_event k e).
Proof.
  intros Hk. destruct e as [frames now size|pn|max_ranges|largest|f|now loss_delay threshold|frames now size|stream_id|pn copied]; [by apply link_send_ok|..];
    destruct k as [t g net acks sent acked lost dropped apns processed]; cbn [link_event].
  - case_decide as Hin; [|done]. pose proof (ko_net _ Hk pn Hin) as Hpn. pose proof (ko_space _ Hk) as Hsp. cbn in Hpn, Hsp. assert (PACKET_NUMBER_SPACE ≤ u64_max) by done.
    pose proof (ack_event_ok g (Arrives pn) (ko_gen _ Hk) ltac:(cbn; lia)) as (A1&A2&A3&A4&A5&_). cbn zeta. cbn [ack_event].
    apply (link_receiver_ok _ _ _ Hk A1 A2); cbn; [|done|done]. intros q Hq. destruct (A3 q Hq). split_and!; [done..|]. destruct (is_duplicate g pn); [by apply elem_of_nil in Hq|].
    by apply list_elem_of_singleton in Hq as ->.
  - destruct (ack_frame g max_ranges) as [f|] eqn:Ef; [|done]. destruct (emitted_runs g max_ranges f (ko_gen _ Hk) Ef) as (l&r&rs&->&Hc).
    destruct Hk as [G NT SP FL FR PR HE AK AC]. split; cbn in *; try done. intros f [->|Hf]%elem_of_cons; [|by apply AK]. exists l, r, rs. split; [done|]. intros q Hq. by apply HE, Hc.
  - destruct (N.ltb_spec largest u64_max) as [Hl|]; [|done]. pose proof (ack_event_ok g (Confirmed largest) (ko_gen _ Hk) Hl) as (A1&A2&A3&A4&A5&_).
    rewrite <- (app_nil_r processed). apply (link_receiver_ok _ _ _ Hk A1 A2); [by intros q ?%elem_of_nil|done|done].
  - case_decide as Hin; [|done]. destruct (ko_acks _ Hk f Hin) as (l&r&rs&->&Hc). unfold on_ack_frame.
    pose proof (on_ack_runs_ok (ack_runs l r rs) t (ack_runs_le l r rs)) as Ho. destruct (on_ack_runs t _) as [t' a]. destruct Ho as (O1&O2&O3&O4&O5).
    destruct Hk as [G NT SP FL FR PR HE AK [A1 A2]]. split; cbn in *; rewrite ?O5; try done.
    + intros pn Hs. apply FL. rewrite O4 in Hs. case_decide; [by destruct Hs|done].
    + rewrite FR, O1, <- app_assoc. apply Permutation_app_head. rewrite (Permutation_app_swap_app dropped), (Permutation_app_swap_app lost). done.
    + split.
      * apply NoDup_app. split_and!; [done| |done]. intros q Hq (Hs&_)%O3. destruct (A2 q Hq) as [_ E]. rewrite E in Hs. by destruct Hs.
      * intros q [Hq|Hq]%elem_of_app; [destruct (A2 q Hq) as [? E]|apply O3 in Hq as [_ Hq]]; rewrite O4; [split; [done|by case_decide]|]. split; [by apply Hc|by rewrite decide_True].
  - pose proof (take_lost_ok t now loss_delay threshold) as Ht. destruct (take_lost t now loss_delay threshold) as [t' [l time]]. destruct Ht as (T1&T2&T3&[= T4 _]&_).
    destruct Hk as [G NT SP FL FR PR HE AK [A1 A2]]. split; cbn in *; rewrite ?T4; try done.
    + intros pn Hs. apply FL. rewrite (T3 pn) in Hs. case_decide; [by destruct Hs|done].
    + rewrite FR, T1, <- app_assoc. do 2 apply Permutation_app_head. apply Permutation_app_swap_app.
    + split; [done|]. intros q Hq. destruct (A2 q Hq) as [? E]. split; [done|]. rewrite (T3 q), E. by case_decide.
  - pose proof (refused_ok t frames now size (ko_flight _ Hk) (ko_space _ Hk)) as Hr. destruct (next_pn t) as [t1 [pn|]]; [by rewrite Hr|done].
  - destruct (forget_stream_ok t stream_id) as (F1&F2&F3). by apply (link_drop_ok _ _ _ Hk).
  - destruct (drop_copied_ok t pn copied) as (F1&F2&F3). by apply (link_drop_ok _ _ _ Hk).
Qed.
Lemma link_event_max k e : lk_ok k → ag_max (lk_gen (link_event k e)) = ag_max (lk_gen k).
Proof.
  intros Hk. destruct k as [t g net acks sent acked lost dropped apns processed], e as [frames now size|pn|max_ranges|largest|f|now loss_delay threshold|frames now size|stream_id|pn copied]; cbn [link_event].
  - by destruct (next_pn t) as [? []].
  - case_decide as Hin; [|done]. pose proof (ko_net _ Hk pn Hin) as Hpn. pose proof (ko_space _ Hk) as Hsp. cbn in Hpn, Hsp. assert (PACKET_NUMBER_SPACE ≤ u64_max) by done.
    by pose proof (ack_event_ok g (Arrives pn) (ko_gen _ Hk) ltac:(cbn; lia)) as (_&_&_&_&_&?).
  - by destruct (ack_frame g max_ranges).
  - destruct (N.ltb_spec largest u64_max) as [Hl|]; [|done]. by pose proof (ack_event_ok g (Confirmed largest) (ko_gen _ Hk) Hl) as (_&_&_&_&_&?).
  - case_decide; [|done]. destruct f; try done. by destruct (on_ack_frame _ _ _ _).
  - by destruct (take_lost t now loss_delay threshold) as [? [? ?]].
  - by destruct (next_pn t) as [? []].
  - done.
  - done.
Qed.
Lemma link_events_ok es : ∀ k, lk_ok k → lk_ok (link_events k es) ∧ ag_max (lk_gen (link_events k es)) = ag_max (lk_gen k).
Proof. induction es as [|e es IH]; intros k Hk; [done|]. destruct (IH _ (link_event_ok k e Hk)) as [? E]. split; [done|]. etrans; [exact E|by apply link_event_max]. Qed.

(** ** The claims *)

(** C19. Whatever the network loses, repeats and reorders, of packets and of acknowledgements, and whenever losses are declared
    and acknowledgements confirmed: no packet is processed twice; a packet counts as acknowledged once at most, and only when the
    peer processed it; every frame sent is acknowledged, declared lost, dropped with its stream or as a copy, or still in
    flight, each exactly once, a datagram the local stack refused leaving no trace; and the receiver
    never holds more ranges than its bound. *)
Theorem acknowledged_was_processed (max_ranges : N) (es : list LinkEvent) :
  let k := link_events (link_new max_ranges) es in
  NoDup (lk_processed k) ∧ NoDup (lk_acked_pns k) ∧ (∀ pn, pn ∈ lk_acked_pns k → pn ∈ lk_processed k)
  ∧ lk_sent k ≡ₚ lk_acked k ++ lk_lost k ++ lk_dropped k ++ flying (in_flight (lk_tracker k))
  ∧ N.of_nat (size (ag_ranges (lk_gen k))) ≤ N.max max_ranges 1.
Proof.
  destruct (link_events_ok es (link_new max_ranges) (link_new_ok max_ranges)) as [Hk Em]. cbn zeta. set (k := link_events _ es) in *. cbn in Em. destruct Hk as [G _ _ _ FR [P1 _] _ _ [A1 A2]].
  split_and!; [done..|intros pn Hpn; by apply A2|done|]. rewrite <- Em. by apply ao_size.
Qed.
