(* ===== verification/Flight.v ===== *)
(** * Handshake flights

    Models [crates/transport/src/flight.rs]: a handshake flight is cut into
    fragments of a datagram each, sealed or in the clear, and put together
    again by the peer, flight by flight, however its datagrams arrive. *)

From S2P Require Import Prelude BuddyBits.
#[local] Open Scope N_scope.

(** ** The format *)
Definition MIN_DATAGRAM_BYTES : N := 1200.
Definition FIXED_BIT : N := 64.
Definition FRAGMENT_TAG : N := 128.
Definition AT_START : N := 1.
Definition AT_WITHIN : N := AT_START + 2.
Definition AT_TOTAL : N := AT_WITHIN + 2.
Definition AT_LEN : N := AT_TOTAL + 2.
Definition FRAGMENT_HEADER : N := AT_LEN + 2.
Definition FRAGMENT_PAYLOAD : N := MIN_DATAGRAM_BYTES - FRAGMENT_HEADER.
Definition SEALED_FRAGMENT_TAG : N := 129.
Definition SEALED_NUMBER_BYTES : N := 4.
Definition SEALED_HEADER : N := 1 + SEALED_NUMBER_BYTES.
Definition SEALED_TAG_BYTES : N := 16.
Definition SEALED_FRAGMENT_PAYLOAD : N := MIN_DATAGRAM_BYTES - SEALED_HEADER - (FRAGMENT_HEADER - 1) - SEALED_TAG_BYTES.
Definition MAX_FLIGHT_BYTES : N := 16 * MIN_DATAGRAM_BYTES.
Definition MAX_FLIGHT_FRAGMENTS : N := div_ceil MAX_FLIGHT_BYTES SEALED_FRAGMENT_PAYLOAD.
Definition MAX_STREAM_BYTES : N := u16_max.

(** ** Cutting a flight *)
Definition u16_try_from (n : N) : option N := if n <=? u16_max then Some n else None.
Definition fragment_datagram (start within total : N) (piece : bytes) : bytes :=
  [byte_of FRAGMENT_TAG] ++ le_bytes 2 start ++ le_bytes 2 within ++ le_bytes 2 total ++ le_bytes 2 (len piece) ++ piece.
(** [fragment_within]: the loop takes at least a byte a turn. *)
Fixpoint fragment_loop (fuel : nat) (flight : bytes) (start payload within : N) : option (list bytes) :=
  match fuel with
  | O => None
  | S fuel =>
      if within <? len flight then
        next ← checked_add within payload;
        let end_ := N.min (len flight) next in
        at_ ← u16_try_from within; _ ← u16_try_from (sat_sub end_ within); piece ← get_range flight within end_;
        rest ← fragment_loop fuel flight start payload end_;
        Some (fragment_datagram start at_ (len flight) piece :: rest)
      else Some []
  end.
Definition fragment_within (flight : bytes) (start payload : N) : option (list bytes) :=
  if MAX_FLIGHT_BYTES <? len flight then None else
  stop ← checked_add start (len flight);
  if (MAX_STREAM_BYTES <? stop) || (payload =? 0) then None else
  start_word ← u16_try_from start; _ ← u16_try_from (len flight);
  fragment_loop (S (length flight)) flight start_word payload 0.
Definition fragment (flight : bytes) (start : N) : option (list bytes) := fragment_within flight start FRAGMENT_PAYLOAD.
(** [pad]. *)
Definition pad (datagram : bytes) (to : N) : bytes :=
  if len datagram <? to then datagram ++ replicate (N.to_nat (to - len datagram)) (byte_of 0) else datagram.

(** [is_short_header] of [endpoint.rs], [is_fragment], [is_sealed_fragment]. *)
Definition is_short_header (datagram : bytes) : bool := match head datagram with Some b => negb (N.land (byte_val b) FIXED_BIT =? 0) | None => false end.
Definition is_fragment (datagram : bytes) : bool := negb (is_short_header datagram) && bool_decide (head datagram = Some (byte_of FRAGMENT_TAG)).
Definition is_sealed_fragment (datagram : bytes) : bool := negb (is_short_header datagram) && bool_decide (head datagram = Some (byte_of SEALED_FRAGMENT_TAG)).

(** ** Sealing *)

(** [rustls::quic::PacketKey]: what sealing and opening take of it. *)
Record PacketKey := mkKey {
  encrypt_in_place : N → bytes → bytes → option (bytes * bytes);
  decrypt_in_place : N → bytes → bytes → option bytes }.
Inductive SealRefusal := TooLarge | NumbersExhausted | Sealing.
Definition sealed_header (number : N) : bytes := [byte_of SEALED_FRAGMENT_TAG] ++ le_bytes 4 number.
(** [seal]: the loop over the fragments, with the number it moves. *)
Fixpoint seal_all (key : PacketKey) (plain : list bytes) (next_number : N) : N * result SealRefusal (list bytes) :=
  match plain with
  | [] => (next_number, Ok [])
  | fragment :: plain =>
      if u32_max <=? next_number then (next_number, Err NumbersExhausted) else
      match get_range fragment 1 (len fragment) with
      | None => (next_number + 1, Err Sealing)
      | Some body =>
          match encrypt_in_place key next_number (sealed_header next_number) body with
          | None => (next_number + 1, Err Sealing)
          | Some (body, tag) =>
              match seal_all key plain (next_number + 1) with
              | (n, Ok sealed) => (n, Ok ((sealed_header next_number ++ body ++ tag) :: sealed))
              | (n, Err e) => (n, Err e)
              end
          end
      end
  end.
Definition seal (flight : bytes) (start : N) (key : PacketKey) (next_number : N) : N * result SealRefusal (list bytes) :=
  match fragment_within flight start SEALED_FRAGMENT_PAYLOAD with
  | None => (next_number, Err TooLarge)
  | Some plain => seal_all key plain next_number
  end.
(** [open]. *)
Definition open (datagram : bytes) (key : PacketKey) : option bytes :=
  if negb (is_sealed_fragment datagram) then None else
  header ← get_range datagram 0 SEALED_HEADER; number ← get_range datagram 1 SEALED_HEADER; body ← get_range datagram SEALED_HEADER (len datagram);
  plain ← decrypt_in_place key (le_val number) header body; Some (byte_of FRAGMENT_TAG :: plain).

(** ** Putting flights together *)
Inductive Reassembly := Pending | Flight (flight : bytes) | Repeat | MalformedFragment.
Record Reassembler := mkReassembler { ra_consumed : N; ra_total : option N; ra_bytes : bytes; ra_present : list bool; ra_filled : N }.
Definition reassembler_new : Reassembler := mkReassembler 0 None [] [] 0.
(** [parse]. *)
Definition fragment_word (datagram : bytes) (at_ : N) : option N := stop ← checked_add at_ 2; pair ← get_range datagram at_ stop; Some (le_val pair).
Definition parse (datagram : bytes) : option (N * N * N * bytes) :=
  if negb (bool_decide (head datagram = Some (byte_of FRAGMENT_TAG))) || (len datagram <? FRAGMENT_HEADER) then None else
  n ← fragment_word datagram AT_LEN; start ← fragment_word datagram AT_START; within ← fragment_word datagram AT_WITHIN; total ← fragment_word datagram AT_TOTAL;
  stop ← checked_add FRAGMENT_HEADER n; payload ← get_range datagram FRAGMENT_HEADER stop;
  Some (start, within, total, payload).
(** [begin], and the loop over the slots a payload covers. *)
Definition begin_flight (r : Reassembler) (total : N) : Reassembler :=
  mkReassembler (ra_consumed r) (Some total) (replicate (N.to_nat total) (byte_of 0)) (replicate (N.to_nat total) false) 0.
Fixpoint fill_slots (present : list bool) (slots : bytes) (skip : nat) (payload : bytes) (filled : N) : list bool * bytes * N :=
  match present, slots with
  | p :: ps, s :: ss =>
      match skip, payload with
      | S skip, _ => let '(ps, ss, filled) := fill_slots ps ss skip payload filled in (p :: ps, s :: ss, filled)
      | O, [] => (present, slots, filled)
      | O, b :: payload =>
          if p then let '(ps, ss, filled) := fill_slots ps ss O payload filled in (p :: ps, s :: ss, filled)
          else let '(ps, ss, filled) := fill_slots ps ss O payload (sat_add filled 1) in (true :: ps, b :: ss, filled)
      end
  | _, _ => (present, slots, filled)
  end.
(** [Reassembler::push]. *)
Definition push_awaited (r : Reassembler) (within total : N) (payload : bytes) : Reassembler * Reassembly :=
  let '(present, slots, filled) := fill_slots (ra_present r) (ra_bytes r) (N.to_nat within) payload (ra_filled r) in
  if filled <? total then (mkReassembler (ra_consumed r) (ra_total r) slots present filled, Pending)
  else (mkReassembler (sat_add (ra_consumed r) total) None [] [] 0, Flight slots).
Definition push (r : Reassembler) (datagram : bytes) : Reassembler * Reassembly :=
  match parse datagram with
  | None => (r, MalformedFragment)
  | Some (start, within, total, payload) =>
      if (MAX_FLIGHT_BYTES <? total) || (total =? 0) || (total <? sat_add within (len payload)) || (MAX_STREAM_BYTES <? sat_add start total)
      then (r, MalformedFragment)
      else if start <? ra_consumed r then (r, if sat_add start total <=? ra_consumed r then Repeat else MalformedFragment)
      else if ra_consumed r <? start then (r, MalformedFragment)
      else match ra_total r with
           | None => push_awaited (begin_flight r total) within total payload
           | Some seen => if negb (seen =? total) then (r, MalformedFragment) else push_awaited r within total payload
           end
  end.

(** ** Reading a fragment back *)
Lemma get_range_mid (x y z : bytes) a b : a = len x → b = len x + len y → get_range (x ++ y ++ z) a b = Some y.
Proof.
  intros -> ->. rewrite get_range_some by (rewrite ?len_app; lia). rewrite slice_app_r by lia. replace (len x - len x) with 0 by lia. replace (len x + len y - len x) with (len y) by lia.
  rewrite slice_app_l by lia. by rewrite slice_all.
Qed.
Lemma word_mid (x z : bytes) n at_ : n ≤ u16_max → at_ = len x → at_ ≤ 1000 → fragment_word (x ++ le_bytes 2 n ++ z) at_ = Some n.
Proof.
  intros Hn -> Hat. unfold fragment_word. rewrite (proj2 (checked_add_some (len x) 2 (len x + 2))) by (unfold u64_max; lia). cbn [mbind option_bind].
  rewrite (get_range_mid x (le_bytes 2 n) z) by (rewrite ?len_le_bytes; lia). cbn [mbind option_bind]. f_equal. apply le_val_bytes. unfold u16_max in Hn. simpl. lia.
Qed.
Lemma parse_fragment start within total piece rest :
  start ≤ u16_max → within ≤ u16_max → total ≤ u16_max → len piece ≤ u16_max →
  parse (fragment_datagram start within total piece ++ rest) = Some (start, within, total, piece).
Proof.
  intros Hs Hw Ht Hp. unfold parse, fragment_datagram. rewrite <- !app_assoc.
  rewrite bool_decide_eq_true_2 by done. cbn [negb orb]. rewrite (proj2 (N.ltb_ge _ _)).
  2:{ rewrite !len_app, !len_le_bytes. change (len [byte_of FRAGMENT_TAG]) with 1. unfold FRAGMENT_HEADER, AT_LEN, AT_TOTAL, AT_WITHIN, AT_START. lia. }
  set (t := [byte_of FRAGMENT_TAG]). set (s := le_bytes 2 start). set (w := le_bytes 2 within). set (o := le_bytes 2 total). set (n := le_bytes 2 (len piece)).
  assert (len t = 1 ∧ len s = 2 ∧ len w = 2 ∧ len o = 2 ∧ len n = 2) as (L1&L2&L3&L4&L5) by (unfold s, w, o, n; rewrite !len_le_bytes; done).
  set (d := t ++ s ++ w ++ o ++ n ++ piece ++ rest). unfold AT_LEN, AT_TOTAL, AT_WITHIN, AT_START in *.
  assert (fragment_word d (1 + 2 + 2 + 2) = Some (len piece)) as ->.
  { replace d with ((t ++ s ++ w ++ o) ++ n ++ piece ++ rest) by (unfold d; by rewrite <- !app_assoc). apply word_mid; rewrite ?len_app; lia. }
  assert (fragment_word d 1 = Some start) as -> by (apply (word_mid t); lia).
  assert (fragment_word d (1 + 2) = Some within) as ->.
  { replace d with ((t ++ s) ++ w ++ o ++ n ++ piece ++ rest) by (unfold d; by rewrite <- !app_assoc). apply word_mid; rewrite ?len_app; lia. }
  assert (fragment_word d (1 + 2 + 2) = Some total) as ->.
  { replace d with ((t ++ s ++ w) ++ o ++ n ++ piece ++ rest) by (unfold d; by rewrite <- !app_assoc). apply word_mid; rewrite ?len_app; lia. }
  cbn [mbind option_bind]. rewrite (proj2 (checked_add_some FRAGMENT_HEADER (len piece) (FRAGMENT_HEADER + len piece))) by (unfold u64_max, u16_max, FRAGMENT_HEADER, AT_LEN, AT_TOTAL, AT_WITHIN, AT_START in *; lia).
  cbn [mbind option_bind]. replace d with ((t ++ s ++ w ++ o ++ n) ++ piece ++ rest) by (unfold d; by rewrite <- !app_assoc).
  rewrite get_range_mid by (rewrite ?len_app; unfold FRAGMENT_HEADER, AT_LEN, AT_TOTAL, AT_WITHIN, AT_START; lia). done.
Qed.

(** ** What cutting gives *)
Definition piece_of (flight : bytes) (start w e : N) : bytes := fragment_datagram start w (len flight) (slice flight w e).
Lemma fragment_loop_ok fuel flight start payload : ∀ within,
  within ≤ len flight → len flight ≤ u16_max → 0 < payload ≤ u16_max → len flight - within < N.of_nat fuel →
  ∃ ds, fragment_loop fuel flight start payload within = Some ds
  ∧ (∀ d, d ∈ ds → ∃ w e, within ≤ w ∧ w < e ∧ e ≤ len flight ∧ e - w ≤ payload ∧ d = piece_of flight start w e)
  ∧ (∀ i, within ≤ i → i < len flight → ∃ w e, w ≤ i ∧ i < e ∧ e ≤ len flight ∧ piece_of flight start w e ∈ ds).
Proof.
  induction fuel as [|fuel IH]; intros within Hw Hl Hp Hf; [lia|]. cbn [fragment_loop]. destruct (N.ltb_spec within (len flight)) as [Hlt|Hge].
  2:{ exists []. split_and!; [done|by intros d ?%elem_of_nil|intros; lia]. }
  rewrite (proj2 (checked_add_some within payload (within + payload))) by (unfold u16_max, u64_max in *; lia). cbn [mbind option_bind].
  set (e := N.min (len flight) (within + payload)). unfold u16_try_from, sat_sub. rewrite (proj2 (N.leb_le within u16_max)) by lia. cbn [mbind option_bind].
  rewrite (proj2 (N.leb_le (e - within) u16_max)) by lia. cbn [mbind option_bind]. rewrite get_range_some by lia. cbn [mbind option_bind].
  destruct (IH e ltac:(lia) Hl Hp ltac:(lia)) as (ds&->&D1&D2). cbn [mbind option_bind]. exists (piece_of flight start within e :: ds). split_and!; [done|..].
  - intros d [->|Hd]%elem_of_cons; [exists within, e; split_and!; [lia..|done]|]. destruct (D1 d Hd) as (w&e'&?&?&?&?&->). exists w, e'. split_and!; [lia..|done].
  - intros i H1 H2. destruct (N.lt_ge_cases i e) as [H|H].
    + exists within, e. split_and!; [lia..|by left].
    + destruct (D2 i H H2) as (w&e'&?&?&?&?). exists w, e'. split_and!; [lia..|by right].
Qed.
Lemma fragment_within_ok flight start payload ds :
  payload ≤ u16_max → fragment_within flight start payload = Some ds →
  len flight ≤ MAX_FLIGHT_BYTES ∧ start + len flight ≤ u16_max ∧ 0 < payload
  ∧ (∀ d, d ∈ ds → ∃ w e, w < e ∧ e ≤ len flight ∧ e - w ≤ payload ∧ d = piece_of flight start w e)
  ∧ (∀ i, i < len flight → ∃ w e, w ≤ i ∧ i < e ∧ e ≤ len flight ∧ piece_of flight start w e ∈ ds).
Proof.
  intros Hp. unfold fragment_within. destruct (N.ltb_spec MAX_FLIGHT_BYTES (len flight)) as [|H1]; [done|]. destruct (checked_add start (len flight)) as [stop|] eqn:Ec; cbn [mbind option_bind]; [|done].
  apply checked_add_some in Ec as [-> _]. unfold MAX_STREAM_BYTES. destruct (N.ltb_spec u16_max (start + len flight)) as [|H2]; cbn [orb]; [done|]. destruct (N.eqb_spec payload 0) as [|H3]; [done|].
  unfold u16_try_from. rewrite !(proj2 (N.leb_le _ u16_max)) by lia. cbn [mbind option_bind].
  destruct (fragment_loop_ok (S (length flight)) flight start payload 0) as (ds'&->&D1&D2); [lia..|unfold len; lia|]. intros [= <-].
  split_and!; [done|done|lia| |intros i Hi; apply D2; lia]. intros d Hd. destruct (D1 d Hd) as (w&e&_&?&?&?&->). by exists w, e.
Qed.
(** A flight within the bounds is always cut. *)
Lemma fragment_within_total flight start payload :
  0 < payload ≤ u16_max → len flight ≤ MAX_FLIGHT_BYTES → start + len flight ≤ u16_max → is_Some (fragment_within flight start payload).
Proof.
  intros Hp H1 H2. unfold fragment_within. rewrite (proj2 (N.ltb_ge _ _)) by done. rewrite (proj2 (checked_add_some start (len flight) (start + len flight))) by (unfold u16_max, u64_max in *; lia).
  cbn [mbind option_bind]. unfold MAX_STREAM_BYTES. rewrite (proj2 (N.ltb_ge _ _)), (proj2 (N.eqb_neq _ _)) by lia. cbn [orb]. unfold u16_try_from. rewrite !(proj2 (N.leb_le _ u16_max)) by lia. cbn [mbind option_bind].
  destruct (fragment_loop_ok (S (length flight)) flight start payload 0) as (ds'&->&_); [lia..|unfold len; lia|done].
Qed.

(** ** Filling slots *)
Definition trues (l : list bool) : nat := length (List.filter (λ b, b) l).
Lemma trues_le l : (trues l ≤ length l)%nat.
Proof. apply List.filter_length_le. Qed.
Lemma trues_full l : trues l = length l → ∀ i, (i < length l)%nat → l !! i = Some true.
Proof.
  unfold trues. induction l as [|b l IH]; intros Ht i Hi; [cbn in Hi; lia|]. pose proof (List.filter_length_le (λ b, b) l). destruct b; cbn in *; [|lia].
  destruct i as [|i]; [done|]. apply IH; lia.
Qed.
Definition in_span (skip n i : nat) : Prop := (skip ≤ i ∧ i < skip + n)%nat.
Lemma fill_slots_ok present : ∀ slots skip payload filled,
  length slots = length present → (skip + length payload ≤ length present)%nat → filled + N.of_nat (length present) ≤ u64_max →
  let '(ps, ss, n) := fill_slots present slots skip payload filled in
  length ps = length present ∧ length ss = length slots ∧ n + N.of_nat (trues present) = filled + N.of_nat (trues ps)
  ∧ (∀ i, ps !! i = Some true ↔ present !! i = Some true ∨ in_span skip (length payload) i)
  ∧ ∀ i, ss !! i = if decide (present !! i = Some true ∨ ¬ in_span skip (length payload) i) then slots !! i else payload !! (i - skip)%nat.
Proof.
  unfold in_span. induction present as [|p ps IH]; intros [|s ss] skip payload filled Hl Hb Hf; cbn [length fill_slots] in *; try lia.
  { assert (skip = 0%nat ∧ payload = []) as [-> ->] by (destruct payload; cbn in *; [split; [lia|done]|lia]). split_and!; try done.
    intros i. cbn. split; [tauto|]. intros [?|?]; [done|lia]. }
  destruct skip as [|skip].
  - destruct payload as [|b payload]; cbn [length] in *.
    { split_and!; try done; [intros i; split; [tauto|intros [?|?]; [done|lia]]|]. intros i. by rewrite decide_True by (right; lia). }
    destruct p.
    + specialize (IH ss 0%nat payload filled ltac:(lia) ltac:(lia) ltac:(lia)). destruct (fill_slots ps ss 0 payload filled) as [[ps' ss'] n']. destruct IH as (I1&I2&I3&I4&I5).
      unfold trues in *. cbn [List.filter length]. split_and!; [lia..| |].
      * intros [|i]; cbn; [tauto|]. rewrite I4. cbn. split; [intros [?|?]; [tauto|right; lia]|intros [?|?]; [tauto|right; lia]].
      * intros [|i]; [by rewrite decide_True by (by left)|]. pose proof (I5 i) as E. rewrite Nat.sub_0_r in E |- *.
        change (ss' !! i = if decide (ps !! i = Some true ∨ ¬ (0 ≤ S i ∧ S i < 0 + S (length payload))%nat) then ss !! i else payload !! i). rewrite E.
        apply decide_ext. intuition lia.
    + rewrite sat_add_small by lia. specialize (IH ss 0%nat payload (filled + 1) ltac:(lia) ltac:(lia) ltac:(lia)).
      destruct (fill_slots ps ss 0 payload (filled + 1)) as [[ps' ss'] n']. destruct IH as (I1&I2&I3&I4&I5). unfold trues in *. cbn [List.filter length]. split_and!; [lia..| |].
      * intros [|i]; cbn; [split; [intros _; right; lia|done]|]. rewrite I4. cbn. split; [intros [?|?]; [tauto|right; lia]|intros [?|?]; [tauto|right; lia]].
      * intros [|i]; [rewrite decide_False; [done|intros [?|?]; [done|lia]]|]. pose proof (I5 i) as E. rewrite Nat.sub_0_r in E |- *.
        change (ss' !! i = if decide (ps !! i = Some true ∨ ¬ (0 ≤ S i ∧ S i < 0 + S (length payload))%nat) then ss !! i else payload !! i). rewrite E.
        apply decide_ext. intuition lia.
  - specialize (IH ss skip payload filled ltac:(lia) ltac:(lia) ltac:(lia)). destruct (fill_slots ps ss skip payload filled) as [[ps' ss'] n']. destruct IH as (I1&I2&I3&I4&I5).
    unfold trues in *. cbn [List.filter length]. split_and!; [cbn; lia|cbn; lia|destruct p; cbn [length]; lia| |].
    + intros [|i]; cbn; [split; [tauto|intros [?|?]; [done|lia]]|]. rewrite I4. split; [intros [?|?]; [tauto|right; lia]|intros [?|?]; [tauto|right; lia]].
    + intros [|i]; [by rewrite decide_True by (right; lia)|].
      change (ss' !! i = if decide (ps !! i = Some true ∨ ¬ (S skip ≤ S i ∧ S i < S skip + length payload)%nat) then ss !! i else payload !! (i - skip)%nat). rewrite I5.
      apply decide_ext. intuition lia.
Qed.

(** ** A reassembler and the flights of a direction *)
Lemma lookup_slice (l : bytes) a b k : (k < N.to_nat (b - a))%nat → slice l a b !! k = l !! (N.to_nat a + k)%nat.
Proof. intros Hk. unfold slice, takeN, dropN. by rewrite lookup_take_lt, lookup_drop. Qed.
Definition has_slot (r : Reassembler) (i : nat) : Prop := ra_present r !! i = Some true.
Definition ra_idle (r : Reassembler) : Prop := ra_total r = None ∧ ra_present r = [].
Record ra_open (fl : bytes) (r : Reassembler) : Prop := {
  ro_total : ra_total r = Some (len fl);
  ro_bytes : length (ra_bytes r) = length fl;
  ro_present : length (ra_present r) = length fl;
  ro_filled : ra_filled r = N.of_nat (trues (ra_present r));
  ro_more : ra_filled r < len fl;
  ro_agree : ∀ i, has_slot r i → ra_bytes r !! i = fl !! i
}.
Lemma begin_open r fl : 0 < len fl → ra_open fl (begin_flight r (len fl)) ∧ (∀ i, ¬ has_slot (begin_flight r (len fl)) i).
Proof.
  intros Hl. assert (∀ i, ¬ has_slot (begin_flight r (len fl)) i) as Hn.
  { intros i. unfold has_slot, begin_flight. cbn. intros [? _]%lookup_replicate_1. done. }
  split; [|done]. assert (∀ n, trues (replicate n false) = 0%nat) as Ht by (by induction n).
  split; [done|..|intros i Hi; by apply Hn in Hi]; cbn [begin_flight ra_bytes ra_present ra_filled]; rewrite ?length_replicate, ?Ht; unfold len in *; lia.
Qed.
Lemma push_awaited_ok fl r w e :
  ra_open fl r → len fl ≤ u16_max → ra_consumed r + len fl ≤ u16_max → w < e → e ≤ len fl → let '(r', out) := push_awaited r w (len fl) (slice fl w e) in
  out = Pending ∧ ra_open fl r' ∧ ra_consumed r' = ra_consumed r ∧ (∀ i, has_slot r' i ↔ has_slot r i ∨ (N.to_nat w ≤ i ∧ i < N.to_nat e)%nat)
  ∨ out = Flight fl ∧ r' = mkReassembler (ra_consumed r + len fl) None [] [] 0.
Proof.
  intros Ho Hl Hc Hw He. assert (length (slice fl w e) = N.to_nat (e - w)) as El by (pose proof (len_slice fl w e) as E; unfold len in E at 1; lia).
  assert (N.of_nat (length (ra_present r)) = len fl) as Ep by (unfold len; by rewrite (ro_present _ _ Ho)). unfold push_awaited.
  pose proof (fill_slots_ok (ra_present r) (ra_bytes r) (N.to_nat w) (slice fl w e) (ra_filled r)) as Hf.
  destruct (fill_slots _ _ _ _ _) as [[ps ss] n]. destruct Hf as (F1&F2&F3&F4&F5).
  { by rewrite (ro_bytes _ _ Ho), (ro_present _ _ Ho). }
  { rewrite El. lia. }
  { pose proof (ro_more _ _ Ho). unfold u16_max, u64_max in *. lia. }
  assert (n = N.of_nat (trues ps)) as En by (rewrite (ro_filled _ _ Ho) in F3; lia).
  assert (∀ i, ps !! i = Some true → ss !! i = fl !! i) as Hag.
  { intros i Hi. rewrite F5. case_decide as Hd.
    - destruct (decide (ra_present r !! i = Some true)) as [Hp|Hp]; [by apply (ro_agree _ _ Ho)|]. destruct Hd as [|Hd]; [done|]. apply F4 in Hi as [|]; done.
    - unfold in_span in Hd. rewrite El in Hd. assert (N.to_nat w ≤ i ∧ i < N.to_nat w + N.to_nat (e - w))%nat as Hb by (destruct (decide (N.to_nat w ≤ i ∧ i < N.to_nat w + N.to_nat (e - w))%nat); tauto).
      rewrite lookup_slice by lia. f_equal. lia. }
  destruct (N.ltb_spec n (len fl)) as [Hlt|Hge].
  - left. split_and!; [done| |done|].
    + split; cbn; [apply Ho|by rewrite F2; apply Ho|by rewrite F1; apply Ho|done|done|done].
    + intros i. unfold has_slot. cbn. rewrite F4. unfold in_span. rewrite El. split; (intros [?|?]; [by left|right; lia]).
  - right. assert (trues ps = length ps) as Ht by (pose proof (trues_le ps); rewrite F1, (ro_present _ _ Ho) in *; unfold len in Hge; lia).
    assert (ss = fl) as ->.
    { apply list_eq. intros i. destruct (decide (i < length ps)%nat) as [Hi|Hi]; [by apply Hag, trues_full|].
      rewrite F1, (ro_present _ _ Ho) in Hi. rewrite (lookup_ge_None_2 fl), lookup_ge_None_2; [done|rewrite F2, (ro_bytes _ _ Ho); lia|lia]. }
    split; [done|]. f_equal. apply sat_add_small. unfold u16_max, u64_max in *. lia.
Qed.

Section direction.
Variable flights : list bytes.
Definition fl_start (n : nat) : N := len (concat (take n flights)).
Lemma fl_start_S n fl : flights !! n = Some fl → fl_start (S n) = fl_start n + len fl.
Proof. intros H. unfold fl_start. rewrite (take_S_r _ _ fl) by done. rewrite concat_app, len_app. cbn. by rewrite app_nil_r. Qed.
Lemma fl_start_le n m : (n ≤ m)%nat → fl_start n ≤ fl_start m.
Proof.
  intros H. unfold fl_start. rewrite <- (take_drop n (take m flights)), take_take, Nat.min_l by done. rewrite concat_app, len_app. lia.
Qed.
Lemma fl_start_end n : fl_start n ≤ len (concat flights).
Proof. unfold fl_start. rewrite <- (take_drop n flights) at 2. rewrite concat_app, len_app. lia. Qed.

(** The first [n] flights are consumed, the next one is awaited. *)
Definition ra_inv (n : nat) (r : Reassembler) : Prop :=
  (n ≤ length flights)%nat ∧ ra_consumed r = fl_start n
  ∧ (ra_idle r ∨ ∃ fl, flights !! n = Some fl ∧ ra_open fl r).
(** A fragment of one of the flights, padded. *)
Definition frag_at (d : bytes) (j : nat) (fl : bytes) (w e : N) : Prop :=
  flights !! j = Some fl ∧ w < e ∧ e ≤ len fl ∧ ∃ to, d = pad (piece_of fl (fl_start j) w e) to.

Hypothesis flights_short : ∀ j fl, flights !! j = Some fl → 0 < len fl ∧ len fl ≤ MAX_FLIGHT_BYTES.
Hypothesis stream_short : len (concat flights) ≤ MAX_STREAM_BYTES.

Lemma push_piece n r d j fl w e :
  ra_inv n r → frag_at d j fl w e → let '(r', out) := push r d in
  (j < n)%nat ∧ r' = r ∧ out = Repeat
  ∨ (n < j)%nat ∧ r' = r ∧ out = MalformedFragment
  ∨ j = n ∧ out = Pending ∧ ra_inv n r' ∧ (∀ i, has_slot r' i ↔ has_slot r i ∨ (N.to_nat w ≤ i ∧ i < N.to_nat e)%nat) ∧ ¬ ra_idle r'
  ∨ j = n ∧ out = Flight fl ∧ ra_inv (S n) r' ∧ ra_idle r'.
Proof.
  intros (Hn&Hc&Hst) (Hj&Hw&He&to&->). destruct (flights_short j fl Hj) as [H0 Hs]. pose proof (fl_start_S j fl Hj) as HS. pose proof (fl_start_end (S j)) as HE. unfold MAX_STREAM_BYTES in *.
  assert (len fl ≤ u16_max) as Hl16 by lia.
  assert (∃ rest, pad (piece_of fl (fl_start j) w e) to = piece_of fl (fl_start j) w e ++ rest) as (rest&->).
  { unfold pad. destruct (_ <? _); [by eexists|exists []; by rewrite app_nil_r]. }
  assert (len (slice fl w e) = e - w) as Els by (rewrite len_slice; lia). unfold push, piece_of. rewrite parse_fragment by lia.
  rewrite (proj2 (N.ltb_ge MAX_FLIGHT_BYTES (len fl))), (proj2 (N.eqb_neq (len fl) 0)) by lia. unfold MAX_STREAM_BYTES.
  rewrite !sat_add_small by (unfold u16_max, u64_max in *; lia). rewrite (proj2 (N.ltb_ge (len fl) (w + len (slice fl w e)))), (proj2 (N.ltb_ge u16_max (fl_start j + len fl))) by lia. cbn [orb].
  rewrite Hc. destruct (decide (j < n)%nat) as [Hlt|Hge].
  { pose proof (fl_start_le (S j) n ltac:(lia)). rewrite (proj2 (N.ltb_lt _ _)) by lia. rewrite (proj2 (N.leb_le _ _)) by lia. by left. }
  destruct (decide (j = n)) as [->|Hne].
  2:{ pose proof (fl_start_le (S n) j ltac:(lia)) as Hle. assert (is_Some (flights !! n)) as [fn Hfn] by (apply lookup_lt_is_Some; apply lookup_lt_Some in Hj; lia).
      rewrite (fl_start_S n fn Hfn) in Hle. destruct (flights_short n fn Hfn). rewrite (proj2 (N.ltb_ge _ _)), (proj2 (N.ltb_lt _ _)) by lia. right; left. split; [lia|done]. }
  rewrite !N.ltb_irrefl.
  assert (∀ r0, ra_open fl r0 → ra_consumed r0 = fl_start n → (∀ i, has_slot r0 i ↔ has_slot r i) → let '(r', out) := push_awaited r0 w (len fl) (slice fl w e) in
    n = n ∧ out = Pending ∧ ra_inv n r' ∧ (∀ i, has_slot r' i ↔ has_slot r i ∨ (N.to_nat w ≤ i ∧ i < N.to_nat e)%nat) ∧ ¬ ra_idle r'
    ∨ n = n ∧ out = Flight fl ∧ ra_inv (S n) r' ∧ ra_idle r') as Hmain.
  { intros r0 Ho Hc0 Hh. pose proof (push_awaited_ok fl r0 w e Ho Hl16 ltac:(lia) Hw He) as Hp. destruct (push_awaited r0 w (len fl) (slice fl w e)) as [r' out].
    destruct Hp as [(->&P1&P2&P3)|(->&->)]; [left|right]; split_and!; try done.
    - split_and!; [done|congruence|right; eauto].
    - intros i. by rewrite P3, Hh.
    - intros [Hi _]. by rewrite (ro_total _ _ P1) in Hi.
    - split_and!; [by apply lookup_lt_Some in Hj|cbn; lia|by left]. }
  destruct Hst as [[Ht Hp]|(fl'&Hfl'&Ho)].
  - rewrite Ht. destruct (begin_open r fl H0) as [B1 B2]. specialize (Hmain (begin_flight r (len fl)) B1 Hc). destruct (push_awaited _ w (len fl) _) as [r' out]. right; right. apply Hmain.
    intros i. split; [intros Hi; by apply B2 in Hi|]. unfold has_slot. rewrite Hp. by rewrite lookup_nil.
  - assert (fl' = fl) as -> by congruence. rewrite (ro_total _ _ Ho), N.eqb_refl. cbn [negb]. specialize (Hmain r Ho Hc ltac:(done)). destruct (push_awaited r w (len fl) _) as [r' out]. right; right. exact Hmain.
Qed.

(** ** Runs *)
Fixpoint pushes (r : Reassembler) (ds : list bytes) : Reassembler * list bytes :=
  match ds with
  | [] => (r, [])
  | d :: ds =>
      let '(r, out) := push r d in let '(r, rest) := pushes r ds in
      (r, match out with Flight fl => fl :: rest | _ => rest end)
  end.
Lemma pushes_app r ds ds' :
  pushes r (ds ++ ds') = let '(r1, o1) := pushes r ds in let '(r2, o2) := pushes r1 ds' in (r2, o1 ++ o2).
Proof.
  revert r. induction ds as [|d ds IH]; intros r; cbn [app pushes]; [by destruct (pushes r ds')|]. destruct (push r d) as [r1 out]. rewrite IH.
  destruct (pushes r1 ds) as [r2 o1]. destruct (pushes r2 ds') as [r3 o2]. by destruct out.
Qed.
(** Flights come out in order, once each; and the awaited one holds what was pushed of it. *)
Lemma pushes_ok ds : ∀ n r,
  ra_inv n r → (∀ d, d ∈ ds → ∃ j fl w e, frag_at d j fl w e) → let '(r', out) := pushes r ds in
  ∃ n', (n ≤ n')%nat ∧ ra_inv n' r' ∧ out = take (n' - n) (drop n flights)
  ∧ (n' = n → (∀ i, has_slot r i → has_slot r' i) ∧ ∀ d fl w e i, d ∈ ds → frag_at d n fl w e → (N.to_nat w ≤ i ∧ i < N.to_nat e)%nat → has_slot r' i).
Proof.
  induction ds as [|d ds IH]; intros n r Hr Hds; cbn [pushes].
  { exists n. split_and!; [done|done|by rewrite Nat.sub_diag|]. intros _. split; [done|]. by intros ? ? ? ? ? ?%elem_of_nil. }
  destruct (Hds d ltac:(by left)) as (j&fl&w&e&Hd). pose proof (push_piece n r d j fl w e Hr Hd) as Hp. destruct (push r d) as [r1 out] eqn:Ep.
  assert (∀ d, d ∈ ds → ∃ j fl w e, frag_at d j fl w e) as Hds' by (intros d' Hd'; apply Hds; by right).
  assert ((j ≠ n ∧ r1 = r ∨ j = n ∧ ra_inv n r1 ∧ (∀ i, has_slot r1 i ↔ has_slot r i ∨ (N.to_nat w ≤ i ∧ i < N.to_nat e)%nat)) ∧ (∀ x, out ≠ Flight x) ∨ j = n ∧ out = Flight fl ∧ ra_inv (S n) r1) as [[Hs Hout]|(->&->&Hr1)].
  { destruct Hp as [(?&->&->)|[(?&->&->)|[(->&->&?&?&_)|(->&->&?&_)]]]; [left|left|left|by right]; (split; [|done]); [left; split; [lia|done]|left; split; [lia|done]|right; done]. }
  - assert (ra_inv n r1) as Hr1 by (destruct Hs as [[_ ->]|(_&?&_)]; done). specialize (IH n r1 Hr1 Hds'). destruct (pushes r1 ds) as [r' rest]. destruct IH as (n'&I1&I2&I3&I4).
    exists n'. split_and!; [done|done|by destruct out; try done; exfalso; eapply Hout|]. intros ->. destruct I4 as [K1 K2]; [done|]. assert (∀ i, has_slot r i → has_slot r1 i) as Hmono by (destruct Hs as [[_ ->]|(_&_&Hh)]; [done|intros i Hi; apply Hh; by left]).
    split; [auto|]. intros d' fl' w' e' i [->|Hin]%elem_of_cons Hd' Hi; [|by eapply K2]. apply K1.
    pose proof (push_piece n r d n fl' w' e' Hr Hd') as Hp'. rewrite Ep in Hp'. destruct Hp' as [(?&_)|[(?&_)|[(_&_&_&Hh&_)|(_&->&_)]]]; [lia|lia|apply Hh; by right|by destruct (Hout fl')].
  - specialize (IH (S n) r1 Hr1 Hds'). destruct (pushes r1 ds) as [r' rest]. destruct IH as (n'&I1&I2&I3&I4). exists n'. split_and!; [lia|done| |lia].
    destruct Hd as [Hj _]. rewrite (drop_S _ _ _ Hj). replace (n' - n)%nat with (S (n' - S n)) by lia. cbn. by rewrite I3.
Qed.
(** Once all of a flight's fragments came, it is out. *)
Lemma round_ok ds n r (frags : list bytes) fl :
  ra_inv n r → (∀ d, d ∈ ds → ∃ j fl w e, frag_at d j fl w e) → flights !! n = Some fl →
  (∀ i, i < len fl → ∃ w e, w ≤ i ∧ i < e ∧ e ≤ len fl ∧ piece_of fl (fl_start n) w e ∈ frags) →
  (∀ f, f ∈ frags → ∃ to, pad f to ∈ ds) → let '(r', out) := pushes r ds in
  ∃ n', (n < n')%nat ∧ ra_inv n' r' ∧ out = take (n' - n) (drop n flights).
Proof.
  intros Hr Hds Hfl Hcov Hall. pose proof (pushes_ok ds n r Hr Hds) as Hp. destruct (pushes r ds) as [r' out]. destruct Hp as (n'&P1&P2&P3&P4).
  destruct (decide (n' = n)) as [->|]; [|exists n'; split_and!; [lia|done..]]. exfalso. destruct P4 as [_ P4]; [done|].
  assert (∀ i, (i < length fl)%nat → has_slot r' i) as Hfull.
  { intros i Hi. destruct (Hcov (N.of_nat i)) as (w&e&H1&H2&H3&Hin); [unfold len; lia|]. destruct (Hall _ Hin) as (to&Hto). apply (P4 _ fl w e i Hto); [|lia].
    split_and!; [done|lia|done|eauto]. }
  destruct P2 as (_&_&[[_ Hi]|(fl'&Hfl'&Ho)]).
  - destruct (flights_short n fl Hfl) as [H0 _]. specialize (Hfull 0%nat ltac:(unfold len in H0; lia)). unfold has_slot in Hfull. by rewrite Hi in Hfull.
  - assert (fl' = fl) as -> by congruence. pose proof (ro_more _ _ Ho) as Hm. rewrite (ro_filled _ _ Ho) in Hm.
    assert (trues (ra_present r') = length (ra_present r')) as Ht.
    { assert (∀ l, (∀ i, (i < length l)%nat → l !! i = Some true) → trues l = length l) as Hl.
      { induction l as [|b l IH]; intros H; [done|]. pose proof (H 0%nat ltac:(cbn; lia)) as [= ->]. unfold trues in *. cbn. f_equal. apply IH. intros i Hi. apply (H (S i)). cbn. lia. }
      apply Hl. intros i Hi. apply Hfull. by rewrite (ro_present _ _ Ho) in Hi. }
    rewrite Ht, (ro_present _ _ Ho) in Hm. unfold len in Hm. lia.
Qed.
End direction.

(** ** Sending a direction's flights *)

(** Each flight starts where the ones before it ended. *)
Fixpoint cut (payload start : N) (flights : list bytes) : option (list (list bytes)) :=
  match flights with
  | [] => Some []
  | fl :: flights => frags ← fragment_within fl start payload; rest ← cut payload (start + len fl) flights; Some (frags :: rest)
  end.
Lemma cut_ok payload flights : ∀ start cuts,
  start ≤ u16_max → cut payload start flights = Some cuts → length cuts = length flights ∧ start + len (concat flights) ≤ u16_max
  ∧ ∀ j fl, flights !! j = Some fl → ∃ frags, cuts !! j = Some frags ∧ fragment_within fl (start + fl_start flights j) payload = Some frags.
Proof.
  induction flights as [|f flights IH]; intros start cuts Hs Hc; cbn [cut] in Hc.
  { injection Hc as <-. split_and!; [done|cbn; rewrite len_nil; lia|done]. }
  destruct (fragment_within f start payload) as [frags|] eqn:Ef; cbn in Hc; [|done]. destruct (cut payload (start + len f) flights) as [rest|] eqn:Er; cbn in Hc; [|done]. injection Hc as <-.
  assert (start + len f ≤ u16_max) as Hb.
  { unfold fragment_within in Ef. destruct (_ <? _); [done|]. destruct (checked_add start (len f)) as [stop|] eqn:Ec; cbn in Ef; [|done]. apply checked_add_some in Ec as [-> _].
    unfold MAX_STREAM_BYTES in Ef. destruct (N.ltb_spec u16_max (start + len f)); [done|lia]. }
  destruct (IH _ _ Hb Er) as (I1&I2&I3). split_and!; [cbn; lia|cbn; rewrite len_app; lia|]. intros [|j] fl Hj.
  - injection Hj as <-. exists frags. split; [done|]. unfold fl_start. cbn. by rewrite len_nil, N.add_0_r.
  - destruct (I3 j fl Hj) as (fr&H1&H2). exists fr. split; [done|]. rewrite <- H2. f_equal. unfold fl_start. cbn. rewrite len_app. lia.
Qed.
Lemma cut_pieces payload flights cuts :
  payload ≤ u16_max → cut payload 0 flights = Some cuts →
  len (concat flights) ≤ MAX_STREAM_BYTES ∧ (∀ j fl, flights !! j = Some fl → len fl ≤ MAX_FLIGHT_BYTES)
  ∧ (∀ d f to, f ∈ concat cuts → d = pad f to → ∃ j fl w e, frag_at flights d j fl w e)
  ∧ ∀ j fl, flights !! j = Some fl → ∃ frags, cuts !! j = Some frags ∧ ∀ i, i < len fl → ∃ w e, w ≤ i ∧ i < e ∧ e ≤ len fl ∧ piece_of fl (fl_start flights j) w e ∈ frags.
Proof.
  intros Hp Hc. destruct (cut_ok payload flights 0 cuts ltac:(lia) Hc) as (C1&C2&C3). split_and!; [done|..].
  - intros j fl Hj. destruct (C3 j fl Hj) as (frags&_&Hf). by apply fragment_within_ok in Hf as (?&_).
  - intros d f to Hf ->. apply list_elem_of_In, in_concat in Hf as (frags&Hfr%list_elem_of_In&Hf%list_elem_of_In). apply list_elem_of_lookup in Hfr as (j&Hj). assert (is_Some (flights !! j)) as [fl Hfl] by (apply lookup_lt_is_Some; apply lookup_lt_Some in Hj; lia).
    destruct (C3 j fl Hfl) as (frags'&Hj'&Hfw). assert (frags' = frags) as -> by congruence. apply fragment_within_ok in Hfw as (_&_&_&Hd&_); [|done]. destruct (Hd f Hf) as (w&e&?&?&_&->).
    exists j, fl, w, e. split_and!; [done..|]. by exists to.
  - intros j fl Hj. destruct (C3 j fl Hj) as (frags&Hfr&Hf). exists frags. split; [done|]. by apply fragment_within_ok in Hf as (_&_&_&_&?).
Qed.
Lemma rounds_ok flights (cuts : list (list bytes)) :
  (∀ j fl, flights !! j = Some fl → 0 < len fl ∧ len fl ≤ MAX_FLIGHT_BYTES) → len (concat flights) ≤ MAX_STREAM_BYTES → length cuts = length flights →
  (∀ j fl, flights !! j = Some fl → ∃ frags, cuts !! j = Some frags ∧ ∀ i, i < len fl → ∃ w e, w ≤ i ∧ i < e ∧ e ≤ len fl ∧ piece_of fl (fl_start flights j) w e ∈ frags) →
  ∀ rounds k n r, ra_inv flights n r → (k ≤ n)%nat → (∀ d, d ∈ concat rounds → ∃ j fl w e, frag_at flights d j fl w e) →
  Forall2 (λ frags round, ∀ f, f ∈ frags → ∃ to, pad f to ∈ round) (drop k cuts) rounds →
  (pushes r (concat rounds)).2 = drop n flights.
Proof.
  intros Hs Hst Hlen Hcuts. induction rounds as [|round rounds IH]; intros k n r Hr Hk Hds Hall.
  - apply Forall2_nil_inv_r in Hall. assert (length flights ≤ k)%nat as Hle by (rewrite <- Hlen; by apply skipn_all_iff). cbn. by rewrite drop_ge by lia.
  - cbn [concat] in *. apply Forall2_cons_inv_r in Hall as (frags&cuts'&Hrd&Hall&Ek). assert (cuts !! k = Some frags) as Hck by (rewrite <- (Nat.add_0_r k), <- lookup_drop, Ek; done).
    assert (is_Some (flights !! k)) as [fl Hfl] by (apply lookup_lt_is_Some; apply lookup_lt_Some in Hck; lia).
    assert (∀ d, d ∈ round → ∃ j fl w e, frag_at flights d j fl w e) as Hd1 by (intros d Hd; apply Hds, elem_of_app; by left).
    assert (let '(r', out) := pushes r round in ∃ n', (n ≤ n' ∧ k < n')%nat ∧ ra_inv flights n' r' ∧ out = take (n' - n) (drop n flights)) as Hround.
    { destruct (decide (n = k)) as [->|Hne].
      - destruct (Hcuts k fl Hfl) as (frags'&Hck'&Hcov). assert (frags' = frags) as -> by congruence.
        pose proof (round_ok flights Hs Hst round k r frags fl Hr Hd1 Hfl Hcov Hrd) as Hp. destruct (pushes r round) as [r' out]. destruct Hp as (n'&?&?&?). exists n'. split_and!; [lia..|done|done].
      - pose proof (pushes_ok flights Hs Hst round n r Hr Hd1) as Hp. destruct (pushes r round) as [r' out]. destruct Hp as (n'&?&?&?&_). exists n'. split_and!; [lia..|done|done]. }
    rewrite pushes_app. destruct (pushes r round) as [r' out]. destruct Hround as (n'&[Hn1 Hn2]&Hr'&->).
    specialize (IH (S k) n' r' Hr' ltac:(lia) ltac:(intros d Hd; apply Hds, elem_of_app; by right)). destruct (pushes r' (concat rounds)) as [r2 o2]. cbn [snd] in *. rewrite IH.
    + assert (drop n' flights = drop (n' - n) (drop n flights)) as -> by (rewrite drop_drop; f_equal; lia). apply take_drop.
    + replace (S k) with (k + 1)%nat by lia. by rewrite <- drop_drop, Ek.
Qed.

(** ** The claims *)

(** C26. A direction's handshake crosses a network that loses, repeats, reorders and pads its fragments: whatever arrives of the
    fragments, the flights come out in order, whole and once each; and once every fragment of each flight in turn has_slot arrived, however
    late and whatever came before or between, all of them are out. *)
Theorem flights_cross (flights : list bytes) (payload : N) (cuts rounds : list (list bytes)) (ds : list bytes) :
  payload = FRAGMENT_PAYLOAD ∨ payload = SEALED_FRAGMENT_PAYLOAD → Forall (λ fl, 0 < len fl) flights → cut payload 0 flights = Some cuts →
  (∀ d, d ∈ ds ++ concat rounds → ∃ f to, f ∈ concat cuts ∧ d = pad f to) →
  (pushes reassembler_new ds).2 `prefix_of` flights
  ∧ (Forall2 (λ frags round, ∀ f, f ∈ frags → ∃ to, pad f to ∈ round) cuts rounds → (pushes reassembler_new (ds ++ concat rounds)).2 = flights).
Proof.
  intros Hp Hfull Hc Hds. assert (payload ≤ u16_max) as Hp16 by (destruct Hp as [->| ->]; by vm_compute).
  destruct (cut_pieces payload flights cuts Hp16 Hc) as (C1&C2&C3&C4). destruct (cut_ok payload flights 0 cuts ltac:(lia) Hc) as (Hlen&_&_).
  assert (∀ j fl, flights !! j = Some fl → 0 < len fl ∧ len fl ≤ MAX_FLIGHT_BYTES) as Hs by (intros j fl Hj; split; [by apply (Forall_lookup_1 _ _ _ _ Hfull Hj)|by eapply C2]).
  assert (∀ d, d ∈ ds ++ concat rounds → ∃ j fl w e, frag_at flights d j fl w e) as Hpc by (intros d Hd; destruct (Hds d Hd) as (f&to&Hf&Hto); by eapply C3).
  assert (ra_inv flights 0 reassembler_new) as H0 by (split_and!; [lia|done|by left]).
  pose proof (pushes_ok flights Hs C1 ds 0 reassembler_new H0 ltac:(intros d Hd; apply Hpc, elem_of_app; by left)) as Hr. rewrite pushes_app.
  destruct (pushes reassembler_new ds) as [r1 o1]. destruct Hr as (n&_&Hr&->&_). rewrite Nat.sub_0_r, drop_0. split; [cbn; apply prefix_take|]. intros Hall.
  pose proof (rounds_ok flights cuts Hs C1 Hlen C4 rounds 0%nat n r1 Hr ltac:(lia) ltac:(intros d Hd; apply Hpc, elem_of_app; by right)) as Hend.
  destruct (pushes r1 (concat rounds)) as [r2 o2]. cbn [snd] in *. rewrite Hend by done. apply take_drop.
Qed.
Lemma pad_0 d : pad d 0 = d.
Proof. unfold pad. by rewrite (proj2 (N.ltb_ge _ _)) by lia. Qed.
Definition demo_flights : list bytes := [replicate 1200 (byte_of 7); map byte_of [1; 2; 3]].
Definition demo_cuts : list (list bytes) := default [] (cut FRAGMENT_PAYLOAD 0 demo_flights).
(** A flight of two fragments, the last first, and a flight of one. *)
Lemma flights_cross_witness : (pushes reassembler_new (concat (map (@rev bytes) demo_cuts))).2 = demo_flights.
Proof.
  destruct (flights_cross demo_flights FRAGMENT_PAYLOAD demo_cuts (map (@rev bytes) demo_cuts) []) as [_ H].
  - by left.
  - unfold demo_flights. repeat constructor.
  - by vm_compute.
  - intros d Hd. exists d, 0. rewrite pad_0. split; [|done]. revert Hd. cbn [app]. generalize demo_cuts. intros l. induction l as [|c l IH]; [done|]. cbn. rewrite !elem_of_app, elem_of_rev. tauto.
  - apply H. apply Forall2_fmap_r, Forall2_same_length_lookup. split; [done|]. intros i a b Ha Hb f Hf. exists 0. rewrite pad_0. assert (a = b) as -> by congruence. by apply elem_of_rev.
Defined.

(** ** Sealed flights *)

(** What the AEAD documents: an honest pair of keys opens what it sealed, the ciphertext is as long as the plaintext and the tag
    is 16 bytes. *)
Class KeyPair (sender receiver : PacketKey) : Prop := {
  kp_opens : ∀ n header body cipher tag, encrypt_in_place sender n header body = Some (cipher, tag) → decrypt_in_place receiver n header (cipher ++ tag) = Some body;
  kp_sizes : ∀ n header body cipher tag, encrypt_in_place sender n header body = Some (cipher, tag) → len cipher = len body ∧ len tag = SEALED_TAG_BYTES
}.
Lemma open_sealed k k' `{!KeyPair k k'} n body cipher tag :
  n ≤ u32_max → encrypt_in_place k n (sealed_header n) body = Some (cipher, tag) → open (sealed_header n ++ cipher ++ tag) k' = Some (byte_of FRAGMENT_TAG :: body).
Proof.
  intros Hn He. assert (len (sealed_header n) = 5) as Lh by (unfold sealed_header; rewrite len_app, len_le_bytes; done). unfold open.
  assert (is_sealed_fragment (sealed_header n ++ cipher ++ tag) = true) as -> by done. cbn [negb]. unfold SEALED_HEADER, SEALED_NUMBER_BYTES.
  assert (get_range (sealed_header n ++ cipher ++ tag) 0 (1 + 4) = Some (sealed_header n)) as -> by (apply (get_range_mid []); [done|by rewrite Lh]). cbn [mbind option_bind].
  assert (get_range (sealed_header n ++ cipher ++ tag) 1 (1 + 4) = Some (le_bytes 4 n)) as ->.
  { unfold sealed_header. rewrite <- app_assoc. apply get_range_mid; [done|]. by rewrite len_le_bytes. }
  cbn [mbind option_bind]. assert (get_range (sealed_header n ++ cipher ++ tag) (1 + 4) (len (sealed_header n ++ cipher ++ tag)) = Some (cipher ++ tag)) as ->.
  { replace (sealed_header n ++ cipher ++ tag) with (sealed_header n ++ (cipher ++ tag) ++ []) at 1 by (by rewrite app_nil_r). apply get_range_mid; rewrite ?len_app; lia. }
  cbn [mbind option_bind]. rewrite le_val_bytes by (unfold u32_max in Hn; simpl; lia). by rewrite (kp_opens _ _ _ _ _ He).
Qed.
Lemma seal_all_ok k k' `{!KeyPair k k'} plain : ∀ n n' sealed,
  (∀ p, p ∈ plain → ∃ body, p = byte_of FRAGMENT_TAG :: body ∧ len body ≤ FRAGMENT_HEADER - 1 + SEALED_FRAGMENT_PAYLOAD) →
  seal_all k plain n = (n', Ok sealed) →
  Forall2 (λ s p, open s k' = Some p ∧ is_sealed_fragment s = true ∧ len s ≤ MIN_DATAGRAM_BYTES) sealed plain ∧ n' = n + len sealed ∧ (n ≤ u32_max → n' ≤ u32_max)
  ∧ ∀ i s, sealed !! i = Some s → takeN SEALED_HEADER s = sealed_header (n + N.of_nat i).
Proof.
  induction plain as [|p plain IH]; intros n n' sealed Hpl; cbn [seal_all].
  { intros [= <- <-]. split_and!; [done|rewrite len_nil; lia|done|done]. }
  destruct (N.leb_spec u32_max n) as [|Hn]; [done|]. destruct (Hpl p ltac:(by left)) as (body&->&Hb).
  assert (get_range (byte_of FRAGMENT_TAG :: body) 1 (len (byte_of FRAGMENT_TAG :: body)) = Some body) as ->.
  { replace (byte_of FRAGMENT_TAG :: body) with ([byte_of FRAGMENT_TAG] ++ body ++ []) at 1 by (by rewrite app_nil_r). apply get_range_mid; [done|]. rewrite len_cons. done. }
  destruct (encrypt_in_place k n (sealed_header n) body) as [[cipher tag]|] eqn:Ee; [|done]. destruct (seal_all k plain (n + 1)) as [n1 [sealed1|]] eqn:Es; [|done]. intros [= <- <-].
  destruct (IH (n + 1) n1 sealed1 ltac:(intros p Hp; apply Hpl; by right) Es) as (I1&En&I2&I3). destruct (kp_sizes _ _ _ _ _ Ee) as [S1 S2].
  assert (len (sealed_header n) = 5) as Lh by (unfold sealed_header; rewrite len_app, len_le_bytes; done).
  assert (len (sealed_header n ++ cipher ++ tag) ≤ MIN_DATAGRAM_BYTES) as Hlen.
  { rewrite !len_app, Lh, S1, S2. unfold SEALED_FRAGMENT_PAYLOAD, SEALED_HEADER, SEALED_NUMBER_BYTES, SEALED_TAG_BYTES, FRAGMENT_HEADER, AT_LEN, AT_TOTAL, AT_WITHIN, AT_START, MIN_DATAGRAM_BYTES in *. lia. }
  split_and!.
  - constructor; [|done]. split_and!; [apply (open_sealed k k'); [lia|done]|done|exact Hlen].
  - rewrite len_cons. lia.
  - intros _. apply I2. lia.
  - intros [|i] s Hs.
    + replace (n + N.of_nat 0) with n by lia. assert (s = sealed_header n ++ cipher ++ tag) as -> by (by injection Hs). apply takeN_app_eq. by rewrite Lh.
    + rewrite (I3 i s Hs). f_equal. lia.
Qed.
Lemma piece_body fl start w e d payload :
  w < e → e ≤ len fl → e - w ≤ payload → d = piece_of fl start w e → ∃ body, d = byte_of FRAGMENT_TAG :: body ∧ len body ≤ FRAGMENT_HEADER - 1 + payload.
Proof.
  intros Hw He Hp ->. eexists. split; [done|]. rewrite !len_app, !len_le_bytes, len_slice. unfold FRAGMENT_HEADER, AT_LEN, AT_TOTAL, AT_WITHIN, AT_START. lia.
Qed.

(** C27. Sealing a flight loses nothing and repeats no nonce: the peer's keys open each sealed datagram to the fragment it was made
    of, so the opened datagrams are the flight's fragments; each fits the smallest path, is told from the packets of a connection, and
    carries its own number, the numbers moving past all of them and never past their width. *)
Theorem sealed_flight_opens (k k' : PacketKey) (flight : bytes) (start n n' : N) (sealed : list bytes) `{!KeyPair k k'} :
  seal flight start k n = (n', Ok sealed) → n ≤ u32_max →
  (∃ plain, fragment_within flight start SEALED_FRAGMENT_PAYLOAD = Some plain ∧ map (λ s, open s k') sealed = map Some plain)
  ∧ Forall (λ s, is_sealed_fragment s = true ∧ is_fragment s = false ∧ is_short_header s = false ∧ len s ≤ MIN_DATAGRAM_BYTES) sealed
  ∧ n' = n + len sealed ∧ n' ≤ u32_max ∧ ∀ i s, sealed !! i = Some s → takeN SEALED_HEADER s = sealed_header (n + N.of_nat i).
Proof.
  unfold seal. destruct (fragment_within flight start SEALED_FRAGMENT_PAYLOAD) as [plain|] eqn:Ef; [|done]. intros Hs Hn.
  destruct (fragment_within_ok flight start SEALED_FRAGMENT_PAYLOAD plain ltac:(by vm_compute) Ef) as (_&_&_&Hd&_).
  destruct (seal_all_ok k k' plain n n' sealed) as (S1&S2&S3&S4); [|done|].
  { intros p Hp. destruct (Hd p Hp) as (w&e&?&?&?&?). by eapply piece_body. }
  split_and!; [|..|by apply S3|done]; [|..|done].
  - exists plain. split; [done|]. clear -S1. induction S1 as [|s p sealed plain (H&_) _ IH]; [done|]. cbn. by rewrite H, IH.
  - apply Forall_forall. intros s Hin. apply list_elem_of_lookup in Hin as (i&Hi). destruct (Forall2_lookup_l _ _ _ _ _ S1 Hi) as (p&_&_&H1&H2).
    unfold is_sealed_fragment, is_fragment in *. apply andb_true_iff in H1 as [H3 H4]. apply bool_decide_eq_true in H4. rewrite H3, H4. split_and!; [done|done|by apply negb_true_iff|done].
Qed.
(** A toy pair: the text as it is and a tag of zeros. *)
Definition plain_key : PacketKey := mkKey (λ _ _ body, Some (body, replicate 16 (byte_of 0))) (λ _ _ sealed, Some (takeN (len sealed - 16) sealed)).
#[export] Instance plain_pair : KeyPair plain_key plain_key.
Proof.
  split; intros n header body cipher tag E; (assert (cipher = body ∧ tag = replicate 16 (byte_of 0)) as [-> ->] by (by injection E)); [|done].
  cbn [plain_key decrypt_in_place]. f_equal. rewrite len_app. apply takeN_app_eq. assert (len (replicate 16 (byte_of 0)) = 16) as -> by done. lia.
Qed.
Lemma sealed_flight_opens_witness :
  let '(n', r) := seal (map byte_of [1; 2; 3]) 0 plain_key 5 in n' = 6 ∧ match r with Ok sealed => length sealed = 1%nat | Err _ => False end.
Proof.
  destruct (seal (map byte_of [1; 2; 3]) 0 plain_key 5) as [n' [sealed|e]] eqn:E; [|by vm_compute in E].
  destruct (sealed_flight_opens plain_key plain_key (map byte_of [1; 2; 3]) 0 5 n' sealed E ltac:(done)) as (_&_&H&_).
  assert (length sealed = 1%nat) as El by (vm_compute in E; by injection E as _ <-). split; [|done]. rewrite H. unfold len. by rewrite El.
Defined.

(** ** Hostile datagrams *)
Record ra_bounded (r : Reassembler) : Prop := {
  rb_consumed : ra_consumed r ≤ MAX_STREAM_BYTES;
  rb_held : match ra_total r with
            | Some t => t ≤ MAX_FLIGHT_BYTES ∧ ra_consumed r + t ≤ MAX_STREAM_BYTES ∧ len (ra_bytes r) = t ∧ len (ra_present r) = t
            | None => ra_bytes r = [] ∧ ra_present r = []
            end
}.
Lemma fill_slots_length present : ∀ slots skip payload filled,
  let '(ps, ss, _) := fill_slots present slots skip payload filled in length ps = length present ∧ length ss = length slots.
Proof.
  induction present as [|p ps IH]; intros [|s ss] skip payload filled; cbn [fill_slots]; try done. destruct skip as [|skip]; [destruct payload as [|b payload]; [done|destruct p]|].
  - specialize (IH ss 0%nat payload filled). destruct (fill_slots _ _ _ _ _) as [[? ?] ?]. cbn. lia.
  - specialize (IH ss 0%nat payload (sat_add filled 1)). destruct (fill_slots _ _ _ _ _) as [[? ?] ?]. cbn. lia.
  - specialize (IH ss skip payload filled). destruct (fill_slots _ _ _ _ _) as [[? ?] ?]. cbn. lia.
Qed.
Definition given (out : Reassembly) : bytes := match out with Flight fl => fl | _ => [] end.
Lemma push_awaited_bounded r within total payload :
  total ≤ MAX_FLIGHT_BYTES → ra_consumed r + total ≤ MAX_STREAM_BYTES → ra_total r = Some total → len (ra_bytes r) = total → len (ra_present r) = total →
  let '(r', out) := push_awaited r within total payload in ra_bounded r' ∧ ra_consumed r' = ra_consumed r + len (given out).
Proof.
  intros H1 H2 E2 E3 E4. unfold push_awaited. pose proof (fill_slots_length (ra_present r) (ra_bytes r) (N.to_nat within) payload (ra_filled r)) as Hf.
  destruct (fill_slots _ _ _ _ _) as [[ps ss] n]. destruct Hf as [F1 F2]. assert (len ps = total ∧ len ss = total) as [L1 L2] by (unfold len in *; lia). destruct (n <? total).
  - split; [split; cbn [ra_consumed ra_total ra_bytes ra_present]; [lia|by rewrite E2]|cbn [given ra_consumed]; rewrite len_nil; lia].
  - rewrite sat_add_small by (unfold MAX_STREAM_BYTES, u16_max, u64_max in *; lia). split; [split; cbn [ra_consumed ra_total ra_bytes ra_present]; [lia|done]|cbn [ra_consumed given]; by rewrite L2].
Qed.
Lemma sat_stream a b : sat_add a b ≤ MAX_STREAM_BYTES → a + b ≤ MAX_STREAM_BYTES.
Proof. unfold sat_add, MAX_STREAM_BYTES, u16_max, u64_max. lia. Qed.
Lemma push_bounded r d : ra_bounded r → let '(r', out) := push r d in ra_bounded r' ∧ ra_consumed r' = ra_consumed r + len (given out).
Proof.
  intros Hr. assert (∀ out, given out = [] → ra_bounded r ∧ ra_consumed r = ra_consumed r + len (given out)) as Hsame by (intros out ->; split; [done|rewrite len_nil; lia]).
  unfold push. destruct (parse d) as [[[[start within] total] payload]|]; [|by apply Hsame].
  destruct (N.ltb_spec MAX_FLIGHT_BYTES total) as [|H1]; cbn [orb]; [by apply Hsame|]. destruct ((total =? 0) || (total <? sat_add within (len payload))); cbn [orb]; [by apply Hsame|].
  destruct (N.ltb_spec MAX_STREAM_BYTES (sat_add start total)) as [|Eg]; [by apply Hsame|].
  apply sat_stream in Eg as H2.
  destruct (N.ltb_spec start (ra_consumed r)) as [|H3]; [apply Hsame; by destruct (_ <=? _)|]. destruct (N.ltb_spec (ra_consumed r) start) as [|H4]; [by apply Hsame|].
  assert (start = ra_consumed r) as -> by lia. pose proof (rb_held _ Hr) as Hh. destruct (ra_total r) as [seen|] eqn:Et.
  - destruct (N.eqb_spec seen total) as [->|]; cbn [negb]; [|by apply Hsame]. destruct Hh as (_&_&?&?). by apply push_awaited_bounded.
  - apply (push_awaited_bounded (begin_flight r total)); cbn [begin_flight ra_consumed ra_total ra_bytes ra_present]; [done|done|done|unfold len; rewrite length_replicate; lia..].
Qed.

(** Whatever datagrams a peer sends, a reassembler never holds more than the largest flight nor feeds more than the field's range
    of bytes to the handshake in all, and what it fed is exactly what it counts as consumed. *)
Theorem hostile_flights_bounded (ds : list bytes) :
  let '(r, out) := pushes reassembler_new ds in
  len (ra_bytes r) ≤ MAX_FLIGHT_BYTES ∧ len (ra_present r) ≤ MAX_FLIGHT_BYTES ∧ len (concat out) = ra_consumed r ∧ ra_consumed r ≤ MAX_STREAM_BYTES.
Proof.
  assert (∀ r, ra_bounded r → let '(r', out) := pushes r ds in ra_bounded r' ∧ ra_consumed r' = ra_consumed r + len (concat out)) as Hrun.
  { induction ds as [|d ds IH]; intros r Hr; cbn [pushes]; [split; [done|cbn; rewrite len_nil; lia]|]. pose proof (push_bounded r d Hr) as Hp. destruct (push r d) as [r1 o1].
    destruct Hp as [P1 P2]. specialize (IH r1 P1). destruct (pushes r1 ds) as [r2 rest]. destruct IH as [I1 I2]. split; [done|]. rewrite I2, P2. destruct o1; cbn [given concat]; rewrite ?len_app, ?len_nil; lia. }
  assert (ra_bounded reassembler_new) as H0 by (split; [by vm_compute|done]). specialize (Hrun _ H0). destruct (pushes reassembler_new ds) as [r out]. destruct Hrun as [[R1 R2] R3].
  cbn [reassembler_new ra_consumed] in R3. rewrite N.add_0_l in R3. split_and!; [..|done|done]; destruct (ra_total r); [destruct R2 as (?&_&->&?); lia|destruct R2 as [-> _]; rewrite len_nil; lia|destruct R2 as (?&_&_&->); lia|destruct R2 as [_ ->]; rewrite len_nil; lia].
Qed.
