(* ===== verification/Flow.v ===== *)
(** * Flow control

    Models [crates/transport/src/flow.rs], the credit a receiver advertises and
    how it tunes it, and the receiving half of a stream as
    [crates/transport/src/connection.rs] drives it with the stream's assembler. *)

From S2P Require Import Prelude Frame Stream.
#[local] Open Scope N_scope.

Definition AUTOTUNE_RTT_MULTIPLE : N := 2.
Definition AUTOTUNE_GROWTH_FACTOR : N := 2.
Record FlowController := mkFlow {
  window_ahead : N; class_reserve : N; flow_ceiling : N; connection_consumed : N; stream_consumed : gmap N N; flow_epoch : option (N * N); growths : N }.

(** [FlowController::new], [autotune]. *)
Definition flow_new (window ceiling reserve : N) : FlowController := mkFlow window reserve (N.max (sat_sub ceiling reserve) window) 0 ∅ None 0.
Definition autotune (f : FlowController) (now : N) (smoothed_rtt : option N) : FlowController :=
  let '(started, consumed_then) := match flow_epoch f with Some e => e | None => (now, connection_consumed f) end in
  if sat_sub (connection_consumed f) consumed_then <? window_ahead f
  then mkFlow (window_ahead f) (class_reserve f) (flow_ceiling f) (connection_consumed f) (stream_consumed f) (Some (started, consumed_then)) (growths f)
  else
    let grow := match smoothed_rtt with
                | Some rtt => (sat_sub now started <? sat_mul rtt AUTOTUNE_RTT_MULTIPLE) && (window_ahead f <? flow_ceiling f)
                | None => false
                end in
    mkFlow (if grow then N.min (sat_mul (window_ahead f) AUTOTUNE_GROWTH_FACTOR) (flow_ceiling f) else window_ahead f) (class_reserve f) (flow_ceiling f)
      (connection_consumed f) (stream_consumed f) (Some (now, connection_consumed f)) (if grow then sat_add (growths f) 1 else growths f).

(** [forget_stream], [on_stream_consumed]. *)
Definition flow_forget_stream (f : FlowController) (stream_id : N) : FlowController :=
  mkFlow (window_ahead f) (class_reserve f) (flow_ceiling f) (connection_consumed f) (delete stream_id (stream_consumed f)) (flow_epoch f) (growths f).
Definition consumed_of (f : FlowController) (stream_id : N) : N := default 0 (stream_consumed f !! stream_id).
Definition on_stream_consumed (f : FlowController) (stream_id consumed : N) : FlowController :=
  let entry := consumed_of f stream_id in
  mkFlow (window_ahead f) (class_reserve f) (flow_ceiling f) (sat_add (connection_consumed f) (sat_sub consumed entry))
    (<[stream_id := N.max entry consumed]> (stream_consumed f)) (flow_epoch f) (growths f).

(** [stream_max], [connection_max], [stream_credit_frame], [connection_credit_frame]. *)
Definition stream_max (f : FlowController) (stream_id : N) : N := sat_add (consumed_of f stream_id) (window_ahead f).
Definition connection_max (f : FlowController) : N := sat_add (sat_add (connection_consumed f) (window_ahead f)) (class_reserve f).
Definition stream_credit_frame (f : FlowController) (stream_id : N) : Frame := FMaxStreamData stream_id (stream_max f stream_id).
Definition connection_credit_frame (f : FlowController) : Frame := FMaxData (connection_max f).

(** ** One stream between two connections *)

(** [Connection::install_sender] of the sending end. *)
Definition install_sender (data : bytes) (initial_window next_installed : N) : StreamSender :=
  set_installed (tx_finish (grant_credit (tx_write sender_new data) initial_window)) next_installed.
(** [Connection::on_stream_frame] of a stream that is open: the window is raised to the advertised ceiling before the offer. *)
Definition on_stream_frame (flow : FlowController) (a : StreamAssembler) (stream_id offset : N) (data : bytes) (fin : bool) : StreamAssembler * result StreamError unit :=
  offer (grant_window a (stream_max flow stream_id)) offset data fin.
(** [Connection::read_stream] of a stream that is open. *)
Definition read_stream (flow : FlowController) (a : StreamAssembler) (stream_id now : N) (smoothed_rtt : option N) : FlowController * StreamAssembler * bytes :=
  let '(a, out) := rx_read a in
  let flow := on_stream_consumed flow stream_id (rx_read_offset a) in
  (if bool_decide (out = []) then flow else autotune flow now smoothed_rtt, a, out).

(** The two ends of a stream, the frames and credits the network has taken, and the frames refused. *)
Record Exchange := mkExchange {
  ex_tx : StreamSender; ex_rx : StreamAssembler; ex_flow : FlowController; ex_frames : list Frame; ex_credits : list N; ex_out : bytes; ex_violations : N }.
(** The sender frames or takes a credit it was sent; the receiver takes a frame, reads, advertises; other streams of the
    connection are consumed and forgotten. *)
Inductive ExchangeEvent :=
| XNext (cap : N) | XCredit (max : N) | XFrame (f : Frame) | XRead (now : N) (smoothed_rtt : option N) | XAdvertise | XOther (stream_id consumed : N) | XForget (stream_id : N).
Section exchange.
Variable id : N.
Definition exchange_event (x : Exchange) (e : ExchangeEvent) : Exchange :=
  let 'mkExchange tx rx flow frames credits out violations := x in
  match e with
  | XNext cap => let '(tx, f) := next_frame tx id cap in mkExchange tx rx flow (frames ++ option_list f) credits out violations
  | XCredit max => if decide (max ∈ credits) then mkExchange (grant_credit tx max) rx flow frames credits out violations else x
  | XFrame f =>
      if decide (f ∈ frames) then
        match f with
        | FStream _ offset fin data =>
            match on_stream_frame flow rx id offset data fin with
            | (rx, Ok _) => mkExchange tx rx flow frames credits out violations
            | (rx, Err _) => mkExchange tx rx flow frames credits out (sat_add violations 1)
            end
        | _ => x
        end
      else x
  | XRead now rtt => let '(flow, rx, bytes) := read_stream flow rx id now rtt in mkExchange tx rx flow frames credits (out ++ bytes) violations
  | XAdvertise => mkExchange tx rx flow frames (match stream_credit_frame flow id with FMaxStreamData _ max => max | _ => 0 end :: credits) out violations
  | XOther other consumed => if decide (other = id) then x else mkExchange tx rx (on_stream_consumed flow other consumed) frames credits out violations
  | XForget other => if decide (other = id) then x else mkExchange tx rx (flow_forget_stream flow other) frames credits out violations
  end.
Definition exchange_events (x : Exchange) (es : list ExchangeEvent) : Exchange := foldl exchange_event x es.
Definition exchange_new (data : bytes) (window ceiling reserve installed : N) : Exchange :=
  mkExchange (install_sender data window installed) (assembler_new window) (flow_new window ceiling reserve) [] [] [] 0.
End exchange.

(** ** What the credits promise *)

(** Consuming and tuning never take credit back, and keep the window within its ceiling. *)
Record flow_grows (f f' : FlowController) : Prop := {
  fg_window : window_ahead f ≤ window_ahead f';
  fg_ceiling : (flow_ceiling f', class_reserve f') = (flow_ceiling f, class_reserve f);
  fg_within : window_ahead f ≤ flow_ceiling f → window_ahead f' ≤ flow_ceiling f';
  fg_connection : connection_consumed f ≤ u64_max → connection_consumed f ≤ connection_consumed f' ∧ connection_consumed f' ≤ u64_max
}.
Lemma autotune_ok f now rtt : flow_ceiling f ≤ u64_max → flow_grows f (autotune f now rtt) ∧ stream_consumed (autotune f now rtt) = stream_consumed f.
Proof.
  intros Hc. unfold autotune. destruct (match flow_epoch f with Some e => e | None => (now, connection_consumed f) end) as [started consumed_then]. destruct (_ <? _); [by split; [split|]|].
  set (grow := match rtt with Some _ => _ | None => false end). assert (grow = true → window_ahead f < flow_ceiling f) as Hg.
  { unfold grow. destruct rtt; [|done]. intros [_ H%N.ltb_lt]%andb_true_iff. done. }
  split; [|done]. split; cbn; try done; destruct grow; try done; unfold sat_mul, AUTOTUNE_GROWTH_FACTOR; specialize (Hg eq_refl); lia.
Qed.
Lemma consumed_ok f id n : flow_grows f (on_stream_consumed f id n) ∧ consumed_of (on_stream_consumed f id n) id = N.max (consumed_of f id) n
  ∧ ∀ other, other ≠ id → consumed_of (on_stream_consumed f id n) other = consumed_of f other.
Proof.
  split; [split; cbn; try done; unfold sat_add; lia|]. split; unfold consumed_of, on_stream_consumed; cbn; [by rewrite lookup_insert_eq|].
  intros other Hne. by rewrite lookup_insert_ne.
Qed.

Section bounds.
Variables (id : N) (content : bytes) (ceiling : N).
Hypothesis fits_u64 : len content + ceiling ≤ u64_max.
Record exchange_ok (x : Exchange) : Prop := {
  xo_tx : tx_ok (ex_tx x) (ex_frames x);
  xo_content : tx_buffered (ex_tx x) = content ∧ tx_finished (ex_tx x) = true;
  xo_rx : ∃ accepted, rv_ok content (mkReceiver (ex_rx x) (ex_out x) accepted);
  xo_consumed : consumed_of (ex_flow x) id = rx_read_offset (ex_rx x);
  xo_window : window_ahead (ex_flow x) ≤ flow_ceiling (ex_flow x) ∧ flow_ceiling (ex_flow x) = ceiling;
  xo_credit : tx_credit (ex_tx x) ≤ stream_max (ex_flow x) id ∧ ∀ c, c ∈ ex_credits x → c ≤ stream_max (ex_flow x) id;
  xo_rxwin : rx_window (ex_rx x) ≤ stream_max (ex_flow x) id;
  xo_honest : ex_violations x = 0
}.
(** The credit is exactly a window past what was read. *)
Lemma exchange_max x : exchange_ok x → stream_max (ex_flow x) id = rx_read_offset (ex_rx x) + window_ahead (ex_flow x).
Proof using fits_u64.
  intros Hx. unfold stream_max. rewrite (xo_consumed _ Hx). destruct (xo_window _ Hx) as [Hw Hc]. destruct (xo_rx _ Hx) as [acc Hr]. pose proof (vk_read _ _ Hr) as Hle. cbn in Hle.
  apply sat_add_small. lia.
Qed.
Lemma other_flow x f' :
  exchange_ok x → flow_grows (ex_flow x) f' → consumed_of f' id = consumed_of (ex_flow x) id →
  exchange_ok (mkExchange (ex_tx x) (ex_rx x) f' (ex_frames x) (ex_credits x) (ex_out x) (ex_violations x)).
Proof using fits_u64.
  intros Hx Hg Hc. assert (stream_max (ex_flow x) id ≤ stream_max f' id) as Hm by (unfold stream_max; rewrite Hc; pose proof (fg_window _ _ Hg); unfold sat_add; lia).
  destruct Hx as [X1 X2 X3 X4 [X5 X5'] [X6 X6'] X7 X8]. pose proof (fg_ceiling _ _ Hg) as [= Ec _]. split; cbn; try done.
  - by rewrite Hc.
  - split; [by apply (fg_within _ _ Hg)|congruence].
  - split; [lia|]. intros c Hin. specialize (X6' c Hin). lia.
  - lia.
Qed.
Lemma next_frame_frames t c cap f : (next_frame t c cap).2 = Some f → ∃ offset fin data, f = FStream c offset fin data.
Proof. unfold next_frame. repeat case_match; intros [= <-]; eauto. Qed.
Lemma exchange_event_ok x e : exchange_ok x → exchange_ok (exchange_event id x e).
Proof using fits_u64.
  intros Hx. pose proof (exchange_max x Hx) as Hmax. destruct x as [tx rx flow frames credits out violations]. destruct e as [cap|max|f|now rtt| |other consumed|other]; cbn [exchange_event].
  - pose proof (next_frame_ok tx frames id cap (xo_tx _ Hx)) as Hn. destruct (next_frame tx id cap) as [tx' f]. destruct Hn as (N1&N2&N3&N4&_&_).
    destruct Hx as [X1 X2 X3 X4 X5 X6 X7 X8]. split; cbn in *; try done; [by rewrite N2, N4|by rewrite N3].
  - case_decide as Hin; [|done]. destruct Hx as [X1 X2 X3 X4 X5 [X6 X6'] X7 X8]. split; cbn in *; try done; [by apply grant_tx_ok|]. split; [|done]. specialize (X6' max Hin). lia.
  - case_decide as Hin; [|done]. destruct f as [fid offset fin data| | | | | | | | | |]; try done. unfold on_stream_frame.
    assert (frame_of content true (FStream fid offset fin data) ∧ offset + len data ≤ stream_max flow id) as [Hf Hend].
    { destruct Hx as [X1 [X2 X2'] _ _ _ [X6 _] _ _]. cbn in *. pose proof (proj1 (Forall_forall _ _) (tk_frames _ _ X1) _ Hin) as Hf. pose proof (proj1 (Forall_forall _ _) (tk_credit _ _ X1) _ Hin) as Hc.
      rewrite X2, X2' in Hf. split; [done|]. cbn in Hc. lia. }
    destruct (xo_rx _ Hx) as [acc Hr]. cbn in Hr. set (r0 := mkReceiver (grant_window rx (stream_max flow id)) out acc).
    assert (rv_ok content r0) as Hr0 by (apply (recv_events_ok content true [RGrant (stream_max flow id)] _ Hr); repeat constructor; cbn; unfold stream_max, sat_add; lia).
    destruct (offer_in_window content true r0 fid offset fin data Hr0 Hf) as (a&Ea&Eread); [unfold r0; cbn [rv_rx grant_window rx_window]; lia|]. cbn [r0 rv_rx] in Ea. rewrite Ea.
    destruct (deliver_ok content true r0 (FStream fid offset fin data) Hr0 Hf) as (D1&D2&_). cbn [recv_event r0 rv_rx rv_out rv_accepted] in D1, D2. rewrite Ea in D1, D2. cbn [rv_rx] in D2.
    destruct Hx as [X1 X2 X3 X4 X5 X6 X7 X8]. split; cbn in *; try done; [by eexists|by rewrite Eread|]. rewrite D2. lia.
  - unfold read_stream. destruct (xo_rx _ Hx) as [acc Hr]. cbn in Hr. pose proof (read_rv_ok content _ Hr) as (R1&R2&_). cbn [recv_event rv_rx rv_out rv_accepted] in R1, R2.
    pose proof (read_ok content rx (vk_rx _ _ Hr) (vk_agrees _ _ Hr)) as Hro. destruct (rx_read rx) as [a bytes]. cbn [rv_rx] in R2.
    assert (rx_read_offset rx ≤ rx_read_offset a) as Hmono by (by destruct Hro as (_&_&_&?&_)).
    destruct (consumed_ok flow id (rx_read_offset a)) as (C1&C2&_). assert (consumed_of flow id = rx_read_offset rx) as Ec by apply Hx. rewrite Ec, N.max_r in C2 by done.
    set (flow1 := on_stream_consumed flow id (rx_read_offset a)) in *. pose proof (fg_window _ _ C1) as W1. assert (flow_ceiling flow1 = flow_ceiling flow) as W2 by done.
    assert (exchange_ok (mkExchange tx a flow1 frames credits (out ++ bytes) violations)) as Hx1.
    { assert (stream_max flow id ≤ stream_max flow1 id) as Hm by (unfold stream_max; rewrite C2, Ec; unfold sat_add; lia).
      destruct Hx as [X1 X2 X3 X4 [X5 X5'] [X6 X6'] X7 X8]. split; cbn in *; try done; [by eexists|split; [lia|]|lia].
      intros c Hin. specialize (X6' c Hin). lia. }
    case_bool_decide; [done|]. pose proof (autotune_ok flow1 now rtt) as [A1 A2]; [pose proof (proj2 (xo_window _ Hx1)) as Ew; cbn [ex_flow] in Ew; lia|]. apply (other_flow _ (autotune flow1 now rtt) Hx1 A1). unfold consumed_of. by rewrite A2.
  - destruct Hx as [X1 X2 X3 X4 X5 [X6 X6'] X7 X8]. split; cbn in *; try done. split; [done|]. intros c [->|Hin]%elem_of_cons; [done|by apply X6'].
  - case_decide as Hne; [done|]. destruct (consumed_ok flow other consumed) as (C1&_&C3). apply (other_flow _ _ Hx C1). by apply C3.
  - case_decide as Hne; [done|]. apply (other_flow _ (flow_forget_stream flow other) Hx); [by split|]. unfold consumed_of, flow_forget_stream. cbn. by rewrite lookup_delete_ne.
Qed.
Lemma exchange_events_ok es : ∀ x, exchange_ok x → exchange_ok (exchange_events id x es).
Proof using fits_u64. induction es as [|e es IH]; intros x Hx; [done|]. by apply IH, exchange_event_ok. Qed.
End bounds.

Lemma installed_tx_ok t fs n : tx_ok t fs → tx_ok (set_installed t n) fs.
Proof. by intros []; split. Qed.

(** ** The claims *)

(** C25. A stream under the receiver's credits, whatever the network does to its frames and to the credits, however the window is tuned
    and whatever other streams of the connection do: no frame of a sender that keeps to its credit is refused; the sender never runs
    more than the window ahead of the reader, nor does the receiver buffer past that, and the window never passes its ceiling; what is
    read is a prefix of what was written. *)
Theorem credit_bounds_stream (id window ceiling reserve installed : N) (data : bytes) (es : list ExchangeEvent) :
  let x := exchange_events id (exchange_new data window ceiling reserve installed) es in
  len data + N.max (ceiling - reserve) window ≤ u64_max →
  ex_violations x = 0 ∧ ex_out x `prefix_of` data
  ∧ tx_send_offset (ex_tx x) ≤ rx_read_offset (ex_rx x) + window_ahead (ex_flow x)
  ∧ (∀ s d, rx_buffered (ex_rx x) !! s = Some d → rx_read_offset (ex_rx x) ≤ s ∧ s + len d ≤ rx_read_offset (ex_rx x) + window_ahead (ex_flow x))
  ∧ window_ahead (ex_flow x) ≤ N.max (ceiling - reserve) window
  ∧ stream_max (ex_flow x) id = rx_read_offset (ex_rx x) + window_ahead (ex_flow x).
Proof.
  intros x Hfit. assert (exchange_ok id data (N.max (ceiling - reserve) window) (exchange_new data window ceiling reserve installed)) as H0.
  { assert (consumed_of (flow_new window ceiling reserve) id = 0) as Ec by (unfold consumed_of; cbn [flow_new stream_consumed]; by rewrite lookup_empty).
    assert (stream_max (flow_new window ceiling reserve) id = window) as Em by (unfold stream_max; rewrite Ec, sat_add_small; cbn [flow_new window_ahead]; lia).
    split; cbn [exchange_new ex_tx ex_rx ex_flow ex_frames ex_credits ex_out ex_violations].
    - apply installed_tx_ok, finish_tx_ok, grant_tx_ok, write_tx_ok; [apply sender_new_ok|done|cbn; lia].
    - done.
    - exists []. apply receiver_new_ok. lia.
    - done.
    - cbn. unfold sat_sub. lia.
    - rewrite Em. split; [cbn; lia|by intros c ?%elem_of_nil].
    - rewrite Em. cbn. lia.
    - done. }
  pose proof (exchange_events_ok id data _ Hfit es _ H0) as Hx. fold x in Hx. pose proof (exchange_max id data _ Hfit x Hx) as Hm.
  destruct Hx as [X1 X2 [acc X3] X4 [X5 X5'] [X6 X6'] X7 X8]. split_and!; [done| | | |lia|done].
  - pose proof (vk_out _ _ X3) as Ho. cbn [rv_out] in Ho. rewrite Ho. unfold takeN. apply prefix_take.
  - destruct (tk_offset _ _ X1). lia.
  - pose proof (vk_rx _ _ X3) as Hr. cbn in Hr. intros s d Hs. split; [by apply (rk_above _ Hr s d)|]. pose proof (rk_window _ Hr s d Hs). lia.
Qed.
Definition demo_exchange : list ExchangeEvent := [XNext 3; XNext 3; XFrame (FStream 4 0 false (map byte_of [1; 2; 3])); XRead 10 (Some 50); XAdvertise; XCredit 7; XNext 9].
Lemma credit_bounds_stream_witness :
  let x := exchange_events 4 (exchange_new (map byte_of [1; 2; 3; 4; 5; 6; 7; 8]) 4 16 0 0) demo_exchange in
  ex_out x = map byte_of [1; 2; 3] ∧ tx_send_offset (ex_tx x) = 7 ∧ tx_send_offset (ex_tx x) ≤ 3 + window_ahead (ex_flow x).
Proof.
  destruct (credit_bounds_stream 4 4 16 0 0 (map byte_of [1; 2; 3; 4; 5; 6; 7; 8]) demo_exchange) as (_&_&H&_); [by vm_compute|].
  cbn zeta. split_and!; [by vm_compute|by vm_compute|]. etrans; [exact H|]. by vm_compute.
Defined.

