(* ===== verification/Recovery.v ===== *)
(** * Pacing, round trips and reordering

    Models [crates/transport/src/pacer.rs], [rtt.rs] and [reorder.rs]: when a
    packet may leave, how long a round trip takes, and how far out of order a
    path delivers. *)

From S2P Require Import Prelude BuddyBits Frame AckGen SentTracker.
#[local] Open Scope N_scope.

(** ** The pacer *)
Definition NANOS_PER_SECOND : N := 1000000000.
Record Pacer := mkPacer { pc_tokens : N; refilled_at : option N }.
Definition pacer_new : Pacer := mkPacer 0 None.
(** [rate], [volume], [duration]: products at 128 bits, saturated to 64. *)
Definition u64_clamp (n : N) : N := N.min n u64_max.
Definition rate_of (bytes interval_ns : N) : N := if interval_ns =? 0 then 0 else u64_clamp (bytes * NANOS_PER_SECOND / interval_ns).
Definition volume (rate interval_ns : N) : N := u64_clamp (rate * interval_ns / NANOS_PER_SECOND).
Definition duration (bytes rate : N) : N := if rate =? 0 then u64_max else u64_clamp (div_ceil (bytes * NANOS_PER_SECOND) rate).
(** [Pacer::refill], [release_time], [on_sent]. *)
Definition refill (p : Pacer) (now rate quantum : N) : Pacer :=
  mkPacer (match refilled_at p with
           | None => quantum
           | Some then_ => N.min (sat_add (pc_tokens p) (volume rate (sat_sub now then_))) quantum
           end) (Some now).
Definition release_time (p : Pacer) (now bytes rate quantum : N) : Pacer * N :=
  let p := refill p now rate quantum in
  let need := N.min bytes quantum in
  (p, if need <=? pc_tokens p then now else sat_add now (duration (sat_sub need (pc_tokens p)) rate)).
Definition pacer_on_sent (p : Pacer) (now bytes rate quantum : N) : Pacer :=
  let p := refill p now rate quantum in mkPacer (sat_sub (pc_tokens p) bytes) (refilled_at p).

(** ** Round trips *)
Definition GRANULARITY_NS : N := 1000000.
Definition INITIAL_RTT_NS : N := 333000000.
Definition SMOOTHED_RTT_SHIFT : N := 3.
Definition RTTVAR_SHIFT : N := 2.
Definition PTO_RTTVAR_MULTIPLIER : N := 4.
Definition INITIAL_PTO_MULTIPLIER : N := 2.
Definition TIME_THRESHOLD_NUMERATOR : N := 9.
Definition TIME_THRESHOLD_DENOMINATOR : N := 8.
Definition PERSISTENT_CONGESTION_THRESHOLD : N := 3.
Record RttEstimator := mkRtt { latest_rtt : N; min_rtt : N; smoothed_rtt : N; rttvar : N; have_sample : bool }.
Definition rtt_new : RttEstimator := mkRtt 0 0 0 0 false.
Definition abs_diff (a b : N) : N := (a - b) + (b - a).
(** [RttEstimator::on_sample], [pto], [smoothed_rtt_or_initial], [loss_delay], [persistent_congestion_duration]. *)
Definition on_sample (r : RttEstimator) (latest ack_delay : N) : RttEstimator :=
  let least := if have_sample r then N.min (min_rtt r) latest else latest in
  if negb (have_sample r) then mkRtt latest least latest (latest / 2) true else
  let adjusted := if sat_add least ack_delay <=? latest then sat_sub latest ack_delay else latest in
  let var_sample := abs_diff (smoothed_rtt r) adjusted in
  mkRtt latest least
    (sat_add (sat_sub (smoothed_rtt r) (N.shiftr (smoothed_rtt r) SMOOTHED_RTT_SHIFT)) (N.shiftr adjusted SMOOTHED_RTT_SHIFT))
    (sat_add (sat_sub (rttvar r) (N.shiftr (rttvar r) RTTVAR_SHIFT)) (N.shiftr var_sample RTTVAR_SHIFT)) true.
Definition initial_pto : N := sat_mul INITIAL_PTO_MULTIPLIER INITIAL_RTT_NS.
Definition pto (r : RttEstimator) (max_ack_delay : N) : N :=
  if negb (have_sample r) then initial_pto else
  sat_add (sat_add (smoothed_rtt r) (N.max (sat_mul PTO_RTTVAR_MULTIPLIER (rttvar r)) GRANULARITY_NS)) max_ack_delay.
Definition smoothed_rtt_or_initial (r : RttEstimator) : N := if have_sample r then smoothed_rtt r else INITIAL_RTT_NS.
Definition loss_delay_of (r : RttEstimator) : N :=
  let base := if have_sample r then N.max (smoothed_rtt r) (latest_rtt r) else INITIAL_RTT_NS in
  N.max (div_ceil (sat_mul base TIME_THRESHOLD_NUMERATOR) TIME_THRESHOLD_DENOMINATOR) GRANULARITY_NS.
Definition persistent_congestion_duration (r : RttEstimator) (max_ack_delay : N) : N := sat_mul (pto r max_ack_delay) PERSISTENT_CONGESTION_THRESHOLD.

(** ** Reordering *)
Definition QUIET_RECOVERIES : N := 16.
Definition WINDOW_STEP_DIVISOR : N := 4.
Definition MEMORY_SRTTS : N := 2.
Record Declared := mkDeclared { de_largest_acked : N; de_at : N }.
Record Reordering := mkReordering { extra_packets : N; window_quarters : N; widened_at : option N; quiet : N; declared : gmap N Declared; spurious : N }.
Definition reordering_new : Reordering := mkReordering 0 0 None 0 ∅ 0.
(** [Reordering::packet_threshold], [extra_delay], [remembers_declared_losses]. *)
Definition packet_threshold (r : Reordering) : N := sat_add REORDER_THRESHOLD (extra_packets r).
Definition extra_delay (r : Reordering) (min_rtt srtt : N) : N := N.min (sat_mul (min_rtt / WINDOW_STEP_DIVISOR) (window_quarters r)) srtt.
Definition remembers_declared_losses (r : Reordering) : bool := negb (bool_decide (declared r = ∅)).
(** [Reordering::on_declared_lost]. *)
Fixpoint drop_declared (turns : nat) (cap : N) (m : gmap N Declared) : gmap N Declared :=
  match turns with
  | O => m
  | S turns => if N.max cap 1 <? N.of_nat (size m) then match pop_first m with (m, Some _) => drop_declared turns cap m | (m, None) => m end else m
  end.
Definition on_declared_lost (r : Reordering) (pns : list N) (largest_acked now srtt cap : N) : Reordering :=
  if bool_decide (pns = []) then r else
  let m := foldl (λ m pn, <[pn := mkDeclared largest_acked now]> m) (declared r) pns in
  let horizon := sat_sub now (sat_mul srtt MEMORY_SRTTS) in
  let m := filter (λ p : N * Declared, horizon ≤ de_at p.2) m in
  let m := drop_declared (size m) cap m in
  let q := N.min (quiet r + 1) u32_max in
  if QUIET_RECOVERIES <=? q then mkReordering 0 0 (widened_at r) 0 m (spurious r)
  else mkReordering (extra_packets r) (window_quarters r) (widened_at r) q m (spurious r).
(** [Reordering::on_acknowledged]. *)
Definition needed_packets (d : Declared) (pn max_packets : N) : N :=
  N.min (sat_sub (sat_add (sat_sub (de_largest_acked d) pn) 1) REORDER_THRESHOLD) (sat_sub max_packets REORDER_THRESHOLD).
Definition take_run (m : gmap N Declared) (extra : N) (run : N * N) (max_packets : N) : gmap N Declared * N * list N :=
  let covered := bt_range_incl m run.1 run.2 in
  (foldl (λ m p, delete p.1 m) m covered, foldl (λ x p, N.max x (needed_packets p.2 p.1 max_packets)) extra covered, map fst covered).
Fixpoint take_runs (m : gmap N Declared) (extra : N) (runs : list (N * N)) (max_packets : N) : gmap N Declared * N * list N :=
  match runs with
  | [] => (m, extra, [])
  | run :: runs => let '(m, extra, found) := take_run m extra run max_packets in let '(m, extra, more) := take_runs m extra runs max_packets in (m, extra, found ++ more)
  end.
Definition on_acknowledged (r : Reordering) (runs : list (N * N)) (now srtt max_packets : N) : Reordering * list N :=
  let '(m, extra, found) := take_runs (declared r) (extra_packets r) runs max_packets in
  if bool_decide (found = []) then (mkReordering extra (window_quarters r) (widened_at r) (quiet r) m (spurious r), found) else
  let widen := match widened_at r with None => true | Some at_ => srtt <=? sat_sub now at_ end in
  (mkReordering extra (if widen then sat_add (window_quarters r) 1 else window_quarters r) (if widen then Some now else widened_at r) 0 m (sat_add (spurious r) (len found)), found).

(** ** The bucket *)
Lemma volume_le rate dt : NANOS_PER_SECOND * volume rate dt ≤ rate * dt.
Proof. unfold volume, u64_clamp. etrans; [|apply N.Div0.mul_div_le]. apply N.mul_le_mono_l. lia. Qed.
Lemma refill_le p then_ now rate quantum :
  refilled_at p = Some then_ → then_ ≤ now → NANOS_PER_SECOND * pc_tokens (refill p now rate quantum) ≤ NANOS_PER_SECOND * pc_tokens p + rate * (now - then_).
Proof.
  intros Ht Hle. unfold refill. rewrite Ht. cbn [pc_tokens]. pose proof (volume_le rate (now - then_)) as Hv. unfold sat_add, sat_sub in *. etrans; [apply N.mul_le_mono_l; etrans; [apply N.le_min_l|apply N.le_min_l]|]. lia.
Qed.
Lemma div_ceil_pos a b : 0 < a → 0 < b → 0 < div_ceil a b ∧ a ≤ b * div_ceil a b.
Proof. intros Ha Hb. unfold div_ceil. pose proof (N.div_mod (a + (b - 1)) b ltac:(lia)) as E. pose proof (N.mod_lt (a + (b - 1)) b ltac:(lia)). split; [|lia]. destruct (N.eq_dec ((a + (b - 1)) / b) 0) as [E0|]; [|lia]. rewrite E0 in E. lia. Qed.
Lemma sat_add_moves now d : now < u64_max → 0 < d → now < sat_add now (u64_clamp d).
Proof. unfold sat_add, u64_clamp. lia. Qed.
Lemma released_tokens p now bytes rate quantum :
  now < u64_max → (release_time p now bytes rate quantum).2 = now → N.min bytes quantum ≤ pc_tokens (refill p now rate quantum).
Proof.
  intros Hn. unfold release_time. cbn [snd]. destruct (N.leb_spec (N.min bytes quantum) (pc_tokens (refill p now rate quantum))) as [|Hlt]; [done|]. intros E. exfalso.
  assert (0 < sat_sub (N.min bytes quantum) (pc_tokens (refill p now rate quantum))) as Hx by (unfold sat_sub; lia). revert E Hx. generalize (sat_sub (N.min bytes quantum) (pc_tokens (refill p now rate quantum))).
  intros x E Hx. unfold duration in E. destruct (N.eqb_spec rate 0) as [|Hr]; [unfold sat_add in E; lia|]. destruct (div_ceil_pos (x * NANOS_PER_SECOND) rate) as [Hp _]; [unfold NANOS_PER_SECOND; lia|lia|].
  pose proof (sat_add_moves now _ Hn Hp). lia.
Qed.

(** The pacer is asked when a packet may leave, or told that one left. *)
Inductive PacerOp := PPoll (now bytes : N) | PSend (now bytes : N).
Definition op_time (o : PacerOp) : N := match o with PPoll now _ | PSend now _ => now end.
Definition left_bytes (o : PacerOp) : N := match o with PPoll _ _ => 0 | PSend _ bytes => bytes end.
Definition pacer_op (rate quantum : N) (p : Pacer) (o : PacerOp) : Pacer :=
  match o with
  | PPoll now bytes => (release_time p now bytes rate quantum).1
  | PSend now bytes => pacer_on_sent p now bytes rate quantum
  end.
Definition pacer_ops (rate quantum : N) (p : Pacer) (os : list PacerOp) : Pacer := foldl (pacer_op rate quantum) p os.
(** The clock runs forward, and a packet of at most a quantum leaves once it was released. *)
Fixpoint paced (rate quantum last : N) (p : Pacer) (os : list PacerOp) : Prop :=
  match os with
  | [] => True
  | o :: os =>
      last ≤ op_time o ∧ op_time o < u64_max
      ∧ match o with PPoll _ _ => True | PSend now bytes => bytes ≤ quantum ∧ (release_time p now bytes rate quantum).2 = now end
      ∧ paced rate quantum (op_time o) (pacer_op rate quantum p o) os
  end.
Definition end_time (last : N) (os : list PacerOp) : N := foldl (λ _ o, op_time o) last os.
Definition bytes_sent (os : list PacerOp) : N := sum_N (map left_bytes os).
Lemma pacer_op_ok rate quantum last p o :
  refilled_at p = Some last → pc_tokens p ≤ quantum → last ≤ op_time o → op_time o < u64_max →
  match o with PPoll _ _ => True | PSend now bytes => bytes ≤ quantum ∧ (release_time p now bytes rate quantum).2 = now end →
  let p' := pacer_op rate quantum p o in
  refilled_at p' = Some (op_time o) ∧ pc_tokens p' ≤ quantum ∧ NANOS_PER_SECOND * (left_bytes o + pc_tokens p') ≤ NANOS_PER_SECOND * pc_tokens p + rate * (op_time o - last).
Proof.
  intros Hl Hq Hle Hmax Ho. cbn zeta. pose proof (refill_le p last (op_time o) rate quantum Hl Hle) as Hr.
  assert (pc_tokens (refill p (op_time o) rate quantum) ≤ quantum) as Hq' by (unfold refill; rewrite Hl; cbn [pc_tokens]; lia).
  destruct o as [now bytes|now bytes]; cbn [pacer_op op_time left_bytes] in *; unfold release_time, pacer_on_sent in *; cbn [fst pc_tokens refilled_at].
  - split_and!; [done|done|]. by rewrite N.add_0_l.
  - destruct Ho as [Hb Hrel]. pose proof (released_tokens p now bytes rate quantum Hmax Hrel) as Ht. rewrite N.min_l in Ht by done. unfold sat_sub. split_and!; [done|lia|].
    replace (bytes + (pc_tokens (refill p now rate quantum) - bytes)) with (pc_tokens (refill p now rate quantum)) by lia. done.
Qed.
Lemma paced_ok rate quantum os : ∀ last p,
  refilled_at p = Some last → pc_tokens p ≤ quantum → paced rate quantum last p os → let p' := pacer_ops rate quantum p os in
  refilled_at p' = Some (end_time last os) ∧ pc_tokens p' ≤ quantum ∧ last ≤ end_time last os
  ∧ NANOS_PER_SECOND * (bytes_sent os + pc_tokens p') ≤ NANOS_PER_SECOND * pc_tokens p + rate * (end_time last os - last).
Proof.
  induction os as [|o os IH]; intros last p Hl Hq Hp; cbn [paced] in Hp.
  { split_and!; [done|done|done|]. unfold bytes_sent. cbn. lia. }
  destruct Hp as (H1&H2&H3&H4). destruct (pacer_op_ok rate quantum last p o Hl Hq H1 H2 H3) as (O1&O2&O3). destruct (IH (op_time o) _ O1 O2 H4) as (I1&I2&I3&I4).
  change (pacer_ops rate quantum p (o :: os)) with (pacer_ops rate quantum (pacer_op rate quantum p o) os). change (end_time last (o :: os)) with (end_time (op_time o) os).
  split_and!; [done|done|lia|]. set (e := end_time (op_time o) os) in *. unfold bytes_sent in *. cbn [map sum_N foldr] in *.
  replace (e - last) with ((op_time o - last) + (e - op_time o)) by lia. unfold sum_N in *. cbn [foldr]. lia.
Qed.
Lemma paced_app rate quantum os os' : ∀ last p,
  paced rate quantum last p (os ++ os') ↔ paced rate quantum last p os ∧ paced rate quantum (end_time last os) (pacer_ops rate quantum p os) os'.
Proof. induction os as [|o os IH]; intros last p; cbn [app paced]; [tauto|]. rewrite IH. change (end_time last (o :: os)) with (end_time (op_time o) os). cbn [pacer_ops foldl]. tauto. Qed.
(** After its first use a pacer holds at most a quantum. *)
Lemma paced_start rate quantum o os : ∀ last,
  paced rate quantum last pacer_new (o :: os) → let p := pacer_op rate quantum pacer_new o in refilled_at p = Some (op_time o) ∧ pc_tokens p ≤ quantum ∧ paced rate quantum (op_time o) p os.
Proof. intros last (_&_&_&Hp). cbn zeta. split_and!; [|..|done]; destruct o; cbn; unfold sat_sub; lia || done. Qed.

(** ** The claims *)

(** C29. A paced sender conforms to its rate over any stretch of its life: between two points of a run in which the clock goes forward
    and each packet, of at most a quantum, leaves when it was released, the bytes that left are at most a quantum and what the rate
    carries in the time between, however often the pacer was asked. *)
Theorem pacer_conforms (rate quantum last : N) (os os' : list PacerOp) :
  os ≠ [] → paced rate quantum last pacer_new (os ++ os') →
  NANOS_PER_SECOND * bytes_sent os' ≤ NANOS_PER_SECOND * quantum + rate * (end_time last (os ++ os') - end_time last os).
Proof.
  intros Hne Hp. destruct os as [|o os]; [done|]. cbn [app] in Hp. destruct (paced_start rate quantum o (os ++ os') last Hp) as (S1&S2&S3). apply paced_app in S3 as [S3 S4].
  destruct (paced_ok rate quantum os _ _ S1 S2 S3) as (I1&I2&I3&_). destruct (paced_ok rate quantum os' _ _ I1 I2 S4) as (J1&J2&J3&J4).
  change (end_time last (o :: os)) with (end_time (op_time o) os). change (end_time last ((o :: os) ++ os')) with (end_time (op_time o) (os ++ os')).
  unfold end_time in *. rewrite foldl_app. unfold NANOS_PER_SECOND in *. lia.
Qed.
Lemma pacer_conforms_witness :
  NANOS_PER_SECOND * bytes_sent [PSend 5 800; PPoll 6 900; PSend 900000005 800] ≤ NANOS_PER_SECOND * 1600 + 1000 * (900000005 - 5).
Proof.
  apply (pacer_conforms 1000 1600 0 [PPoll 5 800] [PSend 5 800; PPoll 6 900; PSend 900000005 800]); [done|]. cbn [app paced op_time]. repeat split; try (by vm_compute); vm_compute; done.
Defined.

Lemma refill_again p now t rate quantum :
  quantum ≤ u64_max → let q := refill p now rate quantum in
  pc_tokens q ≤ quantum ∧ pc_tokens (refill q t rate quantum) = N.min (pc_tokens q + volume rate (t - now)) quantum.
Proof.
  intros Hq. cbn zeta. assert (pc_tokens (refill p now rate quantum) ≤ quantum) as Hle by (unfold refill; cbn [pc_tokens]; destruct (refilled_at p); lia). split; [done|].
  unfold refill at 1. change (refilled_at (refill p now rate quantum)) with (Some now). cbn [pc_tokens]. unfold sat_add, sat_sub. lia.
Qed.
Lemma wait_fills (x rate d : N) : 0 < rate → x * NANOS_PER_SECOND ≤ rate * d → x ≤ u64_max → x ≤ volume rate d.
Proof.
  intros Hr Hd Hx. unfold volume, u64_clamp. assert (x ≤ rate * d / NANOS_PER_SECOND) as H by (apply N.div_le_lower_bound; [done|lia]). lia.
Qed.
(** A packet waits no longer than its release: at the time the pacer named, asked again, it lets the packet go, provided that it was
    not asked between and the time was not past the clock's range. *)
Theorem pacer_releases (p : Pacer) (now bytes rate quantum : N) :
  let '(p', t) := release_time p now bytes rate quantum in
  quantum ≤ u64_max → t < u64_max → now ≤ t ∧ (release_time p' t bytes rate quantum).2 = t.
Proof.
  unfold release_time. cbn zeta. intros Hq. destruct (refill_again p now (if N.min bytes quantum <=? pc_tokens (refill p now rate quantum) then now
    else sat_add now (duration (sat_sub (N.min bytes quantum) (pc_tokens (refill p now rate quantum))) rate)) rate quantum Hq) as [Hle Ht]. revert Ht.
  set (q := refill p now rate quantum) in *. set (need := N.min bytes quantum). assert (need ≤ quantum) as Hnq by (unfold need; lia). destruct (N.leb_spec need (pc_tokens q)) as [Hin|Hlt]; intros Ht Hmax; cbn [snd].
  - split; [done|]. by rewrite (proj2 (N.leb_le _ _)) by (rewrite Ht; lia).
  - assert (0 < sat_sub need (pc_tokens q) ∧ need = pc_tokens q + sat_sub need (pc_tokens q)) as [Hx En] by (unfold sat_sub; lia). revert Hx En Ht Hmax. generalize (sat_sub need (pc_tokens q)). intros x Hx En Ht Hmax.
    unfold duration in *. destruct (N.eqb_spec rate 0) as [|Hr]; [unfold sat_add in Hmax; lia|]. destruct (div_ceil_pos (x * NANOS_PER_SECOND) rate) as [Hp Hc]; [unfold NANOS_PER_SECOND; lia|lia|].
    revert Hp Hc Ht Hmax. generalize (div_ceil (x * NANOS_PER_SECOND) rate). intros d Hp Hc Ht Hmax.
    assert (sat_add now (u64_clamp d) = now + d) as E by (unfold sat_add, u64_clamp in *; lia). rewrite E in *. split; [lia|]. replace (now + d - now) with d in Ht by lia.
    pose proof (wait_fills x rate d ltac:(lia) ltac:(lia) ltac:(lia)) as Hv. by rewrite (proj2 (N.leb_le _ _)) by (rewrite Ht; lia).
Qed.
Lemma pacer_releases_witness : (release_time (refill (mkPacer 100 (Some 0)) 0 1000 1200) 1100000000 1200 1000 1200).2 = 1100000000.
Proof.
  pose proof (pacer_releases (mkPacer 100 (Some 0)) 0 1200 1000 1200) as H. destruct (release_time (mkPacer 100 (Some 0)) 0 1200 1000 1200) as [p' t] eqn:E.
  assert (p' = refill (mkPacer 100 (Some 0)) 0 1000 1200 ∧ t = 1100000000) as [-> ->] by (vm_compute in E; by injection E as <- <-). apply H; by vm_compute.
Defined.

(** Asked too often, a pacer never fills: each refill keeps whole bytes only and moves its clock, so polls closer together than a
    byte takes at the rate add nothing, whatever time passes in all. *)
Fixpoint polls (n : nat) (p : Pacer) (now step bytes rate quantum : N) : Pacer * N :=
  match n with
  | O => release_time p now bytes rate quantum
  | S n => polls n (release_time p now bytes rate quantum).1 (now + step) step bytes rate quantum
  end.
Theorem polling_starves_pacer (n : nat) (now step bytes rate quantum tokens : N) :
  rate * step < NANOS_PER_SECOND → tokens < N.min bytes quantum → quantum ≤ u64_max → now + step * N.of_nat (S n) < u64_max →
  now + step * N.of_nat (S n) < (polls n (mkPacer tokens (Some now)) (now + step) step bytes rate quantum).2.
Proof.
  intros Hs Ht Hq. revert now. induction n as [|n IH]; intros now Hn; cbn [polls].
  - assert (refill (mkPacer tokens (Some now)) (now + step) rate quantum = mkPacer tokens (Some (now + step))) as E.
    { unfold refill. cbn [refilled_at pc_tokens]. unfold sat_sub. replace (now + step - now) with step by lia. unfold volume, u64_clamp. rewrite N.div_small by done. f_equal. unfold sat_add. lia. }
    destruct (N.le_gt_cases (release_time (mkPacer tokens (Some now)) (now + step) bytes rate quantum).2 (now + step)) as [Hle|]; [|lia]. exfalso.
    assert ((release_time (mkPacer tokens (Some now)) (now + step) bytes rate quantum).2 = now + step) as Er.
    { revert Hle. unfold release_time. cbn [snd]. destruct (_ <=? _); [done|]. unfold sat_add. lia. }
    apply released_tokens in Er; [|lia]. rewrite E in Er. cbn in Er. lia.
  - assert ((release_time (mkPacer tokens (Some now)) (now + step) bytes rate quantum).1 = mkPacer tokens (Some (now + step))) as ->.
    { unfold release_time. cbn [fst]. unfold refill. cbn [refilled_at pc_tokens]. unfold sat_sub. replace (now + step - now) with step by lia. unfold volume, u64_clamp. rewrite N.div_small by done. f_equal. unfold sat_add. lia. }
    replace (now + step * N.of_nat (S (S n))) with (now + step + step * N.of_nat (S n)) by lia. apply IH. lia.
Qed.
(** At a thousand bytes a second, asked every half millisecond for an hour, the pacer still holds the packet. *)
Lemma polling_starves_pacer_witness : 500000 * 7200000 < (polls (N.to_nat 7199999) (mkPacer 0 (Some 0)) 500000 500000 1200 1000 12000).2.
Proof.
  pose proof (polling_starves_pacer (N.to_nat 7199999) 0 500000 1200 1000 12000 0) as H. replace (N.of_nat (S (N.to_nat 7199999))) with 7200000 in H by lia. apply H; by vm_compute.
Defined.

(** ** Round trips stay between what was measured *)
Lemma ewma_between (s a : N) : s ≤ u64_max → a ≤ u64_max → let x := sat_add (sat_sub s (N.shiftr s SMOOTHED_RTT_SHIFT)) (N.shiftr a SMOOTHED_RTT_SHIFT) in N.min s a ≤ x ∧ x ≤ N.max s a.
Proof.
  intros Hs Ha. unfold SMOOTHED_RTT_SHIFT, sat_add, sat_sub. rewrite !N.shiftr_div_pow2. change (2 ^ 3) with 8.
  pose proof (N.div_mod' s 8) as D1. pose proof (N.mod_lt s 8 ltac:(done)) as M1. pose proof (N.div_mod' a 8) as D2. pose proof (N.mod_lt a 8 ltac:(done)) as M2. cbn zeta.
  revert D1 M1 D2 M2. generalize (s / 8), (s mod 8), (a / 8), (a mod 8). intros q1 m1 q2 m2 D1 M1 D2 M2. destruct (N.le_ge_cases s a); lia.
Qed.
Definition least (l : list N) (d : N) : N := foldl N.min d l.
Definition most (l : list N) (d : N) : N := foldl N.max d l.
Definition rtt_run (r : RttEstimator) (samples : list (N * N)) : RttEstimator := foldl (λ r s, on_sample r s.1 s.2) r samples.
Lemma rtt_step_ok r lo hi latest delay :
  have_sample r = true → min_rtt r = lo → lo ≤ smoothed_rtt r ∧ smoothed_rtt r ≤ hi → hi ≤ u64_max → latest < u64_max → let r' := on_sample r latest delay in
  have_sample r' = true ∧ min_rtt r' = N.min lo latest ∧ latest_rtt r' = latest ∧ N.min lo latest ≤ smoothed_rtt r' ∧ smoothed_rtt r' ≤ N.max hi latest.
Proof.
  intros Hh Hm Hs Hhi Hl. unfold on_sample. rewrite Hh, Hm. cbn [negb]. cbn [have_sample min_rtt latest_rtt smoothed_rtt].
  set (a := if sat_add (N.min lo latest) delay <=? latest then sat_sub latest delay else latest).
  assert (N.min lo latest ≤ a ∧ a ≤ latest) as Ha by (unfold a; destruct (N.leb_spec (sat_add (N.min lo latest) delay) latest) as [Hle|]; unfold sat_add, sat_sub in *; lia).
  destruct (ewma_between (smoothed_rtt r) a ltac:(lia) ltac:(lia)) as [E1 E2]. split_and!; [done..|lia|lia].
Qed.
Lemma rtt_run_ok samples : ∀ r lo hi,
  have_sample r = true → min_rtt r = lo → lo ≤ smoothed_rtt r ∧ smoothed_rtt r ≤ hi → hi ≤ u64_max → Forall (λ s, s.1 < u64_max) samples → let r' := rtt_run r samples in
  have_sample r' = true ∧ min_rtt r' = least (map fst samples) lo ∧ min_rtt r' ≤ smoothed_rtt r' ∧ smoothed_rtt r' ≤ most (map fst samples) hi.
Proof.
  induction samples as [|[latest delay] samples IH]; intros r lo hi Hh Hm Hs Hhi Hall; [cbn; by rewrite Hm|]. apply Forall_cons in Hall as [Hl Hall]. cbn in Hl.
  destruct (rtt_step_ok r lo hi latest delay Hh Hm Hs Hhi Hl) as (R1&R2&_&R3&R4). apply (IH (on_sample r latest delay) (N.min lo latest) (N.max hi latest)); [done..|lia|done].
Qed.

(** Whatever samples are folded in, and whatever delays the peer reports, the smoothed round trip stays between the smallest and the
    largest sample, the smallest sample is the minimum kept, and the timeouts derived from them never undercut the estimate: a loss
    delay is at least the smoothed and the latest round trip, a probe timeout at least the smoothed one, each with a timer's tick. *)
Theorem rtt_between_samples (first : N * N) (samples : list (N * N)) (max_ack_delay : N) :
  let r := rtt_run rtt_new (first :: samples) in let lats := map fst samples in
  first.1 < u64_max → Forall (λ s, s.1 < u64_max) samples →
  min_rtt r = least lats first.1 ∧ min_rtt r ≤ smoothed_rtt r ∧ smoothed_rtt r ≤ most lats first.1
  ∧ N.min (smoothed_rtt r + GRANULARITY_NS) u64_max ≤ pto r max_ack_delay
  ∧ GRANULARITY_NS ≤ loss_delay_of r ∧ (9 * N.max (smoothed_rtt r) (latest_rtt r) ≤ u64_max → 9 * N.max (smoothed_rtt r) (latest_rtt r) ≤ 8 * loss_delay_of r).
Proof.
  destruct first as [latest delay]. cbn zeta. cbn [fst]. intros Hf Hall. set (r := rtt_run rtt_new ((latest, delay) :: samples)).
  destruct (rtt_run_ok samples (on_sample rtt_new latest delay) latest latest eq_refl eq_refl ltac:(cbn; lia) (N.lt_le_incl _ _ Hf) Hall) as (R1&R2&R3&R4).
  change (rtt_run (on_sample rtt_new latest delay) samples) with r in *. split_and!; [done|done|done|..].
  - unfold pto. rewrite R1. cbn [negb]. unfold sat_add. lia.
  - unfold loss_delay_of. lia.
  - intros Hb. unfold loss_delay_of. rewrite R1. set (x := N.max (smoothed_rtt r) (latest_rtt r)) in *. unfold sat_mul, TIME_THRESHOLD_NUMERATOR, TIME_THRESHOLD_DENOMINATOR. rewrite N.min_l by lia.
    destruct (N.eq_dec x 0) as [->|Hx]; [lia|]. destruct (div_ceil_pos (x * 9) 8 ltac:(lia) ltac:(lia)) as [_ Hd]. lia.
Qed.
Lemma rtt_between_samples_witness :
  let r := rtt_run rtt_new [(40, 0); (80, 20); (16, 0)] in min_rtt r = 16 ∧ smoothed_rtt r ≤ 80 ∧ GRANULARITY_NS ≤ loss_delay_of r.
Proof.
  destruct (rtt_between_samples (40, 0) [(80, 20); (16, 0)] 0) as (H1&_&H2&_&H3&_); [by vm_compute|repeat constructor; by vm_compute|].
  cbn zeta. split_and!; [rewrite H1; by vm_compute|etrans; [exact H2|by vm_compute]|exact H3].
Defined.

(** ** What a spurious loss teaches *)
Lemma foldl_max_ok {A} (g : A → N) (l : list A) : ∀ x bound, (∀ p, p ∈ l → g p ≤ bound) → let y := foldl (λ x p, N.max x (g p)) x l in x ≤ y ∧ (∀ p, p ∈ l → g p ≤ y) ∧ y ≤ N.max x bound.
Proof.
  induction l as [|p l IH]; intros x bound Hb; [cbn; split_and!; [lia|by intros p ?%elem_of_nil|lia]|]. cbn [foldl].
  destruct (IH (N.max x (g p)) bound ltac:(intros q Hq; apply Hb; by right)) as (I1&I2&I3). pose proof (Hb p ltac:(by left)). split_and!; [lia| |lia].
  intros q [->|Hq]%elem_of_cons; [lia|by apply I2].
Qed.
Lemma foldl_delete_ok {V} (l : list (N * V)) : ∀ m : gmap N V, ∀ q, foldl (λ m p, delete p.1 m) m l !! q = if decide (q ∈ map fst l) then None else m !! q.
Proof.
  induction l as [|[k v] l IH]; intros m q; cbn [foldl map]; [by rewrite decide_False by (by intros ?%elem_of_nil)|]. rewrite IH. cbn [fst].
  destruct (decide (q ∈ map fst l)) as [H|H]; [by rewrite decide_True by (by right)|]. destruct (decide (q = k)) as [->|Hne]; [rewrite lookup_delete_eq; by rewrite decide_True by (by left)|].
  rewrite lookup_delete_ne by done. rewrite decide_False; [done|]. by intros [|]%elem_of_cons.
Qed.
(** Declared losses the runs cover, taken out; the packets past the default they ask for. *)
Definition learnt (m : gmap N Declared) (extra : N) (P : N → Prop) `{!∀ q, Decision (P q)} (max_packets : N) (m' : gmap N Declared) (extra' : N) (found : list N) : Prop :=
  NoDup found ∧ (∀ q, q ∈ found ↔ is_Some (m !! q) ∧ P q) ∧ (∀ q, m' !! q = if decide (P q) then None else m !! q)
  ∧ extra ≤ extra' ∧ extra' ≤ N.max extra (max_packets - REORDER_THRESHOLD) ∧ ∀ q d, q ∈ found → m !! q = Some d → needed_packets d q max_packets ≤ extra'.
Lemma take_run_ok m extra run max_packets :
  let '(m', extra', found) := take_run m extra run max_packets in learnt m extra (λ q, run.1 ≤ q ∧ q ≤ run.2) max_packets m' extra' found.
Proof.
  unfold take_run. destruct (keys_range m run.1 run.2) as [K1 K2]. set (cov := bt_range_incl m run.1 run.2) in *.
  destruct (foldl_max_ok (λ p : N * Declared, needed_packets p.2 p.1 max_packets) cov extra (max_packets - REORDER_THRESHOLD)) as (F1&F2&F3).
  { intros p _. unfold needed_packets, sat_sub. lia. }
  split_and!; [done|done| |done|done|].
  - intros q. rewrite foldl_delete_ok. destruct (m !! q) as [d|] eqn:E; [|by repeat case_decide]. apply decide_ext. rewrite K2, E. split; [by intros [_ ?]|by split; [eauto|]].
  - intros q d Hq Hd. apply list_elem_of_fmap in Hq as ([k d']&->&Hin). cbn [fst] in *. pose proof Hin as (Hd'&_)%bt_range_incl_elem. assert (d' = d) as -> by congruence. exact (F2 _ Hin).
Qed.
Lemma take_runs_ok runs max_packets : ∀ m extra,
  let '(m', extra', found) := take_runs m extra runs max_packets in learnt m extra (run_covers runs) max_packets m' extra' found.
Proof.
  induction runs as [|[low high] runs IH]; intros m extra; cbn [take_runs].
  - split_and!; [by apply NoDup_nil|..|lia|by intros q d ?%elem_of_nil]; [| |lia].
    + intros q. split; [by intros ?%elem_of_nil|]. intros (_&l&h&?%elem_of_nil&_). done.
    + intros q. rewrite decide_False; [done|]. by intros (l&h&?%elem_of_nil&_).
  - pose proof (take_run_ok m extra (low, high) max_packets) as H1. destruct (take_run m extra (low, high) max_packets) as [[m1 x1] f1]. specialize (IH m1 x1).
    destruct (take_runs m1 x1 runs max_packets) as [[m2 x2] f2]. destruct H1 as (N1&M1&L1&E1&B1&D1), IH as (N2&M2&L2&E2&B2&D2). cbn [fst snd] in *.
    assert (∀ q, run_covers ((low, high) :: runs) q ↔ low ≤ q ∧ q ≤ high ∨ run_covers runs q) as Hc.
    { intros q. unfold run_covers. setoid_rewrite elem_of_cons. split; [intros (l&h&[[= -> ->]|Hin]&Hq); [auto|right; eauto]|]. intros [?|(l&h&Hin&Hq)]; eauto 6. }
    split_and!; [..|lia|lia|].
    + apply NoDup_app. split_and!; [done| |done]. intros q Hq (Hs&_)%M2. apply M1 in Hq as [_ Hq]. rewrite L1, decide_True in Hs by done. by destruct Hs.
    + intros q. rewrite elem_of_app, M1, M2, L1, Hc. destruct (decide (low ≤ q ∧ q ≤ high)); [|tauto]. split; [intros [|[[? ?] _]]; [tauto|done]|tauto].
    + intros q. rewrite L2, L1. destruct (decide (run_covers ((low, high) :: runs) q)) as [Hy|Hn]; rewrite Hc in *; repeat case_decide; done || tauto.
    + intros q d [Hq|Hq]%elem_of_app Hd; [pose proof (D1 q d Hq Hd); lia|]. apply (D2 q d Hq). apply M2 in Hq as [[d' Hd'] _]. rewrite L1 in Hd' |- *. by case_decide.
Qed.

(** A spurious loss widens the tolerance to what it showed: an acknowledgement finds exactly the remembered losses its runs cover, each
    once, and forgets them; from then on a packet as far out of order as any of them is not declared lost by its number; the threshold
    never falls on an acknowledgement, and never passes the packets a window holds. *)
Theorem reordering_learned (r : Reordering) (runs : list (N * N)) (now srtt max_packets : N) :
  let '(r', found) := on_acknowledged r runs now srtt max_packets in
  extra_packets r ≤ u64_max - REORDER_THRESHOLD → max_packets ≤ u64_max →
  NoDup found ∧ (∀ q, q ∈ found ↔ is_Some (declared r !! q) ∧ run_covers runs q) ∧ (∀ q, run_covers runs q → declared r' !! q = None)
  ∧ packet_threshold r ≤ packet_threshold r' ∧ packet_threshold r' ≤ N.max (packet_threshold r) (N.max max_packets REORDER_THRESHOLD)
  ∧ ∀ q d, q ∈ found → declared r !! q = Some d → de_largest_acked d < PACKET_NUMBER_SPACE → de_largest_acked d - q < max_packets →
    ∀ pn largest, largest < PACKET_NUMBER_SPACE → largest - pn ≤ de_largest_acked d - q → pn ≤ largest → (sat_add pn (packet_threshold r') <=? largest) = false.
Proof.
  unfold on_acknowledged. pose proof (take_runs_ok runs max_packets (declared r) (extra_packets r)) as Ht. destruct (take_runs _ _ _ _) as [[m x] found]. destruct Ht as (T1&T2&T3&T4&T5&T6).
  set (out := if bool_decide (found = []) then _ else _). assert (out.2 = found ∧ extra_packets out.1 = x ∧ declared out.1 = m) as (E1&E2&E3) by (unfold out; by case_bool_decide).
  destruct out as [r' f']. cbn [fst snd] in *. subst f'. intros Hx Hm. assert (PACKET_NUMBER_SPACE < u64_max - 100) as Hsp by done. unfold packet_threshold. rewrite E2, E3. unfold REORDER_THRESHOLD in *.
  assert (x ≤ u64_max - 3) as Hx' by lia. rewrite !(sat_add_small 3) by lia.
  split_and!; [done|done|intros q Hq; by rewrite T3, decide_True|lia|lia|]. intros q d Hq Hd Hl Hdist pn largest Hlp Hle Hpn. pose proof (T6 q d Hq Hd) as Hn. unfold needed_packets, REORDER_THRESHOLD, sat_sub in Hn.
  rewrite sat_add_small in Hn by lia. apply N.leb_gt. unfold sat_add. lia.
Qed.
Definition demo_reordering : Reordering := mkReordering 0 0 None 0 {[ 10 := mkDeclared 20 5 ]} 0.
Lemma reordering_learned_witness :
  let '(r', found) := on_acknowledged demo_reordering [(8, 12)] 9 4 64 in found = [10] ∧ packet_threshold r' = 11 ∧ (sat_add 30 (packet_threshold r') <=? 40) = false.
Proof.
  pose proof (reordering_learned demo_reordering [(8, 12)] 9 4 64) as H. destruct (on_acknowledged demo_reordering [(8, 12)] 9 4 64) as [r' found] eqn:E.
  assert (found = [10] ∧ packet_threshold r' = 11) as [Ef Et] by (vm_compute in E; by injection E as <- <-). destruct H as (_&_&_&_&_&H); [by vm_compute..|]. split_and!; [done|done|].
  apply (H 10 (mkDeclared 20 5)); [rewrite Ef; by left|by vm_compute..].
Defined.
