(* ===== verification/Path.v ===== *)
(** * The path: its largest datagram, and the peer's parameters

    Models [crates/transport/src/pmtud.rs], the search for the largest datagram
    a path carries, and [params.rs], the parameters a peer declares in its
    handshake. *)

From S2P Require Import Prelude Flight.
#[local] Open Scope N_scope.

(** ** The search *)
Definition BASE_PLPMTU : N := MIN_DATAGRAM_BYTES.
Definition MAX_PROBES : N := 3.
Definition RAISE_TIMER_NS : N := 600000000000.
Definition SEARCH_GRANULARITY : N := 29.
Definition BLACK_HOLE_LOSSES : N := MAX_PROBES.
Record Probe := mkProbe { pb_pn : N; pb_size : N }.
Record PathMtuStats := mkPathStats { probes_sent : N; probes_acked : N; probes_lost : N; probes_refused : N; black_holes : N }.
Record PathMtu := mkPath {
  pm_confirmed : N; pm_too_large : N; pm_peer_max : N; pm_local_cap : option N; pm_probe : option Probe; pm_attempts : option (N * N);
  pm_raise_at : option N; pm_recheck : option N; pm_large_losses : N; pm_stats : PathMtuStats }.
#[export] Instance set_pm_confirmed : Setter pm_confirmed := λ f r, let 'mkPath a b c d e g h i j k := r in mkPath (f a) b c d e g h i j k.
#[export] Instance set_pm_too_large : Setter pm_too_large := λ f r, let 'mkPath a b c d e g h i j k := r in mkPath a (f b) c d e g h i j k.
#[export] Instance set_pm_local_cap : Setter pm_local_cap := λ f r, let 'mkPath a b c d e g h i j k := r in mkPath a b c (f d) e g h i j k.
#[export] Instance set_pm_probe : Setter pm_probe := λ f r, let 'mkPath a b c d e g h i j k := r in mkPath a b c d (f e) g h i j k.
#[export] Instance set_pm_attempts : Setter pm_attempts := λ f r, let 'mkPath a b c d e g h i j k := r in mkPath a b c d e (f g) h i j k.
#[export] Instance set_pm_raise_at : Setter pm_raise_at := λ f r, let 'mkPath a b c d e g h i j k := r in mkPath a b c d e g (f h) i j k.
#[export] Instance set_pm_recheck : Setter pm_recheck := λ f r, let 'mkPath a b c d e g h i j k := r in mkPath a b c d e g h (f i) j k.
#[export] Instance set_pm_large_losses : Setter pm_large_losses := λ f r, let 'mkPath a b c d e g h i j k := r in mkPath a b c d e g h i (f j) k.
#[export] Instance set_pm_stats : Setter pm_stats := λ f r, let 'mkPath a b c d e g h i j k := r in mkPath a b c d e g h i j (f k).
Definition count_sent (s : PathMtuStats) : PathMtuStats := mkPathStats (sat_add (probes_sent s) 1) (probes_acked s) (probes_lost s) (probes_refused s) (black_holes s).
Definition count_acked (s : PathMtuStats) : PathMtuStats := mkPathStats (probes_sent s) (sat_add (probes_acked s) 1) (probes_lost s) (probes_refused s) (black_holes s).
Definition count_lost (s : PathMtuStats) : PathMtuStats := mkPathStats (probes_sent s) (probes_acked s) (sat_add (probes_lost s) 1) (probes_refused s) (black_holes s).
Definition count_refused (s : PathMtuStats) : PathMtuStats := mkPathStats (probes_sent s) (probes_acked s) (probes_lost s) (sat_add (probes_refused s) 1) (black_holes s).
Definition count_black_hole (s : PathMtuStats) : PathMtuStats := mkPathStats (probes_sent s) (probes_acked s) (probes_lost s) (probes_refused s) (sat_add (black_holes s) 1).

(** [PathMtu::new], [searching], [arm_raise_if_done]. *)
Definition path_new (peer_max : N) : PathMtu :=
  let peer_max := N.max peer_max BASE_PLPMTU in
  mkPath BASE_PLPMTU (sat_add peer_max 1) peer_max None None None None None 0 (mkPathStats 0 0 0 0 0).
Definition searching (p : PathMtu) : bool := SEARCH_GRANULARITY <? sat_sub (pm_too_large p) (pm_confirmed p).
Definition arm_raise_if_done (p : PathMtu) (now : N) : PathMtu :=
  if negb (searching p) && bool_decide (pm_raise_at p = None) then p <| pm_raise_at := Some (sat_add now RAISE_TIMER_NS) |> else p.

(** [PathMtu::next_probe]. *)
Definition probe_size (p : PathMtu) : N :=
  let midpoint := sat_add (pm_confirmed p) (sat_sub (pm_too_large p) (pm_confirmed p) / 2) in
  match pm_attempts p with
  | Some (size, lost) => if (lost <? MAX_PROBES) && (pm_confirmed p <? size) && (size <? pm_too_large p) then size else midpoint
  | None => midpoint
  end.
Definition next_probe (p : PathMtu) (now : N) : PathMtu * option N :=
  match pm_probe p with
  | Some _ => (p, None)
  | None =>
      match pm_recheck p with
      | Some size => (p, Some size)
      | None =>
          if searching p then (p, Some (probe_size p)) else
          match pm_raise_at p with
          | Some at_ =>
              if at_ <=? now then
                let p := p <| pm_raise_at := None |> in
                let bound := pm_too_large p in
                if (pm_peer_max p <? bound) || match pm_local_cap p with Some cap => cap <=? bound | None => false end then (p, None)
                else (p <| pm_recheck := Some bound |> <| pm_attempts := None |>, Some bound)
              else (p, None)
          | None => (p, None)
          end
      end
  end.
(** [PathMtu::on_probe_sent], [is_probe]. *)
Definition on_probe_sent (p : PathMtu) (pn size : N) : PathMtu :=
  let p := p <| pm_probe := Some (mkProbe pn size) |> in
  (if match pm_attempts p with Some (attempted, _) => attempted =? size | None => false end then p else p <| pm_attempts := Some (size, 0) |>) <| pm_stats ::= count_sent |>.
Definition the_probe (p : PathMtu) (pn : N) : option Probe := match pm_probe p with Some b => if pb_pn b =? pn then Some b else None | None => None end.
(** [PathMtu::on_probe_acked]. *)
Definition on_probe_acked (p : PathMtu) (pn now : N) : PathMtu * bool :=
  match the_probe p pn with
  | None => (p, false)
  | Some probe =>
      let p := p <| pm_probe := None |> <| pm_attempts := None |> <| pm_stats ::= count_acked |> in
      let grew := pm_confirmed p <? pb_size probe in
      let p := if grew then p <| pm_confirmed := pb_size probe |> else p in
      let p := match pm_recheck p with
               | Some _ =>
                   let ceiling := match pm_local_cap p with Some cap => cap | None => sat_add (pm_peer_max p) 1 end in
                   p <| pm_recheck := None |> <| pm_too_large := N.min ceiling (sat_add (pm_peer_max p) 1) |>
               | None => p
               end in
      (arm_raise_if_done (p <| pm_large_losses := 0 |>) now, grew)
  end.
(** [PathMtu::on_probe_lost], [on_probe_refused]. *)
Definition on_probe_lost (p : PathMtu) (pn now : N) : PathMtu :=
  match the_probe p pn with
  | None => p
  | Some probe =>
      let p := p <| pm_probe := None |> <| pm_stats ::= count_lost |> in
      let lost := match pm_attempts p with Some (size, lost) => if size =? pb_size probe then N.min (lost + 1) u32_max else 1 | None => 1 end in
      if MAX_PROBES <=? lost
      then arm_raise_if_done (p <| pm_too_large := N.min (pm_too_large p) (pb_size probe) |> <| pm_attempts := None |> <| pm_recheck := None |>) now
      else p <| pm_attempts := Some (pb_size probe, lost) |>
  end.
Definition on_probe_refused (p : PathMtu) (pn now : N) : PathMtu :=
  match the_probe p pn with
  | None => p
  | Some probe =>
      let p := p <| pm_probe := None |> <| pm_attempts := None |> <| pm_stats ::= count_refused |> <| pm_recheck := None |> in
      let p := p <| pm_too_large := N.min (pm_too_large p) (pb_size probe) |> in
      arm_raise_if_done (p <| pm_local_cap := Some (match pm_local_cap p with Some cap => N.min cap (pb_size probe) | None => pb_size probe end) |>) now
  end.
(** [PathMtu::on_large_packet_acked], [on_large_packet_lost]. *)
Definition on_large_packet_acked (p : PathMtu) : PathMtu := p <| pm_large_losses := 0 |>.
Definition on_large_packet_lost (p : PathMtu) (now : N) : PathMtu * bool :=
  if pm_confirmed p <=? BASE_PLPMTU then (p, false) else
  let p := p <| pm_large_losses := N.min (pm_large_losses p + 1) u32_max |> in
  if pm_large_losses p <? BLACK_HOLE_LOSSES then (p, false) else
  let p := p <| pm_too_large := pm_confirmed p |> <| pm_confirmed := BASE_PLPMTU |> <| pm_large_losses := 0 |> <| pm_probe := None |> <| pm_attempts := None |>
             <| pm_raise_at := None |> <| pm_recheck := None |> <| pm_stats ::= count_black_hole |> in
  (arm_raise_if_done p now, true).

(** ** What the search keeps *)
Inductive PathEvent := PAsk (now : N) | PProbe (now pn : N) | PAcked (pn now : N) | PLost (pn now : N) | PRefused (pn now : N) | PLargeAcked | PLargeLost (now : N).
(** The connection's calls, with the sizes whose probes were acknowledged; a probe has the size asked for. *)
Definition path_event (s : PathMtu * list N) (e : PathEvent) : PathMtu * list N :=
  let '(p, acked) := s in
  match e with
  | PAsk now => ((next_probe p now).1, acked)
  | PProbe now pn => match next_probe p now with (p, Some size) => (on_probe_sent p pn size, acked) | (p, None) => (p, acked) end
  | PAcked pn now => ((on_probe_acked p pn now).1, match the_probe p pn with Some b => pb_size b :: acked | None => acked end)
  | PLost pn now => (on_probe_lost p pn now, acked)
  | PRefused pn now => (on_probe_refused p pn now, acked)
  | PLargeAcked => (on_large_packet_acked p, acked)
  | PLargeLost now => ((on_large_packet_lost p now).1, acked)
  end.
Definition path_events (s : PathMtu * list N) (es : list PathEvent) : PathMtu * list N := foldl path_event s es.

Record path_ok (peer : N) (p : PathMtu) : Prop := {
  po_peer : pm_peer_max p = peer;
  po_base : BASE_PLPMTU ≤ pm_confirmed p;
  po_gap : pm_confirmed p < pm_too_large p;
  po_top : pm_too_large p ≤ peer + 1;
  po_cap : ∀ cap, pm_local_cap p = Some cap → pm_too_large p ≤ cap;
  po_recheck : ∀ s, pm_recheck p = Some s → s = pm_too_large p ∧ s ≤ peer ∧ ∀ cap, pm_local_cap p = Some cap → s < cap;
  po_probe : ∀ b, pm_probe p = Some b → pm_confirmed p < pb_size b ∧ pb_size b ≤ peer ∧ match pm_recheck p with Some s => pb_size b = s | None => pb_size b < pm_too_large p end
}.
Lemma arm_same p now : let p' := arm_raise_if_done p now in
  (pm_confirmed p', pm_too_large p', pm_peer_max p', pm_local_cap p', pm_probe p', pm_attempts p', pm_recheck p', pm_stats p') =
  (pm_confirmed p, pm_too_large p, pm_peer_max p, pm_local_cap p, pm_probe p, pm_attempts p, pm_recheck p, pm_stats p).
Proof. unfold arm_raise_if_done. destruct p. by destruct (_ && _). Qed.
Lemma arm_ok peer p now : path_ok peer p → path_ok peer (arm_raise_if_done p now).
Proof. intros []. pose proof (arm_same p now) as [= E1 E2 E3 E4 E5 E6 E7 E8]. split; rewrite ?E1, ?E2, ?E3, ?E4, ?E5, ?E6, ?E7; done. Qed.
Lemma probe_size_between p : searching p = true → pm_confirmed p < pm_too_large p → pm_too_large p ≤ u64_max → pm_confirmed p < probe_size p ∧ probe_size p < pm_too_large p.
Proof.
  unfold searching, probe_size, SEARCH_GRANULARITY, sat_sub. intros Hs%N.ltb_lt Hlt Hu. set (gap := pm_too_large p - pm_confirmed p) in *.
  pose proof (N.div_mod' gap 2) as D. pose proof (N.mod_lt gap 2 ltac:(done)) as M. revert D M. generalize (gap / 2), (gap mod 2). intros q r D M.
  rewrite sat_add_small by lia. destruct (pm_attempts p) as [[size lost]|]; [|lia]. destruct ((lost <? MAX_PROBES) && (pm_confirmed p <? size) && (size <? pm_too_large p)) eqn:E; [|lia].
  apply andb_true_iff in E as [[_ E1%N.ltb_lt]%andb_true_iff E2%N.ltb_lt]. lia.
Qed.
Lemma next_probe_ok peer p now :
  path_ok peer p → peer < u64_max → let '(p', size) := next_probe p now in
  path_ok peer p' ∧ pm_confirmed p' = pm_confirmed p
  ∧ ∀ s, size = Some s → pm_probe p' = None ∧ pm_confirmed p' < s ∧ s ≤ peer ∧ match pm_recheck p' with Some r => s = r | None => s < pm_too_large p' end.
Proof.
  intros Hp Hu. pose proof Hp as [P1 P2 P3 P4 P5 P6 P7]. unfold next_probe. destruct (pm_probe p) as [b|] eqn:Eb; [split_and!; [done|done|done]|].
  destruct (pm_recheck p) as [r|] eqn:Er.
  { split_and!; [done|done|]. intros s [= <-]. destruct (P6 r eq_refl) as (->&H1&_). rewrite Er, Eb. split_and!; [done|done|done|done]. }
  destruct (searching p) eqn:Es.
  { split_and!; [done|done|]. intros s [= <-]. rewrite Er, Eb. destruct (probe_size_between p Es P3 ltac:(lia)) as [H1 H2]. split_and!; [done|done|lia|done]. }
  destruct (pm_raise_at p) as [at_|] eqn:Ea; [|split_and!; [done|done|done]]. destruct (at_ <=? now); [|split_and!; [done|done|done]].
  destruct p as [co tl pm lc pr at' ra re ll st]. cbn in *. subst. destruct ((peer <? tl) || _) eqn:Ec; cbn.
  - split_and!; [by split; cbn|done|done].
  - apply orb_false_iff in Ec as [Ec%N.ltb_ge Ec']. split_and!; [|done|].
    + split; cbn; try done. intros s [= <-]. split_and!; [done|done|]. intros cap ->. by apply N.leb_gt.
    + intros s [= <-]. split_and!; done.
Qed.
Lemma the_probe_some p pn b : the_probe p pn = Some b → pm_probe p = Some b.
Proof. unfold the_probe. destruct (pm_probe p) as [b'|]; [|done]. destruct (_ =? _); congruence. Qed.
Lemma path_event_ok peer s e :
  path_ok peer s.1 → peer < u64_max → pm_confirmed s.1 = BASE_PLPMTU ∨ pm_confirmed s.1 ∈ s.2 →
  path_ok peer (path_event s e).1 ∧ (pm_confirmed (path_event s e).1 = BASE_PLPMTU ∨ pm_confirmed (path_event s e).1 ∈ (path_event s e).2).
Proof.
  destruct s as [p acked]. cbn [fst snd]. intros Hp Hu Hc. destruct e as [now|now pn|pn now|pn now|pn now| |now]; cbn [path_event].
  - pose proof (next_probe_ok peer p now Hp Hu) as Hn. destruct (next_probe p now) as [p' size]. destruct Hn as (N1&N2&_). cbn. by rewrite N2.
  - pose proof (next_probe_ok peer p now Hp Hu) as Hn. destruct (next_probe p now) as [p' [size|]]; destruct Hn as (N1&N2&N3); cbn [fst snd]; [|by rewrite N2].
    destruct (N3 size eq_refl) as (E1&E2&E3&E4). rewrite <- N2 in Hc. destruct p' as [co tl pm lc pr at' ra re ll st]. cbn in *. unfold on_probe_sent. cbn.
    destruct N1 as [P1 P2 P3 P4 P5 P6 P7]. cbn in *. destruct (match at' with Some (a, _) => a =? size | None => false end); cbn; (split; [|done]); split; cbn; try done; intros b [= <-]; done.
  - unfold on_probe_acked. destruct (the_probe p pn) as [b|] eqn:Eb; [|done]. apply the_probe_some in Eb as Epb.
    destruct Hp as [P1 P2 P3 P4 P5 P6 P7]. destruct (P7 b Epb) as (Q1&Q2&Q3). destruct p as [co tl pm lc pr at' ra re ll st]. cbn in *. subst. rewrite (proj2 (N.ltb_lt _ _) Q1).
    destruct re as [r|]; cbn.
    + destruct (P6 r eq_refl) as (->&R1&R2). subst. pose proof (arm_same (mkPath (pb_size b) (N.min (match lc with Some cap => cap | None => sat_add peer 1 end) (sat_add peer 1)) peer lc None None ra None 0 (count_acked st)) now) as [= E1 _].
      split; [|right; rewrite E1; cbn; by left]. apply arm_ok. rewrite sat_add_small by lia. split; cbn; try done; [lia|destruct lc as [cap|]; [specialize (R2 cap eq_refl); lia|lia]|lia|]. intros cap ->. lia.
    + pose proof (arm_same (mkPath (pb_size b) tl peer lc None None ra None 0 (count_acked st)) now) as [= E1 _].
      split; [|right; rewrite E1; cbn; by left]. apply arm_ok. split; cbn; try done. lia.
  - unfold on_probe_lost. destruct (the_probe p pn) as [b|] eqn:Eb; [|done]. apply the_probe_some in Eb as Epb.
    destruct Hp as [P1 P2 P3 P4 P5 P6 P7]. destruct (P7 b Epb) as (Q1&Q2&Q3). destruct p as [co tl pm lc pr at' ra re ll st]. cbn in *. subst.
    destruct (MAX_PROBES <=? _).
    + pose proof (arm_same (mkPath co (N.min tl (pb_size b)) peer lc None None ra None ll (count_lost st)) now) as [= E1 _]. split; [|by rewrite E1]. apply arm_ok. split; cbn; try done; [lia|lia|]. intros cap ->. specialize (P5 cap eq_refl). lia.
    + split; [|done]. by split; cbn.
  - unfold on_probe_refused. destruct (the_probe p pn) as [b|] eqn:Eb; [|done]. apply the_probe_some in Eb as Epb.
    destruct Hp as [P1 P2 P3 P4 P5 P6 P7]. destruct (P7 b Epb) as (Q1&Q2&Q3). destruct p as [co tl pm lc pr at' ra re ll st]. cbn in *. subst.
    pose proof (arm_same (mkPath co (N.min tl (pb_size b)) peer (Some (match lc with Some cap => N.min cap (pb_size b) | None => pb_size b end)) None None ra None ll (count_refused st)) now) as [= E1 _].
    split; [|by rewrite E1]. apply arm_ok. split; cbn; try done; [lia|lia|]. intros cap [= <-]. destruct lc as [c|]; [specialize (P5 c eq_refl)|]; lia.
  - destruct p as [co tl pm lc pr at' ra re ll st]. destruct Hp. cbn in *. split; [by split; cbn|done].
  - unfold on_large_packet_lost. destruct (N.leb_spec (pm_confirmed p) BASE_PLPMTU) as [|Hb]; [done|]. destruct p as [co tl pm lc pr at' ra re ll st]. destruct Hp as [P1 P2 P3 P4 P5 P6 P7]. cbn in *. subst.
    destruct (_ <? BLACK_HOLE_LOSSES); cbn [fst]; [split; [by split; cbn|done]|].
    pose proof (arm_same (mkPath BASE_PLPMTU co peer lc None None None None 0 (count_black_hole st)) now) as [= E1 _]. split; [|left; by rewrite E1]. apply arm_ok. split; cbn; try done; [lia|]. intros cap ->. specialize (P5 cap eq_refl). lia.
Qed.

Lemma path_new_ok peer_max : peer_max < u64_max → path_ok (N.max peer_max BASE_PLPMTU) (path_new peer_max).
Proof.
  intros Hu. assert (N.max peer_max BASE_PLPMTU < u64_max ∧ BASE_PLPMTU ≤ N.max peer_max BASE_PLPMTU) as [H1 H2] by (split; [apply N.max_lub_lt; done|apply N.le_max_r]).
  unfold path_new. revert H1 H2. generalize (N.max peer_max BASE_PLPMTU). intros m H1 H2. split; cbn [pm_peer_max pm_confirmed pm_too_large pm_local_cap pm_recheck pm_probe]; try done; rewrite sat_add_small by lia; lia.
Qed.

(** ** The claims on the search *)

(** Whatever becomes of its probes and packets, a session sends datagrams of the floor or of a size a probe of which was acknowledged,
    never above what the peer reads, and always below every size it holds too large or the local stack refused. *)
Theorem path_size_confirmed (peer_max : N) (es : list PathEvent) :
  let '(p, acked) := path_events (path_new peer_max, []) es in
  peer_max < u64_max → (pm_confirmed p = BASE_PLPMTU ∨ pm_confirmed p ∈ acked) ∧ BASE_PLPMTU ≤ pm_confirmed p ∧ pm_confirmed p ≤ N.max peer_max BASE_PLPMTU
  ∧ pm_confirmed p < pm_too_large p ∧ ∀ cap, pm_local_cap p = Some cap → pm_confirmed p < cap.
Proof.
  assert (peer_max < u64_max → let s := path_events (path_new peer_max, []) es in path_ok (N.max peer_max BASE_PLPMTU) s.1 ∧ (pm_confirmed s.1 = BASE_PLPMTU ∨ pm_confirmed s.1 ∈ s.2)) as Hrun.
  { intros Hu. assert (N.max peer_max BASE_PLPMTU < u64_max) as Hu' by (apply N.max_lub_lt; done).
    pose proof (path_new_ok peer_max Hu) as H0.
    assert (∀ s, path_ok (N.max peer_max BASE_PLPMTU) s.1 → pm_confirmed s.1 = BASE_PLPMTU ∨ pm_confirmed s.1 ∈ s.2 →
      path_ok (N.max peer_max BASE_PLPMTU) (path_events s es).1 ∧ (pm_confirmed (path_events s es).1 = BASE_PLPMTU ∨ pm_confirmed (path_events s es).1 ∈ (path_events s es).2)) as Hall.
    { induction es as [|e es IH]; intros s Hs Hc; [done|]. destruct (path_event_ok _ s e Hs Hu' Hc). by apply IH. }
    apply Hall; [done|by left]. }
  destruct (path_events (path_new peer_max, []) es) as [p acked]. intros Hu. destruct (Hrun Hu) as [[P1 P2 P3 P4 P5 P6 P7] Hc]. cbn in *. split_and!; [done|done|lia|done|].
  intros cap Hcap. specialize (P5 cap Hcap). lia.
Qed.
Lemma path_size_confirmed_witness :
  let '(p, acked) := path_events (path_new 9000, []) [PProbe 0 1; PAcked 1 5; PProbe 6 2; PLost 2 9] in pm_confirmed p = 5100 ∧ (pm_confirmed p = BASE_PLPMTU ∨ pm_confirmed p ∈ acked).
Proof.
  pose proof (path_size_confirmed 9000 [PProbe 0 1; PAcked 1 5; PProbe 6 2; PLost 2 9]) as H. destruct (path_events _ _) as [p acked] eqn:E.
  destruct H as (H&_); [done|]. split; [|done]. vm_compute in E. by injection E as <- _.
Defined.

(** ** A path that stays as it is *)

(** A probe crosses a path of [mtu] bytes, is lost on it, or is refused by the local stack. *)
Definition probe_fate (mtu local : N) (p : PathMtu) (pn now size : N) : PathMtu :=
  if local <? size then on_probe_refused p pn now else if size <=? mtu then (on_probe_acked p pn now).1 else on_probe_lost p pn now.
Fixpoint probe_rounds (n : nat) (mtu local : N) (p : PathMtu) (pn now : N) : PathMtu :=
  match n with
  | O => p
  | S n => match next_probe p now with
           | (p, Some size) => probe_rounds n mtu local (probe_fate mtu local (on_probe_sent p pn size) pn now size) (pn + 1) now
           | (p, None) => p
           end
  end.
Definition midpoint (p : PathMtu) : N := pm_confirmed p + (pm_too_large p - pm_confirmed p) / 2.
Definition gap_of (p : PathMtu) : N := pm_too_large p - pm_confirmed p.
(** A search in progress, or ended at [now], with [lost] of the current size's probes lost. *)
Record path_search (limit peer now lost : N) (p : PathMtu) : Prop := {
  ps_ok : path_ok peer p;
  ps_idle : pm_probe p = None ∧ pm_recheck p = None;
  ps_limit : pm_confirmed p ≤ limit ∧ limit < pm_too_large p;
  ps_attempts : match pm_attempts p with Some (size, n) => n = lost ∧ n < MAX_PROBES ∧ size = midpoint p | None => lost = 0 end;
  ps_raise : if searching p then pm_raise_at p = None else ∀ at_, pm_raise_at p = Some at_ → now < at_
}.
Lemma arm_raise p now : now < u64_max → pm_raise_at p = None → let p' := arm_raise_if_done p now in
  searching p' = searching p ∧ if searching p' then pm_raise_at p' = None else ∀ at_, pm_raise_at p' = Some at_ → now < at_.
Proof.
  intros Hn Hr. pose proof (arm_same p now) as [= E1 E2 _ _ _ _ _ _]. cbn zeta. assert (searching (arm_raise_if_done p now) = searching p) as -> by (unfold searching; by rewrite E1, E2). split; [done|].
  unfold arm_raise_if_done. destruct (searching p) eqn:Es; cbn [negb andb]; [done|]. rewrite bool_decide_eq_true_2 by done. destruct p; cbn. intros at_ [= <-]. unfold sat_add, RAISE_TIMER_NS. lia.
Qed.
(** The interval after a probe's fate, and that the search goes on from it. *)
Lemma search_from limit peer now co tl lc ll st :
  path_ok peer (mkPath co tl peer lc None None None None ll st) → co ≤ limit → limit < tl → now < u64_max →
  path_search limit peer now 0 (arm_raise_if_done (mkPath co tl peer lc None None None None ll st) now)
  ∧ gap_of (arm_raise_if_done (mkPath co tl peer lc None None None None ll st) now) = tl - co.
Proof.
  intros Hp H1 H2 Hn. set (p0 := mkPath co tl peer lc None None None None ll st) in *. pose proof (arm_same p0 now) as [= E1 E2 E3 E4 E5 E6 E7 E8]. destruct (arm_raise p0 now Hn eq_refl) as [R1 R2].
  split; [|unfold gap_of; by rewrite E1, E2]. split; [by apply arm_ok|by rewrite E5, E7|by rewrite E1, E2|by rewrite E6|exact R2].
Qed.
Lemma midpoint_between p : 29 < gap_of p → pm_confirmed p < midpoint p ∧ midpoint p < pm_too_large p ∧ midpoint p - pm_confirmed p = gap_of p / 2 ∧ pm_too_large p - midpoint p = gap_of p - gap_of p / 2.
Proof.
  unfold midpoint, gap_of. intros Hg. pose proof (N.div_mod' (pm_too_large p - pm_confirmed p) 2) as D. pose proof (N.mod_lt (pm_too_large p - pm_confirmed p) 2 ltac:(done)) as M.
  revert D M. generalize ((pm_too_large p - pm_confirmed p) / 2), ((pm_too_large p - pm_confirmed p) mod 2). intros q r D M. lia.
Qed.
Lemma search_size limit peer now lost p : path_search limit peer now lost p → peer < u64_max → searching p = true → next_probe p now = (p, Some (midpoint p)) ∧ 29 < gap_of p.
Proof.
  intros Hp Hu Hs. pose proof Hs as Hg%N.ltb_lt. unfold SEARCH_GRANULARITY, sat_sub in Hg. fold (gap_of p) in Hg. split; [|done]. unfold next_probe. destruct (ps_idle _ _ _ _ _ Hp) as [-> ->]. rewrite Hs. do 2 f_equal.
  destruct (midpoint_between p Hg) as (M1&M2&_&_). pose proof (po_top _ _ (ps_ok _ _ _ _ _ Hp)) as Ht. assert (sat_add (pm_confirmed p) (sat_sub (pm_too_large p) (pm_confirmed p) / 2) = midpoint p) as E by (apply sat_add_small; unfold midpoint, sat_sub in *; lia).
  unfold probe_size. rewrite E. pose proof (ps_attempts _ _ _ _ _ Hp) as Ha. destruct (pm_attempts p) as [[size n]|]; [|done]. destruct Ha as (_&H3&->). by destruct (_ && _).
Qed.
Lemma round_search mtu local peer now lost p pn :
  let limit := N.min (N.min mtu local) peer in
  path_search limit peer now lost p → peer < u64_max → now < u64_max → searching p = true →
  ∃ lost', path_search limit peer now lost' (probe_fate mtu local (on_probe_sent p pn (midpoint p)) pn now (midpoint p))
  ∧ (gap_of (probe_fate mtu local (on_probe_sent p pn (midpoint p)) pn now (midpoint p)) ≤ gap_of p - gap_of p / 2 ∧ lost' = 0
     ∨ gap_of (probe_fate mtu local (on_probe_sent p pn (midpoint p)) pn now (midpoint p)) = gap_of p ∧ lost' = lost + 1 ∧ lost' < MAX_PROBES).
Proof.
  cbn zeta. set (limit := N.min (N.min mtu local) peer). intros Hp Hu Hn Hs. destruct (search_size _ _ _ _ _ Hp Hu Hs) as [_ Hg]. destruct (midpoint_between p Hg) as (M1&M2&M3&M4).
  assert (gap_of p / 2 ≤ gap_of p - gap_of p / 2) as Hhalf.
  { pose proof (N.div_mod' (gap_of p) 2) as D. revert D. generalize (gap_of p / 2), (gap_of p mod 2). intros q r D. lia. }
  destruct Hp as [[P1 P2 P3 P4 P5 P6 P7] [I1 I2] [L1 L2] At Ra]. rewrite Hs in Ra. remember (midpoint p) as size eqn:Esz in *.
  assert (the_probe (on_probe_sent p pn size) pn = Some (mkProbe pn size)) as A4.
  { clear Esz. unfold the_probe, on_probe_sent. destruct p as [co tl pm lc pr at' ra re ll st]. cbn. destruct (match at' with Some (a, _) => a =? size | None => false end); cbn; by rewrite N.eqb_refl. }
  assert (∃ n, pm_attempts (on_probe_sent p pn size) = Some (size, n) ∧ n = lost ∧ n < MAX_PROBES) as (n&A1&A2&A3).
  { clear Esz A4. unfold on_probe_sent. destruct p as [co tl pm lc pr at' ra re ll st]. cbn in *. destruct at' as [[a n]|].
    - destruct At as (->&?&->). exists lost. rewrite N.eqb_refl. done.
    - subst lost. exists 0. done. }
  assert (∃ st, on_probe_sent p pn size = mkPath (pm_confirmed p) (pm_too_large p) peer (pm_local_cap p) (Some (mkProbe pn size)) (Some (size, n)) None None (pm_large_losses p) st) as [st Ep].
  { clear Esz A4. revert A1. unfold on_probe_sent. destruct p as [co tl pm lc pr at' ra re ll st]. cbn in *. subst. destruct (match at' with Some (a, _) => a =? size | None => false end); cbn; intros [= ->]; eauto. }
  unfold probe_fate. destruct (N.ltb_spec local size) as [Hl|Hl]; [|destruct (N.leb_spec size mtu) as [Hm|Hm]].
  - exists 0. unfold on_probe_refused. rewrite A4, Ep. cbn. rewrite N.min_r by lia.
    match goal with |- context [arm_raise_if_done (mkPath ?a ?b ?c ?d None None None None ?l ?s) now] => destruct (search_from limit peer now a b d l s) as [S1 S2] end; try lia; [|split; [done|left; split; [rewrite S2; lia|done]]].
    split; cbn; try done; try lia. intros cap [= <-]. destruct (pm_local_cap p) as [c|]; [specialize (P5 c eq_refl)|]; lia.
  - exists 0. unfold on_probe_acked. rewrite A4, Ep. cbn. rewrite (proj2 (N.ltb_lt _ _)) by lia. cbn.
    match goal with |- context [arm_raise_if_done (mkPath ?a ?b ?c ?d None None None None ?l ?s) now] => destruct (search_from limit peer now a b d l s) as [S1 S2] end; try lia; [|split; [done|left; split; [rewrite S2; lia|done]]].
    split; cbn; try done; lia.
  - unfold on_probe_lost. rewrite A4, Ep. cbn. rewrite N.eqb_refl. assert (N.min (n + 1) u32_max = n + 1) as -> by (unfold MAX_PROBES, u32_max in *; lia).
    destruct (N.leb_spec MAX_PROBES (n + 1)) as [H3|H3].
    + exists 0. rewrite N.min_r by lia. match goal with |- context [arm_raise_if_done (mkPath ?a ?b ?c ?d None None None None ?l ?s) now] => destruct (search_from limit peer now a b d l s) as [S1 S2] end; try lia; [|split; [done|left; split; [rewrite S2; lia|done]]].
      split; cbn; try done; try lia. intros cap Hc. specialize (P5 cap Hc). lia.
    + exists (lost + 1). subst n. split; [|right; split_and!; done]. split; cbn; try done.
      unfold searching in *. cbn [pm_too_large pm_confirmed] in *. by rewrite Hs.
Qed.
Lemma search_ended limit peer now lost p : path_search limit peer now lost p → searching p = false → next_probe p now = (p, None).
Proof.
  intros Hp Es. unfold next_probe. destruct (ps_idle _ _ _ _ _ Hp) as [-> ->]. rewrite Es. pose proof (ps_raise _ _ _ _ _ Hp) as Hr. rewrite Es in Hr. destruct (pm_raise_at p) as [at_|]; [|done].
  by rewrite (proj2 (N.leb_gt _ _) (Hr at_ eq_refl)).
Qed.
Lemma rounds_converge mtu local peer now n : ∀ k lost p pn,
  let limit := N.min (N.min mtu local) peer in
  path_search limit peer now lost p → peer < u64_max → now < u64_max → lost < MAX_PROBES → gap_of p ≤ SEARCH_GRANULARITY * 2 ^ N.of_nat k → (3 * k ≤ n + N.to_nat lost)%nat →
  let p' := probe_rounds n mtu local p pn now in (∃ lost', path_search limit peer now lost' p') ∧ searching p' = false.
Proof.
  cbn zeta. induction n as [|n IH]; intros k lost p pn Hp Hu Hn Hl Hg Hk; cbn [probe_rounds].
  - assert (k = 0%nat) as -> by (unfold MAX_PROBES in Hl; lia). split; [eauto|]. apply N.ltb_ge. unfold gap_of, sat_sub in *. change (2 ^ N.of_nat 0) with 1 in Hg. lia.
  - destruct (searching p) eqn:Es.
    2:{ rewrite (search_ended _ _ _ _ _ Hp Es). split; [eauto|done]. }
    destruct (search_size _ _ _ _ _ Hp Hu Es) as [-> Hgap]. destruct (round_search mtu local peer now lost p pn Hp Hu Hn Es) as (lost'&Hp'&Hcase).
    destruct k as [|k]; [change (2 ^ N.of_nat 0) with 1 in Hg; unfold SEARCH_GRANULARITY in Hg; lia|].
    destruct Hcase as [[Hh ->]|(He&->&Hl')].
    + apply (IH k 0); [done..| |unfold MAX_PROBES in Hl; lia]. replace (N.of_nat (S k)) with (N.succ (N.of_nat k)) in Hg by lia. rewrite N.pow_succ_r' in Hg. revert Hh Hg. generalize (2 ^ N.of_nat k). intros w Hh Hg.
      pose proof (N.div_mod' (gap_of p) 2) as D. pose proof (N.mod_lt (gap_of p) 2 ltac:(done)) as M. revert D M Hh. generalize (gap_of p / 2), (gap_of p mod 2). intros q r D M Hh. unfold SEARCH_GRANULARITY in *. lia.
    + apply (IH (S k) (lost + 1)); [done..|by rewrite He|lia].
Qed.

(** C28. On a path that carries datagrams of up to [mtu] bytes, under a local stack that sends up to [local], the search ends: within three
    probes for each halving of the range it has nothing left to probe until the raise timer, and the size it confirmed crosses the path and
    is within a packet's overhead of the largest that does and that the peer reads. *)
Theorem path_search_converges (mtu local peer_max pn now : N) (k : nat) :
  let p := probe_rounds (3 * k) mtu local (path_new peer_max) pn now in let limit := N.min (N.min mtu local) (N.max peer_max BASE_PLPMTU) in
  BASE_PLPMTU ≤ mtu → BASE_PLPMTU ≤ local → peer_max < u64_max → now < u64_max → peer_max + 1 - BASE_PLPMTU ≤ SEARCH_GRANULARITY * 2 ^ N.of_nat k → BASE_PLPMTU ≤ peer_max →
  next_probe p now = (p, None) ∧ searching p = false ∧ pm_confirmed p ≤ limit ∧ limit < pm_confirmed p + SEARCH_GRANULARITY.
Proof.
  cbn zeta. intros Hm Hl Hu Hn Hk Hb. pose proof (path_new_ok peer_max Hu) as Hok. assert (N.max peer_max BASE_PLPMTU = peer_max) as Ep by lia. rewrite Ep in *.
  assert (pm_too_large (path_new peer_max) = peer_max + 1) as Et by (cbn [path_new pm_too_large]; rewrite Ep; apply sat_add_small; lia). set (limit := N.min (N.min mtu local) peer_max).
  assert (gap_of (path_new peer_max) = peer_max + 1 - BASE_PLPMTU) as Eg by (unfold gap_of; by rewrite Et).
  assert (path_search limit peer_max now 0 (path_new peer_max)) as H0.
  { split; [done|done| |done|].
    - rewrite Et. change (pm_confirmed (path_new peer_max)) with BASE_PLPMTU. unfold limit. lia.
    - change (pm_raise_at (path_new peer_max)) with (@None N). by destruct (searching _). }
  destruct (rounds_converge mtu local peer_max now (3 * k) k 0 (path_new peer_max) pn H0 Hu Hn ltac:(done) ltac:(by rewrite Eg) ltac:(lia)) as [[lost' Hs] Hd].
  set (p := probe_rounds (3 * k) mtu local (path_new peer_max) pn now) in *. fold limit in Hs. destruct (ps_limit _ _ _ _ _ Hs) as [L1 L2]. split_and!; [|done|done|].
  - by apply (search_ended _ _ _ _ _ Hs).
  - apply N.ltb_ge in Hd. unfold sat_sub in Hd. lia.
Qed.
(** A jumbo path behind a 9,000-byte interface: twelve halvings. *)
Lemma path_search_converges_witness :
  let p := probe_rounds 36 8000 9000 (path_new 65527) 0 0 in searching p = false ∧ pm_confirmed p ≤ 8000 ∧ 8000 < pm_confirmed p + 29.
Proof.
  destruct (path_search_converges 8000 9000 65527 0 0 12) as (_&H1&H2&H3); [by vm_compute..|]. split_and!; [exact H1|exact H2|exact H3].
Defined.

(** ** Transport parameters *)
Definition ID_DIALECT : N := 1.
Definition ID_MAX_UDP_PAYLOAD : N := 2.
Definition DIALECT_VERSION : N := 2.
Definition DEFAULT_MAX_UDP_PAYLOAD : N := 65527.
Definition ENTRY_HEADER_BYTES : N := 4.
Definition RECEIVE_BUFFER_BYTES : N := DEFAULT_MAX_UDP_PAYLOAD.
Record TransportParameters := mkParams { max_udp_payload : N }.
Inductive ParamsError :=
| Missing | ParamTruncated (at_ : N) | Repeated (id : N) | BadLength (id length : N) | NoDialect | Dialect (version : N) | PayloadTooSmall (bytes : N).
Definition local_params : TransportParameters := mkParams (if RECEIVE_BUFFER_BYTES <=? u32_max then RECEIVE_BUFFER_BYTES else u32_max).
(** [put_u32], [TransportParameters::encode]. *)
Definition put_u32 (id value : N) : bytes := le_bytes 2 id ++ le_bytes 2 4 ++ le_bytes 4 value.
Definition encode_params (p : TransportParameters) : bytes := put_u32 ID_DIALECT DIALECT_VERSION ++ put_u32 ID_MAX_UDP_PAYLOAD (max_udp_payload p).
(** [entry], [u32_value], [set_once]. *)
Definition param_entry (bs : bytes) (at_ : N) : result ParamsError (N * bytes * N) :=
  let truncated := ParamTruncated at_ in
  header_end ← ok_or (checked_add at_ ENTRY_HEADER_BYTES) truncated;
  header ← ok_or (get_range bs at_ header_end) truncated;
  let id := le_val (takeN 2 header) in
  let length := le_val (dropN 2 header) in
  value_end ← ok_or (checked_add header_end length) truncated;
  value ← ok_or (get_range bs header_end value_end) truncated;
  Ok (id, value, value_end).
Definition u32_value (id : N) (value : bytes) : result ParamsError N :=
  if len value =? 4 then Ok (le_val value) else Err (BadLength id (if len value <=? u16_max then len value else u16_max)).
Definition set_once (slot : option N) (id value : N) : result ParamsError (option N) := match slot with Some _ => Err (Repeated id) | None => Ok (Some value) end.
(** [TransportParameters::decode]: each entry takes its header at least. *)
Fixpoint param_loop (fuel : nat) (bs : bytes) (at_ : N) (dialect payload : option N) : result ParamsError (option N * option N) :=
  match fuel with
  | O => Ok (dialect, payload)
  | S fuel =>
      if at_ <? len bs then
        '(id, value, next) ← param_entry bs at_;
        if id =? ID_DIALECT then v ← u32_value id value; d ← set_once dialect id v; param_loop fuel bs next d payload
        else if id =? ID_MAX_UDP_PAYLOAD then v ← u32_value id value; m ← set_once payload id v; param_loop fuel bs next dialect m
        else param_loop fuel bs next dialect payload
      else Ok (dialect, payload)
  end.
Definition decode_params (bs : option bytes) : result ParamsError TransportParameters :=
  match bs with
  | None => Err Missing
  | Some bs =>
      '(dialect, payload) ← param_loop (S (length bs)) bs 0 None None;
      match dialect with
      | None => Err NoDialect
      | Some version =>
          if negb (version =? DIALECT_VERSION) then Err (Dialect version) else
          let m := match payload with Some m => m | None => DEFAULT_MAX_UDP_PAYLOAD end in
          if m <? MIN_DATAGRAM_BYTES then Err (PayloadTooSmall m) else Ok (mkParams m)
      end
  end.

(** ** Reading entries back *)
Definition put_entry (e : N * bytes) : bytes := le_bytes 2 e.1 ++ le_bytes 2 (len e.2) ++ e.2.
Definition entry_wf (e : N * bytes) : Prop := e.1 ≤ u16_max ∧ len e.2 ≤ u16_max.
Lemma len_put_entry e : len (put_entry e) = 4 + len e.2.
Proof. unfold put_entry. rewrite !len_app, !len_le_bytes. lia. Qed.
Lemma param_entry_at pre e rest : entry_wf e → len (pre ++ put_entry e ++ rest) ≤ u64_max → param_entry (pre ++ put_entry e ++ rest) (len pre) = Ok (e.1, e.2, len (pre ++ put_entry e)).
Proof.
  destruct e as [id value]. intros [Hid Hv] Hlen. cbn [fst snd] in *. rewrite !len_app, !len_put_entry in *. cbn [snd] in *. unfold param_entry, ENTRY_HEADER_BYTES.
  rewrite (proj2 (checked_add_some (len pre) 4 (len pre + 4))) by lia. cbn [ok_or mbind result_bind].
  assert (get_range (pre ++ put_entry (id, value) ++ rest) (len pre) (len pre + 4) = Some (le_bytes 2 id ++ le_bytes 2 (len value))) as ->.
  { unfold put_entry. cbn [fst snd]. replace (pre ++ (le_bytes 2 id ++ le_bytes 2 (len value) ++ value) ++ rest) with (pre ++ (le_bytes 2 id ++ le_bytes 2 (len value)) ++ value ++ rest) by (by rewrite <- !app_assoc).
    apply get_range_mid; [done|]. by rewrite len_app, !len_le_bytes. }
  cbn [ok_or mbind result_bind]. rewrite takeN_app_eq, dropN_app_eq by (by rewrite len_le_bytes). rewrite !le_val_bytes by (unfold u16_max in *; simpl; lia).
  rewrite (proj2 (checked_add_some (len pre + 4) (len value) (len pre + 4 + len value))) by lia. cbn [ok_or mbind result_bind].
  assert (get_range (pre ++ put_entry (id, value) ++ rest) (len pre + 4) (len pre + 4 + len value) = Some value) as ->.
  { unfold put_entry. cbn [fst snd]. replace (pre ++ (le_bytes 2 id ++ le_bytes 2 (len value) ++ value) ++ rest) with ((pre ++ le_bytes 2 id ++ le_bytes 2 (len value)) ++ value ++ rest) by (by rewrite <- !app_assoc).
    apply get_range_mid; rewrite !len_app, !len_le_bytes; lia. }
  cbn [ok_or mbind result_bind]. do 2 f_equal. lia.
Qed.
(** What each entry does to the parameters read so far. *)
Definition entry_step (s : option N * option N) (e : N * bytes) : result ParamsError (option N * option N) :=
  if e.1 =? ID_DIALECT then v ← u32_value e.1 e.2; d ← set_once s.1 e.1 v; Ok (d, s.2)
  else if e.1 =? ID_MAX_UDP_PAYLOAD then v ← u32_value e.1 e.2; m ← set_once s.2 e.1 v; Ok (s.1, m)
  else Ok s.
Fixpoint entry_steps (s : option N * option N) (es : list (N * bytes)) : result ParamsError (option N * option N) :=
  match es with [] => Ok s | e :: es => s ← entry_step s e; entry_steps s es end.
Lemma param_loop_entries es : ∀ pre fuel d m,
  Forall entry_wf es → len (pre ++ concat (map put_entry es)) ≤ u64_max → (length (concat (map put_entry es)) < fuel)%nat →
  param_loop fuel (pre ++ concat (map put_entry es)) (len pre) d m = entry_steps (d, m) es.
Proof.
  induction es as [|e es IH]; intros pre fuel d m Hwf Hlen Hf; (destruct fuel as [|fuel]; [lia|]); cbn [map concat param_loop entry_steps].
  { rewrite app_nil_r, N.ltb_irrefl. done. }
  apply Forall_cons in Hwf as [He Hwf]. cbn [map concat] in *. rewrite (proj2 (N.ltb_lt _ _)) by (rewrite !len_app, len_put_entry; lia). rewrite (param_entry_at pre e _ He Hlen). cbn [mbind result_bind].
  rewrite length_app in Hf. pose proof (len_put_entry e) as Lp. unfold len in Lp at 1. assert (∀ d m, param_loop fuel (pre ++ put_entry e ++ concat (map put_entry es)) (len (pre ++ put_entry e)) d m = entry_steps (d, m) es) as Hnext.
  { intros d' m'. rewrite app_assoc. apply IH; [done|by rewrite <- app_assoc|lia]. }
  unfold entry_step. cbn [fst snd]. destruct (e.1 =? ID_DIALECT); [|destruct (e.1 =? ID_MAX_UDP_PAYLOAD)]; [..|apply Hnext].
  - destruct (u32_value e.1 e.2) as [v|]; cbn [mbind result_bind]; [|done]. destruct (set_once d e.1 v) as [d'|]; cbn [mbind result_bind]; [apply Hnext|done].
  - destruct (u32_value e.1 e.2) as [v|]; cbn [mbind result_bind]; [|done]. destruct (set_once m e.1 v) as [m'|]; cbn [mbind result_bind]; [apply Hnext|done].
Qed.
Lemma entry_steps_app s es es' : entry_steps s (es ++ es') = (s' ← entry_steps s es; entry_steps s' es').
Proof. revert s. induction es as [|e es IH]; intros s; [done|]. cbn [app entry_steps]. destruct (entry_step s e); cbn; [apply IH|done]. Qed.
Lemma entry_steps_unknown s es : Forall (λ e, e.1 ≠ ID_DIALECT ∧ e.1 ≠ ID_MAX_UDP_PAYLOAD) es → entry_steps s es = Ok s.
Proof.
  induction 1 as [|e es [H1 H2] _ IH]; [done|]. cbn [entry_steps]. unfold entry_step. by rewrite (proj2 (N.eqb_neq _ _) H1), (proj2 (N.eqb_neq _ _) H2).
Qed.
Definition dialect_entry : N * bytes := (ID_DIALECT, le_bytes 4 DIALECT_VERSION).
Definition payload_entry (p : TransportParameters) : N * bytes := (ID_MAX_UDP_PAYLOAD, le_bytes 4 (max_udp_payload p)).

(** A peer of a later version, whose parameters hold entries this one does not know, before, between and after the known ones, is read
    as it declared itself; and whatever bytes decode give a largest payload of at least the floor. *)
Theorem params_round_trip (p : TransportParameters) (before between after : list (N * bytes)) (bs : bytes) (q : TransportParameters) :
  Forall (λ e, entry_wf e ∧ e.1 ≠ ID_DIALECT ∧ e.1 ≠ ID_MAX_UDP_PAYLOAD) (before ++ between ++ after) → MIN_DATAGRAM_BYTES ≤ max_udp_payload p → max_udp_payload p ≤ u32_max →
  let es := before ++ dialect_entry :: between ++ payload_entry p :: after in
  len (concat (map put_entry es)) ≤ u64_max → decode_params (Some bs) = Ok q →
  decode_params (Some (concat (map put_entry es))) = Ok p ∧ encode_params p = concat (map put_entry [dialect_entry; payload_entry p])
  ∧ MIN_DATAGRAM_BYTES ≤ max_udp_payload q.
Proof.
  intros Hun Hmin Hmax es Hlen Hq. assert (Forall (λ e : N * bytes, e.1 ≠ ID_DIALECT ∧ e.1 ≠ ID_MAX_UDP_PAYLOAD) (before ++ between ++ after)) as Hun' by (eapply Forall_impl; [exact Hun|]; by intros e (_&?)).
  apply Forall_app in Hun' as [U1 U2]. apply Forall_app in U2 as [U2 U3]. assert (Forall entry_wf es) as Hwf.
  { apply Forall_app in Hun as [W1 W2]. apply Forall_app in W2 as [W2 W3]. unfold es. apply Forall_app. split; [eapply Forall_impl; [exact W1|]; by intros e [? _]|]. constructor; [by vm_compute|].
    apply Forall_app. split; [eapply Forall_impl; [exact W2|]; by intros e [? _]|]. constructor; [|eapply Forall_impl; [exact W3|]; by intros e [? _]]. split; [done|]. unfold payload_entry. cbn [snd]. by rewrite len_le_bytes. }
  split_and!; [|done|].
  - unfold decode_params. rewrite (param_loop_entries es [] _ None None Hwf Hlen) by lia. unfold es. rewrite entry_steps_app, (entry_steps_unknown _ _ U1). cbn [mbind result_bind].
    change (dialect_entry :: between ++ payload_entry p :: after) with ([dialect_entry] ++ between ++ payload_entry p :: after). rewrite entry_steps_app.
    assert (entry_steps (None, None) [dialect_entry] = Ok (Some DIALECT_VERSION, None)) as -> by (by vm_compute). cbn [mbind result_bind]. rewrite entry_steps_app, (entry_steps_unknown _ _ U2). cbn [mbind result_bind entry_steps].
    assert (entry_step (Some DIALECT_VERSION, None) (payload_entry p) = Ok (Some DIALECT_VERSION, Some (max_udp_payload p))) as ->.
    { unfold entry_step, payload_entry. cbn [fst snd N.eqb ID_MAX_UDP_PAYLOAD ID_DIALECT Pos.eqb]. unfold u32_value. rewrite len_le_bytes. cbn [N.eqb N.of_nat]. rewrite le_val_bytes by (unfold u32_max in Hmax; simpl; lia). done. }
    cbn [mbind result_bind]. rewrite (entry_steps_unknown _ _ U3). cbn [mbind result_bind]. rewrite N.eqb_refl. cbn [negb]. rewrite (proj2 (N.ltb_ge _ _) Hmin). by destruct p.
  - revert Hq. unfold decode_params. destruct (param_loop _ _ _ _ _) as [[[d|] m]|]; cbn [mbind result_bind]; try done. destruct (negb _); [done|].
    destruct (N.ltb_spec (match m with Some m => m | None => DEFAULT_MAX_UDP_PAYLOAD end) MIN_DATAGRAM_BYTES) as [|H]; [done|]. by intros [= <-].
Qed.
Lemma params_round_trip_witness :
  decode_params (Some (concat (map put_entry [(7, [byte_of 1]); dialect_entry; payload_entry (mkParams 1500); (9, [])]))) = Ok (mkParams 1500).
Proof.
  apply (params_round_trip (mkParams 1500) [(7, [byte_of 1])] [] [(9, [])] (encode_params (mkParams 1400)) (mkParams 1400)).
  - repeat constructor; by vm_compute.
  - by vm_compute.
  - by vm_compute.
  - by vm_compute.
  - by vm_compute.
Defined.
