(* ===== verification/Findings.v ===== *)
(** * Behaviours the merge does not promise

    Concrete runs of the modelled code whose results differ from what the
    comments beside it say, each evaluated. *)

From S2P Require Import Prelude Range OpsDoc ByteSplice PosMap Special Origin IncrementDoc Journal.
From S2P Require Import Namespace Volume History Rejected Identity Green GreenOps GreenReach.
#[local] Open Scope N_scope.
#[local] Open Scope string_scope.
#[local] Existing Instance prefix_hash.

(** The current bytes of a file, as text. *)
Definition text_of (g : Green) (path : string) : option string :=
  of_bytes <$> d_cur (content (g_state g)) !! path.
Definition files_green (files : list (string * string)) : Green :=
  with_origin (mkOrigin (map (λ e, (e.1, as_bytes e.2)) files) [] [] [] [] [] []).
(** Submit in turn. *)
Definition submits (g : Green) (incs : list Increment) : Green := foldl (λ g i, (submit g i).1) g incs.

(** ** A rename that carries an edit *)

(** The document composed from "rename [a] to [c], then insert two bytes at
    the front of [c]". *)
Definition doc_rename_edit : OpsDoc :=
  match compose_volume (of_files [("a", 5)]) [VolumeOp.Rename "a" "c"; VolumeOp.Insert "c" 0 2] with
  | Ok d => d | Err _ => OpsDoc_new end.
Definition inc_rename_edit : Increment := mkIncrement [byte_of 1] 0 doc_rename_edit (as_bytes "XXhello") [].

(** The submission is accepted and the inserted bytes are nowhere. *)
Example rename_drops_edit :
  let '(g, outcome) := submit (files_green [("a", "hello")]) inc_rename_edit in
  outcome = Accepted 1 ∧ text_of g "c" = Some "hello" ∧ text_of g "a" = None ∧
  length (ops doc_rename_edit) = 2%nat.
Proof. vm_compute. done. Qed.

(** ** An edit written against a file a rename has replaced *)
Definition inc_rename_over : Increment :=
  increment_of 1 0 ["p"; "q"] [mkOp OpKind.Rename 0 0 0 0 1] "".
Definition inc_stale_edit : Increment :=
  increment_of 2 0 ["p"] [mkOp OpKind.Overwrite 0 0 0 2 0] "xx".

(** The overwrite of the old file's first two bytes is accepted and appended
    to the file that replaced it. *)
Example stale_edit_on_replaced_file :
  let g1 := submits (files_green [("p", "aaaa"); ("q", "bbbbbbbb")]) [inc_rename_over] in
  let '(g2, outcome) := submit g1 inc_stale_edit in
  text_of g1 "p" = Some "bbbbbbbb" ∧ outcome = Accepted 2 ∧ text_of g2 "p" = Some "bbbbbbbbxx".
Proof. vm_compute. done. Qed.

(** ** A truncation over a concurrent append *)
Definition inc_append : Increment :=
  increment_of 1 0 ["a"] [mkOp OpKind.Extend 0 0 5 3 0] "!!!".
Definition inc_truncate : Increment :=
  increment_of 2 0 ["a"] [mkOp OpKind.Truncate 0 0 2 3 u64_max] "".
Example truncate_drops_concurrent_append :
  let g1 := submits (files_green [("a", "hello")]) [inc_append] in
  let '(g2, outcome) := submit g1 inc_truncate in
  text_of g1 "a" = Some "hello!!!" ∧ outcome = Accepted 2 ∧ text_of g2 "a" = Some "he".
Proof. vm_compute. done. Qed.

(** ** A rename whose source became a symlink *)
Definition incs_to_symlink : list Increment :=
  [increment_of 1 0 ["f"] [mkOp OpKind.Unlink 0 0 0 0 u64_max] "";
   increment_of 2 1 ["f"; "t"] [mkOp OpKind.Symlink 0 0 0 0 1] ""].
Definition inc_rename_fg : Increment :=
  increment_of 3 0 ["f"; "g"] [mkOp OpKind.Rename 0 1 0 0 0] "".
Example renamed_symlink_over_file :
  let '(g, outcome) := submit (submits (files_green [("f", "x"); ("g", "y")]) incs_to_symlink) inc_rename_fg in
  outcome = Accepted 3 ∧ text_of g "g" = Some "y" ∧ d_cur (symlinks (g_state g)) !! "g" = Some "t".
Proof. vm_compute. done. Qed.

(** ** A truncation rebased *)
Example rebased_truncate_length :
  let '(_, rebased) := rebase (files_green [("a", "hello")]) inc_truncate in
  match rebased with
  | RebasedTo to changed journal =>
      changed !! "a" = Some (Some (as_bytes "he")) ∧ journal = [VolumeOp.Truncate "a" 3]
  | RebaseConflict _ => False
  end.
Proof. vm_compute. done. Qed.

(** ** The reservation *)
Definition inc_rename_create : Increment :=
  increment_of 1 0 ["c"; "a"] [mkOp OpKind.Create 0 0 0 0 u64_max; mkOp OpKind.Rename 0 0 0 0 1] "".
Example reservation_exceeded :
  let g := files_green [("a", "hello")] in
  let '(g', outcome) := submit g inc_rename_create in
  outcome = Accepted 1 ∧ history_reservation g inc_rename_create = 5 ∧
  history_bytes (g_state g') = 10.
Proof. vm_compute. done. Qed.

(** ** A zero-length point *)

(** A point strictly inside an overwritten range does not map. *)
Example point_inside_overlaps :
  map_range [[mkOp OpKind.Overwrite 0 0 2 4 0]] (mkRange 3 0) = Overlaps.
Proof. vm_compute. reflexivity. Qed.

(** ** Directories over hard links *)
Definition base_linked : Base :=
  mkBase [("a", 5)] [] [] [] [] [] [("h", "a")].
Example mkdir_over_base_hardlink_composes :
  match compose_volume base_linked [VolumeOp.Mkdir "h"] with Ok _ => True | Err _ => False end ∧
  match compose_volume base_linked [VolumeOp.Mkdir "a"] with Ok _ => False | Err _ => True end.
Proof. vm_compute. done. Qed.

(** ** Two kinds at one path *)
Definition inc_create_mkdir : Increment :=
  increment_of 1 0 ["n"] [mkOp OpKind.Create 0 0 0 0 u64_max; mkOp OpKind.Mkdir 0 0 0 0 u64_max] "".
Example file_and_directory_at_one_path :
  let '(g, outcome) := submit (files_green []) inc_create_mkdir in
  outcome = Accepted 1 ∧ text_of g "n" = Some "" ∧ has_elem (dirs (g_state g)) "n" = true.
Proof. vm_compute. done. Qed.

(** ** A rename chain rebased *)
Definition inc_rename_chain : Increment :=
  increment_of 1 0 ["a"; "b"; "c"]
    [mkOp OpKind.Rename 0 1 0 0 0; mkOp OpKind.Rename 0 2 0 0 1] "".

(** The submission puts [a]'s bytes at [b]; the rebase reports [b] removed. *)
Example rename_chain_rebased :
  let g := files_green [("a", "xx"); ("b", "yyy")] in
  let g' := (submit g inc_rename_chain).1 in
  text_of g' "b" = Some "xx" ∧ text_of g' "c" = Some "yyy" ∧ text_of g' "a" = None ∧
  match (rebase g inc_rename_chain).2 with
  | RebasedTo _ changed _ => changed !! "b" = Some None
  | RebaseConflict _ => False
  end.
Proof. vm_compute. done. Qed.
